(* ===== verification/_CoqProject ===== *)
-Q . S2P
Prelude.v
Bytes.v
Text.v
Channel.v
Envelope.v
Json.v
JsonObject.v
Model.v
Digest.v
Summary.v
Coalesce.v
Query.v
DeviceAuth.v
Devices.v
Pairing.v
PairingSafety.v
PairingLimits.v
PairingExchange.v
Recipients.v
Keyring.v
Dek.v
HistoryCrypto.v
Record.v
SegmentIndex.v
SegmentBuilder.v
SegmentRun.v
SegmentContent.v
FrameCache.v
SegmentReader.v
ServerDecrypt.v
SegmentPlan.v
SegmentSeal.v
JournalScan.v
JournalRepair.v
JournalLines.v
JournalRecover.v
JournalConverge.v
JournalBackup.v
JournalValidate.v
JournalFast.v
JournalExample.v
Replay.v
ReplayPages.v
ReplayComplete.v
ReplaySegments.v
ReplayExample.v
FollowUps.v
IpPool.v
Handshake.v
Peer.v
Tunnel.v
TunnelPermits.v
TunnelSafety.v
TunnelRoundtrip.v
TunnelExample.v
Payload.v
Append.v
AppendNonce.v
AppendJournal.v
AppendCaches.v
AppendRefine.v
AppendExample.v
Base64.v
ApiKeys.v
ApiKeysInvariant.v
ApiKeysSafety.v
ApiKeysRoundtrip.v
ApiKeysLimit.v
ApiKeysExample.v
AgentEvents.v
AgentCalls.v
AgentCallsTap.v
AgentCallsSafety.v
AgentCallsExample.v
AgentScope.v
AgentScopeSafety.v
