(* ===== verification/Prelude.v ===== *)
(** * TodeX backend: verification library

    [todex-agentd] is a daemon that runs coding agents for remote clients. A
    client pairs a device with it, signs every request with the device's key,
    talks to it through an encrypted transport, and reads conversations that
    the daemon journals, encrypts for their recipients and seals into
    compressed segments. This library models the parts of the daemon that
    carry those guarantees and proves them.

    ** Conventions

    A Rust function is a Rocq function of the same name; a method taking
    [&mut self] is a computation in the monad [M] of this file (the state is
    returned on the error path too, because what was written stays written); a
    [Result] is [result]; a struct is a record, an enum an inductive type. An
    integer is an [N] and the code's checked, saturating or wrapping arithmetic
    is written out where a bound matters. A [HashMap] or [BTreeMap] is a [gmap],
    iterated in key order ([btree_iter]) where the order is observable. Strings
    are UTF-8: Stdlib [string] in the conversation code, [bytes] in the
    authentication and transport code. Clocks, random bytes, file-system
    answers and lock time-outs are arguments of the operation that meets them.
    Third-party code (ciphers, hashes, base64, JSON, DEFLATE, the LRU map) is a
    class with its documented laws; every theorem that assumes such laws has a
    witness over a concrete instance. Loops that are not structural take fuel
    that a lemma shows to be enough: the number of bytes left ([chunks_go],
    [decode_loop], [percent_decode]), the number of entries an eviction loop can
    remove ([evict]), the number of ordinals in use ([free_ordinal]), the depth
    of a JSON value ([redact_go], [collect_string_leaves]), the number of
    strings that can be cut ([bound_loop]).

    ** Parts, files and what is shown

    - Transport (src/transport_crypto): [Channel] (channel.rs) the record
      cipher and the WebSocket frames: sealed frames open, in order, once, and
      no nonce repeats; [Envelope] (envelope.rs) record streams: chunking does
      not matter, streams round-trip and no stream is a prefix of another;
      [Handshake] (handshake.rs, mod.rs) the key agreement, which gives client
      and server one channel, and the key file, whose cached copy is never
      stale.
    - Tunnel (src/server): [Peer] (listen_addrs.rs, enforcement.rs and parts of
      device_auth.rs) which requests count as local; [Tunnel] (sealed.rs) the
      sealed REST tunnel as a state machine; [TunnelSafety] shows that it
      forwards whole, admitted requests and answers peers that stall,
      [TunnelPermits] that its permits are conserved over all requests,
      [TunnelRoundtrip] that an honest exchange is exact in both directions;
      [TunnelExample] one exchange.
    - Authentication: [Query] and [DeviceAuth] (device_auth.rs) the canonical
      query, the signed payload, the nonce cache and the middleware: what is
      forwarded was signed by a paired device, once; [Devices] (devices.rs) the
      registry file shared with the TUI: it refines a map of devices, and a
      revoked device is refused from then on; [Pairing] (device_pairing.rs) how
      a device gets there: [PairingSafety] shows that only approved devices are
      registered and that a credential is delivered once, over any
      interleaving of calls, [PairingLimits] the bounds on what strangers can
      cause, [PairingExchange] that the verification code binds the whole
      exchange and that an honest client is paired; [Text] and [Bytes] are the
      parts of the standard library these use.
    - Conversations (src/conversation): [Json], [JsonObject] JSON values behind
      an interface; [Model] (model.rs) events and status; [Digest] (digest.rs)
      the fold of a journal, equal to the full-history scans and mergeable;
      [Summary] (summary.rs) what replays show; [Coalesce] (coalesce.rs and its
      driver in store.rs) streaming text merged without loss; [Record]
      (record.rs) journal lines and end-to-end encrypted records.
    - Segments (src/conversation/segment.rs): [SegmentIndex] the frame table and
      the lookup; [SegmentBuilder] writing frames; [SegmentRun] the invariant of
      a build, whose index the loader accepts and whose nonces are unique;
      [SegmentContent] what the bytes of the file hold; [FrameCache] the shared
      cache; [SegmentReader] reading back; [SegmentPlan] and [SegmentSeal]
      sealing plaintext journal files, which keeps every record or covers it;
      [ServerDecrypt] (server_decrypt.rs) reading sealed history with an API
      key, across all of the above.
    - Recovery (src/conversation/store.rs): [JournalScan] the two scans of a
      journal, the validating one and the fast one; [JournalRepair] what is
      done about damage, and the passes; [JournalLines] and [JournalRecover]
      the invariant of a scan, [JournalConverge] what a repair leaves;
      [JournalValidate] shows that validation of any bytes ends with an index
      of dense sequences, [JournalBackup] that it destroys nothing,
      [JournalFast] that the fast scan builds the same index; [JournalExample]
      a damaged journal.
    - Replay (src/conversation/store.rs): [Replay] the index, the byte budget
      and the two calls of a client; [ReplayPages] what a page holds;
      [ReplayComplete] shows that following the pages reads the whole journal,
      [ReplaySegments] that the segments the daemon builds can be read so;
      [ReplayExample] a journal of both kinds of files.
    - Appends (src/conversation/store.rs, model.rs): [Payload] redaction and
      the bounds on payloads: what is journalled has no secrets and fits;
      [Append] the write path, from the tail it continues to the manifest that
      mirrors it, with whatever the disk answers; [AppendNonce] shows that no
      nonce is used twice over any history of failures, repairs and restarts,
      [AppendJournal] and [AppendCaches] what files and caches hold,
      [AppendRefine] that an append refines an append to a log, which replays
      read back; [AppendExample] a journal appended to, and the one repair
      after which a nonce is used again.
    - History keys (src/history_keys, history_crypto.rs): [Recipients] the
      recipient registry and its epochs; [Keyring] the wrapped keys of each
      conversation; [Dek] the keys held in memory; [HistoryCrypto] nonces,
      associated data and key wrapping.
    - External API: [ApiKeys] (api_keys.rs, server/api/auth.rs) the key file
      several processes share and the authentication of requests;
      [ApiKeysInvariant] what every process keeps over any interleaving;
      [ApiKeysSafety] shows that a revoked key stays revoked, and what becomes
      of revocations that could not be written, [ApiKeysRoundtrip] that a
      created key is accepted until it expires, [ApiKeysLimit] how often an
      address can guess; [ApiKeysExample] two processes, over the base64url of
      [Base64].
    - Agent calls (src/agent_calls): [AgentEvents] (events.rs) how turns are
      followed, through a tap or as the stream of an API key, which loses and
      repeats nothing; [AgentCalls] (calls.rs) the calls by which one agent runs
      another; [AgentCallsTap] shows that a tap is enough to follow a call,
      [AgentCallsSafety] that calls are limited, end with the turn that made
      them when it is stopped, and are reported after a restart, over any
      interleaving with turns, monitors and hooks; [AgentCallsExample] a
      cancelled parent; [AgentScope] (settings.rs, policy.rs, caller.rs, mod.rs)
      what calls may do, and [AgentScopeSafety] that they stay within it.
    - Supervisor: [FollowUps] (provider/supervisor/follow_ups.rs) the queue of
      prompts and its schedule.
    - SSH: [IpPool] (ssh/ip_pool.rs) the loopback address pool.

    Components call each other through classes: [JsonView] and [Serde] between
    records and segments, [Lru] and [FrameCodec] under the cache and the
    builder, [SegmentKeys] and [RecipientSource] between the key manager, the
    keyrings and the registry, [AuthCrypto] between the registry, the
    authenticator and pairing, [PairingCrypto] under pairing,
    [TransportCrypto] and [HttpCrate] under the handshake and the tunnel.

    ** Not modelled

    Child processes and their protocols (provider drivers, the Codex gateway,
    terminals, ssh and file transfer, the browser and the desktop), HTTP
    routing and serialization, the terminal user interface, installation and
    update, and the editing of other programs' configuration files: their
    behaviour is that of the programs and systems they drive. Creating,
    listing and deleting conversations, publishing and rebuilding segment
    files, retention, private conversations (kept in memory), the quota store and the
    scheduling of kanban tasks are not modelled either: they are files and
    timers around the parts above. *)
From stdpp Require Export base gmap strings list sorting.
From Stdlib Require Export ZArith NArith Lia.

(** ** Fallible computations *)

(** Rust's [Result<T, E>], the error type first so that [result E] is a
    functor and stdpp's monadic notations apply to it. *)
Inductive result (E A : Type) : Type :=
  | Ok (a : A)
  | Err (e : E).
Arguments Ok {E A} a.
Arguments Err {E A} e.

#[export] Instance result_ret {E} : MRet (result E) := fun A a => Ok a.
#[export] Instance result_bind {E} : MBind (result E) :=
  fun A B f r => match r with Ok a => f a | Err e => Err e end.
#[export] Instance result_fmap {E} : FMap (result E) :=
  fun A B f r => match r with Ok a => Ok (f a) | Err e => Err e end.

(** The variants of [AppError] (src/src/error.rs) the modelled code raises. *)
Inductive AppError : Type :=
  | InvalidRequest (message : string)
  | Unauthenticated
  | AuthTimestampRejected (server_time : N)
  | Unauthorized (message : string)
  | Unsupported (message : string)
  | NotFound (message : string)
  | Conflict (message : string)
  | ResourceExhausted (message : string)
  | PayloadTooLarge (message : string)
  | RateLimited (message : string) (retry_after_secs : N)
  | TransportBusy
  | PairingBusy (message : string)
  | ProtocolUpgradeRequired (message : string)
  | RequestTimeout
  | TransportCryptoFailed
  | HistoryAccessRevoked
  | HistoryKeyRequired
  | HistoryReadOnly
  | IoError (message : string)
  | Serialization (message : string)
  | Anyhow (message : string).

#[export] Instance AppError_eq_dec : EqDecision AppError.
Proof. solve_decision. Defined.

#[export] Instance result_eq_dec {E A} `{EqDecision E, EqDecision A} : EqDecision (result E A).
Proof. solve_decision. Defined.

(** [ok_or o e]: Rust's [Option::ok_or]. *)
Definition ok_or {E A} (o : option A) (e : E) : result E A :=
  match o with Some a => Ok a | None => Err e end.

(** [map_err f r]: Rust's [Result::map_err]. *)
Definition map_err {E F A} (f : E → F) (r : result E A) : result F A :=
  match r with Ok a => Ok a | Err e => Err (f e) end.

(** [ok r]: Rust's [Result::ok]. *)
Definition ok {E A} (r : result E A) : option A :=
  match r with Ok a => Some a | Err _ => None end.

(** [guard_err b e]: [if !b { return Err(e) }]. *)
Definition guard_err {E} (b : bool) (e : E) : result E unit :=
  if b then Ok tt else Err e.

(** The [for x in xs { acc = body(acc, x)? }] loop. *)
Fixpoint fold_result {E A B} (f : A → B → result E A) (a : A) (l : list B) : result E A :=
  match l with
  | [] => Ok a
  | x :: l => match f a x with Ok a' => fold_result f a' l | Err e => Err e end
  end.

(** [iter().map(f).collect::<Result<Vec<_>, _>>()]. *)
Fixpoint map_result {E A B} (f : A → result E B) (l : list A) : result E (list B) :=
  match l with
  | [] => Ok []
  | x :: l =>
      match f x with
      | Ok y => match map_result f l with Ok ys => Ok (y :: ys) | Err e => Err e end
      | Err e => Err e
      end
  end.

Section result_lemmas.
Context {E : Type}.

Lemma bind_Ok_inv {A B} (r : result E A) (f : A → result E B) b :
  r ≫= f = Ok b → ∃ a, r = Ok a ∧ f a = Ok b.
Proof. destruct r as [a|e]; [by eauto | by intros ?]. Qed.

Lemma ok_or_Ok_inv {A} (o : option A) (e : E) a : ok_or o e = Ok a → o = Some a.
Proof. destruct o; by intros [= ->]. Qed.

Lemma guard_err_Ok_inv (b : bool) (e : E) u : guard_err b e = Ok u → b = true.
Proof. by destruct b. Qed.

Lemma fold_result_app {A B} (f : A → B → result E A) a l1 l2 :
  fold_result f a (l1 ++ l2) = fold_result f a l1 ≫= λ a', fold_result f a' l2.
Proof.
  revert a; induction l1 as [|x l1 IH]; intros a; [done|].
  simpl. destruct (f a x); [apply IH | done].
Qed.

Lemma fold_result_preserves {A B} (P : A → Prop) (f : A → B → result E A) a l a' :
  (∀ a x a', x ∈ l → P a → f a x = Ok a' → P a') →
  P a → fold_result f a l = Ok a' → P a'.
Proof.
  revert a; induction l as [|x l IH]; intros a Hf Ha; simpl; [by intros [= <-]|].
  destruct (f a x) as [a1|e] eqn:Hx; [|done].
  apply IH; [|by eapply Hf; [left| |]].
  intros ??? ?; apply Hf. by right.
Qed.

Lemma map_result_Forall2 {A B} (f : A → result E B) l l' :
  map_result f l = Ok l' → Forall2 (λ x y, f x = Ok y) l l'.
Proof.
  revert l'; induction l as [|x l IH]; intros l'; simpl; [by intros [= <-]|].
  destruct (f x) eqn:?; [|done]. destruct (map_result f l); [|done].
  intros [= <-]. constructor; auto.
Qed.
End result_lemmas.

(** Invert every successful monadic step in the context. *)
Ltac res_inv :=
  repeat match goal with
  | H : (_ ≫= _) = Ok _ |- _ => apply bind_Ok_inv in H as (? & ? & ?)
  | H : ok_or _ _ = Ok _ |- _ => apply ok_or_Ok_inv in H
  | H : guard_err _ _ = Ok _ |- _ => apply guard_err_Ok_inv in H
  | H : Ok _ = Ok _ |- _ => injection H as H
  | H : Err _ = Ok _ |- _ => discriminate H
  | H : Ok _ = Err _ |- _ => discriminate H
  end; simplify_eq.

(** Case on the scrutinee of the first [match] or [if], keeping the equation. *)
Ltac case_on :=
  match goal with
  | |- context [match ?x with _ => _ end] => let E := fresh "Hc" in destruct x eqn:E
  end.
Ltac case_in H :=
  match type of H with
  | context [match ?x with _ => _ end] => let E := fresh "Hc" in destruct x eqn:E
  end.

(** ** Stateful fallible computations

    [M S E A] is a method taking [&mut self] (of type [S]) and returning
    [Result<A, E>]: the state is returned on both paths, because what a Rust
    method wrote before [return Err(..)] stays written. *)
Definition M (S E A : Type) : Type := S → S * result E A.

#[export] Instance M_ret {S E} : MRet (M S E) := fun A a s => (s, Ok a).
#[export] Instance M_bind {S E} : MBind (M S E) :=
  fun A B f m s => match m s with (s', Ok a) => f a s' | (s', Err e) => (s', Err e) end.

Definition throw {S E A} (e : E) : M S E A := λ s, (s, Err e).
Definition lift_result {S E A} (r : result E A) : M S E A := λ s, (s, r).

(** Reading the state, and changing it. *)
Definition asks {S E A} (f : S → A) : M S E A := λ s, (s, Ok (f s)).
Definition updates {S E} (f : S → S) : M S E unit := λ s, (f s, Ok tt).

Lemma M_bind_Ok_inv {S E A B} (m : M S E A) (f : A → M S E B) s s' b :
  (m ≫= f) s = (s', Ok b) → ∃ s1 a, m s = (s1, Ok a) ∧ f a s1 = (s', Ok b).
Proof.
  unfold mbind, M_bind. destruct (m s) as [s1 [a|e]]; [by eauto|by intros ?].
Qed.

Lemma M_bind_eq {S E A B} (m : M S E A) (f : A → M S E B) s s1 a :
  m s = (s1, Ok a) → (m ≫= f) s = f a s1.
Proof. unfold mbind, M_bind. by intros ->. Qed.

Lemma M_bind_ext {S E A B} (m : M S E A) (f g : A → M S E B) s :
  (∀ a s', f a s' = g a s') → (m ≫= f) s = (m ≫= g) s.
Proof. intros Hfg. unfold mbind, M_bind. destruct (m s) as [s' [a|e]]; auto. Qed.

Lemma M_bind_assoc {S E A B C} (m : M S E A) (f : A → M S E B) (g : B → M S E C) s :
  ((m ≫= f) ≫= g) s = (m ≫= λ a, f a ≫= g) s.
Proof. unfold mbind, M_bind. by destruct (m s) as [s' [a|e]]. Qed.

(** [hoare P m Q F]: from a state satisfying [P], [m] returns a value and state
    satisfying [Q], or fails with an error and state satisfying [F]. *)
Definition hoare {S E A} (P : S → Prop) (m : M S E A) (Q : A → S → Prop) (F : E → S → Prop) : Prop :=
  ∀ s, P s → match m s with (s', Ok a) => Q a s' | (s', Err e) => F e s' end.

Section hoare_lemmas.
Context {S E : Type}.
Implicit Types (P R : S → Prop) (F G : E → S → Prop).

Lemma hoare_bind {A B} P (Q : A → S → Prop) (R : B → S → Prop) F (m : M S E A) (f : A → M S E B) :
  hoare P m Q F → (∀ a, hoare (Q a) (f a) R F) → hoare P (m ≫= f) R F.
Proof.
  intros Hm Hf s Hs. specialize (Hm s Hs). unfold mbind, M_bind.
  destruct (m s) as [s' [a|e]]; [by apply Hf|done].
Qed.
Lemma hoare_ret {A} (a : A) (Q : A → S → Prop) F : hoare (Q a) (mret a) Q F.
Proof. by intros s Hs. Qed.
Lemma hoare_lift {A} P (r : result E A) (Q : A → S → Prop) F :
  (∀ a, r = Ok a → ∀ s, P s → Q a s) → (∀ e, r = Err e → ∀ s, P s → F e s) → hoare P (lift_result r) Q F.
Proof. intros HQ HF s Hs. unfold lift_result. destruct r; auto. Qed.
Lemma hoare_asks {A} P (f : S → A) F : hoare P (asks f) (λ _, P) F.
Proof. by intros s Hs. Qed.
Lemma hoare_asks_eq {A} P (f : S → A) F : hoare P (asks f) (λ a s, P s ∧ a = f s) F.
Proof. by intros s Hs. Qed.
Lemma hoare_throw {A} P (e : E) (Q : A → S → Prop) F : (∀ s, P s → F e s) → hoare P (throw e) Q F.
Proof. intros HF s Hs. by apply HF. Qed.
Lemma hoare_updates P (f : S → S) F : hoare (λ s, P (f s)) (updates f) (λ _, P) F.
Proof. by intros s Hs. Qed.
Lemma hoare_weaken {A} P R (Q Q' : A → S → Prop) F G (m : M S E A) :
  hoare P m Q F → (∀ s, R s → P s) → (∀ a s, Q a s → Q' a s) → (∀ e s, F e s → G e s) → hoare R m Q' G.
Proof.
  intros Hm HP HQ HF s Hs. specialize (Hm s (HP s Hs)). destruct (m s) as [s' [a|e]]; auto.
Qed.
Lemma hoare_and {A} P R (Q Q' : A → S → Prop) F G (m : M S E A) :
  hoare P m Q F → hoare R m Q' G → hoare (λ s, P s ∧ R s) m (λ a s, Q a s ∧ Q' a s) (λ e s, F e s ∧ G e s).
Proof. intros H1 H2 s [Hp Hr]. specialize (H1 s Hp). specialize (H2 s Hr). destruct (m s) as [s' [a|e]]; done. Qed.
Lemma hoare_pure {A} P (φ : Prop) (Q : A → S → Prop) F (m : M S E A) :
  (φ → hoare P m Q F) → hoare (λ s, P s ∧ φ) m Q F.
Proof. intros Hm s [Hs Hφ]. by apply Hm. Qed.
(** The final state satisfies what both outcomes guarantee. *)
Lemma hoare_state {A} P R (Q : A → S → Prop) F (m : M S E A) s :
  hoare P m Q F → P s → (∀ a s, Q a s → R s) → (∀ e s, F e s → R s) → R (m s).1.
Proof. intros Hm Hs HQ HF. specialize (Hm s Hs). destruct (m s) as [s' [a|e]]; simpl; eauto. Qed.
End hoare_lemmas.

(** Lemmas the automation of the development uses. *)
Create HintDb todex.

(** ** Strings, maps and lists *)

(** [matches!(s, "a" | "b" | ..)]. *)
Definition one_of (l : list string) (s : string) : bool := existsb (String.eqb s) l.
#[global] Arguments one_of : simpl never.

Lemma one_of_spec l s : one_of l s = true ↔ s ∈ l.
Proof.
  unfold one_of. rewrite existsb_exists. setoid_rewrite String.eqb_eq.
  rewrite list_elem_of_In. split; [by intros (x & ? & ->)|by exists s].
Qed.

(** The cases of a membership in an explicit list, and of a [matches!]. *)
Ltac elem_cases H :=
  first [ by apply elem_of_nil in H | apply elem_of_cons in H as [->|H]; [|elem_cases H] ].
Ltac one_of_cases H := apply one_of_spec in H; elem_cases H.

(** [s ∈s l]: the test [matches!(s, ..)] succeeds. *)
Declare Scope todex_scope.
Delimit Scope todex_scope with todex.
Notation "s ∈s l" := (one_of l s = true) (at level 70) : todex_scope.

(** [map.entry(k)] followed by [and_modify]/[or_insert]/[or_default]: the new
    value is computed from the present one. *)
Definition entry {V} (k : string) (g : option V → V) (m : gmap string V) : gmap string V :=
  <[k := g (m !! k)]> m.

(** [for (k, v) in later { let e = map.entry(k); .. }]: one entry update per
    element of a map, in whatever order the map iterates. *)
Definition fold_entries {V} (f : option V → V → V) (m later : gmap string V) : gmap string V :=
  map_fold (λ k v acc, <[k := f (acc !! k) v]> acc) m later.

Section map_lemmas.
Context {V : Type}.
Implicit Types m later : gmap string V.

(** The iteration order does not matter: every key of [later] is combined with
    the entry present before the loop. *)
Lemma lookup_fold_entries f m later k :
  fold_entries f m later !! k =
    match later !! k with Some v => Some (f (m !! k) v) | None => m !! k end.
Proof.
  unfold fold_entries. revert k.
  apply (map_fold_weak_ind (λ acc l, ∀ k, acc !! k =
    match l !! k with Some v => Some (f (m !! k) v) | None => m !! k end)).
  - intros k. by rewrite lookup_empty.
  - intros j v l acc Hj IH k. destruct (decide (j = k)) as [->|Hne].
    + rewrite !lookup_insert_eq, IH, Hj. done.
    + rewrite !lookup_insert_ne by done. apply IH.
Qed.

Lemma fold_entries_empty f m : fold_entries f m ∅ = m.
Proof. apply map_eq. intros k. by rewrite lookup_fold_entries, lookup_empty. Qed.

(** Updating an entry of the later map is updating that entry of the result. *)
Lemma fold_entries_entry f g k m later :
  (∀ o1 o2, f o1 (g o2) = g (match o2 with Some v => Some (f o1 v) | None => o1 end)) →
  fold_entries f m (entry k g later) = entry k g (fold_entries f m later).
Proof.
  intros Hfg. apply map_eq. intros j. unfold entry.
  rewrite lookup_fold_entries. destruct (decide (k = j)) as [->|Hne].
  - rewrite !lookup_insert_eq, lookup_fold_entries, Hfg. done.
  - rewrite !lookup_insert_ne, lookup_fold_entries by done. done.
Qed.
End map_lemmas.

(** Iteration over a [BTreeMap<String, V>]: entries in key order. *)
Definition btree_iter {V} (m : gmap string V) : list (string * V) :=
  merge_sort (λ a b, String.le a.1 b.1) (map_to_list m).

(** Iteration over a [BTreeSet<String>]. *)
Definition btree_set_iter (s : gset string) : list string := merge_sort String.le (elements s).

Lemma elem_of_btree_iter {V} (m : gmap string V) k v : (k, v) ∈ btree_iter m ↔ m !! k = Some v.
Proof. unfold btree_iter. rewrite merge_sort_Permutation. apply elem_of_map_to_list. Qed.

Lemma btree_iter_keys {V} (m : gmap string V) :
  Sorted String.le (btree_iter m).*1 ∧ NoDup (btree_iter m).*1.
Proof.
  split.
  - apply (Sorted_fmap fst (λ a b, String.le a.1 b.1)); [done|]. apply Sorted_merge_sort.
    intros a b. apply total, _.
  - unfold btree_iter. rewrite merge_sort_Permutation. apply NoDup_fst_map_to_list.
Qed.

(** Sorted lists with the same elements, without repetition, are equal. *)
Lemma sorted_strings_unique (l1 l2 : list string) :
  Sorted String.le l1 → Sorted String.le l2 → NoDup l1 → NoDup l2 →
  (∀ x, x ∈ l1 ↔ x ∈ l2) → l1 = l2.
Proof.
  intros S1 S2 N1 N2 Hx. apply (Sorted_unique String.le); [done..|]. by apply NoDup_Permutation.
Qed.

Section btree_omap.
Context {V W : Type} (g : V → option W).

(** [|(k, v)| Some((k, g(v)?))]. *)
Definition value_map (p : string * V) : option (string * W) := pair p.1 <$> g p.2.

Lemma elem_of_value_map (l : list (string * V)) k w :
  (k, w) ∈ omap value_map l ↔ ∃ v, (k, v) ∈ l ∧ g v = Some w.
Proof.
  rewrite list_elem_of_omap. unfold value_map. split.
  - intros ([k' v] & Hl & HF). simpl in HF. destruct (g v) eqn:Hg; simplify_eq/=. eauto.
  - intros (v & Hl & Hg). exists (k, v). simpl. by rewrite Hg.
Qed.

Lemma value_map_sorted (l : list (string * V)) :
  StronglySorted (λ a b, String.le a.1 b.1) l →
  StronglySorted (λ a b, String.le a.1 b.1) (omap value_map l).
Proof.
  induction 1 as [|[k v] l Hs IH Hall]; simpl; [constructor|].
  unfold value_map at 1; simpl. destruct (g v); simpl; [constructor; [done|]|done].
  apply Forall_forall. intros [k' w'] (v' & Hv' & _)%elem_of_value_map.
  by apply (proj1 (Forall_forall _ _) Hall _ Hv').
Qed.

Lemma value_map_NoDup (l : list (string * V)) : NoDup l.*1 → NoDup (omap value_map l).
Proof.
  induction l as [|[k v] l IH]; simpl; [constructor|].
  intros [Hk Hnd]%NoDup_cons. unfold value_map at 1; simpl.
  destruct (g v); simpl; [|auto]. constructor; [|auto].
  intros (v' & Hv' & _)%elem_of_value_map. apply Hk. apply list_elem_of_fmap. by exists (k, v').
Qed.

Lemma btree_iter_sorted {U} (m : gmap string U) :
  StronglySorted (λ a b, String.le a.1 b.1) (btree_iter m).
Proof.
  apply StronglySorted_merge_sort; [|intros a b; apply total, _]. intros a b c; apply transitivity.
Qed.

(** Filtering and mapping the values of a [BTreeMap] while iterating is
    iterating over the map so filtered. *)
Lemma btree_iter_omap (m : gmap string V) : omap value_map (btree_iter m) = btree_iter (omap g m).
Proof.
  assert (Hlook : ∀ k w, (k, w) ∈ omap value_map (btree_iter m) ↔
                         (omap g m : gmap string W) !! k = Some w).
  { intros k w. rewrite elem_of_value_map, lookup_omap, bind_Some.
    by setoid_rewrite elem_of_btree_iter. }
  apply (StronglySorted_unique_strong (λ a b, String.le a.1 b.1)).
  - intros [k1 w1] [k2 w2] H1%Hlook H2%elem_of_btree_iter ? ?; simpl in *.
    assert (k1 = k2) as -> by by apply (anti_symm String.le). congruence.
  - apply value_map_sorted, btree_iter_sorted.
  - apply btree_iter_sorted.
  - apply NoDup_Permutation.
    + apply value_map_NoDup, btree_iter_keys.
    + apply (NoDup_fmap_1 fst), btree_iter_keys.
    + intros [k w]. by rewrite Hlook, elem_of_btree_iter.
Qed.
End btree_omap.

(** The first match of [iter().find(p)] and of [iter().rev().find(p)] when one
    more element is pushed. *)
Lemma find_snoc {A} (p : A → bool) l x :
  find p (l ++ [x]) = match find p l with Some y => Some y | None => if p x then Some x else None end.
Proof. induction l as [|y l IH]; simpl; [by destruct (p x)|]. by destruct (p y). Qed.

Lemma find_rev_snoc {A} (p : A → bool) l x :
  find p (rev (l ++ [x])) = if p x then Some x else find p (rev l).
Proof. by rewrite rev_unit. Qed.

Lemma find_rev_None {A} (p : A → bool) l : find p (rev l) = None → find p l = None.
Proof.
  induction l as [|x l IH] using rev_ind; [done|].
  rewrite find_rev_snoc, find_snoc. destruct (p x); [done|]. intros ?. by rewrite IH.
Qed.

(** [mask & (1 << bit) != 0] tests the bit. *)
Lemma mask_testbit mask bit : negb (N.land mask (N.shiftl 1 bit) =? 0)%N = N.testbit mask bit.
Proof.
  rewrite N.shiftl_1_l. destruct (N.testbit mask bit) eqn:E.
  - destruct (N.eqb_spec (N.land mask (2 ^ bit)) 0) as [Hz|]; [|done].
    assert (Ht : N.testbit (N.land mask (2 ^ bit)) bit = true)
      by by rewrite N.land_spec, N.pow2_bits_true, E.
    by rewrite Hz, N.bits_0 in Ht.
  - destruct (N.eqb_spec (N.land mask (2 ^ bit)) 0) as [|Hz]; [done|]. exfalso. apply Hz.
    apply N.bits_inj. intros i. rewrite N.land_spec, N.bits_0.
    destruct (decide (i = bit)) as [->|]; [by rewrite E|].
    rewrite N.pow2_bits_false by congruence. apply andb_false_r.
Qed.

Lemma filter_all {A} (P : A → Prop) `{∀ x, Decision (P x)} l : Forall P l → filter P l = l.
Proof. induction 1 as [|x l Hx Hl IH]; [done|]. by rewrite filter_cons_True, IH. Qed.

Lemma Forall2_impl_elem {A B} (P Q : A → B → Prop) l k :
  Forall2 P l k → (∀ x y, x ∈ l → P x y → Q x y) → Forall2 Q l k.
Proof.
  induction 1 as [|x y l k Hxy Hlk IH]; intros HPQ; constructor.
  - apply HPQ; [by left|done].
  - apply IH. intros a b Ha. apply HPQ. by right.
Qed.
