(* ===== verification/Bytes.v ===== *)
(** * Bytes, fixed-width big-endian integers and UTF-8

    The part of Rust's primitive types the transport code relies on:
    [u32::to_be_bytes], [u64::to_be_bytes] and their inverses, slices cut by
    [split_at] and [chunks], and the UTF-8 check of [String::from_utf8]. *)
From S2P Require Import Prelude.
From Stdlib Require Import Strings.Byte.
Local Open Scope N_scope.

Abbreviation byte := Byte.byte.
Abbreviation bytes := (list Byte.byte).

#[export] Instance byte_eq_decision : EqDecision byte := Byte.byte_eq_dec.

Definition byte_val (b : byte) : N := Byte.to_N b.
Definition byte_of (n : N) : byte :=
  match Byte.of_N (n mod 256) with Some b => b | None => Byte.x00 end.

Lemma byte_val_lt b : byte_val b < 256.
Proof. pose proof (Byte.to_N_bounded b). unfold byte_val. lia. Qed.

Lemma byte_val_of n : byte_val (byte_of n) = n mod 256.
Proof.
  unfold byte_val, byte_of. destruct (Byte.of_N _) eqn:E.
  - by apply Byte.to_of_N.
  - apply Byte.of_N_None_iff in E. pose proof (N.mod_lt n 256). lia.
Qed.

Lemma byte_of_val b : byte_of (byte_val b) = b.
Proof.
  unfold byte_of. rewrite N.mod_small by apply byte_val_lt.
  unfold byte_val. by rewrite Byte.of_to_N.
Qed.

#[export] Instance byte_countable : Countable byte := inj_countable' byte_val byte_of byte_of_val.

(** [to_be n v]: the [n] low bytes of [v], most significant first
    ([(v as uXX).to_be_bytes()] with [n = XX / 8]). *)
Fixpoint to_be (n : nat) (v : N) : bytes :=
  match n with
  | O => []
  | S n => to_be n (v / 256) ++ [byte_of v]
  end.

(** [uXX::from_be_bytes]. *)
Definition from_be (l : bytes) : N := foldl (λ acc b, acc * 256 + byte_val b) 0 l.

Definition u32_bound : N := 2 ^ 32.
Definition u64_MAX : N := 2 ^ 64 - 1.
Definition u32_to_be_bytes (v : N) : bytes := to_be 4 v.
Definition u64_to_be_bytes (v : N) : bytes := to_be 8 v.
#[global] Arguments u32_to_be_bytes _ : simpl never.
#[global] Arguments u64_to_be_bytes _ : simpl never.

Lemma length_to_be n v : length (to_be n v) = n.
Proof. revert v; induction n as [|n IH]; intros v; simpl; [done|]. rewrite length_app, IH. simpl. lia. Qed.

Lemma from_be_to_be n v : v < 256 ^ N.of_nat n → from_be (to_be n v) = v.
Proof.
  revert v; induction n as [|n IH]; intros v Hv; simpl to_be.
  - simpl in Hv. unfold from_be. simpl. lia.
  - unfold from_be in *. rewrite foldl_app. simpl. rewrite IH.
    + rewrite byte_val_of. pose proof (N.div_mod v 256). lia.
    + rewrite Nat2N.inj_succ, N.pow_succ_r' in Hv.
      apply N.Div0.div_lt_upper_bound; lia.
Qed.

Lemma to_be_inj n v w :
  v < 256 ^ N.of_nat n → w < 256 ^ N.of_nat n → to_be n v = to_be n w → v = w.
Proof. intros Hv Hw E. rewrite <-(from_be_to_be n v), <-(from_be_to_be n w) by done. by rewrite E. Qed.

(** [slice.chunks(n)]; [fuel] is the length of the slice, which suffices
    because every chunk of a non-empty slice is non-empty. *)
Fixpoint chunks_go {A} (fuel n : nat) (l : list A) : list (list A) :=
  match fuel, l with
  | _, [] => []
  | O, _ => []
  | S fuel, _ => take n l :: chunks_go fuel n (drop n l)
  end.
Definition chunks {A} (n : nat) (l : list A) : list (list A) := chunks_go (length l) n l.

Section chunks.
Context {A : Type}.
Implicit Types l : list A.

Lemma chunks_go_concat fuel n l :
  (0 < n)%nat → (length l ≤ fuel)%nat → concat (chunks_go fuel n l) = l.
Proof.
  intros Hn. revert l; induction fuel as [|fuel IH]; intros [|x l] Hl; simpl in *; try done; [lia|].
  destruct n as [|n]; [lia|]. simpl. f_equal.
  rewrite IH by (rewrite length_drop; lia). apply take_drop.
Qed.

Lemma chunks_concat n l : (0 < n)%nat → concat (chunks n l) = l.
Proof. intros. by apply chunks_go_concat. Qed.

Lemma chunks_go_length fuel n l :
  Forall (λ c, (length c ≤ n)%nat) (chunks_go fuel n l).
Proof.
  revert l; induction fuel as [|fuel IH]; intros [|x l]; simpl; try constructor; [|apply IH].
  rewrite length_take. lia.
Qed.

Lemma chunks_length n l : Forall (λ c, (length c ≤ n)%nat) (chunks n l).
Proof. apply chunks_go_length. Qed.

Lemma chunks_go_small fuel n l :
  (0 < n)%nat → (length l ≤ n)%nat → l ≠ [] → (0 < fuel)%nat → chunks_go fuel n l = [l].
Proof.
  intros ? Hl Hne ?. destruct fuel as [|fuel]; [lia|]. destruct l as [|x l]; [done|].
  simpl chunks_go. rewrite take_ge, drop_ge by done. by destruct fuel.
Qed.

Lemma chunks_nil n : chunks n (@nil A) = [].
Proof. done. Qed.

Lemma chunks_ne n l : l ≠ [] → chunks n l ≠ [].
Proof. by destruct l. Qed.

(** The number of chunks is the rounded-up quotient. *)
Lemma chunks_go_count fuel n l :
  (0 < n)%nat → (length l ≤ fuel)%nat →
  (length (chunks_go fuel n l) = (length l + (n - 1)) / n)%nat.
Proof.
  intros Hn. revert l; induction fuel as [|fuel IH]; intros [|x l] Hl; simpl in Hl; try lia.
  - simpl. rewrite Nat.div_small; lia.
  - simpl chunks_go. rewrite Nat.div_small; [done|simpl; lia].
  - remember (x :: l) as k eqn:Hk. assert (Hlk : (0 < length k ≤ S fuel)%nat) by (subst; simpl; lia).
    replace (chunks_go (S fuel) n k) with (take n k :: chunks_go fuel n (drop n k))
      by (subst; done).
    clear Hk Hl. simpl length. rewrite IH by (rewrite length_drop; lia). rewrite length_drop.
    destruct (decide (length k ≤ n)%nat) as [Hle|Hgt].
    + replace (length k - n)%nat with 0%nat by lia.
      rewrite (Nat.div_small (0 + _)) by lia.
      apply (Nat.div_unique _ _ _ (length k - 1)); lia.
    + replace (length k + (n - 1))%nat with ((length k - n + (n - 1)) + 1 * n)%nat by lia.
      rewrite Nat.div_add by lia. lia.
Qed.
End chunks.

(** ** UTF-8 *)

Definition in_range (lo hi : N) (b : byte) : bool := (lo <=? byte_val b) && (byte_val b <=? hi).
Definition is_cont (b : byte) : bool := in_range 0x80 0xBF b.

(** The number of bytes of the scalar a lead byte announces (0: no lead), and
    the second bytes it admits: no overlong form, no surrogate, nothing above
    U+10FFFF. *)
Definition utf8_char_width (a : byte) : nat :=
  if in_range 0x00 0x7F a then 1
  else if in_range 0xC2 0xDF a then 2
  else if in_range 0xE0 0xEF a then 3
  else if in_range 0xF0 0xF4 a then 4
  else 0.
Definition second_ok (a b : byte) : bool :=
  if in_range 0xE0 0xE0 a then in_range 0xA0 0xBF b
  else if in_range 0xED 0xED a then in_range 0x80 0x9F b
  else if in_range 0xF0 0xF0 a then in_range 0x90 0xBF b
  else if in_range 0xF4 0xF4 a then in_range 0x80 0x8F b
  else is_cont b.

(** [str::from_utf8(..).is_ok()]. *)
Fixpoint utf8_valid (l : bytes) : bool :=
  match l with
  | [] => true
  | a :: l1 =>
      match utf8_char_width a, l1 with
      | 1%nat, _ => utf8_valid l1
      | 2%nat, b :: l2 => second_ok a b && utf8_valid l2
      | 3%nat, b :: c :: l3 => second_ok a b && is_cont c && utf8_valid l3
      | 4%nat, b :: c :: d :: l4 => second_ok a b && is_cont c && is_cont d && utf8_valid l4
      | _, _ => false
      end
  end.

(** U+FFFD. *)
Definition REPLACEMENT : bytes := [Byte.xef; Byte.xbf; Byte.xbd].

(** [String::from_utf8_lossy]: every maximal prefix of a broken scalar becomes
    one U+FFFD. *)
Fixpoint from_utf8_lossy (l : bytes) : bytes :=
  match l with
  | [] => []
  | a :: l1 =>
      match utf8_char_width a with
      | 1%nat => a :: from_utf8_lossy l1
      | 2%nat =>
          match l1 with
          | b :: l2 => if second_ok a b then a :: b :: from_utf8_lossy l2
                       else REPLACEMENT ++ from_utf8_lossy l1
          | [] => REPLACEMENT
          end
      | 3%nat =>
          match l1 with
          | b :: l2 =>
              if second_ok a b then
                match l2 with
                | c :: l3 => if is_cont c then a :: b :: c :: from_utf8_lossy l3
                             else REPLACEMENT ++ from_utf8_lossy l2
                | [] => REPLACEMENT
                end
              else REPLACEMENT ++ from_utf8_lossy l1
          | [] => REPLACEMENT
          end
      | 4%nat =>
          match l1 with
          | b :: l2 =>
              if second_ok a b then
                match l2 with
                | c :: l3 =>
                    if is_cont c then
                      match l3 with
                      | d :: l4 => if is_cont d then a :: b :: c :: d :: from_utf8_lossy l4
                                   else REPLACEMENT ++ from_utf8_lossy l3
                      | [] => REPLACEMENT
                      end
                    else REPLACEMENT ++ from_utf8_lossy l2
                | [] => REPLACEMENT
                end
              else REPLACEMENT ++ from_utf8_lossy l1
          | [] => REPLACEMENT
          end
      | _ => REPLACEMENT ++ from_utf8_lossy l1
      end
  end.

Lemma utf8_replacement l : utf8_valid (REPLACEMENT ++ l) = utf8_valid l.
Proof. reflexivity. Qed.

(** Valid text is unchanged, and the result is always valid text. *)
Lemma from_utf8_lossy_valid l : utf8_valid l = true → from_utf8_lossy l = l.
Proof.
  induction l as [l IH] using (induction_ltof1 _ length). unfold ltof in IH.
  destruct l as [|a l1]; [done|]. cbn [utf8_valid from_utf8_lossy].
  destruct (utf8_char_width a) as [|[|[|[|[|w]]]]]; try done.
  - intros Hv. rewrite IH; [done|simpl; lia|done].
  - destruct l1 as [|b l2]; [done|]. intros [Hs Hv]%andb_prop. rewrite Hs, IH; [done|simpl; lia|done].
  - destruct l1 as [|b [|c l3]]; try done. intros [[Hs Hc]%andb_prop Hv]%andb_prop.
    rewrite Hs, Hc, IH; [done|simpl; lia|done].
  - destruct l1 as [|b [|c [|d l4]]]; try done.
    intros [[[Hs Hc]%andb_prop Hd]%andb_prop Hv]%andb_prop.
    rewrite Hs, Hc, Hd, IH; [done|simpl; lia|done].
Qed.

Lemma from_utf8_lossy_is_valid l : utf8_valid (from_utf8_lossy l) = true.
Proof.
  induction l as [l IH] using (induction_ltof1 _ length). unfold ltof in IH.
  destruct l as [|a l1]; [done|]. cbn [from_utf8_lossy].
  destruct (utf8_char_width a) as [|[|[|[|[|w]]]]] eqn:Hw;
    repeat (case_match; subst); rewrite ?utf8_replacement; try (apply IH; simpl; lia); try done;
    cbn [utf8_valid]; rewrite Hw; rewrite ?IH by (simpl; lia);
    repeat match goal with E : _ = true |- _ => rewrite E end; done.
Qed.
