(* ===== verification/Text.v ===== *)
(** * Text

    The part of Rust's [str] and integer parsing the configuration code uses:
    [trim], [split_once], [parse::<u16>], [Ipv4Addr]'s parser and the decimal
    [Display]. Strings are UTF-8 byte strings. *)
From S2P Require Import Prelude.
From stdpp Require Import pretty.
From Stdlib Require Import Ascii.
Local Open Scope N_scope.

(** [start .. start + len]. *)
Fixpoint range_N (start : N) (len : nat) : list N :=
  match len with O => [] | S len => start :: range_N (start + 1) len end.
Lemma elem_of_range_N start len n : n ∈ range_N start len ↔ start ≤ n < start + N.of_nat len.
Proof.
  revert start. induction len as [|len IH]; intros start; cbn [range_N].
  - rewrite elem_of_nil. lia.
  - rewrite elem_of_cons, IH. lia.
Qed.

(** ** White space *)

Definition codes (s : string) : list N := N_of_ascii <$> String.list_ascii_of_string s.
Definition of_codes (l : list N) : string := String.string_of_list_ascii (ascii_of_N <$> l).

Definition ascii_space (c : N) : bool := ((0x09 <=? c) && (c <=? 0x0d)) || (c =? 0x20).
(** The last byte of the white space [U+2000..200A], [U+2028], [U+2029], [U+202F]. *)
Definition general_space (c : N) : bool :=
  ((0x80 <=? c) && (c <=? 0x8a)) || (c =? 0xa8) || (c =? 0xa9) || (c =? 0xaf).
(** [char::is_whitespace] on UTF-8 text, one character off the front. *)
Definition skip_space (l : list N) : option (list N) :=
  match l with
  | [] => None
  | c :: l =>
      if c <? 0x80 then (if ascii_space c then Some l else None)
      else match c, l with
           | 0xc2, 0x85 :: l | 0xc2, 0xa0 :: l => Some l
           | 0xe1, 0x9a :: 0x80 :: l | 0xe3, 0x80 :: 0x80 :: l | 0xe2, 0x81 :: 0x9f :: l => Some l
           | 0xe2, 0x80 :: z :: l => if general_space z then Some l else None
           | _, _ => None
           end
  end.
(** The same off the back of a reversed text. *)
Definition skip_space_back (l : list N) : option (list N) :=
  match l with
  | [] => None
  | c :: l =>
      if c <? 0x80 then (if ascii_space c then Some l else None)
      else match c, l with
           | 0x85, 0xc2 :: l | 0xa0, 0xc2 :: l => Some l
           | 0x80, 0x9a :: 0xe1 :: l | 0x80, 0x80 :: 0xe3 :: l | 0x9f, 0x81 :: 0xe2 :: l => Some l
           | z, 0x80 :: 0xe2 :: l => if general_space z then Some l else None
           | _, _ => None
           end
  end.
(** The length of the text is enough fuel: every step drops a character. *)
Fixpoint skip_all (skip : list N → option (list N)) (fuel : nat) (l : list N) : list N :=
  match fuel with
  | O => l
  | S fuel => match skip l with Some l => skip_all skip fuel l | None => l end
  end.
Definition trim (s : string) : string :=
  let l := skip_all skip_space (String.length s) (codes s) in
  of_codes (rev (skip_all skip_space_back (length l) (rev l))).

(** ** Splitting *)
Fixpoint split_once (sep : ascii) (s : string) : option (string * string) :=
  match s with
  | EmptyString => None
  | String c s =>
      if Ascii.eqb c sep then Some ("", s)
      else match split_once sep s with Some (x, y) => Some (String c x, y) | None => None end
  end.
Fixpoint split_char (sep : ascii) (s : string) : list string :=
  match s with
  | EmptyString => [""]
  | String c s =>
      if Ascii.eqb c sep then "" :: split_char sep s
      else match split_char sep s with
           | x :: l => String c x :: l
           | [] => [String c ""]
           end
  end.

(** ** Numbers *)
Definition digit (c : ascii) : option N :=
  let n := N_of_ascii c in if (48 <=? n) && (n <=? 57) then Some (n - 48) else None.
Fixpoint digits_value (acc : N) (s : string) : option N :=
  match s with
  | EmptyString => Some acc
  | String c s => match digit c with Some d => digits_value (acc * 10 + d) s | None => None end
  end.
(** [text.parse::<uN>()] with [max = uN::MAX]: an optional plus sign, then at
    least one digit. *)
Definition parse_uint (max : N) (s : string) : option N :=
  let s := match s with String c rest => if Ascii.eqb c "+" then rest else s | EmptyString => s end in
  match s with
  | EmptyString => None
  | _ => match digits_value 0 s with
         | Some n => if n <=? max then Some n else None
         | None => None
         end
  end.

(** ** IPv4 addresses *)

(** One octet: one to three digits without a leading zero. *)
Definition parse_octet (s : string) : option N :=
  match s with
  | EmptyString => None
  | String c rest =>
      if Ascii.eqb c "0" && negb (String.eqb rest "") then None
      else if Nat.leb (String.length s) 3
      then match digits_value 0 s with Some n => if n <=? 255 then Some n else None | None => None end
      else None
  end.
Definition parse_ipv4 (s : string) : option N :=
  match split_char "." s with
  | [a; b; c; d] =>
      match parse_octet a, parse_octet b, parse_octet c, parse_octet d with
      | Some a, Some b, Some c, Some d => Some (((a * 256 + b) * 256 + c) * 256 + d)
      | _, _, _, _ => None
      end
  | _ => None
  end.
Definition show_ipv4 (ip : N) : string :=
  pretty (ip / 2 ^ 24) +:+ "." +:+ pretty (ip / 2 ^ 16 mod 256) +:+ "." +:+
  pretty (ip / 2 ^ 8 mod 256) +:+ "." +:+ pretty (ip mod 256).

(** ** Lemmas *)
Fixpoint all_digits (s : string) : bool :=
  match s with
  | EmptyString => true
  | String c s => (match digit c with Some _ => true | None => false end) && all_digits s
  end.
Definition is_number (s : string) : bool := negb (String.eqb s "") && all_digits s.

Lemma codes_of_codes l : Forall (λ n, n < 256) l → codes (of_codes l) = l.
Proof.
  unfold codes, of_codes. rewrite String.list_ascii_of_string_of_list_ascii, <-list_fmap_compose.
  induction 1 as [|n l Hn Hl IH]; [done|]. rewrite fmap_cons, IH. simpl. by rewrite N_ascii_embedding.
Qed.
Lemma of_codes_codes s : of_codes (codes s) = s.
Proof.
  unfold codes, of_codes. rewrite <-list_fmap_compose.
  assert (Hid : ∀ l : list ascii, (ascii_of_N ∘ N_of_ascii) <$> l = l).
  { induction l as [|c l IH]; [done|]. rewrite fmap_cons, IH. simpl. by rewrite ascii_N_embedding. }
  rewrite Hid. apply String.string_of_list_ascii_of_string.
Qed.

(** Text whose first and last bytes are printable ASCII is not trimmed. *)
Definition printable (n : N) : bool := (0x21 <=? n) && (n <=? 0x7e).

Lemma skip_printable n l : printable n = true → skip_space (n :: l) = None ∧ skip_space_back (n :: l) = None.
Proof.
  unfold printable. rewrite andb_true_iff, !N.leb_le. intros [Hlo Hhi].
  assert (Hs : ascii_space n = false).
  { unfold ascii_space. apply orb_false_iff. split; [apply andb_false_iff; right; apply N.leb_gt; lia|].
    apply N.eqb_neq. lia. }
  unfold skip_space, skip_space_back. by rewrite (proj2 (N.ltb_lt n 0x80)), Hs by lia.
Qed.

Lemma trim_printable s :
  match codes s, last (codes s) with a :: _, Some z => printable a && printable z | _, _ => false end = true →
  trim s = s.
Proof.
  intros Hp. unfold trim. assert (Hlen : String.length s = length (codes s)).
  { unfold codes. rewrite length_fmap. clear. induction s; [done|]. simpl. by f_equal. }
  destruct (codes s) as [|a l] eqn:Hs; [done|].
  assert (Hne : ∃ z l', a :: l = l' ++ [z]).
  { destruct (@exists_last _ (a :: l)) as (l' & z & ->); [done|]. eauto. }
  destruct Hne as (z & l' & Hz). rewrite Hz, last_snoc in Hp. apply andb_true_iff in Hp as [Ha Hzp].
  assert (Hfront : skip_all skip_space (String.length s) (a :: l) = a :: l).
  { destruct (String.length s); [done|]. cbn [skip_all]. by rewrite (proj1 (skip_printable a l Ha)). }
  rewrite Hfront, Hz, rev_app_distr. simpl rev. cbn [app].
  assert (Hback : skip_all skip_space_back (length (l' ++ [z])) (z :: rev l') = z :: rev l').
  { destruct (length (l' ++ [z])); [done|]. cbn [skip_all]. by rewrite (proj2 (skip_printable z (rev l') Hzp)). }
  rewrite Hback. simpl rev. rewrite rev_involutive, <-Hz, <-Hs. apply of_codes_codes.
Qed.

(** *** Decimal texts *)
Lemma digit_printable c : (match digit c with Some _ => true | None => false end) = true →
  printable (N_of_ascii c) = true ∧ c ≠ "."%char ∧ c ≠ "-"%char ∧ c ≠ "/"%char ∧ c ≠ "+"%char.
Proof.
  unfold digit, printable. destruct (_ && _) eqn:E; [|done]. intros _.
  apply andb_true_iff in E as [H1%N.leb_le H2%N.leb_le]. split.
  - apply andb_true_iff. rewrite !N.leb_le. lia.
  - split_and!; intros ->; by vm_compute in H1.
Qed.

Lemma all_digits_last s z : all_digits s = true → last (codes s) = Some z → printable z = true.
Proof.
  unfold codes. induction s as [|c s IH]; [done|]. cbn [all_digits]. intros [Hc Hs]%andb_true_iff.
  cbn [String.list_ascii_of_string]. rewrite fmap_cons.
  destruct (N_of_ascii <$> String.list_ascii_of_string s) as [|y l] eqn:E; [|by apply IH].
  intros [= <-]. by apply digit_printable.
Qed.

Lemma trim_number s : is_number s = true → trim s = s.
Proof.
  unfold is_number. intros [Hne Hd]%andb_true_iff. destruct s as [|c s]; [done|].
  apply trim_printable. pose proof (all_digits_last (String c s)) as Hlast.
  destruct (last (codes (String c s))) as [z|] eqn:El.
  - specialize (Hlast z Hd eq_refl). cbn [all_digits] in Hd. apply andb_true_iff in Hd as [Hc _].
    change (codes (String c s)) with (N_of_ascii c :: codes s). cbn.
    by rewrite (proj1 (digit_printable _ Hc)), Hlast.
  - change (codes (String c s)) with (N_of_ascii c :: codes s) in El. by apply last_None in El.
Qed.

(** [sep] does not occur. *)
Fixpoint lacks (sep : ascii) (s : string) : bool :=
  match s with
  | EmptyString => true
  | String c s => negb (Ascii.eqb c sep) && lacks sep s
  end.

Lemma lacks_number sep s : all_digits s = true → sep ∈ ["."; "-"; "/"]%char → lacks sep s = true.
Proof.
  intros Hd Hsep. induction s as [|c s IH]; [done|]. cbn [all_digits] in Hd. apply andb_true_iff in Hd as [Hc Hs].
  destruct (digit_printable _ Hc) as (_ & Hdot & Hdash & Hslash & _). cbn [lacks]. rewrite (IH Hs), andb_true_r.
  apply negb_true_iff, Ascii.eqb_neq. intros ->.
  repeat (apply elem_of_cons in Hsep as [?|Hsep]; [done|]). by apply not_elem_of_nil in Hsep.
Qed.
Lemma lacks_app sep a b : lacks sep (a +:+ b) = lacks sep a && lacks sep b.
Proof.
  induction a as [|c a IH]; [done|]. change (String c a +:+ b) with (String c (a +:+ b)). cbn [lacks].
  by rewrite IH, andb_assoc.
Qed.

Lemma split_once_None sep s : lacks sep s = true → split_once sep s = None.
Proof.
  induction s as [|c s IH]; [done|]. cbn [lacks split_once]. intros [Hc Hs]%andb_true_iff.
  apply negb_true_iff in Hc. by rewrite Hc, IH.
Qed.
Lemma split_once_at s sep rest : lacks sep s = true → split_once sep (s +:+ String sep rest) = Some (s, rest).
Proof.
  induction s as [|c s IH]; intros Hs.
  - change (split_once sep (String sep rest) = Some ("", rest)). cbn [split_once]. by rewrite Ascii.eqb_refl.
  - cbn [lacks] in Hs. apply andb_true_iff in Hs as [Hc%negb_true_iff Hs].
    change (String c s +:+ String sep rest) with (String c (s +:+ String sep rest)). cbn [split_once].
    by rewrite Hc, IH.
Qed.

Lemma split_char_app s rest : all_digits s = true → split_char "." (s +:+ String "." rest) = s :: split_char "." rest.
Proof.
  intros Hd. induction s as [|c s IH]; [done|]. cbn [all_digits] in Hd. apply andb_true_iff in Hd as [Hc Hs].
  change (String c s +:+ String "." rest) with (String c (s +:+ String "." rest)). cbn [split_char].
  destruct (digit_printable _ Hc) as (_ & Hdot & _).
  destruct (Ascii.eqb_spec c ".") as [->|_]; [done|]. by rewrite IH.
Qed.
Lemma split_char_number s : all_digits s = true → split_char "." s = [s].
Proof.
  intros Hd. induction s as [|c s IH]; [done|]. cbn [all_digits] in Hd. apply andb_true_iff in Hd as [Hc Hs].
  cbn [split_char]. destruct (digit_printable _ Hc) as (_ & Hdot & _).
  destruct (Ascii.eqb_spec c ".") as [->|_]; [done|]. by rewrite IH.
Qed.

(** Printing a number and reading it back. *)
Lemma digit_pretty x : x < 10 → digit (pretty_N_char x) = Some x.
Proof.
  intros Hx. assert (Hin : x ∈ range_N 0 10) by (apply elem_of_range_N; lia).
  assert (Hall : Forall (λ x, digit (pretty_N_char x) = Some x) (range_N 0 10)) by (repeat constructor).
  by apply (proj1 (Forall_forall _ _) Hall).
Qed.

Lemma pretty_go_spec x s :
  digits_value 0 (pretty_N_go x s) = digits_value x s ∧ (all_digits s = true → all_digits (pretty_N_go x s) = true).
Proof.
  revert s. induction (N.lt_wf_0 x) as [x _ IH]. intros s.
  destruct (decide (x = 0)) as [->|Hx]; [by rewrite pretty_N_go_0|].
  rewrite pretty_N_go_step by lia.
  destruct (IH (x / 10) ltac:(apply N.div_lt; lia) (String (pretty_N_char (x mod 10)) s)) as [Hv Hd].
  assert (Hm : x mod 10 < 10) by (apply N.mod_lt; lia). split.
  - rewrite Hv. cbn [digits_value]. rewrite digit_pretty by done. f_equal.
    pose proof (N.div_mod x 10 ltac:(lia)). lia.
  - intros Hs. apply Hd. cbn [all_digits]. by rewrite digit_pretty, Hs.
Qed.

Lemma pretty_go_ne x s : s ≠ "" → pretty_N_go x s ≠ "".
Proof.
  revert s. induction (N.lt_wf_0 x) as [x _ IH]. intros s Hs.
  destruct (decide (x = 0)) as [->|Hx]; [by rewrite pretty_N_go_0|].
  rewrite pretty_N_go_step by lia. apply IH; [apply N.div_lt; lia|done].
Qed.

Lemma pretty_number (n : N) : is_number (pretty n) = true ∧ digits_value 0 (pretty n) = Some n.
Proof.
  unfold pretty, pretty_N. case_decide as Hn; [by subst|].
  destruct (pretty_go_spec n "") as [Hv Hd]. split; [|done]. unfold is_number.
  rewrite (Hd eq_refl), andb_true_r. apply negb_true_iff, String.eqb_neq.
  rewrite pretty_N_go_step by lia. by apply pretty_go_ne.
Qed.
Lemma pretty_digits (n : N) : all_digits (pretty n) = true.
Proof. destruct (pretty_number n) as [Hn _]. unfold is_number in Hn. by apply andb_true_iff in Hn as [_ ?]. Qed.

Lemma parse_uint_pretty (max n : N) : n ≤ max → parse_uint max (pretty n) = Some n.
Proof.
  intros Hn. destruct (pretty_number n) as [Hnum Hv]. unfold is_number in Hnum.
  apply andb_true_iff in Hnum as [Hne Hd]. unfold parse_uint. destruct (pretty n) as [|c s] eqn:E; [done|].
  cbn [all_digits] in Hd. apply andb_true_iff in Hd as [Hc _].
  destruct (digit_printable _ Hc) as (_ & _ & _ & _ & Hplus).
  cbv zeta. rewrite (proj2 (Ascii.eqb_neq c "+") Hplus), Hv. by rewrite (proj2 (N.leb_le n max)).
Qed.

Definition octet_text_ok (n : N) : bool := bool_decide (parse_octet (pretty n) = Some n).
Lemma octet_texts : forallb octet_text_ok (range_N 0 256) = true.
Proof. vm_compute. reflexivity. Qed.
Lemma pretty_octet (n : N) : n < 256 → parse_octet (pretty n) = Some n.
Proof.
  intros Hn. pose proof octet_texts as Hall. rewrite forallb_forall in Hall.
  apply (bool_decide_eq_true (parse_octet (pretty n) = Some n)), Hall.
  rewrite <-list_elem_of_In. apply elem_of_range_N. lia.
Qed.

(** Printing and parsing an address are inverse. *)
Lemma parse_show_ipv4 ip : ip < 2 ^ 32 → parse_ipv4 (show_ipv4 ip) = Some ip.
Proof.
  intros Hip. change (2 ^ 32) with 4294967296 in Hip. unfold parse_ipv4, show_ipv4.
  change (2 ^ 24) with 16777216. change (2 ^ 16) with 65536. change (2 ^ 8) with 256.
  assert (Ha : ip / 16777216 < 256) by (apply N.Div0.div_lt_upper_bound; lia).
  assert (Hb : ip / 65536 mod 256 < 256) by (apply N.mod_lt; lia).
  assert (Hc : ip / 256 mod 256 < 256) by (apply N.mod_lt; lia).
  assert (Hd : ip mod 256 < 256) by (apply N.mod_lt; lia).
  assert (Hdot : ∀ (n : N) rest, split_char "." (pretty n +:+ "." +:+ rest) = pretty n :: split_char "." rest).
  { intros n rest. apply split_char_app, pretty_digits. }
  rewrite !Hdot, split_char_number by apply pretty_digits.
  rewrite !pretty_octet by done. f_equal.
  pose proof (N.div_mod ip 256 ltac:(lia)). pose proof (N.div_mod (ip / 256) 256 ltac:(lia)).
  pose proof (N.div_mod (ip / 65536) 256 ltac:(lia)).
  replace (ip / 65536) with (ip / 256 / 256) in * by (by rewrite N.Div0.div_div).
  replace (ip / 16777216) with (ip / 256 / 256 / 256) in * by (by rewrite !N.Div0.div_div). lia.
Qed.

Lemma show_ipv4_lacks_slash ip : lacks "/" (show_ipv4 ip) = true.
Proof.
  assert (Hp : ∀ n : N, lacks "/" (pretty n) = true).
  { intros n. apply lacks_number; [apply pretty_digits|]. do 2 right. by left. }
  unfold show_ipv4. by rewrite !lacks_app, !Hp.
Qed.
