(* ===== verification/Channel.v ===== *)
(** * Transport v2 sealed records and WebSocket frames

    Model of src/src/transport_crypto/channel.rs: one direction of a keyed
    record stream ([RecordCipher]), the WebSocket frame sealer and opener, and
    the two roles of a [SecureChannel].  The AEAD (XChaCha20-Poly1305) comes
    from a third-party crate: it is the class [Aead], with the behaviour the
    code relies on in [AeadLaws]. *)
From S2P Require Import Prelude Bytes.
From Stdlib Require Import Strings.Byte.
Local Open Scope N_scope.

(** ** The AEAD interface *)

(** [XChaCha20Poly1305::{encrypt, decrypt}] under a key: nonce, message,
    associated data. [None] is the crate's opaque [aead::Error]. *)
Class Aead := {
  aead_encrypt : bytes → bytes → bytes → bytes → option bytes;
  aead_decrypt : bytes → bytes → bytes → bytes → option bytes;
}.

Definition TAG_LENGTH : nat := 16.

(** The crate refuses messages above this many bytes. *)
Definition AEAD_P_MAX : N := 274877906880.

(** Documented behaviour of the AEAD. Encryption is deterministic in its
    inputs, so decryption accepts exactly one ciphertext per message; the last
    law is authentication of the trailing associated-data bytes the record
    layer uses as direction and final flag. *)
Class AeadLaws `{Aead} : Prop := {
  aead_decrypt_encrypt k n m a c :
    aead_encrypt k n m a = Some c → aead_decrypt k n c a = Some m;
  aead_encrypt_decrypt k n m a c :
    aead_decrypt k n c a = Some m → aead_encrypt k n m a = Some c;
  aead_encrypt_length k n m a c :
    aead_encrypt k n m a = Some c → length c = (length m + TAG_LENGTH)%nat;
  aead_encrypt_total k n m a :
    N.of_nat (length m) ≤ AEAD_P_MAX → is_Some (aead_encrypt k n m a);
  aead_binds_trailer k n m a d f d' f' c :
    aead_encrypt k n m (a ++ [d; f]) = Some c → (d, f) ≠ (d', f') →
    aead_decrypt k n c (a ++ [d'; f']) = None;
}.

(** ** Records *)

Inductive TransportCryptoError : Type := TransportCryptoError_new (reason : string).

Definition DIRECTION_UP : byte := Byte.x02.
Definition DIRECTION_DOWN : byte := Byte.x01.
Definition WS_FRAME_OVERHEAD : nat := 8 + TAG_LENGTH.

Record RecordCipher : Type := {
  cipher : bytes;      (* the AEAD key *)
  th : bytes;          (* transcript hash *)
  direction : byte;
  counter : N;
}.

Record TransportKeys : Type := { k_up : bytes; k_down : bytes; keys_th : bytes }.

Module RecordCipher.

Definition new (key th : bytes) (direction : byte) : RecordCipher :=
  {| cipher := key; th := th; direction := direction; counter := 0 |}.

Definition set_counter (self : RecordCipher) (c : N) : RecordCipher :=
  {| cipher := cipher self; th := th self; direction := direction self; counter := c |}.

Definition check_counter (counter : N) : result TransportCryptoError unit :=
  guard_err (negb (counter =? u64_MAX)) (TransportCryptoError_new "record counter exhausted").

Definition nonce (counter : N) : bytes := replicate 16 Byte.x00 ++ u64_to_be_bytes counter.

Definition flag_byte (final_record : bool) : byte := if final_record then Byte.x01 else Byte.x00.

Definition aad (self : RecordCipher) (final_record : bool) : bytes :=
  th self ++ [direction self; flag_byte final_record].

Section with_aead.
Context `{Aead}.

Definition seal (plaintext : bytes) (final_record : bool) :
    M RecordCipher TransportCryptoError (N * bytes) := λ self,
  let counter := counter self in
  match check_counter counter with
  | Err e => (self, Err e)
  | Ok _ =>
      match aead_encrypt (cipher self) (nonce counter) plaintext (aad self final_record) with
      | None => (self, Err (TransportCryptoError_new "record seal"))
      | Some ciphertext => (set_counter self (counter + 1), Ok (counter, ciphertext))
      end
  end.

Definition open (counter' : N) (ciphertext : bytes) (final_record : bool) :
    M RecordCipher TransportCryptoError bytes := λ self,
  match check_counter counter' with
  | Err e => (self, Err e)
  | Ok _ =>
      if negb (counter' =? counter self)
      then (self, Err (TransportCryptoError_new "unexpected record counter"))
      else if (length ciphertext <? TAG_LENGTH)%nat
      then (self, Err (TransportCryptoError_new "record too short"))
      else
        match aead_decrypt (cipher self) (nonce counter') ciphertext (aad self final_record) with
        | None => (self, Err (TransportCryptoError_new "record authentication"))
        | Some plaintext => (set_counter self (counter' + 1), Ok plaintext)
        end
  end.

Definition open_next_either (ciphertext : bytes) :
    M RecordCipher TransportCryptoError (bytes * bool) := λ self,
  let counter := counter self in
  match open counter ciphertext false self with
  | (self', Ok plaintext) => (self', Ok (plaintext, false))
  | (self', Err _) =>
      match open counter ciphertext true self' with
      | (self'', Ok plaintext) => (self'', Ok (plaintext, true))
      | (self'', Err e) => (self'', Err e)
      end
  end.

End with_aead.
End RecordCipher.

(** ** WebSocket frames *)
Section frames.
Context `{Aead}.

(** [WsFrameSealer::seal_text]; the sealer is a newtype over its cipher. *)
Definition seal_text (text : bytes) : M RecordCipher TransportCryptoError bytes :=
  '(counter, ciphertext) ← RecordCipher.seal text false;
  mret (u64_to_be_bytes counter ++ ciphertext).

(** [WsFrameOpener::open_frame]. *)
Definition open_frame (frame : bytes) : M RecordCipher TransportCryptoError bytes :=
  if (length frame <? WS_FRAME_OVERHEAD)%nat
  then throw (TransportCryptoError_new "frame too short")
  else
    let counter := from_be (take 8 frame) in
    plaintext ← RecordCipher.open counter (drop 8 frame) false;
    if utf8_valid plaintext then mret plaintext
    else throw (TransportCryptoError_new "frame is not UTF-8").
End frames.

Record SecureChannel : Type := { sealer : RecordCipher; opener : RecordCipher }.

(** [SecureChannel::server]: seal with [k_down], open with [k_up]. *)
Definition SecureChannel_server (keys : TransportKeys) : SecureChannel :=
  {| sealer := RecordCipher.new (k_down keys) (keys_th keys) DIRECTION_DOWN;
     opener := RecordCipher.new (k_up keys) (keys_th keys) DIRECTION_UP |}.

(** [SecureChannel::client]: the mirror image. *)
Definition SecureChannel_client (keys : TransportKeys) : SecureChannel :=
  {| sealer := RecordCipher.new (k_up keys) (keys_th keys) DIRECTION_UP;
     opener := RecordCipher.new (k_down keys) (keys_th keys) DIRECTION_DOWN |}.

(** ** Runs *)
Section runs.
Context `{Aead}.

(** A sender that seals messages one after another, stopping at an error. *)
Fixpoint seal_texts (texts : list bytes) : M RecordCipher TransportCryptoError (list bytes) :=
  match texts with
  | [] => mret []
  | t :: ts => f ← seal_text t; fs ← seal_texts ts; mret (f :: fs)
  end.

(** A receiver that opens frames one after another, stopping at an error. *)
Fixpoint open_frames (frames : list bytes) : M RecordCipher TransportCryptoError (list bytes) :=
  match frames with
  | [] => mret []
  | f :: fs => t ← open_frame f; ts ← open_frames fs; mret (t :: ts)
  end.

(** The frames an opener accepts out of any sequence an adversary delivers,
    in order of delivery, even if it kept reading after a failure. *)
Fixpoint accepted (frames : list bytes) (self : RecordCipher) : list bytes :=
  match frames with
  | [] => []
  | f :: fs =>
      match open_frame f self with
      | (self', Ok _) => f :: accepted fs self'
      | (self', Err _) => accepted fs self'
      end
  end.

(** The nonces a sealer spends on a sequence of plaintexts. *)
Fixpoint spent_nonces (msgs : list (bytes * bool)) (self : RecordCipher) : list bytes :=
  match msgs with
  | [] => []
  | (m, final) :: ms =>
      match RecordCipher.seal m final self with
      | (self', Ok _) => RecordCipher.nonce (counter self) :: spent_nonces ms self'
      | (self', Err _) => spent_nonces ms self'
      end
  end.
End runs.

(** The counter a frame carries in its first eight bytes. *)
Definition frame_counter (frame : bytes) : N := from_be (take 8 frame).

(** ** Lemmas *)
Section lemmas.
Context `{AeadLaws}.
Implicit Types self : RecordCipher.

(** A seal either leaves the cipher alone or advances its counter by one. *)
Lemma seal_cases m final self self' r :
  RecordCipher.seal m final self = (self', r) →
  (∃ e, self' = self ∧ r = Err e) ∨
  (∃ c, counter self ≠ u64_MAX ∧ self' = RecordCipher.set_counter self (counter self + 1) ∧
     r = Ok (counter self, c) ∧
     aead_encrypt (cipher self) (RecordCipher.nonce (counter self)) m
       (RecordCipher.aad self final) = Some c).
Proof.
  unfold RecordCipher.seal, RecordCipher.check_counter, guard_err.
  destruct (N.eqb_spec (counter self) u64_MAX) as [E|E]; simpl; [by intros [= <- <-]; eauto|].
  case_on; intros [= <- <-]; eauto 10.
Qed.

Lemma open_cases k c final self self' r :
  RecordCipher.open k c final self = (self', r) →
  (∃ e, self' = self ∧ r = Err e) ∨
  (∃ m, k = counter self ∧ k ≠ u64_MAX ∧ (TAG_LENGTH ≤ length c)%nat ∧
     self' = RecordCipher.set_counter self (counter self + 1) ∧ r = Ok m ∧
     aead_decrypt (cipher self) (RecordCipher.nonce k) c (RecordCipher.aad self final) = Some m).
Proof.
  unfold RecordCipher.open, RecordCipher.check_counter, guard_err.
  destruct (N.eqb_spec k u64_MAX) as [E|E]; simpl; [by intros [= <- <-]; eauto|].
  destruct (N.eqb_spec k (counter self)) as [->|]; simpl; [|by intros [= <- <-]; eauto].
  destruct (Nat.ltb_spec (length c) TAG_LENGTH); [by intros [= <- <-]; eauto|].
  case_on; intros [= <- <-]; eauto 12.
Qed.

Lemma seal_ok m final self :
  counter self < u64_MAX → N.of_nat (length m) ≤ AEAD_P_MAX →
  ∃ c, RecordCipher.seal m final self
       = (RecordCipher.set_counter self (counter self + 1), Ok (counter self, c)) ∧
    aead_encrypt (cipher self) (RecordCipher.nonce (counter self)) m
       (RecordCipher.aad self final) = Some c.
Proof.
  intros Hc Hm. destruct (aead_encrypt_total (cipher self) (RecordCipher.nonce (counter self)) m
    (RecordCipher.aad self final) Hm) as [c Hs].
  exists c. split; [|done]. unfold RecordCipher.seal, RecordCipher.check_counter.
  destruct (N.eqb_spec (counter self) u64_MAX); [lia|]. simpl. by rewrite Hs.
Qed.

Lemma open_sealed m final self c :
  counter self < u64_MAX →
  aead_encrypt (cipher self) (RecordCipher.nonce (counter self)) m (RecordCipher.aad self final) = Some c →
  RecordCipher.open (counter self) c final self
  = (RecordCipher.set_counter self (counter self + 1), Ok m).
Proof.
  intros Hc Hs. unfold RecordCipher.open, RecordCipher.check_counter.
  destruct (N.eqb_spec (counter self) u64_MAX); [lia|]. simpl. rewrite N.eqb_refl. simpl.
  destruct (Nat.ltb_spec (length c) TAG_LENGTH) as [Hlt|_].
  { apply aead_encrypt_length in Hs. lia. }
  by rewrite (aead_decrypt_encrypt _ _ _ _ _ Hs).
Qed.

(** A record opened without knowing its flag yields the flag it was sealed with. *)
Lemma open_next_either_sealed m final self c :
  counter self < u64_MAX →
  aead_encrypt (cipher self) (RecordCipher.nonce (counter self)) m (RecordCipher.aad self final) = Some c →
  RecordCipher.open_next_either c self
  = (RecordCipher.set_counter self (counter self + 1), Ok (m, final)).
Proof.
  intros Hc Hs. unfold RecordCipher.open_next_either. destruct final.
  - assert (RecordCipher.open (counter self) c false self
      = (self, Err (TransportCryptoError_new "record authentication"))) as ->.
    { unfold RecordCipher.open, RecordCipher.check_counter.
      destruct (N.eqb_spec (counter self) u64_MAX); [lia|]. simpl. rewrite N.eqb_refl. simpl.
      destruct (Nat.ltb_spec (length c) TAG_LENGTH) as [Hlt|_].
      { apply aead_encrypt_length in Hs. lia. }
      unfold RecordCipher.aad in *.
      rewrite (aead_binds_trailer _ _ _ _ _ _ _ (RecordCipher.flag_byte false) _ Hs); [done|].
      by intros [=]. }
    by rewrite (open_sealed _ _ _ _ Hc Hs).
  - by rewrite (open_sealed _ _ _ _ Hc Hs).
Qed.

Lemma open_frame_ok_inv f self self' t :
  open_frame f self = (self', Ok t) →
  frame_counter f = counter self ∧ counter self ≠ u64_MAX ∧
  self' = RecordCipher.set_counter self (counter self + 1).
Proof.
  unfold open_frame. destruct (_ <? _)%nat; [done|]. intros Ho.
  apply M_bind_Ok_inv in Ho as (s1 & p & Hp & Hr).
  apply open_cases in Hp as [(e & _ & [=])|(m & Hk & Hne & _ & -> & [= <-] & _)].
  destruct (utf8_valid p); [|done]. injection Hr as <- <-. unfold frame_counter.
  rewrite Hk in Hne. by rewrite Hk.
Qed.

Lemma open_frame_counter_le f self : counter self ≤ counter (open_frame f self).1.
Proof.
  unfold open_frame. destruct (_ <? _)%nat; [done|].
  unfold mbind, M_bind. destruct (RecordCipher.open _ _ _ self) as [s1 r] eqn:E.
  apply open_cases in E as [(e & -> & ->)|(m & _ & _ & _ & -> & -> & _)]; [done|].
  destruct (utf8_valid m); simpl; lia.
Qed.

Lemma nonce_inj c d : c ≤ u64_MAX → d ≤ u64_MAX → RecordCipher.nonce c = RecordCipher.nonce d → c = d.
Proof.
  intros Hc Hd E. unfold RecordCipher.nonce in E. apply app_inv_head in E.
  unfold u64_MAX in *. eapply (to_be_inj 8); [..|exact E]; simpl; lia.
Qed.
End lemmas.

(** ** A concrete AEAD

    The message followed by a 16-byte tag made of the last bytes of the
    associated data. It offers no secrecy; it shows that the laws above are
    consistent and gives the examples something to run on. *)
Module PlainAead.

Definition tag (a : bytes) : bytes := take TAG_LENGTH (reverse a ++ replicate TAG_LENGTH Byte.x00).

Lemma length_tag a : length (tag a) = TAG_LENGTH.
Proof. unfold tag. rewrite length_take, length_app, length_replicate. lia. Qed.

Definition decrypt (c a : bytes) : option bytes :=
  let body := take (length c - TAG_LENGTH) c in
  if bool_decide (TAG_LENGTH ≤ length c ∧ drop (length c - TAG_LENGTH) c = tag a)%nat
  then Some body else None.

#[export] Instance aead : Aead := {|
  aead_encrypt _ _ m a := Some (m ++ tag a);
  aead_decrypt _ _ c a := decrypt c a;
|}.

Lemma decrypt_app m a b :
  decrypt (m ++ tag b) a = if bool_decide (tag b = tag a) then Some m else None.
Proof.
  unfold decrypt. rewrite length_app, length_tag.
  replace (length m + TAG_LENGTH - TAG_LENGTH)%nat with (length m) by lia.
  rewrite take_app_length, drop_app_length.
  destruct (decide (tag b = tag a)) as [E|E].
  - rewrite !bool_decide_true; [done|done|]. split; [lia|done].
  - rewrite !bool_decide_false; [done|done|]. by intros [_ ?].
Qed.

#[export] Instance aead_laws : AeadLaws.
Proof.
  split; simpl.
  - intros _ _ m a c [= <-]. rewrite decrypt_app. by rewrite bool_decide_true.
  - intros _ _ m a c. unfold decrypt. case_bool_decide as Hd; [|done]. destruct Hd as [_ Hd].
    intros [= <-]. by rewrite <-Hd, take_drop.
  - intros _ _ m a c [= <-]. by rewrite length_app, length_tag.
  - intros. by eexists.
  - intros _ _ m a d f d' f' c [= <-] Hne. rewrite decrypt_app, bool_decide_false; [done|].
    unfold tag. rewrite !reverse_app. simpl. intros [= ??]. congruence.
Qed.
End PlainAead.

(** ** Properties *)
Section properties.
Context `{AeadLaws}.
Implicit Types self : RecordCipher.

Lemma seal_text_open_frame t self :
  counter self < u64_MAX → N.of_nat (length t) ≤ AEAD_P_MAX → utf8_valid t = true →
  ∃ f, seal_text t self = (RecordCipher.set_counter self (counter self + 1), Ok f) ∧
       open_frame f self = (RecordCipher.set_counter self (counter self + 1), Ok t).
Proof.
  intros Hc Ht Hu. destruct (seal_ok t false self Hc Ht) as (c & Hs & He).
  exists (u64_to_be_bytes (counter self) ++ c). split.
  - unfold seal_text. by erewrite M_bind_eq by exact Hs.
  - unfold open_frame. pose proof (aead_encrypt_length _ _ _ _ _ He) as Hlen.
    assert (length (u64_to_be_bytes (counter self)) = 8%nat) as H8 by apply length_to_be.
    destruct (Nat.ltb_spec (length (u64_to_be_bytes (counter self) ++ c)) WS_FRAME_OVERHEAD) as [Hlt|_].
    { rewrite length_app, H8 in Hlt. unfold WS_FRAME_OVERHEAD in Hlt. lia. }
    rewrite take_app_length', drop_app_length' by done.
    unfold u64_to_be_bytes. rewrite from_be_to_be by (unfold u64_MAX in Hc; simpl; lia).
    erewrite M_bind_eq by exact (open_sealed _ _ _ _ Hc He). by rewrite Hu.
Qed.

Lemma seal_texts_open_frames texts self :
  counter self + N.of_nat (length texts) ≤ u64_MAX →
  Forall (λ t, N.of_nat (length t) ≤ AEAD_P_MAX ∧ utf8_valid t = true) texts →
  ∃ frames self', seal_texts texts self = (self', Ok frames) ∧
    open_frames frames self = (self', Ok texts).
Proof.
  revert self; induction texts as [|t ts IH]; intros self Hc Hts.
  { by exists [], self. }
  apply Forall_cons in Hts as [[Hl Hu] Hts].
  change (length (t :: ts)) with (S (length ts)) in Hc.
  destruct (seal_text_open_frame t self) as (f & Hs & Ho); [lia|done..|].
  destruct (IH (RecordCipher.set_counter self (counter self + 1))) as (fs & self' & Hss & Hos);
    [simpl; lia|done|].
  exists (f :: fs), self'. simpl.
  rewrite (M_bind_eq _ _ _ _ _ Hs), (M_bind_eq _ _ _ _ _ Ho).
  by rewrite (M_bind_eq _ _ _ _ _ Hss), (M_bind_eq _ _ _ _ _ Hos).
Qed.

(** what one role of a [SecureChannel] seals, the other role opens: any
    sequence of UTF-8 messages (fewer than [u64::MAX] of them) is sealed
    without error and the peer's opener returns exactly that sequence, in both
    directions. *)
Theorem secure_channel_roundtrip (keys : TransportKeys) (texts : list bytes) :
  N.of_nat (length texts) ≤ u64_MAX →
  Forall (λ t, N.of_nat (length t) ≤ AEAD_P_MAX ∧ utf8_valid t = true) texts →
  (∃ frames s, seal_texts texts (sealer (SecureChannel_server keys)) = (s, Ok frames) ∧
     open_frames frames (opener (SecureChannel_client keys)) = (s, Ok texts)) ∧
  (∃ frames s, seal_texts texts (sealer (SecureChannel_client keys)) = (s, Ok frames) ∧
     open_frames frames (opener (SecureChannel_server keys)) = (s, Ok texts)).
Proof. intros. split; apply seal_texts_open_frames; simpl; auto; lia. Qed.

Lemma accepted_counters frames self :
  Forall (λ f, counter self ≤ frame_counter f) (accepted frames self).
Proof.
  revert self; induction frames as [|f fs IH]; intros self; simpl; [constructor|].
  pose proof (open_frame_counter_le f self) as Hle.
  destruct (open_frame f self) as [self' [t|e]] eqn:E; simpl in *.
  - apply open_frame_ok_inv in E as (Hf & _ & ->). constructor; [lia|].
    eapply Forall_impl; [apply IH|]. simpl. intros; lia.
  - eapply Forall_impl; [apply IH|]. simpl. intros; lia.
Qed.

(** whatever frames an adversary delivers, in whatever order and with
    whatever repetitions, the counters of the frames an opener accepts are
    strictly increasing; a replayed or reordered frame is never accepted. *)
Theorem accepted_strictly_increasing (frames : list bytes) self :
  StronglySorted N.lt (frame_counter <$> accepted frames self) ∧ NoDup (accepted frames self).
Proof.
  assert (StronglySorted N.lt (frame_counter <$> accepted frames self)) as Hs.
  { revert self; induction frames as [|f fs IH]; intros self; simpl; [constructor|].
    destruct (open_frame f self) as [self' [t|e]] eqn:E; simpl; [|apply IH].
    apply open_frame_ok_inv in E as (Hf & _ & ->). constructor; [apply IH|].
    apply Forall_fmap. eapply Forall_impl; [apply accepted_counters|].
    simpl. intros x ?. lia. }
  split; [done|]. apply (NoDup_fmap_1 frame_counter).
  induction Hs as [|x l Hl IH Hx]; constructor; [|done].
  intros Hin. rewrite Forall_forall in Hx. specialize (Hx _ Hin). lia.
Qed.

Lemma spent_nonces_from msgs self :
  counter self ≤ u64_MAX →
  Forall (λ n, ∃ c, counter self ≤ c < u64_MAX ∧ n = RecordCipher.nonce c) (spent_nonces msgs self).
Proof.
  revert self; induction msgs as [|[m final] ms IH]; intros self Hc; simpl; [constructor|].
  destruct (RecordCipher.seal m final self) as [self' r] eqn:E.
  apply seal_cases in E as [(e & -> & ->)|(c & Hne & -> & -> & _)]; [by apply IH|].
  constructor; [exists (counter self); split; [lia|done]|].
  eapply Forall_impl; [apply IH; simpl; lia|]. simpl. intros n (d & ? & ->). exists d. split; [lia|done].
Qed.

(** a key never seals two records under the same nonce, however many
    plaintexts are submitted: the counter is refused at [u64::MAX] instead of
    wrapping around. *)
Theorem nonces_never_repeat (msgs : list (bytes * bool)) self :
  counter self ≤ u64_MAX → NoDup (spent_nonces msgs self).
Proof.
  revert self; induction msgs as [|[m final] ms IH]; intros self Hc; simpl; [constructor|].
  destruct (RecordCipher.seal m final self) as [self' r] eqn:E.
  apply seal_cases in E as [(e & -> & ->)|(c & Hne & -> & -> & _)]; [by apply IH|].
  constructor; [|apply IH; simpl; lia].
  intros Hin. pose proof (spent_nonces_from ms (RecordCipher.set_counter self (counter self + 1))) as Hf.
  rewrite Forall_forall in Hf. destruct (Hf ltac:(simpl; lia) _ Hin) as (d & Hd & En).
  simpl in Hd. apply nonce_inj in En; lia.
Qed.
End properties.

Import PlainAead.

Definition demo_keys : TransportKeys :=
  {| k_up := [Byte.x0a]; k_down := [Byte.x0b]; keys_th := [Byte.x0c; Byte.x0d] |}.
Definition demo_texts : list bytes := [[Byte.x68; Byte.x69]; []; [Byte.xc3; Byte.xa9]].

Lemma secure_channel_roundtrip_witness :
  ∃ frames s, seal_texts demo_texts (sealer (SecureChannel_server demo_keys)) = (s, Ok frames) ∧
     open_frames frames (opener (SecureChannel_client demo_keys)) = (s, Ok demo_texts).
Proof.
  apply (secure_channel_roundtrip demo_keys demo_texts).
  - vm_compute. discriminate.
  - repeat constructor; vm_compute; discriminate.
Defined.

Lemma nonces_never_repeat_witness :
  NoDup (spent_nonces [([], false); ([Byte.x01], true)]
           (RecordCipher.new (k_up demo_keys) (keys_th demo_keys) DIRECTION_UP)).
Proof. apply nonces_never_repeat. vm_compute. discriminate. Defined.
