(* ===== verification/Envelope.v ===== *)
(** * Transport v2 REST record streams

    Model of src/src/transport_crypto/envelope.rs: the streaming sealer, the
    incremental decoder, and the length-prefixed inner request head.  The JSON
    codec of the heads (serde_json) is a parameter. *)
From S2P Require Import Prelude Bytes Channel.
From Stdlib Require Import Strings.Byte Ascii.
Local Open Scope nat_scope.

Definition RECORD_PLAINTEXT_MAX : nat := N.to_nat 65536.
Definition RECORD_CIPHERTEXT_MAX : nat := RECORD_PLAINTEXT_MAX + TAG_LENGTH.
Definition RECORD_OVERHEAD : nat := 4 + TAG_LENGTH.
Definition MAX_HEAD_BYTES : nat := N.to_nat 65536.
Definition SEALED_PATH : string := "/v2/sealed".
Arguments RECORD_PLAINTEXT_MAX : simpl never.
Arguments RECORD_CIPHERTEXT_MAX : simpl never.
Arguments MAX_HEAD_BYTES : simpl never.

(** Wire size of a record stream carrying [plaintext] bytes. *)
Definition sealed_stream_length (plaintext : nat) : nat :=
  let records :=
    if plaintext =? 0 then 1
    else (plaintext + (RECORD_PLAINTEXT_MAX - 1)) / RECORD_PLAINTEXT_MAX in
  plaintext + records * RECORD_OVERHEAD.

Record RecordStreamSealer : Type := {
  s_cipher : RecordCipher;
  held : bytes;
  merge_next : bool;
}.

Record RecordStreamDecoder : Type := {
  d_cipher : RecordCipher;
  buffer : bytes;
  saw_final : bool;
}.

Section with_aead.
Context `{Aead}.

Definition push_record (out plaintext : bytes) (final_record : bool) :
    M RecordCipher TransportCryptoError bytes :=
  '(_, ciphertext) ← RecordCipher.seal plaintext final_record;
  mret (out ++ u32_to_be_bytes (N.of_nat (length ciphertext)) ++ ciphertext).

(** The [while let Some(chunk) = chunks.next()] loop of [push_records];
    [chunks.peek().is_none()] is "the remaining list is empty". *)
Fixpoint push_chunks (out : bytes) (final_last : bool) (cs : list bytes) :
    M RecordCipher TransportCryptoError bytes :=
  match cs with
  | [] => mret out
  | c :: cs =>
      out' ← push_record out c (final_last && bool_decide (cs = []));
      push_chunks out' final_last cs
  end.

Definition push_records (out data : bytes) (final_last : bool) :
    M RecordCipher TransportCryptoError bytes :=
  match data with
  | [] => push_record out data final_last
  | _ => push_chunks out final_last (chunks RECORD_PLAINTEXT_MAX data)
  end.

(** [seal_record_stream]: one-shot sealing of a complete plaintext. *)
Definition seal_record_stream (plaintext : bytes) : M RecordCipher TransportCryptoError bytes :=
  push_records [] plaintext true.

Definition sealer_new (cipher : RecordCipher) (prefix : bytes) : RecordStreamSealer :=
  {| s_cipher := cipher; held := prefix; merge_next := true |}.

(** [RecordStreamSealer::push]. *)
Definition sealer_push (chunk : bytes) : M RecordStreamSealer TransportCryptoError bytes := λ self,
  match chunk with
  | [] => (self, Ok [])
  | _ =>
      if merge_next self
      then ({| s_cipher := s_cipher self; held := held self ++ chunk; merge_next := false |}, Ok [])
      else
        let sealed :=
          match held self with
          | [] => (s_cipher self, Ok [])
          | _ => push_records [] (held self) false (s_cipher self)
          end in
        match sealed with
        | (c, Ok out) => ({| s_cipher := c; held := chunk; merge_next := merge_next self |}, Ok out)
        | (c, Err e) =>
            ({| s_cipher := c; held := held self; merge_next := merge_next self |}, Err e)
        end
  end.

(** [RecordStreamSealer::finish] consumes the sealer. *)
Definition sealer_finish (self : RecordStreamSealer) : result TransportCryptoError bytes :=
  (push_records [] (held self) true (s_cipher self)).2.

Definition decoder_new (cipher : RecordCipher) : RecordStreamDecoder :=
  {| d_cipher := cipher; buffer := []; saw_final := false |}.

(** The [while] loop of [RecordStreamDecoder::push]. [rest] is
    [self.buffer[offset..]]; the loop stops with the unconsumed rest. Every
    round consumes at least [4 + TAG_LENGTH] bytes, so [length rest + 1] rounds
    are always enough. *)
Record LoopState : Type := {
  l_cipher : RecordCipher; l_final : bool; l_out : bytes; l_rest : bytes;
}.

Fixpoint decode_loop (fuel : nat) (st : LoopState) : LoopState * result TransportCryptoError unit :=
  match fuel with
  | O => (st, Ok tt)
  | S fuel =>
      let rest := l_rest st in
      if length rest <? 4 then (st, Ok tt)
      else
        let lengthN := from_be (take 4 rest) in
        if negb ((N.of_nat TAG_LENGTH <=? lengthN)%N && (lengthN <=? N.of_nat RECORD_CIPHERTEXT_MAX)%N)
        then (st, Err (TransportCryptoError_new "record length"))
        else
          let len := N.to_nat lengthN in
          if length rest - 4 <? len then (st, Ok tt)
          else
            let ciphertext := take len (drop 4 rest) in
            let rest' := drop (4 + len) rest in
            match RecordCipher.open_next_either ciphertext (l_cipher st) with
            | (c, Err e) =>
                ({| l_cipher := c; l_final := l_final st; l_out := l_out st; l_rest := rest' |}, Err e)
            | (c, Ok (plaintext, final_record)) =>
                let st' := {| l_cipher := c; l_final := l_final st || final_record;
                              l_out := l_out st ++ plaintext; l_rest := rest' |} in
                if final_record && negb (bool_decide (rest' = []))
                then (st', Err (TransportCryptoError_new "bytes after final record"))
                else decode_loop fuel st'
            end
  end.

(** [RecordStreamDecoder::push]; the state also holds the caller's [out]. *)
Definition decoder_push (chunk : bytes) : M (RecordStreamDecoder * bytes) TransportCryptoError unit :=
  λ '(self, out),
  match chunk with
  | [] => ((self, out), Ok tt)
  | _ =>
      if saw_final self
      then ((self, out), Err (TransportCryptoError_new "bytes after final record"))
      else
        let whole := buffer self ++ chunk in
        match decode_loop (S (length whole))
                {| l_cipher := d_cipher self; l_final := saw_final self; l_out := out; l_rest := whole |}
        with
        | (st, Ok _) =>
            (({| d_cipher := l_cipher st; buffer := l_rest st; saw_final := l_final st |}, l_out st),
             Ok tt)
        | (st, Err e) =>
            (({| d_cipher := l_cipher st; buffer := whole; saw_final := l_final st |}, l_out st), Err e)
        end
  end.

Definition decoder_finish (self : RecordStreamDecoder) : result TransportCryptoError unit :=
  guard_err (saw_final self && bool_decide (buffer self = []))
    (TransportCryptoError_new "truncated record stream").

(** A producer pushing body chunks and finishing; the wire bytes in order. *)
Fixpoint sealer_run (self : RecordStreamSealer) (cs : list bytes) : result TransportCryptoError bytes :=
  match cs with
  | [] => sealer_finish self
  | c :: cs =>
      match sealer_push c self with
      | (self', Ok out) => rest ← sealer_run self' cs; Ok (out ++ rest)
      | (_, Err e) => Err e
      end
  end.

(** A reader pushing wire chunks, then ending the stream. *)
Fixpoint decoder_pushes (cs : list bytes) : M (RecordStreamDecoder * bytes) TransportCryptoError unit :=
  match cs with
  | [] => mret tt
  | c :: cs => _ ← decoder_push c; decoder_pushes cs
  end.

Definition decoder_run (cipher : RecordCipher) (cs : list bytes) : result TransportCryptoError bytes :=
  match decoder_pushes cs (decoder_new cipher, []) with
  | ((self, out), Ok _) => _ ← decoder_finish self; Ok out
  | (_, Err e) => Err e
  end.

End with_aead.

(** ** The decoder does not depend on how the wire is cut *)
Section decoder.
Context `{Aead}.

Definition add_rest (st : LoopState) (w : bytes) : LoopState :=
  {| l_cipher := l_cipher st; l_final := l_final st; l_out := l_out st; l_rest := l_rest st ++ w |}.

Lemma decode_loop_fuel f1 f2 st :
  length (l_rest st) < f1 → length (l_rest st) < f2 → decode_loop f1 st = decode_loop f2 st.
Proof.
  revert f2 st; induction f1 as [|f1 IH]; intros [|f2] st H1 H2; try lia. simpl.
  destruct (Nat.ltb_spec (length (l_rest st)) 4); [done|].
  case_on; [done|]. destruct (Nat.ltb_spec (length (l_rest st) - 4) (N.to_nat (from_be (take 4 (l_rest st))))); [done|].
  destruct (RecordCipher.open_next_either _ _) as [c [[m fin]|e]]; [|done].
  case_on; [done|]. apply IH; simpl; rewrite length_drop; lia.
Qed.

Lemma decode_loop_app f f' f'' st w st' r :
  l_final st = false → length (l_rest st) < f → w ≠ [] →
  length (l_rest st ++ w) < f' → length (l_rest st ++ w) < f'' →
  decode_loop f st = (st', r) →
  match r with
  | Ok _ =>
      if l_final st'
      then l_rest st' = [] ∧
           (decode_loop f' (add_rest st w)).2 = Err (TransportCryptoError_new "bytes after final record")
      else decode_loop f' (add_rest st w) = decode_loop f'' (add_rest st' w) ∧
           length (l_rest st') ≤ length (l_rest st)
  | Err e => (decode_loop f' (add_rest st w)).2 = Err e
  end.
Proof.
  intros Hfin Hf Hw. revert f' f'' st st' r Hfin Hf.
  induction f as [|f IH]; intros [|f'] f'' st st' r Hfin Hf Hf' Hf'' E; try lia.
  assert (Hstop : st' = st → r = Ok tt → l_final st' = false ∧
    decode_loop (S f') (add_rest st w) = decode_loop f'' (add_rest st' w) ∧
    length (l_rest st') ≤ length (l_rest st)).
  { intros -> _. split_and!; [done| |done]. by apply decode_loop_fuel. }
  simpl in E. destruct (Nat.ltb_spec (length (l_rest st)) 4) as [|H4].
  { injection E as <- <-. destruct Hstop as (-> & ? & ?); done. }
  assert (H4w : (length (l_rest st ++ w) <? 4) = false) by (apply Nat.ltb_ge; rewrite length_app; lia).
  destruct (negb _) eqn:Hneg.
  { injection E as <- <-. simpl. rewrite H4w, (take_app_le (l_rest st)), Hneg by lia. done. }
  destruct (Nat.ltb_spec (length (l_rest st) - 4) (N.to_nat (from_be (take 4 (l_rest st))))) as [|Hlen].
  { injection E as <- <-. destruct Hstop as (-> & ? & ?); done. }
  clear Hstop. simpl. rewrite H4w, (take_app_le (l_rest st)), Hneg by lia.
  destruct (Nat.ltb_spec (length (l_rest st ++ w) - 4) (N.to_nat (from_be (take 4 (l_rest st))))) as [Hlt|_];
    [rewrite length_app in Hlt; lia|].
  pose proof (drop_app_le (l_rest st) w 4 H4) as Hd4.
  pose proof (drop_app_le (l_rest st) w (4 + N.to_nat (from_be (take 4 (l_rest st)))) ltac:(lia)) as Hdn.
  simpl in Hd4, Hdn. rewrite Hd4, Hdn, (take_app_le (drop 4 _)) by (rewrite ?length_drop; lia).
  clear Hd4 Hdn.
  destruct (RecordCipher.open_next_either _ _) as [c [[m fin]|e]]; [|by injection E as <- <-].
  remember (drop _ (l_rest st)) as rest' eqn:Hrest'.
  assert (Hr' : length rest' < length (l_rest st)) by (subst rest'; rewrite length_drop; lia).
  rewrite (bool_decide_false (rest' ++ w = [])) by (intros [_ ?]%app_nil; done).
  rewrite length_app in *. destruct fin; simpl andb in *.
  - destruct (decide (rest' = [])) as [->|Hr].
    + rewrite bool_decide_true in E by done. simpl in E.
      destruct f; injection E as <- <-; simpl; by rewrite orb_true_r.
    + rewrite bool_decide_false in E by done. by injection E as <- <-.
  - rewrite Hfin in *. simpl orb in *.
    apply (IH f' f'') in E; [|simpl; rewrite ?length_app; (done || lia)..].
    simpl in E. destruct r; [|done]. destruct (l_final st'); [done|].
    destruct E as [E1 E2]. split; [done|lia].
Qed.
End decoder.

Section decoder_runs.
Context `{Aead}.

(** Two runs with the same result; the same state too when they succeed (a
    failed decoder is dropped by its caller). *)
Definition same_run {S E A} (x y : S * result E A) : Prop :=
  x.2 = y.2 ∧ (∀ a, y.2 = Ok a → x = y).

Lemma same_run_refl {S E A} (x : S * result E A) : same_run x x.
Proof. done. Qed.

Lemma same_run_trans {S E A} (x y z : S * result E A) : same_run x y → same_run y z → same_run x z.
Proof. intros [H1 H2] [H3 H4]. split; [congruence|]. intros a Ha. rewrite (H2 a) by congruence. eauto. Qed.

Lemma same_run_bind {S E A B} (m : M S E A) (f g : A → M S E B) s :
  (∀ a s', same_run (f a s') (g a s')) → same_run ((m ≫= f) s) ((m ≫= g) s).
Proof. intros Hfg. unfold mbind, M_bind. destruct (m s) as [s' [a|e]]; [apply Hfg|done]. Qed.

Lemma decoder_push_nonempty w d out :
  w ≠ [] → saw_final d = false →
  decoder_push w (d, out) =
    match decode_loop (S (length (buffer d ++ w)))
            {| l_cipher := d_cipher d; l_final := false; l_out := out; l_rest := buffer d ++ w |} with
    | (st, Ok _) =>
        (({| d_cipher := l_cipher st; buffer := l_rest st; saw_final := l_final st |}, l_out st), Ok tt)
    | (st, Err e) =>
        (({| d_cipher := l_cipher st; buffer := buffer d ++ w; saw_final := l_final st |}, l_out st), Err e)
    end.
Proof. intros Hw Hs. unfold decoder_push. destruct w; [done|]. by rewrite Hs. Qed.

Lemma decoder_push_app w1 w2 s :
  same_run ((decoder_push w1 ≫= λ _, decoder_push w2) s) (decoder_push (w1 ++ w2) s).
Proof.
  destruct s as [d out]. destruct (decide (w1 = [])) as [->|H1]; [done|].
  destruct (decide (w2 = [])) as [->|H2].
  { rewrite app_nil_r. unfold mbind, M_bind. destruct (decoder_push w1 _) as [[d' out'] [[]|e]]; apply same_run_refl. }
  destruct (saw_final d) eqn:Hs.
  { unfold mbind, M_bind, decoder_push. destruct w1; [done|]. simpl. by rewrite Hs. }
  unfold mbind, M_bind. rewrite !decoder_push_nonempty by (done || by intros [? _]%app_nil).
  set (st := {| l_cipher := d_cipher d; l_final := false; l_out := out; l_rest := buffer d ++ w1 |}).
  assert (Hst : {| l_cipher := d_cipher d; l_final := false; l_out := out;
                   l_rest := buffer d ++ w1 ++ w2 |} = add_rest st w2)
    by (unfold add_rest; simpl; by rewrite <-app_assoc).
  rewrite Hst. destruct (decode_loop (S (length (buffer d ++ w1))) st) as [st' r] eqn:E.
  apply (decode_loop_app _ (S (length (buffer d ++ w1 ++ w2))) (S (length (buffer d ++ w1 ++ w2)))
    _ w2) in E; [|done|simpl; lia|done|simpl; rewrite ?app_assoc; lia..].
  destruct r as [u|e].
  - destruct (l_final st') eqn:Hf.
    + destruct E as [_ E]. destruct w2 as [|b w2]; [done|].
      destruct (decode_loop _ (add_rest st _)) as [st2 r2]. simpl in E. subst r2. done.
    + destruct E as [E Hl]. rewrite E, decoder_push_nonempty by done. clear E.
      cbn [buffer d_cipher saw_final].
      rewrite (decode_loop_fuel (S (length (buffer d ++ w1 ++ w2))) (S (length (l_rest st' ++ w2)))).
      2,3: unfold st, add_rest in *; cbn [l_rest] in *; rewrite ?length_app in *; lia.
      replace (add_rest st' w2) with {| l_cipher := l_cipher st'; l_final := false;
        l_out := l_out st'; l_rest := l_rest st' ++ w2 |} by (unfold add_rest; by rewrite Hf).
      destruct (decode_loop _ _) as [st2 [[]|e2]]; [apply same_run_refl|done].
  - destruct (decode_loop _ (add_rest st _)) as [st2 r2]. simpl in E. subst r2. done.
Qed.

Lemma decoder_pushes_concat ws s : same_run (decoder_pushes ws s) (decoder_push (concat ws) s).
Proof.
  revert s; induction ws as [|w ws IH]; intros s; [by destruct s|]. simpl.
  eapply same_run_trans; [|apply decoder_push_app]. apply same_run_bind. auto.
Qed.

(** A run is one push of all the bytes. *)
Lemma decoder_run_push c ws :
  decoder_run c ws =
    match decoder_push (concat ws) (decoder_new c, []) with
    | ((d, out), Ok _) => _ ← decoder_finish d; Ok out
    | (_, Err e) => Err e
    end.
Proof.
  unfold decoder_run. destruct (decoder_pushes_concat ws (decoder_new c, [])) as [E F].
  destruct (decoder_push (concat ws) (decoder_new c, [])) as [[d out] [u|e]]; cbn [snd] in *.
  - by rewrite (F u eq_refl).
  - destruct (decoder_pushes ws (decoder_new c, [])) as [[? ?] r]. cbn [snd] in *. by subst.
Qed.

(** the decoder's answer depends only on the bytes received, not on how
    the network cut them into chunks: the same plaintext, or the same error. *)
Theorem decoder_chunking_irrelevant (c : RecordCipher) (ws1 ws2 : list bytes) :
  concat ws1 = concat ws2 → decoder_run c ws1 = decoder_run c ws2.
Proof. intros E. by rewrite !decoder_run_push, E. Qed.

(** accepted streams are prefix-free. If a byte stream decodes, no proper
    prefix of it (a truncation) and no proper extension of it (appended bytes)
    decodes under the same cipher. *)
Theorem sealed_streams_prefix_free (c : RecordCipher) (ws ws' : list bytes) (t m m' : bytes) :
  decoder_run c ws = Ok m → decoder_run c ws' = Ok m' →
  concat ws = concat ws' ++ t → t = [] ∧ m = m'.
Proof.
  rewrite !decoder_run_push. intros H1 H2 E. destruct (decide (t = [])) as [->|Ht].
  { rewrite app_nil_r in E. split; [done|]. rewrite E in H1. congruence. }
  exfalso. rewrite E in H1.
  destruct (decoder_push_app (concat ws') t (decoder_new c, [])) as [E1 _].
  unfold mbind, M_bind in E1.
  destruct (decoder_push (concat ws') _) as [[d out] [u|e]]; [|done].
  destruct (decoder_push (concat ws' ++ t) _) as [[d2 out2] [u2|e2]]; [|done].
  assert (saw_final d = true) as Hs.
  { unfold decoder_finish in H2. by destruct (saw_final d). }
  destruct t; [done|]. unfold decoder_push in E1. by rewrite Hs in E1.
Qed.
End decoder_runs.

(** ** Sealing, as a list of records *)

Fixpoint flag_last (final_last : bool) (cs : list bytes) : list (bytes * bool) :=
  match cs with
  | [] => []
  | c :: cs => (c, final_last && bool_decide (cs = [])) :: flag_last final_last cs
  end.

(** The records [push_records] makes of one piece of data. *)
Definition data_records (data : bytes) (final_last : bool) : list (bytes * bool) :=
  match data with
  | [] => [([], final_last)]
  | _ => flag_last final_last (chunks RECORD_PLAINTEXT_MAX data)
  end.

(** The records a streaming sealer makes of its held bytes and the chunks to come. *)
Fixpoint stream_records (held : bytes) (merge_next : bool) (ps : list bytes) : list (bytes * bool) :=
  match ps with
  | [] => data_records held true
  | p :: ps =>
      match p with
      | [] => stream_records held merge_next ps
      | _ =>
          if merge_next then stream_records (held ++ p) false ps
          else match held with [] => [] | _ => data_records held false end
               ++ stream_records p false ps
      end
  end.

(** Exactly the last record of the list is final. *)
Fixpoint last_final (rs : list (bytes * bool)) : Prop :=
  match rs with
  | [] => False
  | [(_, f)] => f = true
  | (_, f) :: rs => f = false ∧ last_final rs
  end.

Section record_lists.

Lemma RECORD_PLAINTEXT_MAX_pos : 0 < RECORD_PLAINTEXT_MAX.
Proof. unfold RECORD_PLAINTEXT_MAX. lia. Qed.

Lemma fst_flag_last f cs : (flag_last f cs).*1 = cs.
Proof. induction cs as [|c cs IH]; [done|]. csimpl. by rewrite IH. Qed.

Lemma flag_last_true cs : cs ≠ [] → last_final (flag_last true cs).
Proof.
  induction cs as [|c cs IH]; [done|]. intros _. destruct cs as [|c' cs]; [done|].
  split; [done|]. by apply IH.
Qed.

Lemma flag_last_false cs : Forall (λ r, r.2 = false) (flag_last false cs).
Proof. induction cs; simpl; by constructor. Qed.

Lemma data_records_fst d f : (data_records d f).*1 = match d with [] => [[]] | _ => chunks RECORD_PLAINTEXT_MAX d end.
Proof. destruct d; [done|]. apply fst_flag_last. Qed.

Lemma data_records_concat d f : concat (data_records d f).*1 = d.
Proof.
  rewrite data_records_fst. destruct d; [done|]. apply chunks_concat, RECORD_PLAINTEXT_MAX_pos.
Qed.

Lemma data_records_size d f : Forall (λ r, length r.1 ≤ RECORD_PLAINTEXT_MAX) (data_records d f).
Proof.
  apply (proj1 (Forall_fmap fst (λ c, length c ≤ RECORD_PLAINTEXT_MAX) _)). rewrite data_records_fst.
  destruct d; [|apply chunks_length]. constructor; [simpl; lia|done].
Qed.

Lemma data_records_true d : last_final (data_records d true).
Proof. destruct d; [done|]. by apply flag_last_true. Qed.

Lemma data_records_false d : d ≠ [] → Forall (λ r, r.2 = false) (data_records d false).
Proof. destruct d; [done|]. intros _. apply flag_last_false. Qed.

Lemma chunks_go_count_le {A} fuel n (l : list A) : 0 < n → length (chunks_go fuel n l) ≤ length l.
Proof.
  intros Hn. revert l; induction fuel as [|fuel IH]; intros [|x l]; simpl; [lia..|].
  specialize (IH (drop n (x :: l))). rewrite length_drop in IH. simpl in IH. lia.
Qed.

Lemma data_records_count d f : length (data_records d f) ≤ length d + 1 ∧
  (d ≠ [] → length (data_records d f) ≤ length d).
Proof.
  rewrite <-(length_fmap fst), data_records_fst. destruct d as [|x d]; [by simpl; split; [lia|]|].
  pose proof (chunks_go_count_le (length (x :: d)) RECORD_PLAINTEXT_MAX (x :: d) RECORD_PLAINTEXT_MAX_pos).
  unfold chunks. split; [|intros _]; lia.
Qed.

Lemma last_final_app rs1 rs2 :
  Forall (λ r, r.2 = false) rs1 → last_final rs2 → last_final (rs1 ++ rs2).
Proof.
  intros H1 H2. induction H1 as [|[m f] rs1 Hf _ IH]; [done|]. simpl in *.
  destruct (rs1 ++ rs2) eqn:E; [done|]. done.
Qed.

Lemma stream_records_spec held mg ps :
  concat (stream_records held mg ps).*1 = held ++ concat ps ∧
  Forall (λ r, length r.1 ≤ RECORD_PLAINTEXT_MAX) (stream_records held mg ps) ∧
  last_final (stream_records held mg ps) ∧
  length (stream_records held mg ps) ≤ length held + length (concat ps) + 1.
Proof.
  revert held mg; induction ps as [|p ps IH]; intros held mg; simpl stream_records.
  - split_and!; [by rewrite data_records_concat; simpl; rewrite app_nil_r
      |apply data_records_size|apply data_records_true|simpl; pose proof (data_records_count held true); lia].
  - destruct p as [|b p]; [apply IH|]. simpl concat. destruct mg.
    { destruct (IH (held ++ b :: p) false) as (E1 & E2 & E3 & E4).
      split_and!; [by rewrite E1, <-app_assoc|done..|rewrite length_app in *; simpl in *; rewrite ?length_app in *; lia]. }
    destruct (IH (b :: p) false) as (E1 & E2 & E3 & E4). destruct held as [|h held].
    { simpl app. split_and!; [done..|simpl in *; rewrite ?length_app in *; lia]. }
    rewrite fmap_app, concat_app, E1, data_records_concat.
    split_and!; [done|by apply Forall_app; split; [apply data_records_size|]
      |by apply last_final_app; [apply data_records_false|]|].
    pose proof (data_records_count (h :: held) false) as [_ Hc]. specialize (Hc ltac:(done)).
    rewrite length_app. cbn [length app] in *. rewrite length_app. lia.
Qed.
End record_lists.

Section sealing.
Context `{AeadLaws}.

Fixpoint seal_records (out : bytes) (rs : list (bytes * bool)) :
    M RecordCipher TransportCryptoError bytes :=
  match rs with
  | [] => mret out
  | (m, f) :: rs => out' ← push_record out m f; seal_records out' rs
  end.

Lemma push_chunks_records out f cs c : push_chunks out f cs c = seal_records out (flag_last f cs) c.
Proof. revert out c; induction cs as [|x cs IH]; intros out c; [done|]. simpl. apply M_bind_ext. auto. Qed.

Lemma push_records_records out d f c : push_records out d f c = seal_records out (data_records d f) c.
Proof.
  destruct d as [|x d]; [|apply push_chunks_records]. unfold push_records, data_records, seal_records.
  unfold mbind, M_bind. by destruct (push_record _ _ _ c) as [? [?|?]].
Qed.

Lemma seal_records_app out rs1 rs2 c :
  seal_records out (rs1 ++ rs2) c = (seal_records out rs1 ≫= λ out', seal_records out' rs2) c.
Proof.
  revert out c; induction rs1 as [|[m f] rs1 IH]; intros out c; [done|]. simpl.
  rewrite M_bind_assoc. apply M_bind_ext. auto.
Qed.

(** The bytes a record list becomes on the wire. *)
Inductive wire : RecordCipher → list (bytes * bool) → bytes → Prop :=
  | wire_nil c : wire c [] []
  | wire_cons c m f ct rs w :
      (counter c < u64_MAX)%N → length m ≤ RECORD_PLAINTEXT_MAX →
      aead_encrypt (cipher c) (RecordCipher.nonce (counter c)) m (RecordCipher.aad c f) = Some ct →
      wire (RecordCipher.set_counter c (counter c + 1)) rs w →
      wire c ((m, f) :: rs) (u32_to_be_bytes (N.of_nat (length ct)) ++ ct ++ w).

Lemma seal_records_wire out rs c :
  Forall (λ r, length r.1 ≤ RECORD_PLAINTEXT_MAX) rs →
  (counter c + N.of_nat (length rs) ≤ u64_MAX)%N →
  ∃ w c', seal_records out rs c = (c', Ok (out ++ w)) ∧ wire c rs w.
Proof.
  intros Hrs. revert out c; induction Hrs as [|[m f] rs Hm Hrs IH]; intros out c Hc.
  { exists [], c. rewrite app_nil_r. split; [done|constructor]. }
  simpl in Hc, Hm. destruct (seal_ok m f c) as (ct & Hs & He).
  { lia. } { unfold AEAD_P_MAX, RECORD_PLAINTEXT_MAX in *. lia. }
  destruct (IH (out ++ u32_to_be_bytes (N.of_nat (length ct)) ++ ct)
    (RecordCipher.set_counter c (counter c + 1))) as (w & c' & Hw & Hwire); [simpl; lia|].
  exists (u32_to_be_bytes (N.of_nat (length ct)) ++ ct ++ w), c'. split.
  - cbn [seal_records]. unfold push_record.
    rewrite M_bind_assoc, (M_bind_eq _ _ _ _ _ Hs), (M_bind_eq (mret _) _ _ _ _ eq_refl), Hw.
    by rewrite <-!app_assoc.
  - constructor; [lia|done..].
Qed.

Lemma seal_records_out out rs c c' w :
  seal_records [] rs c = (c', Ok w) → seal_records out rs c = (c', Ok (out ++ w)).
Proof.
  intros Hs. assert (∀ o rs c c' w, seal_records o rs c = (c', Ok w) →
    ∃ w', w = o ++ w' ∧ ∀ o2, seal_records o2 rs c = (c', Ok (o2 ++ w'))) as Hg.
  { clear. intros o rs. revert o. induction rs as [|[m f] rs IH]; intros o c c' w; simpl.
    - intros [= <- <-]. exists []. rewrite app_nil_r. split; [done|]. intros. by rewrite app_nil_r.
    - unfold push_record, mbind, M_bind. destruct (RecordCipher.seal m f c) as [c1 [[k ct]|e]]; [|done].
      simpl. intros (w' & -> & Hw')%IH.
      exists (u32_to_be_bytes (N.of_nat (length ct)) ++ ct ++ w'). split; [by rewrite <-!app_assoc|].
      intros o2. rewrite Hw'. by rewrite <-!app_assoc. }
  destruct (Hg _ _ _ _ _ Hs) as (w' & -> & Hw). apply Hw.
Qed.

Lemma seal_records_err out rs c c' e :
  seal_records [] rs c = (c', Err e) → seal_records out rs c = (c', Err e).
Proof.
  generalize (@nil Bytes.byte) as o. revert out c.
  induction rs as [|[m f] rs IH]; intros out c o; simpl; [done|].
  unfold push_record, mbind, M_bind. destruct (RecordCipher.seal m f c) as [c1 [[k ct]|e']]; [|done].
  simpl. apply IH.
Qed.

(** The streaming sealer emits exactly the records of [stream_records]. *)
Lemma sealer_run_records self ps :
  sealer_run self ps =
    (seal_records [] (stream_records (held self) (merge_next self) ps) (s_cipher self)).2.
Proof.
  revert self; induction ps as [|p ps IH]; intros self; simpl.
  { unfold sealer_finish. by rewrite push_records_records. }
  destruct p as [|b p].
  { simpl. rewrite IH. by destruct (seal_records _ _ _) as [? [?|?]]. }
  unfold sealer_push. destruct (merge_next self) eqn:Hm.
  { rewrite IH. simpl. by destruct (seal_records _ _ _) as [? [?|?]]. }
  rewrite seal_records_app. unfold mbind at 2, M_bind.
  destruct (held self) as [|h hd] eqn:Hh.
  { rewrite IH. simpl. by destruct (seal_records _ _ _) as [? [?|?]]. }
  rewrite <-Hh, push_records_records in *.
  destruct (seal_records [] (data_records (held self) false) (s_cipher self)) as [c1 [out|e]]; [|done].
  rewrite IH. simpl. destruct (seal_records [] (stream_records (b :: p) false ps) c1) as [c2 [w|e]] eqn:E.
  - by rewrite (seal_records_out out _ _ _ _ E).
  - by rewrite (seal_records_err out _ _ _ _ E).
Qed.

(** One decoder round consumes one record. *)
Lemma decode_loop_record fuel c m f ct out w :
  (counter c < u64_MAX)%N → length m ≤ RECORD_PLAINTEXT_MAX →
  aead_encrypt (cipher c) (RecordCipher.nonce (counter c)) m (RecordCipher.aad c f) = Some ct →
  f && negb (bool_decide (w = [])) = false →
  decode_loop (S fuel) {| l_cipher := c; l_final := false; l_out := out;
    l_rest := u32_to_be_bytes (N.of_nat (length ct)) ++ ct ++ w |} =
  decode_loop fuel {| l_cipher := RecordCipher.set_counter c (counter c + 1); l_final := f;
    l_out := out ++ m; l_rest := w |}.
Proof.
  intros Hc Hm He Hf. pose proof (aead_encrypt_length _ _ _ _ _ He) as Hlen.
  assert (H4 : length (u32_to_be_bytes (N.of_nat (length ct))) = 4) by apply length_to_be.
  cbn [decode_loop l_rest l_cipher l_final l_out].
  destruct (Nat.ltb_spec (length (u32_to_be_bytes (N.of_nat (length ct)) ++ ct ++ w)) 4) as [Hlt|_].
  { rewrite length_app in Hlt. lia. }
  rewrite take_app_length' by done.
  assert (from_be (u32_to_be_bytes (N.of_nat (length ct))) = N.of_nat (length ct)) as ->.
  { apply from_be_to_be. unfold RECORD_PLAINTEXT_MAX, TAG_LENGTH in *. change (256 ^ N.of_nat 4)%N with 4294967296%N. lia. }
  replace (_ && _) with true by (symmetry; apply andb_true_iff; rewrite !N.leb_le;
    unfold RECORD_CIPHERTEXT_MAX, TAG_LENGTH in *; lia).
  cbn [negb]. rewrite Nat2N.id.
  destruct (Nat.ltb_spec (length (u32_to_be_bytes (N.of_nat (length ct)) ++ ct ++ w) - 4) (length ct)) as [Hlt|_].
  { rewrite !length_app in Hlt. lia. }
  rewrite (drop_app_length' _ _ 4), take_app_length by done.
  rewrite <-drop_drop, (drop_app_length' _ _ 4), drop_app_length by done.
  rewrite (open_next_either_sealed _ _ _ _ Hc He). by rewrite Hf.
Qed.

Lemma wire_nonempty c rs w : wire c rs w → rs ≠ [] → w ≠ [].
Proof.
  destruct 1; [done|]. intros _ E%(f_equal length). rewrite !length_app in E.
  unfold u32_to_be_bytes in E. rewrite length_to_be in E. simpl in E. lia.
Qed.

Lemma wire_decode c rs w out fuel :
  wire c rs w → last_final rs → length w < fuel →
  ∃ c', decode_loop fuel {| l_cipher := c; l_final := false; l_out := out; l_rest := w |}
    = ({| l_cipher := c'; l_final := true; l_out := out ++ concat rs.*1; l_rest := [] |}, Ok tt).
Proof.
  intros Hw. revert out fuel; induction Hw as [|c m f ct rs w Hc Hm He Hw IH]; [done|].
  intros out [|fuel] Hl Hf; [lia|]. rewrite !length_app in Hf.
  assert (length (u32_to_be_bytes (N.of_nat (length ct))) = 4) by apply length_to_be.
  destruct rs as [|r rs].
  - simpl in Hl. subst f. inversion Hw; subst. rewrite decode_loop_record with (m := m) (f := true) by done.
    simpl. rewrite app_nil_r. destruct fuel as [|fuel]; [lia|]. simpl. eauto.
  - destruct Hl as [-> Hl]. rewrite decode_loop_record with (m := m) (f := false) by done.
    destruct (IH (out ++ m) fuel Hl) as [c' ->]; [lia|]. exists c'. simpl. by rewrite <-app_assoc.
Qed.
End sealing.

Section stream_properties.
Context `{AeadLaws}.

(** A record list whose last record is final seals, and decodes to its
    plaintexts in one push that ends the stream. *)
Lemma records_decode (c : RecordCipher) (rs : list (bytes * bool)) :
  Forall (λ r, length r.1 ≤ RECORD_PLAINTEXT_MAX) rs → last_final rs →
  (counter c + N.of_nat (length rs) ≤ u64_MAX)%N →
  ∃ w c1 c2, seal_records [] rs c = (c1, Ok w) ∧
    decoder_push w (decoder_new c, []) =
      (({| d_cipher := c2; buffer := []; saw_final := true |}, concat rs.*1), Ok tt).
Proof.
  intros Hsz Hl Hc. destruct (seal_records_wire [] rs c Hsz Hc) as (w & c1 & Hs & Hw).
  destruct (wire_decode c rs w [] (S (length w)) Hw Hl) as [c2 Hd]; [lia|].
  exists w, c1, c2. split; [done|]. destruct (decide (w = [])) as [->|Hne].
  { exfalso. apply (wire_nonempty _ _ _ Hw); [|done]. by intros ->. }
  rewrite decoder_push_nonempty by done. cbn [buffer decoder_new app d_cipher]. by rewrite Hd.
Qed.

(** streaming round trip. For every head prefix and every way the producer
    cuts the body into chunks, sealing succeeds, and the wire bytes, cut in any
    way on the receiving side, decode to the prefix followed by the body. *)
Theorem record_stream_roundtrip (c : RecordCipher) (prefix : bytes) (body : list bytes) :
  (counter c + N.of_nat (length prefix + length (concat body)) < u64_MAX)%N →
  ∃ wire_bytes, sealer_run (sealer_new c prefix) body = Ok wire_bytes ∧
    ∀ ws, concat ws = wire_bytes → decoder_run c ws = Ok (prefix ++ concat body).
Proof.
  intros Hc. destruct (stream_records_spec prefix true body) as (E1 & E2 & E3 & E4).
  destruct (records_decode c _ E2 E3) as (w & c1 & c2 & Hs & Hd); [lia|].
  exists w. split; [by rewrite sealer_run_records; simpl; rewrite Hs|].
  intros ws Hws. rewrite decoder_run_push, Hws, Hd. cbn. by rewrite E1.
Qed.

Lemma seal_records_length out rs c c' w :
  seal_records out rs c = (c', Ok w) →
  length w = length out + length (concat rs.*1) + length rs * RECORD_OVERHEAD.
Proof.
  revert out c; induction rs as [|[m f] rs IH]; intros out c.
  { intros [= _ <-]. simpl. lia. }
  rewrite fmap_cons. cbn [seal_records concat length fst]. rewrite length_app.
  intros (c1 & out1 & Hp & Hr)%M_bind_Ok_inv. apply IH in Hr. rewrite Hr.
  unfold push_record in Hp. apply M_bind_Ok_inv in Hp as (c2 & [k ct] & Hs & Hp).
  assert (out1 = out ++ u32_to_be_bytes (N.of_nat (length ct)) ++ ct) as -> by (unfold mret, M_ret in Hp; congruence).
  apply seal_cases in Hs as [(e & _ & [=])|(ct' & _ & _ & [= -> ->] & He)].
  apply aead_encrypt_length in He. rewrite !length_app. unfold u32_to_be_bytes. rewrite length_to_be.
  unfold RECORD_OVERHEAD. unfold fst in *. lia.
Qed.

Lemma data_records_stream_length d f :
  length d + length (data_records d f) * RECORD_OVERHEAD = sealed_stream_length (length d).
Proof.
  unfold sealed_stream_length. rewrite <-(length_fmap fst (data_records _ _)), data_records_fst.
  destruct d as [|x d]; [done|]. unfold chunks.
  rewrite chunks_go_count by (done || apply RECORD_PLAINTEXT_MAX_pos).
  destruct (Nat.eqb_spec (length (x :: d)) 0); done.
Qed.

(** a body produced in one chunk seals exactly like a one-shot stream of
    head and body, and every one-shot stream has the advertised wire length. *)
Theorem one_chunk_is_one_shot (c : RecordCipher) (prefix body : bytes) :
  sealer_run (sealer_new c prefix) [body] = (seal_record_stream (prefix ++ body) c).2 ∧
  match seal_record_stream (prefix ++ body) c with
  | (_, Ok w) => length w = sealed_stream_length (length prefix + length body)
  | (_, Err _) => True
  end.
Proof.
  unfold seal_record_stream. rewrite push_records_records. split.
  { rewrite sealer_run_records. destruct body; [by rewrite app_nil_r|done]. }
  destruct (seal_records _ _ c) as [c' [w|e]] eqn:Hs; [|done].
  apply seal_records_length in Hs. rewrite Hs, data_records_concat, <-(length_app prefix).
  apply data_records_stream_length.
Qed.
End stream_properties.

(** ** Inner request and response heads *)

Record InnerRequestHead : Type := {
  method : string; path : string; query : option string; headers : list (string * string);
}.
Record InnerResponseHead : Type := { status : N; resp_headers : list (string * string) }.

Fixpoint string_contains_any (cs : list Ascii.ascii) (s : string) : bool :=
  match s with
  | EmptyString => false
  | String a s => bool_decide (a ∈ cs) || string_contains_any cs s
  end.

Definition validate_inner_path (path : string) : result TransportCryptoError unit :=
  if negb (String.prefix "/" path) || string_contains_any ["?"; "#"]%char path
  then Err (TransportCryptoError_new "invalid inner request path")
  else if bool_decide (path = SEALED_PATH) || String.prefix (SEALED_PATH +:+ "/") path
  then Err (TransportCryptoError_new "nested sealed request")
  else Ok tt.

Section heads.
(** [serde_json::from_slice::<InnerRequestHead>] and
    [serde_json::to_vec::<InnerResponseHead>]. *)
Context (head_from_slice : bytes → option InnerRequestHead).
Context (head_to_vec : InnerResponseHead → option bytes).

Definition parse_inner_head (plaintext : bytes) :
    result TransportCryptoError (option (InnerRequestHead * nat)) :=
  if length plaintext <? 4 then Ok None
  else
    let lengthN := from_be (take 4 plaintext) in
    if (N.of_nat MAX_HEAD_BYTES <? lengthN)%N
    then Err (TransportCryptoError_new "inner head too large")
    else
      let len := N.to_nat lengthN in
      if length plaintext <? 4 + len then Ok None
      else
        match head_from_slice (take len (drop 4 plaintext)) with
        | None => Err (TransportCryptoError_new "malformed inner request head")
        | Some head =>
            match validate_inner_path (path head) with
            | Err e => Err e
            | Ok _ => Ok (Some (head, 4 + len))
            end
        end.

Definition split_inner_request (plaintext : bytes) :
    result TransportCryptoError (InnerRequestHead * bytes) :=
  if length plaintext <? 4 then Err (TransportCryptoError_new "inner message too short")
  else
    match parse_inner_head plaintext with
    | Err e => Err e
    | Ok None => Err (TransportCryptoError_new "inner head truncated")
    | Ok (Some (head, body_start)) => Ok (head, drop body_start plaintext)
    end.

Definition encode_response_head (head : InnerResponseHead) : result TransportCryptoError bytes :=
  match head_to_vec head with
  | None => Err (TransportCryptoError_new "inner response head")
  | Some json =>
      if MAX_HEAD_BYTES <? length json
      then Err (TransportCryptoError_new "inner response head too large")
      else Ok (u32_to_be_bytes (N.of_nat (length json)) ++ json)
  end.

(** A message [u32_be(len(head)) || head || body]. *)
Definition frame_head (json body : bytes) : bytes :=
  u32_to_be_bytes (N.of_nat (length json)) ++ json ++ body.

Lemma parse_frame_head json body :
  length json ≤ MAX_HEAD_BYTES →
  parse_inner_head (frame_head json body) =
    match head_from_slice json with
    | None => Err (TransportCryptoError_new "malformed inner request head")
    | Some head =>
        match validate_inner_path (path head) with
        | Err e => Err e
        | Ok _ => Ok (Some (head, 4 + length json))
        end
    end.
Proof.
  intros Hl. unfold parse_inner_head, frame_head.
  assert (H4 : length (u32_to_be_bytes (N.of_nat (length json))) = 4) by apply length_to_be.
  assert (Hv : from_be (u32_to_be_bytes (N.of_nat (length json))) = N.of_nat (length json)).
  { apply from_be_to_be. unfold MAX_HEAD_BYTES in *. change (256 ^ N.of_nat 4)%N with 4294967296%N. lia. }
  rewrite take_app_length', Hv, Nat2N.id, (drop_app_length' _ _ 4), take_app_length, !length_app by done.
  destruct (Nat.ltb_spec (length (u32_to_be_bytes (N.of_nat (length json))) + (length json + length body)) 4); [lia|].
  destruct (N.ltb_spec (N.of_nat MAX_HEAD_BYTES) (N.of_nat (length json))); [lia|].
  destruct (Nat.ltb_spec (length (u32_to_be_bytes (N.of_nat (length json))) + (length json + length body))
    (4 + length json)); [lia|]. done.
Qed.

(** the streaming head parser waits for exactly the head: on every proper
    prefix that stops inside the length or the head it answers "incomplete",
    and from the end of the head on it answers the decoded, validated head and
    the offset of the body, however much of the body has arrived. *)
Theorem inner_head_incremental (json body : bytes) (head : InnerRequestHead) (n : nat) :
  length json ≤ MAX_HEAD_BYTES → head_from_slice json = Some head →
  validate_inner_path (path head) = Ok tt →
  parse_inner_head (take n (frame_head json body)) =
    (if n <? 4 + length json then Ok None else Ok (Some (head, 4 + length json))) ∧
  split_inner_request (frame_head json body) = Ok (head, body).
Proof.
  intros Hl Hh Hp.
  assert (H4 : length (u32_to_be_bytes (N.of_nat (length json))) = 4) by apply length_to_be.
  assert (Hv : from_be (u32_to_be_bytes (N.of_nat (length json))) = N.of_nat (length json)).
  { apply from_be_to_be. unfold MAX_HEAD_BYTES in *. change (256 ^ N.of_nat 4)%N with 4294967296%N. lia. }
  split.
  - destruct (Nat.ltb_spec n (4 + length json)) as [Hn|Hn].
    + unfold parse_inner_head. assert (Hlt : length (take n (frame_head json body)) = n).
      { rewrite length_take. unfold frame_head. rewrite !length_app. lia. }
      rewrite Hlt. destruct (Nat.ltb_spec n 4); [done|].
      rewrite take_take, Nat.min_l by lia. unfold frame_head at 1 2.
      rewrite take_app_length', Hv, Nat2N.id by done.
      destruct (N.ltb_spec (N.of_nat MAX_HEAD_BYTES) (N.of_nat (length json))); [lia|].
      destruct (Nat.ltb_spec n (4 + length json)); [done|lia].
    + replace (take n (frame_head json body)) with (frame_head json (take (n - 4 - length json) body)).
      * rewrite parse_frame_head by done. by rewrite Hh, Hp.
      * unfold frame_head. rewrite (take_app_ge _ _ n), (take_app_ge json _) by lia.
        by rewrite H4.
  - unfold split_inner_request. rewrite parse_frame_head by done. rewrite Hh, Hp.
    unfold frame_head. destruct (Nat.ltb_spec (length (u32_to_be_bytes (N.of_nat (length json)) ++ json ++ body)) 4) as [Hlt|_].
    { rewrite !length_app in Hlt. lia. }
    by rewrite <-drop_drop, (drop_app_length' _ _ 4), drop_app_length by done.
Qed.
End heads.

(** ** Examples *)
Import PlainAead.

Definition demo_cipher : RecordCipher := RecordCipher.new [Byte.x0a] [Byte.x0c] DIRECTION_DOWN.
Definition demo_wire : bytes :=
  match sealer_run (sealer_new demo_cipher [Byte.x01]) [[Byte.x02; Byte.x03]; [Byte.x04]] with
  | Ok w => w
  | Err _ => []
  end.

Lemma decoder_chunking_irrelevant_witness :
  decoder_run demo_cipher [take 5 demo_wire; drop 5 demo_wire] = decoder_run demo_cipher [demo_wire].
Proof. apply decoder_chunking_irrelevant. vm_compute. reflexivity. Defined.

Lemma sealed_streams_prefix_free_witness : @nil Bytes.byte = [] ∧ demo_wire ≠ [].
Proof.
  split.
  - eapply (sealed_streams_prefix_free demo_cipher [demo_wire] [take 5 demo_wire; drop 5 demo_wire] []
      [Byte.x01; Byte.x02; Byte.x03; Byte.x04] [Byte.x01; Byte.x02; Byte.x03; Byte.x04]);
      vm_compute; reflexivity.
  - vm_compute. discriminate.
Defined.

Lemma record_stream_roundtrip_witness :
  ∃ w, sealer_run (sealer_new demo_cipher [Byte.x01]) [[Byte.x02]; []; [Byte.x03]] = Ok w ∧
    ∀ ws, concat ws = w → decoder_run demo_cipher ws = Ok [Byte.x01; Byte.x02; Byte.x03].
Proof. apply (record_stream_roundtrip demo_cipher [Byte.x01] [[Byte.x02]; []; [Byte.x03]]). vm_compute. reflexivity. Defined.

Lemma one_chunk_is_one_shot_witness :
  sealer_run (sealer_new demo_cipher [Byte.x01]) [[Byte.x02]]
  = (seal_record_stream [Byte.x01; Byte.x02] demo_cipher).2.
Proof. apply (one_chunk_is_one_shot demo_cipher [Byte.x01] [Byte.x02]). Defined.

Definition demo_head : InnerRequestHead :=
  {| method := "GET"; path := "/v2/workspaces"; query := None; headers := [] |}.
Definition demo_head_from_slice (json : bytes) : option InnerRequestHead :=
  if bool_decide (json = [Byte.x7b; Byte.x7d]) then Some demo_head else None.

Lemma inner_head_incremental_witness :
  parse_inner_head demo_head_from_slice (take 5 (frame_head [Byte.x7b; Byte.x7d] [Byte.x09])) = Ok None ∧
  split_inner_request demo_head_from_slice (frame_head [Byte.x7b; Byte.x7d] [Byte.x09])
    = Ok (demo_head, [Byte.x09]).
Proof.
  apply (inner_head_incremental demo_head_from_slice [Byte.x7b; Byte.x7d] [Byte.x09] demo_head 5).
  - unfold MAX_HEAD_BYTES. simpl. lia.
  - reflexivity.
  - vm_compute. reflexivity.
Defined.
