(* ===== verification/Json.v ===== *)
(** * JSON values

    The operations of [serde_json::Value] the conversation code uses. The crate
    is not part of the repository, so the value type and its operations are an
    interface ([Json]); what the merge code relies on is [JsonLaws]. [Tree] is
    a small instance (objects and strings) on which examples run. *)
From S2P Require Import Prelude.
From Stdlib Require Import Ascii.

Class Json := {
  Value : Type;
  get : Value → string → option Value;          (* [value.get(key)] *)
  as_str : Value → option string;               (* [Value::as_str] *)
  string_value : string → Value;                (* [Value::String] *)
  null_value : Value;                           (* [Value::Null] *)
  pointer : Value → string → option Value;      (* [value.pointer(p)] *)
  pointer_set : Value → string → Value → Value; (* [*value.pointer_mut(p)? = x] *)
  disjoint_pointers : string → string → Prop;   (* neither names a part of the other *)
}.

Class JsonLaws `{Json} : Prop := {
  as_str_string s : as_str (string_value s) = Some s;
  as_str_null : as_str null_value = None;
  as_str_inv v s : as_str v = Some s → v = string_value s;
  pointer_set_same v p x : is_Some (pointer v p) → pointer (pointer_set v p x) p = Some x;
  pointer_set_disjoint v p q x :
    disjoint_pointers p q → pointer (pointer_set v p x) q = pointer v q;
  pointer_set_set v p x y : pointer_set (pointer_set v p x) p y = pointer_set v p y;
  pointer_set_comm v p q x y : disjoint_pointers p q →
    pointer_set (pointer_set v p x) q y = pointer_set (pointer_set v q y) p x;
  pointer_set_id v p x : pointer v p = Some x → pointer_set v p x = v;
}.

(** [payload.get(key).and_then(Value::as_str)]. *)
Definition text `{Json} (payload : Value) (key : string) : option string :=
  get payload key ≫= as_str.
#[global] Arguments text : simpl never.

(** ** Objects of strings and objects *)
Module Tree.

Inductive tree : Type :=
  | Null
  | Str (s : string)
  | Obj (fields : list (string * tree)).

Fixpoint assoc (k : string) (l : list (string * tree)) : option tree :=
  match l with
  | [] => None
  | (j, v) :: l => if String.eqb j k then Some v else assoc k l
  end.

Fixpoint assoc_set (k : string) (x : tree) (l : list (string * tree)) : list (string * tree) :=
  match l with
  | [] => []
  | (j, v) :: l => if String.eqb j k then (j, x) :: l else (j, v) :: assoc_set k x l
  end.

Definition tree_get (v : tree) (k : string) : option tree :=
  match v with Obj l => assoc k l | _ => None end.

(** One-segment pointers: ["/delta"] names field [delta]. *)
Definition field_of (p : string) : option string :=
  match p with
  | String "/"%char k => Some k
  | _ => None
  end.

Definition tree_pointer (v : tree) (p : string) : option tree :=
  match field_of p with Some k => tree_get v k | None => None end.

Definition tree_pointer_set (v : tree) (p : string) (x : tree) : tree :=
  match field_of p, v with
  | Some k, Obj l => Obj (assoc_set k x l)
  | _, _ => v
  end.

#[export] Instance json : Json := {|
  Value := tree;
  get := tree_get;
  as_str v := match v with Str s => Some s | _ => None end;
  string_value := Str;
  null_value := Null;
  pointer := tree_pointer;
  pointer_set := tree_pointer_set;
  disjoint_pointers p q := field_of p ≠ field_of q;
|}.

Lemma assoc_set_same k x l : is_Some (assoc k l) → assoc k (assoc_set k x l) = Some x.
Proof.
  induction l as [|[j v] l IH]; simpl; [by intros [? ?]|].
  destruct (String.eqb j k) eqn:E; simpl; rewrite E; auto.
Qed.

Lemma assoc_set_ne k j x l : k ≠ j → assoc j (assoc_set k x l) = assoc j l.
Proof.
  intros Hne. induction l as [|[i v] l IH]; simpl; [done|].
  destruct (String.eqb_spec i k) as [->|]; simpl; [|by rewrite IH].
  by rewrite (proj2 (String.eqb_neq k j) Hne).
Qed.

Lemma assoc_set_set k x y l : assoc_set k y (assoc_set k x l) = assoc_set k y l.
Proof.
  induction l as [|[i v] l IH]; simpl; [done|].
  destruct (String.eqb i k) eqn:E; simpl; rewrite E; [done|by rewrite IH].
Qed.

Lemma assoc_set_comm k j x y l :
  k ≠ j → assoc_set j y (assoc_set k x l) = assoc_set k x (assoc_set j y l).
Proof.
  intros Hne. induction l as [|[i v] l IH]; simpl; [done|].
  destruct (String.eqb i k) eqn:Ek, (String.eqb i j) eqn:Ej; simpl; rewrite ?Ek, ?Ej, ?IH; try done.
  apply String.eqb_eq in Ek, Ej. congruence.
Qed.

Lemma assoc_set_id k x l : assoc k l = Some x → assoc_set k x l = l.
Proof.
  induction l as [|[i v] l IH]; simpl; [done|].
  destruct (String.eqb i k); [by intros [= ->]|]. intros. by rewrite IH.
Qed.

#[export] Instance json_laws : JsonLaws.
Proof.
  split; simpl; unfold tree_pointer, tree_pointer_set.
  - done.
  - done.
  - intros v s. destruct v; by intros [= <-].
  - intros v p x. destruct (field_of p) as [k|]; [|by intros [? ?]]. destruct v; simpl; try by intros [? ?].
    apply assoc_set_same.
  - intros v p q x Hne. destruct (field_of p), (field_of q), v; simpl; try done. apply assoc_set_ne. congruence.
  - intros v p x y. destruct (field_of p), v; simpl; try done. by rewrite assoc_set_set.
  - intros v p q x y Hne. destruct (field_of p), (field_of q), v; simpl; try done.
    rewrite assoc_set_comm; [done|congruence].
  - intros v p x. destruct (field_of p), v; simpl; try done. intros. by rewrite assoc_set_id.
Qed.
End Tree.
