(* ===== verification/JsonObject.v ===== *)
(** * JSON objects

    The operations of [serde_json::Value] that take a value apart and build
    one, which the journal record code needs beyond those of [Json]. The crate
    is not part of the repository: [JsonView] is its interface, a value being
    seen as one of the six variants of the enumeration, an object as the finite
    map it is ([serde_json::Map] without [preserve_order] is a [BTreeMap]).
    [Jv] is an instance on which examples run. *)
From S2P Require Import Prelude Json.
Local Open Scope N_scope.

Inductive Shape (Num V : Type) : Type :=
  | SNull
  | SBool (b : bool)
  | SNumber (n : Num)
  | SString (s : string)
  | SArray (l : list V)
  | SObject (m : gmap string V).
Arguments SNull {Num V}.
Arguments SBool {Num V} b.
Arguments SNumber {Num V} n.
Arguments SString {Num V} s.
Arguments SArray {Num V} l.
Arguments SObject {Num V} m.

Class JsonView `{Json} := {
  Num : Type;                             (* [serde_json::Number] *)
  num_of_u64 : N → Num;
  num_as_u64 : Num → option N;
  view : Value → Shape Num Value;
  build : Shape Num Value → Value;
  depth : Value → nat;                    (* values are finite trees *)
}.

(** [u64::MAX]. *)
Definition U64_MAX : N := 2 ^ 64 - 1.

Class JsonViewLaws `{JsonView} : Prop := {
  view_build s : view (build s) = s;
  build_view v : build (view v) = v;
  view_string s : view (string_value s) = SString s;
  view_null : view null_value = SNull;
  get_view v k : get v k = match view v with SObject m => m !! k | _ => None end;
  as_str_view v : as_str v = match view v with SString s => Some s | _ => None end;
  num_u64 n : n ≤ U64_MAX → num_as_u64 (num_of_u64 n) = Some n;
  depth_object v m k x : view v = SObject m → m !! k = Some x → (depth x < depth v)%nat;
  depth_array v l x : view v = SArray l → x ∈ l → (depth x < depth v)%nat;
}.

Section ops.
Context `{JsonView}.

Definition as_object (v : Value) : option (gmap string Value) :=
  match view v with SObject m => Some m | _ => None end.
Definition object_value (m : gmap string Value) : Value := build (SObject m).
Definition as_array (v : Value) : option (list Value) :=
  match view v with SArray l => Some l | _ => None end.
Definition as_u64 (v : Value) : option N :=
  match view v with SNumber n => num_as_u64 n | _ => None end.
Definition u64_value (n : N) : Value := build (SNumber (num_of_u64 n)).
Definition bool_value (b : bool) : Value := build (SBool b).
Definition is_null (v : Value) : bool := match view v with SNull => true | _ => false end.
Definition is_object (v : Value) : bool := match view v with SObject _ => true | _ => false end.
End ops.

Section laws.
Context `{JsonViewLaws}.

Lemma as_object_value m : as_object (object_value m) = Some m.
Proof. unfold as_object, object_value. by rewrite view_build. Qed.
Lemma as_object_inv v m : as_object v = Some m → v = object_value m.
Proof.
  unfold as_object, object_value. destruct (view v) eqn:E; intros [= <-]. by rewrite <-E, build_view.
Qed.
Lemma get_object m k : get (object_value m) k = m !! k.
Proof. rewrite get_view. unfold object_value. by rewrite view_build. Qed.
Lemma get_as_object v k : get v k = as_object v ≫= (.!! k).
Proof. rewrite get_view. unfold as_object. by destruct (view v). Qed.
Lemma as_u64_value n : n ≤ U64_MAX → as_u64 (u64_value n) = Some n.
Proof. intros Hn. unfold as_u64, u64_value. rewrite view_build. by apply num_u64. Qed.
Lemma as_str_value s : as_str (string_value s) = Some s.
Proof. by rewrite as_str_view, view_string. Qed.
Lemma as_str_Some v s : as_str v = Some s → v = string_value s.
Proof.
  rewrite as_str_view. destruct (view v) eqn:E; intros [= <-].
  by rewrite <-(build_view v), <-(build_view (string_value s0)), E, view_string.
Qed.
Lemma is_null_spec v : is_null v = true ↔ v = null_value.
Proof.
  unfold is_null. split.
  - destruct (view v) eqn:E; [|done..]. intros _.
    by rewrite <-(build_view v), <-(build_view null_value), E, view_null.
  - intros ->. by rewrite view_null.
Qed.
Lemma text_object m k : text (object_value m) k = m !! k ≫= as_str.
Proof. unfold text. by rewrite get_object. Qed.
Lemma object_value_inj m m' : object_value m = object_value m' → m = m'.
Proof. intros E. apply (f_equal as_object) in E. rewrite !as_object_value in E. congruence. Qed.
End laws.

(** ** A concrete value type *)
Module Jv.

Inductive jv : Type :=
  | JNull
  | JBool (b : bool)
  | JNum (n : N)
  | JStr (s : string)
  | JArr (l : list jv)
  | JObj (m : gmap string jv).

Definition jv_view (v : jv) : Shape N jv :=
  match v with
  | JNull => SNull | JBool b => SBool b | JNum n => SNumber n | JStr s => SString s
  | JArr l => SArray l | JObj m => SObject m
  end.
Definition jv_build (s : Shape N jv) : jv :=
  match s with
  | SNull => JNull | SBool b => JBool b | SNumber n => JNum n | SString s => JStr s
  | SArray l => JArr l | SObject m => JObj m
  end.
(** A value is well founded: its members are smaller than it is. *)
Fixpoint jv_size (v : jv) : nat :=
  match v with
  | JArr l => S (foldr (λ x n, jv_size x + n)%nat O l)
  | JObj m => S (map_fold (λ _ x n, jv_size x + n)%nat O m)
  | _ => O
  end.
Lemma jv_size_member m k x : m !! k = Some x → (jv_size x < jv_size (JObj m))%nat.
Proof.
  intros Hk. simpl. rewrite <-(insert_delete_id m k x Hk), map_fold_insert_L; [lia|lia|].
  apply lookup_delete_eq.
Qed.
Lemma jv_size_element l x : x ∈ l → (jv_size x < jv_size (JArr l))%nat.
Proof. simpl. induction 1; simpl; lia. Qed.

(** Members are named by one-segment pointers; that is all the examples use. *)
#[export] Instance json : Json := {|
  Value := jv;
  get v k := match v with JObj m => m !! k | _ => None end;
  as_str v := match v with JStr s => Some s | _ => None end;
  string_value := JStr;
  null_value := JNull;
  pointer v p := match Tree.field_of p, v with Some k, JObj m => m !! k | _, _ => None end;
  pointer_set v p x :=
    match Tree.field_of p, v with
    | Some k, JObj m => if m !! k then JObj (<[k := x]> m) else v
    | _, _ => v
    end;
  disjoint_pointers p q := Tree.field_of p ≠ Tree.field_of q;
|}.
#[export] Instance json_view : JsonView := {|
  Num := N; num_of_u64 n := n; num_as_u64 n := if n <=? U64_MAX then Some n else None;
  view := jv_view; build := jv_build; depth := jv_size;
|}.
#[export] Instance json_view_laws : JsonViewLaws.
Proof.
  split; try done.
  - by intros [].
  - by intros [].
  - by intros [].
  - by intros [].
  - intros n Hn. cbn [num_as_u64 num_of_u64 json_view]. by rewrite (proj2 (N.leb_le _ _) Hn).
  - intros v m k x Hv. destruct v; try done. injection Hv as ->. apply jv_size_member.
  - intros v l x Hv. destruct v; try done. injection Hv as ->. apply jv_size_element.
Qed.

(** *** Values are countable, so that examples can write them down *)

Abbreviation leaf := (unit + bool + N + string)%type.

Fixpoint to_tree (v : jv) : gen_tree leaf :=
  match v with
  | JNull => GenLeaf (inl (inl (inl tt)))
  | JBool b => GenLeaf (inl (inl (inr b)))
  | JNum n => GenLeaf (inl (inr n))
  | JStr s => GenLeaf (inr s)
  | JArr l => GenNode 0 (to_tree <$> l)
  | JObj m => GenNode 1 (map_fold (λ k x l, GenLeaf (inr k) :: to_tree x :: l) [] m)
  end.

Fixpoint of_tree (t : gen_tree leaf) : jv :=
  match t with
  | GenLeaf (inl (inl (inl tt))) => JNull
  | GenLeaf (inl (inl (inr b))) => JBool b
  | GenLeaf (inl (inr n)) => JNum n
  | GenLeaf (inr s) => JStr s
  | GenNode 0 l => JArr (of_tree <$> l)
  | GenNode _ l =>
      JObj ((fix go (l : list (gen_tree leaf)) : gmap string jv :=
        match l with
        | GenLeaf (inr k) :: x :: l => <[k := of_tree x]> (go l)
        | _ => ∅
        end) l)
  end.

Lemma of_to_tree v : of_tree (to_tree v) = v.
Proof.
  induction v as [v IH] using (induction_ltof1 _ jv_size). unfold ltof in IH.
  destruct v as [| | | |l|m]; try done.
  - cbn. f_equal. rewrite <-list_fmap_compose. rewrite <-(list_fmap_id l) at 2.
    apply list_fmap_ext. intros i x Hx. apply IH, jv_size_element. by eapply list_elem_of_lookup_2.
  - cbn [to_tree of_tree]. f_equal.
    assert (Hm : ∀ k x, m !! k = Some x → of_tree (to_tree x) = x).
    { intros k x Hk. by apply IH, (jv_size_member m k). }
    clear IH. revert Hm.
    apply (map_fold_weak_ind (λ l m', (∀ k x, m' !! k = Some x → of_tree (to_tree x) = x) →
      (fix go (l : list (gen_tree leaf)) : gmap string jv :=
        match l with GenLeaf (inr k) :: x :: l => <[k := of_tree x]> (go l) | _ => ∅ end) l = m')); [done|].
    intros k x m' l Hk IH Hm. rewrite (Hm k x) by apply lookup_insert_eq. rewrite IH; [done|].
    intros k' x' Hk'. apply (Hm k'). rewrite lookup_insert_ne by (intros ->; by rewrite Hk in Hk'). done.
Qed.

#[export] Instance jv_eq_dec : EqDecision jv.
Proof.
  intros v w. destruct (decide (to_tree v = to_tree w)) as [E|E]; [left|right; by intros ->].
  by rewrite <-(of_to_tree v), <-(of_to_tree w), E.
Defined.
#[export] Instance jv_countable : Countable jv := inj_countable' to_tree of_tree of_to_tree.
End Jv.
