(* ===== verification/Model.v ===== *)
(** * Conversation events and status

    Model of the parts of src/src/conversation/model.rs every conversation
    component shares: the event record, the status enumeration, the canonical
    event names and the status a journal folds to. *)
From S2P Require Import Prelude Json.

Inductive ProviderKind : Type :=
  | Acp | Codex | Pi | ClaudeCode | GrokBuild | Devin | Opencode | Antigravity
  | DeepseekHarness | Omp.

Inductive ConversationStatus : Type :=
  | Idle | Running | WaitingPermission | Interrupted | Failed.

#[export] Instance ConversationStatus_eq_dec : EqDecision ConversationStatus.
Proof. solve_decision. Defined.

Section model.
Context `{Json}.

(** Times are nanoseconds since the epoch. *)
Record ConversationEvent : Type := {
  schema_version : N;
  sequence : N;
  event_id : string;
  conversation_id : string;
  time : Z;
  event_type : string;
  normalized_type : option string;
  raw_type : option string;
  provider : option ProviderKind;
  payload : Value;
}.

Definition normalized_event_type (event_type : string) : string :=
  if one_of ["turn.started"; "codex.turn.started"] event_type then "turn.started"
  else if one_of ["turn.completed"; "codex.turn.completed"] event_type then "turn.completed"
  else if one_of ["turn.cancelled"] event_type then "turn.cancelled"
  else if one_of ["conversation.interrupted"] event_type then "conversation.interrupted"
  else if one_of ["turn.failed"; "conversation.failed"] event_type then "turn.failed"
  else if one_of ["message.delta"; "assistant.delta"; "text_delta"] event_type then "assistant.delta"
  else if one_of ["thought.delta"; "reasoning.delta"; "thinking_delta"] event_type then "reasoning.delta"
  else if one_of ["tool.started"; "tool.created"; "item.started"] event_type then "tool.started"
  else if one_of ["tool.completed"; "tool.result"; "item.completed"] event_type then "tool.completed"
  else if one_of ["tool.failed"; "tool.error"] event_type then "tool.failed"
  else if one_of ["permission.requested"; "tool.awaitingApproval"] event_type then "tool.awaitingApproval"
  else if one_of ["compaction.started"] event_type then "compaction.started"
  else if one_of ["compaction.completed"] event_type then "compaction.completed"
  else if one_of ["subagent.started"] event_type then "subagent.started"
  else if one_of ["subagent.completed"] event_type then "subagent.completed"
  else if one_of ["workflow.started"; "workflow.resumed"] event_type then "workflow.started"
  else if one_of ["workflow.paused"] event_type then "workflow.paused"
  else if one_of ["workflow.completed"] event_type then "workflow.completed"
  else if one_of ["workflow.failed"] event_type then "workflow.failed"
  else if one_of ["workflow.cancelled"] event_type then "workflow.cancelled"
  else if one_of ["tool.checkpoint.created"] event_type then "tool.checkpoint.created"
  else if one_of ["tool.checkpoint.committed"] event_type then "tool.checkpoint.committed"
  else if one_of ["tool.checkpoint.rolledBack"; "tool.checkpoint.rolled_back"] event_type
  then "tool.checkpoint.rolledBack"
  else event_type.

Definition status_after_event (current : ConversationStatus) (event_type : string) : ConversationStatus :=
  let n := normalized_event_type event_type in
  if one_of ["turn.started"] n then Running
  else if one_of ["tool.awaitingApproval"] n then WaitingPermission
  else if one_of ["permission.resolved"] n && bool_decide (current = WaitingPermission) then Running
  else if one_of ["turn.completed"; "turn.cancelled"; "conversation.forked"] n then Idle
  else if one_of ["conversation.interrupted"] n then Interrupted
  else if one_of ["turn.failed"; "conversation.failed"] n then Failed
  else if one_of ["workflow.started"; "workflow.resumed"] n then Running
  else if one_of ["workflow.paused"] n then Interrupted
  else if one_of ["workflow.completed"; "workflow.cancelled"] n then Idle
  else if one_of ["workflow.failed"] n then Failed
  else current.

Definition status_after_conversation_event (current : ConversationStatus) (event : ConversationEvent) :
    ConversationStatus :=
  let t := event_type event in
  if bool_decide (text (payload event) "scope" = Some "session") &&
     one_of ["permission.requested"; "tool.awaitingApproval"; "permission.resolved"] t
  then current
  else
    let operation :=
      match text (payload event) "operationId" with
      | Some _ =>
          if one_of ["compaction.started"] t then Some Running
          else if one_of ["compaction.completed"; "compaction.cancelled"] t then Some Idle
          else if one_of ["compaction.failed"] t then Some Failed
          else None
      | None => None
      end in
    match operation with
    | Some status => status
    | None => status_after_event current t
    end.

(** [ConversationEvent::new]; the generated id and the clock are arguments. *)
Definition CONVERSATION_SCHEMA_VERSION : N := 2.
Definition ConversationEvent_new (fresh_id : string) (now : Z)
    (conversation_id : string) (sequence : N) (event_type : string) (payload : Value) : ConversationEvent :=
  {| schema_version := CONVERSATION_SCHEMA_VERSION;
     sequence := sequence;
     event_id := "evt_" +:+ fresh_id;
     conversation_id := conversation_id;
     time := now;
     event_type := event_type;
     normalized_type := Some (normalized_event_type event_type);
     raw_type := text payload "providerMethod";
     provider := None;
     payload := payload |}.
End model.

(** Normalizing is idempotent: a canonical name is its own canonical name. *)
Lemma normalized_event_type_idem t : normalized_event_type (normalized_event_type t) = normalized_event_type t.
Proof. unfold normalized_event_type at 2 3. repeat (case_match; [by vm_compute|]).
  unfold normalized_event_type. repeat (case_match; [done|]). done. Qed.
