(* ===== verification/Digest.v ===== *)
(** * Journal digest

    Model of src/src/conversation/digest.rs: the facts hot paths need from a
    conversation's whole history, folded event by event ([apply]) or merged
    range by range ([merge]), and the full-history scans they replace
    (the [reference_*] functions of the same file). Hash maps are [gmap], the
    [u8] terminal mask is an [N]. *)
From S2P Require Import Prelude Json Model.

Definition TURN_TERMINAL_EVENTS : list string :=
  ["turn.completed"; "turn.failed"; "turn.cancelled"; "turn.interrupted"].
Definition CONVERSATION_TERMINAL_EVENTS : list string :=
  ["conversation.interrupted"; "conversation.failed"].

Inductive ControlOutcome : Type := Completed | Rejected | Unknown.

Definition outcome_from_event_type (event_type : string) : option ControlOutcome :=
  if one_of ["control.completed"] event_type then Some Completed
  else if one_of ["control.rejected"] event_type then Some Rejected
  else if one_of ["control.unknown"] event_type then Some Unknown
  else None.

Record ClientRequestFacts : Type := {
  cr_first : N; cr_last : N; cr_last_turn_id : option string;
}.

Record ControlFacts : Type := {
  requested : option N; outcome : option (ControlOutcome * N);
}.
Definition ControlFacts_default : ControlFacts := {| requested := None; outcome := None |}.

(** [iter().position(|terminal| *terminal == event_type)]. *)
Fixpoint position_of (s : string) (l : list string) : option N :=
  match l with
  | [] => None
  | x :: l => if String.eqb x s then Some 0%N else N.succ <$> position_of s l
  end.

(** The status fold as a function of the starting status: one result per
    start, in the slot order of [STATUSES]. *)
Record StatusTransform : Type := {
  slot_idle : ConversationStatus; slot_running : ConversationStatus;
  slot_waiting : ConversationStatus; slot_interrupted : ConversationStatus;
  slot_failed : ConversationStatus;
}.

Definition StatusTransform_default : StatusTransform :=
  {| slot_idle := Idle; slot_running := Running; slot_waiting := WaitingPermission;
     slot_interrupted := Interrupted; slot_failed := Failed |}.

Definition transform_map (f : ConversationStatus → ConversationStatus) (t : StatusTransform) :
    StatusTransform :=
  {| slot_idle := f (slot_idle t); slot_running := f (slot_running t);
     slot_waiting := f (slot_waiting t); slot_interrupted := f (slot_interrupted t);
     slot_failed := f (slot_failed t) |}.

(** [self.0[status_slot(start)]]. *)
Definition transform_from (t : StatusTransform) (start : ConversationStatus) : ConversationStatus :=
  match start with
  | Idle => slot_idle t
  | Running => slot_running t
  | WaitingPermission => slot_waiting t
  | Interrupted => slot_interrupted t
  | Failed => slot_failed t
  end.

Definition transform_then (self later : StatusTransform) : StatusTransform :=
  transform_map (transform_from later) self.

Record OpenTurnFold : Type := {
  started : option (option string);
  closes_any : bool;
  closed : gset string;
}.
Definition OpenTurnFold_default : OpenTurnFold :=
  {| started := None; closes_any := false; closed := ∅ |}.

Module OpenTurn.

Definition apply (self : OpenTurnFold) (event_type : string) (turn_id : option string) : OpenTurnFold :=
  if String.eqb event_type "turn.started"
  then {| started := Some turn_id; closes_any := false; closed := ∅ |}
  else
    let conversation_terminal := one_of CONVERSATION_TERMINAL_EVENTS event_type in
    if negb conversation_terminal && negb (one_of TURN_TERMINAL_EVENTS event_type) then self
    else
      match started self with
      | Some open =>
          if conversation_terminal || bool_decide (turn_id = None) || bool_decide (turn_id = open)
          then {| started := Some None; closes_any := closes_any self; closed := closed self |}
          else self
      | None =>
          match (if conversation_terminal then None else turn_id) with
          | Some turn_id =>
              {| started := None; closes_any := closes_any self; closed := {[turn_id]} ∪ closed self |}
          | None => {| started := None; closes_any := true; closed := closed self |}
          end
      end.

Definition merge (self later : OpenTurnFold) : OpenTurnFold :=
  match started later with
  | Some _ => later
  | None =>
      match started self with
      | Some open =>
          if closes_any later ||
             match open with Some turn_id => bool_decide (turn_id ∈ closed later) | None => false end
          then {| started := Some None; closes_any := closes_any self; closed := closed self |}
          else self
      | None =>
          {| started := None; closes_any := closes_any self || closes_any later;
             closed := closed self ∪ closed later |}
      end
  end.

Definition open_turn (self : OpenTurnFold) : option string := started self ≫= id.
End OpenTurn.

Section digest.
Context `{Json}.

Record PermissionContext : Type := { scope : option Value; runtime_id : option Value }.

Record RecoveryFacts : Type := {
  rf_status : ConversationStatus;
  rf_open_turn : option string;
  rf_resident_runtimes : list string;
  rf_pending_permissions : list (string * PermissionContext);
  rf_background_pending : bool;
}.

Record JournalDigest : Type := {
  last_sequence : N;
  last_time : option Z;
  last_user_message : option N;
  client_requests : gmap string ClientRequestFacts;
  controls : gmap string ControlFacts;
  text_controls : gmap string N;
  turn_terminals : gmap string N;
  status : StatusTransform;
  open_turn : OpenTurnFold;
  runtimes : gmap string bool;
  permissions : gmap string (option PermissionContext);
  background_pending : option bool;
}.

Definition digest_default : JournalDigest :=
  {| last_sequence := 0; last_time := None; last_user_message := None; client_requests := ∅;
     controls := ∅; text_controls := ∅; turn_terminals := ∅; status := StatusTransform_default;
     open_turn := OpenTurnFold_default; runtimes := ∅; permissions := ∅; background_pending := None |}.

Definition background_pending_after (event : ConversationEvent) : option bool :=
  let t := event_type event in
  if String.eqb t "provider.event" && bool_decide (raw_type event = Some "background_tasks_pending")
  then Some true
  else if String.eqb t "provider.event" && bool_decide (raw_type event = Some "background_tasks_ended")
          || String.eqb t "turn.started"
  then Some false
  else if String.eqb t "turn.completed" then None
  else if one_of TURN_TERMINAL_EVENTS t || one_of CONVERSATION_TERMINAL_EVENTS t then Some false
  else None.

(** The event's id fields, as [apply] reads them. *)
Definition delivered_id (event : ConversationEvent) : option string :=
  let control := get (payload event) "control" in
  let control_text key := control ≫= λ c, get c key ≫= as_str in
  let delivered :=
    match control_text "action" with
    | Some action =>
        if String.eqb action "queueAdd" then control_text "itemId"
        else if String.eqb action "steer" then text (payload event) "requestId"
        else None
    | None => None
    end in
  if bool_decide (is_Some (control_text "text")) || bool_decide (is_Some (control_text "textMac"))
  then delivered else None.

Definition request_entry (seq : N) (turn_id : option string) (o : option ClientRequestFacts) :
    ClientRequestFacts :=
  {| cr_first := match o with Some f => cr_first f | None => seq end;
     cr_last := seq; cr_last_turn_id := turn_id |}.
Definition requested_entry (seq : N) (o : option ControlFacts) : ControlFacts :=
  let f := default ControlFacts_default o in
  {| requested := Some (default seq (requested f)); outcome := outcome f |}.
Definition outcome_entry (out : ControlOutcome) (seq : N) (o : option ControlFacts) : ControlFacts :=
  let f := default ControlFacts_default o in
  {| requested := requested f; outcome := Some (out, seq) |}.
Definition mask_entry (bit : N) (o : option N) : N := N.lor (default 0%N o) (N.shiftl 1 bit).

(** The per-field effects of [JournalDigest::apply], in the order of the
    code's [match] arms and [if let]s. *)
Definition apply_user_message (event : ConversationEvent) (m : option N) : option N :=
  if String.eqb (event_type event) "message.created" &&
     bool_decide (text (payload event) "role" = Some "user")
  then Some (sequence event) else m.

Definition apply_client_requests (event : ConversationEvent) (m : gmap string ClientRequestFacts) :
    gmap string ClientRequestFacts :=
  if String.eqb (event_type event) "message.created" then
    match text (payload event) "clientRequestId" with
    | Some request_id =>
        entry request_id (request_entry (sequence event) (text (payload event) "turnId")) m
    | None => m
    end
  else m.

Definition apply_controls (event : ConversationEvent) (m : gmap string ControlFacts) :
    gmap string ControlFacts :=
  let m1 :=
    if String.eqb (event_type event) "control.requested" then
      match text (payload event) "requestId" with
      | Some request_id => entry request_id (requested_entry (sequence event)) m
      | None => m
      end
    else m in
  match outcome_from_event_type (event_type event) with
  | Some out =>
      match text (payload event) "requestId" with
      | Some request_id => entry request_id (outcome_entry out (sequence event)) m1
      | None => m1
      end
  | None => m1
  end.

Definition apply_text_controls (event : ConversationEvent) (m : gmap string N) : gmap string N :=
  if String.eqb (event_type event) "control.requested" then
    match delivered_id event with
    | Some id => entry id (default (sequence event)) m
    | None => m
    end
  else m.

Definition apply_runtimes (event : ConversationEvent) (m : gmap string bool) : gmap string bool :=
  if String.eqb (event_type event) "provider.runtime" then
    match text (payload event) "runtimeId" with
    | Some runtime_id =>
        match text (payload event) "status" with
        | Some s =>
            if String.eqb s "ready" then <[runtime_id := true]> m
            else if String.eqb s "stopped" then <[runtime_id := false]> m
            else m
        | None => m
        end
    | None => m
    end
  else m.

Definition apply_turn_terminals (event : ConversationEvent) (m : gmap string N) : gmap string N :=
  match position_of (event_type event) TURN_TERMINAL_EVENTS with
  | Some bit =>
      match text (payload event) "turnId" with
      | Some turn_id => entry turn_id (mask_entry bit) m
      | None => m
      end
  | None => m
  end.

Definition apply_permissions (event : ConversationEvent) (m : gmap string (option PermissionContext)) :
    gmap string (option PermissionContext) :=
  match text (payload event) "permissionId" with
  | Some permission_id =>
      if one_of ["permission.requested"; "tool.awaitingApproval"] (event_type event)
      then <[permission_id := Some {| scope := get (payload event) "scope";
                                      runtime_id := get (payload event) "runtimeId" |}]> m
      else if String.eqb (event_type event) "permission.resolved"
      then <[permission_id := None]> m
      else m
  | None => m
  end.

Definition apply (self : JournalDigest) (event : ConversationEvent) : JournalDigest :=
  {| last_sequence := sequence event;
     last_time := Some (time event);
     last_user_message := apply_user_message event (last_user_message self);
     client_requests := apply_client_requests event (client_requests self);
     controls := apply_controls event (controls self);
     text_controls := apply_text_controls event (text_controls self);
     turn_terminals := apply_turn_terminals event (turn_terminals self);
     status := transform_map (λ s, status_after_conversation_event s event) (status self);
     open_turn := OpenTurn.apply (open_turn self) (event_type event) (text (payload event) "turnId");
     runtimes := apply_runtimes event (runtimes self);
     permissions := apply_permissions event (permissions self);
     background_pending :=
       match background_pending_after event with
       | Some pending => Some pending
       | None => background_pending self
       end |}.

Definition from_events (events : list ConversationEvent) : JournalDigest :=
  foldl apply digest_default events.

(** [Option::or]. *)
Definition or {A} (a b : option A) : option A := match a with Some _ => a | None => b end.

Definition merge_request (earlier : option ClientRequestFacts) (facts : ClientRequestFacts) :
    ClientRequestFacts :=
  match earlier with
  | Some e => {| cr_first := cr_first e; cr_last := cr_last facts;
                 cr_last_turn_id := cr_last_turn_id facts |}
  | None => facts
  end.
Definition merge_control (earlier : option ControlFacts) (facts : ControlFacts) : ControlFacts :=
  let e := default ControlFacts_default earlier in
  {| requested := or (requested e) (requested facts); outcome := or (outcome facts) (outcome e) |}.

Definition merge (self later : JournalDigest) : JournalDigest :=
  if (last_sequence later =? 0)%N then self
  else
    {| last_sequence := last_sequence later;
       last_time := last_time later;
       last_user_message := or (last_user_message later) (last_user_message self);
       client_requests := fold_entries merge_request (client_requests self) (client_requests later);
       controls := fold_entries merge_control (controls self) (controls later);
       text_controls := fold_entries (λ o v, default v o) (text_controls self) (text_controls later);
       turn_terminals :=
         fold_entries (λ o mask, N.lor (default 0%N o) mask) (turn_terminals self) (turn_terminals later);
       status := transform_then (status self) (status later);
       open_turn := OpenTurn.merge (open_turn self) (open_turn later);
       runtimes := fold_entries (λ _ v, v) (runtimes self) (runtimes later);
       permissions := fold_entries (λ _ v, v) (permissions self) (permissions later);
       background_pending := or (background_pending later) (background_pending self) |}.

Definition client_request (self : JournalDigest) (client_request_id : string) :
    option ClientRequestFacts := client_requests self !! client_request_id.
Definition control (self : JournalDigest) (request_id : string) : option ControlFacts :=
  controls self !! request_id.
Definition text_control (self : JournalDigest) (id : string) : option N := text_controls self !! id.

Definition has_turn_terminal (self : JournalDigest) (turn_id event_type : string) : option bool :=
  bit ← position_of event_type TURN_TERMINAL_EVENTS;
  Some (match turn_terminals self !! turn_id with
        | Some mask => negb (N.land mask (N.shiftl 1 bit) =? 0)%N
        | None => false
        end).

Definition status_from (self : JournalDigest) (start : ConversationStatus) : ConversationStatus :=
  transform_from (status self) start.

Definition recovery (self : JournalDigest) : RecoveryFacts :=
  {| rf_status := status_from self Idle;
     rf_open_turn := OpenTurn.open_turn (open_turn self);
     rf_resident_runtimes := (filter (λ p, p.2 = true) (btree_iter (runtimes self))).*1;
     rf_pending_permissions :=
       omap (λ p, pair p.1 <$> p.2) (btree_iter (permissions self));
     rf_background_pending := bool_decide (background_pending self = Some true) |}.
End digest.

(** ** The full-history scans *)
Section reference.
Context `{Json}.

Definition reference_open_turn_step (open : option string) (event : ConversationEvent) : option string :=
  let turn_id := text (payload event) "turnId" in
  let t := event_type event in
  if String.eqb t "turn.started" then turn_id
  else if one_of CONVERSATION_TERMINAL_EVENTS t ||
          one_of TURN_TERMINAL_EVENTS t && (bool_decide (turn_id = None) || bool_decide (turn_id = open))
  then None else open.
Definition reference_open_turn (history : list ConversationEvent) : option string :=
  foldl reference_open_turn_step None history.

Definition reference_runtimes_step (resident_runtimes : gset string) (event : ConversationEvent) :
    gset string :=
  if String.eqb (event_type event) "provider.runtime" then
    match text (payload event) "runtimeId" with
    | Some id =>
        match text (payload event) "status" with
        | Some s => if String.eqb s "ready" then {[id]} ∪ resident_runtimes
                    else if String.eqb s "stopped" then resident_runtimes ∖ {[id]}
                    else resident_runtimes
        | None => resident_runtimes
        end
    | None => resident_runtimes
    end
  else resident_runtimes.

Definition reference_permissions_step (expired : gmap string PermissionContext)
    (event : ConversationEvent) : gmap string PermissionContext :=
  match text (payload event) "permissionId" with
  | Some id =>
      if one_of ["permission.requested"; "tool.awaitingApproval"] (event_type event)
      then <[id := {| scope := get (payload event) "scope";
                      runtime_id := get (payload event) "runtimeId" |}]> expired
      else if String.eqb (event_type event) "permission.resolved" then delete id expired
      else expired
  | None => expired
  end.

Definition reference_recovery (history : list ConversationEvent) :
    gmap string PermissionContext * gset string :=
  foldl (λ '(expired, resident_runtimes) event,
    (reference_permissions_step expired event, reference_runtimes_step resident_runtimes event))
    (∅, ∅) history.

Definition provider_method (event : ConversationEvent) : option string :=
  text (payload event) "providerMethod".
Definition settles (event : ConversationEvent) : bool :=
  let kind := event_type event in
  String.eqb kind "turn.started"
  || String.eqb kind "provider.event" && bool_decide (provider_method event = Some "background_tasks_ended")
  || negb (String.eqb kind "turn.completed") &&
     (one_of TURN_TERMINAL_EVENTS kind || one_of CONVERSATION_TERMINAL_EVENTS kind).
Definition is_notice (event : ConversationEvent) : bool :=
  String.eqb (event_type event) "provider.event" &&
  bool_decide (provider_method event = Some "background_tasks_pending").

(** [iter().rposition(p)]. *)
Fixpoint rposition (p : ConversationEvent → bool) (l : list ConversationEvent) : option nat :=
  match l with
  | [] => None
  | x :: l =>
      match rposition p l with
      | Some i => Some (S i)
      | None => if p x then Some O else None
      end
  end.

Definition reference_background_pending (history : list ConversationEvent) : bool :=
  match rposition is_notice history with
  | Some notice => negb (existsb settles (drop (S notice) history))
  | None => false
  end.

Definition names_request (key id : string) (event : ConversationEvent) : bool :=
  bool_decide (text (payload event) key = Some id).

Definition is_prompt (id : string) (event : ConversationEvent) : bool :=
  String.eqb (event_type event) "message.created" && names_request "clientRequestId" id event.

Definition reference_prompt_previous (history : list ConversationEvent) (id : string) : option N :=
  sequence <$> find (is_prompt id) history.

Definition reference_delivered_turn (history : list ConversationEvent) (id : string) : option string :=
  find (is_prompt id) (rev history) ≫= λ event, text (payload event) "turnId".

Definition reference_control (history : list ConversationEvent) (request_id : string) :
    option N * option (string * N) :=
  (sequence <$> find (λ event, String.eqb (event_type event) "control.requested" &&
                               names_request "requestId" request_id event) history,
   (λ event, (event_type event, sequence event)) <$>
     find (λ event, one_of ["control.completed"; "control.rejected"; "control.unknown"] (event_type event)
                    && names_request "requestId" request_id event) (rev history)).

Definition reference_has_turn_event (history : list ConversationEvent) (turn kind : string) : bool :=
  existsb (λ event, String.eqb (event_type event) kind && names_request "turnId" turn event) (rev history).

Definition reference_last_user_message (history : list ConversationEvent) : option N :=
  sequence <$> find (λ event, String.eqb (event_type event) "message.created" &&
                              names_request "role" "user" event) (rev history).

Definition outcome_type (out : ControlOutcome) : string :=
  match out with
  | Completed => "control.completed"
  | Rejected => "control.rejected"
  | Unknown => "control.unknown"
  end.
End reference.

(** ** Merging ranges *)

Lemma OpenTurn_merge_apply a b t turn :
  OpenTurn.apply (OpenTurn.merge a b) t turn = OpenTurn.merge a (OpenTurn.apply b t turn).
Proof.
  unfold OpenTurn.apply. destruct (String.eqb t "turn.started"); [done|].
  destruct (one_of CONVERSATION_TERMINAL_EVENTS t) eqn:Ec; cbn [negb andb orb].
  - unfold OpenTurn.merge. destruct b as [[ob|] cb db]; [done|].
    destruct a as [[oa|] ca da]; cbn [started closes_any closed].
    + by destruct (cb || _).
    + by rewrite orb_true_r.
  - destruct (one_of TURN_TERMINAL_EVENTS t); cbn [negb]; [|done].
    unfold OpenTurn.merge. destruct b as [[ob|] cb db]; cbn [started].
    + by destruct (_ || _).
    + destruct a as [[oa|] ca da], turn as [turn|]; cbn [started closes_any closed].
      * destruct cb; cbn [orb]; [by destruct (bool_decide _)|]. destruct oa as [oa|]; cbn.
        -- repeat case_bool_decide; cbn; repeat case_bool_decide; set_solver.
        -- done.
      * by destruct (_ || _).
      * by rewrite (assoc_L (∪)), (comm_L (∪) _ da), (assoc_L (∪)).
      * by rewrite orb_true_r.
Qed.

Section merging.
Context `{Json}.
Implicit Types (a b d : JournalDigest) (e : ConversationEvent).

Lemma or_None_r {A} (x : option A) : or x None = x.
Proof. by destruct x. Qed.

Lemma transform_then_map t1 t2 f :
  transform_map f (transform_then t1 t2) = transform_then t1 (transform_map f t2).
Proof. unfold transform_then, transform_map, transform_from; simpl. by f_equal; case_match. Qed.

Lemma transform_then_default t : transform_then t StatusTransform_default = t.
Proof. destruct t as [x1 x2 x3 x4 x5]. unfold transform_then, transform_map, transform_from; simpl.
  f_equal; by case_match. Qed.

Lemma OpenTurn_merge_default f : OpenTurn.merge f OpenTurnFold_default = f.
Proof.
  unfold OpenTurn.merge. destruct f as [[[t|]|] c cl]; cbn; [|done|].
  - by rewrite bool_decide_eq_false_2 by set_solver.
  - by rewrite orb_false_r, (right_id_L ∅ (∪)).
Qed.

Lemma merge_requests_apply e m later :
  fold_entries merge_request m (apply_client_requests e later) =
  apply_client_requests e (fold_entries merge_request m later).
Proof.
  unfold apply_client_requests. repeat case_match; try done.
  apply fold_entries_entry. by intros [?|] [?|].
Qed.

Lemma merge_controls_apply e m later :
  fold_entries merge_control m (apply_controls e later) =
  apply_controls e (fold_entries merge_control m later).
Proof.
  unfold apply_controls. repeat case_match; try done.
  all: rewrite !fold_entries_entry; try done; intros [[[?|] [[??]|]]|] [[[?|] [[??]|]]|]; done.
Qed.

Lemma merge_text_controls_apply e m later :
  fold_entries (λ o v, default v o) m (apply_text_controls e later) =
  apply_text_controls e (fold_entries (λ o v, default v o) m later).
Proof.
  unfold apply_text_controls. repeat case_match; try done.
  apply fold_entries_entry. by intros [?|] [?|].
Qed.

Lemma merge_terminals_apply e m later :
  fold_entries (λ o mask, N.lor (default 0%N o) mask) m (apply_turn_terminals e later) =
  apply_turn_terminals e (fold_entries (λ o mask, N.lor (default 0%N o) mask) m later).
Proof.
  unfold apply_turn_terminals. repeat case_match; try done.
  apply fold_entries_entry. unfold mask_entry. intros [?|] [?|]; cbn [default from_option];
    by rewrite ?N.lor_0_l, ?N.lor_assoc.
Qed.

Lemma merge_insert {V} k (v : V) m later :
  fold_entries (λ _ v, v) m (<[k := v]> later) = <[k := v]> (fold_entries (λ _ v, v) m later).
Proof. exact (fold_entries_entry (λ _ v, v) (λ _, v) k m later (λ _ _, eq_refl)). Qed.

Lemma merge_runtimes_apply e m later :
  fold_entries (λ _ v, v) m (apply_runtimes e later) =
  apply_runtimes e (fold_entries (λ _ v, v) m later).
Proof. unfold apply_runtimes. repeat case_match; try done; apply merge_insert. Qed.

Lemma merge_permissions_apply e m later :
  fold_entries (λ _ v, v) m (apply_permissions e later) =
  apply_permissions e (fold_entries (λ _ v, v) m later).
Proof. unfold apply_permissions. repeat case_match; try done; apply merge_insert. Qed.

(** [merge] past its guard on an empty later range. *)
Definition merge_ranges (self later : JournalDigest) : JournalDigest :=
  merge self {| last_sequence := 1; last_time := last_time later;
    last_user_message := last_user_message later; client_requests := client_requests later;
    controls := controls later; text_controls := text_controls later;
    turn_terminals := turn_terminals later; status := status later; open_turn := open_turn later;
    runtimes := runtimes later; permissions := permissions later;
    background_pending := background_pending later |}.

(** Applying an event after merging is merging what the event makes of the
    later range. *)
Lemma apply_merge_ranges a b e :
  (0 < sequence e)%N → apply (merge_ranges a b) e = merge a (apply b e).
Proof.
  intros Hs. unfold merge_ranges, merge, apply. cbn -[transform_map transform_then].
  destruct (N.eqb_spec (sequence e) 0); [lia|].
  rewrite merge_requests_apply, merge_controls_apply, merge_text_controls_apply,
    merge_terminals_apply, transform_then_map, OpenTurn_merge_apply, merge_runtimes_apply,
    merge_permissions_apply. f_equal.
  - unfold apply_user_message. by case_match.
  - by destruct (background_pending_after e).
Qed.

Lemma apply_merge_nonempty a b e :
  last_sequence b ≠ 0%N → apply (merge a b) e = apply (merge_ranges a b) e.
Proof.
  intros Hb. unfold merge_ranges, merge. cbn [last_sequence].
  by rewrite (proj2 (N.eqb_neq _ _) Hb).
Qed.

Lemma apply_merge_default a e : apply a e = apply (merge_ranges a digest_default) e.
Proof.
  unfold merge_ranges, merge, apply.
  cbn -[transform_map transform_then OpenTurn.merge OpenTurnFold_default StatusTransform_default
        fold_entries OpenTurn.apply].
  by rewrite !fold_entries_empty, transform_then_default, OpenTurn_merge_default.
Qed.

Lemma foldl_merge a b l :
  Forall (λ e, (0 < sequence e)%N) l → last_sequence b ≠ 0%N →
  foldl apply (merge a b) l = merge a (foldl apply b l).
Proof.
  intros Hl. revert b. induction Hl as [|e l He Hl IH]; intros b Hb; simpl; [done|].
  rewrite apply_merge_nonempty, apply_merge_ranges by done. apply IH. simpl. lia.
Qed.

(** C18: a digest is a homomorphism from concatenation of journal ranges to
    [merge]: folding the digest of a later range into the digest of the
    earlier one gives the digest of the whole journal, whatever the cut (the
    empty later range included). Sequences in a journal start at 1. *)
Theorem digest_of_concatenation (A B : list ConversationEvent) :
  Forall (λ e, (0 < sequence e)%N) B →
  from_events (A ++ B) = merge (from_events A) (from_events B).
Proof.
  intros HB. unfold from_events. rewrite foldl_app.
  destruct HB as [|e B He HB]; simpl; [done|].
  rewrite apply_merge_default, apply_merge_ranges by done. apply foldl_merge; simpl; [done|lia].
Qed.
End merging.

(** ** Digest answers are the full-history scans *)
Section scans.
Context `{Json}.
Implicit Types (e : ConversationEvent) (l : list ConversationEvent).

Lemma from_events_snoc l e : from_events (l ++ [e]) = apply (from_events l) e.
Proof. unfold from_events. by rewrite foldl_app. Qed.

Lemma status_from_map f t s : transform_from (transform_map f t) s = f (transform_from t s).
Proof. by destruct s. Qed.

Lemma status_from_scan l s :
  status_from (from_events l) s = foldl status_after_conversation_event s l.
Proof.
  induction l as [|e l IH] using rev_ind; [by destruct s|].
  rewrite from_events_snoc, foldl_app. simpl. rewrite <-IH. apply status_from_map.
Qed.

Lemma open_turn_scan l : OpenTurn.open_turn (open_turn (from_events l)) = reference_open_turn l.
Proof.
  induction l as [|e l IH] using rev_ind; [done|].
  rewrite from_events_snoc. unfold reference_open_turn in *. rewrite foldl_app. simpl. rewrite <-IH.
  unfold reference_open_turn_step, OpenTurn.apply, OpenTurn.open_turn. destruct (String.eqb _ _); [done|].
  destruct (open_turn (from_events l)) as [[o|] c cl]; simpl;
    destruct (one_of CONVERSATION_TERMINAL_EVENTS _), (one_of TURN_TERMINAL_EVENTS _); simpl; try done.
  - by destruct (_ || _).
  - destruct (text _ _); by case_match.
Qed.

Lemma last_user_message_scan l :
  last_user_message (from_events l) = reference_last_user_message l.
Proof.
  induction l as [|e l IH] using rev_ind; [done|].
  rewrite from_events_snoc. unfold reference_last_user_message in *. rewrite find_rev_snoc.
  simpl. rewrite IH. unfold apply_user_message, names_request. by destruct (_ && _).
Qed.

Lemma client_request_scan l id :
  client_request (from_events l) id =
    match find (is_prompt id) l, find (is_prompt id) (rev l) with
    | Some f, Some g => Some {| cr_first := sequence f; cr_last := sequence g;
                                cr_last_turn_id := text (payload g) "turnId" |}
    | _, _ => None
    end.
Proof.
  induction l as [|e l IH] using rev_ind; [done|].
  rewrite from_events_snoc, find_rev_snoc, find_snoc. unfold client_request in *. simpl.
  unfold apply_client_requests, entry. unfold is_prompt at 2 3, names_request.
  destruct (String.eqb _ _); simpl.
  2:{ rewrite IH. by destruct (find _ l). }
  case_bool_decide as Hid.
  - rewrite Hid, lookup_insert_eq, IH. unfold request_entry.
    destruct (find (is_prompt id) l) eqn:E1, (find (is_prompt id) (rev l)) eqn:E2; try done.
    apply find_rev_None in E2. congruence.
  - destruct (text (payload e) "clientRequestId"); rewrite ?lookup_insert_ne by congruence;
      rewrite IH; by destruct (find _ l).
Qed.

Lemma outcome_type_from t out : outcome_from_event_type t = Some out → outcome_type out = t.
Proof.
  unfold outcome_from_event_type, one_of, existsb. rewrite !orb_false_r.
  intros Ht. repeat case_match; simplify_eq; symmetry; by apply String.eqb_eq.
Qed.

Lemma outcome_from_one_of t :
  one_of ["control.completed"; "control.rejected"; "control.unknown"] t =
  match outcome_from_event_type t with Some _ => true | None => false end.
Proof.
  unfold outcome_from_event_type, one_of. cbn [existsb]. rewrite !orb_false_r.
  by destruct (String.eqb t "control.completed"), (String.eqb t "control.rejected"),
    (String.eqb t "control.unknown").
Qed.

(** The two arms of [apply] that touch [controls], read at one id. *)
Lemma lookup_apply_controls e m id :
  let f := default ControlFacts_default (apply_controls e m !! id) in
  let g := default ControlFacts_default (m !! id) in
  requested f =
    (if String.eqb (event_type e) "control.requested" && names_request "requestId" id e
     then Some (default (sequence e) (requested g)) else requested g) ∧
  outcome f =
    match outcome_from_event_type (event_type e) with
    | Some out => if names_request "requestId" id e then Some (out, sequence e) else outcome g
    | None => outcome g
    end.
Proof.
  unfold apply_controls, names_request, entry.
  destruct (text (payload e) "requestId") as [r|]; simpl.
  2:{ rewrite andb_false_r. by destruct (String.eqb _ _), (outcome_from_event_type _). }
  destruct (decide (r = id)) as [->|Hne].
  - rewrite bool_decide_eq_true_2, andb_true_r by done.
    destruct (String.eqb _ _), (outcome_from_event_type _); simpl;
      rewrite ?lookup_insert_eq; simpl; rewrite ?lookup_insert_eq; done.
  - rewrite bool_decide_eq_false_2, andb_false_r by congruence.
    destruct (String.eqb _ _), (outcome_from_event_type _); simpl;
      rewrite ?lookup_insert_ne by done; done.
Qed.

Lemma control_scan l id :
  let f := default ControlFacts_default (control (from_events l) id) in
  reference_control l id = (requested f, prod_map outcome_type (λ n, n) <$> outcome f).
Proof.
  simpl. induction l as [|e l IH] using rev_ind; [done|].
  rewrite from_events_snoc. unfold control in *. simpl.
  destruct (lookup_apply_controls e (controls (from_events l)) id) as [-> ->].
  unfold reference_control in *. injection IH as IH1 IH2. rewrite <-IH1.
  rewrite find_snoc, find_rev_snoc, outcome_from_one_of. f_equal.
  - destruct (find _ l); simpl; [by destruct (_ && _)|]. by destruct (_ && _).
  - destruct (outcome_from_event_type _) eqn:E; simpl; [|done].
    destruct (names_request _ _ _); simpl; [by rewrite (outcome_type_from _ _ E)|done].
Qed.

(** A control that delivers prompt text under [id]. *)
Definition delivers_text (id : string) (event : ConversationEvent) : bool :=
  String.eqb (event_type event) "control.requested" && bool_decide (delivered_id event = Some id).

Lemma text_control_scan l id :
  text_control (from_events l) id = sequence <$> find (delivers_text id) l.
Proof.
  induction l as [|e l IH] using rev_ind; [done|].
  rewrite from_events_snoc, find_snoc. unfold text_control in *. simpl.
  unfold apply_text_controls, entry. unfold delivers_text at 2.
  destruct (String.eqb _ _); simpl; [|by rewrite IH; destruct (find _ l)].
  case_bool_decide as Hd.
  - rewrite Hd, lookup_insert_eq, IH. by destruct (find _ l).
  - destruct (delivered_id e); rewrite ?lookup_insert_ne by congruence;
      rewrite IH; by destruct (find _ l).
Qed.

Lemma position_of_spec s ss i : position_of s ss = Some i → ss !! N.to_nat i = Some s.
Proof.
  revert i. induction ss as [|x ss IH]; intros i; simpl; [done|].
  destruct (String.eqb_spec x s) as [->|]; [by intros [= <-]|].
  destruct (position_of s ss) eqn:E; simpl; [|done]. intros [= <-].
  rewrite N2Nat.inj_succ. simpl. by apply IH.
Qed.

Lemma turn_mask_scan l turn kind bit :
  position_of kind TURN_TERMINAL_EVENTS = Some bit →
  N.testbit (default 0%N (turn_terminals (from_events l) !! turn)) bit =
  reference_has_turn_event l turn kind.
Proof.
  intros Hk. induction l as [|e l IH] using rev_ind; [done|].
  rewrite from_events_snoc. unfold reference_has_turn_event in *. rewrite rev_unit.
  cbn [apply turn_terminals existsb]. rewrite <-IH. unfold apply_turn_terminals, names_request, entry.
  destruct (String.eqb_spec (event_type e) kind) as [->|Hne].
  - rewrite Hk. simpl. destruct (text (payload e) "turnId") as [t|]; [|done].
    case_bool_decide as Ht; simplify_eq.
    + rewrite lookup_insert_eq. unfold mask_entry, from_option, id.
      by rewrite N.lor_spec, N.shiftl_1_l, N.pow2_bits_true, orb_true_r.
    + by rewrite lookup_insert_ne by congruence.
  - cbn [andb orb]. destruct (position_of (event_type e) _) as [bit'|] eqn:Hp; [|done].
    assert (bit' ≠ bit).
    { intros ->. apply position_of_spec in Hk, Hp. congruence. }
    destruct (text (payload e) "turnId") as [t|]; [|done].
    destruct (decide (t = turn)) as [->|]; [|by rewrite lookup_insert_ne].
    rewrite lookup_insert_eq. unfold mask_entry, from_option, id.
    by rewrite N.lor_spec, N.shiftl_1_l, N.pow2_bits_false, orb_false_r.
Qed.

Lemma has_turn_terminal_scan l turn kind :
  has_turn_terminal (from_events l) turn kind =
  if one_of TURN_TERMINAL_EVENTS kind then Some (reference_has_turn_event l turn kind) else None.
Proof.
  unfold has_turn_terminal.
  assert (Hp : one_of TURN_TERMINAL_EVENTS kind =
               match position_of kind TURN_TERMINAL_EVENTS with Some _ => true | None => false end).
  { unfold one_of, TURN_TERMINAL_EVENTS. cbn [existsb position_of].
    rewrite !(String.eqb_sym kind). by repeat destruct (String.eqb _ kind). }
  rewrite Hp. destruct (position_of kind TURN_TERMINAL_EVENTS) as [bit|] eqn:E; simpl; [|done].
  f_equal. rewrite <-(turn_mask_scan l turn kind bit) by done.
  destruct (turn_terminals _ !! turn) as [mask|]; [apply mask_testbit|done].
Qed.

Lemma reference_recovery_snoc l e :
  reference_recovery (l ++ [e]) =
  (reference_permissions_step (reference_recovery l).1 e, reference_runtimes_step (reference_recovery l).2 e).
Proof. unfold reference_recovery. rewrite foldl_app. simpl. by destruct (foldl _ _ _). Qed.

Lemma runtimes_scan l id : runtimes (from_events l) !! id = Some true ↔ id ∈ (reference_recovery l).2.
Proof.
  induction l as [|e l IH] using rev_ind; [by split; set_solver|].
  rewrite from_events_snoc, reference_recovery_snoc. simpl.
  unfold apply_runtimes, reference_runtimes_step.
  destruct (String.eqb _ _); [|done]. destruct (text (payload e) "runtimeId") as [r|]; [|done].
  destruct (text (payload e) "status") as [s|]; [|done].
  destruct (decide (r = id)) as [->|Hne].
  - destruct (String.eqb s "ready"); [rewrite lookup_insert_eq; set_solver|].
    destruct (String.eqb s "stopped"); [rewrite lookup_insert_eq; set_solver|done].
  - destruct (String.eqb s "ready"); [rewrite lookup_insert_ne by done; set_solver|].
    destruct (String.eqb s "stopped"); [rewrite lookup_insert_ne by done; set_solver|done].
Qed.

Lemma permissions_scan l : omap id (permissions (from_events l)) = (reference_recovery l).1.
Proof.
  induction l as [|e l IH] using rev_ind; [done|].
  rewrite from_events_snoc, reference_recovery_snoc. simpl. rewrite <-IH.
  unfold apply_permissions, reference_permissions_step.
  destruct (text (payload e) "permissionId") as [p|]; [|done].
  destruct (one_of _ _); [by rewrite omap_insert|].
  destruct (String.eqb _ _); [by rewrite omap_insert|done].
Qed.

(** The runtime list is the reference set in iteration order. *)
Lemma resident_runtimes_scan l :
  rf_resident_runtimes (recovery (from_events l)) = btree_set_iter (reference_recovery l).2.
Proof.
  set (m := runtimes (from_events l)).
  assert (Hf : ∀ rs : list (string * bool),
    (filter (λ p, p.2 = true) rs).*1 = (omap (value_map (λ b, if b : bool then Some true else None)) rs).*1).
  { induction rs as [|[k []] rs IH]; [done|..].
    - rewrite filter_cons_True, fmap_cons, IH by done. done.
    - rewrite filter_cons_False, IH by done. done. }
  simpl. rewrite Hf, btree_iter_omap.
  destruct (btree_iter_keys (omap (λ b, if b : bool then Some true else None) m)) as [Hs Hn].
  apply sorted_strings_unique; [done| |done| |].
  - apply Sorted_merge_sort. intros a b. apply total, _.
  - unfold btree_set_iter. rewrite merge_sort_Permutation. apply NoDup_elements.
  - intros id. unfold btree_set_iter. rewrite merge_sort_Permutation, elem_of_elements, <-runtimes_scan.
    rewrite list_elem_of_fmap. split.
    + intros ([k b] & -> & Hb%elem_of_btree_iter). rewrite lookup_omap in Hb.
      by apply bind_Some in Hb as ([] & Hx & ?).
    + intros Hm. exists (id, true). split; [done|]. apply elem_of_btree_iter.
      by rewrite lookup_omap; unfold m; rewrite Hm.
Qed.

(** [ConversationEvent::new] copies [providerMethod] into [raw_type]. *)
Definition raw_type_recorded (e : ConversationEvent) : Prop := raw_type e = provider_method e.

Lemma rposition_snoc p l e :
  rposition p (l ++ [e]) = if p e then Some (length l) else rposition p l.
Proof.
  induction l as [|x l IH]; simpl; [by destruct (p e)|]. rewrite IH.
  by destruct (p e).
Qed.

Lemma rposition_lt p l i : rposition p l = Some i → (i < length l)%nat.
Proof.
  revert i. induction l as [|x l IH]; intros i; simpl; [done|].
  destruct (rposition p l); [intros [= <-]; specialize (IH _ eq_refl); lia|].
  destruct (p x); [intros [= <-]; lia|done].
Qed.

Lemma background_after_scan e :
  raw_type_recorded e →
  background_pending_after e =
    if is_notice e then Some true else if settles e then Some false else None.
Proof.
  unfold raw_type_recorded, background_pending_after, is_notice, settles. intros ->.
  destruct (_ && bool_decide (provider_method e = Some "background_tasks_pending")); [done|].
  destruct (_ && bool_decide (provider_method e = Some "background_tasks_ended")); simpl.
  - by rewrite orb_true_r.
  - rewrite orb_false_r. by repeat case_match; simpl in *; simplify_eq.
Qed.

Lemma background_pending_scan l :
  Forall raw_type_recorded l →
  bool_decide (background_pending (from_events l) = Some true) = reference_background_pending l.
Proof.
  induction l as [|e l IH] using rev_ind; [done|].
  intros [Hl He]%Forall_app. apply Forall_inv in He. specialize (IH Hl).
  rewrite from_events_snoc. unfold reference_background_pending in *. rewrite rposition_snoc.
  cbn [apply background_pending]. rewrite (background_after_scan e He).
  destruct (is_notice e) eqn:En.
  - rewrite drop_ge; [done|]. rewrite length_app. simpl. lia.
  - destruct (settles e) eqn:Es.
    + destruct (rposition is_notice l) as [i|] eqn:Hr; [|done].
      apply rposition_lt in Hr. rewrite drop_app_le, existsb_app by lia. simpl.
      by rewrite Es, orb_true_r.
    + rewrite IH. destruct (rposition is_notice l) as [i|] eqn:Hr; [|done].
      apply rposition_lt in Hr. rewrite drop_app_le, existsb_app by lia. simpl.
      by rewrite Es, !orb_false_r.
Qed.

(** every point query of the digest answers what the full scan of the
    journal answered: the sequence and the newest time, the newest user message, the
    status folded from any start, the open turn, a prompt's first and newest
    record with its turn, a control's request and newest outcome, the control
    that delivered prompt text, and whether a turn has a terminal event. *)
Theorem digest_answers_scans (l : list ConversationEvent) (id kind : string) (start : ConversationStatus) :
  let d := from_events l in
  last_sequence d = default 0%N (sequence <$> last l) ∧
  last_time d = time <$> last l ∧
  last_user_message d = reference_last_user_message l ∧
  status_from d start = foldl status_after_conversation_event start l ∧
  OpenTurn.open_turn (open_turn d) = reference_open_turn l ∧
  cr_first <$> client_request d id = reference_prompt_previous l id ∧
  (client_request d id ≫= cr_last_turn_id) = reference_delivered_turn l id ∧
  (control d id ≫= requested, prod_map outcome_type (λ n, n) <$> (control d id ≫= outcome)) =
    reference_control l id ∧
  text_control d id = sequence <$> find (delivers_text id) l ∧
  has_turn_terminal d id kind =
    (if one_of TURN_TERMINAL_EVENTS kind then Some (reference_has_turn_event l id kind) else None).
Proof.
  simpl. split_and!.
  - induction l as [|e l _] using rev_ind; [done|]. by rewrite from_events_snoc, last_snoc.
  - induction l as [|e l _] using rev_ind; [done|]. by rewrite from_events_snoc, last_snoc.
  - apply last_user_message_scan.
  - apply status_from_scan.
  - apply open_turn_scan.
  - rewrite client_request_scan. unfold reference_prompt_previous.
    destruct (find (is_prompt id) l) eqn:E1, (find (is_prompt id) (rev l)) eqn:E2; try done.
    apply find_rev_None in E2. congruence.
  - rewrite client_request_scan. unfold reference_delivered_turn.
    destruct (find (is_prompt id) l) eqn:E1, (find (is_prompt id) (rev l)) eqn:E2; try done.
    rewrite <-(rev_involutive l) in E1. apply find_rev_None in E1. congruence.
  - rewrite control_scan. by destruct (control _ id).
  - apply text_control_scan.
  - apply has_turn_terminal_scan.
Qed.

(** restart recovery reads from the digest exactly what the full scan
    collects, in the same order: the status, the open turn, the runtimes still
    resident, the permission dialogs never resolved with their context, and
    whether background tasks are still awaited. *)
Theorem recovery_answers_scan (l : list ConversationEvent) :
  Forall raw_type_recorded l →
  recovery (from_events l) =
    {| rf_status := foldl status_after_conversation_event Idle l;
       rf_open_turn := reference_open_turn l;
       rf_resident_runtimes := btree_set_iter (reference_recovery l).2;
       rf_pending_permissions := btree_iter (reference_recovery l).1;
       rf_background_pending := reference_background_pending l |}.
Proof.
  intros Hraw. rewrite <-resident_runtimes_scan, <-permissions_scan, <-status_from_scan,
    <-open_turn_scan, <-background_pending_scan, <-(btree_iter_omap id) by done. done.
Qed.
End scans.

(** ** A concrete journal *)
Module Example.
Import Tree.

Definition ev (n : N) (t : string) (fields : list (string * string)) : ConversationEvent :=
  ConversationEvent_new "0" (Z.of_N n) "conv" n t (Obj (prod_map id Str <$> fields)).
Definition journal : list ConversationEvent :=
  [ev 1 "message.created" [("role", "user"); ("clientRequestId", "r1"); ("turnId", "t1")];
   ev 2 "turn.started" [("turnId", "t1")];
   ev 3 "provider.runtime" [("runtimeId", "rt"); ("status", "ready")];
   ev 4 "permission.requested" [("permissionId", "p1"); ("scope", "turn")];
   ev 5 "turn.completed" [("turnId", "t1")];
   ev 6 "provider.event" [("providerMethod", "background_tasks_pending")]].

Lemma digest_of_concatenation_witness :
  from_events journal = merge (from_events (take 2 journal)) (from_events (drop 2 journal)).
Proof.
  rewrite <-(take_drop 2 journal) at 1. apply digest_of_concatenation.
  repeat constructor.
Defined.

Lemma recovery_answers_scan_witness :
  recovery (from_events journal) =
    {| rf_status := Idle; rf_open_turn := None; rf_resident_runtimes := ["rt"];
       rf_pending_permissions := [("p1", {| scope := Some (Str "turn"); runtime_id := None |})];
       rf_background_pending := true |}.
Proof.
  rewrite (recovery_answers_scan journal) by repeat constructor. by vm_compute.
Defined.
End Example.
