(* ===== verification/Summary.v ===== *)
(** * Summaries of process events

    Model of src/src/conversation/summary.rs: which events a
    [detail=summary] replay reduces to a stub, the stub itself, and the shape
    an event takes on the wire. *)
From S2P Require Import Prelude Json JsonObject Model Digest.
From Stdlib Require Import Ascii.

Definition DETAIL_BLOCK_CATEGORIES : list string :=
  ["tool"; "reasoning"; "status"; "assistant_progress"].
Definition BLOCK_CATEGORIES : list string :=
  ["assistant_final"; "assistant_progress"; "reasoning"; "tool"; "approval"; "status"; "error"; "usage"].
Definition BLOCK_PHASES : list string := ["started"; "delta"; "completed"; "failed"].
Definition PROTECTED_TYPE_PREFIXES : list string :=
  ["turn."; "permission."; "queue."; "control."; "compaction."; "subagent."; "memory."; "usage.";
   "extension."; "workflow."; "conversation."; "provider."; "mcp."; "skill."; "kanban."; "desktop."].
Definition PROTECTED_TYPES : list string := ["tool.awaitingApproval"].
Definition CONTROL_PAYLOAD_KEYS : list string :=
  ["effectiveConfig"; "effective"; "requested"; "control"; "items"; "paused"; "subagentId"; "agentId";
   "memoryId"; "permissionId"; "operationId"; "usage"; "tokenUsage"].
Definition STUB_SCALAR_KEYS : list string :=
  ["turnId"; "turn_id"; "role"; "scope"; "status"; "messageId"; "clientRequestId"; "requestId";
   "providerMethod"; "provider_method"; "method"; "toolCallId"; "tool_call_id"; "callId"; "call_id";
   "isError"; "is_error"; "stopReason"; "stop_reason"; "toolName"; "tool_name"; "name"].
Definition STUB_TOOL_KEYS : list string :=
  ["tool"; "toolCall"; "tool_call"; "item"; "command"; "function"; "functionCall"; "function_call"].
Definition MARKER_FIELD_KEYS : list string := ["id"; "name"; "toolName"; "tool_name"; "title"; "command"].
Definition STUB_DELTA_KEYS : list string := ["type"; "deltaType"; "delta_type"; "contentIndex"; "content_index"].
Definition STUB_MESSAGE_KEYS : list string := ["id"; "role"; "stopReason"; "stop_reason"; "model"; "modelId"].
Definition MARKER_STRING_LIMIT : nat := 512.
Definition RETRY_REQUEST_KEY : string := "retryRequest".
Definition ENCRYPTED_FIELD : string := "$enc".

(** ** Rust's [str] *)

(** The bytes [0x80..0xBF] continue a character of UTF-8 text. *)
Definition continues (c : ascii) : bool := let n := N_of_ascii c in (0x80 <=? n)%N && (n <=? 0xBF)%N.
(** [s.chars().count()]. *)
Fixpoint char_count (s : string) : nat :=
  match s with
  | EmptyString => O
  | String c s => if continues c then char_count s else S (char_count s)
  end.
(** [s.chars().take(n).collect()]. *)
Fixpoint take_chars (n : nat) (s : string) : string :=
  match s with
  | EmptyString => EmptyString
  | String c s =>
      if continues c then String c (take_chars n s)
      else match n with O => EmptyString | S n => String c (take_chars n s) end
  end.

Definition ascii_lower (c : ascii) : ascii :=
  let n := N_of_ascii c in if (65 <=? n)%N && (n <=? 90)%N then ascii_of_N (n + 32) else c.
(** [s.to_ascii_lowercase()]. *)
Fixpoint to_ascii_lowercase (s : string) : string :=
  match s with EmptyString => EmptyString | String c s => String (ascii_lower c) (to_ascii_lowercase s) end.
(** [s.starts_with(prefix)] and [s.contains(needle)]. *)
Definition starts_with (prefix s : string) : bool := String.prefix prefix s.
Fixpoint contains (needle s : string) : bool :=
  String.prefix needle s || match s with EmptyString => false | String _ s => contains needle s end.

Section summary.
Context `{JsonView}.

(** [!payload.get(key).is_none_or(Value::is_null)]. *)
Definition present (payload : gmap string Value) (key : string) : bool :=
  match payload !! key with Some v => negb (is_null v) | None => false end.

Definition non_empty_str (value : option Value) : option string :=
  s ← value ≫= as_str; if String.eqb s "" then None else Some s.

Definition valid_block_category (payload : gmap string Value) : option string :=
  block ← payload !! "block" ≫= as_object;
  _ ← non_empty_str (block !! "id");
  category ← non_empty_str (block !! "category");
  phase ← non_empty_str (block !! "phase");
  if negb (one_of BLOCK_CATEGORIES category) || negb (one_of BLOCK_PHASES phase) then None
  else Some category.

Definition carries_usage (payload : gmap string Value) : bool :=
  if existsb (present payload) ["usage"; "tokenUsage"; "token_usage"] then true
  else
    let message_usage :=
      match payload !! "message" ≫= as_object with Some message => present message "usage" | None => false end in
    let metadata_usage :=
      match payload !! "metadata" ≫= as_object with
      | Some metadata => existsb (present metadata) ["tokenUsage"; "token_usage"]
      | None => false
      end in
    message_usage || metadata_usage.

(** The names an event is judged by. *)
Definition event_types (event : ConversationEvent) : list string :=
  [event_type event; normalized_event_type (event_type event); default "" (normalized_type event)].

Definition is_protected_type (event : ConversationEvent) : bool :=
  existsb (λ candidate,
    one_of PROTECTED_TYPES candidate
    || negb (String.eqb candidate "provider.event")
       && existsb (λ prefix, starts_with prefix candidate) PROTECTED_TYPE_PREFIXES)
    (event_types event).

Fixpoint first_string (payload : gmap string Value) (keys : list string) : option string :=
  match keys with
  | [] => None
  | key :: keys =>
      match non_empty_str (payload !! key) with Some s => Some s | None => first_string payload keys end
  end.

Definition contains_any (text : string) (needles : list string) : bool :=
  existsb (λ needle, contains needle (to_ascii_lowercase text)) needles.

(** [option.is_some_and(f)]. *)
Definition is_some_and {A} (o : option A) (f : A → bool) : bool :=
  match o with Some a => f a | None => false end.

Definition is_detail_heuristic (event : ConversationEvent) (payload : gmap string Value) : bool :=
  let types := event_types event in
  let delta := payload !! "delta" ≫= as_object in
  let delta_type := delta ≫= λ delta, first_string delta ["type"; "deltaType"; "delta_type"] in
  let method := default "" (first_string payload ["providerMethod"; "provider_method"; "method"]) in
  if existsb (λ ty, contains_any ty ["thought"; "reasoning"; "thinking"; "analysis"]) types
     || is_some_and delta_type (λ ty, contains_any ty ["reasoning"; "thinking"; "analysis"])
     || contains_any method ["reasoning"; "thinking"; "analysis"]
     || existsb (present payload)
          ["thought"; "thoughtText"; "thought_text"; "reasoning"; "thinking"; "analysis"]
  then true
  else
    let message_role :=
      default "" ((payload !! "message" ≫= as_object) ≫= λ message, non_empty_str (message !! "role")) in
    existsb (λ ty, contains_any ty ["tool"; "command"; "function"; "mcp"]) types
    || is_some_and delta_type (λ ty, contains_any ty ["tool"; "command"; "function"; "mcp"])
    || contains_any method ["tool"; "command"; "function"; "mcp"]
    || String.eqb message_role "tool"
    || existsb (present payload)
         ["tool"; "toolCall"; "tool_call"; "command"; "function"; "functionCall"; "function_call"].

Definition bounded_string (text : string) : Value :=
  if (char_count text <=? MARKER_STRING_LIMIT)%nat then string_value text
  else string_value (take_chars MARKER_STRING_LIMIT text).

(** [for key in keys { if let Some(v) = from.get(key) { if !v.is_null() {
    into.insert(key, f(v)) } } }]. *)
Definition copy_present (f : Value → Value) (keys : list string) (from into : gmap string Value) :
    gmap string Value :=
  foldl (λ acc key,
    match from !! key with
    | Some v => if is_null v then acc else <[key := f v]> acc
    | None => acc
    end) into keys.

Definition summarize_marker (value : Value) : Value :=
  match view value with
  | SString text => bounded_string text
  | SObject map => object_value (copy_present id MARKER_FIELD_KEYS map ∅)
  | SNull => null_value
  | _ => bool_value true
  end.

Definition stub_delta (delta : gmap string Value) : gmap string Value :=
  copy_present summarize_marker ["toolCall"; "tool_call"] delta
    (copy_present id STUB_DELTA_KEYS delta ∅).
Definition stub_message (message : gmap string Value) : gmap string Value :=
  copy_present id STUB_MESSAGE_KEYS message ∅.

Definition stub_fields (payload : gmap string Value) : gmap string Value :=
  let stub := <["detailStub" := bool_value true]> ∅ in
  let stub := copy_present id STUB_SCALAR_KEYS payload stub in
  let stub := copy_present id ["block"] payload stub in
  let stub :=
    match payload !! "delta" ≫= as_object with
    | Some delta => <["delta" := object_value (stub_delta delta)]> stub
    | None => stub
    end in
  let stub := copy_present summarize_marker STUB_TOOL_KEYS payload stub in
  let stub :=
    match payload !! "message" ≫= as_object with
    | Some message => <["message" := object_value (stub_message message)]> stub
    | None => stub
    end in
  stub.
Definition stub_payload (payload : gmap string Value) : Value := object_value (stub_fields payload).

Definition with_payload (event : ConversationEvent) (payload : Value) : ConversationEvent :=
  {| schema_version := schema_version event; sequence := sequence event; event_id := event_id event;
     conversation_id := conversation_id event; time := time event; event_type := event_type event;
     normalized_type := normalized_type event; raw_type := raw_type event; provider := provider event;
     payload := payload |}.

(** [summarize_event]: the event after the call, and the answer. *)
Definition summarize_event (event : ConversationEvent) : ConversationEvent * bool :=
  match as_object (payload event) with
  | None => (event, false)
  | Some payload =>
      if payload !! RETRY_REQUEST_KEY
      then (with_payload event (object_value (delete RETRY_REQUEST_KEY payload)), true)
      else if carries_usage payload || is_protected_type event then (event, false)
      else if existsb (present payload) CONTROL_PAYLOAD_KEYS then (event, false)
      else
        let detail :=
          match valid_block_category payload with
          | Some category => one_of DETAIL_BLOCK_CATEGORIES category
          | None => is_detail_heuristic event payload
          end in
        if negb detail then (event, false) else (with_payload event (stub_payload payload), true)
  end.

(** The [$enc] object of a payload. *)
Definition encrypted_content (payload : Value) : option (gmap string Value) :=
  get payload ENCRYPTED_FIELD ≫= as_object.

(** The payload with its [$enc] object replaced ([get_mut]). *)
Definition set_encrypted (payload : Value) (encrypted : gmap string Value) : Value :=
  match as_object payload with
  | Some m => object_value (<[ENCRYPTED_FIELD := object_value encrypted]> m)
  | None => payload
  end.

Definition present_event (event : ConversationEvent) (summary : bool) : ConversationEvent :=
  match encrypted_content (payload event) with
  | Some encrypted =>
      let encrypted :=
        if summary then if encrypted !! "s" then delete "f" encrypted else encrypted
        else if encrypted !! "f" then delete "s" encrypted else encrypted in
      with_payload event (set_encrypted (payload event) encrypted)
  | None => if summary then (summarize_event event).1 else event
  end.

Definition full_presentation_changes (event : ConversationEvent) : bool :=
  is_some_and (encrypted_content (payload event))
    (λ encrypted, bool_decide (is_Some (encrypted !! "f")) && bool_decide (is_Some (encrypted !! "s"))).

Definition event_frames (event : ConversationEvent) (frames : gmap string Value) : gmap string Value :=
  match get (payload event) ENCRYPTED_FIELD ≫= λ encrypted, get encrypted "fr" with
  | None => ∅
  | Some reference =>
      foldl (λ acc key,
        match get reference key ≫= as_str with
        | Some id => match frames !! id with Some frame => <[id := frame]> acc | None => acc end
        | None => acc
        end) ∅ ["s"; "f"]
  end.
End summary.
#[global] Arguments copy_present : simpl never.
#[global] Arguments stub_delta : simpl never.
#[global] Arguments stub_message : simpl never.

(** ** Copying fields *)
Section copying.
Context `{JsonViewLaws}.
Implicit Types m from into : gmap string Value.

Lemma lookup_copy_present f keys from into k :
  copy_present f keys from into !! k =
    if one_of keys k && present from k then f <$> from !! k else into !! k.
Proof.
  unfold copy_present, present. induction keys as [|key keys IH] using rev_ind; [done|].
  rewrite foldl_app. cbn [foldl]. unfold one_of in *. rewrite existsb_app. cbn [existsb].
  destruct (String.eqb_spec k key) as [->|Hne].
  - rewrite orb_true_r. cbn [andb]. destruct (from !! key) as [v|] eqn:Hv.
    + destruct (is_null v); cbn [negb]; [|by rewrite lookup_insert_eq]. by rewrite IH, andb_false_r.
    + by rewrite IH, andb_false_r.
  - rewrite !orb_false_r, <-IH. repeat case_match; rewrite ?lookup_insert_ne by done; done.
Qed.

Lemma lookup_copied keys from into k :
  copy_present id keys from into !! k =
    if one_of keys k && present from k then from !! k else into !! k.
Proof. rewrite lookup_copy_present. case_match; [|done]. by destruct (from !! k). Qed.

(** A copied member reads as text as it did. *)
Lemma text_of_present m m' k :
  (present m k = true → m' !! k = m !! k) → (present m k = false → m' !! k = None) →
  m' !! k ≫= as_str = m !! k ≫= as_str.
Proof.
  unfold present. intros Hp Ha. destruct (m !! k) as [v|]; [|by rewrite Ha].
  destruct (is_null v) eqn:Hn; [|by rewrite Hp]. rewrite Ha by done. cbn.
  apply is_null_spec in Hn as ->. by rewrite as_str_view, view_null.
Qed.

(** Copying twice the same way is copying once. *)
Lemma copy_present_idem f keys from :
  (∀ v, is_null v = false → is_null (f v) = false ∧ f (f v) = f v) →
  copy_present f keys (copy_present f keys from ∅) ∅ = copy_present f keys from ∅.
Proof.
  intros Hf. apply map_eq. intros k. rewrite !lookup_copy_present, lookup_empty.
  destruct (one_of keys k) eqn:Hk; [|done]. cbn [andb].
  unfold present. rewrite lookup_copy_present, Hk, lookup_empty. cbn [andb].
  unfold present. destruct (from !! k) as [v|]; [|done]. destruct (is_null v) eqn:Hn; [done|].
  destruct (Hf v Hn) as [Hn' Hff]. cbn. rewrite Hn'. cbn. by rewrite Hff.
Qed.
End copying.

Lemma char_count_take n s : (char_count (take_chars n s) ≤ n)%nat.
Proof.
  revert n. induction s as [|c s IH]; intros n; cbn; [lia|].
  destruct (continues c) eqn:Hc; [cbn; rewrite Hc; apply IH|].
  destruct n as [|n]; cbn; [lia|]. rewrite Hc. specialize (IH n). lia.
Qed.

Section stubs.
Context `{JsonViewLaws}.
Implicit Types m payload : gmap string Value.

Lemma summarize_marker_idem v :
  is_null v = false →
  is_null (summarize_marker v) = false ∧ summarize_marker (summarize_marker v) = summarize_marker v.
Proof.
  unfold is_null at 1, summarize_marker at 1 3 4. intros Hn.
  assert (Hb : ∀ s, (char_count s ≤ MARKER_STRING_LIMIT)%nat →
    is_null (string_value s) = false ∧ summarize_marker (string_value s) = string_value s).
  { intros s Hs. unfold is_null, summarize_marker, bounded_string. rewrite view_string.
    by rewrite (proj2 (Nat.leb_le _ _) Hs). }
  assert (Ht : is_null (bool_value true) = false ∧ summarize_marker (bool_value true) = bool_value true).
  { unfold is_null, summarize_marker, bool_value. by rewrite view_build. }
  destruct (view v) as [| | |s| |m]; try done.
  - unfold bounded_string. destruct (Nat.leb_spec (char_count s) MARKER_STRING_LIMIT); apply Hb; [done|].
    apply char_count_take.
  - split; [unfold is_null, object_value; by rewrite view_build|].
    unfold summarize_marker, object_value. rewrite view_build. f_equal. f_equal.
    by apply copy_present_idem.
Qed.

Lemma lookup_insert_object (o : option (gmap string Value)) (g : gmap string Value → Value) key
    (stub : gmap string Value) k :
  match o with Some m => <[key := g m]> stub | None => stub end !! k =
    if String.eqb k key then match o with Some m => Some (g m) | None => stub !! k end else stub !! k.
Proof.
  destruct (String.eqb_spec k key) as [->|Hne].
  - destruct o; [by rewrite lookup_insert_eq|done].
  - destruct o; [by rewrite lookup_insert_ne|done].
Qed.

(** The members of a stub, by key. *)
Lemma lookup_stub payload k :
  stub_fields payload !! k =
    if String.eqb k "message" then
      (payload !! "message" ≫= as_object) ≫= λ m, Some (object_value (stub_message m))
    else if one_of STUB_TOOL_KEYS k then
      if present payload k then summarize_marker <$> payload !! k else None
    else if String.eqb k "delta" then
      (payload !! "delta" ≫= as_object) ≫= λ m, Some (object_value (stub_delta m))
    else if one_of ("block" :: STUB_SCALAR_KEYS) k then if present payload k then payload !! k else None
    else if String.eqb k "detailStub" then Some (bool_value true) else None.
Proof.
  unfold stub_fields.
  rewrite lookup_insert_object, lookup_copy_present, lookup_insert_object, !lookup_copied.
  destruct (String.eqb_spec k "message") as [->|Hm].
  { destruct (payload !! "message" ≫= as_object); [done|]. by vm_compute. }
  destruct (one_of STUB_TOOL_KEYS k) eqn:Ht; cbn [andb].
  { destruct (present payload k); [done|].
    one_of_cases Ht; by vm_compute. }
  destruct (String.eqb_spec k "delta") as [->|Hd].
  { destruct (payload !! "delta" ≫= as_object); [done|]. by vm_compute. }
  unfold one_of. cbn [existsb]. fold (one_of STUB_SCALAR_KEYS k). rewrite orb_false_r.
  destruct (String.eqb_spec k "detailStub") as [->|Hs].
  { change (one_of STUB_SCALAR_KEYS "detailStub") with false. cbn. by rewrite lookup_insert_eq. }
  rewrite lookup_insert_ne, lookup_empty by done.
  destruct (String.eqb k "block"), (one_of STUB_SCALAR_KEYS k); cbn [orb andb];
    destruct (present payload k); done.
Qed.

Lemma present_stub_scalar payload k :
  one_of STUB_SCALAR_KEYS k = true → stub_fields payload !! k = if present payload k then payload !! k else None.
Proof.
  intros Hk. rewrite lookup_stub. apply one_of_spec in Hk.
  by elem_cases Hk.
Qed.

Lemma stub_delta_idem m : stub_delta (stub_delta m) = stub_delta m.
Proof.
  apply map_eq. intros k. unfold stub_delta at 1.
  rewrite lookup_copy_present, lookup_copied, lookup_empty.
  assert (Hl : stub_delta m !! k =
    if one_of ["toolCall"; "tool_call"] k && present m k then summarize_marker <$> m !! k
    else if one_of STUB_DELTA_KEYS k && present m k then m !! k else None).
  { unfold stub_delta. by rewrite lookup_copy_present, lookup_copied, lookup_empty. }
  unfold present in *. rewrite Hl. clear Hl. destruct (m !! k) as [v|]; cbn; [|by rewrite !andb_false_r].
  destruct (is_null v) eqn:Hn; cbn; [by rewrite !andb_false_r|]. rewrite !andb_true_r.
  destruct (one_of ["toolCall"; "tool_call"] k) eqn:Ht.
  - destruct (summarize_marker_idem v Hn) as [Hn' Hi]. rewrite Hn'. cbn. by rewrite Hi.
  - destruct (one_of STUB_DELTA_KEYS k); cbn; [|done]. by rewrite Hn.
Qed.

Lemma stub_message_idem m : stub_message (stub_message m) = stub_message m.
Proof. by apply copy_present_idem. Qed.

Lemma stub_fields_idem payload : stub_fields (stub_fields payload) = stub_fields payload.
Proof.
  apply map_eq. intros k. rewrite (lookup_stub (stub_fields payload) k).
  destruct (String.eqb_spec k "message") as [->|Hm].
  { rewrite !lookup_stub. cbn [String.eqb Ascii.eqb Bool.eqb]. destruct (payload !! "message" ≫= as_object) as [m|]; [|done].
    cbn. rewrite as_object_value. cbn. by rewrite stub_message_idem. }
  destruct (one_of STUB_TOOL_KEYS k) eqn:Ht.
  { unfold present. rewrite lookup_stub, Ht, (proj2 (String.eqb_neq _ _) Hm). unfold present.
    destruct (payload !! k) as [v|]; [|done]. destruct (is_null v) eqn:Hn; [done|]. cbn.
    destruct (summarize_marker_idem v Hn) as [-> ->]. done. }
  destruct (String.eqb_spec k "delta") as [->|Hd].
  { rewrite !lookup_stub. change (one_of STUB_TOOL_KEYS "delta") with false. cbn [String.eqb Ascii.eqb Bool.eqb].
    destruct (payload !! "delta" ≫= as_object) as [m|]; [|done]. cbn. rewrite as_object_value. cbn.
    by rewrite stub_delta_idem. }
  unfold present. rewrite !lookup_stub, Ht, (proj2 (String.eqb_neq _ _) Hm), (proj2 (String.eqb_neq _ _) Hd).
  destruct (one_of ("block" :: STUB_SCALAR_KEYS) k).
  - unfold present. destruct (payload !! k) as [v|]; [|done]. destruct (is_null v) eqn:Hn; cbn; [done|].
    by rewrite ?Hn.
  - done.
Qed.
End stubs.

(** ** What the digest reads of an event *)
Section digest_reads.
Context `{JsonViewLaws}.

(** Two payloads of an event of type [t] that the digest cannot tell apart. *)
Record same_facts (t : string) (p p' : Value) : Prop := {
  facts_ids key : one_of ["turnId"; "clientRequestId"; "requestId"; "permissionId"; "operationId"] key = true →
    text p' key = text p key;
  facts_role : t = "message.created" → text p' "role" = text p "role";
  facts_runtime : t = "provider.runtime" →
    text p' "runtimeId" = text p "runtimeId" ∧ text p' "status" = text p "status";
  facts_scope : one_of ["permission.requested"; "tool.awaitingApproval"; "permission.resolved"] t = true →
    text p' "scope" = text p "scope";
  facts_permission : one_of ["permission.requested"; "tool.awaitingApproval"] t = true →
    is_Some (text p "permissionId") →
    get p' "scope" = get p "scope" ∧ get p' "runtimeId" = get p "runtimeId";
  facts_control : t = "control.requested" → ∀ e, payload e = p → delivered_id (with_payload e p') = delivered_id e;
}.

Lemma digest_apply_ext d e p' :
  same_facts (event_type e) (payload e) p' → Digest.apply d (with_payload e p') = Digest.apply d e.
Proof.
  intros [Hids Hrole Hrt Hscope Hperm Hctl].
  pose proof (λ k, Hids k) as Hk. unfold Digest.apply. cbn [with_payload sequence time event_type payload raw_type].
  rewrite !(Hk "turnId") by done. f_equal.
  - unfold apply_user_message. cbn. destruct (String.eqb_spec (event_type e) "message.created") as [Ht|]; [|done].
    by rewrite Hrole.
  - unfold apply_client_requests. cbn. by rewrite (Hk "clientRequestId"), (Hk "turnId") by done.
  - unfold apply_controls. cbn. by rewrite (Hk "requestId") by done.
  - unfold apply_text_controls. cbn [event_type sequence with_payload].
    destruct (String.eqb_spec (event_type e) "control.requested") as [Ht|]; [|done]. by rewrite Hctl.
  - unfold apply_turn_terminals. cbn. by rewrite (Hk "turnId") by done.
  - f_equal. unfold status_after_conversation_event. cbn [event_type payload with_payload].
    rewrite (Hk "operationId") by done.
    destruct (one_of ["permission.requested"; "tool.awaitingApproval"; "permission.resolved"] (event_type e)) eqn:Ht.
    + by rewrite Hscope.
    + by rewrite !andb_false_r.
  - unfold apply_runtimes. cbn. destruct (String.eqb_spec (event_type e) "provider.runtime") as [Ht|]; [|done].
    by destruct Hrt as [-> ->].
  - unfold apply_permissions. cbn. rewrite (Hk "permissionId") by done.
    destruct (text (payload e) "permissionId") eqn:Hp; [|done].
    destruct (one_of ["permission.requested"; "tool.awaitingApproval"] (event_type e)) eqn:Ht; [|done].
    destruct Hperm as [-> ->]; done.
Qed.

Lemma delivered_id_no_control e p' :
  text p' "requestId" = text (payload e) "requestId" →
  get p' "control" ≫= as_object = None → get (payload e) "control" ≫= as_object = None →
  delivered_id (with_payload e p') = delivered_id e.
Proof.
  intros Hr Hp' Hp. unfold delivered_id. cbn [payload with_payload].
  assert (Hn : ∀ (o : option Value) key, o ≫= as_object = None → o ≫= (λ c, get c key ≫= as_str) = None).
  { intros [c|] key; [|done]. cbn. intros Hc. by rewrite get_as_object, Hc. }
  by rewrite !Hn.
Qed.

Lemma delivered_id_ext e p' :
  text p' "requestId" = text (payload e) "requestId" → get p' "control" = get (payload e) "control" →
  delivered_id (with_payload e p') = delivered_id e.
Proof. intros Hr Hc. unfold delivered_id. cbn [payload with_payload]. by rewrite Hr, Hc. Qed.
End digest_reads.

(** ** Summaries and the digest *)
Section summaries.
Context `{JsonViewLaws}.

Lemma protected_first e t :
  event_type e = t →
  one_of PROTECTED_TYPES t
  || negb (String.eqb t "provider.event") && existsb (λ prefix, starts_with prefix t) PROTECTED_TYPE_PREFIXES = true →
  is_protected_type e = true.
Proof. intros <- Ht. unfold is_protected_type, event_types. cbn [existsb]. by rewrite Ht. Qed.

Lemma same_facts_delete e m :
  payload e = object_value m → same_facts (event_type e) (payload e) (object_value (delete RETRY_REQUEST_KEY m)).
Proof.
  intros Hm.
  assert (Hg : ∀ k, k ≠ RETRY_REQUEST_KEY → get (object_value (delete RETRY_REQUEST_KEY m)) k = get (payload e) k).
  { intros k Hk. by rewrite Hm, !get_object, lookup_delete_ne. }
  assert (Ht : ∀ k, k ≠ RETRY_REQUEST_KEY → text (object_value (delete RETRY_REQUEST_KEY m)) k = text (payload e) k).
  { intros k Hk. unfold text. by rewrite Hg. }
  split; try (intros; split_and?; (apply Ht || apply Hg); done).
  - intros k Hk. apply Ht. intros ->. by vm_compute in Hk.
  - intros _ e' He'. apply delivered_id_ext; rewrite He'; [by apply Ht|by apply Hg].
Qed.

Lemma same_facts_stub e m :
  payload e = object_value m → is_protected_type e = false → existsb (present m) CONTROL_PAYLOAD_KEYS = false →
  same_facts (event_type e) (payload e) (stub_payload m).
Proof.
  intros Hm Hprot Hctl.
  assert (Hno : ∀ t, event_type e = t →
    one_of PROTECTED_TYPES t
    || negb (String.eqb t "provider.event") && existsb (λ prefix, starts_with prefix t) PROTECTED_TYPE_PREFIXES = true →
    False).
  { intros t Ht Hp. by rewrite (protected_first e t Ht Hp) in Hprot. }
  assert (Hs : ∀ k, one_of STUB_SCALAR_KEYS k = true → text (stub_payload m) k = text (payload e) k).
  { intros k Hk. unfold stub_payload. rewrite Hm, !text_object.
    apply text_of_present; intros Hp; by rewrite present_stub_scalar, Hp. }
  assert (Hc : ∀ k, one_of ["permissionId"; "operationId"] k = true → text (stub_payload m) k = text (payload e) k).
  { intros k Hk. unfold stub_payload. rewrite Hm, !text_object.
    assert (Hp : present m k = false).
    { apply not_true_is_false. intros Hp. apply not_true_iff_false in Hctl. apply Hctl.
      apply existsb_exists. exists k. split; [|done]. apply list_elem_of_In. apply one_of_spec in Hk.
      elem_cases Hk; by apply one_of_spec. }
    apply text_of_present; [by rewrite Hp|]. intros _. rewrite lookup_stub. apply one_of_spec in Hk.
    by elem_cases Hk. }
  split.
  - intros k Hk. destruct (one_of ["permissionId"; "operationId"] k) eqn:Hk'; [by apply Hc|]. apply Hs.
    by one_of_cases Hk.
  - intros _. by apply Hs.
  - intros Ht. by destruct (Hno _ Ht).
  - intros _. by apply Hs.
  - intros Ht%one_of_spec. repeat (apply elem_of_cons in Ht as [Ht|Ht]; [by destruct (Hno _ Ht)|]).
    by apply elem_of_nil in Ht.
  - intros Ht. by destruct (Hno _ Ht).
Qed.

(** Summarizing an event never changes what the conversation digest records of
    it: status, open turn, turn outcomes, user messages, client requests,
    controls, runtimes, permissions and background work. *)
Theorem summary_keeps_digest (d : JournalDigest) (e : ConversationEvent) :
  Digest.apply d (summarize_event e).1 = Digest.apply d e.
Proof.
  unfold summarize_event. destruct (as_object (payload e)) as [m|] eqn:Hm; [|done].
  apply as_object_inv in Hm. destruct (m !! RETRY_REQUEST_KEY) as [v|].
  { apply digest_apply_ext. by apply same_facts_delete. }
  destruct (carries_usage m || is_protected_type e) eqn:Hp; [done|].
  destruct (existsb (present m) CONTROL_PAYLOAD_KEYS) eqn:Hc; [done|]. case_match; [done|].
  apply digest_apply_ext. apply orb_false_elim in Hp as [_ Hp]. by apply same_facts_stub.
Qed.

Lemma summarize_untouched e : (summarize_event e).2 = false → (summarize_event e).1 = e.
Proof. unfold summarize_event. repeat case_match; done. Qed.

(** Summaries are stable: summarizing a summarized event leaves it as it is. *)
Theorem summary_idempotent (e : ConversationEvent) :
  get (payload e) RETRY_REQUEST_KEY = None →
  (summarize_event (summarize_event e).1).1 = (summarize_event e).1.
Proof.
  intros Hr. unfold summarize_event at 2 3. destruct (as_object (payload e)) as [m|] eqn:Hm.
  2: { cbn. unfold summarize_event. by rewrite Hm. }
  pose proof Hm as Hm'. apply as_object_inv in Hm'. rewrite Hm', get_object in Hr. rewrite Hr.
  assert (Hstub : ∀ m', (summarize_event (with_payload e (stub_payload m'))).1 = with_payload e (stub_payload m')).
  { intros m'. unfold summarize_event. cbn [payload with_payload]. unfold stub_payload at 1. rewrite as_object_value.
    assert (Hn : stub_fields m' !! RETRY_REQUEST_KEY = None) by by rewrite lookup_stub. rewrite Hn.
    repeat case_match; try done; cbn; unfold stub_payload; by rewrite stub_fields_idem. }
  destruct (carries_usage m || is_protected_type e) eqn:Hp.
  { cbn. unfold summarize_event. by rewrite Hm, Hr, Hp. }
  destruct (existsb (present m) CONTROL_PAYLOAD_KEYS) eqn:Hc.
  { cbn. unfold summarize_event. by rewrite Hm, Hr, Hp, Hc. }
  case_match eqn:Hd; [|apply Hstub]. cbn. unfold summarize_event. by rewrite Hm, Hr, Hp, Hc, Hd.
Qed.

(** [full_presentation_changes] answers exactly whether presenting an event in
    full detail changes it. *)
Theorem full_presentation_changes_spec (e : ConversationEvent) :
  full_presentation_changes e = true ↔ present_event e false ≠ e.
Proof.
  unfold full_presentation_changes, present_event.
  destruct (encrypted_content (payload e)) as [enc|] eqn:He; cbn [is_some_and]; [|by split].
  unfold encrypted_content in He. rewrite get_as_object in He. unfold set_encrypted.
  destruct (as_object (payload e)) as [m|] eqn:Hm; [|done]. cbn in He.
  apply bind_Some in He as (v & Hv & Henc%as_object_inv). apply as_object_inv in Hm. subst v.
  assert (Hid : with_payload e (object_value (<[ENCRYPTED_FIELD := object_value enc]> m)) = e).
  { rewrite insert_id, <-Hm by done. by destruct e. }
  rewrite andb_true_iff, !bool_decide_eq_true.
  destruct (enc !! "f") as [f|] eqn:Hf; [|split; [by intros [[? ?] _]|done]].
  destruct (enc !! "s") as [s|] eqn:Hs.
  - split; [|by eauto]. intros _ Heq. apply (f_equal payload) in Heq. cbn in Heq.
    rewrite Hm in Heq. apply object_value_inj in Heq.
    assert (Hl : m !! ENCRYPTED_FIELD = Some (object_value (delete "s" enc))) by by rewrite <-Heq, lookup_insert_eq.
    rewrite Hv in Hl. injection Hl as Hl. apply object_value_inj in Hl.
    by rewrite Hl, lookup_delete_eq in Hs.
  - rewrite delete_id by done. split; [by intros [_ [? ?]]|done].
Qed.
End summaries.

