(* ===== verification/Coalesce.v ===== *)
(** * Coalescing of streaming text

    Model of src/src/conversation/coalesce.rs ([DeltaFragment], [PendingDelta])
    and of the part of src/src/conversation/store.rs that drives it: the fast
    path of [append_delta_and_publish], [buffer_delta], the flushes and the
    flush every other append does first. The journal write itself
    ([append_locked]) is represented by its answer, an argument of each step,
    and by the log of what was handed to it; instants are nanoseconds. *)
From S2P Require Import Prelude Json.
From Stdlib Require Import Ascii.

Definition DELTA_COALESCE_WINDOW : Z := 100 * 1000000.
Definition DELTA_COALESCE_MAX_BYTES : N := 16 * 1024.
(** [str::len]: bytes. *)
Definition len (s : string) : N := N.of_nat (String.length s).

Record DeltaFragment : Type := keyed { key : string; text_pointers : list string }.
#[export] Instance DeltaFragment_eq_dec : EqDecision DeltaFragment.
Proof. solve_decision. Defined.

Section coalesce.
Context `{Json}.

(** [value.pointer(p).and_then(Value::as_str)]. *)
Definition pointer_text (v : Value) (p : string) : option string := pointer v p ≫= as_str.

(** The identity loop of [from_payload]: every text field becomes null. *)
Fixpoint strip_texts (identity : Value) (text_pointers : list string) : option Value :=
  match text_pointers with
  | [] => Some identity
  | p :: ps =>
      match pointer_text identity p with
      | Some _ => strip_texts (pointer_set identity p null_value) ps
      | None => None
      end
  end.

Definition NUL : ascii := Ascii.zero.

(** [to_string] is [serde_json::to_string(..).ok()]. *)
Definition from_payload (to_string : Value → option string) (payload : Value)
    (text_pointers : list string) (extra : option string) : option DeltaFragment :=
  identity ← strip_texts payload text_pointers;
  k ← to_string identity;
  Some (keyed (match extra with
               | Some extra => k +:+ String NUL extra
               | None => k
               end) text_pointers).

Record PendingDelta : Type := {
  pd_event_type : string;
  pd_fragment : DeltaFragment;
  pd_payload : Value;
  pd_started : Z;
}.

Definition PendingDelta_new (now : Z) (event_type : string) (fragment : DeltaFragment)
    (payload : Value) : PendingDelta :=
  {| pd_event_type := event_type; pd_fragment := fragment; pd_payload := payload; pd_started := now |}.

Definition deadline (self : PendingDelta) : Z := pd_started self + DELTA_COALESCE_WINDOW.

(** The check loop: every field is text on both sides and fits the window. *)
Fixpoint fields_fit (window payload : Value) (pointers : list string) : bool :=
  match pointers with
  | [] => true
  | p :: ps =>
      match pointer_text window p, pointer_text payload p with
      | Some t, Some next =>
          if (DELTA_COALESCE_MAX_BYTES <? len t + len next)%N then false
          else fields_fit window payload ps
      | _, _ => false
      end
  end.

(** The merge loop: the window's text moves ([mem::take]) into the payload. *)
Fixpoint merge_fields (window payload : Value) (pointers : list string) : Value * Value :=
  match pointers with
  | [] => (window, payload)
  | p :: ps =>
      match pointer_text window p, pointer_text payload p with
      | Some t, Some next =>
          merge_fields (pointer_set window p (string_value ""))
            (pointer_set payload p (string_value (t +:+ next))) ps
      | _, _ => merge_fields window payload ps
      end
  end.

Definition try_append (now : Z) (event_type : string) (fragment : DeltaFragment) (payload : Value) :
    M PendingDelta Value unit := λ self,
  if negb (String.eqb (pd_event_type self) event_type)
     || negb (bool_decide (pd_fragment self = fragment))
     || bool_decide (deadline self ≤ now)%Z
  then (self, Err payload)
  else if negb (fields_fit (pd_payload self) payload (text_pointers (pd_fragment self)))
  then (self, Err payload)
  else ({| pd_event_type := pd_event_type self; pd_fragment := pd_fragment self;
           pd_payload := (merge_fields (pd_payload self) payload (text_pointers (pd_fragment self))).2;
           pd_started := pd_started self |}, Ok tt).

Definition into_parts (self : PendingDelta) : string * Value := (pd_event_type self, pd_payload self).

(** ** The store's merge window, per conversation *)
Record StoreDelta : Type := { generation : N; delta : PendingDelta }.

Record Store : Type := {
  pending_delta : option StoreDelta;   (* the conversation's entry of [pending_deltas] *)
  delta_generation : N;
  attempts : list (string * Value * result AppError unit);  (* calls of [append_locked], with their answers *)
}.

Definition set_pending (p : option StoreDelta) (s : Store) : Store :=
  {| pending_delta := p; delta_generation := delta_generation s; attempts := attempts s |}.

Definition append_locked (answer : result AppError unit) (event_type : string) (payload : Value) :
    M Store AppError unit := λ s,
  ({| pending_delta := pending_delta s; delta_generation := delta_generation s;
      attempts := attempts s ++ [(event_type, payload, answer)] |}, answer).

(** [pending_deltas.get_mut(id)] and [try_append] on the entry: [Ok] when the
    fragment joined the window, otherwise the payload handed back. *)
Definition join_window (now : Z) (event_type : string) (fragment : DeltaFragment) (payload : Value) :
    M Store Value unit := λ s,
  match pending_delta s with
  | Some sd =>
      match try_append now event_type fragment payload (delta sd) with
      | (d, r) => (set_pending (Some {| generation := generation sd; delta := d |}) s, r)
      end
  | None => (s, Err payload)
  end.

Definition flush_pending_delta_locked (answer : result AppError unit) : M Store AppError unit := λ s,
  match pending_delta s with
  | None => (s, Ok tt)
  | Some sd =>
      let '(event_type, payload) := into_parts (delta sd) in
      append_locked answer event_type payload (set_pending None s)
  end.

Definition buffer_delta (now : Z) (answer : result AppError unit) (event_type : string)
    (fragment : DeltaFragment) (payload : Value) : M Store AppError unit := λ s,
  match join_window now event_type fragment payload s with
  | (s, Ok _) => (s, Ok tt)
  | (s, Err payload) =>
      match flush_pending_delta_locked answer s with
      | (s, Err e) => (s, Err e)
      | (s, Ok _) =>
          ({| pending_delta := Some {| generation := delta_generation s;
                                       delta := PendingDelta_new now event_type fragment payload |};
              delta_generation := delta_generation s + 1;
              attempts := attempts s |}, Ok tt)
      end
  end.

Definition flush_expired_delta (gen : N) (answer : result AppError unit) (s : Store) : Store :=
  match pending_delta s with
  | Some sd => if (generation sd =? gen)%N then (flush_pending_delta_locked answer s).1 else s
  | None => s
  end.

Definition append_inner (flushed answer : result AppError unit) (event_type : string) (payload : Value) :
    M Store AppError unit :=
  _ ← flush_pending_delta_locked flushed;
  append_locked answer event_type payload.

(** ** Steps

    One constructor per atomic step of the conversation: the fast path runs
    under the map entry's lock alone, the others under the conversation lock. *)
Inductive input : Type :=
  | Fragment (event_type : string) (fragment : DeltaFragment) (payload : Value)
  | Event (event_type : string) (payload : Value).

Inductive op : Type :=
  | FastPath (now : Z) (event_type : string) (fragment : DeltaFragment) (payload : Value)
  | Buffer (now : Z) (answer : result AppError unit)
      (event_type : string) (fragment : DeltaFragment) (payload : Value)
  | Timer (gen : N) (answer : result AppError unit)
  | Flush (answer : result AppError unit)
  | Append (flushed answer : result AppError unit) (event_type : string) (payload : Value).

(** A step, with the inputs it took in: what was accepted into the stream. *)
Definition step (o : op) (s : Store) : Store * list input :=
  match o with
  | FastPath now t f v =>
      match join_window now t f v s with
      | (s, Ok _) => (s, [Fragment t f v])
      | (s, Err _) => (s, [])
      end
  | Buffer now answer t f v =>
      match buffer_delta now answer t f v s with
      | (s, Ok _) => (s, [Fragment t f v])
      | (s, Err _) => (s, [])
      end
  | Timer gen answer => (flush_expired_delta gen answer s, [])
  | Flush answer => ((flush_pending_delta_locked answer s).1, [])
  | Append flushed answer t v =>
      ((append_inner flushed answer t v s).1,
       match (flush_pending_delta_locked flushed s).2 with Ok _ => [Event t v] | Err _ => [] end)
  end.

Fixpoint run_ops (ops : list op) (s : Store) : Store * list input :=
  match ops with
  | [] => (s, [])
  | o :: ops =>
      let '(s, taken) := step o s in
      let '(s, taken') := run_ops ops s in
      (s, taken ++ taken')
  end.

Definition Store_init : Store := {| pending_delta := None; delta_generation := 0; attempts := [] |}.
End coalesce.

(** ** What a merged event is *)
Section merging.
Context `{JsonLaws}.
Implicit Types (v w : Value) (vs : list Value) (p q : string) (ps : list string).

(** No pointer names a part of another: true of the constant pointer lists the
    providers pass. *)
Fixpoint separate ps : Prop :=
  match ps with
  | [] => True
  | p :: ps => Forall (λ q, disjoint_pointers p q ∧ disjoint_pointers q p) ps ∧ separate ps
  end.

(** The concatenation of the field [p] over a run of payloads. *)
Fixpoint run_text p vs : option string :=
  match vs with
  | [] => Some ""
  | v :: vs => t ← pointer_text v p; rest ← run_text p vs; Some (t +:+ rest)
  end.

(** [v] with each field [p] of [ps] set to [g p], where it has a value. *)
Fixpoint set_texts (g : string → option string) ps v : Value :=
  match ps with
  | [] => v
  | p :: ps => set_texts g ps (match g p with Some t => pointer_set v p (string_value t) | None => v end)
  end.

(** The newest payload with every text field replaced by the run's text. *)
Definition merged_payload ps vs v : Value := set_texts (λ p, run_text p (vs ++ [v])) ps v.

Lemma string_app_nil_r (x : string) : x +:+ "" = x.
Proof. induction x as [|c x IH]; [done|]. exact (f_equal (String c) IH). Qed.

Lemma string_app_assoc (x y z : string) : (x +:+ y) +:+ z = x +:+ (y +:+ z).
Proof. induction x as [|c x IH]; [done|]. exact (f_equal (String c) IH). Qed.

Lemma run_text_snoc p vs v :
  run_text p (vs ++ [v]) = a ← run_text p vs; t ← pointer_text v p; Some (a +:+ t).
Proof.
  induction vs as [|w vs IH]; simpl.
  - destruct (pointer_text v p); simpl; [by rewrite string_app_nil_r|done].
  - destruct (pointer_text w p); simpl; [|done]. rewrite IH.
    destruct (run_text p vs); simpl; [|done]. destruct (pointer_text v p); simpl; [|done].
    by rewrite string_app_assoc.
Qed.

Lemma pointer_text_set v p t :
  is_Some (pointer_text v p) → pointer_text (pointer_set v p (string_value t)) p = Some t.
Proof.
  intros [x Hx]. unfold pointer_text in *. rewrite pointer_set_same; [apply as_str_string|].
  destruct (pointer v p); [eauto|done].
Qed.

Lemma pointer_text_disjoint v p q x :
  disjoint_pointers p q → pointer_text (pointer_set v p x) q = pointer_text v q.
Proof. intros Hd. unfold pointer_text. by rewrite pointer_set_disjoint. Qed.

Lemma set_texts_ext g1 g2 ps v : (∀ p, p ∈ ps → g1 p = g2 p) → set_texts g1 ps v = set_texts g2 ps v.
Proof.
  revert v. induction ps as [|p ps IH]; intros v Hg; simpl; [done|].
  rewrite Hg by left. apply IH. intros q Hq. apply Hg. by right.
Qed.

Lemma set_texts_other g ps v q :
  (∀ p, p ∈ ps → disjoint_pointers p q) → pointer (set_texts g ps v) q = pointer v q.
Proof.
  revert v. induction ps as [|p ps IH]; intros v Hd; simpl; [done|].
  rewrite IH by (intros; apply Hd; by right).
  destruct (g p); [|done]. apply pointer_set_disjoint, Hd. by left.
Qed.

Lemma set_texts_same g ps v p t :
  separate ps → p ∈ ps → is_Some (pointer_text v p) → g p = Some t →
  pointer_text (set_texts g ps v) p = Some t.
Proof.
  revert v. induction ps as [|q ps IH]; intros v Hsep Hin Hv Hg; [by apply not_elem_of_nil in Hin|].
  destruct Hsep as [Hq Hs]. rewrite Forall_forall in Hq. apply elem_of_cons in Hin as [->|Hin]; simpl.
  - rewrite Hg. unfold pointer_text at 1. rewrite set_texts_other.
    + by apply pointer_text_set.
    + intros p' Hp'. by apply Hq.
  - apply IH; [done..| |done]. destruct (g q); [|done].
    rewrite pointer_text_disjoint; [done|]. by apply Hq.
Qed.

(** The merge loop puts, in every field, the window's text before the
    payload's. *)
Lemma merge_fields_spec ps w v w0 v0 :
  separate ps →
  (∀ p, p ∈ ps → pointer_text w p = pointer_text w0 p ∧ pointer_text v p = pointer_text v0 p) →
  (merge_fields w v ps).2 =
  set_texts (λ p, t ← pointer_text w0 p; next ← pointer_text v0 p; Some (t +:+ next)) ps v.
Proof.
  revert w v. induction ps as [|p ps IH]; intros w v; [done|]. intros [Hp Hs] Heq. simpl.
  rewrite Forall_forall in Hp. destruct (Heq p) as [-> ->]; [by left|].
  destruct (pointer_text w0 p), (pointer_text v0 p); simpl; apply IH; try done;
    intros q Hq; rewrite ?pointer_text_disjoint by (by apply Hp); apply Heq; by right.
Qed.

Lemma fields_fit_spec w v ps :
  fields_fit w v ps = true ↔
  ∀ p, p ∈ ps → ∃ t next, pointer_text w p = Some t ∧ pointer_text v p = Some next ∧
    (len t + len next ≤ DELTA_COALESCE_MAX_BYTES)%N.
Proof.
  induction ps as [|p ps IH]; cbn [fields_fit]; [set_solver|].
  setoid_rewrite elem_of_cons. split.
  - destruct (pointer_text w p) as [t|] eqn:Hw, (pointer_text v p) as [n|] eqn:Hv; try done.
    destruct (N.ltb_spec DELTA_COALESCE_MAX_BYTES (len t + len n)); [done|]. intros Hf q [->|Hq]; [|by apply IH].
    exists t, n. split_and!; [done..|lia].
  - intros Hall. destruct (Hall p) as (t & n & -> & -> & Hle); [by left|].
    destruct (N.ltb_spec DELTA_COALESCE_MAX_BYTES (len t + len n)); [lia|]. apply IH. intros q Hq. apply Hall. by right.
Qed.

Lemma len_app (x y : string) : len (x +:+ y) = (len x + len y)%N.
Proof.
  unfold len. rewrite <-Nat2N.inj_add. f_equal.
  induction x as [|c x IH]; [done|]. exact (f_equal S IH).
Qed.

(** Every field of a run of two or more is text within the window's size. *)
Definition run_fits ps vs v : Prop :=
  vs = [] ∨ ∀ p, p ∈ ps → ∃ t, run_text p (vs ++ [v]) = Some t ∧
    (len t ≤ DELTA_COALESCE_MAX_BYTES)%N.

Lemma merged_payload_single ps v : merged_payload ps [] v = v.
Proof.
  unfold merged_payload. simpl. induction ps as [|p ps IH]; simpl; [done|].
  destruct (pointer_text v p) as [t|] eqn:Ht; simpl; [|done].
  rewrite pointer_set_id; [done|]. unfold pointer_text in Ht.
  destruct (pointer v p) as [x|]; [|done]. rewrite string_app_nil_r. f_equal. by apply as_str_inv.
Qed.

Lemma merged_payload_text ps vs v p :
  separate ps → p ∈ ps → run_fits ps vs v →
  pointer_text (merged_payload ps vs v) p = run_text p (vs ++ [v]).
Proof.
  intros Hs Hp [->|Hfit].
  - rewrite merged_payload_single. simpl. destruct (pointer_text v p); simpl; [|done].
    by rewrite string_app_nil_r.
  - destruct (Hfit p Hp) as (t & Ht & _). rewrite Ht. apply set_texts_same; [done..| |done].
    rewrite run_text_snoc in Ht. destruct (run_text p vs); [|done]. simpl in Ht.
    destruct (pointer_text v p); [eauto|done].
Qed.

(** Appending a fragment that fits extends the run by that fragment. *)
Lemma merge_extends_run ps vs v v' :
  separate ps → run_fits ps vs v → fields_fit (merged_payload ps vs v) v' ps = true →
  (merge_fields (merged_payload ps vs v) v' ps).2 = merged_payload ps (vs ++ [v]) v' ∧
  run_fits ps (vs ++ [v]) v'.
Proof.
  intros Hs Hrun Hfit. rewrite fields_fit_spec in Hfit. split.
  - rewrite (merge_fields_spec _ _ _ (merged_payload ps vs v) v') by done.
    apply set_texts_ext. intros p Hp. rewrite (run_text_snoc p (vs ++ [v])).
    by rewrite merged_payload_text.
  - right. intros p Hp. destruct (Hfit p Hp) as (t & n & Hw & Hv & Hle).
    rewrite merged_payload_text in Hw by done. exists (t +:+ n).
    rewrite run_text_snoc, Hw. simpl. rewrite Hv. split; [done|]. by rewrite len_app.
Qed.

(** ** Runs *)

(** What one journal write stands for: an event of its own, or a run of
    fragments of one stream, merged. *)
Inductive journaled_as : list input → string * Value → Prop :=
  | run_event t v : journaled_as [Event t v] (t, v)
  | run_merged t f vs v :
      run_fits (text_pointers f) vs v →
      journaled_as (Fragment t f <$> (vs ++ [v])) (t, merged_payload (text_pointers f) vs v).

Definition pointers_separate (o : op) : Prop :=
  match o with
  | FastPath _ _ f _ | Buffer _ _ _ f _ => separate (text_pointers f)
  | _ => True
  end.

(** The window holds the fragments taken in since the last write. *)
Definition window_run (s : Store) (rest : list input) : Prop :=
  match pending_delta s with
  | None => rest = []
  | Some sd => ∃ vs v,
      let f := pd_fragment (delta sd) in
      separate (text_pointers f) ∧ run_fits (text_pointers f) vs v ∧
      rest = Fragment (pd_event_type (delta sd)) f <$> (vs ++ [v]) ∧
      pd_payload (delta sd) = merged_payload (text_pointers f) vs v
  end.

Definition stream_inv (s : Store) (taken : list input) : Prop :=
  ∃ runs rest, taken = concat runs ++ rest ∧
    Forall2 journaled_as runs (attempts s).*1 ∧ window_run s rest.

Lemma join_window_inv now t f v s taken s' r :
  separate (text_pointers f) → stream_inv s taken → join_window now t f v s = (s', r) →
  match r with
  | Ok _ => stream_inv s' (taken ++ [Fragment t f v])
  | Err v' => s' = s ∧ v' = v
  end.
Proof.
  intros Hsep (runs & rest & -> & Hruns & Hwin) Hj. unfold join_window, window_run in *.
  destruct s as [[[gen d]|] dg att]; simpl in *; [|by simplify_eq].
  destruct Hwin as (vs & v0 & Hs & Hfit & -> & Hpay). unfold try_append in Hj.
  destruct (String.eqb_spec (pd_event_type d) t) as [<-|]; simpl in Hj; [|by simplify_eq].
  case_bool_decide as Hf; simpl in Hj; [|by simplify_eq]. subst f.
  case_bool_decide; simpl in Hj; [by simplify_eq|].
  destruct (fields_fit _ _ _) eqn:Hff; simpl in Hj; simplify_eq/=; [|done].
  rewrite Hpay in Hff. destruct (merge_extends_run _ _ _ _ Hs Hfit Hff) as [Hm Hfit'].
  exists runs, (Fragment (pd_event_type d) (pd_fragment d) <$> ((vs ++ [v0]) ++ [v])).
  split_and!; [|done|].
  - by rewrite !fmap_app, <-!app_assoc.
  - exists (vs ++ [v0]), v. simpl. split_and!; try done. by rewrite Hpay.
Qed.

Lemma flush_inv answer s taken s' r :
  stream_inv s taken → flush_pending_delta_locked answer s = (s', r) →
  stream_inv s' taken ∧ pending_delta s' = None.
Proof.
  intros (runs & rest & -> & Hruns & Hwin) Hf.
  unfold flush_pending_delta_locked, append_locked, into_parts, window_run in *.
  destruct s as [[[gen d]|] dg att]; simpl in *; simplify_eq/=.
  - destruct Hwin as (vs & v0 & Hs & Hfit & -> & Hpay). split; [|done].
    exists (runs ++ [Fragment (pd_event_type d) (pd_fragment d) <$> (vs ++ [v0])]), [].
    split_and!; [by rewrite concat_app; simpl; rewrite !app_nil_r| |done].
    simpl. rewrite (fmap_app fst). apply Forall2_app; [done|]. constructor; [|done].
    simpl. rewrite Hpay. by constructor.
  - split; [|done]. by exists runs, [].
Qed.

Lemma step_inv o s taken :
  pointers_separate o → stream_inv s taken → stream_inv (step o s).1 (taken ++ (step o s).2).
Proof.
  intros Hsep Hinv. destruct o as [now t f v|now answer t f v|gen answer|answer|flushed answer t v]; simpl in *.
  - destruct (join_window now t f v s) as [s' r] eqn:Hj.
    pose proof (join_window_inv _ _ _ _ _ _ _ _ Hsep Hinv Hj) as Hr. destruct r; simpl; [done|].
    destruct Hr as [-> _]. by rewrite app_nil_r.
  - unfold buffer_delta. destruct (join_window now t f v s) as [s1 r] eqn:Hj.
    pose proof (join_window_inv _ _ _ _ _ _ _ _ Hsep Hinv Hj) as Hr. destruct r; simpl; [done|].
    destruct Hr as [-> ->]. destruct (flush_pending_delta_locked answer s) as [s2 r] eqn:Hf.
    destruct (flush_inv _ _ _ _ _ Hinv Hf) as [(runs & rest & -> & Hruns & Hw) Hp].
    destruct r; simpl; [|by rewrite app_nil_r; exists runs, rest].
    unfold window_run in Hw. rewrite Hp in Hw. subst rest.
    exists runs, [Fragment t f v]. split_and!; [by rewrite app_nil_r|done|].
    exists [], v. simpl. split_and!; [done|by left|done|by rewrite merged_payload_single].
  - rewrite app_nil_r. unfold flush_expired_delta. destruct (pending_delta s); [|done].
    destruct (_ =? _)%N; [|done]. destruct (flush_pending_delta_locked answer s) eqn:Hf.
    by eapply flush_inv in Hf as [? _].
  - rewrite app_nil_r. destruct (flush_pending_delta_locked answer s) eqn:Hf.
    by eapply flush_inv in Hf as [? _].
  - unfold append_inner, mbind, M_bind. destruct (flush_pending_delta_locked flushed s) as [s1 r] eqn:Hf.
    destruct (flush_inv _ _ _ _ _ Hinv Hf) as [(runs & rest & -> & Hruns & Hw) Hp].
    destruct r; simpl; [|by rewrite app_nil_r; exists runs, rest].
    unfold window_run in Hw. rewrite Hp in Hw. subst rest. exists (runs ++ [[Event t v]]), [].
    split_and!; [by rewrite concat_app; simpl; rewrite !app_nil_r| |by unfold window_run; simpl; rewrite Hp].
    simpl. rewrite (fmap_app fst). apply Forall2_app; [done|]. repeat constructor.
Qed.

Lemma run_ops_inv ops s taken :
  Forall pointers_separate ops → stream_inv s taken →
  stream_inv (run_ops ops s).1 (taken ++ (run_ops ops s).2).
Proof.
  intros Hops. revert s taken. induction Hops as [|o ops Ho Hops IH]; intros s taken Hinv; simpl.
  - by rewrite app_nil_r.
  - pose proof (step_inv o s taken Ho Hinv) as Hs. destruct (step o s) as [s1 t1]; simpl in Hs.
    specialize (IH s1 _ Hs). destruct (run_ops ops s1) as [s2 t2]; simpl in *. by rewrite app_assoc.
Qed.

Lemma stream_inv_init : stream_inv Store_init [].
Proof. by exists [], []. Qed.

End merging.

(** ** Rendering

    Clients append a delta's text to the block its other fields name. With
    fragments keyed by [from_payload], the merged journal renders like the raw
    stream. *)
Fixpoint nul_free (s : string) : bool :=
  match s with
  | EmptyString => true
  | String c s => negb (Ascii.eqb c NUL) && nul_free s
  end.

(** The part of a key after the identity. *)
Definition key_suffix (extra : option string) : string :=
  match extra with Some e => String NUL e | None => "" end.

Lemma key_split a b (ea eb : option string) :
  nul_free a = true → nul_free b = true →
  a +:+ key_suffix ea = b +:+ key_suffix eb → a = b ∧ ea = eb.
Proof.
  revert b. induction a as [|c a IH]; intros [|d b]; cbn [nul_free].
  - intros _ _ Heq. split; [done|]. destruct ea, eb; lazy in Heq; congruence.
  - intros _ [Hd _]%andb_prop Heq. exfalso. destruct ea; lazy in Heq; [|done].
    injection Heq as <- _. done.
  - intros [Hc _]%andb_prop _ Heq. exfalso. destruct eb; lazy in Heq; [|done].
    injection Heq as -> _. done.
  - intros [_ Ha]%andb_prop [_ Hb]%andb_prop [= <- Heq].
    destruct (IH b Ha Hb Heq) as [<- <-]. done.
Qed.

Section rendering.
Context `{JsonLaws} (to_string : Value → option string).
(** The printed form of a value determines it, and JSON text escapes NUL. *)
Hypothesis to_string_inj : ∀ v w s, to_string v = Some s → to_string w = Some s → v = w.
Hypothesis to_string_nul_free : ∀ v s, to_string v = Some s → nul_free s = true.
Context (ps : list string) (Hsep : separate ps).
Implicit Types (v w : Value) (p q : string).

Lemma separate_disjoint qs p q :
  separate qs → p ∈ qs → q ∈ qs → p ≠ q → disjoint_pointers p q.
Proof.
  induction qs as [|r qs IH]; intros Hs Hp Hq Hne; [by apply not_elem_of_nil in Hp|].
  destruct Hs as [Hr Hs]. rewrite Forall_forall in Hr.
  apply elem_of_cons in Hp as [->|Hp]; apply elem_of_cons in Hq as [->|Hq]; try done.
  - by apply Hr.
  - by apply Hr.
  - by apply IH.
Qed.

Lemma strip_texts_present qs v k : separate qs → strip_texts v qs = Some k → ∀ p, p ∈ qs → is_Some (pointer_text v p).
Proof.
  revert v. induction qs as [|q qs IH]; intros v Hs Hk p Hp; [by apply not_elem_of_nil in Hp|].
  destruct Hs as [Hq Hs]. rewrite Forall_forall in Hq. simpl in Hk.
  destruct (pointer_text v q) eqn:Hv; [|done]. apply elem_of_cons in Hp as [->|Hp]; [eauto|].
  specialize (IH _ Hs Hk p Hp). rewrite pointer_text_disjoint in IH; [done|]. by apply Hq.
Qed.

Lemma strip_texts_set qs v q t :
  separate qs → q ∈ qs → is_Some (pointer_text v q) →
  strip_texts (pointer_set v q (string_value t)) qs = strip_texts v qs.
Proof.
  revert v. induction qs as [|p qs IH]; intros v Hs Hq Hv; [by apply not_elem_of_nil in Hq|].
  destruct Hs as [Hp Hs]. rewrite Forall_forall in Hp. simpl.
  apply elem_of_cons in Hq as [->|Hq].
  - rewrite pointer_text_set by done. destruct Hv as [x ->]. by rewrite pointer_set_set.
  - destruct (Hp q Hq) as [Hpq Hqp]. rewrite pointer_text_disjoint by done.
    destruct (pointer_text v p); [|done]. rewrite pointer_set_comm by done. apply IH; [done..|].
    by rewrite pointer_text_disjoint.
Qed.

Lemma strip_texts_set_texts g qs v :
  (∀ q, q ∈ qs → q ∈ ps) → (∀ q, q ∈ ps → is_Some (pointer_text v q)) →
  strip_texts (set_texts g qs v) ps = strip_texts v ps.
Proof.
  revert v. induction qs as [|q qs IH]; intros v Hin Hv; simpl; [done|].
  assert (Hq : q ∈ ps) by (apply Hin; by left).
  destruct (g q) as [t|]; [|apply IH; [set_solver|done]].
  rewrite IH; [|set_solver|].
  - apply strip_texts_set; [done..|]. by apply Hv.
  - intros q' Hq'. destruct (decide (q' = q)) as [->|Hne]; [rewrite pointer_text_set; eauto|].
    rewrite pointer_text_disjoint by by apply (separate_disjoint ps). by apply Hv.
Qed.

Lemma from_payload_inv v extra f :
  from_payload to_string v ps extra = Some f →
  ∃ k s, strip_texts v ps = Some k ∧ to_string k = Some s ∧ f = keyed (s +:+ key_suffix extra) ps.
Proof.
  unfold from_payload. destruct (strip_texts v ps) as [k|]; simpl; [|done].
  destruct (to_string k) as [s|] eqn:Hs; simpl; [|done]. intros [= <-]. exists k, s. split_and!; [done..|].
  destruct extra; [done|]. by rewrite string_app_nil_r.
Qed.

(** Fragments that share a key have the same fields, texts apart. *)
Lemma from_payload_identity v w e1 e2 f :
  from_payload to_string v ps e1 = Some f → from_payload to_string w ps e2 = Some f →
  strip_texts v ps = strip_texts w ps ∧ e1 = e2.
Proof.
  intros (k1 & s1 & Hk1 & Hs1 & ->)%from_payload_inv (k2 & s2 & Hk2 & Hs2 & [= Heq])%from_payload_inv.
  destruct (key_split s1 s2 e1 e2) as [<- <-]; [by eapply to_string_nul_free..|done|].
  split; [|done]. rewrite Hk1, Hk2. f_equal. by eapply to_string_inj.
Qed.

(** The block of an event, and the text a client appends to block [b]. *)
Definition block_text (t : string) (b : DeltaFragment) p (e : string * Value) : string :=
  if String.eqb e.1 t && bool_decide (from_payload to_string e.2 ps None = Some b)
  then default "" (pointer_text e.2 p) else "".
Definition render (t : string) (b : DeltaFragment) p (l : list (string * Value)) : string :=
  foldr (λ e acc, block_text t b p e +:+ acc) "" l.

Definition input_event (i : input) : string * Value :=
  match i with Fragment t _ v => (t, v) | Event t v => (t, v) end.

(** The fragments a stream sends carry the key of their payload. *)
Definition keyed_by_payload (o : op) : Prop :=
  match o with
  | FastPath _ _ f v | Buffer _ _ _ f v => ∃ extra, from_payload to_string v ps extra = Some f
  | _ => True
  end.
Definition input_keyed (i : input) : Prop :=
  match i with Fragment _ f v => ∃ extra, from_payload to_string v ps extra = Some f | _ => True end.

Lemma render_app t b p l1 l2 : render t b p (l1 ++ l2) = render t b p l1 +:+ render t b p l2.
Proof. induction l1 as [|e l1 IH]; simpl; [done|]. by rewrite IH, string_app_assoc. Qed.

Lemma from_payload_strip v w :
  strip_texts v ps = strip_texts w ps → from_payload to_string v ps None = from_payload to_string w ps None.
Proof. unfold from_payload. by intros ->. Qed.

(** Payloads of one block, one after the other, append their texts to it. *)
Lemma block_renders t b p t' o ws :
  (∀ w, w ∈ ws → from_payload to_string w ps None = o ∧ is_Some (pointer_text w p)) →
  is_Some (run_text p ws) ∧
  render t b p (pair t' <$> ws) =
    if String.eqb t' t && bool_decide (o = Some b) then default "" (run_text p ws) else "".
Proof.
  induction ws as [|w ws IH]; intros Hall.
  { simpl. split; [eauto|]. by destruct (_ && _). }
  destruct IH as [[x Hx] IH]; [intros; apply Hall; by right|].
  destruct (Hall w) as [Ho [y Hy]]; [by left|].
  rewrite fmap_cons. cbn [render foldr run_text]. fold (render t b p (pair t' <$> ws)).
  rewrite IH, Hx, Hy. unfold block_text. cbn [fst snd]. rewrite Ho, Hy. simpl. split; [eauto|].
  by destruct (_ && _).
Qed.

(** One run renders like its merged event. *)
Lemma run_renders t b p run e :
  p ∈ ps → Forall input_keyed run → journaled_as run e →
  render t b p (input_event <$> run) = block_text t b p e.
Proof.
  intros Hp Hkeys Hrun. destruct Hrun as [t' v|t' f vs v Hfit]; simpl; [apply string_app_nil_r|].
  rewrite Forall_fmap, Forall_app, Forall_singleton in Hkeys. destruct Hkeys as [Hvs [ev Hv]].
  destruct (from_payload_inv _ _ _ Hv) as (k & s & Hk & _ & Hf).
  assert (Hps : text_pointers f = ps) by by rewrite Hf. rewrite Hps in *.
  assert (Hall : ∀ w, w ∈ vs ++ [v] → strip_texts w ps = Some k).
  { intros w [Hw| ->%list_elem_of_singleton]%elem_of_app; [|done].
    rewrite Forall_forall in Hvs. destruct (Hvs w Hw) as [ew Hew].
    rewrite <-Hk. by eapply from_payload_identity. }
  destruct (block_renders t b p t' (from_payload to_string v ps None) (vs ++ [v])) as [_ Hr].
  { intros w Hw. split; [apply from_payload_strip; by rewrite Hk, Hall|].
    eapply strip_texts_present; eauto. }
  rewrite <-list_fmap_compose.
  change (input_event ∘ Fragment t' f) with (@pair string Value t'). rewrite Hr.
  unfold block_text. cbn [fst snd]. rewrite merged_payload_text by done.
  rewrite (from_payload_strip (merged_payload ps vs v) v); [done|].
  unfold merged_payload. rewrite strip_texts_set_texts; [done|done|].
  intros q Hq. eapply strip_texts_present; eauto.
Qed.

Lemma step_taken_keyed o s : keyed_by_payload o → Forall input_keyed (step o s).2.
Proof.
  destruct o as [now t f v|now answer t f v|gen answer|answer|flushed answer t v]; simpl; intros Ho.
  - destruct (join_window now t f v s) as [? []]; by repeat constructor.
  - destruct (buffer_delta now answer t f v s) as [? []]; by repeat constructor.
  - constructor.
  - constructor.
  - destruct (flush_pending_delta_locked flushed s) as [? []]; by repeat constructor.
Qed.

Lemma run_ops_taken_keyed ops s : Forall keyed_by_payload ops → Forall input_keyed (run_ops ops s).2.
Proof.
  intros Hops. revert s. induction Hops as [|o ops Ho Hops IH]; intros s; simpl; [constructor|].
  pose proof (step_taken_keyed o s Ho) as Hs. destruct (step o s) as [s1 t1]. specialize (IH s1).
  destruct (run_ops ops s1) as [s2 t2]. by apply Forall_app.
Qed.

Lemma keyed_separate o : keyed_by_payload o → pointers_separate o.
Proof.
  destruct o as [now t f v|now answer t f v| | |]; simpl; try done;
    by intros [extra (k & s & _ & _ & ->)%from_payload_inv].
Qed.

Lemma runs_render t b p runs es :
  p ∈ ps → Forall input_keyed (concat runs) → Forall2 journaled_as runs es →
  render t b p (input_event <$> concat runs) = render t b p es.
Proof.
  intros Hp Hk Hruns. induction Hruns as [|run e runs es Hrun Hruns IH]; [done|].
  simpl in *. apply Forall_app in Hk as [Hr Hk]. rewrite fmap_app, render_app, IH by done. simpl. f_equal.
  by apply run_renders.
Qed.

(** when the fragments are keyed by their payload ([from_payload]), the
    journalled events render exactly like the raw stream they replace: for
    every event type, block and text field, the text a client accumulates from
    the writes is the text it would accumulate from the inputs. *)
Theorem coalescing_renders_alike (ops : list op) (answer : result AppError unit) t b p :
  p ∈ ps → Forall keyed_by_payload ops →
  let '(s, taken) := run_ops ops Store_init in
  render t b p (attempts (flush_pending_delta_locked answer s).1).*1 =
  render t b p (input_event <$> taken).
Proof.
  intros Hp Hops. pose proof (run_ops_taken_keyed ops Store_init Hops) as Hk.
  pose proof (run_ops_inv ops Store_init [] (Forall_impl _ _ _ Hops keyed_separate) stream_inv_init) as Hinv.
  destruct (run_ops ops Store_init) as [s taken]. simpl in Hinv, Hk.
  destruct (flush_pending_delta_locked answer s) as [s' r] eqn:Hf.
  destruct (flush_inv _ _ _ _ _ Hinv Hf) as [(runs & rest & -> & Hruns & Hw) Hn].
  unfold window_run in Hw. rewrite Hn in Hw. subst rest. rewrite app_nil_r in *. symmetry.
  by apply runs_render.
Qed.
End rendering.

(** one append decides exactly as documented. It is accepted iff the event
    type and the fragment are those of the window, the window has not expired
    and every text field is present on both sides and fits 16 KiB together;
    accepted, every field holds the window's text followed by the payload's and
    everything else is the new payload's; refused, the window is as it was and
    the payload is handed back unchanged. *)
Theorem try_append_decides `{JsonLaws} now t f v (d : PendingDelta) :
  separate (text_pointers (pd_fragment d)) →
  let accepted := pd_event_type d = t ∧ pd_fragment d = f ∧ (now < deadline d)%Z ∧
    ∀ p, p ∈ text_pointers f → ∃ x y, pointer_text (pd_payload d) p = Some x ∧
      pointer_text v p = Some y ∧ (len x + len y ≤ DELTA_COALESCE_MAX_BYTES)%N in
  match try_append now t f v d with
  | (d', Ok _) => accepted ∧ pd_event_type d' = t ∧ pd_fragment d' = f ∧ pd_started d' = pd_started d ∧
      (∀ p x y, p ∈ text_pointers f → pointer_text (pd_payload d) p = Some x →
         pointer_text v p = Some y → pointer_text (pd_payload d') p = Some (x +:+ y)) ∧
      (∀ q, (∀ p, p ∈ text_pointers f → disjoint_pointers p q) → pointer (pd_payload d') q = pointer v q)
  | (d', Err v') => ¬ accepted ∧ d' = d ∧ v' = v
  end.
Proof.
  intros Hsep. simpl. unfold try_append.
  destruct (String.eqb_spec (pd_event_type d) t) as [<-|]; simpl; [|by split; [intros (? & _)|]].
  case_bool_decide as Hf; simpl; [|by split; [intros (_ & ? & _)|]]. subst f.
  case_bool_decide; simpl; [split; [intros (_ & _ & ? & _); lia|done]|].
  destruct (fields_fit _ _ _) eqn:Hfit; simpl.
  - pose proof (proj1 (fields_fit_spec _ _ _) Hfit) as Hall.
    rewrite (merge_fields_spec _ _ _ (pd_payload d) v) by done.
    split_and!; try done; [lia| |].
    + intros p x y Hp Hx Hy. apply set_texts_same; [done|done|by rewrite Hy|by rewrite Hx, Hy].
    + intros q Hq. by apply set_texts_other.
  - split; [|done]. intros (_ & _ & _ & Hall). apply fields_fit_spec in Hall. congruence.
Qed.

(** ** A concrete stream *)
Module Example.
Import Tree.

Definition hello (s : string) : tree := Obj [("delta", Str s); ("turnId", Str "t1")].
(** A printer defined on the one identity of the example. *)
Definition print_identity (v : tree) : option string :=
  match v with
  | Obj [(a, Null); (b, Str c)] =>
      if String.eqb a "delta" && String.eqb b "turnId" && String.eqb c "t1" then Some "{t1}" else None
  | _ => None
  end.
Definition frag : DeltaFragment := keyed "{t1}" ["/delta"].
Definition ops : list op :=
  [Buffer 0 (Ok tt) "message.delta" frag (hello "Hel"); FastPath 5 "message.delta" frag (hello "lo");
   Append (Ok tt) (Ok tt) "tool.started" Null; FastPath 7 "message.delta" frag (hello "x");
   Buffer 7 (Ok tt) "message.delta" frag (hello "!"); Timer 0 (Ok tt)].

Example ops_run :
  (attempts (flush_pending_delta_locked (Ok tt) (run_ops ops Store_init).1).1).*1 =
    [("message.delta", hello "Hello"); ("tool.started", Null); ("message.delta", hello "!")].
Proof. by vm_compute. Qed.


Lemma coalescing_renders_alike_witness :
  let '(s, taken) := run_ops ops Store_init in
  render print_identity ["/delta"] "message.delta" frag "/delta"
    (attempts (flush_pending_delta_locked (Ok tt) s).1).*1 =
  render print_identity ["/delta"] "message.delta" frag "/delta" (input_event <$> taken).
Proof.
  apply coalescing_renders_alike.
  - unfold print_identity. intros v w s Hv Hw. repeat case_match; try done.
    repeat match goal with E : _ && _ = true |- _ => apply andb_prop in E as [? ?] end.
    repeat match goal with E : String.eqb _ _ = true |- _ => apply String.eqb_eq in E end. congruence.
  - unfold print_identity. intros v s Hv. repeat case_match; simplify_eq. done.
  - repeat constructor.
  - by left.
  - repeat constructor; by exists None.
Defined.

Lemma try_append_decides_witness :
  pointer_text (pd_payload (try_append 5 "message.delta" frag (hello "lo")
    (PendingDelta_new 0 "message.delta" frag (hello "Hel"))).1) "/delta" = Some "Hello".
Proof.
  assert (Hsep : separate (text_pointers (pd_fragment (PendingDelta_new 0 "message.delta" frag (hello "Hel")))))
    by repeat constructor.
  pose proof (try_append_decides 5 "message.delta" frag (hello "lo") _ Hsep) as Hd.
  destruct (try_append _ _ _ _ _) as [d' [u|v]] eqn:E in Hd; [|by vm_compute in E].
  rewrite E. destruct Hd as (_ & _ & _ & _ & Htext & _).
  exact (Htext "/delta" "Hel" "lo" ltac:(by left) eq_refl eq_refl).
Defined.
End Example.
