(* ===== verification/Query.v ===== *)
(** * The signed query

    Model of the query handling of src/src/device_auth.rs: form decoding,
    strict percent encoding and the canonical query a signature covers. A Rust
    [str] is its list of UTF-8 bytes. *)
From S2P Require Import Prelude Bytes.
From Stdlib Require Import Strings.Byte String.
Local Open Scope N_scope.

(** A byte-string literal. *)
Definition b (s : string) : bytes := list_byte_of_string s.

Definition AUTH_QUERY_KEYS : list bytes :=
  Eval vm_compute in [b "device_id"; b "auth_ts"; b "auth_nonce"; b "auth_sig"].

(** [u8::is_ascii_hexdigit] with the value [u8::from_str_radix] gives it. *)
Definition hex_digit (c : byte) : option N :=
  if in_range 0x30 0x39 c then Some (byte_val c - 0x30)
  else if in_range 0x41 0x46 c then Some (byte_val c - 0x41 + 10)
  else if in_range 0x61 0x66 c then Some (byte_val c - 0x61 + 10)
  else None.

(** The decoding loop: ['+'] is a space, [%XX] a byte, a broken escape itself. *)
Fixpoint percent_decode (l : bytes) : bytes :=
  match l with
  | [] => []
  | c :: rest =>
      if Byte.eqb c "+" then " "%byte :: percent_decode rest
      else if Byte.eqb c "%" then
        match rest with
        | h1 :: h2 :: rest' =>
            match hex_digit h1, hex_digit h2 with
            | Some hi, Some lo => byte_of (hi * 16 + lo) :: percent_decode rest'
            | _, _ => c :: percent_decode rest
            end
        | _ => c :: percent_decode rest
        end
      else c :: percent_decode rest
  end.

Definition form_decode (value : bytes) : bytes := from_utf8_lossy (percent_decode value).

Definition unreserved (c : byte) : bool :=
  in_range 0x41 0x5A c || in_range 0x61 0x7A c || in_range 0x30 0x39 c
  || Byte.eqb c "-" || Byte.eqb c "_" || Byte.eqb c "." || Byte.eqb c "~".

(** A digit of [{:02X}]. *)
Definition hex_upper (n : N) : byte := if n <? 10 then byte_of (0x30 + n) else byte_of (0x41 + (n - 10)).

Fixpoint strict_encode (value : bytes) : bytes :=
  match value with
  | [] => []
  | c :: rest =>
      if unreserved c then c :: strict_encode rest
      else "%"%byte :: hex_upper (byte_val c / 16) :: hex_upper (byte_val c mod 16) :: strict_encode rest
  end.

(** [str::split(c)]: always at least one part. *)
Fixpoint split (c : byte) (l : bytes) : list bytes :=
  match l with
  | [] => [[]]
  | x :: l =>
      if Byte.eqb x c then [] :: split c l
      else match split c l with
           | part :: parts => (x :: part) :: parts
           | [] => [[x]]
           end
  end.

(** [str::split_once(c)]. *)
Fixpoint split_once (c : byte) (l : bytes) : option (bytes * bytes) :=
  match l with
  | [] => None
  | x :: l =>
      if Byte.eqb x c then Some ([], l)
      else match split_once c l with Some (k, v) => Some (x :: k, v) | None => None end
  end.

Definition form_decode_pairs (query : bytes) : list (bytes * bytes) :=
  if decide (query = []) then []
  else (λ pair, let '(key, value) := default (pair, []) (split_once "=" pair) in
                (form_decode key, form_decode value)) <$> split "&" query.

Definition query_value (query : option bytes) (key : bytes) : option bytes :=
  q ← query; snd <$> find (λ p, bool_decide (p.1 = key)) (form_decode_pairs q).

(** The order of [String] (bytewise lexicographic) and of pairs of them. *)
Definition bytes_le (x y : bytes) : Prop := String.le (string_of_list_byte x) (string_of_list_byte y).
Definition pair_le (p q : bytes * bytes) : Prop :=
  if decide (p.1 = q.1) then bytes_le p.2 q.2 else bytes_le p.1 q.1.
#[export] Instance bytes_le_dec x y : Decision (bytes_le x y).
Proof. unfold bytes_le. apply _. Defined.
#[export] Instance pair_le_dec p q : Decision (pair_le p q).
Proof. unfold pair_le. destruct (decide _); apply _. Defined.

Definition is_auth_key (key : bytes) : Prop := key ∈ AUTH_QUERY_KEYS.
#[export] Instance is_auth_key_dec key : Decision (is_auth_key key).
Proof. unfold is_auth_key. apply _. Defined.

(** The pairs a query carries besides the credential. *)
Definition signed_pairs (query : option bytes) : list (bytes * bytes) :=
  filter (λ p, ¬ is_auth_key p.1) (form_decode_pairs (default [] query)).

Definition encode_pair (p : bytes * bytes) : bytes * bytes := (strict_encode p.1, strict_encode p.2).
Definition format_pair (p : bytes * bytes) : bytes := p.1 ++ "="%byte :: p.2.

(** [parts.join("&")]. *)
Fixpoint join (c : byte) (parts : list bytes) : bytes :=
  match parts with
  | [] => []
  | [part] => part
  | part :: parts => part ++ c :: join c parts
  end.

Definition canonical_query (query : option bytes) : bytes :=
  join "&" (format_pair <$> merge_sort pair_le (encode_pair <$> signed_pairs query)).

Example canonical_query_example :
  canonical_query (Some (b "b=2+x&auth_sig=zz&a=%26&a=1")) = b "a=%26&a=1&b=2%20x".
Proof. by vm_compute. Qed.

(** ** Encoding and decoding *)

Lemma percent_decode_char c rest :
  percent_decode (strict_encode [c] ++ rest) = c :: percent_decode rest.
Proof. destruct c; reflexivity. Qed.

Lemma strict_encode_cons c v : strict_encode (c :: v) = strict_encode [c] ++ strict_encode v.
Proof. cbn [strict_encode]. by destruct (unreserved c). Qed.

Lemma percent_decode_encode v : percent_decode (strict_encode v) = v.
Proof.
  induction v as [|c v IH]; [done|]. by rewrite strict_encode_cons, percent_decode_char, IH.
Qed.

Lemma form_decode_encode v : utf8_valid v = true → form_decode (strict_encode v) = v.
Proof. intros Hv. unfold form_decode. rewrite percent_decode_encode. by apply from_utf8_lossy_valid. Qed.

#[export] Instance strict_encode_inj : Inj (=) (=) strict_encode.
Proof. intros v w E. by rewrite <-(percent_decode_encode v), E, percent_decode_encode. Qed.

Lemma strict_encode_clean v : Forall (λ c, c ≠ "&"%byte ∧ c ≠ "="%byte ∧ c ≠ Byte.x00) (strict_encode v).
Proof.
  induction v as [|c v IH]; [constructor|]. rewrite strict_encode_cons. apply Forall_app. split; [|done].
  clear. destruct c; vm_compute; repeat constructor; done.
Qed.

(** ** Splitting what was joined *)
Lemma byte_eqb_refl c : Byte.eqb c c = true.
Proof. by apply Byte.byte_dec_lb. Qed.

Lemma byte_eqb_ne x c : x ≠ c → Byte.eqb x c = false.
Proof.
  intros Hne. destruct (Byte.eqb x c) eqn:E; [|done]. by apply Byte.byte_dec_bl in E.
Qed.

Lemma split_clean c l : Forall (λ x, x ≠ c) l → split c l = [l].
Proof. induction 1 as [|x l Hx Hl IH]; simpl; [done|]. by rewrite byte_eqb_ne, IH. Qed.

Lemma split_app c l rest : Forall (λ x, x ≠ c) l → split c (l ++ c :: rest) = l :: split c rest.
Proof.
  induction 1 as [|x l Hx Hl IH]; simpl; [by rewrite byte_eqb_refl|]. by rewrite byte_eqb_ne, IH.
Qed.

Lemma split_join c parts :
  parts ≠ [] → Forall (Forall (λ x, x ≠ c)) parts → split c (join c parts) = parts.
Proof.
  intros Hne Hall. induction Hall as [|part parts Hp Hall IH]; [done|].
  destruct parts as [|part' parts]; [by apply split_clean|].
  change (split c (part ++ c :: join c (part' :: parts)) = part :: part' :: parts).
  by rewrite split_app, IH.
Qed.

Lemma split_once_app c k v : Forall (λ x, x ≠ c) k → split_once c (k ++ c :: v) = Some (k, v).
Proof. induction 1 as [|x k Hx Hk IH]; simpl; [by rewrite byte_eqb_refl|]. by rewrite byte_eqb_ne, IH. Qed.

(** ** The order of pairs *)
Lemma string_of_list_byte_inj x y : string_of_list_byte x = string_of_list_byte y → x = y.
Proof.
  intros E. by rewrite <-(list_byte_of_string_of_list_byte x), E, list_byte_of_string_of_list_byte.
Qed.

#[export] Instance bytes_le_total : Total bytes_le.
Proof. intros x y. apply (total String.le). Qed.
#[export] Instance bytes_le_trans : Transitive bytes_le.
Proof. intros x y z. apply (transitivity (R := String.le)). Qed.
#[export] Instance bytes_le_anti : AntiSymm (=) bytes_le.
Proof. intros x y ? ?. apply string_of_list_byte_inj. by apply (anti_symm String.le). Qed.

#[export] Instance pair_le_total : Total pair_le.
Proof.
  intros [x1 x2] [y1 y2]. unfold pair_le. cbn [fst snd]. destruct (decide (x1 = y1)) as [->|Hne].
  - rewrite decide_True by done. apply (total bytes_le).
  - rewrite decide_False by done. apply (total bytes_le).
Qed.
#[export] Instance pair_le_trans : Transitive pair_le.
Proof.
  intros [x1 x2] [y1 y2] [z1 z2]. unfold pair_le. cbn [fst snd].
  destruct (decide (x1 = y1)) as [->|Hxy], (decide (y1 = z1)) as [->|Hyz]; intros H1 H2.
  - by transitivity y2.
  - done.
  - by rewrite decide_False.
  - assert (Hxz : bytes_le x1 z1) by by transitivity y1.
    destruct (decide (x1 = z1)) as [->|]; [|done]. destruct Hxy. by apply (anti_symm bytes_le).
Qed.
#[export] Instance pair_le_anti : AntiSymm (=) pair_le.
Proof.
  intros [x1 x2] [y1 y2]. unfold pair_le. cbn [fst snd]. destruct (decide (x1 = y1)) as [->|Hne].
  - rewrite decide_True by done. intros. f_equal. by apply (anti_symm bytes_le).
  - rewrite decide_False by done. intros. destruct Hne. by apply (anti_symm bytes_le).
Qed.

(** ** What the canonical query determines *)
Lemma form_decode_pairs_valid q :
  Forall (λ p, utf8_valid p.1 = true ∧ utf8_valid p.2 = true) (form_decode_pairs q).
Proof.
  unfold form_decode_pairs. destruct (decide _); [constructor|]. apply Forall_fmap, Forall_true.
  intros part. simpl. destruct (default _ _). split; apply from_utf8_lossy_is_valid.
Qed.

Lemma encode_pair_inj p q : encode_pair p = encode_pair q → p = q.
Proof. destruct p, q. unfold encode_pair. simpl. by intros [= ->%(inj _) ->%(inj _)]. Qed.

(** Reading a list of encoded pairs back from its text. *)
Lemma form_decode_pairs_join (ps : list (bytes * bytes)) :
  Forall (λ p, utf8_valid p.1 = true ∧ utf8_valid p.2 = true) ps →
  form_decode_pairs (join "&" (format_pair <$> (encode_pair <$> ps))) = ps.
Proof.
  intros Hv. unfold form_decode_pairs. destruct ps as [|p ps]; [done|].
  rewrite decide_False.
  2:{ destruct ps; simpl; unfold format_pair; destruct (encode_pair p).1; done. }
  rewrite split_join; [|done|].
  - rewrite <-!list_fmap_compose. rewrite <-(list_fmap_id (p :: ps)) at 2.
    apply list_fmap_ext. intros i q Hq%list_elem_of_lookup_2. rewrite Forall_forall in Hv.
    destruct (Hv q Hq) as [H1 H2]. destruct q as [k v]. unfold format_pair, encode_pair. simpl in *.
    rewrite split_once_app; simpl; [by rewrite !form_decode_encode|].
    eapply Forall_impl; [apply strict_encode_clean|]. naive_solver.
  - apply Forall_fmap, Forall_fmap, Forall_true. intros q. unfold format_pair, encode_pair. simpl.
    apply Forall_app. split; [|constructor; [done|]];
      (eapply Forall_impl; [apply strict_encode_clean|]; naive_solver).
Qed.

(** The pairs read back from the canonical query are the signed ones. *)
Lemma canonical_query_decoded q :
  ∃ ps, ps ≡ₚ signed_pairs q ∧ form_decode_pairs (canonical_query q) = ps ∧
    canonical_query q = join "&" (format_pair <$> (encode_pair <$> ps)).
Proof.
  unfold canonical_query.
  destruct (Permutation_map_inv encode_pair (signed_pairs q)
    (merge_sort_Permutation pair_le (encode_pair <$> signed_pairs q))) as (ps & Hps & Hperm).
  assert (Hsort : merge_sort pair_le (encode_pair <$> signed_pairs q) = encode_pair <$> ps) by exact Hps.
  exists ps. rewrite Hsort. split_and!; [done| |done].
  apply form_decode_pairs_join. rewrite <-Hperm. apply Forall_forall.
  intros p [_ Hp]%list_elem_of_filter. by apply (proj1 (Forall_forall _ _) (form_decode_pairs_valid (default [] q))).
Qed.

(** the canonical query binds exactly the request's own pairs: two queries
    have the same canonical form iff, credential parameters aside, they carry
    the same decoded pairs with the same multiplicity. No escaped character can
    forge a pair boundary, and order and spelling do not matter. *)
Theorem canonical_query_binds_pairs q1 q2 :
  canonical_query q1 = canonical_query q2 ↔ signed_pairs q1 ≡ₚ signed_pairs q2.
Proof.
  split.
  - intros Heq. destruct (canonical_query_decoded q1) as (ps1 & <- & <- & _).
    destruct (canonical_query_decoded q2) as (ps2 & <- & <- & _). by rewrite Heq.
  - intros Hperm. unfold canonical_query. do 2 f_equal.
    apply (Sorted_unique pair_le); [apply Sorted_merge_sort, _..|].
    by rewrite !merge_sort_Permutation, Hperm.
Qed.

(** the canonical form is a fixed point: a client that signs the
    canonical query and sends it has it verified unchanged. *)
Theorem canonical_query_idempotent q : canonical_query (Some (canonical_query q)) = canonical_query q.
Proof.
  destruct (canonical_query_decoded q) as (ps & Hperm & Hdec & _).
  unfold canonical_query at 1. unfold signed_pairs at 1. cbn [default from_option]. unfold id. rewrite Hdec.
  assert (Hf : filter (λ p, ¬ is_auth_key p.1) ps = ps).
  { apply filter_all. rewrite Hperm. apply Forall_forall. intros p Hp%list_elem_of_filter. tauto. }
  rewrite Hf. unfold canonical_query. do 2 f_equal.
  apply (Sorted_unique pair_le); [apply Sorted_merge_sort, _..|].
  by rewrite !merge_sort_Permutation, Hperm.
Qed.
