(* ===== verification/DeviceAuth.v ===== *)
(** * Device authentication

    Model of src/src/device_auth.rs: the single-use nonce cache, the checks a
    credential passes before and after the body is read, the payload a
    signature covers and the middleware that puts them together (with device
    authentication enabled). Clocks are arguments: one reading per call of
    [unix_secs]. Ed25519, SHA-256, base64 and the header rules of the http
    crate are the class [AuthCrypto]; the device registry is a lookup function. *)
From S2P Require Import Prelude Bytes Query.
From Stdlib Require Import Strings.Byte.
Local Open Scope N_scope.

Definition MAX_CLOCK_SKEW_SECS : N := 300.
Definition MAX_AUTH_BODY : N := 32 * 1024 * 1024.
Definition NONCE_DEVICE_LIMIT : N := 8192.
Definition NONCE_CACHE_LIMIT : N := 65536.

(** ** The nonce cache *)
Definition claim_key : Type := N * bytes * bytes.

(** [by_time] is a [BTreeSet]: its elements in ascending order. *)
Record NonceCache : Type := {
  by_time : list claim_key;
  by_device : gmap bytes (gset bytes);
}.
Definition NonceCache_default : NonceCache := {| by_time := []; by_device := ∅ |}.

Definition key_lt (x y : claim_key) : bool :=
  (x.1.1 <? y.1.1) ||
  ((x.1.1 =? y.1.1) && bool_decide (pair_le (x.1.2, x.2) (y.1.2, y.2) ∧ (x.1.2, x.2) ≠ (y.1.2, y.2))).

(** [BTreeSet::insert]. *)
Fixpoint btree_insert (x : claim_key) (l : list claim_key) : list claim_key :=
  match l with
  | [] => [x]
  | y :: l' =>
      if key_lt x y then x :: l
      else if key_lt y x then y :: btree_insert x l'
      else l
  end.

(** Forgetting one nonce of a device, and the device with its last nonce. *)
Definition forget (device_id nonce : bytes) (m : gmap bytes (gset bytes)) : gmap bytes (gset bytes) :=
  match m !! device_id with
  | Some nonces =>
      let nonces := nonces ∖ {[nonce]} in
      if decide (nonces = ∅) then delete device_id m else <[device_id := nonces]> m
  | None => m
  end.

Fixpoint evict_loop (window_start : N) (times : list claim_key) (devices : gmap bytes (gset bytes)) :
    NonceCache :=
  match times with
  | [] => {| by_time := []; by_device := devices |}
  | (t, device_id, nonce) :: rest =>
      if window_start <=? t then {| by_time := times; by_device := devices |}
      else evict_loop window_start rest (forget device_id nonce devices)
  end.

Definition evict_before (window_start : N) (self : NonceCache) : NonceCache :=
  evict_loop window_start (by_time self) (by_device self).

Definition claim (device_id : bytes) (timestamp : N) (nonce : bytes) : M NonceCache AppError unit := λ self,
  let held := by_device self !! device_id in
  if match held with Some nonces => bool_decide (nonce ∈ nonces) | None => false end
  then (self, Err Unauthenticated)
  else if match held with Some nonces => NONCE_DEVICE_LIMIT <=? N.of_nat (size nonces) | None => false end
  then (self, Err (RateLimited "too many signed requests from this device; retry later" 1))
  else if NONCE_CACHE_LIMIT <=? N.of_nat (length (by_time self))
  then (self, Err (ResourceExhausted "device auth nonce cache is full; retry later"))
  else ({| by_time := btree_insert (timestamp, device_id, nonce) (by_time self);
           by_device := <[device_id := {[nonce]} ∪ default ∅ held]> (by_device self) |}, Ok tt).

Definition claim_nonce (now : N) (device_id : bytes) (timestamp : N) (nonce : bytes) :
    M NonceCache AppError unit := λ seen,
  if decide (nonce = []) then (seen, Err Unauthenticated)
  else if 64 <? N.of_nat (length nonce) then (seen, Err Unauthenticated)
  else claim device_id timestamp nonce (evict_before (now - MAX_CLOCK_SKEW_SECS) seen).

(** ** Reading a body not yet verified *)

(** The room [UnverifiedBodies::read] holds: the declared length, or the
    maximum when it is unknown. *)
Definition body_reserve (upper : option N) : N :=
  match upper with Some u => N.min u MAX_AUTH_BODY | None => MAX_AUTH_BODY end.

(** [acquired]: the budget had room within the wait. [received]: the body
    arrived within the deadline ([None] when not), and fit the limit. *)
Definition read_unverified_body (get_or_head : bool) (lower : N) (upper : option N)
    (acquired : bool) (received : option (option bytes)) : result AppError bytes :=
  if get_or_head && negb (bool_decide (upper = Some 0))
  then Err (InvalidRequest "GET and HEAD requests must not carry a body")
  else if MAX_AUTH_BODY <? lower then Err (PayloadTooLarge "request body is too large")
  else if negb (body_reserve upper =? 0) && negb acquired then Err TransportBusy
  else
    match received with
    | None => Err RequestTimeout
    | Some None => Err (InvalidRequest "request body is too large")
    | Some (Some body) => Ok body
    end.

(** ** Credentials *)

(** [str::parse::<u64>]. *)
Definition digit (c : byte) : option N :=
  if in_range 0x30 0x39 c then Some (byte_val c - 0x30) else None.
Fixpoint parse_digits (acc : N) (l : bytes) : option N :=
  match l with
  | [] => Some acc
  | c :: l =>
      d ← digit c;
      let acc := acc * 10 + d in
      if u64_MAX <? acc then None else parse_digits acc l
  end.
Definition parse_u64 (l : bytes) : option N :=
  let l := match l with c :: l' => if Byte.eqb c "+" then l' else l | [] => l end in
  match l with [] => None | _ => parse_digits 0 l end.

Definition NUL : bytes := [Byte.x00].
Definition SIGN_DOMAIN : bytes := Eval vm_compute in b "todex.device-auth.v1" ++ [Byte.x00].

Definition signed_payload_for_hash
    (device_id method path canonical_query timestamp nonce body_hash : bytes) : bytes :=
  SIGN_DOMAIN ++ device_id ++ NUL ++ method ++ NUL ++ path ++ NUL ++ canonical_query ++ NUL
  ++ timestamp ++ NUL ++ nonce ++ NUL ++ body_hash.

Record Credential : Type := {
  cred_device_id : bytes; cred_timestamp : bytes; cred_nonce : bytes; cred_signature : bytes;
}.

Record AuthContext : Type := { principal_id : bytes; tenant_id : bytes; token_id : bytes }.

Class AuthCrypto := {
  VerifyingKey : Type;
  Signature : Type;
  key_from_bytes : bytes → option VerifyingKey;
  signature_from_slice : bytes → option Signature;
  verify_strict : VerifyingKey → bytes → Signature → bool;
  sha256 : bytes → bytes;
  base64_encode : bytes → bytes;           (* URL_SAFE_NO_PAD *)
  base64_decode : bytes → option bytes;
  to_str : bytes → option bytes;           (* [HeaderValue::to_str] *)
  header_value_ok : bytes → bool;          (* [HeaderValue::from_str] succeeds *)
}.

(** base64 decoding is strict: only the encoding of a value decodes to it. *)
Class AuthCryptoLaws `{AuthCrypto} : Prop := {
  base64_canonical s x : base64_decode s = Some x → base64_encode x = s;
}.

(** A header map: the first value of each name. *)
Abbreviation HeaderMap := (gmap bytes bytes).
Definition HEADER_DEVICE_ID : bytes := Eval vm_compute in b "x-todex-device-id".
Definition HEADER_TIMESTAMP : bytes := Eval vm_compute in b "x-todex-auth-ts".
Definition HEADER_NONCE : bytes := Eval vm_compute in b "x-todex-auth-nonce".
Definition HEADER_SIGNATURE : bytes := Eval vm_compute in b "x-todex-auth-sig".
Definition HEADER_CONTENT_SHA256 : bytes := Eval vm_compute in b "x-todex-content-sha256".
Definition VERIFIED_HEADER : bytes := Eval vm_compute in b "x-todex-verified-device".

Section authenticator.
Context `{AuthCrypto}.
(** [registry.get(id)]: the public key of a paired device. *)
Context (registry_get : bytes → result AppError (option bytes)).
Context (boot_secs : N).

Record PendingCredential : Type := {
  pc_credential : Credential; pc_timestamp : N; pc_key : VerifyingKey; pc_signature : Signature;
}.

Definition from_headers (headers : HeaderMap) (query : option bytes) (name header : bytes) : option bytes :=
  match headers !! header ≫= to_str with
  | Some v => Some v
  | None => query_value query name
  end.

Definition extract (headers : HeaderMap) (query : option bytes) : option Credential :=
  device_id ← from_headers headers query (b "device_id") HEADER_DEVICE_ID;
  timestamp ← from_headers headers query (b "auth_ts") HEADER_TIMESTAMP;
  nonce ← from_headers headers query (b "auth_nonce") HEADER_NONCE;
  signature ← from_headers headers query (b "auth_sig") HEADER_SIGNATURE;
  Some {| cred_device_id := device_id; cred_timestamp := timestamp; cred_nonce := nonce;
          cred_signature := signature |}.

Definition parse_public_key (value : bytes) : option bytes :=
  if negb (N.of_nat (length value) =? 43) then None
  else
    key ← base64_decode value;
    if negb (N.of_nat (length key) =? 32) then None
    else _ ← key_from_bytes key; Some key.

(** [now.abs_diff(timestamp)]. *)
Definition abs_diff (x y : N) : N := if x <? y then y - x else x - y.

Definition check_credential (now : N) (headers : HeaderMap) (query : option bytes) :
    result AppError PendingCredential :=
  credential ← ok_or (extract headers query) Unauthenticated;
  timestamp ← ok_or (parse_u64 (cred_timestamp credential)) Unauthenticated;
  _ ← guard_err (negb ((MAX_CLOCK_SKEW_SECS <? abs_diff now timestamp) || (timestamp <? boot_secs)))
        (AuthTimestampRejected now);
  record ← registry_get (cred_device_id credential);
  public_key ← ok_or record Unauthenticated;
  public_key ← ok_or (parse_public_key public_key) Unauthenticated;
  key ← ok_or (key_from_bytes public_key) Unauthenticated;
  raw ← ok_or (base64_decode (cred_signature credential)) Unauthenticated;
  signature ← ok_or (signature_from_slice raw) Unauthenticated;
  Ok {| pc_credential := credential; pc_timestamp := timestamp; pc_key := key; pc_signature := signature |}.

Definition verify_body_hash (now : N) (self : PendingCredential) (method path : bytes)
    (query : option bytes) (body_hash : bytes) : M NonceCache AppError AuthContext :=
  let credential := pc_credential self in
  let payload := signed_payload_for_hash (cred_device_id credential) method path (canonical_query query)
                   (cred_timestamp credential) (cred_nonce credential) body_hash in
  _ ← lift_result (guard_err (verify_strict (pc_key self) payload (pc_signature self)) Unauthenticated);
  _ ← claim_nonce now (cred_device_id credential) (pc_timestamp self) (cred_nonce credential);
  mret {| principal_id := cred_device_id credential; tenant_id := b "local";
          token_id := cred_device_id credential |}.

Definition verify (now : N) (self : PendingCredential) (method path : bytes) (query : option bytes)
    (body : bytes) : M NonceCache AppError AuthContext :=
  verify_body_hash now self method path query (base64_encode (sha256 body)).

(** [authenticate]: both clock readings are [now]. *)
Definition authenticate (now : N) (method path : bytes) (query : option bytes) (headers : HeaderMap)
    (body : bytes) : M NonceCache AppError AuthContext :=
  pending ← lift_result (check_credential now headers query);
  verify now pending method path query body.

(** A request as the middleware sees it; [body] is what
    [read_unverified_body] answers. *)
Record Request : Type := {
  rq_method : bytes; rq_path : bytes; rq_query : option bytes; rq_headers : HeaderMap;
  rq_body : result AppError bytes;
}.

(** The request handed to the handlers: headers and body. *)
Record Forwarded : Type := { fw_headers : HeaderMap; fw_body : bytes }.

(** [checked] and [claimed] are the clock readings of [check_credential] and
    of [claim_nonce]: the body is read between them unless its hash was
    declared. *)
Definition device_auth_middleware (checked claimed : N) (request : Request) :
    M NonceCache AppError Forwarded :=
  let headers := delete VERIFIED_HEADER (rq_headers request) in
  pending ← lift_result (check_credential checked headers (rq_query request));
  '(auth, bytes) ←
    match headers !! HEADER_CONTENT_SHA256 with
    | Some value =>
        declared ← lift_result (ok_or (to_str value) Unauthenticated);
        digest ← lift_result (ok_or (base64_decode declared ≫= λ d,
                   if N.of_nat (length d) =? 32 then Some d else None) Unauthenticated);
        auth ← verify_body_hash claimed pending (rq_method request) (rq_path request) (rq_query request)
                 declared;
        bytes ← lift_result (rq_body request);
        _ ← lift_result (guard_err (bool_decide (sha256 bytes = digest)) Unauthenticated);
        mret (auth, bytes)
    | None =>
        bytes ← lift_result (rq_body request);
        auth ← verify claimed pending (rq_method request) (rq_path request) (rq_query request) bytes;
        mret (auth, bytes)
    end;
  _ ← lift_result (guard_err (header_value_ok (principal_id auth)) Unauthenticated);
  mret {| fw_headers := <[VERIFIED_HEADER := principal_id auth]> headers; fw_body := bytes |}.

(** [verified_context] with authentication enabled. *)
Definition verified_context (headers : HeaderMap) : result AppError AuthContext :=
  device_id ← ok_or ((headers !! VERIFIED_HEADER ≫= to_str) ≫= λ v,
                if decide (v = []) then None else Some v) Unauthenticated;
  Ok {| principal_id := device_id; tenant_id := b "local"; token_id := device_id |}.
End authenticator.

(** ** The nonce cache is a set of claims *)

(** [(t, d, n)] is a live claim. *)
Definition held (c : NonceCache) (t : N) (d n : bytes) : Prop := (t, d, n) ∈ by_time c.

(** Both indexes hold the same claims, one timestamp per device and nonce, in
    timestamp order, within the limits. *)
Record cache_inv (c : NonceCache) : Prop := {
  inv_order : StronglySorted (λ x y : claim_key, x.1.1 ≤ y.1.1) (by_time c);
  inv_unique : NoDup ((λ x : claim_key, (x.1.2, x.2)) <$> by_time c);
  inv_devices d n : (∃ ns, by_device c !! d = Some ns ∧ n ∈ ns) ↔ ∃ t, held c t d n;
  inv_nonempty d ns : by_device c !! d = Some ns → ns ≠ ∅;
  inv_device_limit d ns : by_device c !! d = Some ns → N.of_nat (size ns) ≤ NONCE_DEVICE_LIMIT;
  inv_limit : N.of_nat (length (by_time c)) ≤ NONCE_CACHE_LIMIT;
}.

Lemma cache_inv_default : cache_inv NonceCache_default.
Proof.
  split; unfold held; simpl; try by intros; simplify_map_eq.
  - constructor.
  - constructor.
  - intros d n. split; [by intros (? & ? & _)|]. intros [t Ht]. by apply not_elem_of_nil in Ht.
Qed.

Lemma key_lt_time x y : key_lt x y = true → x.1.1 ≤ y.1.1.
Proof.
  unfold key_lt. intros [Hlt%N.ltb_lt|[He%N.eqb_eq _]%andb_prop]%orb_prop; lia.
Qed.

Lemma key_lt_total x y : key_lt x y = false → key_lt y x = false → x = y.
Proof.
  destruct x as [[t1 d1] n1], y as [[t2 d2] n2]. unfold key_lt. cbn [fst snd].
  intros [H1 H2]%orb_false_iff [H3 H4]%orb_false_iff. apply N.ltb_ge in H1, H3.
  assert (t1 = t2) as -> by lia. rewrite N.eqb_refl in *. simpl in H2, H4.
  apply bool_decide_eq_false in H2, H4.
  destruct (decide ((d1, n1) = (d2, n2))) as [[= -> ->]|Hne]; [done|].
  destruct (total pair_le (d1, n1) (d2, n2)); exfalso; [apply H2|apply H4]; split; congruence.
Qed.

Lemma elem_of_btree_insert x y l : y ∈ btree_insert x l ↔ y = x ∨ y ∈ l.
Proof.
  induction l as [|z l IH]; cbn [btree_insert]; [by rewrite list_elem_of_singleton, elem_of_nil; tauto|].
  destruct (key_lt x z) eqn:E1; [by rewrite elem_of_cons|].
  destruct (key_lt z x) eqn:E2; [rewrite !elem_of_cons, IH; tauto|].
  rewrite (key_lt_total _ _ E1 E2), !elem_of_cons. tauto.
Qed.

Lemma btree_insert_sorted x l :
  StronglySorted (λ x y : claim_key, x.1.1 ≤ y.1.1) l →
  StronglySorted (λ x y : claim_key, x.1.1 ≤ y.1.1) (btree_insert x l).
Proof.
  induction 1 as [|z l Hl IH Hz]; cbn [btree_insert]; [repeat constructor|].
  destruct (key_lt x z) eqn:E1.
  - apply key_lt_time in E1. constructor; [by constructor|]. constructor; [done|].
    eapply Forall_impl; [exact Hz|]. simpl. intros; lia.
  - destruct (key_lt z x) eqn:E2; [|by constructor]. apply key_lt_time in E2.
    constructor; [done|]. apply Forall_forall. intros y [->|Hy]%elem_of_btree_insert; [done|].
    by apply (proj1 (Forall_forall _ _) Hz).
Qed.

(** A new claim is added once. *)
Lemma btree_insert_fresh x l : x ∉ l → btree_insert x l ≡ₚ x :: l.
Proof.
  induction l as [|z l IH]; cbn [btree_insert]; [done|]. intros [Hne Hl]%not_elem_of_cons.
  destruct (key_lt x z) eqn:E1; [done|]. destruct (key_lt z x) eqn:E2.
  - rewrite IH by done. apply Permutation_swap.
  - by destruct Hne; apply key_lt_total.
Qed.

Lemma lookup_forget d n m d' :
  forget d n m !! d' =
    if decide (d' = d)
    then m !! d ≫= λ ns, if decide (ns ∖ {[n]} = ∅) then None else Some (ns ∖ {[n]})
    else m !! d'.
Proof.
  unfold forget. destruct (decide (d' = d)) as [->|Hne].
  - destruct (m !! d) as [ns|] eqn:E; simpl; [|done].
    destruct (decide _); [by rewrite lookup_delete_eq|by rewrite lookup_insert_eq].
  - destruct (m !! d) as [ns|]; [|done].
    destruct (decide _); [by rewrite lookup_delete_ne|by rewrite lookup_insert_ne].
Qed.

Lemma forget_member (o : option (gset bytes)) (n n' : bytes) :
  (∃ ns, (o ≫= λ ns, if decide (ns ∖ {[n]} = ∅) then None else Some (ns ∖ {[n]})) = Some ns ∧ n' ∈ ns) ↔
  n' ≠ n ∧ ∃ ns, o = Some ns ∧ n' ∈ ns.
Proof.
  destruct o as [ns|]; simpl.
  2:{ split; [by intros (? & ? & _)|by intros (_ & ? & ? & _)]. }
  destruct (decide (ns ∖ {[n]} = ∅)) as [E|E].
  - split; [by intros (? & ? & _)|]. intros (? & ns' & [= <-] & ?). set_solver.
  - split.
    + intros (ns' & [= <-] & ?%elem_of_difference). split; [set_solver|]. exists ns. tauto.
    + intros (? & ns' & [= <-] & ?). exists (ns ∖ {[n]}). split; [done|set_solver].
Qed.

(** Popping the oldest claim forgets exactly that claim. *)
Lemma cache_inv_pop t d n rest devices :
  cache_inv {| by_time := (t, d, n) :: rest; by_device := devices |} →
  cache_inv {| by_time := rest; by_device := forget d n devices |}.
Proof.
  intros [Hord Huniq Hdev Hne Hlim Htot]; simpl in *.
  apply StronglySorted_inv in Hord as [Hord _].
  apply NoDup_cons in Huniq as [Hnot Huniq]. cbn [fst snd] in Hnot.
  assert (Hfresh : ∀ t', (t', d, n) ∉ rest).
  { intros t' Hin. apply Hnot. apply list_elem_of_fmap. by exists (t', d, n). }
  split; simpl; [done|done| | | |].
  - intros d' n'. specialize (Hdev d' n'). unfold held in *; simpl in *.
    setoid_rewrite elem_of_cons in Hdev. rewrite lookup_forget.
    destruct (decide (d' = d)) as [->|Hd].
    + transitivity (n' ≠ n ∧ ∃ ns, devices !! d = Some ns ∧ n' ∈ ns).
      * apply forget_member.
      * rewrite Hdev. split; [|].
        -- intros (Hn & t' & [[= ]|Hin]); [done|eauto].
        -- intros [t' Hin]. split; [|eauto]. intros ->. by apply (Hfresh t').
    + rewrite Hdev. split; intros [t' Ht']; exists t'; [|by right]. by destruct Ht' as [[= ]|].
  - intros d' ns. rewrite lookup_forget. destruct (decide (d' = d)); [|by apply Hne].
    intros (ns' & _ & Hns)%bind_Some. by destruct (decide _); simplify_eq.
  - intros d' ns. rewrite lookup_forget. destruct (decide (d' = d)); [|by apply Hlim].
    intros (ns' & Hd & Hns)%bind_Some. destruct (decide _); simplify_eq. apply Hlim in Hd.
    assert (size (ns' ∖ {[n]}) ≤ size ns')%nat by (apply subseteq_size; set_solver). lia.
  - lia.
Qed.

Lemma evict_before_spec ws c :
  cache_inv c →
  cache_inv (evict_before ws c) ∧
  ∀ t d n, held (evict_before ws c) t d n ↔ held c t d n ∧ ws ≤ t.
Proof.
  unfold evict_before, held. destruct c as [times devices]. simpl. revert devices.
  induction times as [|[[t d] n] rest IH]; intros devices Hinv; cbn [evict_loop].
  - split; [done|]. simpl. intros. rewrite elem_of_nil. tauto.
  - destruct (N.leb_spec ws t) as [Hle|Hlt].
    + split; [done|]. simpl. intros t' d' n'. split; [|tauto]. intros Hin. split; [done|].
      pose proof (inv_order _ Hinv) as [_ Hall]%StronglySorted_inv.
      apply elem_of_cons in Hin as [[= -> -> ->]|Hin]; [done|].
      pose proof (proj1 (Forall_forall _ _) Hall _ Hin) as Hx. simpl in Hx. lia.
    + destruct (IH _ (cache_inv_pop _ _ _ _ _ Hinv)) as [IH1 IH2]. split; [done|].
      intros t' d' n'. rewrite IH2, elem_of_cons. split; [tauto|]. intros [[[= -> -> ->]|Hin] Hws]; [lia|done].
Qed.

(** Recording a claim of a device and nonce that hold none. *)
Lemma cache_inv_insert d t n c :
  cache_inv c → (∀ t', ¬ held c t' d n) →
  N.of_nat (size (default ∅ (by_device c !! d))) < NONCE_DEVICE_LIMIT →
  N.of_nat (length (by_time c)) < NONCE_CACHE_LIMIT →
  cache_inv {| by_time := btree_insert (t, d, n) (by_time c);
               by_device := <[d := {[n]} ∪ default ∅ (by_device c !! d)]> (by_device c) |}.
Proof.
  intros [Hord Huniq Hdev Hne Hlim Htot] Hfree Hsize Hlen.
  assert (Hperm := btree_insert_fresh (t, d, n) (by_time c) (Hfree t)).
  split; unfold held in *; simpl.
  - by apply btree_insert_sorted.
  - rewrite Hperm. simpl. constructor; [|done].
    intros ([[t' d'] n'] & [= -> ->] & Hin)%list_elem_of_fmap. by apply (Hfree t').
  - intros d' n'. setoid_rewrite elem_of_btree_insert. specialize (Hdev d' n').
    destruct (decide (d' = d)) as [->|Hd].
    + rewrite lookup_insert_eq. destruct (decide (n' = n)) as [->|Hn].
      * split; [intros _; exists t; by left|intros _; eexists; split; [done|set_solver]].
      * transitivity (∃ ns, by_device c !! d = Some ns ∧ n' ∈ ns).
        -- destruct (by_device c !! d) as [ns|]; simpl; clear -Hn.
           ++ split; intros (ns' & [= <-] & ?); eexists; (split; [done|set_solver]).
           ++ split; [intros (ns' & [= <-] & ?); set_solver|by intros (? & ? & _)].
        -- rewrite Hdev. split; intros [t' Ht']; exists t'; [by right|].
           destruct Ht' as [[= ]|?]; done.
    + rewrite lookup_insert_ne by done. rewrite Hdev.
      split; intros [t' Ht']; exists t'; [by right|]. destruct Ht' as [[= ]|?]; done.
  - intros d' ns. rewrite lookup_insert_Some. intros [[<- <-]|[_ Hd]]; [clear; set_solver|by eapply Hne].
  - intros d' ns. rewrite lookup_insert_Some. intros [[<- <-]|[_ Hd]]; [|by eapply Hlim].
    assert (size ({[n]} ∪ default ∅ (by_device c !! d)) ≤ 1 + size (default ∅ (by_device c !! d)))%nat.
    { rewrite size_union_alt, size_singleton. assert (Hs := subseteq_size
        (default ∅ (by_device c !! d) ∖ {[n]}) (default ∅ (by_device c !! d)) ltac:(clear; set_solver)). lia. }
    lia.
  - rewrite Hperm. simpl. lia.
Qed.

(** What [claim] answers, and what it records. *)
Lemma claim_spec d t n c :
  cache_inv c →
  let count := N.of_nat (size (default ∅ (by_device c !! d))) in
  match claim d t n c with
  | (c', Ok _) => cache_inv c' ∧ (∀ t', ¬ held c t' d n) ∧
      (∀ t' d' n', held c' t' d' n' ↔ (t', d', n') = (t, d, n) ∨ held c t' d' n')
  | (c', Err e) => c' = c ∧
      ((e = Unauthenticated ∧ ∃ t', held c t' d n) ∨
       (∃ m s, e = RateLimited m s ∧ NONCE_DEVICE_LIMIT ≤ count) ∨
       (∃ m, e = ResourceExhausted m ∧ NONCE_CACHE_LIMIT ≤ N.of_nat (length (by_time c))))
  end.
Proof.
  intros Hinv. pose proof (inv_devices _ Hinv d n) as Hdev. simpl. unfold claim.
  set (o := by_device c !! d) in *.
  destruct (match o with Some nonces => bool_decide (n ∈ nonces) | None => false end) eqn:Hin.
  { split; [done|]. left. split; [done|]. apply Hdev. destruct o as [ns|]; [|done].
    apply bool_decide_eq_true in Hin. eauto. }
  assert (Hfree : ∀ t', ¬ held c t' d n).
  { intros t' Ht'. destruct (proj2 Hdev) as (ns & Ho & Hn); [eauto|]. rewrite Ho in Hin.
    by apply bool_decide_eq_false in Hin. }
  destruct (match o with Some nonces => NONCE_DEVICE_LIMIT <=? N.of_nat (size nonces) | None => false end)
    eqn:Hsize.
  { split; [done|]. right; left. destruct o as [ns|]; [|done]. apply N.leb_le in Hsize. eauto. }
  destruct (N.leb_spec NONCE_CACHE_LIMIT (N.of_nat (length (by_time c)))).
  { split; [done|]. right; right. eauto. }
  split_and!; [|done|intros; apply elem_of_btree_insert].
  apply cache_inv_insert; [done..| |done]. fold o. destruct o as [ns|]; simpl; [|done].
  by apply N.leb_gt in Hsize.
Qed.

Lemma claim_nonce_spec now d t n c :
  cache_inv c →
  match claim_nonce now d t n c with
  | (c', Ok _) => cache_inv c' ∧ (∀ t', held c t' d n → t' < now - MAX_CLOCK_SKEW_SECS) ∧
      (∀ t' d' n', held c' t' d' n' ↔
         (t', d', n') = (t, d, n) ∨ (held c t' d' n' ∧ now - MAX_CLOCK_SKEW_SECS ≤ t'))
  | (c', Err e) => cache_inv c' ∧
      ∀ t' d' n', held c t' d' n' → now - MAX_CLOCK_SKEW_SECS ≤ t' → held c' t' d' n'
  end.
Proof.
  intros Hinv. unfold claim_nonce. destruct (decide (n = [])); [done|].
  destruct (64 <? _); [done|]. set (ws := now - MAX_CLOCK_SKEW_SECS).
  destruct (evict_before_spec ws c Hinv) as [Hev Hheld].
  pose proof (claim_spec d t n _ Hev) as Hc. cbv zeta in Hc. destruct (claim d t n (evict_before ws c)) as [c' [[]|e]].
  - destruct Hc as (Hinv' & Hfree & Hh). split_and!; [done| |].
    + intros t' Ht'. destruct (N.lt_ge_cases t' ws); [done|]. destruct (Hfree t'). by apply Hheld.
    + intros t' d' n'. by rewrite Hh, Hheld.
  - destruct Hc as [-> _]. split; [done|]. intros t' d' n' ? ?. by apply Hheld.
Qed.

(** ** What a signature binds *)
Lemma nul_split (x y r1 r2 : bytes) :
  Byte.x00 ∉ x → Byte.x00 ∉ y → x ++ NUL ++ r1 = y ++ NUL ++ r2 → x = y ∧ r1 = r2.
Proof.
  unfold NUL. simpl. revert y. induction x as [|c x IH]; intros [|d y] Hx Hy Heq; simplify_eq/=; try done.
  - by apply not_elem_of_cons in Hy as [? _].
  - by apply not_elem_of_cons in Hx as [? _].
  - apply not_elem_of_cons in Hx as [_ Hx], Hy as [_ Hy]. destruct (IH y) as [<- <-]; done.
Qed.

Lemma nul_split_last (x y r1 r2 : bytes) :
  Byte.x00 ∉ r1 → Byte.x00 ∉ r2 → x ++ NUL ++ r1 = y ++ NUL ++ r2 → x = y ∧ r1 = r2.
Proof.
  intros H1 H2 Heq. apply (f_equal reverse) in Heq.
  rewrite !reverse_app in Heq. unfold NUL in Heq. rewrite !reverse_singleton, <-!app_assoc in Heq.
  destruct (nul_split (reverse r1) (reverse r2) (reverse x) (reverse y)) as [Hr Hx];
    [by rewrite elem_of_reverse..|exact Heq|].
  split; by apply (inj reverse).
Qed.

(** the signed payload determines the request: device, method, path,
    canonical query, timestamp, nonce and body hash. Only the nonce may contain
    a NUL (it can come percent-encoded from the query). *)
Theorem signed_payload_injective d1 m1 p1 q1 t1 n1 h1 d2 m2 p2 q2 t2 n2 h2 :
  (∀ x, x ∈ [d1; m1; p1; q1; t1; h1; d2; m2; p2; q2; t2; h2] → Byte.x00 ∉ x) →
  signed_payload_for_hash d1 m1 p1 q1 t1 n1 h1 = signed_payload_for_hash d2 m2 p2 q2 t2 n2 h2 →
  d1 = d2 ∧ m1 = m2 ∧ p1 = p2 ∧ q1 = q2 ∧ t1 = t2 ∧ n1 = n2 ∧ h1 = h2.
Proof.
  intros Hnul Heq. unfold signed_payload_for_hash in Heq. apply (inj (app _)) in Heq.
  apply nul_split in Heq as [-> Heq]; [|apply Hnul; set_solver..].
  apply nul_split in Heq as [-> Heq]; [|apply Hnul; set_solver..].
  apply nul_split in Heq as [-> Heq]; [|apply Hnul; set_solver..].
  apply nul_split in Heq as [-> Heq]; [|apply Hnul; set_solver..].
  apply nul_split in Heq as [-> Heq]; [|apply Hnul; set_solver..].
  apply nul_split_last in Heq as [-> ->]; [|apply Hnul; set_solver..]. done.
Qed.

(** ** Single use *)
Record call : Type := { c_now : N; c_device : bytes; c_ts : N; c_nonce : bytes }.
Definition run_call (c : NonceCache) (x : call) : NonceCache * result AppError unit :=
  claim_nonce (c_now x) (c_device x) (c_ts x) (c_nonce x) c.
Definition run_calls (calls : list call) (c : NonceCache) : NonceCache :=
  foldl (λ c x, (run_call c x).1) c calls.

Lemma run_call_inv c x : cache_inv c → cache_inv (run_call c x).1.
Proof.
  intros Hinv. pose proof (claim_nonce_spec (c_now x) (c_device x) (c_ts x) (c_nonce x) c Hinv) as Hc.
  unfold run_call. destruct (claim_nonce _ _ _ _ c) as [c' [[]|e]]; apply Hc.
Qed.

Lemma run_calls_inv calls c : cache_inv c → cache_inv (run_calls calls c).
Proof. revert c. induction calls as [|x calls IH]; intros c Hinv; [done|]. by apply IH, run_call_inv. Qed.

Lemma run_call_keeps c x t d n :
  cache_inv c → held c t d n → c_now x ≤ t + MAX_CLOCK_SKEW_SECS → held (run_call c x).1 t d n.
Proof.
  intros Hinv Hh Hnow. assert (Hw : c_now x - MAX_CLOCK_SKEW_SECS ≤ t) by lia.
  pose proof (claim_nonce_spec (c_now x) (c_device x) (c_ts x) (c_nonce x) c Hinv) as Hc.
  unfold run_call. destruct (claim_nonce _ _ _ _ c) as [c' [[]|e]].
  - destruct Hc as (_ & _ & Hc). apply Hc. by right.
  - destruct Hc as [_ Hc]. by apply Hc.
Qed.

Lemma run_calls_keep calls c t d n :
  cache_inv c → held c t d n → Forall (λ x, c_now x ≤ t + MAX_CLOCK_SKEW_SECS) calls →
  held (run_calls calls c) t d n.
Proof.
  intros Hinv Hh Hall. revert c Hinv Hh. induction Hall as [|x calls Hx Hall IH]; intros c Hinv Hh; [done|].
  apply IH; [by apply run_call_inv|by apply run_call_keeps].
Qed.

Lemma held_refused c x t :
  cache_inv c → held c t (c_device x) (c_nonce x) → c_now x ≤ t + MAX_CLOCK_SKEW_SECS →
  (run_call c x).2 = Err Unauthenticated.
Proof.
  intros Hinv Hh Hnow. unfold run_call, claim_nonce. destruct (decide _); [done|].
  destruct (64 <? _); [done|]. set (ws := c_now x - MAX_CLOCK_SKEW_SECS).
  destruct (evict_before_spec ws c Hinv) as [Hev Hheld].
  destruct (proj2 (inv_devices _ Hev (c_device x) (c_nonce x))) as (ns & Hns & Hin).
  { exists t. apply Hheld. split; [done|]. lia. }
  unfold claim. rewrite Hns. by rewrite bool_decide_eq_true_2.
Qed.

(** a nonce is single use for as long as the credential that claimed it
    is in the window: whatever calls came before, once a claim is accepted a
    second claim of the same device and nonce is refused as unauthenticated,
    provided no clock reading since exceeds the claim's timestamp by more than
    the skew. The cache never drops a claim to make room for another. *)
Theorem nonce_single_use (pre mid : list call) (x y : call) :
  let c0 := run_calls pre NonceCache_default in
  (run_call c0 x).2 = Ok tt →
  c_device y = c_device x → c_nonce y = c_nonce x →
  Forall (λ z, c_now z ≤ c_ts x + MAX_CLOCK_SKEW_SECS) (mid ++ [y]) →
  (run_call (run_calls mid (run_call c0 x).1) y).2 = Err Unauthenticated.
Proof.
  intros c0 Hx Hd Hn [Hmid Hy]%Forall_app. apply Forall_inv in Hy.
  assert (Hinv : cache_inv c0) by apply run_calls_inv, cache_inv_default.
  assert (Hheld : held (run_call c0 x).1 (c_ts x) (c_device x) (c_nonce x)).
  { pose proof (claim_nonce_spec (c_now x) (c_device x) (c_ts x) (c_nonce x) c0 Hinv) as Hc.
    unfold run_call in *. destruct (claim_nonce _ _ _ _ c0) as [c' [[]|e]]; [|done].
    destruct Hc as (_ & _ & Hc). apply Hc. by left. }
  apply (held_refused _ _ (c_ts x)); [by apply run_calls_inv, run_call_inv| |done].
  rewrite Hd, Hn. apply run_calls_keep; [by apply run_call_inv|done|done].
Qed.

(** ** The middleware *)
Section middleware.
Context `{AuthCryptoLaws} (registry_get : bytes → result AppError (option bytes)) (boot_secs : N).

Lemma lift_bind_Ok_inv {S E A B} (r : result E A) (f : A → M S E B) s s' y :
  (lift_result r ≫= f) s = (s', Ok y) → ∃ a, r = Ok a ∧ f a s = (s', Ok y).
Proof. unfold mbind, M_bind, lift_result. destruct r; [by eauto|by intros ?]. Qed.

(** A credential that passed the first checks. *)
Record credential_checked (checked : N) (headers : HeaderMap) (query : option bytes)
    (p : PendingCredential) : Prop := {
  ck_extract : extract headers query = Some (pc_credential p);
  ck_timestamp : parse_u64 (cred_timestamp (pc_credential p)) = Some (pc_timestamp p);
  ck_window : abs_diff checked (pc_timestamp p) ≤ MAX_CLOCK_SKEW_SECS;
  ck_boot : boot_secs ≤ pc_timestamp p;
  ck_device : ∃ value raw, registry_get (cred_device_id (pc_credential p)) = Ok (Some value) ∧
    parse_public_key value = Some raw ∧ key_from_bytes raw = Some (pc_key p);
  ck_signature : ∃ raw, base64_decode (cred_signature (pc_credential p)) = Some raw ∧
    signature_from_slice raw = Some (pc_signature p);
}.

Lemma check_credential_Ok checked headers query p :
  check_credential registry_get boot_secs checked headers query = Ok p →
  credential_checked checked headers query p.
Proof.
  unfold check_credential. intros Hc. res_inv.
  match goal with Hg : negb _ = true |- _ => apply negb_true_iff, orb_false_iff in Hg as [Hw Hb] end.
  apply N.ltb_ge in Hw, Hb. split; simpl; eauto.
Qed.

Lemma verify_body_hash_Ok claimed p method path query h c c' auth :
  verify_body_hash claimed p method path query h c = (c', Ok auth) →
  let cred := pc_credential p in
  verify_strict (pc_key p)
    (signed_payload_for_hash (cred_device_id cred) method path (canonical_query query)
       (cred_timestamp cred) (cred_nonce cred) h) (pc_signature p) = true ∧
  claim_nonce claimed (cred_device_id cred) (pc_timestamp p) (cred_nonce cred) c = (c', Ok tt) ∧
  principal_id auth = cred_device_id cred.
Proof.
  unfold verify_body_hash. simpl. intros (u & Hv & Hc)%lift_bind_Ok_inv. res_inv.
  apply M_bind_Ok_inv in Hc as (c1 & [] & Hclaim & Hret). injection Hret as -> <-. done.
Qed.

(** What an accepted request went through. *)
Lemma middleware_Ok checked claimed rq c c' fw :
  device_auth_middleware registry_get boot_secs checked claimed rq c = (c', Ok fw) →
  ∃ p, credential_checked checked (delete VERIFIED_HEADER (rq_headers rq)) (rq_query rq) p ∧
    let cred := pc_credential p in
    rq_body rq = Ok (fw_body fw) ∧
    verify_strict (pc_key p)
      (signed_payload_for_hash (cred_device_id cred) (rq_method rq) (rq_path rq)
         (canonical_query (rq_query rq)) (cred_timestamp cred) (cred_nonce cred)
         (base64_encode (sha256 (fw_body fw)))) (pc_signature p) = true ∧
    claim_nonce claimed (cred_device_id cred) (pc_timestamp p) (cred_nonce cred) c = (c', Ok tt) ∧
    fw_headers fw !! VERIFIED_HEADER = Some (cred_device_id cred).
Proof.
  unfold device_auth_middleware. intros (p & Hp & Hm)%lift_bind_Ok_inv.
  apply check_credential_Ok in Hp. exists p. split; [done|]. cbv zeta.
  apply M_bind_Ok_inv in Hm as (c1 & [auth body] & Hm & Hrest).
  apply lift_bind_Ok_inv in Hrest as (u & _ & Hret). injection Hret as <- <-.
  cbn [fw_headers fw_body]. rewrite lookup_insert_eq. destruct (delete _ _ !! HEADER_CONTENT_SHA256) as [value|].
  - apply lift_bind_Ok_inv in Hm as (declared & _ & Hm).
    apply lift_bind_Ok_inv in Hm as (digest & Hdig & Hm).
    apply M_bind_Ok_inv in Hm as (c2 & auth' & Hv & Hm).
    apply lift_bind_Ok_inv in Hm as (body' & Hbody & Hm).
    apply lift_bind_Ok_inv in Hm as (u' & Hsha & Hret). injection Hret as <- <- <-.
    apply verify_body_hash_Ok in Hv as (Hsig & Hclaim & ->).
    apply guard_err_Ok_inv, bool_decide_eq_true in Hsha.
    apply ok_or_Ok_inv, bind_Some in Hdig as (d & Hdec & Hd).
    destruct (_ =? 32); simplify_eq. split_and!; try done.
    by rewrite (base64_canonical _ _ Hdec).
  - apply lift_bind_Ok_inv in Hm as (body' & Hbody & Hm).
    apply M_bind_Ok_inv in Hm as (c2 & auth' & Hv & Hret). injection Hret as <- <- <-.
    apply verify_body_hash_Ok in Hv as (Hsig & Hclaim & ->). done.
Qed.

(** C20: a request reaches the handlers marked as device [d] only if it is
    [d]'s: [d] is registered, and its key verified a signature over this very
    request (method, path, canonical query, timestamp, nonce and the hash of the
    body the handlers get), inside the clock window and not older than the
    daemon's start. A marker the client sent is never what the handlers read,
    and this holds both with and without a declared body hash. *)
Theorem forwarded_requests_are_signed checked claimed rq c c' fw d :
  device_auth_middleware registry_get boot_secs checked claimed rq c = (c', Ok fw) →
  fw_headers fw !! VERIFIED_HEADER = Some d →
  ∃ value raw key cred ts sig,
    registry_get d = Ok (Some value) ∧ parse_public_key value = Some raw ∧ key_from_bytes raw = Some key ∧
    cred_device_id cred = d ∧ parse_u64 (cred_timestamp cred) = Some ts ∧
    abs_diff checked ts ≤ MAX_CLOCK_SKEW_SECS ∧ boot_secs ≤ ts ∧
    rq_body rq = Ok (fw_body fw) ∧
    verify_strict key
      (signed_payload_for_hash d (rq_method rq) (rq_path rq) (canonical_query (rq_query rq))
         (cred_timestamp cred) (cred_nonce cred) (base64_encode (sha256 (fw_body fw)))) sig = true.
Proof.
  intros (p & Hck & Hbody & Hsig & _ & Hmark)%middleware_Ok Hd.
  rewrite Hmark in Hd. injection Hd as <-.
  destruct (ck_device _ _ _ _ Hck) as (value & raw & ? & ? & ?).
  exists value, raw, (pc_key p), (pc_credential p), (pc_timestamp p), (pc_signature p).
  split_and!; try done; apply Hck.
Qed.

(** A request touches the nonce cache by at most one claim, at its second
    clock reading. *)
Lemma verify_calls claimed p method path query h c :
  ∃ calls, Forall (λ x, c_now x = claimed) calls ∧
    (verify_body_hash claimed p method path query h c).1 = run_calls calls c.
Proof.
  unfold verify_body_hash, mbind, M_bind, lift_result, mret, M_ret. destruct (guard_err _ _); [|by exists []].
  exists [{| c_now := claimed; c_device := cred_device_id (pc_credential p); c_ts := pc_timestamp p;
             c_nonce := cred_nonce (pc_credential p) |}].
  split; [by repeat constructor|]. simpl. unfold run_call. simpl. by destruct (claim_nonce _ _ _ _ c) as [? []].
Qed.

Lemma middleware_calls checked claimed rq c :
  ∃ calls, Forall (λ x, c_now x = claimed) calls ∧
    (device_auth_middleware registry_get boot_secs checked claimed rq c).1 = run_calls calls c.
Proof.
  unfold device_auth_middleware, verify, mbind, M_bind, lift_result, mret, M_ret. cbv zeta.
  destruct (check_credential _ _ _ _ _) as [p|e]; [|by exists []].
  destruct (delete _ _ !! HEADER_CONTENT_SHA256) as [value|].
  - destruct (ok_or (to_str value) _) as [declared|]; [|by exists []].
    destruct (ok_or _ _) as [digest|]; [|by exists []].
    destruct (verify_calls claimed p (rq_method rq) (rq_path rq) (rq_query rq) declared c) as (calls & Hc & Hv).
    exists calls. split; [done|]. destruct (verify_body_hash _ _ _ _ _ _ c) as [c' [auth|e]]; [|done].
    destruct (rq_body rq); [|done]. destruct (guard_err _ _); [|done]. by destruct (guard_err _ _).
  - destruct (rq_body rq) as [body|]; [|by exists []].
    destruct (verify_calls claimed p (rq_method rq) (rq_path rq) (rq_query rq)
      (base64_encode (sha256 body)) c) as (calls & Hc & Hv).
    exists calls. split; [done|]. destruct (verify_body_hash _ _ _ _ _ _ c) as [c' [auth|e]]; [|done].
    by destruct (guard_err _ _).
Qed.

(** Requests one after the other, each with its two clock readings. *)
Definition run_requests (rs : list (N * N * Request)) (c : NonceCache) : NonceCache :=
  foldl (λ c '(checked, claimed, rq),
    (device_auth_middleware registry_get boot_secs checked claimed rq c).1) c rs.

Lemma run_requests_calls rs c bound :
  Forall (λ r : N * N * Request, r.1.2 ≤ bound) rs →
  ∃ calls, Forall (λ x, c_now x ≤ bound) calls ∧ run_requests rs c = run_calls calls c.
Proof.
  intros Hrs. revert c. induction Hrs as [|[[checked claimed] rq] rs Hr Hrs IH]; intros c; [by exists []|].
  simpl. destruct (middleware_calls checked claimed rq c) as (calls & Hc & ->).
  destruct (IH (run_calls calls c)) as (calls' & Hc' & ->). exists (calls ++ calls'). split.
  - apply Forall_app. split; [|done]. eapply Forall_impl; [exact Hc|]. simpl in *. intros x ->. done.
  - unfold run_calls. by rewrite foldl_app.
Qed.

(** C21: a captured request cannot be replayed inside the window: once a
    request was forwarded, any later request with the same credential is refused
    while no nonce is claimed at a clock reading beyond that credential's
    timestamp plus the skew, whatever other requests came before or between. *)
Theorem replay_refused_within_window (pre mid : list (N * N * Request)) checked claimed rq fw c1 p
    checked' claimed' rq' :
  device_auth_middleware registry_get boot_secs checked claimed rq (run_requests pre NonceCache_default) =
    (c1, Ok fw) →
  credential_checked checked (delete VERIFIED_HEADER (rq_headers rq)) (rq_query rq) p →
  extract (delete VERIFIED_HEADER (rq_headers rq')) (rq_query rq') = Some (pc_credential p) →
  Forall (λ r : N * N * Request, r.1.2 ≤ pc_timestamp p + MAX_CLOCK_SKEW_SECS)
    (mid ++ [(checked', claimed', rq')]) →
  ∃ e, (device_auth_middleware registry_get boot_secs checked' claimed' rq' (run_requests mid c1)).2 = Err e.
Proof.
  intros Hx Hck Hsame [Hmid Hy]%Forall_app. apply Forall_inv in Hy. simpl in Hy.
  destruct (run_requests_calls pre NonceCache_default (foldr (λ r, N.max r.1.2) 0 pre)) as (cs & _ & Hpre).
  { clear. induction pre as [|r pre IH]; constructor; simpl; [lia|].
    eapply Forall_impl; [exact IH|]. simpl. intros; lia. }
  rewrite Hpre in Hx. apply middleware_Ok in Hx as (p' & Hck' & _ & _ & Hclaim & _).
  assert (Hcred : pc_credential p' = pc_credential p).
  { pose proof (ck_extract _ _ _ _ Hck). pose proof (ck_extract _ _ _ _ Hck'). congruence. }
  assert (Hts : pc_timestamp p' = pc_timestamp p).
  { pose proof (ck_timestamp _ _ _ _ Hck). pose proof (ck_timestamp _ _ _ _ Hck'). congruence. }
  rewrite Hcred, Hts in Hclaim.
  assert (Hinv : cache_inv (run_calls cs NonceCache_default)) by apply run_calls_inv, cache_inv_default.
  pose proof (claim_nonce_spec claimed (cred_device_id (pc_credential p)) (pc_timestamp p)
    (cred_nonce (pc_credential p)) _ Hinv) as Hspec. rewrite Hclaim in Hspec.
  destruct Hspec as (Hinv1 & _ & Hheld).
  destruct (run_requests_calls mid c1 (pc_timestamp p + MAX_CLOCK_SKEW_SECS) Hmid) as (ms & Hms & ->).
  destruct (device_auth_middleware _ _ checked' claimed' rq' _) as [c2 [fw'|e]] eqn:Hr; [|by exists e].
  exfalso. apply middleware_Ok in Hr as (p2 & Hck2 & _ & _ & Hclaim2 & _).
  assert (Hcred2 : pc_credential p2 = pc_credential p).
  { pose proof (ck_extract _ _ _ _ Hck2). congruence. }
  rewrite Hcred2 in Hclaim2.
  assert (Hrun := held_refused (run_calls ms c1) {| c_now := claimed';
    c_device := cred_device_id (pc_credential p); c_ts := pc_timestamp p2;
    c_nonce := cred_nonce (pc_credential p) |} (pc_timestamp p)).
  unfold run_call in Hrun. simpl in Hrun. rewrite Hclaim2 in Hrun. simpl in Hrun.
  discriminate Hrun; [by apply run_calls_inv| |done].
  apply run_calls_keep; [done| |done]. apply Hheld. by left.
Qed.
End middleware.

(** ** A concrete authenticator

    A stand-in for the cryptography, for examples: a signature is the payload
    itself, base64 pads with eleven dots (so that 32 bytes encode to 43) and a
    digest is the first 32 bytes. *)
Module Toy.

Definition pad : bytes := repeat "."%byte 11.
Definition enc (x : bytes) : bytes := x ++ pad.
Definition dec (s : bytes) : option bytes :=
  let x := take (length s - 11) s in if decide (enc x = s) then Some x else None.

#[export] Instance crypto : AuthCrypto := {|
  VerifyingKey := bytes;
  Signature := bytes;
  key_from_bytes := Some;
  signature_from_slice := Some;
  verify_strict k payload sig := bool_decide (payload = sig);
  sha256 x := take 32 (x ++ repeat Byte.x00 32);
  base64_encode := enc;
  base64_decode := dec;
  to_str := Some;
  header_value_ok _ := true;
|}.

#[export] Instance crypto_laws : AuthCryptoLaws.
Proof. split. simpl. unfold dec. intros s x. by destruct (decide _); intros [= <-]. Qed.

Definition registry (d : bytes) : result AppError (option bytes) :=
  Ok (Some (enc (repeat Byte.x01 32))).

Definition body : bytes := Eval vm_compute in b "hello".
Definition signed : bytes :=
  Eval vm_compute in
    enc (signed_payload_for_hash (b "dev") (b "POST") (b "/x") (canonical_query None) (b "1000") (b "n1")
           (enc (sha256 body))).
Definition request : Request :=
  {| rq_method := b "POST"; rq_path := b "/x"; rq_query := None;
     rq_headers := list_to_map [(HEADER_DEVICE_ID, b "dev"); (HEADER_TIMESTAMP, b "1000");
       (HEADER_NONCE, b "n1"); (HEADER_SIGNATURE, signed); (VERIFIED_HEADER, b "forged")];
     rq_body := Ok body |}.
Definition serve (checked claimed : N) : M NonceCache AppError Forwarded :=
  device_auth_middleware registry 0 checked claimed request.

(** the single use of a nonce ends before the clock window does. The
    window is checked when the credential arrives and the nonce is claimed after
    the body was read, and claiming evicts by the clock of that moment: a replay
    whose credential is checked at the last second of the window and whose body
    arrives a second later finds the first claim evicted and is forwarded again. *)
Theorem replay_at_window_edge_is_forwarded :
  let '(c1, first) := serve 1000 1000 NonceCache_default in
  let '(c2, second) := serve 1300 1301 c1 in
  ok (fw_body <$> first) = Some body ∧ ok (fw_body <$> second) = Some body.
Proof. by vm_compute. Qed.

Lemma signed_payload_injective_witness :
  b "n" = b "n" ∧ signed_payload_for_hash (b "d") (b "GET") (b "/") [] (b "1") (b "n") (b "h") =
    signed_payload_for_hash (b "d") (b "GET") (b "/") [] (b "1") (b "n") (b "h").
Proof.
  split; [|done].
  refine (proj1 (proj2 (proj2 (proj2 (proj2 (proj2
    (signed_payload_injective (b "d") (b "GET") (b "/") [] (b "1") (b "n") (b "h")
       (b "d") (b "GET") (b "/") [] (b "1") (b "n") (b "h") _ eq_refl))))))).
  intros x Hx. repeat (apply elem_of_cons in Hx as [->|Hx]; [vm_compute; set_solver|]).
  by apply not_elem_of_nil in Hx.
Defined.

Definition claim_at (now : N) : call :=
  {| c_now := now; c_device := b "dev"; c_ts := 1000; c_nonce := b "n1" |}.
Lemma nonce_single_use_witness :
  (run_call (run_calls [] (run_call NonceCache_default (claim_at 1000)).1) (claim_at 1300)).2 =
  Err Unauthenticated.
Proof. by apply (nonce_single_use [] [] (claim_at 1000) (claim_at 1300)); repeat constructor. Defined.

Lemma serve_accepts :
  match (serve 1000 1001 NonceCache_default).2 with
  | Ok fw => bool_decide (fw_headers fw !! VERIFIED_HEADER = Some (b "dev"))
  | Err _ => false
  end = true.
Proof. by vm_compute. Qed.

Lemma credential_accepts :
  match check_credential registry 0 1000 (delete VERIFIED_HEADER (rq_headers request)) None with
  | Ok p => pc_timestamp p =? 1000
  | Err _ => false
  end = true.
Proof. by vm_compute. Qed.

Lemma forwarded_requests_are_signed_witness :
  ∃ c' fw, serve 1000 1001 NonceCache_default = (c', Ok fw) ∧
    ∃ value raw key cred ts sig,
    registry (b "dev") = Ok (Some value) ∧ parse_public_key value = Some raw ∧ key_from_bytes raw = Some key ∧
    cred_device_id cred = b "dev" ∧ parse_u64 (cred_timestamp cred) = Some ts ∧
    abs_diff 1000 ts ≤ MAX_CLOCK_SKEW_SECS ∧ 0 ≤ ts ∧ rq_body request = Ok (fw_body fw) ∧
    verify_strict key
      (signed_payload_for_hash (b "dev") (rq_method request) (rq_path request)
         (canonical_query (rq_query request)) (cred_timestamp cred) (cred_nonce cred)
         (base64_encode (sha256 (fw_body fw)))) sig = true.
Proof.
  pose proof serve_accepts as Hok.
  destruct (serve 1000 1001 NonceCache_default) as [c' [fw|e]] eqn:E; [|done].
  apply bool_decide_eq_true in Hok. exists c', fw. split; [done|].
  exact (forwarded_requests_are_signed registry 0 1000 1001 request NonceCache_default c' fw (b "dev") E Hok).
Defined.

Lemma replay_refused_within_window_witness :
  ∃ e, (serve 1300 1300 (run_requests registry 0 [] (serve 1000 1001 NonceCache_default).1)).2 = Err e.
Proof.
  pose proof serve_accepts as Hok. pose proof credential_accepts as Hts.
  destruct (check_credential registry 0 1000 (delete VERIFIED_HEADER (rq_headers request)) None)
    as [p|] eqn:Hp; [|done].
  assert (Hck := check_credential_Ok registry 0 _ _ _ _ Hp).
  destruct (serve 1000 1001 NonceCache_default) as [c1 [fw|e]] eqn:E; [|done]. apply N.eqb_eq in Hts.
  apply (replay_refused_within_window registry 0 [] [] 1000 1001 request fw c1 p 1300 1300 request E Hck).
  - apply Hck.
  - rewrite Hts. repeat constructor. lazy. done.
Defined.
End Toy.
