(* ===== verification/Devices.v ===== *)
(** * The registry of paired devices

    Model of src/src/devices.rs: the registry file [devices.json], the
    daemon's copy of it with the stamp of the version it was read from, and
    the file-level operations another process (the TUI) runs. Both sides are
    one [World]: a read-modify-write holds the cross-process file lock, so each
    operation is one step of it. The JSON text is represented by the parsed
    file and its length ([registry_bytes]), clocks and the answers of the
    operating system by [Env]. The class [AuthCrypto] is the one of
    [DeviceAuth], whose authenticator reads this registry. *)
From S2P Require Import Prelude Bytes Query DeviceAuth.
From Stdlib Require Import Strings.Byte.
Local Open Scope N_scope.

Definition MAX_FILE_BYTES : N := 256 * 1024.
Definition MAX_DEVICES : N := 256.
(** Milliseconds. *)
Definition SEEN_FLUSH_INTERVAL : N := 60000.

Record DeviceRecord : Type := {
  dr_device_id : bytes;
  dr_name : bytes;
  dr_public_key : bytes;
  dr_paired_at : N;
  dr_last_seen_at : option N;
}.
Record RegistryFile : Type := { rf_version : N; rf_devices : gmap bytes DeviceRecord }.

#[export] Instance DeviceRecord_eq_dec : EqDecision DeviceRecord.
Proof. solve_decision. Defined.

(** [secure_fs::FileStamp]. *)
Record FileStamp : Type := { fs_modified : option N; fs_len : N; fs_inode : N }.
#[export] Instance FileStamp_eq_dec : EqDecision FileStamp.
Proof. solve_decision. Defined.

(** ** The file and the daemon's copy *)

(** What [symlink_metadata] says of the file, and its JSON if it parses. A
    symbolic link is not a regular file. *)
Record DiskFile : Type := {
  df_regular : bool;
  df_owner_only : bool;
  df_stamp : FileStamp;
  df_json : option RegistryFile;
}.
Abbreviation Disk := (option DiskFile).
Definition disk_stamp (d : Disk) : option FileStamp := df_stamp <$> d.

Record Inner : Type := {
  i_devices : gmap bytes DeviceRecord;
  i_stamp : option FileStamp;
  i_dirty : bool;
  i_last_flush : N;
  i_flush_interval : N;
  i_flush_scheduled : bool;
}.
Record World : Type := { disk : Disk; inner : Inner }.

Definition set_disk (d : Disk) (w : World) : World := {| disk := d; inner := inner w |}.
Definition set_inner (f : Inner → Inner) (w : World) : World := {| disk := disk w; inner := f (inner w) |}.
Definition set_devices (m : gmap bytes DeviceRecord) (i : Inner) : Inner :=
  {| i_devices := m; i_stamp := i_stamp i; i_dirty := i_dirty i; i_last_flush := i_last_flush i;
     i_flush_interval := i_flush_interval i; i_flush_scheduled := i_flush_scheduled i |}.
Definition set_scheduled (b : bool) (i : Inner) : Inner :=
  {| i_devices := i_devices i; i_stamp := i_stamp i; i_dirty := i_dirty i; i_last_flush := i_last_flush i;
     i_flush_interval := i_flush_interval i; i_flush_scheduled := b |}.
Definition set_last_flush (t : N) (i : Inner) : Inner :=
  {| i_devices := i_devices i; i_stamp := i_stamp i; i_dirty := i_dirty i; i_last_flush := t;
     i_flush_interval := i_flush_interval i; i_flush_scheduled := i_flush_scheduled i |}.

(** What one call meets: the clocks, whether the file lock was obtained,
    whether a system call failed while writing, and the modification time and
    inode of the file written. *)
Record Env : Type := {
  e_unix_ms : N;
  e_now : N;
  e_locked : bool;
  e_io : option AppError;
  e_modified : option N;
  e_inode : N;
}.

Section registry.
Context `{AuthCrypto}.
(** The length of [serde_json::to_vec(file)]. *)
Context (registry_bytes : RegistryFile → N).

Definition device_id_for (public_key : bytes) : bytes :=
  b "dev_" ++ base64_encode (take 12 (sha256 public_key)).

(** One round of the loop over the records of a file. *)
Definition valid_record (id : bytes) (record : DeviceRecord) : bool :=
  match parse_public_key (dr_public_key record) with
  | Some key => bool_decide (dr_device_id record = id) && bool_decide (device_id_for key = id)
  | None => false
  end.

Definition read_records (d : Disk) : result AppError (option (gmap bytes DeviceRecord * option FileStamp)) :=
  match d with
  | None => Ok None
  | Some f =>
      _ ← guard_err (df_regular f && (fs_len (df_stamp f) <=? MAX_FILE_BYTES))
            (InvalidRequest "invalid device registry file");
      _ ← guard_err (df_owner_only f) (InvalidRequest "device registry file is not private");
      file ← ok_or (df_json f) (InvalidRequest "device registry file is unreadable");
      _ ← guard_err ((rf_version file =? 1) && (N.of_nat (size (rf_devices file)) <=? MAX_DEVICES))
            (InvalidRequest "unsupported device registry file");
      _ ← guard_err (bool_decide (map_Forall (λ id r, valid_record id r = true) (rf_devices file)))
            (InvalidRequest "device registry contains an invalid record");
      Ok (Some (rf_devices file, Some (df_stamp f)))
  end.

(** [read_records(path)?.unwrap_or_default()]. *)
Definition read_or_default (d : Disk) : result AppError (gmap bytes DeviceRecord * option FileStamp) :=
  r ← read_records d; Ok (default (∅, None) r).

Abbreviation W := (M World AppError).

Definition lock_file (e : Env) : W unit :=
  lift_result (guard_err (e_locked e) (InvalidRequest "device registry is locked")).

Definition write_records (e : Env) (file : RegistryFile) : W FileStamp := λ w,
  match e_io e with
  | Some error => (w, Err error)
  | None =>
      if MAX_FILE_BYTES <? registry_bytes file
      then (w, Err (InvalidRequest "device registry file is too large"))
      else
        let stamp := {| fs_modified := e_modified e; fs_len := registry_bytes file; fs_inode := e_inode e |} in
        (set_disk (Some {| df_regular := true; df_owner_only := true; df_stamp := stamp; df_json := Some file |}) w,
         Ok stamp)
  end.

(** ** The daemon's side *)

(** [DeviceRegistry::load_with_flush_interval]. *)
Definition load (now flush_interval : N) (d : Disk) : result AppError Inner :=
  r ← read_or_default d;
  Ok {| i_devices := r.1; i_stamp := r.2; i_dirty := false; i_last_flush := now;
        i_flush_interval := flush_interval; i_flush_scheduled := false |}.

Definition reload_if_changed : W bool := λ w,
  if bool_decide (disk_stamp (disk w) = i_stamp (inner w)) then (w, Ok false)
  else
    match read_or_default (disk w) with
    | Err e => (w, Err e)
    | Ok (devices, stamp) =>
        (set_inner (λ i, {| i_devices := devices; i_stamp := stamp; i_dirty := false;
                            i_last_flush := i_last_flush i; i_flush_interval := i_flush_interval i;
                            i_flush_scheduled := i_flush_scheduled i |}) w, Ok true)
    end.

(** [Inner::write]. *)
Definition write_inner (e : Env) : W unit := λ w,
  match write_records e {| rf_version := 1; rf_devices := i_devices (inner w) |} w with
  | (w, Err error) => (w, Err error)
  | (w, Ok stamp) =>
      (set_inner (λ i, {| i_devices := i_devices i; i_stamp := Some stamp; i_dirty := false;
                          i_last_flush := e_now e; i_flush_interval := i_flush_interval i;
                          i_flush_scheduled := i_flush_scheduled i |}) w, Ok tt)
  end.

Definition new_record (e : Env) (name public_key : bytes) : DeviceRecord :=
  {| dr_device_id := device_id_for public_key; dr_name := name; dr_public_key := base64_encode public_key;
     dr_paired_at := e_unix_ms e; dr_last_seen_at := None |}.

Definition insert_device (record : DeviceRecord) : W unit := λ w,
  let devices := i_devices (inner w) in
  if (MAX_DEVICES <=? N.of_nat (size devices)) && negb (bool_decide (is_Some (devices !! dr_device_id record)))
  then (w, Err (ResourceExhausted "device registry is full; revoke a device first"))
  else (set_inner (set_devices (<[dr_device_id record := record]> devices)) w, Ok tt).

Definition register (e : Env) (name public_key : bytes) : W DeviceRecord :=
  let record := new_record e name public_key in
  _ ← lock_file e;
  _ ← reload_if_changed;
  _ ← insert_device record;
  _ ← write_inner e;
  mret record.

Definition get (device_id : bytes) : W (option DeviceRecord) :=
  _ ← reload_if_changed;
  asks (λ w, i_devices (inner w) !! device_id).

(** The write of a flush, under the lock: an external change wins. *)
Definition reload_or_write (e : Env) : W unit :=
  _ ← lock_file e;
  changed ← reload_if_changed;
  if (changed : bool) then mret tt else write_inner e.

Definition flush_if_due (e : Env) : W unit := λ w,
  if negb (i_dirty (inner w)) || (e_now e - i_last_flush (inner w) <? i_flush_interval (inner w)) then (w, Ok tt)
  else
    match reload_or_write e w with
    | (w, Ok _) => (w, Ok tt)
    | (w, Err error) => (set_inner (set_last_flush (e_now e)) w, Err error)
    end.

(** [schedule_flush]: whether a background flush is scheduled. *)
Definition schedule_flush (runtime : bool) (w : World) : World * bool :=
  if i_flush_scheduled (inner w) then (w, true)
  else if runtime then (set_inner (set_scheduled true) w, true)
  else (w, false).

Definition seen_record (at_ms : N) (r : DeviceRecord) : DeviceRecord :=
  {| dr_device_id := dr_device_id r; dr_name := dr_name r; dr_public_key := dr_public_key r;
     dr_paired_at := dr_paired_at r; dr_last_seen_at := Some at_ms |}.

(** [touch]; a failing flush is logged. *)
Definition touch (e : Env) (runtime : bool) (device_id : bytes) (w : World) : World :=
  match i_devices (inner w) !! device_id with
  | None => w
  | Some record =>
      let w := set_inner (λ i,
        {| i_devices := <[device_id := seen_record (e_unix_ms e) record]> (i_devices i);
           i_stamp := i_stamp i; i_dirty := true; i_last_flush := i_last_flush i;
           i_flush_interval := i_flush_interval i; i_flush_scheduled := i_flush_scheduled i |}) w in
      match schedule_flush runtime w with
      | (w, true) => w
      | (w, false) => (flush_if_due e w).1
      end
  end.

(** The task [schedule_flush] spawns, once its delay has passed; it runs
    inside the runtime. *)
Definition background_flush (e : Env) (w : World) : World :=
  let w := (flush_if_due e (set_inner (set_scheduled false) w)).1 in
  if i_dirty (inner w) then (schedule_flush true w).1 else w.

Definition flush (e : Env) : W unit :=
  _ ← lock_file e;
  changed ← reload_if_changed;
  dirty ← asks (λ w, i_dirty (inner w));
  if (changed : bool) || negb dirty then mret tt else write_inner e.

(** ** The other process *)

Definition list_devices (d : Disk) : result AppError (gmap bytes DeviceRecord) :=
  r ← read_or_default d; Ok r.1.

(** [revoke_history_recipients], given what the hook of the history keys
    answered. *)
Definition revoke_history_recipients (answer : result AppError N) : result AppError unit :=
  match answer with
  | Ok _ => Ok tt
  | Err _ => Err (InvalidRequest "device revoked, but its history recipient was not updated")
  end.

Definition revoke_device (e : Env) (history : result AppError N) (device_id : bytes) : W bool :=
  _ ← lock_file e;
  d ← asks disk;
  r ← lift_result (read_or_default d);
  match r.1 !! device_id with
  | None => mret false
  | Some _ =>
      _ ← write_records e {| rf_version := 1; rf_devices := delete device_id r.1 |};
      _ ← lift_result (revoke_history_recipients history);
      mret true
  end.

(** [revoke_all_devices]; an unreadable file does not stop it. *)
Definition revoke_all_devices (e : Env) (history : result AppError N) : W unit :=
  _ ← lock_file e;
  _ ← write_records e {| rf_version := 1; rf_devices := ∅ |};
  lift_result (revoke_history_recipients history).
End registry.

(** ** Runs of both processes *)

Inductive RegistryOp : Type :=
  | ORegister (e : Env) (name public_key : bytes)
  | OGet (device_id : bytes)
  | OTouch (e : Env) (runtime : bool) (device_id : bytes)
  | OBackgroundFlush (e : Env)
  | OFlush (e : Env)
  | ORevoke (e : Env) (history : result AppError N) (device_id : bytes)
  | ORevokeAll (e : Env) (history : result AppError N)
  | OEdit (d : Disk).  (* the owner edits or deletes the file *)

Inductive Answer : Type :=
  | Registered (r : DeviceRecord)
  | Found (r : option DeviceRecord)
  | Revoked (b : bool)
  | Done.

Section runs.
Context `{AuthCrypto} (registry_bytes : RegistryFile → N).

Definition answer {A} (f : A → Answer) (x : World * result AppError A) : World * result AppError Answer :=
  (x.1, f <$> x.2).

Definition run_op (op : RegistryOp) (w : World) : World * result AppError Answer :=
  match op with
  | ORegister e name key => answer Registered (register registry_bytes e name key w)
  | OGet id => answer Found (get id w)
  | OTouch e runtime id => (touch registry_bytes e runtime id w, Ok Done)
  | OBackgroundFlush e => (background_flush registry_bytes e w, Ok Done)
  | OFlush e => answer (λ _, Done) (flush registry_bytes e w)
  | ORevoke e history id => answer Revoked (revoke_device registry_bytes e history id w)
  | ORevokeAll e history => answer (λ _, Done) (revoke_all_devices registry_bytes e history w)
  | OEdit d => (set_disk d w, Ok Done)
  end.
Definition run (ops : list RegistryOp) (w : World) : World := foldl (λ w op, (run_op op w).1) w ops.

(** A change another process makes to the file gives it a stamp other than
    the one the daemon holds. *)
Definition noticed (op : RegistryOp) (w : World) : Prop :=
  match op with
  | ORevoke _ _ _ | ORevokeAll _ _ | OEdit _ =>
      disk (run_op op w).1 = disk w ∨ disk_stamp (disk (run_op op w).1) ≠ i_stamp (inner w)
  | _ => True
  end.
Fixpoint noticed_run (ops : list RegistryOp) (w : World) : Prop :=
  match ops with [] => True | op :: ops => noticed op w ∧ noticed_run ops (run_op op w).1 end.

(** The registry as [device_auth] asks it. *)
Definition registry_get (w : World) (device_id : bytes) : result AppError (option bytes) :=
  option_map dr_public_key <$> (get device_id w).2.
End runs.

(** ** A revoked device stays locked out *)

Section lockout.
Context `{AuthCrypto} (registry_bytes : RegistryFile → N) (d : bytes).

Definition file_lacks (f : Disk) : Prop :=
  ∀ devices stamp, read_or_default f = Ok (devices, stamp) → devices !! d = None.
Definition locked (w : World) : Prop :=
  file_lacks (disk w) ∧ (disk_stamp (disk w) = i_stamp (inner w) → i_devices (inner w) !! d = None).
(** The daemon has the version on disk, without [d]. *)
Definition clean (w : World) : Prop :=
  file_lacks (disk w) ∧ disk_stamp (disk w) = i_stamp (inner w) ∧ i_devices (inner w) !! d = None.

Lemma clean_locked w : clean w → locked w.
Proof. intros (? & ? & ?). by split. Qed.

Lemma read_stamp f devices stamp : read_or_default f = Ok (devices, stamp) → stamp = disk_stamp f.
Proof.
  unfold read_or_default, read_records. destruct f as [f|]; intros Hr; res_inv; by simplify_eq/=.
Qed.

Lemma written_lacks stamp devices :
  devices !! d = None →
  file_lacks (Some {| df_regular := true; df_owner_only := true; df_stamp := stamp;
                      df_json := Some {| rf_version := 1; rf_devices := devices |} |}).
Proof.
  intros Hd devices' stamp' Hr. unfold read_or_default, read_records in Hr. simpl in Hr. res_inv.
  simplify_eq/=. done.
Qed.

(** From [P], [m] ends in [Q], or fails in a world where [d] is locked out. *)
Abbreviation guards P m Q := (hoare P m (λ _, Q) (λ _, locked)).

Lemma guards_lock e : guards locked (lock_file e) locked.
Proof. intros w Hw. unfold lock_file, lift_result, guard_err. by destruct (e_locked e). Qed.

Lemma guards_reload : guards locked reload_if_changed clean.
Proof.
  intros w [Hf Hm]. unfold reload_if_changed. case_bool_decide as Hs; [by split; [|split; auto]|].
  destruct (read_or_default (disk w)) as [[devices stamp]|e] eqn:Hr; [|by split].
  split; [done|]. simpl. split; [symmetry; by eapply read_stamp|]. by apply (Hf _ _ Hr).
Qed.

Lemma guards_write e : guards clean (write_inner registry_bytes e) clean.
Proof.
  intros w Hw. unfold write_inner, write_records. destruct (e_io e); [by apply clean_locked|].
  destruct (MAX_FILE_BYTES <? _); [by apply clean_locked|]. destruct Hw as (_ & _ & Hm).
  split; [by apply written_lacks|]. by split.
Qed.

Lemma guards_insert r : dr_device_id r ≠ d → guards clean (insert_device r) clean.
Proof.
  intros Hr w (Hf & Hs & Hm). unfold insert_device. destruct (_ && _); [by apply clean_locked|].
  split; [done|]. split; [done|]. simpl. by rewrite lookup_insert_ne.
Qed.

Lemma guards_reload_or_write e : guards locked (reload_or_write registry_bytes e) clean.
Proof.
  eapply hoare_bind; [apply guards_lock|intros ?]. eapply hoare_bind; [apply guards_reload|intros []].
  - apply (hoare_ret _ (λ _, clean)).
  - apply guards_write.
Qed.

Lemma flush_if_due_locked e w : locked w → locked (flush_if_due registry_bytes e w).1.
Proof.
  intros Hw. unfold flush_if_due. destruct (_ || _); [done|].
  pose proof (hoare_state _ locked _ _ _ w (guards_reload_or_write e) Hw (λ _, clean_locked) (λ _ _ Hl, Hl)) as Hl.
  destruct (reload_or_write registry_bytes e w) as [w' [[]|error]]; [done|]. by destruct w' as [? []].
Qed.

Lemma touch_locked e runtime id w : locked w → locked (touch registry_bytes e runtime id w).
Proof.
  intros Hw. unfold touch. destruct (i_devices (inner w) !! id) as [r|] eqn:Hr; [|done].
  set (w1 := set_inner _ w).
  assert (locked w1) as Hw1.
  { destruct Hw as [Hf Hm]. split; [done|]. simpl. intros Hs. rewrite lookup_insert_ne; [auto|].
    intros ->. by rewrite (Hm Hs) in Hr. }
  unfold schedule_flush. destruct (i_flush_scheduled _); [done|]. destruct runtime; [done|]. by apply flush_if_due_locked.
Qed.

Lemma background_locked e w : locked w → locked (background_flush registry_bytes e w).
Proof.
  intros Hw. unfold background_flush.
  assert (locked (flush_if_due registry_bytes e (set_inner (set_scheduled false) w)).1) as Hl
    by by apply flush_if_due_locked.
  destruct (i_dirty _); [|done]. unfold schedule_flush. by destruct (i_flush_scheduled _).
Qed.

(** An operation of the other process leaves the daemon alone. *)
Lemma write_records_cases e file w w' r :
  write_records registry_bytes e file w = (w', r) →
  (w' = w ∧ ∃ error, r = Err error) ∨
  ∃ stamp, r = Ok stamp ∧ registry_bytes file ≤ MAX_FILE_BYTES ∧ fs_len stamp = registry_bytes file ∧
    w' = set_disk (Some {| df_regular := true; df_owner_only := true; df_stamp := stamp; df_json := Some file |}) w.
Proof.
  unfold write_records. destruct (e_io e); [intros [= <- <-]; eauto|].
  destruct (_ <? _) eqn:Hl; intros [= <- <-]; [by eauto|]. apply N.ltb_ge in Hl. right. by eexists.
Qed.

Lemma revoke_device_cases e history id w w' r :
  revoke_device registry_bytes e history id w = (w', r) →
  (w' = w ∧ r ≠ Ok true) ∨
  ∃ devices st stamp, read_or_default (disk w) = Ok (devices, st) ∧ is_Some (devices !! id) ∧ e_locked e = true ∧
    w' = set_disk (Some {| df_regular := true; df_owner_only := true; df_stamp := stamp;
           df_json := Some {| rf_version := 1; rf_devices := delete id devices |} |}) w.
Proof.
  unfold revoke_device, lock_file, lift_result, asks, mbind, M_bind, guard_err.
  destruct (e_locked e); [|intros [= <- <-]; by left].
  destruct (read_or_default (disk w)) as [[devices st]|error] eqn:Hr; [|intros [= <- <-]; by left].
  simpl. destruct (devices !! id) eqn:Hd; [|intros [= <- <-]; by left].
  destruct (write_records _ _ _ _) as [w1 r1] eqn:Hw. apply write_records_cases in Hw as [[-> [? ->]]|Hw].
  - intros [= <- <-]. by left.
  - destruct Hw as (stamp & -> & _ & _ & ->). intros Hx. right. exists devices, st, stamp.
    rewrite Hd. split_and!; [done|done|done|]. by destruct (revoke_history_recipients history); injection Hx as <- <-.
Qed.

Lemma revoke_all_cases e history w w' r :
  revoke_all_devices registry_bytes e history w = (w', r) →
  w' = w ∨ ∃ stamp, w' = set_disk (Some {| df_regular := true; df_owner_only := true; df_stamp := stamp;
                                           df_json := Some {| rf_version := 1; rf_devices := ∅ |} |}) w.
Proof.
  unfold revoke_all_devices, lock_file, lift_result, mbind, M_bind, guard_err.
  destruct (e_locked e); [|intros [= <- <-]; by left].
  destruct (write_records _ _ _ _) as [w1 r1] eqn:Hw. apply write_records_cases in Hw as [[-> [? ->]]|Hw].
  - intros [= <- <-]. by left.
  - destruct Hw as (stamp & -> & _ & _ & ->). intros [= <- <-]. by right; exists stamp.
Qed.

(** No step brings [d] back. *)
Definition adds (op : RegistryOp) : Prop :=
  match op with
  | ORegister _ _ key => device_id_for key = d
  | OEdit f => ¬ file_lacks f
  | _ => False
  end.

Lemma outside_locked w f :
  locked w → file_lacks f → (f = disk w ∨ disk_stamp f ≠ i_stamp (inner w)) → locked (set_disk f w).
Proof. intros Hw Hf [->|Hs]; [by destruct w|]. by split. Qed.

Lemma op_locked op w :
  ¬ adds op → noticed registry_bytes op w → locked w → locked (run_op registry_bytes op w).1.
Proof.
  intros Ha Hn Hw. destruct op as [e name key|id|e runtime id|e|e|e history id|e history|f]; cbn [run_op answer fst].
  - eapply (hoare_state locked locked (λ _, clean) (λ _, locked)); [|done|intros ? ?; apply clean_locked|done]. unfold register; cbv zeta.
    eapply hoare_bind; [apply guards_lock|intros ?]. eapply hoare_bind; [apply guards_reload|intros ?].
    eapply hoare_bind; [by apply guards_insert|intros ?]. eapply hoare_bind; [apply guards_write|intros ?].
    apply (hoare_ret _ (λ _, clean)).
  - eapply (hoare_state locked locked (λ _, clean) (λ _, locked)); [|done|intros ? ?; apply clean_locked|done].
    eapply hoare_bind; [apply guards_reload|intros ?]. intros w1 Hc; exact Hc.
  - by apply touch_locked.
  - by apply background_locked.
  - eapply (hoare_state locked locked (λ _, clean) (λ _, locked)); [|done|intros ? ?; apply clean_locked|done]. unfold flush.
    eapply hoare_bind; [apply guards_lock|intros ?]. eapply hoare_bind; [apply guards_reload|intros changed].
    eapply hoare_bind; [apply hoare_asks|intros dirty]. destruct (_ || _); [apply (hoare_ret _ (λ _, clean))|apply guards_write].
  - cbn [noticed run_op answer fst] in Hn. destruct (revoke_device registry_bytes e history id w) as [w' r] eqn:Hr.
    apply revoke_device_cases in Hr as [[-> _]|(devices & st & stamp & Hr & _ & _ & ->)]; [done|].
    apply outside_locked; [done| |done]. apply written_lacks. rewrite lookup_delete_None. right.
    by apply (proj1 Hw _ _ Hr).
  - cbn [noticed run_op answer fst] in Hn. destruct (revoke_all_devices registry_bytes e history w) as [w' r] eqn:Hr.
    apply revoke_all_cases in Hr as [->|[stamp ->]]; [done|].
    apply outside_locked; [done| |done]. by apply written_lacks.
  - apply outside_locked; [done| |done]. intros devices stamp Hf. destruct (devices !! d) eqn:Hd; [|done].
    destruct Ha. intros Hc. by rewrite (Hc _ _ Hf) in Hd.
Qed.

Lemma run_locked ops w :
  Forall (λ op, ¬ adds op) ops → noticed_run registry_bytes ops w → locked w → locked (run registry_bytes ops w).
Proof.
  intros Ha. revert w. induction Ha as [|op ops Hop _ IH]; intros w; [done|]. intros [Hn Hns] Hw.
  apply IH; [done|]. by apply op_locked.
Qed.

Lemma locked_get w r : locked w → registry_get w d ≠ Ok (Some r).
Proof.
  intros Hw. unfold registry_get, get, mbind, M_bind. pose proof (guards_reload w Hw) as Hc.
  destruct (reload_if_changed w) as [w' [changed|e]]; [|done]. destruct Hc as (_ & _ & Hd).
  simpl. by rewrite Hd.
Qed.
End lockout.

(** ** The registry is a map of devices *)

Section refinement.
Context `{AuthCryptoLaws} (registry_bytes : RegistryFile → N).
Abbreviation Devices := (gmap bytes DeviceRecord).

(** A record without the activity time, which is kept on a best-effort basis. *)
Definition identity (r : DeviceRecord) : DeviceRecord :=
  {| dr_device_id := dr_device_id r; dr_name := dr_name r; dr_public_key := dr_public_key r;
     dr_paired_at := dr_paired_at r; dr_last_seen_at := None |}.

(** The file has exactly the devices of [a]. *)
Definition file_is (f : Disk) (a : Devices) : Prop :=
  ∃ devices, read_or_default f = Ok (devices, disk_stamp f) ∧ identity <$> devices = a.
(** And so has the daemon's copy when it is of the version on disk. *)
Definition implements (a : Devices) (w : World) : Prop :=
  file_is (disk w) a ∧ (disk_stamp (disk w) = i_stamp (inner w) → identity <$> i_devices (inner w) = a).
(** The daemon's copy is of the version on disk, changed to [m] since. *)
Definition staged (a m : Devices) (w : World) : Prop :=
  file_is (disk w) a ∧ disk_stamp (disk w) = i_stamp (inner w) ∧ identity <$> i_devices (inner w) = m.

Definition full_for (id : bytes) (a : Devices) : Prop := MAX_DEVICES ≤ N.of_nat (size a) ∧ a !! id = None.
(** Writing the devices of [a] meets a failing system call, or the size limit. *)
Definition unwritable (e : Env) (a : Devices) : Prop :=
  is_Some (e_io e) ∨
  ∃ devices, identity <$> devices = a ∧ MAX_FILE_BYTES < registry_bytes {| rf_version := 1; rf_devices := devices |}.

(** What the operations do to a map of devices: when they may fail, and what
    they change and answer when they do not. *)
Inductive spec_step : RegistryOp → Devices → Devices → result AppError Answer → Prop :=
  | spec_register e name key a (r := new_record e name key) :
      spec_step (ORegister e name key) a (<[device_id_for key := r]> a) (Ok (Registered r))
  | spec_register_refused e name key a error :
      e_locked e = false ∨ full_for (device_id_for key) a →
      spec_step (ORegister e name key) a a (Err error)
  | spec_get id a r : identity <$> r = a !! id → spec_step (OGet id) a a (Ok (Found r))
  | spec_touch e runtime id a : spec_step (OTouch e runtime id) a a (Ok Done)
  | spec_background e a : spec_step (OBackgroundFlush e) a a (Ok Done)
  | spec_flush e a : spec_step (OFlush e) a a (Ok Done)
  | spec_flush_failed e a error : e_locked e = false ∨ unwritable e a → spec_step (OFlush e) a a (Err error)
  | spec_revoke e n id a : is_Some (a !! id) → spec_step (ORevoke e (Ok n) id) a (delete id a) (Ok (Revoked true))
  | spec_revoke_history e error id a error' :
      is_Some (a !! id) → spec_step (ORevoke e (Err error) id) a (delete id a) (Err error')
  | spec_revoke_absent e history id a : a !! id = None → spec_step (ORevoke e history id) a a (Ok (Revoked false))
  | spec_revoke_failed e history id a error :
      e_locked e = false ∨ unwritable e (delete id a) → spec_step (ORevoke e history id) a a (Err error)
  | spec_revoke_all e n a : spec_step (ORevokeAll e (Ok n)) a ∅ (Ok Done)
  | spec_revoke_all_history e error a error' : spec_step (ORevokeAll e (Err error)) a ∅ (Err error')
  | spec_revoke_all_failed e history a error :
      e_locked e = false ∨ unwritable e ∅ → spec_step (ORevokeAll e history) a a (Err error).

(** A map [read_records] accepts. *)
Definition valid_map (a : Devices) : Prop :=
  N.of_nat (size a) ≤ MAX_DEVICES ∧ map_Forall (λ id r, valid_record id r = true) a.

Lemma valid_identity devices : valid_map (identity <$> devices) ↔ valid_map devices.
Proof. unfold valid_map. by rewrite map_size_fmap, map_Forall_fmap. Qed.

Lemma file_valid f a : file_is f a → valid_map a.
Proof.
  intros (devices & Hr & <-). apply valid_identity. unfold read_or_default, read_records in Hr.
  destruct f as [f|]; res_inv; simplify_eq/=; [|done].
  match goal with Hx : _ && (N.of_nat _ <=? _) = true |- _ => apply andb_prop in Hx as [_ Hx%N.leb_le] end.
  match goal with Hx : bool_decide _ = true |- _ => by apply bool_decide_eq_true in Hx end.
Qed.

Lemma written_is stamp devices a :
  valid_map a → identity <$> devices = a → fs_len stamp ≤ MAX_FILE_BYTES →
  file_is (Some {| df_regular := true; df_owner_only := true; df_stamp := stamp;
                   df_json := Some {| rf_version := 1; rf_devices := devices |} |}) a.
Proof.
  intros Hv <- Hl. apply (proj1 (valid_identity _)) in Hv as [Hs Hv]. exists devices. split; [|done].
  unfold read_or_default, read_records. simpl. rewrite (proj2 (N.leb_le _ _) Hl), (proj2 (N.leb_le _ _) Hs).
  simpl. by rewrite bool_decide_eq_true_2.
Qed.

Lemma staged_implements a w : staged a a w → implements a w.
Proof. intros (? & ? & ?). by split. Qed.

Lemma hoare_lock P e :
  hoare P (lock_file e) (λ _, P) (λ _ w, P w ∧ e_locked e = false).
Proof. intros w Hw. unfold lock_file, lift_result, guard_err. by destruct (e_locked e). Qed.

(** A readable file is always reloaded. *)
Lemma hoare_reload a F : hoare (implements a) reload_if_changed (λ _, staged a a) F.
Proof.
  intros w [Hf Hm]. unfold reload_if_changed. case_bool_decide as Hs; [by split; [|auto]|].
  destruct Hf as (devices & Hr & Ha). rewrite Hr. split; [by exists devices|]. by split.
Qed.

Lemma hoare_insert a r :
  hoare (staged a a) (insert_device r)
    (λ _ w, staged a (<[dr_device_id r := identity r]> a) w ∧ ¬ full_for (dr_device_id r) a)
    (λ _ w, staged a a w ∧ full_for (dr_device_id r) a).
Proof.
  intros w (Hf & Hs & Hm). unfold insert_device.
  assert (i_devices (inner w) !! dr_device_id r = None ↔ a !! dr_device_id r = None) as Hn
    by by rewrite <-Hm, lookup_fmap, fmap_None.
  destruct (_ && _) eqn:Hfull.
  - split; [done|]. apply andb_prop in Hfull as [Hl%N.leb_le Hc%negb_true_iff%bool_decide_eq_false].
    split; [by rewrite <-Hm, map_size_fmap|]. apply Hn. by apply eq_None_not_Some.
  - split; [split; [done|]; split; [done|]; simpl; by rewrite fmap_insert, Hm|].
    intros [Hl Hnone]. apply andb_false_iff in Hfull as [Hc%N.leb_gt|Hc%negb_false_iff%bool_decide_eq_true].
    + rewrite <-Hm, map_size_fmap in Hl. lia.
    + apply Hn in Hnone. rewrite Hnone in Hc. by destruct Hc.
Qed.

(** Writing the devices of [m]. *)
Lemma write_records_is e devices m w w' r :
  valid_map m → identity <$> devices = m →
  write_records registry_bytes e {| rf_version := 1; rf_devices := devices |} w = (w', r) →
  (w' = w ∧ unwritable e m ∧ ∃ error, r = Err error) ∨
  (∃ f stamp, r = Ok stamp ∧ file_is f m ∧ disk_stamp f = Some stamp ∧ w' = set_disk f w).
Proof.
  intros Hv Hm Hw. apply write_records_cases in Hw as Hc. destruct Hc as [[-> [error ->]]|Hc].
  - left. split_and!; [done| |eauto]. unfold write_records in Hw. destruct (e_io e) eqn:Hio; [left; rewrite Hio; eauto|].
    destruct (_ <? _) eqn:Hl; [|done]. apply N.ltb_lt in Hl. right. eauto.
  - destruct Hc as (stamp & -> & Hl & Hlen & Hw'). right.
    match type of Hw' with _ = set_disk ?f _ => exists f, stamp end. split_and!; [done| |done|done]. apply written_is; [done..|]. by rewrite Hlen.
Qed.

Lemma hoare_write a m e :
  valid_map m →
  hoare (staged a m) (write_inner registry_bytes e) (λ _, staged m m) (λ _ w, staged a m w ∧ unwritable e m).
Proof.
  intros Hv w (Hf & Hs & Hm). unfold write_inner. destruct (write_records _ _ _ _) as [w' r] eqn:Hw.
  apply (write_records_is _ _ m) in Hw as [(-> & Hu & error & ->)|(f & stamp & -> & Hfile & Hst & ->)]; [by split|by split; [|split]|done..].
Qed.

Lemma new_record_valid e name key value :
  parse_public_key value = Some key → valid_record (device_id_for key) (new_record e name key) = true.
Proof.
  intros Hp. unfold valid_record. simpl.
  assert (base64_encode key = value) as ->.
  { unfold parse_public_key in Hp. destruct (negb _); [done|].
    apply bind_Some in Hp as (k & Hk & Hp). destruct (negb _); [done|].
    apply bind_Some in Hp as (? & _ & [= ->]). by apply base64_canonical. }
  rewrite Hp. by rewrite !bool_decide_eq_true_2.
Qed.

Lemma valid_insert id r a : valid_record id r = true → ¬ full_for id a → valid_map a → valid_map (<[id := r]> a).
Proof.
  intros Hr Hfull [Hs Hv]. split; [|by apply map_Forall_insert_2].
  destruct (a !! id) eqn:Hi.
  - rewrite map_size_insert_Some by eauto. done.
  - rewrite map_size_insert_None by done.
    assert (N.of_nat (size a) < MAX_DEVICES); [|lia]. apply N.lt_nge. intros ?. by apply Hfull.
Qed.

Lemma register_refines e name key value a (r := new_record e name key) :
  parse_public_key value = Some key → ¬ unwritable e (<[device_id_for key := r]> a) → valid_map a →
  hoare (implements a) (register registry_bytes e name key)
    (λ r' w, implements (<[device_id_for key := r]> a) w ∧ r' = r)
    (λ _ w, implements a w ∧ (e_locked e = false ∨ full_for (device_id_for key) a)).
Proof.
  intros Hp Hw Hv. unfold register; cbv zeta.
  apply (hoare_bind _ (λ _, implements a)); [eapply hoare_weaken; [apply hoare_lock|done|done|intros ? ? [? ?]; split; [done|by left]]|intros []].
  eapply hoare_bind; [apply hoare_reload|intros _changed].
  eapply hoare_bind; [eapply hoare_weaken; [apply hoare_insert|done|intros ? ? Hs; exact Hs|]|intros []].
  { intros _ w [? ?]. split; [by apply staged_implements|by right]. }
  apply hoare_pure. intros Hfull. eapply hoare_bind; [eapply hoare_weaken; [apply hoare_write|done|intros ? ? Hs; exact Hs|]|intros []].
  - apply valid_insert; [by eapply new_record_valid|done|done].
  - intros _ w [_ ?]. done.
  - intros w Hs. split; [by apply staged_implements|done].
Qed.

Lemma flush_refines e a :
  valid_map a →
  hoare (implements a) (flush registry_bytes e) (λ _, implements a)
    (λ _ w, implements a w ∧ (e_locked e = false ∨ unwritable e a)).
Proof.
  intros Hv. unfold flush.
  apply (hoare_bind _ (λ _, implements a)); [eapply hoare_weaken; [apply hoare_lock|done|done|intros ? ? [? ?]; split; [done|by left]]|intros []].
  eapply hoare_bind; [apply hoare_reload|intros changed].
  eapply hoare_bind; [apply hoare_asks|intros dirty].
  destruct (_ || _); [intros w; apply staged_implements|].
  eapply hoare_weaken; [by apply hoare_write|done|intros ?; apply staged_implements|].
  intros _ w [? ?]. split; [by apply staged_implements|by right].
Qed.

Lemma flush_if_due_implements e a w :
  valid_map a → implements a w → implements a (flush_if_due registry_bytes e w).1.
Proof.
  intros Hv Hw. unfold flush_if_due. destruct (_ || _); [done|].
  assert (implements a (reload_or_write registry_bytes e w).1) as Hl.
  { eapply (hoare_state (implements a) _ (λ _, implements a) (λ _, implements a)); [|done|done|done].
    unfold reload_or_write.
    apply (hoare_bind _ (λ _, implements a)); [eapply hoare_weaken; [apply hoare_lock|done|done|by intros ? ? [? _]]|intros []].
    eapply hoare_bind; [apply hoare_reload|intros []]; [intros ?; apply staged_implements|].
    eapply hoare_weaken; [by apply hoare_write|done|intros ?; apply staged_implements|].
    intros _ w' [? _]. by apply staged_implements. }
  destruct (reload_or_write registry_bytes e w) as [w' [[]|error]]; done.
Qed.

Lemma touch_implements e runtime id a w :
  valid_map a → implements a w → implements a (touch registry_bytes e runtime id w).
Proof.
  intros Hv Hw. unfold touch. destruct (i_devices (inner w) !! id) as [r|] eqn:Hr; [|done].
  set (w1 := set_inner _ w).
  assert (implements a w1) as Hw1.
  { destruct Hw as [Hf Hm]. split; [done|]. simpl. intros Hs. rewrite fmap_insert, insert_id; [auto|].
    rewrite lookup_fmap, Hr. done. }
  unfold schedule_flush. destruct (i_flush_scheduled _); [done|]. destruct runtime; [done|].
  by apply flush_if_due_implements.
Qed.

Lemma background_implements e a w :
  valid_map a → implements a w → implements a (background_flush registry_bytes e w).
Proof.
  intros Hv Hw. unfold background_flush.
  assert (implements a (flush_if_due registry_bytes e (set_inner (set_scheduled false) w)).1) as Hl
    by by apply flush_if_due_implements.
  destruct (i_dirty _); [|done]. unfold schedule_flush. by destruct (i_flush_scheduled _).
Qed.

(** A file another process wrote, which the daemon notices. *)
Lemma outside_implements a m f w :
  implements a w → file_is f m → (f = disk w ∨ disk_stamp f ≠ i_stamp (inner w)) → implements m (set_disk f w).
Proof.
  intros Hw Hf [->|Hs]; [|by split]. destruct (proj1 Hw) as (devices & Hr & Ha), Hf as (devices' & Hr' & <-).
  rewrite Hr in Hr'. injection Hr' as <-. rewrite Ha. by destruct w.
Qed.

(** What the refinement asks of a step: a registered key is one
    [parse_public_key] accepted and its write is not the one that fails; an
    edit by the owner is not a step of the specification. *)
Definition step_ok (op : RegistryOp) (a : Devices) : Prop :=
  match op with
  | ORegister e name key =>
      (∃ value, parse_public_key value = Some key) ∧
      ¬ unwritable e (<[device_id_for key := new_record e name key]> a)
  | OEdit _ => False
  | _ => True
  end.

Lemma revoke_refines e history id a w :
  valid_map a → implements a w → noticed registry_bytes (ORevoke e history id) w →
  ∃ a', spec_step (ORevoke e history id) a a' (run_op registry_bytes (ORevoke e history id) w).2 ∧
        implements a' (run_op registry_bytes (ORevoke e history id) w).1.
Proof.
  intros Hv Hw. unfold noticed. cbn [run_op answer fst snd].
  unfold revoke_device, lock_file, lift_result, asks, mbind, M_bind, guard_err.
  destruct (e_locked e) eqn:Hl; [|intros _; exists a; split; [apply spec_revoke_failed; by left|done]].
  destruct (proj1 Hw) as (devices & Hr & Ha). rewrite Hr. simpl.
  assert (a !! id = identity <$> devices !! id) as Hid by by rewrite <-Ha, lookup_fmap.
  destruct (devices !! id) as [r|] eqn:Hd; [|intros _; exists a; split; [by apply spec_revoke_absent|done]].
  destruct (write_records _ _ _ _) as [w1 r1] eqn:Hwr.
  apply (write_records_is _ _ (delete id a)) in Hwr as [(-> & Hu & error & ->)|(f & stamp & -> & Hf & _ & ->)].
  - intros _. exists a. split; [apply spec_revoke_failed; by right|done].
  - intros Hn. exists (delete id a). assert (is_Some (a !! id)) by (rewrite Hid; eauto).
    destruct history; (split; [by constructor|]); by apply (outside_implements a).
  - destruct Hv as [Hs Hv]. split; [|by apply map_Forall_delete].
    assert (size (delete id a) ≤ size a)%nat by apply map_subseteq_size, delete_subseteq. lia.
  - by rewrite fmap_delete, Ha.
Qed.

Lemma revoke_all_refines e history a w :
  implements a w → noticed registry_bytes (ORevokeAll e history) w →
  ∃ a', spec_step (ORevokeAll e history) a a' (run_op registry_bytes (ORevokeAll e history) w).2 ∧
        implements a' (run_op registry_bytes (ORevokeAll e history) w).1.
Proof.
  intros Hw. unfold noticed. cbn [run_op answer fst snd].
  unfold revoke_all_devices, lock_file, lift_result, mbind, M_bind, guard_err.
  destruct (e_locked e) eqn:Hl; [|intros _; exists a; split; [apply spec_revoke_all_failed; by left|done]].
  destruct (write_records _ _ _ _) as [w1 r1] eqn:Hwr.
  apply (write_records_is _ _ ∅) in Hwr as [(-> & Hu & error & ->)|(f & stamp & -> & Hf & _ & ->)].
  - intros _. exists a. split; [apply spec_revoke_all_failed; by right|done].
  - intros Hn. exists ∅. split; [|by apply (outside_implements a)]. destruct history; constructor.
  - split; [done|]. apply map_Forall_empty.
  - apply fmap_empty.
Qed.

(** The registry is a map of devices: every operation of the daemon and of the
    other process, on whatever version of the file the daemon holds, changes
    the devices the file and the daemon agree on, and answers, as the
    specification says. *)
Theorem registry_refines_map op a w :
  implements a w → step_ok op a → noticed registry_bytes op w →
  ∃ a', spec_step op a a' (run_op registry_bytes op w).2 ∧ implements a' (run_op registry_bytes op w).1.
Proof.
  intros Hw Hok Hn. pose proof (file_valid _ _ (proj1 Hw)) as Hv.
  destruct op as [e name key|id|e runtime id|e|e|e history id|e history|f]; cbn [run_op answer fst snd].
  - destruct Hok as [[value Hp] Hu]. pose proof (register_refines e name key value a Hp Hu Hv w Hw) as Hr.
    destruct (register registry_bytes e name key w) as [w' [r|error]]; destruct Hr as [Hi Hr].
    + subst r. eexists. split; [apply spec_register|done].
    + eexists. split; [by apply spec_register_refused|done].
  - exists a. unfold get, mbind, M_bind. pose proof (hoare_reload a (λ _ _, False) w Hw) as Hr.
    destruct (reload_if_changed w) as [w' [changed|error]]; [|done].
    split; [|by apply staged_implements]. destruct Hr as (_ & _ & <-). apply spec_get. by rewrite lookup_fmap.
  - exists a. split; [constructor|by apply touch_implements].
  - exists a. split; [constructor|by apply background_implements].
  - pose proof (flush_refines e a Hv w Hw) as Hr. exists a.
    destruct (flush registry_bytes e w) as [w' [u|error]]; [split; [constructor|done]|].
    destruct Hr as [? ?]. split; [by constructor|done].
  - by apply revoke_refines.
  - by apply revoke_all_refines.
  - done.
Qed.
End refinement.

Section theorems.
Context `{AuthCryptoLaws} (registry_bytes : RegistryFile → N).

(** C25: A revoked device is locked out at once and for good. Once [revoke_device]
    answered that it removed the device, or removed it and failed afterwards to
    update the history keys, no request is forwarded as that device, whatever
    the two processes do later short of pairing its key again: no write of the
    daemon brings it back and no stale copy answers for it. *)
Theorem revoked_device_is_refused d e history w w1 r ops :
  revoke_device registry_bytes e history d w = (w1, r) →
  r = Ok true ∨ disk w1 ≠ disk w →
  noticed registry_bytes (ORevoke e history d) w → noticed_run registry_bytes ops w1 →
  Forall (λ op, ¬ adds d op) ops →
  ∀ boot checked claimed rq c c' fw,
    device_auth_middleware (registry_get (run registry_bytes ops w1)) boot checked claimed rq c = (c', Ok fw) →
    fw_headers fw !! VERIFIED_HEADER ≠ Some d.
Proof.
  intros Hr Hdone Hn Hns Ha.
  assert (locked d w1) as Hl.
  { unfold noticed in Hn. cbn [run_op answer fst] in Hn. rewrite Hr in Hn. simpl in Hn.
    apply revoke_device_cases in Hr as [[-> ?]|(devices & st & stamp & Hread & [rec Hrec] & _ & ->)]; [by destruct Hdone|].
    assert (file_lacks d (disk (set_disk (Some {| df_regular := true; df_owner_only := true; df_stamp := stamp;
      df_json := Some {| rf_version := 1; rf_devices := delete d devices |} |}) w))) as Hlacks
      by (apply written_lacks, lookup_delete_eq).
    split; [done|]. simpl in *. destruct Hn as [Hn|Hn]; [|done]. rewrite Hn in Hlacks.
    by rewrite (Hlacks _ _ Hread) in Hrec. }
  apply (run_locked registry_bytes d ops) in Hl; [|done..]. intros boot checked claimed rq c c' fw Hm Hd.
  apply middleware_Ok in Hm as (p & Hck & _ & _ & _ & Hmark). rewrite Hmark in Hd. injection Hd as Hd.
  destruct (ck_device _ _ _ _ _ _ Hck) as (value & raw & Hget & _). rewrite Hd in Hget.
  by apply locked_get in Hget.
Qed.

(** A registration whose file write fails is reported as failed, but the
    daemon keeps the device in memory: it answers for it from then on, and the
    other process, which finds no such device in the file, cannot revoke it. *)
Theorem failed_registration_is_kept e name key error a w :
  implements a w → a !! device_id_for key = None → N.of_nat (size a) < MAX_DEVICES →
  e_locked e = true → e_io e = Some error →
  let '(w1, r) := register registry_bytes e name key w in
  r = Err error ∧ registry_get w1 (device_id_for key) = Ok (Some (base64_encode key)) ∧
  ∀ e2 history, e_locked e2 = true →
    revoke_device registry_bytes e2 history (device_id_for key) w1 = (w1, Ok false).
Proof.
  intros Hw Hnew Hroom Hlock Hio. unfold register, lock_file, lift_result, guard_err, mbind, M_bind; cbv zeta.
  rewrite Hlock. pose proof (hoare_reload a (λ _ _, False) w Hw) as Hs.
  destruct (reload_if_changed w) as [w' [changed|]]; [|done].
  pose proof (hoare_insert a (new_record e name key) w' Hs) as Hi.
  destruct (insert_device (new_record e name key) w') as [w1 [[]|]] eqn:Hins.
  2: { destruct Hi as [_ [Hfull _]]. lia. }
  destruct Hi as [(Hf & Hst & _) _]. unfold write_inner, write_records. rewrite Hio. split; [done|].
  assert (i_devices (inner w1) !! device_id_for key = Some (new_record e name key)) as Hk.
  { unfold insert_device in Hins. destruct (_ && _); [done|]. injection Hins as <-. apply lookup_insert_eq. }
  split.
  - unfold registry_get, get, reload_if_changed, asks, mbind, M_bind. rewrite bool_decide_eq_true_2 by done.
    simpl. by rewrite Hk.
  - intros e2 history Hl2. unfold revoke_device, lock_file, lift_result, asks, guard_err, mbind, M_bind. rewrite Hl2.
    destruct Hf as (devices & Hr & <-). rewrite Hr. simpl. rewrite lookup_fmap, fmap_None in Hnew.
    simpl in Hnew. by rewrite Hnew.
Qed.
End theorems.

(** ** A registry with two devices *)
Module RegistryExample.
Import Toy.

Definition size_of (_ : RegistryFile) : N := 1000.
Definition key1 : bytes := repeat Byte.x01 32.
Definition key2 : bytes := repeat Byte.x02 32.
Definition env (n : N) : Env :=
  {| e_unix_ms := n; e_now := n; e_locked := true; e_io := None; e_modified := Some n; e_inode := n |}.
Definition empty_daemon : Inner :=
  {| i_devices := ∅; i_stamp := None; i_dirty := false; i_last_flush := 0;
     i_flush_interval := SEEN_FLUSH_INTERVAL; i_flush_scheduled := false |}.
Definition no_file : World := {| disk := None; inner := empty_daemon |}.
Definition two_devices : World :=
  Eval vm_compute in run size_of [ORegister (env 1) (b "laptop") key1; ORegister (env 2) (b "phone") key2] no_file.
Definition id1 : bytes := Eval vm_compute in device_id_for key1.
Definition revoked : World := Eval vm_compute in (revoke_device size_of (env 3) (Ok 1) id1 two_devices).1.
Definition afterwards : list RegistryOp :=
  [OTouch (env 4) true id1; OGet id1; OBackgroundFlush (env 70000); OFlush (env 70001); ORegister (env 70002) (b "tablet") (repeat Byte.x03 32)].

(** A signed request of the first device. *)
Definition request1 : Request := Eval vm_compute in
  {| rq_method := b "POST"; rq_path := b "/x"; rq_query := None;
     rq_headers := list_to_map [(HEADER_DEVICE_ID, id1); (HEADER_TIMESTAMP, b "1000"); (HEADER_NONCE, b "n1");
       (HEADER_SIGNATURE, enc (signed_payload_for_hash id1 (b "POST") (b "/x") (canonical_query None) (b "1000") (b "n1")
                                 (enc (sha256 body))))];
     rq_body := Ok body |}.

Lemma no_file_empty : implements ∅ no_file.
Proof. split; [|done]. by exists ∅. Qed.

Lemma registry_refines_map_witness :
  ∃ a', spec_step size_of (ORegister (env 1) (b "laptop") key1) ∅ a'
          (run_op size_of (ORegister (env 1) (b "laptop") key1) no_file).2 ∧
        implements a' (run_op size_of (ORegister (env 1) (b "laptop") key1) no_file).1.
Proof.
  apply (registry_refines_map size_of); [exact no_file_empty| |exact I]. split.
  - exists (enc key1). vm_compute. reflexivity.
  - intros [[? Hio]|(devices & _ & Hlen)]; [discriminate Hio|]. unfold size_of, MAX_FILE_BYTES in Hlen. lia.
Defined.

Lemma revoked_device_is_refused_witness :
  fw_body <$> (device_auth_middleware (registry_get two_devices) 0 1000 1000 request1 NonceCache_default).2 = Ok body ∧
  ∀ c' fw, device_auth_middleware (registry_get (run size_of afterwards revoked)) 0 1000 1000 request1 NonceCache_default = (c', Ok fw) →
    fw_headers fw !! VERIFIED_HEADER ≠ Some id1.
Proof.
  split; [vm_compute; reflexivity|]. intros c' fw.
  apply (revoked_device_is_refused size_of id1 (env 3) (Ok 1) two_devices revoked (Ok true)).
  - vm_compute. reflexivity.
  - left. reflexivity.
  - right. vm_compute. discriminate.
  - vm_compute. tauto.
  - repeat constructor; cbn [adds]; try tauto. vm_compute. discriminate.
Defined.

Lemma failed_registration_is_kept_witness :
  let e := {| e_unix_ms := 5; e_now := 5; e_locked := true; e_io := Some (Anyhow "disk full"); e_modified := None; e_inode := 0 |} in
  let '(w1, r) := register size_of e (b "laptop") key1 no_file in
  r = Err (Anyhow "disk full") ∧ registry_get w1 (device_id_for key1) = Ok (Some (base64_encode key1)) ∧
  ∀ e2 history, e_locked e2 = true → revoke_device size_of e2 history (device_id_for key1) w1 = (w1, Ok false).
Proof.
  apply (failed_registration_is_kept size_of _ _ _ _ ∅); [exact no_file_empty|reflexivity|vm_compute; reflexivity|reflexivity|reflexivity].
Defined.
End RegistryExample.
