(* ===== verification/Pairing.v ===== *)
(** * Device pairing

    Model of src/src/device_pairing.rs: the table of pairing requests, their
    two-step (commit, then reveal) protocol, the admission limits, the control
    files through which the local approver decides, and the registration of an
    approved device in the registry of [Devices]. [Instant]s are nanoseconds of
    a monotonic clock, one reading per call of the code; random bytes, request
    ids and the transport key in force are arguments. Hashing, base64 and key
    parsing are the class [AuthCrypto]; X25519, HKDF-SHA256, XChaCha20-Poly1305,
    the weak-key test and the JSON of the credential are [PairingCrypto].
    Control files are private to the owner, and removing one succeeds. *)
From S2P Require Import Prelude Bytes Query DeviceAuth Devices.
From Stdlib Require Import Strings.Byte.
Local Open Scope N_scope.

Definition SECOND : N := 1000000000.
Definition TTL : N := 300 * SECOND.
Definition TTL_MS : N := 300000.
Definition REVEAL_DEADLINE : N := 30 * SECOND.
Definition MAX_ACTIVE : N := 16.
Definition MAX_UNFINISHED_PER_SOURCE : N := 2.
Definition MAX_DEVICE_NAME_CHARS : nat := 80.
Definition MAX_RECORDS : N := 64.
Definition COMMIT_LABEL : bytes := Eval vm_compute in b "todex.device-pairing.v3/commit".
Definition TRANSCRIPT_DOMAIN : bytes := Eval vm_compute in b "todex.device-pairing.v3/transcript" ++ [Byte.x00].
Definition WRAP_INFO : bytes := Eval vm_compute in b "todex.device-pairing.v3/wrap-key".
Definition POLL_INFO : bytes := Eval vm_compute in b "todex.device-pairing.v3/poll-proof".
Definition CANCEL_INFO : bytes := Eval vm_compute in b "todex.device-pairing.v3/cancel-proof".

Definition invalid (message : string) : AppError := InvalidRequest message.

(** ** Names, addresses and ids *)

(** [str::chars] of UTF-8 text; the length of the text is enough fuel. *)
Fixpoint chars_go (fuel : nat) (text : bytes) : list N :=
  match fuel, text with
  | S fuel, c :: rest =>
      let v := byte_val c in
      let tail n := foldl (λ acc x, acc * 64 + (byte_val x - 0x80)) (v mod 2 ^ (6 - N.of_nat n)) (take n rest) in
      if v <? 0x80 then v :: chars_go fuel rest
      else if v <? 0xe0 then tail 1%nat :: chars_go fuel (drop 1 rest)
      else if v <? 0xf0 then tail 2%nat :: chars_go fuel (drop 2 rest)
      else tail 3%nat :: chars_go fuel (drop 3 rest)
  | _, _ => []
  end.
Definition chars (text : bytes) : list N := chars_go (length text) text.

Definition between (lo hi c : N) : bool := (lo <=? c) && (c <=? hi).
(** [char::is_whitespace] and [char::is_control]. *)
Definition is_whitespace (c : N) : bool :=
  between 0x09 0x0d c || (c =? 0x20) || (c =? 0x85) || (c =? 0xa0) || (c =? 0x1680) || between 0x2000 0x200a c ||
  (c =? 0x2028) || (c =? 0x2029) || (c =? 0x202f) || (c =? 0x205f) || (c =? 0x3000).
Definition is_control (c : N) : bool := (c <? 0x20) || between 0x7f 0x9f c.
Definition is_bidi (c : N) : bool :=
  (c =? 0x200e) || (c =? 0x200f) || between 0x202a 0x202e c || between 0x2066 0x2069 c.

Definition validate_device_name (name : bytes) : result AppError unit :=
  let cs := chars name in
  let ends_with_space o := match o with Some c => is_whitespace c | None => false end in
  if (length cs =? 0)%nat || (MAX_DEVICE_NAME_CHARS <? length cs)%nat ||
     ends_with_space (head cs) || ends_with_space (last cs) || existsb (λ c, is_control c || is_bidi c) cs
  then Err (invalid "deviceName must be 1-80 characters without control or bidirectional formatting characters and without leading or trailing whitespace")
  else Ok tt.

(** A [Uuid] prints as 32 lower-case hexadecimal digits in five groups, and
    [parse_str] reads that form back. *)
Definition lower_hex_digit (c : byte) : bool := between 0x30 0x39 (byte_val c) || between 0x61 0x66 (byte_val c).
Definition is_uuid (id : bytes) : bool :=
  (length id =? 36)%nat &&
  forallb (λ '(i, c), if decide (i ∈ [8; 13; 18; 23]%nat) then Byte.eqb c "-" else lower_hex_digit c)
    (zip (seq 0 36) id).
Definition validate_id (id : bytes) : result AppError unit :=
  guard_err (is_uuid id) (invalid "invalid pairing request id").

Inductive IpAddr : Type := V4 (bits : N) | V6 (bits : N).
#[export] Instance IpAddr_eq_dec : EqDecision IpAddr.
Proof. solve_decision. Defined.
(** [to_canonical]: an IPv4-mapped address is the IPv4 address. *)
Definition to_canonical (a : IpAddr) : IpAddr :=
  match a with
  | V6 bits => if N.shiftr bits 32 =? 0xffff then V4 (N.land bits (2 ^ 32 - 1)) else a
  | V4 _ => a
  end.
Definition source_key (peer : IpAddr) : IpAddr :=
  match to_canonical peer with
  | V4 bits => V4 bits
  | V6 bits => V6 (N.ldiff bits u64_MAX)
  end.

Inductive PairingPeer : Type := PeerIp (a : IpAddr) | PeerIpc.
Inductive SourceKey : Type := SourceIp (a : IpAddr) | SourceIpc.
#[export] Instance SourceKey_eq_dec : EqDecision SourceKey.
Proof. solve_decision. Defined.
Definition peer_source (peer : PairingPeer) : SourceKey :=
  match peer with PeerIp a => SourceIp (source_key a) | PeerIpc => SourceIpc end.

Record PairingArrival : Type := { pa_origin : option bytes; pa_via_proxy : bool }.
Definition PairingArrival_new (origin : option bytes) (via_proxy : bool) : PairingArrival :=
  {| pa_origin := (λ o : bytes,
       match take 200 (filter (λ c, between 0x21 0x7e (byte_val c) = true) o) with [] => b "?" | kept => kept end) <$> origin;
     pa_via_proxy := via_proxy |}.

(** ** Rate windows *)

Record RateWindow (K : Type) : Type := { rw_window : N; rw_events : list (N * K) }.
Arguments rw_window {K} _.
Arguments rw_events {K} _.
Definition RateWindow_new {K} (window : N) : RateWindow K := {| rw_window := window; rw_events := [] |}.

Fixpoint drop_old {K} (window now : N) (events : list (N * K)) : list (N * K) :=
  match events with
  | (instant, k) :: rest => if window <=? now - instant then drop_old window now rest else events
  | [] => []
  end.

(** [wait.as_secs() + u64::from(wait.subsec_nanos() > 0)]. *)
Definition whole_seconds (wait : N) : N := wait / SECOND + (if wait mod SECOND =? 0 then 0 else 1).

Definition oldest_blocking {K} `{EqDecision K} (key : K) (global per_key : N) (events : list (N * K)) : option N :=
  if global <=? N.of_nat (length events) then fst <$> head events
  else
    match filter (λ e, e.2 = key) events with
    | [] => None
    | (instant, _) :: same => if per_key <=? 1 + N.of_nat (length same) then Some instant else None
    end.

Definition admit_event {K} `{EqDecision K} (now : N) (key : K) (global per_key : N) : M (RateWindow K) AppError unit := λ self,
  let events := drop_old (rw_window self) now (rw_events self) in
  let kept := {| rw_window := rw_window self; rw_events := events |} in
  match oldest_blocking key global per_key events with
  | Some oldest =>
      (kept, Err (RateLimited "device pairing rate limit reached; retry later"
                    (whole_seconds (rw_window self - (now - oldest)))))
  | None => ({| rw_window := rw_window self; rw_events := events ++ [(now, key)] |}, Ok tt)
  end.

(** ** Messages *)

Inductive PairingEncryption : Type := Plaintext | X25519 | MlKem768.
#[export] Instance PairingEncryption_eq_dec : EqDecision PairingEncryption.
Proof. solve_decision. Defined.
Definition protocol_str (p : PairingEncryption) : bytes :=
  match p with Plaintext => b "none" | X25519 => b "x25519" | MlKem768 => b "ml-kem-768" end.

(** A JSON value a binding field holds, as far as it is looked at. *)
Inductive Binding : Type := BindingInteger (n : N) | BindingOther.
#[export] Instance Binding_eq_dec : EqDecision Binding.
Proof. solve_decision. Defined.

Record CreateDevicePairingRequest : Type := {
  cq_client_commitment : option bytes;
  cq_client_public_key : option bytes;
  cq_transport_binding : option Binding;
  cq_device_name_binding : option Binding;
  cq_device_name : bytes;
  cq_device_public_key : bytes;
}.
Record RevealDevicePairingRequest : Type := {
  rv_request_id : bytes; rv_client_public_key : bytes; rv_client_nonce : bytes;
}.
Record DevicePairingProofRequest : Type := { pq_request_id : bytes; pq_proof : bytes }.
Record CreateDevicePairingResponse : Type := {
  cs_request_id : bytes;
  cs_server_public_key : bytes;
  cs_expires_at : N;
  cs_poll_interval_ms : N;
  cs_transport_protocol : PairingEncryption;
  cs_transport_public_key : bytes;
}.
Inductive PollStatus : Type := PollPending | PollApproved | PollRejected | PollExpired.
Record DevicePairingPollResponse : Type := {
  ps_status : PollStatus; ps_expires_at : N; ps_nonce : option bytes; ps_ciphertext : option bytes;
}.
Definition poll_state (status : PollStatus) (expires_at : N) : DevicePairingPollResponse :=
  {| ps_status := status; ps_expires_at := expires_at; ps_nonce := None; ps_ciphertext := None |}.

(** The transport key a request delivers. *)
Record TransportBinding : Type := { tb_protocol : PairingEncryption; tb_public_key : bytes }.
#[export] Instance TransportBinding_eq_dec : EqDecision TransportBinding.
Proof. solve_decision. Defined.

(** The control files: what the approver reads, and the decision. The peer is
    kept instead of its text. *)
Record DevicePairingRequestSummary : Type := {
  sm_request_id : bytes;
  sm_verification_code : bytes;
  sm_device_name : bytes;
  sm_device_id : bytes;
  sm_expires_at : N;
  sm_peer : PairingPeer;
  sm_transport_fingerprint : option bytes;
  sm_arrival : PairingArrival;
}.
Record LocalDecision : Type := { ld_request_id : bytes; ld_approved : bool }.

(** X25519 on 32-byte strings, HKDF-SHA256 with a 32-byte output, the AEAD
    with a 24-byte nonce, Ed25519's small-order test, and the JSON text of the
    credential [(device id, protocol, base64 of the key)]. *)
Class PairingCrypto := {
  x25519_public : bytes → bytes;
  diffie_hellman : bytes → bytes → bytes;      (* own secret, other public key *)
  hkdf_sha256 : bytes → bytes → bytes → bytes; (* salt, input, info *)
  xchacha_encrypt : bytes → bytes → bytes → bytes → option bytes; (* key, nonce, message, associated data *)
  xchacha_decrypt : bytes → bytes → bytes → bytes → option bytes;
  is_weak : bytes → bool;
  credential_to_json : bytes → PairingEncryption → bytes → bytes;
  credential_from_json : bytes → option (bytes * PairingEncryption * bytes);
}.

(** ** The material both sides derive *)
Section material.
Context `{AuthCrypto} `{PairingCrypto}.

(** [u32_be(len(x)) || x]. *)
Definition length_prefixed (value : bytes) : bytes := u32_to_be_bytes (N.of_nat (length value)) ++ value.

Definition commitment (client_public client_nonce : bytes) : bytes :=
  sha256 (length_prefixed COMMIT_LABEL ++ client_public ++ client_nonce).

Record PairingMaterial : Type := {
  pm_transcript : bytes;
  pm_wrap_key : bytes;
  pm_poll_proof : bytes;
  pm_cancel_proof : bytes;
  pm_verification_code : bytes;
}.

Definition upper_hex_digit (n : N) : byte := if n <? 10 then byte_of (0x30 + n) else byte_of (0x41 + n - 10).
Definition upper_hex (l : bytes) : bytes :=
  flat_map (λ c, [upper_hex_digit (byte_val c / 16); upper_hex_digit (byte_val c mod 16)]) l.

Definition pairing_transcript (request_id client_public server_public device_public client_nonce : bytes)
    (transport : TransportBinding) (device_name : bytes) : bytes :=
  TRANSCRIPT_DOMAIN ++ request_id ++ [Byte.x00] ++ client_public ++ server_public ++ [Byte.x00] ++ device_public
  ++ client_nonce ++ length_prefixed (protocol_str (tb_protocol transport))
  ++ length_prefixed (tb_public_key transport) ++ length_prefixed device_name.

(** [PairingMaterial::derive]; expanding 32 bytes never fails. *)
Definition derive (request_id client_public server_public device_public client_nonce : bytes)
    (transport : TransportBinding) (device_name shared : bytes) : result AppError PairingMaterial :=
  if decide (shared = repeat Byte.x00 32) then Err (invalid "invalid client public key")
  else
    let transcript :=
      pairing_transcript request_id client_public server_public device_public client_nonce transport device_name in
    let salt := sha256 transcript in
    let short := upper_hex (take 5 salt) in
    Ok {| pm_transcript := transcript;
          pm_wrap_key := hkdf_sha256 salt shared WRAP_INFO;
          pm_poll_proof := hkdf_sha256 salt shared POLL_INFO;
          pm_cancel_proof := hkdf_sha256 salt shared CANCEL_INFO;
          pm_verification_code := take 5 short ++ b "-" ++ drop 5 short |}.

Definition wrap_credential (self : PairingMaterial) (device_id : bytes) (transport : TransportBinding)
    (nonce : bytes) : result AppError bytes :=
  let plaintext :=
    credential_to_json device_id (tb_protocol transport) (base64_encode (tb_public_key transport)) in
  encrypted ← ok_or (xchacha_encrypt (pm_wrap_key self) nonce plaintext (pm_transcript self))
                (invalid "unable to encrypt pairing response");
  Ok (base64_encode encrypted).

Definition transport_fingerprint (public_key : bytes) : option bytes :=
  match public_key with
  | [] => None
  | _ =>
      let hex := upper_hex (take 8 (sha256 public_key)) in
      Some (take 4 hex ++ b "-" ++ take 4 (drop 4 hex) ++ b "-" ++ take 4 (drop 8 hex) ++ b "-" ++ drop 12 hex)
  end.

Definition decode_32 (value : bytes) : result AppError bytes :=
  if negb (N.of_nat (length value) =? 43) then Err (invalid "invalid pairing key or proof")
  else
    raw ← ok_or (base64_decode value) (invalid "invalid pairing key or proof");
    if N.of_nat (length raw) =? 32 then Ok raw else Err (invalid "invalid pairing key or proof").
End material.

(** ** The registry of requests *)

Inductive RequestStatus : Type := Pending | Approved | Rejected.
#[export] Instance RequestStatus_eq_dec : EqDecision RequestStatus.
Proof. solve_decision. Defined.

Inductive Stage : Type :=
  | Committed (server_secret commitment : bytes) (reveal_by : N)
  | Revealed (material : PairingMaterial).

Record PendingRequest : Type := {
  pr_stage : Stage;
  pr_server_public : bytes;
  pr_transport : TransportBinding;
  pr_peer : PairingPeer;
  pr_source : SourceKey;
  pr_arrival : PairingArrival;
  pr_device_name : bytes;
  pr_device_public_key : bytes;
  pr_created : N;
  pr_expires : N;
  pr_expires_at : N;
  pr_status : RequestStatus;
  pr_reveals : RateWindow unit;
  pr_proofs : RateWindow unit;
}.

(** The table, its windows, the control files by request id (an unreadable
    one is the error reading it gives) and the device registry. *)
Record RegistryState : Type := {
  rs_requests : gmap bytes PendingRequest;
  rs_creates : RateWindow SourceKey;
  rs_lookups : RateWindow unit;
  rs_summaries : gmap bytes (result AppError DevicePairingRequestSummary);
  rs_decisions : gmap bytes (result AppError LocalDecision);
  rs_devices : World;
}.

Definition set_requests (m : gmap bytes PendingRequest) (s : RegistryState) : RegistryState :=
  {| rs_requests := m; rs_creates := rs_creates s; rs_lookups := rs_lookups s; rs_summaries := rs_summaries s;
     rs_decisions := rs_decisions s; rs_devices := rs_devices s |}.
Definition set_creates (w : RateWindow SourceKey) (s : RegistryState) : RegistryState :=
  {| rs_requests := rs_requests s; rs_creates := w; rs_lookups := rs_lookups s; rs_summaries := rs_summaries s;
     rs_decisions := rs_decisions s; rs_devices := rs_devices s |}.
Definition set_lookups (w : RateWindow unit) (s : RegistryState) : RegistryState :=
  {| rs_requests := rs_requests s; rs_creates := rs_creates s; rs_lookups := w; rs_summaries := rs_summaries s;
     rs_decisions := rs_decisions s; rs_devices := rs_devices s |}.
Definition set_files (sm : gmap bytes (result AppError DevicePairingRequestSummary))
    (ds : gmap bytes (result AppError LocalDecision)) (s : RegistryState) : RegistryState :=
  {| rs_requests := rs_requests s; rs_creates := rs_creates s; rs_lookups := rs_lookups s; rs_summaries := sm;
     rs_decisions := ds; rs_devices := rs_devices s |}.
Definition set_registry (w : World) (s : RegistryState) : RegistryState :=
  {| rs_requests := rs_requests s; rs_creates := rs_creates s; rs_lookups := rs_lookups s;
     rs_summaries := rs_summaries s; rs_decisions := rs_decisions s; rs_devices := w |}.

Definition with_stage (st : Stage) (p : PendingRequest) : PendingRequest :=
  {| pr_stage := st; pr_server_public := pr_server_public p; pr_transport := pr_transport p; pr_peer := pr_peer p;
     pr_source := pr_source p; pr_arrival := pr_arrival p; pr_device_name := pr_device_name p;
     pr_device_public_key := pr_device_public_key p; pr_created := pr_created p; pr_expires := pr_expires p;
     pr_expires_at := pr_expires_at p; pr_status := pr_status p; pr_reveals := pr_reveals p; pr_proofs := pr_proofs p |}.
Definition with_status (st : RequestStatus) (p : PendingRequest) : PendingRequest :=
  {| pr_stage := pr_stage p; pr_server_public := pr_server_public p; pr_transport := pr_transport p; pr_peer := pr_peer p;
     pr_source := pr_source p; pr_arrival := pr_arrival p; pr_device_name := pr_device_name p;
     pr_device_public_key := pr_device_public_key p; pr_created := pr_created p; pr_expires := pr_expires p;
     pr_expires_at := pr_expires_at p; pr_status := st; pr_reveals := pr_reveals p; pr_proofs := pr_proofs p |}.
Definition with_windows (rv pf : RateWindow unit) (p : PendingRequest) : PendingRequest :=
  {| pr_stage := pr_stage p; pr_server_public := pr_server_public p; pr_transport := pr_transport p; pr_peer := pr_peer p;
     pr_source := pr_source p; pr_arrival := pr_arrival p; pr_device_name := pr_device_name p;
     pr_device_public_key := pr_device_public_key p; pr_created := pr_created p; pr_expires := pr_expires p;
     pr_expires_at := pr_expires_at p; pr_status := pr_status p; pr_reveals := rv; pr_proofs := pf |}.

(** What a call meets. *)
Record PairingEnv : Type := {
  pe_pruned : N;                         (* [Instant::now()] in [prune] *)
  pe_now : N;                            (* [Instant::now()] of the call *)
  pe_unix_ms : N;
  pe_transport : result AppError bytes;  (* the transport public key in force *)
  pe_request_id : bytes;                 (* [Uuid::new_v4()] *)
  pe_server_secret : bytes;
  pe_nonce : bytes;
  pe_write : result AppError unit;       (* writing a control file *)
  pe_devices : Env;                      (* what [DeviceRegistry::register] meets *)
}.

Section operations.
Context `{AuthCrypto} `{PairingCrypto}.
(** The length of the registry file, the order a hash map is iterated in, and
    the configuration. *)
Context (registry_bytes : RegistryFile → N).
Context (hash_order : gmap bytes PendingRequest → list bytes).
Context (enabled : bool) (transport_protocol : PairingEncryption).
Abbreviation P := (M RegistryState AppError).

(** Runs a method of a part of the state. *)
Definition on_creates {A} (f : M (RateWindow SourceKey) AppError A) : P A := λ s,
  match f (rs_creates s) with (w, r) => (set_creates w s, r) end.
Definition on_lookups {A} (f : M (RateWindow unit) AppError A) : P A := λ s,
  match f (rs_lookups s) with (w, r) => (set_lookups w s, r) end.
Definition on_devices {A} (f : M World AppError A) : P A := λ s,
  match f (rs_devices s) with (w, r) => (set_registry w s, r) end.

Definition remove_local_files (id : bytes) (s : RegistryState) : RegistryState :=
  set_files (delete id (rs_summaries s)) (delete id (rs_decisions s)) s.
Definition remove_request (id : bytes) (s : RegistryState) : RegistryState :=
  set_requests (delete id (rs_requests s)) s.

(** [PendingRequest::material]. *)
Definition material (p : PendingRequest) : option PairingMaterial :=
  match pr_stage p with Revealed m => Some m | Committed _ _ _ => None end.
Definition is_committed (p : PendingRequest) : bool :=
  match pr_stage p with Committed _ _ _ => true | Revealed _ => false end.

(** ** Expiry and decisions *)

Definition expired_request (now : N) (p : PendingRequest) : bool :=
  (pr_expires p <=? now) ||
  match pr_stage p with Committed _ _ reveal_by => reveal_by <=? now | Revealed _ => false end.

Definition expired_ids (now : N) (s : RegistryState) : list bytes :=
  filter (λ id, match rs_requests s !! id with Some p => expired_request now p | None => false end = true)
    (hash_order (rs_requests s)).

(** One round of the loop over the decisions. *)
Definition take_decision (id : bytes) : P unit := λ s,
  match rs_requests s !! id with
  | None => (s, Ok tt)
  | Some p =>
      if decide (pr_status p ≠ Pending) then (s, Ok tt)
      else
        match rs_decisions s !! id with
        | None => (s, Ok tt)
        | Some (Err e) => (s, Err e)
        | Some (Ok decision) =>
            if decide (ld_request_id decision ≠ id)
            then (s, Err (invalid "local pairing decision does not match its request"))
            else
              let status := if ld_approved decision then Approved else Rejected in
              (remove_local_files id (set_requests (<[id := with_status status p]> (rs_requests s)) s), Ok tt)
        end
  end.
Fixpoint take_decisions (ids : list bytes) : P unit :=
  match ids with
  | [] => mret tt
  | id :: ids => _ ← take_decision id; take_decisions ids
  end.

Definition prune (now : N) : P unit :=
  _ ← updates (λ s, foldl (λ s id, remove_local_files id (remove_request id s)) s (expired_ids now s));
  requests ← asks rs_requests;
  take_decisions (hash_order requests).

Definition write_new_summary (e : PairingEnv) (summary : DevicePairingRequestSummary) : P unit := λ s,
  match rs_summaries s !! sm_request_id summary with
  | Some _ => (s, Err (Conflict "pairing request already has a decision"))
  | None =>
      match pe_write e with
      | Err error => (s, Err error)
      | Ok _ => (set_files (<[sm_request_id summary := Ok summary]> (rs_summaries s)) (rs_decisions s) s, Ok tt)
      end
  end.

(** ** The four calls of a client *)

Definition transport_binding (e : PairingEnv) : result AppError TransportBinding :=
  key ← pe_transport e; Ok {| tb_protocol := transport_protocol; tb_public_key := key |}.

(** The checks of a request before the table is locked. *)
Definition check_create (e : PairingEnv) (request : CreateDevicePairingRequest) :
    result AppError (bytes * bytes * TransportBinding) :=
  _ ← guard_err enabled (Conflict "Authentication is disabled; connect without device pairing");
  _ ← guard_err (bool_decide (cq_client_public_key request = None))
        (ProtocolUpgradeRequired "device pairing v2 is retired; update this client to pairing v3 (clientCommitment)");
  _ ← guard_err (bool_decide (cq_transport_binding request = Some (BindingInteger 1)))
        (ProtocolUpgradeRequired "this client does not take the transport key from device pairing; update it (transportBinding: 1)");
  _ ← guard_err (bool_decide (cq_device_name_binding request = Some (BindingInteger 1)))
        (ProtocolUpgradeRequired "this client does not bind the device name into pairing; update it (deviceNameBinding: 1)");
  _ ← validate_device_name (cq_device_name request);
  value ← ok_or (cq_client_commitment request) (invalid "missing clientCommitment");
  commitment ← decode_32 value;
  device_public ← ok_or (parse_public_key (cq_device_public_key request)) (invalid "invalid device public key");
  _ ← guard_err (negb (is_weak device_public)) (invalid "device public key is a weak Ed25519 key");
  transport ← transport_binding e;
  Ok (commitment, device_public, transport).

Definition count_requests (f : PendingRequest → bool) (m : gmap bytes PendingRequest) : N :=
  N.of_nat (size (filter (λ x : bytes * PendingRequest, f x.2 = true) m)).
Definition unfinished_from (source : SourceKey) (p : PendingRequest) : bool :=
  bool_decide (pr_source p = source) && bool_decide (pr_status p = Pending).
Definition is_active (p : PendingRequest) : bool := bool_decide (pr_status p ≠ Rejected).

(** [min_by_key(created)] of the unrevealed requests: the first minimum. *)
Definition oldest_unrevealed (m : gmap bytes PendingRequest) : option bytes :=
  foldl (λ best id,
    match m !! id with
    | Some p =>
        if is_committed p then
          match best ≫= (λ i, m !! i) with
          | Some q => if pr_created p <? pr_created q then Some id else best
          | None => Some id
          end
        else best
    | None => best
    end) None (hash_order m).

Definition make_room_for_request : P unit := λ s,
  let m := rs_requests s in
  if (MAX_RECORDS <=? N.of_nat (size m)) || (MAX_ACTIVE <=? count_requests is_active m) then
    match oldest_unrevealed m with
    | None => (s, Err (PairingBusy "too many pending device pairing requests"))
    | Some id => (remove_request id s, Ok tt)
    end
  else (s, Ok tt).

Definition new_request (e : PairingEnv) (peer : PairingPeer) (arrival : PairingArrival) (commitment device_public : bytes)
    (transport : TransportBinding) (name : bytes) : PendingRequest :=
  {| pr_stage := Committed (pe_server_secret e) commitment (pe_now e + REVEAL_DEADLINE);
     pr_server_public := x25519_public (pe_server_secret e);
     pr_transport := transport;
     pr_peer := peer;
     pr_source := peer_source peer;
     pr_arrival := arrival;
     pr_device_name := name;
     pr_device_public_key := device_public;
     pr_created := pe_now e;
     pr_expires := pe_now e + TTL;
     pr_expires_at := N.min (pe_unix_ms e + TTL_MS) u64_MAX;
     pr_status := Pending;
     pr_reveals := RateWindow_new (60 * SECOND);
     pr_proofs := RateWindow_new SECOND |}.

Definition create_from (e : PairingEnv) (peer : PairingPeer) (arrival : PairingArrival)
    (request : CreateDevicePairingRequest) : P CreateDevicePairingResponse :=
  checked ← lift_result (check_create e request);
  let '(commitment, device_public, transport) := checked in
  let source := peer_source peer in
  _ ← prune (pe_pruned e);
  _ ← on_creates (admit_event (pe_now e) source 24 4);
  unfinished ← asks (λ s, count_requests (unfinished_from source) (rs_requests s));
  _ ← lift_result (guard_err (unfinished <? MAX_UNFINISHED_PER_SOURCE)
        (PairingBusy "this address already has unfinished pairing requests; finish or cancel them first"));
  _ ← make_room_for_request;
  let p := new_request e peer arrival commitment device_public transport (cq_device_name request) in
  _ ← updates (λ s, set_requests (<[pe_request_id e := p]> (rs_requests s)) s);
  mret {| cs_request_id := pe_request_id e;
          cs_server_public_key := base64_encode (pr_server_public p);
          cs_expires_at := pr_expires_at p;
          cs_poll_interval_ms := 1000;
          cs_transport_protocol := tb_protocol transport;
          cs_transport_public_key := base64_encode (tb_public_key transport) |}.

(** Counting a call against a window of the request [id]. *)
Definition count_reveal (now : N) (id : bytes) (p : PendingRequest) : P unit := λ s,
  match admit_event now tt 8 8 (pr_reveals p) with
  | (w, r) => (set_requests (<[id := with_windows w (pr_proofs p) p]> (rs_requests s)) s, r)
  end.
Definition count_proof (now : N) (id : bytes) (p : PendingRequest) : P unit := λ s,
  match admit_event now tt 4 4 (pr_proofs p) with
  | (w, r) => (set_requests (<[id := with_windows (pr_reveals p) w p]> (rs_requests s)) s, r)
  end.

Definition summary_of (id : bytes) (p : PendingRequest) (m : PairingMaterial) : DevicePairingRequestSummary :=
  {| sm_request_id := id; sm_verification_code := pm_verification_code m; sm_device_name := pr_device_name p;
     sm_device_id := device_id_for (pr_device_public_key p); sm_expires_at := pr_expires_at p;
     sm_peer := match pr_peer p with PeerIp a => PeerIp (to_canonical a) | PeerIpc => PeerIpc end;
     sm_transport_fingerprint := transport_fingerprint (tb_public_key (pr_transport p));
     sm_arrival := pr_arrival p |}.

(** [f], dropping the request when it fails. *)
Definition or_drop {A} (id : bytes) (f : P A) : P A := λ s,
  match f s with (s, Err e) => (remove_request id s, Err e) | ok => ok end.

Definition reveal (e : PairingEnv) (request : RevealDevicePairingRequest) : P unit :=
  let id := rv_request_id request in
  _ ← lift_result (validate_id id);
  client_public ← lift_result (decode_32 (rv_client_public_key request));
  client_nonce ← lift_result (decode_32 (rv_client_nonce request));
  _ ← on_lookups (admit_event (pe_now e) tt 1024 1024);
  _ ← prune (pe_pruned e);
  found ← asks (λ s, rs_requests s !! id);
  p ← lift_result (ok_or found (NotFound "pairing request no longer exists"));
  _ ← count_reveal (pe_now e) id p;
  match pr_stage p with
  | Revealed _ => throw (Conflict "pairing request was already revealed")
  | Committed server_secret expected _ =>
      _ ← lift_result (guard_err (bool_decide (commitment client_public client_nonce = expected)) Unauthenticated);
      m ← or_drop id (lift_result (derive id client_public (pr_server_public p) (pr_device_public_key p) client_nonce
            (pr_transport p) (pr_device_name p) (diffie_hellman server_secret client_public)));
      _ ← or_drop id (write_new_summary e (summary_of id p m));
      updates (λ s, set_requests (alter (with_stage (Revealed m)) id (rs_requests s)) s)
  end.

(** The rest of [poll] once the caller's proof was checked. *)
Definition poll_verified (e : PairingEnv) (id : bytes) (p : PendingRequest) (m : PairingMaterial) :
    P DevicePairingPollResponse :=
  if decide (pr_status p = Pending) then mret (poll_state PollPending (pr_expires_at p))
  else
    _ ← updates (λ s, remove_local_files id (remove_request id s));
    if decide (pr_status p = Rejected) then mret (poll_state PollRejected (pr_expires_at p))
    else
      transport ← lift_result (transport_binding e);
      if decide (transport ≠ pr_transport p) then mret (poll_state PollExpired (pr_expires_at p))
      else
        record ← on_devices (register registry_bytes (pe_devices e) (pr_device_name p) (pr_device_public_key p));
        ciphertext ← lift_result (wrap_credential m (dr_device_id record) (pr_transport p) (pe_nonce e));
        mret {| ps_status := PollApproved; ps_expires_at := pr_expires_at p;
                ps_nonce := Some (base64_encode (pe_nonce e)); ps_ciphertext := Some ciphertext |}.

Definition poll (e : PairingEnv) (request : DevicePairingProofRequest) : P DevicePairingPollResponse :=
  let id := pq_request_id request in
  _ ← lift_result (validate_id id);
  proof ← lift_result (decode_32 (pq_proof request));
  _ ← on_lookups (admit_event (pe_now e) tt 1024 1024);
  _ ← prune (pe_pruned e);
  found ← asks (λ s, rs_requests s !! id);
  match found with
  | None => mret (poll_state PollExpired (pe_unix_ms e))
  | Some p =>
      _ ← count_proof (pe_now e) id p;
      m ← lift_result (ok_or (material p) Unauthenticated);
      _ ← lift_result (guard_err (bool_decide (pm_poll_proof m = proof)) Unauthenticated);
      poll_verified e id p m
  end.

Definition cancel (e : PairingEnv) (request : DevicePairingProofRequest) : P unit :=
  let id := pq_request_id request in
  _ ← lift_result (validate_id id);
  proof ← lift_result (decode_32 (pq_proof request));
  _ ← on_lookups (admit_event (pe_now e) tt 1024 1024);
  _ ← prune (pe_pruned e);
  found ← asks (λ s, rs_requests s !! id);
  match found with
  | None => mret tt
  | Some p =>
      _ ← count_proof (pe_now e) id p;
      m ← lift_result (ok_or (material p) Unauthenticated);
      _ ← lift_result (guard_err (bool_decide (pm_cancel_proof m = proof)) Unauthenticated);
      updates (λ s, remove_local_files id (remove_request id s))
  end.

(** ** The local approver and the daemon's start and end *)

Definition decide_device_pairing (unix_ms : N) (write : result AppError unit) (id : bytes) (approved : bool) : P unit := λ s,
  match validate_id id with
  | Err e => (s, Err e)
  | Ok _ =>
      match rs_summaries s !! id with
      | None => (s, Err (NotFound "pairing request no longer exists"))
      | Some (Err e) => (s, Err e)
      | Some (Ok summary) =>
          if bool_decide (sm_request_id summary ≠ id) || (sm_expires_at summary <=? unix_ms)
          then (s, Err (Conflict "pairing request expired"))
          else
            match rs_decisions s !! id with
            | Some _ => (s, Err (Conflict "pairing request already has a decision"))
            | None =>
                match write with
                | Err e => (s, Err e)
                | Ok _ =>
                    (set_files (rs_summaries s)
                       (<[id := Ok {| ld_request_id := id; ld_approved := approved |}]> (rs_decisions s)) s, Ok tt)
                end
            end
      end
  end.

(** [DevicePairingRegistry::new]: leftovers whose time is over are removed;
    [ids] are the request files among the directory entries it looks at. *)
Definition leftover_expired (unix_ms : N) (id : bytes) (s : RegistryState) : result AppError bool :=
  if negb (is_uuid id) then Ok false
  else
    match rs_summaries s !! id with
    | None => Ok false
    | Some (Err e) => Err e
    | Some (Ok summary) => Ok (bool_decide (sm_request_id summary = id) && (sm_expires_at summary <=? unix_ms))
    end.
Fixpoint remove_leftovers (unix_ms : N) (ids : list bytes) : P unit := λ s,
  match ids with
  | [] => (s, Ok tt)
  | id :: ids =>
      match leftover_expired unix_ms id s with
      | Err e => (s, Err e)
      | Ok gone => remove_leftovers unix_ms ids (if gone then remove_local_files id s else s)
      end
  end.
Definition registry_start (unix_ms : N) (ids : list bytes) : P unit :=
  _ ← remove_leftovers unix_ms ids;
  updates (λ s, set_requests ∅ (set_creates (RateWindow_new (60 * SECOND)) (set_lookups (RateWindow_new SECOND) s))).

(** [Drop for RegistryState]. *)
Definition registry_drop (s : RegistryState) : RegistryState :=
  foldl (λ s id, remove_local_files id s) s (hash_order (rs_requests s)).
End operations.
