(* ===== verification/PairingSafety.v ===== *)
(** * What pairing guarantees

    Runs of the pairing registry: the calls of any number of clients, the
    decisions of the local approver and the other users of the device registry,
    in any order. A run is observed through the events that succeeded; request
    ids are fresh random UUIDs. *)
From S2P Require Import Prelude Bytes Query DeviceAuth Devices Pairing.
From Stdlib Require Import Strings.Byte.
Local Open Scope N_scope.

(** What a request offers when it is created. *)
Record Offer : Type := {
  of_secret : bytes; of_commitment : bytes; of_device_key : bytes; of_transport : TransportBinding; of_name : bytes;
}.
Inductive Event : Type :=
  | Created (id : bytes) (o : Offer)
  | Opened (id client_public client_nonce : bytes)
  | Decided (id : bytes) (approved : bool)
  | Delivered (id : bytes).

Inductive PairingOp : Type :=
  | OCreate (e : PairingEnv) (peer : PairingPeer) (arrival : PairingArrival) (request : CreateDevicePairingRequest)
  | OReveal (e : PairingEnv) (request : RevealDevicePairingRequest)
  | OPoll (e : PairingEnv) (request : DevicePairingProofRequest)
  | OCancel (e : PairingEnv) (request : DevicePairingProofRequest)
  | ODecide (unix_ms : N) (write : result AppError unit) (id : bytes) (approved : bool)
  | ODevices (op : RegistryOp).

Section runs.
Context `{AuthCrypto} `{PairingCrypto}.
Context (registry_bytes : RegistryFile → N) (hash_order : gmap bytes PendingRequest → list bytes).
Context (enabled : bool) (transport_protocol : PairingEncryption).

(** The event of a call that succeeded. *)
Definition created_event (e : PairingEnv) (request : CreateDevicePairingRequest) : list Event :=
  match check_create enabled transport_protocol e request with
  | Ok (commitment, device_public, transport) =>
      [Created (pe_request_id e) {| of_secret := pe_server_secret e; of_commitment := commitment;
         of_device_key := device_public; of_transport := transport; of_name := cq_device_name request |}]
  | Err _ => []
  end.
Definition opened_event (request : RevealDevicePairingRequest) : list Event :=
  match decode_32 (rv_client_public_key request), decode_32 (rv_client_nonce request) with
  | Ok client_public, Ok client_nonce => [Opened (rv_request_id request) client_public client_nonce]
  | _, _ => []
  end.
Definition delivered_event (id : bytes) (response : DevicePairingPollResponse) : list Event :=
  match ps_status response with PollApproved => [Delivered id] | _ => [] end.

Definition observe {A} (f : A → list Event) (x : RegistryState * result AppError A) : RegistryState * list Event :=
  match x with (s, Ok a) => (s, f a) | (s, Err _) => (s, []) end.

Definition step (op : PairingOp) (s : RegistryState) : RegistryState * list Event :=
  match op with
  | OCreate e peer arrival request =>
      observe (λ _, created_event e request) (create_from hash_order enabled transport_protocol e peer arrival request s)
  | OReveal e request => observe (λ _, opened_event request) (reveal hash_order e request s)
  | OPoll e request =>
      observe (delivered_event (pq_request_id request))
        (poll registry_bytes hash_order transport_protocol e request s)
  | OCancel e request => observe (λ _, []) (cancel hash_order e request s)
  | ODecide unix_ms write id approved =>
      observe (λ _, [Decided id approved]) (decide_device_pairing unix_ms write id approved s)
  | ODevices op => (set_registry (run_op registry_bytes op (rs_devices s)).1 s, [])
  end.
Fixpoint run_pairing (ops : list PairingOp) (s : RegistryState) (evs : list Event) : RegistryState * list Event :=
  match ops with
  | [] => (s, evs)
  | op :: ops => let '(s, new) := step op s in run_pairing ops s (evs ++ new)
  end.

(** The id of a new request was never used and names no leftover file. *)
Definition fresh_id (op : PairingOp) (s : RegistryState) (evs : list Event) : Prop :=
  match op with
  | OCreate e _ _ _ =>
      let id := pe_request_id e in
      (∀ o, Created id o ∉ evs) ∧ rs_summaries s !! id = None ∧ rs_decisions s !! id = None
  | _ => True
  end.
Fixpoint fresh_ids (ops : list PairingOp) (s : RegistryState) (evs : list Event) : Prop :=
  match ops with
  | [] => True
  | op :: ops => fresh_id op s evs ∧ let '(s, new) := step op s in fresh_ids ops s (evs ++ new)
  end.

(** ** The invariant *)

(** [m] is what opening the offer [o] with the client's key and nonce gives. *)
Definition opens (id : bytes) (o : Offer) (client_public client_nonce : bytes) (m : PairingMaterial) : Prop :=
  commitment client_public client_nonce = of_commitment o ∧
  derive id client_public (x25519_public (of_secret o)) (of_device_key o) client_nonce (of_transport o) (of_name o)
    (diffie_hellman (of_secret o) client_public) = Ok m.

Definition offers (o : Offer) (p : PendingRequest) : Prop :=
  pr_server_public p = x25519_public (of_secret o) ∧ pr_transport p = of_transport o ∧
  pr_device_name p = of_name o ∧ pr_device_public_key p = of_device_key o.
Definition approved_file (s : RegistryState) (id : bytes) : Prop :=
  ∃ d, rs_decisions s !! id = Some (Ok d) ∧ ld_approved d = true.

(** How the events so far explain a request of the table. *)
Definition stage_ok (evs : list Event) (s : RegistryState) (id : bytes) (o : Offer) (p : PendingRequest) : Prop :=
  match pr_stage p with
  | Committed secret expected _ =>
      [Created id o] `sublist_of` evs ∧ secret = of_secret o ∧ expected = of_commitment o ∧ pr_status p = Pending ∧
      rs_summaries s !! id = None ∧ rs_decisions s !! id = None
  | Revealed m =>
      ∃ cp cn, [Created id o; Opened id cp cn] `sublist_of` evs ∧ opens id o cp cn m ∧
        (pr_status p = Approved ∨ approved_file s id →
         [Created id o; Opened id cp cn; Decided id true] `sublist_of` evs)
  end.
Definition request_ok (evs : list Event) (s : RegistryState) (id : bytes) (p : PendingRequest) : Prop :=
  ∃ o, offers o p ∧ stage_ok evs s id o p.

Definition delivered (evs : list Event) : list bytes :=
  omap (λ ev, match ev with Delivered id => Some id | _ => None end) evs.

(** The life of a request whose credential was delivered. *)
Definition history (evs : list Event) (id : bytes) : Prop :=
  ∃ o cp cn, [Created id o; Opened id cp cn; Decided id true; Delivered id] `sublist_of` evs.

Record pairing_inv (evs : list Event) (s : RegistryState) : Prop := {
  pi_requests : map_Forall (request_ok evs s) (rs_requests s);
  pi_gone id : id ∈ delivered evs → rs_requests s !! id = None ∧ history evs id;
  pi_once : NoDup (delivered evs);
}.

Implicit Types (evs new : list Event) (s : RegistryState) (p : PendingRequest) (id : bytes).

(** ** Steps that keep the invariant *)

Lemma inv_step evs s s' :
  pairing_inv evs s →
  (∀ id p', rs_requests s' !! id = Some p' → is_Some (rs_requests s !! id) ∧ request_ok evs s' id p') →
  pairing_inv evs s'.
Proof.
  intros [Hr Hg Ho] Hs. split; [intros id p Hp; by apply Hs| |done].
  intros id Hid. destruct (Hg id Hid) as [Hn Hc]. split; [|done].
  destruct (rs_requests s' !! id) as [p|] eqn:Hp; [|done].
  apply Hs in Hp as [Hp _]. rewrite Hn in Hp. by destruct Hp.
Qed.

(** Nothing appears among the files of a request. *)
Definition files_le (s' s : RegistryState) (id : bytes) : Prop :=
  (rs_summaries s !! id = None → rs_summaries s' !! id = None) ∧
  (∀ d, rs_decisions s' !! id = Some d → rs_decisions s !! id = Some d).
Definition same_offer (p p' : PendingRequest) : Prop :=
  pr_stage p' = pr_stage p ∧ pr_status p' = pr_status p ∧ pr_server_public p' = pr_server_public p ∧
  pr_transport p' = pr_transport p ∧ pr_device_name p' = pr_device_name p ∧
  pr_device_public_key p' = pr_device_public_key p.

Lemma files_le_None s' s id : files_le s' s id → rs_decisions s !! id = None → rs_decisions s' !! id = None.
Proof. intros [_ Hd] Hn. apply eq_None_not_Some. intros [d E%Hd]. congruence. Qed.

Lemma request_ok_same evs s s' id p p' :
  request_ok evs s id p → files_le s' s id → same_offer p p' → request_ok evs s' id p'.
Proof.
  intros (o & (H1 & H2 & H3 & H4) & Hs) Hf (E1 & E2 & E3 & E4 & E5 & E6). exists o.
  split; [unfold offers; by rewrite E3, E4, E5, E6|]. unfold stage_ok in *. rewrite E1, E2.
  destruct (pr_stage p).
  - destruct Hs as (? & ? & ? & ? & Hn & Hd). split_and!; [done..|by apply Hf|by eapply files_le_None].
  - destruct Hs as (cp & cn & ? & ? & Ha). exists cp, cn. split_and!; [done..|].
    intros [Hst|(d & Hd & Had)]; apply Ha; [by left|]. right. exists d. split; [|done]. by apply Hf.
Qed.

Lemma request_ok_evs evs new s id p : request_ok evs s id p → request_ok (evs ++ new) s id p.
Proof.
  intros (o & Ho & Hs). exists o. split; [done|]. unfold stage_ok in *. destruct (pr_stage p).
  - destruct Hs as (? & ?). split; [by apply sublist_inserts_r|done].
  - destruct Hs as (cp & cn & ? & ? & Ha). exists cp, cn. split_and!; [by apply sublist_inserts_r|done|].
    intros Hx. by apply sublist_inserts_r, Ha.
Qed.

Lemma inv_same evs s s' :
  pairing_inv evs s →
  (∀ id p', rs_requests s' !! id = Some p' → ∃ p, rs_requests s !! id = Some p ∧ same_offer p p' ∧ files_le s' s id) →
  pairing_inv evs s'.
Proof.
  intros Hi Hs. eapply inv_step; [done|]. intros id p' (p & Hp & Hsame & Hf)%Hs. split; [eauto|].
  eapply request_ok_same; [by apply (pi_requests _ _ Hi)|done..].
Qed.

Lemma same_offer_refl p : same_offer p p.
Proof. by split_and!. Qed.
Lemma files_le_refl s id : files_le s s id.
Proof. by split. Qed.
#[local] Hint Resolve same_offer_refl files_le_refl : todex.

Lemma inv_remove evs s id : pairing_inv evs s → pairing_inv evs (remove_request id s).
Proof.
  intros Hi. apply (inv_same _ s); [done|]. simpl. intros id' p' [_ Hp]%lookup_delete_Some. exists p'. by split_and!.
Qed.
Lemma inv_remove_files evs s id : pairing_inv evs s → pairing_inv evs (remove_local_files id s).
Proof.
  intros Hi. apply (inv_same _ s); [done|]. intros id' p' Hp. exists p'. split_and!; [done|auto with todex|].
  split; simpl.
  - intros Hn. apply lookup_delete_None. by right.
  - by intros d [_ Hd]%lookup_delete_Some.
Qed.
#[local] Hint Resolve inv_remove inv_remove_files : todex.

(** The parts of the state the invariant does not mention. *)
Lemma pairing_ext evs s s' :
  rs_requests s' = rs_requests s → rs_summaries s' = rs_summaries s → rs_decisions s' = rs_decisions s →
  pairing_inv evs s → pairing_inv evs s'.
Proof.
  intros E1 E2 E3 Hi. apply (inv_same _ s); [done|]. intros id p' Hp. exists p'. rewrite E1 in Hp.
  split_and!; [done|auto with todex|]. unfold files_le. by rewrite E2, E3.
Qed.

Abbreviation keeps evs m := (hoare (pairing_inv evs) m (λ _, pairing_inv evs) (λ _, pairing_inv evs)).

Lemma take_decision_cases id s s' r :
  take_decision id s = (s', r) →
  s' = s ∨
  ∃ p d, rs_requests s !! id = Some p ∧ pr_status p = Pending ∧ rs_decisions s !! id = Some (Ok d) ∧
    s' = remove_local_files id
           (set_requests (<[id := with_status (if ld_approved d then Approved else Rejected) p]> (rs_requests s)) s).
Proof.
  unfold take_decision. destruct (rs_requests s !! id) as [p|] eqn:Hp; [|intros [= <- <-]; by left].
  destruct (decide (pr_status p ≠ Pending)) as [_|Hst%dec_stable]; [intros [= <- <-]; by left|].
  destruct (rs_decisions s !! id) as [[d|error]|] eqn:Hd; [|intros [= <- <-]; by left..].
  destruct (decide (ld_request_id d ≠ id)); [intros [= <- <-]; by left|]. intros [= <- <-]. right. by exists p, d.
Qed.

Lemma keeps_take_decision evs id : keeps evs (take_decision id).
Proof.
  intros s Hi. destruct (take_decision id s) as [s' r] eqn:Ht.
  assert (pairing_inv evs s') as Hi'; [|by destruct r].
  apply take_decision_cases in Ht as [->|(p & d & Hp & Hst & Hd & ->)]; [done|]. apply inv_remove_files.
  apply (inv_step _ s); [done|]. simpl. intros id' p' [[<- <-]|[Hne Hp']]%lookup_insert_Some.
  - split; [eauto|]. destruct (pi_requests _ _ Hi _ _ Hp) as (o & Ho & Hs). exists o. split; [done|].
    unfold stage_ok in *. simpl in *. destruct (pr_stage p); [destruct Hs as (_ & _ & _ & _ & _ & Hn); congruence|].
    destruct Hs as (cp & cn & ? & ? & Ha). exists cp, cn. split_and!; [done..|].
    intros [Hs|Hs]; apply Ha; right; [|done]. exists d. by destruct (ld_approved d).
  - split; [eauto|]. eapply request_ok_same; [by apply (pi_requests _ _ Hi)|by split|by split_and!].
Qed.

Lemma keeps_take_decisions evs ids : keeps evs (take_decisions ids).
Proof.
  induction ids as [|id ids IH]; [by intros s Hi|]. eapply hoare_bind; [apply keeps_take_decision|]. by intros [].
Qed.

Lemma keeps_prune evs now : keeps evs (prune hash_order now).
Proof.
  unfold prune. apply (hoare_bind _ (λ _, pairing_inv evs)).
  - intros s Hi. simpl. generalize (expired_ids hash_order now s) as ids. intros ids. revert s Hi.
    induction ids as [|id ids IH]; intros s Hi; [done|]. apply IH. auto with todex.
  - intros []. apply (hoare_bind _ (λ _, pairing_inv evs)); [apply hoare_asks|]. intros m. apply keeps_take_decisions.
Qed.

Lemma keeps_creates evs {A} (f : M (RateWindow SourceKey) AppError A) : keeps evs (on_creates f).
Proof. intros s Hi. unfold on_creates. destruct (f _) as [w []]; by apply (pairing_ext _ s). Qed.
Lemma keeps_lookups evs {A} (f : M (RateWindow unit) AppError A) : keeps evs (on_lookups f).
Proof. intros s Hi. unfold on_lookups. destruct (f _) as [w []]; by apply (pairing_ext _ s). Qed.
Lemma keeps_devices evs {A} (f : M World AppError A) : keeps evs (on_devices f).
Proof. intros s Hi. unfold on_devices. destruct (f _) as [w []]; by apply (pairing_ext _ s). Qed.
Lemma keeps_lift evs {A} (r : result AppError A) : keeps evs (lift_result r).
Proof. by apply hoare_lift. Qed.

(** The request [id] is in the table, as far as the invariant looks at it. *)
Definition holds (evs : list Event) (id : bytes) (p : PendingRequest) (s : RegistryState) : Prop :=
  pairing_inv evs s ∧ ∃ p', rs_requests s !! id = Some p' ∧ same_offer p p'.

Lemma holds_windows evs s id p w1 w2 :
  pairing_inv evs s → rs_requests s !! id = Some p →
  holds evs id p (set_requests (<[id := with_windows w1 w2 p]> (rs_requests s)) s).
Proof.
  intros Hi Hp. split; [|simpl; rewrite lookup_insert_eq; eexists; split; [done|by split_and!]].
  apply (inv_same _ s); [done|]. simpl. intros id' p' [[<- <-]|[Hne Hp']]%lookup_insert_Some.
  - exists p. split_and!; [done|by split_and!|by split].
  - exists p'. by split_and!.
Qed.
Lemma hoare_count_reveal evs now id p :
  hoare (λ s, pairing_inv evs s ∧ rs_requests s !! id = Some p) (count_reveal now id p) (λ _, holds evs id p)
    (λ _, pairing_inv evs).
Proof.
  intros s [Hi Hp]. unfold count_reveal. destruct (admit_event _ _ _ _ _) as [w []]; [by apply holds_windows|].
  by apply (holds_windows evs s id p).
Qed.
Lemma hoare_count_proof evs now id p :
  hoare (λ s, pairing_inv evs s ∧ rs_requests s !! id = Some p) (count_proof now id p) (λ _, holds evs id p)
    (λ _, pairing_inv evs).
Proof.
  intros s [Hi Hp]. unfold count_proof. destruct (admit_event _ _ _ _ _) as [w []]; [by apply holds_windows|].
  by apply (holds_windows evs s id p).
Qed.

(** No control file of the request [id]. *)
Definition bare (id : bytes) (s : RegistryState) : Prop := rs_summaries s !! id = None ∧ rs_decisions s !! id = None.
Abbreviation stays_bare id m := (hoare (bare id) m (λ _, bare id) (λ _ _, True)).

Lemma bare_remove_files id id' s : bare id s → bare id (remove_local_files id' s).
Proof. intros [? ?]. split; simpl; apply lookup_delete_None; by right. Qed.
Lemma bare_take_decisions id ids : stays_bare id (take_decisions ids).
Proof.
  induction ids as [|id' ids IH]; [by intros s Hs|]. apply (hoare_bind _ (λ _, bare id)); [clear IH|intros []; apply IH].
  intros s Hs. destruct (take_decision id' s) as [s' r] eqn:Ht.
  assert (bare id s'); [|by destruct r].
  apply take_decision_cases in Ht as [->|(p & d & _ & _ & _ & ->)]; [done|]. by apply bare_remove_files.
Qed.
Lemma bare_prune id now : stays_bare id (prune hash_order now).
Proof.
  unfold prune. apply (hoare_bind _ (λ _, bare id)).
  - intros s Hs. simpl. generalize (expired_ids hash_order now s) as ids. intros ids. revert s Hs.
    induction ids as [|id' ids IH]; intros s Hs; [done|]. apply IH. by apply bare_remove_files.
  - intros []. apply (hoare_bind _ (λ _, bare id)); [apply hoare_asks|]. intros m. apply bare_take_decisions.
Qed.

Lemma delivered_app evs new : delivered (evs ++ new) = delivered evs ++ delivered new.
Proof. apply omap_app. Qed.

Lemma history_app evs new id : history evs id → history (evs ++ new) id.
Proof. intros (o & cp & cn & ?). exists o, cp, cn. by apply sublist_inserts_r. Qed.
#[local] Hint Resolve history_app : todex.

Lemma inv_evs evs new s : delivered new = [] → pairing_inv evs s → pairing_inv (evs ++ new) s.
Proof.
  intros Hn [Hr Hg Ho]. assert (delivered (evs ++ new) = delivered evs) as E by by rewrite delivered_app, Hn, app_nil_r.
  split; rewrite ?E; [|intros id Hid|done].
  - intros id p Hp. by apply request_ok_evs, Hr.
  - destruct (Hg id Hid). auto with todex.
Qed.

Lemma inv_created evs s id o p :
  pairing_inv evs s → bare id s → (∀ o, Created id o ∉ evs) → offers o p → pr_status p = Pending →
  (∃ t, pr_stage p = Committed (of_secret o) (of_commitment o) t) →
  pairing_inv (evs ++ [Created id o]) (set_requests (<[id := p]> (rs_requests s)) s).
Proof.
  intros [Hr Hg Ho] [Hs Hd] Hf Hof Hst [t Ht]. split; simpl.
  - intros id' p' [[<- <-]|[Hne Hp]]%lookup_insert_Some.
    + exists o. split; [done|]. unfold stage_ok. rewrite Ht. split_and!; try done. by apply sublist_inserts_l.
    + by apply request_ok_evs, Hr.
  - rewrite delivered_app, app_nil_r. intros id' Hid. destruct (Hg id' Hid) as [Hn Hh].
    split; [|auto with todex]. rewrite lookup_insert_ne; [done|]. intros ->. destruct Hh as (o' & cp & cn & Hsub).
    apply (Hf o'). eapply elem_of_sublist; [|exact Hsub]. set_solver.
  - by rewrite delivered_app, app_nil_r.
Qed.

Lemma create_inv evs e peer arrival request :
  (∀ o, Created (pe_request_id e) o ∉ evs) →
  hoare (λ s, pairing_inv evs s ∧ bare (pe_request_id e) s)
    (create_from hash_order enabled transport_protocol e peer arrival request)
    (λ _, pairing_inv (evs ++ created_event e request)) (λ _, pairing_inv evs).
Proof.
  intros Hf. unfold create_from, created_event. set (id := pe_request_id e) in *.
  destruct (check_create enabled transport_protocol e request) as [[[c k] t]|error] eqn:Hc;
    [|by intros s [Hi _]].
  apply (hoare_bind _ (λ x s, (pairing_inv evs s ∧ bare id s) ∧ x = (c, k, t))); [by intros s Hs|].
  intros x. apply hoare_pure. intros ->.
  apply (hoare_bind _ (λ _ s, pairing_inv evs s ∧ bare id s)).
  { eapply hoare_weaken; [apply hoare_and; [apply (keeps_prune evs)|apply (bare_prune id)]|done|done|by intros ?? [? _]]. }
  intros []. apply (hoare_bind _ (λ _ s, pairing_inv evs s ∧ bare id s)).
  { intros s [Hi Hb]. unfold on_creates. destruct (admit_event _ _ _ _ _) as [w [[]|]]; [split; [|done]|]; by apply (pairing_ext _ s). }
  intros []. apply (hoare_bind _ (λ _ s, pairing_inv evs s ∧ bare id s)); [by intros s|].
  intros unfinished. apply (hoare_bind _ (λ _ s, pairing_inv evs s ∧ bare id s)).
  { apply hoare_lift; [done|by intros ??? [? _]]. }
  intros []. apply (hoare_bind _ (λ _ s, pairing_inv evs s ∧ bare id s)).
  { intros s [Hi Hb]. unfold make_room_for_request.
    destruct (_ || _); [|done]. destruct (oldest_unrevealed _ _); [|done]. split; [by apply inv_remove|done]. }
  intros []. apply (hoare_bind _ (λ _, pairing_inv (evs ++ [Created id
    {| of_secret := pe_server_secret e; of_commitment := c; of_device_key := k; of_transport := t; of_name := cq_device_name request |}]))).
  - intros s [Hi Hb]. simpl. apply inv_created; [done..|by split_and!|done|by eexists].
  - intros []. by intros s Hs.
Qed.

(** [validate_id], decoding, counting the lookup and pruning: what the calls
    of a known request begin with. *)
Ltac known_request evs :=
  repeat (apply (hoare_bind _ (λ _, pairing_inv evs));
    [first [apply keeps_lift|apply keeps_lookups|apply keeps_prune]|intros ?]).

Lemma inv_opened evs s id p p' secret c t cp cn m sm :
  holds evs id p s → rs_requests s !! id = Some p' → pr_stage p = Committed secret c t → commitment cp cn = c →
  derive id cp (pr_server_public p) (pr_device_public_key p) cn (pr_transport p) (pr_device_name p)
    (diffie_hellman secret cp) = Ok m →
  pairing_inv (evs ++ [Opened id cp cn])
    (set_requests (alter (with_stage (Revealed m)) id (rs_requests s))
       (set_files (<[id := Ok sm]> (rs_summaries s)) (rs_decisions s) s)).
Proof.
  intros [Hi (q & Hq & E1 & E2 & E3 & E4 & E5 & E6)] Hp Hst Hcm Hdv.
  destruct (pi_requests _ _ Hi _ _ Hq) as (o & (O1 & O2 & O3 & O4) & Hs). unfold stage_ok in Hs.
  rewrite E1, Hst in Hs. destruct Hs as (Hsub & -> & -> & Hpend & Hns & Hnd).
  split; simpl.
  - intros id' r Hr. destruct (decide (id = id')) as [<-|Hne].
    + rewrite lookup_alter_eq, Hq in Hr. injection Hr as <-. exists o. split; [by split_and!|].
      unfold stage_ok. simpl. exists cp, cn. split_and!.
      * by apply (sublist_app [Created id o] _ [Opened id cp cn]).
      * split; [done|]. rewrite <-O1, <-O2, <-O3, <-O4, E3, E4, E5, E6. done.
      * unfold approved_file; simpl. rewrite Hpend, Hnd. intros [?|(d & ? & _)]; done.
    + rewrite lookup_alter_ne in Hr by done. apply request_ok_evs.
      eapply request_ok_same; [by apply (pi_requests _ _ Hi)| |by split_and!].
      split; simpl; [|done]. by rewrite lookup_insert_ne.
  - rewrite delivered_app, app_nil_r. intros id' Hid. destruct (pi_gone _ _ Hi id' Hid).
    split; [|auto with todex]. by rewrite lookup_alter_None.
  - rewrite delivered_app, app_nil_r. apply (pi_once _ _ Hi).
Qed.

Lemma reveal_inv evs e request :
  hoare (pairing_inv evs) (reveal hash_order e request) (λ _, pairing_inv (evs ++ opened_event request))
    (λ _, pairing_inv evs).
Proof.
  unfold reveal, opened_event; cbv zeta. set (id := rv_request_id request).
  apply (hoare_bind _ (λ _, pairing_inv evs)); [apply keeps_lift|intros []].
  destruct (decode_32 (rv_client_public_key request)) as [cp|]; [|by intros s Hi].
  destruct (decode_32 (rv_client_nonce request)) as [cn|]; [|by intros s Hi].
  apply (hoare_bind _ (λ x s, pairing_inv evs s ∧ x = cp)); [by intros s Hi|intros x; apply hoare_pure; intros ->].
  apply (hoare_bind _ (λ x s, pairing_inv evs s ∧ x = cn)); [by intros s Hi|intros x; apply hoare_pure; intros ->].
  known_request evs.
  apply (hoare_bind _ (λ x s, pairing_inv evs s ∧ x = rs_requests s !! id)); [by intros s Hi|intros found].
  apply (hoare_bind _ (λ p s, pairing_inv evs s ∧ rs_requests s !! id = Some p)).
  { intros s [Hi Hf]. unfold lift_result, ok_or. rewrite Hf. by destruct (rs_requests s !! id). }
  intros p. eapply hoare_bind; [apply hoare_count_reveal|intros []].
  destruct (pr_stage p) as [secret c t|m] eqn:Hst; [|by intros s [Hi _]].
  apply (hoare_bind _ (λ _ s, holds evs id p s ∧ commitment cp cn = c)).
  { intros s Hh. unfold lift_result, guard_err. case_bool_decide; [done|]. by destruct Hh. }
  intros []. apply hoare_pure. intros Hc.
  apply (hoare_bind _ (λ m s, holds evs id p s ∧
    derive id cp (pr_server_public p) (pr_device_public_key p) cn (pr_transport p) (pr_device_name p)
      (diffie_hellman secret cp) = Ok m)).
  { intros s Hh. unfold or_drop, lift_result. destruct (derive _ _ _ _ _ _ _ _); [done|]. apply inv_remove, Hh. }
  intros m. apply hoare_pure. intros Hdv s Hh. unfold or_drop, write_new_summary, updates, mbind, M_bind.
  destruct (rs_summaries s !! sm_request_id (summary_of id p m)); [apply inv_remove, Hh|].
  destruct (pe_write e); [|apply inv_remove, Hh].
  destruct Hh as [Hi (q & Hq & Hsame)]. apply (inv_opened evs s id p q secret c t cp cn m (summary_of id p m)); [by split; [|exists q]|done..].
Qed.

Lemma cancel_inv evs e request :
  hoare (pairing_inv evs) (cancel hash_order e request) (λ _, pairing_inv evs) (λ _, pairing_inv evs).
Proof.
  unfold cancel; cbv zeta. set (id := pq_request_id request). known_request evs.
  apply (hoare_bind _ (λ x s, pairing_inv evs s ∧ x = rs_requests s !! id)); [by intros s Hi|intros [p|]].
  2: by intros s [Hi _].
  apply (hoare_bind _ (λ _, pairing_inv evs)).
  { eapply hoare_weaken; [apply hoare_count_proof|by intros s [? ?]|by intros ?? [? _]|done]. }
  intros ?. known_request evs. intros s Hi. by apply inv_remove_files, inv_remove.
Qed.

(** ** The device registry *)

Abbreviation devices_are w := (λ s, rs_devices s = w).
Abbreviation leaves_devices w m := (hoare (devices_are w) m (λ _, devices_are w) (λ _, devices_are w)).

Lemma leaves_take_decisions w ids : leaves_devices w (take_decisions ids).
Proof.
  induction ids as [|id ids IH]; [by intros s Hs|].
  apply (hoare_bind _ (λ _, devices_are w)); [clear IH|intros []; apply IH].
  intros s Hs. destruct (take_decision id s) as [s' r] eqn:Ht.
  assert (rs_devices s' = w); [|by destruct r]. by apply take_decision_cases in Ht as [->|(p & d & _ & _ & _ & ->)].
Qed.
Lemma leaves_prune w now : leaves_devices w (prune hash_order now).
Proof.
  unfold prune. apply (hoare_bind _ (λ _, devices_are w)).
  - intros s Hs. simpl. generalize (expired_ids hash_order now s) as ids. intros ids. revert s Hs.
    induction ids as [|id ids IH]; intros s Hs; [done|]. by apply IH.
  - intros []. apply (hoare_bind _ (λ _, devices_are w)); [apply hoare_asks|]. intros m. apply leaves_take_decisions.
Qed.
Lemma leaves_lookups w {A} (f : M (RateWindow unit) AppError A) : leaves_devices w (on_lookups f).
Proof. intros s Hs. unfold on_lookups. by destruct (f _) as [? []]. Qed.
Lemma leaves_count_proof w now id p : leaves_devices w (count_proof now id p).
Proof. intros s Hs. unfold count_proof. by destruct (admit_event _ _ _ _ _) as [? []]. Qed.

(** The device of [id] was registered by this poll: the request was created
    with this name and key, opened with the committed key, and approved
    afterwards; and the caller proved that it knows the opened key. *)
Definition registered (evs : list Event) (e : PairingEnv) (request : DevicePairingProofRequest) (w : World)
    (s' : RegistryState) : Prop :=
  let id := pq_request_id request in
  ∃ o cp cn m,
    [Created id o; Opened id cp cn; Decided id true] `sublist_of` evs ∧ opens id o cp cn m ∧
    decode_32 (pq_proof request) = Ok (pm_poll_proof m) ∧
    rs_devices s' = (register registry_bytes (pe_devices e) (of_name o) (of_device_key o) w).1.

Lemma inv_delivered evs s id o cp cn :
  pairing_inv evs s → rs_requests s !! id = None → id ∉ delivered evs →
  [Created id o; Opened id cp cn; Decided id true] `sublist_of` evs →
  pairing_inv (evs ++ [Delivered id]) s.
Proof.
  intros [Hr Hg Ho] Hn Hid Hc. split; rewrite ?delivered_app; simpl.
  - intros id' p Hp. by apply request_ok_evs, Hr.
  - intros id' [Hid'|Hid']%elem_of_app.
    + destruct (Hg id' Hid'). auto with todex.
    + apply list_elem_of_singleton in Hid' as ->. split; [done|]. exists o, cp, cn.
      by apply (sublist_app [_; _; _] _ [_]).
  - apply NoDup_app. split_and!; [done|set_solver|apply NoDup_singleton].
Qed.

(** What is left of an approved request once it was taken out of the table. *)
Lemma approved_explained evs s id p m :
  holds evs id p s → pr_stage p = Revealed m → pr_status p = Approved →
  ∃ o cp cn, offers o p ∧ [Created id o; Opened id cp cn; Decided id true] `sublist_of` evs ∧ opens id o cp cn m.
Proof.
  intros [Hi (q & Hq & E1 & E2 & E3 & E4 & E5 & E6)] Hst Ha.
  destruct (pi_requests _ _ Hi _ _ Hq) as (o & (O1 & O2 & O3 & O4) & Hs). unfold stage_ok in Hs.
  rewrite E1, Hst in Hs. destruct Hs as (cp & cn & _ & Ho & Hap). exists o, cp, cn.
  split; [unfold offers; by rewrite <-E3, <-E4, <-E5, <-E6|]. split; [|done]. apply Hap. left. congruence.
Qed.

Lemma holds_gone evs s id p : holds evs id p s → id ∉ delivered evs.
Proof. intros [Hi (q & Hq & _)] Hid. destruct (pi_gone _ _ Hi id Hid) as [Hn _]. congruence. Qed.

(** How a poll ends: no device was registered, or the one explained was. *)
Definition polled evs e request w (r : option DevicePairingPollResponse) (s' : RegistryState) : Prop :=
  match r with
  | Some response =>
      pairing_inv (evs ++ delivered_event (pq_request_id request) response) s' ∧
      (rs_devices s' = w ∧ ps_status response ≠ PollApproved ∨ registered evs e request w s')
  | None => pairing_inv evs s' ∧ (rs_devices s' = w ∨ registered evs e request w s')
  end.
Abbreviation polls evs e request w P m :=
  (hoare P m (λ response, polled evs e request w (Some response)) (λ _, polled evs e request w None)).

Lemma polled_quiet evs e request w response s :
  pairing_inv evs s → rs_devices s = w → ps_status response ≠ PollApproved → polled evs e request w (Some response) s.
Proof.
  intros Hi Hw Hs. split; [|by left]. unfold delivered_event. by destruct (ps_status response); rewrite ?app_nil_r.
Qed.

Lemma poll_verified_inv evs e request w p m :
  pr_stage p = Revealed m → decode_32 (pq_proof request) = Ok (pm_poll_proof m) →
  polls evs e request w (λ s, holds evs (pq_request_id request) p s ∧ rs_devices s = w)
    (poll_verified registry_bytes transport_protocol e (pq_request_id request) p m).
Proof.
  intros Hst Hproof s [Hh Hw]. set (id := pq_request_id request) in *. unfold poll_verified.
  destruct (decide (pr_status p = Pending)) as [_|Hnp]; [by apply polled_quiet; [apply Hh| |]|].
  unfold updates at 1, mbind at 1, M_bind at 1. set (s1 := remove_local_files id (remove_request id s)).
  assert (pairing_inv evs s1) as Hi by apply inv_remove_files, inv_remove, Hh.
  destruct (decide (pr_status p = Rejected)) as [_|Hnr]; [by apply polled_quiet|].
  assert (pr_status p = Approved) as Ha by by destruct (pr_status p).
  destruct (approved_explained _ _ _ _ _ Hh Hst Ha) as (o & cp & cn & (_ & _ & O3 & O4) & Hsub & Hop).
  unfold lift_result, mbind, M_bind. destruct (transport_binding transport_protocol e) as [t|]; [|by split; [|left]].
  destruct (decide (t ≠ pr_transport p)); [by apply polled_quiet|].
  unfold on_devices. change (rs_devices s1) with (rs_devices s). rewrite Hw, O3, O4.
  destruct (register _ _ _ _ w) as [w' r] eqn:Hreg.
  assert (registered evs e request w (set_registry w' s1)) as Hr.
  { exists o, cp, cn, m. split_and!; [done..|]. by rewrite Hreg. }
  assert (pairing_inv evs (set_registry w' s1)) as Hi' by by apply (pairing_ext _ s1).
  destruct r as [record|]; [|by split; [|right]].
  destruct (wrap_credential _ _ _ _); [|by split; [|right]]. split; [|by right].
  apply (inv_delivered _ _ _ o cp cn); [done|by apply lookup_delete_eq|by eapply holds_gone|done].
Qed.

Lemma poll_inv evs e request w :
  polls evs e request w (λ s, pairing_inv evs s ∧ rs_devices s = w)
    (poll registry_bytes hash_order transport_protocol e request).
Proof.
  pose (I := λ s, pairing_inv evs s ∧ rs_devices s = w).
  assert (∀ s, I s → polled evs e request w None s) as HI by (intros s [? ?]; split; [done|by left]).
  unfold poll; cbv zeta. set (id := pq_request_id request). change (λ s, _ ∧ _) with I.
  apply (hoare_bind _ (λ _, I)); [apply hoare_lift; auto|intros []].
  destruct (decode_32 (pq_proof request)) as [proof|] eqn:Hdec; [|intros s Hs; by apply HI].
  apply (hoare_bind _ (λ x s, I s ∧ x = proof)); [by intros s Hs|intros x; apply hoare_pure; intros ->].
  apply (hoare_bind _ (λ _, I)); [eapply hoare_weaken; [apply hoare_and; [apply (keeps_lookups evs)|apply (leaves_lookups w)]|auto..]|intros []].
  apply (hoare_bind _ (λ _, I)); [eapply hoare_weaken; [apply hoare_and; [apply (keeps_prune evs)|apply (leaves_prune w)]|auto..]|intros []].
  apply (hoare_bind _ (λ x s, I s ∧ x = rs_requests s !! id)); [by intros s Hs|intros [p|]].
  2: { intros s [[? ?] _]. by apply polled_quiet. }
  apply (hoare_bind _ (λ _ s, holds evs id p s ∧ rs_devices s = w)).
  { eapply hoare_weaken; [apply hoare_and; [apply (hoare_count_proof evs)|apply (leaves_count_proof w)]| |done|auto].
    by intros s [[? ?] ?]. }
  assert (∀ s, holds evs id p s ∧ rs_devices s = w → polled evs e request w None s) as HH
    by (intros s [[? _] ?]; by apply HI).
  intros []. unfold material. destruct (pr_stage p) as [secret c t|m] eqn:Hst; [intros s Hs; by apply HH|].
  apply (hoare_bind _ (λ x s, (holds evs id p s ∧ rs_devices s = w) ∧ x = m)); [by intros s Hs|].
  intros x. apply hoare_pure. intros ->.
  apply (hoare_bind _ (λ _ s, (holds evs id p s ∧ rs_devices s = w) ∧ pm_poll_proof m = proof)).
  { intros s Hs. unfold lift_result, guard_err. case_bool_decide; [done|by apply HH]. }
  intros []. apply hoare_pure. intros <-. by apply poll_verified_inv.
Qed.

Lemma decide_inv evs unix_ms write id approved :
  hoare (pairing_inv evs) (decide_device_pairing unix_ms write id approved)
    (λ _, pairing_inv (evs ++ [Decided id approved])) (λ _, pairing_inv evs).
Proof.
  intros s Hi. unfold decide_device_pairing. destruct (validate_id id); [|done].
  destruct (rs_summaries s !! id) as [[sm|]|] eqn:Hsm; [|done..].
  destruct (_ || _); [done|]. destruct (rs_decisions s !! id) eqn:Hd; [done|]. destruct write; [|done].
  split; rewrite ?delivered_app, ?app_nil_r.
  - intros id' p Hp. simpl in Hp. destruct (pi_requests _ _ Hi _ _ Hp) as (o & Ho & Hs).
    destruct (decide (id' = id)) as [->|Hne].
    + exists o. split; [done|]. unfold stage_ok in *. simpl. destruct (pr_stage p); [destruct Hs as (_ & _ & _ & _ & Hn & _); congruence|].
      destruct Hs as (cp & cn & Hsub & Hop & Hap). exists cp, cn. split_and!; [by apply sublist_inserts_r|done|].
      unfold approved_file; simpl. rewrite lookup_insert_eq. intros [Hst|(d & [= <-] & Had)].
      * by apply sublist_inserts_r, Hap; left.
      * simpl in Had. subst approved. by apply (sublist_app [_; _] _ [_]).
    + apply request_ok_evs. exists o. split; [done|]. unfold stage_ok in *. simpl in *.
      unfold approved_file in *; simpl. by rewrite lookup_insert_ne.
  - intros id' Hid. destruct (pi_gone _ _ Hi id' Hid). auto with todex.
  - apply (pi_once _ _ Hi).
Qed.

Lemma pairing_step_inv op s evs :
  fresh_id op s evs → pairing_inv evs s → pairing_inv (evs ++ (step op s).2) (step op s).1.
Proof.
  intros Hf Hi. destruct op as [e peer arrival request|e request|e request|e request|unix_ms write id approved|op];
    cbn [step].
  - destruct Hf as (Hf & Hsm & Hd). pose proof (create_inv evs e peer arrival request Hf s (conj Hi (conj Hsm Hd))) as Hc.
    destruct (create_from _ _ _ _ _ _ _ _) as [s' []]; simpl; [done|by rewrite app_nil_r].
  - pose proof (reveal_inv evs e request s Hi) as Hc. destruct (reveal _ _ _ _) as [s' []]; simpl; [done|by rewrite app_nil_r].
  - pose proof (poll_inv evs e request _ s (conj Hi eq_refl)) as Hc.
    destruct (poll _ _ _ _ _ _) as [s' []]; simpl; [apply Hc|rewrite app_nil_r; apply Hc].
  - pose proof (cancel_inv evs e request s Hi) as Hc. destruct (cancel _ _ _ _) as [s' []]; simpl; by rewrite app_nil_r.
  - pose proof (decide_inv evs unix_ms write id approved s Hi) as Hc.
    destruct (decide_device_pairing _ _ _ _ _) as [s' []]; simpl; [done|by rewrite app_nil_r].
  - simpl. rewrite app_nil_r. by apply (pairing_ext _ s).
Qed.

Lemma run_inv ops s evs :
  fresh_ids ops s evs → pairing_inv evs s →
  pairing_inv (run_pairing ops s evs).2 (run_pairing ops s evs).1.
Proof.
  revert s evs. induction ops as [|op ops IH]; intros s evs; [done|]. intros [Hf Hfs] Hi. simpl in *.
  pose proof (pairing_step_inv op s evs Hf Hi) as Hi'. destruct (step op s) as [s' new]. by apply IH.
Qed.

Lemma start_inv s0 : rs_requests s0 = ∅ → pairing_inv [] s0.
Proof.
  intros Hs0. split; [rewrite Hs0; apply map_Forall_empty|by intros id Hid%elem_of_nil|constructor].
Qed.

(** The calls other than [poll] leave the device registry alone. *)
Lemma leaves_creates w {A} (f : M (RateWindow SourceKey) AppError A) : leaves_devices w (on_creates f).
Proof. intros s Hs. unfold on_creates. by destruct (f _) as [? []]. Qed.
Lemma leaves_count_reveal w now id p : leaves_devices w (count_reveal now id p).
Proof. intros s Hs. unfold count_reveal. by destruct (admit_event _ _ _ _ _) as [? []]. Qed.
Lemma leaves_make_room w : leaves_devices w (make_room_for_request hash_order).
Proof.
  intros s Hs. unfold make_room_for_request. destruct (_ || _); [|done]. by destruct (oldest_unrevealed _ _).
Qed.
Lemma leaves_or_drop w {A} id (f : M RegistryState AppError A) : leaves_devices w f → leaves_devices w (or_drop id f).
Proof. intros Hf s Hs. specialize (Hf s Hs). unfold or_drop. by destruct (f s) as [? []]. Qed.
Lemma leaves_write w e sm : leaves_devices w (write_new_summary e sm).
Proof. intros s Hs. unfold write_new_summary. destruct (_ !! _); [done|]. by destruct (pe_write e). Qed.
Lemma leaves_lift w {A} (r : result AppError A) : leaves_devices w (lift_result r).
Proof. by apply hoare_lift. Qed.
Hint Resolve leaves_creates leaves_count_reveal leaves_count_proof leaves_make_room leaves_or_drop leaves_write leaves_lift
  leaves_lookups leaves_prune : todex.

Ltac leaves w :=
  repeat first
    [ solve [auto with todex] | by intros ? ?
    | apply (hoare_bind _ (λ _, devices_are w)); [|intros ?] | case_match ].

Lemma create_leaves w e peer arrival request :
  leaves_devices w (create_from hash_order enabled transport_protocol e peer arrival request).
Proof.
  unfold create_from. apply (hoare_bind _ (λ _, devices_are w)); [auto with todex|]. intros [[c k] t]. cbv zeta. leaves w.
Qed.
Lemma reveal_leaves w e request : leaves_devices w (reveal hash_order e request).
Proof. unfold reveal; cbv zeta. leaves w. Qed.
Lemma cancel_leaves w e request : leaves_devices w (cancel hash_order e request).
Proof. unfold cancel; cbv zeta. leaves w. Qed.
Lemma decide_leaves w unix_ms write id approved : leaves_devices w (decide_device_pairing unix_ms write id approved).
Proof.
  intros s Hs. unfold decide_device_pairing. destruct (validate_id id); [|done].
  destruct (rs_summaries s !! id) as [[sm|]|]; [|done..]. destruct (_ || _); [done|].
  destruct (rs_decisions s !! id); [done|]. by destruct write.
Qed.

Lemma observe_devices {A} (f : A → list Event) w x :
  match x with (s', Ok _) => rs_devices s' = w | (s', Err _) => rs_devices s' = w end → rs_devices (observe f x).1 = w.
Proof. by destruct x as [s' []]. Qed.

(** C22: Only approved devices are registered. Whatever clients and approver did
    before, on a daemon started with an empty table, a call changes the device
    registry only by registering the device of a request that was created with
    that name and key, then opened with the key and nonce it had committed to,
    then approved by the local owner; and the call is a poll whose proof was
    derived from the opened key. *)
Theorem only_approved_devices_register ops s0 op s evs :
  rs_requests s0 = ∅ → fresh_ids ops s0 [] → (∀ rop, op ≠ ODevices rop) →
  run_pairing ops s0 [] = (s, evs) →
  rs_devices (step op s).1 = rs_devices s ∨
  ∃ e request, op = OPoll e request ∧ registered evs e request (rs_devices s) (step op s).1.
Proof.
  intros Hs0 Hf Hop Hrun. assert (pairing_inv [] s0) as Hi0 by by apply start_inv.
  pose proof (run_inv ops s0 [] Hf Hi0) as Hi. rewrite Hrun in Hi. simpl in Hi.
  destruct op as [e peer arrival request|e request|e request|e request|unix_ms write id approved|op]; cbn [step].
  - left. apply observe_devices. by apply (create_leaves (rs_devices s)).
  - left. apply observe_devices. by apply (reveal_leaves (rs_devices s)).
  - pose proof (poll_inv evs e request _ s (conj Hi eq_refl)) as Hc.
    destruct (poll _ _ _ _ _ _) as [s' []]; simpl; destruct Hc as [_ [Hc|Hc]]; [left; apply Hc|right; eauto|by left|right; eauto].
  - left. apply observe_devices. by apply (cancel_leaves (rs_devices s)).
  - left. apply observe_devices. by apply (decide_leaves (rs_devices s)).
  - by destruct (Hop op).
Qed.

(** C24: A credential is delivered at most once per request, and only for a
    request that was created, opened and approved in that order. *)
Theorem credential_delivered_once ops s0 s evs :
  rs_requests s0 = ∅ → fresh_ids ops s0 [] → run_pairing ops s0 [] = (s, evs) →
  NoDup (delivered evs) ∧ Forall (history evs) (delivered evs).
Proof.
  intros Hs0 Hf Hrun. assert (pairing_inv [] s0) as Hi0 by by apply start_inv.
  pose proof (run_inv ops s0 [] Hf Hi0) as [_ Hg Ho]. rewrite Hrun in Hg, Ho. split; [done|]. apply Forall_forall. intros id Hid. by apply Hg.
Qed.
End runs.
