(* ===== verification/PairingLimits.v ===== *)
(** * The limits of pairing

    What bounds the work strangers can cause: the sliding rate windows of
    [RateWindow], and the size of the table of requests over any run. *)
From S2P Require Import Prelude Bytes Query DeviceAuth Devices Pairing PairingSafety.
From Stdlib Require Import Strings.Byte ZifyBool.
Local Open Scope N_scope.

(** ** Rate windows *)
Section rate.
Context {K : Type} `{EqDecision K} (global per_key : N).

(** The calls [(now, key)], and those that were let through. *)
Fixpoint admitted (calls : list (N * K)) (w : RateWindow K) : list (N * K) :=
  match calls with
  | [] => []
  | (now, key) :: calls =>
      match admit_event now key global per_key w with
      | (w, Ok _) => (now, key) :: admitted calls w
      | (w, Err _) => admitted calls w
      end
  end.

(** Of any [n + 1] successive events, the last is a window after the first. *)
Definition spaced (window n : N) (log : list (N * K)) : Prop :=
  ∀ i e1 e2, log !! i = Some e1 → log !! (i + N.to_nat n)%nat = Some e2 → window <= e2.1 - e1.1.
Definition of_key (key : K) (log : list (N * K)) : list (N * K) := filter (λ e, e.2 = key) log.

(** The log so far: what the window forgot, all too old, and what it keeps. *)
Record window_inv (now : N) (w : RateWindow K) (log : list (N * K)) : Prop := {
  wi_log : ∃ forgotten, log = forgotten ++ rw_events w ∧ Forall (λ e, rw_window w <= now - e.1) forgotten;
  wi_global : spaced (rw_window w) global log;
  wi_key key : spaced (rw_window w) per_key (of_key key log);
}.

Lemma drop_old_split window now (events : list (N * K)) :
  ∃ old, events = old ++ drop_old window now events ∧ Forall (λ e, window <= now - e.1) old.
Proof.
  induction events as [|[t k] events IH]; [by exists []|]. simpl. destruct (window <=? now - t) eqn:Ht; [|by exists []].
  destruct IH as (old & Heq & Hold). exists ((t, k) :: old). split; [by rewrite Heq at 1|].
  constructor; [by apply N.leb_le in Ht|done].
Qed.

(** Appending an event to a spaced log keeps it spaced when the log is fewer
    than [n] events and a prefix of old ones. *)
Lemma spaced_snoc window n (old recent : list (N * K)) e :
  spaced window n (old ++ recent) → Forall (λ x, window <= e.1 - x.1) old → N.of_nat (length recent) < n →
  spaced window n ((old ++ recent) ++ [e]).
Proof.
  intros Hs Hold Hlen i e1 e2 H1 H2. destruct (decide (i + N.to_nat n < length (old ++ recent))%nat) as [Hlt|Hge].
  - rewrite lookup_app_l in H1, H2 by lia. by eapply Hs.
  - assert (i + N.to_nat n < length ((old ++ recent) ++ [e]))%nat as Hb by by eapply lookup_lt_Some.
    rewrite !length_app in *. simpl in *.
    rewrite lookup_app_r in H2 by (rewrite length_app; lia). rewrite length_app in H2.
    replace (i + N.to_nat n - (length old + length recent))%nat with 0%nat in H2 by lia. injection H2 as <-.
    rewrite <-app_assoc, lookup_app_l in H1 by lia. by apply (Forall_lookup_1 _ _ _ _ Hold H1).
Qed.

Lemma not_blocked key events :
  0 < global → 0 < per_key → oldest_blocking key global per_key events = None →
  N.of_nat (length events) < global ∧ N.of_nat (length (of_key key events)) < per_key.
Proof.
  unfold oldest_blocking, of_key. intros Hg Hk. destruct (global <=? _) eqn:Hl.
  { destruct events; simpl in *; [lia|done]. }
  intros Hb. split; [lia|]. destruct (filter _ _) as [|[t k] same]; simpl in *; [lia|].
  destruct (per_key <=? _) eqn:Hs; [done|]. lia.
Qed.

Lemma of_key_app key l1 l2 : of_key key (l1 ++ l2) = of_key key l1 ++ of_key key l2.
Proof. apply filter_app. Qed.

Lemma admit_inv now now' key w log w' r :
  0 < global → 0 < per_key → now <= now' → window_inv now w log →
  admit_event now' key global per_key w = (w', r) →
  rw_window w' = rw_window w ∧
  window_inv now' w' (log ++ match r with Ok _ => [(now', key)] | Err _ => [] end).
Proof.
  intros Hg Hk Hnow [(forgotten & -> & Hf) Hglob Hkey]. unfold admit_event; cbv zeta.
  destruct (drop_old_split (rw_window w) now' (rw_events w)) as (old & Hev & Hold).
  set (events := drop_old _ _ _) in *. rewrite Hev in Hglob, Hkey |- *. rewrite app_assoc in *.
  assert (Forall (λ e, rw_window w <= now' - e.1) (forgotten ++ old)) as Hall.
  { apply Forall_app. split; [|done]. eapply Forall_impl; [exact Hf|]. simpl. intros x Hx. lia. }
  destruct (oldest_blocking key global per_key events) eqn:Hb; intros [= <- <-]; (split; [done|]); simpl.
  - rewrite app_nil_r. split; [by exists (forgotten ++ old)|exact Hglob|exact Hkey].
  - apply not_blocked in Hb as [Hlg Hlk]; [|done..]. split; simpl.
    + exists (forgotten ++ old). by rewrite app_assoc.
    + by apply spaced_snoc.
    + intros key'. rewrite !of_key_app. destruct (decide (key = key')) as [<-|Hne].
      * replace (of_key key [(now', key)]) with [(now', key)] by (unfold of_key; by rewrite filter_cons_True by done).
        rewrite <-(of_key_app key forgotten). apply spaced_snoc; [by rewrite <-of_key_app| |done].
        apply Forall_forall. intros x [_ Hx]%list_elem_of_filter. by eapply Forall_forall in Hall.
      * replace (of_key key' [(now', key)]) with (@nil (N * K)) by (unfold of_key; by rewrite filter_cons_False by done).
        rewrite app_nil_r, <-!of_key_app. apply Hkey.
Qed.

Lemma admitted_inv calls now w log :
  0 < global → 0 < per_key → window_inv now w log → Forall (λ c, now <= c.1) calls →
  StronglySorted (λ c c', c.1 <= c'.1) calls →
  spaced (rw_window w) global (log ++ admitted calls w) ∧
  ∀ key, spaced (rw_window w) per_key (of_key key (log ++ admitted calls w)).
Proof.
  intros Hg Hk. revert now w log. induction calls as [|[now' key] calls IH]; intros now w log Hi Hle Hs; simpl.
  { rewrite app_nil_r. split; apply Hi. }
  apply Forall_cons in Hle as [Hle Hles]. apply StronglySorted_inv in Hs as [Hs Hnext].
  destruct (admit_event now' key global per_key w) as [w' r] eqn:Ha.
  apply (admit_inv now now' key w log) in Ha as [Hw Hi']; [|done..].
  destruct (IH now' w' _ Hi' Hnext Hs) as [H1 H2]. rewrite Hw in H1, H2.
  destruct r; simpl in *; by rewrite <-app_assoc in H1, H2.
Qed.

(** A rate window is a sliding window. Whatever calls are made of a monotonic
    clock, of any [global + 1] successive calls let through, and of any
    [per_key + 1] of one key, the last comes at least a window after the
    first. *)
Theorem rate_window_slides window calls :
  0 < global → 0 < per_key → StronglySorted (λ c c', c.1 <= c'.1) calls →
  spaced window global (admitted calls (RateWindow_new window)) ∧
  ∀ key, spaced window per_key (of_key key (admitted calls (RateWindow_new window))).
Proof.
  intros Hg Hk Hs. apply (admitted_inv calls 0 (RateWindow_new window) []); [done..| |by apply Forall_true; lia|done].
  split; [by exists []|..]; intros; intros i e1 e2 Hl; simpl in *; done.
Qed.
End rate.

(** ** The table of requests *)
Section table.
Context `{AuthCrypto} `{PairingCrypto}.
Context (registry_bytes : RegistryFile → N) (hash_order : gmap bytes PendingRequest → list bytes).
Context (enabled : bool) (transport_protocol : PairingEncryption).
Implicit Types (m : gmap bytes PendingRequest) (s : RegistryState).

(** [m'] has no new request, and none that counts for more than in [m]. *)
Definition shrinks m m' : Prop :=
  ∀ id p', m' !! id = Some p' →
    ∃ p, m !! id = Some p ∧ pr_source p' = pr_source p ∧
      (pr_status p' = pr_status p ∨ pr_status p = Pending).

Lemma shrinks_refl m : shrinks m m.
Proof. intros id p Hp. exists p. eauto. Qed.
Lemma shrinks_trans m1 m2 m3 : shrinks m1 m2 → shrinks m2 m3 → shrinks m1 m3.
Proof.
  intros H12 H23 id p3 (p2 & (p1 & ? & ? & Hs1)%H12 & ? & Hs2)%H23. exists p1. split_and!; [done|congruence|].
  destruct Hs1 as [Hs1|?], Hs2 as [Hs2|?]; auto; [left|right]; congruence.
Qed.
Lemma shrinks_delete m m' id : shrinks m m' → shrinks m (delete id m').
Proof. intros Hm id' p [_ Hp]%lookup_delete_Some. eauto. Qed.
(** Replacing a request by one of the same source and status. *)
Lemma shrinks_insert m m' id p p' :
  shrinks m m' → m' !! id = Some p → pr_source p' = pr_source p →
  pr_status p' = pr_status p ∨ pr_status p = Pending → shrinks m (<[id := p']> m').
Proof.
  intros Hm Hp Hsrc Hst. apply (shrinks_trans _ m'); [done|].
  intros id' q [[<- <-]|[_ Hq]]%lookup_insert_Some; [by exists p|]. exists q. eauto.
Qed.
Lemma shrinks_alter m m' id (f : PendingRequest → PendingRequest) :
  (∀ p, pr_source (f p) = pr_source p) → (∀ p, pr_status (f p) = pr_status p) → shrinks m m' →
  shrinks m (alter f id m').
Proof.
  intros Hsrc Hst Hm. apply (shrinks_trans _ m'); [done|]. intros id' q Hq.
  apply lookup_alter_Some in Hq as [(<- & p & Hp & ->)|[_ Hq]]; [exists p; eauto|exists q; eauto].
Qed.
Lemma shrinks_empty m : shrinks m ∅.
Proof. intros id p Hp. by rewrite lookup_empty in Hp. Qed.
#[local] Hint Resolve shrinks_refl shrinks_delete shrinks_empty : todex.

Abbreviation shrinking m f :=
  (hoare (E:=AppError) (λ s, shrinks m (rs_requests s)) f (λ _ s, shrinks m (rs_requests s))
     (λ _ s, shrinks m (rs_requests s))).

Lemma shrinking_take_decisions m ids : shrinking m (take_decisions ids).
Proof.
  induction ids as [|id ids IH]; [by intros s Hs|].
  apply (hoare_bind _ (λ _ s, shrinks m (rs_requests s))); [clear IH|intros []; apply IH].
  intros s Hs. destruct (take_decision id s) as [s' r] eqn:Ht.
  assert (shrinks m (rs_requests s')); [|by destruct r].
  apply take_decision_cases in Ht as [->|(p & d & Hp & Hst & _ & ->)]; [done|]. simpl.
  apply (shrinks_insert _ _ _ p); [done..|by right].
Qed.
Lemma shrinking_prune m now : shrinking m (prune hash_order now).
Proof.
  unfold prune. apply (hoare_bind _ (λ _ s, shrinks m (rs_requests s))).
  - intros s Hs. simpl. generalize (expired_ids hash_order now s) as ids. intros ids. revert s Hs.
    induction ids as [|id ids IH]; intros s Hs; [done|]. apply IH. simpl. auto with todex.
  - intros []. apply (hoare_bind _ (λ _ s, shrinks m (rs_requests s))); [apply hoare_asks|].
    intros ?. apply shrinking_take_decisions.
Qed.
Lemma shrinking_lookups m {A} (f : M (RateWindow unit) AppError A) : shrinking m (on_lookups f).
Proof. intros s Hs. unfold on_lookups. by destruct (f _) as [? []]. Qed.
Lemma shrinking_creates m {A} (f : M (RateWindow SourceKey) AppError A) : shrinking m (on_creates f).
Proof. intros s Hs. unfold on_creates. by destruct (f _) as [? []]. Qed.
Lemma shrinking_devices m {A} (f : M World AppError A) : shrinking m (on_devices f).
Proof. intros s Hs. unfold on_devices. by destruct (f _) as [? []]. Qed.
Lemma shrinking_lift m {A} (r : result AppError A) : shrinking m (lift_result r).
Proof. by apply hoare_lift. Qed.
Lemma shrinking_make_room m : shrinking m (make_room_for_request hash_order).
Proof.
  intros s Hs. unfold make_room_for_request. destruct (_ || _); [|done].
  destruct (oldest_unrevealed _ _); [|done]. simpl. auto with todex.
Qed.
Lemma shrinking_or_drop m {A} id (f : M RegistryState AppError A) : shrinking m f → shrinking m (or_drop id f).
Proof.
  intros Hf s Hs. specialize (Hf s Hs). unfold or_drop. destruct (f s) as [? []]; [done|]. simpl. auto with todex.
Qed.
Lemma shrinking_write m e sm : shrinking m (write_new_summary e sm).
Proof. intros s Hs. unfold write_new_summary. destruct (_ !! _); [done|]. by destruct (pe_write e). Qed.
Lemma shrinking_remove m id : shrinking m (updates (λ s, remove_local_files id (remove_request id s))).
Proof. intros s Hs. simpl. auto with todex. Qed.
Lemma shrinking_stage m st id : shrinking m (updates (λ s, set_requests (alter (with_stage st) id (rs_requests s)) s)).
Proof. intros s Hs. simpl. by apply shrinks_alter. Qed.
#[local] Hint Resolve shrinking_prune shrinking_lookups shrinking_creates shrinking_devices shrinking_lift
  shrinking_make_room shrinking_or_drop shrinking_write shrinking_remove shrinking_stage : todex.

(** Counting a call replaces the request just found. *)
Lemma shrinking_count m now id p :
  (hoare (λ s, shrinks m (rs_requests s) ∧ rs_requests s !! id = Some p) (count_reveal now id p)
     (λ _ s, shrinks m (rs_requests s)) (λ _ s, shrinks m (rs_requests s))) ∧
  (hoare (λ s, shrinks m (rs_requests s) ∧ rs_requests s !! id = Some p) (count_proof now id p)
     (λ _ s, shrinks m (rs_requests s)) (λ _ s, shrinks m (rs_requests s))).
Proof.
  split; intros s [Hs Hp]; unfold count_reveal, count_proof; destruct (admit_event _ _ _ _ _) as [w []]; simpl;
    (eapply shrinks_insert; [done|done|done|by left]).
Qed.

Ltac shrinking m :=
  repeat first
    [ solve [auto with todex] | by intros ? ?
    | apply (hoare_bind _ (λ _ s, shrinks m (rs_requests s))); [|intros ?] | case_match ].

Lemma shrinking_reveal m e request : shrinking m (reveal hash_order e request).
Proof.
  unfold reveal; cbv zeta. set (id := rv_request_id request).
  do 5 (apply (hoare_bind _ (λ _ s, shrinks m (rs_requests s))); [auto with todex|intros ?]).
  apply (hoare_bind _ (λ found s, shrinks m (rs_requests s) ∧ found = rs_requests s !! id)); [apply hoare_asks_eq|intros found].
  apply (hoare_bind _ (λ p s, shrinks m (rs_requests s) ∧ rs_requests s !! id = Some p)).
  { intros s [Hs ->]. unfold lift_result, ok_or. by destruct (rs_requests s !! id). }
  intros p. apply (hoare_bind _ (λ _ s, shrinks m (rs_requests s))); [apply shrinking_count|intros ?]. shrinking m.
Qed.

Lemma shrinking_proof_call m now id {A} (g : PendingRequest → M RegistryState AppError A) (a : A) :
  (∀ p, shrinking m (g p)) →
  shrinking m (found ← asks (λ s, rs_requests s !! id);
    match found with None => mret a | Some p => _ ← count_proof now id p; g p end).
Proof.
  intros Hg. apply (hoare_bind _ (λ found s, shrinks m (rs_requests s) ∧ found = rs_requests s !! id)); [apply hoare_asks_eq|].
  intros [p|]; [|by intros s [? _]]. apply (hoare_bind _ (λ _ s, shrinks m (rs_requests s))); [|by intros []].
  eapply hoare_weaken; [apply shrinking_count|by intros s [? ?]|done..].
Qed.
Lemma shrinking_poll m e request : shrinking m (poll registry_bytes hash_order transport_protocol e request).
Proof.
  unfold poll; cbv zeta.
  do 4 (apply (hoare_bind _ (λ _ s, shrinks m (rs_requests s))); [auto with todex|intros ?]).
  apply shrinking_proof_call. intros p. unfold poll_verified. shrinking m.
Qed.
Lemma shrinking_cancel m e request : shrinking m (cancel hash_order e request).
Proof.
  unfold cancel; cbv zeta.
  do 4 (apply (hoare_bind _ (λ _ s, shrinks m (rs_requests s))); [auto with todex|intros ?]).
  apply shrinking_proof_call. intros p. shrinking m.
Qed.
Lemma shrinking_decide m unix_ms write id approved : shrinking m (decide_device_pairing unix_ms write id approved).
Proof.
  intros s Hs. unfold decide_device_pairing. destruct (validate_id id); [|done].
  destruct (rs_summaries s !! id) as [[sm|]|]; [|done..]. destruct (_ || _); [done|].
  destruct (rs_decisions s !! id); [done|]. by destruct write.
Qed.

(** *** Counting *)
Abbreviation counted f m := (filter (λ x : bytes * PendingRequest, f x.2 = true) m).

Lemma count_le (f : PendingRequest → bool) m m' :
  (∀ id p', m' !! id = Some p' → f p' = true → ∃ p, m !! id = Some p ∧ f p = true) →
  count_requests f m' <= count_requests f m.
Proof.
  intros Hle. unfold count_requests. rewrite <-!size_dom.
  assert (dom (counted f m') ⊆
          dom (counted f m)) as Hsub; [|apply subseteq_size in Hsub; lia].
  intros id [p [Hp Hf]%map_lookup_filter_Some]%elem_of_dom. destruct (Hle id p Hp Hf) as (q & Hq & Hfq).
  apply elem_of_dom. exists q. by apply map_lookup_filter_Some.
Qed.
Lemma count_insert_le (f : PendingRequest → bool) m id p :
  count_requests f (<[id := p]> m) <= count_requests f m + (if f p then 1 else 0).
Proof.
  unfold count_requests. rewrite <-!size_dom.
  assert (dom (counted f (<[id := p]> m)) ⊆
          (if f p then {[id]} else ∅) ∪ dom (counted f m)) as Hsub.
  { intros id' [q [Hq Hf]%map_lookup_filter_Some]%elem_of_dom. simpl in Hf.
    apply lookup_insert_Some in Hq as [[<- <-]|[_ Hq]]; [rewrite Hf; set_solver|].
    apply elem_of_union_r, elem_of_dom. exists q. by apply map_lookup_filter_Some. }
  apply subseteq_size in Hsub. destruct (f p).
  - assert (size ({[id]} ∪ dom (counted f m)) ≤
            1 + size (dom (counted f m)))%nat; [|lia].
    rewrite size_union_alt, size_singleton.
    assert (size (dom (counted f m) ∖ {[id]}) ≤
            size (dom (counted f m)))%nat; [|lia].
    apply subseteq_size. set_solver.
  - assert (∅ ∪ dom (counted f m) ⊆
            dom (counted f m)) as Hu by set_solver.
    apply subseteq_size in Hu. lia.
Qed.
Lemma count_delete_lt (f : PendingRequest → bool) m id p :
  m !! id = Some p → f p = true → count_requests f (delete id m) + 1 <= count_requests f m.
Proof.
  intros Hp Hf. unfold count_requests.
  assert (counted f m !! id = Some p) as Hl by by apply map_lookup_filter_Some.
  rewrite map_filter_delete, (map_size_delete_Some id _ (mk_is_Some _ _ Hl)).
  assert (size (counted f m) ≠ 0%nat); [|lia].
  intros Hz. apply map_size_empty_inv in Hz. rewrite Hz in Hl. done.
Qed.

(** The limits of the table: its records, those not rejected, and the
    undecided ones of one address. *)
Record within_limits m : Prop := {
  wl_records : N.of_nat (size m) <= MAX_RECORDS;
  wl_active : count_requests is_active m <= MAX_ACTIVE;
  wl_source source : count_requests (unfinished_from source) m <= MAX_UNFINISHED_PER_SOURCE;
}.

Lemma shrinks_active m m' : shrinks m m' → count_requests is_active m' <= count_requests is_active m.
Proof.
  intros Hs. apply count_le. unfold is_active. intros id p' (p & ? & _ & Hst)%Hs Ha%bool_decide_eq_true.
  exists p. split; [done|]. apply bool_decide_eq_true. destruct Hst as [<-| ->]; done.
Qed.
Lemma shrinks_unfinished source m m' :
  shrinks m m' → count_requests (unfinished_from source) m' <= count_requests (unfinished_from source) m.
Proof.
  intros Hs. apply count_le. unfold unfinished_from. intros id p' (p & ? & Hsrc & Hst)%Hs Ha.
  apply andb_true_iff in Ha as [Ha%bool_decide_eq_true Hb%bool_decide_eq_true].
  exists p. split; [done|]. apply andb_true_iff. split; apply bool_decide_eq_true; [congruence|].
  destruct Hst as [<-| ->]; done.
Qed.
Lemma shrinks_records m m' : shrinks m m' → (size m' ≤ size m)%nat.
Proof.
  intros Hs. rewrite <-!size_dom. apply subseteq_size. intros id [p' (p & ? & _)%Hs]%elem_of_dom. apply elem_of_dom. eauto.
Qed.
Lemma within_shrinks m m' : shrinks m m' → within_limits m → within_limits m'.
Proof.
  intros Hs [H1 H2 H3]. split; [|by etrans; [apply shrinks_active|]|intros source; by etrans; [apply shrinks_unfinished|]].
  apply shrinks_records in Hs. lia.
Qed.

(** What is dropped to make room was never revealed. *)
Lemma oldest_unrevealed_committed m id :
  oldest_unrevealed hash_order m = Some id → ∃ p, m !! id = Some p ∧ is_committed p = true.
Proof.
  unfold oldest_unrevealed. generalize (hash_order m) as ids. intros ids.
  assert (∀ best, (∀ i, best = Some i → ∃ p, m !! i = Some p ∧ is_committed p = true) → ∀ i,
    foldl (λ best id, match m !! id with
      | Some p => if is_committed p then
          match best ≫= (λ i, m !! i) with
          | Some q => if pr_created p <? pr_created q then Some id else best
          | None => Some id end else best
      | None => best end) best ids = Some i → ∃ p, m !! i = Some p ∧ is_committed p = true) as Hind; [|by apply Hind].
  induction ids as [|id' ids IH]; intros best Hb i; [by apply Hb|]. simpl. apply IH. clear IH i.
  destruct (m !! id') as [p|] eqn:Hp; [|done]. destruct (is_committed p) eqn:Hc; [|done].
  destruct (best ≫= _) as [q|]; [destruct (_ <? _); [|done]|]; intros i [= <-]; eauto.
Qed.

(** Room is made by dropping a request that is neither approved nor rejected. *)
Lemma make_room_room m :
  hoare (λ s, shrinks m (rs_requests s) ∧ within_limits (rs_requests s) ∧
              map_Forall (λ _ p, is_committed p = true → pr_status p = Pending) (rs_requests s))
    (make_room_for_request hash_order)
    (λ _ s, shrinks m (rs_requests s) ∧ N.of_nat (size (rs_requests s)) < MAX_RECORDS ∧
            count_requests is_active (rs_requests s) < MAX_ACTIVE)
    (λ _ s, within_limits (rs_requests s)).
Proof.
  intros s (Hs & Hw & Hp). unfold make_room_for_request.
  destruct (_ || _) eqn:Hfull; [|split_and!; [done|lia..]].
  destruct (oldest_unrevealed hash_order (rs_requests s)) as [id|] eqn:Ho; [|done].
  apply oldest_unrevealed_committed in Ho as (p & Hid & Hc). specialize (Hp id p Hid Hc). simpl.
  assert (is_active p = true) as Ha by (unfold is_active; rewrite Hp; by apply bool_decide_eq_true).
  split_and!; [auto with todex| |].
  - pose proof (wl_records _ Hw). rewrite map_size_delete, Hid.
    assert (size (rs_requests s) ≠ 0%nat); [|lia]. intros Hz%map_size_empty_inv. by rewrite Hz in Hid.
  - pose proof (wl_active _ Hw). pose proof (count_delete_lt is_active _ _ _ Hid Ha). lia.
Qed.

Lemma inv_committed evs s :
  pairing_inv evs s → map_Forall (λ _ p, is_committed p = true → pr_status p = Pending) (rs_requests s).
Proof.
  intros Hi id p Hp. destruct (pi_requests _ _ Hi id p Hp) as (o & _ & Hs). unfold stage_ok, is_committed in *.
  destruct (pr_stage p); [by destruct Hs as (_ & _ & _ & ? & _)|done].
Qed.

Lemma within_insert m id p source :
  N.of_nat (size m) < MAX_RECORDS → count_requests is_active m < MAX_ACTIVE → pr_source p = source →
  (∀ src, count_requests (unfinished_from src) m <= MAX_UNFINISHED_PER_SOURCE) →
  count_requests (unfinished_from source) m < MAX_UNFINISHED_PER_SOURCE →
  within_limits (<[id := p]> m).
Proof.
  intros Hr Ha Hsrc Hu Hlt. split.
  - rewrite map_size_insert. destruct (m !! id); simpl; lia.
  - pose proof (count_insert_le is_active m id p) as Hc. destruct (is_active p) in Hc; lia.
  - intros src. pose proof (count_insert_le (unfinished_from src) m id p) as Hc.
    destruct (unfinished_from src p) eqn:Hf in Hc; [|specialize (Hu src); lia].
    unfold unfinished_from in Hf. apply andb_true_iff in Hf as [Hf%bool_decide_eq_true _].
    replace src with source in * by congruence. lia.
Qed.

Lemma create_within evs m e peer arrival request :
  within_limits m →
  hoare (λ s, pairing_inv evs s ∧ shrinks m (rs_requests s))
    (create_from hash_order enabled transport_protocol e peer arrival request)
    (λ _ s, within_limits (rs_requests s)) (λ _ s, within_limits (rs_requests s)).
Proof.
  intros Hm. set (I := λ s, pairing_inv evs s ∧ shrinks m (rs_requests s)).
  assert (∀ s, I s → within_limits (rs_requests s)) as HI by (intros s [_ ?]; by eapply within_shrinks).
  unfold create_from. set (source := peer_source peer).
  apply (hoare_bind _ (λ _, I)); [apply hoare_lift; auto|intros [[c k] t]; cbv zeta].
  apply (hoare_bind _ (λ _, I)).
  { eapply hoare_weaken; [apply hoare_and; [apply (keeps_prune hash_order evs)|apply (shrinking_prune m)]|done|done|].
    intros ? s [? ?]. by apply HI. }
  intros []. apply (hoare_bind _ (λ _, I)).
  { eapply hoare_weaken; [apply hoare_and; [apply (keeps_creates evs)|apply (shrinking_creates m)]|done|done|].
    intros ? s [? ?]. by apply HI. }
  intros []. apply (hoare_bind _ (λ n s, I s ∧ n = count_requests (unfinished_from source) (rs_requests s))); [by intros s Hs|].
  intros n. apply (hoare_bind _ (λ _ s, I s ∧ count_requests (unfinished_from source) (rs_requests s) < MAX_UNFINISHED_PER_SOURCE)).
  { intros s [Hs ->]. unfold lift_result, guard_err. destruct (_ <? _) eqn:Hlt; [|by apply HI]. split; [done|lia]. }
  intros [] s [[Hi Hs] Hlt].
  pose proof (make_room_room (rs_requests s) s (conj (shrinks_refl _) (conj (HI s (conj Hi Hs)) (inv_committed evs s Hi)))) as Hroom.
  unfold mbind, M_bind. destruct (make_room_for_request hash_order s) as [s1 [[]|]]; [|done].
  destruct Hroom as (Hs1 & Hsize & Hactive). simpl. apply (within_insert _ _ _ source); [done..| |].
  - intros src. etrans; [by apply shrinks_unfinished|]. by apply (HI s).
  - eapply N.le_lt_trans; [by apply shrinks_unfinished|done].
Qed.

Lemma observe_within {A} (f : A → list Event) x :
  match x with (s', Ok _) => within_limits (rs_requests s') | (s', Err _) => within_limits (rs_requests s') end →
  within_limits (rs_requests (observe f x).1).
Proof. by destruct x as [s' []]. Qed.

Lemma step_within evs op s :
  pairing_inv evs s → within_limits (rs_requests s) →
  within_limits (rs_requests (step registry_bytes hash_order enabled transport_protocol op s).1).
Proof.
  intros Hi Hw. destruct op as [e peer arrival request|e request|e request|e request|unix_ms write id approved|op];
    cbn [step]; try apply observe_within; try done.
  - by apply (create_within evs (rs_requests s) _ _ _ _ Hw s (conj Hi (shrinks_refl _))).
  - pose proof (shrinking_reveal (rs_requests s) e request s (shrinks_refl _)) as Hs.
    destruct (reveal _ _ _ _) as [s' []]; by eapply within_shrinks.
  - pose proof (shrinking_poll (rs_requests s) e request s (shrinks_refl _)) as Hs.
    destruct (poll _ _ _ _ _ _) as [s' []]; by eapply within_shrinks.
  - pose proof (shrinking_cancel (rs_requests s) e request s (shrinks_refl _)) as Hs.
    destruct (cancel _ _ _ _) as [s' []]; by eapply within_shrinks.
  - pose proof (shrinking_decide (rs_requests s) unix_ms write id approved s (shrinks_refl _)) as Hs.
    destruct (decide_device_pairing _ _ _ _ _) as [s' []]; by eapply within_shrinks.
Qed.

(** The table of requests stays small whatever strangers send: at most 64
    records, 16 of them not rejected, and two undecided ones per address. *)
Theorem pairing_table_is_bounded ops s0 s evs :
  rs_requests s0 = ∅ → fresh_ids registry_bytes hash_order enabled transport_protocol ops s0 [] →
  run_pairing registry_bytes hash_order enabled transport_protocol ops s0 [] = (s, evs) →
  within_limits (rs_requests s).
Proof.
  intros Hs0 Hf Hrun. assert (pairing_inv [] s0) as Hi by by apply start_inv.
  assert (within_limits (rs_requests s0)) as Hw.
  { rewrite Hs0. unfold count_requests. split; intros; [done|vm_compute; done|]. unfold count_requests. rewrite map_filter_empty, map_size_empty. done. }
  clear Hs0. revert s0 Hf Hrun Hi Hw. generalize (@nil Event) as evs0.
  induction ops as [|op ops IH]; intros evs0 s0 Hf Hrun Hi Hw; simpl in *; [by injection Hrun as <- <-|].
  destruct Hf as [Hf Hfs]. pose proof (pairing_step_inv registry_bytes hash_order enabled transport_protocol op s0 evs0 Hf Hi) as Hi'.
  pose proof (step_within evs0 op s0 Hi Hw) as Hw'.
  destruct (step registry_bytes hash_order enabled transport_protocol op s0) as [s1 new]. by eapply IH.
Qed.
End table.
