(* ===== verification/PairingExchange.v ===== *)
(** * The pairing exchange

    What the two sides agree on: the transcript binds everything a request
    offers, and a client that follows the protocol ends up registered with a
    credential it can open. The laws of the primitives it relies on are the
    class [PairingLaws]; the example at the end runs the whole exchange. *)
From S2P Require Import Prelude Bytes Query DeviceAuth Devices Pairing PairingSafety PairingLimits.
From Stdlib Require Import Strings.Byte ZifyBool.
Local Open Scope N_scope.

Class PairingLaws `{AuthCrypto} `{PairingCrypto} : Prop := {
  dh_agrees a b : diffie_hellman a (x25519_public b) = diffie_hellman b (x25519_public a);
  hkdf_length salt ikm info : length (hkdf_sha256 salt ikm info) = 32%nat;
  xchacha_opens k n m ad c : xchacha_encrypt k n m ad = Some c → xchacha_decrypt k n c ad = Some m;
  credential_reads id p k : credential_from_json (credential_to_json id p k) = Some (id, p, k);
  base64_reads x : base64_decode (base64_encode x) = Some x;
  base64_key_length x : length x = 32%nat → length (base64_encode x) = 43%nat;
}.

(** ** The transcript *)

Lemma length_prefixed_app x y s t :
  N.of_nat (length x) < 2 ^ 32 → N.of_nat (length y) < 2 ^ 32 →
  length_prefixed x ++ s = length_prefixed y ++ t → x = y ∧ s = t.
Proof.
  intros Hx Hy. unfold length_prefixed, u32_to_be_bytes. rewrite <-!app_assoc.
  intros [Hl Heq]%app_inj_1; [|by rewrite !length_to_be].
  assert (length x = length y) as Hlen by (apply to_be_inj in Hl; [lia|done..]).
  by apply app_inj_1 in Heq.
Qed.

Lemma protocol_str_inj p q : protocol_str p = protocol_str q → p = q.
Proof. by destruct p, q. Qed.
Lemma protocol_str_short p : N.of_nat (length (protocol_str p)) < 2 ^ 32.
Proof. by destruct p. Qed.

(** What the exchange is about. *)
Record Pairing : Type := {
  px_request_id : bytes; px_client_public : bytes; px_server_public : bytes; px_device_public : bytes;
  px_client_nonce : bytes; px_transport : TransportBinding; px_device_name : bytes;
}.
Definition transcript_of (x : Pairing) : bytes :=
  pairing_transcript (px_request_id x) (px_client_public x) (px_server_public x) (px_device_public x)
    (px_client_nonce x) (px_transport x) (px_device_name x).
(** The widths [validate_id] and [decode_32] enforce; lengths fit a [u32]. *)
Record fixed_widths (x : Pairing) : Prop := {
  fw_id : length (px_request_id x) = 36%nat;
  fw_client : length (px_client_public x) = 32%nat;
  fw_server : length (px_server_public x) = 32%nat;
  fw_device : length (px_device_public x) = 32%nat;
  fw_nonce : length (px_client_nonce x) = 32%nat;
  fw_key : N.of_nat (length (tb_public_key (px_transport x))) < 2 ^ 32;
  fw_name : N.of_nat (length (px_device_name x)) < 2 ^ 32;
}.

(** The transcript, from which the keys, the proofs and the verification code
    the user compares are derived, determines the request, all four keys and
    nonces, the transport key and protocol, and the device name. *)
Theorem transcript_binds_everything x y :
  fixed_widths x → fixed_widths y → transcript_of x = transcript_of y → x = y.
Proof.
  intros Hx Hy. destruct x as [id cp sp dp cn [pr tk] nm], y as [id' cp' sp' dp' cn' [pr' tk'] nm'].
  destruct Hx as [X1 X2 X3 X4 X5 X6 X7], Hy as [Y1 Y2 Y3 Y4 Y5 Y6 Y7].
  unfold transcript_of, pairing_transcript. cbn [px_request_id px_client_public px_server_public px_device_public
    px_client_nonce px_transport px_device_name tb_protocol tb_public_key] in *.
  intros [-> E]%app_inv_head%app_inj_1; [|congruence]. apply app_inv_head in E.
  apply app_inj_1 in E as [-> E]; [|congruence]. apply app_inj_1 in E as [-> E]; [|congruence].
  apply app_inv_head in E. apply app_inj_1 in E as [-> E]; [|congruence].
  apply app_inj_1 in E as [-> E]; [|congruence].
  apply length_prefixed_app in E as [->%protocol_str_inj E]; [|apply protocol_str_short..].
  apply length_prefixed_app in E as [-> E]; [|done..].
  rewrite <-(app_nil_r (length_prefixed nm)), <-(app_nil_r (length_prefixed nm')) in E.
  by apply length_prefixed_app in E as [-> _].
Qed.

(** ** A client that follows the protocol *)
Section exchange.
Context `{PairingLaws}.
Context (registry_bytes : RegistryFile → N) (hash_order : gmap bytes PendingRequest → list bytes).
Context (enabled : bool) (transport_protocol : PairingEncryption).
Hypothesis hash_order_keys : ∀ m id, is_Some (m !! id) → id ∈ hash_order m.
Implicit Types (s : RegistryState) (p : PendingRequest) (id : bytes).

Abbreviation succeeds P m Q := (hoare (E:=AppError) P m Q (λ _ _, False)).

Lemma hoare_ok {A B} P (a : A) (f : A → M RegistryState AppError B) Q F :
  hoare P (f a) Q F → hoare P (lift_result (Ok a) ≫= f) Q F.
Proof. by intros Hf s Hs; apply Hf. Qed.
(** A lookup whose answer is known. *)
Lemma hoare_known {A B} P (g : RegistryState → A) (a : A) (f : A → M RegistryState AppError B) Q F :
  (∀ s, P s → g s = a) → hoare P (f a) Q F → hoare P (asks g ≫= f) Q F.
Proof. intros Hg Hf s Hs. unfold asks, mbind, M_bind. rewrite (Hg s Hs). by apply Hf. Qed.

(** The request [id] as the exchange leaves it between calls; the only
    decision around is its own. *)
Record awaits (id : bytes) (p : PendingRequest) (sm : option (result AppError DevicePairingRequestSummary))
    (dec : option LocalDecision) (w : World) (n : N) (s : RegistryState) : Prop := {
  aw_request : rs_requests s !! id = Some p;
  aw_summary : rs_summaries s !! id = sm;
  aw_decisions id' : rs_decisions s !! id' = (if decide (id' = id) then Ok <$> dec else None);
  aw_devices : rs_devices s = w;
  aw_lookups : N.of_nat (length (rw_events (rs_lookups s))) <= n;
}.

Lemma drop_old_length {K} window now (events : list (N * K)) : (length (drop_old window now events) ≤ length events)%nat.
Proof. destruct (drop_old_split window now events) as (old & Heq & _). apply (f_equal length) in Heq. rewrite length_app in Heq. lia. Qed.

Lemma unit_not_blocked n (events : list (N * unit)) :
  0 < n → N.of_nat (length events) < n → oldest_blocking tt n n events = None.
Proof.
  intros Hn Hl. unfold oldest_blocking. destruct (n <=? _) eqn:E; [lia|].
  assert (length (filter (λ e : N * unit, e.2 = tt) events) ≤ length events)%nat as Hf by apply length_filter.
  destruct (filter (λ e : N * unit, e.2 = tt) events) as [|[t u] same]; [done|]. simpl in Hf. destruct (n <=? 1 + _) eqn:E2; [lia|done].
Qed.

Lemma lookup_admitted now id p sm dec w n :
  n < 1024 →
  succeeds (awaits id p sm dec w n) (on_lookups (admit_event now tt 1024 1024)) (λ _, awaits id p sm dec w (n + 1)).
Proof.
  intros Hn s [? ? ? ? Hl]. unfold on_lookups, admit_event.
  pose proof (drop_old_length (rw_window (rs_lookups s)) now (rw_events (rs_lookups s))) as Hd.
  rewrite unit_not_blocked by lia. split; simpl; [done..|]. rewrite length_app. simpl. lia.
Qed.

Definition decided (dec : option LocalDecision) (p : PendingRequest) : PendingRequest :=
  match dec with
  | Some d => with_status (if ld_approved d then Approved else Rejected) p
  | None => p
  end.

(** Pruning keeps a request that has not expired, and takes its decision. *)
Lemma expired_awaits now id p sm dec w n :
  expired_request now p = false →
  succeeds (awaits id p sm dec w n)
    (updates (λ s, foldl (λ s id, remove_local_files id (remove_request id s)) s (expired_ids hash_order now s)))
    (λ _, awaits id p sm dec w n).
Proof.
  intros He s Hs. simpl.
  assert (id ∉ expired_ids hash_order now s) as Hid.
  { unfold expired_ids. rewrite list_elem_of_filter, (aw_request _ _ _ _ _ _ _ Hs), He. by intros [? _]. }
  revert s Hs Hid. intros s Hs. generalize (expired_ids hash_order now s) as ids. intros ids. revert s Hs.
  induction ids as [|id' ids IH]; intros s Hs Hid; [done|]. simpl. apply not_elem_of_cons in Hid as [Hne Hid].
  apply IH; [|done]. destruct Hs as [H1' H2' H3' H4' H5']. split; simpl; rewrite ?lookup_delete_ne by done; try done.
  intros id2. destruct (decide (id2 = id')) as [->|Hne2].
  - rewrite lookup_delete_eq. by destruct (decide (id' = id)).
  - rewrite lookup_delete_ne by done. apply H3'.
Qed.

(** Nothing to take from the files of other requests. *)
Lemma other_decision_awaits id p sm dec w n i :
  i ≠ id ∨ dec = None → succeeds (awaits id p sm dec w n) (take_decision i) (λ _, awaits id p sm dec w n).
Proof.
  intros Hi s Hs. unfold take_decision. destruct (rs_requests s !! i); [|done]. destruct (decide (_ ≠ _)); [done|].
  rewrite (aw_decisions _ _ _ _ _ _ _ Hs i). destruct (decide (i = id)); [|done]. destruct Hi as [?| ->]; done.
Qed.
Lemma no_decision_awaits id p sm w n ids :
  succeeds (awaits id p sm None w n) (take_decisions ids) (λ _, awaits id p sm None w n).
Proof.
  induction ids as [|i ids IH]; [by intros s Hs|].
  apply (hoare_bind _ (λ _, awaits id p sm None w n)); [apply other_decision_awaits; by right|by intros []].
Qed.
Lemma own_decision_awaits id p sm d w n :
  pr_status p = Pending → ld_request_id d = id →
  succeeds (awaits id p sm (Some d) w n) (take_decision id) (λ _, awaits id (decided (Some d) p) None None w n).
Proof.
  intros Hst Hd s [E1 E2 E3 E4 E5]. unfold take_decision. rewrite E1, (E3 id), decide_False by (rewrite Hst; by intros []).
  rewrite decide_True by done. simpl. rewrite decide_False by (rewrite Hd; by intros []).
  split; simpl; [by rewrite lookup_insert_eq|by rewrite lookup_delete_eq| |done..].
  intros i. destruct (decide (i = id)) as [->|Hi]; [by rewrite lookup_delete_eq|].
  rewrite lookup_delete_ne by done. rewrite E3. by rewrite decide_False by done.
Qed.
Lemma decisions_await id p sm d w n ids :
  pr_status p = Pending → ld_request_id d = id → id ∈ ids →
  succeeds (awaits id p sm (Some d) w n) (take_decisions ids) (λ _, awaits id (decided (Some d) p) None None w n).
Proof.
  intros Hst Hd. induction ids as [|i ids IH]; intros Hin; [by apply elem_of_nil in Hin|]. simpl.
  destruct (decide (i = id)) as [->|Hne].
  - apply (hoare_bind _ (λ _, awaits id (decided (Some d) p) None None w n)); [by apply own_decision_awaits|].
    intros []. apply no_decision_awaits.
  - apply elem_of_cons in Hin as [?|Hin]; [congruence|].
    apply (hoare_bind _ (λ _, awaits id p sm (Some d) w n)); [apply other_decision_awaits; by left|intros []; by apply IH].
Qed.

Lemma prune_awaits now id p sm dec w n :
  expired_request now p = false → pr_status p = Pending → (∀ d, dec = Some d → ld_request_id d = id) →
  succeeds (awaits id p sm dec w n) (prune hash_order now)
    (λ _, awaits id (decided dec p) (if dec then None else sm) None w n).
Proof.
  intros He Hst Hdec. unfold prune. apply (hoare_bind _ (λ _, awaits id p sm dec w n)); [by apply expired_awaits|].
  intros []. apply (hoare_bind _ (λ m s, awaits id p sm dec w n s ∧ m = rs_requests s)); [apply hoare_asks_eq|].
  intros m s [Hs ->]. destruct dec as [d|]; [|by apply no_decision_awaits].
  refine (decisions_await id p sm d w n _ Hst (Hdec d eq_refl) _ s Hs).
  apply hash_order_keys. rewrite (aw_request _ _ _ _ _ _ _ Hs). eauto.
Qed.

Lemma decode_32_encode x : length x = 32%nat → decode_32 (base64_encode x) = Ok x.
Proof. intros Hx. unfold decode_32. by rewrite base64_key_length, base64_reads; simpl; rewrite ?Hx. Qed.

(** A fresh window lets the first call through. *)
Lemma awaits_reveal_counted now id p sm dec w n :
  rw_events (pr_reveals p) = [] →
  succeeds (awaits id p sm dec w n) (count_reveal now id p)
    (λ _ s, ∃ rv, awaits id (with_windows rv (pr_proofs p) p) sm dec w n s).
Proof.
  intros Hev s [E1 E2 E3 E4 E5]. unfold count_reveal, admit_event. rewrite Hev. simpl.
  eexists. split; simpl; [by rewrite lookup_insert_eq|done..].
Qed.
Lemma awaits_proof_counted now id p sm dec w n :
  rw_events (pr_proofs p) = [] →
  succeeds (awaits id p sm dec w n) (count_proof now id p)
    (λ _ s, ∃ pf, awaits id (with_windows (pr_reveals p) pf p) sm dec w n s).
Proof.
  intros Hev s [E1 E2 E3 E4 E5]. unfold count_proof, admit_event. rewrite Hev. simpl.
  eexists. split; simpl; [by rewrite lookup_insert_eq|done..].
Qed.

(** ** The four calls *)

(** The client: its two secrets, and what it derives from the answer. *)
Record Client : Type := { cl_secret : bytes; cl_nonce : bytes; cl_request : CreateDevicePairingRequest }.
Definition cl_public (c : Client) : bytes := x25519_public (cl_secret c).
Definition client_material (c : Client) (device_public : bytes) (server_public : bytes) (id : bytes) (t : TransportBinding) :
    result AppError PairingMaterial :=
  derive id (cl_public c) server_public device_public (cl_nonce c) t (cq_device_name (cl_request c))
    (diffie_hellman (cl_secret c) server_public).
(** What the client reads from the final answer. *)
Definition client_opens (m : PairingMaterial) (r : DevicePairingPollResponse) : option (bytes * PairingEncryption * bytes) :=
  nonce ← ps_nonce r ≫= base64_decode;
  ciphertext ← ps_ciphertext r ≫= base64_decode;
  plaintext ← xchacha_decrypt (pm_wrap_key m) nonce ciphertext (pm_transcript m);
  credential_from_json plaintext.

Lemma create_awaits e peer arrival request c k t w n s s' response :
  check_create enabled transport_protocol e request = Ok (c, k, t) →
  rs_decisions s = ∅ → rs_summaries s !! pe_request_id e = None → rs_devices s = w →
  N.of_nat (length (rw_events (rs_lookups s))) <= n →
  create_from hash_order enabled transport_protocol e peer arrival request s = (s', Ok response) →
  awaits (pe_request_id e) (new_request e peer arrival c k t (cq_device_name request)) None None w n s' ∧
  cs_request_id response = pe_request_id e ∧ cs_server_public_key response = base64_encode (x25519_public (pe_server_secret e)).
Proof.
  intros Hck Hd Hsm Hw Hl Hc. set (id := pe_request_id e) in *.
  set (I := λ s, rs_decisions s = ∅ ∧ rs_summaries s !! id = None ∧ rs_devices s = w ∧
    N.of_nat (length (rw_events (rs_lookups s))) <= n).
  cut (hoare (E:=AppError) I (create_from hash_order enabled transport_protocol e peer arrival request)
    (λ r s, awaits id (new_request e peer arrival c k t (cq_device_name request)) None None w n s ∧
       cs_request_id r = id ∧ cs_server_public_key r = base64_encode (x25519_public (pe_server_secret e))) (λ _ _, True)).
  { intros Hh. specialize (Hh s). rewrite Hc in Hh. by apply Hh. }
  clear s s' Hd Hsm Hw Hl Hc. unfold create_from. rewrite Hck.
  apply hoare_ok; cbv zeta.
  assert (∀ i s, I s → I (remove_local_files i s)) as HIr.
  { intros i s (E1 & E2 & E3 & E4). split_and!; simpl; [by rewrite E1, delete_empty|apply lookup_delete_None; by right|done..]. }
  apply (hoare_bind _ (λ _, I)).
  { unfold prune. apply (hoare_bind _ (λ _, I)).
    - intros s Hs. simpl. generalize (expired_ids hash_order (pe_pruned e) s) as ids. intros ids. revert s Hs.
      induction ids as [|i ids IH]; intros s Hs; [done|]. apply IH. by apply HIr.
    - intros []. apply (hoare_bind _ (λ _, I)); [apply hoare_asks|]. intros m. generalize (hash_order m) as ids. intros ids.
      induction ids as [|i ids IH]; [by intros s Hs|]. apply (hoare_bind _ (λ _, I)); [|intros []; apply IH].
      intros s Hs. unfold take_decision. destruct (rs_requests s !! i); [|done]. destruct (decide (_ ≠ _)); [done|].
      by rewrite (proj1 Hs), lookup_empty. }
  intros []. apply (hoare_bind _ (λ _, I)); [intros s Hs; unfold on_creates; by destruct (admit_event _ _ _ _ _) as [? []]|].
  intros []. apply (hoare_bind _ (λ _, I)); [by intros s|]. intros unfinished.
  apply (hoare_bind _ (λ _, I)); [by apply hoare_lift|]. intros [].
  apply (hoare_bind _ (λ _, I)).
  { intros s Hs. unfold make_room_for_request. destruct (_ || _); [|done]. by destruct (oldest_unrevealed _ _). }
  intros [] s (E1 & E2 & E3 & E4). simpl. split_and!; [|done..]. split; simpl; [by rewrite lookup_insert_eq|done| |done..].
  intros id'. rewrite E1, lookup_empty. by destruct (decide _).
Qed.

Lemma reveal_awaits e id cp cn p secret c t m w n :
  is_uuid id = true → length cp = 32%nat → length cn = 32%nat → n < 1024 → pe_write e = Ok tt →
  expired_request (pe_pruned e) p = false → pr_status p = Pending → rw_events (pr_reveals p) = [] →
  pr_stage p = Committed secret c t → commitment cp cn = c →
  derive id cp (pr_server_public p) (pr_device_public_key p) cn (pr_transport p) (pr_device_name p)
    (diffie_hellman secret cp) = Ok m →
  succeeds (awaits id p None None w n)
    (reveal hash_order e {| rv_request_id := id; rv_client_public_key := base64_encode cp; rv_client_nonce := base64_encode cn |})
    (λ _ s, ∃ rv, awaits id (with_stage (Revealed m) (with_windows rv (pr_proofs p) p)) (Some (Ok (summary_of id p m)))
              None w (n + 1) s).
Proof.
  intros Hid Hcp Hcn Hn Hw He Hst Hrv Hstage Hc Hm. unfold reveal. cbn [rv_request_id rv_client_public_key rv_client_nonce].
  unfold validate_id, guard_err. rewrite Hid, !decode_32_encode by done.
  do 3 apply hoare_ok.
  apply (hoare_bind _ (λ _, awaits id p None None w (n + 1))); [by apply lookup_admitted|intros []].
  apply (hoare_bind _ (λ _, awaits id p None None w (n + 1))); [by apply (prune_awaits _ _ _ None None)|intros []].
  apply (hoare_known _ _ (Some p)); [apply aw_request|]. apply hoare_ok.
  apply (hoare_bind _ (λ _ s, ∃ rv, awaits id (with_windows rv (pr_proofs p) p) None None w (n + 1) s)); [by apply awaits_reveal_counted|].
  intros [] s [rv [E1 E2 E3 E4 E5]]. rewrite Hstage. rewrite bool_decide_eq_true_2 by done.
  unfold lift_result, or_drop, mbind, M_bind. rewrite Hm. unfold write_new_summary. simpl. rewrite E2, Hw.
  exists rv. split; simpl; [by rewrite lookup_alter_eq, E1|by rewrite lookup_insert_eq|done..].
Qed.

Lemma decide_awaits unix_ms id p sm w n approved :
  is_uuid id = true → sm_request_id sm = id → unix_ms < sm_expires_at sm →
  succeeds (awaits id p (Some (Ok sm)) None w n) (decide_device_pairing unix_ms (Ok tt) id approved)
    (λ _, awaits id p (Some (Ok sm)) (Some {| ld_request_id := id; ld_approved := approved |}) w n).
Proof.
  intros Hid Hsm Hexp s [E1 E2 E3 E4 E5]. unfold decide_device_pairing, validate_id, guard_err. rewrite Hid, E2.
  rewrite bool_decide_eq_false_2 by (rewrite Hsm; by intros []). rewrite (proj2 (N.leb_gt _ _) Hexp). simpl.
  rewrite E3, decide_True by done. simpl. split; simpl; [done..| |done|done].
  intros i. destruct (decide (i = id)) as [->|Hne]; [by rewrite lookup_insert_eq|].
  rewrite lookup_insert_ne by done. rewrite E3. by rewrite decide_False.
Qed.

Lemma poll_awaits e id p sm m w n w' record ct :
  is_uuid id = true → n < 1024 → expired_request (pe_pruned e) p = false → pr_status p = Pending →
  rw_events (pr_proofs p) = [] → pr_stage p = Revealed m → length (pm_poll_proof m) = 32%nat →
  transport_binding transport_protocol e = Ok (pr_transport p) →
  register registry_bytes (pe_devices e) (pr_device_name p) (pr_device_public_key p) w = (w', Ok record) →
  wrap_credential m (dr_device_id record) (pr_transport p) (pe_nonce e) = Ok ct →
  succeeds (awaits id p sm (Some {| ld_request_id := id; ld_approved := true |}) w n)
    (poll registry_bytes hash_order transport_protocol e
       {| pq_request_id := id; pq_proof := base64_encode (pm_poll_proof m) |})
    (λ r s, ps_status r = PollApproved ∧ ps_nonce r = Some (base64_encode (pe_nonce e)) ∧ ps_ciphertext r = Some ct ∧
       rs_devices s = w' ∧ rs_requests s !! id = None).
Proof.
  intros Hid Hn He Hst Hpf Hstage Hlen Ht Hreg Hwrap. unfold poll. cbn [pq_request_id pq_proof].
  set (dec := Some _). unfold validate_id, guard_err. rewrite Hid, decode_32_encode by done.
  do 2 apply hoare_ok.
  apply (hoare_bind _ (λ _, awaits id p sm dec w (n + 1))); [by apply lookup_admitted|intros []].
  set (p' := with_status Approved p).
  apply (hoare_bind _ (λ _, awaits id p' None None w (n + 1))).
  { apply (prune_awaits _ _ _ sm dec); [done..|]. by intros d [= <-]. }
  intros []. apply (hoare_known _ _ (Some p')); [apply aw_request|].
  apply (hoare_bind _ (λ _ s, ∃ pf, awaits id (with_windows (pr_reveals p') pf p') None None w (n + 1) s)); [by apply awaits_proof_counted|].
  intros [] s [pf [E1 E2 E3 E4 E5]]. unfold material. change (pr_stage p') with (pr_stage p). rewrite Hstage.
  unfold lift_result, mbind, M_bind. simpl. rewrite bool_decide_eq_true_2 by done.
  unfold poll_verified, updates, lift_result, mbind, M_bind. change (pr_status p') with Approved. simpl.
  rewrite Ht. simpl. rewrite decide_False by (by intros []). unfold on_devices. simpl. rewrite E4, Hreg, Hwrap. simpl.
  by rewrite lookup_delete_eq.
Qed.

(** A request is alive until its time is over, and 30 seconds if unrevealed. *)
Lemma new_request_alive e peer arrival c k t name now :
  now < pe_now e + REVEAL_DEADLINE → expired_request now (new_request e peer arrival c k t name) = false.
Proof.
  intros Hnow. unfold expired_request, new_request, TTL, REVEAL_DEADLINE in *. simpl in *.
  apply orb_false_iff. split; apply N.leb_gt; unfold SECOND in *; lia.
Qed.

Lemma client_opens_wrapped m r device_id t nonce ct :
  wrap_credential m device_id t nonce = Ok ct → ps_nonce r = Some (base64_encode nonce) → ps_ciphertext r = Some ct →
  client_opens m r = Some (device_id, tb_protocol t, base64_encode (tb_public_key t)).
Proof.
  unfold wrap_credential, client_opens. intros Hw -> ->.
  destruct (xchacha_encrypt _ _ _ _) as [sealed|] eqn:Henc; [|done]. simpl in Hw. injection Hw as <-. simpl.
  rewrite !base64_reads. simpl. rewrite (xchacha_opens _ _ _ _ _ Henc). simpl. apply credential_reads.
Qed.

(** C23: A client that follows the protocol and that the owner approves is paired.
    Once its request was created, revealing the committed key within 30 seconds
    succeeds and shows the approver the same verification code the client
    derives; after the approval, polling with the derived proof before the
    request expires registers the device, delivers a credential that the client
    opens to its device id and the server's transport key, and ends the request.
    The registration, the encryption and the writes of the control files are
    assumed to succeed, and the transport key not to change. *)
Theorem honest_client_is_paired (c : Client) peer arrival e0 e1 e3 unix_ms k t s s1 response w' record :
  let id := pe_request_id e0 in
  check_create enabled transport_protocol e0 (cl_request c) = Ok (commitment (cl_public c) (cl_nonce c), k, t) →
  is_uuid id = true → length (cl_public c) = 32%nat → length (cl_nonce c) = 32%nat →
  diffie_hellman (cl_secret c) (x25519_public (pe_server_secret e0)) ≠ repeat Byte.x00 32 →
  rs_decisions s = ∅ → rs_summaries s !! id = None → N.of_nat (length (rw_events (rs_lookups s))) < 1000 →
  create_from hash_order enabled transport_protocol e0 peer arrival (cl_request c) s = (s1, Ok response) →
  pe_pruned e1 < pe_now e0 + REVEAL_DEADLINE → pe_write e1 = Ok tt →
  unix_ms < N.min (pe_unix_ms e0 + TTL_MS) u64_MAX →
  pe_pruned e3 < pe_now e0 + TTL → transport_binding transport_protocol e3 = Ok t →
  register registry_bytes (pe_devices e3) (cq_device_name (cl_request c)) k (rs_devices s) = (w', Ok record) →
  (∀ key ad, is_Some (xchacha_encrypt key (pe_nonce e3)
     (credential_to_json (dr_device_id record) (tb_protocol t) (base64_encode (tb_public_key t))) ad)) →
  ∃ server_public m s2 s3 s4 sm answer,
    base64_decode (cs_server_public_key response) = Some server_public ∧
    client_material c k server_public (cs_request_id response) t = Ok m ∧
    reveal hash_order e1 {| rv_request_id := cs_request_id response; rv_client_public_key := base64_encode (cl_public c);
      rv_client_nonce := base64_encode (cl_nonce c) |} s1 = (s2, Ok tt) ∧
    rs_summaries s2 !! id = Some (Ok sm) ∧ sm_verification_code sm = pm_verification_code m ∧
    decide_device_pairing unix_ms (Ok tt) id true s2 = (s3, Ok tt) ∧
    poll registry_bytes hash_order transport_protocol e3
      {| pq_request_id := cs_request_id response; pq_proof := base64_encode (pm_poll_proof m) |} s3 = (s4, Ok answer) ∧
    ps_status answer = PollApproved ∧
    client_opens m answer = Some (dr_device_id record, tb_protocol t, base64_encode (tb_public_key t)) ∧
    rs_devices s4 = w' ∧ rs_requests s4 !! id = None.
Proof.
  intros id Hck Hid Hlp Hln Hdh Hds Hsm Hlk Hcr Ht1 Hw1 Hux Ht3 Htb Hreg Henc.
  set (n := N.of_nat (length (rw_events (rs_lookups s)))) in *.
  destruct (create_awaits _ _ _ _ _ _ _ (rs_devices s) n s _ _ Hck Hds Hsm eq_refl (N.le_refl _) Hcr) as (Haw & Eid & Epub).
  rewrite Eid, Epub. fold id in Haw |- *.
  set (sp := x25519_public (pe_server_secret e0)) in *.
  set (p := new_request _ _ _ _ _ _ _) in Haw.
  destruct (client_material c k sp id t) as [m|err] eqn:Hm; [|by unfold client_material, derive in Hm; destruct (decide _)].
  assert (derive id (cl_public c) (pr_server_public p) (pr_device_public_key p) (cl_nonce c) (pr_transport p)
    (pr_device_name p) (diffie_hellman (pe_server_secret e0) (cl_public c)) = Ok m) as Hm'.
  { rewrite <-Hm. unfold client_material, cl_public. by rewrite dh_agrees. }
  pose proof (reveal_awaits e1 id (cl_public c) (cl_nonce c) p (pe_server_secret e0) _ _ m (rs_devices s) n Hid Hlp Hln
    ltac:(lia) Hw1 (new_request_alive _ _ _ _ _ _ _ _ Ht1) eq_refl eq_refl eq_refl eq_refl Hm' s1 Haw) as Hrv.
  destruct (reveal _ _ _ _) as [s2 [[]|]]; [|done]. destruct Hrv as [rv Haw2].
  set (p2 := with_stage _ _) in Haw2. set (sm := summary_of id p m) in Haw2.
  pose proof (decide_awaits unix_ms id p2 sm (rs_devices s) (n + 1) true Hid eq_refl Hux s2 Haw2) as Hdec.
  destruct (decide_device_pairing _ _ _ _ _) as [s3 [[]|]] eqn:Hd; [|done].
  assert (∃ ct, wrap_credential m (dr_device_id record) t (pe_nonce e3) = Ok ct) as [ct Hct].
  { unfold wrap_credential. destruct (Henc (pm_wrap_key m) (pm_transcript m)) as [sealed ->]. by eexists. }
  assert (expired_request (pe_pruned e3) p2 = false) as Halive.
  { unfold expired_request. simpl. rewrite orb_false_r. by apply N.leb_gt. }
  assert (length (pm_poll_proof m) = 32%nat) as Hpf.
  { unfold client_material, derive in Hm. destruct (decide _); [done|]. injection Hm as <-. apply hkdf_length. }
  pose proof (poll_awaits e3 id p2 (Some (Ok sm)) m (rs_devices s) (n + 1) w' record ct Hid ltac:(lia) Halive eq_refl
    eq_refl eq_refl Hpf Htb Hreg Hct s3 Hdec) as Hpoll.
  destruct (poll _ _ _ _ _ _) as [s4 [answer|]] eqn:Hp; [|done]. destruct Hpoll as (? & ? & ? & ? & ?).
  exists sp, m, s2, s3, s4, sm, answer. split_and!; try done.
  - apply base64_reads.
  - apply (aw_summary _ _ _ _ _ _ _ Haw2).
  - by apply (client_opens_wrapped m answer _ t (pe_nonce e3) ct).
Qed.
End exchange.

(** ** A phone is paired *)
Module PairingExample.
Import Toy RegistryExample.

Definition mix (x y : bytes) : bytes := zip_with (λ c d, byte_of (byte_val c + byte_val d)) x y.
Definition to_32 (x : bytes) : bytes := take 32 (x ++ repeat Byte.x01 32).
Definition tag (p : PairingEncryption) : byte := match p with Plaintext => Byte.x00 | X25519 => Byte.x01 | MlKem768 => Byte.x02 end.
Definition untag (c : byte) : option PairingEncryption :=
  match c with Byte.x00 => Some Plaintext | Byte.x01 => Some X25519 | Byte.x02 => Some MlKem768 | _ => None end.
Fixpoint read_json (n : nat) (s : bytes) : option (bytes * PairingEncryption * bytes) :=
  match s with
  | Byte.x01 :: s => read_json (S n) s
  | _ :: p :: s => q ← untag p; Some (take n s, q, drop n s)
  | _ => None
  end.

#[export] Instance pairing_crypto : PairingCrypto := {|
  x25519_public s := s;
  diffie_hellman := mix;
  hkdf_sha256 salt ikm info := to_32 (drop 24 info ++ ikm);
  xchacha_encrypt k n m ad := Some (m ++ k);
  xchacha_decrypt k n c ad := Some (take (length c - length k) c);
  is_weak k := bool_decide (k = repeat Byte.x00 32);
  credential_to_json id p k := repeat Byte.x01 (length id) ++ [Byte.x00; tag p] ++ id ++ k;
  credential_from_json := read_json 0;
|}.

Lemma read_json_written n m id p k :
  (n + m)%nat = length id → read_json n (repeat Byte.x01 m ++ [Byte.x00; tag p] ++ id ++ k) = Some (id, p, k).
Proof.
  revert n. induction m as [|m IH]; intros n Hn; [|apply IH; lia]. simpl.
  rewrite take_app_length', drop_app_length' by lia. by destruct p.
Qed.

#[export] Instance pairing_laws : PairingLaws.
Proof.
  split; simpl.
  - intros a. unfold mix. induction a as [|x a IH]; intros [|y b']; simpl; [done..|]. by rewrite IH, N.add_comm.
  - intros _ ikm info. unfold to_32. rewrite length_take, length_app, repeat_length. lia.
  - intros k _ m _ c [= <-]. by rewrite length_app, Nat.add_sub, take_app_length.
  - intros id p k. by apply read_json_written.
  - intros x. unfold dec, enc. rewrite length_app, Nat.add_sub, take_app_length. by rewrite decide_True.
  - intros x Hx. unfold enc. by rewrite length_app, Hx.
Qed.

Definition hash_order (m : gmap bytes PendingRequest) : list bytes := (map_to_list m).*1.
Definition id : bytes := Eval vm_compute in b "00000000-0000-4000-8000-000000000001".
Definition transport_key : bytes := repeat Byte.x09 32.
Definition phone_key : bytes := repeat Byte.x05 32.
Definition pairing_env (now : N) : PairingEnv :=
  {| pe_pruned := now; pe_now := now; pe_unix_ms := now; pe_transport := Ok transport_key; pe_request_id := id;
     pe_server_secret := repeat Byte.x04 32; pe_nonce := repeat Byte.x06 24; pe_write := Ok tt; pe_devices := env now |}.
Definition phone : Client := {|
  cl_secret := repeat Byte.x02 32;
  cl_nonce := repeat Byte.x03 32;
  cl_request := {| cq_client_commitment := Some (enc (commitment (repeat Byte.x02 32) (repeat Byte.x03 32)));
    cq_client_public_key := None; cq_transport_binding := Some (BindingInteger 1);
    cq_device_name_binding := Some (BindingInteger 1); cq_device_name := b "phone"; cq_device_public_key := enc phone_key |};
|}.
Definition peer : PairingPeer := PeerIp (V4 0x7f000001).
Definition arrival : PairingArrival := PairingArrival_new None false.
Definition daemon : RegistryState :=
  {| rs_requests := ∅; rs_creates := RateWindow_new (60 * SECOND); rs_lookups := RateWindow_new SECOND;
     rs_summaries := ∅; rs_decisions := ∅; rs_devices := no_file |}.

Definition created := Eval vm_compute in create_from hash_order true X25519 (pairing_env 1) peer arrival (cl_request phone) daemon.
Definition material_of_phone : PairingMaterial := Eval vm_compute in
  match client_material phone phone_key (repeat Byte.x04 32) id {| tb_protocol := X25519; tb_public_key := transport_key |} with
  | Ok m => m | Err _ => {| pm_transcript := []; pm_wrap_key := []; pm_poll_proof := []; pm_cancel_proof := []; pm_verification_code := [] |}
  end.
Definition reveal_of_phone : RevealDevicePairingRequest :=
  {| rv_request_id := id; rv_client_public_key := enc (cl_public phone); rv_client_nonce := enc (cl_nonce phone) |}.
Definition poll_of_phone : DevicePairingProofRequest :=
  {| pq_request_id := id; pq_proof := enc (pm_poll_proof material_of_phone) |}.
Definition ops : list PairingOp :=
  [OCreate (pairing_env 1) peer arrival (cl_request phone); OReveal (pairing_env 2) reveal_of_phone; ODecide 3 (Ok tt) id true].
Definition approved_run : RegistryState * list Event := Eval vm_compute in run_pairing size_of hash_order true X25519 ops daemon [].
Definition paired_run : RegistryState * list Event :=
  Eval vm_compute in run_pairing size_of hash_order true X25519 (ops ++ [OPoll (pairing_env 4) poll_of_phone]) daemon [].

Lemma hash_order_all m i : is_Some (m !! i) → i ∈ hash_order m.
Proof. intros [p Hp]. apply list_elem_of_fmap. exists (i, p). split; [done|]. by apply elem_of_map_to_list. Qed.

Lemma fresh_one op more : fresh_ids size_of hash_order true X25519 more (step size_of hash_order true X25519 op daemon).1
    (step size_of hash_order true X25519 op daemon).2 →
  fresh_ids size_of hash_order true X25519 (op :: more) daemon [].
Proof.
  intros Hm. cbn [fresh_ids]. split; [|by destruct (step _ _ _ _ _ _)].
  destruct op; try exact I. split; [by intros o Hin%elem_of_nil|done].
Qed.
Lemma fresh_ops : fresh_ids size_of hash_order true X25519 ops daemon [].
Proof. apply fresh_one. vm_compute. tauto. Qed.
Lemma fresh_polled : fresh_ids size_of hash_order true X25519 (ops ++ [OPoll (pairing_env 4) poll_of_phone]) daemon [].
Proof. apply fresh_one. vm_compute. tauto. Qed.

Lemma honest_client_is_paired_witness :
  ∃ m s2 s3 s4 sm answer,
    reveal hash_order (pairing_env 2) reveal_of_phone created.1 = (s2, Ok tt) ∧
    rs_summaries s2 !! id = Some (Ok sm) ∧ sm_verification_code sm = pm_verification_code m ∧
    decide_device_pairing 3 (Ok tt) id true s2 = (s3, Ok tt) ∧
    poll size_of hash_order X25519 (pairing_env 4) {| pq_request_id := id; pq_proof := enc (pm_poll_proof m) |} s3 = (s4, Ok answer) ∧
    client_opens m answer = Some (device_id_for phone_key, X25519, enc transport_key).
Proof.
  destruct (honest_client_is_paired size_of hash_order true X25519 hash_order_all phone peer arrival
    (pairing_env 1) (pairing_env 2) (pairing_env 4) 3 phone_key {| tb_protocol := X25519; tb_public_key := transport_key |}
    daemon created.1
    {| cs_request_id := id; cs_server_public_key := enc (repeat Byte.x04 32); cs_expires_at := 300001;
       cs_poll_interval_ms := 1000; cs_transport_protocol := X25519; cs_transport_public_key := enc transport_key |}
    (register size_of (env 4) (b "phone") phone_key no_file).1
    (new_record (env 4) (b "phone") phone_key))
    as (sp & m & s2 & s3 & s4 & sm & answer & _ & _ & Hr & Hs & Hv & Hd & Hp & _ & Ho & _);
    [vm_compute; reflexivity|vm_compute; reflexivity|vm_compute; reflexivity|vm_compute; reflexivity|vm_compute; discriminate
    |reflexivity|reflexivity|vm_compute; reflexivity|vm_compute; reflexivity|vm_compute; reflexivity|reflexivity
    |vm_compute; reflexivity|vm_compute; reflexivity|vm_compute; reflexivity|vm_compute; reflexivity
    |intros key ad; eexists; reflexivity|].
  exists m, s2, s3, s4, sm, answer. split; [exact Hr|]. split; [exact Hs|]. split; [exact Hv|]. split; [exact Hd|].
  split; [exact Hp|exact Ho].
Defined.

Lemma only_approved_devices_register_witness :
  rs_devices (step size_of hash_order true X25519 (OPoll (pairing_env 4) poll_of_phone) approved_run.1).1 = rs_devices approved_run.1 ∨
  ∃ e request, OPoll (pairing_env 4) poll_of_phone = OPoll e request ∧
    registered size_of approved_run.2 e request (rs_devices approved_run.1)
      (step size_of hash_order true X25519 (OPoll (pairing_env 4) poll_of_phone) approved_run.1).1.
Proof.
  apply (only_approved_devices_register size_of hash_order true X25519 ops daemon); [reflexivity| |discriminate|vm_compute; reflexivity].
  exact fresh_ops.
Defined.

Lemma credential_delivered_once_witness :
  delivered paired_run.2 = [id] ∧ NoDup (delivered paired_run.2) ∧ Forall (history paired_run.2) (delivered paired_run.2).
Proof.
  split; [vm_compute; reflexivity|].
  apply (credential_delivered_once size_of hash_order true X25519 (ops ++ [OPoll (pairing_env 4) poll_of_phone]) daemon paired_run.1);
    [reflexivity| |vm_compute; reflexivity].
  exact fresh_polled.
Defined.

Lemma pairing_table_is_bounded_witness : within_limits (rs_requests approved_run.1).
Proof.
  apply (pairing_table_is_bounded size_of hash_order true X25519 ops daemon approved_run.1 approved_run.2);
    [reflexivity| |vm_compute; reflexivity].
  exact fresh_ops.
Defined.

Lemma rate_window_slides_witness :
  spaced 10 2 [(1, 5); (2, 6); (11, 5)] ∧ of_key 5 [(1, 5); (2, 6); (11, 5)] = [(1, 5); (11, 5)].
Proof.
  split; [|vm_compute; reflexivity].
  change [(1, 5); (2, 6); (11, 5)] with (admitted 2 1 [(1, 5); (2, 6); (3, 7); (11, 5)] (RateWindow_new 10)).
  apply (rate_window_slides 2 1 10); [lia|lia|]. repeat constructor; simpl; lia.
Defined.

Lemma transcript_binds_everything_witness :
  let x := {| px_request_id := id; px_client_public := cl_public phone; px_server_public := repeat Byte.x04 32;
    px_device_public := phone_key; px_client_nonce := cl_nonce phone;
    px_transport := {| tb_protocol := X25519; tb_public_key := transport_key |}; px_device_name := b "phone" |} in
  x = x.
Proof.
  intros x. apply transcript_binds_everything; [split; vm_compute; reflexivity..|reflexivity].
Defined.
End PairingExample.
