(* ===== verification/Recipients.v ===== *)
(** * The history recipient registry

    Model of src/src/history_keys/recipients.rs: who can read encrypted
    history. [RecipientsFile] is the file's content and its methods;
    [Registry] the daemon-side handle (the in-memory copy, the file on disk,
    reloading, reconciliation with the paired devices and the atomic write);
    [revoke_device_recipients] the hook another process runs on the file.
    Instants are integers, key parsing is the class [RecipientKeys], and what a
    write to disk answers and the stamp it leaves are arguments. *)
From S2P Require Import Prelude.
Local Open Scope N_scope.

Definition FILE_VERSION : N := 1.
Definition MAX_FILE_BYTES : N := 2 * 1024 * 1024.
Definition MAX_RECIPIENTS : N := 256.
Definition MAX_ACTIVE_RECIPIENTS : N := 64.
Definition MAX_GRANTS : N := 64.
Definition MAX_PENDING_EXTERNAL : N := 256.
Definition REVOKED_BY_TUI : string := "tui".
Definition REVOKED_BY_DAEMON : string := "local".

(** [vec.len()]. *)
Definition llen {A} (l : list A) : N := N.of_nat (length l).

Inductive RecipientKind : Type := Device | Recovery.
#[export] Instance RecipientKind_eq_dec : EqDecision RecipientKind.
Proof. solve_decision. Defined.

Record RecipientRecord : Type := {
  rid : string; kind : RecipientKind; device_id : option string; public_key : string;
  added_at : Z; revoked_at : option Z;
}.
#[export] Instance RecipientRecord_eq_dec : EqDecision RecipientRecord.
Proof. solve_decision. Defined.

Definition is_active (r : RecipientRecord) : bool :=
  match revoked_at r with None => true | Some _ => false end.

Inductive GrantStatus : Type := Pending | Fulfilled | Dismissed | Revoked.
#[export] Instance GrantStatus_eq_dec : EqDecision GrantStatus.
Proof. solve_decision. Defined.

Record GrantRecord : Type := {
  grant_id : string; g_rid : string; g_device_id : string; requested_at : Z;
  status : GrantStatus; updated_at : option Z;
}.
#[export] Instance GrantRecord_eq_dec : EqDecision GrantRecord.
Proof. solve_decision. Defined.

Record RevokedDevice : Type := { rv_device_id : string; rv_revoked_at : Z; revoked_by : string }.
#[export] Instance RevokedDevice_eq_dec : EqDecision RevokedDevice.
Proof. solve_decision. Defined.

Record RecipientsFile : Type := {
  version : N; epoch : N; recipients : list RecipientRecord; grants : list GrantRecord;
  revoked_devices : list RevokedDevice;
}.
#[export] Instance RecipientsFile_eq_dec : EqDecision RecipientsFile.
Proof. solve_decision. Defined.

Definition RecipientsFile_default : RecipientsFile :=
  {| version := FILE_VERSION; epoch := 0; recipients := []; grants := []; revoked_devices := [] |}.

(** X-Wing public keys: parsing, the recipient id and the base64url text. *)
Class RecipientKeys := {
  PublicKey : Type;
  from_base64url : string → result AppError PublicKey;
  key_rid : PublicKey → string;      (* [encode_id(&key.rid())] *)
  key_text : PublicKey → string;     (* [encode_id(&key.to_bytes())] *)
}.
Class RecipientKeysLaws `{RecipientKeys} : Prop := {
  from_key_text k : from_base64url (key_text k) = Ok k;
}.

(** Rewrite the first element that satisfies [p] ([iter_mut().find(p)]). *)
Fixpoint update_first {A} (p : A → bool) (f : A → A) (l : list A) : list A :=
  match l with
  | [] => []
  | x :: l => if p x then f x :: l else x :: update_first p f l
  end.

(** Index of the first element with the least key among those that have one
    ([enumerate().filter_map(..).min_by_key(..)]). *)
Fixpoint min_index {A} (key : A → option Z) (i : nat) (best : option (nat * Z)) (l : list A) : option nat :=
  match l with
  | [] => fst <$> best
  | x :: l =>
      match key x, best with
      | None, _ => min_index key (S i) best l
      | Some k, None => min_index key (S i) (Some (i, k)) l
      | Some k, Some (j, bk) => min_index key (S i) (if (k <? bk)%Z then Some (i, k) else Some (j, bk)) l
      end
  end.

(** ** The file *)
Module File.
Section file.
Context `{RecipientKeys}.
Implicit Types self : RecipientsFile.

Definition set_recipients (l : list RecipientRecord) self : RecipientsFile :=
  {| version := version self; epoch := epoch self; recipients := l; grants := grants self;
     revoked_devices := revoked_devices self |}.
Definition set_grants (l : list GrantRecord) self : RecipientsFile :=
  {| version := version self; epoch := epoch self; recipients := recipients self; grants := l;
     revoked_devices := revoked_devices self |}.
Definition set_revoked_devices (l : list RevokedDevice) self : RecipientsFile :=
  {| version := version self; epoch := epoch self; recipients := recipients self; grants := grants self;
     revoked_devices := l |}.
Definition bump_epoch self : RecipientsFile :=
  {| version := version self; epoch := epoch self + 1; recipients := recipients self;
     grants := grants self; revoked_devices := revoked_devices self |}.

Definition active self (r : string) : option RecipientRecord :=
  find (λ record, String.eqb (rid record) r && is_active record) (recipients self).

Definition active_device self (d : string) : option RecipientRecord :=
  find (λ record, is_active record && bool_decide (kind record = Device)
                  && bool_decide (device_id record = Some d)) (rev (recipients self)).

Definition active_recovery self : option RecipientRecord :=
  find (λ record, is_active record && bool_decide (kind record = Recovery)) (recipients self).

Definition is_blocked self (d : string) : bool :=
  existsb (λ entry, String.eqb (rv_device_id entry) d) (revoked_devices self).

Definition ensure_access self (d : string) : result AppError unit :=
  if is_blocked self d then Err HistoryAccessRevoked else Ok tt.

Definition block (d by_whom : string) (now : Z) self : RecipientsFile * bool :=
  if is_blocked self d then (self, false)
  else (set_revoked_devices (revoked_devices self ++
          [{| rv_device_id := d; rv_revoked_at := now; revoked_by := by_whom |}]) self, true).

Definition grant self (g : string) : result AppError GrantRecord :=
  ok_or (find (λ grant, String.eqb (grant_id grant) g) (grants self))
    (NotFound ("history grant " +:+ g)).

Definition add (record : RecipientRecord) : M RecipientsFile AppError unit := λ self,
  if MAX_ACTIVE_RECIPIENTS <=? llen (filter (λ r, is_active r = true) (recipients self))
  then (self, Err (ResourceExhausted "too many history recipients; revoke one first"))
  else (bump_epoch (set_recipients (recipients self ++ [record]) self), Ok tt).

Definition mark_revoked (now : Z) (r : RecipientRecord) : RecipientRecord :=
  {| rid := rid r; kind := kind r; device_id := device_id r; public_key := public_key r;
     added_at := added_at r; revoked_at := Some now |}.

Definition settle_grant (r : string) (now : Z) (g : GrantRecord) : GrantRecord :=
  if String.eqb (g_rid g) r && bool_decide (status g = Pending)
  then {| grant_id := grant_id g; g_rid := g_rid g; g_device_id := g_device_id g;
          requested_at := requested_at g; status := Revoked; updated_at := Some now |}
  else g.

Definition revoke (r : string) (now : Z) self : RecipientsFile * bool :=
  match active self r with
  | None => (self, false)
  | Some _ =>
      (bump_epoch (set_grants (settle_grant r now <$> grants self)
         (set_recipients (update_first (λ record, String.eqb (rid record) r && is_active record)
            (mark_revoked now) (recipients self)) self)), true)
  end.

(** The loop of [prune]; [fuel] bounds the iterations (each removes one). *)
Fixpoint prune_loop (fuel : nat) (l : list RecipientRecord) : result AppError (list RecipientRecord) :=
  if llen l <=? MAX_RECIPIENTS then Ok l
  else
    match fuel, min_index revoked_at 0 None l with
    | S fuel, Some oldest => prune_loop fuel (delete oldest l)
    | _, _ => Err (ResourceExhausted "history recipient registry is full")
    end.
Definition prune : M RecipientsFile AppError unit := λ self,
  match prune_loop (length (recipients self)) (recipients self) with
  | Ok l => (set_recipients l self, Ok tt)
  | Err e => (self, Err e)
  end.

Definition corrupt : AppError := InvalidRequest "history recipient registry contains an invalid record".

(** The record loop of [validate]: ids seen, active devices, active recovery. *)
Definition validate_record (acc : list string * N * N) (record : RecipientRecord) :
    result AppError (list string * N * N) :=
  let '(rids, active_devices, active_recovery) := acc in
  key ← map_err (λ _, corrupt) (from_base64url (public_key record));
  _ ← guard_err (String.eqb (key_rid key) (rid record) && negb (one_of rids (rid record))) corrupt;
  let n := if is_active record then 1 else 0 in
  match kind record, device_id record with
  | Device, Some d =>
      if String.eqb d "" then Err corrupt
      else Ok (rid record :: rids, active_devices + n, active_recovery)
  | Recovery, None => Ok (rid record :: rids, active_devices, active_recovery + n)
  | _, _ => Err corrupt
  end.

(** The block-list check: [any(|entry| .. || !blocked.insert(..))]. *)
Fixpoint blocked_corrupt (blocked : list string) (l : list RevokedDevice) : bool :=
  match l with
  | [] => false
  | entry :: l =>
      String.eqb (rv_device_id entry) "" || String.eqb (revoked_by entry) ""
      || one_of blocked (rv_device_id entry)
      || blocked_corrupt (rv_device_id entry :: blocked) l
  end.

Definition validate self : result AppError unit :=
  if negb (version self =? FILE_VERSION) || (MAX_RECIPIENTS <? llen (recipients self))
     || (MAX_GRANTS <? llen (grants self))
  then Err (InvalidRequest "unsupported history recipient registry file")
  else
    '(_, active_devices, active_recovery) ← fold_result validate_record ([], 0, 0) (recipients self);
    if (1 <? active_recovery) || (MAX_ACTIVE_RECIPIENTS <? active_devices) then Err corrupt
    else if blocked_corrupt [] (revoked_devices self) then Err corrupt
    else Ok tt.
End file.
End File.

(** ** The daemon's handle *)
Module Registry.
Section registry.
Context `{RecipientKeys}.

Record ExternalRevocation : Type := { ex_device_id : string; ex_epoch : N }.

(** The registry file on disk: absent, unreadable, or a parsed file. *)
Record Disk : Type := {
  content : option (result AppError RecipientsFile);
  disk_stamp : option N;
}.

Record Inner : Type := {
  file : RecipientsFile;
  stamp : option N;
  external : list ExternalRevocation;
}.
Record World : Type := { inner : Inner; disk : Disk }.

(** What one call sees of its surroundings: the clock, the paired devices
    ([None]: device auth off; otherwise [devices.get(id)?.is_some()]), what the
    write to disk answers with the size and stamp it has, and a fresh id. *)
Record Env : Type := {
  now : Z;
  devices : option (string → result AppError bool);
  write_answer : result AppError unit;
  write_bytes : N;
  write_stamp : option N;
  fresh_uuid : string;
}.

(** An operation on the file ([FnOnce(&mut RecipientsFile, now)]). *)
Definition Op (A : Type) : Type := M RecipientsFile AppError A.
Definition lift_file {A} (f : RecipientsFile → RecipientsFile * A) : Op A :=
  λ s, let '(s', a) := f s in (s', Ok a).
Definition read {A} (f : RecipientsFile → result AppError A) : Op A := λ s, (s, f s).

Record Applied (A : Type) : Type := { value : A; written : option N }.
Arguments value {A}. Arguments written {A}.

Definition read_file (d : Disk) : result AppError (option RecipientsFile) :=
  match content d with
  | None => Ok None
  | Some (Err e) => Err e
  | Some (Ok f) => _ ← File.validate f; Ok (Some f)
  end.

Definition write_file (e : Env) (f : RecipientsFile) : M Disk AppError unit := λ d,
  match File.validate f with
  | Err err => (d, Err err)
  | Ok _ =>
      if MAX_FILE_BYTES <? write_bytes e
      then (d, Err (InvalidRequest "history recipient registry file is too large"))
      else
        match write_answer e with
        | Err err => (d, Err err)
        | Ok _ => ({| content := Some (Ok f); disk_stamp := write_stamp e |}, Ok tt)
        end
  end.

Definition report (device_ids : list string) (ep : N) (l : list ExternalRevocation) :
    list ExternalRevocation :=
  let l := l ++ ((λ d, {| ex_device_id := d; ex_epoch := ep |}) <$> device_ids) in
  if MAX_PENDING_EXTERNAL <? llen l then drop (length l - N.to_nat MAX_PENDING_EXTERNAL) l else l.

Definition reload_if_changed : M World AppError unit := λ w,
  let i := inner w in
  if bool_decide (disk_stamp (disk w) = stamp i) then (w, Ok tt)
  else
    match read_file (disk w) with
    | Err e => (w, Err e)
    | Ok loaded =>
        let loaded := default RecipientsFile_default loaded in
        let blocked := rv_device_id <$>
          filter (λ entry, File.is_blocked (file i) (rv_device_id entry) = false) (revoked_devices loaded) in
        ({| inner := {| file := loaded; stamp := disk_stamp (disk w);
                        external := report blocked (epoch loaded) (external i) |};
            disk := disk w |}, Ok tt)
    end.

(** The two passes of [reconcile_devices]. *)
Definition revoke_all (t : Z) (rids : list string) (f : RecipientsFile) : RecipientsFile :=
  foldl (λ f r, (File.revoke r t f).1) f rids.

Definition blocked_holder (f : RecipientsFile) (record : RecipientRecord) : bool :=
  is_active record && match device_id record with Some d => File.is_blocked f d | None => false end.
Definition blocked_rids (f : RecipientsFile) : list string :=
  rid <$> filter (λ record, blocked_holder f record = true) (recipients f).

Definition orphaned (paired : string → result AppError bool) (l : list RecipientRecord) :
    result AppError (list (string * string)) :=
  fold_result (λ acc record,
    if is_active record then
      match device_id record with
      | Some d => known ← paired d; Ok (if known : bool then acc else acc ++ [(rid record, d)])
      | None => Ok acc
      end
    else Ok acc) [] l.

Definition revoke_orphans (t : Z) (orphans : list (string * string)) (f : RecipientsFile) :
    RecipientsFile * list string :=
  foldl (λ '(f, blocked) '(r, d),
    let f := (File.revoke r t f).1 in
    let '(f, new) := File.block d REVOKED_BY_DAEMON t f in
    (f, if new : bool then blocked ++ [d] else blocked)) (f, []) orphans.

Definition reconcile_devices (e : Env) : Op (list string) := λ f,
  let f := revoke_all (now e) (blocked_rids f) f in
  match devices e with
  | None => (f, Ok [])
  | Some paired =>
      match orphaned paired (recipients f) with
      | Err err => (f, Err err)
      | Ok orphans => let '(f, blocked) := revoke_orphans (now e) orphans f in (f, Ok blocked)
      end
  end.

(** [apply]: the operation works on a copy of the file. *)
Definition apply {A} (e : Env) (operation : Op A) : M World AppError (Applied A) := λ w,
  match reload_if_changed w with
  | (w, Err err) => (w, Err err)
  | (w, Ok _) =>
      match reconcile_devices e (file (inner w)) with
      | (_, Err err) => (w, Err err)
      | (f, Ok reconciled) =>
          match operation f with
          | (_, Err err) => (w, Err err)
          | (f, Ok v) =>
              if decide (f = file (inner w)) then (w, Ok {| value := v; written := None |})
              else
                match File.prune f with
                | (_, Err err) => (w, Err err)
                | (f, Ok _) =>
                    match write_file e f (disk w) with
                    | (d, Err err) => ({| inner := inner w; disk := d |}, Err err)
                    | (d, Ok _) =>
                        ({| inner := {| file := f; stamp := disk_stamp d;
                                        external := report reconciled (epoch f) (external (inner w)) |};
                            disk := d |},
                         Ok {| value := v; written := Some (epoch f) |})
                    end
                end
          end
      end
  end.

Definition update {A} (e : Env) (operation : Op A) : M World AppError A :=
  applied ← apply e operation; mret (value applied).

(** ** Operations *)
Definition ensure_access_op (d : string) : Op unit := read (λ f, File.ensure_access f d).
Definition state_op : Op N := read (λ f, Ok (epoch f)).
Definition active_recipients_op : Op (N * list PublicKey) := read (λ f,
  keys ← map_result (λ record, from_base64url (public_key record))
           (filter (λ r, is_active r = true) (recipients f));
  Ok (epoch f, keys)).
Definition device_rid_op (d : string) : Op (option string) := read (λ f, Ok (rid <$> File.active_device f d)).
Definition device_owns_op (d r : string) : Op bool := read (λ f,
  Ok (match File.active f r with
      | Some record => bool_decide (kind record = Device) && bool_decide (device_id record = Some d)
      | None => false
      end)).
Definition is_active_op (r : string) : Op bool := read (λ f, Ok (bool_decide (is_Some (File.active f r)))).

Definition revoked_key : AppError :=
  Conflict "this history recipient key was revoked; generate a new key pair".
Definition not_registered : AppError :=
  InvalidRequest "this device has no history recipient; call history.recipient.register first".

Definition register_device_op (e : Env) (d : string) (key : PublicKey) : Op string := λ f,
  let r := key_rid key in
  match File.ensure_access f d with
  | Err err => (f, Err err)
  | Ok _ =>
      match find (λ record, String.eqb (rid record) r) (recipients f) with
      | Some existing =>
          (f, if negb (is_active existing) then Err revoked_key
              else if bool_decide (kind existing = Device) && bool_decide (device_id existing = Some d)
              then Ok r
              else Err (Conflict "history recipient key is already registered to another recipient"))
      | None =>
          let f :=
            match devices e with
            | Some _ =>
                match File.active_device f d with
                | Some previous => (File.revoke (rid previous) (now e) f).1
                | None => f
                end
            | None => f
            end in
          (_ ← File.add {| rid := r; kind := Device; device_id := Some d; public_key := key_text key;
                           added_at := now e; revoked_at := None |}; mret r) f
      end
  end.

Definition set_recovery_op (e : Env) (key : PublicKey) : Op string := λ f,
  let r := key_rid key in
  match find (λ record, String.eqb (rid record) r) (recipients f) with
  | Some existing =>
      (f, if negb (is_active existing) then Err revoked_key
          else match kind existing with
               | Recovery => Ok r
               | Device => Err (Conflict "history recipient key is already registered to a device")
               end)
  | None =>
      let f :=
        match File.active_recovery f with
        | Some previous => (File.revoke (rid previous) (now e) f).1
        | None => f
        end in
      (_ ← File.add {| rid := r; kind := Recovery; device_id := None; public_key := key_text key;
                       added_at := now e; revoked_at := None |}; mret r) f
  end.

Definition revoke_op (e : Env) (r by_whom : string) : Op (option string) := λ f,
  match find (λ record, String.eqb (rid record) r) (recipients f) with
  | None => (f, Err (NotFound ("history recipient " +:+ r)))
  | Some record =>
      let d := device_id record in
      let '(f, revoked) := File.revoke r (now e) f in
      (match d, devices e with
       | Some d, Some _ => if revoked : bool then (File.block d by_whom (now e) f).1 else f
       | _, _ => f
       end, Ok d)
  end.

Definition restore_device_op (d : string) : Op unit := λ f,
  let kept := filter (λ entry, rv_device_id entry ≠ d) (revoked_devices f) in
  let f' := File.set_revoked_devices kept f in
  if llen kept =? llen (revoked_devices f)
  then (f', Err (NotFound ("device " +:+ d +:+ " is not blocked from history access")))
  else (f', Ok tt).

(** [grant.updated_at.unwrap_or(grant.requested_at)] of settled grants. *)
Definition settled_at (g : GrantRecord) : option Z :=
  if decide (status g = Pending) then None else Some (default (requested_at g) (updated_at g)).

Definition request_grant_op (e : Env) (d : string) : Op (string * string) := λ f,
  match File.ensure_access f d with
  | Err err => (f, Err err)
  | Ok _ =>
      match rid <$> File.active_device f d with
      | None => (f, Err not_registered)
      | Some r =>
          match find (λ g, String.eqb (g_rid g) r && bool_decide (status g = Pending)) (grants f) with
          | Some g => (f, Ok (grant_id g, r))
          | None =>
              let room :=
                if MAX_GRANTS <=? llen (grants f) then
                  match min_index settled_at 0 None (grants f) with
                  | Some oldest => Some (delete oldest (grants f))
                  | None => None
                  end
                else Some (grants f) in
              match room with
              | None => (f, Err (ResourceExhausted "too many pending history grants; dismiss one first"))
              | Some gs =>
                  let g := "grt_" +:+ fresh_uuid e in
                  (File.set_grants (gs ++ [{| grant_id := g; g_rid := r; g_device_id := d;
                     requested_at := now e; status := Pending; updated_at := None |}]) f, Ok (g, r))
              end
          end
      end
  end.

Definition set_grant_status_op (e : Env) (g : string) (s : GrantStatus) : Op GrantStatus := λ f,
  match find (λ grant, String.eqb (grant_id grant) g) (grants f) with
  | None => (f, Err (NotFound ("history grant " +:+ g)))
  | Some grant =>
      if bool_decide (status grant = Pending)
      then (File.set_grants (update_first (λ grant, String.eqb (grant_id grant) g)
              (λ grant, {| grant_id := grant_id grant; g_rid := g_rid grant; g_device_id := g_device_id grant;
                           requested_at := requested_at grant; status := s; updated_at := Some (now e) |})
              (grants f)) f, Ok s)
      else (f, Ok (status grant))
  end.

Definition pending_grant_rid_op (g : string) : Op string := read (λ f,
  grant ← File.grant f g;
  if bool_decide (status grant = Pending) then Ok (g_rid grant)
  else Err (Conflict ("history grant " +:+ g +:+ " is no longer pending"))).

(** [ensure_device]. *)
Definition ensure_device (e : Env) (d : string) : result AppError unit :=
  match devices e with
  | Some paired => known ← paired d; guard_err known Unauthenticated
  | None => Ok tt
  end.

(** ** The file-level hook of the other process *)
Inductive DeviceRevocation : Type := One (d : string) | All (paired : list string).

(** The closure [selected], the devices named outright, and the active device
    recipients of the selected devices. *)
Definition selected (sel : DeviceRevocation) (d : string) : bool :=
  match sel with One target => String.eqb d target | All _ => true end.
Definition named (sel : DeviceRevocation) : list string :=
  match sel with One d => [d] | All paired => paired end.
Definition hook_targets (sel : DeviceRevocation) (f : RecipientsFile) : list (string * string) :=
  omap (λ record,
    match device_id record with
    | Some d => if is_active record && bool_decide (kind record = Device) && selected sel d
                then Some (rid record, d) else None
    | None => None
    end) (recipients f).

(** [for device_id in &blocked { changed |= file.block(..) }]. *)
Definition block_all (by_whom : string) (t : Z) (ds : list string) (acc : RecipientsFile * bool) :
    RecipientsFile * bool :=
  foldl (λ '(f, changed) d, let '(f, new) := File.block d by_whom t f in (f, changed || new)) acc ds.

Definition revoke_device_recipients (e : Env) (sel : DeviceRevocation) : M Disk AppError N := λ d,
  match read_file d with
  | Err err => (d, Err err)
  | Ok None => (d, Ok 0)
  | Ok (Some f) =>
      let targets := hook_targets sel f in
      let f' := revoke_all (now e) targets.*1 f in
      let '(f', changed) := block_all REVOKED_BY_TUI (now e) (named sel ++ targets.*2)
                              (f', match targets with [] => false | _ => true end) in
      if changed : bool then
        match write_file e f' d with
        | (d, Err err) => (d, Err err)
        | (d, Ok _) => (d, Ok (llen targets))
        end
      else (d, Ok (llen targets))
  end.
End registry.
Arguments value {A}. Arguments written {A}.
End Registry.

(** ** Generic facts *)
Lemma update_first_split {A} (p : A → bool) f l x :
  find p l = Some x →
  ∃ l1 l2, l = l1 ++ x :: l2 ∧ p x = true ∧ update_first p f l = l1 ++ f x :: l2.
Proof.
  induction l as [|y l IH]; simpl; [done|]. destruct (p y) eqn:Hy.
  - intros [= ->]. by exists [], l.
  - intros (l1 & l2 & -> & Hx & ->)%IH. by exists (y :: l1), l2.
Qed.

Lemma find_Some_iff {A} (p : A → bool) l : is_Some (find p l) ↔ ∃ x, x ∈ l ∧ p x = true.
Proof.
  split.
  - intros [x Hx]. exists x. apply find_some in Hx. by rewrite list_elem_of_In.
  - intros (x & Hin & Hp). destruct (find p l) eqn:E; [eauto|].
    rewrite list_elem_of_In in Hin. by rewrite (find_none _ _ E x Hin) in Hp.
Qed.

Lemma find_elem {A} (p : A → bool) l x : find p l = Some x → x ∈ l ∧ p x = true.
Proof. intros Hx%find_some. by rewrite list_elem_of_In. Qed.

(** A least key is found as soon as some element has a key, at an element that
    has one. *)
Lemma min_index_spec {A} (key : A → option Z) i best l :
  match min_index key i best l with
  | Some j => (∃ k, best = Some (j, k)) ∨
              (i ≤ j ∧ ∃ x, l !! (j - i)%nat = Some x ∧ is_Some (key x))%nat
  | None => best = None ∧ Forall (λ x, key x = None) l
  end.
Proof.
  revert i best. induction l as [|x l IH]; intros i best; simpl.
  - destruct best as [[j k]|]; simpl; [eauto|by split].
  - assert (Hstep : ∀ best',
      (best' = best ∨ (∃ k, best' = Some (i, k) ∧ key x = Some k)) → (best' = None → best = None ∧ key x = None) →
      match min_index key (S i) best' l with
      | Some j => (∃ k, best = Some (j, k)) ∨
                  (i ≤ j ∧ ∃ y, (x :: l) !! (j - i)%nat = Some y ∧ is_Some (key y))%nat
      | None => best = None ∧ Forall (λ y, key y = None) (x :: l)
      end).
    { intros best' Hb Hn. specialize (IH (S i) best').
      destruct (min_index key (S i) best' l) as [j|].
      - destruct IH as [[k Hk]|(Hle & y & Hy & Hky)].
        + destruct Hb as [<-|(k' & -> & Hkx)]; [by left; exists k|]. injection Hk as <- <-.
          right. split; [lia|]. exists x. rewrite Nat.sub_diag. eauto.
        + right. split; [lia|]. exists y. replace (j - i)%nat with (S (j - S i)) by lia. eauto.
      - destruct IH as [Hb0 Hall]. destruct (Hn Hb0). split; [done|]. by constructor. }
    destruct (key x) as [k|] eqn:Hkx; [destruct best as [[j bk]|]|].
    + destruct (k <? bk)%Z; apply Hstep; try done; [right; eauto|by left].
    + apply Hstep; [right; eauto|done].
    + apply Hstep; [by left|done].
Qed.

(** ** Well-formed files *)
Section valid.
Context `{RecipientKeysLaws}.
Implicit Types (f : RecipientsFile) (l : list RecipientRecord).

Definition wf_record (r : RecipientRecord) : Prop :=
  (∃ k, from_base64url (public_key r) = Ok k ∧ key_rid k = rid r) ∧
  match kind r, device_id r with
  | Device, Some d => d ≠ ""
  | Recovery, None => True
  | _, _ => False
  end.

(** The active recipients of one kind. *)
Definition actives (k : RecipientKind) l : list RecipientRecord :=
  filter (λ r, is_active r = true ∧ kind r = k) l.

(** What holds of the file between the steps of an operation; [valid] adds the
    file cap, which [prune] restores. *)
Record core f : Prop := {
  v_version : version f = FILE_VERSION;
  v_grants : llen (grants f) ≤ MAX_GRANTS;
  v_rids : NoDup (rid <$> recipients f);
  v_records : Forall wf_record (recipients f);
  v_recovery : llen (actives Recovery (recipients f)) ≤ 1;
  v_devices : llen (actives Device (recipients f)) ≤ MAX_ACTIVE_RECIPIENTS;
  v_blocked : NoDup (rv_device_id <$> revoked_devices f);
  v_blocked_ids : Forall (λ b, rv_device_id b ≠ "" ∧ revoked_by b ≠ "") (revoked_devices f);
}.
Definition valid f : Prop := core f ∧ llen (recipients f) ≤ MAX_RECIPIENTS.

Lemma valid_default : valid RecipientsFile_default.
Proof. split; [split; simpl; try done; constructor|done]. Qed.

Lemma actives_single k r :
  llen (actives k [r]) = if is_active r && bool_decide (kind r = k) then 1 else 0.
Proof.
  unfold actives. rewrite filter_cons, filter_nil. case_decide as Hd.
  - destruct Hd as [-> ->]. by rewrite bool_decide_eq_true_2.
  - destruct (is_active r) eqn:Ha; [|done]. rewrite bool_decide_eq_false_2; [done|]. intros Hk. by apply Hd.
Qed.

Lemma actives_app k l1 l2 : llen (actives k (l1 ++ l2)) = llen (actives k l1) + llen (actives k l2).
Proof. unfold actives, llen. rewrite filter_app, length_app. lia. Qed.

Lemma actives_cons k r l : llen (actives k (r :: l)) = llen (actives k [r]) + llen (actives k l).
Proof. apply (actives_app k [r] l). Qed.

Lemma validate_record_Ok rids nd nr r acc' :
  File.validate_record (rids, nd, nr) r = Ok acc' ↔
  wf_record r ∧ rid r ∉ rids ∧
  acc' = (rid r :: rids, nd + llen (actives Device [r]), nr + llen (actives Recovery [r])).
Proof.
  unfold File.validate_record, wf_record. rewrite !actives_single.
  assert (Hone : one_of rids (rid r) = false ↔ rid r ∉ rids).
  { rewrite <-one_of_spec. by destruct (one_of rids (rid r)). }
  split.
  - intros Hv. apply bind_Ok_inv in Hv as (k & Hk & Hv). apply bind_Ok_inv in Hv as (u & Hg & Hv).
    apply guard_err_Ok_inv, andb_prop in Hg as [Hrid%String.eqb_eq Hnot%negb_true_iff].
    apply Hone in Hnot. destruct (from_base64url (public_key r)) as [k'|] eqn:Hkey; [|done].
    injection Hk as ->.
    destruct (kind r), (device_id r) as [d|]; try done; [destruct (String.eqb_spec d ""); [done|]|];
      injection Hv as <-; (split_and!; [eauto|done|done|]); simpl; destruct (is_active r); simpl;
      rewrite ?N.add_0_r; done.
  - intros ([(k & Hk & Hrid) Hkind] & Hnot & ->). rewrite Hk. simpl. apply Hone in Hnot. rewrite Hnot.
    apply String.eqb_eq in Hrid. rewrite Hrid. simpl.
    destruct (kind r), (device_id r) as [d|]; try done; [destruct (String.eqb_spec d ""); [done|]|];
      simpl; destruct (is_active r); simpl; rewrite ?N.add_0_r; done.
Qed.

Lemma validate_records_Ok rids nd nr l acc' :
  fold_result File.validate_record (rids, nd, nr) l = Ok acc' ↔
  Forall wf_record l ∧ NoDup (rid <$> l) ∧ (∀ x, x ∈ rid <$> l → x ∉ rids) ∧
  acc' = (rev (rid <$> l) ++ rids, nd + llen (actives Device l), nr + llen (actives Recovery l)).
Proof.
  revert rids nd nr. induction l as [|r l IH]; intros rids nd nr; cbn [fold_result].
  - unfold actives, llen. simpl. rewrite !N.add_0_r. split; [intros [= <-]|by intros (_ & _ & _ & ->)].
    split_and!; [constructor..| |done]. intros x Hx. by apply not_elem_of_nil in Hx.
  - destruct (File.validate_record (rids, nd, nr) r) as [[[rids' nd'] nr']|e] eqn:Hr.
    + apply validate_record_Ok in Hr as (Hwf & Hnot & [= -> -> ->]). rewrite IH, fmap_cons, Forall_cons, NoDup_cons.
      rewrite (actives_cons Device r l), (actives_cons Recovery r l), !N.add_assoc. cbn [rev]. rewrite <-app_assoc. simpl.
      split.
      * intros (Hl & Hnd & Hdis & ->). split_and!; try done.
        -- intros Hin. by apply (Hdis _ Hin); left.
        -- intros x [->|Hx]%elem_of_cons; [done|]. intros Hin. by apply (Hdis _ Hx); right.
      * intros ([_ Hl] & [Hnin Hnd] & Hdis & ->). split_and!; try done.
        intros x Hx [->|Hin]%elem_of_cons; [done|]. by apply (Hdis x); [right|].
    + split; [done|]. intros (Hl & Hnd & Hdis & ->). exfalso.
      apply Forall_cons in Hl as [Hwf _].
      assert (Hok := proj2 (validate_record_Ok rids nd nr r _) (conj Hwf (conj (Hdis (rid r) ltac:(by left)) eq_refl))).
      congruence.
Qed.

Lemma blocked_corrupt_false seen bl :
  File.blocked_corrupt seen bl = false ↔
  NoDup (rv_device_id <$> bl) ∧ (∀ x, x ∈ rv_device_id <$> bl → x ∉ seen) ∧
  Forall (λ b, rv_device_id b ≠ "" ∧ revoked_by b ≠ "") bl.
Proof.
  revert seen. induction bl as [|e bl IH]; intros seen; simpl.
  - split; [intros _; split_and!; [constructor| |constructor]|done]. intros x Hx. by apply not_elem_of_nil in Hx.
  - rewrite !orb_false_iff, IH, !String.eqb_neq, Forall_cons, NoDup_cons.
    assert (Hone : one_of seen (rv_device_id e) = false ↔ rv_device_id e ∉ seen).
    { rewrite <-one_of_spec. by destruct (one_of seen (rv_device_id e)). }
    rewrite Hone. split.
    + intros ([[Hd Hb] Hs] & Hnd & Hdis & Hall). split_and!; try done.
      * intros Hin. by apply (Hdis _ Hin); left.
      * intros x [->|Hx]%elem_of_cons; [done|]. intros Hin. by apply (Hdis _ Hx); right.
    + intros ([Hnin Hnd] & Hdis & [Hd Hb] & Hall). split_and!; try done.
      * apply Hdis. by left.
      * intros x Hx [->|Hin]%elem_of_cons; [done|]. by apply (Hdis x); [right|].
Qed.

(** [validate] accepts exactly the well-formed files. *)
Lemma validate_iff f : File.validate f = Ok tt ↔ valid f.
Proof.
  unfold File.validate. split.
  - destruct (_ || _) eqn:Hhead; [done|]. apply orb_false_iff in Hhead as [[Hv Hl]%orb_false_iff Hg].
    apply negb_false_iff, N.eqb_eq in Hv. apply N.ltb_ge in Hl, Hg. intros Hrest.
    apply bind_Ok_inv in Hrest as ([[rids nd] nr] & Hf & Hrest).
    apply validate_records_Ok in Hf as (Hwf & Hnd & _ & [= -> -> ->]).
    destruct (_ || _) eqn:Hc; [done|]. apply orb_false_iff in Hc as [Hc1 Hc2]. apply N.ltb_ge in Hc1, Hc2.
    destruct (File.blocked_corrupt _ _) eqn:Hb; [done|]. apply blocked_corrupt_false in Hb as (? & _ & ?).
    split; [split; try done; lia|done].
  - intros [[Hv Hg Hr Hwf Hrec Hdev Hb Hbi] Hl]. rewrite (proj2 (N.eqb_eq _ _) Hv).
    rewrite (proj2 (N.ltb_ge _ _) Hl), (proj2 (N.ltb_ge _ _) Hg). simpl.
    assert (Hf := proj2 (validate_records_Ok [] 0 0 (recipients f) _)
      (conj Hwf (conj Hr (conj (λ x _, not_elem_of_nil x) eq_refl)))).
    rewrite Hf, !N.add_0_l. cbn [mbind result_bind]. rewrite (proj2 (N.ltb_ge _ _) Hrec), (proj2 (N.ltb_ge _ _) Hdev). simpl.
    assert (Hbc : File.blocked_corrupt [] (revoked_devices f) = false).
    { apply blocked_corrupt_false. split_and!; [done| |done]. intros. apply not_elem_of_nil. }
    by rewrite Hbc.
Qed.

(** ** What a change to the file keeps *)

(** Ids of the active recipients, in file order. *)
Definition active_rids f : list string := rid <$> filter (λ r, is_active r = true) (recipients f).

(** Every pending grant waits for an active recipient. *)
Definition pending_ok f : Prop :=
  ∀ g, g ∈ grants f → status g = Pending → g_rid g ∈ active_rids f.

(** The epoch never falls, and rises whenever the active recipients change. *)
Definition evolves f f' : Prop :=
  epoch f ≤ epoch f' ∧ (active_rids f' = active_rids f ∨ epoch f < epoch f').

(** A change that preserves well-formedness and the grants' recipients. *)
Record keeps f f' : Prop := {
  k_core : core f → core f';
  k_pending : core f → pending_ok f → pending_ok f';
  k_evolves : evolves f f';
}.

#[global] Instance keeps_refl : Reflexive keeps.
Proof. intros f. split; [done|done|]. split; [done|by left]. Qed.

#[global] Instance keeps_trans : Transitive keeps.
Proof.
  intros f1 f2 f3 [Hc1 Hp1 [He1 Ha1]] [Hc2 Hp2 [He2 Ha2]]. split; [auto|auto|]. split; [lia|].
  destruct Ha1 as [Ha1|Ha1], Ha2 as [Ha2|Ha2]; [left; congruence|right; lia..].
Qed.

Lemma revoke_cases r t f :
  (File.revoke r t f = (f, false)) ∨
  ∃ x l1 l2, recipients f = l1 ++ x :: l2 ∧ rid x = r ∧ is_active x = true ∧
    File.revoke r t f =
      (File.bump_epoch (File.set_grants (File.settle_grant r t <$> grants f)
         (File.set_recipients (l1 ++ File.mark_revoked t x :: l2) f)), true).
Proof.
  unfold File.revoke. destruct (File.active f r) as [x|] eqn:Ha; [|by left]. right.
  unfold File.active in Ha.
  destruct (update_first_split _ (File.mark_revoked t) _ _ Ha) as (l1 & l2 & Hl & Hx & Hu).
  apply andb_prop in Hx as [Hr%String.eqb_eq Hx]. exists x, l1, l2. by rewrite Hu.
Qed.

Lemma actives_revoked k t x : llen (actives k [File.mark_revoked t x]) = 0.
Proof. by rewrite actives_single. Qed.

Lemma keeps_revoke r t f : keeps f (File.revoke r t f).1.
Proof.
  destruct (revoke_cases r t f) as [->|(x & l1 & l2 & Hl & Hr & Hx & ->)]; [done|]. simpl.
  split.
  - intros [Hv Hg Hrids Hwf Hrec Hdev Hb Hbi]. rewrite Hl in *. split; simpl; try done.
    + unfold llen. by rewrite length_fmap.
    + rewrite fmap_app in *. done.
    + apply Forall_app in Hwf as [? [? ?]%Forall_cons]. apply Forall_app. split; [done|]. by constructor.
    + rewrite actives_app, actives_cons in *. rewrite actives_revoked. lia.
    + rewrite actives_app, actives_cons in *. rewrite actives_revoked. lia.
  - intros Hcore Hp g Hg Hs. simpl in Hg. apply list_elem_of_fmap in Hg as (g0 & -> & Hg0).
    unfold File.settle_grant in *.
    destruct (String.eqb_spec (g_rid g0) r) as [Heq|Hne]; simpl in *.
    + case_bool_decide; simplify_eq/=; done.
    + specialize (Hp g0 Hg0 Hs). unfold active_rids in *. cbn [File.bump_epoch File.set_grants File.set_recipients recipients].
      rewrite Hl, filter_app, filter_cons_True, fmap_app in Hp by done.
      rewrite filter_app, filter_cons_False, fmap_app by done.
      apply elem_of_app in Hp as [Hp|[Hp|Hp]%elem_of_cons]; [|congruence|]; apply elem_of_app; eauto.
  - split; simpl; [lia|right; lia].
Qed.

Lemma keeps_block d by_whom t f : d ≠ "" → by_whom ≠ "" → keeps f (File.block d by_whom t f).1.
Proof.
  intros Hd Hby. unfold File.block. destruct (File.is_blocked f d) eqn:Hb; [done|]. split; simpl.
  - intros [Hv Hg Hrids Hwf Hrec Hdev Hbl Hbi]. split; simpl; try done.
    + rewrite fmap_app. apply NoDup_app. split_and!; [done| |repeat constructor; by apply not_elem_of_nil].
      intros d' (e & -> & He)%list_elem_of_fmap [Heq|Hn]%elem_of_cons; [|by apply not_elem_of_nil in Hn].
      unfold File.is_blocked in Hb. rewrite <-not_true_iff_false, existsb_exists in Hb. apply Hb.
      exists e. rewrite <-list_elem_of_In. split; [done|]. by apply String.eqb_eq.
    + apply Forall_app. split; [done|]. by constructor.
  - done.
  - split; simpl; [lia|by left].
Qed.

Lemma keeps_set_grants gs f :
  (core f → llen gs ≤ MAX_GRANTS) →
  (pending_ok f → ∀ g, g ∈ gs → status g = Pending → g_rid g ∈ active_rids f) →
  keeps f (File.set_grants gs f).
Proof.
  intros Hlen Hp. split.
  - intros Hc. pose proof (Hlen Hc). destruct Hc. by split.
  - intros _ Hok g Hg Hs. by apply Hp.
  - split; simpl; [lia|by left].
Qed.

Lemma active_count l :
  llen (filter (λ r, is_active r = true) l) = llen (actives Device l) + llen (actives Recovery l).
Proof.
  induction l as [|r l IH]; [done|].
  rewrite (actives_cons Device), (actives_cons Recovery), !actives_single.
  destruct (is_active r) eqn:Ha.
  - rewrite filter_cons_True by done. unfold llen in *. cbn [length]. destruct (kind r); simpl; lia.
  - rewrite filter_cons_False by congruence. simpl. lia.
Qed.

Lemma actives_filter k l :
  actives k l = filter (λ r, kind r = k) (filter (λ r, is_active r = true) l).
Proof.
  unfold actives. rewrite list_filter_filter. apply list_filter_iff. intros r. tauto.
Qed.

Lemma keeps_add record f f' :
  File.add record f = (f', Ok tt) → wf_record record → rid record ∉ rid <$> recipients f →
  is_active record = true → (kind record = Recovery → llen (actives Recovery (recipients f)) = 0) →
  keeps f f'.
Proof.
  unfold File.add. destruct (N.leb_spec MAX_ACTIVE_RECIPIENTS
    (llen (filter (λ r, is_active r = true) (recipients f)))) as [|Hroom]; [done|].
  intros [= <-] Hwf Hnew Hact Hrec. split; simpl.
  - intros [Hv Hg Hrids Hwfs Hr Hd Hb Hbi]. rewrite active_count in Hroom. split; simpl; try done.
    + rewrite fmap_app. apply NoDup_app. split_and!; [done| |repeat constructor; by apply not_elem_of_nil].
      intros x Hx [->|Hn]%elem_of_cons; [done|by apply not_elem_of_nil in Hn].
    + apply Forall_app. split; [done|]. by constructor.
    + rewrite actives_app, actives_single, Hact. destruct (kind record); simpl; [lia|]. rewrite Hrec; done.
    + rewrite actives_app, actives_single, Hact. destruct (kind record); simpl; lia.
  - intros _ Hp g Hg Hs. specialize (Hp g Hg Hs). unfold active_rids in *. simpl.
    rewrite filter_app, fmap_app. apply elem_of_app. by left.
  - split; simpl; [lia|right; lia].
Qed.

(** [prune] never fails while the active recipients fit the file, drops only
    revoked ones, and leaves the file within its cap. *)
Lemma prune_loop_Ok fuel l :
  (length l ≤ fuel)%nat → llen (filter (λ r, is_active r = true) l) ≤ MAX_RECIPIENTS →
  ∃ l', File.prune_loop fuel l = Ok l' ∧ llen l' ≤ MAX_RECIPIENTS ∧ l' `sublist_of` l ∧
    filter (λ r, is_active r = true) l' = filter (λ r, is_active r = true) l.
Proof.
  revert l. induction fuel as [|fuel IH]; intros l Hlen Hact; cbn [File.prune_loop].
  - destruct l; [|simpl in Hlen; lia]. by exists [].
  - destruct (N.leb_spec (llen l) MAX_RECIPIENTS) as [Hle|Hgt]; [by exists l|].
    pose proof (min_index_spec revoked_at 0 None l) as Hmin.
    destruct (min_index revoked_at 0 None l) as [j|].
    + destruct Hmin as [[k Hk]|(_ & x & Hx & Hrev)]; [done|]. rewrite Nat.sub_0_r in Hx.
      assert (Hl : l = take j l ++ x :: drop (S j) l) by (symmetry; by apply take_drop_middle).
      assert (Hdel : delete j l = take j l ++ drop (S j) l).
      { rewrite delete_take_drop. done. }
      assert (Hf : filter (λ r, is_active r = true) (delete j l) = filter (λ r, is_active r = true) l).
      { rewrite Hl at 2. rewrite Hdel, !filter_app, filter_cons_False; [done|].
        unfold is_active. by destruct Hrev as [t ->]. }
      assert (Hlen' : (length (delete j l) < length l)%nat).
      { rewrite length_delete by by eexists. apply lookup_lt_Some in Hx. lia. }
      destruct (IH (delete j l)) as (l' & -> & ? & ? & ?); [lia|by rewrite Hf|].
      exists l'. split_and!; [done|done| |congruence]. etrans; [done|]. apply sublist_delete.
    + exfalso. destruct Hmin as [_ Hall].
      rewrite filter_all in Hact; [lia|]. eapply Forall_impl; [exact Hall|]. simpl. intros r Hr.
      unfold is_active. by rewrite Hr.
Qed.

Lemma prune_Ok f :
  core f → ∃ f', File.prune f = (f', Ok tt) ∧ valid f' ∧ keeps f f' ∧
    active_rids f' = active_rids f ∧ revoked_devices f' = revoked_devices f ∧
    (∀ r, r ∈ recipients f' → r ∈ recipients f).
Proof.
  intros Hc. destruct (prune_loop_Ok (length (recipients f)) (recipients f)) as (l' & Hl & Hle & Hsub & Hf).
  { done. }
  { rewrite active_count. destruct Hc. unfold MAX_RECIPIENTS, MAX_ACTIVE_RECIPIENTS in *. lia. }
  exists (File.set_recipients l' f). unfold File.prune. rewrite Hl.
  assert (Ha : active_rids (File.set_recipients l' f) = active_rids f)
    by (unfold active_rids; simpl; by rewrite Hf).
  assert (Hact : ∀ k, actives k l' = actives k (recipients f))
    by (intros k; by rewrite !actives_filter, Hf).
  assert (Hcore : core (File.set_recipients l' f)).
  { destruct Hc as [Hv Hg Hrids Hwfs Hr Hd Hb Hbi]. split; simpl; try done.
    - eapply sublist_NoDup; [exact Hrids|by apply fmap_sublist].
    - apply Forall_forall. intros r Hr'. apply (proj1 (Forall_forall _ _) Hwfs). by eapply elem_of_sublist.
    - by rewrite Hact.
    - by rewrite Hact. }
  split_and!; try done.
  - split; [done|intros _ Hp g Hg Hs; rewrite Ha; by apply Hp|]. split; simpl; [lia|by left].
  - intros r Hr. by eapply elem_of_sublist.
Qed.

(** ** Reconciliation *)
Import Registry.

Lemma keeps_revoke_all t rids f : keeps f (revoke_all t rids f).
Proof.
  revert f. induction rids as [|r rids IH]; intros f; [done|]. etrans; [apply (keeps_revoke r t)|apply IH].
Qed.

Lemma revoke_blocked r t f : revoked_devices (File.revoke r t f).1 = revoked_devices f.
Proof. by destruct (revoke_cases r t f) as [->|(x & l1 & l2 & _ & _ & _ & ->)]. Qed.

(** Who is still active after [r] was revoked. *)
Lemma revoke_active r t f x :
  core f → x ∈ recipients (File.revoke r t f).1 → is_active x = true → x ∈ recipients f ∧ rid x ≠ r.
Proof.
  intros Hc Hx Ha. unfold File.revoke in Hx. destruct (File.active f r) as [y|] eqn:Hy.
  - destruct (update_first_split _ (File.mark_revoked t) _ _ Hy) as (l1 & l2 & Hl & Hpy & Hu).
    apply andb_prop in Hpy as [Hr%String.eqb_eq _]. simpl in Hx. rewrite Hu in Hx.
    pose proof (v_rids _ Hc) as Hnd. rewrite Hl, fmap_app in Hnd. apply NoDup_app in Hnd as (_ & Hdis & Hnd).
    apply NoDup_cons in Hnd as [Hnot _]. rewrite Hl. subst r.
    apply elem_of_app in Hx as [Hx|[->|Hx]%elem_of_cons].
    + split; [apply elem_of_app; by left|]. intros Heq. apply (Hdis (rid x)); [by apply list_elem_of_fmap_2|].
      rewrite Heq. by left.
    + done.
    + split; [apply elem_of_app; right; by right|]. intros Heq. apply Hnot. rewrite <-Heq.
      by apply list_elem_of_fmap_2.
  - split; [done|]. intros Heq. unfold File.active in Hy.
    destruct (proj2 (find_Some_iff (λ record, String.eqb (rid record) r && is_active record) (recipients f)))
      as [z Hz]; [|congruence].
    exists x. split; [done|]. rewrite Heq, String.eqb_refl, Ha. done.
Qed.

Lemma revoke_all_active t rids f x :
  core f → x ∈ recipients (revoke_all t rids f) → is_active x = true →
  x ∈ recipients f ∧ rid x ∉ rids.
Proof.
  revert f. induction rids as [|r rids IH]; intros f Hc Hx Ha; simpl in Hx.
  - split; [done|apply not_elem_of_nil].
  - apply IH in Hx as [Hx Hnot]; [|by apply keeps_revoke|done].
    apply revoke_active in Hx as [Hx Hne]; [|done..]. split; [done|]. by apply not_elem_of_cons.
Qed.

Lemma revoke_all_blocked t rids f : revoked_devices (revoke_all t rids f) = revoked_devices f.
Proof.
  revert f. induction rids as [|r rids IH]; intros f; [done|]. simpl. by rewrite IH, revoke_blocked.
Qed.

Lemma is_blocked_iff f d : File.is_blocked f d = true ↔ d ∈ rv_device_id <$> revoked_devices f.
Proof.
  unfold File.is_blocked. rewrite existsb_exists, list_elem_of_fmap. setoid_rewrite <-list_elem_of_In.
  setoid_rewrite String.eqb_eq. split; intros (e & H1 & H2); exists e; by split.
Qed.

Lemma block_blocked d by_whom t f d' :
  File.is_blocked (File.block d by_whom t f).1 d' = true ↔ File.is_blocked f d' = true ∨ d' = d.
Proof.
  rewrite !is_blocked_iff. unfold File.block. destruct (File.is_blocked f d) eqn:Hb; simpl.
  - apply is_blocked_iff in Hb. split; [by left|]. by intros [?| ->].
  - rewrite fmap_app, elem_of_app. simpl. by rewrite list_elem_of_singleton.
Qed.

Lemma block_recipients d by_whom t f : recipients (File.block d by_whom t f).1 = recipients f.
Proof. unfold File.block. by destruct (File.is_blocked f d). Qed.

(** No device on the block list has an active recipient. *)
Definition blocked_free f : Prop :=
  ∀ x d, x ∈ recipients f → is_active x = true → device_id x = Some d → File.is_blocked f d = false.

Lemma revoke_blocked_rids t f : core f → blocked_free (revoke_all t (blocked_rids f) f).
Proof.
  intros Hc x d Hx Ha Hd. apply revoke_all_active in Hx as [Hx Hnot]; [|done..].
  apply not_true_iff_false. intros Hb. apply is_blocked_iff in Hb. rewrite revoke_all_blocked in Hb.
  apply is_blocked_iff in Hb. apply Hnot. unfold blocked_rids. apply list_elem_of_fmap_2.
  apply list_elem_of_filter. split; [|done]. unfold blocked_holder. by rewrite Ha, Hd.
Qed.

(** The orphans are the active recipients of unpaired devices. *)
Lemma orphaned_spec paired l os :
  orphaned paired l = Ok os →
  (∀ r d, (r, d) ∈ os → paired d = Ok false ∧ ∃ x, x ∈ l ∧ is_active x = true ∧ device_id x = Some d) ∧
  (∀ x d, x ∈ l → is_active x = true → device_id x = Some d → paired d = Ok true ∨ (rid x, d) ∈ os).
Proof.
  unfold orphaned. revert os. induction l as [|x l IH] using rev_ind; intros os.
  - intros [= <-]. split; intros ? ? Hin; by apply not_elem_of_nil in Hin.
  - rewrite fold_result_app. intros (acc & Hacc & Hlast)%bind_Ok_inv.
    specialize (IH _ Hacc) as [IH1 IH2]. simpl in Hlast.
    assert (Hold : ∀ r d, (r, d) ∈ acc →
      paired d = Ok false ∧ ∃ y, y ∈ l ++ [x] ∧ is_active y = true ∧ device_id y = Some d).
    { intros r d Hin. destruct (IH1 r d Hin) as (Hp & y & Hy & Hya). split; [done|].
      exists y. rewrite elem_of_app. tauto. }
    assert (Hstep : ∀ os' : list (string * string), (∀ p, p ∈ acc → p ∈ os') →
      (∀ d, is_active x = true → device_id x = Some d → paired d = Ok true ∨ (rid x, d) ∈ os') →
      ∀ y d, y ∈ l ++ [x] → is_active y = true → device_id y = Some d → paired d = Ok true ∨ (rid y, d) ∈ os').
    { intros os' Hsub Hx y d [Hy| ->%list_elem_of_singleton]%elem_of_app Hya Hyd; [|by apply Hx].
      destruct (IH2 y d Hy Hya Hyd); [by left|right; by apply Hsub]. }
    destruct (is_active x) eqn:Hxa.
    2:{ injection Hlast as <-. split; [done|]. by apply Hstep. }
    destruct (device_id x) as [d|] eqn:Hxd.
    2:{ injection Hlast as <-. split; [done|]. by apply Hstep. }
    destruct (paired d) as [known|] eqn:Hp; [|done]. simpl in Hlast.
    destruct known; injection Hlast as <-.
    + split; [done|]. apply Hstep; [done|]. intros d' _ [= <-]. by left.
    + split.
      * intros r d' [Hin|[= -> ->]%list_elem_of_singleton]%elem_of_app; [by apply (Hold r)|].
        split; [done|]. exists x. rewrite elem_of_app, list_elem_of_singleton. tauto.
      * apply Hstep; [intros p Hin; apply elem_of_app; by left|].
        intros d' _ [= <-]. right. apply elem_of_app. right. by left.
Qed.

Lemma wf_device_id x d : wf_record x → device_id x = Some d → d ≠ "".
Proof. intros [_ Hk] Hd. rewrite Hd in Hk. by destruct (kind x). Qed.

Lemma revoke_orphans_spec t os f acc :
  core f → (∀ r d, (r, d) ∈ os → d ≠ "") →
  let f' := (foldl (λ '(f, blocked) '(r, d),
    let f := (File.revoke r t f).1 in
    let '(f, new) := File.block d REVOKED_BY_DAEMON t f in
    (f, if new : bool then blocked ++ [d] else blocked)) (f, acc) os).1 in
  keeps f f' ∧
  (∀ x, x ∈ recipients f' → is_active x = true → x ∈ recipients f ∧ rid x ∉ os.*1) ∧
  (∀ d, File.is_blocked f' d = true ↔ File.is_blocked f d = true ∨ d ∈ os.*2).
Proof.
  revert f acc. induction os as [|[r d] os IH]; intros f acc Hc Hd; simpl.
  - split_and!; [done|..].
    + intros x Hx Ha. split; [done|apply not_elem_of_nil].
    + intros d. rewrite elem_of_nil. tauto.
  - set (f1 := (File.revoke r t f).1).
    assert (Hk1 : keeps f (File.block d REVOKED_BY_DAEMON t f1).1).
    { etrans; [apply (keeps_revoke r t)|]. apply keeps_block; [|done]. apply (Hd r). by left. }
    pose proof (block_recipients d REVOKED_BY_DAEMON t f1) as Hbr.
    pose proof (block_blocked d REVOKED_BY_DAEMON t f1) as Hbb.
    destruct (File.block d REVOKED_BY_DAEMON t f1) as [f2 new]. simpl in *.
    destruct (IH f2 (if new then acc ++ [d] else acc)) as (IH1 & IH2 & IH3);
      [by apply Hk1|intros r' d' Hin; apply (Hd r'); by right|].
    split_and!.
    + by etrans.
    + intros x Hx Ha. destruct (IH2 x Hx Ha) as [Hx2 Hnot]. rewrite Hbr in Hx2.
      destruct (revoke_active r t f x Hc Hx2 Ha). split; [done|]. by apply not_elem_of_cons.
    + intros d'. rewrite IH3, Hbb, elem_of_cons. unfold f1. rewrite !is_blocked_iff, revoke_blocked. tauto.
Qed.

Lemma reconcile_spec e f f' blocked :
  core f → reconcile_devices e f = (f', Ok blocked) →
  keeps f f' ∧ blocked_free f' ∧ (∀ d, File.is_blocked f d = true → File.is_blocked f' d = true) ∧
  (∀ paired x d, devices e = Some paired → x ∈ recipients f' → is_active x = true →
     device_id x = Some d → paired d = Ok true).
Proof.
  intros Hc. unfold reconcile_devices. set (f1 := revoke_all (now e) (blocked_rids f) f).
  assert (Hk1 : keeps f f1) by apply keeps_revoke_all.
  assert (Hb1 : ∀ d, File.is_blocked f1 d = true ↔ File.is_blocked f d = true).
  { intros d. unfold f1. by rewrite !is_blocked_iff, revoke_all_blocked. }
  assert (Hfree : blocked_free f1) by by apply revoke_blocked_rids.
  destruct (devices e) as [paired|]; [|intros [= <- <-]; split_and!; try done; intros d; apply Hb1].
  destruct (orphaned paired (recipients f1)) as [os|] eqn:Ho; [|done].
  apply orphaned_spec in Ho as [Ho1 Ho2].
  assert (Hids : ∀ r d, (r, d) ∈ os → d ≠ "").
  { intros r d Hin. destruct (Ho1 r d Hin) as (_ & x & Hx & _ & Hd).
    assert (Hc1 : core f1) by by apply Hk1. eapply wf_device_id; [|done].
    by apply (proj1 (Forall_forall _ _) (v_records _ Hc1)). }
  destruct (revoke_orphans_spec (now e) os f1 []) as (Hk2 & Hact & Hblk); [by apply Hk1|done|].
  unfold revoke_orphans. destruct (foldl _ (f1, []) os) as [f2 b2]. simpl in *. intros [= <- <-].
  assert (Hpaired : ∀ x d, x ∈ recipients f2 → is_active x = true → device_id x = Some d → paired d = Ok true).
  { intros x d Hx Ha Hd. destruct (Hact x Hx Ha) as [Hx1 Hnot].
    destruct (Ho2 x d Hx1 Ha Hd) as [|Hin]; [done|]. destruct Hnot. apply list_elem_of_fmap. by exists (rid x, d). }
  split_and!.
  - by etrans.
  - intros x d Hx Ha Hd. apply not_true_iff_false. rewrite Hblk. intros [Hb|Hin].
    + destruct (Hact x Hx Ha) as [Hx1 _]. by rewrite (Hfree x d Hx1 Ha Hd) in Hb.
    + apply list_elem_of_fmap in Hin as ([r d'] & -> & Hin). destruct (Ho1 r d' Hin) as [Hf _].
      by rewrite (Hpaired x d' Hx Ha Hd) in Hf.
  - intros d Hb. apply Hblk. left. by apply Hb1.
  - intros ? x d [= <-]. apply Hpaired.
Qed.

(** ** The commands *)
Inductive Command : Type :=
  | Snapshot | EnsureAccess (d : string) | State | ActiveRecipients | DeviceRid (d : string)
  | DeviceOwns (d r : string) | IsActive (r : string) | RegisterDevice (d : string) (key : PublicKey)
  | SetRecovery (key : PublicKey) | Revoke (r by_whom : string) | RestoreDevice (d : string)
  | RequestGrant (d : string) | DismissGrant (g : string) | CompleteGrant (g : string)
  | PendingGrantRid (g : string).

(** An operation with its answer dropped. *)
Definition forget_value {A} (op : Op A) : Op unit := λ f, let '(f', r) := op f in (f', (λ _, tt) <$> r).

Definition exec (e : Env) (cmd : Command) : Op unit :=
  match cmd with
  | Snapshot => read (λ _, Ok tt)
  | EnsureAccess d => ensure_access_op d
  | State => forget_value state_op
  | ActiveRecipients => forget_value active_recipients_op
  | DeviceRid d => forget_value (device_rid_op d)
  | DeviceOwns d r => forget_value (device_owns_op d r)
  | IsActive r => forget_value (is_active_op r)
  | RegisterDevice d key => forget_value (register_device_op e d key)
  | SetRecovery key => forget_value (set_recovery_op e key)
  | Revoke r by_whom => forget_value (revoke_op e r by_whom)
  | RestoreDevice d => restore_device_op d
  | RequestGrant d => forget_value (request_grant_op e d)
  | DismissGrant g => forget_value (set_grant_status_op e g Dismissed)
  | CompleteGrant g => forget_value (set_grant_status_op e g Fulfilled)
  | PendingGrantRid g => forget_value (pending_grant_rid_op g)
  end.

(** Device ids are never empty. *)
Definition command_ok (cmd : Command) : Prop :=
  match cmd with
  | RegisterDevice d _ => d ≠ ""
  | Revoke _ by_whom => by_whom ≠ ""
  | _ => True
  end.

(** What a command leaves of the file it was given. *)
Definition op_keeps (op : Op unit) : Prop := ∀ f f' u, core f → op f = (f', Ok u) → keeps f f'.

Lemma forget_value_inv {A} (op : Op A) f f' u :
  forget_value op f = (f', Ok u) → ∃ a, op f = (f', Ok a).
Proof.
  unfold forget_value. destruct (op f) as [f1 [a|err]]; simpl; [intros [= ->]; eauto|done].
Qed.

Lemma active_rids_elem f x : x ∈ recipients f → is_active x = true → rid x ∈ active_rids f.
Proof. intros. apply list_elem_of_fmap_2, list_elem_of_filter. by split. Qed.

Lemma revoke_rids r t f : rid <$> recipients (File.revoke r t f).1 = rid <$> recipients f.
Proof.
  destruct (revoke_cases r t f) as [->|(x & l1 & l2 & Hl & _ & _ & ->)]; [done|]. simpl.
  by rewrite Hl, !fmap_app.
Qed.

Lemma find_rid_None r f :
  find (λ record, String.eqb (rid record) r) (recipients f) = None → r ∉ rid <$> recipients f.
Proof.
  intros Hf (x & -> & Hx)%list_elem_of_fmap. rewrite list_elem_of_In in Hx.
  pose proof (find_none _ _ Hf x Hx) as Hn. simpl in Hn. by rewrite String.eqb_refl in Hn.
Qed.

Lemma no_recovery f : (∀ x, x ∈ recipients f → is_active x = true → kind x ≠ Recovery) →
  llen (actives Recovery (recipients f)) = 0.
Proof.
  intros Hno. destruct (actives Recovery (recipients f)) as [|x l] eqn:Hl; [done|].
  assert (Hx : x ∈ actives Recovery (recipients f)) by (rewrite Hl; by left).
  apply list_elem_of_filter in Hx as [[Ha Hk] Hx]. by destruct (Hno x Hx Ha).
Qed.

Lemma one_recovery f x y :
  core f → x ∈ recipients f → y ∈ recipients f → is_active x = true → is_active y = true →
  kind x = Recovery → kind y = Recovery → x = y.
Proof.
  intros Hc Hx Hy Hxa Hya Hxk Hyk. pose proof (v_recovery _ Hc) as Hr.
  assert (Hx' : x ∈ actives Recovery (recipients f)) by (by apply list_elem_of_filter).
  assert (Hy' : y ∈ actives Recovery (recipients f)) by (by apply list_elem_of_filter).
  destruct (actives Recovery (recipients f)) as [|z [|z' l]].
  - by apply not_elem_of_nil in Hx'.
  - apply list_elem_of_singleton in Hx', Hy'. congruence.
  - unfold llen in Hr. simpl in Hr. lia.
Qed.

Lemma set_recovery_clears e f f1 :
  core f →
  f1 = match File.active_recovery f with
       | Some previous => (File.revoke (rid previous) (now e) f).1
       | None => f
       end →
  llen (actives Recovery (recipients f1)) = 0.
Proof.
  intros Hc ->. apply no_recovery. intros x Hx Ha Hk. unfold File.active_recovery in *.
  destruct (find _ (recipients f)) as [p|] eqn:Hp.
  - apply find_elem in Hp as [Hp [Hpa Hpk%bool_decide_eq_true]%andb_prop].
    apply revoke_active in Hx as [Hx Hne]; [|done..]. apply Hne. f_equal. by apply (one_recovery f).
  - rewrite list_elem_of_In in Hx. pose proof (find_none _ _ Hp x Hx) as Hn. simpl in Hn.
    by rewrite Ha, Hk in Hn.
Qed.

Lemma wf_new_record d key t (k : RecipientKind) :
  match k, d with Device, Some d => d ≠ "" | Recovery, None => True | _, _ => False end →
  wf_record {| rid := key_rid key; kind := k; device_id := d; public_key := key_text key;
               added_at := t; revoked_at := None |}.
Proof. intros Hk. split; [|done]. exists key. split; [apply from_key_text|done]. Qed.

Lemma add_ret_inv {A} record (a : A) f f' v :
  (_ ← File.add record; mret a) f = (f', Ok v) → File.add record f = (f', Ok tt).
Proof.
  intros (f1 & [] & Hadd & Hret)%M_bind_Ok_inv. by injection Hret as <- _.
Qed.

Lemma register_keeps e d key f f' r :
  d ≠ "" → core f → register_device_op e d key f = (f', Ok r) → keeps f f'.
Proof.
  intros Hd Hc. unfold register_device_op. destruct (File.ensure_access f d); [|done].
  destruct (find _ (recipients f)) eqn:Hfind.
  { repeat case_match; intros ?; by simplify_eq. }
  intros Hadd%add_ret_inv. set (f1 := match devices e with Some _ => _ | None => f end) in *.
  assert (Hk1 : keeps f f1 ∧ rid <$> recipients f1 = rid <$> recipients f).
  { unfold f1. destruct (devices e); [|done]. destruct (File.active_device f d); [|done].
    split; [apply keeps_revoke|apply revoke_rids]. }
  destruct Hk1 as [Hk1 Hrids]. etrans; [exact Hk1|]. eapply keeps_add; [exact Hadd|..].
  - by apply (wf_new_record (Some d)).
  - simpl. rewrite Hrids. by apply find_rid_None.
  - done.
  - done.
Qed.

Lemma set_recovery_keeps e key f f' r :
  core f → set_recovery_op e key f = (f', Ok r) → keeps f f'.
Proof.
  intros Hc. unfold set_recovery_op. destruct (find _ (recipients f)) eqn:Hfind.
  { repeat case_match; intros ?; by simplify_eq. }
  intros Hadd%add_ret_inv. set (f1 := match File.active_recovery f with Some _ => _ | None => f end) in *.
  assert (Hk1 : keeps f f1 ∧ rid <$> recipients f1 = rid <$> recipients f).
  { unfold f1. destruct (File.active_recovery f); [|done]. split; [apply keeps_revoke|apply revoke_rids]. }
  destruct Hk1 as [Hk1 Hrids]. etrans; [exact Hk1|]. eapply keeps_add; [exact Hadd|..].
  - by apply (wf_new_record None).
  - simpl. rewrite Hrids. by apply find_rid_None.
  - done.
  - intros _. by apply (set_recovery_clears e f).
Qed.

Lemma revoke_op_keeps e r by_whom f f' d :
  by_whom ≠ "" → core f → revoke_op e r by_whom f = (f', Ok d) → keeps f f'.
Proof.
  intros Hby Hc. unfold revoke_op. destruct (find _ (recipients f)) as [x|] eqn:Hx; [|done].
  apply find_elem in Hx as [Hx _].
  assert (Hid : ∀ d, device_id x = Some d → d ≠ "").
  { intros d' Hd'. eapply wf_device_id; [|done]. by apply (proj1 (Forall_forall _ _) (v_records _ Hc)). }
  pose proof (keeps_revoke r (now e) f) as Hk. destruct (File.revoke r (now e) f) as [f1 b]. simpl in Hk.
  destruct (device_id x) as [d'|]; [|by intros [= <- <-]].
  destruct (devices e); [|by intros [= <- <-]]. destruct b; intros [= <- <-]; [|done].
  etrans; [exact Hk|]. apply keeps_block; [by apply Hid|done].
Qed.

Lemma restore_keeps d f f' u : restore_device_op d f = (f', Ok u) → keeps f f'.
Proof.
  unfold restore_device_op. destruct (_ =? _); [done|]. intros [= <- <-]. split.
  - intros [Hv Hg Hr Hwf Hrec Hdev Hb Hbi]. split; simpl; try done.
    + eapply sublist_NoDup; [exact Hb|]. apply fmap_sublist, sublist_filter.
    + apply Forall_forall. intros b [_ Hin]%list_elem_of_filter. by apply (proj1 (Forall_forall _ _) Hbi).
  - done.
  - split; simpl; [lia|by left].
Qed.

Lemma request_grant_keeps e d f f' v : request_grant_op e d f = (f', Ok v) → keeps f f'.
Proof.
  unfold request_grant_op. destruct (File.ensure_access f d); [|done].
  destruct (File.active_device f d) as [x|] eqn:Hx; simpl; [|done].
  destruct (find _ (grants f)); [by intros [= <- <-]|].
  apply find_elem in Hx as [Hx%list_elem_of_In [[Hxa _]%andb_prop _]%andb_prop].
  rewrite <-in_rev, <-list_elem_of_In in Hx.
  set (room := if MAX_GRANTS <=? llen (grants f) then _ else _).
  assert (Hroom : ∀ gs, room = Some gs →
    (llen (grants f) ≤ MAX_GRANTS → llen gs < MAX_GRANTS) ∧ ∀ g, g ∈ gs → g ∈ grants f).
  { intros gs. unfold room. destruct (N.leb_spec MAX_GRANTS (llen (grants f))) as [Hge|Hlt].
    - pose proof (min_index_spec settled_at 0 None (grants f)) as Hmin.
      destruct (min_index settled_at 0 None (grants f)) as [j|]; [|done]. intros [= <-].
      destruct Hmin as [[k Hk]|(_ & g & Hg & _)]; [done|]. rewrite Nat.sub_0_r in Hg.
      assert (Hlen : length (delete j (grants f)) = (length (grants f) - 1)%nat) by (apply length_delete; eauto).
      apply lookup_lt_Some in Hg. split; [unfold llen in *; lia|].
      intros g' Hg'. eapply elem_of_sublist; [exact Hg'|apply sublist_delete].
    - intros [= <-]. by split. }
  destruct room as [gs|]; [|done]. destruct (Hroom gs eq_refl) as [Hlen Hsub]. intros [= <- <-].
  apply keeps_set_grants.
  - intros Hc. specialize (Hlen (v_grants _ Hc)). unfold llen in *. rewrite length_app. simpl. lia.
  - intros Hp g [Hg| ->%list_elem_of_singleton]%elem_of_app Hs; [by apply Hp; [apply Hsub|]|].
    by apply active_rids_elem.
Qed.

Lemma set_grant_status_keeps e g s f f' v :
  s ≠ Pending → set_grant_status_op e g s f = (f', Ok v) → keeps f f'.
Proof.
  intros Hs. unfold set_grant_status_op. destruct (find _ (grants f)) as [x|] eqn:Hx; [|done].
  case_bool_decide; intros [= <- <-]; [|done].
  set (upd := λ grant : GrantRecord, {| grant_id := grant_id grant; g_rid := g_rid grant;
    g_device_id := g_device_id grant; requested_at := requested_at grant; status := s;
    updated_at := Some (now e) |}).
  destruct (update_first_split _ upd _ _ Hx) as (l1 & l2 & Hl & _ & ->). apply keeps_set_grants.
  - intros Hc. pose proof (v_grants _ Hc) as Hg. rewrite Hl in Hg. unfold llen in *.
    by rewrite length_app in *.
  - intros Hp y [Hy|[->|Hy]%elem_of_cons]%elem_of_app Hys; [| done |];
      apply Hp; try done; rewrite Hl; apply elem_of_app; [by left|right; by right].
Qed.

Lemma exec_keeps e cmd f f' u : command_ok cmd → core f → exec e cmd f = (f', Ok u) → keeps f f'.
Proof.
  intros Hok Hc. destruct cmd; simpl; intros Hexec;
    try (apply forget_value_inv in Hexec as [v Hexec]);
    try (by unfold ensure_access_op, state_op, active_recipients_op, device_rid_op, device_owns_op, is_active_op,
           pending_grant_rid_op, read in Hexec; injection Hexec as <- _).
  - by eapply register_keeps.
  - by eapply set_recovery_keeps.
  - by eapply revoke_op_keeps.
  - by eapply restore_keeps.
  - by eapply request_grant_keeps.
  - by eapply set_grant_status_keeps; [|exact Hexec].
  - by eapply set_grant_status_keeps; [|exact Hexec].
Qed.

(** ** The handle *)

Lemma reload_valid w w' r :
  valid (file (inner w)) → reload_if_changed w = (w', r) → valid (file (inner w')) ∧ disk w' = disk w.
Proof.
  intros Hv. unfold reload_if_changed. case_bool_decide; [by intros [= <- <-]|].
  unfold read_file. destruct (content (disk w)) as [[f|err]|]; simpl.
  - destruct (File.validate f) as [[]|] eqn:Hf; simpl; intros [= <- <-]; simpl; [|done].
    split; [|done]. by apply validate_iff.
  - by intros [= <- <-].
  - intros [= <- <-]. simpl. split; [apply valid_default|done].
Qed.

(** The stages of a successful [apply]. *)
Lemma apply_Ok {A} e (op : Op A) w w' a :
  apply e op w = (w', Ok a) →
  ∃ w1 f1 blocked f2, reload_if_changed w = (w1, Ok tt) ∧
    reconcile_devices e (file (inner w1)) = (f1, Ok blocked) ∧ op f1 = (f2, Ok (value a)) ∧
    ((f2 = file (inner w1) ∧ w' = w1) ∨
     (∃ f3, File.prune f2 = (f3, Ok tt) ∧ file (inner w') = f3 ∧ File.validate f3 = Ok tt ∧
        content (disk w') = Some (Ok f3) ∧ disk_stamp (disk w') = stamp (inner w'))).
Proof.
  unfold apply. destruct (reload_if_changed w) as [w1 [[]|err]]; [|done].
  destruct (reconcile_devices e (file (inner w1))) as [f1 [blocked|err]] eqn:Hrec; [|done].
  destruct (op f1) as [f2 [v|err]] eqn:Hop; [|done].
  destruct (decide (f2 = file (inner w1))) as [Heq|Hne].
  - intros [= <- <-]. exists w1, f1, blocked, f2. split_and!; try done. by left.
  - destruct (File.prune f2) as [f3 [[]|err]] eqn:Hprune; [|done]. unfold write_file.
    destruct (File.validate f3) as [[]|err] eqn:Hval; [|done].
    destruct (MAX_FILE_BYTES <? write_bytes e); [done|]. destruct (write_answer e); [|done].
    intros [= <- <-]. exists w1, f1, blocked, f2. split_and!; try done. right. by exists f3.
Qed.

Lemma apply_Err {A} e (op : Op A) w w' err :
  apply e op w = (w', Err err) → inner w' = inner (reload_if_changed w).1 ∧ disk w' = disk w.
Proof.
  unfold apply. assert (Hd : disk (reload_if_changed w).1 = disk w).
  { unfold reload_if_changed. case_bool_decide; [done|]. by destruct (read_file (disk w)). }
  destruct (reload_if_changed w) as [w1 [[]|err1]]; simpl in *; [|by intros [= <- <-]].
  destruct (reconcile_devices e (file (inner w1))) as [f1 [blocked|err1]]; [|by intros [= <- <-]].
  destruct (op f1) as [f2 [v|err2]]; [|by intros [= <- <-]].
  destruct (decide (f2 = file (inner w1))) as [Heq|Hne]; [done|].
  destruct (File.prune f2) as [f3 [[]|err3]]; [|by intros [= <- <-]]. unfold write_file.
  destruct (File.validate f3); [|by intros [= <- <-]].
  destruct (MAX_FILE_BYTES <? write_bytes e); [by intros [= <- <-]|].
  destruct (write_answer e); [done|]. by intros [= <- <-].
Qed.

(** What a successful command does to the file the handle holds. *)
Lemma command_steps e cmd w w' a :
  command_ok cmd → valid (file (inner w)) → apply e (exec e cmd) w = (w', Ok a) →
  let f0 := file (inner (reload_if_changed w).1) in
  valid f0 ∧ valid (file (inner w')) ∧ keeps f0 (file (inner w')).
Proof.
  intros Hok Hv (w1 & f1 & blocked & f2 & Hre & Hrec & Hop & Hend)%apply_Ok.
  destruct (reload_valid _ _ _ Hv Hre) as [Hv1 _]. rewrite Hre. simpl. split; [done|].
  destruct (reconcile_spec _ _ _ _ (proj1 Hv1) Hrec) as (Hk1 & _).
  assert (Hk2 : keeps f1 f2) by (eapply exec_keeps; [done|by apply Hk1, Hv1|exact Hop]).
  destruct Hend as [[-> ->]|(f3 & Hp & -> & _)]; [done|].
  assert (Hc2 : core f2) by (apply Hk2, Hk1, Hv1).
  destruct (prune_Ok f2 Hc2) as (f3' & Hp' & Hv3 & Hk3 & _). rewrite Hp in Hp'. injection Hp' as <-.
  split; [done|]. etrans; [exact Hk1|]. by etrans.
Qed.


(** the epoch protects key rotation: a command never lowers it, and raises
    it whenever it changes who the active recipients are; and pending grants
    always wait for an active recipient. *)
Theorem epoch_tracks_recipients e cmd w w' a :
  command_ok cmd → valid (file (inner w)) → apply e (exec e cmd) w = (w', Ok a) →
  let f0 := file (inner (reload_if_changed w).1) in
  epoch f0 ≤ epoch (file (inner w')) ∧
  (active_rids (file (inner w')) ≠ active_rids f0 → epoch f0 < epoch (file (inner w'))) ∧
  (pending_ok f0 → pending_ok (file (inner w'))).
Proof.
  intros Hok Hv Happ. destruct (command_steps e cmd w w' a Hok Hv Happ) as (Hv0 & _ & Hk).
  destruct (k_evolves _ _ Hk) as [He Ha]. split_and!; [done| |by apply Hk, Hv0].
  intros Hne. destruct Ha; [done|lia].
Qed.

(** What [active_recipients] answers, and who is behind it. *)
Lemma active_recipients_spec e w w' a :
  valid (file (inner w)) → apply e active_recipients_op w = (w', Ok a) →
  let records := filter (λ r, is_active r = true) (recipients (file (inner w'))) in
  fst (value a) = epoch (file (inner w')) ∧
  Forall2 (λ r k, from_base64url (public_key r) = Ok k ∧ key_rid k = rid r) records (snd (value a)) ∧
  ∀ r d, r ∈ records → device_id r = Some d →
    File.is_blocked (file (inner w')) d = false ∧
    ∀ paired, devices e = Some paired → paired d = Ok true.
Proof.
  intros Hv (w1 & f1 & blocked & f2 & Hre & Hrec & Hop & Hend)%apply_Ok. cbv zeta.
  destruct (reload_valid _ _ _ Hv Hre) as [Hv1 _].
  destruct (reconcile_spec _ _ _ _ (proj1 Hv1) Hrec) as (Hk1 & Hfree & _ & Hpaired).
  unfold active_recipients_op, read in Hop. injection Hop as <- Hval.
  destruct (map_result _ _) as [keys|] eqn:Hkeys; [|done]. injection Hval as <-.
  apply map_result_Forall2 in Hkeys.
  assert (Hsame : ∀ f', filter (λ r, is_active r = true) (recipients f') =
      filter (λ r, is_active r = true) (recipients f1) → epoch f' = epoch f1 →
      revoked_devices f' = revoked_devices f1 → Forall wf_record (recipients f') →
    epoch f1 = epoch f' ∧
    Forall2 (λ r k, from_base64url (public_key r) = Ok k ∧ key_rid k = rid r)
      (filter (λ r, is_active r = true) (recipients f')) keys ∧
    ∀ r d, r ∈ filter (λ r, is_active r = true) (recipients f') → device_id r = Some d →
      File.is_blocked f' d = false ∧ ∀ paired, devices e = Some paired → paired d = Ok true).
  { intros f' Hf He Hb Hwf. split; [done|]. split.
    - rewrite Hf. eapply Forall2_impl_elem; [exact Hkeys|].
      intros r k Hr Hk. split; [done|].
      assert (Hr' : r ∈ recipients f') by (rewrite <-Hf in Hr; by apply list_elem_of_filter in Hr as [_ ?]).
      destruct (proj1 (Forall_forall _ _) Hwf r Hr') as [(k' & Hk' & <-) _]. congruence.
    - intros r d Hr Hd. rewrite Hf in Hr. apply list_elem_of_filter in Hr as [Ha Hr]. split.
      + unfold File.is_blocked. rewrite Hb. by apply (Hfree r d).
      + intros paired He'. by apply (Hpaired paired r d). }
  assert (Hc1 : core f1) by apply Hk1, Hv1.
  destruct Hend as [[Heq ->]|(f3 & Hp & -> & _)].
  - simpl. rewrite <-Heq. by apply Hsame; [..|apply Hc1].
  - unfold File.prune in Hp.
    destruct (prune_loop_Ok (length (recipients f1)) (recipients f1)) as (l' & Hl & _ & Hsub & Hf); [done|..].
    { rewrite active_count. destruct Hc1. unfold MAX_RECIPIENTS, MAX_ACTIVE_RECIPIENTS in *. lia. }
    rewrite Hl in Hp. injection Hp as <-. apply Hsame; simpl; try done.
    apply Forall_forall. intros r Hr. apply (proj1 (Forall_forall _ _) (v_records _ Hc1)).
    by eapply elem_of_sublist.
Qed.

(** new history keys are only wrapped for devices in good standing: the
    keys [active_recipients] returns are those of the active recipients on
    file, and no device behind them is blocked or, with device auth on,
    unpaired, even when another process revoked or unpaired it meanwhile. *)
Theorem active_recipients_in_good_standing e w w' a :
  valid (file (inner w)) → apply e active_recipients_op w = (w', Ok a) →
  let records := filter (λ r, is_active r = true) (recipients (file (inner w'))) in
  fst (value a) = epoch (file (inner w')) ∧
  Forall2 (λ r k, from_base64url (public_key r) = Ok k ∧ key_rid k = rid r) records (snd (value a)) ∧
  ∀ r d, r ∈ records → device_id r = Some d →
    File.is_blocked (file (inner w')) d = false ∧
    ∀ paired, devices e = Some paired → paired d = Ok true.
Proof. apply active_recipients_spec. Qed.

(** ** The block list *)
Lemma same_blocked f f' d :
  revoked_devices f' = revoked_devices f → File.is_blocked f d = true → File.is_blocked f' d = true.
Proof. unfold File.is_blocked. by intros ->. Qed.

Lemma add_blocked record f f' : File.add record f = (f', Ok tt) → revoked_devices f' = revoked_devices f.
Proof. unfold File.add. destruct (_ <=? _); [done|]. by intros [= <-]. Qed.

Lemma exec_blocked e cmd f f' u d :
  exec e cmd f = (f', Ok u) → cmd ≠ RestoreDevice d → File.is_blocked f d = true →
  File.is_blocked f' d = true.
Proof.
  intros Hexec Hne Hb. destruct cmd; simpl in Hexec;
    try (apply forget_value_inv in Hexec as [v Hexec]);
    try (by unfold ensure_access_op, state_op, active_recipients_op, device_rid_op, device_owns_op, is_active_op,
           pending_grant_rid_op, read in Hexec; injection Hexec as <- _).
  - unfold register_device_op in Hexec. destruct (File.ensure_access f d0); [|done].
    destruct (find _ (recipients f)); [by simplify_eq|]. apply add_ret_inv, add_blocked in Hexec.
    eapply same_blocked; [exact Hexec|]. destruct (devices e); [|done].
    destruct (File.active_device f d0); [|done]. eapply same_blocked; [apply revoke_blocked|done].
  - unfold set_recovery_op in Hexec. destruct (find _ (recipients f)); [by simplify_eq|].
    apply add_ret_inv, add_blocked in Hexec. eapply same_blocked; [exact Hexec|].
    destruct (File.active_recovery f); [|done]. eapply same_blocked; [apply revoke_blocked|done].
  - unfold revoke_op in Hexec. destruct (find _ (recipients f)) as [x|]; [|done].
    pose proof (revoke_blocked r (now e) f) as Hr. destruct (File.revoke r (now e) f) as [f1 b].
    simpl in Hr. assert (Hb1 : File.is_blocked f1 d = true) by by eapply same_blocked.
    destruct (device_id x); [|by simplify_eq]. destruct (devices e), b; simplify_eq; try done.
    apply block_blocked. by left.
  - unfold restore_device_op in Hexec. destruct (_ =? _); [done|]. injection Hexec as <- _.
    apply is_blocked_iff in Hb. apply is_blocked_iff. simpl.
    apply list_elem_of_fmap in Hb as (b & -> & Hin). apply list_elem_of_fmap_2, list_elem_of_filter.
    split; [congruence|done].
  - unfold request_grant_op in Hexec. repeat case_match; simplify_eq; done.
  - unfold set_grant_status_op in Hexec. repeat case_match; simplify_eq; done.
  - unfold set_grant_status_op in Hexec. repeat case_match; simplify_eq; done.
Qed.

(** a revoked device stays locked out: once a device is on the block list
    no command but its own restoration takes it off, and registering a key or
    requesting a grant for it is refused with [HistoryAccessRevoked] (when the
    registry itself is readable), so re-pairing the same identity does not
    bring history access back. *)
Theorem blocked_devices_stay_locked_out e w d :
  valid (file (inner w)) →
  let f0 := file (inner (reload_if_changed w).1) in
  File.is_blocked f0 d = true →
  (∀ cmd w' a, cmd ≠ RestoreDevice d → apply e (exec e cmd) w = (w', Ok a) →
     File.is_blocked (file (inner w')) d = true) ∧
  (∀ f1 bl, (reload_if_changed w).2 = Ok tt → reconcile_devices e f0 = (f1, Ok bl) →
     (∀ key, (apply e (register_device_op e d key) w).2 = Err HistoryAccessRevoked) ∧
     (apply e (request_grant_op e d) w).2 = Err HistoryAccessRevoked).
Proof.
  intros Hv f0 Hb.
  assert (Hv0 : valid f0).
  { unfold f0. destruct (reload_if_changed w) as [w1 r1] eqn:Hre.
    by apply (reload_valid _ _ _ Hv) in Hre as [? _]. }
  split.
  - intros cmd w' a Hne (w1 & f1 & blocked & f2 & Hre & Hrec & Hop & Hend)%apply_Ok.
    unfold f0 in *. rewrite Hre in *. simpl in *.
    destruct (reconcile_spec _ _ _ _ (proj1 Hv0) Hrec) as (_ & _ & Hb1 & _).
    assert (Hb2 : File.is_blocked f2 d = true) by (eapply exec_blocked; eauto).
    destruct Hend as [[Heq ->]|(f3 & Hp & -> & _)]; [by rewrite <-Heq|].
    eapply same_blocked; [|exact Hb2]. unfold File.prune in Hp.
    destruct (File.prune_loop _ _); [|done]. by injection Hp as <-.
  - intros f1 bl Hre Hrec. destruct (reconcile_spec _ _ _ _ (proj1 Hv0) Hrec) as (_ & _ & Hb1 & _).
    assert (Ha : File.ensure_access f1 d = Err HistoryAccessRevoked).
    { unfold File.ensure_access. by rewrite (Hb1 d Hb). }
    unfold apply, f0 in *. destruct (reload_if_changed w) as [w1 r1]. simpl in *. subst r1.
    rewrite Hrec. unfold register_device_op, request_grant_op. by rewrite Ha.
Qed.

(** ** The hook of the other process *)
Lemma block_all_spec by_whom t ds f b :
  by_whom ≠ "" → Forall (λ d, d ≠ "") ds →
  let f' := (block_all by_whom t ds (f, b)).1 in
  keeps f f' ∧ recipients f' = recipients f ∧
  (∀ d, File.is_blocked f' d = true ↔ File.is_blocked f d = true ∨ d ∈ ds).
Proof.
  intros Hby Hds. revert f b. induction Hds as [|d ds Hd Hds IH]; intros f b; simpl.
  - split_and!; [done..|]. intros d. rewrite elem_of_nil. tauto.
  - pose proof (keeps_block d by_whom t f Hd Hby) as Hk. pose proof (block_recipients d by_whom t f) as Hr.
    pose proof (block_blocked d by_whom t f) as Hb. destruct (File.block d by_whom t f) as [f1 new]. simpl in *.
    destruct (IH f1 (b || new)) as (IH1 & IH2 & IH3). split_and!; [by etrans|by etrans|].
    intros d'. rewrite IH3, Hb, elem_of_cons. tauto.
Qed.

Lemma block_all_changed by_whom t ds f : (block_all by_whom t ds (f, true)).2 = true.
Proof.
  revert f. induction ds as [|d ds IH]; intros f; simpl; [done|].
  destruct (File.block d by_whom t f) as [f1 new]. apply IH.
Qed.

Lemma block_all_unchanged by_whom t ds f f' :
  block_all by_whom t ds (f, false) = (f', false) → f' = f.
Proof.
  revert f. induction ds as [|d ds IH]; intros f; simpl; [by intros [= <-]|].
  destruct (File.block d by_whom t f) as [f1 new] eqn:Hbk. unfold File.block in Hbk.
  destruct (File.is_blocked f d); simplify_eq/=; [apply IH|].
  intros Hf. pose proof (block_all_changed by_whom t ds (File.set_revoked_devices (revoked_devices f ++
    [{| rv_device_id := d; rv_revoked_at := t; revoked_by := by_whom |}]) f)) as Hc.
  by rewrite Hf in Hc.
Qed.

Lemma revoke_untouched r t f x :
  x ∈ recipients f → rid x ≠ r → x ∈ recipients (File.revoke r t f).1.
Proof.
  intros Hx Hne. destruct (revoke_cases r t f) as [->|(y & l1 & l2 & Hl & Hr & _ & ->)]; [done|]. simpl.
  rewrite Hl in Hx. apply elem_of_app in Hx as [Hx|[->|Hx]%elem_of_cons]; [|done|];
    apply elem_of_app; [by left|right; by right].
Qed.

Lemma revoke_all_untouched t rids f x :
  x ∈ recipients f → rid x ∉ rids → x ∈ recipients (revoke_all t rids f).
Proof.
  revert f. induction rids as [|r rids IH]; intros f Hx Hnot; [done|].
  apply not_elem_of_cons in Hnot as [Hne Hnot]. apply IH; [by apply revoke_untouched|done].
Qed.

Lemma rid_unique f x y : core f → x ∈ recipients f → y ∈ recipients f → rid x = rid y → x = y.
Proof.
  intros Hc [i Hi]%list_elem_of_lookup [j Hj]%list_elem_of_lookup Heq.
  assert (i = j) as ->; [|congruence]. eapply (NoDup_lookup (rid <$> recipients f));
    [apply Hc|by rewrite list_lookup_fmap, Hi|by rewrite list_lookup_fmap, Hj, Heq].
Qed.

Lemma elem_of_targets sel f r d :
  (r, d) ∈ hook_targets sel f ↔ ∃ x, x ∈ recipients f ∧ rid x = r ∧ is_active x = true ∧
    kind x = Device ∧ device_id x = Some d ∧ selected sel d = true.
Proof.
  unfold hook_targets. rewrite list_elem_of_omap. split.
  - intros (x & Hx & Hm). destruct (device_id x) as [d'|] eqn:Hd; [|done].
    destruct (_ && _) eqn:Hb in Hm; [|done]. injection Hm as <- <-.
    apply andb_prop in Hb as [[Ha Hk%bool_decide_eq_true]%andb_prop Hs]. exists x. by split_and!.
  - intros (x & Hx & <- & Ha & Hk & Hd & Hs). exists x. split; [done|]. rewrite Hd, Ha, Hk, Hs.
    by rewrite bool_decide_eq_true_2.
Qed.

(** The file the hook builds from a well-formed one. *)
Lemma hook_file t sel f b :
  valid f → Forall (λ d, d ≠ "") (named sel) →
  let f' := (block_all REVOKED_BY_TUI t (named sel ++ (hook_targets sel f).*2)
               (revoke_all t (hook_targets sel f).*1 f, b)).1 in
  keeps f f' ∧ (∀ d, d ∈ named sel → File.is_blocked f' d = true) ∧
  (∀ x d, x ∈ recipients f' → is_active x = true → device_id x = Some d → selected sel d = false) ∧
  (∀ x, x ∈ recipients f → (∀ d, device_id x = Some d → selected sel d = false) → x ∈ recipients f').
Proof.
  intros [Hc Hlen] Hnames. pose proof (proj1 (Forall_forall _ _) (v_records _ Hc)) as Hwf.
  destruct (block_all_spec REVOKED_BY_TUI t (named sel ++ (hook_targets sel f).*2)
    (revoke_all t (hook_targets sel f).*1 f) b) as (Hk & Hr & Hb); [done|..].
  { apply Forall_app. split; [done|]. apply Forall_forall. intros d ([r d'] & -> & Hin)%list_elem_of_fmap.
    apply elem_of_targets in Hin as (x & Hx & _ & _ & _ & Hd & _). eapply wf_device_id; [by apply Hwf|done]. }
  cbv zeta. split_and!.
  - etrans; [apply keeps_revoke_all|exact Hk].
  - intros d Hd. apply Hb. right. apply elem_of_app. by left.
  - intros x d Hx Ha Hd. rewrite Hr in Hx. apply revoke_all_active in Hx as [Hx Hnot]; [|done..].
    apply not_true_iff_false. intros Hs. apply Hnot, list_elem_of_fmap. exists (rid x, d). split; [done|].
    apply elem_of_targets. exists x. split_and!; try done.
    destruct (Hwf x Hx) as [_ Hk']. rewrite Hd in Hk'. by destruct (kind x).
  - intros x Hx Hns. rewrite Hr. apply revoke_all_untouched; [done|].
    intros ([r d] & Heq & Hin)%list_elem_of_fmap.
    apply elem_of_targets in Hin as (y & Hy & Hry & _ & _ & Hd & Hs).
    assert (x = y) as -> by (apply (rid_unique f); [done..|simpl in Heq; congruence]).
    by rewrite (Hns d Hd) in Hs.
Qed.

(** What the hook leaves on disk. *)
Lemma hook_spec e sel dk dk' n f :
  content dk = Some (Ok f) → Forall (λ d, d ≠ "") (named sel) →
  revoke_device_recipients e sel dk = (dk', Ok n) →
  ∃ f', content dk' = Some (Ok f') ∧ valid f' ∧ keeps f f' ∧
    (∀ d, d ∈ named sel → File.is_blocked f' d = true) ∧
    (∀ x d, x ∈ recipients f' → is_active x = true → device_id x = Some d → selected sel d = false) ∧
    (∀ x, x ∈ recipients f → (∀ d, device_id x = Some d → selected sel d = false) → x ∈ recipients f').
Proof.
  intros Hcont Hnames. unfold revoke_device_recipients, read_file. rewrite Hcont.
  destruct (File.validate f) as [[]|] eqn:Hval; [|done]. cbn [mbind result_bind]. apply validate_iff in Hval as Hv.
  set (ch := match hook_targets sel f with [] => false | _ => true end).
  pose proof (hook_file (now e) sel f ch Hv Hnames) as Hfile. cbv zeta in Hfile.
  destruct (block_all _ _ _ _) as [f2 changed] eqn:Hfold. simpl in Hfile. destruct changed.
  - unfold write_file. destruct (File.validate f2) as [[]|] eqn:Hv2; [|done].
    destruct (MAX_FILE_BYTES <? write_bytes e); [done|]. destruct (write_answer e); [|done].
    intros [= <- <-]. exists f2. split; [done|]. split; [by apply validate_iff|done].
  - intros [= <- <-]. unfold ch in Hfold. destruct (hook_targets sel f) as [|t0 ts] eqn:Ht.
    + apply block_all_unchanged in Hfold. simpl in Hfold. subst f2. by exists f.
    + pose proof (block_all_changed REVOKED_BY_TUI (now e) (named sel ++ (t0 :: ts).*2)
        (revoke_all (now e) (t0 :: ts).*1 f)) as Hc. by rewrite Hfold in Hc.
Qed.

(** revoking devices from another process (the TUI): when the hook
    succeeds on an existing registry file, the file it leaves is well formed,
    every device it names is on the block list and no selected device has an
    active recipient; recipients of other devices are untouched. *)
Theorem revocation_hook_locks_out e sel dk dk' n f :
  content dk = Some (Ok f) → Forall (λ d, d ≠ "") (named sel) →
  revoke_device_recipients e sel dk = (dk', Ok n) →
  ∃ f', content dk' = Some (Ok f') ∧ valid f' ∧ keeps f f' ∧
    (∀ d, d ∈ named sel → File.is_blocked f' d = true) ∧
    (∀ x d, x ∈ recipients f' → is_active x = true → device_id x = Some d → selected sel d = false) ∧
    (∀ x, x ∈ recipients f → (∀ d, device_id x = Some d → selected sel d = false) → x ∈ recipients f').
Proof. apply hook_spec. Qed.
End valid.

(** ** A concrete registry: a key is its own text and id *)
Module Example.
Import Registry.

#[export] Instance keys : RecipientKeys :=
  {| PublicKey := string; from_base64url := Ok; key_rid k := k; key_text k := k |}.
#[export] Instance keys_laws : RecipientKeysLaws.
Proof. by split. Qed.

Definition env : Env :=
  {| now := 7; devices := Some (λ d, Ok (String.eqb d "phone")); write_answer := Ok tt; write_bytes := 100;
     write_stamp := Some 2; fresh_uuid := "u1" |}.
Definition record_of (k d : string) : RecipientRecord :=
  {| rid := k; kind := Device; device_id := Some d; public_key := k; added_at := 1; revoked_at := None |}.
(** Two active devices, of which only [phone] is still paired. *)
Definition start_file : RecipientsFile :=
  {| version := 1; epoch := 2; recipients := [record_of "k1" "phone"; record_of "k2" "tablet"];
     grants := [{| grant_id := "g"; g_rid := "k2"; g_device_id := "tablet"; requested_at := 3;
                   status := Pending; updated_at := None |}];
     revoked_devices := [{| rv_device_id := "old"; rv_revoked_at := 1; revoked_by := "tui" |}] |}.
Definition world : World :=
  {| inner := {| file := start_file; stamp := Some 1; external := [] |};
     disk := {| content := Some (Ok start_file); disk_stamp := Some 1 |} |}.

Lemma start_valid : valid start_file.
Proof. by apply validate_iff. Qed.

Definition register_k3 : Command := @RegisterDevice keys "phone" "k3".


Definition after_register : World := (apply env (exec env register_k3) world).1.
Lemma epoch_tracks_recipients_witness : epoch start_file < epoch (file (inner after_register)).
Proof.
  refine (proj1 (proj2 (epoch_tracks_recipients env register_k3 world after_register
    {| value := tt; written := Some 5 |} ltac:(done) start_valid eq_refl)) _).
  by vm_compute.
Defined.

Definition after_wrap : World := (apply env active_recipients_op world).1.
Lemma active_recipients_in_good_standing_witness :
  3 = epoch (file (inner after_wrap)) ∧
  ∀ r d, r ∈ filter (λ r, is_active r = true) (recipients (file (inner after_wrap))) →
    device_id r = Some d →
    File.is_blocked (file (inner after_wrap)) d = false ∧
    ∀ paired, devices env = Some paired → paired d = Ok true.
Proof.
  pose proof (active_recipients_in_good_standing env world after_wrap
    {| value := (3, (["k1"] : list PublicKey)); written := Some 3 |} start_valid eq_refl) as (He & _ & Hr).
  split; [exact He|exact Hr].
Defined.

Lemma blocked_devices_stay_locked_out_witness :
  (apply env (register_device_op env "old" "k9") world).2 = Err HistoryAccessRevoked.
Proof.
  destruct (blocked_devices_stay_locked_out env world "old" start_valid eq_refl) as [_ Hb].
  destruct (reconcile_devices env start_file) as [f1 [bl|]] eqn:Hrec; [|by vm_compute in Hrec].
  exact (proj1 (Hb f1 bl eq_refl Hrec) "k9").
Defined.

Lemma revocation_hook_locks_out_witness :
  ∃ f', content (revoke_device_recipients env (One "phone") (disk world)).1 = Some (Ok f') ∧ valid f' ∧
    File.is_blocked f' "phone" = true.
Proof.
  destruct (revocation_hook_locks_out env (One "phone") (disk world)
    (revoke_device_recipients env (One "phone") (disk world)).1 1 start_file eq_refl
    ltac:(by repeat constructor) eq_refl) as (f' & Hc & Hv & _ & Hb & _).
  exists f'. split_and!; [done|done|]. apply Hb. by left.
Defined.
End Example.
