(* ===== verification/Keyring.v ===== *)
(** * Keyrings

    Model of src/src/history_keys/keyring.rs: the per-conversation
    [keyring.json], every segment key id with its key wrapped for each
    recipient. A keyring is its parsed content (or the error reading it gives);
    what the disk answers to a write is an argument. Ids are text; UUID and
    base64 parsing are the class [HistoryIds]. *)
From S2P Require Import Prelude.
From Stdlib Require Import Ascii.
Local Open Scope N_scope.

Definition KEYRING_VERSION : N := 1.
Definition KEYRING_MAX_FILE_BYTES : N := 64 * 1024 * 1024.
Definition MAX_WRAPS_PER_KEY : N := 256.
Definition MAX_BATCH : N := 500.

(** A wrap as it is stored ([WrappedKeyJson]): three base64url texts. *)
Record WrappedKey : Type := { w_rid : string; w_kem_ct : string; w_wrapped : string }.
#[export] Instance WrappedKey_eq_dec : EqDecision WrappedKey.
Proof. solve_decision. Defined.

Record KeyEntry : Type := { kid : string; created_at : Z; k_epoch : N; wraps : list WrappedKey }.
#[export] Instance KeyEntry_eq_dec : EqDecision KeyEntry.
Proof. solve_decision. Defined.

Record KeyringFile : Type := { kr_version : N; keys : list KeyEntry }.
Definition KeyringFile_new : KeyringFile := {| kr_version := KEYRING_VERSION; keys := [] |}.

Class HistoryIds := {
  conversation_id_ok : string → bool;      (* [validate_conversation_id(..).is_ok()] *)
  kid_ok : string → bool;                  (* [decode_id::<KID_LEN>(..).is_ok()] *)
  encode_text : string → string;           (* base64url *)
  decode_text : string → option string;    (* base64url, then UTF-8 *)
}.
Fixpoint no_slash (s : string) : bool :=
  match s with
  | EmptyString => true
  | String c s => negb (Ascii.eqb c "/") && no_slash s
  end.
(** UUIDs contain no slash, and base64 decodes what it encoded. *)
Class HistoryIdsLaws `{HistoryIds} : Prop := {
  decode_encode s : decode_text (encode_text s) = Some s;
  id_no_slash id : conversation_id_ok id = true → no_slash id = true;
}.

(** What the disk answers to one write. *)
Record WriteEnv : Type := { dir_exists : bool; file_bytes : N; write_ok : result AppError unit }.

(** Keyrings by conversation id: absent, unreadable or parsed. *)
Abbreviation Keyrings := (gmap string (result AppError KeyringFile)).

Section keyring.
Context `{HistoryIds}.

Definition invalid (message : string) : AppError := InvalidRequest message.

(** The kid loop of [read_keyring]: valid ids, each once. *)
Fixpoint kids_ok (seen : list string) (l : list KeyEntry) : bool :=
  match l with
  | [] => true
  | k :: l => kid_ok (kid k) && negb (one_of seen (kid k)) && kids_ok (kid k :: seen) l
  end.

Definition read_keyring (s : Keyrings) (id : string) : result AppError (option KeyringFile) :=
  match s !! id with
  | None => Ok None
  | Some (Err e) => Err e
  | Some (Ok f) =>
      if negb (kr_version f =? KEYRING_VERSION) || negb (kids_ok [] (keys f))
      then Err (invalid "unsupported history keyring file") else Ok (Some f)
  end.

Definition write_keyring (e : WriteEnv) (id : string) (f : KeyringFile) : M Keyrings AppError unit := λ s,
  if negb (dir_exists e) then (s, Err (NotFound ("conversation " +:+ id)))
  else if KEYRING_MAX_FILE_BYTES <? file_bytes e then (s, Err (ResourceExhausted "history keyring is full"))
  else match write_ok e with
       | Err err => (s, Err err)
       | Ok _ => (<[id := Ok f]> s, Ok tt)
       end.

(** [iter().all(|wrap| rids.insert(wrap.rid))]. *)
Fixpoint distinct_rids (seen : list string) (l : list WrappedKey) : bool :=
  match l with
  | [] => true
  | w :: l => negb (one_of seen (w_rid w)) && distinct_rids (w_rid w :: seen) l
  end.

Definition path (id : string) : result AppError unit :=
  guard_err (conversation_id_ok id) (invalid "conversation id must be a UUID v4").

(** [add_key_at] on the keyring of [id]. *)
Definition add_key_at (e : WriteEnv) (id : string) (entry : KeyEntry) : M Keyrings AppError unit := λ s,
  if negb (kid_ok (kid entry)) then (s, Err (invalid "invalid history key id"))
  else if (MAX_WRAPS_PER_KEY <? N.of_nat (length (wraps entry))) || negb (distinct_rids [] (wraps entry))
  then (s, Err (invalid "history key wraps must name distinct recipients"))
  else
    match read_keyring s id with
    | Err err => (s, Err err)
    | Ok o =>
        let f := default KeyringFile_new o in
        if existsb (λ key, String.eqb (kid key) (kid entry)) (keys f)
        then (s, Err (Conflict ("history key " +:+ kid entry +:+ " already exists")))
        else write_keyring e id {| kr_version := kr_version f; keys := keys f ++ [entry] |} s
    end.

Definition add_key (e : WriteEnv) (id : string) (entry : KeyEntry) : M Keyrings AppError unit :=
  _ ← lift_result (path id); add_key_at e id entry.

(** One pass of the append loop over a key list; [None] never occurs once the
    kids were checked. *)
Fixpoint append_wrap (k : string) (w : WrappedKey) (l : list KeyEntry) :
    result AppError (list KeyEntry * N) :=
  match l with
  | [] => Err (Anyhow "kids were checked above")
  | key :: l =>
      if String.eqb (kid key) k then
        if existsb (λ existing, String.eqb (w_rid existing) (w_rid w)) (wraps key) then Ok (key :: l, 0)
        else if MAX_WRAPS_PER_KEY <=? N.of_nat (length (wraps key))
        then Err (ResourceExhausted ("history key " +:+ k +:+ " has too many recipients"))
        else Ok ({| kid := kid key; created_at := created_at key; k_epoch := k_epoch key;
                    wraps := wraps key ++ [w] |} :: l, 1)
      else
        '(l, n) ← append_wrap k w l; Ok (key :: l, n)
  end.

Definition append_loop (ws : list (string * WrappedKey)) (l : list KeyEntry) :
    result AppError (list KeyEntry * N) :=
  fold_result (λ '(l, added) '(k, w), '(l, n) ← append_wrap k w l; Ok (l, added + n)) (l, 0) ws.

(** The blocking part of [append_wraps], under the conversation's lock. *)
Definition append_body (e : WriteEnv) (id : string) (ws : list (string * WrappedKey)) :
    M Keyrings AppError N := λ s,
  match read_keyring s id with
  | Err err => (s, Err err)
  | Ok o =>
      let f := default KeyringFile_new o in
      match find (λ '(k, _), negb (existsb (λ key, String.eqb (kid key) k) (keys f))) ws with
      | Some (k, _) => (s, Err (NotFound ("history key " +:+ k)))
      | None =>
          match append_loop ws (keys f) with
          | Err err => (s, Err err)
          | Ok (l, added) =>
              if 0 <? added then
                match write_keyring e id {| kr_version := kr_version f; keys := l |} s with
                | (s, Err err) => (s, Err err)
                | (s, Ok _) => (s, Ok added)
                end
              else (s, Ok added)
          end
      end
  end.

Definition append_wraps (e : WriteEnv) (id target : string) (ws : list (string * WrappedKey)) :
    M Keyrings AppError N := λ s,
  if existsb (λ '(_, w), negb (String.eqb (w_rid w) target)) ws
  then (s, Err (invalid "every wrapped key must be for the target recipient"))
  else
    match path id with
    | Err err => (s, Err err)
    | Ok _ => append_body e id ws s
    end.

Definition get_keys (s : Keyrings) (id : string) : result AppError (list KeyEntry) :=
  _ ← path id; o ← read_keyring s id; Ok (match o with Some f => keys f | None => [] end).

Definition wrap_of (rid : string) (key : KeyEntry) : option (string * WrappedKey) :=
  pair (kid key) <$> find (λ w, String.eqb (w_rid w) rid) (wraps key).
(** Collected into a [BTreeMap]: a later entry of one kid would win. *)
Definition wraps_for (s : Keyrings) (id : string) (kids : list string) (rid : string) :
    result AppError (gmap string WrappedKey) :=
  match get_keys s id with
  | Err err => Err err
  | Ok l => Ok (list_to_map (rev (omap (wrap_of rid) (filter (λ key, one_of kids (kid key) = true) l))))
  end.

Definition copy_into (e : WriteEnv) (id target : string) : M Keyrings AppError bool := λ s,
  match path id with
  | Err err => (s, Err err)
  | Ok _ =>
      match read_keyring s id with
      | Err err => (s, Err err)
      | Ok (Some f) =>
          match keys f with
          | [] => (s, Ok false)
          | _ :: _ => match write_keyring e target f s with
                      | (s, Err err) => (s, Err err)
                      | (s, Ok _) => (s, Ok true)
                      end
          end
      | Ok None => (s, Ok false)
      end
  end.

(** ** Paging *)
Definition encode_cursor (id k : string) : string := encode_text (id +:+ String "/" k).

(** [text.split_once('/')]. *)
Fixpoint split_slash (s : string) : option (string * string) :=
  match s with
  | EmptyString => None
  | String c s =>
      if Ascii.eqb c "/" then Some ("", s)
      else match split_slash s with Some (x, y) => Some (String c x, y) | None => None end
  end.

Definition decode_cursor (cursor : string) : result AppError (string * string) :=
  let bad := invalid "invalid history keys cursor" in
  text ← ok_or (decode_text cursor) bad;
  '(id, k) ← ok_or (split_slash text) bad;
  _ ← guard_err (conversation_id_ok id) bad;
  _ ← guard_err (kid_ok k) bad;
  Ok (id, k).

Record KeyPage : Type := { items : list (string * string); next_cursor : option string }.

(** [keys[start..]] after the cursor's kid: past its position, or nothing when
    it vanished. *)
Fixpoint after_kid (k : string) (l : list KeyEntry) : list KeyEntry :=
  match l with
  | [] => []
  | key :: l => if String.eqb (kid key) k then l else after_kid k l
  end.

(** The inner loop: [Err] is the early return with a full page. *)
Fixpoint page_keys (limit : N) (id : string) (l : list KeyEntry) (acc : list (string * string)) :
    list (string * string) + KeyPage :=
  match l with
  | [] => inl acc
  | key :: l =>
      if N.of_nat (length acc) =? limit
      then inr {| items := acc;
                  next_cursor := match last acc with
                                 | Some (id, k) => Some (encode_cursor id k)
                                 | None => None
                                 end |}
      else page_keys limit id l (acc ++ [(id, kid key)])
  end.

Fixpoint page_ids (s : Keyrings) (limit : N) (after : option (string * string)) (ids : list string)
    (acc : list (string * string)) : result AppError KeyPage :=
  match ids with
  | [] => Ok {| items := acc; next_cursor := None |}
  | id :: ids =>
      let here :=
        match after with
        | Some (after_id, k) =>
            if String.ltb id after_id then None
            else if String.eqb id after_id then Some (Some k) else Some None
        | None => Some None
        end in
      match here with
      | None => page_ids s limit after ids acc
      | Some skip_through =>
          l ← get_keys s id;
          let l := match skip_through with Some k => after_kid k l | None => l end in
          match page_keys limit id l acc with
          | inr page => Ok page
          | inl acc => page_ids s limit after ids acc
          end
      end
  end.

(** [ids.sort(); ids.dedup()]. *)
Definition sorted_ids (ids : list string) : list string := merge_sort String.le (remove_dups ids).

Definition page (s : Keyrings) (conversation_ids : list string) (cursor : option string) (limit : N) :
    result AppError KeyPage :=
  if (limit =? 0) || (MAX_BATCH <? limit) then Err (invalid "limit must be between 1 and 500")
  else
    match match cursor with Some c => fmap Some (decode_cursor c) | None => Ok None end with
    | Err err => Err err
    | Ok after => page_ids s limit after (sorted_ids conversation_ids) []
    end.
End keyring.

(** ** Keys are only ever added *)

(** The same key, with wraps only appended. *)
Definition key_le (k k' : KeyEntry) : Prop :=
  kid k' = kid k ∧ created_at k' = created_at k ∧ k_epoch k' = k_epoch k ∧ wraps k `prefix_of` wraps k'.
Definition keys_le (l l' : list KeyEntry) : Prop :=
  ∃ l1 extra, l' = l1 ++ extra ∧ Forall2 key_le l l1.

#[export] Instance key_le_refl : Reflexive key_le.
Proof. intros k. by split_and!. Qed.
#[export] Instance key_le_trans : Transitive key_le.
Proof.
  intros k1 k2 k3 (? & ? & ? & ?) (? & ? & ? & ?). split_and!; try congruence. by etrans.
Qed.

Section append_only.
Context `{HistoryIds}.
Implicit Types (l : list KeyEntry) (s : Keyrings).

Lemma kids_ok_iff seen l :
  kids_ok seen l = true ↔
  Forall (λ k, kid_ok (kid k) = true) l ∧ NoDup (kid <$> l) ∧ ∀ x, x ∈ kid <$> l → x ∉ seen.
Proof.
  revert seen. induction l as [|k l IH]; intros seen; simpl.
  - split; [intros _; split_and!; [constructor..|]|done]. intros x Hx. by apply not_elem_of_nil in Hx.
  - assert (Hone : one_of seen (kid k) = false ↔ kid k ∉ seen).
    { rewrite <-one_of_spec. by destruct (one_of seen (kid k)). }
    rewrite !andb_true_iff, negb_true_iff, Hone, IH, Forall_cons, NoDup_cons. split.
    + intros ([Hk Hs] & Hall & Hnd & Hdis). split_and!; try done.
      * intros Hin. by apply (Hdis _ Hin); left.
      * intros x [->|Hx]%elem_of_cons; [done|]. intros Hin. by apply (Hdis _ Hx); right.
    + intros ([Hk Hall] & [Hnin Hnd] & Hdis). split_and!; try done.
      * apply Hdis. by left.
      * intros x Hx [->|Hin]%elem_of_cons; [done|]. by apply (Hdis x); [right|].
Qed.

Lemma kids_ok_same l l' : kid <$> l' = kid <$> l → kids_ok [] l = true → kids_ok [] l' = true.
Proof.
  intros Heq. rewrite !kids_ok_iff, Heq. intros (Hall & Hnd & Hdis). split_and!; try done.
  apply Forall_fmap with (P := λ x, kid_ok x = true). rewrite Heq. by apply Forall_fmap.
Qed.

Lemma append_wrap_le k w l l' n :
  append_wrap k w l = Ok (l', n) → Forall2 key_le l l' ∧ kid <$> l' = kid <$> l.
Proof.
  revert l' n. induction l as [|key l IH]; intros l' n; simpl; [done|].
  assert (Hrefl : Forall2 key_le l l) by (clear; induction l; by constructor).
  destruct (String.eqb (kid key) k).
  - destruct (existsb _ _); [intros [= <- <-]; split; [by constructor|done]|].
    destruct (_ <=? _); [done|]. intros [= <- <-]. split; [|done]. constructor; [|done].
    split_and!; try done. by eexists.
  - destruct (append_wrap k w l) as [[l1 n1]|] eqn:E; simpl; [|done]. intros [= <- <-].
    destruct (IH _ _ eq_refl) as [IH1 IH2]. split; [by constructor|]. simpl. by f_equal.
Qed.

Lemma append_loop_le ws l l' n :
  append_loop ws l = Ok (l', n) → Forall2 key_le l l' ∧ kid <$> l' = kid <$> l.
Proof.
  unfold append_loop. generalize 0 as n0. revert l.
  induction ws as [|[k w] ws IH]; intros l n0; simpl.
  - intros [= <- <-]. split; [|done]. clear. induction l; by constructor.
  - destruct (append_wrap k w l) as [[l1 n1]|] eqn:E; simpl; [|done]. intros Hloop.
    apply append_wrap_le in E as [E1 E2]. apply IH in Hloop as [L1 L2]. split; [|congruence].
    by etrans.
Qed.

(** The two ways a keyring is written while its conversation lives. *)
Inductive KeyringOp : Type :=
  | AddKey (id : string) (entry : KeyEntry)
  | AppendWraps (id target : string) (ws : list (string * WrappedKey)).
Definition run_op (e : WriteEnv) (o : KeyringOp) (s : Keyrings) : Keyrings * result AppError N :=
  match o with
  | AddKey id entry => let '(s, r) := add_key e id entry s in (s, (λ _, 1) <$> r)
  | AppendWraps id target ws => append_wraps e id target ws s
  end.

(** One write: the keyring of [id] is replaced by a readable one that extends
    what was read. *)
Definition writes (id : string) (s s' : Keyrings) : Prop :=
  s' = s ∨ ∃ o f', read_keyring s id = Ok o ∧ s' = <[id := Ok f']> s ∧
    kr_version f' = KEYRING_VERSION ∧ kids_ok [] (keys f') = true ∧
    keys_le (match o with Some f => keys f | None => [] end) (keys f').

Lemma write_keyring_cases e id f s s' r :
  write_keyring e id f s = (s', r) → (s' = s ∧ ∃ err, r = Err err) ∨ (s' = <[id := Ok f]> s ∧ r = Ok tt).
Proof.
  unfold write_keyring. destruct (negb _); [intros [= <- <-]; eauto|].
  destruct (_ <? _); [intros [= <- <-]; eauto|].
  destruct (write_ok e) as [[]|]; intros [= <- <-]; eauto.
Qed.

Lemma read_keyring_ok s id o :
  read_keyring s id = Ok o →
  kr_version (default KeyringFile_new o) = KEYRING_VERSION ∧
  kids_ok [] (keys (default KeyringFile_new o)) = true ∧
  keys (default KeyringFile_new o) = match o with Some f => keys f | None => [] end.
Proof.
  unfold read_keyring. destruct (s !! id) as [[f|]|]; [|done|by intros [= <-]].
  destruct (_ || _) eqn:Hb; [done|]. intros [= <-].
  apply orb_false_iff in Hb as [Hv%negb_false_iff Hk%negb_false_iff]. by apply N.eqb_eq in Hv.
Qed.

Lemma kids_ok_snoc l entry :
  kids_ok [] l = true → kid_ok (kid entry) = true → kid entry ∉ kid <$> l → kids_ok [] (l ++ [entry]) = true.
Proof.
  rewrite !kids_ok_iff. intros (Hall & Hnd & _) Hkid Hnew. rewrite fmap_app. split_and!.
  - apply Forall_app. split; [done|]. by constructor.
  - apply NoDup_app. split_and!; [done| |repeat constructor; by apply not_elem_of_nil].
    intros x Hx [->|Hn]%elem_of_cons; [done|by apply not_elem_of_nil in Hn].
  - intros x _. apply not_elem_of_nil.
Qed.

Lemma add_key_at_writes e id entry s s' r :
  add_key_at e id entry s = (s', r) → writes id s s' ∧ (∀ err, r = Err err → s' = s) ∧
    (r = Ok tt → ∃ o, read_keyring s id = Ok o ∧
       let l := match o with Some f => keys f | None => [] end in
       kid entry ∉ kid <$> l ∧
       read_keyring s' id = Ok (Some {| kr_version := KEYRING_VERSION; keys := l ++ [entry] |})).
Proof.
  unfold add_key_at. destruct (kid_ok (kid entry)) eqn:Hkid; simpl; [|intros [= <- <-]; split_and!; [by left|done|done]].
  destruct (_ || _); [intros [= <- <-]; split_and!; [by left|done|done]|].
  destruct (read_keyring s id) as [o|err] eqn:Hread; [|intros [= <- <-]; split_and!; [by left|done|done]].
  destruct (read_keyring_ok _ _ _ Hread) as (Hv & Hk & Hkeys). rewrite Hv, Hkeys in *.
  destruct (existsb _ _) eqn:Hex; [intros [= <- <-]; split_and!; [by left|done|done]|].
  assert (Hnew : kid entry ∉ kid <$> match o with Some f => keys f | None => [] end).
  { intros (k & Heq & Hin)%list_elem_of_fmap. rewrite <-not_true_iff_false, existsb_exists in Hex.
    apply Hex. exists k. rewrite <-list_elem_of_In, String.eqb_eq. by split. }
  pose proof (kids_ok_snoc _ _ Hk Hkid Hnew) as Hsnoc.
  intros Hw. apply write_keyring_cases in Hw as [[-> [err ->]]|[-> ->]].
  { split; [by left|]. by split. }
  split_and!; [|done|].
  - right. eexists o, _. split_and!; [done..|]. simpl.
    exists (match o with Some f => keys f | None => [] end), [entry]. split; [done|].
    clear. induction (match o with Some f => keys f | None => [] end); by constructor.
  - intros _. exists o. split_and!; [done..|]. unfold read_keyring. rewrite lookup_insert_eq. simpl.
    by rewrite Hsnoc.
Qed.

Lemma add_key_inv e id entry s s' r :
  add_key e id entry s = (s', r) →
  add_key_at e id entry s = (s', r) ∨ (s' = s ∧ ∃ err, r = Err err).
Proof.
  unfold add_key, mbind, M_bind, lift_result.
  destruct (path id) as [[]|err]; [by left|]. intros [= <- <-]. right. eauto.
Qed.

Lemma add_key_writes e id entry s s' r :
  add_key e id entry s = (s', r) → writes id s s' ∧ (∀ err, r = Err err → s' = s).
Proof.
  intros [Ha|[-> [err ->]]]%add_key_inv; [|split; [by left|done]].
  by apply add_key_at_writes in Ha as (? & ? & _).
Qed.

Lemma append_body_writes e id ws s s' r :
  append_body e id ws s = (s', r) → writes id s s' ∧ (∀ err, r = Err err → s' = s).
Proof.
  unfold append_body.
  destruct (read_keyring s id) as [o|err] eqn:Hread; [|intros [= <- <-]; split; [by left|done]].
  destruct (read_keyring_ok _ _ _ Hread) as (Hv & Hk & Hkeys). cbv zeta. rewrite Hv, Hkeys in *.
  destruct (find _ ws) as [[k w]|]; [intros [= <- <-]; split; [by left|done]|].
  destruct (append_loop ws _) as [[l added]|] eqn:Hloop; [|intros [= <- <-]; split; [by left|done]].
  destruct (0 <? added); [|intros [= <- <-]; split; [by left|done]].
  apply append_loop_le in Hloop as [Hle Hkids].
  destruct (write_keyring e id _ s) as [s1 r1] eqn:Hw.
  apply write_keyring_cases in Hw as [[-> [err ->]]|[-> ->]]; intros [= <- <-]; split; try done; [by left|].
  right. eexists o, _. split_and!; [done..| |]; simpl.
  - by eapply kids_ok_same.
  - exists l, []. by rewrite app_nil_r.
Qed.

Lemma append_wraps_writes e id target ws s s' r :
  append_wraps e id target ws s = (s', r) → writes id s s' ∧ (∀ err, r = Err err → s' = s).
Proof.
  unfold append_wraps. destruct (existsb _ ws); [intros [= <- <-]; split; [by left|done]|].
  destruct (path id); [apply append_body_writes|intros [= <- <-]; split; [by left|done]].
Qed.

Lemma keys_le_refl l : keys_le l l.
Proof. exists l, []. rewrite app_nil_r. split; [done|]. induction l; by constructor. Qed.

(** What one write leaves of the readable keyrings. *)
Lemma writes_keep id0 s s' :
  writes id0 s s' → ∀ id f, read_keyring s id = Ok (Some f) →
    ∃ f', read_keyring s' id = Ok (Some f') ∧ keys_le (keys f) (keys f').
Proof.
  intros [->|(o' & f' & Hread & -> & Hv & Hk & Hle)] id f Hf.
  - exists f. split; [done|]. apply keys_le_refl.
  - unfold read_keyring. destruct (decide (id = id0)) as [->|Hne].
    + rewrite lookup_insert_eq, Hv, Hk. simpl. exists f'. split; [done|].
      rewrite Hread in Hf. by injection Hf as ->.
    + rewrite lookup_insert_ne by done. exists f. split; [done|]. apply keys_le_refl.
Qed.

(** keyrings are append-only: whatever a write answers, every key of every
    readable keyring is still there afterwards, in place, with its epoch and
    creation time and with all its wraps (new ones only appended), and the
    keyring stays readable; a write that fails changes nothing. *)
Theorem keyring_append_only e o s s' r :
  run_op e o s = (s', r) →
  (∀ err, r = Err err → s' = s) ∧
  ∀ id f, read_keyring s id = Ok (Some f) →
    ∃ f', read_keyring s' id = Ok (Some f') ∧ keys_le (keys f) (keys f').
Proof.
  intros Hrun.
  assert (Hw : (∃ id, writes id s s') ∧ (∀ err, r = Err err → s' = s)).
  { destruct o as [id entry|id target ws]; simpl in Hrun.
    - destruct (add_key e id entry s) as [s1 r1] eqn:Ha. injection Hrun as <- <-.
      apply add_key_writes in Ha as [? Herr]. split; [by exists id|].
      intros err. destruct r1 as [|err1]; [done|]. intros _. by apply (Herr err1).
    - apply append_wraps_writes in Hrun as [? ?]. split; [by exists id|done]. }
  destruct Hw as [[id Hw] Herr]. split; [done|]. by apply (writes_keep id).
Qed.

(** ** Granting access *)

(** The first key named [k] has a wrap for [r]. *)
Definition has_wrap (k r : string) l : bool :=
  match find (λ key, String.eqb (kid key) k) l with
  | Some key => existsb (λ w, String.eqb (w_rid w) r) (wraps key)
  | None => false
  end.

Lemma append_wrap_has k w l l' n :
  append_wrap k w l = Ok (l', n) →
  has_wrap k (w_rid w) l' = true ∧ (∀ k2 r2, has_wrap k2 r2 l = true → has_wrap k2 r2 l' = true).
Proof.
  unfold has_wrap. revert l' n. induction l as [|key l IH]; intros l' n; simpl; [done|].
  destruct (String.eqb (kid key) k) eqn:Ek.
  - destruct (existsb _ _) eqn:Hex.
    { intros [= <- <-]. simpl. rewrite Ek. by split. }
    destruct (_ <=? _); [done|]. intros [= <- <-]. simpl. rewrite Ek. split.
    { cbn [wraps]. rewrite existsb_app. simpl. by rewrite String.eqb_refl, orb_true_r. }
    intros k2 r2. destruct (String.eqb (kid key) k2); [|done]. cbn [wraps]. rewrite existsb_app.
    by intros ->.
  - destruct (append_wrap k w l) as [[l1 n1]|] eqn:E; simpl; [|done]. intros [= <- <-].
    destruct (IH _ _ eq_refl) as [IH1 IH2]. simpl. rewrite Ek. split; [done|]. intros k2 r2.
    by destruct (String.eqb (kid key) k2); [|apply IH2].
Qed.

Lemma append_wrap_skip k w l : has_wrap k (w_rid w) l = true → append_wrap k w l = Ok (l, 0).
Proof.
  unfold has_wrap. induction l as [|key l IH]; simpl; [done|].
  destruct (String.eqb (kid key) k); [by intros ->|]. intros Hh. by rewrite (IH Hh).
Qed.

Lemma append_loop_has ws l l' n :
  append_loop ws l = Ok (l', n) →
  (∀ k w, (k, w) ∈ ws → has_wrap k (w_rid w) l' = true) ∧
  (∀ k r, has_wrap k r l = true → has_wrap k r l' = true).
Proof.
  unfold append_loop. generalize 0 as n0. revert l.
  induction ws as [|[k w] ws IH]; intros l n0; simpl.
  - intros [= <- <-]. split; [|done]. intros k w Hin. by apply not_elem_of_nil in Hin.
  - destruct (append_wrap k w l) as [[l1 n1]|] eqn:E; simpl; [|done]. intros Hloop.
    apply append_wrap_has in E as [E1 E2]. apply IH in Hloop as [L1 L2]. split; [|auto].
    intros k2 w2 [[= -> ->]|Hin]%elem_of_cons; [by apply L2|by apply L1].
Qed.

Lemma append_loop_skip ws l :
  (∀ k w, (k, w) ∈ ws → has_wrap k (w_rid w) l = true) → append_loop ws l = Ok (l, 0).
Proof.
  unfold append_loop. induction ws as [|[k w] ws IH]; intros Hall; simpl; [done|].
  rewrite (append_wrap_skip k w l) by (apply Hall; by left). simpl. apply IH.
  intros k2 w2 Hin. apply Hall. by right.
Qed.

Lemma append_wrap_zero k w l l' : append_wrap k w l = Ok (l', 0) → l' = l.
Proof.
  revert l'. induction l as [|key l IH]; intros l'; simpl; [done|].
  destruct (String.eqb (kid key) k).
  - destruct (existsb _ _); [by intros [= <-]|]. by destruct (_ <=? _).
  - destruct (append_wrap k w l) as [[l1 n1]|] eqn:E; simpl; [|done]. intros [= <- ->].
    by rewrite (IH _ eq_refl).
Qed.

Lemma append_loop_zero ws l l' : append_loop ws l = Ok (l', 0) → l' = l.
Proof.
  unfold append_loop.
  assert (Hgen : ∀ ws l n0 l' n, fold_result (λ '(l, added) '(k, w), '(l, n) ← append_wrap k w l; Ok (l, added + n))
    (l, n0) ws = Ok (l', n) → n0 ≤ n ∧ (n = n0 → l' = l)).
  { clear. induction ws as [|[k w] ws IH]; intros l n0 l' n; simpl; [by intros [= <- <-]|].
    destruct (append_wrap k w l) as [[l1 n1]|] eqn:E; simpl; [|done]. intros Hl.
    apply IH in Hl as [Hle Heq]. split; [lia|]. intros ->. assert (n1 = 0) as -> by lia.
    apply append_wrap_zero in E as ->. apply Heq. lia. }
  intros Hl. apply Hgen in Hl as [_ Hl]. by apply Hl.
Qed.

(** Every key the batch names has a wrap: nothing is left to append. *)
Lemma append_body_again e id ws s f :
  read_keyring s id = Ok (Some f) → (∀ k w, (k, w) ∈ ws → has_wrap k (w_rid w) (keys f) = true) →
  append_body e id ws s = (s, Ok 0).
Proof.
  intros Hread Hall. unfold append_body. rewrite Hread. simpl. rewrite append_loop_skip by done.
  destruct (find _ ws) as [[k w]|] eqn:Hf; [|done]. exfalso.
  apply find_some in Hf as [Hin Hno%negb_true_iff]. rewrite <-list_elem_of_In in Hin.
  pose proof (Hall k w Hin) as Hhas. unfold has_wrap in Hhas.
  destruct (find _ (keys f)) as [key|] eqn:Hkey; [|done]. apply find_some in Hkey as [Hkin Hkid].
  rewrite <-not_true_iff_false, existsb_exists in Hno. apply Hno. by exists key.
Qed.

Lemma append_body_Ok e id ws s s' n :
  append_body e id ws s = (s', Ok n) →
  (ws = [] ∧ s' = s) ∨
  ∃ f, read_keyring s' id = Ok (Some f) ∧ ∀ k w, (k, w) ∈ ws → has_wrap k (w_rid w) (keys f) = true.
Proof.
  unfold append_body. destruct (read_keyring s id) as [o|err] eqn:Hread; [|done].
  destruct (read_keyring_ok _ _ _ Hread) as (Hv & Hk & Hkeys). cbv zeta. rewrite Hv.
  destruct (find _ ws) as [[k w]|] eqn:Hfind; [done|].
  destruct (append_loop ws _) as [[l added]|] eqn:Hloop; [|done].
  pose proof (append_loop_has _ _ _ _ Hloop) as [Hall _].
  pose proof (append_loop_le _ _ _ _ Hloop) as [_ Hkids].
  destruct (N.ltb_spec 0 added).
  - destruct (write_keyring e id _ s) as [s1 r1] eqn:Hw.
    apply write_keyring_cases in Hw as [[-> [err ->]]|[-> ->]]; intros [= <- <-].
    right. eexists. unfold read_keyring. rewrite lookup_insert_eq. simpl.
    rewrite (kids_ok_same _ _ Hkids Hk). split; [done|]. done.
  - assert (added = 0) as -> by lia. apply append_loop_zero in Hloop as ->. intros [= <- <-].
    destruct o as [f|]; [right; by exists f|]. destruct ws as [|[k w] ws]; [by left|].
    specialize (Hall k w ltac:(by left)). done.
Qed.

(** a fulfilled grant is complete and can be retried: when [append_wraps]
    succeeds, every key of the batch has a wrap for the target recipient, and
    sending the same batch again succeeds, adds nothing and writes nothing. *)
Theorem append_wraps_complete e id target ws s s' n :
  append_wraps e id target ws s = (s', Ok n) →
  (∀ k w, (k, w) ∈ ws → ∃ f, read_keyring s' id = Ok (Some f) ∧ has_wrap k target (keys f) = true) ∧
  (ws ≠ [] → ∀ e', append_wraps e' id target ws s' = (s', Ok 0)).
Proof.
  unfold append_wraps. destruct (existsb _ ws) eqn:Hrids; [done|].
  assert (Htarget : ∀ k w, (k, w) ∈ ws → w_rid w = target).
  { intros k w Hin. rewrite <-not_true_iff_false, existsb_exists in Hrids.
    destruct (String.eqb_spec (w_rid w) target); [done|]. destruct Hrids. exists (k, w).
    rewrite <-list_elem_of_In. split; [done|]. by apply negb_true_iff, String.eqb_neq. }
  destruct (path id); [|done]. intros [[-> ->]|(f & Hread & Hall)]%append_body_Ok.
  - split; [|done]. intros k w Hin. by apply not_elem_of_nil in Hin.
  - split.
    + intros k w Hin. exists f. split; [done|]. rewrite <-(Htarget k w Hin). by apply Hall.
    + intros _ e'. by eapply append_body_again.
Qed.
End append_only.

(** ** Listing keys page by page *)
Section paging.
Context `{HistoryIds}.
Implicit Types (s : Keyrings) (l : list KeyEntry).

Definition keys_of s (id : string) : list KeyEntry :=
  match get_keys s id with Ok l => l | Err _ => [] end.
Definition pairs (id : string) l : list (string * string) := (λ key, (id, kid key)) <$> l.
(** What a client is after: every key of every conversation, in order. *)
Definition listing s (ids : list string) : list (string * string) :=
  flat_map (λ id, pairs id (keys_of s id)) ids.

(** The client's loop: ask for a page, follow [nextCursor] until there is none. *)
Fixpoint collect (fuel : nat) s (ids : list string) (limit : N) (cursor : option string) :
    result AppError (list (list (string * string))) :=
  match fuel with
  | O => Err (Anyhow "out of fuel")
  | S fuel =>
      p ← page s ids cursor limit;
      match next_cursor p with
      | None => Ok [items p]
      | Some c => rest ← collect fuel s ids limit (Some c); Ok (items p :: rest)
      end
  end.

Definition page_of (limit : nat) (rest : list (string * string)) : KeyPage :=
  {| items := take limit rest;
     next_cursor := if decide (length rest ≤ limit)%nat then None
                    else (λ p : string * string, encode_cursor p.1 p.2) <$> last (take limit rest) |}.

Lemma page_keys_spec limit id l acc :
  (length acc ≤ N.to_nat limit)%nat →
  page_keys limit id l acc =
    if decide (length (acc ++ pairs id l) ≤ N.to_nat limit)%nat then inl (acc ++ pairs id l)
    else inr (page_of (N.to_nat limit) (acc ++ pairs id l)).
Proof.
  revert acc. induction l as [|key l IH]; intros acc Hacc; simpl.
  - unfold pairs. simpl. rewrite app_nil_r. by rewrite decide_True.
  - destruct (N.eqb_spec (N.of_nat (length acc)) limit) as [Heq|Hne].
    + rewrite decide_False by (rewrite length_app; simpl; lia). f_equal. unfold page_of.
      rewrite decide_False by (rewrite length_app; simpl; lia).
      rewrite take_app_length' by lia. f_equal. by destruct (last acc) as [[]|].
    + rewrite IH by (rewrite length_app; simpl; lia). by rewrite <-app_assoc.
Qed.

(** What is left of one conversation after a cursor. *)
Definition rem s (after : option (string * string)) (id : string) : list (string * string) :=
  match after with
  | Some (after_id, k) =>
      if String.ltb id after_id then []
      else pairs id (if String.eqb id after_id then after_kid k (keys_of s id) else keys_of s id)
  | None => pairs id (keys_of s id)
  end.

Lemma page_of_cut (limit : nat) (l1 l2 : list (string * string)) :
  (limit < length l1)%nat → page_of limit (l1 ++ l2) = page_of limit l1.
Proof.
  intros Hl. unfold page_of. rewrite !decide_False by (rewrite ?length_app; lia).
  by rewrite take_app_le by lia.
Qed.

Lemma page_ids_spec s limit after ids acc :
  Forall (λ id, ∃ l, get_keys s id = Ok l) ids → (length acc ≤ N.to_nat limit)%nat →
  page_ids s limit after ids acc = Ok (page_of (N.to_nat limit) (acc ++ flat_map (rem s after) ids)).
Proof.
  intros Hok. revert acc. induction Hok as [|id ids [l Hl] Hok IH]; intros acc Hacc; simpl.
  - unfold page_of. rewrite app_nil_r, take_ge by done. by rewrite decide_True.
  - assert (Hstep : ∀ R l', R = pairs id l' →
      match page_keys limit id l' acc with inr page => Ok page | inl acc => page_ids s limit after ids acc end
      = Ok (page_of (N.to_nat limit) (acc ++ R ++ flat_map (rem s after) ids))).
    { intros R l' ->. rewrite page_keys_spec, app_assoc by done. case_decide as Hd.
      - by rewrite IH.
      - by rewrite (page_of_cut _ (acc ++ pairs id l')) by lia. }
    assert (Hkeys : keys_of s id = l) by (unfold keys_of; by rewrite Hl).
    rewrite Hl. destruct after as [[after_id k]|]; simpl;
      [|apply Hstep; by rewrite Hkeys].
    destruct (String.ltb id after_id) eqn:Elt.
    + by apply IH.
    + destruct (String.eqb id after_id) eqn:Eeq; simpl; apply Hstep; by rewrite Hkeys.
Qed.

(** *** After a cursor: exactly the rest *)

Lemma ltb_irrefl (x : string) : String.ltb x x = false.
Proof.
  unfold String.ltb. pose proof (String.compare_antisym x x) as Hx.
  by destruct (String.compare x x).
Qed.

Lemma le_neq_ltb (x y : string) : String.le x y → x ≠ y → String.ltb x y = true ∧ String.ltb y x = false.
Proof.
  unfold String.le, String.leb, String.ltb. rewrite (String.compare_antisym y x). intros Hle Hne.
  destruct (String.compare x y) eqn:E; simpl; [|done|done]. by apply String.compare_eq_iff in E.
Qed.

Lemma after_kid_split k l1 key l2 : kid key = k → k ∉ kid <$> l1 → after_kid k (l1 ++ key :: l2) = l2.
Proof.
  intros <- Hnin. induction l1 as [|key1 l1 IH]; simpl; [by rewrite String.eqb_refl|].
  rewrite fmap_cons, not_elem_of_cons in Hnin. destruct Hnin as [Hne Hnin].
  rewrite (proj2 (String.eqb_neq _ _)) by congruence. by apply IH.
Qed.

Lemma get_keys_ok s id l :
  get_keys s id = Ok l →
  conversation_id_ok id = true ∧ NoDup (kid <$> l) ∧ Forall (λ k, kid_ok (kid k) = true) l.
Proof.
  unfold get_keys, path. intros Hg. res_inv. split; [done|].
  destruct x0 as [f|]; [|by split; constructor].
  destruct (read_keyring_ok _ _ _ H1) as (_ & Hk & _).
  apply kids_ok_iff in Hk as (Hall & Hnd & _). by split.
Qed.

Lemma elem_of_listing s ids i k :
  (i, k) ∈ listing s ids ↔ i ∈ ids ∧ k ∈ kid <$> keys_of s i.
Proof.
  unfold listing. rewrite list_elem_of_In, in_flat_map. setoid_rewrite <-list_elem_of_In.
  unfold pairs. setoid_rewrite list_elem_of_fmap. split.
  - intros (id & Hid & key & [= -> ->] & Hkey). eauto.
  - intros [Hi (key & -> & Hkey)]. eauto.
Qed.

Lemma rem_later s i k ids :
  Forall (λ id, String.le i id ∧ i ≠ id) ids → flat_map (rem s (Some (i, k))) ids = listing s ids.
Proof.
  unfold listing. induction 1 as [|id ids [Hle Hne] Hids IH]; [done|]. cbn [flat_map]. rewrite IH. f_equal.
  simpl. destruct (le_neq_ltb _ _ Hle Hne) as [_ ->].
  by rewrite (proj2 (String.eqb_neq id i)) by congruence.
Qed.

(** Cutting a concatenation at one element cuts one of the two parts. *)
Lemma app_cut {A} (l1 l2 pre post : list A) x :
  l1 ++ l2 = pre ++ x :: post →
  (∃ r, l1 = pre ++ x :: r ∧ post = r ++ l2) ∨ (∃ p, l2 = p ++ x :: post ∧ pre = l1 ++ p).
Proof.
  revert pre. induction l1 as [|y l1 IH]; intros pre Heq; [right; by exists pre|].
  destruct pre as [|z pre]; injection Heq as <- Heq.
  - left. by exists l1.
  - destruct (IH _ Heq) as [(r & -> & ->)|(p & -> & ->)]; [left; by exists r|right; by exists p].
Qed.

Lemma rem_split s ids i k pre post :
  Forall (λ id, ∃ l, get_keys s id = Ok l) ids → StronglySorted String.le ids → NoDup ids →
  listing s ids = pre ++ (i, k) :: post → flat_map (rem s (Some (i, k))) ids = post.
Proof.
  intros Hok Hsort. revert pre. induction Hsort as [|id ids Hsort IH Hle]; intros pre Hnd Heq.
  { by destruct pre. }
  apply Forall_cons in Hok as [[l Hl] Hok]. apply NoDup_cons in Hnd as [Hnin Hnd].
  assert (Hlt : Forall (λ id', String.le id id' ∧ id ≠ id') ids).
  { apply Forall_forall. intros id' Hid'. split; [by apply (proj1 (Forall_forall _ _) Hle)|].
    by intros ->. }
  unfold listing in Heq. cbn [flat_map] in Heq. apply app_cut in Heq as [(r & Hr & ->)|(p & Hp & ->)].
  - unfold pairs in Hr. apply fmap_app_inv in Hr as (l1 & l2 & -> & Hl2 & Hkeys).
    symmetry in Hl2. apply fmap_cons_inv in Hl2 as (key & l2' & [= -> ->] & -> & ->).
    cbn [flat_map]. rewrite rem_later by done. f_equal. simpl.
    rewrite ltb_irrefl, String.eqb_refl, Hkeys, after_kid_split; [done..|].
    destruct (get_keys_ok _ _ _ Hl) as (_ & Hndk & _). unfold keys_of in Hkeys. rewrite Hl in Hkeys.
    subst l. rewrite fmap_app, fmap_cons in Hndk. apply NoDup_app in Hndk as (_ & Hdis & _).
    intros Hin. apply (Hdis _ Hin). by left.
  - cbn [flat_map]. assert (Hi : i ∈ ids).
    { apply (elem_of_listing s ids i k). unfold listing. rewrite Hp.
      apply elem_of_app. right. by left. }
    destruct (proj1 (Forall_forall _ _) Hlt _ Hi) as [Hlei Hne].
    simpl. destruct (le_neq_ltb _ _ Hlei Hne) as [-> _]. simpl. by eapply IH.
Qed.

(** *** Cursors *)
Context {laws : HistoryIdsLaws}.

Lemma split_slash_append i k : no_slash i = true → split_slash (i +:+ String "/" k) = Some (i, k).
Proof.
  induction i as [|c i IH]; [done|]. cbn [no_slash]. intros [Hc Hi]%andb_true_iff.
  apply negb_true_iff in Hc. change (String c i +:+ String "/" k) with (String c (i +:+ String "/" k)).
  cbn [split_slash]. by rewrite Hc, IH.
Qed.

Lemma decode_encode_cursor i k :
  conversation_id_ok i = true → kid_ok k = true → decode_cursor (encode_cursor i k) = Ok (i, k).
Proof.
  intros Hi Hk. unfold decode_cursor, encode_cursor. rewrite decode_encode. simpl.
  rewrite split_slash_append by by apply id_no_slash. simpl. by rewrite Hi, Hk.
Qed.

Lemma sorted_ids_spec ids :
  StronglySorted String.le (sorted_ids ids) ∧ NoDup (sorted_ids ids) ∧ ∀ id, id ∈ sorted_ids ids ↔ id ∈ ids.
Proof.
  unfold sorted_ids. split_and!.
  - apply StronglySorted_merge_sort; apply _.
  - rewrite merge_sort_Permutation. apply NoDup_remove_dups.
  - intros id. by rewrite merge_sort_Permutation, elem_of_remove_dups.
Qed.

Lemma listing_NoDup s ids :
  Forall (λ id, ∃ l, get_keys s id = Ok l) ids → NoDup ids → NoDup (listing s ids).
Proof.
  induction ids as [|id ids IH]; intros Hok Hnd; [constructor|].
  apply Forall_cons in Hok as [[l Hl] Hok]. apply NoDup_cons in Hnd as [Hnin Hnd].
  unfold listing. cbn [flat_map]. apply NoDup_app. split_and!; [| |by apply IH].
  - unfold pairs, keys_of. rewrite Hl. destruct (get_keys_ok _ _ _ Hl) as (_ & Hndk & _).
    apply (NoDup_fmap_1 snd). by rewrite <-list_fmap_compose.
  - intros [i k] (key & [= -> ->] & _)%list_elem_of_fmap [Hi _]%elem_of_listing. done.
Qed.

(** Where the client is: at the start, or behind the last pair it received. *)
Definition at_cursor (pre : list (string * string)) (cursor : option string) : Prop :=
  match last pre with
  | Some (i, k) => cursor = Some (encode_cursor i k)
  | None => cursor = None
  end.

Section client.
Context (s : Keyrings) (ids : list string) (limit : N).
Hypothesis Hlimit : (0 < limit ≤ MAX_BATCH)%N.
Hypothesis Hok : ∀ id, id ∈ ids → ∃ l, get_keys s id = Ok l.

Lemma sorted_readable : Forall (λ id, ∃ l, get_keys s id = Ok l) (sorted_ids ids).
Proof. apply Forall_forall. intros id Hid. apply Hok. by apply (sorted_ids_spec ids). Qed.

Lemma page_at pre post cursor :
  listing s (sorted_ids ids) = pre ++ post → at_cursor pre cursor →
  page s ids cursor limit = Ok (page_of (N.to_nat limit) post).
Proof.
  intros Heq Hcur. unfold page.
  rewrite (proj2 (N.eqb_neq limit 0)), (proj2 (N.ltb_ge MAX_BATCH limit)) by lia. simpl.
  destruct (sorted_ids_spec ids) as (Hsort & Hnd & Hin). unfold at_cursor in Hcur.
  destruct pre as [|[i k] pre _] using rev_ind.
  { simpl in Hcur. subst cursor. simpl. rewrite page_ids_spec; [|apply sorted_readable|simpl; lia].
    simpl in Heq. by subst post. }
  rewrite last_snoc in Hcur. subst cursor.
  assert (Hik : (i, k) ∈ listing s (sorted_ids ids)).
  { rewrite Heq. apply elem_of_app. left. apply elem_of_app. right. by left. }
  apply elem_of_listing in Hik as [Hi Hk]. destruct (Hok i) as [l Hl]; [by apply Hin|].
  unfold keys_of in Hk. rewrite Hl in Hk. destruct (get_keys_ok _ _ _ Hl) as (Hid & _ & Hkids).
  apply list_elem_of_fmap in Hk as (key & -> & Hkey).
  rewrite decode_encode_cursor; [|done|by apply (proj1 (Forall_forall _ _) Hkids)]. simpl.
  rewrite page_ids_spec; [|apply sorted_readable|simpl; lia]. simpl.
  by rewrite (rem_split s _ i (kid key) pre post sorted_readable Hsort Hnd)
    by (rewrite Heq, <-app_assoc; done).
Qed.

Lemma collect_at fuel pre post cursor :
  listing s (sorted_ids ids) = pre ++ post → at_cursor pre cursor → (length post < fuel)%nat →
  ∃ pages, collect fuel s ids limit cursor = Ok pages ∧ concat pages = post ∧
    Forall (λ p, length p ≤ N.to_nat limit)%nat pages.
Proof.
  revert pre post cursor. induction fuel as [|fuel IH]; intros pre post cursor Heq Hcur Hlen; [lia|].
  simpl. rewrite (page_at pre post) by done. simpl. case_decide as Hd.
  { simpl. exists [take (N.to_nat limit) post]. rewrite take_ge by done. split_and!; [done| |].
    - apply app_nil_r.
    - repeat constructor. lia. }
  assert (Hn : (0 < length (take (N.to_nat limit) post))%nat) by (rewrite length_take; lia).
  assert (Hlast : is_Some (last (take (N.to_nat limit) post))).
  { apply last_is_Some. intros Hz. rewrite Hz in Hn. simpl in Hn. lia. }
  destruct Hlast as [[i k] Hlast]. rewrite Hlast. simpl.
  destruct (IH (pre ++ take (N.to_nat limit) post) (drop (N.to_nat limit) post)
    (Some (encode_cursor i k))) as (pages & -> & Hcat & Hall).
  - rewrite <-app_assoc, take_drop. done.
  - unfold at_cursor. by rewrite last_app, Hlast.
  - rewrite length_drop. lia.
  - simpl. eexists. split_and!; [done| |].
    + simpl. by rewrite Hcat, take_drop.
    + constructor; [|done]. rewrite length_take. lia.
Qed.
End client.

(** C35: paging through the keys terminates and is exact. For any readable set
    of conversations and any allowed page size, following [nextCursor] from the
    first page collects, in at most one request per key plus one, pages no
    longer than the limit whose concatenation is every key of every
    conversation, each exactly once, in conversation order and then key order. *)
Theorem paging_is_complete s ids limit :
  (0 < limit ≤ MAX_BATCH)%N → (∀ id, id ∈ ids → ∃ l, get_keys s id = Ok l) →
  let fuel := S (length (listing s (sorted_ids ids))) in
  ∃ pages, collect fuel s ids limit None = Ok pages ∧
    concat pages = listing s (sorted_ids ids) ∧
    Forall (λ p, length p ≤ N.to_nat limit)%nat pages ∧
    NoDup (concat pages) ∧
    ∀ i k, (i, k) ∈ concat pages ↔ i ∈ ids ∧ k ∈ kid <$> keys_of s i.
Proof.
  intros Hlimit Hok fuel.
  destruct (collect_at s ids limit Hlimit Hok fuel [] (listing s (sorted_ids ids)) None)
    as (pages & Hc & Hcat & Hall); [done..|unfold fuel; lia|].
  exists pages. rewrite Hcat. destruct (sorted_ids_spec ids) as (_ & Hnd & Hin). split_and!; try done.
  - apply listing_NoDup; [by apply sorted_readable|done].
  - intros i k. by rewrite elem_of_listing, Hin.
Qed.
End paging.

(** ** A concrete instance *)
Module Example.
(** Conversation ids ["c1"], ["c2"], ..; kids of any text; cursors in the clear. *)
#[local] Instance toy_ids : HistoryIds := {|
  conversation_id_ok := no_slash; kid_ok := λ _, true;
  encode_text := id; decode_text := λ s, Some s;
|}.
#[local] Instance toy_laws : HistoryIdsLaws.
Proof. by split. Qed.

Definition env : WriteEnv := {| dir_exists := true; file_bytes := 100; write_ok := Ok tt |}.
Definition key (k : string) : KeyEntry :=
  {| kid := k; created_at := 0%Z; k_epoch := 1; wraps := [{| w_rid := "r1"; w_kem_ct := "ct"; w_wrapped := "x" |}] |}.
Definition rings : Keyrings :=
  {[ "c2" := Ok {| kr_version := 1; keys := [key "a"; key "b"; key "c"] |};
     "c1" := Ok {| kr_version := 1; keys := [key "z"; key "y"] |} ]}.
Definition grant : list (string * WrappedKey) :=
  [("b", {| w_rid := "r2"; w_kem_ct := "ct"; w_wrapped := "xb" |}); ("c", {| w_rid := "r2"; w_kem_ct := "ct"; w_wrapped := "xc" |})].

Lemma keyring_append_only_witness :
  ∃ f', read_keyring (run_op env (AppendWraps "c2" "r2" grant) rings).1 "c2" = Ok (Some f') ∧
    keys_le [key "a"; key "b"; key "c"] (keys f').
Proof.
  destruct (run_op env (AppendWraps "c2" "r2" grant) rings) as [s' r] eqn:E.
  apply (proj2 (keyring_append_only env (AppendWraps "c2" "r2" grant) rings s' r E) "c2"
    {| kr_version := 1; keys := [key "a"; key "b"; key "c"] |}).
  vm_compute. reflexivity.
Defined.

Lemma append_wraps_complete_witness :
  ∃ s', append_wraps env "c2" "r2" grant rings = (s', Ok 2) ∧
    append_wraps env "c2" "r2" grant s' = (s', Ok 0).
Proof.
  destruct (append_wraps env "c2" "r2" grant rings) as [s' r] eqn:E.
  assert (Hr : r = Ok 2).
  { change r with (s', r).2. rewrite <-E. vm_compute. reflexivity. }
  exists s'. split; [by rewrite Hr|]. subst r.
  apply (proj2 (append_wraps_complete env "c2" "r2" grant rings s' 2 E)). done.
Defined.

Lemma paging_is_complete_witness :
  collect 6 rings ["c2"; "c1"] 2 None =
    Ok [[("c1", "z"); ("c1", "y")]; [("c2", "a"); ("c2", "b")]; [("c2", "c")]] ∧
  ∃ pages, collect 6 rings ["c2"; "c1"] 2 None = Ok pages ∧ NoDup (concat pages).
Proof.
  split; [vm_compute; reflexivity|].
  destruct (paging_is_complete rings ["c2"; "c1"] 2) as (pages & Hc & _ & _ & Hnd & _).
  - by vm_compute.
  - intros id [->|[->|Hn]%elem_of_cons]%elem_of_cons; [eexists; vm_compute; reflexivity..|].
    by apply not_elem_of_nil in Hn.
  - exists pages. split; [exact Hc|exact Hnd].
Defined.
End Example.
