(* ===== verification/Dek.v ===== *)
(** * In-memory segment keys

    Model of src/src/history_keys/dek.rs: the keys (DEKs) new history is
    sealed under, one active key per conversation, and the retired ones that
    wait for their segment to be repacked. Each operation is atomic (the code
    holds the conversation's lock); the recipient registry is the interface
    [RecipientSource], discharged by the registry of [Recipients]; generating
    and wrapping a key is the class [SegmentKeys]. *)
From S2P Require Import Prelude Recipients Keyring.
Local Open Scope N_scope.

(** [SegmentKey] with [encode_id(&key.kid())], and [history_crypto::wrap]. *)
Class SegmentKeys `{RecipientKeys} := {
  SegmentKey : Type;
  key_kid : SegmentKey → string;
  wrap : SegmentKey → PublicKey → result AppError WrappedKey;
}.
(** A wrap names the recipient it was made for. *)
Class SegmentKeysLaws `{SegmentKeys} : Prop := {
  wrap_rid key pk w : wrap key pk = Ok w → w_rid w = key_rid pk;
}.

(** What the manager calls on the registry, and what the registry may do
    between two calls. *)
Class RecipientSource `{RecipientKeys} (W : Type) := {
  SourceEnv : Type;
  source_recipients : SourceEnv → M W AppError (N * list PublicKey);
  source_step : W → W → Prop;
}.
(** The registry's promise: its answer is its epoch and its active recipients;
    the epoch never falls, and rises whenever the active recipients change. *)
Class RecipientSourceLaws `{RecipientSource} := {
  source_inv : W → Prop;
  source_epoch : W → N;
  source_rids : W → list string;
  source_answers e w w' ep ks : source_inv w → source_recipients e w = (w', Ok (ep, ks)) →
    ep = source_epoch w' ∧ key_rid <$> ks = source_rids w';
  source_call e w w' r : source_inv w → source_recipients e w = (w', r) → source_inv w' ∧
    source_epoch w ≤ source_epoch w' ∧ (source_rids w' = source_rids w ∨ source_epoch w < source_epoch w');
  source_moves w w' : source_inv w → source_step w w' → source_inv w' ∧
    source_epoch w ≤ source_epoch w' ∧ (source_rids w' = source_rids w ∨ source_epoch w < source_epoch w');
}.

(** 24 hours, in nanoseconds. *)
Definition MAX_DEK_AGE : Z := 24 * 60 * 60 * 1000000000.

Section dek.
Context `{HistoryIds} `{SegmentKeys} `{!RecipientSource W}.

Record ActiveKey : Type := {
  a_kid : string;
  a_key : SegmentKey;
  a_epoch : N;
  a_owner_rid : option string;
  a_created_at : Z;
}.

Definition expired (self : ActiveKey) (t : Z) : bool :=
  let age := (t - a_created_at self)%Z in (age <? 0)%Z || (MAX_DEK_AGE <=? age)%Z.

Record ConversationKeys : Type := {
  active_key : option ActiveKey;
  retained : gmap string SegmentKey;
  newest : option string;
}.
Definition ConversationKeys_default : ConversationKeys :=
  {| active_key := None; retained := ∅; newest := None |}.

Definition retire_active (self : ConversationKeys) : ConversationKeys :=
  match active_key self with
  | Some a => {| active_key := None; retained := <[a_kid a := a_key a]> (retained self);
                 newest := newest self |}
  | None => self
  end.

(** The manager with the stores it writes to. *)
Record DekManager : Type := {
  source : W;
  keyrings : Keyrings;
  conversations : gmap string ConversationKeys;
}.
Definition set_source (w : W) (d : DekManager) : DekManager :=
  {| source := w; keyrings := keyrings d; conversations := conversations d |}.
Definition set_keyrings (s : Keyrings) (d : DekManager) : DekManager :=
  {| source := source d; keyrings := s; conversations := conversations d |}.
Definition set_keys (id : string) (k : ConversationKeys) (d : DekManager) : DekManager :=
  {| source := source d; keyrings := keyrings d; conversations := <[id := k]> (conversations d) |}.

(** What one call sees: the registry's surroundings, the owner lookup that is
    installed, the clock, the key the generator yields and the disk. *)
Record CallEnv : Type := {
  c_source : SourceEnv;
  c_owners : option (string → option PublicKey);
  c_now : Z;
  c_fresh : SegmentKey;
  c_disk : WriteEnv;
}.

Definition owner_recipient (e : CallEnv) (owner_id : option string) : option PublicKey :=
  match owner_id, c_owners e with
  | Some owner_id, Some owners => owners owner_id
  | _, _ => None
  end.

(** [slot]: the entry, created when missing. *)
Definition slot (d : DekManager) (id : string) : ConversationKeys :=
  default ConversationKeys_default (conversations d !! id).

Definition no_recipients : AppError := HistoryKeyRequired.

Definition reusable (ep : N) (owner_rid : option string) (t : Z) (a : ActiveKey) : bool :=
  (a_epoch a =? ep) && bool_decide (a_owner_rid a = owner_rid) && negb (expired a t).

Definition current_key_for (e : CallEnv) (id : string) (owner_id : option string) :
    M DekManager AppError (string * SegmentKey) := λ d,
  match path id with
  | Err err => (d, Err err)
  | Ok _ =>
      match source_recipients (c_source e) (source d) with
      | (w, Err err) => (set_source w d, Err err)
      | (w, Ok (ep, ks)) =>
          let d := set_source w d in
          let owner := owner_recipient e owner_id in
          let owner_rid := key_rid <$> owner in
          let k := slot d id in
          match match active_key k with
                | Some a => if reusable ep owner_rid (c_now e) a then Some (a_kid a, a_key a) else None
                | None => None
                end with
          | Some found => (set_keys id k d, Ok found)
          | None =>
              let k := retire_active k in
              let d := set_keys id k d in
              let all := ks ++ option_list owner in
              match all with
              | [] => (d, Err no_recipients)
              | _ :: _ =>
                  match map_result (wrap (c_fresh e)) all with
                  | Err err => (d, Err err)
                  | Ok ws =>
                      let kid := key_kid (c_fresh e) in
                      match add_key (c_disk e) id
                              {| kid := kid; created_at := c_now e; k_epoch := ep; wraps := ws |}
                              (keyrings d) with
                      | (s, Err err) => (set_keyrings s d, Err err)
                      | (s, Ok _) =>
                          (set_keys id
                             {| active_key := Some {| a_kid := kid; a_key := c_fresh e; a_epoch := ep;
                                                      a_owner_rid := owner_rid; a_created_at := c_now e |};
                                retained := retained k; newest := Some kid |} (set_keyrings s d),
                           Ok (kid, c_fresh e))
                      end
                  end
              end
          end
      end
  end.

(** [new_key_at], into the keyring [at_id] (the conversation's own, or its
    draft's). *)
Definition new_key_at (e : CallEnv) (at_id : string) (owner_id : option string) :
    M DekManager AppError (string * SegmentKey) := λ d,
  match source_recipients (c_source e) (source d) with
  | (w, Err err) => (set_source w d, Err err)
  | (w, Ok (ep, ks)) =>
      let d := set_source w d in
      match ks ++ option_list (owner_recipient e owner_id) with
      | [] => (d, Err no_recipients)
      | all =>
          match map_result (wrap (c_fresh e)) all with
          | Err err => (d, Err err)
          | Ok ws =>
              let kid := key_kid (c_fresh e) in
              match add_key_at (c_disk e) at_id
                      {| kid := kid; created_at := c_now e; k_epoch := ep; wraps := ws |}
                      (keyrings d) with
              | (s, Err err) => (set_keyrings s d, Err err)
              | (s, Ok _) => (set_keyrings s d, Ok (kid, c_fresh e))
              end
          end
      end
  end.

Definition fresh_key (e : CallEnv) (id : string) (owner_id : option string) :
    M DekManager AppError (string * SegmentKey) :=
  _ ← lift_result (path id); new_key_at e id owner_id.
Definition draft_key (e : CallEnv) (id directory : string) (owner_id : option string) :
    M DekManager AppError (string * SegmentKey) :=
  _ ← lift_result (path id); new_key_at e directory owner_id.

Definition ensure_recipients (e : CallEnv) (owner_id : option string) : M DekManager AppError unit := λ d,
  match source_recipients (c_source e) (source d) with
  | (w, Err err) => (set_source w d, Err err)
  | (w, Ok (_, ks)) =>
      (set_source w d, match ks ++ option_list (owner_recipient e owner_id) with
                       | [] => Err no_recipients
                       | _ :: _ => Ok tt
                       end)
  end.

Definition fallback_key (d : DekManager) (id : string) : option (string * SegmentKey) :=
  k ← conversations d !! id;
  kid ← newest k;
  match active_key k with
  | Some a => if String.eqb (a_kid a) kid then Some (kid, a_key a) else pair kid <$> retained k !! kid
  | None => pair kid <$> retained k !! kid
  end.

Definition in_memory (k : ConversationKeys) : gmap string SegmentKey :=
  match active_key k with
  | Some a => <[a_kid a := a_key a]> (retained k)
  | None => retained k
  end.
Definition keys_snapshot (d : DekManager) (id : string) : gmap string SegmentKey :=
  match conversations d !! id with Some k => in_memory k | None => ∅ end.

Definition active_key_expired (d : DekManager) (id : string) (t : Z) : bool :=
  match conversations d !! id with
  | Some k => match active_key k with Some a => expired a t | None => false end
  | None => false
  end.

(** [if let Some(slot) = self.existing_slot(id) { .. }]. *)
Definition with_slot (id : string) (f : ConversationKeys → ConversationKeys) (d : DekManager) : DekManager :=
  match conversations d !! id with Some k => set_keys id (f k) d | None => d end.

Definition rotate (id : string) : DekManager → DekManager := with_slot id retire_active.

Definition abandon (id : string) : DekManager → DekManager :=
  with_slot id (λ k, let k := retire_active k in
    {| active_key := active_key k; retained := retained k; newest := None |}).

Definition release_keys (kids : list string) (k : ConversationKeys) : ConversationKeys :=
  {| active_key := match active_key k with
                   | Some a => if one_of kids (a_kid a) then None else Some a
                   | None => None
                   end;
     retained := filter (λ p, one_of kids p.1 = false) (retained k);
     newest := match newest k with
               | Some kid => if one_of kids kid then None else Some kid
               | None => None
               end |}.

Definition is_empty (k : ConversationKeys) : bool :=
  bool_decide (active_key k = None) && bool_decide (retained k = ∅).

Definition release_sealed (id : string) (kids : list string) (d : DekManager) : DekManager :=
  match conversations d !! id with
  | None => d
  | Some k =>
      let k := release_keys kids k in
      if is_empty k
      then {| source := source d; keyrings := keyrings d; conversations := delete id (conversations d) |}
      else set_keys id k d
  end.

Definition forget_conversation (id : string) (d : DekManager) : DekManager :=
  {| source := source d; keyrings := keyrings d; conversations := delete id (conversations d) |}.
End dek.
Arguments DekManager {_ _} W.
Arguments CallEnv {_ _} W {_}.

(** ** The manager's invariant *)
Section invariant.
Context `{HistoryIds} `{SegmentKeys} `{!RecipientSource W}.
Implicit Types (d : DekManager W) (k : ConversationKeys) (a : ActiveKey).

(** Everything that happens around the manager while the daemon runs: its own
    operations, grants appending wraps, and the registry moving on. *)
Inductive step d : DekManager W → Prop :=
  | st_current e id o d' r : current_key_for e id o d = (d', r) → step d d'
  | st_new_key e at_id o d' r : new_key_at e at_id o d = (d', r) → step d d'
  | st_ensure e o d' r : ensure_recipients e o d = (d', r) → step d d'
  | st_rotate id : step d (rotate id d)
  | st_abandon id : step d (abandon id d)
  | st_release id kids : step d (release_sealed id kids d)
  | st_forget id : step d (forget_conversation id d)
  | st_grant e id target ws s' r : append_wraps e id target ws (keyrings d) = (s', r) → step d (set_keyrings s' d)
  | st_registry w' : source_step (source d) w' → step d (set_source w' d).

(** The keys recorded in a conversation's keyring. *)
Definition entry_of (s : Keyrings) (id : string) (entry : KeyEntry) : Prop :=
  ∃ f, read_keyring s id = Ok (Some f) ∧ entry ∈ keys f.
Definition recorded (s : Keyrings) (id x : string) : Prop := ∃ entry, entry_of s id entry ∧ kid entry = x.

(** A later state of the keyrings: every key is still there, with its wraps. *)
Definition rings_le (s s' : Keyrings) : Prop :=
  ∀ id entry, entry_of s id entry → ∃ entry', entry_of s' id entry' ∧ key_le entry entry'.

#[export] Instance rings_le_refl : Reflexive rings_le.
Proof. intros s id entry Hin. by exists entry. Qed.

Lemma keys_le_elem l l' entry : keys_le l l' → entry ∈ l → ∃ entry', entry' ∈ l' ∧ key_le entry entry'.
Proof.
  intros (l1 & extra & -> & Hall) Hin. apply list_elem_of_lookup in Hin as [i Hi].
  destruct (Forall2_lookup_l _ _ _ _ _ Hall Hi) as (entry' & Hi' & Hle). exists entry'.
  split; [|done]. apply elem_of_app. left. by eapply list_elem_of_lookup_2.
Qed.

Lemma writes_rings_le id s s' : writes id s s' → rings_le s s'.
Proof.
  intros Hw id' entry (f & Hread & Hin). destruct (writes_keep _ _ _ Hw _ _ Hread) as (f' & Hread' & Hle).
  destruct (keys_le_elem _ _ _ Hle Hin) as (entry' & ? & ?). exists entry'. split; [by exists f'|done].
Qed.

Lemma recorded_le s s' id x : rings_le s s' → recorded s id x → recorded s' id x.
Proof. intros Hle (entry & Hin & <-). destruct (Hle _ _ Hin) as (e' & ? & [? _]). by exists e'. Qed.

(** One new entry at the end of the keyring of [id], whose kid was new. *)
Lemma add_key_adds e id entry s s' :
  add_key_at e id entry s = (s', Ok tt) →
  rings_le s s' ∧ entry_of s' id entry ∧ ¬ recorded s id (kid entry).
Proof.
  intros Ha. apply add_key_at_writes in Ha as (Hw & _ & Hok).
  destruct (Hok eq_refl) as (o & Hread & Hnew & Hread').
  split_and!; [by apply (writes_rings_le id)| |].
  - eexists. split; [exact Hread'|]. simpl. apply elem_of_app. right. by left.
  - intros (entry' & (f & Hf & Hin) & Heq). rewrite Hread in Hf. injection Hf as ->. apply Hnew.
    apply list_elem_of_fmap. by exists entry'.
Qed.

(** What [current_key_for] does, case by case. *)
Lemma current_key_cases e id o d d' r :
  current_key_for e id o d = (d', r) →
  (d' = d ∧ ∃ err, r = Err err) ∨
  ∃ w ra, source_recipients (c_source e) (source d) = (w, ra) ∧ source d' = w ∧
    let k := slot d id in
    let owner := owner_recipient e o in
    (keyrings d' = keyrings d ∧ conversations d' = conversations d ∧ ∃ err, r = Err err) ∨
    (∃ ep ks a, ra = Ok (ep, ks) ∧ active_key k = Some a ∧ keyrings d' = keyrings d ∧
       conversations d' = <[id := k]> (conversations d) ∧ r = Ok (a_kid a, a_key a) ∧
       a_epoch a = ep ∧ a_owner_rid a = key_rid <$> owner ∧ expired a (c_now e) = false) ∨
    (keyrings d' = keyrings d ∧ conversations d' = <[id := retire_active k]> (conversations d) ∧
       ∃ err, r = Err err) ∨
    (∃ ep ks ws, let x := key_kid (c_fresh e) in
       let entry := {| kid := x; created_at := c_now e; k_epoch := ep; wraps := ws |} in
       ra = Ok (ep, ks) ∧ map_result (wrap (c_fresh e)) (ks ++ option_list owner) = Ok ws ∧
       add_key_at (c_disk e) id entry (keyrings d) = (keyrings d', Ok tt) ∧
       r = Ok (x, c_fresh e) ∧
       conversations d' = <[id := {| active_key := Some {| a_kid := x; a_key := c_fresh e; a_epoch := ep;
           a_owner_rid := key_rid <$> owner; a_created_at := c_now e |};
         retained := retained (retire_active k); newest := Some x |}]> (conversations d)).
Proof.
  unfold current_key_for. destruct (path id) as [[]|err] eqn:Hpath; [|intros [= <- <-]; left; eauto].
  destruct (source_recipients _ _) as [w ra] eqn:Hsrc. intros Hrun. right. exists w, ra.
  destruct ra as [[ep ks]|err]; [|injection Hrun as <- <-; split_and!; [done..|]; left; simpl; eauto].
  split; [done|]. cbv zeta in Hrun |- *. change (slot (set_source w d) id) with (slot d id) in Hrun.
  set (owner := owner_recipient e o) in *.
  destruct (match active_key (slot d id) with Some a => _ | None => None end) as [found|] eqn:Hact.
  { injection Hrun as <- <-. split; [done|]. right; left. destruct (active_key (slot d id)) as [a|]; [|done].
    destruct (reusable _ _ _ _) eqn:Hr; [|done]. injection Hact as <-.
    apply andb_true_iff in Hr as [[?%N.eqb_eq ?%bool_decide_eq_true]%andb_true_iff ?%negb_true_iff].
    exists ep, ks, a. done. }
  destruct (ks ++ option_list owner) as [|pk all] eqn:Hall.
  { injection Hrun as <- <-. split; [done|]. right; right; left. simpl. eauto. }
  destruct (map_result _ _) as [ws|err] eqn:Hws.
  2: { injection Hrun as <- <-. split; [done|]. right; right; left. simpl. eauto. }
  destruct (add_key _ _ _ _) as [s rk] eqn:Hadd.
  apply add_key_inv in Hadd. destruct rk as [[]|err].
  - injection Hrun as <- <-. split; [done|]. right; right; right. simpl.
    destruct Hadd as [Hadd|[_ [? ?]]]; [|done]. exists ep, ks, ws.
    split_and!; try done; [by rewrite Hall|by rewrite insert_insert_eq].
  - injection Hrun as <- <-. split; [done|]. right; right; left. simpl.
    destruct Hadd as [Hadd|[-> _]]; [|eauto].
    apply add_key_at_writes in Hadd as (_ & Hs & _). rewrite (Hs err eq_refl). eauto.
Qed.

(** What the manager knows of one conversation's keys: the active one is the
    newest, and every key in memory is in the keyring. *)
Record keys_ok (s : Keyrings) (id : string) k : Prop := {
  ok_newest a : active_key k = Some a → newest k = Some (a_kid a);
  ok_recorded x : is_Some (in_memory k !! x) → recorded s id x;
  ok_kept x : newest k = Some x → is_Some (in_memory k !! x);
  ok_fresh a : active_key k = Some a → retained k !! a_kid a = None;
}.

Lemma keys_ok_le s s' id k : rings_le s s' → keys_ok s id k → keys_ok s' id k.
Proof. intros Hle [? Hr ? ?]. split; [done| |done|done]. intros x Hx. eapply recorded_le; eauto. Qed.

Lemma keys_ok_default s id : keys_ok s id ConversationKeys_default.
Proof. split; try done. by intros x [? ?]. Qed.

Lemma in_memory_retire k : in_memory (retire_active k) = in_memory k.
Proof. unfold retire_active, in_memory. by destruct (active_key k) eqn:E; [|rewrite E]. Qed.

Lemma newest_retire k : newest (retire_active k) = newest k.
Proof. unfold retire_active. by destruct (active_key k). Qed.
Lemma active_retire k : active_key (retire_active k) = None.
Proof. unfold retire_active. by destruct (active_key k) eqn:E. Qed.

Lemma keys_ok_retire s id k : keys_ok s id k → keys_ok s id (retire_active k).
Proof.
  intros [? Hr Hk ?]. split; rewrite ?active_retire, ?newest_retire, ?in_memory_retire; try done.
Qed.

Lemma keys_ok_new s s' id k key ep o t :
  keys_ok s id k → rings_le s s' → recorded s' id (key_kid key) → ¬ recorded s id (key_kid key) →
  keys_ok s' id {| active_key := Some {| a_kid := key_kid key; a_key := key; a_epoch := ep;
                                         a_owner_rid := o; a_created_at := t |};
                   retained := retained (retire_active k); newest := Some (key_kid key) |}.
Proof.
  intros Hok Hle Hrec Hnew. split; simpl.
  - by intros a [= <-].
  - intros x. unfold in_memory; simpl. destruct (decide (key_kid key = x)) as [<-|Hne]; [done|].
    rewrite lookup_insert_ne by done. intros Hx. eapply recorded_le; [done|]. apply Hok.
    rewrite <-in_memory_retire. unfold in_memory. by rewrite active_retire.
  - intros x [= <-]. unfold in_memory; simpl. rewrite lookup_insert_eq. by eexists.
  - intros a [= <-]. simpl. apply eq_None_not_Some. intros Hx. apply Hnew. apply Hok.
    rewrite <-in_memory_retire. unfold in_memory. by rewrite active_retire.
Qed.

Lemma in_memory_release kids k x :
  (∀ a, active_key k = Some a → retained k !! a_kid a = None) →
  in_memory (release_keys kids k) !! x = if one_of kids x then None else in_memory k !! x.
Proof.
  intros Hfresh. unfold in_memory, release_keys; simpl.
  assert (Hret : filter (λ p : string * SegmentKey, one_of kids p.1 = false) (retained k) !! x =
                 if one_of kids x then None else retained k !! x).
  { rewrite map_lookup_filter. destruct (retained k !! x); simpl; [|by destruct (one_of kids x)].
    destruct (one_of kids x); [by rewrite option_guard_False|by rewrite option_guard_True]. }
  destruct (active_key k) as [a|]; [|done]. destruct (decide (a_kid a = x)) as [<-|Hne].
  - destruct (one_of kids (a_kid a)) eqn:E; [done|]. by rewrite !lookup_insert_eq.
  - destruct (one_of kids (a_kid a)); rewrite ?(lookup_insert_ne _ (a_kid a)) by done; done.
Qed.

Lemma keys_ok_release s id kids k : keys_ok s id k → keys_ok s id (release_keys kids k).
Proof.
  intros [Hn Hr Hk Hf]. split.
  - intros a. simpl. destruct (active_key k) as [a0|] eqn:Ea; [|done].
    destruct (one_of kids (a_kid a0)) eqn:E; [done|]. intros [= <-].
    rewrite (Hn a0), E; done.
  - intros x. rewrite in_memory_release by done. destruct (one_of kids x); [by intros [? ?]|]. apply Hr.
  - intros x. rewrite in_memory_release by done. simpl. destruct (newest k) as [y|]; [|done].
    destruct (one_of kids y) eqn:E; [done|]. intros [= <-]. rewrite E. by apply Hk.
  - intros a. simpl. destruct (active_key k) as [a0|] eqn:Ea; [|done].
    destruct (one_of kids (a_kid a0)) eqn:E; [done|]. intros [= <-].
    rewrite map_lookup_filter, (Hf a0) by done. done.
Qed.

(** *** What a step does to one conversation *)
Inductive slot_move (d d' : DekManager W) (id : string) k : ConversationKeys → Prop :=
  | mv_same : slot_move d d' id k k
  | mv_retire : slot_move d d' id k (retire_active k)
  | mv_abandon : d' = abandon id d → slot_move d d' id k
      {| active_key := None; retained := retained (retire_active k); newest := None |}
  | mv_release kids : d' = release_sealed id kids d → slot_move d d' id k (release_keys kids k)
  | mv_drop kids : d' = release_sealed id kids d → in_memory (release_keys kids k) = ∅ →
      slot_move d d' id k ConversationKeys_default
  | mv_forget : d' = forget_conversation id d → slot_move d d' id k ConversationKeys_default
  | mv_create e o ep ks ws :
      let entry := {| kid := key_kid (c_fresh e); created_at := c_now e; k_epoch := ep; wraps := ws |} in
      current_key_for e id o d = (d', Ok (key_kid (c_fresh e), c_fresh e)) →
      source_recipients (c_source e) (source d) = (source d', Ok (ep, ks)) →
      map_result (wrap (c_fresh e)) (ks ++ option_list (owner_recipient e o)) = Ok ws →
      add_key_at (c_disk e) id entry (keyrings d) = (keyrings d', Ok tt) →
      slot_move d d' id k
        {| active_key := Some {| a_kid := key_kid (c_fresh e); a_key := c_fresh e; a_epoch := ep;
             a_owner_rid := key_rid <$> owner_recipient e o; a_created_at := c_now e |};
           retained := retained (retire_active k); newest := Some (key_kid (c_fresh e)) |}.

(** How the registry moves during a step. *)
Inductive source_move d : W → Prop :=
  | sm_same : source_move d (source d)
  | sm_call e r w' : source_recipients e (source d) = (w', r) → source_move d w'
  | sm_step w' : source_step (source d) w' → source_move d w'.

Lemma slot_insert d id k id' (w : W) s :
  slot {| source := w; keyrings := s; conversations := <[id := k]> (conversations d) |} id' =
    if decide (id = id') then k else slot d id'.
Proof.
  unfold slot; simpl. case_decide as Hd; [subst; by rewrite lookup_insert_eq|by rewrite lookup_insert_ne].
Qed.

Lemma slot_delete d id id' (w : W) s :
  slot {| source := w; keyrings := s; conversations := delete id (conversations d) |} id' =
    if decide (id = id') then ConversationKeys_default else slot d id'.
Proof.
  unfold slot; simpl. case_decide as Hd; [subst; by rewrite lookup_delete_eq|by rewrite lookup_delete_ne].
Qed.

Lemma current_moves e id o d d' r :
  current_key_for e id o d = (d', r) →
  rings_le (keyrings d) (keyrings d') ∧ source_move d (source d') ∧
  ∀ id', slot_move d d' id' (slot d id') (slot d' id').
Proof.
  intros Hrun. pose proof Hrun as [[-> _]|(w & ra & Hsrc & Hw & Hcases)]%current_key_cases.
  { split_and!; [done|constructor|intros ?; apply mv_same]. }
  destruct d' as [w' s' cs']. simpl in *. subst w'.
  assert (Hmove : source_move d w) by by econstructor.
  destruct Hcases as [(-> & -> & _)|[(ep & ks & a & -> & Ha & -> & -> & _)|
    [(-> & -> & _)|(ep & ks & ws & -> & Hws & Hadd & -> & ->)]]].
  - split_and!; [done..|]. intros id'. apply mv_same.
  - split_and!; [done..|]. intros id'. rewrite slot_insert. case_decide; subst; [apply mv_same|apply mv_same].
  - split_and!; [done..|]. intros id'. rewrite slot_insert. case_decide; subst; [apply mv_retire|apply mv_same].
  - split_and!; [by apply add_key_adds in Hadd as [? _]|done|].
    intros id'. rewrite slot_insert. case_decide; subst; [|apply mv_same]. by eapply mv_create.
Qed.

Lemma new_key_moves e at_id o d d' r :
  new_key_at e at_id o d = (d', r) →
  rings_le (keyrings d) (keyrings d') ∧ source_move d (source d') ∧ conversations d' = conversations d.
Proof.
  unfold new_key_at. destruct (source_recipients _ _) as [w ra] eqn:Hsrc.
  assert (Hmove : source_move d w) by by econstructor.
  destruct ra as [[ep ks]|err]; [|intros [= <- <-]; by split_and!].
  destruct (ks ++ _) as [|pk all]; [intros [= <- <-]; by split_and!|].
  destruct (map_result _ _) as [ws|err]; [|intros [= <- <-]; by split_and!].
  destruct (add_key_at _ _ _ _) as [s rk] eqn:Hadd.
  apply add_key_at_writes in Hadd as (Hw%writes_rings_le & _).
  destruct rk; intros [= <- <-]; by split_and!.
Qed.

Lemma step_moves d d' :
  step d d' →
  rings_le (keyrings d) (keyrings d') ∧ source_move d (source d') ∧
  ∀ id, slot_move d d' id (slot d id) (slot d' id).
Proof.
  intros Hstep. destruct Hstep as [e id o d' r Hc|e at_id o d' r Hn|e o d' r He|id|id|id kids|id|
    e id target ws s' r Hg|w' Hw].
  - by eapply current_moves.
  - apply new_key_moves in Hn as (? & ? & Heq). split_and!; [done..|]. intros id.
    assert (slot d' id = slot d id) as -> by (unfold slot; by rewrite Heq). constructor.
  - unfold ensure_recipients in He. destruct (source_recipients _ _) as [w ra] eqn:Hsrc.
    assert (d' = set_source w d) as -> by (by destruct ra as [[]|]; injection He).
    split_and!; [done|by econstructor|intros ?; apply mv_same].
  - unfold rotate, with_slot. destruct (conversations d !! id) as [k|] eqn:Ek; [|split_and!; [done|exact (sm_same d)|intros ?; apply mv_same]].
    split_and!; [done|exact (sm_same d)|]. intros id'. unfold set_keys. rewrite slot_insert.
    case_decide; subst; [|apply mv_same]. unfold slot. rewrite Ek. apply mv_retire.
  - unfold abandon, with_slot. destruct (conversations d !! id) as [k|] eqn:Ek; [|split_and!; [done|exact (sm_same d)|intros ?; apply mv_same]].
    split_and!; [done|exact (sm_same d)|]. intros id'. unfold set_keys. rewrite slot_insert.
    case_decide; subst; [|apply mv_same]. unfold slot at 1. rewrite Ek. simpl. rewrite active_retire. apply mv_abandon.
    unfold abandon, with_slot. rewrite Ek. simpl. by rewrite active_retire.
  - unfold release_sealed. destruct (conversations d !! id) as [k|] eqn:Ek; [|split_and!; [done|exact (sm_same d)|intros ?; apply mv_same]].
    destruct (is_empty _) eqn:Hemp; (split_and!; [done|exact (sm_same d)|]); intros id'.
    + rewrite slot_delete. case_decide; subst; [|apply mv_same]. unfold slot. rewrite Ek. apply (mv_drop _ _ _ _ kids);
        [unfold release_sealed; by rewrite Ek, Hemp|].
      apply andb_true_iff in Hemp as [Ha%bool_decide_eq_true Hr%bool_decide_eq_true].
      change (in_memory (release_keys kids k) = ∅). unfold in_memory. by rewrite Ha.
    + unfold set_keys. rewrite slot_insert. case_decide; subst; [|apply mv_same]. unfold slot at 1. rewrite Ek. apply mv_release.
      unfold release_sealed. by rewrite Ek, Hemp.
  - split_and!; [done|exact (sm_same d)|]. intros id'. unfold forget_conversation. rewrite slot_delete.
    case_decide; [subst; by apply mv_forget|apply mv_same].
  - apply append_wraps_writes in Hg as [Hw _].
    split_and!; [by eapply writes_rings_le|exact (sm_same d)|intros ?; apply mv_same].
  - split_and!; [done|by constructor|intros ?; apply mv_same].
Qed.

(** *** It is preserved *)
Definition slots_ok d : Prop := ∀ id, keys_ok (keyrings d) id (slot d id).

Lemma slot_move_ok d d' id k k' :
  slot_move d d' id k k' → rings_le (keyrings d) (keyrings d') →
  keys_ok (keyrings d) id k → keys_ok (keyrings d') id k'.
Proof.
  intros Hmove Hle Hok. destruct Hmove as [| |_|kids _|kids _ _|_|e o ep ks ws entry _ Hsrc Hws Hadd].
  - by eapply keys_ok_le.
  - eapply keys_ok_le; [done|]. by apply keys_ok_retire.
  - eapply keys_ok_le; [done|]. apply keys_ok_retire in Hok. split; try done.
    intros x Hx. apply Hok. unfold in_memory in *. by rewrite active_retire.
  - eapply keys_ok_le; [done|]. by apply keys_ok_release.
  - apply keys_ok_default.
  - apply keys_ok_default.
  - apply add_key_adds in Hadd as (_ & Hin & Hnew). eapply keys_ok_new; [done..| |done].
    by exists entry.
Qed.

Lemma step_slots_ok d d' : step d d' → slots_ok d → slots_ok d'.
Proof.
  intros (Hle & _ & Hmove)%step_moves Hok id. by eapply slot_move_ok.
Qed.
End invariant.

(** ** Who can read what the manager hands out *)
Section readers.
Context `{HistoryIds} `{SegmentKeysLaws} `{!RecipientSource W} `{!RecipientSourceLaws}.
Implicit Types (d : DekManager W) (k : ConversationKeys) (a : ActiveKey).

(** The active key is on record with its epoch and age, and while its epoch is
    the registry's, its first wraps are for exactly the active recipients and
    the owner. *)
Definition wrapped_for (s : Keyrings) (w : W) (id : string) a : Prop :=
  ∃ entry rids, entry_of s id entry ∧ kid entry = a_kid a ∧ k_epoch entry = a_epoch a ∧
    created_at entry = a_created_at a ∧ rids `prefix_of` (w_rid <$> wraps entry) ∧
    a_epoch a ≤ source_epoch w ∧
    (a_epoch a = source_epoch w → rids = source_rids w ++ option_list (a_owner_rid a)).

Definition inv d : Prop :=
  source_inv (source d) ∧ slots_ok d ∧
  ∀ id a, active_key (slot d id) = Some a → wrapped_for (keyrings d) (source d) id a.

Lemma source_move_evolves d w' :
  source_move d w' → source_inv (source d) → source_inv w' ∧ source_epoch (source d) ≤ source_epoch w' ∧
    (source_rids w' = source_rids (source d) ∨ source_epoch (source d) < source_epoch w').
Proof.
  destruct 1 as [|e r w' Hcall|w' Hstep]; intros Hinv.
  - split_and!; [done|lia|by left].
  - by eapply source_call.
  - by eapply source_moves.
Qed.

Lemma wrapped_for_mono s s' w w' id a :
  wrapped_for s w id a → rings_le s s' → source_epoch w ≤ source_epoch w' →
  (source_rids w' = source_rids w ∨ source_epoch w < source_epoch w') → wrapped_for s' w' id a.
Proof.
  intros (entry & rids & Hin & Hk & Hep & Hat & Hpre & Hle & Heq) Hs He Hr.
  destruct (Hs _ _ Hin) as (entry' & Hin' & Hk' & Hat' & Hep' & Hw). exists entry', rids.
  split_and!; [done|congruence..| |lia|].
  - etrans; [exact Hpre|]. destruct Hw as [x ->]. rewrite fmap_app. by eexists.
  - intros Ha. destruct Hr as [->|Hr]; [apply Heq; lia|lia].
Qed.

Lemma map_wrap_rids key ks ws : map_result (wrap key) ks = Ok ws → w_rid <$> ws = key_rid <$> ks.
Proof.
  intros Hm%map_result_Forall2. induction Hm as [|pk w ks ws Hw Hm IH]; [done|].
  rewrite !fmap_cons, IH. by rewrite (wrap_rid _ _ _ Hw).
Qed.

Lemma created_wrapped d d' id e o ep ks ws :
  source_inv (source d) →
  source_recipients (c_source e) (source d) = (source d', Ok (ep, ks)) →
  map_result (wrap (c_fresh e)) (ks ++ option_list (owner_recipient e o)) = Ok ws →
  add_key_at (c_disk e) id {| kid := key_kid (c_fresh e); created_at := c_now e; k_epoch := ep; wraps := ws |}
    (keyrings d) = (keyrings d', Ok tt) →
  wrapped_for (keyrings d') (source d') id {| a_kid := key_kid (c_fresh e); a_key := c_fresh e; a_epoch := ep;
     a_owner_rid := key_rid <$> owner_recipient e o; a_created_at := c_now e |}.
Proof.
  intros Hinv Hsrc Hws Hadd. apply add_key_adds in Hadd as (_ & Hin & _).
  destruct (source_answers _ _ _ _ _ Hinv Hsrc) as [-> Hrids]. apply map_wrap_rids in Hws.
  eexists _, (w_rid <$> ws). split_and!; [exact Hin|done..|simpl; lia|]. intros _. simpl.
  rewrite Hws, fmap_app, Hrids. f_equal. by destruct (owner_recipient e o).
Qed.

Lemma active_release kids k a : active_key (release_keys kids k) = Some a → active_key k = Some a.
Proof. simpl. destruct (active_key k) as [a0|]; [|done]. by destruct (one_of kids (a_kid a0)). Qed.

Lemma step_keeps_inv d d' : step d d' → inv d → inv d'.
Proof.
  intros Hstep (Hsrc & Hslots & Hact). pose proof (step_moves _ _ Hstep) as (Hle & Hmove & Hs).
  destruct (source_move_evolves _ _ Hmove Hsrc) as (Hsrc' & He & Hr).
  split_and!; [done|by eapply step_slots_ok|]. intros id a Ha.
  assert (Hkeep : active_key (slot d id) = Some a → wrapped_for (keyrings d') (source d') id a).
  { intros Hold. eapply wrapped_for_mono; eauto. }
  destruct (Hs id) as [| |_|kids _|kids _ _|_|e o ep ks ws entry _ Hcall Hws Hadd]; simpl in Ha; try done.
  - auto.
  - by rewrite active_retire in Ha.
  - apply Hkeep. by apply (active_release kids).
  - injection Ha as <-. by eapply (created_wrapped d).
Qed.

Lemma init_inv (w : W) s : source_inv w → inv {| source := w; keyrings := s; conversations := ∅ |}.
Proof.
  intros Hw. split_and!; [done| |].
  - intros id. unfold slot. simpl. rewrite lookup_empty. apply keys_ok_default.
  - intros id a. unfold slot. simpl. by rewrite lookup_empty.
Qed.

(** The daemon after a start, and every state it can get to. *)
Definition reachable (w : W) (s : Keyrings) d : Prop :=
  source_inv w ∧ rtc step {| source := w; keyrings := s; conversations := ∅ |} d.

Lemma reachable_inv w s d : reachable w s d → inv d.
Proof.
  intros [Hw Hsteps]. apply init_inv with (s := s) in Hw. revert Hw.
  induction Hsteps as [d|d1 d2 d3 H12 _ IH]; [done|]. intros Hinv. apply IH. by eapply step_keeps_inv.
Qed.

End readers.

(** ** Which keys stay usable *)
Section lifetime.
Context `{HistoryIds} `{SegmentKeys} `{!RecipientSource W}.
Implicit Types (d : DekManager W) (k : ConversationKeys) (a : ActiveKey).

Lemma fallback_key_iff d id x key :
  fallback_key d id = Some (x, key) ↔ newest (slot d id) = Some x ∧ keys_snapshot d id !! x = Some key.
Proof.
  unfold fallback_key, keys_snapshot, slot. destruct (conversations d !! id) as [k|]; simpl; [|naive_solver].
  unfold in_memory. destruct (newest k) as [y|]; simpl; [|naive_solver].
  destruct (active_key k) as [a|].
  - destruct (String.eqb_spec (a_kid a) y) as [<-|Hne].
    + split; [intros [= <- <-]; by rewrite lookup_insert_eq|].
      intros [[= <-] Hl]. rewrite lookup_insert_eq in Hl. by injection Hl as <-.
    + destruct (retained k !! y) eqn:Ey; simpl; split.
      * intros [= <- <-]. by rewrite lookup_insert_ne.
      * intros [[= <-] Hl]. rewrite lookup_insert_ne, Ey in Hl by done. by injection Hl as <-.
      * done.
      * intros [[= <-] Hl]. by rewrite lookup_insert_ne, Ey in Hl.
  - destruct (retained k !! y) eqn:Ey; simpl; split; try done.
    * by intros [= <- <-].
    * intros [[= <-] Hl]. rewrite Ey in Hl. by injection Hl as <-.
    * intros [[= <-] Hl]. by rewrite Ey in Hl.
Qed.

Lemma snapshot_slot d id : keys_snapshot d id = in_memory (slot d id).
Proof. unfold keys_snapshot, slot. by destruct (conversations d !! id). Qed.

(** A recorded key that is neither active nor the fallback. *)
Definition spent d (id x : string) : Prop :=
  recorded (keyrings d) id x ∧ newest (slot d id) ≠ Some x ∧
  ∀ a, active_key (slot d id) = Some a → a_kid a ≠ x.

Lemma step_spent d d' id x : step d d' → spent d id x → spent d' id x.
Proof.
  intros (Hle & _ & Hmove)%step_moves (Hrec & Hnew & Hact).
  split; [by eapply recorded_le|].
  destruct (Hmove id) as [| |_|kids _|kids _ _|_|e o ep ks ws entry _ Hsrc Hws Hadd]; simpl.
  - done.
  - by rewrite newest_retire, active_retire.
  - done.
  - split.
    + destruct (newest _) as [y|]; [|done]. by destruct (one_of kids y).
    + intros a. destruct (active_key _) as [a0|]; [|done]. destruct (one_of kids _); [done|].
      intros [= <-]. by apply Hact.
  - done.
  - done.
  - apply add_key_adds in Hadd as (_ & _ & Hfresh). simpl in Hfresh.
    split; [|intros a [= <-]]; simpl; [intros [= Heq]|intros Heq]; by rewrite Heq in Hfresh.
Qed.

(** an abandoned key never seals again: once [abandon] was called (a
    record sealed under the active key may persist without being committed, so
    its nonce is spent), no key the conversation had on record by then is ever
    again returned by [current_key_for] or offered by [fallback_key], whatever
    the daemon does afterwards. *)
Theorem abandoned_keys_never_seal_again d id x d2 :
  recorded (keyrings d) id x → rtc step (abandon id d) d2 →
  (∀ e o d3 key, current_key_for e id o d2 ≠ (d3, Ok (x, key))) ∧
  (∀ key, fallback_key d2 id ≠ Some (x, key)).
Proof.
  intros Hrec Hsteps.
  assert (Hspent : spent d2 id x).
  { assert (Hstart : spent (abandon id d) id x).
    { unfold spent, abandon, with_slot, slot. destruct (conversations d !! id) as [k|] eqn:Ek.
      - simpl. rewrite lookup_insert_eq. simpl. by rewrite active_retire.
      - by rewrite Ek. }
    clear Hrec. induction Hsteps as [d1|d1 d1' d2 Hstep _ IH]; [done|]. apply IH. by eapply step_spent. }
  destruct Hspent as (Hr & Hn & Ha). split.
  - intros e o d3 key Hrun. apply current_key_cases in Hrun as [[_ [? ?]]|(w & ra & _ & _ & Hcases)]; [done|].
    destruct Hcases as [(_ & _ & [? ?])|[(ep & ks & a & _ & Hact & _ & _ & [= -> ->] & _)|
      [(_ & _ & [? ?])|(ep & ks & ws & _ & _ & Hadd & [= -> ->] & _)]]]; [done| |done|].
    + by apply (Ha a).
    + by apply add_key_adds in Hadd as (_ & _ & Hfresh).
  - intros key [Hnew _]%fallback_key_iff. done.
Qed.

(** Keys listed by a release, or of a forgotten conversation. *)
Definition released d d' (id x : string) : Prop :=
  (∃ kids, x ∈ kids ∧ d' = release_sealed id kids d) ∨ d' = forget_conversation id d.

(** What one step leaves of the keys in memory and of the fallback. *)
Lemma step_memory d d' id x key :
  slots_ok d → step d d' → keys_snapshot d id !! x = Some key →
  (keys_snapshot d' id !! x = Some key ∧
     (newest (slot d id) = Some x →
      newest (slot d' id) = Some x ∨ d' = abandon id d ∨
      ∃ e o p, current_key_for e id o d = (d', Ok p) ∧ fallback_key d' id = Some p)) ∨
  released d d' id x.
Proof.
  intros Hok Hstep. pose proof (step_moves _ _ Hstep) as (Hle & _ & Hmove).
  rewrite !snapshot_slot. intros Hx. specialize (Hmove id). specialize (Hok id).
  remember (slot d' id) as k' eqn:Hk'.
  destruct Hmove as [| |Heq|kids Heq|kids Heq Hemp|Heq|e o ep ks ws entry Hrun Hsrc Hws Hadd].
  - left. split; [done|]. auto.
  - left. rewrite in_memory_retire, newest_retire. auto.
  - left. split; [|auto]. rewrite <-in_memory_retire in Hx. unfold in_memory in *.
    by rewrite active_retire in Hx.
  - rewrite in_memory_release by apply Hok. destruct (one_of kids x) eqn:E.
    + right. left. exists kids. split; [by apply one_of_spec|done].
    + left. split; [done|]. intros Hn. left. simpl. by rewrite Hn, E.
  - right. left. exists kids. split; [|done]. apply one_of_spec. apply (f_equal (lookup x)) in Hemp.
    rewrite in_memory_release, lookup_empty in Hemp by apply Hok.
    destruct (one_of kids x); [done|congruence].
  - by do 2 right.
  - assert (Hmem : in_memory (slot d' id) !! key_kid (c_fresh e) = Some (c_fresh e)).
    { rewrite <-Hk'. unfold in_memory. simpl. apply lookup_insert_eq. }
    left. split.
    + unfold in_memory; simpl. apply add_key_adds in Hadd as (_ & _ & Hfresh). simpl in Hfresh.
      rewrite lookup_insert_ne.
      * rewrite <-in_memory_retire in Hx. unfold in_memory in Hx. by rewrite active_retire in Hx.
      * intros Heq. apply Hfresh. rewrite Heq. apply Hok. by eexists.
    + intros _. do 2 right. exists e, o, (key_kid (c_fresh e), c_fresh e). split; [done|].
      apply fallback_key_iff. rewrite snapshot_slot. split; [|done]. by rewrite <-Hk'.
Qed.
End lifetime.

Section lifetime_theorems.
Context `{HistoryIds} `{SegmentKeysLaws} `{!RecipientSource W} `{!RecipientSourceLaws}.
Implicit Types d : DekManager W.

(** a key in memory stays there, unchanged, for the segment build that
    needs it: in every reachable state, a step keeps each key of a conversation
    unless it releases that very key as sealed or forgets the conversation. *)
Theorem keys_kept_until_released w s d d' id x key :
  reachable w s d → step d d' → keys_snapshot d id !! x = Some key →
  keys_snapshot d' id !! x = Some key ∨ released d d' id x.
Proof.
  intros (_ & Hok & _)%reachable_inv Hstep Hx.
  destruct (step_memory _ _ _ _ _ Hok Hstep Hx) as [[? _]|?]; auto.
Qed.

(** a running turn can go on when no new key can be made: the fallback
    key of a conversation survives every step (rotations, epoch changes and
    failed calls included) until it is released, forgotten or abandoned, or a
    call hands out a newer key, which is then the fallback. *)
Theorem fallback_survives w s d d' id x key :
  reachable w s d → step d d' → fallback_key d id = Some (x, key) →
  fallback_key d' id = Some (x, key) ∨ released d d' id x ∨ d' = abandon id d ∨
  ∃ e o p, current_key_for e id o d = (d', Ok p) ∧ fallback_key d' id = Some p.
Proof.
  intros (_ & Hok & _)%reachable_inv Hstep [Hn Hx]%fallback_key_iff.
  destruct (step_memory _ _ _ _ _ Hok Hstep Hx) as [[Hx' Hnew]|?]; [|auto].
  destruct (Hnew Hn) as [Hn'|[?|?]]; [|auto..]. left. by apply fallback_key_iff.
Qed.
End lifetime_theorems.

(** ** The recipient registry keeps its promise *)
Section registry_source.
Import Registry.
Context `{RecipientKeysLaws}.
Implicit Types w : World.

(** A command, or the hook of another process (which leaves a new stamp on the
    file it replaces). *)
Inductive registry_step w : World → Prop :=
  | rs_command e cmd w' r : command_ok cmd → apply e (exec e cmd) w = (w', r) → registry_step w w'
  | rs_hook e sel f dk n :
      content (disk w) = Some (Ok f) → Forall (λ x, x ≠ "") (named sel) →
      revoke_device_recipients e sel (disk w) = (dk, Ok n) →
      dk = disk w ∨ disk_stamp dk ≠ stamp (inner w) →
      registry_step w {| inner := inner w; disk := dk |}.

#[export] Instance registry_recipients : RecipientSource World := {|
  SourceEnv := Env;
  source_recipients e := update e active_recipients_op;
  source_step := registry_step;
|}.

(** The file the next call works on. *)
Definition effective w : RecipientsFile := file (inner (reload_if_changed w).1).

(** The file in memory is well formed, and when its stamp is the disk's it is
    what the disk holds. *)
Definition synced w : Prop :=
  valid (file (inner w)) ∧
  (disk_stamp (disk w) = stamp (inner w) →
   file (inner w) = default RecipientsFile_default (ok (read_file (disk w)) ≫= id) ∧
   ∃ o, read_file (disk w) = Ok o).

Lemma reload_synced w : synced w → synced (reload_if_changed w).1.
Proof.
  intros [Hv Hs]. unfold reload_if_changed. case_bool_decide as Hst; [by split|].
  destruct (read_file (disk w)) as [o|err] eqn:Hr; [|by split]. simpl. split; simpl.
  - unfold read_file in Hr. destruct (content (disk w)) as [[f|]|]; [|done|injection Hr as <-; apply valid_default].
    destruct (File.validate f) as [[]|] eqn:Hf; [|done]. injection Hr as <-. simpl. by apply validate_iff.
  - intros _. rewrite Hr. simpl. eauto.
Qed.

Lemma effective_synced w : disk_stamp (disk w) = stamp (inner w) → effective w = file (inner w).
Proof. intros Hs. unfold effective, reload_if_changed. by rewrite bool_decide_eq_true_2. Qed.

Lemma effective_reload w : effective (reload_if_changed w).1 = effective w.
Proof.
  unfold effective at 1. unfold reload_if_changed at 2. case_bool_decide as Hst; [done|].
  destruct (read_file (disk w)) as [o|] eqn:Hr; [|done].
  unfold effective, reload_if_changed at 2. rewrite bool_decide_eq_false_2, Hr by done.
  unfold reload_if_changed. by rewrite bool_decide_eq_true_2.
Qed.

(** After a successful [apply] memory and disk agree. *)
Lemma apply_synced {A} e (op : Op A) w w' a :
  synced w → apply e op w = (w', Ok a) → valid (file (inner w')) → synced w' ∧ effective w' = file (inner w').
Proof.
  intros Hsync Happ Hv. apply apply_Ok in Happ as (w1 & f1 & bl & f2 & Hre & _ & _ & Hend).
  pose proof (reload_synced _ Hsync) as Hs1. rewrite Hre in Hs1. simpl in Hs1.
  destruct Hend as [[_ ->]|(f3 & _ & Hf & Hval & Hc & Hst)].
  - split; [done|]. apply effective_synced. unfold reload_if_changed in Hre.
    case_bool_decide; [by injection Hre as <-|].
    destruct (read_file (disk w)); [|done]. injection Hre as <-. done.
  - split; [|by apply effective_synced]. split; [done|]. intros _. unfold read_file. rewrite Hc, Hf, Hval.
    simpl. eauto.
Qed.

Lemma command_evolves e cmd w w' r :
  command_ok cmd → synced w → apply e (exec e cmd) w = (w', r) →
  synced w' ∧ evolves (effective w) (effective w').
Proof.
  intros Hok Hsync Happ. destruct r as [a|err].
  - destruct (command_steps e cmd w w' a Hok (proj1 Hsync) Happ) as (_ & Hv' & Hk).
    destruct (apply_synced _ _ _ _ _ Hsync Happ Hv') as [Hs' ->]. split; [done|]. apply Hk.
  - apply apply_Err in Happ as [Hi Hd].
    assert (w' = (reload_if_changed w).1) as ->.
    { assert (Hd' : disk (reload_if_changed w).1 = disk w).
      { unfold reload_if_changed. case_bool_decide; [done|]. by destruct (read_file (disk w)). }
      destruct w' as [i' d'], (reload_if_changed w).1 as [i1 d1]. simpl in *. congruence. }
    split; [by apply reload_synced|]. rewrite effective_reload. split; [done|by left].
Qed.

Lemma active_recipients_command e w w' r :
  update e active_recipients_op w = (w', r) →
  ∃ r', apply e (exec e ActiveRecipients) w = (w', r').
Proof.
  unfold update, mbind, M_bind, apply. destruct (reload_if_changed w) as [w1 [[]|err]]; [|intros [= <- <-]; eauto].
  destruct (reconcile_devices e (file (inner w1))) as [f1 [bl|err]]; [|intros [= <- <-]; eauto].
  change (exec e ActiveRecipients f1) with (forget_value active_recipients_op f1). unfold forget_value.
  destruct (active_recipients_op f1) as [f2 [v|err]]; simpl; [|intros [= <- <-]; eauto].
  destruct (decide (f2 = file (inner w1))); [intros [= <- <-]; eauto|].
  destruct (File.prune f2) as [f3 [[]|err]]; [|intros [= <- <-]; eauto].
  destruct (write_file e f3 (disk w1)) as [dk [[]|err]]; intros [= <- <-]; eauto.
Qed.

Lemma hook_evolves e sel f dk n w :
  synced w → content (disk w) = Some (Ok f) → Forall (λ x, x ≠ "") (named sel) →
  revoke_device_recipients e sel (disk w) = (dk, Ok n) → dk = disk w ∨ disk_stamp dk ≠ stamp (inner w) →
  synced {| inner := inner w; disk := dk |} ∧ evolves (effective w) (effective {| inner := inner w; disk := dk |}).
Proof.
  intros Hsync Hc Hnames Hhook Hst. pose proof (hook_spec _ _ _ _ _ _ Hc Hnames Hhook) as (f' & Hc' & Hv' & Hk & _).
  assert (Hval : File.validate f = Ok tt).
  { unfold revoke_device_recipients, read_file in Hhook. rewrite Hc in Hhook.
    by destruct (File.validate f) as [[]|]. }
  assert (Heff : effective w = f).
  { unfold effective, reload_if_changed. case_bool_decide as Hs.
    - cbn [fst]. destruct (proj2 Hsync Hs) as [-> _]. unfold read_file. by rewrite Hc, Hval.
    - unfold read_file. by rewrite Hc, Hval. }
  destruct Hst as [->|Hst].
  { destruct w as [i dk0]. split; [done|]. split; [done|by left]. }
  split; [split; [apply Hsync|intros Heq; simpl in *; congruence]|].
  rewrite Heff. unfold effective, reload_if_changed. simpl. rewrite bool_decide_eq_false_2 by done.
  unfold read_file. rewrite Hc', (proj2 (validate_iff f') Hv'). simpl. apply Hk.
Qed.

#[export] Instance registry_laws : RecipientSourceLaws (W := World).
Proof.
  refine {| source_inv := synced; source_epoch w := epoch (effective w);
            source_rids w := active_rids (effective w) |}.
  - intros e w w' ep ks Hsync Hupd.
    assert (Happ : ∃ a, apply e active_recipients_op w = (w', Ok a) ∧ value a = (ep, ks)).
    { unfold source_recipients, registry_recipients, update in Hupd.
      apply M_bind_Ok_inv in Hupd as (w1 & a & Happ & Hret). injection Hret as <- Hret. eauto. }
    destruct Happ as (a & Happ & Hva). pose proof (active_recipients_spec _ _ _ _ (proj1 Hsync) Happ) as (He & Hall & _).
    destruct (active_recipients_command _ _ _ _ Hupd) as [r' Hcmd].
    destruct (command_evolves e ActiveRecipients w w' r' I Hsync Hcmd) as [Hs' _].
    destruct (apply_synced _ _ _ _ _ Hsync Happ (proj1 Hs')) as [_ ->].
    rewrite Hva in He, Hall. simpl in *. split; [done|]. unfold active_rids. symmetry.
    clear -Hall. induction Hall as [|x k l ks [_ Hx] Hl IH]; [done|]. rewrite !fmap_cons, Hx. by f_equal.
  - intros e w w' r Hsync Hupd. destruct (active_recipients_command _ _ _ _ Hupd) as [r' Hcmd].
    by destruct (command_evolves e ActiveRecipients w w' r' I Hsync Hcmd) as [Hs' [? ?]].
  - intros w w' Hsync Hstep. destruct Hstep as [e cmd w' r Hok Happ|e sel f dk n Hc Hn Hh Hst].
    + by destruct (command_evolves e cmd w w' r Hok Hsync Happ) as [Hs' [? ?]].
    + by destruct (hook_evolves e sel f dk n w Hsync Hc Hn Hh Hst) as [Hs' [? ?]].
Defined.
End registry_source.

(** ** A concrete daemon: the registry of [Recipients.Example] *)
Module Example.
Import Recipients.Example.
#[local] Instance ids : HistoryIds := {|
  conversation_id_ok := no_slash; kid_ok := λ _, true; encode_text := id; decode_text := λ s, Some s;
|}.
#[local] Instance segment_keys : SegmentKeys := {|
  SegmentKey := string; key_kid key := key; wrap key pk := Ok {| w_rid := pk; w_kem_ct := "ct"; w_wrapped := key |};
|}.
#[local] Instance segment_keys_laws : SegmentKeysLaws.
Proof. split. by intros key pk w [= <-]. Qed.

(** The clock at [t] hours, a generator that yields [key]. *)
Definition call (t : Z) (key : string) : CallEnv Registry.World := {|
  c_source := env; c_owners := None; c_now := (t * 3600 * 1000000000)%Z; c_fresh := key;
  c_disk := {| dir_exists := true; file_bytes := 100; write_ok := Ok tt |};
|}.
Definition start : DekManager Registry.World :=
  {| source := world; keyrings := ∅; conversations := ∅ |}.
Definition first_key := current_key_for (call 0 "A") "c" None start.
Definition d1 : DekManager Registry.World := first_key.1.
(** A day later: the key expired. *)
Definition next_key := current_key_for (call 24 "B") "c" None d1.
Definition d2 : DekManager Registry.World := next_key.1.

Lemma start_synced : synced world.
Proof. split; [apply start_valid|]. intros _. split; [by vm_compute|]. eexists. by vm_compute. Qed.
Lemma d1_reachable : reachable world ∅ d1.
Proof.
  split; [apply start_synced|]. apply rtc_once.
  apply (st_current _ (call 0 "A") "c" None d1 first_key.2). apply surjective_pairing.
Qed.


Lemma abandoned_keys_never_seal_again_witness :
  (∀ e o d3 key, current_key_for e "c" o (abandon "c" d1) ≠ (d3, Ok ("A", key))) ∧
  (∀ key, fallback_key (abandon "c" d1) "c" ≠ Some ("A", key)).
Proof.
  apply (abandoned_keys_never_seal_again d1 "c" "A" (abandon "c" d1)); [|apply rtc_refl].
  assert (Hr : ∃ f, read_keyring (keyrings d1) "c" = Ok (Some f) ∧ kid <$> Keyring.keys f = ["A"]).
  { eexists. split; vm_compute; reflexivity. }
  destruct Hr as (f & Hf & Hk). destruct (Keyring.keys f) as [|entry l] eqn:E; [done|]. injection Hk as Hk _.
  exists entry. split; [|done]. exists f. split; [done|]. rewrite E. by left.
Defined.

Lemma keys_kept_until_released_witness : keys_snapshot d2 "c" !! "A" = Some "A".
Proof.
  destruct (keys_kept_until_released world ∅ d1 d2 "c" "A" "A" d1_reachable) as [Hx|Hr].
  - apply (st_current _ (call 24 "B") "c" None d2 next_key.2). apply surjective_pairing.
  - vm_compute. reflexivity.
  - exact Hx.
  - vm_compute. reflexivity.
Defined.

Lemma fallback_survives_witness : fallback_key (rotate "c" d1) "c" = Some ("A", "A").
Proof.
  destruct (fallback_survives world ∅ d1 (rotate "c" d1) "c" "A" "A" d1_reachable) as [Hx|_].
  - apply st_rotate.
  - vm_compute. reflexivity.
  - exact Hx.
  - vm_compute. reflexivity.
Defined.
End Example.
