(* ===== verification/HistoryCrypto.v ===== *)
(** * History crypto v1

    Model of src/src/history_crypto.rs: sealing history records under a segment
    key, and wrapping segment keys for recipients (X-Wing, HKDF-SHA256,
    ChaCha20-Poly1305). The primitives are the classes [HistoryPrimitives] and
    [Aead]; the layouts of nonces, associated data and key derivation, the
    length checks and the error paths are the code's. *)
From S2P Require Import Prelude Bytes Channel Recipients Keyring Dek.
From Stdlib Require Import Strings.Byte.
Local Open Scope N_scope.

Definition ascii_bytes (s : string) : bytes := String.list_byte_of_string s.
Definition LABEL : bytes := ascii_bytes "todex-history-v1".
Definition PUBLIC_KEY_LEN : nat := 1216.
Definition KEM_CIPHERTEXT_LEN : nat := 1120.
Definition RECIPIENT_ID_LEN : nat := 16.
Definition KID_LEN : nat := 16.
Definition DEK_LEN : nat := 32.
Definition WRAPPED_DEK_LEN : nat := DEK_LEN + 16.
Definition API_KEY_RECIPIENT_INFO : bytes := ascii_bytes "todex-apikey-v1/history-recipient".
Definition API_KEY_SALT : bytes := ascii_bytes "todex-apikey-v1".

Definition invalid_crypto (message : string) : AppError := InvalidRequest message.

(** ** Streams *)
Inductive ContentStream : Type := EventSummary | EventFull | FrameSummary | FrameFull.
#[export] Instance ContentStream_eq_dec : EqDecision ContentStream.
Proof. solve_decision. Defined.

Definition as_u32 (self : ContentStream) : N :=
  match self with EventSummary => 1 | EventFull => 2 | FrameSummary => 3 | FrameFull => 4 end.
Definition stream_try_from (value : N) : result AppError ContentStream :=
  if value =? 1 then Ok EventSummary
  else if value =? 2 then Ok EventFull
  else if value =? 3 then Ok FrameSummary
  else if value =? 4 then Ok FrameFull
  else Err (invalid_crypto "unknown history content stream").

(** SHA-256, HKDF-SHA256 (32 bytes out), X-Wing and base64url. Encapsulation
    draws its randomness from the argument. *)
Class HistoryPrimitives := {
  sha256 : bytes → bytes;
  hkdf : bytes → bytes → bytes → bytes;          (* salt, input, info *)
  EncapsulationKey : Type;
  ek_try_from : bytes → option EncapsulationKey;
  ek_bytes : EncapsulationKey → bytes;
  encapsulate : EncapsulationKey → bytes → bytes * bytes;
  encapsulation_key : bytes → EncapsulationKey;  (* of a private seed *)
  decapsulate : bytes → bytes → bytes;
  b64_encode : bytes → string;
  b64_decode : string → option bytes;
}.
Class HistoryPrimitivesLaws `{HistoryPrimitives} : Prop := {
  sha256_length m : length (sha256 m) = 32%nat;
  ek_bytes_length ek : length (ek_bytes ek) = PUBLIC_KEY_LEN;
  ek_try_from_bytes ek : ek_try_from (ek_bytes ek) = Some ek;
  encapsulate_length ek r : length (encapsulate ek r).1 = KEM_CIPHERTEXT_LEN;
  decapsulate_encapsulate seed r :
    let '(ct, shared) := encapsulate (encapsulation_key seed) r in decapsulate seed ct = shared;
  b64_decode_encode m : b64_decode (b64_encode m) = Some m;
}.

Section history_crypto.
Context `{HistoryPrimitives} `{Aead}.

Definition recipient_id (public_key : bytes) : bytes := take RECIPIENT_ID_LEN (sha256 public_key).

Record RecipientPublicKey : Type := { rp_key : EncapsulationKey; rp_rid : bytes }.

Definition from_bytes (b : bytes) : result AppError RecipientPublicKey :=
  if negb (Nat.eqb (length b) PUBLIC_KEY_LEN)
  then Err (invalid_crypto "invalid history recipient public key length")
  else
    match ek_try_from b with
    | None => Err (invalid_crypto "invalid history recipient public key")
    | Some key => Ok {| rp_key := key; rp_rid := recipient_id b |}
    end.
Definition key_from_base64url (value : string) : result AppError RecipientPublicKey :=
  match b64_decode value with
  | None => Err (invalid_crypto "invalid history recipient public key encoding")
  | Some b => from_bytes b
  end.
Definition to_bytes (self : RecipientPublicKey) : bytes := ek_bytes (rp_key self).

(** [SegmentKey], with [generate] drawing from the two random arguments. *)
Record ContentKey : Type := { ck_kid : bytes; ck_dek : bytes }.
Definition from_parts (kid dek : bytes) : ContentKey := {| ck_kid := kid; ck_dek := dek |}.

Record WrappedContentKey : Type := { wk_rid : bytes; wk_kem_ct : bytes; wk_wrapped : bytes }.

(** The JSON form and back. *)
Definition to_json (value : WrappedContentKey) : WrappedKey :=
  {| w_rid := b64_encode (wk_rid value); w_kem_ct := b64_encode (wk_kem_ct value);
     w_wrapped := b64_encode (wk_wrapped value) |}.
Definition decode_exact (n : nat) (value : string) : result AppError bytes :=
  match b64_decode value with
  | Some b => if Nat.eqb (length b) n then Ok b else Err (invalid_crypto "invalid wrapped history key")
  | None => Err (invalid_crypto "invalid wrapped history key")
  end.
Definition try_from_json (value : WrappedKey) : result AppError WrappedContentKey :=
  rid ← decode_exact RECIPIENT_ID_LEN (w_rid value);
  kem_ct ← decode_exact KEM_CIPHERTEXT_LEN (w_kem_ct value);
  wrapped ← decode_exact WRAPPED_DEK_LEN (w_wrapped value);
  Ok {| wk_rid := rid; wk_kem_ct := kem_ct; wk_wrapped := wrapped |}.

Definition wrap_info (kid rid : bytes) : bytes := LABEL ++ ascii_bytes "/wrap" ++ kid ++ rid.
Definition derive_kek (kem_ct shared info : bytes) : bytes := hkdf kem_ct shared info.
Definition zero_nonce : bytes := replicate 12 Byte.x00.

Definition wrap_encapsulated (key : ContentKey) (rid kem_ct shared : bytes) :
    result AppError WrappedContentKey :=
  let info := wrap_info (ck_kid key) rid in
  let kek := derive_kek kem_ct shared info in
  match aead_encrypt kek zero_nonce (ck_dek key) info with
  | None => Err (invalid_crypto "unable to wrap history key")
  | Some c =>
      if Nat.eqb (length c) WRAPPED_DEK_LEN
      then Ok {| wk_rid := rid; wk_kem_ct := kem_ct; wk_wrapped := c |}
      else Err (invalid_crypto "unable to wrap history key")
  end.
Definition wrap_key (random : bytes) (key : ContentKey) (recipient : RecipientPublicKey) :
    result AppError WrappedContentKey :=
  let '(kem_ct, shared) := encapsulate (rp_key recipient) random in
  wrap_encapsulated key (rp_rid recipient) kem_ct shared.

Definition content_nonce (stream : ContentStream) (counter : N) : bytes :=
  u32_to_be_bytes (as_u32 stream) ++ u64_to_be_bytes counter.
Definition content_aad (conversation_id kid : bytes) (stream : ContentStream) (counter : N) : bytes :=
  LABEL ++ ascii_bytes "/content" ++ [Byte.x00] ++ conversation_id ++ [Byte.x00] ++ kid ++
  u32_to_be_bytes (as_u32 stream) ++ u64_to_be_bytes counter.

Definition seal (key : ContentKey) (conversation_id : bytes) (stream : ContentStream) (counter : N)
    (plaintext : bytes) : result AppError bytes :=
  ok_or (aead_encrypt (ck_dek key) (content_nonce stream counter) plaintext
           (content_aad conversation_id (ck_kid key) stream counter))
    (invalid_crypto "unable to seal history content").
Definition open (key : ContentKey) (conversation_id : bytes) (stream : ContentStream) (counter : N)
    (ciphertext : bytes) : result AppError bytes :=
  ok_or (aead_decrypt (ck_dek key) (content_nonce stream counter) ciphertext
           (content_aad conversation_id (ck_kid key) stream counter))
    (invalid_crypto "history content authentication failed").

Definition api_key_recipient_seed (secret : bytes) : bytes := hkdf API_KEY_SALT secret API_KEY_RECIPIENT_INFO.
Definition recipient_from_seed (seed : bytes) : result AppError RecipientPublicKey :=
  from_bytes (ek_bytes (encapsulation_key seed)).

Definition unwrap_with_seed (seed : bytes) (w : WrappedContentKey) (kid : bytes) : result AppError ContentKey :=
  let rid := recipient_id (ek_bytes (encapsulation_key seed)) in
  if negb (bool_decide (rid = wk_rid w))
  then Err (invalid_crypto "wrapped history key is for another recipient")
  else
    let shared := decapsulate seed (wk_kem_ct w) in
    let info := wrap_info kid rid in
    let kek := derive_kek (wk_kem_ct w) shared info in
    match aead_decrypt kek zero_nonce (wk_wrapped w) info with
    | None => Err (invalid_crypto "wrapped history key authentication failed")
    | Some dek =>
        if Nat.eqb (length dek) DEK_LEN then Ok (from_parts kid dek)
        else Err (invalid_crypto "invalid wrapped history key")
    end.
End history_crypto.

(** ** Where a record belongs *)

Lemma as_u32_inj s s' : as_u32 s = as_u32 s' → s = s'.
Proof. by destruct s, s'. Qed.
Lemma stream_try_from_as_u32 s : stream_try_from (as_u32 s) = Ok s.
Proof. by destruct s. Qed.

Lemma as_u32_small s : as_u32 s < 256 ^ N.of_nat 4.
Proof. destruct s; reflexivity. Qed.

Lemma stream_counter_inj s c s' c' :
  c ≤ u64_MAX → c' ≤ u64_MAX →
  u32_to_be_bytes (as_u32 s) ++ u64_to_be_bytes c = u32_to_be_bytes (as_u32 s') ++ u64_to_be_bytes c' →
  s = s' ∧ c = c'.
Proof.
  intros Hc Hc' Heq. unfold u32_to_be_bytes, u64_to_be_bytes in Heq.
  apply app_inj_1 in Heq as [Hs Hcc]; [|by rewrite !length_to_be]. split.
  - apply as_u32_inj. by apply to_be_inj in Hs; [|apply as_u32_small..].
  - apply to_be_inj in Hcc; [done|..]; unfold u64_MAX in *; change (256 ^ N.of_nat 8) with (2 ^ 64); lia.
Qed.

(** a sealed record is bound to its place. The nonce determines the stream
    and counter (so no two records of one key share a nonce), the associated
    data determines the conversation, the key id, the stream and the counter,
    for any conversation id and although none of it is escaped, and it is never
    the associated data of a wrapped key. *)
Theorem content_position_is_bound conv kid s c conv' kid' s' c' :
  length kid = KID_LEN → length kid' = KID_LEN → c ≤ u64_MAX → c' ≤ u64_MAX →
  (content_nonce s c = content_nonce s' c' → s = s' ∧ c = c') ∧
  (content_aad conv kid s c = content_aad conv' kid' s' c' → conv = conv' ∧ kid = kid' ∧ s = s' ∧ c = c') ∧
  ∀ k r, content_aad conv kid s c ≠ wrap_info k r.
Proof.
  intros Hk Hk' Hc Hc'. split_and!.
  - by apply stream_counter_inj.
  - unfold content_aad. intros Heq. do 3 apply app_inv_head in Heq.
    apply app_inj_2 in Heq as [-> Heq].
    2: { rewrite !length_app, Hk, Hk'. unfold u32_to_be_bytes, u64_to_be_bytes. by rewrite !length_to_be. }
    apply app_inv_head in Heq. apply app_inj_1 in Heq as [-> Heq]; [|congruence].
    by apply stream_counter_inj in Heq.
  - intros k r. unfold content_aad, wrap_info. intros Heq. by apply app_inv_head in Heq.
Qed.

(** ** Readers *)
Section readers.
Context `{HistoryPrimitivesLaws} `{AeadLaws}.

Lemma length_recipient_id m : length (recipient_id m) = RECIPIENT_ID_LEN.
Proof. unfold recipient_id. rewrite length_take, sha256_length. done. Qed.

Lemma decode_exact_encode n m : length m = n → decode_exact n (b64_encode m) = Ok m.
Proof. intros <-. unfold decode_exact. by rewrite b64_decode_encode, Nat.eqb_refl. Qed.

Lemma json_roundtrip w :
  length (wk_rid w) = RECIPIENT_ID_LEN → length (wk_kem_ct w) = KEM_CIPHERTEXT_LEN →
  length (wk_wrapped w) = WRAPPED_DEK_LEN → try_from_json (to_json w) = Ok w.
Proof.
  intros Hr Hc Hw. unfold try_from_json, to_json. cbn [w_rid w_kem_ct w_wrapped].
  rewrite !decode_exact_encode by done. by destruct w.
Qed.

Lemma recipient_from_seed_Ok seed :
  recipient_from_seed seed = Ok {| rp_key := encapsulation_key seed;
                                   rp_rid := recipient_id (ek_bytes (encapsulation_key seed)) |}.
Proof. unfold recipient_from_seed, from_bytes. by rewrite ek_bytes_length, Nat.eqb_refl, ek_try_from_bytes. Qed.

Lemma wrap_key_Ok random key recipient :
  length (ck_dek key) = DEK_LEN →
  ∃ c, wrap_key random key recipient = Ok {| wk_rid := rp_rid recipient;
         wk_kem_ct := (encapsulate (rp_key recipient) random).1; wk_wrapped := c |} ∧
    length c = WRAPPED_DEK_LEN ∧
    aead_encrypt (derive_kek (encapsulate (rp_key recipient) random).1
                    (encapsulate (rp_key recipient) random).2 (wrap_info (ck_kid key) (rp_rid recipient)))
      zero_nonce (ck_dek key) (wrap_info (ck_kid key) (rp_rid recipient)) = Some c.
Proof.
  intros Hd. unfold wrap_key, wrap_encapsulated.
  destruct (encapsulate (rp_key recipient) random) as [ct shared]. simpl.
  destruct (aead_encrypt_total (derive_kek ct shared (wrap_info (ck_kid key) (rp_rid recipient))) zero_nonce
    (ck_dek key) (wrap_info (ck_kid key) (rp_rid recipient))) as [c Hc].
  { rewrite Hd. by vm_compute. }
  exists c. rewrite Hc. pose proof (aead_encrypt_length _ _ _ _ _ Hc) as Hl. rewrite Hd in Hl.
  change (length c = WRAPPED_DEK_LEN) in Hl. by rewrite Hl, Nat.eqb_refl.
Qed.

Lemma open_seal key conv s c m sealed : seal key conv s c m = Ok sealed → open key conv s c sealed = Ok m.
Proof. unfold seal, open. intros Hs%ok_or_Ok_inv. by rewrite (aead_decrypt_encrypt _ _ _ _ _ Hs). Qed.

(** A key wrapped for the public key of a seed unwraps with the seed. *)
Lemma wrap_unwraps seed random key :
  length (ck_dek key) = DEK_LEN →
  let pk := {| rp_key := encapsulation_key seed; rp_rid := recipient_id (ek_bytes (encapsulation_key seed)) |} in
  ∃ w, wrap_key random key pk = Ok w ∧ wk_rid w = rp_rid pk ∧ try_from_json (to_json w) = Ok w ∧
    unwrap_with_seed seed w (ck_kid key) = Ok key.
Proof.
  intros Hd pk. destruct (wrap_key_Ok random key pk Hd) as (c & Hw & Hlen & Hc). cbn [pk rp_rid rp_key] in Hc.
  eexists. split_and!; [exact Hw|done| |].
  - apply json_roundtrip; simpl; [apply length_recipient_id|apply encapsulate_length|done].
  - unfold unwrap_with_seed. cbn [wk_rid wk_kem_ct wk_wrapped pk rp_rid rp_key].
    rewrite bool_decide_eq_true_2 by done. cbn [negb].
    pose proof (decapsulate_encapsulate seed random) as Hdec.
    destruct (encapsulate (encapsulation_key seed) random) as [ct shared]. simpl in *. rewrite Hdec.
    rewrite (aead_decrypt_encrypt _ _ _ _ _ Hc), Hd, Nat.eqb_refl. by destruct key.
Qed.

(** the device a key was wrapped for, and (by recipient id) only that
    device, recovers it: for any private seed and any 32-byte key, wrapping for
    the seed's public key succeeds, survives the JSON form of the keyring, and
    unwraps to the same key, which opens every record sealed under it; a device
    with another recipient id is refused. *)
Theorem recipient_reads_what_was_sealed seed random key :
  length (ck_dek key) = DEK_LEN →
  ∃ pk w, recipient_from_seed seed = Ok pk ∧ wrap_key random key pk = Ok w ∧
    try_from_json (to_json w) = Ok w ∧
    unwrap_with_seed seed w (ck_kid key) = Ok key ∧
    (∀ conv s c m sealed, seal key conv s c m = Ok sealed → open key conv s c sealed = Ok m) ∧
    (∀ seed', recipient_id (ek_bytes (encapsulation_key seed')) ≠ rp_rid pk →
       unwrap_with_seed seed' w (ck_kid key) =
         Err (invalid_crypto "wrapped history key is for another recipient")).
Proof.
  intros Hd. rewrite recipient_from_seed_Ok. destruct (wrap_unwraps seed random key Hd) as (w & Hw & Hrid & Hj & Hu).
  eexists _, w. split_and!; [done|exact Hw|done|done|intros conv s c m sealed; apply open_seal|].
  intros seed' Hne. unfold unwrap_with_seed. rewrite Hrid. cbn [rp_rid] in *. by rewrite bool_decide_eq_false_2.
Qed.
End readers.

(** ** The DEK manager's view of this module *)
Section dek_instance.
Context `{HistoryPrimitives} `{Aead} (rng : ContentKey → RecipientPublicKey → bytes).

#[export] Instance history_recipient_keys : RecipientKeys := {|
  PublicKey := RecipientPublicKey;
  from_base64url := key_from_base64url;
  key_rid key := b64_encode (rp_rid key);
  key_text key := b64_encode (to_bytes key);
|}.
#[export] Instance history_segment_keys : SegmentKeys := {|
  SegmentKey := ContentKey;
  key_kid key := b64_encode (ck_kid key);
  wrap key pk := to_json <$> wrap_key (rng key pk) key pk;
|}.
#[export] Instance history_segment_keys_laws : SegmentKeysLaws.
Proof.
  split. intros key pk w Hw. simpl in *. unfold wrap_key, wrap_encapsulated in Hw.
  destruct (encapsulate (rp_key pk) (rng key pk)) as [ct shared].
  destruct (aead_encrypt _ _ _ _) as [c|]; [|done]. destruct (Nat.eqb _ _); [|done]. by injection Hw as <-.
Qed.
End dek_instance.

(** ** Toy primitives: two key pairs, keys and texts in the clear *)
Module Example.
Import PlainAead.

Definition fill (n : nat) (b : byte) : bytes := replicate n b.
Definition first (l : bytes) : byte := match l with b :: _ => b | [] => Byte.x00 end.
#[local] Instance toy : HistoryPrimitives := {|
  sha256 m := fill 32 (first m);
  hkdf salt input info := input;
  EncapsulationKey := byte;
  ek_try_from m := Some (first m);
  ek_bytes ek := fill PUBLIC_KEY_LEN ek;
  encapsulate ek r := (fill KEM_CIPHERTEXT_LEN (first r), [first r]);
  encapsulation_key seed := first seed;
  decapsulate seed ct := [first ct];
  b64_encode m := String.string_of_list_byte m;
  b64_decode s := Some (String.list_byte_of_string s);
|}.
#[local] Instance toy_laws : HistoryPrimitivesLaws.
Proof.
  split; intros; simpl; try reflexivity; try apply length_replicate.
  by rewrite String.list_byte_of_string_of_list_byte.
Qed.

Definition key : ContentKey := {| ck_kid := fill 16 Byte.x07; ck_dek := fill 32 Byte.x2a |}.

Lemma content_position_is_bound_witness :
  content_aad [Byte.x61] (ck_kid key) EventFull 7 ≠ content_aad [Byte.x61] (ck_kid key) EventSummary 7.
Proof.
  intros Heq. apply (content_position_is_bound [Byte.x61] (ck_kid key) EventFull 7
    [Byte.x61] (ck_kid key) EventSummary 7) in Heq as (_ & _ & Hs & _); [done..].
Defined.

Lemma recipient_reads_what_was_sealed_witness :
  ∃ pk w, wrap_key [Byte.x05] key pk = Ok w ∧ unwrap_with_seed [Byte.x01] w (ck_kid key) = Ok key ∧
    unwrap_with_seed [Byte.x02] w (ck_kid key) =
      Err (invalid_crypto "wrapped history key is for another recipient").
Proof.
  destruct (recipient_reads_what_was_sealed [Byte.x01] [Byte.x05] key eq_refl)
    as (pk & w & Hpk & Hw & _ & Hun & _ & Hother).
  exists pk, w. split_and!; [exact Hw|exact Hun|]. apply Hother.
  rewrite recipient_from_seed_Ok in Hpk. injection Hpk as <-. by vm_compute.
Defined.
End Example.
