(* ===== verification/Record.v ===== *)
(** * Journal records

    Model of src/src/conversation/record.rs and of the write path of
    src/src/conversation/store.rs that uses it ([stored_record]): the v3 record
    of an event, its plaintext envelope, end-to-end encrypted records and the
    markers of stripped records. The JSON text of a line is the interface
    [Serde] (serde_json), instants are nanoseconds since the epoch. *)
From S2P Require Import Prelude Bytes Channel Json JsonObject Model Digest Summary Recipients Keyring Dek HistoryCrypto.
From Stdlib Require Import Strings.Byte.
Local Open Scope N_scope.

Definition ENCRYPTED_VERSION : N := 1.
Definition V3_RECORD_PREFIX : bytes := ascii_bytes "{" ++ [Byte.x22] ++ ascii_bytes "s" ++ [Byte.x22] ++ ascii_bytes ":".
Definition COMPACTED_RECORD_PREFIX : bytes :=
  ascii_bytes "{" ++ [Byte.x22] ++ ascii_bytes "sequence" ++ [Byte.x22] ++ ascii_bytes ":".
Definition JOURNAL_COMPACTED_EVENT : string := "journal.compacted".
Definition ENVELOPE_ID_KEYS : list string :=
  ["turnId"; "nativeTurnId"; "clientRequestId"; "requestId"; "permissionId"; "runtimeId"; "operationId";
   "itemId"; "messageId"; "toolCallId"; "subagentId"].

(** ** The envelope *)
Section envelope.
Context `{JsonView}.

Definition scalar (value : Value) : bool :=
  match view value with SString _ | SNumber _ => true | _ => false end.

(** [if let Some(value) = from.get(key).filter(scalar) { into.insert(key, value) }]
    for each key. *)
Definition copy_scalars (keys : list string) (from into : gmap string Value) : gmap string Value :=
  foldl (λ acc key,
    match from !! key with Some v => if scalar v then <[key := v]> acc else acc | None => acc end) into keys.

(** [numeric_only]: the depth of the value is enough fuel, since a member is
    less deep than its object. *)
Fixpoint numeric_only_go (fuel : nat) (value : Value) : option Value :=
  match view value with
  | SNumber _ => Some value
  | SObject map =>
      match fuel with
      | O => None
      | S fuel =>
          let slim := omap (numeric_only_go fuel) map in
          if bool_decide (slim = ∅) then None else Some (object_value slim)
      end
  | _ => None
  end.
Definition numeric_only (value : Value) : option Value := numeric_only_go (depth value) value.

(** The allowlisted part of [block] and of [control]. *)
Definition slim_object (keys : list string) (o : option Value) : option (gmap string Value) :=
  block ← o ≫= as_object;
  let slim := copy_scalars keys block ∅ in
  if decide (slim = ∅) then None else Some slim.
Definition insert_some (key : string) (o : option Value) (m : gmap string Value) : gmap string Value :=
  match o with Some v => <[key := v]> m | None => m end.

Definition envelope_fields (event_type : string) (payload : Value) : gmap string Value :=
  match as_object payload with
  | None => ∅
  | Some payload =>
      let keyed prefix := starts_with prefix event_type in
      let copy key envelope := copy_scalars [key] payload envelope in
      let envelope := copy_scalars ENVELOPE_ID_KEYS payload ∅ in
      let envelope := if keyed "message." then copy "role" envelope else envelope in
      let envelope :=
        if String.eqb event_type "provider.runtime" || keyed "turn." || keyed "subagent."
        then copy "status" envelope else envelope in
      let envelope :=
        if keyed "permission." || String.eqb event_type "tool.awaitingApproval"
        then copy "scope" envelope else envelope in
      let envelope := if keyed "control." then copy "code" envelope else envelope in
      let envelope := copy "stopReason" envelope in
      let envelope := copy "requestFingerprint" envelope in
      let envelope := copy "textMac" envelope in
      let envelope :=
        insert_some "block" (object_value <$> slim_object ["category"; "id"; "turnId"] (payload !! "block")) envelope in
      let envelope :=
        insert_some "control" (object_value <$> slim_object ["action"; "itemId"; "textMac"] (payload !! "control"))
          envelope in
      insert_some "usage" (payload !! "usage" ≫= numeric_only) envelope
  end.

(** [FingerprintKey]: [mac] is [base64url(HMAC-SHA256(key, text))];
    [to_string] is the JSON text of a value. *)
Definition control_mac (mac : string → string) (to_string : Value → string) (control : Value) : string :=
  mac (to_string control).

Definition add_history_macs (mac : string → string) (to_string : Value → string) (event_type : string)
    (payload : Value) : Value :=
  match as_object payload with
  | None => payload
  | Some map =>
      let map :=
        match map !! "requestFingerprint" ≫= as_str with
        | Some fingerprint => <["requestFingerprint" := string_value (mac fingerprint)]> map
        | None =>
            if String.eqb event_type "control.requested" then
              match map !! "control" with
              | Some control =>
                  if is_object control
                  then <["requestFingerprint" := string_value (control_mac mac to_string control)]> map
                  else map
              | None => map
              end
            else map
        end in
      let map :=
        match map !! "control" ≫= as_object with
        | Some control =>
            match control !! "text" ≫= as_str with
            | Some text =>
                <["control" := object_value (<["textMac" := string_value (mac text)]> control)]> map
            | None => map
            end
        | None => map
        end in
      object_value map
  end.

(** [rename_reserved_encrypted_field]. *)
Definition rename_reserved_encrypted_field (payload : Value) : Value :=
  match as_object payload with
  | Some map =>
      match map !! ENCRYPTED_FIELD with
      | Some value => object_value (<["_" +:+ ENCRYPTED_FIELD := value]> (delete ENCRYPTED_FIELD map))
      | None => payload
      end
  | None => payload
  end.
End envelope.
#[global] Arguments copy_scalars : simpl never.
#[global] Arguments numeric_only : simpl never.
#[global] Arguments slim_object : simpl never.
#[global] Arguments envelope_fields : simpl never.

(** ** Records *)
Section records.
Context `{JsonView}.

Record RecordOut : Type := {
  o_s : N; o_i : string; o_t : Z; o_y : string; o_r : option string; o_p : option ProviderKind;
  o_n : option string; o_tn : option N; o_e : gmap string Value; o_c : option Value; o_x : option Value;
}.
Record RecordIn : Type := {
  r_s : N; r_i : string; r_t : Z; r_y : string; r_r : option string; r_p : option ProviderKind;
  r_n : option string; r_tn : option N; r_e : gmap string Value; r_c : option Value; r_x : option Value;
}.
Record CompactedRun : Type := {
  cr_event_id : string; cr_time_us : Z; cr_original_type : string; cr_run_start : N; cr_run_length : N;
}.
Record CompactedRecord : Type := { c_sequence : N; c_compacted : CompactedRun }.

(** serde_json, for the types of this file, and the range of chrono's
    [DateTime<Utc>] in nanoseconds. *)
Class Serde := {
  value_to_vec : Value → bytes;
  value_from_slice : bytes → option Value;
  value_to_string : Value → string;
  record_to_vec : RecordOut → bytes;
  record_from_slice : bytes → option RecordIn;
  compacted_from_slice : bytes → option CompactedRecord;
  event_from_slice : bytes → option ConversationEvent;
  time_in_range : Z → bool;
}.

(** An [Option<Value>] member holding [null] reads back as absent. *)
Definition non_null (o : option Value) : option Value :=
  v ← o; if is_null v then None else Some v.
Definition read_back (r : RecordOut) : RecordIn :=
  {| r_s := o_s r; r_i := o_i r; r_t := o_t r; r_y := o_y r; r_r := o_r r; r_p := o_p r; r_n := o_n r;
     r_tn := o_tn r; r_e := o_e r; r_c := non_null (o_c r); r_x := non_null (o_x r) |}.

(** Derived serialization writes members in order and skips the absent ones;
    derived deserialization reads them back, absent ones as defaults. *)
Class SerdeLaws `{Serde} : Prop := {
  value_roundtrip v : value_from_slice (value_to_vec v) = Some v;
  record_roundtrip r : record_from_slice (record_to_vec r) = Some (read_back r);
  record_prefix r : take (length V3_RECORD_PREFIX) (record_to_vec r) = V3_RECORD_PREFIX;
  time_truncates t : time_in_range t = true → time_in_range (t / 1000 * 1000)%Z = true;
}.
End records.

Section codec.
Context `{JsonView} `{!Serde}.

(** [DateTime::from_timestamp_micros]. *)
Definition from_timestamp_micros (t : Z) : option Z :=
  if time_in_range (t * 1000)%Z then Some (t * 1000)%Z else None.

Definition into_event (self : RecordIn) (conversation_id : string) (content : option Value) :
    result string ConversationEvent :=
  match from_timestamp_micros (r_t self) with
  | None => Err "record has an invalid time"
  | Some time =>
      let time :=
        match r_tn self with
        | Some nanos => if (0 <? nanos) && (nanos <? 1000) then (time + Z.of_N nanos)%Z else time
        | None => time
        end in
      let normalized_type :=
        match r_n self with
        | None => Some (normalized_event_type (r_y self))
        | Some value => if String.eqb value "" then None else Some value
        end in
      let payload :=
        match Digest.or content (r_c self), r_x self with
        | Some payload, _ => Ok payload
        | None, Some x =>
            match as_object x with
            | Some encrypted => Ok (object_value (<[ENCRYPTED_FIELD := object_value encrypted]> (r_e self)))
            | None => Err "record has invalid ciphertext"
            end
        | None, None => Err "record has no content"
        end in
      payload ← payload;
      Ok {| schema_version := CONVERSATION_SCHEMA_VERSION; sequence := r_s self; event_id := r_i self;
            conversation_id := conversation_id; time := time; event_type := r_y self;
            normalized_type := normalized_type; raw_type := r_r self; provider := r_p self;
            payload := payload |}
  end.

Definition record_out (event : ConversationEvent) (envelope : gmap string Value) (normalized : string)
    (content encrypted : option Value) : RecordOut :=
  let nanos := (time event mod 1000)%Z in
  {| o_s := sequence event;
     o_i := event_id event;
     o_t := (time event / 1000)%Z;
     o_y := event_type event;
     o_r := raw_type event;
     o_p := provider event;
     o_n := match normalized_type event with
            | Some value => if String.eqb value normalized then None else Some value
            | None => Some ""
            end;
     o_tn := if (0 <? nanos)%Z then Some (Z.to_N nanos) else None;
     o_e := envelope;
     o_c := content;
     o_x := encrypted |}.

Definition encode_record (event : ConversationEvent) : bytes :=
  let envelope := envelope_fields (event_type event) (payload event) in
  let normalized := normalized_event_type (event_type event) in
  let '(content, encrypted) :=
    match get (payload event) ENCRYPTED_FIELD with
    | Some encrypted => if is_object encrypted then (None, Some encrypted) else (Some (payload event), None)
    | None => (Some (payload event), None)
    end in
  record_to_vec (record_out event envelope normalized content encrypted).

Definition encode_envelope (event : ConversationEvent) : bytes :=
  let envelope := envelope_fields (event_type event) (payload event) in
  let normalized := normalized_event_type (event_type event) in
  record_to_vec (record_out event envelope normalized None None).

Definition record_bytes (envelope_bytes content_bytes : nat) : N :=
  N.of_nat (envelope_bytes + content_bytes + 5).

Definition parse_record (line : bytes) : option RecordIn := record_from_slice line.

(** [ConversationEvent::new] draws an id and reads the clock; the marker
    overwrites both. *)
Definition compacted_into_event (self : CompactedRecord) (conversation_id : string) : ConversationEvent :=
  let run := c_compacted self in
  let event := ConversationEvent_new "" 0 conversation_id (c_sequence self) JOURNAL_COMPACTED_EVENT
    (object_value (list_to_map [
      ("reason", string_value "compacted");
      ("originalType", string_value (cr_original_type run));
      ("runStart", u64_value (cr_run_start run));
      ("runLength", u64_value (cr_run_length run))])) in
  {| schema_version := schema_version event; sequence := sequence event; event_id := cr_event_id run;
     Model.conversation_id := Model.conversation_id event; time := cr_time_us run; event_type := event_type event;
     normalized_type := normalized_type event; raw_type := raw_type event; provider := provider event;
     payload := payload event |}.

Definition compacted_marker (original : ConversationEvent) (run_start run_length : N) : ConversationEvent :=
  compacted_into_event
    {| c_sequence := sequence original;
       c_compacted := {| cr_event_id := event_id original; cr_time_us := time original;
                         cr_original_type := event_type original;
                         cr_run_start := run_start; cr_run_length := run_length |} |}
    (Model.conversation_id original).

(** [line.starts_with(prefix)]. *)
Definition has_prefix (prefix line : bytes) : bool := bool_decide (take (length prefix) line = prefix).

Definition decode_journal_record (line : bytes) (conversation_id : string) : result string ConversationEvent :=
  if has_prefix V3_RECORD_PREFIX line then
    match record_from_slice line with
    | Some record => into_event record conversation_id None
    | None => Err "invalid record"
    end
  else if has_prefix COMPACTED_RECORD_PREFIX line then
    match compacted_from_slice line with
    | Some record => Ok (compacted_into_event record conversation_id)
    | None => Err "invalid record"
    end
  else ok_or (event_from_slice line) "invalid record".
End codec.

(** ** Encrypted records *)
Section encrypted.
Context `{JsonView} `{!Serde} `{HistoryPrimitives} `{Aead}.

(** The text of a Rust [String] as the bytes it is. *)
Definition str_bytes (s : string) : bytes := ascii_bytes s.

(** The members of [$enc] that say what it seals. *)
Definition encrypted_head (event : ConversationEvent) (kid : string) : gmap string Value :=
  <["n" := u64_value (sequence event)]>
    (<["c" := string_value (conversation_id event)]>
      (<["kid" := string_value kid]> (<["v" := u64_value ENCRYPTED_VERSION]> ∅))).

(** [seal_event]; the kid is the key's id in base64url. *)
Definition seal_event (event : ConversationEvent) (kid : string) (key : ContentKey) :
    result AppError ConversationEvent :=
  let cid := str_bytes (conversation_id event) in
  let full := value_to_vec (payload event) in
  let summarized := summarize_event event in
  let summary := if summarized.2 then Some (value_to_vec (payload summarized.1)) else None in
  let encrypted := encrypted_head event kid in
  encrypted ←
    match summary with
    | Some summary =>
        sealed ← seal key cid EventSummary (sequence event) summary;
        Ok (<["s" := string_value (b64_encode sealed)]> encrypted)
    | None => Ok encrypted
    end;
  sealed ← seal key cid EventFull (sequence event) full;
  let encrypted := <["f" := string_value (b64_encode sealed)]> encrypted in
  let envelope := envelope_fields (event_type event) (payload event) in
  Ok (with_payload event (object_value (<[ENCRYPTED_FIELD := object_value encrypted]> envelope))).

Definition open_field (encrypted : gmap string Value) (conversation_id : string) (sequence : N) (key : ContentKey)
    (field : string) (stream : ContentStream) : option Value :=
  text ← encrypted !! field ≫= as_str;
  sealed ← b64_decode text;
  plaintext ← ok (open key (str_bytes conversation_id) stream sequence sealed);
  value_from_slice plaintext.

Definition open_event (encrypted : gmap string Value) (conversation_id : string) (sequence : N) (key : ContentKey) :
    option (Value * Value) :=
  if negb (bool_decide (encrypted !! "v" ≫= as_u64 = Some ENCRYPTED_VERSION))
     || negb (bool_decide (encrypted !! "c" ≫= as_str = Some conversation_id))
     || negb (bool_decide (encrypted !! "n" ≫= as_u64 = Some sequence))
     || bool_decide (is_Some (encrypted !! "fr"))
  then None
  else
    full ← open_field encrypted conversation_id sequence key "f" EventFull;
    summary ← match encrypted !! "s" with
              | Some _ => open_field encrypted conversation_id sequence key "s" EventSummary
              | None => Some full
              end;
    Some (full, summary).

(** [stored_record]: what an append writes, and its line. *)
Definition stored_record (event : ConversationEvent) (key : option (string * ContentKey * (string → string))) :
    result AppError (ConversationEvent * bytes) :=
  event ←
    match key with
    | Some (kid, key, mac) =>
        let event := with_payload event (add_history_macs mac value_to_string (event_type event) (payload event)) in
        seal_event event kid key
    | None => Ok event
    end;
  Ok (event, encode_record event).
End encrypted.

(** ** The envelope, member by member *)
Section envelope_lemmas.
Context `{JsonViewLaws}.
Implicit Types m from into : gmap string Value.

Definition scalar_at (m : gmap string Value) (k : string) : bool :=
  match m !! k with Some v => scalar v | None => false end.
(** The scalar members the envelope of an event of type [t] keeps. *)
Definition envelope_keys (t : string) : list string :=
  ENVELOPE_ID_KEYS
  ++ (if starts_with "message." t then ["role"] else [])
  ++ (if String.eqb t "provider.runtime" || starts_with "turn." t || starts_with "subagent." t
      then ["status"] else [])
  ++ (if starts_with "permission." t || String.eqb t "tool.awaitingApproval" then ["scope"] else [])
  ++ (if starts_with "control." t then ["code"] else [])
  ++ ["stopReason"] ++ ["requestFingerprint"] ++ ["textMac"].

Lemma lookup_copy_scalars keys from into k :
  copy_scalars keys from into !! k = if one_of keys k && scalar_at from k then from !! k else into !! k.
Proof.
  unfold copy_scalars, scalar_at. induction keys as [|key keys IH] using rev_ind; [done|].
  rewrite foldl_app. cbn [foldl]. unfold one_of in *. rewrite existsb_app. cbn [existsb].
  destruct (String.eqb_spec k key) as [->|Hne].
  - rewrite orb_true_r. cbn [andb]. destruct (from !! key) as [v|] eqn:Hv.
    + destruct (scalar v); [by rewrite lookup_insert_eq|]. by rewrite IH, andb_false_r.
    + by rewrite IH, andb_false_r.
  - rewrite !orb_false_r, <-IH. repeat case_match; rewrite ?lookup_insert_ne by done; done.
Qed.

Lemma copy_scalars_app l1 l2 from into :
  copy_scalars (l1 ++ l2) from into = copy_scalars l2 from (copy_scalars l1 from into).
Proof. apply foldl_app. Qed.
Lemma copy_scalars_if (b : bool) keys from into :
  copy_scalars (if b then keys else []) from into = if b then copy_scalars keys from into else into.
Proof. by destruct b. Qed.

Lemma lookup_insert_some key o m k :
  insert_some key o m !! k = if String.eqb k key then match o with Some v => Some v | None => m !! k end else m !! k.
Proof.
  unfold insert_some. destruct (String.eqb_spec k key) as [->|Hne]; destruct o; try done.
  - by rewrite lookup_insert_eq.
  - by rewrite lookup_insert_ne.
Qed.

Lemma one_of_app l1 l2 k : one_of (l1 ++ l2) k = one_of l1 k || one_of l2 k.
Proof. apply existsb_app. Qed.

Lemma envelope_keys_scalar t k :
  one_of ["block"; "control"; "usage"; ENCRYPTED_FIELD] k = true → one_of (envelope_keys t) k = false.
Proof.
  intros Hk. apply one_of_spec in Hk. unfold envelope_keys. rewrite !one_of_app.
  elem_cases Hk; by repeat (case_match; cbn).
Qed.

Lemma lookup_envelope t m k :
  envelope_fields t (object_value m) !! k =
    if String.eqb k "usage" then m !! "usage" ≫= numeric_only
    else if String.eqb k "control" then object_value <$> slim_object ["action"; "itemId"; "textMac"] (m !! "control")
    else if String.eqb k "block" then object_value <$> slim_object ["category"; "id"; "turnId"] (m !! "block")
    else if one_of (envelope_keys t) k && scalar_at m k then m !! k else None.
Proof.
  unfold envelope_fields. rewrite as_object_value. cbn zeta. rewrite !lookup_insert_some.
  rewrite <-!copy_scalars_if, <-!copy_scalars_app. fold (envelope_keys t).
  rewrite lookup_copy_scalars, lookup_empty.
  destruct (String.eqb_spec k "usage") as [->|Hu].
  { rewrite envelope_keys_scalar by done. by destruct (m !! "usage" ≫= numeric_only). }
  destruct (String.eqb_spec k "control") as [->|Hc].
  { rewrite envelope_keys_scalar by done. by destruct (slim_object _ (m !! "control")). }
  destruct (String.eqb_spec k "block") as [->|Hb]; [|done].
  rewrite envelope_keys_scalar by done. by destruct (slim_object _ (m !! "block")).
Qed.
End envelope_lemmas.

(** ** The envelope of an envelope *)
Section idempotence.
Context `{JsonViewLaws}.
Implicit Types m : gmap string Value.

Lemma omap_ext_Some (f g : Value → option Value) m :
  (∀ k x, m !! k = Some x → f x = g x) → omap f m = omap g m.
Proof.
  intros Hfg. apply map_eq. intros k. rewrite !lookup_omap.
  destruct (m !! k) as [x|] eqn:Hk; cbn; [by eapply Hfg|done].
Qed.

Lemma no_members v m : view v = SObject m → depth v = O → m = ∅.
Proof.
  intros Hv Hd. apply map_empty. intros k. destruct (m !! k) as [x|] eqn:Hk; [|done].
  pose proof (depth_object _ _ _ _ Hv Hk). lia.
Qed.

Lemma numeric_only_fuel f f' v :
  (depth v ≤ f)%nat → (depth v ≤ f')%nat → numeric_only_go f v = numeric_only_go f' v.
Proof.
  revert f' v. induction f as [|f IH]; intros [|f'] v Hf Hf'; cbn; destruct (view v) eqn:Hv; try done.
  - rewrite (no_members v m Hv) by lia. by rewrite omap_empty, bool_decide_true.
  - rewrite (no_members v m Hv) by lia. by rewrite omap_empty, bool_decide_true.
  - rewrite (omap_ext_Some (numeric_only_go f) (numeric_only_go f') m); [done|].
    intros k x Hk. pose proof (depth_object _ _ _ _ Hv Hk). apply IH; lia.
Qed.

Lemma numeric_only_eq v :
  numeric_only v =
    match view v with
    | SNumber _ => Some v
    | SObject m => let slim := omap numeric_only m in
                   if bool_decide (slim = ∅) then None else Some (object_value slim)
    | _ => None
    end.
Proof.
  unfold numeric_only at 1. destruct (view v) eqn:Hv; destruct (depth v) as [|d] eqn:Hd; cbn; rewrite ?Hv; try done.
  - rewrite (no_members v m Hv Hd). by rewrite omap_empty, bool_decide_true.
  - rewrite (omap_ext_Some (numeric_only_go d) numeric_only m); [done|].
    intros k x Hk. pose proof (depth_object _ _ _ _ Hv Hk). apply numeric_only_fuel; lia.
Qed.

Lemma numeric_only_idem v w : numeric_only v = Some w → numeric_only w = Some w.
Proof.
  revert w. induction v as [v IH] using (induction_ltof1 _ depth). unfold ltof in IH.
  intros w. rewrite numeric_only_eq. destruct (view v) as [| |n| | |m] eqn:Hv; try done.
  { intros [= <-]. rewrite numeric_only_eq. by rewrite Hv. }
  cbn zeta. case_bool_decide as Hne; [done|]. intros [= <-]. rewrite numeric_only_eq.
  unfold object_value at 1. rewrite view_build. cbn zeta.
  assert (Hid : omap numeric_only (omap numeric_only m) = omap numeric_only m).
  { apply map_eq. intros k. rewrite !lookup_omap. destruct (m !! k) as [x|] eqn:Hk; [|done]. cbn.
    destruct (numeric_only x) as [y|] eqn:Hx; [|done]. cbn. apply (IH x); [|done]. by eapply depth_object. }
  rewrite Hid. by rewrite bool_decide_false.
Qed.

Lemma slim_object_idem keys o slim :
  slim_object keys o = Some slim → slim_object keys (Some (object_value slim)) = Some slim.
Proof.
  unfold slim_object. intros Hs. apply bind_Some in Hs as (b & _ & Hs). case_decide as Hne; [done|].
  injection Hs as <-. cbn. rewrite as_object_value. cbn.
  assert (Hid : copy_scalars keys (copy_scalars keys b ∅) ∅ = copy_scalars keys b ∅).
  { apply map_eq. intros k. rewrite !lookup_copy_scalars, lookup_empty. unfold scalar_at.
    rewrite lookup_copy_scalars, lookup_empty. destruct (one_of keys k); [|done]. cbn.
    unfold scalar_at. destruct (b !! k) as [v|]; [|done]. destruct (scalar v) eqn:Hv; cbn; by rewrite ?Hv. }
  rewrite Hid. by case_decide.
Qed.

Lemma envelope_empty t m : (∀ k, k ≠ ENCRYPTED_FIELD → m !! k = None) → envelope_fields t (object_value m) = ∅.
Proof.
  intros Hm. apply map_eq. intros k. rewrite lookup_envelope, lookup_empty.
  rewrite (Hm "usage"), (Hm "control"), (Hm "block") by done. repeat (case_match; [done|]).
  destruct (decide (k = ENCRYPTED_FIELD)) as [->|Hk]; [by rewrite envelope_keys_scalar|].
  unfold scalar_at. rewrite Hm by done. by rewrite andb_false_r.
Qed.

(** The envelope of a stored form is the envelope it holds. *)
Lemma envelope_idem t p x :
  envelope_fields t (object_value (<[ENCRYPTED_FIELD := x]> (envelope_fields t p))) = envelope_fields t p.
Proof.
  destruct (as_object p) as [m|] eqn:Hp.
  2: { unfold envelope_fields at 2 3. rewrite Hp. apply envelope_empty.
       intros k Hk. rewrite lookup_insert_ne by done. apply lookup_empty. }
  apply as_object_inv in Hp as ->. apply map_eq. intros k. rewrite lookup_envelope.
  rewrite !(lookup_insert_ne _ ENCRYPTED_FIELD) by done. unfold scalar_at. rewrite !lookup_envelope.
  destruct (String.eqb_spec k "usage") as [->|Hu].
  { cbn [String.eqb Ascii.eqb Bool.eqb]. destruct (m !! "usage" ≫= numeric_only) as [w|] eqn:Hw; [|done]. cbn.
    apply bind_Some in Hw as (v & _ & Hv). by eapply numeric_only_idem. }
  destruct (String.eqb_spec k "control") as [->|Hc].
  { cbn [String.eqb Ascii.eqb Bool.eqb]. destruct (slim_object _ (m !! "control")) as [sl|] eqn:Hs; cbn; [|done].
    by rewrite (slim_object_idem _ _ _ Hs). }
  destruct (String.eqb_spec k "block") as [->|Hb].
  { cbn [String.eqb Ascii.eqb Bool.eqb]. destruct (slim_object _ (m !! "block")) as [sl|] eqn:Hs; cbn; [|done].
    by rewrite (slim_object_idem _ _ _ Hs). }
  destruct (decide (k = ENCRYPTED_FIELD)) as [->|Hk]; [by rewrite envelope_keys_scalar|].
  rewrite lookup_insert_ne, lookup_envelope by done.
  rewrite (proj2 (String.eqb_neq _ _) Hu), (proj2 (String.eqb_neq _ _) Hc), (proj2 (String.eqb_neq _ _) Hb).
  destruct (one_of (envelope_keys t) k); [|done]. unfold scalar_at. destruct (m !! k) as [v|]; [|done]. cbn.
  destruct (scalar v) eqn:Hv; cbn; by rewrite ?Hv.
Qed.
End idempotence.

(** ** Round trips *)
Section roundtrips.
Context `{JsonViewLaws} `{!Serde} `{!SerdeLaws}.

(** What every event of the store satisfies besides its payload: the current
    schema, an instant of the calendar, and no empty normalized type (the
    empty string stands for an absent one). *)
Record storable (e : ConversationEvent) : Prop := {
  st_schema : schema_version e = CONVERSATION_SCHEMA_VERSION;
  st_time : time_in_range (time e) = true;
  st_normalized : normalized_type e ≠ Some "";
}.

(** The payload of an encrypted record: an envelope plus [$enc]. *)
Definition stored_form (t : string) (p : Value) : Prop :=
  ∃ q x, p = object_value (<[ENCRYPTED_FIELD := object_value x]> (envelope_fields t q)).

Lemma into_event_read_back e content encrypted p env c :
  storable e →
  match Digest.or content (non_null c), non_null encrypted with
  | Some p', _ => p' = p
  | None, Some x => ∃ m, x = object_value m ∧ p = object_value (<[ENCRYPTED_FIELD := object_value m]> env)
  | None, None => False
  end →
  into_event (read_back (record_out e env (normalized_event_type (event_type e)) c encrypted))
    (conversation_id e) content = Ok (with_payload e p).
Proof.
  intros [Hs Ht Hn] Hp. unfold into_event, read_back, record_out. cbn [r_s r_i r_t r_y r_r r_p r_n r_tn r_e r_c r_x
    o_s o_i o_t o_y o_r o_p o_n o_tn o_e o_c o_x].
  unfold from_timestamp_micros. rewrite time_truncates by done.
  assert (Htime : match (if (0 <? time e mod 1000)%Z then Some (Z.to_N (time e mod 1000)) else None) with
    | Some nanos => if (0 <? nanos) && (nanos <? 1000) then (time e / 1000 * 1000 + Z.of_N nanos)%Z
                    else (time e / 1000 * 1000)%Z
    | None => (time e / 1000 * 1000)%Z end = time e).
  { pose proof (Z.div_mod (time e) 1000). pose proof (Z.mod_pos_bound (time e) 1000).
    destruct (Z.ltb_spec 0 (time e mod 1000)); [|lia].
    destruct (N.ltb_spec 0 (Z.to_N (time e mod 1000))), (N.ltb_spec (Z.to_N (time e mod 1000)) 1000); cbn [andb]; lia. }
  rewrite Htime. clear Htime.
  assert (Hnorm : match match normalized_type e with
      | Some value => if String.eqb value (normalized_event_type (event_type e)) then None else Some value
      | None => Some "" end with
    | Some value => if String.eqb value "" then None else Some value
    | None => Some (normalized_event_type (event_type e)) end = normalized_type e).
  { destruct (normalized_type e) as [v|]; [|done].
    destruct (String.eqb_spec v (normalized_event_type (event_type e))) as [->|]; [done|].
    destruct (String.eqb_spec v "") as [->|]; done. }
  rewrite Hnorm. clear Hnorm.
  destruct (Digest.or content (non_null c)) as [p'|]; [subst p'|destruct (non_null encrypted) as [x|]; [|done]].
  - cbn. f_equal. destruct e; cbn in *. by subst.
  - destruct Hp as (m & -> & ->). rewrite as_object_value. cbn. f_equal. destruct e; cbn in *. by subst.
Qed.

Lemma with_own_payload e : with_payload e (payload e) = e.
Proof. by destruct e. Qed.

(** A record split into its envelope line and its content, as a sealed segment
    keeps it, joins to the event it was. *)
Lemma envelope_line_roundtrip e p :
  storable e →
  ∃ r, parse_record (encode_envelope e) = Some r ∧ r_s r = sequence e ∧
       r_e r = envelope_fields (event_type e) (payload e) ∧
       into_event r (conversation_id e) (Some p) = Ok (with_payload e p).
Proof.
  intros He. unfold parse_record, encode_envelope. rewrite record_roundtrip. eexists. split_and!; [done..|].
  by apply into_event_read_back.
Qed.

Lemma decode_encoded e :
  storable e →
  decode_journal_record (encode_record e) (conversation_id e) =
    match encrypted_content (payload e) with
    | Some m => Ok (with_payload e (object_value (<[ENCRYPTED_FIELD := object_value m]>
                                     (envelope_fields (event_type e) (payload e)))))
    | None => if is_null (payload e) then Err "record has no content" else Ok e
    end.
Proof.
  intros He. unfold decode_journal_record, encode_record, encrypted_content.
  assert (Hpre : ∀ r, has_prefix V3_RECORD_PREFIX (record_to_vec r) = true).
  { intros r. unfold has_prefix. apply bool_decide_true, record_prefix. }
  assert (Hplain : ∀ env, match record_from_slice (record_to_vec (record_out e env
      (normalized_event_type (event_type e)) (Some (payload e)) None)) with
    | Some record => into_event record (conversation_id e) None | None => Err "invalid record" end =
    if is_null (payload e) then Err "record has no content" else Ok e).
  { intros env. rewrite record_roundtrip. destruct (is_null (payload e)) eqn:Hn.
    - unfold into_event, read_back, record_out, from_timestamp_micros. destruct He as [_ Ht _].
      cbn [r_t r_c r_x o_t o_c o_x]. rewrite time_truncates by done. unfold non_null at 1. cbn. by rewrite Hn.
    - rewrite (into_event_read_back _ _ _ (payload e)); [by rewrite with_own_payload|done|].
      cbn. by rewrite Hn. }
  destruct (get (payload e) ENCRYPTED_FIELD) as [x|] eqn:Hx; [|rewrite Hpre; apply Hplain]. cbn.
  unfold is_object. destruct (as_object x) as [m|] eqn:Hm.
  2: { unfold as_object in Hm. destruct (view x); try done; rewrite Hpre; apply Hplain. }
  apply as_object_inv in Hm as ->. rewrite (view_build (SObject m) : view (object_value m) = _). cbv beta iota zeta.
  rewrite Hpre, record_roundtrip.
  apply into_event_read_back; [done|]. cbn. unfold is_null, object_value. rewrite view_build. cbn. by exists m.
Qed.

Lemma line_decodes (e : ConversationEvent) :
  storable e →
  (encrypted_content (payload e) = None ∧ payload e ≠ null_value) ∨ stored_form (event_type e) (payload e) →
  decode_journal_record (encode_record e) (conversation_id e) = Ok e.
Proof.
  intros He Hp. rewrite decode_encoded by done. destruct Hp as [[-> Hn]|(q & x & Hp)].
  - destruct (is_null (payload e)) eqn:E; [|done]. by apply is_null_spec in E.
  - unfold encrypted_content. rewrite Hp, get_object, lookup_insert_eq. cbn. rewrite as_object_value. f_equal.
    rewrite envelope_idem, <-Hp. apply with_own_payload.
Qed.

(** Every event round-trips through its journal line: a plaintext payload that
    is not null (and does not use the reserved [$enc] member), and the stored
    form of an encrypted event. *)
Theorem journal_record_roundtrip (e : ConversationEvent) :
  storable e →
  (encrypted_content (payload e) = None ∧ payload e ≠ null_value) ∨ stored_form (event_type e) (payload e) →
  decode_journal_record (encode_record e) (conversation_id e) = Ok e.
Proof. apply line_decodes. Qed.

(** An event whose payload is null is written, and its line does not decode. *)
Theorem null_payload_is_lost (e : ConversationEvent) :
  storable e → payload e = null_value →
  decode_journal_record (encode_record e) (conversation_id e) = Err "record has no content".
Proof.
  intros He Hp. rewrite decode_encoded by done. unfold encrypted_content.
  rewrite get_view, Hp, view_null. cbn. by rewrite (proj2 (is_null_spec null_value) eq_refl).
Qed.
End roundtrips.

(** ** Encrypted records *)
Section envelope_facts.
Context `{JsonViewLaws}.
Implicit Types p : Value.

Lemma same_facts_refl t p : same_facts t p p.
Proof. split; try done. intros _ e <-. by rewrite with_own_payload. Qed.

Lemma same_facts_trans t p p' p'' : same_facts t p p' → same_facts t p' p'' → same_facts t p p''.
Proof.
  intros [A1 A2 A3 A4 A5 A6] [B1 B2 B3 B4 B5 B6]. split.
  - intros k Hk. by rewrite B1, A1.
  - intros Ht. by rewrite B2, A2.
  - intros Ht. destruct (A3 Ht), (B3 Ht). split; congruence.
  - intros Ht. by rewrite B4, A4.
  - intros Ht Hp. assert (Hp' : is_Some (text p' "permissionId")) by by rewrite A1.
    destruct (A5 Ht Hp), (B5 Ht Hp'). split; congruence.
  - intros Ht e He. rewrite <-(A6 Ht e He), <-(B6 Ht (with_payload e p')) by done. done.
Qed.

(** The stored form with [$enc] = [x]. *)
Definition sealed_payload (t : string) (p x : Value) : Value :=
  object_value (<[ENCRYPTED_FIELD := x]> (envelope_fields t p)).

Lemma get_sealed t m x k :
  one_of (envelope_keys t) k = true →
  get (sealed_payload t (object_value m) x) k = if scalar_at m k then m !! k else None.
Proof.
  intros Hk. unfold sealed_payload. rewrite get_object.
  assert (Hne : ∀ k', one_of ["block"; "control"; "usage"; ENCRYPTED_FIELD] k' = true → k ≠ k').
  { intros k' Hk' ->. by rewrite envelope_keys_scalar in Hk. }
  rewrite lookup_insert_ne by by apply not_eq_sym, Hne.
  rewrite lookup_envelope, !(proj2 (String.eqb_neq k _)) by by apply Hne. by rewrite Hk.
Qed.

Lemma text_sealed t m x k :
  one_of (envelope_keys t) k = true →
  text (sealed_payload t (object_value m) x) k = text (object_value m) k.
Proof.
  intros Hk. unfold text. rewrite get_sealed, get_object by done. unfold scalar_at.
  destruct (m !! k) as [v|]; [|done]. cbn. rewrite as_str_view. unfold scalar.
  destruct (view v) eqn:Hv; cbn; rewrite ?as_str_view, ?Hv; done.
Qed.

Lemma control_sealed t m x k :
  one_of ["action"; "itemId"; "textMac"] k = true →
  get (sealed_payload t (object_value m) x) "control" ≫= (λ c, get c k ≫= as_str) =
    m !! "control" ≫= (λ c, get c k ≫= as_str).
Proof.
  intros Hk. unfold sealed_payload. rewrite get_object, lookup_insert_ne, lookup_envelope by done.
  cbn [String.eqb Ascii.eqb Bool.eqb]. unfold slim_object. destruct (m !! "control") as [c|]; [|done]. cbn.
  rewrite (get_as_object c). destruct (as_object c) as [cm|]; [|done]. cbn.
  assert (Hl : copy_scalars ["action"; "itemId"; "textMac"] cm ∅ !! k ≫= as_str = cm !! k ≫= as_str).
  { rewrite lookup_copy_scalars, lookup_empty, Hk. unfold scalar_at. destruct (cm !! k) as [v|]; [|done]. cbn.
    unfold scalar. rewrite as_str_view. destruct (view v) eqn:Hv; cbn; rewrite ?as_str_view, ?Hv; done. }
  case_decide as He; cbn; [|by rewrite get_object]. rewrite <-Hl, He. by rewrite lookup_empty.
Qed.

(** What the digest needs of a payload for the envelope to keep it: the scope
    and runtime of a permission request are scalars, and a control that
    carries text carries its MAC. *)
Record envelope_complete (t : string) (p : Value) : Prop := {
  ec_permission k v : one_of ["permission.requested"; "tool.awaitingApproval"] t = true →
    one_of ["scope"; "runtimeId"] k = true → get p k = Some v → scalar v = true;
  ec_control : t = "control.requested" →
    is_Some (get p "control" ≫= (λ c, get c "text" ≫= as_str)) →
    is_Some (get p "control" ≫= (λ c, get c "textMac" ≫= as_str));
}.

Lemma same_facts_sealed t p x : envelope_complete t p → same_facts t p (sealed_payload t p x).
Proof.
  intros [Hperm Hctl]. destruct (as_object p) as [m|] eqn:Hp.
  2: { (* nothing is read of a payload that is not an object *)
    assert (Hg : ∀ k, get p k = None) by by intros k; rewrite get_as_object, Hp.
    assert (Hs : ∀ k, k ≠ ENCRYPTED_FIELD → get (sealed_payload t p x) k = None).
    { intros k Hk. unfold sealed_payload, envelope_fields. rewrite Hp, get_object, lookup_insert_ne by done.
      apply lookup_empty. }
    split; intros; unfold text; rewrite ?Hg, ?Hs by done; try done.
    - rewrite Hs; [done|]. intros ->. by vm_compute in H2.
    - apply delivered_id_ext; subst; unfold text; by rewrite ?Hg, ?Hs. }
  apply as_object_inv in Hp as ->.
  assert (Hids : ∀ k, one_of ENVELOPE_ID_KEYS k = true → one_of (envelope_keys t) k = true).
  { intros k Hk. unfold envelope_keys. by rewrite one_of_app, Hk. }
  split.
  - intros k Hk. apply text_sealed, Hids. apply one_of_spec in Hk.
    by elem_cases Hk.
  - intros ->. by apply text_sealed.
  - intros ->. split; by apply text_sealed.
  - intros Ht. apply text_sealed. apply one_of_spec in Ht.
    by elem_cases Ht.
  - intros Ht _.
    assert (Hk : ∀ k, one_of ["scope"; "runtimeId"] k = true → one_of (envelope_keys t) k = true →
      get (sealed_payload t (object_value m) x) k = get (object_value m) k).
    { intros k Hk Hek. rewrite get_sealed by done. pose proof (Hperm k) as Hs. rewrite get_object in *.
      unfold scalar_at. destruct (m !! k) as [v|]; [|done]. by rewrite (Hs v). }
    split; (apply Hk; [done|]); [|by apply Hids]. apply one_of_spec in Ht.
    by elem_cases Ht.
  - intros Ht e He. specialize (Hctl Ht). rewrite get_object in Hctl. unfold delivered_id.
    cbn [payload with_payload]. rewrite He, text_sealed by by apply Hids. rewrite get_object.
    rewrite (control_sealed t m x "action"), (control_sealed t m x "itemId"), (control_sealed t m x "textMac") by done.
    destruct (m !! "control" ≫= (λ c, get c "textMac" ≫= as_str)) as [mac|] eqn:Hmac.
    { rewrite (bool_decide_true (is_Some (Some mac))) by done. by rewrite !orb_true_r. }
    rewrite (bool_decide_false (is_Some (m !! "control" ≫= (λ c, get c "text" ≫= as_str)))).
    2: { intros Hs. by destruct (Hctl Hs). }
    unfold sealed_payload. rewrite get_object, lookup_insert_ne, lookup_envelope by done.
    cbn [String.eqb Ascii.eqb Bool.eqb]. unfold slim_object.
    destruct (m !! "control") as [c|]; [|done]. cbn. destruct (as_object c) as [cm|]; [|done]. cbn.
    case_decide; [done|]. cbn. rewrite get_object, lookup_copy_scalars, lookup_empty. by vm_compute.
Qed.
End envelope_facts.

Section macs.
Context `{JsonViewLaws} (mac : string → string) (to_string : Value → string).

(** Adding the MACs touches two members, and leaves a control's object as it
    was but for [textMac], which it has whenever it has text. *)
Lemma add_history_macs_spec t m :
  ∃ m', add_history_macs mac to_string t (object_value m) = object_value m' ∧
    (∀ k, k ≠ "requestFingerprint" → k ≠ "control" → m' !! k = m !! k) ∧
    (∀ k, k ≠ "textMac" →
       m' !! "control" ≫= (λ c, get c k ≫= as_str) = m !! "control" ≫= (λ c, get c k ≫= as_str)) ∧
    (is_Some (m !! "control" ≫= (λ c, get c "text" ≫= as_str)) →
     is_Some (m' !! "control" ≫= (λ c, get c "textMac" ≫= as_str))) ∧
    (m !! "control" ≫= (λ c, get c "text" ≫= as_str) = None → m' !! "control" = m !! "control").
Proof.
  unfold add_history_macs. rewrite as_object_value.
  set (m1 := match m !! "requestFingerprint" ≫= as_str with Some _ => _ | None => _ end).
  assert (H1' : ∀ k, k ≠ "requestFingerprint" → m1 !! k = m !! k).
  { intros k Hk. subst m1. repeat case_match; rewrite ?lookup_insert_ne by done; done. }
  eexists. split; [done|]. rewrite (H1' "control") by done.
  destruct (m !! "control") as [c|] eqn:Hc; cbn.
  2: { split_and!; [by intros; apply H1'|by intros; rewrite H1', Hc|by intros [? ?]|by intros _; rewrite H1', Hc]. }
  destruct (as_object c) as [cm|] eqn:Hcm.
  2: { assert (Hn : ∀ k, get c k ≫= as_str = None) by by intros k; rewrite get_as_object, Hcm.
       split_and!; [by intros; apply H1'|by intros; rewrite H1', Hc| |by intros _; rewrite H1', Hc]. intros [? Hs]. by rewrite Hn in Hs. }
  apply as_object_inv in Hcm as ->. rewrite get_object.
  destruct (cm !! "text" ≫= as_str) as [tx|] eqn:Htx.
  2: { split_and!; [by intros; apply H1'|by intros; rewrite H1', Hc|by intros [? ?]|by intros _; rewrite H1', Hc]. }
  split_and!.
  - intros k Hk Hk'. rewrite lookup_insert_ne by done. by apply H1'.
  - intros k Hk. rewrite lookup_insert_eq. cbn. by rewrite !get_object, lookup_insert_ne.
  - intros _. rewrite lookup_insert_eq. cbn. rewrite get_object, lookup_insert_eq. cbn. rewrite as_str_value. by eexists.
  - done.
Qed.

Lemma same_facts_macs t p : same_facts t p (add_history_macs mac to_string t p).
Proof.
  destruct (as_object p) as [m|] eqn:Hp; [|unfold add_history_macs; rewrite Hp; apply same_facts_refl].
  apply as_object_inv in Hp as ->. destruct (add_history_macs_spec t m) as (m' & -> & Hk & Hck & Hmac & Hsame).
  assert (Hg : ∀ k, k ≠ "requestFingerprint" → k ≠ "control" → get (object_value m') k = get (object_value m) k).
  { intros k Hk1 Hk2. rewrite !get_object. by apply Hk. }
  assert (Ht : ∀ k, k ≠ "requestFingerprint" → k ≠ "control" → text (object_value m') k = text (object_value m) k).
  { intros k Hk1 Hk2. unfold text. by rewrite Hg. }
  split; try (intros; split_and?; (apply Ht || apply Hg); done).
  - intros k Hin. apply Ht; intros ->; by vm_compute in Hin.
  - intros _ e He. destruct (m !! "control" ≫= (λ c, get c "text" ≫= as_str)) as [tx|] eqn:Htx.
    + unfold delivered_id. cbn [payload with_payload]. rewrite He, Ht, !get_object by done.
      rewrite (Hck "action"), (Hck "itemId"), (Hck "text"), Htx by done.
      by rewrite (bool_decide_true (is_Some (Some tx))).
    + apply delivered_id_ext; rewrite He; [by apply Ht|]. rewrite !get_object. by apply Hsame.
Qed.

Lemma macs_complete t p :
  (∀ k v, one_of ["permission.requested"; "tool.awaitingApproval"] t = true →
     one_of ["scope"; "runtimeId"] k = true → get p k = Some v → scalar v = true) →
  envelope_complete t (add_history_macs mac to_string t p).
Proof.
  intros Hperm. destruct (as_object p) as [m|] eqn:Hp.
  2: { unfold add_history_macs. rewrite Hp. split; [done|]. intros _ [? Hs].
       by rewrite get_as_object, Hp in Hs. }
  apply as_object_inv in Hp as ->. destruct (add_history_macs_spec t m) as (m' & -> & Hk & Hck & Hmac & _). split.
  - intros k v Ht Hin. rewrite get_object, Hk by (intros ->; by vm_compute in Hin).
    rewrite <-(get_object m k). by apply Hperm.
  - intros _. rewrite get_object, Hck by done. done.
Qed.
End macs.

Section sealing.
Context `{JsonViewLaws} `{!Serde} `{!SerdeLaws} `{HistoryPrimitivesLaws} `{AeadLaws}.

Lemma open_sealed_field (enc : gmap string Value) cid n key field stream m sealed v :
  enc !! field = Some (string_value (b64_encode sealed)) →
  seal key (str_bytes cid) stream n m = Ok sealed → value_from_slice m = Some v →
  open_field enc cid n key field stream = Some v.
Proof.
  intros Hf Hs Hv. unfold open_field. rewrite Hf. cbn. rewrite as_str_value. cbn. rewrite b64_decode_encode. cbn.
  unfold seal in Hs. apply ok_or_Ok_inv in Hs. apply aead_decrypt_encrypt in Hs.
  unfold HistoryCrypto.open. rewrite Hs. done.
Qed.

Lemma seal_ok_bytes key cid stream n m : N.of_nat (length m) ≤ AEAD_P_MAX → ∃ c, seal key cid stream n m = Ok c.
Proof.
  intros Hm. unfold seal. edestruct (aead_encrypt_total (ck_dek key) (content_nonce stream n) m) as [c Hc]; [done|].
  exists c. by rewrite Hc.
Qed.

Lemma encrypted_head_lookup e kid :
  encrypted_head e kid !! "v" = Some (u64_value ENCRYPTED_VERSION) ∧
  encrypted_head e kid !! "c" = Some (string_value (conversation_id e)) ∧
  encrypted_head e kid !! "n" = Some (u64_value (sequence e)) ∧
  encrypted_head e kid !! "fr" = None ∧
  encrypted_head e kid !! "kid" = Some (string_value kid).
Proof. done. Qed.

Lemma seal_event_opens e kid key :
  sequence e ≤ U64_MAX →
  N.of_nat (length (value_to_vec (payload e))) ≤ AEAD_P_MAX →
  N.of_nat (length (value_to_vec (payload (summarize_event e).1))) ≤ AEAD_P_MAX →
  ∃ enc, seal_event e kid key = Ok (with_payload e (sealed_payload (event_type e) (payload e) (object_value enc))) ∧
    enc !! "kid" = Some (string_value kid) ∧
    open_event enc (conversation_id e) (sequence e) key = Some (payload e, payload (summarize_event e).1).
Proof.
  intros Hseq Hlen Hlen'. unfold seal_event. cbn zeta.
  destruct (seal_ok_bytes key (str_bytes (conversation_id e)) EventFull (sequence e) _ Hlen) as [cf Hcf].
  destruct (seal_ok_bytes key (str_bytes (conversation_id e)) EventSummary (sequence e) _ Hlen') as [cs Hcs].
  assert (Hopen : ∀ enc0 : gmap string Value,
    (∀ k, k ≠ "s" → enc0 !! k = encrypted_head e kid !! k) →
    let enc := <["f" := string_value (b64_encode cf)]> enc0 in
    enc !! "kid" = Some (string_value kid) ∧
    open_event enc (conversation_id e) (sequence e) key =
      summary ← match enc !! "s" with
                | Some _ => open_field enc (conversation_id e) (sequence e) key "s" EventSummary
                | None => Some (payload e)
                end; Some (payload e, summary)).
  { intros enc0 Hh. cbn zeta. unfold open_event. rewrite !(lookup_insert_ne enc0 "f") by done.
    rewrite !Hh by done. destruct (encrypted_head_lookup e kid) as (-> & -> & -> & -> & ->).
    split; [done|]. cbn [mbind option_bind]. rewrite !as_u64_value by (done || by vm_compute). rewrite as_str_value.
    rewrite !bool_decide_true by done. rewrite bool_decide_false by by intros [? ?]. cbn [negb orb].
    rewrite (open_sealed_field _ _ _ _ _ _ _ _ (payload e) (lookup_insert_eq _ _ _) Hcf (value_roundtrip _)). done. }
  destruct ((summarize_event e).2) eqn:Hch.
  - rewrite Hcs. cbn [mbind result_bind]. rewrite Hcf. eexists. split; [done|].
    edestruct Hopen as [Hk Ho]; [|split; [exact Hk|]].
    { intros k Hk. by rewrite lookup_insert_ne. }
    rewrite Ho, lookup_insert_ne, lookup_insert_eq by done.
    erewrite open_sealed_field; [done| |exact Hcs|apply value_roundtrip].
    by rewrite lookup_insert_ne, lookup_insert_eq.
  - cbn [mbind result_bind]. rewrite Hcf. eexists. split; [done|].
    edestruct Hopen as [Hk Ho]; [done|split; [exact Hk|]].
    rewrite Ho, lookup_insert_ne by done. change (encrypted_head e kid !! "s") with (None : option Value).
    cbn. by rewrite (summarize_untouched e Hch).
Qed.

(** What an append writes for an encrypted conversation: the write succeeds, its
    line decodes to exactly the event that was published, the key opens it to
    the full payload and its summary, and the digest folded from the
    ciphertext record is the one the plaintext event would give. *)
Theorem encrypted_append_roundtrip (e : ConversationEvent) (kid : string) (key : ContentKey)
    (mac : string → string) (d : JournalDigest) :
  let clear := with_payload e (add_history_macs mac value_to_string (event_type e) (payload e)) in
  storable e → sequence e ≤ U64_MAX →
  N.of_nat (length (value_to_vec (payload clear))) ≤ AEAD_P_MAX →
  N.of_nat (length (value_to_vec (payload (summarize_event clear).1))) ≤ AEAD_P_MAX →
  (∀ k v, one_of ["permission.requested"; "tool.awaitingApproval"] (event_type e) = true →
     one_of ["scope"; "runtimeId"] k = true → get (payload e) k = Some v → scalar v = true) →
  ∃ stored line enc,
    stored_record e (Some (kid, key, mac)) = Ok (stored, line) ∧
    decode_journal_record line (conversation_id e) = Ok stored ∧
    encrypted_content (payload stored) = Some enc ∧ enc !! "kid" = Some (string_value kid) ∧
    open_event enc (conversation_id e) (sequence e) key = Some (payload clear, payload (summarize_event clear).1) ∧
    Digest.apply d stored = Digest.apply d e.
Proof.
  intros clear He Hseq Hl1 Hl2 Hperm.
  destruct (seal_event_opens clear kid key Hseq Hl1 Hl2) as (enc & Hseal & Hkid & Hopen).
  eexists _, _, enc. split_and!.
  - unfold stored_record. fold clear. rewrite Hseal. done.
  - apply (line_decodes (with_payload clear _)); [by destruct He|]. right. by eexists _, _.
  - unfold encrypted_content, sealed_payload. cbn. rewrite get_object, lookup_insert_eq. cbn. apply as_object_value.
  - done.
  - done.
  - rewrite (digest_apply_ext d clear); [apply digest_apply_ext, same_facts_macs|].
    apply same_facts_sealed, macs_complete, Hperm.
Qed.
End sealing.

(** ** A serializer, and the theorems at work *)
Module PlainSerde.
Import Jv.

(** A countable value as a string of bits. *)
Fixpoint bits (p : positive) : bytes :=
  match p with xH => [] | xO p => Byte.x30 :: bits p | xI p => Byte.x31 :: bits p end.
Fixpoint of_bits (l : bytes) : positive :=
  match l with [] => xH | b :: l => if decide (b = Byte.x30) then xO (of_bits l) else xI (of_bits l) end.
Lemma of_bits_bits p : of_bits (bits p) = p.
Proof. induction p; simpl; [by rewrite IHp..|done]. Qed.

Definition write {A} `{Countable A} (a : A) : bytes := bits (countable.encode a).
Definition read {A} `{Countable A} (l : bytes) : option A := countable.decode (of_bits l).
Lemma read_write {A} `{Countable A} (a : A) : read (write a) = Some a.
Proof. unfold read, write. by rewrite of_bits_bits, countable.decode_encode. Qed.

#[export] Instance ProviderKind_eq_dec : EqDecision ProviderKind.
Proof. solve_decision. Defined.
Definition provider_code (p : ProviderKind) : N :=
  match p with
  | Acp => 0 | Codex => 1 | Pi => 2 | ClaudeCode => 3 | GrokBuild => 4 | Devin => 5 | Opencode => 6
  | Antigravity => 7 | DeepseekHarness => 8 | Omp => 9
  end.
Definition provider_of_code (n : N) : ProviderKind :=
  match n with
  | 0 => Acp | 1 => Codex | 2 => Pi | 3 => ClaudeCode | 4 => GrokBuild | 5 => Devin | 6 => Opencode
  | 7 => Antigravity | 8 => DeepseekHarness | _ => Omp
  end.
Lemma provider_of_code_code p : provider_of_code (provider_code p) = p.
Proof. by destruct p. Qed.
#[export] Instance ProviderKind_countable : Countable ProviderKind :=
  inj_countable' provider_code provider_of_code provider_of_code_code.

(** Fields, each ended by a semicolon. *)
Definition join (l : list bytes) : bytes := concat ((λ f, f ++ [Byte.x3b]) <$> l).
Fixpoint fields (acc l : bytes) : list bytes :=
  match l with
  | [] => []
  | c :: l => if bool_decide (c = Byte.x3b) then rev acc :: fields [] l else fields (c :: acc) l
  end.
Lemma fields_head f acc l : Byte.x3b ∉ f → fields acc (f ++ Byte.x3b :: l) = (rev acc ++ f) :: fields [] l.
Proof.
  revert acc. induction f as [|c f IH]; intros acc Hf; cbn [app fields].
  - by rewrite bool_decide_true, app_nil_r.
  - rewrite bool_decide_false by set_solver. rewrite IH by set_solver. cbn. by rewrite <-app_assoc.
Qed.
Lemma fields_join l : Forall (λ f, Byte.x3b ∉ f) l → fields [] (join l) = l.
Proof.
  unfold join. induction 1 as [|f l Hf _ IH]; [done|]. cbn [fmap list_fmap concat].
  rewrite <-app_assoc. cbn [app]. rewrite fields_head by done. cbn. by rewrite IH.
Qed.
Lemma bits_no_semicolon p : Byte.x3b ∉ bits p.
Proof. induction p; cbn; set_solver. Qed.

Definition line_fields (r : RecordOut) : list bytes :=
  [write (o_s r); write (o_i r); write (o_t r); write (o_y r); write (o_r r); write (o_p r); write (o_n r);
   write (o_tn r); write (o_e r : gmap string jv); write (non_null (o_c r) : option jv);
   write (non_null (o_x r) : option jv)].
Definition record_in s i t y r p n tn (e : gmap string jv) (c x : option jv) : RecordIn :=
  {| r_s := s; r_i := i; r_t := t; r_y := y; r_r := r; r_p := p; r_n := n; r_tn := tn; r_e := e; r_c := c; r_x := x |}.
Definition read_fields (l : list bytes) : option RecordIn :=
  match l with
  | [s; i; t; y; r; p; n; tn; e; c; x] =>
      s ← read s; i ← read i; t ← read t; y ← read y; r ← read r; p ← read p; n ← read n; tn ← read tn;
      e ← read e; c ← read c; x ← read x;
      Some (record_in s i t y r p n tn e c x)
  | _ => None
  end.

#[export] Instance serde : Serde := {|
  value_to_vec v := write (v : jv);
  value_from_slice l := (read l : option jv);
  value_to_string v := String.string_of_list_byte (write (v : jv));
  record_to_vec r := V3_RECORD_PREFIX ++ join (line_fields r);
  record_from_slice l := read_fields (fields [] (drop (length V3_RECORD_PREFIX) l));
  compacted_from_slice _ := None;
  event_from_slice _ := None;
  time_in_range _ := true;
|}.

#[export] Instance serde_laws : SerdeLaws.
Proof.
  split.
  - intros v. apply read_write.
  - intros r. cbn [record_from_slice record_to_vec serde]. rewrite drop_app_length, fields_join.
    + unfold line_fields, read_fields. by repeat (rewrite read_write; cbn [mbind option_bind]).
    + repeat constructor; apply bits_no_semicolon.
  - intros r. cbn [record_to_vec serde]. apply take_app_length.
  - done.
Qed.
End PlainSerde.

Module RecordExample.
Import Jv PlainSerde PlainAead.
#[local] Existing Instance HistoryCrypto.Example.toy.
#[local] Existing Instance HistoryCrypto.Example.toy_laws.

Definition prompt : ConversationEvent :=
  {| schema_version := CONVERSATION_SCHEMA_VERSION; sequence := 7; event_id := "evt_1"; conversation_id := "c";
     time := 1759670000123456789; event_type := "message.created"; normalized_type := Some "message.created";
     raw_type := None; provider := Some Codex;
     payload := JObj (<["role" := JStr "user"]> (<["turnId" := JStr "t"]> (<["content" := JStr "hi"]> ∅))) |}.
Lemma prompt_storable : storable prompt.
Proof. by split. Qed.

Lemma journal_record_roundtrip_witness :
  (encrypted_content (payload prompt) = None ∧ payload prompt ≠ null_value) ∧
  decode_journal_record (encode_record prompt) "c" = Ok prompt.
Proof. split; [done|]. apply (journal_record_roundtrip prompt prompt_storable). by left. Defined.

Lemma null_payload_is_lost_witness :
  decode_journal_record (encode_record (with_payload prompt null_value)) "c" = Err "record has no content".
Proof. by apply (null_payload_is_lost (with_payload prompt null_value)). Defined.

Lemma encrypted_append_roundtrip_witness :
  ∃ stored line enc,
    stored_record prompt (Some ("k", HistoryCrypto.Example.key, id)) = Ok (stored, line) ∧
    decode_journal_record line "c" = Ok stored ∧
    encrypted_content (payload stored) = Some enc ∧
    Digest.apply digest_default stored = Digest.apply digest_default prompt.
Proof.
  destruct (encrypted_append_roundtrip prompt "k" HistoryCrypto.Example.key id digest_default)
    as (stored & line & enc & H1 & H2 & H3 & _ & _ & H4).
  - apply prompt_storable.
  - by vm_compute.
  - by vm_compute.
  - by vm_compute.
  - done.
  - exists stored, line, enc. by split_and!.
Defined.
End RecordExample.
