(* ===== verification/SegmentIndex.v ===== *)
(** * Sealed segments: names and frame tables

    Model of the first part of src/src/conversation/segment.rs: the names of a
    segment's files, the frame table of its index ([SegmentIndexBody]), the
    checks under which an index is usable ([from_body]) and the lookup of the
    frame that holds a record ([frame]). Sums of [u64] wrap around, as they do
    in a release build. *)
From S2P Require Import Prelude Bytes Text Json JsonObject Model Digest.
From stdpp Require Import pretty sorting.
From Stdlib Require Import Ascii.
Local Open Scope N_scope.

Definition SEGMENT_ID_BYTES : N := 16.
Definition SEGMENT_HEADER_BYTES : N := 8 + SEGMENT_ID_BYTES.
Definition FRAME_HEADER_BYTES : N := 36.
Definition INDEX_VERSION : N := 1.
Definition STREAM_ENVELOPE : N := 0.
Definition STREAM_SUMMARY : N := 3.
Definition STREAM_FULL : N := 4.
Definition STREAMS : list N := [STREAM_ENVELOPE; STREAM_SUMMARY; STREAM_FULL].

(** [a + b] on [u64], and [checked_add]. *)
Definition u64_add (a b : N) : N := (a + b) mod 2 ^ 64.
Definition u64_checked_add (a b : N) : option N := if a + b <? 2 ^ 64 then Some (a + b) else None.

(** [frame_counter]: [number << 32 | ordinal] on [u64]. *)
Definition frame_counter (number ordinal : N) : N := N.lor (N.shiftl number 32 mod 2 ^ 64) ordinal.

Inductive SegmentError : Type := Io (error : string) | Invalid (reason : string).

Inductive FrameGroup : Type := Plain | Passthrough | Sealed (kid : string).
#[export] Instance FrameGroup_eq_dec : EqDecision FrameGroup.
Proof. solve_decision. Defined.
Definition group_code (g : FrameGroup) : unit + unit + string :=
  match g with Plain => inl (inl tt) | Passthrough => inl (inr tt) | Sealed k => inr k end.
Definition group_of_code (c : unit + unit + string) : FrameGroup :=
  match c with inl (inl _) => Plain | inl (inr _) => Passthrough | inr k => Sealed k end.
Lemma group_of_code_code g : group_of_code (group_code g) = g.
Proof. by destruct g. Qed.
#[export] Instance FrameGroup_countable : Countable FrameGroup :=
  inj_countable' group_code group_of_code group_of_code_code.

Record FrameEntry : Type := {
  stream : N;                 (* u8 *)
  first : N;                  (* u64 *)
  count : N;                  (* u32 *)
  offset : N;                 (* u64 *)
  len : N;                    (* u32 *)
  raw : N;                    (* u32 *)
  kid : option string;
  passthrough : bool;
  ordinal : N;                (* u32 *)
  crc : N;                    (* u32 *)
}.
#[export] Instance FrameEntry_eq_dec : EqDecision FrameEntry.
Proof. solve_decision. Defined.

Definition group (self : FrameEntry) : FrameGroup :=
  match kid self, passthrough self with
  | Some kid, _ => Sealed kid
  | None, true => Passthrough
  | None, false => Plain
  end.
Definition frame_contains (self : FrameEntry) (sequence : N) : bool :=
  (first self <=? sequence) && (sequence <? u64_add (first self) (count self)).

(** [STREAMS.iter().position(..)]. *)
Definition stream_slot (stream : N) : option nat :=
  if stream =? STREAM_ENVELOPE then Some 0%nat
  else if stream =? STREAM_SUMMARY then Some 1%nat
  else if stream =? STREAM_FULL then Some 2%nat
  else None.

(** ** File names *)

(** [str::strip_prefix] and [strip_suffix]. *)
Fixpoint strip_prefix (prefix s : string) : option string :=
  match prefix, s with
  | EmptyString, _ => Some s
  | String c prefix, String d s => if Ascii.eqb c d then strip_prefix prefix s else None
  | _, EmptyString => None
  end.
Fixpoint strip_suffix (suffix s : string) : option string :=
  if String.eqb s suffix then Some EmptyString
  else match s with EmptyString => None | String c s => String c <$> strip_suffix suffix s end.

(** [format!("{number:06}")]. *)
Fixpoint zeros (n : nat) : string := match n with O => "" | S n => String "0"%char (zeros n) end.
Definition pad6 (number : N) : string := let d := pretty number in zeros (6 - String.length d) +:+ d.
Definition segment_name (number : N) : string := "events." +:+ pad6 number +:+ ".seg".
Definition index_name (number : N) : string := "events." +:+ pad6 number +:+ ".idx".
Definition numbered (name extension : string) : option N :=
  digits ← strip_prefix "events." name ≫= strip_suffix extension;
  if String.eqb digits "" || negb (all_digits digits) then None
  else parse_uint (2 ^ 64 - 1) digits.

Section index.
Context `{Json}.

Record SegmentIndexBody : Type := {
  version : N;
  first_sequence : N;
  last_sequence : N;
  segment_id : string;
  seg_bytes : N;
  seg_sha256 : string;
  sources : list string;
  slimmed : N;
  frames : list FrameEntry;
  digest : JournalDigest;
}.
End index.

Record SealedSegment : Type := {
  s_number : N;
  s_first : N;
  s_last : N;
  s_segment_id : string;
  s_frames : list FrameEntry;
  by_stream : list (list nat);     (* per slot, indexes into [s_frames] *)
}.

Definition no_frame : FrameEntry :=
  {| stream := 0; first := 0; count := 0; offset := 0; len := 0; raw := 0; kid := None;
     passthrough := false; ordinal := 0; crc := 0 |}.
(** [frames[index]]; the indexes the code uses are in range. *)
Definition frame_at (frames : list FrameEntry) (index : nat) : FrameEntry := default no_frame (frames !! index).

(** [slice.partition_point(p)] on a slice that is partitioned by [p]: the
    length of the prefix where [p] holds. *)
Fixpoint partition_point {A} (p : A → bool) (l : list A) : nat :=
  match l with [] => O | x :: l => if p x then S (partition_point p l) else O end.

Definition frame (self : SealedSegment) (stream sequence : N) : option FrameEntry :=
  slot ← stream_slot stream;
  let indexes := default [] (by_stream self !! slot) in
  match partition_point (λ index, first (frame_at (s_frames self) index) <=? sequence) indexes with
  | O => None
  | S position =>
      index ← indexes !! position;
      let frame := frame_at (s_frames self) index in
      if frame_contains frame sequence then Some frame else None
  end.

Section from_body.
Context `{Json}.

(** One round of the loop over [body.frames]. *)
Definition check_frame (seg_bytes : N) (frame : FrameEntry) : result SegmentError nat :=
  match stream_slot (stream frame) with
  | None => Err (Invalid "unknown frame stream")
  | Some slot =>
      let end' := u64_checked_add (offset frame) (len frame) in
      if (count frame =? 0)
         || (offset frame <? SEGMENT_HEADER_BYTES + FRAME_HEADER_BYTES)
         || match end' with Some e => seg_bytes <? e | None => true end
         || (stream frame =? STREAM_ENVELOPE) && negb (bool_decide (group frame = Plain))
      then Err (Invalid "segment index lists a frame outside its file")
      else Ok slot
  end.
Definition push_index (by_stream : list (list nat)) (slot index : nat) : list (list nat) :=
  alter (λ l, l ++ [index]) slot by_stream.
Fixpoint index_frames (seg_bytes : N) (index : nat) (frames : list FrameEntry) (by_stream : list (list nat)) :
    result SegmentError (list (list nat)) :=
  match frames with
  | [] => Ok by_stream
  | frame :: frames =>
      slot ← check_frame seg_bytes frame;
      index_frames seg_bytes (S index) frames (push_index by_stream slot index)
  end.

(** [indexes.sort_by_key(|index| body.frames[*index].first)]. *)
Definition starts_before (frames : list FrameEntry) (i j : nat) : Prop :=
  first (frame_at frames i) ≤ first (frame_at frames j).
#[export] Instance starts_before_dec frames i j : Decision (starts_before frames i j).
Proof. unfold starts_before. apply _. Defined.
Definition sort_indexes (frames : list FrameEntry) (indexes : list nat) : list nat :=
  merge_sort (starts_before frames) indexes.
Fixpoint walk_contiguous (frames : list FrameEntry) (expected : N) (indexes : list nat) : result SegmentError N :=
  match indexes with
  | [] => Ok expected
  | index :: indexes =>
      let frame := frame_at frames index in
      if negb (first frame =? expected) then Err (Invalid "segment index frames are not contiguous")
      else walk_contiguous frames (u64_add expected (count frame)) indexes
  end.
Definition check_stream (body : SegmentIndexBody) (indexes : list nat) : result SegmentError (list nat) :=
  let indexes := sort_indexes (frames body) indexes in
  expected ← walk_contiguous (frames body) (first_sequence body) indexes;
  if negb (expected =? u64_add (last_sequence body) 1)
  then Err (Invalid "segment index frames do not cover the segment")
  else Ok indexes.

(** A sealed run's summary and full frames line up. *)
Definition paired (segment : SealedSegment) (f : FrameEntry) : bool :=
  let other := if stream f =? STREAM_FULL then STREAM_SUMMARY else STREAM_FULL in
  match frame segment other (first f) with
  | Some other => (first other =? first f) && (count other =? count f) && bool_decide (kid other = kid f)
  | None => false
  end.

Definition from_body (number : N) (body : SegmentIndexBody) : result SegmentError SealedSegment :=
  if negb (version body =? INDEX_VERSION) then Err (Invalid "segment index version is not supported")
  else if (first_sequence body =? 0) || (last_sequence body <? first_sequence body)
  then Err (Invalid "segment index has an invalid sequence range")
  else
    by_stream ← index_frames (seg_bytes body) 0 (frames body) [[]; []; []];
    by_stream ← map_result (check_stream body) by_stream;
    let segment :=
      {| s_number := number; s_first := first_sequence body; s_last := last_sequence body;
         s_segment_id := segment_id body; s_frames := frames body; by_stream := by_stream |} in
    if forallb (paired segment) (filter (λ f, is_Some (kid f)) (frames body)) then Ok segment
    else Err (Invalid "sealed segment frames are not aligned").
End from_body.

(** [count]: [self.last - self.first + 1]. *)
Definition segment_count (self : SealedSegment) : N := s_last self - s_first self + 1.

(** ** Names read back *)

Lemma strip_prefix_app p s : strip_prefix p (p +:+ s) = Some s.
Proof. induction p as [|c p IH]; [done|]. change (String c p +:+ s) with (String c (p +:+ s)).
  cbn [strip_prefix]. rewrite Ascii.eqb_refl. apply IH. Qed.
Lemma string_length_app (a b : string) : String.length (a +:+ b) = (String.length a + String.length b)%nat.
Proof.
  induction a as [|c a IH]; [done|]. change (String c a +:+ b) with (String c (a +:+ b)). cbn. by rewrite IH.
Qed.
Lemma strip_suffix_app s e : strip_suffix e (s +:+ e) = Some s.
Proof.
  induction s as [|c s IH].
  - change ("" +:+ e) with e. destruct e; cbn [strip_suffix]; by rewrite String.eqb_refl.
  - change (String c s +:+ e) with (String c (s +:+ e)). cbn [strip_suffix]. destruct (String.eqb_spec (String c (s +:+ e)) e) as [E|_]; [|by rewrite IH].
    apply (f_equal String.length) in E. cbn in E. rewrite string_length_app in E. lia.
Qed.

Lemma zeros_digits n : all_digits (zeros n) = true.
Proof. by induction n. Qed.
Lemma all_digits_app a b : all_digits (a +:+ b) = all_digits a && all_digits b.
Proof.
  induction a as [|c a IH]; [done|]. change (String c a +:+ b) with (String c (a +:+ b)).
  cbn [all_digits]. rewrite IH. by destruct (digit c).
Qed.
Lemma digits_value_zeros n d : digits_value 0 (zeros n +:+ d) = digits_value 0 d.
Proof.
  induction n as [|n IH]; [done|]. change (zeros (S n) +:+ d) with (String "0"%char (zeros n +:+ d)).
  apply IH.
Qed.
Lemma pad6_ne n : pad6 n ≠ "".
Proof.
  unfold pad6. destruct (pretty_number n) as [Hn _]. unfold is_number in Hn.
  destruct (zeros _); [|done]. intros E. change ("" +:+ pretty n) with (pretty n) in E. by rewrite E in Hn.
Qed.
Lemma parse_pad6 n : n < 2 ^ 64 → parse_uint (2 ^ 64 - 1) (pad6 n) = Some n.
Proof.
  intros Hn. destruct (pretty_number n) as [_ Hv].
  assert (Hd : all_digits (pad6 n) = true) by (unfold pad6; by rewrite all_digits_app, zeros_digits, pretty_digits).
  assert (Hval : digits_value 0 (pad6 n) = Some n) by (unfold pad6; by rewrite digits_value_zeros).
  pose proof (pad6_ne n) as Hne. unfold parse_uint. destruct (pad6 n) as [|c s]; [done|].
  destruct (Ascii.eqb_spec c "+") as [->|_]; [done|]. rewrite Hval.
  destruct (N.leb_spec n (2 ^ 64 - 1)); [done|lia].
Qed.

(** A frame's counter is a [u64]. *)
Lemma lor_bound n a b : a < 2 ^ n → b < 2 ^ n → N.lor a b < 2 ^ n.
Proof.
  intros Ha Hb. destruct (N.eq_dec (N.lor a b) 0) as [->|Hne]; [apply N.neq_0_lt_0, N.pow_nonzero; lia|].
  apply N.log2_lt_pow2; [lia|]. rewrite N.log2_lor.
  destruct (N.eq_dec a 0) as [->|Ha0], (N.eq_dec b 0) as [->|Hb0]; [done|..].
  - rewrite N.max_0_l. apply N.log2_lt_pow2; lia.
  - rewrite N.max_0_r. apply N.log2_lt_pow2; lia.
  - apply N.max_lub_lt; apply N.log2_lt_pow2; lia.
Qed.
Lemma frame_counter_bound n o : o < 2 ^ 32 → frame_counter n o < 2 ^ 64.
Proof.
  intros Ho. unfold frame_counter. apply lor_bound; [by apply N.mod_lt|].
  eapply N.lt_trans; [exact Ho|]. done.
Qed.

(** A segment's file name gives its number back, under its extension only. *)
Lemma numbered_name e n :
  n < 2 ^ 64 → numbered ("events." +:+ pad6 n +:+ e) e = Some n.
Proof.
  intros Hn. unfold numbered. rewrite strip_prefix_app. cbn [mbind option_bind]. rewrite strip_suffix_app.
  cbn [mbind option_bind]. rewrite (proj2 (String.eqb_neq _ _) (pad6_ne n)).
  unfold pad6 at 1. rewrite all_digits_app, zeros_digits, pretty_digits. by apply parse_pad6.
Qed.

(** ** Where a record is *)
Section contiguous.
Implicit Types frames : list FrameEntry.

(** The frames at [indexes] are consecutive from [expected] to [stop]. *)
Fixpoint chain (fs : list FrameEntry) (expected stop : N) : Prop :=
  match fs with
  | [] => expected = stop
  | f :: fs => first f = expected ∧ chain fs (expected + count f) stop
  end.

Definition total (fs : list FrameEntry) : N := foldr (λ f n, count f + n) 0 fs.

Lemma total_bound fs : Forall (λ f, count f < 2 ^ 32) fs → total fs ≤ (2 ^ 32 - 1) * N.of_nat (length fs).
Proof. induction 1 as [|f fs Hf _ IH]; cbn [total foldr length]; [lia|]. fold (total fs). lia. Qed.

Lemma walk_contiguous_total frames indexes expected stop :
  expected < 2 ^ 64 → walk_contiguous frames expected indexes = Ok stop →
  stop = (expected + total (frame_at frames <$> indexes)) mod 2 ^ 64.
Proof.
  revert expected. induction indexes as [|i indexes IH]; intros expected He; cbn [walk_contiguous fmap list_fmap total foldr].
  - intros [= <-]. rewrite N.add_0_r. symmetry. by apply N.mod_small.
  - destruct (N.eqb_spec (first (frame_at frames i)) expected) as [Hf|]; cbn [negb]; [|done].
    intros Hw. apply IH in Hw; [|apply N.mod_lt; done]. rewrite Hw. unfold u64_add. fold (total (frame_at frames <$> indexes)).
    rewrite N.Div0.add_mod_idemp_l. f_equal. lia.
Qed.

Lemma walk_contiguous_chain frames indexes expected stop :
  expected + total (frame_at frames <$> indexes) < 2 ^ 64 →
  walk_contiguous frames expected indexes = Ok stop → chain (frame_at frames <$> indexes) expected stop.
Proof.
  revert expected. induction indexes as [|i indexes IH]; intros expected He;
    cbn [walk_contiguous fmap list_fmap chain total foldr] in *; [by intros [= <-]|].
  fold (total (frame_at frames <$> indexes)) in He.
  destruct (N.eqb_spec (first (frame_at frames i)) expected) as [Hf|]; cbn [negb]; [|done].
  unfold u64_add. rewrite N.mod_small by lia. intros Hw. split; [done|]. apply IH; [lia|done].
Qed.

Lemma chain_total fs expected stop : chain fs expected stop → stop = expected + total fs.
Proof.
  revert expected. induction fs as [|f fs IH]; intros expected; cbn [chain total foldr]; [lia|].
  intros [_ ->%IH]. fold (total fs). lia.
Qed.
End contiguous.

Section lookup.
Implicit Types (fs : list FrameEntry) (frames : list FrameEntry).

Lemma partition_point_fmap {A B} (f : A → B) p l : partition_point p (f <$> l) = partition_point (λ x, p (f x)) l.
Proof. induction l as [|x l IH]; cbn; [done|]. by rewrite IH. Qed.

Lemma chain_first_ge fs a b f : chain fs a b → f ∈ fs → a ≤ first f ∧ first f + count f ≤ b.
Proof.
  revert a. induction fs as [|g fs IH]; intros a; [by intros _ ?%elem_of_nil|]. intros [Hg Hc] [->|Hf]%elem_of_cons.
  - apply chain_total in Hc. lia.
  - destruct (IH _ Hc Hf). lia.
Qed.

(** The frame of a chain that holds a sequence is the last one starting at or
    before it. *)
Lemma chain_partition fs a b n :
  chain fs a b → Forall (λ f, 0 < count f) fs → a ≤ n → n < b →
  ∃ i f, partition_point (λ f, first f <=? n) fs = S i ∧ fs !! i = Some f ∧ first f ≤ n < first f + count f.
Proof.
  revert a. induction fs as [|f fs IH]; intros a Hc Hpos Han Hnb; [cbn in Hc; lia|].
  destruct Hc as [Hf Hc]. apply Forall_cons in Hpos as [Hp Hpos]. cbn [partition_point].
  rewrite (proj2 (N.leb_le _ _)) by lia.
  destruct (N.lt_ge_cases n (a + count f)) as [Hin|Hout].
  - exists O, f. split_and!; [|done|lia..]. f_equal. destruct fs as [|g fs]; [done|]. cbn.
    destruct Hc as [Hg _]. by rewrite (proj2 (N.leb_gt _ _)) by lia.
  - destruct (IH _ Hc Hpos Hout Hnb) as (i & g & -> & Hg & Hin). by exists (S i), g.
Qed.

Lemma chain_disjoint fs a b f g n :
  chain fs a b → f ∈ fs → g ∈ fs → first f ≤ n < first f + count f → first g ≤ n < first g + count g → f = g.
Proof.
  revert a. induction fs as [|h fs IH]; intros a; [by intros _ ?%elem_of_nil|].
  intros [Hh Hc] [->|Hf]%elem_of_cons [->|Hg]%elem_of_cons Hnf Hng; [done|..].
  - pose proof (chain_first_ge _ _ _ _ Hc Hg). lia.
  - pose proof (chain_first_ge _ _ _ _ Hc Hf). lia.
  - by eapply IH.
Qed.

Lemma partition_point_le {A} (p : A → bool) l : (partition_point p l ≤ length l)%nat.
Proof. induction l as [|x l IH]; cbn; [lia|]. case_match; lia. Qed.

Lemma frame_contains_spec f n :
  first f + count f < 2 ^ 64 → frame_contains f n = true ↔ first f ≤ n < first f + count f.
Proof.
  intros Hb. unfold frame_contains, u64_add. rewrite N.mod_small, andb_true_iff, N.leb_le, N.ltb_lt by done. lia.
Qed.

(** [frame] on a segment whose frames of a stream are a chain. *)
Lemma frame_of_chain seg st slot indexes n :
  stream_slot st = Some slot → by_stream seg !! slot = Some indexes →
  let fs := frame_at (s_frames seg) <$> indexes in
  chain fs (s_first seg) (s_last seg + 1) → Forall (λ f, 0 < count f) fs → s_last seg < 2 ^ 64 - 1 →
  if (s_first seg <=? n) && (n <=? s_last seg)
  then ∃ f, frame seg st n = Some f ∧ f ∈ fs ∧ first f ≤ n < first f + count f
  else frame seg st n = None.
Proof.
  intros Hst Hbs fs Hc Hpos Hlast. unfold frame. rewrite Hst. cbn [mbind option_bind]. rewrite Hbs.
  change (default [] (Some indexes)) with indexes. cbn zeta.
  rewrite <-(partition_point_fmap (frame_at (s_frames seg)) (λ f, first f <=? n)). fold fs.
  assert (Hidx : ∀ i f, fs !! i = Some f → ∃ j, indexes !! i = Some j ∧ f = frame_at (s_frames seg) j).
  { intros i f Hi. unfold fs in Hi. rewrite list_lookup_fmap in Hi. apply fmap_Some in Hi as (j & Hj & ->). eauto. }
  destruct (N.leb_spec (s_first seg) n) as [H1|H1], (N.leb_spec n (s_last seg)) as [H2|H2]; cbn [andb].
  - destruct (chain_partition fs _ _ n Hc Hpos H1) as (i & f & -> & Hf & Hin); [lia|].
    pose proof (list_elem_of_lookup_2 _ _ _ Hf) as Hel. destruct (Hidx _ _ Hf) as (j & -> & ->). cbn.
    pose proof (chain_first_ge _ _ _ _ Hc Hel) as [_ Hb].
    rewrite (proj2 (frame_contains_spec (frame_at (s_frames seg) j) n ltac:(lia))) by done. by eexists.
  - destruct (partition_point _ fs) as [|i]; [done|]. destruct (indexes !! i) as [j|] eqn:Hj; [|done]. cbn.
    assert (Hel : frame_at (s_frames seg) j ∈ fs) by by apply list_elem_of_fmap_2, list_elem_of_lookup_2 with i.
    pose proof (chain_first_ge _ _ _ _ Hc Hel) as [_ Hb].
    destruct (frame_contains _ n) eqn:E; [|done]. apply frame_contains_spec in E; lia.
  - destruct fs as [|f fs']; [done|]. destruct Hc as [Hf _]. cbn. by rewrite (proj2 (N.leb_gt _ _)) by lia.
  - destruct fs as [|f fs']; [done|]. destruct Hc as [Hf _]. cbn. by rewrite (proj2 (N.leb_gt _ _)) by lia.
Qed.
End lookup.

(** ** What an accepted index guarantees *)
Section accepted.
Context `{Json}.
Implicit Types (body : SegmentIndexBody) (fs : list FrameEntry).

(** The indexes, from [index] on, of the frames of a slot. *)
Fixpoint slot_indexes (slot index : nat) fs : list nat :=
  match fs with
  | [] => []
  | f :: fs =>
      (if bool_decide (stream_slot (stream f) = Some slot) then [index] else []) ++ slot_indexes slot (S index) fs
  end.

Lemma frame_at_slot_indexes slot fs pre :
  frame_at (pre ++ fs) <$> slot_indexes slot (length pre) fs = filter (λ f, stream_slot (stream f) = Some slot) fs.
Proof.
  revert pre. induction fs as [|f fs IH]; intros pre; [done|]. cbn [slot_indexes]. rewrite fmap_app.
  replace (pre ++ f :: fs) with ((pre ++ [f]) ++ fs) by by rewrite <-app_assoc.
  replace (S (length pre)) with (length (pre ++ [f])) by (rewrite length_app; cbn; lia). rewrite IH.
  case_bool_decide as Hs; [rewrite filter_cons_True by done|by rewrite filter_cons_False].
  cbn. unfold frame_at. rewrite <-app_assoc, lookup_app_r, Nat.sub_diag by lia. done.
Qed.

Lemma frames_of_slot slot fs :
  frame_at fs <$> slot_indexes slot 0 fs = filter (λ f, stream_slot (stream f) = Some slot) fs.
Proof. apply (frame_at_slot_indexes slot fs []). Qed.

Lemma check_frame_Ok sb f slot :
  check_frame sb f = Ok slot →
  stream_slot (stream f) = Some slot ∧ 0 < count f ∧ SEGMENT_HEADER_BYTES + FRAME_HEADER_BYTES ≤ offset f ∧
  offset f + len f ≤ sb ∧ (stream f = STREAM_ENVELOPE → group f = Plain).
Proof.
  unfold check_frame, u64_checked_add. destruct (stream_slot (stream f)) as [s|]; [|done].
  destruct (N.eqb_spec (count f) 0); [done|].
  destruct (N.ltb_spec (offset f) (SEGMENT_HEADER_BYTES + FRAME_HEADER_BYTES)); [done|]. cbn [orb].
  destruct (N.ltb_spec (offset f + len f) (2 ^ 64)); [|done].
  destruct (N.ltb_spec sb (offset f + len f)); [done|]. cbn [orb].
  destruct (N.eqb_spec (stream f) STREAM_ENVELOPE) as [He|He]; cbn [andb].
  - case_bool_decide; [|done]. intros [= <-]. split_and!; [done|lia|lia|done|done].
  - intros [= <-]. split_and!; [done|lia|lia|done|done].
Qed.

Lemma index_frames_spec sb idx fs bs bs' :
  index_frames sb idx fs bs = Ok bs' ↔
  Forall (λ f, ∃ slot, check_frame sb f = Ok slot) fs ∧
  bs' = imap (λ slot l, l ++ slot_indexes slot idx fs) bs.
Proof.
  revert idx bs. induction fs as [|f fs IH]; intros idx bs; cbn [index_frames slot_indexes].
  - assert (Hid : imap (λ (slot : nat) (l : list nat), l ++ []) bs = bs).
    { apply list_eq. intros i. rewrite list_lookup_imap. destruct (bs !! i); [|done]. cbn. by rewrite app_nil_r. }
    rewrite Hid. split; [intros [= <-]; by split|intros [_ ->]; done].
  - unfold mbind, result_bind. destruct (check_frame sb f) as [slot|e] eqn:Hf.
    2: { split; [done|]. intros [[[s Hs] _]%Forall_cons _]. congruence. }
    rewrite IH. clear IH. pose proof (check_frame_Ok _ _ _ Hf) as [Hslot _].
    assert (Heq : imap (λ s l, l ++ slot_indexes s (S idx) fs) (push_index bs slot idx) =
      imap (λ s l, l ++ (if bool_decide (stream_slot (stream f) = Some s) then [idx] else []) ++ slot_indexes s (S idx) fs) bs).
    { apply list_eq. intros i. rewrite !list_lookup_imap. unfold push_index. rewrite Hslot.
      destruct (decide (i = slot)) as [->|Hne].
      - rewrite list_lookup_alter_eq, bool_decide_true by done. destruct (bs !! slot); [|done]. cbn. by rewrite <-app_assoc.
      - rewrite list_lookup_alter_ne by done. destruct (bs !! i); [|done]. cbn. by rewrite bool_decide_false by congruence. }
    rewrite Heq, Forall_cons. split; [intros [? ->]; by eauto|intros [[_ ?] ->]; done].
Qed.

Lemma stream_slot_inj a b slot : stream_slot a = Some slot → stream_slot b = Some slot → a = b.
Proof.
  unfold stream_slot. destruct (N.eqb_spec a STREAM_ENVELOPE), (N.eqb_spec a STREAM_SUMMARY), (N.eqb_spec a STREAM_FULL),
    (N.eqb_spec b STREAM_ENVELOPE), (N.eqb_spec b STREAM_SUMMARY), (N.eqb_spec b STREAM_FULL); congruence.
Qed.

#[export] Instance starts_before_trans frames : Transitive (starts_before frames).
Proof. intros i j k. unfold starts_before. lia. Qed.
#[export] Instance starts_before_total frames : Total (starts_before frames).
Proof. intros i j. unfold starts_before. lia. Qed.

(** The values a Rust body can have, and what an addressable table is. *)
Record body_typed body : Prop := {
  bt_counts : Forall (λ f, count f < 2 ^ 32) (frames body);
  bt_frames : N.of_nat (length (frames body)) < 2 ^ 32;
  bt_last : last_sequence body < 2 ^ 64 - 1;
  bt_ordinals : Forall (λ f, ordinal f < 2 ^ 32) (frames body);
}.

Lemma check_stream_Ok body slot indexes :
  body_typed body → first_sequence body ≤ last_sequence body →
  check_stream body (slot_indexes slot 0 (frames body)) = Ok indexes →
  let fs := frame_at (frames body) <$> indexes in
  chain fs (first_sequence body) (last_sequence body + 1) ∧
  fs ≡ₚ filter (λ f, stream_slot (stream f) = Some slot) (frames body).
Proof.
  intros [Hcnt Hlen Hlast _] Hle. unfold check_stream. intros Hw. apply bind_Ok_inv in Hw as (stop & Hw & Hs).
  destruct (N.eqb_spec stop (u64_add (last_sequence body) 1)) as [->|]; [|done]. injection Hs as <-. cbn zeta.
  unfold u64_add in Hw. rewrite N.mod_small in Hw by lia.
  assert (Hperm : frame_at (frames body) <$> sort_indexes (frames body) (slot_indexes slot 0 (frames body)) ≡ₚ
    filter (λ f, stream_slot (stream f) = Some slot) (frames body)).
  { unfold sort_indexes. by rewrite merge_sort_Permutation, frames_of_slot. }
  split; [|done]. set (fs := frame_at (frames body) <$> _) in *.
  assert (Htot : total fs < 2 ^ 64).
  { assert (Hb : Forall (λ f, count f < 2 ^ 32) fs) by (rewrite Hperm; apply Forall_forall; intros f [_ Hf]%list_elem_of_filter; by apply (proj1 (Forall_forall _ _) Hcnt)).
    apply total_bound in Hb.
    assert (Hl : (length fs ≤ length (frames body))%nat) by (rewrite Hperm; apply length_filter).
    change (2 ^ 64) with (2 ^ 32 * 2 ^ 32). nia. }
  assert (Hfirst : first_sequence body < 2 ^ 64) by lia.
  pose proof (walk_contiguous_total _ _ _ _ Hfirst Hw) as Hstop. fold fs in Hstop.
  apply walk_contiguous_chain; [|done]. fold fs.
  destruct (N.lt_ge_cases (first_sequence body + total fs) (2 ^ 64)) as [|Hge]; [done|].
  rewrite (N.mod_eq _ (2 ^ 64)) in Hstop by done.
  assert (Hdiv : (first_sequence body + total fs) / 2 ^ 64 = 1)
    by (symmetry; apply (N.div_unique _ _ _ (first_sequence body + total fs - 2 ^ 64)); lia).
  rewrite Hdiv in Hstop. lia.
Qed.

Lemma from_body_slots number body seg :
  from_body number body = Ok seg → body_typed body →
  0 < first_sequence body ≤ last_sequence body ∧ s_first seg = first_sequence body ∧
  s_last seg = last_sequence body ∧ s_frames seg = frames body ∧ s_number seg = number ∧
  Forall (λ f, ∃ slot, check_frame (seg_bytes body) f = Ok slot) (frames body) ∧
  Forall (λ f, is_Some (kid f) → paired seg f = true) (frames body) ∧
  ∀ slot, (slot < 3)%nat → ∃ indexes, by_stream seg !! slot = Some indexes ∧
    let fs := frame_at (frames body) <$> indexes in
    chain fs (first_sequence body) (last_sequence body + 1) ∧
    fs ≡ₚ filter (λ f, stream_slot (stream f) = Some slot) (frames body).
Proof.
  intros Hb Ht. unfold from_body in Hb. destruct (negb _); [done|].
  destruct (N.eqb_spec (first_sequence body) 0); [done|].
  destruct (N.ltb_spec (last_sequence body) (first_sequence body)); [done|]. cbn [orb] in Hb.
  apply bind_Ok_inv in Hb as (bs & Hidx & Hb). apply bind_Ok_inv in Hb as (bs' & Hmap & Hb).
  apply index_frames_spec in Hidx as [Hall ->]. cbn [imap] in Hmap. destruct (forallb _ _) eqn:Hpair; [|done].
  injection Hb as <-. cbn [s_first s_last s_frames s_number by_stream]. split_and!; [lia|lia|done..| |].
  - rewrite Forall_forall. intros f Hf Hk. rewrite forallb_forall in Hpair. apply Hpair, list_elem_of_In.
    by apply list_elem_of_filter.
  - apply map_result_Forall2 in Hmap. intros slot Hslot.
    assert (Hin : [[] ++ slot_indexes 0 0 (frames body); [] ++ slot_indexes 1 0 (frames body);
      [] ++ slot_indexes 2 0 (frames body)] !! slot = Some (slot_indexes slot 0 (frames body)))
      by (destruct slot as [|[|[|]]]; [done..|lia]).
    destruct (Forall2_lookup_l _ _ _ _ _ Hmap Hin) as (indexes & Hi & Hc). exists indexes. split; [done|].
    by apply check_stream_Ok.
Qed.
End accepted.

Section locate.
Context `{Json}.
Implicit Types (body : SegmentIndexBody).

(** [f] is the frame of its stream that holds [n]. *)
Definition holds (body : SegmentIndexBody) (st n : N) (f : FrameEntry) : Prop :=
  f ∈ frames body ∧ stream f = st ∧ first f ≤ n < first f + count f.

Lemma frame_locates number body seg st n :
  from_body number body = Ok seg → body_typed body → st ∈ STREAMS →
  if (first_sequence body <=? n) && (n <=? last_sequence body)
  then ∃ f, frame seg st n = Some f ∧ holds body st n f ∧ (∀ g, holds body st n g → g = f)
  else frame seg st n = None.
Proof.
  intros Hb Ht Hst. destruct (from_body_slots _ _ _ Hb Ht) as (Hr & Hf & Hl & Hfr & _ & Hall & _ & Hslots).
  assert (Hslot : ∃ slot, stream_slot st = Some slot ∧ (slot < 3)%nat).
  { elem_cases Hst; eexists; (split; [done|lia]). }
  destruct Hslot as (slot & Hslot & Hlt). destruct (Hslots slot Hlt) as (indexes & Hi & Hc & Hp).
  assert (Hmem : ∀ f, f ∈ frame_at (frames body) <$> indexes ↔ f ∈ frames body ∧ stream f = st).
  { intros f. rewrite Hp, list_elem_of_filter. split; [|naive_solver]. intros [Hs ?]. split; [done|].
    by eapply stream_slot_inj. }
  assert (Hpos : Forall (λ f, 0 < count f) (frame_at (frames body) <$> indexes)).
  { apply Forall_forall. intros f [Hin _]%Hmem. rewrite Forall_forall in Hall.
    destruct (Hall f Hin) as [s Hs]. by apply check_frame_Ok in Hs as (_ & ? & _). }
  pose proof (frame_of_chain seg st slot indexes n Hslot Hi) as Hframe. cbn zeta in Hframe.
  rewrite Hfr, Hf, Hl in Hframe. destruct Ht as [_ _ Hlast _]. specialize (Hframe Hc Hpos Hlast).
  destruct (_ && _); [|done]. destruct Hframe as (f & Hf' & Hin & Hn). exists f. split; [done|].
  apply Hmem in Hin as Hin'. split; [by split_and!; naive_solver|].
  intros g (Hg1 & Hg2 & Hg3). symmetry. eapply chain_disjoint; [exact Hc|done|by apply Hmem|done|done].
Qed.

(** An index that [from_body] accepts locates every record: for each of the
    three streams and every sequence of the segment, the binary search finds
    the one frame of that stream holding it, which lies inside the file; it
    finds none outside the segment's range; and the summary and full frame of
    a sealed record cover the same records under the same key. *)
Theorem index_locates_every_record (number : N) (body : SegmentIndexBody) (seg : SealedSegment) (st n : N) :
  from_body number body = Ok seg → body_typed body → st ∈ STREAMS →
  if (first_sequence body <=? n) && (n <=? last_sequence body)
  then ∃ f, frame seg st n = Some f ∧ holds body st n f ∧ (∀ g, holds body st n g → g = f) ∧
    SEGMENT_HEADER_BYTES + FRAME_HEADER_BYTES ≤ offset f ∧ offset f + len f ≤ seg_bytes body ∧
    (st = STREAM_ENVELOPE → group f = Plain) ∧
    (∀ k, kid f = Some k → ∃ g, frame seg (if st =? STREAM_FULL then STREAM_SUMMARY else STREAM_FULL) n = Some g ∧
       first g = first f ∧ count g = count f ∧ kid g = Some k)
  else frame seg st n = None.
Proof.
  intros Hb Ht Hst. pose proof (frame_locates number body seg st n Hb Ht Hst) as Hloc.
  destruct (_ && _) eqn:Hin; [|done]. destruct Hloc as (f & Hf & Hh & Hu). exists f.
  destruct (from_body_slots _ _ _ Hb Ht) as (_ & _ & _ & _ & _ & Hall & Hpair & _).
  destruct Hh as (Hfin & Hfs & Hfn). rewrite Forall_forall in Hall. rewrite Forall_forall in Hpair.
  destruct (Hall f Hfin) as [slot Hs]. apply check_frame_Ok in Hs as (_ & _ & Ho & He & Hpl). subst st.
  split_and!; [done..|]. intros k Hk. pose proof (Hpair f Hfin) as Hp. rewrite Hk in Hp.
  specialize (Hp ltac:(done)). unfold paired in Hp.
  set (other := if stream f =? STREAM_FULL then STREAM_SUMMARY else STREAM_FULL) in *.
  assert (Ho' : other ∈ STREAMS) by (unfold other; destruct (_ =? _); repeat (left || right)).
  destruct (frame seg other (first f)) as [g|] eqn:Hg; [|done].
  apply andb_true_iff in Hp as [[Hg1%N.eqb_eq Hg2%N.eqb_eq]%andb_true_iff Hg3%bool_decide_eq_true].
  exists g. split_and!; [|done|done|congruence].
  pose proof (frame_locates number body seg other (first f) Hb Ht Ho') as Hlf.
  pose proof (frame_locates number body seg other n Hb Ht Ho') as Hln. rewrite Hin in Hln.
  destruct Hln as (g' & Hg' & _ & Hu'). destruct (_ && _) in Hlf; [|congruence].
  destruct Hlf as (g'' & Hg'' & (Hin1 & Hin2 & _) & _). rewrite Hg in Hg''. injection Hg'' as <-.
  rewrite Hg'. f_equal. symmetry. apply Hu'. split_and!; [done|done|lia..].
Qed.
End locate.

(** ** When an index is accepted *)
Section acceptance.
Context `{Json}.
Implicit Types (body : SegmentIndexBody) (fs : list FrameEntry).

Lemma walk_of_chain frames indexes a b :
  chain (frame_at frames <$> indexes) a b → b < 2 ^ 64 → walk_contiguous frames a indexes = Ok b.
Proof.
  revert a. induction indexes as [|i indexes IH]; intros a; cbn [walk_contiguous fmap list_fmap chain]; [by intros ->|].
  intros [-> Hc] Hb. rewrite N.eqb_refl. cbn [negb]. pose proof (chain_total _ _ _ Hc).
  unfold u64_add. rewrite N.mod_small by (fold (total (frame_at frames <$> indexes)) in *; lia). by apply IH.
Qed.

Lemma chain_sorted fs a b : chain fs a b → StronglySorted (λ f g, first f ≤ first g) fs.
Proof.
  revert a. induction fs as [|f fs IH]; intros a; [constructor|]. intros [Hf Hc]. constructor; [by eapply IH|].
  apply Forall_forall. intros g Hg. destruct (chain_first_ge _ _ _ _ Hc Hg). lia.
Qed.

Lemma sorted_indexes frames indexes a b :
  chain (frame_at frames <$> indexes) a b → Forall (λ f, 0 < count f) (frame_at frames <$> indexes) →
  frame_at frames <$> sort_indexes frames indexes = frame_at frames <$> indexes.
Proof.
  intros Hc Hpos.
  assert (Hperm : frame_at frames <$> sort_indexes frames indexes ≡ₚ frame_at frames <$> indexes).
  { unfold sort_indexes. by rewrite merge_sort_Permutation. }
  apply (StronglySorted_unique_strong (λ f g, first f ≤ first g)); [| |by eapply chain_sorted|done].
  - intros f g Hf Hg H1 H2. rewrite Hperm in Hf. rewrite Forall_forall in Hpos.
    eapply (chain_disjoint _ _ _ f g (first f) Hc); [done..| |];
      pose proof (Hpos f Hf); pose proof (Hpos g Hg); lia.
  - assert (Hs : StronglySorted (starts_before frames) (sort_indexes frames indexes))
      by (apply StronglySorted_merge_sort; apply _).
    clear Hperm. induction Hs as [|i l Hs IH Hall]; cbn; [constructor|]. constructor; [done|].
    rewrite Forall_fmap. eapply Forall_impl; [exact Hall|]. done.
Qed.

(** The frames of a stream, in table order. *)
Definition stream_frames (fs : list FrameEntry) (st : N) : list FrameEntry := filter (λ f, stream f = st) fs.

Lemma stream_frames_slot fs st slot :
  stream_slot st = Some slot → filter (λ f, stream_slot (stream f) = Some slot) fs = stream_frames fs st.
Proof.
  intros Hs. unfold stream_frames. induction fs as [|f fs IH]; [done|].
  destruct (decide (stream f = st)) as [Heq|Hne].
  - rewrite !filter_cons_True by congruence. by rewrite IH.
  - rewrite !filter_cons_False; [done|done|]. intros Hf. by apply Hne, (stream_slot_inj _ _ slot).
Qed.

Record well_framed (body : SegmentIndexBody) : Prop := {
  wf_version : version body = INDEX_VERSION;
  wf_range : 0 < first_sequence body ≤ last_sequence body;
  wf_last : last_sequence body < 2 ^ 64 - 1;
  wf_frames : Forall (λ f, ∃ slot, check_frame (seg_bytes body) f = Ok slot) (frames body);
  wf_chain st : st ∈ STREAMS →
    chain (stream_frames (frames body) st) (first_sequence body) (last_sequence body + 1);
  wf_paired f : f ∈ frames body → is_Some (kid f) →
    ∃ g, g ∈ frames body ∧ stream g = (if stream f =? STREAM_FULL then STREAM_SUMMARY else STREAM_FULL) ∧
         first g = first f ∧ count g = count f ∧ kid g = kid f;
}.

(** Each stream of a well-framed body passes the checks. *)
Lemma well_framed_stream body st slot :
  well_framed body → stream_slot st = Some slot → st ∈ STREAMS →
  let indexes := slot_indexes slot 0 (frames body) in
  let fs := stream_frames (frames body) st in
  frame_at (frames body) <$> sort_indexes (frames body) indexes = fs ∧ Forall (λ f, 0 < count f) fs ∧
  check_stream body indexes = Ok (sort_indexes (frames body) indexes).
Proof.
  intros [_ _ Hl Hall Hch _] Hs Hst. cbn zeta.
  assert (Hfs : frame_at (frames body) <$> slot_indexes slot 0 (frames body) = stream_frames (frames body) st)
    by by rewrite frames_of_slot, (stream_frames_slot _ _ _ Hs).
  assert (Hpos : Forall (λ f, 0 < count f) (stream_frames (frames body) st)).
  { apply Forall_forall. intros f [_ Hf]%list_elem_of_filter. rewrite Forall_forall in Hall.
    destruct (Hall f Hf) as [? Hs']. by apply check_frame_Ok in Hs' as (_ & ? & _). }
  pose proof (Hch st Hst) as Hc. rewrite <-Hfs in Hc, Hpos.
  pose proof (sorted_indexes _ _ _ _ Hc Hpos) as Hsort.
  split_and!; [congruence|congruence|]. unfold check_stream.
  rewrite (walk_of_chain _ _ _ (last_sequence body + 1)); [|by rewrite Hsort|lia].
  cbn. unfold u64_add. rewrite N.mod_small by lia. by rewrite N.eqb_refl.
Qed.

(** The pairing check passes on a segment with the sorted tables. *)
Lemma well_framed_paired body seg f :
  well_framed body → s_frames seg = frames body → s_first seg = first_sequence body → s_last seg = last_sequence body →
  (∀ slot, (slot < 3)%nat →
    by_stream seg !! slot = Some (sort_indexes (frames body) (slot_indexes slot 0 (frames body)))) →
  f ∈ frames body → is_Some (kid f) → paired seg f = true.
Proof.
  intros Hwf Hfr Hfi Hla Hbs Hf Hk. destruct (wf_paired _ Hwf f Hf Hk) as (g & Hg & Hgs & Hg1 & Hg2 & Hg3).
  unfold paired. set (other := if stream f =? STREAM_FULL then STREAM_SUMMARY else STREAM_FULL) in *.
  assert (Hoslot : ∃ slot, stream_slot other = Some slot ∧ other ∈ STREAMS ∧ (slot < 3)%nat).
  { unfold other. destruct (_ =? _); [exists 1%nat|exists 2%nat]; (split_and!; [done| |lia]).
    - by right; left.
    - by right; right; left. }
  destruct Hoslot as (slot & Hs & Ho & Hlt). destruct (well_framed_stream body other slot Hwf Hs Ho) as (Hfs & Hpos & _).
  pose proof (frame_of_chain seg other slot _ (first f) Hs (Hbs slot Hlt)) as Hchain. cbn zeta in Hchain.
  rewrite Hfr, Hfs, Hfi, Hla in Hchain. pose proof (wf_chain _ Hwf other Ho) as Hc.
  specialize (Hchain Hc Hpos (wf_last _ Hwf)).
  assert (Hgin : g ∈ stream_frames (frames body) other) by by apply list_elem_of_filter.
  pose proof (chain_first_ge _ _ _ _ Hc Hgin) as [Hb1 Hb2].
  assert (Hgpos : 0 < count g) by by apply (proj1 (Forall_forall _ _) Hpos).
  rewrite (proj2 (N.leb_le (first_sequence body) (first f))) in Hchain by lia.
  rewrite (proj2 (N.leb_le (first f) (last_sequence body))) in Hchain by lia. cbn [andb] in Hchain.
  destruct Hchain as (g' & -> & Hg'in & Hg'n).
  assert (g' = g) as -> by (eapply chain_disjoint; [exact Hc|done|done|exact Hg'n|lia]).
  by rewrite Hg1, Hg2, Hg3, !N.eqb_refl, bool_decide_true.
Qed.

Lemma from_body_accepts number body : well_framed body → ∃ seg, from_body number body = Ok seg.
Proof.
  intros Hwf. pose proof Hwf as [Hv Hr _ Hall _ _]. unfold from_body. rewrite Hv, N.eqb_refl. cbn [negb].
  destruct (N.eqb_spec (first_sequence body) 0); [lia|].
  destruct (N.ltb_spec (last_sequence body) (first_sequence body)); [lia|]. cbn [orb].
  rewrite (proj2 (index_frames_spec _ _ _ _ _) (conj Hall eq_refl)). cbn [mbind result_bind].
  change (imap _ [[]; []; []]) with
    [slot_indexes 0 0 (frames body); slot_indexes 1 0 (frames body); slot_indexes 2 0 (frames body)].
  cbn [map_result].
  destruct (well_framed_stream body STREAM_ENVELOPE 0%nat Hwf) as (_ & _ & ->); [done|by left|].
  destruct (well_framed_stream body STREAM_SUMMARY 1%nat Hwf) as (_ & _ & ->); [done|by right; left|].
  destruct (well_framed_stream body STREAM_FULL 2%nat Hwf) as (_ & _ & ->); [done|by right; right; left|].
  cbv beta iota zeta delta [mbind result_bind].
  rewrite (proj2 (forallb_forall _ _)); [by eexists|]. intros f Hf%list_elem_of_In.
  apply list_elem_of_filter in Hf as [Hk Hf]. eapply well_framed_paired; [done..| |done|done].
  intros [|[|[|]]] Hlt; [done..|lia].
Qed.
End acceptance.
