(* ===== verification/SegmentBuilder.v ===== *)
(** * Sealed segments: building one

    Model of [SegmentBuilder] in src/src/conversation/segment.rs: records are
    streamed into three buffers, buffers are flushed as frames, frames are
    appended to the [.seg] file under a self-describing header, and [finish]
    yields the index body. The file is the bytes written so far; a failing
    write makes every caller abandon the build, so runs are those whose writes
    succeed. DEFLATE and CRC-32 are the interface [FrameCodec]. *)
From S2P Require Import Prelude Bytes Channel Json JsonObject Model Digest Summary Recipients Keyring Dek HistoryCrypto Record SegmentIndex.
From Stdlib Require Import Strings.Byte Ascii.
Local Open Scope N_scope.

(** [uXX::to_le_bytes] and [from_le_bytes]. *)
Definition to_le (n : nat) (v : N) : bytes := rev (to_be n v).
Definition from_le (l : bytes) : N := from_be (rev l).

(** [x as u32]. *)
Definition as_u32 (n : N) : N := n mod 2 ^ 32.
Definition len_u32 (l : bytes) : N := as_u32 (N.of_nat (length l)).

Definition SEGMENT_MAGIC : bytes := ascii_bytes "TDXSEG1" ++ [Byte.x0a].
Definition FRAME_MAGIC : bytes := ascii_bytes "TDXF".
Definition FLAG_PASSTHROUGH : N := 1.
Definition FRAME_RAW_BYTES : N := 1024 * 1024.

(** flate2: raw DEFLATE (the decoder yields what it inflated, and whether it
    reached the end of the stream) and CRC-32. *)
Class FrameCodec := {
  deflate : bytes → bytes;
  inflate_stream : bytes → bytes * bool;
  crc32 : bytes → N;
}.
Class FrameCodecLaws `{FrameCodec} : Prop := {
  inflate_deflate m : inflate_stream (deflate m) = (m, true);
  crc32_bound m : crc32 m < 2 ^ 32;
}.

Record StreamBuffer : Type := {
  sb_stream : N; sb_group : FrameGroup; sb_first : N; sb_count : N; sb_raw : bytes;
}.
Definition StreamBuffer_new (stream : N) : StreamBuffer :=
  {| sb_stream := stream; sb_group := Plain; sb_first := 0; sb_count := 0; sb_raw := [] |}.

(** [STREAMS[slot]]. *)
Definition stream_of (slot : nat) : N := default 0 (STREAMS !! slot).

Section builder.
Context `{JsonView} `{!Serde} `{HistoryPrimitives} `{Aead} `{FrameCodec}.

Record SegmentBuilder : Type := {
  b_number : N;
  b_out : bytes;                              (* the [.seg] file *)
  b_segment_id : bytes;
  b_frames : list FrameEntry;
  b_buffers : nat → StreamBuffer;
  b_ordinals : gmap (FrameGroup * N) N;
  b_sealed_ordinals : gset (string * N * N);
  b_content_next : N * N;
  b_content_started : bool;
  b_conversation_id : string;
  b_keys : gmap string ContentKey;
  b_repacked : gset string;
  b_digest : JournalDigest;
  b_first : option N;
  b_last : N;
  b_slimmed : N;
}.
Abbreviation B := (M SegmentBuilder SegmentError).

Definition b_offset (self : SegmentBuilder) : N := N.of_nat (length (b_out self)).

Definition set_out o (self : SegmentBuilder) : SegmentBuilder :=
  {| b_number := b_number self; b_out := o; b_segment_id := b_segment_id self; b_frames := b_frames self;
     b_buffers := b_buffers self; b_ordinals := b_ordinals self; b_sealed_ordinals := b_sealed_ordinals self;
     b_content_next := b_content_next self; b_content_started := b_content_started self;
     b_conversation_id := b_conversation_id self; b_keys := b_keys self; b_repacked := b_repacked self;
     b_digest := b_digest self; b_first := b_first self; b_last := b_last self; b_slimmed := b_slimmed self |}.
Definition set_frames fs (self : SegmentBuilder) : SegmentBuilder :=
  {| b_number := b_number self; b_out := b_out self; b_segment_id := b_segment_id self; b_frames := fs;
     b_buffers := b_buffers self; b_ordinals := b_ordinals self; b_sealed_ordinals := b_sealed_ordinals self;
     b_content_next := b_content_next self; b_content_started := b_content_started self;
     b_conversation_id := b_conversation_id self; b_keys := b_keys self; b_repacked := b_repacked self;
     b_digest := b_digest self; b_first := b_first self; b_last := b_last self; b_slimmed := b_slimmed self |}.
Definition set_buffer (slot : nat) buf (self : SegmentBuilder) : SegmentBuilder :=
  {| b_number := b_number self; b_out := b_out self; b_segment_id := b_segment_id self; b_frames := b_frames self;
     b_buffers := λ s, if Nat.eqb s slot then buf else b_buffers self s; b_ordinals := b_ordinals self;
     b_sealed_ordinals := b_sealed_ordinals self;
     b_content_next := b_content_next self; b_content_started := b_content_started self;
     b_conversation_id := b_conversation_id self; b_keys := b_keys self; b_repacked := b_repacked self;
     b_digest := b_digest self; b_first := b_first self; b_last := b_last self; b_slimmed := b_slimmed self |}.
Definition set_ordinals os sealed (self : SegmentBuilder) : SegmentBuilder :=
  {| b_number := b_number self; b_out := b_out self; b_segment_id := b_segment_id self; b_frames := b_frames self;
     b_buffers := b_buffers self; b_ordinals := os; b_sealed_ordinals := sealed;
     b_content_next := b_content_next self; b_content_started := b_content_started self;
     b_conversation_id := b_conversation_id self; b_keys := b_keys self; b_repacked := b_repacked self;
     b_digest := b_digest self; b_first := b_first self; b_last := b_last self; b_slimmed := b_slimmed self |}.
Definition set_content next started (self : SegmentBuilder) : SegmentBuilder :=
  {| b_number := b_number self; b_out := b_out self; b_segment_id := b_segment_id self; b_frames := b_frames self;
     b_buffers := b_buffers self; b_ordinals := b_ordinals self; b_sealed_ordinals := b_sealed_ordinals self;
     b_content_next := next; b_content_started := started;
     b_conversation_id := b_conversation_id self; b_keys := b_keys self; b_repacked := b_repacked self;
     b_digest := b_digest self; b_first := b_first self; b_last := b_last self; b_slimmed := b_slimmed self |}.
Definition set_range f l slim (self : SegmentBuilder) : SegmentBuilder :=
  {| b_number := b_number self; b_out := b_out self; b_segment_id := b_segment_id self; b_frames := b_frames self;
     b_buffers := b_buffers self; b_ordinals := b_ordinals self; b_sealed_ordinals := b_sealed_ordinals self;
     b_content_next := b_content_next self; b_content_started := b_content_started self;
     b_conversation_id := b_conversation_id self; b_keys := b_keys self; b_repacked := b_repacked self;
     b_digest := b_digest self; b_first := f; b_last := l; b_slimmed := slim |}.
Definition set_facts d r (self : SegmentBuilder) : SegmentBuilder :=
  {| b_number := b_number self; b_out := b_out self; b_segment_id := b_segment_id self; b_frames := b_frames self;
     b_buffers := b_buffers self; b_ordinals := b_ordinals self; b_sealed_ordinals := b_sealed_ordinals self;
     b_content_next := b_content_next self; b_content_started := b_content_started self;
     b_conversation_id := b_conversation_id self; b_keys := b_keys self; b_repacked := r;
     b_digest := d; b_first := b_first self; b_last := b_last self; b_slimmed := b_slimmed self |}.

Definition get_self : B SegmentBuilder := λ self, (self, Ok self).
Definition modify (f : SegmentBuilder → SegmentBuilder) : B unit := λ self, (f self, Ok tt).

(** [SegmentBuilder::create]; [id] is the random segment id, [keys] the keys
    of the policy. *)
Definition create (id : bytes) (conversation_id : string) (number : N) (keys : gmap string ContentKey) :
    SegmentBuilder :=
  {| b_number := number; b_out := SEGMENT_MAGIC ++ id; b_segment_id := id; b_frames := [];
     b_buffers := λ slot, StreamBuffer_new (stream_of slot); b_ordinals := ∅; b_sealed_ordinals := ∅;
     b_content_next := (0, 0); b_content_started := false; b_conversation_id := conversation_id; b_keys := keys;
     b_repacked := ∅; b_digest := digest_default; b_first := None; b_last := 0; b_slimmed := 0 |}.

Definition write (b : bytes) : B unit := modify (λ self, set_out (b_out self ++ b) self).

Definition observe (original : ConversationEvent) : B unit :=
  modify (λ self, set_facts (Digest.apply (b_digest self) original) (b_repacked self) self).
Definition note_repacked (kid : string) : B unit :=
  modify (λ self, set_facts (b_digest self) ({[kid]} ∪ b_repacked self) self).

Definition set_frame_place (entry : FrameEntry) (off ln : N) : FrameEntry :=
  {| stream := stream entry; first := first entry; count := count entry; offset := off; len := ln;
     raw := raw entry; kid := kid entry; passthrough := passthrough entry; ordinal := ordinal entry;
     crc := crc entry |}.

(** The header of a frame. *)
Definition frame_header (entry : FrameEntry) (stored : bytes) : bytes :=
  let kid_bytes := str_bytes (default "" (kid entry)) in
  FRAME_MAGIC ++ [byte_of (stream entry); byte_of (N.of_nat (length kid_bytes));
    byte_of (if passthrough entry then FLAG_PASSTHROUGH else 0); Byte.x00]
  ++ to_le 8 (first entry) ++ to_le 4 (count entry) ++ to_le 4 (raw entry)
  ++ to_le 4 (len_u32 stored) ++ to_le 4 (ordinal entry) ++ to_le 4 (crc entry) ++ kid_bytes.

Definition write_frame (entry : FrameEntry) (stored : bytes) : B unit :=
  if (255 <? N.of_nat (length (str_bytes (default "" (kid entry)))))
  then throw (Invalid "frame key id is too long")
  else
    _ ← write (frame_header entry stored);
    self ← get_self;
    let entry := set_frame_place entry (b_offset self) (len_u32 stored) in
    _ ← write stored;
    modify (λ self, set_frames (b_frames self ++ [entry]) self).

(** The loop that skips the ordinals copied frames took. Every round meets
    another member of [sealed], so [size sealed + 1] rounds are enough. *)
Fixpoint free_ordinal (fuel : nat) (kid : string) (stream ordinal : N) (ordinals : gmap (FrameGroup * N) N)
    (sealed : gset (string * N * N)) : result SegmentError (N * gmap (FrameGroup * N) N) :=
  if bool_decide ((kid, stream, ordinal) ∈ sealed) then
    match fuel with
    | O => Err (Invalid "frame ordinals exhausted")
    | S fuel =>
        if ordinal + 1 <? 2 ^ 32
        then free_ordinal fuel kid stream (ordinal + 1) (<[(Sealed kid, stream) := ordinal + 1 + 1]> ordinals) sealed
        else Err (Invalid "frame ordinals exhausted")
    end
  else Ok (ordinal, ordinals).

Definition content_stream (stream : N) : ContentStream :=
  if stream =? STREAM_SUMMARY then FrameSummary else FrameFull.

Definition flush (slot : nat) : B unit :=
  self ← get_self;
  let buffer := b_buffers self slot in
  _ ← modify (set_buffer slot (StreamBuffer_new (stream_of slot)));
  if sb_count buffer =? 0 then mret tt
  else
    let raw' := if sb_stream buffer =? STREAM_ENVELOPE then sb_raw buffer
                else sb_raw buffer ++ [Byte.x5d] in
    let compressed := deflate raw' in
    let at_key := (sb_group buffer, sb_stream buffer) in
    let ordinal := default 0 (b_ordinals self !! at_key) in
    let ordinals := <[at_key := ordinal + 1]> (b_ordinals self) in
    let sealed := b_sealed_ordinals self in
    _ ← modify (set_ordinals ordinals sealed);
    match sb_group buffer with
    | Sealed kid =>
        '(ordinal, ordinals) ← lift_result (free_ordinal (S (size sealed)) kid (sb_stream buffer) ordinal ordinals sealed);
        _ ← modify (set_ordinals ordinals ({[(kid, sb_stream buffer, ordinal)]} ∪ sealed));
        match b_keys self !! kid with
        | None => throw (Invalid "no key to seal the frame under")
        | Some key =>
            match seal key (str_bytes (b_conversation_id self)) (content_stream (sb_stream buffer))
                    (frame_counter (b_number self) ordinal) compressed with
            | Err _ => throw (Invalid "unable to seal the frame")
            | Ok sealed_bytes =>
                write_frame
                  {| stream := sb_stream buffer; first := sb_first buffer; count := sb_count buffer; offset := 0;
                     len := len_u32 sealed_bytes; raw := len_u32 raw'; kid := Some kid; passthrough := false;
                     ordinal := ordinal; crc := crc32 sealed_bytes |} sealed_bytes
            end
        end
    | _ =>
        write_frame
          {| stream := sb_stream buffer; first := sb_first buffer; count := sb_count buffer; offset := 0;
             len := len_u32 compressed; raw := len_u32 raw'; kid := None;
             passthrough := bool_decide (sb_group buffer = Passthrough);
             ordinal := ordinal; crc := crc32 raw' |} compressed
    end.

(** Whether [item] does not fit the buffer any more. *)
Definition needs_flush (group : FrameGroup) (buffer : StreamBuffer) (item : bytes) : bool :=
  (0 <? sb_count buffer) &&
  ((FRAME_RAW_BYTES <? N.of_nat (length (sb_raw buffer) + length item)) || negb (bool_decide (sb_group buffer = group))).

Definition add_item (buffer : StreamBuffer) (sequence : N) (group : FrameGroup) (item : bytes) : StreamBuffer :=
  let fresh := sb_count buffer =? 0 in
  let envelope := sb_stream buffer =? STREAM_ENVELOPE in
  {| sb_stream := sb_stream buffer;
     sb_group := if fresh then group else sb_group buffer;
     sb_first := if fresh then sequence else sb_first buffer;
     sb_count := sb_count buffer + 1;
     sb_raw := sb_raw buffer ++ (if envelope then [] else if fresh then [Byte.x5b] else [Byte.x2c]) ++ item |}.

Definition append (slot : nat) (sequence : N) (group : FrameGroup) (item : bytes) : B unit :=
  self ← get_self;
  _ ← (if Nat.eqb slot 0 && needs_flush group (b_buffers self slot) item then flush slot else mret tt);
  modify (λ self, set_buffer slot (add_item (b_buffers self slot) sequence group item) self).

Definition is_sealed (group : FrameGroup) : bool := match group with Sealed _ => true | _ => false end.

Definition append_content (sequence : N) (group : FrameGroup) (summary full : bytes) : B unit :=
  self ← get_self;
  if negb (bool_decide (b_content_next self = (sequence, sequence)))
  then throw (Invalid "segment content is out of order")
  else
    let summary_full := needs_flush group (b_buffers self 1%nat) summary in
    let full_full := needs_flush group (b_buffers self 2%nat) full in
    _ ← (if is_sealed group then
           if summary_full || full_full then _ ← flush 1%nat; flush 2%nat else mret tt
         else
           _ ← (if summary_full then flush 1%nat else mret tt);
           if full_full then flush 2%nat else mret tt);
    _ ← append 1%nat sequence group summary;
    _ ← append 2%nat sequence group full;
    modify (λ self, set_content (sequence + 1, sequence + 1) (b_content_started self) self).

Inductive Item : Type :=
  | PlainItem (payload : Value)
  | SealedItem (kid : string) (payload : Value)
  | PassthroughItem (encrypted : gmap string Value)
  | Verbatim.

(** The summary and full text of a plaintext payload. *)
Definition payload_texts (stored : ConversationEvent) (payload : Value) : bytes * bytes :=
  let full := value_to_vec payload in
  let summarized := summarize_event (with_payload stored payload) in
  (if summarized.2 then value_to_vec (Model.payload summarized.1) else full, full).
(** The summary item of ciphertext kept as it is drops [f] when a separate
    summary exists. *)
Definition passthrough_texts (encrypted : gmap string Value) : bytes * bytes :=
  let summary := if encrypted !! "s" then delete "f" encrypted else encrypted in
  (value_to_vec (object_value summary), value_to_vec (object_value encrypted)).

(** The three parts of [push]: the range check, then after the envelope line the
    content. *)
Definition push_range (stored : ConversationEvent) : B unit :=
  self ← get_self;
  let n := sequence stored in
  _ ← match b_first self with
      | None =>
          _ ← modify (set_range (Some n) (b_last self) (b_slimmed self));
          if b_content_started self then mret tt else modify (set_content (n, n) true)
      | Some _ =>
          if n =? b_last self + 1 then mret tt
          else throw (Invalid "segment record does not follow")
      end;
  modify (λ self, set_range (b_first self) n
    (if String.eqb (event_type stored) JOURNAL_COMPACTED_EVENT then b_slimmed self + 1 else b_slimmed self) self).

Definition push_content (stored : ConversationEvent) (item : Item) : B unit :=
  let n := sequence stored in
  match item with
  | Verbatim =>
      self ← get_self;
      if (fst (b_content_next self) <=? n) || (snd (b_content_next self) <=? n)
      then throw (Invalid "record has no copied frame holding its content")
      else mret tt
  | PlainItem payload =>
      let texts := payload_texts stored payload in
      append_content n Plain texts.1 texts.2
  | SealedItem kid payload =>
      self ← get_self;
      if b_keys self !! kid then
        let texts := payload_texts stored payload in
        append_content n (Sealed kid) texts.1 texts.2
      else throw (Invalid "no key to seal the frame under")
  | PassthroughItem encrypted =>
      let texts := passthrough_texts encrypted in
      append_content n Passthrough texts.1 texts.2
  end.

Definition push (stored : ConversationEvent) (item : Item) : B unit :=
  _ ← push_range stored;
  _ ← append 0%nat (sequence stored) Plain (encode_envelope stored ++ [Byte.x0a]);
  push_content stored item.

(** One frame of [push_verbatim]: the checks and the flush. *)
Definition verbatim_check (slot : nat) (entry full : FrameEntry) : B unit :=
  self ← get_self;
  let next := if Nat.eqb slot 1 then fst (b_content_next self) else snd (b_content_next self) in
  if bool_decide (kid entry = None) || negb (first entry =? first full) || negb (count entry =? count full)
     || negb (stream entry =? stream_of slot) || negb (bool_decide (kid entry = kid full))
     || negb (next =? first full)
  then throw (Invalid "copied frames do not line up")
  else flush slot.
Definition verbatim_write (slot : nat) (entry : FrameEntry) (stored : bytes) : B unit :=
  self ← get_self;
  let key := (default "" (kid entry), stream entry, ordinal entry) in
  if bool_decide (key ∈ b_sealed_ordinals self) then throw (Invalid "copied frame reuses a frame counter")
  else
    _ ← modify (λ self, set_ordinals (b_ordinals self) ({[key]} ∪ b_sealed_ordinals self) self);
    _ ← modify (λ self,
          let next := first entry + count entry in
          set_content (if Nat.eqb slot 1 then (next, snd (b_content_next self)) else (fst (b_content_next self), next))
            (b_content_started self) self);
    write_frame entry stored.

Definition push_verbatim (summary full : FrameEntry * bytes) : B unit :=
  self ← get_self;
  let start := first full.1 in
  _ ← (if b_content_started self then mret tt else modify (set_content (start, start) true));
  _ ← verbatim_check 1%nat summary.1 full.1;
  _ ← verbatim_check 2%nat full.1 full.1;
  _ ← verbatim_write 1%nat summary.1 summary.2;
  verbatim_write 2%nat full.1 full.2.

Definition hex_digit (n : N) : ascii := if n <? 10 then ascii_of_N (48 + n) else ascii_of_N (87 + n).
Fixpoint hex (l : bytes) : string :=
  match l with
  | [] => ""
  | b :: l => String (hex_digit (byte_val b / 16)) (String (hex_digit (byte_val b mod 16)) (hex l))
  end.

Definition finish (sources' : list string) : B SegmentIndexBody :=
  self ← get_self;
  match b_first self with
  | None => throw (Invalid "a segment needs at least one record")
  | Some first =>
      _ ← flush 0%nat; _ ← flush 1%nat; _ ← flush 2%nat;
      self ← get_self;
      if negb (bool_decide (b_content_next self = (b_last self + 1, b_last self + 1)))
      then throw (Invalid "segment content does not cover its records")
      else
        mret {| version := INDEX_VERSION; first_sequence := first; last_sequence := b_last self;
                segment_id := hex (b_segment_id self); seg_bytes := b_offset self;
                seg_sha256 := hex (sha256 (b_out self)); sources := sources'; slimmed := b_slimmed self;
                frames := b_frames self; digest := b_digest self |}
  end.
End builder.

(** ** What a flush does *)
Section flushing.
Context `{JsonView} `{!Serde} `{HistoryPrimitives} `{Aead} `{FrameCodec}.
Implicit Types (b : SegmentBuilder) (f : FrameEntry).

(** The fields a flush leaves alone. *)
Definition rest b :=
  (b_number b, b_segment_id b, b_content_next b, b_content_started b, b_conversation_id b, b_keys b,
   b_repacked b, b_digest b, b_first b, b_last b, b_slimmed b).

(** The text a buffer compresses. *)
Definition buffer_text (buf : StreamBuffer) : bytes :=
  if sb_stream buf =? STREAM_ENVELOPE then sb_raw buf else sb_raw buf ++ [Byte.x5d].

(** [stored] is what a flush of [buf] writes under [f], in a segment with this
    number, conversation and keys. *)
Definition frame_stores (number : N) (cid : string) (keys : gmap string ContentKey) (buf : StreamBuffer)
    (f : FrameEntry) (stored : bytes) : Prop :=
  raw f = len_u32 (buffer_text buf) ∧ group f = sb_group buf ∧
  match kid f with
  | Some k => ∃ key, keys !! k = Some key ∧ crc f = crc32 stored ∧
      seal key (str_bytes cid) (content_stream (stream f)) (frame_counter number (ordinal f))
        (deflate (buffer_text buf)) = Ok stored
  | None => stored = deflate (buffer_text buf) ∧ crc f = crc32 (buffer_text buf)
  end.

(** A frame added to a builder: its place, its counter and its bytes. *)
Record frame_added b b' f stored : Prop := {
  fa_frames : b_frames b' = b_frames b ++ [f];
  fa_out : b_out b' = b_out b ++ frame_header f stored ++ stored;
  fa_offset : offset f = b_offset b + N.of_nat (length (frame_header f stored));
  fa_len : len f = len_u32 stored;
  fa_kid : N.of_nat (length (str_bytes (default "" (kid f)))) ≤ 255;
}.

Lemma frame_header_place f s o l : frame_header (set_frame_place f o l) s = frame_header f s.
Proof. done. Qed.

Lemma write_frame_spec entry stored b b' u :
  write_frame entry stored b = (b', Ok u) →
  ∃ f, f = set_frame_place entry (b_offset b + N.of_nat (length (frame_header entry stored))) (len_u32 stored) ∧
    frame_added b b' f stored ∧ rest b' = rest b ∧ b_buffers b' = b_buffers b ∧
    b_ordinals b' = b_ordinals b ∧ b_sealed_ordinals b' = b_sealed_ordinals b.
Proof.
  unfold write_frame. destruct (N.ltb_spec 255 (N.of_nat (length (str_bytes (default "" (kid entry)))))); [done|].
  intros [= <- <-]. eexists. split; [done|split_and!; [|done..]]. split; cbn; [| |done..].
  - unfold b_offset. cbn. by rewrite length_app, Nat2N.inj_add.
  - by rewrite <-app_assoc.
Qed.

Lemma lift_result_inv {S E A} (r : result E A) (s s' : S) a : lift_result r s = (s', Ok a) → s' = s ∧ r = Ok a.
Proof. unfold lift_result. intros E'. by apply pair_equal_spec in E' as [<- <-]. Qed.

Lemma free_ordinal_spec fuel k st o os sealed o' os' :
  free_ordinal fuel k st o os sealed = Ok (o', os') → (k, st, o') ∉ sealed ∧ o ≤ o' ∧ (o < 2 ^ 32 → o' < 2 ^ 32).
Proof.
  revert o os. induction fuel as [|fuel IH]; intros o os; cbn [free_ordinal];
    (case_bool_decide as Hin; [|by intros [= <- _]; split_and!]); [done|].
  destruct (N.ltb_spec (o + 1) (2 ^ 32)); [|done]. intros (Hn & Hle & Hlt)%IH. split_and!; [done|lia|by intros _; apply Hlt].
Qed.

Lemma flush_spec slot b b' u :
  flush slot b = (b', Ok u) →
  let buf := b_buffers b slot in
  rest b' = rest b ∧
  (∀ s, b_buffers b' s = if Nat.eqb s slot then StreamBuffer_new (stream_of slot) else b_buffers b s) ∧
  ((sb_count buf = 0 ∧ b_frames b' = b_frames b ∧ b_out b' = b_out b ∧ b_sealed_ordinals b' = b_sealed_ordinals b) ∨
   (∃ f stored, sb_count buf ≠ 0 ∧ frame_added b b' f stored ∧ stream f = sb_stream buf ∧ first f = sb_first buf ∧
      count f = sb_count buf ∧ frame_stores (b_number b) (b_conversation_id b) (b_keys b) buf f stored ∧
      match kid f with
      | Some k => (k, stream f, ordinal f) ∉ b_sealed_ordinals b ∧
                  b_sealed_ordinals b' = {[(k, stream f, ordinal f)]} ∪ b_sealed_ordinals b
      | None => b_sealed_ordinals b' = b_sealed_ordinals b
      end)).
Proof.
  intros Hf. cbn zeta. unfold flush in Hf.
  apply M_bind_Ok_inv in Hf as (b0 & self & Hs & Hf). injection Hs as <- <-.
  apply M_bind_Ok_inv in Hf as (b1 & [] & Hm & Hf). injection Hm as <-.
  destruct (N.eqb_spec (sb_count (b_buffers b slot)) 0) as [Hz|Hnz].
  { injection Hf as <- _. split_and!; [done|done|by left]. }
  fold (buffer_text (b_buffers b slot)) in Hf.
  apply M_bind_Ok_inv in Hf as (b2 & [] & Hm & Hf). injection Hm as <-.
  destruct (sb_group (b_buffers b slot)) as [| |k] eqn:Hg.
  1, 2: apply write_frame_spec in Hf as (f & Hfe & [F1 F2 F3 F4 F5] & Hr & Hb & Ho & Hso); subst f;
    rewrite Hr, Hb, Hso; split_and!; [done|done|right; eexists _, _; split_and!; try done;
      by unfold frame_stores, group; cbn; rewrite Hg].
  apply M_bind_Ok_inv in Hf as (b3 & [o os] & Hm & Hf). apply lift_result_inv in Hm as [-> Hfree].
  apply free_ordinal_spec in Hfree as (Hfree & _ & _).
  apply M_bind_Ok_inv in Hf as (b4 & [] & Hm & Hf). injection Hm as <-.
  destruct (b_keys b !! k) as [key|] eqn:Hk; [|done].
  destruct (seal key _ _ _ _) as [sealed|] eqn:Hseal; [|done].
  apply write_frame_spec in Hf as (f & Hfe & [F1 F2 F3 F4 F5] & Hr & Hb & Ho & Hso). subst f.
  rewrite Hr, Hb, Hso. split_and!; [done|done|]. right. eexists _, sealed. split_and!; try done.
  unfold frame_stores, group. cbn. rewrite Hg. split_and!; [done|done|]. by exists key.
Qed.
End flushing.

(** ** The builder's invariant *)
Section invariant.
Context `{JsonView} `{!Serde} `{HistoryPrimitives} `{Aead} `{FrameCodec}.
Implicit Types (b : SegmentBuilder) (f : FrameEntry).

(** The counters of the sealed frames. *)
Definition sealed_counters (fs : list FrameEntry) : list (string * N * N) :=
  omap (λ f, (λ k, (k, stream f, ordinal f)) <$> kid f) fs.

(** Slot [slot] continues the stream it feeds: its frames run from [F] without
    gaps up to the buffered records, which run up to [E]. *)
Definition stream_ok b (slot : nat) (F E : N) : Prop :=
  let buf := b_buffers b slot in
  if sb_count buf =? 0 then chain (stream_frames (b_frames b) (stream_of slot)) F E
  else chain (stream_frames (b_frames b) (stream_of slot)) F (sb_first buf) ∧ sb_first buf + sb_count buf = E.

Record frame_ok (size : N) f : Prop := {
  fo_count : 0 < count f;
  fo_stream : stream f ∈ STREAMS;
  fo_envelope : stream f = STREAM_ENVELOPE → group f = Plain;
  fo_start : SEGMENT_HEADER_BYTES + FRAME_HEADER_BYTES ≤ offset f;
  fo_end : offset f + len f ≤ size;
}.

Record base_ok b : Prop := {
  bo_frames : Forall (frame_ok (b_offset b)) (b_frames b);
  bo_counters : NoDup (sealed_counters (b_frames b));
  bo_taken x : x ∈ sealed_counters (b_frames b) → x ∈ b_sealed_ordinals b;
  bo_streams slot : (slot < 3)%nat → sb_stream (b_buffers b slot) = stream_of slot;
  bo_envelope : sb_group (b_buffers b 0%nat) = Plain;
  bo_header : SEGMENT_HEADER_BYTES ≤ b_offset b;
}.

Definition partner (fs : list FrameEntry) f : Prop :=
  ∃ g, g ∈ fs ∧ stream g = (if stream f =? STREAM_FULL then STREAM_SUMMARY else STREAM_FULL) ∧
       first g = first f ∧ count g = count f ∧ kid g = kid f.
Definition pairs_ok b : Prop := ∀ f, f ∈ b_frames b → is_Some (kid f) → partner (b_frames b) f.

Definition sealed_buffer b (slot : nat) (k : string) : Prop :=
  sb_count (b_buffers b slot) ≠ 0 ∧ sb_group (b_buffers b slot) = Sealed k.
Definition buffers_ok b : Prop :=
  ∀ k, sealed_buffer b 1 k ∨ sealed_buffer b 2 k →
    sealed_buffer b 1 k ∧ sealed_buffer b 2 k ∧
    sb_first (b_buffers b 1%nat) = sb_first (b_buffers b 2%nat) ∧
    sb_count (b_buffers b 1%nat) = sb_count (b_buffers b 2%nat).

Lemma length_to_le n v : length (to_le n v) = n.
Proof. unfold to_le. by rewrite length_rev, length_to_be. Qed.

Lemma frame_header_length f s :
  N.of_nat (length (frame_header f s)) = FRAME_HEADER_BYTES + N.of_nat (length (str_bytes (default "" (kid f)))).
Proof.
  unfold frame_header. rewrite !length_app, !length_to_le. change (length FRAME_MAGIC) with 4%nat.
  cbn [length]. unfold FRAME_HEADER_BYTES. lia.
Qed.

Lemma len_u32_le l : len_u32 l ≤ N.of_nat (length l).
Proof. unfold len_u32, as_u32. apply N.Div0.mod_le. Qed.

Lemma sealed_counters_app fs gs : sealed_counters (fs ++ gs) = sealed_counters fs ++ sealed_counters gs.
Proof. apply omap_app. Qed.

Lemma stream_frames_app fs gs st : stream_frames (fs ++ gs) st = stream_frames fs st ++ stream_frames gs st.
Proof. apply filter_app. Qed.

Lemma chain_snoc fs a m f : chain fs a m → first f = m → chain (fs ++ [f]) a (m + count f).
Proof.
  revert a. induction fs as [|g fs IH]; intros a; cbn [chain app]; [by intros -> ->|].
  intros [Hg Hc] Hf. split; [done|]. by apply IH.
Qed.

(** Adding a frame keeps the base invariant. *)
Lemma base_ok_added b b' f stored :
  base_ok b → frame_added b b' f stored →
  0 < count f → stream f ∈ STREAMS → (stream f = STREAM_ENVELOPE → group f = Plain) →
  match kid f with
  | Some k => (k, stream f, ordinal f) ∉ b_sealed_ordinals b ∧
              b_sealed_ordinals b' = {[(k, stream f, ordinal f)]} ∪ b_sealed_ordinals b
  | None => b_sealed_ordinals b' = b_sealed_ordinals b
  end →
  (∀ slot, (slot < 3)%nat → sb_stream (b_buffers b' slot) = stream_of slot) →
  sb_group (b_buffers b' 0%nat) = Plain → base_ok b'.
Proof.
  intros [Hfs Hnd Ht _ _ Hhd] [Fa Fo Foff Fl Fk] Hc Hst Henv Hord Hstr Hpl.
  assert (Hlen : b_offset b' = b_offset b + N.of_nat (length (frame_header f stored)) + N.of_nat (length stored)).
  { unfold b_offset. rewrite Fo, !length_app. lia. }
  pose proof (frame_header_length f stored) as Hh. pose proof (len_u32_le stored) as Hl.
  assert (Hcnt : sealed_counters [f] = match kid f with Some k => [(k, stream f, ordinal f)] | None => [] end).
  { unfold sealed_counters. cbn. by destruct (kid f). }
  split; [| | |done|done|lia].
  - rewrite Fa, Forall_app, Forall_singleton. split.
    + eapply Forall_impl; [exact Hfs|]. intros g [? ? ? ? ?]. split; [done..|lia].
    + split; [done|done|done|lia|lia].
  - rewrite Fa, sealed_counters_app, Hcnt. destruct (kid f) as [k|]; [|by rewrite app_nil_r].
    apply NoDup_app. split_and!; [done| |apply NoDup_singleton]. intros x Hx ->%list_elem_of_singleton.
    by apply (proj1 Hord), Ht.
  - intros x. rewrite Fa, sealed_counters_app, Hcnt. destruct (kid f) as [k|].
    + destruct Hord as [_ ->]. rewrite elem_of_app, list_elem_of_singleton. set_solver.
    + rewrite Hord, app_nil_r. apply Ht.
Qed.

Lemma stream_of_inj s s' : (s < 3)%nat → (s' < 3)%nat → stream_of s = stream_of s' → s = s'.
Proof. intros H1' H2'. destruct s as [|[|[|]]], s' as [|[|[|]]]; done || lia. Qed.
Lemma stream_of_in s : (s < 3)%nat → stream_of s ∈ STREAMS.
Proof. intros Hs. destruct s as [|[|[|]]]; [by left|by right; left|by right; right; left|lia]. Qed.
Lemma stream_of_envelope s : (s < 3)%nat → stream_of s = STREAM_ENVELOPE → s = 0%nat.
Proof. intros Hs. destruct s as [|[|[|]]]; done || lia. Qed.

Lemma flush_base slot b b' u :
  (slot < 3)%nat → base_ok b → flush slot b = (b', Ok u) → base_ok b'.
Proof.
  intros Hslot Hb Hf. pose proof Hb as [Hfs Hnd Ht Hstr Hpl Hhd].
  apply flush_spec in Hf as (_ & Hbuf & Hcase). cbn zeta in Hcase.
  assert (Hstr' : ∀ s, (s < 3)%nat → sb_stream (b_buffers b' s) = stream_of s).
  { intros s Hs. rewrite Hbuf. destruct (Nat.eqb_spec s slot) as [->|]; [done|by apply Hstr]. }
  assert (Hpl' : sb_group (b_buffers b' 0%nat) = Plain) by (rewrite Hbuf; by case_match).
  destruct Hcase as [(_ & Hfr & Ho & Hso)|(f & stored & Hc & Hadd & Hst & Hfi & Hct & Hstores & Hord)].
  - split; rewrite ?Hfr, ?Hso; try done; unfold b_offset; by rewrite ?Ho.
  - rewrite (Hstr slot Hslot) in Hst. eapply base_ok_added; [exact Hb|exact Hadd|lia| | |done|done|done].
    + rewrite Hst. by apply stream_of_in.
    + rewrite Hst. intros ->%stream_of_envelope; [|done]. destruct Hstores as (_ & -> & _). by rewrite Hpl.
Qed.

Lemma stream_frames_add fs f st : stream_frames (fs ++ [f]) st = stream_frames fs st ++ if decide (stream f = st) then [f] else [].
Proof. by rewrite stream_frames_app. Qed.

(** A flush turns the buffered records of its slot into a frame and leaves the
    other streams alone. *)
Lemma flush_streams slot b b' u s F E :
  (slot < 3)%nat → (s < 3)%nat → base_ok b → flush slot b = (b', Ok u) → stream_ok b s F E → stream_ok b' s F E.
Proof.
  intros Hslot Hs Hb Hf Hok. apply flush_spec in Hf as (_ & Hbuf & Hcase). cbn zeta in Hcase.
  pose proof (bo_streams _ Hb slot Hslot) as Hstr. unfold stream_ok in *. rewrite Hbuf.
  destruct Hcase as [(Hz & -> & _)|(f & stored & Hc & [-> _ _ _ _] & Hst & Hfi & Hct & _)].
  - destruct (Nat.eqb_spec s slot) as [->|]; [|done]. rewrite Hz in Hok. done.
  - rewrite stream_frames_add. destruct (Nat.eqb_spec s slot) as [->|Hne].
    + rewrite decide_True by congruence. cbn [StreamBuffer_new sb_count N.eqb].
      rewrite (proj2 (N.eqb_neq _ _) Hc) in Hok. destruct Hok as [Hch <-]. rewrite <-Hct. by apply chain_snoc.
    + rewrite decide_False, app_nil_r; [done|]. intros E'. apply Hne. symmetry. apply stream_of_inj; [done..|congruence].
Qed.
End invariant.

Section pushing.
Context `{JsonView} `{!Serde} `{HistoryPrimitives} `{Aead} `{FrameCodec}.
Implicit Types (b : SegmentBuilder) (f : FrameEntry).

Lemma partner_mono fs gs f : (∀ g, g ∈ fs → g ∈ gs) → partner fs f → partner gs f.
Proof. intros Hsub (g & Hg & Hrest). exists g. split; [by apply Hsub|done]. Qed.

Lemma group_kid f k : group f = Sealed k ↔ kid f = Some k.
Proof. unfold group. destruct (kid f), (passthrough f); naive_solver. Qed.

(** Flushing a buffer that is not sealed. *)
Lemma flush_unsealed slot b b' u :
  (∀ k, ¬ sealed_buffer b slot k) → flush slot b = (b', Ok u) →
  pairs_ok b → buffers_ok b → pairs_ok b' ∧ buffers_ok b'.
Proof.
  intros Hns Hf Hp Hb. apply flush_spec in Hf as (_ & Hbuf & Hcase). cbn zeta in Hcase. split.
  - destruct Hcase as [(_ & Hfr & _)|(f & stored & Hc & [Hfr _ _ _ _] & _ & _ & _ & (_ & Hg & _) & _)].
    + intros g. unfold pairs_ok in Hp. rewrite Hfr. apply Hp.
    + intros g. rewrite Hfr. intros [Hin| ->%list_elem_of_singleton]%elem_of_app Hk.
      * eapply partner_mono; [|by apply Hp]. intros; apply elem_of_app; by left.
      * destruct Hk as [k Hk]. apply group_kid in Hk. destruct (Hns k). split; congruence.
  - intros k. unfold sealed_buffer. rewrite !Hbuf. specialize (Hb k). specialize (Hns k).
    unfold sealed_buffer in *. destruct slot as [|[|[|]]]; cbn [Nat.eqb]; cbn; naive_solver.
Qed.

(** Flushing both content buffers keeps sealed frames in pairs. *)
Lemma flush_both b b1 b2 u u' :
  base_ok b → flush 1%nat b = (b1, Ok u) → flush 2%nat b1 = (b2, Ok u') →
  pairs_ok b → buffers_ok b →
  pairs_ok b2 ∧ buffers_ok b2 ∧ sb_count (b_buffers b2 1%nat) = 0 ∧ sb_count (b_buffers b2 2%nat) = 0.
Proof.
  intros Hbase Hf1 Hf2 Hp Hb.
  assert (Hempty : sb_count (b_buffers b2 1%nat) = 0 ∧ sb_count (b_buffers b2 2%nat) = 0).
  { apply flush_spec in Hf1 as (_ & Hb1 & _). apply flush_spec in Hf2 as (_ & Hb2 & _).
    by rewrite !Hb2, Hb1. }
  split; [|split_and!; [|by destruct Hempty..]].
  2: { intros k. unfold sealed_buffer. destruct Hempty as [-> ->]. naive_solver. }
  destruct (decide (sb_count (b_buffers b 1%nat) = 0 ∨ is_sealed (sb_group (b_buffers b 1%nat)) = false)) as [Hns|Hs].
  - assert (Hn1 : ∀ k, ¬ sealed_buffer b 1 k) by (intros k [? Hg]; rewrite Hg in Hns; naive_solver).
    destruct (flush_unsealed 1 b b1 u Hn1 Hf1 Hp Hb) as [Hp1 Hb1].
    refine (proj1 (flush_unsealed 2 b1 b2 u' _ Hf2 Hp1 Hb1)). intros k Hk.
    destruct (Hb1 k (or_intror Hk)) as [[Hc _] _]. apply Hc.
    apply flush_spec in Hf1 as (_ & Hbf & _). by rewrite Hbf.
  - apply Decidable.not_or in Hs as [Hc Hs].
    destruct (sb_group (b_buffers b 1%nat)) as [| |k] eqn:Hg; [done|done|].
    destruct (Hb k (or_introl (conj Hc Hg))) as (_ & [Hc2 Hg2] & Hfirst & Hcount).
    pose proof (bo_streams _ Hbase 1%nat ltac:(lia)) as Hs1. pose proof (bo_streams _ Hbase 2%nat ltac:(lia)) as Hs2.
    apply flush_spec in Hf1 as (_ & Hbf & [[? _]|(f1 & ? & _ & [Hfr1 _ _ _ _] & Hst1 & Hfi1 & Hct1 & (_ & Hg1' & _) & _)]); [done|].
    apply flush_spec in Hf2 as (_ & _ & Hcase). cbn zeta in Hcase. rewrite Hbf in Hcase. cbn [Nat.eqb] in Hcase.
    destruct Hcase as [[? _]|(f2 & ? & _ & [Hfr2 _ _ _ _] & Hst2 & Hfi2 & Hct2 & (_ & Hg2' & _) & _)]; [done|].
    rewrite Hs1 in Hst1. rewrite Hs2 in Hst2. rewrite Hg in Hg1'. rewrite Hg2 in Hg2'.
    apply group_kid in Hg1', Hg2'. intros f. rewrite Hfr2, Hfr1, <-app_assoc. cbn [app].
    intros [Hin|Hin]%elem_of_app Hk.
    { eapply partner_mono; [|by apply Hp]. intros; apply elem_of_app; by left. }
    apply elem_of_cons in Hin as [-> | ->%list_elem_of_singleton].
    + exists f2. rewrite Hst1, Hst2. split_and!; [set_solver|done|congruence..].
    + exists f1. rewrite Hst1, Hst2. split_and!; [set_solver|done|congruence..].
Qed.

Lemma rest_inv b b' :
  rest b' = rest b →
  b_number b' = b_number b ∧ b_segment_id b' = b_segment_id b ∧ b_content_next b' = b_content_next b ∧
  b_content_started b' = b_content_started b ∧ b_conversation_id b' = b_conversation_id b ∧ b_keys b' = b_keys b ∧
  b_repacked b' = b_repacked b ∧ b_digest b' = b_digest b ∧ b_first b' = b_first b ∧ b_last b' = b_last b ∧
  b_slimmed b' = b_slimmed b.
Proof. unfold rest. intros E. by simplify_eq. Qed.

(** The invariant of a builder whose records start at [F] and whose next
    envelope is [E]. *)
Record inv b (F E : N) : Prop := {
  i_base : base_ok b;
  i_env : stream_ok b 0 F E;
  i_sum : stream_ok b 1 F (b_content_next b).1;
  i_full : stream_ok b 2 F (b_content_next b).2;
  i_pairs : pairs_ok b;
  i_buffers : buffers_ok b;
}.

Lemma inv_flush_env b b' u F E : inv b F E → flush 0%nat b = (b', Ok u) → inv b' F E ∧ rest b' = rest b.
Proof.
  intros [Hb He Hs Hf Hp Hbuf] Hfl. pose proof Hfl as Hfl'. apply flush_spec in Hfl' as [Hr _].
  destruct (rest_inv _ _ Hr) as (_ & _ & Hcn & _).
  destruct (flush_unsealed 0 b b' u) as [Hp' Hb']; [|done..|].
  { intros k [_ Hg]. by rewrite (bo_envelope _ Hb) in Hg. }
  split; [|done]. split; rewrite ?Hcn; try done.
  - by eapply flush_base; [|exact Hb|exact Hfl]; lia.
  - by eapply flush_streams; [| |exact Hb|exact Hfl|]; [lia..|].
  - by eapply flush_streams; [| |exact Hb|exact Hfl|]; [lia..|].
  - by eapply flush_streams; [| |exact Hb|exact Hfl|]; [lia..|].
Qed.

(** Putting an item into a buffer extends its stream by one record. *)
Lemma add_item_stream b slot n g item F :
  stream_ok b slot F n → stream_ok (set_buffer slot (add_item (b_buffers b slot) n g item) b) slot F (n + 1).
Proof.
  unfold stream_ok. cbn [set_buffer b_buffers b_frames]. rewrite Nat.eqb_refl. cbn [add_item sb_count sb_first].
  rewrite (proj2 (N.eqb_neq (sb_count (b_buffers b slot) + 1) 0)) by lia.
  destruct (N.eqb_spec (sb_count (b_buffers b slot)) 0) as [->|]; [|intros [? <-]; split; [done|lia]].
  intros ?. split; [done|lia].
Qed.

Lemma set_buffer_stream b slot buf s F E :
  s ≠ slot → stream_ok b s F E → stream_ok (set_buffer slot buf b) s F E.
Proof.
  intros Hne. unfold stream_ok. cbn [set_buffer b_buffers b_frames]. by rewrite (proj2 (Nat.eqb_neq s slot) Hne).
Qed.

Lemma set_buffer_base b slot buf :
  base_ok b → sb_stream buf = stream_of slot → (slot = 0%nat → sb_group buf = Plain) →
  base_ok (set_buffer slot buf b).
Proof.
  intros [Hfs Hnd Ht Hstr Hpl Hhd] Hs Hg. split; try done; cbn [set_buffer b_buffers].
  - intros s Hlt. destruct (Nat.eqb_spec s slot) as [->|]; [done|by apply Hstr].
  - destruct (Nat.eqb_spec 0 slot) as [<-|]; [by apply Hg|done].
Qed.

Lemma base_ok_ext b b' :
  base_ok b → b_frames b' = b_frames b → b_out b' = b_out b → b_sealed_ordinals b' = b_sealed_ordinals b →
  b_buffers b' = b_buffers b → base_ok b'.
Proof.
  intros [Hfs Hnd Ht Hstr Hpl Hhd] E1 E2 E3 E4. unfold b_offset in *.
  split; unfold b_offset; rewrite ?E1, ?E2, ?E3, ?E4; done.
Qed.

Lemma append_env_spec n item b b' u F :
  append 0%nat n Plain item b = (b', Ok u) → inv b F n → inv b' F (n + 1) ∧ rest b' = rest b.
Proof.
  unfold append. intros Ha Hi.
  apply M_bind_Ok_inv in Ha as (b0 & self & Hs & Ha). injection Hs as <- <-.
  apply M_bind_Ok_inv in Ha as (b1 & [] & Hfl & Ha).
  assert (H1' : inv b1 F n ∧ rest b1 = rest b).
  { destruct (_ && _); [by eapply inv_flush_env|by injection Hfl as <-]. }
  clear Hfl Hi. destruct H1' as [[Hb He Hs Hf Hp Hbuf] Hr]. injection Ha as <- _. split; [|done].
  split; cbn [set_buffer b_content_next]; try done.
  - apply set_buffer_base; [done|by apply (bo_streams _ Hb); lia|]. intros _. cbn.
    rewrite (bo_envelope _ Hb). by case_match.
  - by apply add_item_stream.
Qed.

(** After the flushes of [append_content] the content buffers take [group]. *)
Definition takes b (g : FrameGroup) : Prop :=
  ∀ slot, slot = 1%nat ∨ slot = 2%nat → sb_count (b_buffers b slot) ≠ 0 → sb_group (b_buffers b slot) = g.

Lemma not_flushed g buf item : needs_flush g buf item = false → sb_count buf ≠ 0 → sb_group buf = g.
Proof.
  unfold needs_flush. intros Hn Hc. rewrite (proj2 (N.ltb_lt 0 (sb_count buf))) in Hn by lia. cbn [andb] in Hn.
  apply orb_false_elim in Hn as [_ Hn]. apply negb_false_iff in Hn. by apply bool_decide_eq_true in Hn.
Qed.

Lemma inv_flush_both b b1 b2 u u' F E :
  inv b F E → flush 1%nat b = (b1, Ok u) → flush 2%nat b1 = (b2, Ok u') →
  inv b2 F E ∧ rest b2 = rest b ∧ sb_count (b_buffers b2 1%nat) = 0 ∧ sb_count (b_buffers b2 2%nat) = 0.
Proof.
  intros [Hb He Hs Hf Hp Hbuf] H1' H2'. destruct (flush_both b b1 b2 u u' Hb H1' H2' Hp Hbuf) as (Hp2 & Hb2 & Hz1 & Hz2).
  pose proof (flush_base 1 b b1 u ltac:(lia) Hb H1') as Hbase1.
  pose proof (flush_base 2 b1 b2 u' ltac:(lia) Hbase1 H2') as Hbase2.
  assert (Hst : ∀ s E', (s < 3)%nat → stream_ok b s F E' → stream_ok b2 s F E').
  { intros s E' Hlt Hok. eapply (flush_streams 2); [lia|done|exact Hbase1|exact H2'|].
    eapply (flush_streams 1); [lia|done|exact Hb|exact H1'|done]. }
  apply flush_spec in H1' as [Hr1 _]. apply flush_spec in H2' as [Hr2 _].
  assert (Hr : rest b2 = rest b) by congruence. destruct (rest_inv _ _ Hr) as (_ & _ & Hcn & _).
  split_and!; [|done..]. split; rewrite ?Hcn; try done; apply Hst; (lia || done).
Qed.

Lemma inv_flush_unsealed slot b b' u F E :
  (slot < 3)%nat → (∀ k, ¬ sealed_buffer b slot k) → flush slot b = (b', Ok u) → inv b F E →
  inv b' F E ∧ rest b' = rest b.
Proof.
  intros Hlt Hns Hfl [Hb He Hs Hf Hp Hbuf]. destruct (flush_unsealed slot b b' u Hns Hfl Hp Hbuf) as [Hp' Hb'].
  assert (Hst : ∀ s E', (s < 3)%nat → stream_ok b s F E' → stream_ok b' s F E').
  { intros s E' Hs' Hok. by eapply (flush_streams slot). }
  pose proof (flush_base slot b b' u Hlt Hb Hfl) as Hb''. apply flush_spec in Hfl as [Hr _].
  destruct (rest_inv _ _ Hr) as (_ & _ & Hcn & _). split; [|done].
  split; rewrite ?Hcn; try done; apply Hst; (lia || done).
Qed.

Lemma flush_empties slot b b' u : flush slot b = (b', Ok u) → sb_count (b_buffers b' slot) = 0.
Proof. intros Hf. apply flush_spec in Hf as (_ & Hb & _). by rewrite Hb, Nat.eqb_refl. Qed.
Lemma flush_other slot b b' u s : s ≠ slot → flush slot b = (b', Ok u) → b_buffers b' s = b_buffers b s.
Proof. intros Hne Hf. apply flush_spec in Hf as (_ & Hb & _). by rewrite Hb, (proj2 (Nat.eqb_neq s slot) Hne). Qed.

(** The flushes [append_content] makes before the items go in. *)
Definition make_room (g : FrameGroup) (summary full : bytes) b : SegmentBuilder * result SegmentError unit :=
  (let summary_full := needs_flush g (b_buffers b 1%nat) summary in
   let full_full := needs_flush g (b_buffers b 2%nat) full in
   if is_sealed g then
     if summary_full || full_full then _ ← flush 1%nat; flush 2%nat else mret tt
   else
     _ ← (if summary_full then flush 1%nat else mret tt);
     if full_full then flush 2%nat else mret tt) b.

Lemma make_room_sealed g summary full b b' u F E k :
  sealed_buffer b 1 k → is_sealed g = false →
  make_room g summary full b = (b', Ok u) → inv b F E → inv b' F E ∧ rest b' = rest b ∧ takes b' g.
Proof.
  intros Hk Hg Hm Hi. destruct (i_buffers _ _ _ Hi k (or_introl Hk)) as ([Hc1 Hg1] & [Hc2 Hg2] & _).
  assert (Hn : ∀ slot item, sb_count (b_buffers b slot) ≠ 0 → sb_group (b_buffers b slot) = Sealed k →
    needs_flush g (b_buffers b slot) item = true).
  { intros slot item Hc Hgr. destruct (needs_flush g (b_buffers b slot) item) eqn:E'; [done|].
    apply not_flushed in E'; [|done]. rewrite Hgr in E'. by rewrite <-E' in Hg. }
  unfold make_room in Hm. cbn zeta in Hm. rewrite !Hn, Hg in Hm by done.
  apply M_bind_Ok_inv in Hm as (b1 & [] & Hf1 & Hf2).
  destruct (inv_flush_both b b1 b' _ _ F E Hi Hf1 Hf2) as (Hi' & Hr & Hz1 & Hz2).
  split_and!; [done|done|]. intros slot [-> | ->]; by rewrite ?Hz1, ?Hz2.
Qed.

Lemma make_room_spec g summary full b b' u F E :
  make_room g summary full b = (b', Ok u) → inv b F E → inv b' F E ∧ rest b' = rest b ∧ takes b' g.
Proof.
  intros Hm Hi. destruct (is_sealed g) eqn:Hg.
  - unfold make_room in Hm. cbn zeta in Hm. rewrite Hg in Hm. destruct (_ || _) eqn:Hn.
    + apply M_bind_Ok_inv in Hm as (b1 & [] & Hf1 & Hf2).
      destruct (inv_flush_both b b1 b' _ _ F E Hi Hf1 Hf2) as (Hi' & Hr & Hz1 & Hz2).
      split_and!; [done|done|]. intros slot [-> | ->]; by rewrite ?Hz1, ?Hz2.
    + injection Hm as <- _. apply orb_false_elim in Hn as [Hn1 Hn2]. split_and!; [done|done|].
      intros slot [-> | ->]; by eapply not_flushed.
  - destruct (decide (sb_count (b_buffers b 1%nat) ≠ 0 ∧ is_sealed (sb_group (b_buffers b 1%nat)) = true)) as [[Hc Hs]|Hns].
    { destruct (sb_group (b_buffers b 1%nat)) as [| |k] eqn:Hgr; [done|done|].
      eapply (make_room_sealed _ _ _ _ _ _ _ _ k); [by split|done|exact Hm|done]. }
    assert (Hn1 : ∀ k, ¬ sealed_buffer b 1 k) by (intros k [? Hk]; apply Hns; by rewrite Hk).
    assert (Hn2 : ∀ k, ¬ sealed_buffer b 2 k).
    { intros k Hk. destruct (i_buffers _ _ _ Hi k (or_intror Hk)) as [Hk1 _]. by apply (Hn1 k). }
    unfold make_room in Hm. cbn zeta in Hm. rewrite Hg in Hm. apply M_bind_Ok_inv in Hm as (b1 & [] & Hf1 & Hf2).
    assert (H1' : inv b1 F E ∧ rest b1 = rest b ∧ b_buffers b1 2%nat = b_buffers b 2%nat ∧
      (sb_count (b_buffers b1 1%nat) ≠ 0 → sb_group (b_buffers b1 1%nat) = g)).
    { destruct (needs_flush g (b_buffers b 1%nat) summary) eqn:Hn.
      - destruct (inv_flush_unsealed 1 b b1 _ F E ltac:(lia) Hn1 Hf1 Hi) as [Hi1 Hr1].
        rewrite (flush_empties _ _ _ _ Hf1), (flush_other 1 b b1 _ 2 ltac:(lia) Hf1). done.
      - injection Hf1 as <-. split_and!; [done..|]. by eapply not_flushed. }
    destruct H1' as (Hi1 & Hr1 & Hb2 & Ht1).
    destruct (needs_flush g (b_buffers b 2%nat) full) eqn:Hn.
    + assert (Hn2' : ∀ k, ¬ sealed_buffer b1 2 k) by (intros k; unfold sealed_buffer; rewrite Hb2; apply Hn2).
      destruct (inv_flush_unsealed 2 b1 b' _ F E ltac:(lia) Hn2' Hf2 Hi1) as [Hi2 Hr2].
      split_and!; [done|congruence|]. intros slot [-> | ->].
      * by rewrite (flush_other 2 b1 b' _ 1 ltac:(lia) Hf2).
      * by rewrite (flush_empties _ _ _ _ Hf2).
    + injection Hf2 as <- _. split_and!; [done|done|]. intros slot [-> | ->]; [done|]. rewrite Hb2. by eapply not_flushed.
Qed.

(** The two content items go in together. *)
Definition add_items b n g summary full : SegmentBuilder :=
  let b := set_buffer 1%nat (add_item (b_buffers b 1%nat) n g summary) b in
  let b := set_buffer 2%nat (add_item (b_buffers b 2%nat) n g full) b in
  set_content (n + 1, n + 1) (b_content_started b) b.

Lemma append_content_eq n g summary full b b' u :
  append_content n g summary full b = (b', Ok u) →
  b_content_next b = (n, n) ∧ ∃ b1, make_room g summary full b = (b1, Ok tt) ∧ b' = add_items b1 n g summary full.
Proof.
  unfold append_content. intros Ha. apply M_bind_Ok_inv in Ha as (b0 & self & Hs & Ha). injection Hs as <- <-.
  destruct (bool_decide (b_content_next b = (n, n))) eqn:Hn; cbn [negb] in Ha; [|done].
  apply bool_decide_eq_true in Hn. split; [done|].
  apply M_bind_Ok_inv in Ha as (b1 & [] & Hm & Ha). exists b1. split; [exact Hm|].
  by injection Ha as <- _.
Qed.

Lemma add_items_buffers b n g summary full :
  buffers_ok b → takes b g → buffers_ok (add_items b n g summary full).
Proof.
  intros Hb Ht k. unfold sealed_buffer, add_items. cbn [set_content set_buffer b_buffers Nat.eqb add_item sb_count sb_group sb_first].
  assert (Hg : ∀ slot, slot = 1%nat ∨ slot = 2%nat →
    (if sb_count (b_buffers b slot) =? 0 then g else sb_group (b_buffers b slot)) = g).
  { intros slot Hs. destruct (N.eqb_spec (sb_count (b_buffers b slot)) 0); [done|by apply Ht]. }
  rewrite !Hg by auto. intros Hk. assert (g = Sealed k) as -> by by destruct Hk as [[_ ?]|[_ ?]].
  specialize (Hb k). unfold sealed_buffer in Hb.
  destruct (N.eqb_spec (sb_count (b_buffers b 1%nat)) 0) as [Hz1|Hz1], (N.eqb_spec (sb_count (b_buffers b 2%nat)) 0) as [Hz2|Hz2].
  - rewrite Hz1, Hz2. split_and!; done || lia.
  - destruct Hb as ([? _] & _); [|done]. right. split; [done|apply Ht; auto].
  - destruct Hb as (_ & [? _] & _); [|done]. left. split; [done|apply Ht; auto].
  - destruct Hb as (_ & _ & -> & ->); [left; split; [done|apply Ht; auto]|]. split_and!; done || lia.
Qed.

Lemma append_content_spec n g summary full b b' u F E :
  append_content n g summary full b = (b', Ok u) → inv b F E →
  b_content_next b = (n, n) ∧ inv b' F E ∧ b_content_next b' = (n + 1, n + 1) ∧
  b_content_started b' = b_content_started b ∧ b_first b' = b_first b ∧ b_last b' = b_last b.
Proof.
  intros (Hn & b1 & Hm & ->)%append_content_eq Hi. destruct (make_room_spec _ _ _ _ _ _ F E Hm Hi) as (Hi1 & Hr & Ht).
  destruct (rest_inv _ _ Hr) as (_ & _ & Hcn & Hcs & _ & _ & _ & _ & Hf & Hl & _).
  split_and!; [done| |done|done..]. destruct Hi1 as [Hb He Hs Hfu Hp Hbu]. rewrite Hcn, Hn in Hs, Hfu. cbn in Hs, Hfu.
  split; cbn [add_items set_content b_content_next fst snd]; try done.
  - eapply base_ok_ext; [apply (set_buffer_base (set_buffer 1 (add_item (b_buffers b1 1%nat) n g summary) b1) 2
      (add_item (b_buffers b1 2%nat) n g full)); [apply set_buffer_base; [done| |done]| |done]|done..];
      cbn; by apply (bo_streams _ Hb); lia.
  - apply (set_buffer_stream _ 2); [done|]. by apply add_item_stream.
  - apply (add_item_stream (set_buffer 1 _ b1) 2). by apply set_buffer_stream.
  - by apply add_items_buffers.
Qed.
End pushing.
