(* ===== verification/SegmentRun.v ===== *)
(** * Sealed segments: whole builds

    A build is a sequence of builder calls: a record with its content, or a run
    of records whose sealed frames are copied as they are (segment salvage).
    Every finished build describes a segment the loader accepts, and no two
    sealed frames of it share an AEAD counter. *)
From S2P Require Import Prelude Bytes Channel Json JsonObject Model Digest Summary Recipients Keyring Dek HistoryCrypto Record SegmentIndex SegmentBuilder.
Local Open Scope N_scope.

Section runs.
Context `{JsonView} `{!Serde} `{HistoryPrimitives} `{Aead} `{FrameCodec}.
Implicit Types (b : SegmentBuilder) (e : ConversationEvent).

(** One call of a build: note what a record contributes to the digest, note a
    repacked key, push a record with its content, or copy a sealed run and push
    the envelopes of its records. *)
Inductive BuildStep : Type :=
  | Observe (e : ConversationEvent)
  | NoteRepacked (kid : string)
  | PushRecord (e : ConversationEvent) (item : Item)
  | CopyRun (summary full : FrameEntry * bytes) (records : list ConversationEvent).

Fixpoint push_all (records : list ConversationEvent) : M SegmentBuilder SegmentError unit :=
  match records with [] => mret tt | e :: records => _ ← push e Verbatim; push_all records end.

Definition run_step (step : BuildStep) : M SegmentBuilder SegmentError unit :=
  match step with
  | Observe e => observe e
  | NoteRepacked kid => note_repacked kid
  | PushRecord e item => push e item
  | CopyRun summary full records => _ ← push_verbatim summary full; push_all records
  end.
Fixpoint run_steps (steps : list BuildStep) : M SegmentBuilder SegmentError unit :=
  match steps with [] => mret tt | s :: steps => _ ← run_step s; run_steps steps end.

(** A copied run brings the records its frames hold, at least one. *)
Definition step_ok (step : BuildStep) : Prop :=
  match step with
  | PushRecord _ item => item ≠ Verbatim
  | CopyRun summary full records =>
      records ≠ [] ∧ N.of_nat (length records) = count full.1 ∧
      ∀ i e, records !! i = Some e → sequence e = first full.1 + N.of_nat i
  | _ => True
  end.

(** Nothing pushed yet. *)
Record fresh b : Prop := {
  fr_base : base_ok b;
  fr_frames : b_frames b = [];
  fr_buffers slot : (slot < 3)%nat → sb_count (b_buffers b slot) = 0;
  fr_first : b_first b = None;
  fr_started : b_content_started b = false;
}.

(** Records from [F] on: the next envelope is [E], the next content [C]. *)
Record open_at b (F E C : N) : Prop := {
  oa_inv : inv b F E;
  oa_next : b_content_next b = (C, C);
  oa_started : b_content_started b = true;
  oa_first : (b_first b = Some F ∧ b_last b + 1 = E ∧ F < E) ∨ (b_first b = None ∧ E = F);
}.

Lemma inv_ext b b' F E :
  inv b F E → b_frames b' = b_frames b → b_out b' = b_out b → b_sealed_ordinals b' = b_sealed_ordinals b →
  b_buffers b' = b_buffers b → b_content_next b' = b_content_next b → inv b' F E.
Proof.
  intros [Hb He Hs Hf Hp Hbu] E1 E2 E3 E4 E5. split; [by eapply base_ok_ext| | | | |];
    unfold stream_ok, pairs_ok, buffers_ok, sealed_buffer in *; rewrite ?E1, ?E4, ?E5; done.
Qed.

Lemma empty_inv b F :
  base_ok b → b_frames b = [] → (∀ slot, (slot < 3)%nat → sb_count (b_buffers b slot) = 0) →
  b_content_next b = (F, F) → inv b F F.
Proof.
  intros Hb Hf Hbuf Hn. split; [done| | | | |].
  1, 2, 3: unfold stream_ok; rewrite Hbuf, Hf, ?Hn by lia; done.
  - intros f. rewrite Hf. by intros ?%elem_of_nil.
  - intros k [[Hc _]|[Hc _]]; by rewrite Hbuf in Hc by lia.
Qed.

Lemma create_fresh id cid number keys : length id = 16%nat → fresh (create id cid number keys).
Proof.
  intros Hid. split; try done. split; cbn [create b_frames b_sealed_ordinals b_buffers]; try done.
  - constructor.
  - by intros x ?%elem_of_nil.
  - unfold b_offset. cbn [create b_out]. rewrite length_app, Hid. done.
Qed.

(** In the middle of a push of record [n]. *)
Record positioned b (F n C : N) : Prop := {
  po_inv : inv b F n;
  po_next : b_content_next b = (C, C);
  po_started : b_content_started b = true;
  po_first : b_first b = Some F;
  po_last : b_last b = n;
  po_le : F ≤ n;
}.

(** The range part of a push opens the segment at its first record. *)
Lemma push_range_spec e b b1 u :
  push_range e b = (b1, Ok u) →
  (fresh b → positioned b1 (sequence e) (sequence e) (sequence e)) ∧
  (∀ F E C, open_at b F E C → sequence e = E → positioned b1 F E C).
Proof.
  unfold push_range. intros Hp. apply M_bind_Ok_inv in Hp as (b0 & self & Hs & Hp). injection Hs as <- <-.
  apply M_bind_Ok_inv in Hp as (b2 & [] & Hr & Hp). injection Hp as <- _. split.
  - intros Hf. pose proof Hf as [Hb Hfr Hbuf Hfi Hst]. rewrite Hfi in Hr.
    apply M_bind_Ok_inv in Hr as (b3 & [] & Hm & Hr). injection Hm as <-. rewrite Hst in Hr. injection Hr as <-.
    split; try done. eapply (inv_ext (set_content (sequence e, sequence e) true b)); [|done..].
    apply empty_inv; try done. by eapply base_ok_ext.
  - intros F E C [Hi Hn Hst Hfi] HE. subst E. destruct Hfi as [(Hfi & Hl & Hlt)|[Hfi Heq]]; rewrite Hfi in Hr.
    + destruct (N.eqb_spec (sequence e) (b_last b + 1)); [|done]. injection Hr as <-.
      split; try done; [by eapply inv_ext|lia].
    + apply M_bind_Ok_inv in Hr as (b3 & [] & Hm & Hr). injection Hm as <-. rewrite Hst in Hr. injection Hr as <-.
      rewrite <-Heq in *. split; try done. by eapply inv_ext.
Qed.

Lemma positioned_envelope n item b b' u F C :
  append 0%nat n Plain item b = (b', Ok u) → positioned b F n C →
  inv b' F (n + 1) ∧ b_content_next b' = (C, C) ∧ b_content_started b' = true ∧ b_first b' = Some F ∧ b_last b' = n.
Proof.
  intros Ha [Hi Hn Hs Hf Hl Hle]. destruct (append_env_spec _ _ _ _ _ _ Ha Hi) as [Hi' Hr].
  apply rest_inv in Hr as (_ & _ & Hcn & Hcs & _ & _ & _ & _ & Hfi & Hla & _). by rewrite Hcn, Hcs, Hfi, Hla.
Qed.

Lemma push_content_spec e item b b' u F E :
  push_content e item b = (b', Ok u) → inv b F E → item ≠ Verbatim →
  b_content_next b = (sequence e, sequence e) ∧ inv b' F E ∧
  b_content_next b' = (sequence e + 1, sequence e + 1) ∧ b_content_started b' = b_content_started b ∧
  b_first b' = b_first b ∧ b_last b' = b_last b.
Proof.
  intros Hp Hi Hv. destruct item as [p|k p|x|]; cbn [push_content] in Hp; [| | |done].
  - by eapply append_content_spec.
  - apply M_bind_Ok_inv in Hp as (b0 & self & Hs & Hp). injection Hs as <- <-.
    destruct (b_keys b !! k); [|done]. by eapply append_content_spec.
  - by eapply append_content_spec.
Qed.

(** A record pushed after others is the next one. *)
Lemma push_range_next e b b1 u F E C :
  push_range e b = (b1, Ok u) → open_at b F E C → b_first b = Some F → sequence e = E.
Proof.
  intros Hr [_ _ _ [(Hf & Hl & _)|[Hf _]]] HF; [|congruence]. unfold push_range in Hr.
  apply M_bind_Ok_inv in Hr as (b0 & self & Hs & Hr). injection Hs as <- <-.
  rewrite Hf in Hr. apply M_bind_Ok_inv in Hr as (b3 & [] & Hc & _).
  destruct (N.eqb_spec (sequence e) (b_last b + 1)); [congruence|done].
Qed.

(** Pushing a record with its content moves both streams on by one. *)
Lemma push_record_spec e item b b' u :
  push e item b = (b', Ok u) → item ≠ Verbatim →
  (fresh b → open_at b' (sequence e) (sequence e + 1) (sequence e + 1) ∧ b_first b' = Some (sequence e)) ∧
  (∀ F E, open_at b F E E → b_first b = Some F →
    sequence e = E ∧ open_at b' F (E + 1) (E + 1) ∧ b_first b' = Some F).
Proof.
  unfold push. intros Hp Hv. apply M_bind_Ok_inv in Hp as (b1 & [] & Hr & Hp).
  apply M_bind_Ok_inv in Hp as (b2 & [] & Ha & Hp).
  assert (Hfin : ∀ F n C, n = sequence e → positioned b1 F n C → open_at b' F (n + 1) (n + 1) ∧ b_first b' = Some F).
  { intros F n C -> Hpos. pose proof (po_le _ _ _ _ Hpos) as Hle.
    destruct (positioned_envelope _ _ _ _ _ F C Ha Hpos) as (Hi & Hn & Hs & Hf & Hl).
    destruct (push_content_spec _ _ _ _ _ F _ Hp Hi Hv) as (Hn' & Hi' & Hn2 & Hs2 & Hf2 & Hl2).
    split; [|congruence]. split; [done|done|congruence|]. left. rewrite Hf2, Hl2, Hl. split_and!; [done|done|lia]. }
  destruct (push_range_spec _ _ _ _ Hr) as [Hfresh Hopen]. split.
  - intros Hf. by eapply Hfin, Hfresh.
  - intros F E Ho HF. pose proof (push_range_next _ _ _ _ _ _ _ Hr Ho HF) as HE. split; [done|].
    eapply Hfin; [by symmetry|by eapply Hopen].
Qed.

(** Pushing a record whose content a copied frame holds. *)
Lemma push_verbatim_record_spec e b b' u F E C :
  push e Verbatim b = (b', Ok u) → open_at b F E C → sequence e = E →
  open_at b' F (E + 1) C ∧ b_first b' = Some F.
Proof.
  unfold push. intros Hp Ho HE. apply M_bind_Ok_inv in Hp as (b1 & [] & Hr & Hp).
  apply M_bind_Ok_inv in Hp as (b2 & [] & Ha & Hp). destruct (push_range_spec _ _ _ _ Hr) as [_ Hopen].
  pose proof (Hopen F E C Ho HE) as Hpos. pose proof (po_le _ _ _ _ Hpos) as Hle. subst E.
  destruct (positioned_envelope _ _ _ _ _ F C Ha Hpos) as (Hi & Hn & Hs & Hf & Hl).
  cbn [push_content] in Hp. apply M_bind_Ok_inv in Hp as (b0 & self & Hs' & Hp). injection Hs' as <- <-.
  destruct (_ || _); [done|]. injection Hp as <- _. split; [|done]. split; [done|done|done|]. left.
  split_and!; [done|congruence|lia].
Qed.

Lemma push_all_spec records b b' u F E C :
  push_all records b = (b', Ok u) → open_at b F E C →
  (∀ i e, records !! i = Some e → sequence e = E + N.of_nat i) →
  open_at b' F (E + N.of_nat (length records)) C ∧ (records ≠ [] → b_first b' = Some F).
Proof.
  revert b E. induction records as [|e records IH]; intros b E; cbn [push_all length].
  - intros [= <- _] Ho _. by rewrite N.add_0_r.
  - intros Hp Ho Hseq. apply M_bind_Ok_inv in Hp as (b1 & [] & Hpu & Hp).
    pose proof (Hseq 0%nat e eq_refl) as HE. rewrite N.add_0_r in HE.
    destruct (push_verbatim_record_spec _ _ _ _ _ _ _ Hpu Ho HE) as [Ho1 Hf1].
    destruct (IH b1 (E + 1) Hp Ho1) as [Ho' Hf'].
    { intros i e' Hi. rewrite (Hseq (S i) e' Hi). lia. }
    replace (E + N.of_nat (S (length records))) with (E + 1 + N.of_nat (length records)) by lia.
    split; [done|]. intros _. destruct records; [by injection Hp as <- _|by apply Hf'].
Qed.

(** ** Copied runs *)

Lemma verbatim_check_spec slot entry full b b' u :
  verbatim_check slot entry full b = (b', Ok u) →
  is_Some (kid entry) ∧ first entry = first full ∧ count entry = count full ∧ stream entry = stream_of slot ∧
  kid entry = kid full ∧ (if Nat.eqb slot 1 then (b_content_next b).1 else (b_content_next b).2) = first full ∧
  flush slot b = (b', Ok u).
Proof.
  unfold verbatim_check. intros Hc. apply M_bind_Ok_inv in Hc as (b0 & self & Hs & Hc). injection Hs as <- <-.
  case_bool_decide as Hk; [done|]. cbn [orb] in Hc.
  destruct (N.eqb_spec (first entry) (first full)); [|done]. destruct (N.eqb_spec (count entry) (count full)); [|done].
  destruct (N.eqb_spec (stream entry) (stream_of slot)); [|done]. cbn [negb orb] in Hc.
  case_bool_decide; [|done]. cbn [negb orb] in Hc. destruct (N.eqb_spec (if Nat.eqb slot 1 then (b_content_next b).1 else (b_content_next b).2) (first full)); [|done].
  split_and!; try done. by apply not_eq_None_Some.
Qed.

Lemma verbatim_write_spec slot entry stored b b' u :
  verbatim_write slot entry stored b = (b', Ok u) →
  ∃ f, stream f = stream entry ∧ first f = first entry ∧ count f = count entry ∧ kid f = kid entry ∧
    ordinal f = ordinal entry ∧ group f = group entry ∧ frame_added b b' f stored ∧
    (default "" (kid f), stream f, ordinal f) ∉ b_sealed_ordinals b ∧
    b_sealed_ordinals b' = {[(default "" (kid f), stream f, ordinal f)]} ∪ b_sealed_ordinals b ∧
    b_buffers b' = b_buffers b ∧ b_content_started b' = b_content_started b ∧ b_first b' = b_first b ∧
    b_last b' = b_last b ∧
    b_content_next b' = if Nat.eqb slot 1 then (first f + count f, (b_content_next b).2)
                        else ((b_content_next b).1, first f + count f).
Proof.
  unfold verbatim_write. intros Hc. apply M_bind_Ok_inv in Hc as (b0 & self & Hs & Hc). injection Hs as <- <-.
  case_bool_decide as Hin; [done|]. apply M_bind_Ok_inv in Hc as (b1 & [] & Hm & Hc). injection Hm as <-.
  apply M_bind_Ok_inv in Hc as (b2 & [] & Hm & Hc). injection Hm as <-.
  apply write_frame_spec in Hc as (f & Hfe & Hadd & Hr & Hbuf & _ & Hso).
  apply rest_inv in Hr as (_ & _ & Hcn & Hcs & _ & _ & _ & _ & Hfi & Hla & _).
  exists f. subst f. destruct Hadd as [F1 F2 F3 F4 F5]. by split_and!.
Qed.

(** Adding the frame of an empty buffer's stream. *)
Lemma added_streams b b' f stored slot s F E :
  frame_added b b' f stored → b_buffers b' = b_buffers b → (slot < 3)%nat → (s < 3)%nat → stream f = stream_of slot →
  sb_count (b_buffers b slot) = 0 → stream_ok b s F E → (s = slot → first f = E) →
  stream_ok b' s F (if decide (s = slot) then E + count f else E).
Proof.
  intros [Hfr _ _ _ _] Hb Hslot Hs Hst Hz Hok Hfirst. unfold stream_ok in *. rewrite Hb, Hfr, stream_frames_add.
  destruct (decide (s = slot)) as [->|Hne].
  - rewrite decide_True by done. rewrite Hz in *. cbn [N.eqb] in *. apply chain_snoc; [done|by apply Hfirst].
  - rewrite decide_False, app_nil_r; [done|]. intros Heq. apply Hne, stream_of_inj; [done..|congruence].
Qed.

(** Two frames written one after the other, a summary and a full frame. *)
Lemma added_pair b2 b3 b' g1 s1 g2 s2 F E k :
  base_ok b2 → pairs_ok b2 → stream_ok b2 0 F E → stream_ok b2 1 F E → stream_ok b2 2 F E →
  sb_count (b_buffers b2 1%nat) = 0 → sb_count (b_buffers b2 2%nat) = 0 →
  frame_added b2 b3 g1 s1 → frame_added b3 b' g2 s2 → b_buffers b3 = b_buffers b2 → b_buffers b' = b_buffers b3 →
  stream g1 = stream_of 1 → stream g2 = stream_of 2 → first g1 = E → first g2 = E →
  0 < count g1 → count g2 = count g1 → kid g1 = Some k → kid g2 = Some k →
  (k, stream g1, ordinal g1) ∉ b_sealed_ordinals b2 →
  b_sealed_ordinals b3 = {[(k, stream g1, ordinal g1)]} ∪ b_sealed_ordinals b2 →
  (k, stream g2, ordinal g2) ∉ b_sealed_ordinals b3 →
  b_sealed_ordinals b' = {[(k, stream g2, ordinal g2)]} ∪ b_sealed_ordinals b3 →
  base_ok b' ∧ pairs_ok b' ∧ buffers_ok b' ∧ stream_ok b' 0 F E ∧
  stream_ok b' 1 F (E + count g1) ∧ stream_ok b' 2 F (E + count g1).
Proof.
  intros Hb Hp He Hs Hu Hz1 Hz2 A1 A2 B1 B2 S1 S2 F1 F2 Hpos Hc K1 K2 N1 O1 N2 O2.
  assert (Hb3 : base_ok b3).
  { eapply base_ok_added; [exact Hb|exact A1|done|rewrite S1; by apply (stream_of_in 1); lia|by rewrite S1| | |];
      rewrite ?K1, ?B1; [done|apply (bo_streams _ Hb)|apply (bo_envelope _ Hb)]. }
  assert (Hb' : base_ok b').
  { eapply base_ok_added; [exact Hb3|exact A2|lia|rewrite S2; by apply (stream_of_in 2); lia|by rewrite S2| | |];
      rewrite ?K2, ?B2; [done|apply (bo_streams _ Hb3)|apply (bo_envelope _ Hb3)]. }
  assert (Hz3 : sb_count (b_buffers b3 2%nat) = 0) by by rewrite B1.
  pose proof (λ s E' Hs Ho, added_streams _ _ _ _ 1 s F E' A1 B1 ltac:(lia) Hs S1 Hz1 Ho) as Hst1.
  pose proof (λ s E' Hs Ho, added_streams _ _ _ _ 2 s F E' A2 B2 ltac:(lia) Hs S2 Hz3 Ho) as Hst2.
  split_and!; [done| | | | |].
  - intros f. rewrite (fa_frames _ _ _ _ A2), (fa_frames _ _ _ _ A1), <-app_assoc. cbn [app].
    intros [Hin|Hin]%elem_of_app Hkf.
    { eapply partner_mono; [|by apply Hp]. intros; apply elem_of_app; by left. }
    apply elem_of_cons in Hin as [-> | ->%list_elem_of_singleton].
    + exists g2. rewrite S1, S2. split_and!; [set_solver|done|congruence..].
    + exists g1. rewrite S1, S2. split_and!; [set_solver|done|congruence..].
  - intros k'. unfold sealed_buffer. rewrite B2, B1, Hz1, Hz2. naive_solver.
  - apply (Hst2 0%nat E ltac:(lia)); [|done]. by apply (Hst1 0%nat E ltac:(lia)).
  - apply (Hst2 1%nat (E + count g1) ltac:(lia)); [|done]. by apply (Hst1 1%nat E ltac:(lia)).
  - rewrite <-Hc. apply (Hst2 2%nat E ltac:(lia)); [|done]. by apply (Hst1 2%nat E ltac:(lia)).
Qed.

Lemma push_verbatim_inv summary full b b' u F E :
  push_verbatim summary full b = (b', Ok u) → b_content_started b = true → b_content_next b = (E, E) → inv b F E →
  0 < count full.1 →
  first full.1 = E ∧ inv b' F E ∧ b_content_next b' = (E + count full.1, E + count full.1) ∧
  b_content_started b' = true ∧ b_first b' = b_first b ∧ b_last b' = b_last b.
Proof.
  intros Hp Hst Hn Hi Hpos. unfold push_verbatim in Hp. apply M_bind_Ok_inv in Hp as (b0 & self & Hs & Hp).
  injection Hs as <- <-. rewrite Hst in Hp. apply M_bind_Ok_inv in Hp as (b0 & [] & Hm & Hp). injection Hm as <-.
  apply M_bind_Ok_inv in Hp as (b1 & [] & Hc1 & Hp). apply M_bind_Ok_inv in Hp as (b2 & [] & Hc2 & Hp).
  apply M_bind_Ok_inv in Hp as (b3 & [] & Hw1 & Hw2).
  apply verbatim_check_spec in Hc1 as (_ & Hfs & Hcs & Hss & Hks & Hnext & Hf1). rewrite Hn in Hnext. cbn in Hnext.
  apply verbatim_check_spec in Hc2 as ([k Hk] & _ & _ & Hsf & _ & _ & Hf2).
  destruct (inv_flush_both b b1 b2 _ _ F E Hi Hf1 Hf2) as ([Hb2 He2 Hs2 Hu2 Hp2 _] & Hr2 & Hz1 & Hz2).
  apply rest_inv in Hr2 as (_ & _ & Hcn2 & Hcs2 & _ & _ & _ & _ & Hfi2 & Hla2 & _). rewrite Hcn2, Hn in Hs2, Hu2.
  apply verbatim_write_spec in Hw1 as (g1 & G1 & G2 & G3 & G4 & _ & _ & A1 & N1 & S1 & B1 & Cs1 & Fi1 & La1 & Cn1).
  apply verbatim_write_spec in Hw2 as (g2 & K1 & K2 & K3 & K4 & _ & _ & A2 & N2 & S2 & B2 & Cs2 & Fi2 & La2 & Cn2).
  rewrite Hk in Hks. rewrite G4, Hks in N1, S1. rewrite K4, Hk in N2, S2. cbn [default id] in *.
  destruct (added_pair b2 b3 b' g1 _ g2 _ F E k Hb2 Hp2 He2 Hs2 Hu2 Hz1 Hz2 A1 A2 B1 B2)
    as (Hb & Hp & Hbu & He & Hsu & Hfu); try congruence; try done.
  assert (Hnext' : b_content_next b' = (E + count full.1, E + count full.1)).
  { rewrite Cn2. cbn. rewrite Cn1. cbn. rewrite K2, K3, G2, G3, Hfs, Hcs. congruence. }
  split_and!; [congruence| |done|congruence..]. rewrite G3, Hcs in Hsu, Hfu. split; rewrite ?Hnext'; done.
Qed.

(** A copied run opens a segment when nothing was pushed. *)
Lemma push_verbatim_fresh summary full b :
  fresh b → push_verbatim summary full b = push_verbatim summary full (set_content (first full.1, first full.1) true b).
Proof.
  intros Hf. unfold push_verbatim. cbv beta delta [mbind M_bind get_self] iota. by rewrite (fr_started _ Hf).
Qed.

Definition run_inv b : Prop := fresh b ∨ ∃ F E, open_at b F E E ∧ b_first b = Some F.

Lemma fresh_open b n : fresh b → open_at (set_content (n, n) true b) n n n.
Proof.
  intros [Hb Hfr Hbuf Hfi Hst]. split; [|done|done|by right]. apply empty_inv; [by eapply base_ok_ext|done..].
Qed.

(** The content of a copied run is in place before its envelopes. *)
Lemma push_verbatim_open summary full b b1 u F E :
  push_verbatim summary full b = (b1, Ok u) → 0 < count full.1 → open_at b F E E →
  first full.1 = E ∧ open_at b1 F E (E + count full.1).
Proof.
  intros Hp Hpos [Hi Hn Hs Hfi].
  destruct (push_verbatim_inv _ _ _ _ _ F E Hp Hs Hn Hi Hpos) as (Hfull & Hi1 & Hn1 & Hs1 & Hf1 & Hl1).
  split; [done|]. split; [done..|]. by rewrite Hf1, Hl1.
Qed.

Lemma copied_count (full : FrameEntry * bytes) (records : list ConversationEvent) :
  records ≠ [] → N.of_nat (length records) = count full.1 → 0 < count full.1.
Proof. intros Hne <-. destruct records; [done|]. cbn. lia. Qed.

Lemma copy_run_spec summary full records b b' u F E :
  run_step (CopyRun summary full records) b = (b', Ok u) → step_ok (CopyRun summary full records) →
  open_at b F E E →
  first full.1 = E ∧ open_at b' F (E + count full.1) (E + count full.1) ∧ b_first b' = Some F.
Proof.
  cbn [run_step step_ok]. intros Hr (Hne & Hlen & Hseq) Ho. apply M_bind_Ok_inv in Hr as (b1 & [] & Hp & Hr).
  destruct (push_verbatim_open _ _ _ _ _ F E Hp (copied_count _ _ Hne Hlen) Ho) as [Hfull Ho1].
  destruct (push_all_spec records b1 b' u F E (E + count full.1) Hr Ho1) as [Ho' Hfirst].
  { intros i e Hi'. by rewrite (Hseq i e Hi'), Hfull. }
  rewrite Hlen in Ho'. auto.
Qed.

Lemma copy_run_fresh summary full records b :
  fresh b → run_step (CopyRun summary full records) b =
    run_step (CopyRun summary full records) (set_content (first full.1, first full.1) true b).
Proof. intros Hf. cbn [run_step]. unfold mbind, M_bind. by rewrite (push_verbatim_fresh _ _ b Hf). Qed.

Lemma facts_run_inv b d r : run_inv b → run_inv (set_facts d r b).
Proof.
  intros [[Hb Hfr Hbuf Hfi Hst]|(F & E & [Hi Hn Hs Hfi] & Hf)].
  - left. split; [by eapply base_ok_ext|done..].
  - right. exists F, E. split; [|done]. split; [by eapply inv_ext|done..].
Qed.

Lemma run_step_inv step b b' u : run_step step b = (b', Ok u) → step_ok step → run_inv b → run_inv b'.
Proof.
  destruct step as [e|k|e item|summary full records]; intros Hr Hok Hinv.
  1, 2: injection Hr as <- _; by apply facts_run_inv.
  - destruct (push_record_spec _ _ _ _ _ Hr Hok) as [Hfr Hop].
    right. destruct Hinv as [Hf|(F & E & Ho & HF)]; [destruct (Hfr Hf)|destruct (Hop F E Ho HF) as (_ & ? & ?)]; eauto.
  - right. destruct Hinv as [Hf|(F & E & Ho & _)]; [|by destruct (copy_run_spec _ _ _ _ _ _ _ _ Hr Hok Ho) as (_ & ? & ?); eauto].
    rewrite (copy_run_fresh _ _ _ _ Hf) in Hr.
    destruct (copy_run_spec _ _ _ _ _ _ _ _ Hr Hok (fresh_open _ _ Hf)) as (_ & ? & ?). eauto.
Qed.

Lemma run_steps_inv steps b b' u : run_steps steps b = (b', Ok u) → Forall step_ok steps → run_inv b → run_inv b'.
Proof.
  intros Hr Hok. revert b Hr. induction Hok as [|s steps Hs _ IH]; intros b; cbn [run_steps]; [by intros [= <- _]|].
  intros (b1 & [] & Hs1 & Hr)%M_bind_Ok_inv Hinv. by eapply IH, run_step_inv.
Qed.

(** What [finish] leaves behind. *)
Lemma finish_spec srcs b b' body :
  finish srcs b = (b', Ok body) → run_inv b →
  base_ok b' ∧ pairs_ok b' ∧ version body = INDEX_VERSION ∧ frames body = b_frames b' ∧ seg_bytes body = b_offset b' ∧
  b_number b' = b_number b ∧ first_sequence body ≤ last_sequence body ∧
  ∀ slot, (slot < 3)%nat →
    chain (stream_frames (frames body) (stream_of slot)) (first_sequence body) (last_sequence body + 1).
Proof.
  unfold finish. intros Hf Hinv. apply M_bind_Ok_inv in Hf as (b0 & self & Hs & Hf). injection Hs as <- <-.
  destruct Hinv as [Hfr|(F & E & [Hi Hn _ Hfi] & HF)]; [by rewrite (fr_first _ Hfr) in Hf|].
  rewrite HF in Hf. destruct Hfi as [(_ & Hl & Hlt)|[? _]]; [|congruence].
  apply M_bind_Ok_inv in Hf as (b1 & [] & Hf0 & Hf). apply M_bind_Ok_inv in Hf as (b2 & [] & Hf1 & Hf).
  apply M_bind_Ok_inv in Hf as (b3 & [] & Hf2 & Hf). apply M_bind_Ok_inv in Hf as (b4 & self & Hs & Hf).
  injection Hs as <- <-. destruct (inv_flush_env _ _ _ _ _ Hi Hf0) as [Hi1 Hr1].
  destruct (inv_flush_both _ _ _ _ _ _ _ Hi1 Hf1 Hf2) as ([Hb He Hsu Hfu Hp _] & Hr3 & Hz1 & Hz2).
  assert (Hz0 : sb_count (b_buffers b3 0%nat) = 0).
  { rewrite (flush_other 2 _ _ _ 0 ltac:(lia) Hf2), (flush_other 1 _ _ _ 0 ltac:(lia) Hf1).
    by eapply flush_empties. }
  rewrite Hr1 in Hr3. apply rest_inv in Hr3 as (Hnum & _ & Hcn & _ & _ & _ & _ & _ & _ & Hla & _).
  destruct (bool_decide _) eqn:Hbd; cbn [negb] in Hf; [|done]. injection Hf as <- <-. cbn.
  split_and!; try done; [lia|]. rewrite Hla, Hl. rewrite Hcn, Hn in Hsu, Hfu. unfold stream_ok in *.
  rewrite Hz0 in He. rewrite Hz1 in Hsu. rewrite Hz2 in Hfu. intros [|[|[|]]] Hs; [done..|lia].
Qed.

Lemma check_frame_accepts sb f : frame_ok sb f → sb < 2 ^ 64 → ∃ slot, check_frame sb f = Ok slot.
Proof.
  intros [Hc Hst Henv Hs He] Hsb. unfold check_frame, u64_checked_add.
  assert (∃ slot, stream_slot (stream f) = Some slot) as [slot ->].
  { elem_cases Hst; by eexists. }
  rewrite (proj2 (N.eqb_neq (count f) 0)), (proj2 (N.ltb_ge (offset f) _)), (proj2 (N.ltb_lt _ (2 ^ 64))),
    (proj2 (N.ltb_ge sb _)) by lia. cbn [orb].
  destruct (N.eqb_spec (stream f) STREAM_ENVELOPE) as [E|_]; [|by eexists]. rewrite (Henv E). by eexists.
Qed.

Lemma finished_well_framed steps id cid number keys b u srcs b' body :
  length id = 16%nat → Forall step_ok steps → run_steps steps (create id cid number keys) = (b, Ok u) →
  finish srcs b = (b', Ok body) →
  0 < first_sequence body → last_sequence body < 2 ^ 64 - 1 → seg_bytes body < 2 ^ 64 → well_framed body.
Proof.
  intros Hid Hok Hr Hf Hpos Hl Hsz.
  pose proof (run_steps_inv _ _ _ _ Hr Hok (or_introl (create_fresh id cid number keys Hid))) as Hinv.
  destruct (finish_spec _ _ _ _ Hf Hinv) as (Hb & Hp & Hv & Hfr & Hsb & _ & Hle & Hch).
  split; [done|lia|done| | |].
  - rewrite Hfr. eapply Forall_impl; [exact (bo_frames _ Hb)|]. intros f Hfo. apply check_frame_accepts; congruence.
  - intros st Hst. elem_cases Hst.
    + by apply (Hch 0%nat); lia.
    + by apply (Hch 1%nat); lia.
    + by apply (Hch 2%nat); lia.
  - intros f Hin Hk. rewrite Hfr in *. by apply Hp.
Qed.

(** C12: Every segment the builder finishes is one the loader accepts: whatever
    sequence of records (in the clear, sealed or kept as ciphertext) and copied
    runs was pushed, with the flushes the buffer limit forces in between, the
    index [finish] returns passes every check of [from_body]. *)
Theorem finished_build_loads (id : bytes) (cid : string) (number : N) (keys : gmap string ContentKey)
    (steps : list BuildStep) (b b' : SegmentBuilder) (srcs : list string) (body : SegmentIndexBody) :
  length id = 16%nat → Forall step_ok steps →
  run_steps steps (create id cid number keys) = (b, Ok tt) → finish srcs b = (b', Ok body) →
  0 < first_sequence body → last_sequence body < 2 ^ 64 - 1 → seg_bytes body < 2 ^ 64 →
  ∃ seg, from_body number body = Ok seg.
Proof. intros. by eapply from_body_accepts, finished_well_framed. Qed.

Lemma frame_counter_inj n o o' :
  o < 2 ^ 32 → o' < 2 ^ 32 → frame_counter n o = frame_counter n o' → o = o'.
Proof.
  unfold frame_counter. intros Ho Ho' E.
  assert (Hland : ∀ x, x < 2 ^ 32 → N.land (N.lor (N.shiftl n 32 mod 2 ^ 64) x) (N.ones 32) = x).
  { intros x Hx. rewrite N.land_lor_distr_l, !N.land_ones, (N.mod_small x) by done.
    rewrite N.shiftl_mul_pow2. change (2 ^ 64) with (2 ^ 32 * 2 ^ 32).
    rewrite N.Div0.mul_mod_distr_r, N.Div0.mod_mul. done. }
  by rewrite <-(Hland o Ho), E, Hland.
Qed.

Lemma sealed_counters_lookup fs i j f g k :
  NoDup (sealed_counters fs) → fs !! i = Some f → fs !! j = Some g → kid f = Some k → kid g = Some k →
  stream f = stream g → ordinal f = ordinal g → i = j.
Proof.
  revert i j. induction fs as [|h fs IH]; intros i j Hnd Hi Hj Hkf Hkg Hs Ho; [done|].
  assert (Hin : ∀ l x, fs !! l = Some x → kid x = Some k → (k, stream x, ordinal x) ∈ sealed_counters fs).
  { intros l x Hl Hk. apply list_elem_of_omap. exists x. split; [by eapply list_elem_of_lookup_2|]. by rewrite Hk. }
  unfold sealed_counters in Hnd. cbn [omap list_omap] in Hnd. fold (sealed_counters fs) in Hnd.
  destruct i as [|i], j as [|j]; cbn in Hi, Hj; [done| | |].
  - injection Hi as ->. rewrite Hkf in Hnd. cbn in Hnd. apply NoDup_cons in Hnd as [Hn _].
    destruct Hn. rewrite Hs, Ho. by eapply Hin.
  - injection Hj as ->. rewrite Hkg in Hnd. cbn in Hnd. apply NoDup_cons in Hnd as [Hn _].
    destruct Hn. rewrite <-Hs, <-Ho. by eapply Hin.
  - f_equal. apply IH; try done. destruct (kid h); cbn in Hnd; [by apply NoDup_cons in Hnd as [_ ?]|done].
Qed.

(** C13: No finished segment seals two of its frames under the same key, stream and
    AEAD counter, the ones the builder sealed and the copied ones together: no
    nonce of the segment's keys is used twice. *)
Theorem frame_nonces_unique (id : bytes) (cid : string) (number : N) (keys : gmap string ContentKey)
    (steps : list BuildStep) (b b' : SegmentBuilder) (srcs : list string) (body : SegmentIndexBody)
    (i j : nat) (f g : FrameEntry) (k : string) :
  length id = 16%nat → Forall step_ok steps →
  run_steps steps (create id cid number keys) = (b, Ok tt) → finish srcs b = (b', Ok body) →
  frames body !! i = Some f → frames body !! j = Some g → i ≠ j →
  ordinal f < 2 ^ 32 → ordinal g < 2 ^ 32 →
  kid f = Some k → kid g = Some k → stream f = stream g →
  frame_counter number (ordinal f) ≠ frame_counter number (ordinal g).
Proof.
  intros Hid Hok Hr Hf Hi Hj Hne Ho Ho' Hkf Hkg Hs Heq.
  pose proof (run_steps_inv _ _ _ _ Hr Hok (or_introl (create_fresh id cid number keys Hid))) as Hinv.
  destruct (finish_spec _ _ _ _ Hf Hinv) as (Hb & _ & _ & Hfr & _). rewrite Hfr in Hi, Hj.
  apply Hne. eapply sealed_counters_lookup; [exact (bo_counters _ Hb)|done..|]. by eapply frame_counter_inj.
Qed.
End runs.

(** A segment with two sealed runs around a plain record, and a copied one. *)
Module SegmentExample.
Import Jv PlainSerde PlainAead.
#[local] Existing Instance HistoryCrypto.Example.toy.

#[export] Instance stored_codec : FrameCodec := {|
  deflate m := m;
  inflate_stream m := (m, true);
  crc32 m := N.of_nat (length m) mod 2 ^ 32;
|}.
#[export] Instance stored_codec_laws : FrameCodecLaws.
Proof. split; [done|]. intros m. by apply N.mod_lt. Qed.

Definition k : string := b64_encode (ck_kid HistoryCrypto.Example.key).
Definition content : gmap string jv := <["content" := JStr "hi"]> (<["role" := JStr "user"]> ∅).
Definition record (n : N) (payload : jv) : ConversationEvent :=
  {| schema_version := CONVERSATION_SCHEMA_VERSION; sequence := n; event_id := "e"; conversation_id := "c";
     time := 0; event_type := "message.created"; normalized_type := None; raw_type := None; provider := None;
     payload := payload |}.
(** A record as the journal has it encrypted. *)
Definition sealed (n : N) : ConversationEvent :=
  record n (sealed_payload "message.created" (JObj content) (JObj ∅)).
Definition copied (st : N) : FrameEntry :=
  {| stream := st; first := 10; count := 1; offset := 60; len := 2; raw := 2; kid := Some k; passthrough := false;
     ordinal := 5; crc := 2 |}.
Definition steps : list BuildStep :=
  [ Observe (sealed 7); PushRecord (sealed 7) (SealedItem k (JObj content));
    PushRecord (record 8 (JObj content)) (PlainItem (JObj content));
    PushRecord (sealed 9) (SealedItem k (JObj content));
    NoteRepacked k;
    CopyRun (copied STREAM_SUMMARY, [Byte.x01; Byte.x02]) (copied STREAM_FULL, [Byte.x03; Byte.x04]) [sealed 10] ].
Definition id : bytes := replicate 16 Byte.x11.
Definition start : SegmentBuilder := create id "c" 3 {[k := HistoryCrypto.Example.key]}.

Lemma steps_ok : Forall step_ok steps.
Proof.
  repeat constructor; try done. intros [|i] e; [by intros [= <-]|done].
Qed.

(** The builder after the steps, what [finish] makes of it, and its index. *)
Definition built : SegmentBuilder := (run_steps steps start).1.
Definition finished := finish ["a"] built.
Definition body : SegmentIndexBody :=
  match finished.2 with
  | Ok body => body
  | Err _ => {| version := 0; first_sequence := 0; last_sequence := 0; segment_id := ""; seg_bytes := 0;
                seg_sha256 := ""; sources := []; slimmed := 0; frames := []; digest := digest_default |}
  end.
Definition succeeds {E A} (r : result E A) : bool := match r with Ok _ => true | Err _ => false end.

Lemma steps_run : run_steps steps start = (built, Ok tt).
Proof.
  assert (Hs : succeeds (run_steps steps start).2 = true) by (vm_compute; reflexivity).
  unfold built. destruct (run_steps steps start) as [b [[]|e]]; done.
Qed.
Lemma build_finishes : finish ["a"] built = (finished.1, Ok body).
Proof.
  assert (Hs : succeeds finished.2 = true) by (vm_compute; reflexivity).
  unfold body. change (finish ["a"] built) with finished. by destruct finished as [b [x|e]].
Qed.

Lemma body_is_typed : body_typed body.
Proof.
  split; [apply (bool_decide_unpack _)|..|apply (bool_decide_unpack _)]; vm_compute; done.
Qed.
Lemma body_loads : ∃ seg, from_body 3 body = Ok seg.
Proof.
  eapply from_body_accepts, finished_well_framed;
    [|apply steps_ok|apply steps_run|apply build_finishes|vm_compute; reflexivity..]. done.
Qed.

Lemma finished_build_loads_witness : ∃ seg, from_body 3 body = Ok seg ∧ length (frames body) = 9%nat.
Proof.
  destruct (finished_build_loads id "c" 3 {[k := HistoryCrypto.Example.key]} steps built finished.1 ["a"] body)
    as [seg Hseg]; [done|apply steps_ok|apply steps_run|apply build_finishes|vm_compute; reflexivity..|].
  exists seg. split; [exact Hseg|vm_compute; reflexivity].
Defined.

(** The two frames the builder sealed, and the copied one, of the summary stream. *)
Lemma frame_nonces_unique_witness :
  ordinal (frame_at (frames body) 0) = 0 ∧ ordinal (frame_at (frames body) 4) = 1 ∧
  frame_counter 3 (ordinal (frame_at (frames body) 0)) ≠ frame_counter 3 (ordinal (frame_at (frames body) 4)).
Proof.
  split; [vm_compute; reflexivity|]. split; [vm_compute; reflexivity|].
  apply (frame_nonces_unique id "c" 3 {[k := HistoryCrypto.Example.key]} steps built finished.1 ["a"] body
    0 4 (frame_at (frames body) 0) (frame_at (frames body) 4) k);
    [done|apply steps_ok|apply steps_run|apply build_finishes| | |lia|..]; vm_compute; reflexivity.
Defined.

(** The copied record, found in its full frame. *)
Lemma index_locates_every_record_witness :
  ∃ seg f, from_body 3 body = Ok seg ∧ frame seg STREAM_FULL 10 = Some f ∧ holds body STREAM_FULL 10 f.
Proof.
  destruct body_loads as [seg Hseg].
  pose proof (index_locates_every_record 3 body seg STREAM_FULL 10 Hseg body_is_typed) as Hl.
  assert (Hst : STREAM_FULL ∈ STREAMS) by by right; right; left.
  specialize (Hl Hst). assert (Hin : (first_sequence body <=? 10) && (10 <=? last_sequence body) = true)
    by (vm_compute; reflexivity).
  rewrite Hin in Hl. destruct Hl as (f & Hf & Hh & _).
  exists seg, f. exact (conj Hseg (conj Hf Hh)).
Defined.
End SegmentExample.
