(* ===== verification/SegmentContent.v ===== *)
(** * Sealed segments: what the frames hold

    The text of every frame a build writes, traced back to the records that
    were pushed: each frame holds exactly the lines or values of its records,
    in order, under the record's group; copied frames are stored byte for byte;
    and a frame's text stays within the buffer limit unless it holds a single
    record. *)
From S2P Require Import Prelude Bytes Channel Json JsonObject Model Digest Summary Recipients Keyring Dek HistoryCrypto Record SegmentIndex SegmentBuilder SegmentRun.
From Stdlib Require Import Strings.Byte.
Local Open Scope N_scope.

(** An item of a stream: its slot, its record, its group and its text, absent
    where a copied frame holds it. *)
Record Logged : Type := { lg_slot : nat; lg_seq : N; lg_group : FrameGroup; lg_item : option bytes }.

(** The text of a buffer with [items], and of the frame it becomes. *)
Definition open_text (slot : nat) (items : list bytes) : bytes :=
  if Nat.eqb slot 0 then concat items
  else match items with [] => [] | x :: items => Byte.x5b :: x ++ concat ((λ i, Byte.x2c :: i) <$> items) end.
Definition frame_text (slot : nat) (items : list bytes) : bytes :=
  open_text slot items ++ (if Nat.eqb slot 0 then [] else [Byte.x5d]).

Lemma open_text_snoc slot items it :
  open_text slot (items ++ [it]) =
  open_text slot items ++ (if Nat.eqb slot 0 then [] else match items with [] => [Byte.x5b] | _ => [Byte.x2c] end) ++ it.
Proof.
  unfold open_text. destruct (Nat.eqb slot 0).
  - rewrite concat_app. cbn. by rewrite app_nil_r.
  - destruct items as [|x items]; cbn [app]; [cbn; by rewrite app_nil_r|].
    rewrite fmap_app, concat_app. cbn. by rewrite !app_nil_r, <-!app_assoc.
Qed.

Section content.
Context `{JsonView} `{!Serde} `{HistoryPrimitives} `{Aead} `{FrameCodec}.
Implicit Types (b : SegmentBuilder) (f : FrameEntry) (log : list Logged) (copies : list (FrameEntry * bytes)).

Definition items_logged log (slot : nat) (start : N) (g : FrameGroup) (items : list bytes) : Prop :=
  ∀ i it, items !! i = Some it →
    {| lg_slot := slot; lg_seq := start + N.of_nat i; lg_group := g; lg_item := Some it |} ∈ log.

(** Within the limit of a buffer, or a single record. *)
Definition fits (slot : nat) (items : list bytes) : Prop :=
  length items = 1%nat ∨ N.of_nat (length (open_text slot items)) ≤ FRAME_RAW_BYTES + 1.

Definition buffer_holds log slot (buf : StreamBuffer) : Prop :=
  ∃ items, N.of_nat (length items) = sb_count buf ∧ sb_raw buf = open_text slot items ∧
    fits slot items ∧ items_logged log slot (sb_first buf) (sb_group buf) items.

(** The file has [stored] at the place of [f]. *)
Definition stored_at (out : bytes) f (stored : bytes) : Prop :=
  len f = len_u32 stored ∧ ∃ pre post, out = pre ++ stored ++ post ∧ N.of_nat (length pre) = offset f.

Definition text_stored (number : N) (cid : string) (keys : gmap string ContentKey) (text : bytes) f (stored : bytes) : Prop :=
  raw f = len_u32 text ∧
  match kid f with
  | Some k => ∃ key, keys !! k = Some key ∧ crc f = crc32 stored ∧
      seal key (str_bytes cid) (content_stream (stream f)) (frame_counter number (ordinal f)) (deflate text) = Ok stored
  | None => stored = deflate text ∧ crc f = crc32 text
  end.

(** A frame the builder made from pushed records. *)
Definition frame_built log (number : N) (cid : string) (keys : gmap string ContentKey) (out : bytes) f : Prop :=
  ∃ slot items stored, (slot < 3)%nat ∧ stream f = stream_of slot ∧ N.of_nat (length items) = count f ∧
    fits slot items ∧ items_logged log slot (first f) (group f) items ∧
    stored_at out f stored ∧ text_stored number cid keys (frame_text slot items) f stored.
(** A frame copied from elsewhere. *)
Definition frame_copied log copies (out : bytes) f : Prop :=
  ∃ slot entry stored, (slot < 3)%nat ∧ stream f = stream_of slot ∧ (entry, stored) ∈ copies ∧
    f = set_frame_place entry (offset f) (len_u32 stored) ∧ stored_at out f stored ∧
    ∀ n, first f ≤ n < first f + count f →
      {| lg_slot := slot; lg_seq := n; lg_group := group f; lg_item := None |} ∈ log.

Record content_ok log copies (number : N) (cid : string) (keys : gmap string ContentKey) b : Prop := {
  co_number : b_number b = number;
  co_cid : b_conversation_id b = cid;
  co_keys : b_keys b = keys;
  co_buffers slot : (slot < 3)%nat → buffer_holds log slot (b_buffers b slot);
  co_frames f : f ∈ b_frames b →
    frame_built log number cid keys (b_out b) f ∨ frame_copied log copies (b_out b) f;
}.

Lemma items_logged_mono log log' slot n g items : log ⊆ log' → items_logged log slot n g items → items_logged log' slot n g items.
Proof. intros Hs Hi i it Hit. by apply Hs, Hi. Qed.

Lemma stored_at_mono out more f stored : stored_at out f stored → stored_at (out ++ more) f stored.
Proof.
  intros (Hl & pre & post & -> & Ho). split; [done|]. exists pre, (post ++ more). by rewrite <-!app_assoc.
Qed.

Lemma frame_mono log log' copies copies' number cid keys out more f :
  log ⊆ log' → copies ⊆ copies' →
  frame_built log number cid keys out f ∨ frame_copied log copies out f →
  frame_built log' number cid keys (out ++ more) f ∨ frame_copied log' copies' (out ++ more) f.
Proof.
  intros Hl Hc [(slot & items & stored & Hs & Hst & Hn & Hfit & Hi & Hat & Ht)|(slot & entry & stored & Hs & Hst & Hin & Hf & Hat & Hn)].
  - left. exists slot, items, stored. split_and!; try done; [by eapply items_logged_mono|by apply stored_at_mono].
  - right. exists slot, entry, stored. split_and!; try done; [by apply Hc|by apply stored_at_mono|]. intros n Hr. by apply Hl, Hn.
Qed.

(** A larger log, and the fields that do not matter. *)
Lemma content_mono log log' copies copies' number cid keys b b' :
  content_ok log copies number cid keys b → log ⊆ log' → copies ⊆ copies' →
  b_number b' = b_number b → b_conversation_id b' = b_conversation_id b → b_keys b' = b_keys b →
  b_buffers b' = b_buffers b → b_frames b' = b_frames b → b_out b' = b_out b →
  content_ok log' copies' number cid keys b'.
Proof.
  intros [Hnu Hci Hk Hb Hf] Hl Hc E1 E2 E3 E4 E5 E6. split; [congruence..| |].
  - intros slot Hs. rewrite E4. destruct (Hb slot Hs) as (items & H1' & H2' & H3' & H4').
    exists items. split_and!; try done. by eapply items_logged_mono.
  - intros f. rewrite E5, E6. intros Hin. rewrite <-(app_nil_r (b_out b)). by eapply frame_mono, Hf.
Qed.

Lemma added_stored b b' f stored : frame_added b b' f stored → stored_at (b_out b') f stored.
Proof.
  intros [_ Ho Hof Hl _]. split; [done|]. exists (b_out b ++ frame_header f stored), [].
  rewrite Ho, app_nil_r, <-app_assoc. split; [done|]. rewrite Hof, length_app. unfold b_offset. lia.
Qed.

Lemma empty_buffer_holds log slot st : buffer_holds log slot (StreamBuffer_new st).
Proof.
  exists []. split_and!; [done|by unfold open_text; destruct (Nat.eqb slot 0)|right|by intros i it].
  unfold open_text. destruct (Nat.eqb slot 0); cbn; lia.
Qed.

(** A flush turns the buffered items into a frame holding them. *)
Lemma flush_content log copies number cid keys slot b b' u :
  (slot < 3)%nat → base_ok b → flush slot b = (b', Ok u) →
  content_ok log copies number cid keys b → content_ok log copies number cid keys b'.
Proof.
  intros Hslot Hbase Hf [Hnu Hci Hk Hb Hfr]. pose proof (bo_streams _ Hbase slot Hslot) as Hstr.
  apply flush_spec in Hf as (Hr & Hbuf & Hcase). cbn zeta in Hcase.
  apply rest_inv in Hr as (Hnu' & _ & _ & _ & Hci' & Hk' & _). split; [congruence..| |].
  - intros s Hs. rewrite Hbuf. destruct (Nat.eqb_spec s slot) as [->|]; [apply empty_buffer_holds|by apply Hb].
  - destruct Hcase as [(_ & -> & -> & _)|(f & stored & Hc & Hadd & Hst & Hfi & Hct & (Hraw & Hg & Hsto) & _)]; [done|].
    pose proof (added_stored _ _ _ _ Hadd) as Hat. intros g. destruct Hadd as [-> Ho _ _ _].
    intros [Hin| ->%list_elem_of_singleton]%elem_of_app.
    { rewrite Ho. by eapply (frame_mono log log copies copies), Hfr. }
    left. destruct (Hb slot Hslot) as (items & Hlen & Hra & Hfit & Hlog). rewrite Hstr in Hst.
    exists slot, items, stored. split_and!; try done; [congruence|by rewrite Hfi, Hg|].
    assert (Htext : buffer_text (b_buffers b slot) = frame_text slot items).
    { unfold buffer_text, frame_text. rewrite Hstr, Hra. destruct slot as [|[|[|]]]; [cbn; by rewrite app_nil_r|done..|lia]. }
    rewrite Htext in Hraw, Hsto. split; [done|]. by rewrite <-Hnu, <-Hci, <-Hk.
Qed.

(** Room for an item: the buffer is empty, or it takes the item's group and
    the item fits. *)
Definition room b (slot : nat) (g : FrameGroup) (item : bytes) : Prop :=
  sb_count (b_buffers b slot) ≠ 0 →
  sb_group (b_buffers b slot) = g ∧ N.of_nat (length (sb_raw (b_buffers b slot)) + length item) ≤ FRAME_RAW_BYTES.

Lemma no_flush_room b slot g item : needs_flush g (b_buffers b slot) item = false → room b slot g item.
Proof.
  intros Hn Hc. split; [by eapply not_flushed|]. unfold needs_flush in Hn.
  rewrite (proj2 (N.ltb_lt 0 _)) in Hn by lia. cbn [andb] in Hn. apply orb_false_elim in Hn as [Hn _].
  by apply N.ltb_ge in Hn.
Qed.

(** An item put into a buffer with room for it, at the next record. *)
Lemma add_item_holds log slot buf n g it :
  buffer_holds log slot buf → sb_stream buf = stream_of slot → (slot < 3)%nat →
  (sb_count buf ≠ 0 → sb_group buf = g ∧ N.of_nat (length (sb_raw buf) + length it) ≤ FRAME_RAW_BYTES) →
  (sb_count buf ≠ 0 → sb_first buf + sb_count buf = n) →
  {| lg_slot := slot; lg_seq := n; lg_group := g; lg_item := Some it |} ∈ log →
  buffer_holds log slot (add_item buf n g it).
Proof.
  intros (items & Hlen & Hraw & Hfit & Hlog) Hst Hslot Hroom Hnext Hin.
  assert (Henv : (sb_stream buf =? STREAM_ENVELOPE) = Nat.eqb slot 0).
  { rewrite Hst. destruct slot as [|[|[|]]]; [done..|lia]. }
  exists (items ++ [it]). unfold add_item. cbn [sb_count sb_raw sb_first sb_group]. rewrite Henv.
  assert (Hz : (sb_count buf =? 0) = match items with [] => true | _ => false end).
  { rewrite <-Hlen. by destruct items. }
  assert (Hraw' : sb_raw buf ++ (if Nat.eqb slot 0 then [] else if sb_count buf =? 0 then [Byte.x5b] else [Byte.x2c]) ++ it =
    open_text slot (items ++ [it])).
  { rewrite open_text_snoc, Hraw, Hz. by destruct items. }
  split_and!; [rewrite length_app; cbn; lia|done| |].
  - destruct items as [|x items]; [by left|right]. rewrite <-Hraw', !length_app.
    destruct Hroom as [_ Hr]; [rewrite <-Hlen; cbn; lia|]. destruct (Nat.eqb slot 0), (_ =? 0); cbn; lia.
  - intros i it' Hi. rewrite Hz. apply lookup_app_Some in Hi as [Hi|[Hge Hi]].
    + destruct items as [|x items]; [done|]. apply Hlog, Hi.
    + destruct (i - length items)%nat as [|] eqn:Hi0; [|done]. injection Hi as <-.
      assert (i = length items) as -> by lia. destruct items as [|x items].
      * cbn [length]. by rewrite N.add_0_r.
      * destruct Hroom as [-> _]; [rewrite <-Hlen; cbn; lia|]. rewrite Hlen, Hnext; [done|]. rewrite <-Hlen. cbn. lia.
Qed.

Lemma set_buffer_content log copies number cid keys b slot buf :
  content_ok log copies number cid keys b → buffer_holds log slot buf →
  content_ok log copies number cid keys (set_buffer slot buf b).
Proof.
  intros [Hnu Hci Hk Hb Hfr] Hbuf. split; try done. intros s Hs. cbn [set_buffer b_buffers].
  destruct (Nat.eqb_spec s slot) as [->|]; [done|by apply Hb].
Qed.

Lemma stream_ok_next b slot F E : stream_ok b slot F E → sb_count (b_buffers b slot) ≠ 0 →
  sb_first (b_buffers b slot) + sb_count (b_buffers b slot) = E.
Proof. unfold stream_ok. intros Hs Hc. rewrite (proj2 (N.eqb_neq _ _) Hc) in Hs. by destruct Hs. Qed.

Lemma append_env_content log copies number cid keys n it b b' u F :
  append 0%nat n Plain it b = (b', Ok u) → inv b F n →
  {| lg_slot := 0; lg_seq := n; lg_group := Plain; lg_item := Some it |} ∈ log →
  content_ok log copies number cid keys b → content_ok log copies number cid keys b'.
Proof.
  unfold append. intros Ha Hi Hin Hco.
  apply M_bind_Ok_inv in Ha as (b0 & self & Hs & Ha). injection Hs as <- <-.
  apply M_bind_Ok_inv in Ha as (b1 & [] & Hfl & Ha). injection Ha as <- _. cbn [Nat.eqb andb] in Hfl.
  assert (H1' : inv b1 F n ∧ content_ok log copies number cid keys b1 ∧ room b1 0 Plain it).
  { destruct (needs_flush _ _ _) eqn:Hn.
    - split_and!; [by eapply inv_flush_env|eapply (flush_content _ _ _ _ _ 0); [lia|apply (i_base _ _ _ Hi)|done..]|].
      intros Hc. by rewrite (flush_empties _ _ _ _ Hfl) in Hc.
    - injection Hfl as <-. split_and!; [done|done|by apply no_flush_room]. }
  destruct H1' as (Hi1 & Hco1 & Hroom). apply set_buffer_content; [done|].
  apply add_item_holds; [by apply (co_buffers _ _ _ _ _ _ Hco1); lia|by apply (bo_streams _ (i_base _ _ _ Hi1)); lia
    |lia|done|by apply (stream_ok_next _ _ _ _ (i_env _ _ _ Hi1))|done].
Qed.

Lemma empty_room b slot g it : sb_count (b_buffers b slot) = 0 → room b slot g it.
Proof. by intros Hz Hc. Qed.

(** A flush if it is needed, of one content buffer. *)
Lemma flush_if_content log copies number cid keys slot b b' u g it :
  (slot < 3)%nat → base_ok b →
  (if needs_flush g (b_buffers b slot) it then flush slot else mret tt) b = (b', Ok u) →
  content_ok log copies number cid keys b →
  base_ok b' ∧ content_ok log copies number cid keys b' ∧ room b' slot g it ∧
  ∀ s, s ≠ slot → b_buffers b' s = b_buffers b s.
Proof.
  intros Hs Hb Hf Hco. destruct (needs_flush _ _ _) eqn:Hn.
  - split_and!; [by eapply flush_base|by eapply flush_content|by eapply empty_room, flush_empties|].
    intros s Hne. by eapply flush_other.
  - injection Hf as <- _. split_and!; [done|done|by apply no_flush_room|done].
Qed.

Lemma make_room_content log copies number cid keys g summary full b b' u :
  make_room g summary full b = (b', Ok u) → base_ok b → content_ok log copies number cid keys b →
  content_ok log copies number cid keys b' ∧ room b' 1 g summary ∧ room b' 2 g full.
Proof.
  unfold make_room. cbn zeta. intros Hm Hb Hco. destruct (is_sealed g).
  - destruct (_ || _) eqn:Hn.
    + apply M_bind_Ok_inv in Hm as (b1 & [] & Hf1 & Hf2).
      pose proof (flush_base 1 b b1 _ ltac:(lia) Hb Hf1) as Hb1.
      pose proof (flush_content _ _ _ _ _ 1 b b1 _ ltac:(lia) Hb Hf1 Hco) as Hco1.
      split_and!; [exact (flush_content _ _ _ _ _ 2 b1 b' _ ltac:(lia) Hb1 Hf2 Hco1)| |].
      * apply empty_room. rewrite (flush_other 2 b1 b' _ 1 ltac:(lia) Hf2). by eapply flush_empties.
      * by eapply empty_room, flush_empties.
    + injection Hm as <- _. apply orb_false_elim in Hn as [Hn1 Hn2]. split_and!; [done|by apply no_flush_room..].
  - apply M_bind_Ok_inv in Hm as (b1 & [] & Hf1 & Hf2).
    destruct (flush_if_content log copies number cid keys 1 b b1 _ g summary ltac:(lia) Hb Hf1 Hco) as (Hb1 & Hco1 & Hr1 & Ho1).
    rewrite <-(Ho1 2%nat) in Hf2 by done.
    destruct (flush_if_content log copies number cid keys 2 b1 b' _ g full ltac:(lia) Hb1 Hf2 Hco1) as (_ & Hco2 & Hr2 & Ho2).
    split_and!; [done| |done]. unfold room. by rewrite (Ho2 1%nat).
Qed.

Lemma append_content_content log copies number cid keys n g summary full b b' u F E :
  append_content n g summary full b = (b', Ok u) → inv b F E →
  {| lg_slot := 1; lg_seq := n; lg_group := g; lg_item := Some summary |} ∈ log →
  {| lg_slot := 2; lg_seq := n; lg_group := g; lg_item := Some full |} ∈ log →
  content_ok log copies number cid keys b → content_ok log copies number cid keys b'.
Proof.
  intros (Hn & b1 & Hm & ->)%append_content_eq Hi Hin1 Hin2 Hco.
  destruct (make_room_spec _ _ _ _ _ _ F E Hm Hi) as ([Hb _ Hs Hfu _ _] & Hr & _).
  destruct (make_room_content _ _ _ _ _ _ _ _ _ _ _ Hm (i_base _ _ _ Hi) Hco) as (Hco1 & Hr1 & Hr2).
  apply rest_inv in Hr as (_ & _ & Hcn & _). rewrite Hcn, Hn in Hs, Hfu. cbn in Hs, Hfu.
  eapply (content_mono log log copies copies _ _ _ (set_buffer 2 (add_item (b_buffers b1 2%nat) n g full)
    (set_buffer 1 (add_item (b_buffers b1 1%nat) n g summary) b1))); [|done..].
  apply set_buffer_content; [apply set_buffer_content; [done|]|].
  - apply add_item_holds; [by apply (co_buffers _ _ _ _ _ _ Hco1); lia|by apply (bo_streams _ Hb); lia|lia|done
      |by apply (stream_ok_next _ _ _ _ Hs)|done].
  - cbn [set_buffer b_buffers Nat.eqb]. apply add_item_holds; [by apply (co_buffers _ _ _ _ _ _ Hco1); lia
      |by apply (bo_streams _ Hb); lia|lia|done|by apply (stream_ok_next _ _ _ _ Hfu)|done].
Qed.

(** ** The log of a build *)

(** The texts of a record's content and its group. *)
Definition item_texts (e : ConversationEvent) (it : Item) : option (FrameGroup * (bytes * bytes)) :=
  match it with
  | PlainItem p => Some (Plain, payload_texts e p)
  | SealedItem k p => Some (Sealed k, payload_texts e p)
  | PassthroughItem x => Some (Passthrough, passthrough_texts x)
  | Verbatim => None
  end.
Definition envelope_logged (e : ConversationEvent) : Logged :=
  {| lg_slot := 0; lg_seq := sequence e; lg_group := Plain; lg_item := Some (encode_envelope e ++ [Byte.x0a]) |}.
Definition push_log (e : ConversationEvent) (it : Item) : list Logged :=
  envelope_logged e ::
  match item_texts e it with
  | Some (g, (summary, full)) =>
      [ {| lg_slot := 1; lg_seq := sequence e; lg_group := g; lg_item := Some summary |};
        {| lg_slot := 2; lg_seq := sequence e; lg_group := g; lg_item := Some full |} ]
  | None => []
  end.
Definition copy_log (entry : FrameEntry) (slot : nat) : list Logged :=
  (λ i, {| lg_slot := slot; lg_seq := first entry + N.of_nat i; lg_group := group entry; lg_item := None |})
    <$> seq 0 (N.to_nat (count entry)).
Definition step_log (step : BuildStep) : list Logged :=
  match step with
  | PushRecord e it => push_log e it
  | CopyRun summary full records => copy_log summary.1 1 ++ copy_log full.1 2 ++ (envelope_logged <$> records)
  | _ => []
  end.
Definition steps_log (steps : list BuildStep) : list Logged := flat_map step_log steps.
Definition step_copies (step : BuildStep) : list (FrameEntry * bytes) :=
  match step with CopyRun summary full _ => [summary; full] | _ => [] end.
Definition steps_copies (steps : list BuildStep) : list (FrameEntry * bytes) := flat_map step_copies steps.

Lemma push_range_content log copies number cid keys e b b' u :
  push_range e b = (b', Ok u) → content_ok log copies number cid keys b → content_ok log copies number cid keys b'.
Proof.
  unfold push_range. intros Hp Hco. apply M_bind_Ok_inv in Hp as (b0 & self & Hs & Hp). injection Hs as <- <-.
  apply M_bind_Ok_inv in Hp as (b1 & [] & Hr & Hp). injection Hp as <- _.
  eapply (content_mono log log copies copies _ _ _ b1); [|done..]. destruct (b_first b).
  - destruct (_ =? _); [by injection Hr as <-|done].
  - apply M_bind_Ok_inv in Hr as (b2 & [] & Hm & Hr). injection Hm as <-.
    destruct (b_content_started b); injection Hr as <-; by eapply (content_mono log log copies copies _ _ _ b).
Qed.

(** Where the range part of a push of the next record leaves the builder. *)
Lemma push_range_positioned e b b1 u :
  push_range e b = (b1, Ok u) → run_inv b → ∃ F C, positioned b1 F (sequence e) C.
Proof.
  intros Hr Hinv. destruct (push_range_spec _ _ _ _ Hr) as [Hfresh Hopen].
  destruct Hinv as [Hf|(F & E & Ho & HF)]; [by eexists _, _; apply Hfresh|].
  rewrite (push_range_next _ _ _ _ _ _ _ Hr Ho HF) in *. eexists F, _. by apply (Hopen F _ _ Ho).
Qed.

Lemma push_content_ok log copies number cid keys e it b b' u :
  push e it b = (b', Ok u) → it ≠ Verbatim → run_inv b → push_log e it ⊆ log →
  content_ok log copies number cid keys b → content_ok log copies number cid keys b'.
Proof.
  unfold push. intros Hp Hv Hinv Hlog Hco. apply M_bind_Ok_inv in Hp as (b1 & [] & Hr & Hp).
  apply M_bind_Ok_inv in Hp as (b2 & [] & Ha & Hp).
  destruct (push_range_positioned _ _ _ _ Hr Hinv) as (F & C & Hpos).
  pose proof (push_range_content _ _ _ _ _ _ _ _ _ Hr Hco) as Hco1.
  assert (Hco2 : content_ok log copies number cid keys b2).
  { eapply append_env_content; [exact Ha|apply (po_inv _ _ _ _ Hpos)| |done]. apply Hlog. by left. }
  destruct (positioned_envelope _ _ _ _ _ F C Ha Hpos) as (Hi & _). clear Ha Hr Hco Hco1 Hinv.
  unfold push_log in Hlog. destruct it as [p|k p|x|]; cbn [push_content item_texts] in *; [| | |done].
  - eapply append_content_content; [exact Hp|exact Hi|..|done]; apply Hlog; set_solver.
  - apply M_bind_Ok_inv in Hp as (b3 & self & Hs & Hp). injection Hs as <- <-. destruct (b_keys b2 !! k); [|done].
    eapply append_content_content; [exact Hp|exact Hi|..|done]; apply Hlog; set_solver.
  - eapply append_content_content; [exact Hp|exact Hi|..|done]; apply Hlog; set_solver.
Qed.

Lemma push_all_content log copies number cid keys records b b' u F E C :
  push_all records b = (b', Ok u) → open_at b F E C →
  (∀ i e, records !! i = Some e → sequence e = E + N.of_nat i) → envelope_logged <$> records ⊆ log →
  content_ok log copies number cid keys b → content_ok log copies number cid keys b'.
Proof.
  revert b E. induction records as [|e records IH]; intros b E; cbn [push_all fmap list_fmap]; [by intros [= <- _]|].
  intros Hp Ho Hseq Hlog Hco. apply M_bind_Ok_inv in Hp as (b1 & [] & Hpu & Hp).
  pose proof (Hseq 0%nat e eq_refl) as HE. rewrite N.add_0_r in HE.
  destruct (push_verbatim_record_spec _ _ _ _ _ _ _ Hpu Ho HE) as [Ho1 _].
  eapply (IH b1 (E + 1)); [done|done| |set_solver|].
  { intros i e' Hi. rewrite (Hseq (S i) e' Hi). lia. }
  unfold push in Hpu. apply M_bind_Ok_inv in Hpu as (b2 & [] & Hr & Hpu).
  apply M_bind_Ok_inv in Hpu as (b3 & [] & Ha & Hpu).
  destruct (push_range_spec _ _ _ _ Hr) as [_ Hopen]. pose proof (Hopen F E C Ho HE) as Hpos. subst E.
  cbn [push_content] in Hpu. apply M_bind_Ok_inv in Hpu as (b4 & self & Hs & Hpu). injection Hs as <- <-.
  destruct (_ || _); [done|]. injection Hpu as <-.
  eapply append_env_content; [exact Ha|apply (po_inv _ _ _ _ Hpos)|apply Hlog; by left|by eapply push_range_content].
Qed.

(** ** Copied frames *)

Lemma verbatim_write_content log copies number cid keys slot entry stored b b' u :
  verbatim_write slot entry stored b = (b', Ok u) → (slot < 3)%nat → stream entry = stream_of slot →
  (entry, stored) ∈ copies → copy_log entry slot ⊆ log →
  content_ok log copies number cid keys b → content_ok log copies number cid keys b'.
Proof.
  intros Hc Hs Hst Hin Hlog Hco. unfold verbatim_write in Hc. apply M_bind_Ok_inv in Hc as (b0 & self & Hse & Hc).
  injection Hse as <- <-. case_bool_decide; [done|]. apply M_bind_Ok_inv in Hc as (b1 & [] & Hm & Hc). injection Hm as <-.
  apply M_bind_Ok_inv in Hc as (b2 & [] & Hm & Hc). injection Hm as <-.
  apply write_frame_spec in Hc as (f & Hfe & Hadd & Hr & Hbuf & _).
  apply rest_inv in Hr as (Hnu & _ & _ & _ & Hci & Hk & _). destruct Hco as [Hnu' Hci' Hk' Hb Hfr].
  split; [by rewrite ?Hnu, ?Hci, ?Hk..|by intros s Hs'; rewrite Hbuf; apply Hb|].
  pose proof (added_stored _ _ _ _ Hadd) as Hat. destruct Hadd as [-> Ho _ _ _].
  intros g [Hg| ->%list_elem_of_singleton]%elem_of_app.
  { rewrite Ho. by eapply (frame_mono log log copies copies), Hfr. }
  right. exists slot, entry, stored. subst f. split_and!; try done. intros n Hn. apply Hlog. unfold copy_log.
  apply list_elem_of_fmap. exists (N.to_nat (n - first entry)). cbn in Hn. split; [|apply elem_of_seq; lia].
  cbn. f_equal. lia.
Qed.

Lemma push_verbatim_content log copies number cid keys summary full b b' u :
  push_verbatim summary full b = (b', Ok u) → base_ok b → summary ∈ copies → full ∈ copies →
  copy_log summary.1 1 ++ copy_log full.1 2 ⊆ log →
  content_ok log copies number cid keys b → content_ok log copies number cid keys b'.
Proof.
  intros Hp Hb Hs Hf Hlog Hco. destruct summary as [sentry sstored], full as [fentry fstored]. cbn [fst snd] in *.
  unfold push_verbatim in Hp. apply M_bind_Ok_inv in Hp as (b0 & self & Hse & Hp). injection Hse as <- <-.
  apply M_bind_Ok_inv in Hp as (b0 & [] & Hm & Hp). apply M_bind_Ok_inv in Hp as (b1 & [] & Hc1 & Hp).
  apply M_bind_Ok_inv in Hp as (b2 & [] & Hc2 & Hp). apply M_bind_Ok_inv in Hp as (b3 & [] & Hw1 & Hw2).
  assert (Hb0 : base_ok b0 ∧ content_ok log copies number cid keys b0).
  { destruct (b_content_started b); injection Hm as <-; [done|].
    split; [by eapply base_ok_ext|by eapply (content_mono log log copies copies _ _ _ b)]. }
  destruct Hb0 as [Hb0 Hco0].
  apply verbatim_check_spec in Hc1 as (_ & _ & _ & Hss & _ & _ & Hf1).
  apply verbatim_check_spec in Hc2 as (_ & _ & _ & Hsf & _ & _ & Hf2).
  pose proof (flush_base 1 b0 b1 _ ltac:(lia) Hb0 Hf1) as Hb1.
  pose proof (flush_content _ _ _ _ _ 1 b0 b1 _ ltac:(lia) Hb0 Hf1 Hco0) as Hco1.
  pose proof (flush_content _ _ _ _ _ 2 b1 b2 _ ltac:(lia) Hb1 Hf2 Hco1) as Hco2.
  eapply verbatim_write_content; [exact Hw2|lia|done|done|set_solver|].
  eapply verbatim_write_content; [exact Hw1|lia|done|done|set_solver|done].
Qed.

Lemma run_inv_base b : run_inv b → base_ok b.
Proof. intros [Hf|(F & E & Ho & _)]; [apply (fr_base _ Hf)|apply (i_base _ _ _ (oa_inv _ _ _ _ Ho))]. Qed.

Lemma run_step_content log copies number cid keys step b b' u :
  run_step step b = (b', Ok u) → step_ok step → run_inv b → step_log step ⊆ log → step_copies step ⊆ copies →
  content_ok log copies number cid keys b → content_ok log copies number cid keys b'.
Proof.
  destruct step as [e|k|e it|summary full records]; intros Hr Hok Hinv Hlog Hcop Hco.
  1, 2: injection Hr as <- _; by eapply (content_mono log log copies copies _ _ _ b).
  - by eapply push_content_ok.
  - cbn [step_log step_copies] in *. destruct Hok as (Hne & Hlen & Hseq). pose proof (copied_count _ _ Hne Hlen) as Hpos.
    assert (Hopen : ∃ b0 F, open_at b0 F (first full.1) (first full.1) ∧ content_ok log copies number cid keys b0 ∧
      run_step (CopyRun summary full records) b0 = (b', Ok u)).
    { destruct Hinv as [Hf|(F & E & Ho & _)].
      - eexists _, _. split_and!; [by apply fresh_open|by eapply (content_mono log log copies copies _ _ _ b)|].
        by rewrite <-copy_run_fresh.
      - destruct (copy_run_spec _ _ _ _ _ _ _ _ Hr (conj Hne (conj Hlen Hseq)) Ho) as (<- & _). eauto. }
    destruct Hopen as (b0 & F & Ho & Hco0 & Hr0). cbn [run_step] in Hr0.
    apply M_bind_Ok_inv in Hr0 as (b1 & [] & Hp & Hr1).
    destruct (push_verbatim_open _ _ _ _ _ _ _ Hp Hpos Ho) as [_ Ho1].
    eapply push_all_content; [exact Hr1|exact Ho1|done|set_solver|].
    eapply push_verbatim_content; [exact Hp|apply (i_base _ _ _ (oa_inv _ _ _ _ Ho))|set_solver..|done].
Qed.

Lemma run_steps_content log copies number cid keys steps b b' u :
  run_steps steps b = (b', Ok u) → Forall step_ok steps → run_inv b → steps_log steps ⊆ log → steps_copies steps ⊆ copies →
  content_ok log copies number cid keys b → content_ok log copies number cid keys b'.
Proof.
  intros Hr Hok. revert b Hr. induction Hok as [|s steps Hs _ IH]; intros b; cbn [run_steps]; [by intros [= <- _]|].
  intros (b1 & [] & Hs1 & Hr)%M_bind_Ok_inv Hinv Hlog Hcop Hco. unfold steps_log, steps_copies in Hlog, Hcop.
  cbn [flat_map] in *. eapply IH; [done|by eapply run_step_inv|set_solver..|].
  eapply run_step_content; [exact Hs1|done|done|set_solver..|done].
Qed.

(** ** One item per record and stream *)

Definition log_unique log : Prop :=
  ∀ x y, x ∈ log → y ∈ log → lg_slot x = lg_slot y → lg_seq x = lg_seq y → x = y.

Lemma log_unique_app log log' n :
  log_unique log → log_unique log' → (∀ x, x ∈ log → lg_seq x < n) → (∀ x, x ∈ log' → n ≤ lg_seq x) →
  log_unique (log ++ log').
Proof.
  intros Hu Hu' Hlt Hge x y [Hx|Hx]%elem_of_app [Hy|Hy]%elem_of_app Hs Hq; auto.
  - specialize (Hlt x Hx). specialize (Hge y Hy). lia.
  - specialize (Hlt y Hy). specialize (Hge x Hx). lia.
Qed.

Lemma elem_of_copy_log x entry slot :
  x ∈ copy_log entry slot ↔ ∃ i, (i < N.to_nat (count entry))%nat ∧
    x = {| lg_slot := slot; lg_seq := first entry + N.of_nat i; lg_group := group entry; lg_item := None |}.
Proof.
  unfold copy_log. rewrite list_elem_of_fmap. setoid_rewrite elem_of_seq. split; intros (i & Hi & Hx); exists i; [|].
  - split; [lia|done].
  - split; [done|lia].
Qed.

Lemma push_log_unique e it : log_unique (push_log e it).
Proof.
  unfold push_log. intros x y Hx Hy Hs _. destruct (item_texts e it) as [[g [s f]]|]; set_unfold; naive_solver.
Qed.

Lemma step_log_unique step : step_ok step → log_unique (step_log step).
Proof.
  destruct step as [e|k|e it|summary full records]; cbn [step_log].
  1, 2: by intros _ x y ?%elem_of_nil.
  - intros _. apply push_log_unique.
  - intros (_ & _ & Hseq) x y Hx Hy Hs Hq. rewrite !elem_of_app, !elem_of_copy_log, list_elem_of_fmap in Hx, Hy.
    destruct Hx as [(i & _ & ->)|[(i & _ & ->)|(e & -> & [i Hi]%list_elem_of_lookup)]],
      Hy as [(j & _ & ->)|[(j & _ & ->)|(e' & -> & [j Hj]%list_elem_of_lookup)]]; cbn in Hs, Hq; try done.
    1, 2: f_equal; lia.
    rewrite (Hseq _ _ Hi), (Hseq _ _ Hj) in Hq. assert (i = j) as -> by lia. congruence.
Qed.

Lemma copied_lines_up summary full records b b' u :
  run_step (CopyRun summary full records) b = (b', Ok u) →
  first summary.1 = first full.1 ∧ count summary.1 = count full.1.
Proof.
  cbn [run_step]. intros (b1 & [] & Hp & _)%M_bind_Ok_inv. unfold push_verbatim in Hp.
  apply M_bind_Ok_inv in Hp as (b0 & self & _ & Hp). apply M_bind_Ok_inv in Hp as (b2 & [] & _ & Hp).
  apply M_bind_Ok_inv in Hp as (b3 & [] & Hc & _). by apply verbatim_check_spec in Hc as (_ & ? & ? & _).
Qed.

Lemma open_lt b F E C : open_at b F E C → b_first b = Some F → F < E.
Proof. intros [_ _ _ [(_ & _ & ?)|[? _]]] HF; [done|congruence]. Qed.

(** Where the items of a step lie: after those of the earlier steps. *)
Lemma step_log_range step b b' u :
  run_step step b = (b', Ok u) → step_ok step → run_inv b →
  (step_log step = [] ∧ (fresh b → fresh b') ∧
    ∀ F E, open_at b F E E → b_first b = Some F → open_at b' F E E ∧ b_first b' = Some F) ∨
  (∃ n F E, open_at b' F E E ∧ b_first b' = Some F ∧ (∀ x, x ∈ step_log step → n ≤ lg_seq x < E) ∧
    F ≤ n < E ∧ ∀ F0 E0, open_at b F0 E0 E0 → b_first b = Some F0 → E0 = n ∧ F0 = F).
Proof.
  destruct step as [e|k|e it|summary full records]; intros Hr Hok Hinv.
  1, 2: left; injection Hr as <- _; split_and!; [done| |].
  1, 3: intros [Hb Hfr Hbuf Hfi Hst]; split; [by eapply base_ok_ext|done..].
  1, 2: intros F E [Hi Hn Hs Hfi] Hf; split; [|done]; split; [by eapply inv_ext|done..].
  - right. destruct (push_record_spec _ _ _ _ _ Hr Hok) as [Hfr Hop].
    assert (Hseq : ∀ x, x ∈ step_log (PushRecord e it) → lg_seq x = sequence e).
    { cbn [step_log]. unfold push_log. intros x. destruct (item_texts e it) as [[g [s f]]|]; set_unfold; naive_solver. }
    destruct Hinv as [Hf|(F & E & Ho & HF)].
    + destruct (Hfr Hf) as [Ho' Hf']. exists (sequence e), (sequence e), (sequence e + 1). split_and!; try done; [|lia|].
      * intros x ->%Hseq. lia.
      * intros F0 E0 _ HF0. by rewrite (fr_first _ Hf) in HF0.
    + destruct (Hop F E Ho HF) as (HE & Ho' & Hf'). exists E, F, (E + 1). split_and!; try done.
      * intros x ->%Hseq. lia.
      * pose proof (open_lt _ _ _ _ Ho HF). lia.
      * lia.
      * intros F0 E0 Ho0 HF0. destruct (Hop F0 E0 Ho0 HF0) as [<- _]. split; [done|congruence].
  - right. pose proof Hok as (Hne & Hlen & Hseq). pose proof (copied_count _ _ Hne Hlen) as Hpos.
    assert (Hlog : ∀ x, x ∈ step_log (CopyRun summary full records) → first full.1 ≤ lg_seq x < first full.1 + count full.1).
    { pose proof (copied_lines_up _ _ _ _ _ _ Hr) as [Hfs Hcs]. cbn [step_log]. intros x.
      rewrite !elem_of_app, !elem_of_copy_log, list_elem_of_fmap.
      intros [(i & Hi & ->)|[(i & Hi & ->)|(e & -> & [i Hi]%list_elem_of_lookup)]]; cbn [lg_seq envelope_logged]; [lia..|].
      rewrite (Hseq _ _ Hi). apply lookup_lt_Some in Hi. lia. }
    destruct Hinv as [Hf|(F & E & Ho & HF)].
    + rewrite (copy_run_fresh _ _ _ _ Hf) in Hr.
      destruct (copy_run_spec _ _ _ _ _ _ _ _ Hr Hok (fresh_open _ _ Hf)) as (_ & Ho' & Hf').
      eexists _, _, _. split_and!; [exact Ho'|exact Hf'|exact Hlog|lia|lia|].
      intros F0 E0 _ HF0. by rewrite (fr_first _ Hf) in HF0.
    + destruct (copy_run_spec _ _ _ _ _ _ _ _ Hr Hok Ho) as (HE & Ho' & Hf'). rewrite HE in Hlog.
      pose proof (open_lt _ _ _ _ Ho HF).
      exists E, F, (E + count full.1). split_and!; try done; [lia|lia|]. intros F0 E0 Ho0 HF0.
      destruct (copy_run_spec _ _ _ _ _ _ _ _ Hr Hok Ho0) as (<- & _). split; [done|congruence].
Qed.

(** The items of a build lie between its first and its next record. *)
Definition logged b log : Prop :=
  log_unique log ∧
  (fresh b ∧ log = [] ∨
   ∃ F E, open_at b F E E ∧ b_first b = Some F ∧ ∀ x, x ∈ log → F ≤ lg_seq x < E).

Lemma run_steps_log steps b b' u log :
  run_steps steps b = (b', Ok u) → Forall step_ok steps → logged b log → logged b' (log ++ steps_log steps).
Proof.
  intros Hr Hok. revert b log Hr. induction Hok as [|s steps Hs _ IH]; intros b log; cbn [run_steps steps_log flat_map].
  { intros [= <- _]. by rewrite app_nil_r. }
  intros (b1 & [] & Hs1 & Hr)%M_bind_Ok_inv [Hu Hinv]. fold (steps_log steps). rewrite app_assoc.
  assert (Hrun : run_inv b) by (destruct Hinv as [[? _]|(F & E & ? & ? & _)]; [by left|right; eauto]).
  destruct (step_log_range _ _ _ _ Hs1 Hs Hrun) as [(Hnil & Hfr & Hop)|(n & F & E & Ho & HF & Hrange & Hlt & Hprev)].
  - rewrite Hnil, app_nil_r. eapply IH; [done|]. split; [done|].
    destruct Hinv as [[Hf ->]|(F & E & Ho & HF & Hb)]; [left; auto|right; exists F, E]. destruct (Hop F E Ho HF). auto.
  - assert (Hold : ∀ x, x ∈ log → F ≤ lg_seq x < n).
    { destruct Hinv as [[Hf ->]|(F0 & E0 & Ho0 & HF0 & Hb)]; [by intros x ?%elem_of_nil|].
      by destruct (Hprev F0 E0 Ho0 HF0) as [<- <-]. }
    eapply IH; [done|]. split.
    + eapply (log_unique_app _ _ n); [done|by apply step_log_unique|..]; intros x Hx; [by apply Hold|by apply Hrange].
    + right. exists F, E. split_and!; try done. intros x [Hx%Hold|Hx%Hrange]%elem_of_app; lia.
Qed.

Lemma finish_range srcs b b' body :
  finish srcs b = (b', Ok body) → b_first b = Some (first_sequence body) ∧ last_sequence body = b_last b.
Proof.
  unfold finish. intros Hf. apply M_bind_Ok_inv in Hf as (b0 & self & Hs & Hf). injection Hs as <- <-.
  destruct (b_first b) as [F|] eqn:HF; [|done].
  apply M_bind_Ok_inv in Hf as (b1 & [] & Hf0 & Hf). apply M_bind_Ok_inv in Hf as (b2 & [] & Hf1 & Hf).
  apply M_bind_Ok_inv in Hf as (b3 & [] & Hf2 & Hf). apply M_bind_Ok_inv in Hf as (b4 & self & Hs & Hf).
  injection Hs as <- <-. destruct (bool_decide _); cbn [negb] in Hf; [|done]. injection Hf as <- <-. split; [done|].
  apply flush_spec in Hf0 as [Hr0 _]. apply flush_spec in Hf1 as [Hr1 _]. apply flush_spec in Hf2 as [Hr2 _].
  assert (Hr : rest b3 = rest b) by congruence. by apply rest_inv in Hr as (_ & _ & _ & _ & _ & _ & _ & _ & _ & -> & _).
Qed.

(** The file and the frames [finish] describes. *)
Lemma finish_content log copies number cid keys srcs b b' body :
  finish srcs b = (b', Ok body) → run_inv b → content_ok log copies number cid keys b →
  content_ok log copies number cid keys b'.
Proof.
  unfold finish. intros Hf Hinv Hco. apply M_bind_Ok_inv in Hf as (b0 & self & Hs & Hf). injection Hs as <- <-.
  pose proof (run_inv_base _ Hinv) as Hb. destruct (b_first b); [|done].
  apply M_bind_Ok_inv in Hf as (b1 & [] & Hf0 & Hf). apply M_bind_Ok_inv in Hf as (b2 & [] & Hf1 & Hf).
  apply M_bind_Ok_inv in Hf as (b3 & [] & Hf2 & Hf). apply M_bind_Ok_inv in Hf as (b4 & self & Hs & Hf).
  injection Hs as <- <-. destruct (bool_decide _); cbn [negb] in Hf; [|done]. injection Hf as <- _.
  pose proof (flush_base 0 b b1 _ ltac:(lia) Hb Hf0) as Hb1. pose proof (flush_base 1 b1 b2 _ ltac:(lia) Hb1 Hf1) as Hb2.
  refine (flush_content _ _ _ _ _ 2 b2 b3 _ ltac:(lia) Hb2 Hf2 _).
  refine (flush_content _ _ _ _ _ 1 b1 b2 _ ltac:(lia) Hb1 Hf1 _).
  exact (flush_content _ _ _ _ _ 0 b b1 _ ltac:(lia) Hb Hf0 Hco).
Qed.

(** A build that was finished, with the index and the file it made. *)
Record finished (steps : list BuildStep) (cid : string) (number : N) (keys : gmap string ContentKey)
    (body : SegmentIndexBody) (file : bytes) : Prop := {
  fb_steps : Forall step_ok steps;
  fb_run : ∃ id b b' srcs, length id = 16%nat ∧ run_steps steps (create id cid number keys) = (b, Ok tt) ∧
    finish srcs b = (b', Ok body) ∧ b_out b' = file;
}.

(** What a finished build has in its file: every frame of the index was built
    from the records pushed or copied as it was, no two items of the log are
    of the same record and stream, and all are of records of the segment. *)
Lemma finished_content steps cid number keys body file :
  finished steps cid number keys body file →
  log_unique (steps_log steps) ∧
  (∀ x, x ∈ steps_log steps → first_sequence body ≤ lg_seq x ≤ last_sequence body) ∧
  (∀ f, f ∈ frames body → 0 < count f) ∧
  ∀ f, f ∈ frames body → frame_built (steps_log steps) number cid keys file f ∨
    frame_copied (steps_log steps) (steps_copies steps) file f.
Proof.
  intros [Hok (id & b & b' & srcs & Hid & Hr & Hf & <-)].
  pose proof (create_fresh id cid number keys Hid) as Hfresh.
  pose proof (run_steps_inv _ _ _ _ Hr Hok (or_introl Hfresh)) as Hinv.
  assert (Hl : logged b ([] ++ steps_log steps)).
  { eapply run_steps_log; [exact Hr|done|]. split; [by intros x y ?%elem_of_nil|by left]. }
  destruct Hl as [Hu Hl]. cbn [app] in Hu, Hl. destruct (finish_range _ _ _ _ Hf) as [HF HL].
  destruct (finish_spec _ _ _ _ Hf Hinv) as (Hb & _ & _ & Hfr & _). split_and!; [done| | |].
  - intros x Hx. destruct Hl as [[_ Hnil]|(F & E & Ho & HF' & Hrange)]; [rewrite Hnil in Hx; by apply elem_of_nil in Hx|].
    destruct Ho as [_ _ _ [(_ & Hlast & _)|[? _]]]; [|congruence]. specialize (Hrange x Hx).
    rewrite HF in HF'. injection HF' as <-. lia.
  - intros f. rewrite Hfr. intros Hin. pose proof (bo_frames _ Hb) as Hfs. rewrite Forall_forall in Hfs.
    apply (fo_count _ _ (Hfs f Hin)).
  - rewrite Hfr. eapply co_frames, finish_content; [exact Hf|done|].
    eapply run_steps_content; [exact Hr|done|by left|done|done|].
    split; try done; cbn [create b_buffers b_frames]; [intros slot _; apply empty_buffer_holds|by intros f ?%elem_of_nil].
Qed.
End content.
