(* ===== verification/FrameCache.v ===== *)
(** * Sealed segments: the cache of decompressed frames

    Model of [DecodedFrame] and [FrameCache] in src/src/conversation/segment.rs:
    a process-wide LRU cache bounded by bytes. A lookup and the insertion after
    a load are two critical sections, between which other threads run theirs.
    The LRU map is the [lru] crate, the interface [Lru]: a list of entries, the
    most recently used first. [usize] subtractions are checked. *)
From S2P Require Import Prelude Bytes Channel SegmentIndex.
From Stdlib Require Import Strings.Byte.
Local Open Scope N_scope.

Record DecodedFrame : Type := { df_bytes : bytes; df_items : list (N * N) }.

Definition item (self : DecodedFrame) (index : nat) : option bytes :=
  '(start, stop) ← df_items self !! index;
  if (start <=? stop) && (stop <=? N.of_nat (length (df_bytes self)))
  then Some (take (N.to_nat (stop - start)) (drop (N.to_nat start) (df_bytes self)))
  else None.
(** [size_of::<(u32, u32)>()] is 8. *)
Definition cost (self : DecodedFrame) : N := N.of_nat (length (df_bytes self)) + N.of_nat (length (df_items self)) * 8.

Definition Key : Type := string * N.

Class Lru := {
  lru : Type;
  lru_unbounded : lru;
  lru_iter : lru → list (Key * DecodedFrame);
  lru_get : Key → lru → option DecodedFrame * lru;
  lru_put : Key → DecodedFrame → lru → option DecodedFrame * lru;
  lru_pop : lru → option (Key * DecodedFrame) * lru;
}.

(** The entry of a key, and the entries of the others. *)
Fixpoint entry_of (k : Key) (l : list (Key * DecodedFrame)) : option DecodedFrame :=
  match l with
  | [] => None
  | (k', v) :: l => if decide (k = k') then Some v else entry_of k l
  end.
Definition others (k : Key) (l : list (Key * DecodedFrame)) : list (Key * DecodedFrame) := filter (λ e, e.1 ≠ k) l.

Class LruLaws `{Lru} : Prop := {
  iter_unbounded : lru_iter lru_unbounded = [];
  iter_get k c : (lru_get k c).1 = entry_of k (lru_iter c) ∧
    lru_iter (lru_get k c).2 =
      match entry_of k (lru_iter c) with Some v => (k, v) :: others k (lru_iter c) | None => lru_iter c end;
  iter_put k v c : (lru_put k v c).1 = entry_of k (lru_iter c) ∧
    lru_iter (lru_put k v c).2 = (k, v) :: others k (lru_iter c);
  iter_pop c : (lru_pop c).1 = last (lru_iter c) ∧ lru_iter (lru_pop c).2 = removelast (lru_iter c);
  iter_unique c : NoDup ((lru_iter c).*1);
}.

(** [a - b] on [usize], [None] where it would underflow. *)
Definition usize_sub (a b : N) : option N := if b <=? a then Some (a - b) else None.

Section cache.
Context `{Lru}.

Record FrameCache : Type := { fc_frames : lru; fc_bytes : N; fc_budget : N }.

Definition FrameCache_new (budget : N) : FrameCache :=
  {| fc_frames := lru_unbounded; fc_bytes := 0; fc_budget := budget |}.

(** The loop that evicts; each round removes an entry. *)
Fixpoint evict (fuel : nat) (inner : FrameCache) : option FrameCache :=
  if fc_budget inner <? fc_bytes inner then
    match fuel with
    | O => Some inner
    | S fuel =>
        match lru_pop (fc_frames inner) with
        | (None, frames) => Some {| fc_frames := frames; fc_bytes := fc_bytes inner; fc_budget := fc_budget inner |}
        | (Some (_, evicted), frames) =>
            bytes ← usize_sub (fc_bytes inner) (cost evicted);
            evict fuel {| fc_frames := frames; fc_bytes := bytes; fc_budget := fc_budget inner |}
        end
    end
  else Some inner.

(** The first critical section of [get_or_load]. *)
Definition cache_get (key : Key) (inner : FrameCache) : option DecodedFrame * FrameCache :=
  let '(found, frames) := lru_get key (fc_frames inner) in
  (found, {| fc_frames := frames; fc_bytes := fc_bytes inner; fc_budget := fc_budget inner |}).
(** The second one, after [load]. *)
Definition cache_insert (key : Key) (frame : DecodedFrame) (inner : FrameCache) : option FrameCache :=
  if cost frame <=? fc_budget inner then
    let '(previous, frames) := lru_put key frame (fc_frames inner) in
    bytes ← match previous with Some p => usize_sub (fc_bytes inner) (cost p) | None => Some (fc_bytes inner) end;
    evict (length (lru_iter frames))
      {| fc_frames := frames; fc_bytes := bytes + cost frame; fc_budget := fc_budget inner |}
  else Some inner.

(** [get_or_load] with no other thread in between; the outer [option] is an
    arithmetic underflow. *)
Definition get_or_load (key : Key) (load : result SegmentError DecodedFrame) (inner : FrameCache) :
    option (FrameCache * result SegmentError DecodedFrame) :=
  match cache_get key inner with
  | (Some frame, inner) => Some (inner, Ok frame)
  | (None, inner) =>
      match load with
      | Err e => Some (inner, Err e)
      | Ok frame => inner ← cache_insert key frame inner; Some (inner, Ok frame)
      end
  end.

(** Critical sections of any number of threads. *)
Inductive CacheOp : Type := Lookup (key : Key) | Insert (key : Key) (frame : DecodedFrame).
Definition cache_op (op : CacheOp) (inner : FrameCache) : option FrameCache :=
  match op with
  | Lookup key => Some (cache_get key inner).2
  | Insert key frame => cache_insert key frame inner
  end.
Fixpoint cache_ops (ops : list CacheOp) (inner : FrameCache) : option FrameCache :=
  match ops with [] => Some inner | op :: ops => inner ← cache_op op inner; cache_ops ops inner end.
End cache.

Section facts.
Context `{LruLaws}.
Implicit Types (l : list (Key * DecodedFrame)) (c : FrameCache).

Definition total_cost l : N := foldr (λ e n, cost e.2 + n) 0 l.

(** The byte count is that of the entries, and within the budget. *)
Definition accounted c : Prop := fc_bytes c = total_cost (lru_iter (fc_frames c)).

Lemma total_cost_app l l' : total_cost (l ++ l') = total_cost l + total_cost l'.
Proof. induction l as [|e l IH]; cbn; [done|]. fold (total_cost (l ++ l')) (total_cost l). lia. Qed.

Lemma entry_of_None k l : entry_of k l = None → others k l = l.
Proof.
  unfold others. induction l as [|[k' v] l IH]; [done|]. cbn [entry_of]. case_decide; [done|]. intros ?%IH.
  rewrite filter_cons_True by done. congruence.
Qed.
Lemma entry_of_cost k l v : NoDup (l.*1) → entry_of k l = Some v → total_cost l = cost v + total_cost (others k l).
Proof.
  induction l as [|[k' w] l IH]; [done|]. cbn [entry_of fmap list_fmap]. intros [Hn Hnd]%NoDup_cons.
  unfold others. case_decide as Hk.
  - subst k'. intros [= ->]. rewrite filter_cons_False by naive_solver. fold (others k l).
    assert (others k l = l) as -> by (apply entry_of_None; clear -Hn; induction l as [|[k' w] l IH]; cbn;
      [done|]; rewrite decide_False by (cbn in Hn; set_solver); apply IH; cbn in Hn; set_solver).
    done.
  - intros Hv. rewrite filter_cons_True by done. fold (others k l). cbn. fold (total_cost l) (total_cost (others k l)).
    rewrite (IH Hnd Hv). lia.
Qed.

(** The entries without a key, and the entry of the key if any. *)
Lemma others_cost k l :
  NoDup (l.*1) → total_cost l = (match entry_of k l with Some v => cost v | None => 0 end) + total_cost (others k l).
Proof.
  intros Hnd. destruct (entry_of k l) eqn:E; [by apply entry_of_cost|]. by rewrite (entry_of_None _ _ E).
Qed.

Lemma get_accounted k c : accounted c → accounted (cache_get k c).2 ∧ fc_budget (cache_get k c).2 = fc_budget c.
Proof.
  unfold accounted, cache_get. intros ->. pose proof (iter_get k (fc_frames c)) as [_ Hi].
  destruct (lru_get k (fc_frames c)) as [found frames]. cbn [snd fc_frames fc_bytes fc_budget] in *.
  split; [|done]. rewrite Hi. pose proof (others_cost k _ (iter_unique (fc_frames c))) as Ho.
  destruct (entry_of k _); done.
Qed.

Lemma last_removelast l e : last l = Some e → l = removelast l ++ [e].
Proof. intros Hl. destruct (proj1 (last_Some _ _) Hl) as [l' ->]. by rewrite removelast_last. Qed.

(** Eviction stops within the budget. What it keeps is the front of the list,
    at least as long as any front that fits. *)
Lemma evict_spec fuel c :
  accounted c → (length (lru_iter (fc_frames c)) ≤ fuel)%nat →
  ∃ c' rest, evict fuel c = Some c' ∧ accounted c' ∧ fc_bytes c' ≤ fc_budget c ∧ fc_budget c' = fc_budget c ∧
    lru_iter (fc_frames c) = lru_iter (fc_frames c') ++ rest ∧
    ∀ kept gone, lru_iter (fc_frames c) = kept ++ gone → total_cost kept ≤ fc_budget c → ∃ more, lru_iter (fc_frames c') = kept ++ more.
Proof.
  revert c. induction fuel as [|fuel IH]; intros c Ha Hlen.
  - cbn [evict]. destruct (N.ltb_spec (fc_budget c) (fc_bytes c)) as [Hlt|Hge].
    + rewrite Ha in Hlt. destruct (lru_iter (fc_frames c)); cbn in *; lia.
    + exists c, []. rewrite app_nil_r. split_and!; try done; eauto.
  - cbn [evict]. destruct (N.ltb_spec (fc_budget c) (fc_bytes c)) as [Hlt|Hge].
    2: { exists c, []. rewrite app_nil_r. split_and!; try done; eauto. }
    pose proof (iter_pop (fc_frames c)) as [Hp Hr]. destruct (lru_pop (fc_frames c)) as [o frames]. cbn [fst snd] in *.
    destruct o as [[k v]|].
    2: { symmetry in Hp. apply last_None in Hp. rewrite Ha, Hp in Hlt. cbn in Hlt. lia. }
    symmetry in Hp. pose proof (last_removelast _ _ Hp) as Hl. rewrite <-Hr in Hl. unfold accounted in Ha.
    rewrite Hl, total_cost_app in Ha. cbn [total_cost foldr snd] in Ha. unfold usize_sub.
    rewrite (proj2 (N.leb_le _ _)) by lia. cbn [mbind option_bind].
    destruct (IH {| fc_frames := frames; fc_bytes := fc_bytes c - cost v; fc_budget := fc_budget c |})
      as (c' & rest & He & Ha' & Hb & Hbu & Hrest & Hkeep).
    { unfold accounted. cbn [fc_bytes fc_frames]. fold (total_cost (lru_iter frames)) in *. lia. }
    { rewrite Hl, length_app in Hlen. cbn in Hlen |- *. lia. }
    exists c', (rest ++ [(k, v)]). cbn [fc_frames fc_budget] in *. split_and!; try done.
    + by rewrite app_assoc, <-Hrest.
    + intros kept gone Hkg Hfit. destruct gone as [|x gone' _] using rev_ind.
      * rewrite app_nil_r in Hkg. rewrite <-Hkg, Hl, total_cost_app in Hfit. cbn [total_cost foldr snd] in Hfit.
        fold (total_cost (lru_iter frames)) in *. lia.
      * rewrite Hl, app_assoc in Hkg. apply app_inj_tail in Hkg as [Hkg _]. by eapply Hkeep.
Qed.

(** Inserting keeps the account and the budget; a frame that fits the budget
    is then the most recent one, a larger one is not cached. *)
Lemma insert_spec k v c :
  accounted c → fc_bytes c ≤ fc_budget c →
  ∃ c', cache_insert k v c = Some c' ∧ accounted c' ∧ fc_bytes c' ≤ fc_budget c ∧ fc_budget c' = fc_budget c ∧
    if cost v <=? fc_budget c
    then ∃ kept gone, lru_iter (fc_frames c') = (k, v) :: kept ∧ others k (lru_iter (fc_frames c)) = kept ++ gone
    else c' = c.
Proof.
  intros Ha Hb. unfold cache_insert. destruct (N.leb_spec (cost v) (fc_budget c)) as [Hfit|Hbig]; [|by exists c].
  pose proof (iter_put k v (fc_frames c)) as [Hp Hi]. destruct (lru_put k v (fc_frames c)) as [previous frames].
  cbn [fst snd] in *. pose proof (others_cost k _ (iter_unique (fc_frames c))) as Ho. rewrite <-Hp in Ho.
  unfold accounted in Ha.
  assert (Hprev : match previous with Some p => usize_sub (fc_bytes c) (cost p) | None => Some (fc_bytes c) end =
    Some (total_cost (others k (lru_iter (fc_frames c))))).
  { rewrite Ha, Ho. destruct previous as [p|]; [|done]. unfold usize_sub. rewrite (proj2 (N.leb_le _ _)) by lia.
    f_equal. lia. }
  rewrite Hprev. cbn [mbind option_bind].
  destruct (evict_spec (length (lru_iter frames)) {| fc_frames := frames;
    fc_bytes := total_cost (others k (lru_iter (fc_frames c))) + cost v; fc_budget := fc_budget c |})
    as (c' & rest & He & Ha' & Hb' & Hbu & Hrest & Hkeep); [|done|].
  { unfold accounted. cbn [fc_bytes fc_frames]. rewrite Hi. cbn. fold (total_cost (others k (lru_iter (fc_frames c)))). lia. }
  cbn [fc_frames fc_budget] in *. exists c'. split_and!; try done.
  destruct (Hkeep [(k, v)] (others k (lru_iter (fc_frames c)))) as [more Hm]; [done| |].
  { unfold total_cost. cbn [foldr snd]. lia. }
  exists more, rest. split; [done|]. rewrite Hi, Hm in Hrest. by injection Hrest.
Qed.

Lemma ops_accounted ops c :
  accounted c → fc_bytes c ≤ fc_budget c →
  ∃ c', cache_ops ops c = Some c' ∧ accounted c' ∧ fc_bytes c' ≤ fc_budget c'  ∧ fc_budget c' = fc_budget c.
Proof.
  revert c. induction ops as [|op ops IH]; intros c Ha Hb; [by exists c|]. cbn [cache_ops].
  assert (∃ c1, cache_op op c = Some c1 ∧ accounted c1 ∧ fc_bytes c1 ≤ fc_budget c1 ∧ fc_budget c1 = fc_budget c)
    as (c1 & -> & Ha1 & Hb1 & Hbu1).
  { destruct op as [k|k v]; cbn [cache_op].
    - destruct (get_accounted k c Ha) as [Ha' Hbu]. eexists. split_and!; [done|done| |done]. rewrite Hbu. unfold cache_get.
      by destruct (lru_get _ _).
    - destruct (insert_spec k v c Ha Hb) as (c' & Hc & Ha' & Hb' & Hbu & _). exists c'. by rewrite Hbu. }
  destruct (IH c1 Ha1 Hb1) as (c' & Hc & Ha' & Hb' & Hbu). exists c'. cbn. by rewrite Hbu, Hbu1 in *.
Qed.

(** However the lookups and insertions of any number of readers interleave, the
    cache's byte count is the cost of the frames it holds, no subtraction
    underflows, and the count is within the budget after every critical
    section. *)
Theorem cache_stays_within_budget (budget : N) (ops : list CacheOp) :
  ∃ c, cache_ops ops (FrameCache_new budget) = Some c ∧
    fc_bytes c = total_cost (lru_iter (fc_frames c)) ∧ total_cost (lru_iter (fc_frames c)) ≤ budget.
Proof.
  destruct (ops_accounted ops (FrameCache_new budget)) as (c & Hc & Ha & Hb & Hbu).
  - unfold accounted. cbn. by rewrite iter_unbounded.
  - cbn. lia.
  - exists c. split_and!; [done..|]. rewrite Hbu in Hb. by rewrite <-Ha.
Qed.
End facts.

(** ** Coherence *)
Section coherence.
Context `{LruLaws}.
Implicit Types c : FrameCache.

(** Every cached frame is the one [truth] gives for its key. *)
Definition coherent (truth : Key → option DecodedFrame) c : Prop :=
  ∀ k v, (k, v) ∈ lru_iter (fc_frames c) → truth k = Some v.

Lemma entry_of_in k l v : entry_of k l = Some v → (k, v) ∈ l.
Proof.
  induction l as [|[k' w] l IH]; [done|]. cbn. case_decide; [intros [= ->]; subst; by left|]. intros ?%IH. by right.
Qed.

(** A frame served is the one [truth] gives, cached or loaded, whatever the
    cache holds; the cache stays coherent, accounted and within its budget. *)
Lemma get_or_load_spec truth k load c :
  coherent truth c → accounted c → fc_bytes c ≤ fc_budget c → (∀ v, load = Ok v → truth k = Some v) →
  ∃ c' r, get_or_load k load c = Some (c', r) ∧ coherent truth c' ∧ accounted c' ∧ fc_bytes c' ≤ fc_budget c' ∧
    match r with Ok v => truth k = Some v | Err e => load = Err e end.
Proof.
  intros Hco Ha Hb Hload. unfold get_or_load. destruct (get_accounted k c Ha) as [Ha' Hbu].
  pose proof (iter_get k (fc_frames c)) as [Hf Hi]. unfold cache_get in *.
  destruct (lru_get k (fc_frames c)) as [found frames]. cbn [fst snd fc_bytes fc_budget] in *. rewrite <-Hf in Hi.
  set (c1 := {| fc_frames := frames; fc_bytes := fc_bytes c; fc_budget := fc_budget c |}) in *.
  assert (Hco1 : coherent truth c1).
  { intros k' v' Hin. change (fc_frames c1) with frames in Hin. rewrite Hi in Hin. destruct found as [v|]; [|by apply Hco].
    apply elem_of_cons in Hin as [[= -> ->]|[_ Hin]%list_elem_of_filter]; [|by apply Hco].
    apply Hco, entry_of_in. by rewrite <-Hf. }
  destruct found as [v|].
  { eexists c1, _. split_and!; [done..|]. apply Hco, entry_of_in. by rewrite <-Hf. }
  destruct load as [v|e]; [|by eexists c1, _].
  destruct (insert_spec k v c1 Ha' Hb) as (c2 & Hc2 & Ha2 & Hb2 & Hbu2 & Hcase). rewrite Hc2. cbn [mbind option_bind].
  eexists c2, _. split; [done|]. rewrite Hbu2. split_and!; [|done..|by apply Hload].
  destruct (cost v <=? fc_budget c1); [|by subst]. destruct Hcase as (kept & gone & Hk & Hg).
  intros k' v' Hin. rewrite Hk in Hin. apply elem_of_cons in Hin as [[= -> ->]|Hin]; [by apply Hload|].
  assert (Hin' : (k', v') ∈ others k (lru_iter (fc_frames c1))) by (rewrite Hg; apply elem_of_app; by left).
  apply list_elem_of_filter in Hin' as [_ ?]. by apply Hco1.
Qed.
End coherence.

(** A list without repeated keys is such a cache. *)
Module ListLru.

Lemma others_unique k (l : list (Key * DecodedFrame)) : NoDup (l.*1) → NoDup ((others k l).*1) ∧ k ∉ (others k l).*1.
Proof.
  intros Hnd. split.
  - eapply sublist_NoDup; [exact Hnd|]. apply fmap_sublist, sublist_filter.
  - intros ([k' v] & -> & [Hne _]%list_elem_of_filter)%list_elem_of_fmap. done.
Qed.
Lemma removelast_unique (l : list (Key * DecodedFrame)) : NoDup (l.*1) → NoDup ((removelast l).*1).
Proof.
  destruct l as [|e l _] using rev_ind; [done|]. rewrite removelast_last, fmap_app.
  by intros [? _]%NoDup_app.
Qed.

Definition t : Type := { l : list (Key * DecodedFrame) | NoDup (l.*1) }.
Definition front (k : Key) (v : DecodedFrame) (c : t) : t :=
  exist _ ((k, v) :: others k (`c)) (let '(conj Hnd Hn) := others_unique k (`c) (proj2_sig c) in NoDup_cons_2 _ _ Hn Hnd).

#[export] Instance lru : Lru := {|
  FrameCache.lru := t;
  lru_unbounded := exist _ [] (NoDup_nil_2);
  lru_iter c := `c;
  lru_get k c := match entry_of k (`c) with Some v => (Some v, front k v c) | None => (None, c) end;
  lru_put k v c := (entry_of k (`c), front k v c);
  lru_pop c := (last (`c), exist _ (removelast (`c)) (removelast_unique _ (proj2_sig c)));
|}.
#[export] Instance lru_laws : LruLaws.
Proof.
  split; [done| |done|done|by intros [l Hl]]. intros k c. cbn. by destruct (entry_of k (`c)).
Qed.

(** Two frames of one segment and a budget for one of them. *)
Definition one (b : bytes) : DecodedFrame := {| df_bytes := b; df_items := [(0, 1)] |}.
Lemma cache_stays_within_budget_witness :
  ∃ c, cache_ops [Insert ("s", 60) (one [Byte.x01]); Lookup ("s", 60); Insert ("s", 90) (one [Byte.x02; Byte.x03])]
         (FrameCache_new 12) = Some c ∧
    fc_bytes c = total_cost (lru_iter (fc_frames c)) ∧ total_cost (lru_iter (fc_frames c)) ≤ 12.
Proof. apply (cache_stays_within_budget 12). Defined.
End ListLru.
