(* ===== verification/SegmentReader.v ===== *)
(** * Sealed segments: reading records back

    Model of the reading half of src/src/conversation/segment.rs: [inflate],
    [decode_frame], [load_frame] and [SegmentReader], over the frame cache. A
    [.seg] file is its bytes. serde_json's [Vec<&RawValue>], with the place of
    each value in its text, is the interface [RawValues]. *)
From S2P Require Import Prelude Bytes Text Channel Json JsonObject Model Digest Summary Recipients Keyring Dek HistoryCrypto Record SegmentIndex SegmentBuilder SegmentRun SegmentContent FrameCache.
From stdpp Require Import pretty.
From Stdlib Require Import Strings.Byte Ascii.
Local Open Scope N_scope.

Section frames.
Context `{FrameCodec}.

(** The decoder is asked for [raw + 1] bytes: an error of the stream shows only
    when it ends before that. *)
Definition inflate (compressed : bytes) (raw : N) : result SegmentError bytes :=
  let '(output, complete) := inflate_stream compressed in
  if negb complete && (N.of_nat (length output) <? raw + 1) then Err (Invalid "frame does not decompress")
  else
    let output := take (N.to_nat (raw + 1)) output in
    if N.of_nat (length output) =? raw then Ok output
    else Err (Invalid "frame decompressed to an unexpected length").

(** [(start as u32, end as u32)]. *)
Definition u32_place (p : N * N) : N * N := (SegmentBuilder.as_u32 p.1, SegmentBuilder.as_u32 p.2).

(** The places of the lines, each without its newline. *)
Fixpoint line_places (start index : N) (b : bytes) : list (N * N) :=
  match b with
  | [] => []
  | c :: b =>
      if bool_decide (c = Byte.x0a)
      then u32_place (start, index) :: line_places (index + 1) (index + 1) b
      else line_places start (index + 1) b
  end.

Class RawValues := raw_values : bytes → option (list (N * N)).

Definition decode_frame `{RawValues} (stream : N) (b : bytes) (count : N) : result SegmentError DecodedFrame :=
  items ← (if stream =? STREAM_ENVELOPE then Ok (line_places 0 0 b)
           else match raw_values b with
                | Some items => Ok (u32_place <$> items)
                | None => Err (Invalid "invalid JSON")
                end);
  if N.of_nat (length items) =? count then Ok {| df_bytes := b; df_items := items |}
  else Err (Invalid "frame record count does not match its index").

(** [seek] and [read_exact]. *)
Definition read_stored (file : bytes) (entry : FrameEntry) : result SegmentError bytes :=
  if offset entry + len entry <=? N.of_nat (length file)
  then Ok (take (N.to_nat (len entry)) (drop (N.to_nat (offset entry)) file))
  else Err (Io "failed to fill whole buffer").
Definition read_sealed (file : bytes) (entry : FrameEntry) : result SegmentError bytes :=
  stored ← read_stored file entry;
  if crc32 stored =? crc entry then Ok stored else Err (Invalid "sealed frame checksum mismatch").
Definition load_frame `{RawValues} (file : bytes) (entry : FrameEntry) : result SegmentError DecodedFrame :=
  if bool_decide (is_Some (kid entry)) then Err (Invalid "a sealed frame cannot be read by the daemon")
  else
    stored ← read_stored file entry;
    raw' ← inflate stored (raw entry);
    if crc32 raw' =? crc entry then decode_frame (stream entry) raw' (count entry)
    else Err (Invalid "frame checksum mismatch").
End frames.

(** [format!("{:x}")]. *)
Fixpoint hex_go (fuel : nat) (n : N) (acc : string) : string :=
  match fuel with
  | O => acc
  | S fuel =>
      let acc := String (hex_digit (n mod 16)) acc in
      if n / 16 =? 0 then acc else hex_go fuel (n / 16) acc
  end.
(** A [u64] has at most sixteen digits. *)
Definition lower_hex (n : N) : string := hex_go 16 n "".
Definition frame_id (self : SealedSegment) (frame : FrameEntry) : string :=
  s_segment_id self +:+ "-" +:+ lower_hex (offset frame).

Section reader.
Context `{JsonView} `{!Serde} `{HistoryPrimitives} `{Aead} `{FrameCodec} `{!RawValues} `{Lru}.

(** [SegmentReader]: the segment, its file, the shared cache and the frames at
    hand, per stream. *)
Record SegmentReader : Type := {
  rd_segment : SealedSegment;
  rd_file : bytes;
  rd_conversation_id : string;
  rd_cache : FrameCache;
  rd_current : nat → option (N * DecodedFrame);
}.
(** [SegmentReader::open] of a file that exists. *)
Definition reader_open (segment : SealedSegment) (file : bytes) (conversation_id : string) (cache : FrameCache) :
    SegmentReader :=
  {| rd_segment := segment; rd_file := file; rd_conversation_id := conversation_id; rd_cache := cache;
     rd_current := λ _, None |}.
Definition set_read (cache : FrameCache) (current : nat → option (N * DecodedFrame)) (self : SegmentReader) : SegmentReader :=
  {| rd_segment := rd_segment self; rd_file := rd_file self; rd_conversation_id := rd_conversation_id self;
     rd_cache := cache; rd_current := current |}.

(** Methods of the reader; [None] is an arithmetic underflow. *)
Definition R (A : Type) : Type := SegmentReader → option (SegmentReader * result SegmentError A).
#[export] Instance R_ret : MRet R := λ A a self, Some (self, Ok a).
#[export] Instance R_bind : MBind R := λ A B f m self,
  match m self with
  | Some (self, Ok a) => f a self
  | Some (self, Err e) => Some (self, Err e)
  | None => None
  end.
Definition R_lift {A} (r : result SegmentError A) : R A := λ self, Some (self, r).
Definition R_self : R SegmentReader := λ self, Some (self, Ok self).

Definition entry (stream sequence : N) : R FrameEntry :=
  self ← R_self;
  R_lift (ok_or (frame (rd_segment self) stream sequence) (Invalid ("no frame holds sequence " +:+ pretty sequence))).

(** The frame of [entry], from the cache or the file. *)
Definition frame_loaded (slot : nat) (entry : FrameEntry) : R DecodedFrame := λ self,
  '(cache, r) ← get_or_load (s_segment_id (rd_segment self), offset entry) (load_frame (rd_file self) entry)
                  (rd_cache self);
  Some (match r with
        | Ok frame => set_read cache (λ s, if Nat.eqb s slot then Some (offset entry, frame) else rd_current self s) self
        | Err _ => set_read cache (rd_current self) self
        end, r).
(** ... or the one at hand. *)
Definition frame_current (entry : FrameEntry) : R DecodedFrame := λ self,
  let slot := default 0%nat (stream_slot (stream entry)) in
  match rd_current self slot with
  | Some (off, frame) => if off =? offset entry then Some (self, Ok frame) else frame_loaded slot entry self
  | None => frame_loaded slot entry self
  end.
Definition frame_item (entry : FrameEntry) (sequence : N) : R bytes :=
  frame ← frame_current entry;
  R_lift (ok_or (item frame (N.to_nat (sequence - first entry))) (Invalid ("frame lacks sequence " +:+ pretty sequence))).

Record FrameRef : Type := { fr_id : string; fr_entry : FrameEntry }.
Record SegmentRecord : Type := { sr_event : ConversationEvent; sr_bytes : N; sr_frame : option FrameRef }.

(** The content of a record read from ciphertext kept as it is. *)
Definition passthrough_payload (record : RecordIn) (content : bytes) : result SegmentError Value :=
  match value_from_slice content ≫= as_object with
  | Some encrypted => Ok (object_value (<[ENCRYPTED_FIELD := object_value encrypted]> (r_e record)))
  | None => Err (Invalid "invalid JSON")
  end.
(** [$enc] of a record in a sealed frame. *)
Definition frame_reference (self : SegmentReader) (kid : string) (sequence : N) (summary full : FrameEntry) :
    gmap string Value :=
  let reference := object_value (list_to_map [
    ("s", string_value (frame_id (rd_segment self) summary));
    ("f", string_value (frame_id (rd_segment self) full));
    ("i", u64_value (sequence - first full))]) in
  <["fr" := reference]> (<["n" := u64_value sequence]>
    (<["c" := string_value (rd_conversation_id self)]>
      (<["kid" := string_value kid]> (<["v" := u64_value 1]> ∅)))).

(** The payload of the record, the bytes of its content and the sealed frame
    it is in. *)
Definition record_content (record : RecordIn) (sequence : N) (summary : bool) (full : FrameEntry) :
    R (Value * nat * option FrameRef) :=
  match group full with
  | Plain =>
      content ← frame_item full sequence;
      payload ← R_lift (ok_or (value_from_slice content) (Invalid "invalid JSON"));
      mret (payload, length content, None)
  | Passthrough =>
      at_entry ← (if summary then entry STREAM_SUMMARY sequence else mret full);
      content ← frame_item at_entry sequence;
      payload ← R_lift (passthrough_payload record content);
      mret (payload, length content, None)
  | Sealed kid =>
      summary_entry ← entry STREAM_SUMMARY sequence;
      self ← R_self;
      let encrypted := frame_reference self kid sequence summary_entry full in
      let payload := object_value (<[ENCRYPTED_FIELD := object_value encrypted]> (r_e record)) in
      let at_entry := if summary then summary_entry else full in
      mret (payload, O, Some {| fr_id := frame_id (rd_segment self) at_entry; fr_entry := at_entry |})
  end.
Definition record (sequence : N) (summary : bool) : R SegmentRecord :=
  envelope_entry ← entry STREAM_ENVELOPE sequence;
  envelope ← frame_item envelope_entry sequence;
  record ← R_lift (ok_or (parse_record envelope) (Invalid "invalid JSON"));
  if negb (r_s record =? sequence)
  then R_lift (Err (Invalid ("envelope frame holds sequence " +:+ pretty (r_s record) +:+ " where " +:+
                             pretty sequence +:+ " belongs")))
  else
    full ← entry STREAM_FULL sequence;
    '(payload, content_bytes, frame) ← record_content record sequence summary full;
    self ← R_self;
    event ← R_lift (map_err Invalid (into_event record (rd_conversation_id self) (Some payload)));
    mret {| sr_event := event; sr_bytes := record_bytes (length envelope) content_bytes; sr_frame := frame |}.

Definition event (sequence : N) : R (ConversationEvent * N) :=
  record ← record sequence false;
  mret (sr_event record, sr_bytes record).

(** The members of the wire form of a sealed frame. *)
Definition wire_frame (at_entry : FrameEntry) : R (gmap string Value) :=
  match kid at_entry with
  | None => R_lift (Err (Invalid "only sealed frames are sent as frames"))
  | Some kid =>
      self ← R_self;
      stored ← R_lift (read_sealed (rd_file self) at_entry);
      mret (list_to_map [
        ("kid", string_value kid);
        ("stream", u64_value (HistoryCrypto.as_u32 (content_stream (stream at_entry))));
        ("counter", u64_value (frame_counter (s_number (rd_segment self)) (ordinal at_entry)));
        ("c", string_value (rd_conversation_id self));
        ("ct", string_value (b64_encode stored))])
  end.
End reader.

(** ** Frames decode to their items *)

(** The places of items that are one byte apart. *)
Fixpoint places (start : N) (xs : list bytes) : list (N * N) :=
  match xs with
  | [] => []
  | x :: xs => (start, start + N.of_nat (length x)) :: places (start + N.of_nat (length x) + 1) xs
  end.

(** [text] has the items one after the other, a byte between two. *)
Fixpoint separated (xs : list bytes) (text : bytes) : Prop :=
  match xs with
  | [] => True
  | x :: xs => ∃ rest, text = x ++ rest ∧
      match xs with [] => True | _ => ∃ c rest', rest = c :: rest' ∧ separated xs rest' end
  end.

Lemma places_lookup xs pre text i x :
  separated xs text → xs !! i = Some x →
  ∃ a, places (N.of_nat (length pre)) xs !! i = Some (a, a + N.of_nat (length x)) ∧
    a + N.of_nat (length x) ≤ N.of_nat (length (pre ++ text)) ∧
    take (length x) (drop (N.to_nat a) (pre ++ text)) = x.
Proof.
  revert pre text i. induction xs as [|y xs IH]; intros pre text i; [done|]. cbn [separated places].
  intros (rest & -> & Hrest). destruct i as [|i]; cbn [lookup list_lookup].
  - intros [= ->]. exists (N.of_nat (length pre)). rewrite Nat2N.id, drop_app_length, take_app_length, !length_app.
    split_and!; [done|lia|done].
  - intros Hi. destruct xs as [|z xs]; [done|]. destruct Hrest as (c & rest' & -> & Hsep).
    destruct (IH (pre ++ y ++ [c]) rest' i Hsep Hi) as (a & Hp & Hle & Ht). exists a.
    rewrite <-!app_assoc in Hle, Ht. cbn [app] in Hle, Ht. split_and!; [|done|done].
    replace (N.of_nat (length pre) + N.of_nat (length y) + 1) with (N.of_nat (length (pre ++ y ++ [c])))
      by (rewrite !length_app; cbn [length]; lia). done.
Qed.

Lemma as_u32_small_id n : n < 2 ^ 32 → SegmentBuilder.as_u32 n = n.
Proof. apply N.mod_small. Qed.

Lemma item_of_places pre xs text i x b :
  b = pre ++ text → separated xs text → N.of_nat (length b) < 2 ^ 32 → xs !! i = Some x →
  item {| df_bytes := b; df_items := u32_place <$> places (N.of_nat (length pre)) xs |} i = Some x.
Proof.
  intros -> Hsep Hlen Hi. destruct (places_lookup xs pre text i x Hsep Hi) as (a & Hp & Hle & Ht).
  unfold item. cbn [df_items df_bytes]. rewrite list_lookup_fmap, Hp. cbn. unfold u32_place. cbn [fst snd].
  rewrite !as_u32_small_id by lia. rewrite (proj2 (N.leb_le a _)) by lia. rewrite (proj2 (N.leb_le _ _)) by lia. cbn [andb].
  f_equal. replace (N.to_nat (a + N.of_nat (length x) - a)) with (length x) by lia. done.
Qed.

Lemma length_places start xs : length (places start xs) = length xs.
Proof. revert start. induction xs as [|x xs IH]; intros start; cbn; [done|]. by rewrite IH. Qed.

(** Lines without a newline in them are found. *)
Lemma line_places_line start index x b :
  Byte.x0a ∉ x →
  line_places start index (x ++ Byte.x0a :: b) =
  u32_place (start, index + N.of_nat (length x)) ::
    line_places (index + N.of_nat (length x) + 1) (index + N.of_nat (length x) + 1) b.
Proof.
  revert index. induction x as [|c x IH]; intros index Hn; cbn [app line_places length].
  - rewrite bool_decide_true by done. unfold u32_place. cbn. by rewrite !N.add_0_r.
  - rewrite bool_decide_false by set_solver. rewrite IH by set_solver. unfold u32_place. cbn [fst snd].
    replace (index + 1 + N.of_nat (length x)) with (index + N.of_nat (S (length x))) by lia. done.
Qed.
Lemma line_places_lines start xs :
  Forall (λ x, Byte.x0a ∉ x) xs →
  line_places start start (concat ((λ x, x ++ [Byte.x0a]) <$> xs)) = u32_place <$> places start xs.
Proof.
  intros Hall. revert start. induction Hall as [|x xs Hx _ IH]; intros start; [done|]. cbn [fmap list_fmap concat places].
  rewrite <-app_assoc. cbn [app]. rewrite line_places_line by done. by rewrite IH.
Qed.

Lemma separated_lines xs : separated xs (concat ((λ x, x ++ [Byte.x0a]) <$> xs)).
Proof.
  induction xs as [|x xs IH]; [done|]. cbn [fmap list_fmap concat separated]. rewrite <-app_assoc. eexists. split; [done|].
  destruct xs; [done|]. by eexists _, _.
Qed.
Lemma separated_array x xs tail : separated (x :: xs) ((x ++ concat ((λ i, Byte.x2c :: i) <$> xs)) ++ tail).
Proof.
  revert x. induction xs as [|y xs IH]; intros x; cbn [separated fmap list_fmap concat].
  - cbn. rewrite app_nil_r. by exists tail.
  - rewrite <-!app_assoc. eexists. split; [done|]. cbn [app]. eexists _, _. split; [done|]. rewrite app_assoc. apply IH.
Qed.

(** serde_json's compact text: a line has no newline, and the values of an
    array are where their texts are. *)
Class RawValuesLaws `{JsonView} `{!Serde} `{!RawValues} : Prop := {
  record_no_newline r : Byte.x0a ∉ record_to_vec r;
  raw_values_array vs : vs ≠ [] →
    raw_values (frame_text 1 (value_to_vec <$> vs)) = Some (places 1 (value_to_vec <$> vs));
}.

Section decoding.
Context `{JsonViewLaws} `{!Serde} `{!SerdeLaws} `{!RawValues} `{!RawValuesLaws} `{HistoryPrimitivesLaws} `{AeadLaws}
  `{FrameCodecLaws}.
Implicit Types (f : FrameEntry) (log : list Logged).

(** What is read of an item: a line without its newline, or the item itself. *)
Definition item_shape (slot : nat) (it x : bytes) : Prop :=
  if Nat.eqb slot 0 then it = x ++ [Byte.x0a] ∧ Byte.x0a ∉ x else x = it ∧ ∃ v, it = value_to_vec v.

Lemma decode_text slot items xs n :
  (slot < 3)%nat → Forall2 (item_shape slot) items xs → items ≠ [] → N.of_nat (length items) = n →
  N.of_nat (length (frame_text slot items)) < 2 ^ 32 →
  ∃ df, decode_frame (stream_of slot) (frame_text slot items) n = Ok df ∧ ∀ i x, xs !! i = Some x → item df i = Some x.
Proof.
  intros Hslot Hall Hne Hn Hlen. pose proof (Forall2_length _ _ _ Hall) as Hlx. unfold decode_frame.
  destruct (decide (slot = 0%nat)) as [->|Hs].
  - assert (Hit : items = (λ x, x ++ [Byte.x0a]) <$> xs ∧ Forall (λ x, Byte.x0a ∉ x) xs).
    { clear -Hall. induction Hall as [|it x items xs [-> Hx] _ [-> IH]]; [done|]. split; [done|by constructor]. }
    destruct Hit as [-> Hnl]. change (frame_text 0 ?l) with (concat l ++ []) in *. rewrite app_nil_r in *.
    change (stream_of 0 =? STREAM_ENVELOPE) with true. cbn [mbind result_bind].
    rewrite line_places_lines by done. rewrite length_fmap, length_places, <-Hlx, Hn, N.eqb_refl.
    eexists. split; [done|]. intros i x Hi. by eapply (item_of_places []); [|apply separated_lines|..].
  - assert (Hit : xs = items ∧ ∃ vs, items = value_to_vec <$> vs).
    { clear -Hall Hs. induction Hall as [|it x items xs Hx _ (-> & vs & ->)]; [by split; [|exists []]|].
      unfold item_shape in Hx. rewrite (proj2 (Nat.eqb_neq _ _) Hs) in Hx. destruct Hx as (-> & v & ->).
      split; [done|by exists (v :: vs)]. }
    destruct Hit as (-> & vs & ->).
    assert (Hst : (stream_of slot =? STREAM_ENVELOPE) = false) by (destruct slot as [|[|[|]]]; [done..|lia]).
    assert (Htext : frame_text slot (value_to_vec <$> vs) = frame_text 1 (value_to_vec <$> vs))
      by (destruct slot as [|[|[|]]]; [done..|lia]).
    rewrite Hst, Htext in *. rewrite raw_values_array by by intros ->. cbn [mbind result_bind].
    rewrite length_fmap, length_places, Hn, N.eqb_refl. eexists. split; [done|]. intros i x Hi.
    destruct vs as [|v vs]; [done|]. cbn [fmap list_fmap] in *.
    eapply (item_of_places [Byte.x5b]); [|apply separated_array|done|done]. done.
Qed.

Lemma read_stored_at file f stored :
  stored_at file f stored → N.of_nat (length stored) < 2 ^ 32 → read_stored file f = Ok stored.
Proof.
  intros (Hl & pre & post & -> & Ho) Hlen. unfold read_stored. unfold len_u32 in Hl. rewrite as_u32_small_id in Hl by done.
  rewrite Hl, <-Ho, !length_app, (proj2 (N.leb_le _ _)) by lia. f_equal.
  by rewrite !Nat2N.id, drop_app_length, take_app_length.
Qed.

Lemma inflate_text text : N.of_nat (length text) < 2 ^ 32 → inflate (deflate text) (len_u32 text) = Ok text.
Proof.
  intros Hlen. unfold inflate, len_u32. rewrite inflate_deflate, as_u32_small_id by done. cbn [negb andb].
  rewrite take_ge by lia. by rewrite N.eqb_refl.
Qed.

(** Every item the builder logs is a line or a JSON text. *)
Lemma steps_log_shape steps x it :
  x ∈ steps_log steps → lg_item x = Some it → ∃ y, item_shape (lg_slot x) it y.
Proof.
  unfold steps_log. rewrite list_elem_of_In, in_flat_map. intros (step & _ & Hx) Hit. rewrite <-list_elem_of_In in Hx.
  assert (Henv : ∀ e, ∃ y, item_shape 0 (encode_envelope e ++ [Byte.x0a]) y).
  { intros e. exists (encode_envelope e). split; [done|]. apply record_no_newline. }
  assert (Hval : ∀ slot v, slot ≠ 0%nat → ∃ y, item_shape slot (value_to_vec v) y).
  { intros slot v Hs. eexists. unfold item_shape. rewrite (proj2 (Nat.eqb_neq _ _) Hs). by split; [|eexists]. }
  destruct step as [e|k|e i|summary full records]; cbn [step_log] in Hx; try by apply elem_of_nil in Hx.
  - unfold push_log in Hx. apply elem_of_cons in Hx as [->|Hx]; [injection Hit as <-; apply Henv|].
    destruct i as [p|k p|m|]; cbn [item_texts] in Hx; [| | |by apply elem_of_nil in Hx];
      unfold payload_texts, passthrough_texts in Hx; cbn zeta in Hx;
      apply elem_of_cons in Hx as [->|[->|Hx%elem_of_nil]%elem_of_cons]; try done; injection Hit as <-;
      cbn [lg_slot]; try case_match; by apply Hval.
  - rewrite !elem_of_app, !elem_of_copy_log, list_elem_of_fmap in Hx.
    destruct Hx as [(i & _ & ->)|[(i & _ & ->)|(e & -> & _)]]; [done..|]. injection Hit as <-. apply Henv.
Qed.

Lemma item_shape_inj slot it y y' : item_shape slot it y → item_shape slot it y' → y = y'.
Proof.
  unfold item_shape. destruct (Nat.eqb slot 0).
  - intros [-> _] [E _]. by apply app_inj_tail in E as [? _].
  - by intros [-> _] [-> _].
Qed.

(** Items a [u32] can measure in an array. *)
Definition small_items log : Prop :=
  ∀ x it, x ∈ log → lg_item x = Some it → N.of_nat (length it) + 2 < 2 ^ 32.

(** A frame's text is bounded by what bounds a single item and the buffer. *)
Lemma frame_text_bound log slot g start items bound :
  (∀ x it, x ∈ log → lg_item x = Some it → N.of_nat (length it) + 2 ≤ bound) → FRAME_RAW_BYTES + 2 ≤ bound →
  fits slot items → items_logged log slot start g items →
  N.of_nat (length (frame_text slot items)) ≤ bound.
Proof.
  intros Hsm Hb Hfit Hlog. unfold frame_text. rewrite length_app.
  assert (Htail : (length (if Nat.eqb slot 0 then [] else [Byte.x5d]) ≤ 1)%nat) by (destruct (Nat.eqb slot 0); cbn; lia).
  destruct Hfit as [Hone|Hle]; [|lia].
  destruct items as [|it [|]]; try done. pose proof (Hsm _ it (Hlog 0%nat it eq_refl) eq_refl) as Hs. unfold open_text.
  destruct (Nat.eqb slot 0); cbn [concat fmap list_fmap length]; rewrite ?app_nil_r; cbn [length] in *; lia.
Qed.
Lemma frame_text_small log slot g start items :
  small_items log → fits slot items → items_logged log slot start g items →
  N.of_nat (length (frame_text slot items)) < 2 ^ 32.
Proof.
  intros Hsm Hfit Hlog. cut (N.of_nat (length (frame_text slot items)) ≤ 2 ^ 32 - 1); [lia|].
  eapply frame_text_bound; [|by vm_compute|done|done]. intros x it Hx Hit. specialize (Hsm x it Hx Hit). lia.
Qed.

Lemma stored_at_length file f stored : stored_at file f stored → (length stored ≤ length file)%nat.
Proof. intros (_ & pre & post & -> & _). rewrite !length_app. lia. Qed.

(** The items of a built frame, as they are read. *)
Lemma built_items steps slot start g items :
  items_logged (steps_log steps) slot start g items → ∃ xs, Forall2 (item_shape slot) items xs.
Proof.
  intros Hlog.
  assert (Hall : ∀ it, it ∈ items → ∃ y, item_shape slot it y).
  { intros it [i Hi]%list_elem_of_lookup. by apply (steps_log_shape steps _ it (Hlog i it Hi)). }
  clear Hlog. induction items as [|it items IH]; [by exists []|].
  destruct (Hall it) as [y Hy]; [by left|]. destruct IH as [xs Hxs]; [intros; apply Hall; by right|].
  exists (y :: xs). by constructor.
Qed.

(** A frame the daemon can read loads, and has the item of each of its records
    at its place. *)
Lemma built_loads steps number cid keys file f :
  frame_built (steps_log steps) number cid keys file f → kid f = None → 0 < count f →
  log_unique (steps_log steps) → small_items (steps_log steps) → N.of_nat (length file) < 2 ^ 32 →
  ∃ df, load_frame file f = Ok df ∧
    ∀ x it y, x ∈ steps_log steps → stream f = stream_of (lg_slot x) → (lg_slot x < 3)%nat →
      first f ≤ lg_seq x < first f + count f → lg_item x = Some it → item_shape (lg_slot x) it y →
      item df (N.to_nat (lg_seq x - first f)) = Some y.
Proof.
  intros (slot & items & stored & Hslot & Hst & Hn & Hfit & Hlog & Hat & Hraw & Htext) Hk Hpos Hu Hsm Hfile.
  rewrite Hk in Htext. destruct Htext as [-> Hcrc]. destruct (built_items _ _ _ _ _ Hlog) as [xs Hxs].
  pose proof (frame_text_small _ _ _ _ _ Hsm Hfit Hlog) as Hlen.
  assert (Hne : items ≠ []) by (intros ->; cbn in Hn; lia).
  destruct (decode_text slot items xs (count f) Hslot Hxs Hne Hn Hlen) as (df & Hdf & Hitem). exists df. split.
  - unfold load_frame. rewrite Hk. cbn [bool_decide decide_rel]. rewrite bool_decide_false by by intros [? ?].
    pose proof (stored_at_length _ _ _ Hat). rewrite (read_stored_at _ _ _ Hat) by lia. cbn [mbind result_bind].
    rewrite Hraw, inflate_text by done. cbn [mbind result_bind]. by rewrite Hcrc, N.eqb_refl, Hst.
  - intros x it y Hx Hsx Hlt Hr Hit Hy. assert (lg_slot x = slot) as Hsl by (apply stream_of_inj; congruence).
    set (i := N.to_nat (lg_seq x - first f)). destruct (lookup_lt_is_Some_2 items i) as [it' Hi]; [unfold i; lia|].
    pose proof (Hlog i it' Hi) as Hx'. assert (Heq : x = _) by (apply (Hu _ _ Hx Hx'); [done|unfold i; cbn; lia]).
    rewrite Heq in Hit. injection Hit as <-. destruct (Forall2_lookup_l _ _ _ _ _ Hxs Hi) as (y' & Hy' & Hsh).
    apply Hitem. rewrite Hsl in Hy. by rewrite (item_shape_inj _ _ _ _ Hy Hsh).
Qed.
End decoding.

(** ** Records read back *)
Section reading.
Context `{JsonViewLaws} `{!Serde} `{!SerdeLaws} `{!RawValues} `{!RawValuesLaws} `{HistoryPrimitivesLaws} `{AeadLaws}
  `{FrameCodecLaws} `{LruLaws}.
Implicit Types (f : FrameEntry) (self : SegmentReader).

(** What the cache may hold for this segment: the frames of its file. Entries
    of other segments are keyed by other ids. *)
Definition truthful (truth : Key → option DecodedFrame) self : Prop :=
  ∀ f df, f ∈ s_frames (rd_segment self) → load_frame (rd_file self) f = Ok df →
    truth (s_segment_id (rd_segment self), offset f) = Some df.

Record reader_ok (truth : Key → option DecodedFrame) self : Prop := {
  rk_coherent : coherent truth (rd_cache self);
  rk_accounted : accounted (rd_cache self);
  rk_budget : fc_bytes (rd_cache self) ≤ fc_budget (rd_cache self);
  rk_current slot off df :
    rd_current self slot = Some (off, df) → truth (s_segment_id (rd_segment self), off) = Some df;
}.
(** Another state of the same reader. *)
Definition same_reader self self' : Prop :=
  rd_segment self' = rd_segment self ∧ rd_file self' = rd_file self ∧ rd_conversation_id self' = rd_conversation_id self.

Lemma frame_loaded_ok truth self slot f df :
  reader_ok truth self → truthful truth self → f ∈ s_frames (rd_segment self) → load_frame (rd_file self) f = Ok df →
  ∃ self', frame_loaded slot f self = Some (self', Ok df) ∧ reader_ok truth self' ∧ same_reader self self'.
Proof.
  intros [Hco Hac Hbu Hcu] Htr Hin Hload. pose proof (Htr f df Hin Hload) as Ht. unfold frame_loaded.
  destruct (get_or_load_spec truth (s_segment_id (rd_segment self), offset f) (load_frame (rd_file self) f) (rd_cache self))
    as (c' & r & -> & Hco' & Hac' & Hbu' & Hr); [done..| |].
  { intros v. rewrite Hload. by intros [= <-]. }
  cbn [mbind option_bind]. destruct r as [v|e]; [|congruence]. assert (v = df) as -> by congruence.
  eexists. split; [done|]. split; [|done]. split; cbn [set_read rd_cache rd_current rd_segment]; try done.
  intros s off df'. destruct (Nat.eqb s slot); [|apply Hcu]. by intros [= <- <-].
Qed.

Lemma frame_item_ok truth self f n df x :
  reader_ok truth self → truthful truth self → f ∈ s_frames (rd_segment self) → load_frame (rd_file self) f = Ok df →
  item df (N.to_nat (n - first f)) = Some x →
  ∃ self', frame_item f n self = Some (self', Ok x) ∧ reader_ok truth self' ∧ same_reader self self'.
Proof.
  intros Hok Htr Hin Hload Hx. pose proof (Htr f df Hin Hload) as Ht. unfold frame_item, mbind, R_bind.
  assert (∃ self', frame_current f self = Some (self', Ok df) ∧ reader_ok truth self' ∧ same_reader self self')
    as (self' & -> & Hok' & Hsame).
  { unfold frame_current. set (slot := default 0%nat (stream_slot (stream f))).
    destruct (rd_current self slot) as [[off df']|] eqn:Hc; [|by eapply frame_loaded_ok].
    destruct (N.eqb_spec off (offset f)) as [->|_]; [|by eapply frame_loaded_ok].
    assert (df' = df) as -> by (apply (rk_current _ _ Hok) in Hc; congruence). by exists self. }
  exists self'. unfold R_lift. by rewrite Hx.
Qed.

Section segment.
Variables (steps : list BuildStep) (cid : string) (number : N) (keys : gmap string ContentKey)
  (body : SegmentIndexBody) (file : bytes) (seg : SealedSegment) (truth : Key → option DecodedFrame).
Hypotheses (Hfin : finished steps cid number keys body file) (Hseg : from_body number body = Ok seg)
  (Htyped : body_typed body) (Hsmall : small_items (steps_log steps)) (Hfile : N.of_nat (length file) < 2 ^ 32).

Definition reads self : Prop :=
  rd_segment self = seg ∧ rd_file self = file ∧ rd_conversation_id self = cid ∧ reader_ok truth self ∧ truthful truth self.

Lemma reads_same self self' : reads self → same_reader self self' → reader_ok truth self' → reads self'.
Proof.
  intros (H1' & H2' & H3' & _ & Htr) (E1 & E2 & E3) Hok. unfold reads, truthful in *. rewrite E1, E2, E3.
  by split_and!.
Qed.

(** The frame of an item of the log is built, and has its group. *)
Lemma logged_frame x it :
  x ∈ steps_log steps → lg_item x = Some it → (lg_slot x < 3)%nat →
  ∃ f, frame seg (stream_of (lg_slot x)) (lg_seq x) = Some f ∧ f ∈ frames body ∧ stream f = stream_of (lg_slot x) ∧
    first f ≤ lg_seq x < first f + count f ∧ group f = lg_group x ∧ 0 < count f ∧
    frame_built (steps_log steps) number cid keys file f.
Proof.
  intros Hx Hit Hslot. destruct (finished_content _ _ _ _ _ _ Hfin) as (Hu & Hrange & Hpos & Hfr).
  pose proof (frame_locates number body seg (stream_of (lg_slot x)) (lg_seq x) Hseg Htyped (stream_of_in _ Hslot)) as Hl.
  specialize (Hrange x Hx). rewrite (proj2 (N.leb_le _ _)), (proj2 (N.leb_le _ _)) in Hl by lia. cbn [andb] in Hl.
  destruct Hl as (f & Hf & (Hin & Hst & Hr) & _). exists f.
  assert (Hcase : group f = lg_group x ∧ frame_built (steps_log steps) number cid keys file f).
  { destruct (Hfr f Hin) as [Hb|(slot & entry & stored & Hs & Hst' & _ & _ & _ & Hlog)].
    - split; [|done]. destruct Hb as (slot & items & stored & Hs & Hst' & Hn & _ & Hlog & _).
      assert (lg_slot x = slot) as Hsl by (apply stream_of_inj; congruence).
      destruct (lookup_lt_is_Some_2 items (N.to_nat (lg_seq x - first f))) as [it' Hi]; [lia|].
      pose proof (Hlog _ _ Hi) as Hx'. assert (Heq : x = _) by (apply (Hu _ _ Hx Hx'); [done|cbn; lia]). by rewrite Heq.
    - assert (lg_slot x = slot) as Hsl by (apply stream_of_inj; congruence).
      pose proof (Hlog (lg_seq x) Hr) as Hx'. assert (Heq : x = _) by (apply (Hu _ _ Hx Hx'); done). by rewrite Heq in Hit. }
  destruct Hcase. split_and!; try done; lia.
Qed.

(** An item of the log the daemon can read is read, whatever the cache and
    the reader hold. *)
Lemma item_reads x it y self :
  x ∈ steps_log steps → lg_item x = Some it → (lg_slot x < 3)%nat → is_sealed (lg_group x) = false →
  item_shape (lg_slot x) it y → reads self →
  ∃ f self', frame seg (stream_of (lg_slot x)) (lg_seq x) = Some f ∧ group f = lg_group x ∧
    frame_item f (lg_seq x) self = Some (self', Ok y) ∧ reads self'.
Proof.
  intros Hx Hit Hslot Hg Hy Hself. pose proof Hself as (Hs1 & Hs2 & Hs3 & Hok & Htr).
  destruct (logged_frame x it Hx Hit Hslot) as (f & Hf & Hin & Hst & Hr & Hgf & Hpos & Hbuilt).
  destruct (finished_content _ _ _ _ _ _ Hfin) as (Hu & _).
  assert (Hk : kid f = None).
  { rewrite <-Hgf in Hg. unfold group in Hg. by destruct (kid f). }
  destruct (built_loads _ _ _ _ _ _ Hbuilt Hk Hpos Hu Hsmall Hfile) as (df & Hload & Hitem).
  destruct (from_body_slots _ _ _ Hseg Htyped) as (_ & _ & _ & Hfs & _).
  destruct (frame_item_ok truth self f (lg_seq x) df y Hok Htr) as (self' & Hfi & Hok' & Hsame);
    [by rewrite Hs1, Hfs|by rewrite Hs2|by eapply Hitem|].
  exists f, self'. split_and!; try done. by eapply reads_same.
Qed.

Lemma entry_ok self st n f : reads self → frame seg st n = Some f → entry st n self = Some (self, Ok f).
Proof. intros (Hs & _) Hf. unfold entry, mbind, R_bind, R_self, R_lift. by rewrite Hs, Hf. Qed.

Lemma push_log_in e it x : PushRecord e it ∈ steps → x ∈ push_log e it → x ∈ steps_log steps.
Proof.
  intros Hin Hx. unfold steps_log. rewrite list_elem_of_In, in_flat_map. exists (PushRecord e it).
  split; [by apply list_elem_of_In|by apply list_elem_of_In].
Qed.

(** The envelope of a pushed record is read first. *)
Lemma envelope_reads e it self :
  PushRecord e it ∈ steps → reads self →
  ∃ f self', frame seg STREAM_ENVELOPE (sequence e) = Some f ∧
    frame_item f (sequence e) self = Some (self', Ok (encode_envelope e)) ∧ reads self'.
Proof.
  intros Hin Hself. destruct (item_reads (envelope_logged e) (encode_envelope e ++ [Byte.x0a]) (encode_envelope e) self) as (f & self' & Hf & _ & Hfi & Hr);
    [|done|cbn; lia|done| |done|by exists f, self'].
  - eapply push_log_in; [done|]. by left.
  - split; [done|]. apply record_no_newline.
Qed.

(** Reading a record whose content yields [p]. *)
Lemma record_reads e it p summary self m :
  PushRecord e it ∈ steps → storable e → conversation_id e = cid → reads self →
  (∀ r self1, r_e r = envelope_fields (event_type e) (payload e) → reads self1 →
    ∃ full self2, frame seg STREAM_FULL (sequence e) = Some full ∧
      record_content r (sequence e) summary full self1 = Some (self2, Ok (p, m.1, m.2)) ∧ reads self2) →
  ∃ self', record (sequence e) summary self =
    Some (self', Ok {| sr_event := with_payload e p; sr_bytes := record_bytes (length (encode_envelope e)) m.1;
                       sr_frame := m.2 |}) ∧ reads self'.
Proof.
  intros Hin Hst Hc Hself Hcont. destruct (envelope_reads e it self Hin Hself) as (f & self1 & Hf & Hfi & Hr1).
  destruct (envelope_line_roundtrip e p Hst) as (r & Hparse & Hs & He & Hev).
  destruct (Hcont r self1 He Hr1) as (full & self2 & Hfull & Hrc & Hr2).
  exists self2. split; [|done]. unfold record.
  cbv beta iota delta [mbind R_bind]. rewrite (entry_ok _ _ _ _ Hself Hf), Hfi. unfold R_lift at 1. rewrite Hparse.
  cbn [ok_or]. rewrite Hs, N.eqb_refl. cbn [negb]. rewrite (entry_ok _ _ _ _ Hr1 Hfull), Hrc. unfold R_self, R_lift.
  pose proof Hr2 as (_ & _ & -> & _). rewrite <-Hc, Hev. done.
Qed.

(** The payload a record reads back with, and the bytes of its content. *)
Definition passthrough_part (x : gmap string Value) (summary : bool) : gmap string Value :=
  if summary then if x !! "s" then delete "f" x else x else x.
Definition read_back_as (e : ConversationEvent) (it : Item) (summary : bool) : option (Value * nat) :=
  match it with
  | PlainItem p => Some (p, length (value_to_vec p))
  | PassthroughItem x =>
      let x := object_value (passthrough_part x summary) in
      Some (object_value (<[ENCRYPTED_FIELD := x]> (envelope_fields (event_type e) (payload e))), length (value_to_vec x))
  | _ => None
  end.

Lemma value_shape slot v : slot ≠ 0%nat → item_shape slot (value_to_vec v) (value_to_vec v).
Proof. intros Hs. unfold item_shape. rewrite (proj2 (Nat.eqb_neq _ _) Hs). by split; [|exists v]. Qed.

(** A value of the content streams the daemon can read. *)
Lemma value_reads e it slot g v self :
  PushRecord e it ∈ steps → (slot = 1%nat ∨ slot = 2%nat) → is_sealed g = false → reads self →
  {| lg_slot := slot; lg_seq := sequence e; lg_group := g; lg_item := Some (value_to_vec v) |} ∈ push_log e it →
  ∃ f self', frame seg (stream_of slot) (sequence e) = Some f ∧ group f = g ∧
    frame_item f (sequence e) self = Some (self', Ok (value_to_vec v)) ∧ reads self'.
Proof.
  intros Hin Hs Hg Hself Hl. refine (item_reads _ (value_to_vec v) (value_to_vec v) self
    (push_log_in _ _ _ Hin Hl) eq_refl _ Hg (value_shape slot v _) Hself); cbn; lia.
Qed.

Lemma content_reads e it p m summary r self :
  PushRecord e it ∈ steps → read_back_as e it summary = Some (p, m) →
  r_e r = envelope_fields (event_type e) (payload e) → reads self →
  ∃ full self2, frame seg STREAM_FULL (sequence e) = Some full ∧
    record_content r (sequence e) summary full self = Some (self2, Ok (p, m, None)) ∧ reads self2.
Proof.
  intros Hin Hp Hr Hself. destruct it as [q|k q|x|]; try done; cbn [read_back_as] in Hp; injection Hp as <- <-.
  - destruct (value_reads e _ 2 Plain q self Hin) as (f & self' & Hf & Hg & Hfi & Hr');
      [by right|done|done|by right; right; left|].
    exists f, self'. split_and!; [done| |done]. unfold record_content. rewrite Hg. cbv beta iota delta [mbind R_bind].
    rewrite Hfi. unfold R_lift. by rewrite value_roundtrip.
  - destruct (value_reads e _ 2 Passthrough (object_value (passthrough_part x false)) self Hin)
      as (f & self2 & Hf & Hg & Hfi & Hr2); [by right|done|done|by right; right; left|].
    destruct (value_reads e _ 1 Passthrough (object_value (passthrough_part x true)) self Hin)
      as (f1 & self1 & Hf1 & _ & Hfi1 & Hr1); [by left|done|done|by right; left|].
    change (frame seg STREAM_SUMMARY (sequence e) = Some f1) in Hf1.
    assert (Hparse : ∀ y, passthrough_payload r (value_to_vec (object_value y)) =
      Ok (object_value (<[ENCRYPTED_FIELD := object_value y]> (envelope_fields (event_type e) (payload e))))).
    { intros y. unfold passthrough_payload. rewrite value_roundtrip. cbn [mbind option_bind].
      by rewrite as_object_value, Hr. }
    exists f. unfold record_content. rewrite Hg. cbv beta iota delta [mbind R_bind mret R_ret]. destruct summary.
    + exists self1. split_and!; [done| |done]. rewrite (entry_ok _ _ _ _ Hself Hf1), Hfi1. unfold R_lift. by rewrite Hparse.
    + exists self2. split_and!; [done| |done]. rewrite Hfi. unfold R_lift. by rewrite Hparse.
Qed.

Lemma readable_record e it p m summary self :
  PushRecord e it ∈ steps → storable e → conversation_id e = cid → read_back_as e it summary = Some (p, m) → reads self →
  ∃ self', record (sequence e) summary self =
    Some (self', Ok {| sr_event := with_payload e p; sr_bytes := record_bytes (length (encode_envelope e)) m;
                       sr_frame := None |}) ∧ reads self'.
Proof.
  intros Hin Hst Hc Hp Hself. apply (record_reads e it p summary self (m, None)); try done.
  intros r self1 He Hr1. by apply (content_reads e it).
Qed.

(** A sealed frame holds what a key opens. *)
Lemma built_opens f k :
  frame_built (steps_log steps) number cid keys file f → kid f = Some k →
  ∃ slot items stored key, (slot < 3)%nat ∧ stream f = stream_of slot ∧ N.of_nat (length items) = count f ∧
    items_logged (steps_log steps) slot (first f) (Sealed k) items ∧
    fits slot items ∧ keys !! k = Some key ∧ read_sealed file f = Ok stored ∧
    HistoryCrypto.open key (str_bytes cid) (content_stream (stream f)) (frame_counter number (ordinal f)) stored =
      Ok (deflate (frame_text slot items)).
Proof.
  intros (slot & items & stored & Hslot & Hst & Hn & Hfit & Hlog & Hat & _ & Htext) Hk. rewrite Hk in Htext.
  destruct Htext as (key & Hkey & Hcrc & Hseal). apply group_kid in Hk. rewrite Hk in Hlog.
  exists slot, items, stored, key. split_and!; try done.
  - unfold read_sealed. pose proof (stored_at_length _ _ _ Hat). rewrite (read_stored_at _ _ _ Hat) by lia.
    cbn [mbind result_bind]. by rewrite Hcrc, N.eqb_refl.
  - by apply open_seal.
Qed.

(** The frames of a record pushed under a key: both built, lined up, under it. *)
Lemma sealed_frames e k p :
  PushRecord e (SealedItem k p) ∈ steps →
  ∃ sf ff, frame seg STREAM_SUMMARY (sequence e) = Some sf ∧ frame seg STREAM_FULL (sequence e) = Some ff ∧
    kid sf = Some k ∧ kid ff = Some k ∧ first sf = first ff ∧ first ff ≤ sequence e ∧
    stream sf = STREAM_SUMMARY ∧ stream ff = STREAM_FULL ∧
    frame_built (steps_log steps) number cid keys file sf ∧ frame_built (steps_log steps) number cid keys file ff.
Proof.
  intros Hin.
  destruct (logged_frame {| lg_slot := 1; lg_seq := sequence e; lg_group := Sealed k; lg_item := Some (payload_texts e p).1 |}
    (payload_texts e p).1) as (sf & Hsf & Hsin & Hst1 & Hr1 & Hg1 & _ & Hb1);
    [eapply push_log_in; [exact Hin|]; by right; left|done|cbn; lia|].
  destruct (logged_frame {| lg_slot := 2; lg_seq := sequence e; lg_group := Sealed k; lg_item := Some (payload_texts e p).2 |}
    (payload_texts e p).2) as (ff & Hff & Hfin' & Hst2 & Hr2 & Hg2 & _ & Hb2);
    [eapply push_log_in; [exact Hin|]; by right; right; left|done|cbn; lia|].
  cbn [lg_slot lg_seq lg_group] in *. apply group_kid in Hg1, Hg2.
  change (stream_of 1) with STREAM_SUMMARY in *. change (stream_of 2) with STREAM_FULL in *.
  exists sf, ff. split_and!; try done; [|lia].
  destruct (finished_content _ _ _ _ _ _ Hfin) as (_ & Hrange & _).
  destruct (from_body_slots _ _ _ Hseg Htyped) as (_ & _ & _ & _ & _ & _ & Hpair & _).
  rewrite Forall_forall in Hpair. specialize (Hpair ff Hfin'). rewrite Hg2 in Hpair. specialize (Hpair ltac:(done)).
  unfold paired in Hpair. rewrite Hst2 in Hpair. change (STREAM_FULL =? STREAM_FULL) with true in Hpair. cbv iota in Hpair.
  destruct (frame seg STREAM_SUMMARY (first ff)) as [g|] eqn:Hg; [|done].
  apply andb_true_iff in Hpair as [[E1%N.eqb_eq E2%N.eqb_eq]%andb_true_iff _].
  pose proof (frame_locates number body seg STREAM_SUMMARY (first ff) Hseg Htyped (stream_of_in 1 ltac:(lia))) as Hl.
  pose proof (frame_locates number body seg STREAM_SUMMARY (sequence e) Hseg Htyped (stream_of_in 1 ltac:(lia))) as Hl'.
  destruct (_ && _) in Hl; [|congruence]. destruct Hl as (g' & Hg' & (Hgin & Hgs & _) & _).
  destruct (_ && _) in Hl'; [|congruence]. destruct Hl' as (sf' & Hsf' & _ & Hu).
  assert (g' = g) as -> by congruence. assert (sf' = sf) as -> by congruence.
  assert (g = sf) as -> by (apply Hu; split_and!; [done|done|lia|lia]). congruence.
Qed.

(** A sealed record is read as a reference to its frames. *)
Lemma sealed_record e k p (summary : bool) self :
  PushRecord e (SealedItem k p) ∈ steps → storable e → conversation_id e = cid → reads self →
  ∃ (self' : SegmentReader) sf ff, frame seg STREAM_SUMMARY (sequence e) = Some sf ∧ frame seg STREAM_FULL (sequence e) = Some ff ∧
    let at_entry := if summary then sf else ff in
    record (sequence e) summary self =
      Some (self', Ok {| sr_event := with_payload e (object_value (<[ENCRYPTED_FIELD :=
                           object_value (frame_reference self k (sequence e) sf ff)]>
                           (envelope_fields (event_type e) (payload e))));
                         sr_bytes := record_bytes (length (encode_envelope e)) 0;
                         sr_frame := Some {| fr_id := frame_id seg at_entry; fr_entry := at_entry |} |}) ∧ reads self'.
Proof.
  intros Hin Hst Hc Hself. destruct (sealed_frames e k p Hin) as (sf & ff & Hsf & Hff & Hk1 & Hk2 & _).
  set (at_entry := if summary then sf else ff).
  destruct (record_reads e _ (object_value (<[ENCRYPTED_FIELD := object_value (frame_reference self k (sequence e) sf ff)]>
    (envelope_fields (event_type e) (payload e)))) summary self
    (O, Some {| fr_id := frame_id seg at_entry; fr_entry := at_entry |}) Hin Hst Hc Hself) as (self' & Hrec & Hr').
  - intros r self1 He Hr1. exists ff, self1. split_and!; [done| |done]. unfold record_content.
    rewrite (proj2 (group_kid ff k) Hk2). cbv beta iota delta [mbind R_bind mret R_ret].
    rewrite (entry_ok _ _ _ _ Hr1 Hsf). unfold R_self. rewrite He.
    destruct Hr1 as (E1 & _ & E3 & _), Hself as (E1' & _ & E3' & _). unfold frame_reference. by rewrite E1, E3, E1', E3'.
  - exists self', sf, ff. by split_and!.
Qed.
End segment.

(** Every record of a finished segment that the daemon can read is read back
    as it was pushed: a plaintext record with its payload, a record kept as
    ciphertext with the part of it the detail asks for. This holds for every
    build, whatever flushes split it into frames, and for every state of the
    reader and of the shared cache, which the read leaves coherent. *)
Theorem segment_records_read_back (steps : list BuildStep) (cid : string) (number : N) (keys : gmap string ContentKey)
    (body : SegmentIndexBody) (file : bytes) (seg : SealedSegment) (truth : Key → option DecodedFrame)
    (e : ConversationEvent) (it : Item) (p : Value) (m : nat) (summary : bool) (self : SegmentReader) :
  finished steps cid number keys body file → from_body number body = Ok seg → body_typed body →
  small_items (steps_log steps) → N.of_nat (length file) < 2 ^ 32 →
  PushRecord e it ∈ steps → storable e → conversation_id e = cid → read_back_as e it summary = Some (p, m) →
  reads cid file seg truth self →
  ∃ self', record (sequence e) summary self =
    Some (self', Ok {| sr_event := with_payload e p; sr_bytes := record_bytes (length (encode_envelope e)) m;
                       sr_frame := None |}) ∧ reads cid file seg truth self'.
Proof. intros. by eapply readable_record. Qed.
End reading.

(** ** An example *)

(** The frames of a file, by the offsets of its index. *)
Definition file_truth `{FrameCodec} `{RawValues} (seg : SealedSegment) (file : bytes) (k : Key) : option DecodedFrame :=
  f ← find (λ f, offset f =? k.2) (s_frames seg); ok (load_frame file f).

Lemma file_truthful `{JsonView} `{!Serde} `{FrameCodec} `{!RawValues} `{Lru} (self : SegmentReader) :
  NoDup (offset <$> s_frames (rd_segment self)) → truthful (file_truth (rd_segment self) (rd_file self)) self.
Proof.
  intros Hnd f df Hin Hload. unfold file_truth. cbn [snd].
  assert (find (λ g, offset g =? offset f) (s_frames (rd_segment self)) = Some f) as ->.
  { induction (s_frames (rd_segment self)) as [|g l IH]; [by apply elem_of_nil in Hin|]. cbn [find].
    cbn [fmap list_fmap] in Hnd. apply NoDup_cons in Hnd as [Hg Hnd]. apply elem_of_cons in Hin as [<-|Hin].
    - by rewrite N.eqb_refl.
    - destruct (N.eqb_spec (offset g) (offset f)) as [E|_]; [|by apply IH].
      destruct Hg. rewrite E. by apply list_elem_of_fmap_2. }
  cbn. by rewrite Hload.
Qed.

Lemma reader_open_ok `{JsonView} `{!Serde} `{FrameCodec} `{!RawValues} `{LruLaws} truth seg file cid budget :
  reader_ok truth (reader_open seg file cid (FrameCache_new budget)).
Proof.
  split; unfold coherent, accounted; cbn [reader_open rd_cache FrameCache_new fc_frames fc_bytes fc_budget rd_current];
    rewrite ?iter_unbounded; [by intros k v ?%elem_of_nil|done|lia|done].
Qed.

(** Items within a bound, checked. *)
Definition items_within (bound : N) (log : list Logged) : bool :=
  forallb (λ x, match lg_item x with Some it => N.of_nat (length it) + 2 <=? bound | None => true end) log.
Lemma items_within_spec bound log x it :
  items_within bound log = true → x ∈ log → lg_item x = Some it → N.of_nat (length it) + 2 ≤ bound.
Proof.
  unfold items_within. rewrite forallb_forall. intros Hall Hx%list_elem_of_In Hit. specialize (Hall x Hx).
  rewrite Hit in Hall. by apply N.leb_le in Hall.
Qed.

Module CommaJson.
Import Jv PlainSerde.

(** The pieces between commas. *)
Fixpoint pieces (acc l : bytes) : list bytes :=
  match l with
  | [] => [rev acc]
  | c :: l => if bool_decide (c = Byte.x2c) then rev acc :: pieces [] l else pieces (c :: acc) l
  end.
Definition inner (b : bytes) : bytes := removelast (tail b).

Lemma pieces_head x acc l : Byte.x2c ∉ x → pieces acc (x ++ Byte.x2c :: l) = (rev acc ++ x) :: pieces [] l.
Proof.
  revert acc. induction x as [|c x IH]; intros acc Hx; cbn [app pieces].
  - by rewrite bool_decide_true, app_nil_r.
  - rewrite bool_decide_false by set_solver. rewrite IH by set_solver. cbn. by rewrite <-app_assoc.
Qed.
Lemma pieces_last x acc : Byte.x2c ∉ x → pieces acc x = [rev acc ++ x].
Proof.
  revert acc. induction x as [|c x IH]; intros acc Hx; cbn [pieces]; [by rewrite app_nil_r|].
  rewrite bool_decide_false by set_solver. rewrite IH by set_solver. cbn. by rewrite <-app_assoc.
Qed.
Lemma pieces_join x xs :
  Byte.x2c ∉ x → Forall (λ y, Byte.x2c ∉ y) xs → pieces [] (x ++ concat ((λ i, Byte.x2c :: i) <$> xs)) = x :: xs.
Proof.
  intros Hx Hxs. revert x Hx. induction Hxs as [|y xs Hy _ IH]; intros x Hx; cbn [fmap list_fmap concat].
  - rewrite app_nil_r. by apply pieces_last.
  - cbn [app]. rewrite pieces_head by done. cbn. by rewrite IH.
Qed.
Lemma inner_text x xs : inner (frame_text 1 (x :: xs)) = x ++ concat ((λ i, Byte.x2c :: i) <$> xs).
Proof. unfold inner, frame_text. cbn [open_text Nat.eqb app tail]. apply removelast_last. Qed.

Lemma bits_plain p : Byte.x2c ∉ bits p ∧ Byte.x0a ∉ bits p.
Proof. induction p as [p [IH1 IH2]|p [IH1 IH2]|]; cbn; split; set_solver. Qed.

#[export] Instance raw_values : RawValues := λ b, Some (places 1 (pieces [] (inner b))).
#[export] Instance raw_values_laws : RawValuesLaws.
Proof.
  split.
  - intros r. cbn [record_to_vec serde]. rewrite elem_of_app. intros [Hin|Hin]; [by vm_compute in Hin; set_solver|].
    unfold join in Hin. apply list_elem_of_In, in_concat in Hin as (f & Hf & Hin).
    apply list_elem_of_In in Hf, Hin. apply list_elem_of_fmap in Hf as (g & -> & Hg).
    apply elem_of_app in Hin as [Hin|Hin%list_elem_of_singleton]; [|done].
    unfold line_fields in Hg. elem_cases Hg; by apply (proj2 (bits_plain _)) in Hin.
  - intros [|v vs] Hne; [done|]. unfold SegmentReader.raw_values, raw_values. cbn [fmap list_fmap].
    rewrite inner_text, pieces_join; [done|apply bits_plain|]. apply Forall_fmap, Forall_true. intros w. apply bits_plain.
Qed.
End CommaJson.

Module ReaderExample.
Import Jv PlainSerde PlainAead CommaJson ListLru SegmentExample.
#[local] Existing Instance HistoryCrypto.Example.toy.
#[local] Existing Instance HistoryCrypto.Example.toy_laws.

Definition file : bytes := b_out finished.1.
Definition seg : SealedSegment :=
  match from_body 3 body with
  | Ok seg => seg
  | Err _ => {| s_number := 0; s_first := 0; s_last := 0; s_segment_id := ""; s_frames := []; by_stream := [] |}
  end.
Definition self : SegmentReader := reader_open seg file "c" (FrameCache_new 1000000).

Lemma seg_loads : from_body 3 body = Ok seg.
Proof. destruct body_loads as [s Hs]. unfold seg. rewrite Hs. reflexivity. Qed.
Lemma build_finished : SegmentContent.finished steps "c" 3 {[k := HistoryCrypto.Example.key]} body file.
Proof.
  split; [apply steps_ok|]. exists id, built, finished.1, ["a"].
  split_and!; [done|apply steps_run|apply build_finishes|done].
Qed.
Lemma items_fit : items_within (64 * 1024 * 1024) (steps_log steps) = true.
Proof. vm_compute. reflexivity. Qed.
Lemma items_small : small_items (steps_log steps).
Proof. intros x it Hx Hit. pose proof (items_within_spec _ _ _ _ items_fit Hx Hit). lia. Qed.
Lemma file_small : N.of_nat (length file) < 2 ^ 32.
Proof. vm_compute. reflexivity. Qed.
Lemma self_reads : reads "c" file seg (file_truth seg file) self.
Proof.
  split_and!; [reflexivity|reflexivity|reflexivity|apply reader_open_ok|].
  apply (file_truthful self). apply (bool_decide_unpack _). vm_compute. done.
Qed.

Definition plain : Value := JObj content.
Definition plain_item : Item := PlainItem plain.

Lemma segment_records_read_back_witness :
  ∃ self' n, SegmentReader.record 8 false self = Some (self', Ok {| sr_event := SegmentExample.record 8 (JObj content);
    sr_bytes := n; sr_frame := None |}).
Proof.
  destruct (segment_records_read_back steps "c" 3 {[k := HistoryCrypto.Example.key]} body file seg (file_truth seg file)
    (SegmentExample.record 8 (JObj content)) plain_item plain (length (value_to_vec plain)) false self
    build_finished seg_loads body_is_typed items_small file_small) as (self' & Hr & _).
  - right. right. left.
  - split; reflexivity || discriminate.
  - reflexivity.
  - reflexivity.
  - exact self_reads.
  - eexists self', _. exact Hr.
Defined.
End ReaderExample.
