(* ===== verification/ServerDecrypt.v ===== *)
(** * Reading history on behalf of an API key

    Model of src/src/conversation/server_decrypt.rs: while it serves a request
    of an API key the daemon unwraps the conversation's keys with the key's
    seed and decrypts the events it returns, records of sealed segments through
    the frames sent with them. The keyring it reads is that of [Keyring]. *)
From S2P Require Import Prelude Bytes Channel Json JsonObject Model Digest Summary Recipients Keyring Dek HistoryCrypto Record SegmentIndex SegmentBuilder SegmentRun SegmentContent FrameCache SegmentReader.
From Stdlib Require Import Strings.Byte.
Local Open Scope N_scope.

Definition MAX_FRAME_BYTES : N := 64 * 1024 * 1024.

(** [serde_json::from_slice::<Vec<Value>>]. *)
Class ValueArrays `{Json} := values_from_slice : bytes → option (list Value).
Class ValueArraysLaws `{JsonView} `{!Serde} `{!ValueArrays} : Prop := {
  values_from_array vs : vs ≠ [] → values_from_slice (frame_text 1 (value_to_vec <$> vs)) = Some vs;
}.

Section reader.
Context `{JsonView} `{!Serde} `{!ValueArrays} `{HistoryPrimitives} `{Aead} `{FrameCodec}.

Record HistoryReader : Type := {
  hr_conversation_id : string;
  hr_seed : bytes;
  hr_rid : bytes;
  hr_keys : gmap string (option ContentKey);
}.
Definition HistoryReader_new (conversation_id : string) (seed : bytes) : HistoryReader :=
  {| hr_conversation_id := conversation_id; hr_seed := seed;
     hr_rid := recipient_id (ek_bytes (encapsulation_key seed)); hr_keys := ∅ |}.
Definition set_keys (keys : gmap string (option ContentKey)) (self : HistoryReader) : HistoryReader :=
  {| hr_conversation_id := hr_conversation_id self; hr_seed := hr_seed self; hr_rid := hr_rid self; hr_keys := keys |}.

(** [decode_id::<N>]. *)
Definition decode_id (n : nat) (value : string) : option bytes :=
  b ← b64_decode value; if Nat.eqb (length b) n then Some b else None.

(** The kids an encrypted payload needs. *)
Definition referenced_kids (encrypted frames : gmap string Value) : gset string :=
  let own := match encrypted !! "kid" ≫= as_str with Some kid => {[kid]} | None => ∅ end in
  match encrypted !! "fr" with
  | None => own
  | Some reference =>
      foldl (λ kids key,
        match get reference key ≫= as_str with
        | Some id =>
            match (frames !! id ≫= λ frame, get frame "kid") ≫= as_str with
            | Some kid => {[kid]} ∪ kids
            | None => kids
            end
        | None => kids
        end) own ["f"; "s"]
  end.

(** The key of a keyring entry, if it has a wrap for this reader. The wraps of
    a keyring are deserialized when it is read. *)
Definition entry_key (self : HistoryReader) (entry : KeyEntry) : option ContentKey :=
  wrap ← find (λ w, String.eqb (w_rid w) (b64_encode (hr_rid self))) (wraps entry);
  w ← ok (try_from_json wrap);
  kid ← decode_id KID_LEN (Keyring.kid entry);
  ok (unwrap_with_seed (hr_seed self) w kid).
Definition load_entry (self : HistoryReader) (entry : KeyEntry) : HistoryReader :=
  if hr_keys self !! Keyring.kid entry then self
  else set_keys (<[Keyring.kid entry := entry_key self entry]> (hr_keys self)) self.

(** [load], with what [keyrings().keys(..)] returns. *)
Definition load (kids : gset string) (entries : result AppError (list KeyEntry)) (self : HistoryReader) :
    HistoryReader * result AppError unit :=
  if decide (set_Forall (λ kid, is_Some (hr_keys self !! kid)) kids) then (self, Ok tt)
  else
    match entries with
    | Err e => (self, Err e)
    | Ok entries =>
        let self := foldl load_entry self entries in
        (* [entry(kid).or_insert(None)] for each kid *)
        (set_keys (hr_keys self ∪ gset_to_gmap None kids) self, Ok tt)
    end.

Definition key (self : HistoryReader) (kid : string) : option ContentKey := hr_keys self !! kid ≫= id.

(** [take(MAX_FRAME_BYTES)] of the decoder, [None] where it fails. *)
Definition inflate_up_to (limit : N) (compressed : bytes) : option bytes :=
  let '(output, complete) := inflate_stream compressed in
  if negb complete && (N.of_nat (length output) <? limit) then None
  else Some (take (N.to_nat limit) output).

Definition open_frame (self : HistoryReader) (frame : Value) : option (list Value) :=
  key ← (get frame "kid" ≫= as_str) ≫= key self;
  stream ← get frame "stream" ≫= as_u64;
  stream ← (if stream <? 2 ^ 32 then ok (stream_try_from stream) else None);
  sealed ← (get frame "ct" ≫= as_str) ≫= b64_decode;
  c ← get frame "c" ≫= as_str;
  counter ← get frame "counter" ≫= as_u64;
  compressed ← ok (HistoryCrypto.open key (str_bytes c) stream counter sealed);
  raw ← inflate_up_to MAX_FRAME_BYTES compressed;
  values_from_slice raw.

(** The first of the frames a reference names that is at hand. *)
Definition referenced_frame (reference : Value) (frames : gmap string Value) : option Value :=
  head (omap (λ key, (get reference key ≫= as_str) ≫= λ id, frames !! id) ["f"; "s"]).

Definition decrypt (self : HistoryReader) (event : ConversationEvent) (frames : gmap string Value) : option Value :=
  encrypted ← encrypted_content (payload event);
  match encrypted !! "fr" with
  | Some reference =>
      frame ← referenced_frame reference frames;
      index ← get reference "i" ≫= as_u64;
      items ← open_frame self frame;
      items !! N.to_nat index
  | None =>
      aad_conversation ← encrypted !! "c" ≫= as_str;
      key ← (encrypted !! "kid" ≫= as_str) ≫= key self;
      let '(field, stream) := if encrypted !! "f" then ("f", EventFull) else ("s", EventSummary) in
      sealed ← (encrypted !! field ≫= as_str) ≫= b64_decode;
      n ← encrypted !! "n" ≫= as_u64;
      plaintext ← ok (HistoryCrypto.open key (str_bytes aad_conversation) stream n sealed);
      value_from_slice plaintext
  end.

(** The payload an event is presented with, given its plaintext. *)
Definition presented_payload (stored : Value) (plaintext : option Value) : Value :=
  let payload :=
    match plaintext with
    | Some value => match as_object value with Some map => map | None => {["value" := value]} end
    | None => {["encrypted" := bool_value true]}
    end in
  match as_object stored with
  | Some stored => object_value (payload ∪ delete ENCRYPTED_FIELD stored)
  | None => object_value payload
  end.

(** [present]; a failing [load] is logged. *)
Definition present (event : ConversationEvent) (frames : gmap string Value)
    (entries : result AppError (list KeyEntry)) (self : HistoryReader) : HistoryReader * ConversationEvent :=
  let event := present_event event false in
  match encrypted_content (payload event) with
  | None => (self, event)
  | Some encrypted =>
      let self := (load (referenced_kids encrypted frames) entries self).1 in
      (self, with_payload event (presented_payload (payload event) (decrypt self event frames)))
  end.

(** [titleEnc] of a manifest. *)
Record EncryptedTitle : Type := { te_kid : string; te_ct : string }.
Definition title (title : option string) (title_enc : option EncryptedTitle)
    (entries : result AppError (list KeyEntry)) (self : HistoryReader) : HistoryReader * option string :=
  match title_enc with
  | None => (self, t ← title; if String.eqb t "" then None else Some t)
  | Some t =>
      match load {[te_kid t]} entries self with
      | (self, Err _) => (self, None)
      | (self, Ok _) =>
          (self,
           k ← key self (te_kid t);
           sealed ← b64_decode (te_ct t);
           plaintext ← ok (HistoryCrypto.open k (str_bytes (hr_conversation_id self)) EventFull 0 sealed);
           if utf8_valid plaintext then Some (String.string_of_list_byte plaintext) else None)
      end
  end.
End reader.

(** ** What a key's holder is shown *)
Section presenting.
Context `{JsonViewLaws} `{!Serde} `{!SerdeLaws} `{!ValueArrays} `{!ValueArraysLaws} `{!RawValues} `{!RawValuesLaws}
  `{HistoryPrimitivesLaws} `{AeadLaws} `{FrameCodecLaws} `{LruLaws}.
Implicit Types (hr : HistoryReader) (entries : list KeyEntry).

(** The part of a reader that loading keeps. *)
Definition same_holder hr hr' : Prop :=
  hr_conversation_id hr' = hr_conversation_id hr ∧ hr_seed hr' = hr_seed hr ∧ hr_rid hr' = hr_rid hr.

Lemma entry_key_same hr hr' en : same_holder hr hr' → entry_key hr' en = entry_key hr en.
Proof. intros (_ & E2 & E3). unfold entry_key. by rewrite E2, E3. Qed.

Lemma load_entry_same hr en : same_holder hr (load_entry hr en).
Proof. unfold load_entry. by case_match. Qed.

Lemma load_entries_spec entries hr k (o : option ContentKey) :
  (∀ en, en ∈ entries → Keyring.kid en = k → entry_key hr en = o) →
  let hr' := foldl load_entry hr entries in
  same_holder hr hr' ∧
  hr_keys hr' !! k =
    match hr_keys hr !! k with
    | Some x => Some x
    | None => if bool_decide (k ∈ Keyring.kid <$> entries) then Some o else None
    end.
Proof.
  cbn zeta. revert hr. induction entries as [|en entries IH]; intros hr Hall; cbn [foldl].
  - split; [done|]. by destruct (hr_keys hr !! k).
  - pose proof (load_entry_same hr en) as Hs. destruct (IH (load_entry hr en)) as [Hs' Hk].
    { intros en' Hin Hk. rewrite (entry_key_same _ _ _ Hs). apply Hall; [by right|done]. }
    split.
    { destruct Hs as (E1 & E2 & E3), Hs' as (E1' & E2' & E3'). unfold same_holder. by rewrite E1', E2', E3'. }
    rewrite Hk. cbn [fmap list_fmap]. unfold load_entry. destruct (hr_keys hr !! Keyring.kid en) eqn:Hen.
    + destruct (hr_keys hr !! k) eqn:Hk'; [done|]. erewrite bool_decide_ext; [done|]. rewrite elem_of_cons.
      split; [by right|]. intros [->|]; [congruence|done].
    + cbn [set_keys hr_keys]. destruct (decide (k = Keyring.kid en)) as [->|Hne].
      * rewrite lookup_insert_eq, Hen, bool_decide_true by by left. f_equal. apply Hall; [by left|done].
      * rewrite lookup_insert_ne by done. destruct (hr_keys hr !! k); [done|].
        erewrite bool_decide_ext; [done|]. rewrite elem_of_cons. naive_solver.
Qed.

Lemma own_kid (encrypted frames : gmap string Value) k :
  encrypted !! "kid" ≫= as_str = Some k → k ∈ referenced_kids encrypted frames.
Proof.
  intros Hk. unfold referenced_kids. rewrite Hk. destruct (encrypted !! "fr") as [r|]; [|set_solver].
  cbn [foldl]. repeat case_match; set_solver.
Qed.

(** After a load the key of a kid the seed has a wrap for is at hand. *)
Lemma load_key kids entries hr k ck :
  k ∈ kids → (∀ en, en ∈ entries → Keyring.kid en = k → entry_key hr en = Some ck) → k ∈ Keyring.kid <$> entries →
  hr_keys hr !! k = None ∨ hr_keys hr !! k = Some (Some ck) →
  key (load kids (Ok entries) hr).1 k = Some ck.
Proof.
  intros Hin Hall Hk Hhr. unfold load, key. destruct (decide _) as [Hknown|_].
  - destruct (Hknown k Hin) as [x Hx]. destruct Hhr as [Hn|Hs]; [congruence|]. cbn. by rewrite Hs.
  - cbn [fst set_keys hr_keys]. destruct (load_entries_spec entries hr k (Some ck) Hall) as [_ Hl].
    rewrite bool_decide_true in Hl by done. erewrite lookup_union_Some_l; [done|].
    destruct Hhr as [Hn|Hs]; [by rewrite Hl, Hn|by rewrite Hl, Hs].
Qed.

(** A keyring entry whose wrap was made for this seed gives its key. *)
Lemma wrapped_entry_key cid seed random ck en :
  length (ck_dek ck) = DEK_LEN → length (ck_kid ck) = KID_LEN → Keyring.kid en = b64_encode (ck_kid ck) →
  (∃ w, wrap_key random ck {| rp_key := encapsulation_key seed; rp_rid := recipient_id (ek_bytes (encapsulation_key seed)) |} = Ok w ∧
        find (λ w, String.eqb (w_rid w) (b64_encode (recipient_id (ek_bytes (encapsulation_key seed))))) (wraps en) = Some (to_json w)) →
  entry_key (HistoryReader_new cid seed) en = Some ck.
Proof.
  intros Hd Hkl Hkid (w & Hw & Hfind). destruct (wrap_unwraps seed random ck Hd) as (w' & Hw' & _ & Hj & Hu).
  assert (w' = w) as -> by congruence. unfold entry_key. cbn [HistoryReader_new hr_rid hr_seed]. rewrite Hfind.
  cbn [mbind option_bind]. rewrite Hj. cbn [ok mbind option_bind]. unfold decode_id.
  rewrite Hkid, b64_decode_encode. cbn [mbind option_bind]. rewrite Hkl, Nat.eqb_refl. cbn [mbind option_bind]. by rewrite Hu.
Qed.

(** The envelope repeats members of the payload. *)
Lemma envelope_members t m k : is_Some (envelope_fields t (object_value m) !! k) → is_Some (m !! k).
Proof.
  rewrite lookup_envelope. destruct (String.eqb_spec k "usage") as [->|_]; [destruct (m !! "usage"); [done|by intros [? ?]]|].
  destruct (String.eqb_spec k "control") as [->|_]; [destruct (m !! "control"); [done|by intros [? ?]]|].
  destruct (String.eqb_spec k "block") as [->|_]; [destruct (m !! "block"); [done|by intros [? ?]]|].
  destruct (_ && _); [done|by intros [? ?]].
Qed.

Lemma presented_plaintext t m x :
  presented_payload (sealed_payload t (object_value m) x) (Some (object_value m)) = object_value m.
Proof.
  unfold presented_payload, sealed_payload. rewrite !as_object_value. f_equal. apply map_eq. intros k.
  destruct (m !! k) as [v|] eqn:Hk; [by erewrite lookup_union_Some_l|].
  rewrite lookup_union_r by done. destruct (decide (k = ENCRYPTED_FIELD)) as [->|Hne]; [by rewrite lookup_delete_eq|].
  rewrite lookup_delete_ne, lookup_insert_ne by done.
  destruct (envelope_fields t (object_value m) !! k) as [v|] eqn:He; [|done].
  destruct (envelope_members t m k) as [w Hw]; [by rewrite He|congruence].
Qed.

Lemma inflate_up_to_text text : N.of_nat (length text) ≤ MAX_FRAME_BYTES → inflate_up_to MAX_FRAME_BYTES (deflate text) = Some text.
Proof. intros Hl. unfold inflate_up_to. rewrite inflate_deflate. cbn [negb andb]. by rewrite take_ge by lia. Qed.

(** Records a frame can be opened with. *)
Definition openable_items (log : list Logged) : Prop :=
  ∀ x it, x ∈ log → lg_item x = Some it → N.of_nat (length it) + 2 ≤ MAX_FRAME_BYTES.
Lemma openable_small log : openable_items log → small_items log.
Proof. intros Ho x it Hx Hit. specialize (Ho x it Hx Hit). unfold MAX_FRAME_BYTES in Ho. lia. Qed.

(** The wire form of a sealed frame of a segment. *)
Definition wire_of (number : N) (cid k : string) (f : FrameEntry) (stored : bytes) : gmap string Value :=
  list_to_map [
    ("kid", string_value k);
    ("stream", u64_value (HistoryCrypto.as_u32 (content_stream (stream f))));
    ("counter", u64_value (frame_counter number (ordinal f)));
    ("c", string_value cid);
    ("ct", string_value (b64_encode stored))].

Lemma open_frame_wire hr number cid k f stored ck text vs :
  key hr k = Some ck → ordinal f < 2 ^ 32 →
  HistoryCrypto.open ck (str_bytes cid) (content_stream (stream f)) (frame_counter number (ordinal f)) stored = Ok (deflate text) →
  N.of_nat (length text) ≤ MAX_FRAME_BYTES → values_from_slice text = Some vs →
  open_frame hr (object_value (wire_of number cid k f stored)) = Some vs.
Proof.
  intros Hk Ho Hopen Hlen Hvs. unfold open_frame. rewrite !get_object.
  set (w := wire_of number cid k f stored).
  change (w !! "kid") with (Some (string_value k)).
  change (w !! "stream") with (Some (u64_value (HistoryCrypto.as_u32 (content_stream (stream f))))).
  change (w !! "counter") with (Some (u64_value (frame_counter number (ordinal f)))).
  change (w !! "c") with (Some (string_value cid)). change (w !! "ct") with (Some (string_value (b64_encode stored))).
  pose proof (frame_counter_bound number (ordinal f) Ho) as Hc.
  cbn [mbind option_bind]. rewrite !as_str_value. cbn [mbind option_bind]. rewrite Hk. cbn [mbind option_bind].
  rewrite (as_u64_value (HistoryCrypto.as_u32 _)) by (by destruct (content_stream (stream f)); vm_compute).
  cbn [mbind option_bind]. rewrite (proj2 (N.ltb_lt _ (2 ^ 32))) by apply as_u32_small.
  rewrite stream_try_from_as_u32. cbn [ok mbind option_bind]. rewrite b64_decode_encode. cbn [mbind option_bind].
  rewrite as_u64_value by (unfold U64_MAX; lia). cbn [mbind option_bind]. rewrite Hopen. cbn [ok mbind option_bind].
  rewrite inflate_up_to_text by done. done.
Qed.

Section segment.
Variables (steps : list BuildStep) (cid : string) (number : N) (keys : gmap string ContentKey)
  (body : SegmentIndexBody) (file : bytes) (seg : SealedSegment) (truth : Key → option DecodedFrame).
Hypotheses (Hfin : finished steps cid number keys body file) (Hseg : from_body number body = Ok seg)
  (Htyped : body_typed body) (Hopen : openable_items (steps_log steps)) (Hfile : N.of_nat (length file) < 2 ^ 32).

(** The values of the full frame of a sealed record: the record's is at the
    place the reference gives. *)
Lemma full_frame_values e k p ff :
  PushRecord e (SealedItem k p) ∈ steps → frame seg STREAM_FULL (sequence e) = Some ff →
  ∃ stored ck text vs, keys !! k = Some ck ∧ read_sealed file ff = Ok stored ∧ kid ff = Some k ∧
    HistoryCrypto.open ck (str_bytes cid) (content_stream (stream ff)) (frame_counter number (ordinal ff)) stored =
      Ok (deflate text) ∧
    N.of_nat (length text) ≤ MAX_FRAME_BYTES ∧ values_from_slice text = Some vs ∧
    vs !! N.to_nat (sequence e - first ff) = Some p ∧ ordinal ff < 2 ^ 32 ∧ sequence e < 2 ^ 64.
Proof.
  intros Hin Hff. destruct (finished_content _ _ _ _ _ _ Hfin) as (Hu & Hrange & Hpos & Hfr).
  set (x := {| lg_slot := 2; lg_seq := sequence e; lg_group := Sealed k; lg_item := Some (payload_texts e p).2 |}).
  assert (Hx : x ∈ steps_log steps) by (eapply push_log_in; [exact Hin|]; by right; right; left).
  destruct (logged_frame steps cid number keys body file seg Hfin Hseg Htyped Hfile x _ Hx eq_refl ltac:(cbn; lia))
    as (ff' & Hff' & Hfin' & Hst & Hr & Hg & Hc & Hb). cbn [x lg_slot lg_seq lg_group] in *.
  change (stream_of 2) with STREAM_FULL in Hff'. assert (ff' = ff) as -> by congruence. apply group_kid in Hg as Hk.
  destruct (built_opens steps cid number keys file Hfile ff k Hb Hk)
    as (slot & items & stored & ck & Hslot & Hst' & Hn & Hlog & Hfit & Hkey & Hread & Hop).
  assert (slot = 2%nat) as -> by (apply stream_of_inj; [done|lia|congruence]).
  destruct (built_items _ _ _ _ _ Hlog) as [xs Hxs].
  assert (Hvs : ∃ vs, items = value_to_vec <$> vs).
  { clear -Hxs. induction Hxs as [|it y items xs [_ [v ->]] _ [vs ->]]; [by exists []|by exists (v :: vs)]. }
  destruct Hvs as [vs ->]. rewrite length_fmap in Hn.
  assert (Hlt : (N.to_nat (sequence e - first ff) < length vs)%nat) by lia.
  destruct (lookup_lt_is_Some_2 vs _ Hlt) as [v Hv].
  assert (Hit : (value_to_vec <$> vs) !! N.to_nat (sequence e - first ff) = Some (value_to_vec v)) by by rewrite list_lookup_fmap, Hv.
  pose proof (Hlog _ _ Hit) as Hx'. assert (Heq : x = _) by (apply (Hu _ _ Hx Hx'); [done|cbn; lia]).
  injection Heq as _ Hval. cbn in Hval. apply (f_equal value_from_slice) in Hval. rewrite !value_roundtrip in Hval.
  injection Hval as <-.
  exists stored, ck, (frame_text 2 (value_to_vec <$> vs)), vs. destruct Htyped as [_ _ Hlast Hord].
  rewrite Forall_forall in Hord. specialize (Hrange x Hx). cbn [x lg_seq] in Hrange. split_and!; try done.
  - by eapply frame_text_bound; [exact Hopen|..].
  - apply values_from_array. by intros ->.
  - by apply Hord.
  - lia.
Qed.

(** A sealed record of a segment, sent with its full frame to the holder of an
    API key the record's key was wrapped for, is presented as the plaintext
    event. *)
Lemma presents_sealed e k p m x ff stored frames entries hr :
  PushRecord e (SealedItem k p) ∈ steps → p = object_value m →
  payload e = sealed_payload (event_type e) p (object_value x) →
  frame seg STREAM_FULL (sequence e) = Some ff → read_sealed file ff = Ok stored →
  frames !! frame_id seg ff = Some (object_value (wire_of number cid k ff stored)) →
  (∀ ck, keys !! k = Some ck →
    (∀ en, en ∈ entries → Keyring.kid en = k → entry_key hr en = Some ck) ∧
    (hr_keys hr !! k = None ∨ hr_keys hr !! k = Some (Some ck))) →
  k ∈ Keyring.kid <$> entries →
  ∀ self sf, rd_segment self = seg → rd_conversation_id self = cid →
    let sent := with_payload e (object_value (<[ENCRYPTED_FIELD := object_value (frame_reference self k (sequence e) sf ff)]>
                                                (envelope_fields (event_type e) (payload e)))) in
    (present sent frames (Ok entries) hr).2 = with_payload e p.
Proof.
  intros Hin Hp Hpay Hff Hread Hframes Hkeys Hkid self sf Hs Hcid. cbn zeta.
  destruct (full_frame_values e k p ff Hin Hff) as (stored' & ck & text & vs & Hck & Hread' & _ & Hop & Hlen & Hvs & Hv & Hord & Hseq).
  assert (stored' = stored) as -> by congruence. destruct (Hkeys ck Hck) as [Hall Hhr].
  set (ref := frame_reference self k (sequence e) sf ff).
  assert (Henv : envelope_fields (event_type e) (payload e) = envelope_fields (event_type e) p).
  { rewrite Hpay. apply envelope_idem. }
  rewrite Henv. fold (sealed_payload (event_type e) p (object_value ref)).
  set (sent := with_payload e (sealed_payload (event_type e) p (object_value ref))).
  assert (Henc : encrypted_content (payload sent) = Some ref).
  { unfold encrypted_content, sent, sealed_payload. cbn [with_payload payload].
    rewrite get_object, lookup_insert_eq. cbn [mbind option_bind]. apply as_object_value. }
  assert (Hsent : present_event sent false = sent).
  { unfold present_event. rewrite Henc. change (ref !! "f") with (None : option Value). cbv iota.
    unfold set_encrypted, sent, sealed_payload. cbn [with_payload payload]. rewrite as_object_value.
    unfold with_payload. cbn. by rewrite insert_insert_eq. }
  unfold present. rewrite Hsent, Henc. cbn [snd].
  assert (Hk : key (load (referenced_kids ref frames) (Ok entries) hr).1 k = Some ck).
  { apply load_key; try done. apply own_kid. change (ref !! "kid") with (Some (string_value k)). cbn. apply as_str_value. }
  set (hr' := (load (referenced_kids ref frames) (Ok entries) hr).1) in *.
  assert (Hdec : decrypt hr' sent frames = Some p).
  { unfold decrypt. rewrite Henc. cbn [mbind option_bind].
    set (reference := object_value (list_to_map [("s", string_value (frame_id (rd_segment self) sf));
      ("f", string_value (frame_id (rd_segment self) ff)); ("i", u64_value (sequence e - first ff))])).
    change (ref !! "fr") with (Some reference). cbv iota.
    assert (Hrf : referenced_frame reference frames = Some (object_value (wire_of number cid k ff stored))).
    { unfold referenced_frame, reference. cbn [omap list_omap]. rewrite !get_object.
      match goal with |- context [list_to_map ?l !! "f"] =>
        change (list_to_map l !! "f") with (Some (string_value (frame_id (rd_segment self) ff))) end.
      cbn [mbind option_bind]. rewrite as_str_value. cbn [mbind option_bind]. rewrite Hs, Hframes. done. }
    rewrite Hrf. cbn [mbind option_bind]. unfold reference. rewrite get_object.
    match goal with |- context [list_to_map ?l !! "i"] =>
      change (list_to_map l !! "i") with (Some (u64_value (sequence e - first ff))) end.
    cbn [mbind option_bind]. rewrite as_u64_value by (unfold U64_MAX; lia). cbn [mbind option_bind].
    rewrite (open_frame_wire hr' number cid k ff stored ck text vs) by done. done. }
  assert (Hshow : presented_payload (payload sent) (Some p) = p).
  { change (payload sent) with (sealed_payload (event_type e) p (object_value ref)). rewrite Hp. apply presented_plaintext. }
  by rewrite Hdec, Hshow.
Qed.
End segment.

(** A keyring entry with [ck] wrapped for the holder of [seed]. *)
Definition wrapped_for (seed : bytes) (ck : ContentKey) (en : KeyEntry) : Prop :=
  let rid := recipient_id (ek_bytes (encapsulation_key seed)) in
  ∃ random w, wrap_key random ck {| rp_key := encapsulation_key seed; rp_rid := rid |} = Ok w ∧
    find (λ w, String.eqb (w_rid w) (b64_encode rid)) (wraps en) = Some (to_json w).

(** C4: The holder of an API key reads sealed history as it was written: a record
    pushed into a segment under a data key, read back with its sealed frame
    from the segment's file and presented to a reader for whose seed the
    keyring has that data key wrapped, is the event with its plaintext
    payload, exactly. *)
Theorem api_key_reads_sealed_history (steps : list BuildStep) (cid : string) (number : N)
    (keys : gmap string ContentKey) (body : SegmentIndexBody) (file : bytes) (seg : SealedSegment)
    (truth : Key → option DecodedFrame) (e : ConversationEvent) (ck : ContentKey) (m x : gmap string Value)
    (seed : bytes) (entries : list KeyEntry) (self : SegmentReader) :
  let k := b64_encode (ck_kid ck) in
  let p := object_value m in
  finished steps cid number keys body file → from_body number body = Ok seg → body_typed body →
  openable_items (steps_log steps) → N.of_nat (length file) < 2 ^ 32 →
  PushRecord e (SealedItem k p) ∈ steps → payload e = sealed_payload (event_type e) p (object_value x) →
  storable e → conversation_id e = cid → reads cid file seg truth self →
  keys !! k = Some ck → length (ck_dek ck) = DEK_LEN → length (ck_kid ck) = KID_LEN →
  k ∈ Keyring.kid <$> entries → (∀ en, en ∈ entries → Keyring.kid en = k → wrapped_for seed ck en) →
  ∃ self' sent n ref wire,
    record (sequence e) false self = Some (self', Ok {| sr_event := sent; sr_bytes := n; sr_frame := Some ref |}) ∧
    wire_frame (fr_entry ref) self' = Some (self', Ok wire) ∧
    ∀ frames, frames !! fr_id ref = Some (object_value wire) →
      (present sent frames (Ok entries) (HistoryReader_new cid seed)).2 = with_payload e p.
Proof.
  intros k p Hfin Hseg Htyped Hopen Hfile Hin Hpay Hst Hcid Hself Hkey Hdek Hkl Hkin Hent.
  destruct (sealed_record steps cid number keys body file seg truth Hfin Hseg Htyped (openable_small _ Hopen) Hfile
    e k p false self Hin Hst Hcid Hself) as (self' & sf & ff & Hsf & Hff & Hrec & Hself').
  destruct (full_frame_values steps cid number keys body file seg Hfin Hseg Htyped Hopen Hfile e k p ff Hin Hff)
    as (stored & ck' & _ & _ & _ & Hread & Hkff & _).
  destruct (from_body_slots _ _ _ Hseg Htyped) as (_ & _ & _ & _ & Hnum & _).
  eexists self', _, _, _, (wire_of number cid k ff stored). split_and!; [exact Hrec| |].
  - cbn [fr_entry]. unfold wire_frame. rewrite Hkff. cbv beta iota delta [mbind R_bind R_self R_lift mret R_ret].
    destruct Hself' as (-> & -> & -> & _). rewrite Hread. unfold wire_of. by rewrite Hnum.
  - cbn [fr_id]. intros frames Hfr. destruct Hself as (Hs1 & _ & Hs3 & _).
    eapply (presents_sealed steps cid number keys body file seg Hfin Hseg Htyped Hopen Hfile e k p m x ff stored); try done.
    intros ck0 Hck0. assert (ck0 = ck) as -> by congruence. split; [|by left].
    intros en Hen Hken. destruct (Hent en Hen Hken) as (random & w & Hw & Hfind).
    eapply wrapped_entry_key; [done|done|done|by exists w].
Qed.
End presenting.

(** The example segment, read by the holder of a seed. *)
Module ApiExample.
Import Jv PlainSerde PlainAead CommaJson ListLru SegmentExample ReaderExample.
#[local] Existing Instance HistoryCrypto.Example.toy.
#[local] Existing Instance HistoryCrypto.Example.toy_laws.

#[export] Instance value_arrays : ValueArrays := λ b, mapM value_from_slice (pieces [] (inner b)).
#[export] Instance value_arrays_laws : ValueArraysLaws.
Proof.
  split. intros [|v vs] Hne; [done|]. unfold values_from_slice, value_arrays. cbn [fmap list_fmap].
  rewrite inner_text, pieces_join; [|apply bits_plain|by apply Forall_fmap, Forall_true; intros w; apply bits_plain].
  change (mapM value_from_slice (value_to_vec <$> (v :: vs)) = Some (v :: vs)). clear Hne.
  generalize (v :: vs). intros l. induction l as [|w l IH]; [done|]. cbn [fmap list_fmap mapM].
  rewrite value_roundtrip. cbn [mbind option_bind]. by rewrite IH.
Qed.

Definition seed : bytes := replicate 32 Byte.x05.
Definition entry : KeyEntry :=
  {| Keyring.kid := k; created_at := 0; k_epoch := 1;
     wraps := match wrap_key [Byte.x09] HistoryCrypto.Example.key
                {| rp_key := encapsulation_key seed; rp_rid := recipient_id (ek_bytes (encapsulation_key seed)) |} with
              | Ok w => [to_json w] | Err _ => [] end |}.

Lemma items_openable : openable_items (steps_log steps).
Proof. intros x it Hx Hit. exact (items_within_spec _ _ _ _ items_fit Hx Hit). Qed.
Lemma entry_wrapped : wrapped_for seed HistoryCrypto.Example.key entry.
Proof. eexists [Byte.x09], _. split; [vm_compute; reflexivity|vm_compute; reflexivity]. Qed.

Lemma api_key_reads_sealed_history_witness :
  ∃ self' sent n ref wire,
    SegmentReader.record 9 false self = Some (self', Ok {| sr_event := sent; sr_bytes := n; sr_frame := Some ref |}) ∧
    wire_frame (fr_entry ref) self' = Some (self', Ok wire) ∧
    (present sent {[fr_id ref := object_value wire]} (Ok [entry]) (HistoryReader_new "c" seed)).2 =
      with_payload (sealed 9) (object_value content).
Proof.
  destruct (api_key_reads_sealed_history steps "c" 3 {[k := HistoryCrypto.Example.key]} body file seg
    (file_truth seg file) (sealed 9) HistoryCrypto.Example.key content ∅ seed [entry] self
    build_finished seg_loads body_is_typed items_openable file_small)
    as (self' & sent & n & ref & wire & Hr & Hw & Hp).
  - right. right. right. left.
  - reflexivity.
  - split; reflexivity || discriminate.
  - reflexivity.
  - exact self_reads.
  - apply lookup_singleton_eq.
  - reflexivity.
  - reflexivity.
  - left.
  - intros en Hen _. apply list_elem_of_singleton in Hen as ->. exact entry_wrapped.
  - exists self', sent, n, ref, wire. split; [exact Hr|]. split; [exact Hw|]. apply Hp, lookup_singleton_eq.
Defined.
End ApiExample.
