(* ===== verification/SegmentPlan.v ===== *)
(** * Sealed segments: sealing a journal

    Model of the sealing pass of src/src/conversation/segment.rs: which streaming
    records a segment may strip ([SlimPlan]), how a record is stored given the
    keys at hand ([SealPolicy]), and [build_from_plain], which reads the
    plaintext journal files twice and drives the builder. A journal file is its
    bytes; opening it succeeds. *)
From S2P Require Import Prelude Bytes Text Channel Json JsonObject Model Digest Summary Recipients Keyring Dek HistoryCrypto Record SegmentIndex SegmentBuilder SegmentRun SegmentContent FrameCache SegmentReader.
From stdpp Require Import pretty.
From Stdlib Require Import Strings.Byte.
Local Open Scope N_scope.
Local Open Scope todex_scope.

(** ** Slimming *)
Section slim.
Context `{JsonView}.

Abbreviation Scoped := (gmap (option string * string) N).
Record SlimPlan : Type := { sp_messages : Scoped; sp_tools : Scoped; sp_subagents : gmap string N }.
Definition SlimPlan_default : SlimPlan := {| sp_messages := ∅; sp_tools := ∅; sp_subagents := ∅ |}.

Definition turn_of (payload : Value) : option string :=
  match text payload "turnId" with
  | Some t => Some t
  | None => get payload "block" ≫= λ block, text block "turnId"
  end.
Definition terminal_tool_status (payload : Value) : bool :=
  match text payload "status" with
  | Some s => String.eqb s "completed" || String.eqb s "failed"
  | None => false
  end.
Definition block_id (payload : Value) : option string := get payload "block" ≫= λ block, text block "id".

(** The slot of [k], zero if it is new, raised to [sequence]. *)
Definition raise {K} `{Countable K} (k : K) (sequence : N) (map : gmap K N) : gmap K N :=
  <[k := N.max (default 0 (map !! k)) sequence]> map.
Definition mark (event : ConversationEvent) (id : option string) (map : Scoped) : Scoped :=
  match id with Some id => raise (turn_of (payload event), id) (sequence event) map | None => map end.

Definition superseded (payload : Value) : list Value :=
  default [] ((get payload "block" ≫= λ block, get block "supersedes") ≫= as_array).

Definition observe (self : SlimPlan) (event : ConversationEvent) : SlimPlan :=
  let p := payload event in
  let t := event_type event in
  if String.eqb t "message.completed" then
    let messages := mark event (block_id p) (sp_messages self) in
    {| sp_messages := foldl (λ map id, mark event (as_str id) map) messages (superseded p);
       sp_tools := sp_tools self; sp_subagents := sp_subagents self |}
  else if String.eqb t "tool.completed" || String.eqb t "tool.failed" then
    {| sp_messages := sp_messages self;
       sp_tools := mark event (text p "toolCallId") (mark event (block_id p) (sp_tools self));
       sp_subagents := sp_subagents self |}
  else if String.eqb t "tool.updated" && terminal_tool_status p then
    {| sp_messages := sp_messages self; sp_tools := mark event (text p "toolCallId") (sp_tools self);
       sp_subagents := sp_subagents self |}
  else if String.eqb t "subagent.completed" || String.eqb t "subagent.failed" || String.eqb t "subagent.cancelled" then
    match text p "subagentId" with
    | Some id => {| sp_messages := sp_messages self; sp_tools := sp_tools self;
                    sp_subagents := raise id (sequence event) (sp_subagents self) |}
    | None => self
    end
  else self.

Definition later (terminal : option N) (event : ConversationEvent) : bool :=
  match terminal with Some seq => sequence event <? seq | None => false end.
Definition scoped (map : Scoped) (event : ConversationEvent) (id : option string) : bool :=
  match id with Some id => later (map !! (turn_of (payload event), id)) event | None => false end.

Definition strips (self : SlimPlan) (event : ConversationEvent) : bool :=
  let p := payload event in
  let t := event_type event in
  if get p ENCRYPTED_FIELD then false
  else if String.eqb t "message.delta" then scoped (sp_messages self) event (block_id p)
  else if String.eqb t "tool.updated" then
    negb (terminal_tool_status p) &&
    (scoped (sp_tools self) event (text p "toolCallId") || scoped (sp_tools self) event (block_id p))
  else if String.eqb t "subagent.updated" then
    match text p "subagentId" with Some id => later (sp_subagents self !! id) event | None => false end
  else false.
End slim.

(** ** Storing *)
Section policy.
Context `{JsonView} `{!Serde} `{HistoryPrimitives} `{Aead} `{FrameCodec}.

Record Classified : Type := { cl_stored : ConversationEvent; cl_view : option ConversationEvent; cl_group : FrameGroup }.

(** [keys] are the keys of the [SealPolicy]. *)
Definition classify (keys : gmap string ContentKey) (event : ConversationEvent) (conversation_id : string) : Classified :=
  match encrypted_content (payload event) with
  | Some encrypted =>
      let opened :=
        kid ← encrypted !! "kid" ≫= as_str;
        key ← keys !! kid;
        '(full, _) ← open_event encrypted conversation_id (sequence event) key;
        Some (kid, full) in
      match opened with
      | Some (kid, full) =>
          {| cl_stored := event; cl_view := Some (with_payload event full); cl_group := Sealed kid |}
      | None => {| cl_stored := event; cl_view := None; cl_group := Passthrough |}
      end
  | None => {| cl_stored := event; cl_view := Some event; cl_group := Plain |}
  end.

Definition policy_item (group : FrameGroup) (payload : Value) : Item :=
  match group with
  | Plain => PlainItem payload
  | Sealed kid => SealedItem kid payload
  | Passthrough =>
      match as_object payload with
      | Some map =>
          match map !! ENCRYPTED_FIELD ≫= as_object with
          | Some encrypted => PassthroughItem encrypted
          | None => PlainItem (object_value (delete ENCRYPTED_FIELD map))
          end
      | None => PlainItem payload
      end
  end.

Abbreviation B := (M SegmentBuilder SegmentError).

(** [if let (Sealed(kid), true) = (group, encrypted) { builder.note_repacked(kid) }]. *)
Definition note_if_repacked (group : FrameGroup) (stored : ConversationEvent) : B unit :=
  match group with
  | Sealed kid => if encrypted_content (payload stored) then note_repacked kid else mret tt
  | _ => mret tt
  end.

Definition push_classified (classified : Classified) : B unit :=
  let stored := cl_stored classified in
  match cl_group classified, cl_view classified with
  | Sealed kid, Some view =>
      _ ← note_if_repacked (Sealed kid) stored;
      push stored (SealedItem kid (payload view))
  | group, _ => push stored (policy_item group (payload stored))
  end.

(** ** Reading the journal files *)

Fixpoint split_lines (acc b : bytes) : list bytes :=
  match b with
  | [] => match acc with [] => [] | _ => [rev acc] end
  | c :: b => if bool_decide (c = Byte.x0a) then rev (c :: acc) :: split_lines [] b else split_lines (c :: acc) b
  end.
Definition ascii_whitespace (c : byte) : bool :=
  match c with Byte.x09 | Byte.x0a | Byte.x0c | Byte.x0d | Byte.x20 => true | _ => false end.
Fixpoint trim_start (b : bytes) : bytes :=
  match b with c :: b' => if ascii_whitespace c then trim_start b' else b | [] => [] end.
Definition trim_ascii (b : bytes) : bytes := rev (trim_start (rev (trim_start b))).

(** The loop over the lines of the files; [visit] works on a state. *)
Fixpoint for_each_line {S} (lines : list bytes) (conversation_id : string) (expected : N)
    (visit : ConversationEvent → M S SegmentError unit) : M S SegmentError N :=
  match lines with
  | [] => mret expected
  | line :: lines =>
      match trim_ascii line with
      | [] => for_each_line lines conversation_id expected visit
      | trimmed =>
          match decode_journal_record trimmed conversation_id with
          | Err error =>
              throw (Invalid ("journal record after " +:+ pretty (expected - 1) +:+ " is corrupt: " +:+ error))
          | Ok event =>
              if negb (sequence event =? expected) || negb (String.eqb (Model.conversation_id event) conversation_id)
              then throw (Invalid ("journal record " +:+ pretty (sequence event) +:+ " breaks continuity at " +:+ pretty expected))
              else _ ← visit event; for_each_line lines conversation_id (expected + 1) visit
          end
      end
  end.
Definition for_each_plain_record {S} (files : list bytes) (conversation_id : string) (expected_first : N)
    (visit : ConversationEvent → M S SegmentError unit) : M S SegmentError N :=
  for_each_line (flat_map (split_lines []) files) conversation_id expected_first visit.

(** ** Building *)

Abbreviation Run := (list (ConversationEvent * FrameGroup)).
Definition on_builder {A} (m : B A) : M (SegmentBuilder * Run) SegmentError A :=
  λ s, match m s.1 with (b, r) => ((b, s.2), r) end.

Fixpoint push_markers (start length : N) (run : Run) : B unit :=
  match run with
  | [] => mret tt
  | (original, group) :: run =>
      let marker := compacted_marker original start length in
      _ ← push marker (policy_item group (payload marker));
      push_markers start length run
  end.
(** [flush_run]; the run is drained. *)
Definition flush_run : M (SegmentBuilder * Run) SegmentError unit := λ s,
  match s.2 with
  | [] => (s, Ok tt)
  | (event, _) :: _ =>
      match push_markers (sequence event) (N.of_nat (length s.2)) s.2 s.1 with
      | (b, r) => ((b, []), r)
      end
  end.

(** [run.push((slim, group))]. *)
Definition extend_run (slim : ConversationEvent) (group : FrameGroup) : M (SegmentBuilder * Run) SegmentError unit :=
  λ s, ((s.1, s.2 ++ [(slim, group)]), Ok tt).

Definition stripped (plan : SlimPlan) (classified : Classified) : bool :=
  match cl_view classified with Some view => strips plan view | None => false end.
Definition seal_visit (plan : SlimPlan) (keys : gmap string ContentKey) (conversation_id : string)
    (event : ConversationEvent) : M (SegmentBuilder * Run) SegmentError unit :=
  let classified := classify keys event conversation_id in
  _ ← on_builder (SegmentBuilder.observe (cl_stored classified));
  if stripped plan classified then
    _ ← on_builder (note_if_repacked (cl_group classified) (cl_stored classified));
    extend_run (with_payload (cl_stored classified) null_value) (cl_group classified)
  else
    _ ← flush_run;
    on_builder (push_classified classified).

(** The first pass: the plan. *)
Definition plan_visit (keys : gmap string ContentKey) (conversation_id : string) (event : ConversationEvent) :
    M SlimPlan SegmentError unit := λ plan,
  let classified := classify keys event conversation_id in
  (observe plan (default (cl_stored classified) (cl_view classified)), Ok tt).

(** [build_from_plain], from the random id of the new segment; on success the
    builder has the bytes of the [.seg] file. *)
Definition build_from_plain (id : bytes) (conversation_id : string) (number : N) (sources : list string)
    (files : list bytes) (expected_first : N) (keys : gmap string ContentKey) :
    result SegmentError (SegmentBuilder * SegmentIndexBody) :=
  match for_each_plain_record files conversation_id expected_first (plan_visit keys conversation_id) SlimPlan_default with
  | (_, Err e) => Err e
  | (plan, Ok _) =>
      let builder := create id conversation_id number keys in
      match (_ ← for_each_plain_record files conversation_id expected_first (seal_visit plan keys conversation_id);
             flush_run) (builder, []) with
      | (_, Err e) => Err e
      | (s, Ok _) => match finish sources s.1 with (b, Ok body) => Ok (b, body) | (_, Err e) => Err e end
      end
  end.
End policy.

(** ** What may be stripped *)
Section coverage.
Context `{JsonView}.
Implicit Types (e t : ConversationEvent) (plan : SlimPlan).

(** A record that ends what [e] reports the progress of, by id: the completed
    message of the same block or one that supersedes it, the end of the same
    tool call, the end of the same subagent. Message and tool ids are those of
    the turn. *)
Definition covers (t e : ConversationEvent) : Prop :=
  let p := payload t in
  let q := payload e in
  (event_type e = "message.delta" ∧ event_type t = "message.completed" ∧ turn_of p = turn_of q ∧
     ∃ id, block_id q = Some id ∧ (block_id p = Some id ∨ ∃ v, v ∈ superseded p ∧ as_str v = Some id)) ∨
  (event_type e = "tool.updated" ∧ terminal_tool_status q = false ∧ turn_of p = turn_of q ∧
     ∃ id, (text q "toolCallId" = Some id ∨ block_id q = Some id) ∧
       ((event_type t ∈s ["tool.completed"; "tool.failed"] ∧
           (block_id p = Some id ∨ text p "toolCallId" = Some id)) ∨
        (event_type t = "tool.updated" ∧ terminal_tool_status p = true ∧ text p "toolCallId" = Some id))) ∨
  (event_type e = "subagent.updated" ∧
     event_type t ∈s ["subagent.completed"; "subagent.failed"; "subagent.cancelled"] ∧
     ∃ id, text q "subagentId" = Some id ∧ text p "subagentId" = Some id).

(** What each map of the plan says of the records observed. *)
Definition marks_message (t : ConversationEvent) (k : option string * string) : Prop :=
  event_type t = "message.completed" ∧ turn_of (payload t) = k.1 ∧
  (block_id (payload t) = Some k.2 ∨ ∃ v, v ∈ superseded (payload t) ∧ as_str v = Some k.2).
Definition marks_tool (t : ConversationEvent) (k : option string * string) : Prop :=
  turn_of (payload t) = k.1 ∧
  ((event_type t ∈s ["tool.completed"; "tool.failed"] ∧
      (block_id (payload t) = Some k.2 ∨ text (payload t) "toolCallId" = Some k.2)) ∨
   (event_type t = "tool.updated" ∧ terminal_tool_status (payload t) = true ∧
      text (payload t) "toolCallId" = Some k.2)).
Definition marks_subagent (t : ConversationEvent) (k : string) : Prop :=
  event_type t ∈s ["subagent.completed"; "subagent.failed"; "subagent.cancelled"] ∧
  text (payload t) "subagentId" = Some k.

(** A map whose entries are sequences of records that mark their key. *)
Definition sound {K} `{Countable K} (marks : ConversationEvent → K → Prop) (seen : list ConversationEvent) (map : gmap K N) : Prop :=
  ∀ k n, map !! k = Some n → n = 0 ∨ ∃ t, t ∈ seen ∧ sequence t = n ∧ marks t k.

Lemma sound_raise {K} `{Countable K} (marks : ConversationEvent → K → Prop) seen map t k :
  sound marks seen map → t ∈ seen → marks t k → sound marks seen (raise k (sequence t) map).
Proof.
  intros Hs Ht Hm k' n. unfold raise. destruct (decide (k' = k)) as [->|Hne]; [|rewrite lookup_insert_ne by done; apply Hs].
  rewrite lookup_insert_eq. intros [= <-]. destruct (map !! k) as [m|] eqn:Hk; cbn.
  - destruct (N.max_spec m (sequence t)) as [[_ ->]|[_ ->]]; [right; by exists t|by apply Hs].
  - rewrite N.max_0_l. right. by exists t.
Qed.
Lemma sound_mono {K} `{Countable K} (marks : ConversationEvent → K → Prop) seen seen' map :
  seen ⊆ seen' → sound marks seen map → sound marks seen' map.
Proof. intros Hs Hm k n [->|(t & Ht & Hr)]%Hm; [by left|right; exists t; split; [by apply Hs|done]]. Qed.
Lemma sound_mark marks seen map t id :
  sound marks seen map → t ∈ seen → (∀ i, id = Some i → marks t (turn_of (payload t), i)) → sound marks seen (mark t id map).
Proof. intros Hs Ht Hm. unfold mark. destruct id as [i|]; [|done]. apply sound_raise; auto. Qed.

Definition plan_sound plan seen : Prop :=
  sound marks_message seen (sp_messages plan) ∧ sound marks_tool seen (sp_tools plan) ∧
  sound marks_subagent seen (sp_subagents plan).

Lemma sound_superseded seen map t vs :
  sound marks_message seen map → t ∈ seen → event_type t = "message.completed" → (∀ v, v ∈ vs → v ∈ superseded (payload t)) →
  sound marks_message seen (foldl (λ map id, mark t (as_str id) map) map vs).
Proof.
  intros Hs Ht He. revert map Hs. induction vs as [|v vs IH]; intros map Hs Hv; [done|]. cbn [foldl]. apply IH.
  - apply sound_mark; [done..|]. intros i Hi. split; [done|]. split; [done|]. right. exists v. split; [apply Hv; by left|done].
  - intros w Hw. apply Hv. by right.
Qed.

Lemma observe_sound plan seen t : plan_sound plan seen → plan_sound (observe plan t) (t :: seen).
Proof.
  intros (Hm & Ht & Hs).
  assert (Hsub : seen ⊆ t :: seen) by set_solver. assert (Hin : t ∈ t :: seen) by by left.
  apply (sound_mono _ _ _ _ Hsub) in Hm, Ht, Hs. unfold observe.
  destruct (String.eqb_spec (event_type t) "message.completed") as [He|_].
  { split_and!; [|done|done]. apply sound_superseded; [|done..]. apply sound_mark; [done..|]. intros i Hi. by split_and!; [..|left]. }
  destruct (String.eqb (event_type t) "tool.completed" || String.eqb (event_type t) "tool.failed") eqn:Hdone.
  { assert (Hone : event_type t ∈s ["tool.completed"; "tool.failed"]).
    { unfold one_of. cbn. by rewrite orb_false_r. }
    split_and!; [done| |done]. apply sound_mark; [apply sound_mark; [done..|]|done|];
      intros i Hi; (split; [done|left; split; [done|]]); [by left|by right]. }
  destruct (String.eqb (event_type t) "tool.updated" && terminal_tool_status (payload t)) eqn:Hup.
  { apply andb_true_iff in Hup as [He%String.eqb_eq Hst]. split_and!; [done| |done]. apply sound_mark; [done..|].
    intros i Hi. split; [done|]. by right. }
  destruct (_ || _ || _) eqn:Hsub'; [|by split_and!].
  destruct (text (payload t) "subagentId") as [id|] eqn:Hid; [|by split_and!]. split_and!; [done..|].
  apply sound_raise; [done..|]. split; [|done]. unfold one_of. cbn. by rewrite orb_false_r, orb_assoc.
Qed.

Lemma observe_all_sound events plan seen :
  plan_sound plan seen → plan_sound (foldl observe plan events) (rev events ++ seen).
Proof.
  revert plan seen. induction events as [|t events IH]; intros plan seen Hp; [done|]. cbn [foldl rev].
  rewrite <-app_assoc. cbn [app]. by apply IH, observe_sound.
Qed.

Lemma default_sound : plan_sound SlimPlan_default [].
Proof. split_and!; intros k n; cbn [SlimPlan_default sp_messages sp_tools sp_subagents]; by rewrite lookup_empty. Qed.

Lemma scoped_sound marks seen map e id :
  sound marks seen map → scoped map e id = true →
  ∃ i t, id = Some i ∧ t ∈ seen ∧ sequence e < sequence t ∧ marks t (turn_of (payload e), i).
Proof.
  unfold scoped, later. intros Hs Hsc. destruct id as [i|]; [|done].
  destruct (map !! (turn_of (payload e), i)) as [n|] eqn:Hn; [|done]. apply N.ltb_lt in Hsc.
  destruct (Hs _ _ Hn) as [->|(t & Ht & <- & Hm)]; [lia|]. by exists i, t.
Qed.

Lemma strips_covered plan seen e :
  plan_sound plan seen → strips plan e = true → ∃ t, t ∈ seen ∧ sequence e < sequence t ∧ covers t e.
Proof.
  intros (Hm & Ht & Hs). unfold strips. destruct (get (payload e) ENCRYPTED_FIELD); [done|].
  destruct (String.eqb_spec (event_type e) "message.delta") as [He|_].
  { intros (i & t & Hi & Hin & Hlt & (Hty & Htu & Hid))%(scoped_sound _ _ _ _ _ Hm). exists t. split_and!; [done..|].
    left. split_and!; [done..|]. by exists i. }
  destruct (String.eqb_spec (event_type e) "tool.updated") as [He|_].
  { intros [Hst Hor]%andb_true_iff. apply negb_true_iff in Hst.
    apply orb_true_iff in Hor as [(i & t & Hi & Hin & Hlt & (Htu & Hid))%(scoped_sound _ _ _ _ _ Ht)
      |(i & t & Hi & Hin & Hlt & (Htu & Hid))%(scoped_sound _ _ _ _ _ Ht)];
      (exists t; split_and!; [done..|]; right; left; split_and!; [done..|]; exists i; split; [by (left + right)|done]). }
  destruct (String.eqb_spec (event_type e) "subagent.updated") as [He|_]; [|done].
  destruct (text (payload e) "subagentId") as [id|] eqn:Hid; [|done]. unfold later.
  destruct (sp_subagents plan !! id) as [n|] eqn:Hn; [|done]. intros Hlt%N.ltb_lt.
  destruct (Hs _ _ Hn) as [->|(t & Hin & <- & (Hty & Htid))]; [lia|]. exists t. split_and!; [done..|].
  right; right. split_and!; [done..|]. by exists id.
Qed.

(** A record that covers another is never stripped. *)
Lemma covering_kept plan t e : covers t e → strips plan t = false.
Proof.
  intros Hc. unfold strips. destruct (get (payload t) ENCRYPTED_FIELD); [done|].
  assert (Hty : event_type t = "tool.updated" ∧ terminal_tool_status (payload t) = true ∨
    event_type t ∈s ["message.completed"; "tool.completed"; "tool.failed"; "subagent.completed"; "subagent.failed";
                     "subagent.cancelled"]).
  { destruct Hc as [(_ & -> & _)|[(_ & _ & _ & id & _ & [[Ht' _]|(-> & Hs & _)])|(_ & Ht' & _)]]; [by right| |by left|];
      right; one_of_cases Ht'; reflexivity. }
  destruct Hty as [[-> ->]|Hty]; [done|]. by one_of_cases Hty.
Qed.

Lemma plan_covers views e :
  strips (foldl observe SlimPlan_default views) e = true → ∃ t, t ∈ views ∧ sequence e < sequence t ∧ covers t e.
Proof.
  intros Hst. pose proof (observe_all_sound views _ _ default_sound) as Hp. rewrite app_nil_r in Hp.
  destruct (strips_covered _ _ _ Hp Hst) as (t & Ht & Hlt & Hc). exists t. split_and!; [|done..].
  apply list_elem_of_In, in_rev. by apply list_elem_of_In.
Qed.

(** A record is stripped only when a later record of the segment covers it by
    id, and a record that covers another is never stripped: nothing whose
    result the segment does not hold is dropped. *)
Theorem stripped_records_are_covered (views : list ConversationEvent) (e : ConversationEvent) :
  let plan := foldl observe SlimPlan_default views in
  strips plan e = true →
  ∃ t, t ∈ views ∧ sequence e < sequence t ∧ covers t e ∧ strips plan t = false.
Proof.
  intros plan (t & Ht & Hlt & Hc)%plan_covers. exists t. split_and!; [done..|]. by eapply covering_kept.
Qed.
End coverage.

Module SlimExample.
Import Jv.

Definition tool (n : N) (t : string) : ConversationEvent :=
  {| schema_version := CONVERSATION_SCHEMA_VERSION; sequence := n; event_id := "e"; conversation_id := "c";
     time := 0; event_type := t; normalized_type := None; raw_type := None; provider := None;
     payload := JObj (<["toolCallId" := JStr "x"]> ∅) |}.

Lemma stripped_records_are_covered_witness :
  strips (foldl observe SlimPlan_default [tool 1 "tool.updated"; tool 2 "tool.completed"])
    (tool 1 "tool.updated") = true ∧
  ∃ t, t ∈ [tool 1 "tool.updated"; tool 2 "tool.completed"] ∧ 1 < sequence t ∧
       covers t (tool 1 "tool.updated").
Proof.
  assert (Hs : strips (foldl observe SlimPlan_default [tool 1 "tool.updated"; tool 2 "tool.completed"])
    (tool 1 "tool.updated") = true) by (vm_compute; reflexivity).
  split; [exact Hs|]. destruct (stripped_records_are_covered _ _ Hs) as (t & Ht & Hlt & Hc & _). by exists t.
Defined.
End SlimExample.
