(* ===== verification/SegmentSeal.v ===== *)
(** * Sealed segments: what sealing a journal keeps

    The build of src/src/conversation/segment.rs from plaintext journal files,
    as the sequence of builder calls it makes, and the theorem that joins the
    parts: a sealed journal reads back record by record. *)
From S2P Require Import Prelude Bytes Text Channel Json JsonObject Model Digest Summary Recipients Keyring Dek HistoryCrypto Record SegmentIndex SegmentBuilder SegmentRun SegmentContent FrameCache SegmentReader SegmentPlan.
From stdpp Require Import pretty.
From Stdlib Require Import Strings.Byte.
Local Open Scope N_scope.

Section journal.
Context `{JsonView} `{!Serde}.

(** The records of the lines, dense from [expected] and of the conversation. *)
Fixpoint journal_events (lines : list bytes) (cid : string) (expected : N) : option (list ConversationEvent) :=
  match lines with
  | [] => Some []
  | line :: lines =>
      match trim_ascii line with
      | [] => journal_events lines cid expected
      | trimmed =>
          match decode_journal_record trimmed cid with
          | Err _ => None
          | Ok event =>
              if negb (sequence event =? expected) || negb (String.eqb (conversation_id event) cid) then None
              else (event ::.) <$> journal_events lines cid (expected + 1)
          end
      end
  end.

Fixpoint visit_all {S} (visit : ConversationEvent → M S SegmentError unit) (events : list ConversationEvent) :
    M S SegmentError unit :=
  match events with [] => mret tt | e :: events => _ ← visit e; visit_all visit events end.

(** A pass that succeeds visited the records of the journal, in order. *)
Lemma for_each_visits {S} (lines : list bytes) cid expected (visit : ConversationEvent → M S SegmentError unit) s s' n :
  for_each_line lines cid expected visit s = (s', Ok n) →
  ∃ events, journal_events lines cid expected = Some events ∧ visit_all visit events s = (s', Ok tt).
Proof.
  revert expected s. induction lines as [|line lines IH]; intros expected s; cbn [for_each_line journal_events].
  - intros [= <- _]. by exists [].
  - destruct (trim_ascii line) as [|c trimmed]; [apply IH|].
    destruct (decode_journal_record (c :: trimmed) cid) as [e|]; [|done]. destruct (_ || _); [done|].
    intros (s1 & [] & Hv & Hr)%M_bind_Ok_inv. destruct (IH _ _ Hr) as (events & -> & Hall).
    exists (e :: events). split; [done|]. cbn [visit_all]. by rewrite (M_bind_eq _ _ _ _ _ Hv).
Qed.

(** The records of a journal are consecutive and of its conversation. *)
Definition dense (first : N) (events : list ConversationEvent) : Prop :=
  ∀ i e, events !! i = Some e → sequence e = first + N.of_nat i.
Lemma journal_dense lines cid expected events :
  journal_events lines cid expected = Some events →
  dense expected events ∧ ∀ e, e ∈ events → conversation_id e = cid.
Proof.
  revert expected events. induction lines as [|line lines IH]; intros expected events; cbn [journal_events].
  - intros [= <-]. split; [by intros i e|by intros e ?%elem_of_nil].
  - destruct (trim_ascii line) as [|c trimmed]; [apply IH|].
    destruct (decode_journal_record (c :: trimmed) cid) as [e|]; [|done].
    destruct (N.eqb_spec (sequence e) expected) as [Hs|]; [|done].
    destruct (String.eqb_spec (conversation_id e) cid) as [Hc|]; [|done]. cbn [negb orb].
    destruct (journal_events lines cid (expected + 1)) as [es|] eqn:Hes; [|done]. intros [= <-].
    destruct (IH _ _ Hes) as [Hd Hcid]. split.
    + intros [|i] e'; cbn; [intros [= <-]; lia|]. intros Hi. rewrite (Hd i e' Hi). lia.
    + intros e' [->|Hin]%elem_of_cons; [done|by apply Hcid].
Qed.
End journal.

Section steps.
Context `{JsonView} `{!Serde} `{HistoryPrimitives} `{Aead} `{FrameCodec}.
Implicit Types (keys : gmap string ContentKey) (plan : SlimPlan) (e : ConversationEvent)
  (run : list (ConversationEvent * FrameGroup)).

Definition note_steps (group : FrameGroup) (stored : ConversationEvent) : list BuildStep :=
  match group with
  | Sealed kid => if encrypted_content (payload stored) then [NoteRepacked kid] else []
  | _ => []
  end.
Definition marker_step (start length : N) (x : ConversationEvent * FrameGroup) : BuildStep :=
  let marker := compacted_marker x.1 start length in
  PushRecord marker (policy_item x.2 (payload marker)).
Definition marker_steps run : list BuildStep :=
  match run with
  | [] => []
  | (e, _) :: _ => marker_step (sequence e) (N.of_nat (length run)) <$> run
  end.
Definition classified_item (c : Classified) : Item :=
  match cl_group c, cl_view c with
  | Sealed kid, Some view => SealedItem kid (payload view)
  | group, _ => policy_item group (payload (cl_stored c))
  end.
Definition classified_steps (c : Classified) : list BuildStep :=
  (match cl_view c with Some _ => note_steps (cl_group c) (cl_stored c) | None => [] end)
  ++ [PushRecord (cl_stored c) (classified_item c)].

(** A stripped record of a run: its marker has no payload of the record. *)
Definition slim (c : Classified) : ConversationEvent * FrameGroup :=
  (with_payload (cl_stored c) null_value, cl_group c).

(** The builder calls of the second pass. *)
Fixpoint seal_steps plan keys (cid : string) run (events : list ConversationEvent) : list BuildStep :=
  match events with
  | [] => marker_steps run
  | e :: events =>
      let c := classify keys e cid in
      Observe (cl_stored c) ::
      (if stripped plan c
       then note_steps (cl_group c) (cl_stored c) ++ seal_steps plan keys cid (run ++ [slim c]) events
       else marker_steps run ++ classified_steps c ++ seal_steps plan keys cid [] events)
  end.

Lemma run_steps_app l1 l2 b b1 b2 u u' :
  run_steps l1 b = (b1, Ok u) → run_steps l2 b1 = (b2, Ok u') → run_steps (l1 ++ l2) b = (b2, Ok u').
Proof.
  revert b. induction l1 as [|s l1 IH]; intros b; cbn [run_steps app]; [by intros [= <- _]|].
  intros (b0 & [] & Hs & Hr)%M_bind_Ok_inv Hr2. rewrite (M_bind_eq _ _ _ _ _ Hs). by apply IH.
Qed.

Lemma on_builder_inv {A} (m : M SegmentBuilder SegmentError A) s s' a :
  on_builder m s = (s', Ok a) → m s.1 = (s'.1, Ok a) ∧ s'.2 = s.2.
Proof. unfold on_builder. destruct (m s.1) as [b r]. by intros [= <- ->]. Qed.

Lemma note_runs group stored b b' u :
  note_if_repacked group stored b = (b', Ok u) → run_steps (note_steps group stored) b = (b', Ok tt).
Proof.
  unfold note_if_repacked, note_steps. destruct group as [| |kid]; [by intros [= <- _]..|].
  destruct (encrypted_content (payload stored)); [|by intros [= <- _]]. intros [= <- _]. done.
Qed.

Lemma markers_run start len run b b' u :
  push_markers start len run b = (b', Ok u) → run_steps (marker_step start len <$> run) b = (b', Ok tt).
Proof.
  revert b. induction run as [|[o g] run IH]; intros b; cbn [push_markers fmap list_fmap run_steps]; [by intros [= <- _]|].
  intros (b1 & [] & Hp & Hr)%M_bind_Ok_inv. cbn [run_step marker_step fst snd]. rewrite (M_bind_eq _ _ _ _ _ Hp). by apply IH.
Qed.

Lemma flush_run_runs s s' u :
  flush_run s = (s', Ok u) → run_steps (marker_steps s.2) s.1 = (s'.1, Ok tt) ∧ s'.2 = [].
Proof.
  unfold flush_run, marker_steps. destruct s as [b run]. cbn [fst snd]. destruct run as [|[e g] run]; [by intros [= <- _]|].
  destruct (push_markers _ _ _ b) as [b1 r] eqn:Hp. intros [= <- ->]. split; [by eapply markers_run|done].
Qed.

Lemma classified_runs c b b' u :
  push_classified c b = (b', Ok u) → run_steps (classified_steps c) b = (b', Ok tt).
Proof.
  unfold push_classified, classified_steps, classified_item.
  assert (Hone : ∀ item b0, push (cl_stored c) item b0 = (b', Ok u) → run_steps [PushRecord (cl_stored c) item] b0 = (b', Ok tt)).
  { intros item b0 Hp. cbn [run_steps run_step]. rewrite (M_bind_eq _ _ _ _ _ Hp). done. }
  destruct (cl_group c) as [| |kid], (cl_view c) as [view|]; cbn [note_steps app]; try apply Hone.
  intros (b1 & [] & Hn & Hp)%M_bind_Ok_inv. eapply run_steps_app; [exact (note_runs (Sealed kid) _ _ _ _ Hn)|by apply Hone].
Qed.

Lemma seal_pass plan keys cid events s s1 s' u u' :
  visit_all (seal_visit plan keys cid) events s = (s1, Ok u) → flush_run s1 = (s', Ok u') →
  run_steps (seal_steps plan keys cid s.2 events) s.1 = (s'.1, Ok tt).
Proof.
  revert s. induction events as [|e events IH]; intros s; cbn [visit_all seal_steps].
  { intros [= <- _] Hf. by apply (flush_run_runs _ _ _ Hf). }
  intros (s2 & [] & Hv & Hr)%M_bind_Ok_inv Hf. unfold seal_visit in Hv.
  apply M_bind_Ok_inv in Hv as (s3 & [] & Ho & Hv). apply on_builder_inv in Ho as [Ho Ho2].
  cbn [run_steps run_step]. rewrite (M_bind_eq _ _ _ _ _ Ho).
  destruct (stripped plan (classify keys e cid)).
  - apply M_bind_Ok_inv in Hv as (s4 & [] & Hn & Hv). apply on_builder_inv in Hn as [Hn Hn2]. injection Hv as <-.
    eapply run_steps_app; [by eapply note_runs|]. specialize (IH _ Hr Hf). cbn [fst snd] in IH. by rewrite Hn2, Ho2 in IH.
  - apply M_bind_Ok_inv in Hv as (s4 & [] & Hfl & Hv). apply flush_run_runs in Hfl as [Hfl Hnil].
    apply on_builder_inv in Hv as [Hp Hp2]. rewrite Ho2 in Hfl. eapply run_steps_app; [exact Hfl|].
    eapply run_steps_app; [by eapply classified_runs|]. specialize (IH _ Hr Hf). by rewrite Hp2, Hnil in IH.
Qed.

Definition view_of keys (cid : string) e : ConversationEvent :=
  let c := classify keys e cid in default (cl_stored c) (cl_view c).
Definition plan_of keys (cid : string) (events : list ConversationEvent) : SlimPlan :=
  foldl observe SlimPlan_default (view_of keys cid <$> events).

Lemma plan_pass keys cid events plan plan' u :
  visit_all (plan_visit keys cid) events plan = (plan', Ok u) → plan' = foldl observe plan (view_of keys cid <$> events).
Proof.
  revert plan. induction events as [|e events IH]; intros plan; cbn [visit_all fmap list_fmap foldl]; [by intros [= <- _]|].
  intros (p1 & [] & Hv & Hr)%M_bind_Ok_inv. injection Hv as <-. by apply IH.
Qed.

Lemma seal_steps_ok plan keys cid run events : Forall step_ok (seal_steps plan keys cid run events).
Proof.
  assert (Hitem : ∀ g p, policy_item g p ≠ Verbatim).
  { intros g p. unfold policy_item. destruct g; [done| |done]. by destruct (as_object p); [case_match|]. }
  assert (Hmark : ∀ r, Forall step_ok (marker_steps r)).
  { intros [|[o g] r]; [constructor|]. apply Forall_fmap, Forall_true. intros [o' g']. apply Hitem. }
  assert (Hnote : ∀ g s, Forall step_ok (note_steps g s)).
  { intros g s. destruct g; cbn; [constructor..|]. destruct (encrypted_content _); repeat constructor. }
  revert run. induction events as [|e events IH]; intros run; cbn [seal_steps]; [apply Hmark|]. constructor; [done|].
  destruct (stripped plan (classify keys e cid)); rewrite !Forall_app; [by split|]. split; [done|]. split; [|done].
  unfold classified_steps. apply Forall_app. split; [by case_match; [apply Hnote|constructor]|]. constructor; [|constructor].
  unfold step_ok, classified_item. generalize (classify keys e cid). intros c.
  destruct (cl_group c), (cl_view c); done || apply Hitem.
Qed.

(** A build from a journal is the run of these calls. *)
Lemma build_runs id cid number sources files first keys b body :
  build_from_plain id cid number sources files first keys = Ok (b, body) → length id = 16%nat →
  ∃ events, journal_events (flat_map (split_lines []) files) cid first = Some events ∧
    SegmentContent.finished (seal_steps (plan_of keys cid events) keys cid [] events) cid number keys body (b_out b) ∧
    ∃ b0, run_steps (seal_steps (plan_of keys cid events) keys cid [] events) (create id cid number keys) = (b0, Ok tt) ∧
      finish sources b0 = (b, Ok body).
Proof.
  unfold build_from_plain. intros Hb Hid. destruct (for_each_plain_record _ _ _ _ _) as [plan [n|]] eqn:Hp; [|done].
  apply for_each_visits in Hp as (events & Hev & Hp). apply plan_pass in Hp. fold (plan_of keys cid events) in Hp. subst plan.
  match type of Hb with context [mbind ?f ?m ?x] => destruct (mbind f m x) as [s [[]|]] eqn:Hs end; [|done]. apply M_bind_Ok_inv in Hs as (s1 & m & Hs1 & Hf).
  apply for_each_visits in Hs1 as (events' & Hev' & Hs1). assert (events' = events) as -> by congruence.
  pose proof (seal_pass _ _ _ _ _ _ _ _ _ Hs1 Hf) as Hrun. cbn [fst snd] in Hrun.
  destruct (finish sources s.1) as [b1 [body'|]] eqn:Hfin; [|done]. injection Hb as <- <-.
  exists events. split; [done|]. split; [|by exists s.1]. split; [apply seal_steps_ok|].
  exists id, s.1, b1, sources. by split_and!.
Qed.
End steps.

(** ** The digest of a build *)
Section digest.
Context `{JsonView} `{!Serde} `{HistoryPrimitives} `{Aead} `{FrameCodec}.

Definition keeps_digest {A} (m : M SegmentBuilder SegmentError A) : Prop :=
  ∀ b b' a, m b = (b', Ok a) → b_digest b' = b_digest b.

Lemma keeps_ret {A} (a : A) : keeps_digest (mret a).
Proof. by intros b b' a' [= <- _]. Qed.
Lemma keeps_bind {A B} (m : M SegmentBuilder SegmentError A) (f : A → M SegmentBuilder SegmentError B) :
  keeps_digest m → (∀ a, keeps_digest (f a)) → keeps_digest (m ≫= f).
Proof. intros Hm Hf b b' x (b1 & a & H1' & H2')%M_bind_Ok_inv. rewrite (Hf a _ _ _ H2'). by eapply Hm. Qed.
Lemma keeps_modify (f : SegmentBuilder → SegmentBuilder) :
  (∀ b, b_digest (f b) = b_digest b) → keeps_digest (modify f).
Proof. intros Hf b b' a [= <- _]. apply Hf. Qed.
Lemma keeps_self : keeps_digest get_self.
Proof. by intros b b' a [= <- _]. Qed.
Lemma keeps_throw {A} x : keeps_digest (throw x : M SegmentBuilder SegmentError A).
Proof. done. Qed.
Lemma keeps_flush slot : keeps_digest (flush slot).
Proof. intros b b' u [Hr _]%flush_spec. by apply rest_inv in Hr as (_ & _ & _ & _ & _ & _ & _ & -> & _). Qed.
Lemma keeps_write_frame entry stored : keeps_digest (write_frame entry stored).
Proof.
  intros b b' u (f & _ & _ & Hr & _)%write_frame_spec. by apply rest_inv in Hr as (_ & _ & _ & _ & _ & _ & _ & -> & _).
Qed.
End digest.
#[export] Hint Resolve keeps_ret keeps_self keeps_throw keeps_flush keeps_write_frame : todex.

(** Decompose a builder method into the steps that keep the digest. *)
Ltac keeps_digest :=
  repeat first
    [ match goal with |- ∀ _, _ => intro end
    | solve [auto with todex]
    | apply keeps_bind
    | solve [apply keeps_modify; intros; reflexivity]
    | case_match ].

Section digest_of_build.
Context `{JsonView} `{!Serde} `{HistoryPrimitives} `{Aead} `{FrameCodec}.

Lemma keeps_append slot n g it : keeps_digest (append slot n g it).
Proof. unfold append. keeps_digest. Qed.
Lemma keeps_append_content n g s f : keeps_digest (append_content n g s f).
Proof. unfold append_content. pose proof keeps_append. keeps_digest. Qed.
Lemma keeps_push e it : keeps_digest (push e it).
Proof.
  pose proof keeps_append. pose proof keeps_append_content. unfold push, push_range, push_content. keeps_digest.
Qed.
Lemma keeps_push_verbatim s f : keeps_digest (push_verbatim s f).
Proof. unfold push_verbatim, verbatim_check, verbatim_write. keeps_digest. Qed.
Lemma keeps_push_all records : keeps_digest (push_all records).
Proof. induction records as [|e records IH]; cbn [push_all]; pose proof keeps_push; keeps_digest. Qed.

Definition observed (step : BuildStep) : list ConversationEvent :=
  match step with Observe e => [e] | _ => [] end.

Lemma run_steps_digest steps b b' u :
  run_steps steps b = (b', Ok u) → b_digest b' = foldl Digest.apply (b_digest b) (flat_map observed steps).
Proof.
  revert b. induction steps as [|s steps IH]; intros b; cbn [run_steps flat_map]; [by intros [= <- _]|].
  intros (b1 & [] & Hs & Hr)%M_bind_Ok_inv. rewrite (IH _ Hr), foldl_app. f_equal.
  destruct s as [e|k|e it|summary full records]; cbn [run_step observed foldl] in *.
  - by injection Hs as <-.
  - by injection Hs as <-.
  - by eapply keeps_push.
  - apply M_bind_Ok_inv in Hs as (b2 & [] & Hp & Hs). rewrite (keeps_push_all _ _ _ _ Hs). by eapply keeps_push_verbatim.
Qed.

Lemma finish_digest srcs b b' body : finish srcs b = (b', Ok body) → SegmentIndex.digest body = b_digest b.
Proof.
  unfold finish. intros (b0 & self & Hs & Hf)%M_bind_Ok_inv. injection Hs as <- <-. destruct (b_first b); [|done].
  apply M_bind_Ok_inv in Hf as (b1 & [] & Hf0 & Hf). apply M_bind_Ok_inv in Hf as (b2 & [] & Hf1 & Hf).
  apply M_bind_Ok_inv in Hf as (b3 & [] & Hf2 & Hf). apply M_bind_Ok_inv in Hf as (b4 & self & Hs & Hf).
  injection Hs as <- <-. destruct (bool_decide _); cbn [negb] in Hf; [|done]. injection Hf as <- <-. cbn.
  by rewrite (keeps_flush _ _ _ _ Hf2), (keeps_flush _ _ _ _ Hf1), (keeps_flush _ _ _ _ Hf0).
Qed.

Lemma seal_steps_observed plan keys cid run events :
  flat_map observed (seal_steps plan keys cid run events) = events.
Proof.
  assert (Hmark : ∀ r, flat_map observed (marker_steps r) = []).
  { intros [|[o g] r]; [done|]. unfold marker_steps. generalize (sequence o) (N.of_nat (length ((o, g) :: r))).
    intros a n. generalize ((o, g) :: r). intros l. by induction l. }
  assert (Hnote : ∀ g s, flat_map observed (note_steps g s) = []) by (intros [| |k] s; cbn; [done..|]; by case_match).
  assert (Hst : ∀ e, cl_stored (classify keys e cid) = e).
  { intros e. unfold classify. by repeat case_match. }
  revert run. induction events as [|e events IH]; intros run; cbn [seal_steps flat_map observed app]; [apply Hmark|].
  rewrite Hst. f_equal. destruct (stripped plan (classify keys e cid)).
  - by rewrite flat_map_app, Hnote, IH.
  - rewrite !flat_map_app, Hmark, IH. unfold classified_steps. rewrite flat_map_app. cbn [app flat_map observed].
    by case_match; rewrite ?Hnote.
Qed.
End digest_of_build.

(** ** Where each record went *)
Section places.
Context `{JsonView} `{!Serde} `{HistoryPrimitives} `{Aead} `{FrameCodec}.
Implicit Types (keys : gmap string ContentKey) (plan : SlimPlan) (e : ConversationEvent)
  (run : list (ConversationEvent * FrameGroup)).

Lemma classify_stored keys e cid : cl_stored (classify keys e cid) = e.
Proof. unfold classify. by repeat case_match. Qed.

Lemma kept_step plan keys cid run events e :
  e ∈ events → stripped plan (classify keys e cid) = false →
  PushRecord e (classified_item (classify keys e cid)) ∈ seal_steps plan keys cid run events.
Proof.
  intros Hin Hs. revert run. induction Hin as [e events|e e' events Hin IH]; intros run; cbn [seal_steps]; right.
  - rewrite Hs. apply elem_of_app. right. apply elem_of_app. left. unfold classified_steps.
    rewrite classify_stored. apply elem_of_app. right. by left.
  - destruct (stripped plan (classify keys e' cid)); apply elem_of_app; right; [by apply IH|].
    apply elem_of_app. right. by apply IH.
Qed.

(** The pending run is consecutive from [first]. *)
Definition dense_run (first : N) run : Prop := ∀ i x, run !! i = Some x → sequence x.1 = first + N.of_nat i.

Lemma dense_run_snoc first run c :
  dense_run first run → sequence (cl_stored c) = first + N.of_nat (length run) → dense_run first (run ++ [slim c]).
Proof.
  intros Hd Hs i x [Hi|[Hi Hx]]%lookup_app_Some; [by apply Hd|].
  destruct (i - length run)%nat as [|] eqn:Hz; [|done]. injection Hx as <-. cbn. rewrite Hs. f_equal. f_equal. lia.
Qed.

Lemma marker_steps_in first run x :
  dense_run first run → x ∈ run →
  marker_step first (N.of_nat (length run)) x ∈ marker_steps run ∧ first ≤ sequence x.1 < first + N.of_nat (length run).
Proof.
  intros Hd Hin. assert (Hh : marker_steps run = marker_step first (N.of_nat (length run)) <$> run).
  { destruct run as [|[e g] run]; [by apply elem_of_nil in Hin|]. unfold marker_steps.
    pose proof (Hd 0%nat _ eq_refl) as Hf. cbn in Hf. rewrite N.add_0_r in Hf. by rewrite Hf. }
  split; [rewrite Hh; by apply list_elem_of_fmap_2|]. apply list_elem_of_lookup in Hin as [i Hi].
  rewrite (Hd i x Hi). apply lookup_lt_Some in Hi. lia.
Qed.

Lemma pending_step plan keys cid events run first x :
  dense_run first run → dense (first + N.of_nat (length run)) events → x ∈ run →
  ∃ start len, marker_step start len x ∈ seal_steps plan keys cid run events ∧ start ≤ sequence x.1 < start + len.
Proof.
  revert run. induction events as [|e events IH]; intros run Hd He Hin; cbn [seal_steps].
  { eexists _, _. by apply marker_steps_in. }
  destruct (stripped plan (classify keys e cid)).
  - destruct (IH (run ++ [slim (classify keys e cid)])) as (start & len & Hm & Hr).
    + apply dense_run_snoc; [done|]. rewrite classify_stored, (He 0%nat e eq_refl). lia.
    + intros i e' Hi. rewrite (He (S i) e' Hi), length_app. cbn. lia.
    + apply elem_of_app. by left.
    + exists start, len. split; [|done]. right. apply elem_of_app. by right.
  - destruct (marker_steps_in first run x Hd Hin) as [Hm Hr]. eexists _, _. split; [|exact Hr].
    right. apply elem_of_app. by left.
Qed.

Lemma stripped_step plan keys cid events run first e :
  dense_run first run → dense (first + N.of_nat (length run)) events → e ∈ events →
  stripped plan (classify keys e cid) = true →
  ∃ start len, marker_step start len (slim (classify keys e cid)) ∈ seal_steps plan keys cid run events ∧
    start ≤ sequence e < start + len.
Proof.
  intros Hd He Hin Hs. revert run first Hd He. induction Hin as [e events|e e' events Hin IH]; intros run first Hd He.
  - cbn [seal_steps]. rewrite Hs.
    destruct (pending_step plan keys cid events (run ++ [slim (classify keys e cid)]) first (slim (classify keys e cid)))
      as (start & len & Hm & Hr).
    + apply dense_run_snoc; [done|]. rewrite classify_stored, (He 0%nat e eq_refl). lia.
    + intros i e' Hi. rewrite (He (S i) e' Hi), length_app. cbn. lia.
    + apply elem_of_app. right. by left.
    + exists start, len. unfold slim in Hr at 1 2. cbn [fst with_payload sequence] in Hr. rewrite classify_stored in Hr.
      split; [|done]. right. apply elem_of_app. by right.
  - cbn [seal_steps]. destruct (stripped plan (classify keys e' cid)).
    + destruct (IH Hs (run ++ [slim (classify keys e' cid)]) first) as (start & len & Hm & Hr).
      * apply dense_run_snoc; [done|]. rewrite classify_stored, (He 0%nat e' eq_refl). lia.
      * intros i x Hi. rewrite (He (S i) x Hi), length_app. cbn. lia.
      * exists start, len. split; [|done]. right. apply elem_of_app. by right.
    + destruct (IH Hs [] (first + N.of_nat (length run) + 1)) as (start & len & Hm & Hr).
      * by intros i x.
      * intros i x Hi. rewrite (He (S i) x Hi). cbn. lia.
      * exists start, len. split; [|done]. right. rewrite !elem_of_app. by right; right.
Qed.
End places.

(** ** Sealing keeps the journal *)
Section sealing.
Context `{JsonViewLaws} `{!Serde} `{!SerdeLaws} `{!RawValues} `{!RawValuesLaws} `{HistoryPrimitivesLaws} `{AeadLaws}
  `{FrameCodecLaws} `{LruLaws}.
Implicit Types (e : ConversationEvent).

(** What a record not under a key at hand reads back as. *)
Lemma unsealed_reads_back keys cid e :
  is_sealed (cl_group (classify keys e cid)) = false →
  (encrypted_content (payload e) ≠ None → stored_form (event_type e) (payload e)) →
  ∃ m, read_back_as e (classified_item (classify keys e cid)) false = Some (payload e, m).
Proof.
  unfold classified_item, classify. destruct (encrypted_content (payload e)) as [enc|] eqn:Henc.
  - intros Hg Hst. specialize (Hst ltac:(done)).
    match goal with |- context [match ?o with Some _ => _ | None => _ end] => destruct o as [[kid full]|]; [done|] end.
    cbn [cl_group cl_view cl_stored] in *. destruct Hst as (q & x & Hp). rewrite Hp in Henc |- *. unfold policy_item.
    rewrite as_object_value, lookup_insert_eq. cbn [mbind option_bind]. rewrite as_object_value. cbn [read_back_as passthrough_part].
    eexists. f_equal. f_equal. by rewrite Hp, envelope_idem.
  - intros _ _. cbn. by eexists.
Qed.

Lemma marker_storable e start len : storable e → storable (compacted_marker (with_payload e null_value) start len).
Proof. by intros [Hs Ht Hn]. Qed.

Lemma view_sequence keys cid e : sequence (view_of keys cid e) = sequence e.
Proof. unfold view_of, classify. by repeat case_match. Qed.

Lemma stripped_view plan keys cid e :
  is_sealed (cl_group (classify keys e cid)) = false → stripped plan (classify keys e cid) = true →
  cl_group (classify keys e cid) = Plain ∧ strips plan e = true.
Proof.
  unfold stripped, classify. destruct (encrypted_content (payload e)) as [enc|]; [|done].
  match goal with |- context [match ?o with Some _ => _ | None => _ end] => by destruct o as [[kid full]|] end.
Qed.

(** A later record of the journal, kept, covers a stripped one. *)
Lemma stripped_covered keys cid events e :
  strips (plan_of keys cid events) e = true →
  ∃ t, t ∈ events ∧ sequence e < sequence t ∧ covers (view_of keys cid t) e ∧
    stripped (plan_of keys cid events) (classify keys t cid) = false.
Proof.
  intros (v & (t & -> & Ht)%list_elem_of_fmap & Hlt & Hc)%plan_covers. rewrite view_sequence in Hlt. exists t.
  split_and!; [done..|]. pose proof (covering_kept (plan_of keys cid events) _ _ Hc) as Hk. revert Hk.
  unfold stripped, view_of. by destruct (cl_view (classify keys t cid)).
Qed.

End sealing.

(** A journal of two records, the first covered by the second. *)
Module SealExample.
Import Jv PlainSerde PlainAead CommaJson ListLru SlimExample.
#[local] Existing Instance HistoryCrypto.Example.toy.
#[local] Existing Instance HistoryCrypto.Example.toy_laws.
#[local] Existing Instance SegmentExample.stored_codec.
#[local] Existing Instance SegmentExample.stored_codec_laws.

Definition events : list ConversationEvent := [tool 1 "tool.updated"; tool 2 "tool.completed"].
Definition files : list bytes := [concat ((λ e, encode_record e ++ [Byte.x0a]) <$> events)].
Definition build : result SegmentError (SegmentBuilder * SegmentIndexBody) :=
  build_from_plain SegmentExample.id "c" 1 ["events.jsonl"] files 1 ∅.
Definition from_ok {E A} (d : A) (r : result E A) : A := match r with Ok a => a | Err _ => d end.
Lemma from_ok_eq {E A} (d : A) (r : result E A) : SegmentExample.succeeds r = true → r = Ok (from_ok d r).
Proof. by destruct r. Qed.
Definition built : SegmentBuilder * SegmentIndexBody := from_ok (SegmentExample.built, SegmentExample.body) build.
Definition b : SegmentBuilder := built.1.
Definition body : SegmentIndexBody := built.2.
Definition file : bytes := b_out b.
Definition no_segment : SealedSegment :=
  {| s_number := 0; s_first := 0; s_last := 0; s_segment_id := ""; s_frames := []; by_stream := [] |}.
Definition seg : SealedSegment := from_ok no_segment (from_body 1 body).
Definition self : SegmentReader := reader_open seg file "c" (FrameCache_new 1000000).

Lemma build_ok : build = Ok (b, body).
Proof.
  unfold b, body. rewrite <-surjective_pairing. apply from_ok_eq. vm_compute. reflexivity.
Qed.
Lemma seg_ok : from_body 1 body = Ok seg.
Proof. apply from_ok_eq. vm_compute. reflexivity. Qed.
Lemma body_ok : body_typed body.
Proof. split; [apply (bool_decide_unpack _)|..|apply (bool_decide_unpack _)]; vm_compute; done. Qed.
Lemma reads_ok : reads "c" file seg (file_truth seg file) self.
Proof.
  split_and!; [reflexivity|reflexivity|reflexivity|apply reader_open_ok|].
  apply (file_truthful self). apply (bool_decide_unpack _). vm_compute. done.
Qed.
Lemma items_ok : items_within (2 ^ 31) (steps_log (seal_steps (plan_of ∅ "c" events) ∅ "c" [] events)) = true.
Proof. vm_compute. reflexivity. Qed.

End SealExample.
