(* ===== verification/JournalScan.v ===== *)
(** * The conversation journal: scanning

    Model of the journal scans of src/src/conversation/store.rs. A journal is a
    list of files: sealed segments, numbered plaintext files and the active
    file; a plaintext file is its bytes, a sealed segment what [load_index]
    answers for it. [scan_plain_run] validates a run of plaintext files line by
    line, [scan_journal_fast] looks only at the boundaries of each file. Listing
    and reading the files succeeds: they are used under the lock of the
    conversation. A missing index file counts as an [Invalid] answer, like in the
    code; [Io] is any other failure to read it. Byte offsets, [usize] and [u64] in the code, are [nat]. *)
From S2P Require Import Prelude Bytes Text Channel Json JsonObject Model Digest Summary Recipients Keyring Dek HistoryCrypto Record SegmentIndex SegmentBuilder SegmentRun SegmentContent FrameCache SegmentReader SegmentPlan.
From stdpp Require Import pretty.
From Stdlib Require Import Strings.Byte Ascii ZifyBool.
Local Open Scope N_scope.

Definition MIN_JOURNAL_RECORD_BYTES : N := 64.
Definition JOURNAL_RECORD_LOST_EVENT : string := "journal.recordLost".

Inductive FileKind : Type :=
  | Segment (number : N) (index : result SegmentError SealedSegment)
  | Numbered (number : N)
  | Active.
Record JournalFile : Type := { jf_kind : FileKind; jf_data : bytes }.
Definition is_sealed_segment (f : JournalFile) : bool :=
  match jf_kind f with Segment _ _ => true | _ => false end.

Inductive IndexPart : Type :=
  | SealedPart (segment : SealedSegment)
  | PlainPart (file : nat) (first : N) (offsets : list (nat * nat)).
Definition part_first (p : IndexPart) : N :=
  match p with SealedPart s => s_first s | PlainPart _ first _ => first end.
Definition part_count (p : IndexPart) : N :=
  match p with
  | SealedPart s => s_last s - s_first s + 1
  | PlainPart _ _ offsets => N.of_nat (length offsets)
  end.

(** ** Lines *)

Fixpoint line_ranges_go (start index : nat) (raw : bytes) : list (nat * nat) :=
  match raw with
  | [] => if (start <? index)%nat then [(start, index)] else []
  | c :: raw =>
      if bool_decide (c = Byte.x0a) then (start, index) :: line_ranges_go (S index) (S index) raw
      else line_ranges_go start (S index) raw
  end.
Definition line_ranges (raw : bytes) : list (nat * nat) := line_ranges_go 0 0 raw.

(** [&raw[start..end]]. *)
Definition slice (raw : bytes) (r : nat * nat) : bytes := take (r.2 - r.1) (drop r.1 raw).
Definition ends_with_newline (raw : bytes) : bool := bool_decide (last raw = Some Byte.x0a).

Section scan.
Context `{JsonView} `{!Serde}.

(** ** Records *)

(** [u8::is_ascii_lowercase], [u8::is_ascii_digit] and the three marks. *)
Definition type_byte (c : ascii) : bool :=
  let n := N_of_ascii c in
  (97 <=? n) && (n <=? 122) || (48 <=? n) && (n <=? 57) || (n =? 46) || (n =? 95) || (n =? 45).
Definition validate_event_type (event_type : string) : result AppError unit :=
  guard_err
    (negb (String.eqb event_type "") && (String.length event_type <=? 96)%nat &&
     negb (String.prefix "journal." event_type) && forallb type_byte (String.list_ascii_of_string event_type))
    (InvalidRequest "conversation event type is invalid").

Definition validate_event (event : ConversationEvent) (cid : string) (expected_sequence : N) : result AppError unit :=
  if negb (schema_version event =? CONVERSATION_SCHEMA_VERSION) || negb (String.eqb (conversation_id event) cid) ||
     negb (sequence event =? expected_sequence)
  then Err (InvalidRequest ("conversation " +:+ cid +:+ " journal continuity check failed at sequence " +:+
              pretty expected_sequence))
  else if one_of [JOURNAL_RECORD_LOST_EVENT; JOURNAL_COMPACTED_EVENT] (event_type event) then Ok tt
  else validate_event_type (event_type event).

(** ** The validating scan *)

Inductive SalvagedEntry : Type :=
  | KeptRecord (file : nat) (sequence : N) (start stop : nat)
  | LostRun (file : nat) (run_start run_length : N) (time : option Z) (provider : option ProviderKind).
Definition entry_file (e : SalvagedEntry) : nat :=
  match e with KeptRecord file _ _ _ | LostRun file _ _ _ _ => file end.

Record PendingCorrupt : Type := {
  pc_file : nat;
  pc_start : nat;
  pc_lines : N;
  pc_bytes : N;
  pc_files : gset nat;
}.

(** The variables of the loop. *)
Record ScanState : Type := {
  ss_expected : N;
  ss_entries : list SalvagedEntry;
  ss_damaged : gset nat;
  ss_pending : option PendingCorrupt;
  ss_last : option (nat * ConversationEvent);
  ss_unterminated : option nat;
  ss_present : list nat;
}.
Definition scan_start (expected_first : N) : ScanState :=
  {| ss_expected := expected_first; ss_entries := []; ss_damaged := ∅; ss_pending := None; ss_last := None;
     ss_unterminated := None; ss_present := [] |}.

(** How many records the corrupt lines can have held. *)
Definition capacity (pending : option PendingCorrupt) : N :=
  match pending with
  | Some c => N.min (pc_lines c + pc_bytes c / MIN_JOURNAL_RECORD_BYTES) u64_MAX
  | None => 0
  end.

Definition lost_entry (file : nat) (run_start run_length : N) (last : option (nat * ConversationEvent)) : SalvagedEntry :=
  LostRun file run_start run_length (time ∘ snd <$> last) (last ≫= provider ∘ snd).

Definition accept_record (file : nat) (range : nat * nat) (event : ConversationEvent) (st : ScanState) : ScanState :=
  let lost := sequence event - ss_expected st in
  {| ss_expected := sequence event + 1;
     ss_entries := ss_entries st
       ++ match ss_pending st with
          | Some c => if 0 <? lost then [lost_entry (pc_file c) (ss_expected st) lost (ss_last st)] else []
          | None => []
          end
       ++ [KeptRecord file (sequence event) range.1 range.2];
     ss_damaged := match ss_pending st with Some c => ss_damaged st ∪ pc_files c | None => ss_damaged st end;
     ss_pending := None;
     ss_last := Some (file, event);
     ss_unterminated := ss_unterminated st;
     ss_present := ss_present st |}.

Definition corrupt_line (file : nat) (range : nat * nat) (st : ScanState) : ScanState :=
  let c := default {| pc_file := file; pc_start := range.1; pc_lines := 0; pc_bytes := 0; pc_files := ∅ |} (ss_pending st) in
  {| ss_expected := ss_expected st; ss_entries := ss_entries st; ss_damaged := ss_damaged st;
     ss_pending := Some {| pc_file := pc_file c; pc_start := pc_start c; pc_lines := pc_lines c + 1;
       pc_bytes := pc_bytes c + N.of_nat (range.2 - range.1 + 1); pc_files := pc_files c ∪ {[file]} |};
     ss_last := ss_last st; ss_unterminated := ss_unterminated st; ss_present := ss_present st |}.

(** The record of a line, if it can continue the journal. *)
Definition readable_record (cid : string) (expected : N) (barrier : option N) (line : bytes) : option ConversationEvent :=
  event ← ok (decode_journal_record line cid);
  if (expected <=? sequence event) && match barrier with Some b => sequence event <? b | None => true end &&
     bool_decide (validate_event event cid (sequence event) = Ok tt)
  then Some event else None.

Definition scan_line (cid : string) (barrier : option N) (file : nat) (raw : bytes) (st : ScanState) (range : nat * nat) : ScanState :=
  match trim_ascii (slice raw range) with
  | [] => st
  | line =>
      match readable_record cid (ss_expected st) barrier line with
      | Some event =>
          if sequence event - ss_expected st <=? capacity (ss_pending st) then accept_record file range event st
          else corrupt_line file range st
      | None => corrupt_line file range st
      end
  end.

Definition open_file (file : nat) (raw : bytes) (st : ScanState) : ScanState :=
  {| ss_expected := ss_expected st; ss_entries := ss_entries st; ss_damaged := ss_damaged st; ss_pending := ss_pending st;
     ss_last := ss_last st;
     ss_unterminated := match raw with [] => ss_unterminated st | _ => if ends_with_newline raw then None else Some file end;
     ss_present := ss_present st ++ [file] |}.
Definition scan_file (cid : string) (barrier : option N) (st : ScanState) (f : nat * JournalFile) : ScanState :=
  foldl (scan_line cid barrier f.1 (jf_data f.2)) (open_file f.1 (jf_data f.2) st) (line_ranges (jf_data f.2)).

Record PlainRunScan : Type := {
  pr_parts : list IndexPart;
  pr_expected : N;
  pr_last : option (nat * ConversationEvent);
  pr_entries : list SalvagedEntry;
  pr_damaged : gset nat;
  pr_corrupt_tail : option (nat * nat);
  pr_unterminated : option nat;
}.
Definition needs_repair (s : PlainRunScan) : bool :=
  negb (bool_decide (pr_damaged s = ∅)) || bool_decide (is_Some (pr_corrupt_tail s)) ||
  bool_decide (is_Some (pr_unterminated s)).

(** The parts of the index: the kept records, grouped by file. *)
Definition push_part (parts : list IndexPart) (entry : SalvagedEntry) : list IndexPart :=
  match entry with
  | KeptRecord file sequence start stop =>
      match reverse parts with
      | PlainPart part_file first offsets :: before =>
          if (part_file =? file)%nat then reverse before ++ [PlainPart part_file first (offsets ++ [(start, stop)])]
          else parts ++ [PlainPart file sequence [(start, stop)]]
      | _ => parts ++ [PlainPart file sequence [(start, stop)]]
      end
  | LostRun _ _ _ _ _ => parts
  end.

(** What is missing before the sealed segment that follows the run. *)
Definition close_at_barrier (barrier : N) (st : ScanState) : ScanState :=
  if (ss_expected st <? barrier) || bool_decide (is_Some (ss_pending st)) then
    let place := match ss_pending st with Some c => Some (pc_file c) | None => last (ss_present st) end in
    let damaged := match ss_pending st with Some c => ss_damaged st ∪ pc_files c | None => ss_damaged st end in
    match place with
    | Some file =>
        if ss_expected st <? barrier then
          {| ss_expected := barrier;
             ss_entries := ss_entries st ++ [lost_entry file (ss_expected st) (barrier - ss_expected st) (ss_last st)];
             ss_damaged := damaged ∪ {[file]}; ss_pending := None; ss_last := ss_last st;
             ss_unterminated := ss_unterminated st; ss_present := ss_present st |}
        else
          {| ss_expected := ss_expected st; ss_entries := ss_entries st; ss_damaged := damaged; ss_pending := None;
             ss_last := ss_last st; ss_unterminated := ss_unterminated st; ss_present := ss_present st |}
    | None =>
        {| ss_expected := ss_expected st; ss_entries := ss_entries st; ss_damaged := damaged; ss_pending := None;
           ss_last := ss_last st; ss_unterminated := ss_unterminated st; ss_present := ss_present st |}
    end
  else st.

Definition finish_scan (st : ScanState) (corrupt_tail : option (nat * nat)) : PlainRunScan :=
  {| pr_parts := foldl push_part [] (ss_entries st); pr_expected := ss_expected st; pr_last := ss_last st;
     pr_entries := ss_entries st; pr_damaged := ss_damaged st; pr_corrupt_tail := corrupt_tail;
     pr_unterminated := ss_unterminated st |}.

Definition scan_plain_run (run : list (nat * JournalFile)) (cid : string) (expected_first : N) (barrier : option N) :
    result AppError PlainRunScan :=
  let st := foldl (scan_file cid barrier) (scan_start expected_first) run in
  match barrier with
  | Some b =>
      if b <? ss_expected st
      then Err (InvalidRequest ("conversation " +:+ cid +:+ " journal overlaps its sealed segment at sequence " +:+ pretty b))
      else Ok (finish_scan (close_at_barrier b st) None)
  | None => Ok (finish_scan st ((λ c, (pc_file c, pc_start c)) <$> ss_pending st))
  end.

(** ** The scan of the boundaries *)

(** [skip_until] over the file: every line with its newline. *)
Fixpoint offsets_go (start index : nat) (raw : bytes) : list (nat * nat) :=
  match raw with
  | [] => if (start <? index)%nat then [(start, pred index)] else []
  | c :: raw =>
      if bool_decide (c = Byte.x0a) then (start, index) :: offsets_go (S index) (S index) raw
      else offsets_go start (S index) raw
  end.

Definition valid_at (cid : string) (expected : N) (line : bytes) : option ConversationEvent :=
  event ← ok (decode_journal_record line cid);
  if bool_decide (validate_event event cid expected = Ok tt) then Some event else None.

Record FastState : Type := {
  fs_parts : list IndexPart; fs_expected : N; fs_tail : option (nat * ConversationEvent);
}.
(** A plaintext file: its first and its last line decode to the expected
    sequences; [None] sends the caller to the full scan. *)
Definition scan_fast_plain (cid : string) (index : nat) (raw : bytes) (st : FastState) : option FastState :=
  match raw with
  | [] => Some st
  | _ =>
      if negb (ends_with_newline raw) then None
      else
        let offsets := offsets_go 0 0 raw in
        let count := N.of_nat (length offsets) in
        match head offsets, last offsets with
        | Some first_range, Some last_range =>
            match valid_at cid (fs_expected st) (slice raw first_range),
                  valid_at cid (fs_expected st + count - 1) (slice raw last_range) with
            | Some _, Some file_last =>
                Some {| fs_parts := fs_parts st ++ [PlainPart index (fs_expected st) offsets];
                        fs_expected := fs_expected st + count; fs_tail := Some (index, file_last) |}
            | _, _ => None
            end
        | _, _ => None
        end
  end.
Definition scan_fast_file (cid : string) (f : nat * JournalFile) (st : FastState) : result AppError (option FastState) :=
  match jf_kind f.2 with
  | Segment _ (Ok s) =>
      if negb (s_first s =? fs_expected st) then Ok None
      else Ok (Some {| fs_parts := fs_parts st ++ [SealedPart s]; fs_expected := s_last s + 1; fs_tail := None |})
  | Segment _ (Err (Io error)) => Err (IoError error)
  | Segment _ (Err (Invalid _)) => Ok None
  | Numbered _ | Active => Ok (scan_fast_plain cid f.1 (jf_data f.2) st)
  end.
Fixpoint scan_fast_files (cid : string) (files : list (nat * JournalFile)) (st : FastState) : result AppError (option FastState) :=
  match files with
  | [] => Ok (Some st)
  | f :: files =>
      r ← scan_fast_file cid f st;
      match r with Some st => scan_fast_files cid files st | None => Ok None end
  end.
Definition enumerate {A} (l : list A) : list (nat * A) := imap pair l.
Definition scan_journal_fast (files : list JournalFile) (cid : string) :
    result AppError (option (list IndexPart * option (nat * ConversationEvent))) :=
  r ← scan_fast_files cid (enumerate files) {| fs_parts := []; fs_expected := 1; fs_tail := None |};
  match r with
  | Some st => Ok (match fs_parts st with [] => None | parts => Some (parts, fs_tail st) end)
  | None => Ok None
  end.
End scan.
