(* ===== verification/JournalRepair.v ===== *)
(** * The conversation journal: repair

    Model of [repair_plain_run] and of the passes of [validate_journal_locked] in
    src/src/conversation/store.rs. Writes succeed; replacing a file is atomic.
    The caches, the manifest and the salvage of a sealed segment, which a pass
    only asks for, are not part of this model. *)
From S2P Require Import Prelude Bytes Text Channel Json JsonObject Model Digest Summary Recipients Keyring Dek HistoryCrypto Record SegmentIndex SegmentBuilder SegmentRun SegmentContent FrameCache SegmentReader SegmentPlan JournalScan.
From stdpp Require Import pretty.
From Stdlib Require Import Strings.Byte ZifyBool.
Local Open Scope N_scope.

(** The files of the journal, the copies kept of damaged bytes, and whether the
    key that may have sealed cut records was given up. *)
Record Journal : Type := {
  j_files : list JournalFile;
  j_backups : list bytes;
  j_key_abandoned : bool;
}.
Definition set_files (files : list JournalFile) (j : Journal) : Journal :=
  {| j_files := files; j_backups := j_backups j; j_key_abandoned := j_key_abandoned j |}.
Definition add_backup (copy : bytes) (j : Journal) : Journal :=
  {| j_files := j_files j; j_backups := j_backups j ++ [copy]; j_key_abandoned := j_key_abandoned j |}.
Definition abandon_record_key (j : Journal) : Journal :=
  {| j_files := j_files j; j_backups := j_backups j; j_key_abandoned := true |}.

Definition with_data (data : bytes) (f : JournalFile) : JournalFile := {| jf_kind := jf_kind f; jf_data := data |}.
Definition file_data (files : list JournalFile) (i : nat) : bytes :=
  match files !! i with Some f => jf_data f | None => [] end.
Definition is_plain (f : JournalFile) : bool := negb (is_sealed_segment f).

(** [quarantine_tail]: one copy of everything from [start] of the file
    [segment] on. *)
Definition quarantine_tail (files : list JournalFile) (segment start : nat) : bytes :=
  concat (imap (λ i f, if (i <? segment)%nat || is_sealed_segment f then []
                       else drop (if (i =? segment)%nat then start else 0%nat) (jf_data f)) files).

Section repair.
Context `{JsonView} `{!Serde}.
(** What a repair meets: the name of the copy, the clock, and an id per new
    event. *)
Context (backup_name : string) (now : Z) (fresh_id : N → string).

Definition with_time_provider (t : Z) (p : option ProviderKind) (e : ConversationEvent) : ConversationEvent :=
  {| schema_version := schema_version e; sequence := sequence e; event_id := event_id e;
     conversation_id := conversation_id e; time := t; event_type := event_type e;
     normalized_type := normalized_type e; raw_type := raw_type e; provider := p; payload := payload e |}.

Definition placeholder (cid : string) (sequence run_start run_length : N) (time : option Z)
    (provider : option ProviderKind) : ConversationEvent :=
  with_time_provider (default (now / 1000 * 1000)%Z time) provider
    (ConversationEvent_new (fresh_id sequence) now cid sequence JOURNAL_RECORD_LOST_EVENT
       (object_value (list_to_map [("reason", string_value "corrupt"); ("runStart", u64_value run_start);
          ("runLength", u64_value run_length); ("backup", string_value backup_name)]))).

(** [run_start..run_start + run_length]. *)
Definition run_sequences (run_start run_length : N) : list N :=
  (λ i, run_start + N.of_nat i) <$> seq 0 (N.to_nat run_length).
Definition entry_lines (cid : string) (raw : bytes) (e : SalvagedEntry) : list bytes :=
  match e with
  | KeptRecord _ _ start stop => [trim_ascii (slice raw (start, stop))]
  | LostRun _ run_start run_length time provider =>
      (λ sequence, encode_record (placeholder cid sequence run_start run_length time provider))
        <$> run_sequences run_start run_length
  end.

(** [replace_journal]: each line and its newline. *)
Definition journal_of_lines (lines : list bytes) : bytes := concat ((λ line, line ++ [Byte.x0a]) <$> lines).
Definition rewritten_data (cid : string) (entries : list SalvagedEntry) (file : nat) (raw : bytes) : bytes :=
  journal_of_lines (flat_map (entry_lines cid raw) (filter (λ e, entry_file e = file) entries)).
Definition rewrite_damaged (cid : string) (entries : list SalvagedEntry) (damaged : gset nat) (files : list JournalFile) :
    list JournalFile :=
  imap (λ i f, if decide (i ∈ damaged) then with_data (rewritten_data cid entries i (jf_data f)) f else f) files.

(** The files from the corrupt tail on, as far as they were not rewritten. *)
Definition cut_file (rewritten : gset nat) (segment start i : nat) (f : JournalFile) : option JournalFile :=
  if (i <? segment)%nat || bool_decide (i ∈ rewritten) || is_sealed_segment f then Some f
  else if (segment <? i)%nat && match jf_kind f with Numbered _ => true | _ => false end then None
  else Some (with_data (if (i =? segment)%nat then take start (jf_data f) else []) f).
Definition cut_tail (rewritten : gset nat) (segment start : nat) (files : list JournalFile) : list JournalFile :=
  omap id (imap (cut_file rewritten segment start) files).

(** [terminate_journal] of the file [i]. *)
Definition terminate_file (i : nat) (files : list JournalFile) : list JournalFile :=
  imap (λ k f, if (k =? i)%nat then with_data (jf_data f ++ [Byte.x0a]) f else f) files.

Definition repair_plain_run (cid : string) (scan : PlainRunScan) (j : Journal) : Journal :=
  let files := j_files j in
  let j := if bool_decide (is_Some (pr_corrupt_tail scan)) then abandon_record_key j else j in
  let '(damaged, j) :=
    match pr_corrupt_tail scan with
    | Some (segment, start) =>
        if bool_decide (pr_damaged scan = ∅) then (pr_damaged scan, add_backup (quarantine_tail files segment start) j)
        else (pr_damaged scan ∪ list_to_set (filter (λ i, bool_decide (is_plain <$> files !! i = Some true) = true)
                (seq segment (length files - segment))), j)
    | None => (pr_damaged scan, j)
    end in
  let j :=
    if bool_decide (damaged = ∅) then j
    else
      let copy := concat (imap (λ i f, if decide (i ∈ damaged) then jf_data f else []) files) in
      set_files (rewrite_damaged cid (pr_entries scan) damaged (j_files j)) (add_backup copy j) in
  match pr_corrupt_tail scan, pr_unterminated scan with
  | Some (segment, start), _ => set_files (cut_tail damaged segment start (j_files j)) j
  | None, Some last => set_files (terminate_file last (j_files j)) j
  | None, None => j
  end.

(** ** The passes *)

Record ValidState : Type := {
  vs_parts : list IndexPart;
  vs_expected : N;
  vs_tail : option (nat * ConversationEvent);
}.
(** How a pass ends: a validated index, a repaired journal to look at again, a
    sealed segment to salvage, or an error. *)
Inductive PassResult : Type :=
  | Validated (parts : list IndexPart) (tail : option (nat * ConversationEvent))
  | Repaired (j : Journal)
  | SalvageSegment (number : N)
  | Failed (error : AppError).

(** The plaintext files up to the next sealed segment, and that segment. *)
Fixpoint take_plain (files : list JournalFile) : list JournalFile :=
  match files with f :: files => if is_plain f then f :: take_plain files else [] | [] => [] end.
Definition indexed_from (position : nat) (files : list JournalFile) : list (nat * JournalFile) :=
  imap (λ i f, (position + i, f)%nat) files.
(** [boundary_sequence] of a sealed segment: its first sequence. *)
Definition segment_first (f : JournalFile) : option N :=
  match jf_kind f with Segment _ (Ok s) => Some (s_first s) | _ => None end.
(** The first sequence of the segment after the run, if there is one. *)
Definition run_barrier (cid : string) (after : list JournalFile) : result AppError (option N) :=
  match after with
  | [] => Ok None
  | f :: _ =>
      next ← ok_or (segment_first f)
        (InvalidRequest ("conversation " +:+ cid +:+ " sealed segment after plaintext journal is unreadable"));
      Ok (Some next)
  end.

(** One round of the loop over the files, from [position] on; a round passes at
    least one file, so their number is enough fuel. *)
Fixpoint validate_files (fuel : nat) (cid : string) (j : Journal) (position : nat) (st : ValidState) : PassResult :=
  match fuel, drop position (j_files j) with
  | S fuel, f :: rest =>
      match jf_kind f with
      | Segment number (Ok s) =>
          if s_first s =? vs_expected st
          then validate_files fuel cid j (S position)
                 {| vs_parts := vs_parts st ++ [SealedPart s]; vs_expected := s_last s + 1; vs_tail := None |}
          else Failed (InvalidRequest ("conversation " +:+ cid +:+ " journal segment " +:+ pretty number +:+
                         " starts at sequence " +:+ pretty (s_first s) +:+ " where " +:+ pretty (vs_expected st) +:+ " belongs"))
      | Segment _ (Err (Io error)) => Failed (IoError error)
      | Segment number (Err (Invalid _)) => SalvageSegment number
      | Numbered _ | Active =>
          let run := take_plain (f :: rest) in
          let stop := (position + length run)%nat in
          match run_barrier cid (drop stop (j_files j)) with
          | Err error => Failed error
          | Ok barrier =>
              match scan_plain_run (indexed_from position run) cid (vs_expected st) barrier with
              | Err error => Failed error
              | Ok scan =>
                  if needs_repair scan then Repaired (repair_plain_run cid scan j)
                  else validate_files fuel cid j stop
                         {| vs_parts := vs_parts st ++ pr_parts scan; vs_expected := pr_expected scan;
                            vs_tail := match pr_last scan with Some tail => Some tail | None => vs_tail st end |}
              end
          end
      end
  | _, _ => Validated (vs_parts st) (vs_tail st)
  end.
Definition validate_pass (cid : string) (j : Journal) : PassResult :=
  validate_files (length (j_files j)) cid j 0 {| vs_parts := []; vs_expected := 1; vs_tail := None |}.

(** How validating ends. *)
Inductive Validation : Type :=
  | ValidIndex (parts : list IndexPart) (tail : option (nat * ConversationEvent))
  | AskedSalvage (number : N)
  | ValidationError (error : AppError).
Fixpoint validate_passes (passes : nat) (cid : string) (j : Journal) : Journal * Validation :=
  match passes with
  | O => (j, ValidationError (Conflict ("conversation " +:+ cid +:+ " journal kept changing while it was repaired")))
  | S passes =>
      match validate_pass cid j with
      | Validated parts tail => (j, ValidIndex parts tail)
      | Repaired j => validate_passes passes cid j
      | SalvageSegment number => (j, AskedSalvage number)
      | Failed error => (j, ValidationError error)
      end
  end.
Definition validate_journal (cid : string) (j : Journal) : Journal * Validation := validate_passes 4 cid j.
End repair.
