(* ===== verification/JournalLines.v ===== *)
(** * The conversation journal: lines

    The lines of a journal file as its scans see them: the ranges of
    [line_ranges], their trimmed bytes, and how they change when a file is
    rewritten from lines, cut at the start of a line, or terminated. *)
From S2P Require Import Prelude Bytes Text Channel Json JsonObject Model Digest Summary Recipients Keyring Dek HistoryCrypto Record SegmentIndex SegmentBuilder SegmentRun SegmentContent FrameCache SegmentReader SegmentPlan JournalScan JournalRepair.
From Stdlib Require Import Strings.Byte ZifyBool.
Local Open Scope nat_scope.

Abbreviation NL := Byte.x0a.
Abbreviation shift k := (λ r : nat * nat, (k + r.1, k + r.2)).
Definition no_newline (l : bytes) : Prop := NL ∉ l.

Lemma filter_none {A} (P : A → Prop) `{∀ a, Decision (P a)} (l : list A) : (∀ a, a ∈ l → ¬ P a) → filter P l = [].
Proof.
  induction l as [|a l IH]; intros Hl; [done|]. rewrite filter_cons_False by (apply Hl; set_solver). apply IH. set_solver.
Qed.

(** ** Ranges *)

Lemma line_ranges_shift k raw start index :
  line_ranges_go (k + start) (k + index) raw = shift k <$> line_ranges_go start index raw.
Proof.
  revert start index. induction raw as [|c raw IH]; intros start index; simpl.
  - destruct (Nat.ltb_spec (k + start) (k + index)), (Nat.ltb_spec start index); try lia; done.
  - case_bool_decide; simpl; [f_equal|]; rewrite <-IH; f_equal; lia.
Qed.

(** The first line of what is left, [start..index] being its beginning. *)
Lemma line_ranges_line l rest start index :
  no_newline l → line_ranges_go start index (l ++ NL :: rest) =
    (start, index + length l) :: line_ranges_go (S (index + length l)) (S (index + length l)) rest.
Proof.
  revert index. induction l as [|c l IH]; intros index Hl; simpl.
  - by rewrite Nat.add_0_r.
  - apply not_elem_of_cons in Hl as [Hc Hl]. rewrite bool_decide_eq_false_2 by congruence.
    rewrite IH by done. simpl. by rewrite !Nat.add_succ_r.
Qed.
Lemma line_ranges_last l start index :
  no_newline l → line_ranges_go start index l = if start <? index + length l then [(start, index + length l)] else [].
Proof.
  revert index. induction l as [|c l IH]; intros index Hl; simpl.
  - by rewrite Nat.add_0_r.
  - apply not_elem_of_cons in Hl as [Hc Hl]. rewrite bool_decide_eq_false_2 by congruence.
    rewrite IH by done. by rewrite Nat.add_succ_r.
Qed.

Lemma line_ranges_cons l rest :
  no_newline l → line_ranges (l ++ NL :: rest) = (0, length l) :: (shift (S (length l)) <$> line_ranges rest).
Proof.
  intros Hl. unfold line_ranges. rewrite line_ranges_line by done.
  rewrite <-(line_ranges_shift (S (length l)) rest 0 0), Nat.add_0_r. done.
Qed.
Lemma line_ranges_single l : no_newline l → line_ranges l = match l with [] => [] | _ => [(0, length l)] end.
Proof. intros Hl. unfold line_ranges. rewrite line_ranges_last by done. by destruct l. Qed.

(** Every text is lines that end in a newline and a rest without one. *)
Lemma text_lines_ind (P : bytes → Prop) :
  (∀ l, no_newline l → P l) → (∀ l rest, no_newline l → P rest → P (l ++ NL :: rest)) → ∀ raw, P raw.
Proof.
  intros H0 H1 raw. remember (length raw) as n eqn:Hn. revert raw Hn. induction (lt_wf n) as [n _ IH]. intros raw ->.
  destruct (decide (NL ∈ raw)) as [Hin|]; [|by apply H0]. apply list_elem_of_split_l in Hin as (l & rest & -> & Hl).
  apply H1; [done|]. eapply IH; [|done]. rewrite length_app. simpl. lia.
Qed.

(** A text that can be followed by a new line. *)
Definition terminated (raw : bytes) : Prop := raw = [] ∨ ∃ before, raw = before ++ [NL].

Lemma terminated_cons l rest : terminated (l ++ NL :: rest) ↔ terminated rest.
Proof.
  split.
  - intros [Hn|[before Hb]]; [by destruct l|]. destruct (decide (rest = [])) as [->|Hne]; [by left|right].
    destruct (exists_last Hne) as (r & c & ->). exists r. rewrite app_comm_cons, app_assoc in Hb.
    by apply app_inj_tail in Hb as [_ ->].
  - intros [->|[before ->]]; right; [by exists l|]. exists (l ++ NL :: before). by rewrite <-app_assoc.
Qed.
Lemma terminated_no_newline l : no_newline l → terminated l → l = [].
Proof. intros Hl [->|[before ->]]; [done|]. destruct Hl. set_solver. Qed.

Lemma line_ranges_app a b' :
  terminated a → line_ranges (a ++ b') = line_ranges a ++ (shift (length a) <$> line_ranges b').
Proof.
  revert a. apply (text_lines_ind (λ a, terminated a → _)).
  - intros l Hl ->%terminated_no_newline; [|done]. simpl. symmetry. erewrite list_fmap_ext; [apply list_fmap_id|]. by intros ? [].
  - intros l rest Hl IH Ht%terminated_cons. rewrite <-app_assoc. cbn [app]. rewrite !line_ranges_cons, IH by done.
    rewrite fmap_app, length_app. simpl. f_equal. f_equal. rewrite <-list_fmap_compose. apply list_fmap_ext.
    intros _ [s e] _. simpl. f_equal; lia.
Qed.

Lemma line_ranges_bounds raw r : r ∈ line_ranges raw → r.1 ≤ r.2 ≤ length raw.
Proof.
  revert raw r. apply (text_lines_ind (λ raw, ∀ r, r ∈ line_ranges raw → _)).
  - intros l Hl r. rewrite line_ranges_single by done. destruct l; [by intros ?%elem_of_nil|].
    intros ->%list_elem_of_singleton. simpl. lia.
  - intros l rest Hl IH r. rewrite line_ranges_cons, elem_of_cons, length_app by done. simpl.
    intros [->|(r' & -> & Hr)%list_elem_of_fmap]; simpl; [lia|]. apply IH in Hr. lia.
Qed.

(** A line begins where the text before it ends with a newline. *)
Lemma line_ranges_start raw r : r ∈ line_ranges raw → terminated (take r.1 raw).
Proof.
  revert raw r. apply (text_lines_ind (λ raw, ∀ r, r ∈ line_ranges raw → _)).
  - intros l Hl r. rewrite line_ranges_single by done. destruct l; [by intros ?%elem_of_nil|].
    intros ->%list_elem_of_singleton. by left.
  - intros l rest Hl IH r. rewrite line_ranges_cons, elem_of_cons by done.
    intros [->|(r' & -> & Hr)%list_elem_of_fmap]; [by left|]. simpl.
    rewrite take_app_ge by lia. replace (S (length l + r'.1) - length l) with (S r'.1) by lia. simpl.
    apply terminated_cons. by apply IH.
Qed.

(** ** The bytes of a range *)

Lemma slice_shift a b' r : slice (a ++ b') (shift (length a) r) = slice b' r.
Proof. unfold slice. simpl. rewrite drop_app_ge by lia. f_equal; [lia|f_equal; lia]. Qed.
Lemma slice_app_l a b' r : r.1 ≤ r.2 ≤ length a → slice (a ++ b') r = slice a r.
Proof.
  intros Hr. unfold slice. rewrite drop_app_le by lia. rewrite take_app_le; [done|]. rewrite length_drop. lia.
Qed.
Lemma slice_whole l : slice l (0, length l) = l.
Proof. unfold slice. simpl. rewrite Nat.sub_0_r. by rewrite firstn_all. Qed.

Lemma range_no_newline raw r : r ∈ line_ranges raw → no_newline (slice raw r).
Proof.
  revert raw r. apply (text_lines_ind (λ raw, ∀ r, r ∈ line_ranges raw → _)).
  - intros l Hl r. rewrite line_ranges_single by done. destruct l as [|c l']; [by intros ?%elem_of_nil|].
    intros ->%list_elem_of_singleton. by rewrite slice_whole.
  - intros l rest Hl IH r. rewrite line_ranges_cons, elem_of_cons by done.
    intros [->|(r' & -> & Hr)%list_elem_of_fmap].
    + rewrite slice_app_l by (simpl; lia). by rewrite slice_whole.
    + replace (S (length l)) with (length (l ++ [NL])) by (rewrite length_app; simpl; lia).
      replace (l ++ NL :: rest) with ((l ++ [NL]) ++ rest) by by rewrite <-app_assoc. rewrite slice_shift. by apply IH.
Qed.

(** ** Trimming *)

Lemma trim_start_suffix l : ∃ w, l = w ++ trim_start l ∧ Forall (λ c, ascii_whitespace c = true) w.
Proof.
  induction l as [|c l (w & Hw & Hf)]; [by exists []|]. simpl. destruct (ascii_whitespace c) eqn:Hc; [|by exists []].
  exists (c :: w). split; [simpl; by rewrite <-Hw|by constructor].
Qed.

Definition head_ok (l : bytes) : Prop := match l with c :: _ => ascii_whitespace c = false | [] => True end.
Lemma trim_start_head l : head_ok (trim_start l).
Proof. induction l as [|c l IH]; simpl; [done|]. by destruct (ascii_whitespace c) eqn:Hc. Qed.
Lemma trim_start_id l : head_ok l → trim_start l = l.
Proof. destruct l as [|c l]; simpl; [done|]. by intros ->. Qed.
Lemma trim_id l : head_ok l → head_ok (rev l) → trim_ascii l = l.
Proof. intros H1 H2. unfold trim_ascii. by rewrite (trim_start_id l H1), (trim_start_id _ H2), rev_involutive. Qed.

(** What is left of [l] is a piece of it that begins and ends with no space. *)
Lemma trim_spec l : ∃ u v, l = u ++ trim_ascii l ++ v ∧ head_ok (trim_ascii l) ∧ head_ok (rev (trim_ascii l)).
Proof.
  unfold trim_ascii. destruct (trim_start_suffix l) as (u & Hu & _). set (y := trim_start l) in *.
  pose proof (trim_start_head l) as Hy. fold y in Hy.
  destruct (trim_start_suffix (rev y)) as (v & Hv & _). set (z := trim_start (rev y)) in *.
  pose proof (trim_start_head (rev y)) as Hz. fold z in Hz.
  assert (y = rev z ++ rev v) as Hyz by by rewrite <-rev_app_distr, <-Hv, rev_involutive.
  exists u, (rev v). rewrite <-Hyz, rev_involutive. split_and!; [done| |done].
  rewrite Hyz in Hy. by destruct (rev z).
Qed.
Lemma trim_idem l : trim_ascii (trim_ascii l) = trim_ascii l.
Proof. destruct (trim_spec l) as (u & v & _ & H1 & H2). by apply trim_id. Qed.
Lemma trim_no_newline l : no_newline l → no_newline (trim_ascii l).
Proof. intros Hl Hin. apply Hl. destruct (trim_spec l) as (u & v & -> & _). set_solver. Qed.
Lemma trim_newline l : trim_ascii (l ++ [NL]) = trim_ascii l.
Proof.
  unfold trim_ascii. f_equal. induction l as [|c l IH]; [done|]. simpl. destruct (ascii_whitespace c); [done|].
  simpl. by rewrite rev_app_distr.
Qed.

(** ** Items: the lines that are not blank, trimmed, with their ranges *)

Definition items (raw : bytes) : list (nat * nat * bytes) :=
  filter (λ x, x.2 ≠ []) ((λ r, (r, trim_ascii (slice raw r))) <$> line_ranges raw).

Lemma items_cons l rest :
  no_newline l → items (l ++ NL :: rest) =
    (match trim_ascii l with [] => [] | line => [((0, length l), line)] end) ++
    ((λ x : nat * nat * bytes, (shift (S (length l)) x.1, x.2)) <$> items rest).
Proof.
  intros Hl. unfold items. rewrite line_ranges_cons by done. rewrite fmap_cons, slice_app_l by (simpl; lia).
  rewrite slice_whole, filter_cons. cbn [snd].
  assert (filter (λ x : nat * nat * bytes, x.2 ≠ []) ((λ r, (r, trim_ascii (slice (l ++ NL :: rest) r))) <$>
      (shift (S (length l)) <$> line_ranges rest)) =
    (λ x : nat * nat * bytes, (shift (S (length l)) x.1, x.2)) <$>
      filter (λ x, x.2 ≠ []) ((λ r, (r, trim_ascii (slice rest r))) <$> line_ranges rest)) as ->.
  { rewrite <-list_fmap_compose. induction (line_ranges rest) as [|r rs IH]; [done|]. rewrite !fmap_cons, !filter_cons.
    cbn [compose snd fst].
    replace (slice (l ++ NL :: rest) (S (length l) + r.1, S (length l) + r.2)) with (slice rest r).
    2: { replace (l ++ NL :: rest) with ((l ++ [NL]) ++ rest) by by rewrite <-app_assoc.
         replace (S (length l)) with (length (l ++ [NL])) by (rewrite length_app; simpl; lia).
         symmetry. apply slice_shift. }
    destruct (decide (trim_ascii (slice rest r) ≠ [])); rewrite IH; done. }
  destruct (trim_ascii l); [by rewrite decide_False by (by intros [])|by rewrite decide_True by done].
Qed.

Lemma items_single l :
  no_newline l → items l = match trim_ascii l with [] => [] | line => [((0, length l), line)] end.
Proof.
  intros Hl. unfold items. rewrite line_ranges_single by done. destruct l as [|c l']; [done|].
  rewrite fmap_cons, slice_whole, fmap_nil, filter_cons. cbn [snd].
  destruct (trim_ascii (c :: l')); [by rewrite decide_False by (by intros [])|by rewrite decide_True by done].
Qed.

(** Rewriting a file from trimmed lines gives those lines. *)
Definition clean_line (l : bytes) : Prop := no_newline l ∧ l ≠ [] ∧ trim_ascii l = l.
Lemma items_of_lines lines : Forall clean_line lines → (items (journal_of_lines lines)).*2 = lines.
Proof.
  induction 1 as [|l lines (Hn & Hne & Ht) _ IH]; [done|]. unfold journal_of_lines. rewrite fmap_cons. cbn [concat].
  rewrite <-app_assoc. cbn [app]. rewrite items_cons, fmap_app by done. rewrite Ht. fold (journal_of_lines lines).
  destruct l as [|c l']; [done|]. cbn [fmap list_fmap app snd]. f_equal.
  etrans; [|exact IH]. rewrite <-list_fmap_compose. by apply list_fmap_ext.
Qed.
Lemma items_clean raw : Forall clean_line (items raw).*2.
Proof.
  apply Forall_forall. intros l ([r line] & -> & [Hne Hin]%list_elem_of_filter)%list_elem_of_fmap. simpl in *.
  apply list_elem_of_fmap in Hin as (r' & [= -> ->] & Hr). split_and!; [|done|apply trim_idem].
  by apply trim_no_newline, range_no_newline.
Qed.

(** Terminating a file keeps its lines. *)
Lemma items_terminate raw : items (raw ++ [NL]) = items raw.
Proof.
  revert raw. apply text_lines_ind.
  - intros l Hl. rewrite items_cons by done. rewrite (items_single l) by done.
    by destruct (trim_ascii l).
  - intros l rest Hl IH. rewrite <-app_assoc. cbn [app].
    by rewrite (items_cons l (rest ++ [NL])), (items_cons l rest), IH by done.
Qed.

(** Cutting a file at the start of an item keeps the items before it. *)
Lemma items_app a b' :
  terminated a → items (a ++ b') = items a ++ ((λ x : nat * nat * bytes, (shift (length a) x.1, x.2)) <$> items b').
Proof.
  revert a. apply (text_lines_ind (λ a, terminated a → _)).
  - intros l Hl ->%terminated_no_newline; [|done]. simpl. symmetry.
    erewrite list_fmap_ext; [apply list_fmap_id|]. by intros ? [[] ?].
  - intros l rest Hl IH Ht%terminated_cons. rewrite <-app_assoc. cbn [app]. rewrite (items_cons l (rest ++ b')), (items_cons l rest), IH by done.
    rewrite fmap_app, length_app, <-app_assoc. simpl. f_equal. f_equal. rewrite <-list_fmap_compose. apply list_fmap_ext.
    intros _ [[s e] line] _. simpl. f_equal; f_equal; lia.
Qed.

(** The items of a file are in order. *)
Definition before_range (x y : nat * nat * bytes) : Prop := x.1.1 ≤ x.1.2 < y.1.1.
Lemma items_sorted raw : StronglySorted before_range (items raw).
Proof.
  revert raw. apply text_lines_ind.
  - intros l Hl. rewrite items_single by done. destruct (trim_ascii l); repeat constructor.
  - intros l rest Hl IH. rewrite items_cons by done.
    assert (StronglySorted before_range ((λ x : nat * nat * bytes, (shift (S (length l)) x.1, x.2)) <$> items rest)) as Hs.
    { clear -IH. induction IH as [|x xs _ IH Hx]; [constructor|]. rewrite fmap_cons. constructor; [done|].
      apply Forall_fmap. eapply Forall_impl; [exact Hx|]. intros y. unfold before_range. simpl. lia. }
    destruct (trim_ascii l); [done|]. cbn [app]. constructor; [done|]. apply Forall_fmap, Forall_forall.
    intros y _. unfold before_range. simpl. lia.
Qed.
Lemma items_range raw x : x ∈ items raw → x.1 ∈ line_ranges raw ∧ x.2 = trim_ascii (slice raw x.1).
Proof. intros [_ (r & -> & Hr)%list_elem_of_fmap]%list_elem_of_filter. done. Qed.

Lemma sorted_split {A} (R : A → A → Prop) before x after (P : A → Prop) `{∀ a, Decision (P a)} :
  StronglySorted R (before ++ x :: after) → (∀ a, R a x → P a) → (∀ a, R x a → ¬ P a) → ¬ P x →
  filter P (before ++ x :: after) = before.
Proof.
  intros Hs H1 H2 Hx. rewrite filter_app. rewrite (filter_cons_False P) by done.
  rewrite (filter_all P before), (filter_none P after), app_nil_r; [done| |apply Forall_forall].
  - intros a Ha. apply H2. apply StronglySorted_app_1_r in Hs. apply StronglySorted_inv in Hs as [_ Hs].
    by eapply Forall_forall in Hs.
  - intros a Ha. apply H1. eapply StronglySorted_app_1_elem_of; [exact Hs|done|set_solver].
Qed.

(** Cutting a file at the start of an item keeps the items before it. *)
Lemma items_cut raw before it after :
  items raw = before ++ it :: after → items (take it.1.1 raw) = before.
Proof.
  intros Hi. set (start := it.1.1).
  assert (it ∈ items raw) as Hit by (rewrite Hi; set_solver). apply items_range in Hit as [Hr _].
  pose proof (line_ranges_bounds _ _ Hr) as Hb. pose proof (line_ranges_start _ _ Hr) as Ht.
  assert (items raw = items (take start raw) ++
    ((λ x : nat * nat * bytes, (shift start x.1, x.2)) <$> items (drop start raw))) as Hsplit.
  { rewrite <-(take_drop start raw) at 1. rewrite items_app by done. rewrite length_take_le by (unfold start; lia). done. }
  assert (∀ x, x ∈ items (take start raw) → x.1.1 < start) as Hlt.
  { intros x Hx. assert (x.2 ≠ []) as Hne by (by apply list_elem_of_filter in Hx as [? _]).
    apply items_range in Hx as [Hx Hl]. apply line_ranges_bounds in Hx. rewrite length_take in Hx.
    destruct (decide (x.1.1 = x.1.2)) as [E|]; [|lia]. destruct Hne. rewrite Hl. unfold slice. by rewrite E, Nat.sub_diag. }
  assert (filter (λ x : nat * nat * bytes, x.1.1 < start) (items raw) = before) as <-.
  { rewrite Hi. apply (sorted_split before_range); [rewrite <-Hi; apply items_sorted|unfold before_range, start; lia..|lia]. }
  rewrite Hsplit, filter_app, (filter_all _ (items (take start raw))) by (by apply Forall_forall).
  rewrite filter_none, app_nil_r; [done|]. intros x (y & -> & _)%list_elem_of_fmap. simpl. lia.
Qed.
