(* ===== verification/JournalRecover.v ===== *)
(** * The conversation journal: recovery

    What the validating scan finds and what its repair leaves: the kept records
    and the placeholders are dense, the repaired journal scans clean, and what
    a repair takes out of the files was copied first. *)
From S2P Require Import Prelude Bytes Text Channel Json JsonObject Model Digest Summary Recipients Keyring Dek HistoryCrypto Record SegmentIndex SegmentBuilder SegmentRun SegmentContent FrameCache SegmentReader SegmentPlan JournalScan JournalRepair JournalLines.
From stdpp Require Import pretty.
From Stdlib Require Import Strings.Byte ZifyBool.
Local Open Scope N_scope.

(** A line of a run: its file, its range there, its trimmed bytes. *)
Abbreviation Item := (nat * (nat * nat * bytes))%type.
Definition run_items (run : list (nat * JournalFile)) : list Item :=
  flat_map (λ f, (f.1,.) <$> items (jf_data f.2)) run.

Section scan.
Context `{JsonView} `{!Serde}.
Context (cid : string) (barrier : option N).
Implicit Types (st : ScanState) (its kept : list Item).

Definition scan_item st (it : Item) : ScanState :=
  match readable_record cid (ss_expected st) barrier it.2.2 with
  | Some event =>
      if sequence event - ss_expected st <=? capacity (ss_pending st) then accept_record it.1 it.2.1 event st
      else corrupt_line it.1 it.2.1 st
  | None => corrupt_line it.1 it.2.1 st
  end.

(** The scan of a file is the scan of its items. *)
Definition with_files (u : option nat) (p : list nat) st : ScanState :=
  {| ss_expected := ss_expected st; ss_entries := ss_entries st; ss_damaged := ss_damaged st; ss_pending := ss_pending st;
     ss_last := ss_last st; ss_unterminated := u; ss_present := p |}.

Lemma scan_item_with u p st it : scan_item (with_files u p st) it = with_files u p (scan_item st it).
Proof.
  unfold scan_item. cbn [ss_expected ss_pending with_files].
  destruct (readable_record _ _ _ _); [|done]. by destruct (_ <=? _).
Qed.
Lemma scan_items_with u p st its : foldl scan_item (with_files u p st) its = with_files u p (foldl scan_item st its).
Proof. revert st. induction its as [|it its IH]; intros st; [done|]. simpl. by rewrite scan_item_with, IH. Qed.

Lemma scan_lines_items file raw st ranges :
  foldl (scan_line cid barrier file raw) st ranges =
  foldl scan_item st ((file,.) <$> filter (λ x : nat * nat * bytes, x.2 ≠ []) ((λ r, (r, trim_ascii (slice raw r))) <$> ranges)).
Proof.
  revert st. induction ranges as [|r ranges IH]; intros st; [done|]. rewrite fmap_cons, filter_cons. cbn [foldl snd].
  rewrite IH. unfold scan_line.
  destruct (trim_ascii (slice raw r)) as [|c line] eqn:Hl; [by rewrite decide_False by (by intros [])|].
  by rewrite decide_True by done.
Qed.

Definition run_unterminated (u : option nat) (run : list (nat * JournalFile)) : option nat :=
  foldl (λ u (f : nat * JournalFile), match jf_data f.2 with [] => u | raw => if ends_with_newline raw then None else Some f.1 end) u run.

Lemma scan_run_items run st :
  foldl (scan_file cid barrier) st run =
  with_files (run_unterminated (ss_unterminated st) run) (ss_present st ++ run.*1) (foldl scan_item st (run_items run)).
Proof.
  revert st. induction run as [|[file f] run IH]; intros st.
  { simpl. rewrite app_nil_r. by destruct st. }
  cbn [foldl]. rewrite IH. unfold run_items at 2. cbn [flat_map]. rewrite foldl_app. fold (run_items run).
  assert (scan_file cid barrier st (file, f) =
    with_files (match jf_data f with [] => ss_unterminated st | raw => if ends_with_newline raw then None else Some file end)
      (ss_present st ++ [file]) (foldl scan_item st ((file,.) <$> items (jf_data f)))) as ->.
  { unfold scan_file. rewrite scan_lines_items. cbn [fst snd].
    change (open_file file (jf_data f) st) with (with_files (match jf_data f with [] => ss_unterminated st |
      _ => if ends_with_newline (jf_data f) then None else Some file end) (ss_present st ++ [file]) st).
    rewrite scan_items_with. by destruct (jf_data f). }
  rewrite scan_items_with. cbn [ss_unterminated ss_present with_files].
  unfold run_unterminated at 2. cbn [foldl fst snd]. rewrite fmap_cons, <-app_assoc. done.
Qed.

(** ** The entries of a scan *)

(** A record the scan may keep at sequence [n]. *)
Definition record_at (n : N) (line : bytes) (event : ConversationEvent) : Prop :=
  decode_journal_record line cid = Ok event ∧ sequence event = n ∧ validate_event event cid n = Ok tt.

(** The entries are dense from [first] up to before [n]: kept records, which
    are the items [kept], and placeholder runs stamped like a record. *)
Definition stamp_ok (t : option Z) : Prop :=
  ∀ z, t = Some z → ∃ line event, decode_journal_record line cid = Ok event ∧ time event = z.
Inductive salvages (first : N) : list SalvagedEntry → list Item → N → Prop :=
  | salvages_nil : salvages first [] [] first
  | salvages_kept entries kept n file r line event :
      salvages first entries kept n → record_at n line event →
      salvages first (entries ++ [KeptRecord file n r.1 r.2]) (kept ++ [(file, (r, line))]) (n + 1)
  | salvages_lost entries kept n file length t p :
      salvages first entries kept n → 0 < length → stamp_ok t →
      salvages first (entries ++ [LostRun file n length t p]) kept (n + length).

Lemma salvages_kept_items first entries kept n : salvages first entries kept n →
  ∀ file m a b', KeptRecord file m a b' ∈ entries → ∃ line, (file, ((a, b'), line)) ∈ kept.
Proof.
  induction 1 as [|entries kept n file r line event _ IH _|entries kept n file len t p _ IH _ _];
    intros f m a b'; [by intros ?%elem_of_nil| |].
  - intros [He|E%list_elem_of_singleton]%elem_of_app.
    + destruct (IH _ _ _ _ He) as [l Hl]. exists l. set_solver.
    + injection E as -> _ -> ->. exists line. destruct r. set_solver.
  - intros [He|E%list_elem_of_singleton]%elem_of_app; [eauto|done].
Qed.

Definition pending_files (p : option PendingCorrupt) : gset nat := match p with Some c => pc_files c | None => ∅ end.
Definition of_file (file : nat) (its : list Item) : list Item := filter (λ it, it.1 = file) its.

(** What the scan of [its] has found. *)
Record scan_inv (first : N) (its : list Item) (st : ScanState) : Prop := {
  si_kept : ∃ kept, salvages first (ss_entries st) kept (ss_expected st) ∧ kept ⊆ its ∧
    (∀ file, file ∉ ss_damaged st → file ∉ pending_files (ss_pending st) → of_file file its = of_file file kept) ∧
    (ss_damaged st = ∅ →
       match ss_pending st with
       | Some c => ∃ it after, its = kept ++ it :: after ∧ it.1 = pc_file c ∧ it.2.1.1 = pc_start c
       | None => its = kept
       end);
  si_last e : ss_last st = Some e → ∃ line, decode_journal_record line cid = Ok e.2;
  si_sorted : StronglySorted le (entry_file <$> ss_entries st);
  si_files e : e ∈ ss_entries st → ∃ it, it ∈ its ∧ entry_file e = it.1;
  si_lost file n length t p : LostRun file n length t p ∈ ss_entries st → file ∈ ss_damaged st;
  si_damaged file : file ∈ ss_damaged st ∪ pending_files (ss_pending st) → ∃ it, it ∈ its ∧ it.1 = file;
  si_pending c : ss_pending st = Some c →
    pc_file c ∈ pc_files c ∧ (∀ file, file ∈ pc_files c → (pc_file c ≤ file)%nat) ∧
    ∀ e, e ∈ ss_entries st → (entry_file e ≤ pc_file c)%nat;
}.

Lemma scan_inv_start first : scan_inv first [] (scan_start first).
Proof.
  split; simpl; try done; try set_solver.
  - exists []. split_and!; [constructor|done|done|done].
  - constructor.
Qed.

Lemma of_file_app file its1 its2 : of_file file (its1 ++ its2) = of_file file its1 ++ of_file file its2.
Proof. apply filter_app. Qed.
Lemma of_file_other file (it : Item) : it.1 ≠ file → of_file file [it] = [].
Proof. intros Hne. unfold of_file. by rewrite filter_cons_False. Qed.

Lemma readable_record_at expected line event :
  readable_record cid expected barrier line = Some event →
  record_at (sequence event) line event ∧ expected <= sequence event.
Proof.
  unfold readable_record. destruct (decode_journal_record line cid) as [e|] eqn:Hd; [|done]. simpl.
  destruct (expected <=? sequence e) eqn:Hle; [|done]. destruct (match barrier with Some _ => _ | None => _ end); [|done].
  simpl. case_bool_decide; [|done]. intros [= <-]. split; [done|lia].
Qed.

Lemma stamp_last st :
  (∀ e, ss_last st = Some e → ∃ line, decode_journal_record line cid = Ok e.2) → stamp_ok (time ∘ snd <$> ss_last st).
Proof.
  intros Hl z Hz. destruct (ss_last st) as [e|]; [|done]. injection Hz as <-. destruct (Hl e eq_refl) as [line Hd].
  by exists line, e.2.
Qed.

(** The entries an accepted record adds. *)
Lemma accept_entries first its st (it : Item) event kept :
  scan_inv first its st → (∀ x, x ∈ its → (x.1 ≤ it.1)%nat) → salvages first (ss_entries st) kept (ss_expected st) →
  record_at (sequence event) it.2.2 event → ss_expected st <= sequence event →
  sequence event - ss_expected st <= capacity (ss_pending st) →
  let st' := accept_record it.1 it.2.1 event st in
  salvages first (ss_entries st') (kept ++ [it]) (ss_expected st') ∧
  StronglySorted le (entry_file <$> ss_entries st') ∧
  (∀ e, e ∈ ss_entries st' → e ∈ ss_entries st ∨ entry_file e = it.1 ∨ ∃ c, ss_pending st = Some c ∧ entry_file e = pc_file c) ∧
  (∀ file n length t p, LostRun file n length t p ∈ ss_entries st' →
     LostRun file n length t p ∈ ss_entries st ∨ ∃ c, ss_pending st = Some c ∧ file = pc_file c).
Proof.
  intros Hi Hle Hs Hr Hexp Hcap. destruct it as [file [r line]]. cbn [fst snd] in *. cbv zeta. unfold accept_record.
  cbn [ss_entries ss_expected].
  assert (∀ e, e ∈ ss_entries st → (entry_file e ≤ file)%nat) as Hentries.
  { intros e (x & Hx & ->)%(si_files _ _ _ Hi). auto. }
  assert (∀ pre n, salvages first pre kept n → n = sequence event →
    salvages first (pre ++ [KeptRecord file (sequence event) r.1 r.2]) (kept ++ [(file, (r, line))]) (sequence event + 1)) as Hkeep.
  { intros pre n Hpre ->. by eapply salvages_kept. }
  assert (∀ pre, StronglySorted le (entry_file <$> pre) → (∀ e, e ∈ pre → (entry_file e ≤ file)%nat) →
    StronglySorted le (entry_file <$> pre ++ [KeptRecord file (sequence event) r.1 r.2])) as Hsort.
  { intros pre Hp Hf. rewrite fmap_app. apply StronglySorted_app. split_and!; [|done|repeat constructor].
    intros x1 x2 (e & -> & He)%list_elem_of_fmap ->%list_elem_of_singleton. by apply Hf. }
  destruct (ss_pending st) as [c|] eqn:Hp; cbn [capacity] in Hcap.
  - destruct (si_pending _ _ _ Hi c Hp) as (Hc1 & Hc2 & Hc3).
    assert (pc_file c ≤ file)%nat as Hcf.
    { destruct (si_damaged _ _ _ Hi (pc_file c)) as (x & Hx & <-); [rewrite Hp; set_solver|auto]. }
    destruct (0 <? sequence event - ss_expected st) eqn:Hlost.
    + rewrite app_assoc.
      assert (StronglySorted le (entry_file <$> ss_entries st ++ [lost_entry (pc_file c) (ss_expected st)
        (sequence event - ss_expected st) (ss_last st)])) as Hs1.
      { rewrite fmap_app. apply StronglySorted_app. split_and!; [|apply (si_sorted _ _ _ Hi)|repeat constructor].
        intros x1 x2 (e & -> & He)%list_elem_of_fmap ->%list_elem_of_singleton. by apply Hc3. }
      split_and!.
      * apply (Hkeep _ (ss_expected st + (sequence event - ss_expected st))); [|lia].
        apply salvages_lost; [done|lia|]. apply stamp_last, (si_last _ _ _ Hi).
      * apply Hsort; [done|]. intros e [He| ->%list_elem_of_singleton]%elem_of_app; [auto|done].
      * intros e [[He| ->%list_elem_of_singleton]%elem_of_app| ->%list_elem_of_singleton]%elem_of_app; eauto.
      * intros f n l t p [[He|E%list_elem_of_singleton]%elem_of_app|E%list_elem_of_singleton]%elem_of_app; [auto| |done].
        unfold lost_entry in E. injection E as -> _ _ _ _. eauto.
    + cbn [app]. split_and!; [apply (Hkeep _ (ss_expected st)); [done|lia]|apply Hsort; [apply (si_sorted _ _ _ Hi)|done]| |].
      * intros e [He| ->%list_elem_of_singleton]%elem_of_app; auto.
      * intros f n l t p [He|E%list_elem_of_singleton]%elem_of_app; [auto|done].
  - cbn [app]. split_and!; [apply (Hkeep _ (ss_expected st)); [done|lia]|apply Hsort; [apply (si_sorted _ _ _ Hi)|done]| |].
    + intros e [He| ->%list_elem_of_singleton]%elem_of_app; auto.
    + intros f n l t p [He|E%list_elem_of_singleton]%elem_of_app; [auto|done].
Qed.

Lemma accept_inv first its st (it : Item) event :
  scan_inv first its st → (∀ x, x ∈ its → (x.1 ≤ it.1)%nat) →
  record_at (sequence event) it.2.2 event → ss_expected st <= sequence event →
  sequence event - ss_expected st <= capacity (ss_pending st) →
  scan_inv first (its ++ [it]) (accept_record it.1 it.2.1 event st).
Proof.
  intros Hi Hle Hr Hexp Hcap. destruct (si_kept _ _ _ Hi) as (kept & Hs & Hsub & Hof & Hnone).
  destruct (accept_entries first its st it event kept Hi Hle Hs Hr Hexp Hcap) as (Hs' & Hsort & Hfiles & Hlost).
  assert (∀ file, file ∈ ss_damaged (accept_record it.1 it.2.1 event st) ↔
    file ∈ ss_damaged st ∪ pending_files (ss_pending st)) as Hdam.
  { intros file. unfold accept_record. simpl. destruct (ss_pending st); simpl; set_solver. }
  split.
  - exists (kept ++ [it]). split; [exact Hs'|]. split; [set_solver|]. split.
    + intros file Hd%(not_iff_compat (Hdam file)) _. rewrite !of_file_app. f_equal. apply Hof; set_solver.
    + intros Hd. change (ss_pending (accept_record it.1 it.2.1 event st)) with (@None PendingCorrupt).
      destruct (ss_pending st) as [c|] eqn:Hp.
      { destruct (si_pending _ _ _ Hi c Hp) as (Hc & _). exfalso. apply (not_elem_of_empty (C:=gset nat) (pc_file c)).
        rewrite <-Hd. apply Hdam. set_solver. }
      f_equal. apply Hnone. unfold accept_record in Hd. simpl in Hd. by rewrite Hp in Hd.
  - intros e [= <-]. exists it.2.2. apply Hr.
  - exact Hsort.
  - intros e He. destruct (Hfiles e He) as [He'|[->|(c & Hp & ->)]].
    + destruct (si_files _ _ _ Hi e He') as (x & ? & ?). exists x. set_solver.
    + exists it. set_solver.
    + destruct (si_pending _ _ _ Hi c Hp) as (Hc & _).
      destruct (si_damaged _ _ _ Hi (pc_file c)) as (x & ? & ?); [rewrite Hp; set_solver|]. exists x. set_solver.
  - intros file n length t p He. apply Hdam. destruct (Hlost _ _ _ _ _ He) as [He'|(c & Hp & ->)].
    + apply elem_of_union_l. by eapply (si_lost _ _ _ Hi).
    + destruct (si_pending _ _ _ Hi c Hp) as (Hc & _). rewrite Hp. set_solver.
  - intros file [Hf%Hdam|Hf]%elem_of_union; [|by apply elem_of_empty in Hf].
    destruct (si_damaged _ _ _ Hi file Hf) as (x & ? & ?). exists x. set_solver.
  - done.
Qed.

Lemma corrupt_inv first its st (it : Item) :
  scan_inv first its st → (∀ x, x ∈ its → (x.1 ≤ it.1)%nat) → scan_inv first (its ++ [it]) (corrupt_line it.1 it.2.1 st).
Proof.
  intros Hi Hle. destruct (si_kept _ _ _ Hi) as (kept & Hs & Hsub & Hof & Hnone).
  assert (∀ file, file ∈ pending_files (ss_pending (corrupt_line it.1 it.2.1 st)) ↔
    file ∈ pending_files (ss_pending st) ∨ file = it.1) as Hpf.
  { intros file. unfold corrupt_line. simpl. destruct (ss_pending st); simpl; set_solver. }
  split.
  - exists kept. split; [done|]. split; [set_solver|]. split.
    + intros file Hd Hp%(not_iff_compat (Hpf file)). rewrite of_file_app, of_file_other, app_nil_r; [apply Hof; tauto|].
      intros E. apply Hp. by right.
    + intros Hd. specialize (Hnone Hd). unfold corrupt_line. simpl. destruct (ss_pending st) as [c|]; simpl.
      * destruct Hnone as (x & after & -> & Hx). exists x, (after ++ [it]). rewrite <-app_assoc. done.
      * rewrite Hnone. by exists it, [].
  - apply (si_last _ _ _ Hi).
  - apply (si_sorted _ _ _ Hi).
  - intros e He. destruct (si_files _ _ _ Hi e He) as (x & ? & ?). exists x. set_solver.
  - apply (si_lost _ _ _ Hi).
  - intros file [Hf|[Hf| ->]%Hpf]%elem_of_union; [| |exists it; set_solver].
    all: destruct (si_damaged _ _ _ Hi file) as (x & ? & ?); [set_solver|exists x; set_solver].
  - unfold corrupt_line. intros c [= <-]. simpl. destruct (ss_pending st) as [c|] eqn:Hp; simpl.
    + destruct (si_pending _ _ _ Hi c Hp) as (Hc1 & Hc2 & Hc3). split_and!; [set_solver| |done].
      intros file [Hf| ->%elem_of_singleton]%elem_of_union; [auto|].
      destruct (si_damaged _ _ _ Hi (pc_file c)) as (x & Hx & <-); [rewrite Hp; set_solver|auto].
    + split_and!; [set_solver|set_solver|]. intros e (x & Hx & ->)%(si_files _ _ _ Hi). auto.
Qed.

Lemma scan_item_inv first its st (it : Item) :
  scan_inv first its st → (∀ x, x ∈ its → (x.1 ≤ it.1)%nat) → scan_inv first (its ++ [it]) (scan_item st it).
Proof.
  intros Hi Hle. unfold scan_item. destruct (readable_record _ _ _ _) as [event|] eqn:Hr; [|by apply corrupt_inv].
  apply readable_record_at in Hr as [Hr Hexp]. destruct (_ <=? _) eqn:Hc; [|by apply corrupt_inv].
  apply accept_inv; [done..|lia].
Qed.

Lemma scan_items_inv first its :
  StronglySorted (λ x y : Item, (x.1 ≤ y.1)%nat) its → scan_inv first its (foldl scan_item (scan_start first) its).
Proof.
  induction its as [|it its IH] using rev_ind; intros Hs; [apply scan_inv_start|].
  rewrite foldl_snoc. apply StronglySorted_app in Hs as (Hle & Hs & _). apply scan_item_inv; [by apply IH|].
  intros x Hx. apply Hle; set_solver.
Qed.
End scan.

(** ** Clean lines scan clean *)

Section clean.
Context `{JsonView} `{!Serde}.
Context (cid : string).

(** The lines hold the records [n], [n + 1], ... *)
Fixpoint dense_lines (n : N) (lines : list bytes) : Prop :=
  match lines with
  | [] => True
  | line :: lines => (∃ event, record_at cid n line event) ∧ dense_lines (n + 1) lines
  end.
Lemma dense_lines_app n l1 l2 :
  dense_lines n (l1 ++ l2) ↔ dense_lines n l1 ∧ dense_lines (n + N.of_nat (length l1)) l2.
Proof.
  revert n. induction l1 as [|l l1 IH]; intros n; simpl.
  - rewrite N.add_0_r. tauto.
  - rewrite IH. replace (n + 1 + N.of_nat (length l1)) with (n + N.of_nat (S (length l1))) by lia. tauto.
Qed.

Definition item_entries (n : N) (its : list Item) : list SalvagedEntry :=
  imap (λ i (it : Item), KeptRecord it.1 (n + N.of_nat i) it.2.1.1 it.2.1.2) its.
Definition fits (barrier : option N) (n : N) : Prop := match barrier with Some b => n <= b | None => True end.

Lemma readable_dense barrier n line event :
  record_at cid n line event → fits barrier (n + 1) → readable_record cid n barrier line = Some event.
Proof.
  intros (Hd & Hs & Hv) Hb. unfold readable_record. rewrite Hd. simpl. rewrite Hs.
  replace (n <=? n) with true by lia.
  destruct barrier as [b|]; simpl in *; [replace (n <? b) with true by lia|]; by rewrite bool_decide_eq_true_2.
Qed.

(** The last record a reader of the items has seen. *)
Definition item_event (seen : option (nat * ConversationEvent)) (it : Item) : option (nat * ConversationEvent) :=
  match decode_journal_record it.2.2 cid with Ok event => Some (it.1, event) | Err _ => seen end.

(** The scan of dense lines keeps them all. *)
Lemma scan_dense barrier its st :
  dense_lines (ss_expected st) (its.*2.*2) → ss_pending st = None →
  fits barrier (ss_expected st + N.of_nat (length its)) →
  let st' := foldl (scan_item cid barrier) st its in
  ss_expected st' = ss_expected st + N.of_nat (length its) ∧ ss_pending st' = None ∧ ss_damaged st' = ss_damaged st ∧
  ss_entries st' = ss_entries st ++ item_entries (ss_expected st) its ∧ ss_last st' = foldl item_event (ss_last st) its.
Proof.
  revert st. induction its as [|it its IH]; intros st Hd Hp Hb; simpl in *.
  { rewrite N.add_0_r, app_nil_r. done. }
  destruct Hd as [[event Hr] Hd].
  assert (scan_item cid barrier st it = accept_record it.1 it.2.1 event st) as ->.
  { unfold scan_item. rewrite (readable_dense _ _ _ event); [|done|destruct barrier; simpl in *; lia].
    destruct Hr as (_ & Hs & _). destruct (_ <=? _) eqn:E; [done|lia]. }
  assert (ss_expected (accept_record it.1 it.2.1 event st) = ss_expected st + 1) as He.
  { simpl. by destruct Hr as (_ & -> & _). }
  destruct (IH (accept_record it.1 it.2.1 event st)) as (H1' & H2' & H3' & H4' & H5'); [by rewrite He|done| |].
  { rewrite He. replace (ss_expected st + 1 + N.of_nat (length its)) with (ss_expected st + N.pos (Pos.of_succ_nat (length its))) by lia. done. }
  rewrite He in *. split_and!; [rewrite H1'; lia|done|rewrite H3'; simpl; by rewrite Hp| |].
  2: { rewrite H5'. simpl. f_equal. unfold item_event. by destruct Hr as (-> & _ & _). }
  rewrite H4'. simpl. rewrite Hp. cbn [app]. rewrite <-app_assoc. cbn [app]. f_equal.
  destruct Hr as (_ & -> & _). unfold item_entries. rewrite imap_cons, N.add_0_r. f_equal.
  apply imap_ext. intros i x _. simpl. f_equal. lia.
Qed.
End clean.

(** ** The lines of the entries *)

(** What the journal relies on besides [SerdeLaws]: a record is written on one
    line that does not end in a space, and what is read is an instant. *)
Class JournalLaws `{JsonView} `{!Serde} : Prop := {
  record_one_line r : no_newline (record_to_vec r);
  record_visible_end r : ∃ c, last (record_to_vec r) = Some c ∧ ascii_whitespace c = false;
  decoded_time line cid event : decode_journal_record line cid = Ok event → time_in_range (time event) = true;
}.

Section lines.
Context `{JsonViewLaws} `{!Serde} `{!SerdeLaws} `{!JournalLaws}.
Context (backup_name : string) (now : Z) (fresh_id : N → string) (cid : string).
Hypothesis now_in_range : time_in_range (now / 1000 * 1000)%Z = true.

Abbreviation placeholder := (placeholder backup_name now fresh_id).
Abbreviation entry_lines := (entry_lines backup_name now fresh_id cid).

Lemma head_ok_rev l c : last l = Some c → ascii_whitespace c = false → head_ok (rev l).
Proof.
  intros Hl Hc. destruct (decide (l = [])) as [->|Hne]; [done|]. destruct (exists_last Hne) as (l' & c' & ->).
  rewrite last_snoc in Hl. injection Hl as ->. by rewrite rev_app_distr.
Qed.
Lemma encoded_clean event : clean_line (encode_record event).
Proof.
  assert (∀ r, clean_line (record_to_vec r)) as Hr.
  { intros r. pose proof (record_prefix r) as Hp. destruct (record_visible_end r) as (c & Hl & Hc).
    split_and!; [apply record_one_line|by intros Hn; rewrite Hn in Hl|]. apply trim_id; [|by eapply head_ok_rev].
    destruct (record_to_vec r) as [|c' l]; [done|]. simpl. unfold V3_RECORD_PREFIX in Hp. simpl in Hp.
    injection Hp as -> _. done. }
  unfold encode_record. destruct (get _ _) as [x|]; [destruct (is_object x)|]; apply Hr.
Qed.

Lemma placeholder_record_at sequence run_start run_length t p :
  stamp_ok cid t →
  record_at cid sequence (encode_record (placeholder cid sequence run_start run_length t p))
    (placeholder cid sequence run_start run_length t p).
Proof.
  intros Ht. split_and!; [|done|].
  - apply (line_decodes (placeholder cid sequence run_start run_length t p)).
    + split; [done| |done]. simpl. destruct t as [z|]; [|done]. destruct (Ht z eq_refl) as (line & event & Hd & <-).
      by eapply decoded_time.
    + left. simpl. unfold encrypted_content. rewrite get_object. split.
      * done.
      * intros Hn. apply (f_equal as_object) in Hn. rewrite as_object_value in Hn. unfold as_object in Hn.
        by rewrite view_null in Hn.
  - unfold validate_event. simpl. by rewrite String.eqb_refl, N.eqb_refl.
Qed.

Lemma run_sequences_dense n length t p run_start run_length :
  stamp_ok cid t →
  dense_lines cid n ((λ s, encode_record (placeholder cid s run_start run_length t p)) <$>
    ((λ i, n + N.of_nat i) <$> seq 0 length)).
Proof.
  intros Ht. revert n. induction length as [|length IH]; intros n; [done|]. cbn [seq]. rewrite !fmap_cons. cbn [dense_lines].
  rewrite N.add_0_r. split; [eexists; by apply placeholder_record_at|].
  rewrite <-seq_shift. replace ((λ i, n + N.of_nat i) <$> map S (seq 0 length)) with ((λ i, n + 1 + N.of_nat i) <$> seq 0 length).
  { apply IH. }
  change (map S (seq 0 length)) with (S <$> seq 0 length). rewrite <-list_fmap_compose. apply list_fmap_ext. intros _ i _. simpl. lia.
Qed.

(** The lines the entries stand for are dense, and clean. *)
Lemma salvages_lines (data : nat → bytes) first entries kept n :
  salvages cid first entries kept n →
  (∀ it : Item, it ∈ kept → it.2.2 = trim_ascii (slice (data it.1) it.2.1)) →
  let lines := flat_map (λ e, entry_lines (data (entry_file e)) e) entries in
  dense_lines cid first lines ∧ n = first + N.of_nat (length lines).
Proof.
  intros Hs Hdata. cbv zeta. induction Hs as [|entries kept n file r line event Hs IH Hr|entries kept n file len t p Hs IH Hlen Ht].
  - simpl. split; [done|lia].
  - destruct IH as [IH1 IH2]; [intros it Hit; apply Hdata; set_solver|].
    rewrite flat_map_app, dense_lines_app, length_app. cbn [flat_map entry_file JournalRepair.entry_lines app length].
    rewrite <-IH2. split; [|lia]. split; [done|]. split; [|done]. exists event.
    pose proof (Hdata (file, (r, line)) ltac:(set_solver)) as Hl. cbn [fst snd] in Hl.
    rewrite Hl in Hr. by destruct r.
  - destruct IH as [IH1 IH2]; [intros it Hit; by apply Hdata|].
    rewrite flat_map_app, dense_lines_app, length_app. cbn [flat_map entry_file JournalRepair.entry_lines].
    rewrite app_nil_r, <-IH2. unfold run_sequences. rewrite !length_fmap, length_seq. split; [|lia].
    split; [done|]. by apply run_sequences_dense.
Qed.
End lines.
