(* ===== verification/JournalConverge.v ===== *)
(** * The conversation journal: repairs converge

    A repaired run of plaintext files scans clean, so validating a journal ends
    with an index of it. *)
From S2P Require Import Prelude Bytes Text Channel Json JsonObject Model Digest Summary Recipients Keyring Dek HistoryCrypto Record SegmentIndex SegmentBuilder SegmentRun SegmentContent FrameCache SegmentReader SegmentPlan JournalScan JournalRepair JournalLines JournalRecover.
From stdpp Require Import pretty.
From Stdlib Require Import Strings.Byte ZifyBool.
Local Open Scope N_scope.

(** ** The items of a run *)
Section run.
Implicit Types (files : list JournalFile) (its : list Item).

Lemma indexed_from_cons base f files : indexed_from base (f :: files) = (base, f) :: indexed_from (S base) files.
Proof.
  unfold indexed_from. rewrite imap_cons, Nat.add_0_r. f_equal. apply imap_ext. intros i x _. simpl. f_equal. lia.
Qed.
Lemma run_items_cons base f files :
  run_items (indexed_from base (f :: files)) = ((base,.) <$> items (jf_data f)) ++ run_items (indexed_from (S base) files).
Proof. by rewrite indexed_from_cons. Qed.

(** The lines of a run, whatever the numbers of its files. *)
Definition file_lines (f : JournalFile) : list bytes := (items (jf_data f)).*2.
Lemma run_lines base files : (run_items (indexed_from base files)).*2.*2 = flat_map file_lines files.
Proof.
  revert base. induction files as [|f files IH]; intros base; [done|].
  rewrite run_items_cons, !fmap_app, IH. cbn [flat_map]. f_equal. unfold file_lines.
  f_equal. induction (items (jf_data f)) as [|x xs IHx]; [done|]. rewrite !fmap_cons. by f_equal.
Qed.

Lemma run_item_file base files (it : Item) :
  it ∈ run_items (indexed_from base files) → ∃ k f, files !! k = Some f ∧ it.1 = (base + k)%nat ∧ it.2 ∈ items (jf_data f).
Proof.
  revert base. induction files as [|f files IH]; intros base; [by intros ?%elem_of_nil|].
  rewrite run_items_cons. intros [(x & -> & Hx)%list_elem_of_fmap|Hin]%elem_of_app.
  - exists 0%nat, f. rewrite Nat.add_0_r. done.
  - apply IH in Hin as (k & f' & Hk & -> & Hi). exists (S k), f'. split_and!; [done|lia|done].
Qed.
Lemma run_items_sorted base files : StronglySorted (λ x y : Item, (x.1 ≤ y.1)%nat) (run_items (indexed_from base files)).
Proof.
  revert base. induction files as [|f files IH]; intros base; [constructor|]. rewrite run_items_cons.
  apply StronglySorted_app. split_and!; [| |apply IH].
  - intros x y (x' & -> & _)%list_elem_of_fmap (k & f' & _ & -> & _)%run_item_file. simpl. lia.
  - induction (items (jf_data f)) as [|x xs IHx]; [constructor|]. rewrite fmap_cons. constructor; [done|].
    apply Forall_fmap, Forall_forall. intros y _. simpl. lia.
Qed.
Lemma of_file_run base files k f :
  files !! k = Some f → of_file (base + k) (run_items (indexed_from base files)) = ((base + k)%nat,.) <$> items (jf_data f).
Proof.
  revert base k. induction files as [|f' files IH]; intros base k Hk; [done|]. rewrite run_items_cons, of_file_app.
  destruct k as [|k]; simpl in Hk.
  - injection Hk as ->. rewrite Nat.add_0_r. unfold of_file.
    rewrite (filter_all _ (_ <$> _)) by (by apply Forall_fmap, Forall_forall).
    rewrite filter_none, app_nil_r; [done|]. intros x (j & f'' & _ & -> & _)%run_item_file. lia.
  - replace (base + S k)%nat with (S base + k)%nat by lia. rewrite (IH (S base) k Hk). unfold of_file.
    rewrite (filter_none _ (_ <$> _)); [done|]. intros x (x' & -> & _)%list_elem_of_fmap. simpl. lia.
Qed.
End run.

(** Grouping a list sorted by a key by that key gives the list back. *)
Lemma group_sorted {A} (key : A → nat) (l : list A) base n :
  StronglySorted le (key <$> l) → (∀ a, a ∈ l → (base ≤ key a < base + n)%nat) →
  flat_map (λ i, filter (λ a, key a = i) l) (seq base n) = l.
Proof.
  revert base l. induction n as [|n IH]; intros base l Hs Hb.
  { destruct l as [|a l]; [done|]. specialize (Hb a). set_solver by lia. }
  cbn [seq flat_map].
  assert (l = filter (λ a, key a = base) l ++ filter (λ a, (base < key a)%nat) l) as Hsplit.
  { clear IH. induction l as [|a l IHl]; [done|]. rewrite fmap_cons in Hs. apply StronglySorted_inv in Hs as [Hs Ha].
    specialize (IHl Hs ltac:(intros; apply Hb; set_solver)). rewrite !filter_cons.
    destruct (decide (key a = base)) as [E|Hne].
    - rewrite decide_False by lia. cbn [app]. by f_equal.
    - pose proof (Hb a ltac:(set_solver)). rewrite decide_True by lia.
      rewrite (filter_none (λ a, key a = base) l) in IHl |- *.
      + cbn [app] in *. by f_equal.
      + intros x Hx E. rewrite Forall_fmap, Forall_forall in Ha. specialize (Ha x Hx). simpl in Ha. lia.
      + intros x Hx E. rewrite Forall_fmap, Forall_forall in Ha. specialize (Ha x Hx). simpl in Ha. lia. }
  set (rest := filter (λ a, (base < key a)%nat) l) in *.
  assert (flat_map (λ i, filter (λ a, key a = i) l) (seq (S base) n) =
          flat_map (λ i, filter (λ a, key a = i) rest) (seq (S base) n)) as ->.
  { rewrite !flat_map_concat_map. f_equal. apply map_ext_in. intros i Hi%in_seq. unfold rest.
    rewrite list_filter_filter. apply list_filter_iff. intros a. lia. }
  rewrite IH; [by symmetry| |].
  - rewrite Hsplit, fmap_app in Hs. by apply StronglySorted_app_1_r in Hs.
  - intros a [Ha Hin]%list_elem_of_filter. specialize (Hb a Hin). lia.
Qed.

(** ** What a scan reports *)
Section report.
Context `{JsonView} `{!Serde}.
Context (cid : string) (base : nat) (plains : list JournalFile).
Abbreviation its := (run_items (indexed_from base plains)).
Definition in_run (file : nat) : Prop := (base ≤ file < base + length plains)%nat.

Record scanned (first : N) (scan : PlainRunScan) : Prop := {
  sc_kept : ∃ kept, salvages cid first (pr_entries scan) kept (pr_expected scan) ∧ kept ⊆ its ∧
    match pr_corrupt_tail scan with
    | None => ∀ file, file ∉ pr_damaged scan → of_file file its = of_file file kept
    | Some (segment, start) =>
        (∀ file, file ∉ pr_damaged scan → (file < segment)%nat → of_file file its = of_file file kept) ∧
        (pr_damaged scan = ∅ → ∃ it after, its = kept ++ it :: after ∧ it.1 = segment ∧ it.2.1.1 = start) ∧
        in_run segment ∧ ∀ e, e ∈ pr_entries scan → (entry_file e ≤ segment)%nat
    end;
  sc_sorted : StronglySorted le (entry_file <$> pr_entries scan);
  sc_entries e : e ∈ pr_entries scan → in_run (entry_file e);
  sc_lost file n length t p : LostRun file n length t p ∈ pr_entries scan → file ∈ pr_damaged scan;
  sc_damaged file : file ∈ pr_damaged scan → in_run file;
  sc_unterminated : pr_unterminated scan = run_unterminated None (indexed_from base plains);
}.

Lemma item_in_run (it : Item) : it ∈ its → in_run it.1.
Proof. intros (k & f & Hk & -> & _)%run_item_file. apply lookup_lt_Some in Hk. unfold in_run. lia. Qed.

Lemma scanned_open first st :
  scan_inv cid first its st → ss_unterminated st = run_unterminated None (indexed_from base plains) →
  scanned first (finish_scan st ((λ c, (pc_file c, pc_start c)) <$> ss_pending st)).
Proof.
  intros Hi Hu. destruct (si_kept _ _ _ _ Hi) as (kept & Hs & Hsub & Hof & Hnone). split; simpl.
  - exists kept. split; [done|]. split; [done|]. destruct (ss_pending st) as [c|] eqn:Hp; simpl.
    + destruct (si_pending _ _ _ _ Hi c Hp) as (Hc1 & Hc2 & Hc3). split_and!; [|done| |done].
      * intros file Hd Hlt. apply Hof; [done|]. simpl. intros Hf%Hc2. lia.
      * destruct (si_damaged _ _ _ _ Hi (pc_file c)) as (it & Hit & <-); [rewrite Hp; set_solver|by apply item_in_run].
    + intros file Hd. apply Hof; [done|]. set_solver.
  - apply (si_sorted _ _ _ _ Hi).
  - intros e (it & Hit & ->)%(si_files _ _ _ _ Hi). by apply item_in_run.
  - apply (si_lost _ _ _ _ Hi).
  - intros file Hf. destruct (si_damaged _ _ _ _ Hi file) as (it & Hit & <-); [set_solver|by apply item_in_run].
  - done.
Qed.

Lemma last_present file : last (indexed_from base plains).*1 = Some file → (file = base + pred (length plains))%nat ∧ in_run file.
Proof.
  unfold indexed_from. rewrite fmap_imap, last_lookup, length_imap, list_lookup_imap.
  destruct (plains !! pred (length plains)) as [f|] eqn:Hf; [|done]. apply lookup_lt_Some in Hf.
  intros [= <-]. simpl. unfold in_run. lia.
Qed.

(** Closing the run at the sealed segment that follows it. *)
Lemma scanned_closed first b st :
  scan_inv cid first its st → ss_unterminated st = run_unterminated None (indexed_from base plains) →
  ss_present st = (indexed_from base plains).*1 →
  scanned first (finish_scan (close_at_barrier b st) None).
Proof.
  intros Hi Hu Hpr. destruct (si_kept _ _ _ _ Hi) as (kept & Hs & Hsub & Hof & Hnone).
  assert (∀ file, file ∈ ss_damaged st ∪ pending_files (ss_pending st) → in_run file) as Hdam.
  { intros file (it & Hit & <-)%(si_damaged _ _ _ _ Hi). by apply item_in_run. }
  assert (∀ e, e ∈ ss_entries st → in_run (entry_file e)) as Hent.
  { intros e (it & Hit & ->)%(si_files _ _ _ _ Hi). by apply item_in_run. }
  assert (∀ D, (∀ file, file ∈ ss_damaged st ∪ pending_files (ss_pending st) → file ∈ D) → (∀ file, file ∈ D → in_run file) →
    scanned first (finish_scan {| ss_expected := ss_expected st; ss_entries := ss_entries st; ss_damaged := D;
      ss_pending := None; ss_last := ss_last st; ss_unterminated := ss_unterminated st; ss_present := ss_present st |} None)) as Hplain.
  { intros D HD HD'. split; simpl; [|apply (si_sorted _ _ _ _ Hi)|done| |done|done].
    - exists kept. split_and!; [done..|]. intros file Hf. apply Hof; intros Hin; apply Hf, HD; set_solver.
    - intros ? ? ? ? ? He. apply HD, elem_of_union_l. by eapply (si_lost _ _ _ _ Hi). }
  unfold close_at_barrier. destruct (_ || _) eqn:Hgo.
  2: { apply orb_false_iff in Hgo as [_ Hp%bool_decide_eq_false]. destruct (ss_pending st) eqn:E; [by destruct Hp|].
       pose proof (scanned_open first st Hi Hu) as Hsc. rewrite E in Hsc. done. }
  set (D := match ss_pending st with Some c => ss_damaged st ∪ pc_files c | None => ss_damaged st end).
  assert (∀ file, file ∈ D ↔ file ∈ ss_damaged st ∪ pending_files (ss_pending st)) as HD
    by (intros file; unfold D; destruct (ss_pending st); set_solver).
  destruct (match ss_pending st with Some c => Some (pc_file c) | None => last (ss_present st) end) as [file|] eqn:Hplace.
  2: { apply Hplain; [apply HD|intros ? ?%HD; auto]. }
  destruct (ss_expected st <? b) eqn:Hlt; [|apply Hplain; [apply HD|intros ? ?%HD; auto]].
  assert (in_run file ∧ ∀ e, e ∈ ss_entries st → (entry_file e ≤ file)%nat) as [Hfile Hle].
  { destruct (ss_pending st) as [c|] eqn:Hp.
    - injection Hplace as <-. destruct (si_pending _ _ _ _ Hi c Hp) as (Hc1 & _ & Hc3). split; [apply Hdam; set_solver|done].
    - rewrite Hpr in Hplace. apply last_present in Hplace as [-> ?]. split; [done|]. intros e He%Hent. unfold in_run in He. lia. }
  split; simpl.
  - exists kept. split_and!.
    + replace b with (ss_expected st + (b - ss_expected st)) at 2 by lia. apply salvages_lost; [done|lia|].
      apply stamp_last, (si_last _ _ _ _ Hi).
    + done.
    + intros f Hf. apply Hof; intros Hin; apply Hf, elem_of_union_l, HD; set_solver.
  - rewrite fmap_app. apply StronglySorted_app. split_and!; [|apply (si_sorted _ _ _ _ Hi)|repeat constructor].
    intros x1 x2 (e & -> & He)%list_elem_of_fmap ->%list_elem_of_singleton. by apply Hle.
  - intros e [He| ->%list_elem_of_singleton]%elem_of_app; [auto|done].
  - intros f n l t p [He|E%list_elem_of_singleton]%elem_of_app.
    + apply elem_of_union_l, HD, elem_of_union_l. by eapply (si_lost _ _ _ _ Hi).
    + injection E as -> _ _ _ _. set_solver.
  - intros f [Hf%HD| ->%elem_of_singleton]%elem_of_union; [auto|done].
  - done.
Qed.

Lemma scan_plain_run_scanned first barrier scan :
  scan_plain_run (indexed_from base plains) cid first barrier = Ok scan → scanned first scan.
Proof.
  unfold scan_plain_run. rewrite scan_run_items. cbn [scan_start ss_unterminated ss_present app].
  set (st := foldl (scan_item cid barrier) (scan_start first) its).
  set (st' := with_files _ _ st).
  assert (scan_inv cid first its st') as Hi.
  { pose proof (scan_items_inv cid barrier first its (run_items_sorted base plains)) as [?????? ?]. by split. }
  destruct barrier as [b|].
  - destruct (_ <? _); [done|]. intros [= <-]. by apply scanned_closed.
  - intros [= <-]. by apply (scanned_open first st').
Qed.
End report.

(** ** What a repair does to each file *)
Section repaired.
Context `{JsonView} `{!Serde}.
Context (backup_name : string) (now : Z) (fresh_id : N → string) (cid : string).
Abbreviation rewritten_data := (rewritten_data backup_name now fresh_id cid).
Abbreviation repair_plain_run := (repair_plain_run backup_name now fresh_id cid).
Implicit Types (scan : PlainRunScan) (j : Journal) (files : list JournalFile).

(** The files a repair rewrites. *)
Definition rewritten (files : list JournalFile) scan : gset nat :=
  match pr_corrupt_tail scan with
  | Some (segment, _) =>
      if bool_decide (pr_damaged scan = ∅) then ∅
      else pr_damaged scan ∪ list_to_set (filter (λ i, bool_decide (is_plain <$> files !! i = Some true) = true)
             (seq segment (length files - segment)))
  | None => pr_damaged scan
  end.
Definition rewrite_file scan (D : gset nat) (i : nat) (f : JournalFile) : JournalFile :=
  if decide (i ∈ D) then with_data (rewritten_data (pr_entries scan) i (jf_data f)) f else f.
Definition repair_file scan (D : gset nat) (i : nat) (f : JournalFile) : option JournalFile :=
  let f := rewrite_file scan D i f in
  match pr_corrupt_tail scan, pr_unterminated scan with
  | Some (segment, start), _ => cut_file D segment start i f
  | None, Some last => Some (if (i =? last)%nat then with_data (jf_data f ++ [NL]) f else f)
  | None, None => Some f
  end.

Lemma imap_id {A} (F : nat → A → A) (l : list A) : (∀ i x, l !! i = Some x → F i x = x) → imap F l = l.
Proof.
  revert F. induction l as [|x l IH]; intros F HF; [done|]. rewrite imap_cons, (HF 0%nat x eq_refl). f_equal.
  apply IH. intros i y Hy. by apply (HF (S i)).
Qed.
Lemma imap_imap {A B C} (F : nat → A → B) (G : nat → B → C) l : imap G (imap F l) = imap (λ i x, G i (F i x)) l.
Proof. revert F G. induction l as [|x l IH]; intros F G; [done|]. rewrite !imap_cons. f_equal. apply IH. Qed.
Lemma omap_Some_imap {A} (F : nat → A → A) (l : list A) : omap id (imap (λ i x, Some (F i x)) l) = imap F l.
Proof. revert F. induction l as [|x l IH]; intros F; [done|]. rewrite !imap_cons. simpl. f_equal. apply (IH (F ∘ S)). Qed.

Lemma repair_files scan j :
  j_files (repair_plain_run scan j) = omap id (imap (repair_file scan (rewritten (j_files j) scan)) (j_files j)).
Proof.
  set (D := rewritten (j_files j) scan).
  assert (imap (rewrite_file scan D) (j_files j) =
    if bool_decide (D = ∅) then j_files j
    else rewrite_damaged backup_name now fresh_id cid (pr_entries scan) D (j_files j)) as Hrw.
  { case_bool_decide as HD; [|done]. apply imap_id. intros i f _. unfold rewrite_file. rewrite HD, decide_False by set_solver. done. }
  unfold JournalRepair.repair_plain_run. unfold repair_file. fold D.
  destruct (pr_corrupt_tail scan) as [[segment start]|] eqn:Ht.
  - assert (D = if bool_decide (pr_damaged scan = ∅) then ∅ else pr_damaged scan ∪
      list_to_set (filter (λ i, bool_decide (is_plain <$> j_files j !! i = Some true) = true)
        (seq segment (length (j_files j) - segment)))) as HD by (unfold D, rewritten; by rewrite Ht).
    rewrite <-imap_imap, Hrw. fold (cut_tail D segment start). 
    rewrite HD. case_bool_decide as E; simpl.
    + rewrite E. rewrite !bool_decide_eq_true_2 by done. done.
    + by destruct (bool_decide (pr_damaged scan ∪ _ = ∅)).
  - destruct (pr_unterminated scan) as [l|] eqn:Hu.
    + rewrite omap_Some_imap. rewrite <-(imap_imap (rewrite_file scan D) (λ i f, if (i =? l)%nat then with_data (jf_data f ++ [NL]) f else f)).
      rewrite Hrw. assert (D = pr_damaged scan) as -> by (unfold D, rewritten; by rewrite Ht).
      simpl. by destruct (bool_decide (pr_damaged scan = ∅)).
    + rewrite omap_Some_imap, Hrw. assert (D = pr_damaged scan) as -> by (unfold D, rewritten; by rewrite Ht).
      simpl. by destruct (bool_decide (pr_damaged scan = ∅)).
Qed.
End repaired.

(** ** The lines of the repaired run *)
Section repaired_lines.
Context `{JsonViewLaws} `{!Serde} `{!SerdeLaws} `{!JournalLaws}.
Context (backup_name : string) (now : Z) (fresh_id : N → string) (cid : string).
Context (pre plains post : list JournalFile) (scan : PlainRunScan) (first : N).
Abbreviation base := (length pre).
Abbreviation files := (pre ++ plains ++ post).
Abbreviation its := (run_items (indexed_from base plains)).
Abbreviation entry_lines := (entry_lines backup_name now fresh_id cid).
Abbreviation D := (rewritten files scan).
Abbreviation repair_file := (repair_file backup_name now fresh_id cid scan D).
Hypothesis plains_plain : Forall (λ f, is_plain f = true) plains.
Hypothesis Hscan : scanned cid base plains first scan.

Lemma data_of_plain k f : plains !! k = Some f → file_data files (base + k) = jf_data f.
Proof.
  intros Hk. unfold file_data. rewrite lookup_app_r by lia. replace (base + k - base)%nat with k by lia.
  rewrite lookup_app_l by (by eapply lookup_lt_Some). by rewrite Hk.
Qed.

Lemma item_line (it : Item) : it ∈ its → it.2.2 = trim_ascii (slice (file_data files it.1) it.2.1) ∧ clean_line it.2.2.
Proof.
  intros (k & f & Hk & -> & Hin)%run_item_file. rewrite (data_of_plain k f Hk). split; [by apply items_range|].
  pose proof (items_clean (jf_data f)) as Hc. rewrite Forall_forall in Hc. apply Hc. apply list_elem_of_fmap. eauto.
Qed.

(** The lines the repair owes file [i]. *)
Definition owed (i : nat) : list bytes :=
  flat_map (entry_lines (file_data files i)) (filter (λ e, entry_file e = i) (pr_entries scan)).

Lemma owed_clean i : Forall clean_line (owed i).
Proof.
  unfold owed. apply Forall_flat_map, Forall_forall. intros e [<- He]%list_elem_of_filter.
  destruct (sc_kept _ _ _ _ _ Hscan) as (kept & Hs & Hsub & _). destruct e as [file m a b'|file m len t p]; simpl.
  - destruct (salvages_kept_items _ _ _ _ _ Hs _ _ _ _ He) as [line Hl%Hsub]. destruct (item_line _ Hl) as [E Hc].
    simpl in E, Hc. constructor; [|done]. by rewrite <-E.
  - apply Forall_fmap, Forall_forall. intros s _. apply encoded_clean.
Qed.

(** Without a lost run in it, a file is owed its kept lines. *)
Lemma owed_kept entries kept n i :
  salvages cid first entries kept n → kept ⊆ its → (∀ m len t p, LostRun i m len t p ∉ entries) →
  flat_map (entry_lines (file_data files i)) (filter (λ e, entry_file e = i) entries) = (of_file i kept).*2.*2.
Proof.
  induction 1 as [|entries kept n file r line event _ IH _|entries kept n file len t p _ IH _ _]; intros Hsub Hl; [done| |].
  - rewrite filter_app, flat_map_app, of_file_app, !fmap_app, IH by set_solver. f_equal. unfold of_file.
    destruct (decide (file = i)) as [->|Hne].
    + rewrite !filter_cons_True by done. cbn. destruct (item_line (i, (r, line))) as [E _]; [set_solver|]. simpl in E.
      rewrite E. by destruct r.
    + by rewrite !filter_cons_False by done.
  - rewrite filter_app, flat_map_app, IH by set_solver. rewrite filter_cons_False, filter_nil; [by rewrite app_nil_r|].
    simpl. intros ->. apply (Hl n len t p). set_solver.
Qed.

Lemma file_lines_run k f : plains !! k = Some f → file_lines f = (of_file (base + k) its).*2.*2.
Proof.
  intros Hk. rewrite (of_file_run _ _ k f Hk). unfold file_lines. f_equal.
  induction (items (jf_data f)) as [|x xs IH]; [done|]. rewrite !fmap_cons. by f_equal.
Qed.

Lemma not_lost i m len t p : i ∉ pr_damaged scan → LostRun i m len t p ∉ pr_entries scan.
Proof. intros Hi He. by apply Hi, (sc_lost _ _ _ _ _ Hscan _ _ _ _ _ He). Qed.

(** A file that is not rewritten and not behind the cut keeps what it is owed. *)
Lemma kept_file k f :
  plains !! k = Some f → (base + k)%nat ∉ pr_damaged scan →
  (∀ segment start, pr_corrupt_tail scan = Some (segment, start) → (base + k < segment)%nat) →
  file_lines f = owed (base + k).
Proof.
  intros Hk Hd Hlt. rewrite (file_lines_run k f Hk).
  destruct (sc_kept _ _ _ _ _ Hscan) as (kept & Hs & Hsub & Htail). unfold owed.
  rewrite (owed_kept _ kept _ _ Hs Hsub) by (intros; by apply not_lost). f_equal. f_equal.
  destruct (pr_corrupt_tail scan) as [[segment start]|]; [|by apply Htail]. apply Htail; [done|]. by eapply Hlt.
Qed.

Lemma rewritten_file k f : plains !! k = Some f →
  file_lines (with_data (rewritten_data backup_name now fresh_id cid (pr_entries scan) (base + k) (jf_data f)) f) = owed (base + k).
Proof.
  intros Hk. unfold file_lines, with_data. cbn [jf_data]. unfold rewritten_data. rewrite <-(data_of_plain k f Hk).
  apply items_of_lines, owed_clean.
Qed.

Lemma plain_sealed k f : plains !! k = Some f → is_sealed_segment f = false.
Proof. intros Hk. eapply Forall_lookup_1 in Hk; [|exact plains_plain]. unfold is_plain in Hk. by destruct (is_sealed_segment f). Qed.

(** The file cut at the start of the corrupt tail. *)
Lemma cut_lines k f segment start :
  plains !! k = Some f → pr_corrupt_tail scan = Some (segment, start) → pr_damaged scan = ∅ → segment = (base + k)%nat →
  file_lines (with_data (take start (jf_data f)) f) = owed (base + k).
Proof.
  intros Hk Ht Hd ->. destruct (sc_kept _ _ _ _ _ Hscan) as (kept & Hs & Hsub & Htail). rewrite Ht in Htail.
  destruct Htail as (_ & Hcut & _). destruct (Hcut Hd) as (it & after & Hits & Hit & <-).
  unfold owed. rewrite (owed_kept _ kept _ _ Hs Hsub) by (intros; apply not_lost; rewrite Hd; set_solver).
  pose proof (of_file_run base plains k f Hk) as Hof. rewrite Hits, of_file_app in Hof. unfold of_file in Hof at 2.
  rewrite filter_cons_True in Hof by done.
  assert (items (jf_data f) = (of_file (base + k) kept).*2 ++ it.2 :: (filter (λ it : Item, it.1 = (base + k)%nat) after).*2) as Hi.
  { rewrite <-fmap_cons, <-fmap_app, Hof. clear. induction (items (jf_data f)) as [|x xs IH]; [done|]. rewrite !fmap_cons. by f_equal. }
  unfold file_lines, with_data. cbn [jf_data]. by rewrite (items_cut _ _ _ _ Hi).
Qed.

Lemma repaired_file k f :
  plains !! k = Some f → match repair_file (base + k) f with Some f' => file_lines f' | None => [] end = owed (base + k).
Proof.
  intros Hk. pose proof (plain_sealed k f Hk) as Hseal. pose proof (lookup_lt_Some _ _ _ Hk) as Hklt.
  unfold JournalConverge.repair_file, rewrite_file. destruct (decide (base + k ∈ D)%nat) as [HD|HD].
  - destruct (pr_corrupt_tail scan) as [[segment start]|].
    + unfold cut_file. rewrite (bool_decide_eq_true_2 _ HD), orb_true_r. simpl. by apply rewritten_file.
    + destruct (pr_unterminated scan) as [l|]; [|by apply rewritten_file]. destruct (_ =? l)%nat; [|by apply rewritten_file].
      unfold file_lines at 1, with_data at 1. cbn [jf_data]. rewrite items_terminate. by apply rewritten_file.
  - pose proof HD as HD0. unfold JournalConverge.rewritten in HD. destruct (pr_corrupt_tail scan) as [[segment start]|] eqn:Ht.
    + destruct (bool_decide (pr_damaged scan = ∅)) eqn:Hd.
      * apply bool_decide_eq_true in Hd. unfold cut_file. rewrite Hseal, (bool_decide_eq_false_2 _ HD0), !orb_false_r.
        destruct (Nat.ltb_spec (base + k) segment) as [Hlt|Hge].
        { apply kept_file; [done|rewrite Hd; set_solver|]. intros ? ? E. rewrite Ht in E. by injection E as <- <-. }
        destruct (Nat.ltb_spec segment (base + k)) as [Hgt|Hle].
        { assert (owed (base + k) = []) as ->.
          { unfold owed. rewrite filter_none; [done|]. destruct (sc_kept _ _ _ _ _ Hscan) as (kept & _ & _ & Htail).
            rewrite Ht in Htail. destruct Htail as (_ & _ & _ & Hle). intros e He%Hle. lia. }
          destruct (_ && _); [done|]. destruct (Nat.eqb_spec (base + k) segment); [lia|]. done. }
        simpl. assert (segment = base + k)%nat as E by lia. rewrite E, Nat.eqb_refl. by eapply cut_lines.
      * unfold cut_file. assert (base + k < segment)%nat as Hlt.
        { destruct (decide (base + k < segment)%nat); [done|]. destruct HD. apply elem_of_union_r, elem_of_list_to_set.
          apply list_elem_of_filter. split; [|apply elem_of_seq; rewrite !length_app; lia].
          apply bool_decide_eq_true. rewrite lookup_app_r by lia. replace (base + k - base)%nat with k by lia.
          rewrite lookup_app_l by lia. rewrite Hk. simpl. unfold is_plain. by rewrite Hseal. }
        destruct (Nat.ltb_spec (base + k) segment); [|lia]. simpl.
        apply kept_file; [done|set_solver|]. intros ? ? E. rewrite Ht in E. by injection E as <- <-.
    + assert (file_lines f = owed (base + k)) as Hkf by (apply kept_file; [done..|]; intros ? ? E; by rewrite Ht in E).
      destruct (pr_unterminated scan) as [l|]; [|done]. destruct (_ =? l)%nat; [|done].
      unfold file_lines at 1, with_data. cbn [jf_data]. by rewrite items_terminate.
Qed.

Lemma flat_map_omap {A B} (G : nat → A → option A) (lines : A → list B) (o : nat → list B) l start :
  (∀ k x, l !! k = Some x → match G k x with Some y => lines y | None => [] end = o (start + k)%nat) →
  flat_map lines (omap id (imap G l)) = flat_map o (seq start (length l)).
Proof.
  revert G start. induction l as [|x l IH]; intros G start HG; [done|]. rewrite imap_cons. cbn [length seq flat_map].
  rewrite <-(IH (G ∘ S) (S start)).
  - pose proof (HG 0%nat x eq_refl) as H0'. rewrite Nat.add_0_r in H0'. rewrite <-H0'. simpl.
    by destruct (G 0%nat x).
  - intros k y Hy. replace (S start + k)%nat with (start + S k)%nat by lia. by apply (HG (S k)).
Qed.

(** All the lines the entries stand for. *)
Definition salvaged_lines : list bytes := flat_map (λ e, entry_lines (file_data files (entry_file e)) e) (pr_entries scan).

Lemma owed_all : flat_map owed (seq base (length plains)) = salvaged_lines.
Proof.
  unfold salvaged_lines. rewrite <-(group_sorted entry_file (pr_entries scan) base (length plains)).
  - generalize (seq base (length plains)) as idx. intros idx. induction idx as [|i idx IH]; [done|]. cbn [flat_map].
    rewrite flat_map_app, IH. f_equal. unfold owed. rewrite !flat_map_concat_map. f_equal. apply map_ext_in.
    intros e He. apply list_elem_of_In, list_elem_of_filter in He as [<- _]. done.
  - apply (sc_sorted _ _ _ _ _ Hscan).
  - intros e He. apply (sc_entries _ _ _ _ _ Hscan e He).
Qed.

Lemma rewritten_in_run i : (is_Some (pr_corrupt_tail scan) → post = []) → i ∈ D → in_run base plains i.
Proof.
  unfold JournalConverge.rewritten. intros Hpost. destruct (sc_kept _ _ _ _ _ Hscan) as (kept & _ & _ & Htail).
  destruct (pr_corrupt_tail scan) as [[segment start]|] eqn:Ht; [|apply (sc_damaged _ _ _ _ _ Hscan)].
  rewrite (Hpost ltac:(eauto)) in *. destruct (bool_decide _); [set_solver|].
  intros [Hi|Hi]%elem_of_union; [by apply (sc_damaged _ _ _ _ _ Hscan)|].
  apply elem_of_list_to_set, list_elem_of_filter in Hi as [_ Hi%elem_of_seq]. destruct Htail as (_ & _ & [Hr _] & _).
  rewrite !length_app in Hi. simpl in Hi. unfold in_run. lia.
Qed.

Lemma unterminated_in_run l : pr_unterminated scan = Some l → in_run base plains l.
Proof.
  rewrite (sc_unterminated _ _ _ _ _ Hscan). unfold in_run. clear. generalize (length pre) as start.
  assert (∀ start u, run_unterminated u (indexed_from start plains) = Some l → u = Some l ∨ (start ≤ l < start + length plains)%nat) as Hgen.
  { induction plains as [|f fs IH]; intros start u; [by left|]. rewrite indexed_from_cons. unfold run_unterminated. cbn [foldl fst snd].
    fold (run_unterminated (match jf_data f with [] => u | _ => if ends_with_newline (jf_data f) then None else Some start end) (indexed_from (S start) fs)).
    intros Hl. apply IH in Hl as [Hl|Hl]; [|right; simpl; lia]. destruct (jf_data f); [by left|]. right.
    destruct (ends_with_newline _); [done|]. injection Hl as <-. simpl. lia. }
  intros start Hl. by apply Hgen in Hl as [?|?].
Qed.

Lemma omap_imap_id {A} (G : nat → A → option A) (l : list A) :
  (∀ k x, l !! k = Some x → G k x = Some x) → omap id (imap G l) = l.
Proof.
  intros HG. rewrite (imap_ext G (λ k x, Some x)) by exact HG. rewrite (omap_Some_imap (λ _ x, x)). by apply imap_id.
Qed.

(** A file outside the run is left alone. *)
Lemma repair_outside i f :
  (is_Some (pr_corrupt_tail scan) → post = []) → ¬ in_run base plains i →
  (i < base)%nat ∨ pr_corrupt_tail scan = None → repair_file i f = Some f.
Proof.
  intros Hpost Hi Hside. assert (i ∉ D) as HD by (intros HD; by apply Hi, rewritten_in_run).
  pose proof (unterminated_in_run) as Hu. pose proof (sc_kept _ _ _ _ _ Hscan) as (kept & _ & _ & Htail).
  unfold JournalConverge.repair_file, rewrite_file. rewrite decide_False by done.
  destruct (pr_corrupt_tail scan) as [[segment start]|].
  - unfold cut_file. destruct Htail as (_ & _ & [Hr _] & _). destruct Hside as [Hlt|?]; [|done].
    destruct (Nat.ltb_spec i segment); [done|lia].
  - destruct (pr_unterminated scan) as [l|]; [|done]. specialize (Hu l eq_refl).
    destruct (Nat.eqb_spec i l) as [->|]; [done|done].
Qed.

Lemma repair_file_kind i f f' : repair_file i f = Some f' → jf_kind f' = jf_kind f.
Proof.
  unfold JournalConverge.repair_file. set (g := rewrite_file _ _ _ _ _ _ _ _).
  assert (jf_kind g = jf_kind f) as <- by (unfold g, rewrite_file; by destruct (decide _)).
  destruct (pr_corrupt_tail scan) as [[segment start]|].
  - unfold cut_file. destruct (_ || _); [by intros [= <-]|]. destruct (_ && _); [done|]. by intros [= <-].
  - destruct (pr_unterminated scan); [|by intros [= <-]]. intros [= <-]. by destruct (_ =? _)%nat.
Qed.

(** The repaired files: the run holds the salvaged lines, the rest is untouched. *)
Lemma repaired_run j :
  (is_Some (pr_corrupt_tail scan) → post = []) → j_files j = files →
  ∃ plains', j_files (repair_plain_run backup_name now fresh_id cid scan j) = pre ++ plains' ++ post ∧
    Forall (λ f, is_plain f = true) plains' ∧ flat_map file_lines plains' = salvaged_lines.
Proof.
  intros Hpost Hj. exists (omap id (imap (λ k, repair_file (base + k)) plains)). split_and!.
  - rewrite repair_files, Hj, !imap_app, !omap_app. f_equal; [|f_equal].
    + apply omap_imap_id. intros k f Hk%lookup_lt_Some. apply repair_outside; [done|unfold in_run; lia|by left].
    + apply omap_imap_id. intros k f Hk. apply repair_outside; [done|unfold in_run; lia|right].
      destruct (pr_corrupt_tail scan) as [t|] eqn:Ht; [|done]. rewrite (Hpost ltac:(eauto)) in Hk. done.
  - apply Forall_forall. intros f' (x & (k & f & -> & Hk)%elem_of_lookup_imap & Hx)%list_elem_of_omap.
    apply repair_file_kind in Hx. eapply Forall_lookup_1 in Hk; [|exact plains_plain].
    unfold is_plain, is_sealed_segment in *. by rewrite Hx.
  - rewrite <-owed_all. apply flat_map_omap. intros k f Hk. by apply repaired_file.
Qed.
End repaired_lines.
