(* ===== verification/JournalBackup.v ===== *)
(** * The conversation journal: a repair destroys nothing

    Before it rewrites, cuts or removes a file, a repair copies what it is about
    to drop. This holds of any journal and of any damage. *)
From S2P Require Import Prelude Bytes Text Channel Json JsonObject Model Digest Summary Recipients Keyring Dek HistoryCrypto Record SegmentIndex SegmentBuilder SegmentRun SegmentContent FrameCache SegmentReader SegmentPlan JournalScan JournalRepair JournalLines JournalRecover JournalConverge.
From stdpp Require Import pretty.
From Stdlib Require Import Strings.Byte ZifyBool.
Local Open Scope N_scope.

Definition infix_of (b copy : bytes) : Prop := ∃ u v, copy = u ++ b ++ v.

Lemma infix_refl b : infix_of b b.
Proof. exists [], []. by rewrite app_nil_r. Qed.
Lemma infix_concat b l : b ∈ l → infix_of b (concat l).
Proof.
  intros (l1 & l2 & ->)%list_elem_of_split. rewrite concat_app. cbn [concat]. by exists (concat l1), (concat l2).
Qed.

Lemma prefix_app_alt_or {A} (k l1 l2 : list A) :
  k `prefix_of` l1 ++ l2 → k `prefix_of` l1 ∨ ∃ rest, k = l1 ++ rest ∧ rest `prefix_of` l2.
Proof.
  revert k. induction l1 as [|x l1 IH]; intros k Hk; [by right; exists k|].
  destruct k as [|y k]; [by left; apply prefix_nil|]. pose proof (prefix_cons_inv_1 _ _ _ _ Hk) as ->.
  apply prefix_cons_inv_2, IH in Hk as [Hk|(rest & -> & Hk)]; [left; by apply prefix_cons|right; by exists rest].
Qed.

(** What became of a file: its bytes are the beginning of the file of the same
    name, and after it at most [n] pieces, each in a copy. *)
Record kept_bytes (n : nat) (j' : Journal) (f : JournalFile) (kept : bytes) (pieces : list bytes) : Prop := {
  kb_data : jf_data f = kept ++ concat pieces;
  kb_count : (length pieces ≤ n)%nat;
  kb_file : kept = [] ∨ ∃ f', f' ∈ j_files j' ∧ jf_kind f' = jf_kind f ∧ kept `prefix_of` jf_data f';
  kb_copies : Forall (λ piece, ∃ copy, copy ∈ j_backups j' ∧ infix_of piece copy) pieces;
}.

(** Nothing of [j] is missing in [j'], and no earlier copy is gone. *)
Definition destroys_nothing (n : nat) (j j' : Journal) : Prop :=
  (∃ copies, j_backups j' = j_backups j ++ copies) ∧
  ∀ f, f ∈ j_files j → ∃ kept pieces, kept_bytes n j' f kept pieces.

Lemma destroys_nothing_refl j : destroys_nothing 0 j j.
Proof.
  split; [exists []; by rewrite app_nil_r|]. intros f Hf. exists (jf_data f), []. split; simpl; [by rewrite app_nil_r|done| |constructor].
  right. by exists f.
Qed.
Lemma destroys_nothing_le n m j j' : (n ≤ m)%nat → destroys_nothing n j j' → destroys_nothing m j j'.
Proof.
  intros Hle [Hb Hf]. split; [done|]. intros f (kept & pieces & [????])%Hf. exists kept, pieces. split; [done|lia|done..].
Qed.

(** The bytes a later repair moved out of the file follow the ones it left. *)
Lemma destroys_nothing_trans n m j1 j2 j3 :
  destroys_nothing n j1 j2 → destroys_nothing m j2 j3 → destroys_nothing (m + n) j1 j3.
Proof.
  intros [[c1 Hb1] Hf1] [[c2 Hb2] Hf2]. split; [exists (c1 ++ c2); by rewrite Hb2, Hb1, <-app_assoc|].
  intros f Hf. destruct (Hf1 f Hf) as (kept & pieces & [Hd Hn Hfile Hc]).
  assert (Forall (λ piece, ∃ copy, copy ∈ j_backups j3 ∧ infix_of piece copy) pieces) as Hc'.
  { apply (Forall_impl _ _ _ Hc). intros piece (copy & Hin & Hi). exists copy. rewrite Hb2. set_solver. }
  destruct Hfile as [->|(f' & Hf' & Hk & Hpre)].
  { exists [], pieces. split; [done|lia|by left|done]. }
  destruct (Hf2 f' Hf') as (kept' & pieces' & [Hd' Hn' Hfile' Hcopies]). rewrite Hd' in Hpre.
  assert (∃ k ps, kept = k ++ concat ps ∧ k `prefix_of` kept' ∧ (length ps ≤ m)%nat ∧
    Forall (λ piece, ∃ copy, copy ∈ j_backups j3 ∧ infix_of piece copy) ps) as (k & ps & -> & Hk' & Hps & Hcps).
  { clear -Hpre Hn' Hcopies. revert kept kept' m Hn' Hpre. induction Hcopies as [|piece pieces' Hp _ IH]; intros kept kept' m Hn' Hpre.
    - exists kept, []. simpl in *. rewrite app_nil_r in *. split_and!; [done|done|lia|constructor].
    - cbn [concat length] in *. rewrite app_assoc in Hpre. destruct m as [|m]; [lia|].
      destruct (IH kept (kept' ++ piece) m ltac:(lia) Hpre) as (k & ps & -> & Hk & Hps & Hcps).
      destruct (prefix_app_alt_or k kept' piece Hk) as [Hle|(rest & -> & Hrest)].
      + exists k, ps. split_and!; [done|done|lia|done].
      + exists kept', (rest :: ps). cbn [concat length]. rewrite <-app_assoc. split_and!; [done|done|lia|].
        constructor; [|done]. destruct Hp as (copy & Hin & u & v & ->). destruct Hrest as [w ->].
        exists (u ++ (rest ++ w) ++ v). split; [done|]. exists u, (w ++ v). by rewrite <-app_assoc. }
  exists k, (ps ++ pieces). split.
  - by rewrite Hd, concat_app, <-app_assoc.
  - rewrite length_app. lia.
  - destruct Hfile' as [->|(f3 & Hf3 & Hk3 & Hpre3)]; [left; by apply prefix_nil_inv|].
    right. exists f3. split_and!; [done|congruence|by etrans].
  - by apply Forall_app.
Qed.

Section backups.
Context `{JsonView} `{!Serde}.
Context (backup_name : string) (now : Z) (fresh_id : N → string) (cid : string).
Abbreviation repair := (repair_plain_run backup_name now fresh_id cid).
Abbreviation repair_file := (repair_file backup_name now fresh_id cid).
Implicit Types (scan : PlainRunScan) (j : Journal).

(** The copies a repair makes: the corrupt tail when nothing is rewritten, and
    all files it rewrites. *)
Definition tail_copy scan (files : list JournalFile) : list bytes :=
  match pr_corrupt_tail scan with
  | Some (segment, start) => if bool_decide (pr_damaged scan = ∅) then [quarantine_tail files segment start] else []
  | None => []
  end.
Definition rewrite_copy (D : gset nat) (files : list JournalFile) : list bytes :=
  if bool_decide (D = ∅) then [] else [concat (imap (λ i f, if decide (i ∈ D) then jf_data f else []) files)].

Lemma repair_backups scan j :
  j_backups (repair scan j) =
  j_backups j ++ tail_copy scan (j_files j) ++ rewrite_copy (rewritten (j_files j) scan) (j_files j).
Proof.
  unfold repair_plain_run, tail_copy, rewritten, rewrite_copy.
  destruct (pr_corrupt_tail scan) as [[segment start]|]; simpl.
  - case_bool_decide as Hd; simpl.
    + rewrite Hd. by rewrite !bool_decide_eq_true_2 by done.
    + by destruct (bool_decide (_ ∪ _ = ∅)); simpl; rewrite ?app_nil_r.
  - destruct (bool_decide (pr_damaged scan = ∅)), (pr_unterminated scan); simpl; by rewrite ?app_nil_r.
Qed.

Lemma copied_rewrite (D : gset nat) files i f :
  i ∈ D → files !! i = Some f → ∃ copy, copy ∈ rewrite_copy D files ∧ infix_of (jf_data f) copy.
Proof.
  intros Hi Hf. unfold rewrite_copy. rewrite bool_decide_eq_false_2 by set_solver.
  eexists. split; [by apply list_elem_of_singleton|]. apply infix_concat, elem_of_lookup_imap. exists i, f. by rewrite decide_True.
Qed.
Lemma copied_tail files segment start i f :
  files !! i = Some f → (segment ≤ i)%nat → is_sealed_segment f = false →
  infix_of (drop (if (i =? segment)%nat then start else 0) (jf_data f)) (quarantine_tail files segment start).
Proof.
  intros Hf Hi Hs. apply infix_concat, elem_of_lookup_imap. exists i, f. rewrite Hs, orb_false_r.
  by replace (i <? segment)%nat with false by lia.
Qed.

(** One file: what the repair leaves of it, and what it copied. *)
Lemma repair_keeps_file scan j i f :
  j_files j !! i = Some f →
  ∃ kept pieces, jf_data f = kept ++ concat pieces ∧ (length pieces ≤ 1)%nat ∧
    (kept = [] ∨ ∃ f', repair_file scan (rewritten (j_files j) scan) i f = Some f' ∧ kept `prefix_of` jf_data f') ∧
    Forall (λ piece, ∃ copy, copy ∈ j_backups (repair scan j) ∧ infix_of piece copy) pieces.
Proof.
  intros Hf. rewrite repair_backups. set (D := rewritten (j_files j) scan). destruct (decide (i ∈ D)) as [HD|HD].
  { exists [], [jf_data f]. simpl. rewrite app_nil_r. split_and!; [done|done|by left|]. constructor; [|constructor].
    destruct (copied_rewrite D _ _ _ HD Hf) as (copy & Hc & Hi). exists copy. set_solver. }
  unfold JournalConverge.repair_file, rewrite_file. rewrite decide_False by done.
  destruct (pr_corrupt_tail scan) as [[segment start]|] eqn:Ht.
  - unfold cut_file. rewrite (bool_decide_eq_false_2 _ HD), orb_false_r.
    destruct ((i <? segment)%nat || is_sealed_segment f) eqn:Hb.
    { exists (jf_data f), []. simpl. rewrite app_nil_r. split_and!; [done|lia|right; by exists f|constructor]. }
    apply orb_false_iff in Hb as [Hlt Hs].
    assert (pr_damaged scan = ∅) as Hd.
    { destruct (decide (pr_damaged scan = ∅)) as [E|E]; [done|]. exfalso. apply HD. unfold D, rewritten. rewrite Ht, bool_decide_eq_false_2 by done.
      apply elem_of_union_r, elem_of_list_to_set, list_elem_of_filter. apply lookup_lt_Some in Hf as Hlen.
      rewrite Hf, elem_of_seq. simpl. unfold is_plain. rewrite Hs. split; [done|lia]. }
    pose proof (copied_tail _ segment start _ _ Hf ltac:(lia) Hs) as Hcopy.
    assert (Forall (λ piece, ∃ copy, copy ∈ j_backups j ++ tail_copy scan (j_files j) ++ rewrite_copy D (j_files j) ∧ infix_of piece copy)
      [drop (if (i =? segment)%nat then start else 0%nat) (jf_data f)]) as Hpieces.
    { constructor; [|constructor]. eexists. split; [|done]. unfold tail_copy. rewrite Ht, bool_decide_eq_true_2 by done. set_solver. }
    destruct (Nat.eqb_spec i segment) as [->|Hne].
    + exists (take start (jf_data f)), [drop start (jf_data f)]. cbn [concat length]. rewrite app_nil_r, take_drop. split_and!; [done|done| |done].
      right. rewrite Nat.ltb_irrefl. simpl. by eexists.
    + exists [], [jf_data f]. cbn [concat length]. rewrite app_nil_r. split_and!; [done|done|by left|done].
  - exists (jf_data f), []. simpl. rewrite app_nil_r. split_and!; [done|lia| |constructor]. right.
    destruct (pr_unterminated scan) as [l|]; [|by exists f]. eexists. split; [done|]. destruct (i =? l)%nat; [|done]. by eexists.
Qed.

Lemma repair_destroys_nothing scan j : destroys_nothing 1 j (repair scan j).
Proof.
  split; [rewrite repair_backups; eauto|]. intros f [i Hf]%list_elem_of_lookup.
  destruct (repair_keeps_file scan j i f Hf) as (kept & pieces & Hd & Hn & Hfile & Hc). exists kept, pieces. split; [done|done| |done].
  destruct Hfile as [->|(f' & Hr & Hpre)]; [by left|]. right. exists f'. split_and!; [|by apply (repair_file_kind backup_name now fresh_id cid [] [] (j_files j) scan i f f')|done].
  rewrite repair_files. apply list_elem_of_omap. exists (Some f'). split; [|done]. apply elem_of_lookup_imap. eauto.
Qed.

Lemma pass_repairs fuel j position st j' : validate_files backup_name now fresh_id fuel cid j position st = Repaired j' → ∃ scan, j' = repair scan j.
Proof.
  revert position st. induction fuel as [|fuel IH]; intros position st; cbn [validate_files]; [done|].
  destruct (drop position (j_files j)) as [|f rest]; [done|]. destruct (jf_kind f) as [number [s|[error|error]]|number|]; try done.
  1: destruct (_ =? _); [apply IH|done].
  all: destruct (run_barrier _ _) as [barrier|]; [|done]; destruct (scan_plain_run _ _ _ _) as [scan|]; [|done].
  all: destruct (needs_repair scan); [intros [= <-]; by exists scan|apply IH].
Qed.

Lemma passes_destroy_nothing passes j : destroys_nothing passes j (validate_passes backup_name now fresh_id passes cid j).1.
Proof.
  revert j. induction passes as [|passes IH]; intros j; cbn [validate_passes]; [apply destroys_nothing_refl|].
  destruct (validate_pass backup_name now fresh_id cid j) as [parts tail|j'|number|error] eqn:Hp; cbn [fst].
  1, 3, 4: by apply (destroys_nothing_le 0); [lia|apply destroys_nothing_refl].
  apply pass_repairs in Hp as [scan ->]. apply (destroys_nothing_le (passes + 1)); [lia|].
  eapply destroys_nothing_trans; [apply repair_destroys_nothing|apply IH].
Qed.

(** C15: Repairing destroys nothing. Whatever a journal holds, sealed segments or
    not, and however its validation ends: earlier copies are all still there,
    and every file's bytes are the beginning of the file of the same name
    followed by at most one piece per pass, each found in one of the copies. *)
Theorem validation_destroys_nothing j :
  destroys_nothing 4 j (validate_journal backup_name now fresh_id cid j).1.
Proof. apply passes_destroy_nothing. Qed.
End backups.
