(* ===== verification/JournalValidate.v ===== *)
(** * The conversation journal: validation ends with an index

    The passes of [validate_journal] over a journal of sealed segments followed
    by plaintext files, whatever those hold: after at most two repairs the
    journal is dense and its index points at every record. *)
From S2P Require Import Prelude Bytes Text Channel Json JsonObject Model Digest Summary Recipients Keyring Dek HistoryCrypto Record SegmentIndex SegmentBuilder SegmentRun SegmentContent FrameCache SegmentReader SegmentPlan JournalScan JournalRepair JournalLines JournalRecover JournalConverge.
From stdpp Require Import pretty.
From Stdlib Require Import Strings.Byte ZifyBool.
Local Open Scope N_scope.

(** ** The index of dense entries *)

(** The parts continue each other from [n] to before [m]. *)
Fixpoint covers_from (n : N) (parts : list IndexPart) (m : N) : Prop :=
  match parts with
  | [] => n = m
  | p :: parts => part_first p = n ∧ 0 < part_count p ∧ covers_from (n + part_count p) parts m
  end.
Lemma covers_app n parts1 parts2 k m : covers_from n parts1 k → covers_from k parts2 m → covers_from n (parts1 ++ parts2) m.
Proof.
  revert n. induction parts1 as [|p parts1 IH]; intros n; simpl; [by intros ->|]. intros (? & ? & ?) ?. split_and!; auto.
Qed.
Lemma covers_last n parts p m :
  covers_from n (parts ++ [p]) m → covers_from n parts (part_first p) ∧ 0 < part_count p ∧ m = part_first p + part_count p.
Proof.
  revert n. induction parts as [|q parts IH]; intros n; simpl.
  - intros (-> & ? & <-). done.
  - intros (? & ? & Hc). apply IH in Hc as (? & ? & ?). split_and!; auto.
Qed.

(** Where a part says the records are: file, sequence, bytes. *)
Definition part_records (p : IndexPart) : list (nat * N * (nat * nat)) :=
  match p with
  | PlainPart file first offsets => imap (λ i r, (file, first + N.of_nat i, r)) offsets
  | SealedPart _ => []
  end.
Definition item_records (n : N) (its : list Item) : list (nat * N * (nat * nat)) :=
  imap (λ i (it : Item), (it.1, n + N.of_nat i, it.2.1)) its.

Lemma item_entries_snoc n its (it : Item) :
  item_entries n (its ++ [it]) = item_entries n its ++ [KeptRecord it.1 (n + N.of_nat (length its)) it.2.1.1 it.2.1.2].
Proof. unfold item_entries. rewrite imap_app. simpl. by rewrite Nat.add_0_r. Qed.

Lemma parts_of_items n its :
  let parts := foldl push_part [] (item_entries n its) in
  covers_from n parts (n + N.of_nat (length its)) ∧ flat_map part_records parts = item_records n its.
Proof.
  induction its as [|it its [Hc Hr]] using rev_ind; [simpl; split; [lia|done]|].
  rewrite item_entries_snoc, foldl_snoc. cbv zeta in *. set (parts := foldl push_part [] (item_entries n its)) in *.
  assert (item_records n (its ++ [it]) = item_records n its ++ [(it.1, n + N.of_nat (length its), it.2.1)]) as Hsnoc.
  { unfold item_records. rewrite imap_app. simpl. by rewrite Nat.add_0_r. }
  assert (covers_from n (parts ++ [PlainPart it.1 (n + N.of_nat (length its)) [it.2.1]]) (n + N.of_nat (length (its ++ [it])))) as Hnew.
  { eapply covers_app; [exact Hc|]. simpl. rewrite length_app. simpl. split_and!; [done|lia|lia]. }
  assert (flat_map part_records (parts ++ [PlainPart it.1 (n + N.of_nat (length its)) [it.2.1]]) = item_records n (its ++ [it])) as Hnewr.
  { rewrite flat_map_app, Hr, Hsnoc. simpl. by rewrite N.add_0_r. }
  unfold push_part. rewrite <-surjective_pairing.
  destruct (reverse parts) as [|[s|file first offsets] before] eqn:Hrev; [done..|].
  destruct (Nat.eqb_spec file it.1) as [->|]; [|done].
  assert (parts = reverse before ++ [PlainPart it.1 first offsets]) as Hparts
    by by rewrite <-(reverse_involutive parts), Hrev, reverse_cons.
  rewrite Hparts in Hc, Hr. apply covers_last in Hc as (Hc & _ & Hlen). simpl in Hc, Hlen. split.
  - eapply covers_app; [exact Hc|]. simpl. rewrite !length_app. simpl. split_and!; [done|lia|lia].
  - rewrite flat_map_app in Hr |- *. simpl in *. rewrite app_nil_r in *. rewrite imap_app. simpl.
    rewrite Nat.add_0_r, app_assoc, Hr, Hsnoc, Hlen. done.
Qed.

(** ** Scanning a dense run *)
Section validate.
Context `{JsonViewLaws} `{!Serde} `{!SerdeLaws} `{!JournalLaws}.
Context (backup_name : string) (now : Z) (fresh_id : N → string) (cid : string).
Hypothesis now_in_range : time_in_range (now / 1000 * 1000)%Z = true.
Abbreviation repair := (repair_plain_run backup_name now fresh_id cid).
Abbreviation lines := (flat_map file_lines).
Implicit Types (plains : list JournalFile).

Lemma scan_dense_run base plains first :
  dense_lines cid first (lines plains) →
  let its := run_items (indexed_from base plains) in
  ∃ scan, scan_plain_run (indexed_from base plains) cid first None = Ok scan ∧
    pr_damaged scan = ∅ ∧ pr_corrupt_tail scan = None ∧ pr_expected scan = first + N.of_nat (length its) ∧
    pr_entries scan = item_entries first its ∧ pr_parts scan = foldl push_part [] (item_entries first its) ∧
    pr_unterminated scan = run_unterminated None (indexed_from base plains) ∧ pr_last scan = foldl (item_event cid) None its.
Proof.
  intros Hd. cbv zeta. unfold scan_plain_run. rewrite scan_run_items. cbn [scan_start ss_unterminated ss_present app].
  set (its := run_items (indexed_from base plains)).
  destruct (scan_dense cid None its (scan_start first)) as (He & Hp & Hda & Hen & Hla); [|done|done|].
  { simpl. unfold its. by rewrite run_lines. }
  eexists. split; [done|]. cbn [finish_scan with_files pr_damaged pr_corrupt_tail pr_expected pr_entries pr_parts pr_unterminated
    pr_last ss_damaged ss_pending ss_expected ss_entries ss_unterminated ss_last].
  rewrite He, Hp, Hda, Hen, Hla. done.
Qed.

(** ** Terminating the last file *)

Lemma run_unterminated_app u run1 run2 : run_unterminated u (run1 ++ run2) = run_unterminated (run_unterminated u run1) run2.
Proof. apply foldl_app. Qed.
Lemma indexed_from_app base plains1 plains2 :
  indexed_from base (plains1 ++ plains2) = indexed_from base plains1 ++ indexed_from (base + length plains1) plains2.
Proof. unfold indexed_from. rewrite imap_app. f_equal. apply imap_ext. intros i x _. f_equal. simpl. lia. Qed.

(** [terminate_file] in a run that begins at [base]. *)
Definition terminate_run (base l : nat) plains : list JournalFile :=
  imap (λ k f, if (base + k =? l)%nat then with_data (jf_data f ++ [NL]) f else f) plains.

Lemma terminated_run_ends base l plains :
  run_unterminated None (indexed_from base plains) = Some l →
  run_unterminated None (indexed_from base (terminate_run base l plains)) = None.
Proof.
  induction plains as [|f plains IH] using rev_ind; [done|]. unfold terminate_run in *.
  rewrite imap_app, !indexed_from_app, !run_unterminated_app, length_imap. cbn [imap indexed_from run_unterminated foldl fst snd].
  rewrite !Nat.add_0_r. intros Hl.
  destruct (jf_data f) as [|c data] eqn:Hf.
  - destruct (Nat.eqb_spec (base + length plains) l) as [E|Hne].
    + done.
    + rewrite Hf. by apply IH.
  - destruct (ends_with_newline (c :: data)); [done|]. injection Hl as <-. rewrite Nat.eqb_refl. cbn [jf_data with_data].
    cbn [app]. unfold ends_with_newline. rewrite app_comm_cons, last_snoc. by rewrite bool_decide_eq_true_2.
Qed.

(** ** One pass *)

(** Sealed segments that load and continue each other from [n] to before [m]. *)
Fixpoint sealed_chain (n : N) (segs : list JournalFile) (m : N) : Prop :=
  match segs with
  | [] => n = m
  | f :: segs => ∃ number s, jf_kind f = Segment number (Ok s) ∧ s_first s = n ∧ s_first s <= s_last s ∧
                   sealed_chain (s_last s + 1) segs m
  end.
Definition sealed_parts (segs : list JournalFile) : list IndexPart :=
  flat_map (λ f, match jf_kind f with Segment _ (Ok s) => [SealedPart s] | _ => [] end) segs.

Lemma sealed_covers n segs m : sealed_chain n segs m → covers_from n (sealed_parts segs) m.
Proof.
  revert n. induction segs as [|f segs IH]; intros n; simpl; [done|]. intros (number & s & -> & <- & Hle & Hc).
  simpl. split_and!; [done|lia|]. replace (s_first s + (s_last s - s_first s + 1)) with (s_last s + 1) by lia. by apply IH.
Qed.
Lemma sealed_records segs : flat_map part_records (sealed_parts segs) = [].
Proof.
  induction segs as [|f segs IH]; [done|]. unfold sealed_parts in *. cbn [flat_map]. rewrite flat_map_app, IH, app_nil_r.
  by destruct (jf_kind f) as [number [s|]| |].
Qed.

Lemma validate_sealed fuel j position segs rest st m :
  drop position (j_files j) = segs ++ rest → sealed_chain (vs_expected st) segs m → vs_tail st = None →
  validate_files backup_name now fresh_id (length segs + fuel) cid j position st =
  validate_files backup_name now fresh_id fuel cid j (position + length segs)
    {| vs_parts := vs_parts st ++ sealed_parts segs; vs_expected := m; vs_tail := None |}.
Proof.
  revert position st. induction segs as [|f segs IH]; intros position st Hd Hc Ht; simpl in *.
  - rewrite Nat.add_0_r, app_nil_r, <-Hc, <-Ht. by destruct st.
  - destruct Hc as (number & s & Hk & Hf & _ & Hc). rewrite Hd, Hk, Hf, N.eqb_refl. rewrite IH; [|..|done|done].
    + rewrite Nat.add_succ_comm. cbn [vs_parts]. by rewrite <-app_assoc.
    + replace (S position) with (position + 1)%nat by lia. rewrite <-drop_drop, Hd. done.
Qed.

Lemma take_plain_all plains : Forall (λ f, is_plain f = true) plains → take_plain plains = plains.
Proof. induction 1 as [|f plains Hf _ IH]; [done|]. simpl. by rewrite Hf, IH. Qed.

Lemma validate_pass_run j segs plains m :
  j_files j = segs ++ plains → sealed_chain 1 segs m → Forall (λ f, is_plain f = true) plains →
  ∃ scan, scan_plain_run (indexed_from (length segs) plains) cid m None = Ok scan ∧
    validate_pass backup_name now fresh_id cid j =
      if needs_repair scan then Repaired (repair scan j) else Validated (sealed_parts segs ++ pr_parts scan) (pr_last scan).
Proof.
  intros Hj Hc Hp. eexists. split; [reflexivity|]. unfold validate_pass. rewrite Hj, length_app.
  rewrite (validate_sealed _ j 0 segs plains _ m); [|by rewrite Hj|done|done].
  assert (drop (0 + length segs) (j_files j) = plains) as Hdrop by (rewrite Hj; apply drop_app_length).
  cbn [vs_parts app]. destruct plains as [|f plains]; [cbn; by rewrite app_nil_r|].
  cbn [length validate_files]. rewrite Hdrop. rewrite (take_plain_all (f :: plains)) by done.
  rewrite <-drop_drop, Hdrop, drop_all. cbn [run_barrier].
  assert (is_plain f = true) as Hf by by apply Forall_cons in Hp as [? _].
  unfold is_plain, is_sealed_segment in Hf. destruct (jf_kind f) as [number index| |] eqn:Hk; [done|..].
  all: cbn [Nat.add vs_expected scan_plain_run]; set (scan := finish_scan _ _); destruct (needs_repair scan); [done|].
  all: destruct (length plains); cbn [validate_files vs_parts vs_tail]; rewrite <-?drop_drop.
  all: simpl in Hdrop; rewrite ?Hdrop, ?drop_all; by destruct (pr_last scan).
Qed.

(** ** The passes together *)

Lemma clean_pass j segs plains m :
  j_files j = segs ++ plains → sealed_chain 1 segs m → Forall (λ f, is_plain f = true) plains →
  dense_lines cid m (lines plains) → run_unterminated None (indexed_from (length segs) plains) = None →
  ∃ parts tail, validate_pass backup_name now fresh_id cid j = Validated parts tail ∧
    covers_from 1 parts (m + N.of_nat (length (lines plains))) ∧
    flat_map part_records parts = item_records m (run_items (indexed_from (length segs) plains)).
Proof.
  intros Hj Hc Hp Hd Hu. destruct (validate_pass_run j segs plains m Hj Hc Hp) as (scan & Hs & Hpass).
  destruct (scan_dense_run (length segs) plains m Hd) as (scan' & Hs' & Hda & Ht & _ & _ & Hparts & Hun & _).
  rewrite Hs in Hs'. injection Hs' as <-. unfold needs_repair in Hpass.
  rewrite Hda, Ht, Hun, Hu in Hpass. rewrite bool_decide_eq_true_2 in Hpass by done.
  rewrite !bool_decide_eq_false_2 in Hpass by (by intros [? ?]). simpl in Hpass.
  destruct (parts_of_items m (run_items (indexed_from (length segs) plains))) as [Hcov Hrec].
  eexists _, _. split; [exact Hpass|]. rewrite Hparts. split.
  - eapply covers_app; [by apply sealed_covers|]. rewrite <-(run_lines (length segs)), !length_fmap. exact Hcov.
  - by rewrite flat_map_app, sealed_records, Hrec.
Qed.

Lemma scan_items_grow barrier its st : ∃ more, ss_entries (foldl (scan_item cid barrier) st its) = ss_entries st ++ more.
Proof.
  revert st. induction its as [|it its IH]; intros st; simpl; [exists []; by rewrite app_nil_r|].
  destruct (IH (scan_item cid barrier st it)) as [more ->].
  assert (∃ new, ss_entries (scan_item cid barrier st it) = ss_entries st ++ new) as [new ->].
  { unfold scan_item. destruct (readable_record _ _ _ _) as [event|]; [|exists []; by rewrite app_nil_r].
    destruct (_ <=? _); [by eexists|exists []; by rewrite app_nil_r]. }
  exists (new ++ more). by rewrite app_assoc.
Qed.

(** The records before the first damage are kept. *)
Lemma scan_keeps_prefix base plains first scan its1 its2 :
  scan_plain_run (indexed_from base plains) cid first None = Ok scan →
  run_items (indexed_from base plains) = its1 ++ its2 → dense_lines cid first (its1.*2.*2) →
  ∃ more, pr_entries scan = item_entries first its1 ++ more.
Proof.
  unfold scan_plain_run. rewrite scan_run_items. cbn [scan_start ss_unterminated ss_present app]. intros [= <-] Hits Hd.
  cbn [finish_scan pr_entries with_files ss_entries]. rewrite Hits, foldl_app.
  destruct (scan_dense cid None its1 (scan_start first) Hd eq_refl I) as (_ & _ & _ & Hen & _). cbn [ss_entries scan_start app] in Hen.
  destruct (scan_items_grow None its2 (foldl (scan_item cid None) (scan_start first) its1)) as [more ->]. rewrite Hen. by exists more.
Qed.

(** A line a repair writes for a lost record. *)
Definition placeholder_line (line : bytes) : Prop :=
  ∃ sequence run_start run_length t p,
    line = encode_record (placeholder backup_name now fresh_id cid sequence run_start run_length t p).

(** What a repaired run holds, compared with the run it was. *)
Record repaired_from (m : N) (plains plains' : list JournalFile) : Prop := {
  rf_plain : Forall (λ f, is_plain f = true) plains';
  rf_dense : dense_lines cid m (lines plains');
  rf_prefix l1 l2 : lines plains = l1 ++ l2 → dense_lines cid m l1 → ∃ l3, lines plains' = l1 ++ l3;
  rf_origin line : line ∈ lines plains' → line ∈ lines plains ∨ placeholder_line line;
}.

Lemma item_lines_of_entries (data : nat → bytes) first its :
  (∀ it : Item, it ∈ its → it.2.2 = trim_ascii (slice (data it.1) it.2.1)) →
  flat_map (λ e, entry_lines backup_name now fresh_id cid (data (entry_file e)) e) (item_entries first its) = its.*2.*2.
Proof.
  induction its as [|it its IH] using rev_ind; intros Hd; [done|].
  rewrite item_entries_snoc, flat_map_app, !fmap_app, IH by (intros x Hx; apply Hd; set_solver). f_equal. simpl.
  rewrite (Hd it) by set_solver. by destruct it as [? [[? ?] ?]].
Qed.

Lemma repair_repairs j segs plains m scan :
  j_files j = segs ++ plains → Forall (λ f, is_plain f = true) plains →
  scan_plain_run (indexed_from (length segs) plains) cid m None = Ok scan →
  ∃ plains', j_files (repair scan j) = segs ++ plains' ∧ repaired_from m plains plains'.
Proof.
  intros Hj Hp Hs. pose proof (scan_plain_run_scanned _ _ _ _ _ _ Hs) as Hsc.
  destruct (repaired_run backup_name now fresh_id cid segs plains [] scan m Hp Hsc j) as (plains' & Hf & Hp' & Hl);
    [done|by rewrite app_nil_r|].
  rewrite app_nil_r in Hf. exists plains'. split; [done|].
  destruct (sc_kept _ _ _ _ _ Hsc) as (kept & Hsal & Hsub & _).
  assert (∀ it : Item, it ∈ run_items (indexed_from (length segs) plains) →
    it.2.2 = trim_ascii (slice (file_data (segs ++ plains) it.1) it.2.1)) as Hline.
  { intros it Hit. pose proof (item_line segs plains [] it Hit) as [E _]. by rewrite app_nil_r in E. }
  unfold salvaged_lines in Hl. rewrite app_nil_r in Hl. split.
  - done.
  - rewrite Hl. apply (salvages_lines backup_name now fresh_id cid now_in_range (file_data (segs ++ plains)) m _ kept (pr_expected scan));
      [done|]. intros it Hit. apply Hline. by apply Hsub.
  - intros l1 l2 Hsplit Hd. rewrite <-(run_lines (length segs)) in Hsplit.
    set (its := run_items (indexed_from (length segs) plains)) in *. set (its1 := take (length l1) its).
    assert (its1.*2.*2 = l1) as Hl1 by by (unfold its1; rewrite !fmap_take, Hsplit, take_app_length).
    destruct (scan_keeps_prefix _ _ _ _ its1 (drop (length l1) its) Hs) as [more Hmore];
      [by unfold its1; rewrite take_drop|by rewrite Hl1|].
    rewrite Hl, Hmore, flat_map_app, item_lines_of_entries, Hl1; [by eexists|].
    intros it Hit. apply Hline. rewrite <-(take_drop (length l1) its). apply elem_of_app. by left.
  - intros line Hin. rewrite Hl in Hin. apply list_elem_of_In, in_flat_map in Hin as (e & He & Hin).
    apply list_elem_of_In in He. apply list_elem_of_In in Hin. destruct e as [file seqno a b'|file rs rl t p]; simpl in Hin.
    + left. destruct (salvages_kept_items cid m _ _ _ Hsal _ _ _ _ He) as [l Hk%Hsub].
      apply list_elem_of_singleton in Hin as ->. pose proof (Hline _ Hk) as E. cbn [fst snd] in E. rewrite <-E.
      rewrite <-(run_lines (length segs)). apply (list_elem_of_fmap_2 snd _ (a, b', l)).
      by apply (list_elem_of_fmap_2 snd _ (file, (a, b', l))).
    + right. apply list_elem_of_fmap in Hin as (s & -> & _). by eexists _, _, _, _, _.
Qed.

Lemma no_repair scan j : needs_repair scan = false → repair scan j = j.
Proof.
  unfold needs_repair, repair_plain_run. intros [[Hd Ht]%orb_false_iff Hu]%orb_false_iff.
  apply negb_false_iff in Hd. apply bool_decide_eq_false in Ht, Hu.
  destruct (pr_corrupt_tail scan) as [t|]; [by destruct Ht|]. destruct (pr_unterminated scan) as [u|]; [by destruct Hu|].
  cbn. by rewrite Hd.
Qed.

(** The repair of a dense run adds the newline that is missing at its end. *)
Lemma terminate_repairs j segs plains l scan :
  j_files j = segs ++ plains → pr_damaged scan = ∅ → pr_corrupt_tail scan = None → pr_unterminated scan = Some l →
  (length segs ≤ l)%nat → j_files (repair scan j) = segs ++ terminate_run (length segs) l plains.
Proof.
  intros Hj Hd Ht Hu Hl. unfold repair_plain_run. rewrite Ht, Hu, Hd. cbn [j_files set_files].
  rewrite (bool_decide_eq_true_2 (∅ = ∅)) by done. rewrite bool_decide_eq_false_2 by (by intros [? ?]).
  unfold terminate_file. rewrite Hj, imap_app. f_equal. apply imap_id. intros k f Hk%lookup_lt_Some. destruct (Nat.eqb_spec k l); [lia|done].
Qed.
Lemma terminate_lines base l plains : lines (terminate_run base l plains) = lines plains.
Proof.
  revert base. unfold terminate_run. induction plains as [|f plains IH]; intros base; [done|]. rewrite imap_cons. cbn [flat_map].
  f_equal.
  - destruct (_ =? _)%nat; [|done]. unfold file_lines, with_data. cbn [jf_data]. by rewrite items_terminate.
  - rewrite <-(IH (S base)). f_equal. apply imap_ext. intros k x _. cbn [compose].
    by replace (base + S k)%nat with (S base + k)%nat by lia.
Qed.
Lemma terminate_plain base l plains :
  Forall (λ f, is_plain f = true) plains → Forall (λ f, is_plain f = true) (terminate_run base l plains).
Proof.
  intros Hp. apply Forall_forall. intros f (k & g & -> & Hk)%elem_of_lookup_imap.
  eapply Forall_lookup_1 in Hk; [|exact Hp]. by destruct (_ =? _)%nat.
Qed.

(** Two more passes end for a journal whose lines are dense. *)
Lemma dense_converges passes j segs plains m :
  j_files j = segs ++ plains → sealed_chain 1 segs m → Forall (λ f, is_plain f = true) plains →
  dense_lines cid m (lines plains) →
  ∃ j' parts tail plains',
    validate_passes backup_name now fresh_id (S (S passes)) cid j = (j', ValidIndex parts tail) ∧
    j_files j' = segs ++ plains' ∧ lines plains' = lines plains ∧
    covers_from 1 parts (m + N.of_nat (length (lines plains'))) ∧
    flat_map part_records parts = item_records m (run_items (indexed_from (length segs) plains')).
Proof.
  intros Hj Hc Hp Hd. destruct (run_unterminated None (indexed_from (length segs) plains)) as [l|] eqn:Hu.
  - destruct (validate_pass_run j segs plains m Hj Hc Hp) as (scan & Hs & Hpass).
    destruct (scan_dense_run (length segs) plains m Hd) as (scan' & Hs' & Hda & Ht & _ & _ & _ & Hun & _).
    rewrite Hs in Hs'. injection Hs' as <-. rewrite Hu in Hun.
    assert (needs_repair scan = true) as Hnr by (unfold needs_repair; rewrite Hun; by rewrite orb_true_r).
    rewrite Hnr in Hpass. set (plains' := terminate_run (length segs) l plains).
    assert (in_run (length segs) plains l) as [Hl _].
    { eapply (unterminated_in_run cid segs plains scan m); [by apply (scan_plain_run_scanned _ _ _ _ None)|done]. }
    pose proof (terminate_repairs j segs plains l scan Hj Hda Ht Hun Hl) as Hf. fold plains' in Hf.
    pose proof (terminate_lines (length segs) l plains) as Hlines. fold plains' in Hlines.
    destruct (clean_pass (repair scan j) segs plains' m Hf Hc) as (parts & tail & Hpass2 & Hcov & Hrec);
      [by apply terminate_plain|by rewrite Hlines|by apply terminated_run_ends|].
    exists (repair scan j), parts, tail, plains'. cbn [validate_passes]. rewrite Hpass. cbn [validate_passes]. by rewrite Hpass2.
  - destruct (clean_pass j segs plains m Hj Hc Hp Hd Hu) as (parts & tail & Hpass & Hcov & Hrec).
    exists j, parts, tail, plains. cbn [validate_passes]. by rewrite Hpass.
Qed.

(** C14: A damaged journal recovers. Whatever bytes the plaintext files after the
    sealed segments hold, validation ends with an index, never giving up: the
    files then hold the records one after the other, the index covers all
    sequences and points at every record of the files, the records before the
    first damage are all kept, and every other line is one that was there or the
    placeholder of a lost record. A journal with no damage is not touched. *)
Theorem journal_recovers j segs plains m :
  j_files j = segs ++ plains → sealed_chain 1 segs m → Forall (λ f, is_plain f = true) plains →
  ∃ j' parts tail plains',
    validate_journal backup_name now fresh_id cid j = (j', ValidIndex parts tail) ∧
    j_files j' = segs ++ plains' ∧ dense_lines cid m (lines plains') ∧
    covers_from 1 parts (m + N.of_nat (length (lines plains'))) ∧
    flat_map part_records parts = item_records m (run_items (indexed_from (length segs) plains')) ∧
    (∀ l1 l2, lines plains = l1 ++ l2 → dense_lines cid m l1 → ∃ l3, lines plains' = l1 ++ l3) ∧
    (∀ line, line ∈ lines plains' → line ∈ lines plains ∨ placeholder_line line) ∧
    (dense_lines cid m (lines plains) → run_unterminated None (indexed_from (length segs) plains) = None → j' = j).
Proof.
  intros Hj Hc Hp. destruct (validate_pass_run j segs plains m Hj Hc Hp) as (scan & Hs & Hpass).
  destruct (repair_repairs j segs plains m scan Hj Hp Hs) as (plains1 & Hf1 & [Hp1 Hd1 Hpre Horig]).
  destruct (needs_repair scan) eqn:Hnr.
  - destruct (dense_converges 1 (repair scan j) segs plains1 m Hf1 Hc Hp1 Hd1) as (j' & parts & tail & plains' & Hv & Hf & Hl & Hcov & Hrec).
    exists j', parts, tail, plains'. unfold validate_journal. cbn [validate_passes]. rewrite Hpass.
    rewrite Hl in *. split_and!; try done. intros Hd Hu. exfalso.
    destruct (clean_pass j segs plains m Hj Hc Hp Hd Hu) as (? & ? & Hclean & _). by rewrite Hclean in Hpass.
  - rewrite (no_repair _ _ Hnr), Hj in Hf1. apply app_inv_head in Hf1 as <-.
    destruct (dense_converges 2 j segs plains m Hj Hc Hp Hd1) as (j' & parts & tail & plains' & Hv & Hf & Hl & Hcov & Hrec).
    exists j', parts, tail, plains'. unfold validate_journal. rewrite Hl in *. split_and!; try done.
    intros _ _. cbn [validate_passes] in Hv. rewrite Hpass in Hv. by injection Hv as <- _ _.
Qed.
End validate.
