(* ===== verification/JournalFast.v ===== *)
(** * The conversation journal: the fast scan agrees with the full one

    The cold index looks only at the first and last record of each plaintext
    file. Where the validating pass finds nothing to repair, it builds the same
    index. *)
From S2P Require Import Prelude Bytes Text Channel Json JsonObject Model Digest Summary Recipients Keyring Dek HistoryCrypto Record SegmentIndex SegmentBuilder SegmentRun SegmentContent FrameCache SegmentReader SegmentPlan JournalScan JournalRepair JournalLines JournalRecover JournalConverge JournalValidate.
From stdpp Require Import pretty.
From Stdlib Require Import Strings.Byte ZifyBool.
Local Open Scope N_scope.

(** Every range is a line when the file ends with a newline. *)
Lemma offsets_line l rest start index :
  no_newline l → offsets_go start index (l ++ NL :: rest) =
    (start, (index + length l)%nat) :: offsets_go (S (index + length l)) (S (index + length l)) rest.
Proof.
  revert index. induction l as [|c l IH]; intros index Hl; simpl.
  - by rewrite Nat.add_0_r.
  - apply not_elem_of_cons in Hl as [Hc Hl]. rewrite bool_decide_eq_false_2 by congruence.
    rewrite IH by done. simpl. by rewrite !Nat.add_succ_r.
Qed.
Lemma offsets_ranges raw index : terminated raw → offsets_go index index raw = line_ranges_go index index raw.
Proof.
  revert raw index. apply (text_lines_ind (λ raw, ∀ index, terminated raw → _)).
  - intros l Hl index ->%terminated_no_newline; [|done]. simpl. by rewrite Nat.ltb_irrefl.
  - intros l rest Hl IH index Ht%terminated_cons. rewrite offsets_line, line_ranges_line by done. f_equal. by apply IH.
Qed.
Lemma ends_terminated raw : ends_with_newline raw = true → terminated raw.
Proof.
  intros Hl%bool_decide_eq_true. right. apply last_Some in Hl as [before ->]. by exists before.
Qed.

(** ** Parts, file by file *)

Fixpoint run_parts (base : nat) (n : N) (plains : list JournalFile) : list IndexPart :=
  match plains with
  | [] => []
  | f :: plains =>
      match items (jf_data f) with [] => [] | its => [PlainPart base n its.*1] end ++
      run_parts (S base) (n + N.of_nat (length (items (jf_data f)))) plains
  end.

(** No part of a file from [base] on is open. *)
Definition closed_before (base : nat) (parts : list IndexPart) : Prop :=
  ∀ file first offsets, last parts = Some (PlainPart file first offsets) → (file < base)%nat.

Lemma push_part_last parts file n r :
  push_part parts (KeptRecord file n r.1 r.2) =
    match last parts with
    | Some (PlainPart file' first offsets) =>
        if (file' =? file)%nat then list.take (pred (length parts)) parts ++ [PlainPart file' first (offsets ++ [r])]
        else parts ++ [PlainPart file n [r]]
    | _ => parts ++ [PlainPart file n [r]]
    end.
Proof.
  unfold push_part. rewrite <-surjective_pairing. destruct (reverse parts) as [|p before] eqn:Hrev.
  - apply (f_equal reverse) in Hrev. rewrite reverse_involutive in Hrev. by subst.
  - assert (parts = reverse before ++ [p]) as -> by by rewrite <-(reverse_involutive parts), Hrev, reverse_cons.
    rewrite last_snoc, length_app. simpl. rewrite Nat.add_1_r. simpl. rewrite take_app_length. done.
Qed.

Lemma push_file parts file n m (rs : list (nat * nat)) offsets :
  foldl push_part (parts ++ [PlainPart file n offsets])
    (imap (λ i r, KeptRecord file (m + N.of_nat i) r.1 r.2) rs) = parts ++ [PlainPart file n (offsets ++ rs)].
Proof.
  revert m offsets. induction rs as [|r rs IH]; intros m offsets; [by rewrite app_nil_r|]. rewrite imap_cons. cbn [foldl].
  rewrite push_part_last, last_snoc, Nat.eqb_refl, length_app, Nat.add_1_r. simpl. rewrite take_app_length.
  replace (offsets ++ r :: rs) with ((offsets ++ [r]) ++ rs) by by rewrite <-app_assoc.
  rewrite <-(IH (m + 1) (offsets ++ [r])). f_equal. apply imap_ext. intros i x _. simpl. f_equal. lia.
Qed.

Lemma item_entries_app n its1 its2 :
  item_entries n (its1 ++ its2) = item_entries n its1 ++ item_entries (n + N.of_nat (length its1)) its2.
Proof. unfold item_entries. rewrite imap_app. f_equal. apply imap_ext. intros i x _. simpl. f_equal. lia. Qed.

Lemma full_parts base n plains acc :
  closed_before base acc →
  foldl push_part acc (item_entries n (run_items (indexed_from base plains))) = acc ++ run_parts base n plains.
Proof.
  revert base n acc. induction plains as [|f plains IH]; intros base n acc Hc; [by rewrite app_nil_r|].
  rewrite run_items_cons, item_entries_app, foldl_app, length_fmap. cbn [run_parts].
  assert (item_entries n ((base,.) <$> items (jf_data f)) =
    imap (λ i r, KeptRecord base (n + N.of_nat i) r.1 r.2) (items (jf_data f)).*1) as ->.
  { unfold item_entries. by rewrite !imap_fmap. }
  destruct (items (jf_data f)) as [|x xs]; [rewrite N.add_0_r; apply IH; intros ? ? ? E%Hc; lia|].
  rewrite fmap_cons, imap_cons, N.add_0_r. cbn [foldl]. rewrite push_part_last.
  assert (match last acc with
    | Some (PlainPart file' first offsets) =>
        if (file' =? base)%nat then list.take (pred (length acc)) acc ++ [PlainPart file' first (offsets ++ [x.1])]
        else acc ++ [PlainPart base n [x.1]]
    | _ => acc ++ [PlainPart base n [x.1]] end = acc ++ [PlainPart base n [x.1]]) as ->.
  { destruct (last acc) as [[s|file first offsets]|] eqn:Hl; [done| |done]. apply Hc in Hl.
    destruct (Nat.eqb_spec file base); [lia|done]. }
  assert (foldl push_part (acc ++ [PlainPart base n [x.1]])
    (imap ((λ i (r : nat * nat), KeptRecord base (n + N.of_nat i) r.1 r.2) ∘ S) xs.*1) =
    acc ++ [PlainPart base n (x.1 :: xs.*1)]) as ->.
  { etrans; [|exact (push_file acc base n (n + 1) xs.*1 [x.1])]. f_equal. apply imap_ext. intros i r _. simpl. f_equal. lia. }
  rewrite IH, <-app_assoc; [done|]. intros file first offsets E. rewrite last_snoc in E. injection E as <- _ _. lia.
Qed.

Lemma filter_length_eq {A} (P : A → Prop) `{∀ a, Decision (P a)} (l : list A) :
  length (filter P l) = length l → filter P l = l.
Proof.
  induction l as [|a l IH]; [done|]. pose proof (length_filter P l) as Hle. rewrite filter_cons.
  destruct (decide (P a)); simpl; intros Hl; [f_equal; apply IH; lia|lia].
Qed.

(** ** The fast scan *)

(** The reader of JSON ignores space after a value, and an empty input holds
    none. *)
Class TrailingSpace `{JsonView} `{!Serde} : Prop := {
  record_trailing l w r : Forall (λ c, ascii_whitespace c = true) w → record_from_slice (l ++ w) = Some r → record_from_slice l = Some r;
  compacted_trailing l w r :
    Forall (λ c, ascii_whitespace c = true) w → compacted_from_slice (l ++ w) = Some r → compacted_from_slice l = Some r;
  event_trailing l w r : Forall (λ c, ascii_whitespace c = true) w → event_from_slice (l ++ w) = Some r → event_from_slice l = Some r;
  event_of_nothing : event_from_slice [] = None;
}.

(** The lines of a file start at their first character, as the daemon writes
    them: no space before a record. *)
Definition flush_lines (f : JournalFile) : Prop :=
  Forall (λ r, head_ok (slice (jf_data f) r)) (line_ranges (jf_data f)).

Lemma prefix_trailing p l w :
  Forall (λ c, ascii_whitespace c = false) p → Forall (λ c, ascii_whitespace c = true) w → has_prefix p (l ++ w) = has_prefix p l.
Proof.
  intros Hp Hw. unfold has_prefix. apply bool_decide_ext. revert l. induction Hp as [|c p Hc _ IH]; intros l; [done|].
  destruct l as [|c' l]; simpl.
  - destruct Hw as [|c' w Hc' _]; [done|]. split; [intros [= -> _]; congruence|done].
  - specialize (IH l). split; intros [= -> E]; f_equal; by apply IH.
Qed.
Lemma trim_flush l : head_ok l → ∃ w, l = trim_ascii l ++ w ∧ Forall (λ c, ascii_whitespace c = true) w.
Proof.
  intros Hl. unfold trim_ascii. rewrite (trim_start_id l Hl). destruct (trim_start_suffix (rev l)) as (w & Hw & Hf).
  exists (rev w). split; [|by apply Forall_rev]. by rewrite <-rev_app_distr, <-Hw, rev_involutive.
Qed.

Section fast.
Context `{JsonViewLaws} `{!Serde} `{!SerdeLaws} `{!JournalLaws} `{!TrailingSpace}.
Context (cid : string).

Lemma decode_trims line event :
  head_ok line → decode_journal_record line cid = Ok event →
  trim_ascii line ≠ [] ∧ decode_journal_record (trim_ascii line) cid = Ok event.
Proof.
  intros Hl Hd. destruct (trim_flush _ Hl) as (w & Hw & Hf). split.
  - intros E. rewrite E in Hw. simpl in Hw. subst w. destruct Hf as [|c w Hc _]; [|simpl in Hl; congruence].
    revert Hd. unfold decode_journal_record. simpl. by rewrite event_of_nothing.
  - revert Hd. rewrite Hw at 1. unfold decode_journal_record. rewrite !prefix_trailing by (solve [assumption | repeat constructor]).
    destruct (has_prefix V3_RECORD_PREFIX (trim_ascii line)).
    { destruct (record_from_slice (_ ++ _)) eqn:E; [|done]. by rewrite (record_trailing _ _ _ Hf E). }
    destruct (has_prefix COMPACTED_RECORD_PREFIX (trim_ascii line)).
    { destruct (compacted_from_slice (_ ++ _)) eqn:E; [|done]. by rewrite (compacted_trailing _ _ _ Hf E). }
    destruct (event_from_slice (_ ++ _)) eqn:E; [|done]. by rewrite (event_trailing _ _ _ Hf E).
Qed.

Lemma valid_at_trimmed n line event :
  head_ok line → valid_at cid n line = Some event → trim_ascii line ≠ [] ∧ record_at cid n (trim_ascii line) event.
Proof.
  intros Hl. unfold valid_at. destruct (decode_journal_record line cid) as [e|] eqn:Hd; [|done]. simpl.
  case_bool_decide as Hv; [|done]. intros [= <-]. apply decode_trims in Hd as [Hne Hd]; [|done]. split; [done|]. split_and!; [done| |done].
  unfold validate_event in Hv. destruct (N.eqb_spec (sequence e) n); [done|]. by rewrite orb_true_r in Hv.
Qed.

Lemma record_at_unique n m line e1 e2 : record_at cid n line e1 → record_at cid m line e2 → n = m.
Proof. intros (H1' & <- & _) (H2' & <- & _). congruence. Qed.

(** A file whose last line is the record its number of lines promises has no
    blank lines. *)
Lemma all_lines_items n raw r event :
  dense_lines cid n (items raw).*2 → last (line_ranges raw) = Some r →
  record_at cid (n + N.of_nat (length (line_ranges raw)) - 1) (trim_ascii (slice raw r)) event →
  trim_ascii (slice raw r) ≠ [] → (items raw).*1 = line_ranges raw.
Proof.
  intros Hd Hl Hr Hne. unfold items in *. set (g := λ r, (r, trim_ascii (slice raw r))) in *.
  apply last_Some in Hl as [rs Hrs]. rewrite Hrs in *. clear Hrs. rewrite fmap_app, filter_app in Hd |- *.
  assert (filter (λ x : nat * nat * bytes, x.2 ≠ []) (g <$> [r]) = [g r]) as Hlast by (simpl; by rewrite filter_cons_True).
  rewrite Hlast in *. rewrite !fmap_app in *. simpl in *.
  set (kept := filter (λ x : nat * nat * bytes, x.2 ≠ []) (g <$> rs)) in *.
  apply dense_lines_app in Hd as [_ [[event' Hr'] _]].
  pose proof (record_at_unique _ _ _ _ _ Hr Hr') as Hlen. rewrite length_app, length_fmap in *. simpl in Hlen.
  f_equal. assert (kept = g <$> rs) as ->.
  { apply filter_length_eq. rewrite length_fmap. fold kept. lia. }
  rewrite <-list_fmap_compose. apply list_fmap_id.
Qed.

Lemma fast_plain_parts i raw st st' :
  Forall (λ r, head_ok (slice raw r)) (line_ranges raw) → dense_lines cid (fs_expected st) (items raw).*2 → scan_fast_plain cid i raw st = Some st' →
  fs_parts st' = fs_parts st ++ match items raw with [] => [] | its => [PlainPart i (fs_expected st) its.*1] end ∧
  fs_expected st' = fs_expected st + N.of_nat (length (items raw)) ∧
  fs_tail st' = foldl (item_event cid) (fs_tail st) ((i,.) <$> items raw).
Proof.
  intros Hfl Hd. unfold scan_fast_plain.
  destruct raw as [|c raw']; [intros [= <-]; simpl; by rewrite app_nil_r, N.add_0_r|]. set (raw := c :: raw') in *.
  destruct (ends_with_newline raw) eqn:He; [|done]. cbn [negb]. cbv zeta. rewrite offsets_ranges by by apply ends_terminated.
  fold (line_ranges raw). destruct (head (line_ranges raw)) as [r1|]; [|done].
  destruct (last (line_ranges raw)) as [r2|] eqn:Hlast; [|done].
  destruct (valid_at cid (fs_expected st) _); [|done]. destruct (valid_at cid _ (slice raw r2)) as [event|] eqn:Hv; [|done].
  intros [= <-]. cbn [fs_parts fs_expected]. apply valid_at_trimmed in Hv as [Hne Hv].
  2: { rewrite Forall_forall in Hfl. apply Hfl. apply last_Some in Hlast as [rs ->]. set_solver. }
  pose proof (all_lines_items _ _ _ _ Hd Hlast Hv Hne) as Hall. cbn [fs_tail].
  rewrite <-Hall, length_fmap. rewrite <-Hall in Hlast. split_and!; [|done|].
  - f_equal. by destruct (items raw).
  - rewrite fmap_last in Hlast. apply fmap_Some in Hlast as (it & Hlast & Hit).
    apply last_Some in Hlast as [before Hits]. assert (it ∈ items raw) as Hin by (rewrite Hits; set_solver). rewrite Hits.
    rewrite fmap_app, foldl_app. cbn [fmap list_fmap foldl]. unfold item_event. cbn [fst snd].
    apply items_range in Hin as [_ E]. rewrite E, <-Hit. by destruct Hv as (-> & _ & _).
Qed.

Lemma fast_file_parts f i st st' :
  is_plain f = true → flush_lines f → dense_lines cid (fs_expected st) (file_lines f) → scan_fast_file cid (i, f) st = Ok (Some st') →
  fs_parts st' = fs_parts st ++ run_parts i (fs_expected st) [f] ∧
  fs_expected st' = fs_expected st + N.of_nat (length (items (jf_data f))) ∧
  fs_tail st' = foldl (item_event cid) (fs_tail st) ((i,.) <$> items (jf_data f)).
Proof.
  intros Hp Hfl Hd. unfold scan_fast_file. cbn [fst snd run_parts]. rewrite app_nil_r.
  unfold is_plain, is_sealed_segment in Hp.
  destruct (jf_kind f) as [number index|number|]; [done|..]; intros [= Hs]; by apply fast_plain_parts.
Qed.

Lemma run_parts_cons base n f plains :
  run_parts base n (f :: plains) = run_parts base n [f] ++ run_parts (S base) (n + N.of_nat (length (items (jf_data f)))) plains.
Proof. cbn [run_parts]. by rewrite app_nil_r. Qed.

Lemma fast_run_parts base plains st st' :
  Forall (λ f, is_plain f = true) plains → Forall flush_lines plains → dense_lines cid (fs_expected st) (flat_map file_lines plains) →
  scan_fast_files cid (indexed_from base plains) st = Ok (Some st') →
  fs_parts st' = fs_parts st ++ run_parts base (fs_expected st) plains ∧
  fs_tail st' = foldl (item_event cid) (fs_tail st) (run_items (indexed_from base plains)).
Proof.
  intros Hp. revert base st. induction Hp as [|f plains Hf _ IH]; intros base st Hfl Hd Hs.
  - injection Hs as <-. by rewrite app_nil_r.
  - rewrite indexed_from_cons in Hs. cbn [scan_fast_files] in Hs. cbn [flat_map] in Hd.
    apply dense_lines_app in Hd as [Hd1 Hd2]. apply Forall_cons in Hfl as [Hfl1 Hfl].
    destruct (scan_fast_file cid (base, f) st) as [[st1|]|] eqn:Hff; [|done..]. simpl in Hs.
    destruct (fast_file_parts f base st st1 Hf Hfl1 Hd1 Hff) as (Hparts & Hexp & Htail).
    unfold file_lines in Hd2 at 1. rewrite length_fmap, <-Hexp in Hd2.
    destruct (IH _ _ Hfl Hd2 Hs) as [-> ->]. split.
    2: { by rewrite run_items_cons, foldl_app, Htail. }
    rewrite Hparts, <-app_assoc, (run_parts_cons base _ f plains), Hexp. done.
Qed.

Lemma fast_sealed base n segs m rest st :
  sealed_chain n segs m → fs_expected st = n →
  scan_fast_files cid (indexed_from base segs ++ rest) st =
  scan_fast_files cid rest {| fs_parts := fs_parts st ++ sealed_parts segs; fs_expected := m;
    fs_tail := match segs with [] => fs_tail st | _ => None end |}.
Proof.
  revert base n st. induction segs as [|f segs IH]; intros base n st Hc He; cbn [sealed_chain] in Hc.
  - simpl. rewrite app_nil_r. subst. by destruct st.
  - destruct Hc as (number & s & Hk & Hf & _ & Hc). rewrite indexed_from_cons. cbn [app scan_fast_files].
    unfold scan_fast_file at 1. cbn [snd]. rewrite Hk, He, Hf, N.eqb_refl. simpl.
    rewrite (IH _ (s_last s + 1)) by done. cbn [fs_parts]. rewrite <-app_assoc. simpl. rewrite Hk. by destruct segs.
Qed.

End fast.

Section agreement.
Context `{JsonViewLaws} `{!Serde} `{!SerdeLaws} `{!JournalLaws} `{!TrailingSpace}.
Context (backup_name : string) (now : Z) (fresh_id : N → string) (cid : string).

(** The index of a journal with nothing to repair: the segments, and the lines
    of each plaintext file. *)
Definition clean_parts (segs plains : list JournalFile) (m : N) : list IndexPart :=
  sealed_parts segs ++ run_parts (length segs) m plains.

Lemma fast_scan_parts segs plains m parts tail :
  sealed_chain 1 segs m → Forall (λ f, is_plain f = true) plains → Forall flush_lines plains →
  dense_lines cid m (flat_map file_lines plains) → scan_journal_fast (segs ++ plains) cid = Ok (Some (parts, tail)) →
  parts = clean_parts segs plains m ∧
  tail = foldl (item_event cid) None (run_items (indexed_from (length segs) plains)).
Proof.
  intros Hc Hp Hfl Hd Hfast. unfold scan_journal_fast in Hfast.
  assert (enumerate (segs ++ plains) = indexed_from 0 segs ++ indexed_from (length segs) plains) as E.
  { unfold enumerate, indexed_from. by rewrite imap_app. }
  rewrite E, (fast_sealed cid 0 1 segs m) in Hfast by done. cbn [fs_parts app] in Hfast.
  set (st := {| fs_parts := _ |}) in Hfast.
  destruct (scan_fast_files cid (indexed_from (length segs) plains) st) as [[st'|]|] eqn:Hrun; [|done..]. simpl in Hfast.
  apply fast_run_parts in Hrun as [Hrun Htail]; [|done..]. cbn [fs_parts fs_expected fs_tail st] in Hrun, Htail.
  destruct (fs_parts st') eqn:Hps; [done|]. injection Hfast as <- <-. split; [done|]. rewrite Htail. by destruct segs.
Qed.

Lemma validated_parts j segs plains m parts tail :
  j_files j = segs ++ plains → sealed_chain 1 segs m → Forall (λ f, is_plain f = true) plains →
  time_in_range (now / 1000 * 1000)%Z = true →
  validate_pass backup_name now fresh_id cid j = Validated parts tail →
  dense_lines cid m (flat_map file_lines plains) ∧ parts = clean_parts segs plains m ∧
  tail = foldl (item_event cid) None (run_items (indexed_from (length segs) plains)).
Proof.
  intros Hj Hc Hp Hnow Hpass.
  destruct (validate_pass_run backup_name now fresh_id cid Hnow j segs plains m Hj Hc Hp) as (scan & Hs & Hpass').
  rewrite Hpass in Hpass'. destruct (needs_repair scan) eqn:Hnr; [done|]. injection Hpass' as -> ->.
  destruct (repair_repairs backup_name now fresh_id cid Hnow j segs plains m scan Hj Hp Hs) as (plains1 & Hf1 & [_ Hd _ _]).
  rewrite (no_repair _ _ _ _ _ _ Hnr), Hj in Hf1. apply app_inv_head in Hf1 as <-.
  destruct (scan_dense_run cid (length segs) plains m Hd) as (scan' & Hs' & _ & _ & _ & _ & Hparts & _ & Hlast).
  rewrite Hs in Hs'. injection Hs' as <-. by rewrite Hparts, full_parts by done.
Qed.

(** C16: The two scans agree: for sealed segments followed by plaintext files, when
    the boundaries satisfy the fast scan and the full validation finds nothing
    to repair, both build the same index. *)
Theorem fast_scan_agrees j segs plains m parts tail parts' tail' :
  j_files j = segs ++ plains → sealed_chain 1 segs m → Forall (λ f, is_plain f = true) plains → Forall flush_lines plains →
  scan_journal_fast (j_files j) cid = Ok (Some (parts, tail)) →
  validate_pass backup_name now fresh_id cid j = Validated parts' tail' →
  time_in_range (now / 1000 * 1000)%Z = true →
  parts = parts' ∧ tail = tail'.
Proof.
  intros Hj Hc Hp Hfl Hfast Hpass Hnow.
  destruct (validated_parts j segs plains m parts' tail' Hj Hc Hp Hnow Hpass) as (Hd & -> & ->).
  rewrite Hj in Hfast. by apply (fast_scan_parts segs plains m parts tail).
Qed.
End agreement.
