(* ===== verification/JournalExample.v ===== *)
(** * The conversation journal: the theorems at work

    A serializer that meets the laws, and a journal with a sealed segment, a
    corrupt line in the middle and a record that lost its newline. *)
From S2P Require Import Prelude Bytes Text Channel Json JsonObject Model Digest Summary Recipients Keyring Dek HistoryCrypto Record SegmentIndex SegmentBuilder SegmentRun SegmentContent FrameCache SegmentReader SegmentPlan JournalScan JournalRepair JournalLines JournalRecover JournalConverge JournalBackup JournalValidate JournalFast.
From stdpp Require Import pretty.
From Stdlib Require Import Strings.Byte ZifyBool.
Local Open Scope N_scope.

Module JournalExample.
Import Jv PlainSerde RecordExample.

(** ** The laws hold of the plain serializer *)

Lemma bits_digits p : Forall (λ c, c = Byte.x30 ∨ c = Byte.x31) (bits p).
Proof. induction p; simpl; constructor; auto. Qed.
Lemma join_bytes l : Forall (Forall (λ c, c = Byte.x30 ∨ c = Byte.x31)) l → NL ∉ join l.
Proof.
  unfold join. induction 1 as [|f l Hf _ IH]; [apply not_elem_of_nil|]. cbn [fmap list_fmap concat].
  rewrite !not_elem_of_app. split_and!; [|by intros ?%list_elem_of_singleton|done].
  intros Hin. rewrite Forall_forall in Hf. by destruct (Hf _ Hin).
Qed.
Lemma join_last f l : last (join (l ++ [f])) = Some Byte.x3b.
Proof. unfold join. rewrite fmap_app, concat_app. cbn [fmap list_fmap concat]. by rewrite app_nil_r, app_assoc, last_snoc. Qed.

#[export] Instance journal_laws : JournalLaws.
Proof.
  split; cbn [record_to_vec serde time_in_range].
  - intros r. unfold no_newline. rewrite not_elem_of_app. split; [by apply (bool_decide_unpack (NL ∉ V3_RECORD_PREFIX)); vm_compute|].
    apply join_bytes. repeat constructor; apply bits_digits.
  - intros r. exists Byte.x3b. split; [|done]. rewrite last_app. unfold line_fields.
    change [write (o_s r); write (o_i r); write (o_t r); write (o_y r); write (o_r r); write (o_p r); write (o_n r);
      write (o_tn r); write (o_e r : gmap string jv); write (non_null (o_c r) : option jv); write (non_null (o_x r) : option jv)]
      with ([write (o_s r); write (o_i r); write (o_t r); write (o_y r); write (o_r r); write (o_p r); write (o_n r);
      write (o_tn r); write (o_e r : gmap string jv); write (non_null (o_c r) : option jv)] ++ [write (non_null (o_x r) : option jv)]).
    by rewrite join_last.
  - done.
Qed.

Lemma fields_trailing acc l w : Forall (λ c, ascii_whitespace c = true) w → fields acc (l ++ w) = fields acc l.
Proof.
  intros Hw. revert acc. induction l as [|c l IH]; intros acc; cbn [app fields].
  - revert acc. induction Hw as [|c w Hc _ IHw]; intros acc; cbn [fields]; [done|].
    rewrite bool_decide_eq_false_2 by (by intros ->). apply IHw.
  - by rewrite !IH.
Qed.
#[export] Instance trailing_space : TrailingSpace.
Proof.
  split; cbn [record_from_slice compacted_from_slice event_from_slice serde]; [|done..].
  intros l w r Hw. rewrite drop_app, fields_trailing by (by apply Forall_drop). done.
Qed.

(** ** A damaged journal *)

Definition say (n : N) : ConversationEvent :=
  {| schema_version := CONVERSATION_SCHEMA_VERSION; sequence := n; event_id := "e"; conversation_id := "c";
     time := 1759670000123456; event_type := "message.created"; normalized_type := Some "message.created";
     raw_type := None; provider := Some Codex; payload := JObj (<["content" := JStr "hi"]> ∅) |}.
Definition line (n : N) : bytes := encode_record (say n).
Definition sealed : JournalFile :=
  {| jf_kind := Segment 1 (Ok {| s_number := 1; s_first := 1; s_last := 4; s_segment_id := "seg"; s_frames := []; by_stream := [] |});
     jf_data := [] |}.
Definition older : JournalFile :=
  {| jf_kind := Numbered 2; jf_data := line 5 ++ [NL] ++ Byte.x7b :: repeat Byte.x00 700 ++ [NL] ++ line 8 ++ [NL] |}.
Definition active : JournalFile := {| jf_kind := Active; jf_data := line 9 ++ [NL] ++ line 10 |}.
Definition damaged : Journal := {| j_files := [sealed; older; active]; j_backups := []; j_key_abandoned := false |}.
Definition ids (_ : N) : string := "evt".

(** What is in the files after a validation, by sequence and type. *)
Definition contents (j : Journal) : list (option (N * string)) :=
  (λ l, match decode_journal_record l "c" with Ok e => Some (sequence e, event_type e) | Err _ => None end)
    <$> flat_map file_lines (j_files j).
Definition validated (j : Journal) : Journal * Validation := validate_journal "backup" 1000 ids "c" j.

(** Records 6 and 7 are lost, and say so. *)
Lemma damaged_contents :
  contents damaged = [Some (5, "message.created"); None; Some (8, "message.created"); Some (9, "message.created");
    Some (10, "message.created")] ∧
  contents (validated damaged).1 = [Some (5, "message.created"); Some (6, "journal.recordLost"); Some (7, "journal.recordLost");
    Some (8, "message.created"); Some (9, "message.created"); Some (10, "message.created")].
Proof. split; vm_compute; reflexivity. Qed.

Lemma sealed_then_5 : sealed_chain 1 [sealed] 5.
Proof. by eexists 1, _. Qed.

Lemma journal_recovers_witness :
  ∃ j' parts tail plains',
    validated damaged = (j', ValidIndex parts tail) ∧ j_files j' = [sealed] ++ plains' ∧
    dense_lines "c" 5 (flat_map file_lines plains') ∧
    covers_from 1 parts (5 + N.of_nat (length (flat_map file_lines plains'))).
Proof.
  assert (time_in_range (1000 / 1000 * 1000)%Z = true) as Hnow by reflexivity.
  destruct (journal_recovers "backup" 1000 ids "c" Hnow damaged [sealed] [older; active] 5)
    as (j' & parts & tail & plains' & Hv & Hf & Hd & Hc & _).
  - reflexivity.
  - apply sealed_then_5.
  - by repeat constructor.
  - exists j', parts, tail, plains'. exact (conj Hv (conj Hf (conj Hd Hc))).
Defined.

(** ** A journal with nothing to repair *)

Definition older_intact : JournalFile :=
  {| jf_kind := Numbered 2; jf_data := line 5 ++ [NL] ++ line 6 ++ [NL] ++ line 7 ++ [NL] |}.
Definition active_intact : JournalFile := {| jf_kind := Active; jf_data := line 8 ++ [NL] ++ line 9 ++ [NL] |}.
Definition intact : Journal :=
  {| j_files := [sealed; older_intact; active_intact]; j_backups := []; j_key_abandoned := false |}.
Definition fast_index : list IndexPart * option (nat * ConversationEvent) :=
  match scan_journal_fast (j_files intact) "c" with Ok (Some index) => index | _ => ([], None) end.
Definition full_index : list IndexPart * option (nat * ConversationEvent) :=
  match validate_pass "backup" 1000 ids "c" intact with Validated parts tail => (parts, tail) | _ => ([], None) end.

#[local] Instance head_ok_dec l : Decision (head_ok l) :=
  match l with [] => left I | c :: _ => decide (ascii_whitespace c = false) end.
#[local] Instance flush_lines_dec f : Decision (flush_lines f) := Forall_dec _ _.
Lemma flush_intact : Forall flush_lines [older_intact; active_intact].
Proof. apply (bool_decide_unpack _). vm_compute. exact I. Qed.

Lemma fast_scan_agrees_witness : length fast_index.1 = 3%nat ∧ fast_index.1 = full_index.1 ∧ fast_index.2 = full_index.2.
Proof.
  split; [vm_compute; reflexivity|].
  apply (fast_scan_agrees "backup" 1000 ids "c" intact [sealed] [older_intact; active_intact] 5).
  - reflexivity.
  - apply sealed_then_5.
  - by repeat constructor.
  - apply flush_intact.
  - vm_compute. reflexivity.
  - vm_compute. reflexivity.
  - reflexivity.
Defined.

(** ** A blank line left by a repair

    When the file whose last record lost its newline is also rewritten, it is
    terminated twice: the journal then ends in a blank line, and the fast scan,
    which counts lines, sends every cold start to the full scan. *)
Definition torn : Journal :=
  {| j_files := [{| jf_kind := Active; jf_data := line 1 ++ [NL] ++ Byte.x7b :: repeat Byte.x00 700 ++ [NL] ++ line 3 |}];
     j_backups := []; j_key_abandoned := false |}.
Definition ends_blank (raw : bytes) : bool := bool_decide (drop (length raw - 2) raw = [NL; NL]).
Definition indexed (v : Validation) : bool := match v with ValidIndex _ _ => true | _ => false end.
Lemma blank_line_after_repair :
  indexed (validated torn).2 = true ∧ ends_blank (file_data (j_files (validated torn).1) 0) = true ∧
  scan_journal_fast (j_files (validated torn).1) "c" = Ok None.
Proof. split_and!; vm_compute; reflexivity. Qed.
End JournalExample.
