(* ===== verification/Replay.v ===== *)
(** * Replay pages (src/conversation/store.rs)

    Clients read a conversation in pages, forward from a sequence or backward
    from one. A page is a window of the journal index, cut to a byte budget
    from the end the client reads from. *)
From S2P Require Import Prelude Bytes Text Channel Json JsonObject Model Digest Summary Recipients Keyring Dek HistoryCrypto Record SegmentIndex SegmentBuilder SegmentRun SegmentContent FrameCache SegmentReader SegmentPlan JournalScan JournalRepair.
From stdpp Require Import pretty.
From Stdlib Require Import Strings.Ascii Strings.Byte.
Local Open Scope N_scope.

Definition MAX_REPLAY_LIMIT : N := 1000.
Definition MAX_REPLAY_PAGE_BYTES : N := 8 * 1024 * 1024.

(** ** The byte budget *)

Record PageBudget : Type := { pb_used : N; pb_limit : N; pb_admitted : bool }.
Definition PageBudget_new (limit : N) : PageBudget := {| pb_used := 0; pb_limit := limit; pb_admitted := false |}.
Definition admit_bytes (size : N) (self : PageBudget) : PageBudget * bool :=
  let used := N.min (pb_used self + size) U64_MAX in
  if pb_admitted self && (pb_limit self <? used) then (self, false)
  else ({| pb_used := used; pb_limit := pb_limit self; pb_admitted := true |}, true).
(** [while .. && budget.admit(..)]: how many of the sizes are admitted. *)
Fixpoint admit_while (sizes : list N) (budget : PageBudget) : nat * PageBudget :=
  match sizes with
  | [] => (O, budget)
  | size :: sizes =>
      match admit_bytes size budget with
      | (budget, true) => let '(n, budget) := admit_while sizes budget in (S n, budget)
      | (budget, false) => (O, budget)
      end
  end.

(** ** The index *)

Record JournalIndex : Type := { ji_files : list JournalFile; ji_parts : list IndexPart; fully_validated : bool }.
Definition JournalIndex_total (self : JournalIndex) : N := foldr (λ p n, part_count p + n) 0 (ji_parts self).

(** The part of a window inside one file; a plaintext file is named by its
    position among the files. *)
Inductive PartSlice : Type :=
  | SealedSlice (segment : SealedSegment) (first last : N)
  | PlainSlice (file : nat) (first : N) (offsets : list (nat * nat)).

Definition part_slice (from to : N) (part : IndexPart) : option PartSlice :=
  let lo := N.max (part_first part) from in
  let hi := N.min (part_first part + part_count part - 1) to in
  if (part_count part =? 0) || (hi <? lo) then None
  else Some match part with
    | SealedPart segment => SealedSlice segment lo hi
    | PlainPart file first offsets =>
        PlainSlice file lo (take (N.to_nat (hi - lo + 1)) (drop (N.to_nat (lo - first)) offsets))
    end.
Definition slices (self : JournalIndex) (from to : N) : list PartSlice :=
  omap (part_slice (from + 1) to) (ji_parts self).

(** A durable append to the active file at [file]. *)
Definition push_active (file : nat) (sequence : N) (start stop : nat) (self : JournalIndex) : JournalIndex :=
  let fresh := ji_parts self ++ [PlainPart file sequence [(start, stop)]] in
  {| ji_files := ji_files self;
     ji_parts :=
       match last (ji_parts self) with
       | Some (PlainPart last_file first offsets) =>
           if Nat.eqb last_file file
           then removelast (ji_parts self) ++ [PlainPart last_file first (offsets ++ [(start, stop)])]
           else fresh
       | _ => fresh
       end;
     fully_validated := fully_validated self |}.

Inductive ReplayDetail : Type := FullDetail | SummaryDetail.
Inductive PageAnchor : Type := AnchorStart | AnchorEnd.
Definition is_summary (detail : ReplayDetail) : bool := match detail with SummaryDetail => true | FullDetail => false end.
Definition is_backward (anchor : PageAnchor) : bool := match anchor with AnchorEnd => true | AnchorStart => false end.

(** Why a page read failed: the file to repair, or the cache's arithmetic. *)
Inductive PageError : Type :=
  | PlainError (error : AppError)
  | SealedError (number : N) (error : AppError)
  | CachePanic.

Section pages.
Context `{JsonView} `{!Serde} `{HistoryPrimitives} `{Aead} `{FrameCodec} `{!RawValues} `{Lru}.
Context (cid : string).
(** What reading [frames/<id>.json] gives. *)
Context (copied_file : string → result AppError (option Value)).

Record IndexedPage : Type := {
  pg_from : N; pg_to : N; pg_total : N; pg_events : list ConversationEvent; pg_frames : gmap string Value;
}.

(** ** Plaintext records *)

Definition read_record (page : bytes) (start : nat) (first : N) (i : nat) (range : nat * nat) : result AppError ConversationEvent :=
  let line := trim_ascii (slice page (range.1 - start, range.2 - start)%nat) in
  event ← map_err Serialization (decode_journal_record line cid);
  _ ← validate_event event cid (first + N.of_nat i);
  Ok event.
Fixpoint read_records (page : bytes) (start : nat) (first : N) (i : nat) (offsets : list (nat * nat)) :
    result AppError (list ConversationEvent) :=
  match offsets with
  | [] => Ok []
  | range :: offsets =>
      event ← read_record page start first i range;
      events ← read_records page start first (S i) offsets;
      Ok (event :: events)
  end.
Definition read_plain_records (data : bytes) (offsets : list (nat * nat)) (first : N) : result AppError (list ConversationEvent) :=
  match head offsets, last offsets with
  | Some (start, _), Some (_, stop) =>
      let page := take (stop - start) (drop start data) in
      _ ← guard_err (length page =? stop - start)%nat (IoError "failed to fill whole buffer");
      read_records page start first 0 offsets
  | _, _ => Ok []
  end.

Definition range_size (range : nat * nat) : N := N.of_nat (range.2 - range.1).
Definition read_plain_slice (file : option JournalFile) (first : N) (offsets : list (nat * nat)) (backward : bool)
    (budget : PageBudget) : PageBudget * result AppError (list ConversationEvent * bool) :=
  let sizes := range_size <$> offsets in
  let '(n, budget) := admit_while (if backward then rev sizes else sizes) budget in
  let '(lo, hi) := if backward then (length offsets - n, length offsets)%nat else (O, n) in
  let complete := Nat.eqb lo 0 && Nat.eqb hi (length offsets) in
  (budget,
   if Nat.eqb lo hi then Ok ([], complete)
   else
     file ← ok_or file (IoError "No such file or directory");
     events ← read_plain_records (jf_data file) (take (hi - lo) (drop lo offsets)) (first + N.of_nat lo);
     Ok (events, complete)).

(** ** Sealed records *)

Definition segment_error (number : N) (error : SegmentError) : AppError :=
  match error with
  | Io error => IoError error
  | Invalid reason =>
      InvalidRequest ("conversation " +:+ cid +:+ " journal segment " +:+ pretty number +:+ " is unreadable: " +:+ reason)
  end.

(** What reading a page carries along. *)
Record PageState : Type := { ps_cache : FrameCache; ps_budget : PageBudget; ps_frames : gmap string Value }.
Definition with_cache (cache : FrameCache) (s : PageState) : PageState :=
  {| ps_cache := cache; ps_budget := ps_budget s; ps_frames := ps_frames s |}.

(** The records of [sequences] that fit the budget; a sealed frame counts once
    per page, with the first of its records. *)
Fixpoint read_sealed_go (summary : bool) (sequences : list N) (reader : SegmentReader) (budget : PageBudget)
    (frames : gmap string Value) :
    SegmentReader * result PageError (list ConversationEvent * bool * PageBudget * gmap string Value) :=
  let number := s_number (rd_segment reader) in
  match sequences with
  | [] => (reader, Ok ([], true, budget, frames))
  | sequence :: sequences =>
      match SegmentReader.record sequence summary reader with
      | None => (reader, Err CachePanic)
      | Some (reader, Err error) => (reader, Err (SealedError number (segment_error number error)))
      | Some (reader, Ok record) =>
          let new_frame := frame ← sr_frame record; if decide (is_Some (frames !! fr_id frame)) then None else Some frame in
          let frame_bytes := match new_frame with Some frame => (len (fr_entry frame) + 2) / 3 * 4 | None => 0 end in
          match admit_bytes (sr_bytes record + frame_bytes) budget with
          | (budget, false) => (reader, Ok ([], false, budget, frames))
          | (budget, true) =>
              let continue reader frames :=
                match validate_event (sr_event record) cid sequence with
                | Err error => (reader, Err (SealedError number error))
                | Ok _ =>
                    match read_sealed_go summary sequences reader budget frames with
                    | (reader, Ok (events, complete, budget, frames)) =>
                        (reader, Ok (sr_event record :: events, complete, budget, frames))
                    | (reader, Err error) => (reader, Err error)
                    end
                end in
              match new_frame with
              | None => continue reader frames
              | Some frame =>
                  match wire_frame (fr_entry frame) reader with
                  | None => (reader, Err CachePanic)
                  | Some (reader, Err error) => (reader, Err (SealedError number (segment_error number error)))
                  | Some (reader, Ok wire) => continue reader (<[fr_id frame := object_value wire]> frames)
                  end
              end
          end
      end
  end.

(** [first..=last]. *)
Definition sequence_range (first last : N) : list N := (λ i, first + N.of_nat i) <$> seq 0 (N.to_nat (last + 1 - first)).
(** The bytes of the segment's file. *)
Definition segment_file (files : list JournalFile) (number : N) : option JournalFile :=
  find (λ f, match jf_kind f with Segment n _ => n =? number | _ => false end) files.

Definition read_sealed_slice (files : list JournalFile) (segment : SealedSegment) (first last : N) (backward : bool)
    (detail : ReplayDetail) (s : PageState) : PageState * result PageError (list ConversationEvent * bool) :=
  let number := s_number segment in
  match segment_file files number with
  | None => (s, Err (SealedError number (IoError "No such file or directory")))
  | Some file =>
      let sequences := sequence_range first last in
      match read_sealed_go (is_summary detail) (if backward then rev sequences else sequences)
              (reader_open segment (jf_data file) cid (ps_cache s)) (ps_budget s) (ps_frames s) with
      | (reader, Err error) => (with_cache (rd_cache reader) s, Err error)
      | (reader, Ok (events, complete, budget, frames)) =>
          ({| ps_cache := rd_cache reader; ps_budget := budget; ps_frames := frames |},
           Ok (if backward then rev events else events, complete))
      end
  end.

(** ** Windows *)

Definition read_slice (files : list JournalFile) (backward : bool) (detail : ReplayDetail) (slice : PartSlice) (s : PageState) :
    PageState * result PageError (list ConversationEvent * bool) :=
  match slice with
  | PlainSlice file first offsets =>
      let '(budget, r) := read_plain_slice (files !! file) first offsets backward (ps_budget s) in
      ({| ps_cache := ps_cache s; ps_budget := budget; ps_frames := ps_frames s |}, map_err PlainError r)
  | SealedSlice segment first last => read_sealed_slice files segment first last backward detail s
  end.
(** The chunks, in the order they are read. *)
Fixpoint read_slices (files : list JournalFile) (backward : bool) (detail : ReplayDetail) (slices : list PartSlice) (s : PageState) :
    PageState * result PageError (list (list ConversationEvent)) :=
  match slices with
  | [] => (s, Ok [])
  | slice :: slices =>
      match read_slice files backward detail slice s with
      | (s, Err error) => (s, Err error)
      | (s, Ok (events, false)) => (s, Ok [events])
      | (s, Ok (events, true)) =>
          match read_slices files backward detail slices s with
          | (s, Ok chunks) => (s, Ok (events :: chunks))
          | (s, Err error) => (s, Err error)
          end
      end
  end.

Definition valid_frame_id (id : string) : bool :=
  negb (String.eqb id "") && (String.length id <=? 64)%nat &&
  forallb (λ c, let n := N_of_ascii c in
    (48 <=? n) && (n <=? 57) || (65 <=? n) && (n <=? 70) || (97 <=? n) && (n <=? 102) || (n =? 45))
    (String.list_ascii_of_string id).
Definition read_copied_frame (id : string) : result AppError (option Value) :=
  if negb (valid_frame_id id) then Ok None else copied_file id.

(** The first of the ids that is on the page or can be added to it. *)
Fixpoint attach_first (ids : list string) (frames : gmap string Value) : result AppError (gmap string Value) :=
  match ids with
  | [] => Ok frames
  | id :: ids =>
      if decide (is_Some (frames !! id)) then Ok frames
      else
        frame ← read_copied_frame id;
        match frame with Some frame => Ok (<[id := frame]> frames) | None => attach_first ids frames end
  end.
Definition attach_event (detail : ReplayDetail) (frames : gmap string Value) (event : ConversationEvent) :
    result AppError (gmap string Value) :=
  match encrypted ← encrypted_content (payload event); fr ← encrypted !! "fr"; as_object fr with
  | None => Ok frames
  | Some reference =>
      let keys := match detail with SummaryDetail => ["s"; "f"] | FullDetail => ["f"; "s"] end in
      attach_first (omap (λ key, (reference : gmap string Value) !! key ≫= as_str) keys) frames
  end.
Definition attach_copied_frames (detail : ReplayDetail) (events : list ConversationEvent) (frames : gmap string Value) :
    result AppError (gmap string Value) :=
  fold_result (attach_event detail) frames events.

Definition read_window (files : list JournalFile) (index : option JournalIndex) (from to : N) (anchor : PageAnchor)
    (detail : ReplayDetail) (cache : FrameCache) : FrameCache * result PageError IndexedPage :=
  if to <=? from then (cache, Ok {| pg_from := from; pg_to := from; pg_total := 0; pg_events := []; pg_frames := ∅ |})
  else
    let slices := match index with Some index => slices index from to | None => [] end in
    let backward := is_backward anchor in
    let s := {| ps_cache := cache; ps_budget := PageBudget_new MAX_REPLAY_PAGE_BYTES; ps_frames := ∅ |} in
    match read_slices files backward detail (if backward then rev slices else slices) s with
    | (s, Err error) => (ps_cache s, Err error)
    | (s, Ok chunks) =>
        let read := N.of_nat (length (concat chunks)) in
        let events := concat (if backward then rev chunks else chunks) in
        (ps_cache s,
         match attach_copied_frames detail events (ps_frames s) with
         | Err error => Err (PlainError error)
         | Ok frames =>
             Ok (if backward
                 then {| pg_from := to - read; pg_to := to; pg_total := 0; pg_events := events; pg_frames := frames |}
                 else {| pg_from := from; pg_to := from + read; pg_total := 0; pg_events := events; pg_frames := frames |})
         end)
    end.

(** ** The calls of a client *)

Record ReplayStore : Type := {
  rs_has_manifest : bool;
  rs_journal : Journal;
  rs_index : option JournalIndex;
  rs_cache : FrameCache;
}.
Definition put_index (index : option JournalIndex) (s : ReplayStore) : ReplayStore :=
  {| rs_has_manifest := rs_has_manifest s; rs_journal := rs_journal s; rs_index := index; rs_cache := rs_cache s |}.
Definition put_cache (cache : FrameCache) (s : ReplayStore) : ReplayStore :=
  {| rs_has_manifest := rs_has_manifest s; rs_journal := rs_journal s; rs_index := rs_index s; rs_cache := cache |}.

(** How a call ends without a page: an error, a sealed segment to rebuild, or
    the cache's arithmetic. *)
Inductive ReplayStop : Type :=
  | ReplayError (error : AppError)
  | NeedsSalvage (number : N)
  | ReplayPanic.

(** The repairs' names, clock and ids; whether a cached index is of the files
    there are, by their sizes and times. *)
Context (backup_name : string) (now : Z) (fresh_id : N → string).
Context (same_files : list JournalFile → list JournalFile → bool).
Abbreviation S := (M ReplayStore ReplayStop).

(** [validate_journal_locked] and what it leaves cached: the new index, or
    none after a repair that did not end with one. *)
Definition validate_store : S unit := λ s,
  let repairs := match validate_pass backup_name now fresh_id cid (rs_journal s) with Repaired _ => true | _ => false end in
  let '(journal, outcome) := validate_journal backup_name now fresh_id cid (rs_journal s) in
  let stopped := {| rs_has_manifest := rs_has_manifest s; rs_journal := journal;
                    rs_index := if repairs then None else rs_index s; rs_cache := rs_cache s |} in
  match outcome with
  | ValidIndex parts _ =>
      (put_index (Some {| ji_files := j_files journal; ji_parts := parts; fully_validated := true |}) stopped, Ok tt)
  | AskedSalvage number => (stopped, Err (NeedsSalvage number))
  | ValidationError error => (stopped, Err (ReplayError error))
  end.

Definition index_journal_fast : S bool := λ s,
  match scan_journal_fast (j_files (rs_journal s)) cid with
  | Err error => (s, Err (ReplayError error))
  | Ok None => (s, Ok false)
  | Ok (Some (parts, _)) =>
      (put_index (Some {| ji_files := j_files (rs_journal s); ji_parts := parts; fully_validated := false |}) s, Ok true)
  end.

Definition replay_journal : S unit :=
  s ← asks id;
  if negb (rs_has_manifest s) then throw (ReplayError (NotFound ("conversation " +:+ cid)))
  else match j_files (rs_journal s) with
  | [] => throw (ReplayError (IoError "entity not found"))
  | files =>
      if match rs_index s with Some index => same_files (ji_files index) files | None => false end then mret tt
      else
        fast ← index_journal_fast;
        if (fast : bool) then mret tt else validate_store
  end.

Definition journal_len (s : ReplayStore) : N := match rs_index s with Some index => JournalIndex_total index | None => 0 end.

(** The attempts at a page; the third is the last. *)
Fixpoint page_attempts (remaining : nat) (anchor : PageAnchor) (detail : ReplayDetail) (window : N → N * N) : S IndexedPage := λ s,
  let total := journal_len s in
  let '(from, to) := window total in
  match read_window (j_files (rs_journal s)) (rs_index s) (N.min from to) (N.min to total) anchor detail (rs_cache s) with
  | (cache, Ok page) =>
      (put_cache cache s, Ok {| pg_from := pg_from page; pg_to := pg_to page; pg_total := total; pg_events := pg_events page;
         pg_frames := pg_frames page |})
  | (cache, Err error) =>
      let s := put_cache cache s in
      match error, remaining with
      | CachePanic, _ => (s, Err ReplayPanic)
      | SealedError number _, Datatypes.S _ => (s, Err (NeedsSalvage number))
      | PlainError error, Datatypes.S remaining =>
          if match rs_index s with Some index => fully_validated index | None => true end then (s, Err (ReplayError error))
          else (validate_store ≫= λ _, page_attempts remaining anchor detail window) s
      | PlainError error, O | SealedError _ error, O => (s, Err (ReplayError error))
      end
  end.
Definition read_indexed_page (anchor : PageAnchor) (detail : ReplayDetail) (window : N → N * N) : S IndexedPage :=
  page_attempts 2 anchor detail window.

Record ConversationReplay : Type := {
  cr_conversation_id : string; from_sequence : N; next_sequence : N; has_more : bool;
  cr_events : list ConversationEvent; cr_frames : gmap string Value;
}.

Definition clamp_limit (limit : N) : N := N.max 1 (N.min limit MAX_REPLAY_LIMIT).
Definition forward_window (after_sequence limit total : N) : N * N :=
  let from := N.min after_sequence total in (from, N.min (N.min (from + limit) U64_MAX) total).
Definition backward_window (before_sequence limit total : N) : N * N :=
  let to := N.min before_sequence total in (to - limit, to).

(** [replay_detail], for a conversation with a journal. *)
Definition replay_detail (after_sequence limit : N) (detail : ReplayDetail) : S ConversationReplay :=
  _ ← replay_journal;
  page ← read_indexed_page AnchorStart detail (forward_window after_sequence (clamp_limit limit));
  mret {| cr_conversation_id := cid; from_sequence := after_sequence;
          next_sequence := match last (pg_events page) with Some event => sequence event | None => after_sequence end;
          has_more := pg_to page <? pg_total page; cr_events := pg_events page; cr_frames := pg_frames page |}.
(** [replay_before_detail], likewise. *)
Definition replay_before_detail (before_sequence limit : N) (detail : ReplayDetail) : S ConversationReplay :=
  _ ← replay_journal;
  page ← read_indexed_page AnchorEnd detail (backward_window before_sequence (clamp_limit limit));
  mret {| cr_conversation_id := cid; from_sequence := pg_from page;
          next_sequence := match last (pg_events page) with Some event => sequence event | None => before_sequence end;
          has_more := 0 <? pg_from page; cr_events := pg_events page; cr_frames := pg_frames page |}.
End pages.
