(* ===== verification/ReplayPages.v ===== *)
(** * Replay pages: what a page holds

    A page over a good index holds consecutive records from the end the client
    reads from, at least one of them, whatever the byte budget and the places
    where files begin. *)
From S2P Require Import Prelude Bytes Text Channel Json JsonObject Model Digest Summary Recipients Keyring Dek HistoryCrypto Record SegmentIndex SegmentBuilder SegmentRun SegmentContent FrameCache SegmentReader SegmentPlan JournalScan JournalRepair JournalLines JournalRecover JournalConverge JournalValidate Replay.
From stdpp Require Import pretty.
From Stdlib Require Import Strings.Byte ZifyBool.
Local Open Scope N_scope.

(** ** The budget *)

Lemma admit_first size b : pb_admitted b = false → ∃ b', admit_bytes size b = (b', true) ∧ pb_admitted b' = true.
Proof. intros Hb. unfold admit_bytes. rewrite Hb. simpl. by eexists. Qed.
Lemma admit_admitted size b b' : admit_bytes size b = (b', true) → pb_admitted b' = true.
Proof. unfold admit_bytes. destruct (_ && _); by intros [= <-]. Qed.
Lemma admit_refused size b b' : admit_bytes size b = (b', false) → b' = b ∧ pb_admitted b = true.
Proof. unfold admit_bytes. destruct (pb_admitted b) eqn:E; simpl; [|done]. destruct (_ <? _); by intros [= <-]. Qed.

Lemma admit_while_spec sizes b n b' :
  admit_while sizes b = (n, b') →
  (n ≤ length sizes)%nat ∧ (pb_admitted b = false → sizes ≠ [] → (0 < n)%nat) ∧
  (pb_admitted b = true ∨ (0 < n)%nat → pb_admitted b' = true).
Proof.
  revert b n. induction sizes as [|size sizes IH]; intros b n; cbn [admit_while length].
  { intros [= <- <-]. split_and!; [lia|done|]. intros [?|?]; [done|lia]. }
  destruct (admit_bytes size b) as [b1 ok] eqn:Ha. destruct ok.
  - destruct (admit_while sizes b1) as [m b2] eqn:Hw. intros [= <- <-]. destruct (IH _ _ Hw) as (Hle & _ & Had).
    split_and!; [lia|lia|]. intros _. apply Had. left. by eapply admit_admitted.
  - intros [= <- <-]. apply admit_refused in Ha as [-> Hb]. split_and!; [lia|congruence|done].
Qed.

(** ** Plaintext slices *)
Section plain.
Context `{JsonView} `{!Serde}.
Context (cid : string).

(** Ranges one after the other, inside the file. *)
Definition ranges_in (data : bytes) (offsets : list (nat * nat)) : Prop :=
  StronglySorted (λ r1 r2 : nat * nat, (r1.2 ≤ r2.1)%nat) offsets ∧
  Forall (λ r : nat * nat, (r.1 ≤ r.2 ≤ length data)%nat) offsets.
(** The record at [first + i] is in the range [i]. *)
Definition records_at (stored : N → ConversationEvent) (data : bytes) (first : N) (offsets : list (nat * nat)) : Prop :=
  ∀ i r, offsets !! i = Some r →
    record_at cid (first + N.of_nat i) (trim_ascii (slice data r)) (stored (first + N.of_nat i)).
(** The [n] records from [first] on. *)
Definition span (stored : N → ConversationEvent) (first : N) (n : nat) : list ConversationEvent :=
  (λ i, stored (first + N.of_nat i)) <$> seq 0 n.

Lemma span_length stored first n : length (span stored first n) = n.
Proof. unfold span. by rewrite length_fmap, length_seq. Qed.
Lemma span_succ stored first n : span stored first (S n) = stored first :: span stored (first + 1) n.
Proof.
  unfold span. cbn [seq]. rewrite fmap_cons, N.add_0_r, <-fmap_S_seq, <-list_fmap_compose. f_equal.
  apply list_fmap_ext. intros i x _. simpl. f_equal. lia.
Qed.
Lemma span_app stored first n m : span stored first (n + m) = span stored first n ++ span stored (first + N.of_nat n) m.
Proof.
  revert first. induction n as [|n IH]; intros first; cbn [Nat.add]; [simpl; by rewrite N.add_0_r|].
  rewrite !span_succ, IH. simpl. f_equal. f_equal. f_equal. lia.
Qed.

Lemma ranges_in_sub data offsets i n : ranges_in data offsets → ranges_in data (take n (drop i offsets)).
Proof.
  intros [Hs Hf]. split.
  - rewrite <-(take_drop i offsets) in Hs. apply StronglySorted_app in Hs as (_ & _ & Hs).
    rewrite <-(take_drop n (drop i offsets)) in Hs. by apply StronglySorted_app in Hs as (_ & Hs & _).
  - by apply Forall_take, Forall_drop.
Qed.

Lemma ranges_between data r rs x : ranges_in data (r :: rs) → x ∈ r :: rs →
  (r.1 ≤ x.1)%nat ∧ (x.2 ≤ (List.last (r :: rs) r).2)%nat.
Proof.
  intros [Hs Hf] Hx. rewrite Forall_forall in Hf.
  assert (∀ l (d : nat * nat), StronglySorted (λ r1 r2 : nat * nat, (r1.2 ≤ r2.1)%nat) l →
    (∀ y, y ∈ l → (y.1 ≤ y.2)%nat) → ∀ y, y ∈ l → (y.2 ≤ (List.last l d).2)%nat) as Hlast.
  { clear. induction l as [|a l IH]; intros d Hs Hle y Hy; [by apply elem_of_nil in Hy|].
    apply StronglySorted_inv in Hs as [Hs Ha]. destruct l as [|b l]; [apply list_elem_of_singleton in Hy as ->; simpl; lia|].
    apply elem_of_cons in Hy as [->|Hy].
    - transitivity b.2; [|apply (IH d); [done| |left]; intros; apply Hle; by right].
      apply Forall_cons in Ha as [Ha _]. pose proof (Hle b ltac:(right; left)). lia.
    - apply (IH d); [done| |done]. intros; apply Hle; by right. }
  split.
  - apply elem_of_cons in Hx as [->|Hx]; [done|]. apply StronglySorted_inv in Hs as [_ Ha]. rewrite Forall_forall in Ha.
    specialize (Ha x Hx). pose proof (Hf r ltac:(left)). lia.
  - apply Hlast; [done| |done]. intros y Hy. by apply Hf.
Qed.

Lemma slice_of_page data start stop r :
  (start ≤ r.1)%nat → (r.1 ≤ r.2)%nat → (r.2 ≤ stop)%nat →
  slice (take (stop - start) (drop start data)) (r.1 - start, r.2 - start)%nat = slice data r.
Proof.
  intros H1' H2' H3'. unfold slice. cbn [fst snd]. replace (r.2 - start - (r.1 - start))%nat with (r.2 - r.1)%nat by lia.
  rewrite take_drop_commute, take_take. replace (r.1 - start + (r.2 - r.1) `min` (stop - start))%nat
    with (r.1 - start + (r.2 - r.1))%nat by lia.
  replace ((r.1 - start + (r.2 - r.1)) `min` (stop - start))%nat with (r.1 - start + (r.2 - r.1))%nat by lia.
  rewrite <-take_drop_commute, drop_drop. f_equal. f_equal. lia.
Qed.

Lemma records_at_sub stored data first offsets i n :
  records_at stored data first offsets → records_at stored data (first + N.of_nat i) (take n (drop i offsets)).
Proof.
  intros Hr k r [Hk _]%lookup_take_Some. rewrite lookup_drop in Hk. specialize (Hr _ _ Hk).
  replace (first + N.of_nat i + N.of_nat k) with (first + N.of_nat (i + k)) by lia. done.
Qed.

Lemma read_records_ok stored data first offsets start stop k :
  records_at stored data (first + N.of_nat k) offsets →
  (∀ r, r ∈ offsets → (start ≤ r.1)%nat ∧ (r.1 ≤ r.2)%nat ∧ (r.2 ≤ stop)%nat) →
  read_records cid (take (stop - start) (drop start data)) start first k offsets =
    Ok (span stored (first + N.of_nat k) (length offsets)).
Proof.
  revert k. induction offsets as [|r offsets IH]; intros k Hr Hb; [done|]. cbn [read_records length].
  assert (read_record cid (take (stop - start) (drop start data)) start first k r = Ok (stored (first + N.of_nat k))) as ->.
  { unfold read_record. rewrite slice_of_page by (apply Hb; left).
    destruct (Hr 0%nat r eq_refl) as (Hd & _ & Hv). rewrite N.add_0_r in *. rewrite Hd. cbn [map_err mbind result_bind]. by rewrite Hv. }
  cbn [mbind result_bind]. rewrite (IH (S k)).
  - simpl. rewrite span_succ. f_equal. f_equal. f_equal. lia.
  - intros i r' Hi. specialize (Hr (S i) r' Hi). by replace (first + N.of_nat (S k) + N.of_nat i) with (first + N.of_nat k + N.of_nat (S i)) by lia.
  - intros r' Hr'. apply Hb. by right.
Qed.

Lemma read_plain_records_ok stored data first offsets :
  ranges_in data offsets → records_at stored data first offsets →
  read_plain_records cid data offsets first = Ok (span stored first (length offsets)).
Proof.
  intros Hin Hr. unfold read_plain_records. destruct offsets as [|r rs]; [done|]. destruct r as [start e] eqn:Er. cbn [head].
  assert (last ((start, e) :: rs) = Some (List.last (r :: rs) r)) as ->.
  { rewrite <-Er. apply last_Some. destruct (exists_last (l:=r :: rs) ltac:(done)) as (l & x & E). exists l.
    by rewrite E, last_last. }
  rewrite <-Er in *. pose proof (ranges_between data r rs) as Hbt. pose proof Hin as [_ Hf]. rewrite Forall_forall in Hf.
  destruct (List.last (r :: rs) r) as [e' stop] eqn:Hl. cbn [snd] in Hbt.
  assert (start = r.1) as -> by by rewrite Er.
  assert ((e', stop) ∈ r :: rs) as Hlin.
  { rewrite <-Hl. destruct (exists_last (l:=r :: rs) ltac:(done)) as (l & x & ->). rewrite last_last. set_solver. }
  pose proof (Hf _ Hlin) as Hlast. cbn [fst snd] in Hlast.
  destruct (Hbt _ Hin Hlin) as [Hge _]. cbn [fst] in Hge.
  rewrite length_take, length_drop. replace (_ `min` _ =? _)%nat with true by lia. cbn [guard_err mbind result_bind].
  rewrite (read_records_ok stored).
  - by rewrite N.add_0_r.
  - by rewrite N.add_0_r.
  - intros x Hx. destruct (Hbt x Hin Hx). pose proof (Hf x Hx). lia.
Qed.

(** Which records of [n] a reader in a direction gets when it gets [k]. *)
Definition directed (backward : bool) (stored : N → ConversationEvent) (first : N) (n k : nat) : list ConversationEvent :=
  if backward then span stored (first + N.of_nat (n - k)) k else span stored first k.

Lemma read_plain_slice_ok stored file first offsets backward b :
  ranges_in (jf_data file) offsets → records_at stored (jf_data file) first offsets → offsets ≠ [] →
  ∃ k b', read_plain_slice cid (Some file) first offsets backward b =
      (b', Ok (directed backward stored first (length offsets) k, Nat.eqb k (length offsets))) ∧
    (k ≤ length offsets)%nat ∧ (pb_admitted b = false → (0 < k)%nat) ∧
    (pb_admitted b = true ∨ (0 < k)%nat → pb_admitted b' = true).
Proof.
  intros Hin Hr Hne. unfold read_plain_slice. set (sizes := range_size <$> offsets).
  destruct (admit_while (if backward then rev sizes else sizes) b) as [k b'] eqn:Hw.
  apply admit_while_spec in Hw as (Hle & Hpos & Had). exists k, b'.
  assert (length (if backward then rev sizes else sizes) = length offsets) as Hlen.
  { unfold sizes. destruct backward; [rewrite length_rev|]; by rewrite length_fmap. }
  rewrite Hlen in Hle. split_and!; [|done| |done].
  2: { intros Hb. apply Hpos; [done|]. intros E. rewrite E in Hlen. by destruct offsets. }
  set (lo := if backward then (length offsets - k)%nat else 0%nat).
  assert ((if backward then (length offsets - k, length offsets)%nat else (0%nat, k)) = (lo, (lo + k)%nat)) as ->.
  { unfold lo. destruct backward; f_equal. lia. }
  assert (Nat.eqb lo 0 && Nat.eqb (lo + k) (length offsets) = Nat.eqb k (length offsets)) as ->.
  { unfold lo. destruct backward; lia. }
  f_equal. destruct (Nat.eqb_spec lo (lo + k)) as [E|E].
  { assert (k = 0)%nat as -> by lia. unfold directed. by destruct backward. }
  cbn [ok_or mbind result_bind]. replace (lo + k - lo)%nat with k by lia.
  rewrite (read_plain_records_ok stored) by (by apply ranges_in_sub || by apply records_at_sub).
  rewrite length_take, length_drop. replace (k `min` (length offsets - lo))%nat with k by (unfold lo; destruct backward; lia).
  cbn [mbind result_bind]. unfold directed, lo. destruct backward; [done|]. by rewrite N.add_0_r.
Qed.
End plain.

(** ** Sealed slices *)
Section sealed.
Context `{JsonView} `{!Serde} `{HistoryPrimitives} `{Aead} `{FrameCodec} `{!RawValues} `{Lru}.
Context (cid : string).
(** The shared cache is in order. *)
Context (good : FrameCache → Prop).

(** What the pages need of a sealed segment: any reader of it reads every
    record of its range, valid at its sequence, and the frame the record is in. *)
Definition readable_segment (seg : SealedSegment) (file : bytes) (stored : bool → N → ConversationEvent) : Prop :=
  ∃ inv : SegmentReader → Prop,
    (∀ cache, good cache → inv (reader_open seg file cid cache)) ∧
    (∀ self, inv self → good (rd_cache self)) ∧
    ∀ self n summary, inv self → s_first seg ≤ n ≤ s_last seg →
      ∃ self' r, SegmentReader.record n summary self = Some (self', Ok r) ∧ inv self' ∧
        sr_event r = stored summary n ∧ sequence (sr_event r) = n ∧ validate_event (sr_event r) cid n = Ok tt ∧
        ∀ fr, sr_frame r = Some fr → ∃ self'' wire, wire_frame (fr_entry fr) self' = Some (self'', Ok wire) ∧ inv self''.

Lemma read_sealed_go_ok seg file stored :
  readable_segment seg file stored →
  ∃ inv : SegmentReader → Prop,
    (∀ cache, good cache → inv (reader_open seg file cid cache)) ∧ (∀ self, inv self → good (rd_cache self)) ∧
    ∀ sequences summary self b frames, inv self → Forall (λ n, s_first seg ≤ n ≤ s_last seg) sequences →
      ∃ k self' b' frames', read_sealed_go cid summary sequences self b frames =
          (self', Ok (stored summary <$> take k sequences, Nat.eqb k (length sequences), b', frames')) ∧ inv self' ∧
        (k ≤ length sequences)%nat ∧ (pb_admitted b = false → sequences ≠ [] → (0 < k)%nat) ∧
        (pb_admitted b = true ∨ (0 < k)%nat → pb_admitted b' = true).
Proof.
  intros (inv & Hopen & Hgood & Hread). exists inv. split_and!; [done..|]. intros sequences summary self b frames Hself Hall.
  revert self b frames Hself. induction Hall as [|n sequences Hn _ IH]; intros self b frames Hself; cbn [read_sealed_go].
  { exists 0%nat, self, b, frames. split_and!; [done|done|done|done|]. intros [?|?]; [done|lia]. }
  destruct (Hread self n summary Hself Hn) as (self1 & r & -> & Hinv1 & Hev & _ & Hval & Hframe).
  set (new_frame := mbind _ (sr_frame r)). set (size := sr_bytes r + _).
  destruct (admit_bytes size b) as [b1 ok] eqn:Ha. destruct ok.
  2: { apply admit_refused in Ha as [-> Hb]. exists 0%nat, self1, b, frames. split_and!; [done|done|lia|congruence|done]. }
  apply admit_admitted in Ha. rewrite Hval, Hev.
  assert (∀ self2 frames2, inv self2 →
    ∃ k self' b' frames', match read_sealed_go cid summary sequences self2 b1 frames2 with
      | (reader, Ok (events, complete, budget, frames)) => (reader, Ok (stored summary n :: events, complete, budget, frames))
      | (reader, Err error) => (reader, Err error)
      end = (self', Ok (stored summary <$> take k (n :: sequences), Nat.eqb k (length (n :: sequences)), b', frames')) ∧
      inv self' ∧ (k ≤ length (n :: sequences))%nat ∧ (pb_admitted b = false → n :: sequences ≠ [] → (0 < k)%nat) ∧
      (pb_admitted b = true ∨ (0 < k)%nat → pb_admitted b' = true)) as Hrest.
  { intros self2 frames2 Hinv2. destruct (IH self2 b1 frames2 Hinv2) as (k & self' & b' & frames' & -> & Hinv' & Hk & _ & Had).
    exists (S k), self', b', frames'. cbn [length]. split_and!; [done|done|lia|lia|]. intros _. apply Had. by left. }
  destruct new_frame as [fr|] eqn:Hnf.
  - assert (sr_frame r = Some fr) as Hfr.
    { unfold new_frame in Hnf. destruct (sr_frame r) as [fr'|]; [|done]. simpl in Hnf. by destruct (decide _). }
    destruct (Hframe fr Hfr) as (self2 & wire & -> & Hinv2). by apply Hrest.
  - by apply Hrest.
Qed.

Lemma length_sequence_range a b : length (sequence_range a b) = N.to_nat (b + 1 - a).
Proof. unfold sequence_range. by rewrite length_fmap, length_seq. Qed.
Lemma sequence_range_span stored a b : stored <$> sequence_range a b = span stored a (N.to_nat (b + 1 - a)).
Proof. unfold sequence_range, span. by rewrite <-list_fmap_compose. Qed.
Lemma take_span stored a n k : (k ≤ n)%nat → take k (span stored a n) = span stored a k.
Proof.
  intros Hk. replace n with (k + (n - k))%nat by lia. rewrite span_app. apply take_app_length'. by rewrite span_length.
Qed.
Lemma drop_span stored a n k : (k ≤ n)%nat → drop (n - k) (span stored a n) = span stored (a + N.of_nat (n - k)) k.
Proof.
  intros Hk. replace n with (n - k + k)%nat at 2 by lia. rewrite span_app. apply drop_app_length'. by rewrite span_length.
Qed.

Lemma read_sealed_slice_ok files seg f stored a b backward detail s :
  segment_file files (s_number seg) = Some f → readable_segment seg (jf_data f) stored →
  s_first seg ≤ a → a ≤ b → b ≤ s_last seg → good (ps_cache s) →
  let n := N.to_nat (b + 1 - a) in
  ∃ k s', read_sealed_slice cid files seg a b backward detail s =
      (s', Ok (directed backward (stored (is_summary detail)) a n k, Nat.eqb k n)) ∧ good (ps_cache s') ∧
    (k ≤ n)%nat ∧ (pb_admitted (ps_budget s) = false → (0 < k)%nat) ∧
    (pb_admitted (ps_budget s) = true ∨ (0 < k)%nat → pb_admitted (ps_budget s') = true).
Proof.
  intros Hf Hread Ha Hab Hb Hgood n. unfold read_sealed_slice. rewrite Hf.
  destruct (read_sealed_go_ok seg (jf_data f) stored Hread) as (inv & Hopen & Hinv & Hgo).
  set (seqs := if backward then rev (sequence_range a b) else sequence_range a b).
  assert (length seqs = n) as Hlen by (unfold seqs; destruct backward; rewrite ?length_rev; apply length_sequence_range).
  destruct (Hgo seqs (is_summary detail) _ (ps_budget s) (ps_frames s) (Hopen _ Hgood))
    as (k & self' & b' & frames' & -> & Hinv' & Hk & Hpos & Had).
  { assert (Forall (λ n, s_first seg ≤ n ≤ s_last seg) (sequence_range a b)) as Hr.
    { apply Forall_fmap, Forall_forall. intros i Hi%elem_of_seq. simpl. lia. }
    unfold seqs. destruct backward; [by apply Forall_rev|done]. }
  exists k, {| ps_cache := rd_cache self'; ps_budget := b'; ps_frames := frames' |}. rewrite Hlen in *. split; [|split_and!; [by apply Hinv|done| |done]].
  - f_equal. f_equal. f_equal. unfold seqs, directed. destruct backward.
    + rewrite firstn_rev. change (stored (is_summary detail) <$> ?l) with (map (stored (is_summary detail)) l).
      rewrite map_rev, rev_involutive, length_sequence_range. fold n. rewrite <-drop_span by done.
      change (map ?g ?l) with (g <$> l).
      by rewrite fmap_drop, sequence_range_span.
    + by rewrite fmap_take, sequence_range_span, take_span.
  - intros Hb0. apply Hpos; [done|]. intros E. rewrite E in Hlen. cbn in Hlen. lia.
Qed.
End sealed.

(** ** Windows *)
Section windows.
Context `{JsonView} `{!Serde} `{HistoryPrimitives} `{Aead} `{FrameCodec} `{!RawValues} `{Lru}.
Context (cid : string) (good : FrameCache → Prop).
Context (files : list JournalFile) (stored : bool → N → ConversationEvent).

(** A slice that holds the [n] records from [a] on. *)
Definition slice_ok (sl : PartSlice) (a : N) (n : nat) : Prop :=
  match sl with
  | PlainSlice file first offsets =>
      first = a ∧ length offsets = n ∧
      ∃ f, files !! file = Some f ∧ ranges_in (jf_data f) offsets ∧ ∀ d, records_at cid (stored d) (jf_data f) first offsets
  | SealedSlice seg first last =>
      first = a ∧ n = N.to_nat (last + 1 - first) ∧ s_first seg ≤ first ∧ first ≤ last ∧ last ≤ s_last seg ∧
      ∃ f, segment_file files (s_number seg) = Some f ∧ readable_segment cid good seg (jf_data f) stored
  end.

Lemma read_slice_ok sl a n backward detail s :
  slice_ok sl a n → (0 < n)%nat → good (ps_cache s) →
  ∃ k s', read_slice cid files backward detail sl s =
      (s', Ok (directed backward (stored (is_summary detail)) a n k, Nat.eqb k n)) ∧ good (ps_cache s') ∧
    (k ≤ n)%nat ∧ (pb_admitted (ps_budget s) = false → (0 < k)%nat) ∧
    (pb_admitted (ps_budget s) = true ∨ (0 < k)%nat → pb_admitted (ps_budget s') = true).
Proof.
  destruct sl as [seg first last|file first offsets]; cbn [slice_ok read_slice].
  - intros (-> & -> & Ha & Hab & Hb & f & Hf & Hr) _ Hgood.
    destruct (read_sealed_slice_ok cid good files seg f stored a last backward detail s) as (k & s' & ?); [done..|]. by exists k, s'.
  - intros (-> & <- & f & Hf & Hin & Hr) Hn Hgood. rewrite Hf.
    destruct (read_plain_slice_ok cid (stored (is_summary detail)) f a offsets backward (ps_budget s) Hin (Hr _)) as (k & b' & -> & ?).
    { destruct offsets; [simpl in Hn; lia|done]. }
    by eexists k, _.
Qed.

(** Slices that hold the records from [a] to before [b]. *)
Fixpoint slices_cover (a : N) (sls : list PartSlice) (b : N) : Prop :=
  match sls with
  | [] => a = b
  | sl :: sls => ∃ n, slice_ok sl a n ∧ (0 < n)%nat ∧ slices_cover (a + N.of_nat n) sls b
  end.
Lemma slices_cover_le a sls b : slices_cover a sls b → a ≤ b.
Proof.
  revert a. induction sls as [|sl sls IH]; intros a; simpl; [lia|]. intros (n & _ & Hn & Hc%IH). lia.
Qed.
Lemma slices_cover_empty a sls : slices_cover a sls a → sls = [].
Proof. destruct sls as [|sl sls]; [done|]. intros (n & _ & Hn & Hc%slices_cover_le). lia. Qed.
Lemma slices_cover_snoc a sls sl b :
  slices_cover a (sls ++ [sl]) b → ∃ n, slices_cover a sls (b - N.of_nat n) ∧ slice_ok sl (b - N.of_nat n) n ∧ (0 < n)%nat ∧ N.of_nat n ≤ b.
Proof.
  revert a. induction sls as [|sl' sls IH]; intros a; cbn [app slices_cover].
  - intros (n & Hs & Hn & <-). exists n. replace (a + N.of_nat n - N.of_nat n) with a by lia. split_and!; [done|done|done|lia].
  - intros (n' & Hs' & Hn' & (n & Hc & ?)%IH). exists n. split; [|done]. by exists n'.
Qed.

Lemma read_slices_forward detail a sls b s :
  slices_cover a sls b → good (ps_cache s) →
  ∃ k s' chunks, read_slices cid files false detail sls s = (s', Ok chunks) ∧ good (ps_cache s') ∧
    concat chunks = span (stored (is_summary detail)) a k ∧ a + N.of_nat k ≤ b ∧
    (pb_admitted (ps_budget s) = false → a < b → (0 < k)%nat).
Proof.
  revert a s. induction sls as [|sl sls IH]; intros a s; cbn [slices_cover read_slices].
  { intros -> Hg. exists 0%nat, s, []. split_and!; [done|done|done|lia|lia]. }
  intros (n & Hs & Hn & Hc) Hg. destruct (read_slice_ok sl a n false detail s Hs Hn Hg) as (k & s1 & -> & Hg1 & Hk & Hpos & _).
  pose proof (slices_cover_le _ _ _ Hc) as Hle. unfold directed. destruct (Nat.eqb_spec k n) as [->|Hne].
  - destruct (IH _ s1 Hc Hg1) as (k' & s2 & chunks & -> & Hg2 & Hch & Hk' & _). exists (n + k')%nat, s2, (span (stored (is_summary detail)) a n :: chunks).
    cbn [concat]. rewrite Hch, <-span_app. split_and!; [done|done|done|lia|lia].
  - exists k, s1, [span (stored (is_summary detail)) a k]. cbn [concat]. rewrite app_nil_r. split_and!; [done|done|done|lia|].
    intros Hb _. by apply Hpos.
Qed.

Lemma read_slices_backward detail a sls b s :
  slices_cover a sls b → good (ps_cache s) →
  ∃ k s' chunks, read_slices cid files true detail (rev sls) s = (s', Ok chunks) ∧ good (ps_cache s') ∧
    concat (rev chunks) = span (stored (is_summary detail)) (b - N.of_nat k) k ∧ length (concat chunks) = k ∧ a + N.of_nat k ≤ b ∧
    (pb_admitted (ps_budget s) = false → a < b → (0 < k)%nat).
Proof.
  revert b s. induction sls as [|sl sls IH] using rev_ind; intros b s Hc Hg.
  { simpl in Hc. subst. exists 0%nat, s, []. split_and!; [done|done|done|done|lia|lia]. }
  apply slices_cover_snoc in Hc as (n & Hc & Hs & Hn & Hnb). pose proof (slices_cover_le _ _ _ Hc) as Hle.
  rewrite rev_app_distr. cbn [rev app read_slices].
  destruct (read_slice_ok sl _ n true detail s Hs Hn Hg) as (k & s1 & -> & Hg1 & Hk & Hpos & _). unfold directed.
  destruct (Nat.eqb_spec k n) as [->|Hne].
  - destruct (IH _ s1 Hc Hg1) as (k' & s2 & chunks & -> & Hg2 & Hch & Hlen & Hk' & _).
    exists (n + k')%nat, s2. eexists. split; [done|]. cbn [rev concat]. rewrite concat_app, Hch, length_app, span_length, Hlen.
    cbn [concat]. rewrite app_nil_r. split_and!; [done| |done|lia|lia].
    rewrite (Nat.add_comm n k'), span_app. f_equal; f_equal; lia.
  - exists k, s1. eexists. split; [done|]. cbn [rev concat app]. rewrite app_nil_r. split_and!; [done| |by rewrite span_length|lia|by intros Hb _; apply Hpos].
    f_equal. lia.
Qed.

(** ** Parts *)

Definition part_ok (p : IndexPart) : Prop :=
  match p with
  | PlainPart file first offsets =>
      ∃ f, files !! file = Some f ∧ ranges_in (jf_data f) offsets ∧ ∀ d, records_at cid (stored d) (jf_data f) first offsets
  | SealedPart seg => s_first seg ≤ s_last seg ∧
      ∃ f, segment_file files (s_number seg) = Some f ∧ readable_segment cid good seg (jf_data f) stored
  end.

Lemma part_slice_ok p from to sl :
  part_ok p → part_slice from to p = Some sl →
  let lo := N.max (part_first p) from in
  let hi := N.min (part_first p + part_count p - 1) to in
  lo ≤ hi ∧ slice_ok sl lo (N.to_nat (hi + 1 - lo)).
Proof.
  intros Hp. unfold part_slice. cbv zeta. destruct (part_count p =? 0) eqn:Hc0; [done|]. simpl.
  destruct (_ <? _) eqn:Hlt; [done|]. intros [= <-]. split; [lia|]. destruct p as [seg|file first offsets]; cbn [slice_ok part_first part_count] in *.
  - destruct Hp as (Hle & f & Hf & Hr). split_and!; [done|done|lia|lia|lia|by exists f].
  - destruct Hp as (f & Hf & Hin & Hr). split_and!; [done| |].
    + rewrite length_take, length_drop. lia.
    + exists f. split_and!; [done|by apply ranges_in_sub|]. intros d.
      pose proof (records_at_sub cid (stored d) (jf_data f) first offsets (N.to_nat (N.max first from - first))
        (N.to_nat (N.min (first + N.of_nat (length offsets) - 1) to - N.max first from + 1)) (Hr d)) as Hsub.
      by replace (first + N.of_nat (N.to_nat (N.max first from - first))) with (N.max first from) in Hsub by lia.
Qed.

Lemma covers_le n parts m : covers_from n parts m → n ≤ m.
Proof. revert n. induction parts as [|p parts IH]; intros n; simpl; [lia|]. intros (_ & Hc & Hm%IH). lia. Qed.

Lemma slices_of_parts n parts m from to :
  covers_from n parts m → Forall part_ok parts →
  slices_cover (N.max n from) (omap (part_slice from to) parts) (N.max (N.max n from) (N.min m (to + 1))).
Proof.
  intros Hc Hall. revert n Hc. induction Hall as [|p parts Hp _ IH]; intros n; cbn [covers_from omap list_omap].
  { intros ->. simpl. lia. }
  intros (Hf & Hcount & Hc). specialize (IH _ Hc). pose proof (covers_le _ _ _ Hc) as Hle.
  destruct (part_slice from to p) as [sl|] eqn:Hs.
  - pose proof (part_slice_ok p from to sl Hp Hs) as [Hlo Hok]. rewrite Hf in *.
    set (lo := N.max n from) in *. set (hi := N.min (n + part_count p - 1) to) in *.
    exists (N.to_nat (hi + 1 - lo)). split_and!; [done|lia|]. replace (lo + N.of_nat (N.to_nat (hi + 1 - lo))) with (hi + 1) by lia.
    destruct (N.le_gt_cases (n + part_count p - 1) to) as [Hle'|Hgt].
    + replace (hi + 1) with (N.max (n + part_count p) from) by lia.
      by replace (N.max lo (N.min m (to + 1))) with (N.max (N.max (n + part_count p) from) (N.min m (to + 1))) by lia.
    + replace (N.max (N.max (n + part_count p) from) (N.min m (to + 1))) with (N.max (n + part_count p) from) in IH by lia.
      apply slices_cover_empty in IH as ->. simpl. lia.
  - assert (N.min (n + part_count p - 1) to < N.max n from) as Hlt.
    { unfold part_slice in Hs. rewrite Hf in Hs. destruct (part_count p =? 0) eqn:?; [lia|]. simpl in Hs. destruct (_ <? _) eqn:?; [lia|done]. }
    destruct (N.le_gt_cases (n + part_count p) from) as [Hle'|Hgt].
    + by replace (N.max n from) with (N.max (n + part_count p) from) by lia.
    + replace (N.max (N.max (n + part_count p) from) (N.min m (to + 1))) with (N.max (n + part_count p) from) in IH by lia.
      apply slices_cover_empty in IH as ->. simpl. lia.
Qed.

Lemma total_covers n parts m : covers_from n parts m → n + foldr (λ p n, part_count p + n) 0 parts = m.
Proof. revert n. induction parts as [|p parts IH]; intros n; simpl; [lia|]. intros (_ & _ & Hc%IH). lia. Qed.
End windows.
