(* ===== verification/ReplayComplete.v ===== *)
(** * Replay pages: following them reads the whole journal

    A client that asks for page after page, forward from the start or backward
    from the end, gets every record once and in order. *)
From S2P Require Import Prelude Bytes Text Channel Json JsonObject Model Digest Summary Recipients Keyring Dek HistoryCrypto Record SegmentIndex SegmentBuilder SegmentRun SegmentContent FrameCache SegmentReader SegmentPlan JournalScan JournalRepair JournalLines JournalRecover JournalConverge JournalValidate JournalFast Replay ReplayPages.
From stdpp Require Import pretty.
From Stdlib Require Import Strings.Byte ZifyBool.
Local Open Scope N_scope.

Section pages.
Context `{JsonView} `{!Serde} `{HistoryPrimitives} `{Aead} `{FrameCodec} `{!RawValues} `{Lru}.
Context (cid : string) (good : FrameCache → Prop).
Context (files : list JournalFile) (stored : bool → N → ConversationEvent).
Context (copied_file : string → result AppError (option Value)).
Hypothesis copied_readable : ∀ id, ∃ o, copied_file id = Ok o.

Lemma attach_first_ok ids frames : ∃ frames', attach_first copied_file ids frames = Ok frames'.
Proof.
  induction ids as [|id ids IH]; cbn [attach_first]; [by eexists|]. destruct (decide _); [by eexists|].
  assert (∃ o, read_copied_frame copied_file id = Ok o) as [o ->].
  { unfold read_copied_frame. destruct (negb _); [by eexists|apply copied_readable]. }
  simpl. destruct o; [by eexists|done].
Qed.
Lemma attach_copied_frames_ok detail events frames : ∃ frames', attach_copied_frames copied_file detail events frames = Ok frames'.
Proof.
  unfold attach_copied_frames. revert frames. induction events as [|e events IH]; intros frames; cbn [fold_result]; [by eexists|].
  assert (∃ frames', attach_event copied_file detail frames e = Ok frames') as [frames' ->]; [|apply IH].
  unfold attach_event. destruct (mbind _ _); [apply attach_first_ok|by eexists].
Qed.

(** An index of the records from 1 to [last], all of them readable. *)
Definition index_ok (idx : JournalIndex) (last : N) : Prop :=
  covers_from 1 (ji_parts idx) (last + 1) ∧ Forall (part_ok cid good files stored) (ji_parts idx).

Lemma index_total idx last : index_ok idx last → JournalIndex_total idx = last.
Proof. intros [Hc%total_covers _]. unfold JournalIndex_total. lia. Qed.
Lemma slices_ok idx last from to : index_ok idx last → from < to → to ≤ last →
  slices_cover cid good files stored (from + 1) (slices idx from to) (to + 1).
Proof.
  intros [Hc Hp] Hft Htl. pose proof (slices_of_parts cid good files stored 1 _ _ (from + 1) to Hc Hp) as Hs.
  by replace (N.max (N.max 1 (from + 1)) (N.min (last + 1) (to + 1))) with (to + 1) in Hs by lia;
    replace (N.max 1 (from + 1)) with (from + 1) in Hs by lia.
Qed.

(** A window's page. *)
Lemma read_window_ok idx last from to anchor detail cache :
  index_ok idx last → from ≤ to → to ≤ last → good cache →
  ∃ k cache' page, read_window cid copied_file files (Some idx) from to anchor detail cache = (cache', Ok page) ∧ good cache' ∧
    N.of_nat k ≤ to - from ∧ (from < to → (0 < k)%nat) ∧
    match anchor with
    | AnchorStart => pg_events page = span (stored (is_summary detail)) (from + 1) k ∧ pg_from page = from ∧ pg_to page = from + N.of_nat k
    | AnchorEnd => pg_events page = span (stored (is_summary detail)) (pg_from page + 1) k ∧
        pg_from page = (if from =? to then from else to - N.of_nat k)
    end.
Proof.
  intros Hi Hft Htl Hg. unfold read_window. destruct (to <=? from) eqn:Hle.
  { assert (to = from) as -> by lia. exists 0%nat. eexists _, _. split; [done|]. split_and!; [done|lia|lia|].
    rewrite N.eqb_refl. destruct anchor; simpl; [|done]. split_and!; [done|done|lia]. }
  assert (from < to) as Hlt by lia. set (s := {| ps_cache := cache |}). pose proof (slices_ok idx last from to Hi Hlt Htl) as Hs.
  destruct anchor; cbn [is_backward].
  - destruct (read_slices_forward cid good files stored detail _ _ _ s Hs Hg) as (k & s' & chunks & -> & Hg' & Hch & Hk & Hpos).
    destruct (attach_copied_frames_ok detail (concat chunks) (ps_frames s')) as [frames ->].
    exists k. eexists _, _. split; [done|]. rewrite Hch, span_length. simpl. split_and!; [done|lia|intros _; apply Hpos; [done|lia]|done..].
  - destruct (read_slices_backward cid good files stored detail _ _ _ s Hs Hg) as (k & s' & chunks & -> & Hg' & Hch & Hlen & Hk & Hpos).
    destruct (attach_copied_frames_ok detail (concat (rev chunks)) (ps_frames s')) as [frames ->].
    exists k. eexists _, _. split; [done|]. rewrite Hch, Hlen. cbn [pg_events pg_from]. replace (from =? to) with false by lia.
    split_and!; [done|lia|intros _; apply Hpos; [done|lia]| |done]. f_equal. lia.
Qed.
End pages.

Section calls.
Context `{JsonViewLaws} `{!Serde} `{!SerdeLaws} `{!JournalLaws} `{!TrailingSpace}.
Context `{HistoryPrimitives} `{Aead} `{FrameCodec} `{!RawValues} `{Lru}.
Context (cid : string) (good : FrameCache → Prop) (stored : bool → N → ConversationEvent).
Context (copied_file : string → result AppError (option Value)).
Context (backup_name : string) (now : Z) (fresh_id : N → string).
Context (same_files : list JournalFile → list JournalFile → bool).

(** What the store is given: files of copied frames that can be read, a clock,
    and a comparison of files that knows a file from itself. *)
Record store_inputs : Prop := {
  si_copied id : ∃ o, copied_file id = Ok o;
  si_clock : time_in_range (now / 1000 * 1000)%Z = true;
  si_same files : same_files files files = true;
}.
Hypothesis inputs : store_inputs.
Abbreviation replay := (replay_detail cid copied_file backup_name now fresh_id same_files).
Abbreviation replay_before := (replay_before_detail cid copied_file backup_name now fresh_id same_files).

(** ** The journal a client reads *)

Context (segs plains : list JournalFile) (m : N).
Abbreviation files := (segs ++ plains).
Abbreviation lines := (flat_map file_lines plains).
Definition last_sequence : N := m + N.of_nat (length lines) - 1.

(** Sealed segments that can be read, then plaintext files holding the records
    one after the other, each with its newline. *)
Record whole_journal : Prop := {
  wj_files : files ≠ [];
  wj_segs : sealed_chain 1 segs m;
  wj_readable f number s : f ∈ segs → jf_kind f = Segment number (Ok s) →
    segment_file files (s_number s) = Some f ∧ readable_segment cid good s (jf_data f) stored;
  wj_plain : Forall (λ f, is_plain f = true) plains;
  wj_flush : Forall flush_lines plains;
  wj_ends : run_unterminated None (indexed_from (length segs) plains) = None;
  wj_last : last_sequence ≤ U64_MAX;
  wj_records i line : lines !! i = Some line → ∀ d, record_at cid (m + N.of_nat i) line (stored d (m + N.of_nat i));
}.
Hypothesis whole : whole_journal.

Lemma records_dense (ls : list bytes) n :
  (∀ i line, ls !! i = Some line → ∀ d, record_at cid (n + N.of_nat i) line (stored d (n + N.of_nat i))) → dense_lines cid n ls.
Proof.
  revert n. induction ls as [|l ls IH]; intros n Hr; [done|]. split.
  - eexists. specialize (Hr 0%nat l eq_refl false). by rewrite N.add_0_r in Hr.
  - apply IH. intros i line Hi d. specialize (Hr (S i) line Hi d). by replace (n + 1 + N.of_nat i) with (n + N.of_nat (S i)) by lia.
Qed.
Lemma whole_dense : dense_lines cid m lines.
Proof. apply records_dense, whole. Qed.
Lemma sealed_m_pos n segs' m' : sealed_chain n segs' m' → n ≤ m'.
Proof. revert n. induction segs' as [|f segs' IH]; intros n; simpl; [lia|]. intros (? & s & _ & <- & ? & ?%IH). lia. Qed.

Lemma items_ranges_in raw : ranges_in raw (items raw).*1.
Proof.
  split.
  - induction (items_sorted raw) as [|x xs Hs IH Hx]; [constructor|]. rewrite fmap_cons. constructor; [done|]. apply Forall_fmap.
    eapply Forall_impl; [exact Hx|]. intros y [_ Hy]. simpl. lia.
  - apply Forall_fmap, Forall_forall. intros x [Hx _]%items_range. by apply line_ranges_bounds.
Qed.

Lemma plain_parts_ok base n fs rest :
  (∀ k f, fs !! k = Some f → rest !! (base + k)%nat = Some f) →
  (∀ i line, flat_map file_lines fs !! i = Some line → ∀ d, record_at cid (n + N.of_nat i) line (stored d (n + N.of_nat i))) →
  Forall (part_ok cid good rest stored) (run_parts base n fs).
Proof.
  revert base n. induction fs as [|f fs IH]; intros base n Hf Hr; [constructor|]. cbn [run_parts].
  apply Forall_app. split.
  - destruct (items (jf_data f)) as [|x xs] eqn:Hits; [constructor|]. rewrite <-Hits. constructor; [|constructor].
    exists f. split_and!; [by rewrite <-(Hf 0%nat f eq_refl), Nat.add_0_r|apply items_ranges_in|]. intros d i r Hi.
    rewrite list_lookup_fmap in Hi. apply fmap_Some in Hi as (it & Hit & ->).
    assert (file_lines f !! i = Some it.2) as Hl by (unfold file_lines; by rewrite list_lookup_fmap, Hit).
    apply list_elem_of_lookup_2, items_range in Hit as [_ <-]. apply Hr. cbn [flat_map]. by apply lookup_app_l_Some.
  - apply IH.
    + intros k g Hk. rewrite <-(Hf (S k) g Hk). f_equal. lia.
    + intros i line Hi d. replace (n + N.of_nat (length (items (jf_data f))) + N.of_nat i) with (n + N.of_nat (length (file_lines f) + i))
        by (unfold file_lines; rewrite length_fmap; lia).
      apply Hr. cbn [flat_map]. rewrite lookup_app_r by lia. by replace (length (file_lines f) + i - length (file_lines f))%nat with i by lia.
Qed.

Lemma run_parts_cover base n fs : covers_from n (run_parts base n fs) (n + N.of_nat (length (flat_map file_lines fs))).
Proof.
  revert base n. induction fs as [|f fs IH]; intros base n; cbn [run_parts flat_map]; [simpl; lia|].
  rewrite length_app. unfold file_lines at 1. rewrite length_fmap.
  specialize (IH (S base) (n + N.of_nat (length (items (jf_data f))))).
  replace (n + N.of_nat (length (items (jf_data f)) + length (flat_map file_lines fs))) with
    (n + N.of_nat (length (items (jf_data f))) + N.of_nat (length (flat_map file_lines fs))) by lia.
  destruct (items (jf_data f)) as [|x xs] eqn:Hits; [simpl in *; by rewrite N.add_0_r in *|]. rewrite <-Hits in *.
  simpl. rewrite length_fmap. split_and!; [done|rewrite Hits; simpl; lia|done].
Qed.

Lemma clean_index_ok idx : ji_parts idx = clean_parts segs plains m → index_ok cid good files stored idx last_sequence.
Proof.
  intros Hp. pose proof (sealed_m_pos _ _ _ (wj_segs whole)) as Hm. unfold index_ok, last_sequence. rewrite Hp. unfold clean_parts. split.
  - replace (m + N.of_nat (length lines) - 1 + 1) with (m + N.of_nat (length lines)) by lia.
    eapply covers_app; [apply (sealed_covers now (si_clock inputs)), whole|apply run_parts_cover].
  - apply Forall_app. split.
    + apply Forall_forall. intros p Hin. unfold sealed_parts in Hin. rewrite list_elem_of_In, in_flat_map in Hin.
      destruct Hin as (f & Hf & Hin). rewrite <-!list_elem_of_In in *.
      destruct (jf_kind f) as [number [s|]| |] eqn:Hk; [|by apply elem_of_nil in Hin..].
      apply list_elem_of_singleton in Hin as ->. destruct (wj_readable whole f number s Hf Hk) as [Hfile Hread]. split; [|by exists f].
      assert (∀ n fs m', sealed_chain n fs m' → f ∈ fs → s_first s ≤ s_last s) as Hle.
      { clear -Hk. intros n fs. revert n. induction fs as [|g fs IH]; intros n m' Hc Hin; [by apply elem_of_nil in Hin|].
        destruct Hc as (number' & s' & Hk' & _ & Hle & Hc). apply elem_of_cons in Hin as [->|Hin]; [congruence|by eapply IH]. }
      eapply Hle; [apply whole|done].
    + apply plain_parts_ok; [|apply whole]. intros k f Hk. rewrite lookup_app_r by lia. by replace (length segs + k - length segs)%nat with k by lia.
Qed.

(** ** The calls *)

(** A store of this journal: cold, or with an index cached, which is used when
    it is of these files. *)
Definition ready (s : ReplayStore) : Prop :=
  rs_has_manifest s = true ∧ j_files (rs_journal s) = files ∧ good (rs_cache s) ∧
  match rs_index s with
  | Some idx => same_files (ji_files idx) files = true → ji_parts idx = clean_parts segs plains m
  | None => True
  end.

Lemma fast_plain_total base fs st : Forall (λ f, is_plain f = true) fs → ∃ o, scan_fast_files cid (indexed_from base fs) st = Ok o.
Proof.
  intros Hp. revert base st. induction Hp as [|f fs Hf _ IH]; intros base st; [by eexists|].
  rewrite indexed_from_cons. cbn [scan_fast_files]. unfold scan_fast_file. cbn [fst snd].
  unfold is_plain, is_sealed_segment in Hf. destruct (jf_kind f); [done|..]; simpl.
  all: destruct (scan_fast_plain _ _ _ _); [apply IH|by eexists].
Qed.
Lemma fast_scan_total : ∃ o, scan_journal_fast files cid = Ok o.
Proof.
  unfold scan_journal_fast. assert (enumerate files = indexed_from 0 segs ++ indexed_from (length segs) plains) as ->.
  { unfold enumerate, indexed_from. by rewrite imap_app. }
  rewrite (fast_sealed cid 0 1 segs m) by (done || apply whole).
  set (st := {| fs_parts := _ |}).
  destruct (fast_plain_total (length segs) plains st (wj_plain whole)) as [[st'|] ->]; simpl; by eexists.
Qed.

Lemma replay_journal_ok s : ready s →
  ∃ s' idx, replay_journal cid backup_name now fresh_id same_files s = (s', Ok tt) ∧ ready s' ∧
    rs_index s' = Some idx ∧ ji_parts idx = clean_parts segs plains m.
Proof.
  intros (Hm & Hf & Hg & Hi). cbv beta iota zeta delta [replay_journal asks mbind M_bind id]. rewrite Hm, Hf. cbn [negb].
  destruct files as [|f0 fs] eqn:Hfs; [by destruct (wj_files whole)|]. rewrite <-Hfs in *. clear f0 fs Hfs.
  destruct (match rs_index s with Some index => same_files (ji_files index) files | None => false end) eqn:Hsame.
  { destruct (rs_index s) as [idx|] eqn:Hidx; [|done]. exists s, idx. split_and!; [done| |done|by apply Hi].
    unfold ready. rewrite Hidx. done. }
  unfold index_journal_fast. rewrite Hf. destruct fast_scan_total as [o Ho]. rewrite Ho. destruct o as [[parts tail]|].
  - apply (fast_scan_parts cid segs plains m) in Ho as [-> _]; [|apply whole..|apply whole_dense].
    eexists _, _. split; [done|]. split_and!; [split_and!; [done..|]|done|done]. by rewrite <-Hf.
  - unfold validate_store.
    destruct (clean_pass backup_name now fresh_id cid (si_clock inputs) (rs_journal s) segs plains m Hf (wj_segs whole) (wj_plain whole)
      whole_dense (wj_ends whole)) as (parts & tail & Hpass & _).
    pose proof (validated_parts backup_name now fresh_id cid _ segs plains m parts tail Hf (wj_segs whole) (wj_plain whole)
      (si_clock inputs) Hpass) as (_ & -> & _).
    unfold validate_journal. cbn [validate_passes]. rewrite Hpass. eexists _, _. split; [done|]. split_and!; [split_and!; [done..|]|done|done].
    by rewrite <-Hf.
Qed.

Lemma stored_sequence d n cache : good cache → 1 ≤ n → n ≤ last_sequence → sequence (stored d n) = n.
Proof.
  intros Hg Hn1 Hn2.
  pose proof (clean_index_ok {| ji_files := files; ji_parts := clean_parts segs plains m; fully_validated := true |} eq_refl) as [Hc Hp].
  cbn [ji_parts] in *. assert (n < last_sequence + 1) as Hlt by lia. clear Hn2. revert Hc Hn1 Hlt. generalize (last_sequence + 1) as b. generalize 1 as a.
  induction Hp as [|p parts Hp _ IH]; intros a b Hc Ha Hb; simpl in Hc; [lia|]. destruct Hc as (Hf & Hcount & Hc).
  destruct (N.lt_ge_cases n (a + part_count p)) as [Hlt|Hge]; [|by apply (IH _ _ Hc)].
  destruct p as [seg|file first offsets]; cbn [part_first part_count part_ok] in *.
  - destruct Hp as (Hle & f & Hf' & inv & Hopen & Hgood & Hread).
    destruct (Hread _ n d (Hopen _ Hg)) as (self' & r & _ & _ & <- & Hs & _); [lia|done].
  - destruct Hp as (f & Hf' & Hin & Hr). destruct (lookup_lt_is_Some_2 offsets (N.to_nat (n - a))) as [r Hr']; [lia|].
    specialize (Hr d _ _ Hr'). subst first. replace (a + N.of_nat (N.to_nat (n - a))) with n in Hr by lia. by destruct Hr as (_ & Hs & _).
Qed.

Lemma read_page_ok s idx anchor detail window :
  ready s → rs_index s = Some idx → ji_parts idx = clean_parts segs plains m →
  let '(from, to) := window last_sequence in
  from ≤ to → to ≤ last_sequence →
  ∃ k s' page, read_indexed_page cid copied_file backup_name now fresh_id anchor detail window s = (s', Ok page) ∧ ready s' ∧
    N.of_nat k ≤ to - from ∧ (from < to → (0 < k)%nat) ∧ pg_total page = last_sequence ∧
    match anchor with
    | AnchorStart => pg_events page = span (stored (is_summary detail)) (from + 1) k ∧ pg_from page = from ∧ pg_to page = from + N.of_nat k
    | AnchorEnd => pg_events page = span (stored (is_summary detail)) (pg_from page + 1) k ∧
        pg_from page = (if from =? to then from else to - N.of_nat k)
    end.
Proof.
  intros (Hm & Hf & Hg & Hi) Hidx Hparts. destruct (window last_sequence) as [from to] eqn:Hw. intros Hft Htl.
  pose proof (clean_index_ok idx Hparts) as Hok. unfold read_indexed_page. cbn [page_attempts].
  assert (journal_len s = last_sequence) as -> by (unfold journal_len; rewrite Hidx; by eapply index_total).
  rewrite Hw, Hf, Hidx. replace (N.min from to) with from by lia. replace (N.min to last_sequence) with to by lia.
  destruct (read_window_ok cid good files stored copied_file (si_copied inputs) idx last_sequence from to anchor detail (rs_cache s) Hok Hft Htl Hg)
    as (k & cache' & page & -> & Hg' & Hk & Hpos & Hpage).
  exists k. eexists _, _. split; [done|]. cbn [pg_total pg_events pg_from pg_to]. split_and!; [|done..].
  split_and!; [done..|]. cbn [put_cache rs_index]. by rewrite Hidx in *.
Qed.

(** A forward page: the records after the one named, at least one while there
    are any, and where to go on. *)
Lemma replay_ok s after limit detail : ready s → after ≤ last_sequence →
  ∃ k s' r, replay after limit detail s = (s', Ok r) ∧ ready s' ∧
    cr_events r = span (stored (is_summary detail)) (after + 1) k ∧ after + N.of_nat k ≤ last_sequence ∧
    N.of_nat k ≤ clamp_limit limit ∧ (after < last_sequence → (0 < k)%nat) ∧
    next_sequence r = after + N.of_nat k ∧ has_more r = (after + N.of_nat k <? last_sequence).
Proof.
  intros Hs Ha. unfold replay_detail, mbind, M_bind. destruct (replay_journal_ok s Hs) as (s1 & idx & -> & Hs1 & Hidx & Hparts).
  pose proof (read_page_ok s1 idx AnchorStart detail (forward_window after (clamp_limit limit)) Hs1 Hidx Hparts) as Hpage.
  unfold forward_window at 1 in Hpage. replace (N.min after last_sequence) with after in Hpage by lia.
  pose proof (wj_last whole) as Hmax. assert (1 ≤ clamp_limit limit) as Hl by (unfold clamp_limit; lia).
  destruct Hpage as (k & s2 & page & -> & Hs2 & Hk & Hpos & Ht & He & Hfrom & Hto); [lia|lia|].
  exists k. eexists _, _. split; [done|]. cbn [cr_events next_sequence has_more]. rewrite He, Ht, Hto.
  split_and!; [done|done|lia|lia|intros; apply Hpos; lia| |done].
  destruct k as [|k]; [simpl; lia|]. rewrite last_lookup, span_length. unfold span. rewrite list_lookup_fmap, lookup_seq_lt by lia. simpl.
  destruct Hs2 as (_ & _ & Hg & _). rewrite (stored_sequence _ _ _ Hg); lia.
Qed.
(** A backward page: the records up to the one named. *)
Lemma replay_before_ok s before limit detail : ready s →
  let to := N.min before last_sequence in
  ∃ k s' r, replay_before before limit detail s = (s', Ok r) ∧ ready s' ∧
    cr_events r = span (stored (is_summary detail)) (from_sequence r + 1) k ∧ from_sequence r + N.of_nat k = to ∧
    N.of_nat k ≤ clamp_limit limit ∧ (0 < to → (0 < k)%nat) ∧ has_more r = (0 <? from_sequence r).
Proof.
  intros Hs to. unfold replay_before_detail, mbind, M_bind. destruct (replay_journal_ok s Hs) as (s1 & idx & -> & Hs1 & Hidx & Hparts).
  pose proof (read_page_ok s1 idx AnchorEnd detail (backward_window before (clamp_limit limit)) Hs1 Hidx Hparts) as Hpage.
  unfold backward_window at 1 in Hpage. fold to in Hpage. assert (1 ≤ clamp_limit limit) as Hl by (unfold clamp_limit; lia).
  destruct Hpage as (k & s2 & page & -> & Hs2 & Hk & Hpos & Ht & He & Hfrom); [lia|lia|].
  exists k. eexists _, _. split; [done|]. cbn [cr_events from_sequence has_more]. rewrite He, Hfrom.
  destruct (N.eqb_spec (to - clamp_limit limit) to); split_and!; try done; try lia.
Qed.

(** ** Page after page *)

(** A client that goes on where the page says, while it says there is more. *)
Fixpoint follow (fuel : nat) (limit : N) (detail : ReplayDetail) (after : N) : M ReplayStore ReplayStop (list ConversationEvent) :=
  match fuel with
  | O => throw ReplayPanic
  | S fuel =>
      r ← replay after limit detail;
      if has_more r then rest ← follow fuel limit detail (next_sequence r); mret (cr_events r ++ rest)
      else mret (cr_events r)
  end.
Fixpoint follow_back (fuel : nat) (limit : N) (detail : ReplayDetail) (before : N) : M ReplayStore ReplayStop (list ConversationEvent) :=
  match fuel with
  | O => throw ReplayPanic
  | S fuel =>
      r ← replay_before before limit detail;
      if has_more r then earlier ← follow_back fuel limit detail (from_sequence r); mret (earlier ++ cr_events r)
      else mret (cr_events r)
  end.

Lemma follow_reads fuel limit detail after s : ready s → after ≤ last_sequence → (N.to_nat (last_sequence - after) < fuel)%nat →
  ∃ s', follow fuel limit detail after s =
    (s', Ok (span (stored (is_summary detail)) (after + 1) (N.to_nat (last_sequence - after)))) ∧ ready s'.
Proof.
  revert after s. induction fuel as [|fuel IH]; intros after s Hs Ha Hfuel; [lia|]. cbn [follow]. unfold mbind, M_bind.
  destruct (replay_ok s after limit detail Hs Ha) as (k & s1 & r & -> & Hs1 & He & Hk & _ & Hpos & Hnext & Hmore). rewrite Hmore, He, Hnext.
  destruct (N.ltb_spec (after + N.of_nat k) last_sequence) as [Hlt|Hge].
  - destruct (IH (after + N.of_nat k) s1 Hs1 Hk) as (s2 & -> & Hs2); [lia|]. exists s2. split; [|done]. cbn.
    replace (after + N.of_nat k + 1) with (after + 1 + N.of_nat k) by lia. rewrite <-span_app.
    unfold mret, M_ret. do 3 f_equal. lia.
  - exists s1. split; [|done]. unfold mret, M_ret. do 3 f_equal. lia.
Qed.
Lemma follow_back_reads fuel limit detail before s : ready s → (N.to_nat (N.min before last_sequence) < fuel)%nat →
  ∃ s', follow_back fuel limit detail before s =
    (s', Ok (span (stored (is_summary detail)) 1 (N.to_nat (N.min before last_sequence)))) ∧ ready s'.
Proof.
  revert before s. induction fuel as [|fuel IH]; intros before s Hs Hfuel; [lia|]. cbn [follow_back]. unfold mbind, M_bind.
  destruct (replay_before_ok s before limit detail Hs) as (k & s1 & r & -> & Hs1 & He & Hk & _ & Hpos & Hmore). rewrite Hmore, He.
  destruct (N.ltb_spec 0 (from_sequence r)) as [Hlt|Hge].
  - destruct (IH (from_sequence r) s1 Hs1) as (s2 & -> & Hs2); [lia|]. exists s2. split; [|done]. cbn.
    replace (N.min (from_sequence r) last_sequence) with (from_sequence r) by lia.
    replace (from_sequence r + 1) with (1 + N.of_nat (N.to_nat (from_sequence r))) by lia. rewrite <-span_app. unfold mret, M_ret. do 3 f_equal. lia.
  - exists s1. split; [|done]. cbn. assert (from_sequence r = 0) as E by lia. rewrite E. unfold mret, M_ret. do 3 f_equal. lia.
Qed.

(** C17: Page after page reads the whole journal. From a cold store or one with its
    index cached, for every limit and detail: a client that follows the pages
    forward from any point gets every later record, once and in order, and one
    that follows them backward every earlier record; neither needs more pages
    than there are records, plus one. *)
Theorem pages_read_everything s limit detail : ready s →
  (∀ after, after ≤ last_sequence →
    ∃ s', follow (S (N.to_nat (last_sequence - after))) limit detail after s =
      (s', Ok (span (stored (is_summary detail)) (after + 1) (N.to_nat (last_sequence - after))))) ∧
  (∀ before,
    ∃ s', follow_back (S (N.to_nat (N.min before last_sequence))) limit detail before s =
      (s', Ok (span (stored (is_summary detail)) 1 (N.to_nat (N.min before last_sequence))))).
Proof.
  intros Hs. split.
  - intros after Ha. destruct (follow_reads (S (N.to_nat (last_sequence - after))) limit detail after s Hs Ha) as (s' & ? & _); [lia|]. by exists s'.
  - intros before. destruct (follow_back_reads (S (N.to_nat (N.min before last_sequence))) limit detail before s Hs) as (s' & ? & _); [lia|]. by exists s'.
Qed.
End calls.
