(* ===== verification/ReplaySegments.v ===== *)
(** * Replay pages: the segments the daemon builds can be read

    What the pages ask of a sealed segment holds of every finished build:
    plaintext records with their payload, records kept as ciphertext, and
    records in sealed frames, with the frames. *)
From S2P Require Import Prelude Bytes Text Channel Json JsonObject Model Digest Summary Recipients Keyring Dek HistoryCrypto Record SegmentIndex SegmentBuilder SegmentRun SegmentContent FrameCache SegmentReader SegmentPlan JournalScan JournalRepair JournalLines JournalRecover Replay ReplayPages.
From stdpp Require Import pretty.
From Stdlib Require Import Strings.Byte ZifyBool.
Local Open Scope N_scope.

Section built.
Context `{JsonViewLaws} `{!Serde} `{!SerdeLaws} `{!RawValues} `{!RawValuesLaws} `{HistoryPrimitivesLaws} `{AeadLaws}
  `{FrameCodecLaws} `{LruLaws}.
Context (truth : Key → option DecodedFrame).

(** The shared cache: coherent with the files, and its bytes accounted for. *)
Definition cache_good (cache : FrameCache) : Prop :=
  coherent truth cache ∧ accounted cache ∧ fc_bytes cache ≤ fc_budget cache.

Context (steps : list BuildStep) (cid : string) (number : N) (keys : gmap string ContentKey) (body : SegmentIndexBody)
  (file : bytes) (seg : SealedSegment).

(** The record of a sequence, as it was pushed. *)
Definition pushed (n : N) : option (ConversationEvent * SegmentBuilder.Item) :=
  head (omap (M:=list) (λ step, match step with PushRecord e it => if sequence e =? n then Some (e, it) else None | _ => None end) steps).
(** ... and as it is read. *)
Definition read_form (summary : bool) (e : ConversationEvent) (it : SegmentBuilder.Item) : ConversationEvent :=
  match it with
  | SealedItem k _ =>
      let at_stream stream := default no_frame (frame seg stream (sequence e)) in
      with_payload e (object_value (<[ENCRYPTED_FIELD :=
        object_value (frame_reference (reader_open seg file cid (FrameCache_new 0)) k (sequence e)
          (at_stream STREAM_SUMMARY) (at_stream STREAM_FULL))]> (envelope_fields (event_type e) (payload e))))
  | _ => match read_back_as e it summary with Some (p, _) => with_payload e p | None => e end
  end.
Definition segment_events (fallback : ConversationEvent) (summary : bool) (n : N) : ConversationEvent :=
  match pushed n with Some (e, it) => read_form summary e it | None => fallback end.

(** Every record of the segment was pushed, and is one of the conversation. *)
Definition all_pushed : Prop :=
  ∀ n, s_first seg ≤ n ≤ s_last seg →
    ∃ e it, pushed n = Some (e, it) ∧ it ≠ Verbatim ∧ storable e ∧ validate_event e cid n = Ok tt.

Lemma pushed_in n e it : pushed n = Some (e, it) → PushRecord e it ∈ steps ∧ sequence e = n.
Proof.
  unfold pushed. intros Hh. apply head_Some_elem_of, list_elem_of_omap in Hh as (step & Hin & Hs).
  destruct step; try done. destruct (N.eqb_spec (sequence e0) n); [|done]. by injection Hs as -> ->.
Qed.
Lemma validate_payload e p n : validate_event (with_payload e p) cid n = validate_event e cid n.
Proof. done. Qed.
Lemma validated_conversation e n : validate_event e cid n = Ok tt → conversation_id e = cid.
Proof.
  unfold validate_event. destruct (String.eqb_spec (conversation_id e) cid) as [|Hne]; [done|].
  simpl. rewrite orb_true_r. done.
Qed.

Lemma built_segment_readable fallback :
  finished steps cid number keys body file → from_body number body = Ok seg → body_typed body →
  small_items (steps_log steps) → N.of_nat (length file) < 2 ^ 32 →
  truthful truth (reader_open seg file cid (FrameCache_new 0)) → all_pushed →
  readable_segment cid cache_good seg file (segment_events fallback).
Proof.
  intros Hfin Hseg Htyped Hsmall Hfile Htruth Hall. exists (reads cid file seg truth). split_and!.
  - intros cache (Hco & Hac & Hbu). split_and!; [done..| |].
    + by split.
    + exact Htruth.
  - intros self (_ & _ & _ & [Hco Hac Hbu _] & _). done.
  - intros self n summary Hself Hn. destruct (Hall n Hn) as (e & it & Hp & Hit & Hst & Hv).
    pose proof (pushed_in _ _ _ Hp) as [Hin Hs]. pose proof (validated_conversation _ _ Hv) as Hc. subst n.
    unfold segment_events. rewrite Hp. destruct it as [p|k p|x|] eqn:Eit; [| | |done].
    + destruct (SegmentReader.readable_record steps cid number keys body file seg truth Hfin Hseg Htyped Hsmall Hfile e it p (length (value_to_vec p)) summary self)
        as (self' & Hrec & Hr'); [by subst..|].
      eexists self', _. split; [exact Hrec|]. by split_and!.
    + destruct (sealed_record steps cid number keys body file seg truth Hfin Hseg Htyped Hsmall Hfile e k p summary self)
        as (self' & sf & ff & Hsf & Hff & Hrec & Hr'); [by subst..|].
      eexists self', _. split; [exact Hrec|]. cbn [sr_event sr_frame]. split_and!; [done| |done|done|].
      * unfold read_form. rewrite Hsf, Hff. cbn [default]. destruct Hself as (E1 & _ & E3 & _).
        unfold frame_reference. cbn [reader_open rd_segment rd_conversation_id]. by rewrite E1, E3.
      * intros fr [= <-]. cbn [fr_entry].
        destruct (sealed_frames steps cid number keys body file seg Hfin Hseg Htyped Hfile e k p) as (sf' & ff' & Hsf' & Hff' & Hk1 & Hk2 & _ & _ & _ & _ & Hb1 & Hb2);
          [by subst|]. assert (sf' = sf) as -> by congruence. assert (ff' = ff) as -> by congruence.
        assert (∀ f, kid f = Some k → frame_built (steps_log steps) number cid keys file f →
          ∃ self'' wire, wire_frame f self' = Some (self'', Ok wire) ∧ reads cid file seg truth self'') as Hwire.
        { intros f Hk Hb. destruct (built_opens steps cid number keys file Hfile f k Hb Hk) as (? & ? & stored & ? & _ & _ & _ & _ & _ & _ & Hrd & _).
          unfold wire_frame. rewrite Hk. cbv beta iota delta [mbind R_bind R_self R_lift mret R_ret].
          pose proof Hr' as (_ & Ef & _). rewrite Ef, Hrd. by eexists _, _. }
        destruct summary; by apply Hwire.
    + destruct (read_back_as e it summary) as [[p q]|] eqn:Hrb; [|by subst].
      destruct (SegmentReader.readable_record steps cid number keys body file seg truth Hfin Hseg Htyped Hsmall Hfile e it p q summary self)
        as (self' & Hrec & Hr'); [by subst..|].
      eexists self', _. split; [exact Hrec|]. cbn [sr_event sr_frame]. split_and!; [done| |done|done|done].
      unfold read_form. by rewrite <-Eit, Hrb.
Qed.
End built.

Lemma readable_segment_ext `{JsonView} `{!Serde} `{HistoryPrimitives} `{Aead} `{FrameCodec} `{!RawValues} `{Lru}
    cid good seg file stored stored' :
  (∀ d n, s_first seg ≤ n ≤ s_last seg → stored d n = stored' d n) →
  readable_segment cid good seg file stored → readable_segment cid good seg file stored'.
Proof.
  intros Heq (inv & Hopen & Hgood & Hread). exists inv. split_and!; [done..|]. intros self n summary Hself Hn.
  rewrite <-(Heq summary n Hn). by apply Hread.
Qed.
