(* ===== verification/ReplayExample.v ===== *)
(** * Replay pages: an example

    A journal of a sealed segment, with a record in a sealed frame and one in
    the clear, and two plaintext files. *)
From S2P Require Import Prelude Bytes Text Channel Json JsonObject Model Digest Summary Recipients Keyring Dek HistoryCrypto Record SegmentIndex SegmentBuilder SegmentRun SegmentContent FrameCache SegmentReader SegmentPlan JournalScan JournalRepair JournalLines JournalRecover JournalConverge JournalValidate JournalFast JournalExample Replay ReplayPages ReplayComplete ReplaySegments.
From stdpp Require Import pretty.
From Stdlib Require Import Strings.Byte ZifyBool.
Local Open Scope N_scope.

Module ReplayExample.
Import Jv PlainSerde PlainAead CommaJson ListLru JournalExample.
#[local] Existing Instance HistoryCrypto.Example.toy.
#[local] Existing Instance HistoryCrypto.Example.toy_laws.
#[local] Existing Instance SegmentExample.stored_codec.
#[local] Existing Instance SegmentExample.stored_codec_laws.

(** ** The segment *)

Definition content : jv := JObj SegmentExample.content.
Definition steps : list BuildStep :=
  [ PushRecord (SegmentExample.sealed 1) (SealedItem SegmentExample.k content);
    PushRecord (SegmentExample.record 2 content) (PlainItem content) ].
Definition keys : gmap string ContentKey := {[SegmentExample.k := HistoryCrypto.Example.key]}.
Definition start : SegmentBuilder := create SegmentExample.id "c" 1 keys.
Definition built : SegmentBuilder := (run_steps steps start).1.
Definition finished := finish ["a"] built.
Definition body : SegmentIndexBody := match finished.2 with Ok body => body | Err _ => SegmentExample.body end.
Definition file : bytes := b_out finished.1.
Definition seg : SealedSegment :=
  match from_body 1 body with Ok seg => seg | Err _ => ReaderExample.seg end.

Lemma replayed_steps_ok : Forall step_ok steps.
Proof. repeat constructor; done. Qed.
Lemma replayed_steps_run : run_steps steps start = (built, Ok tt).
Proof.
  assert (SegmentExample.succeeds (run_steps steps start).2 = true) as Hs by (vm_compute; reflexivity).
  unfold built. destruct (run_steps steps start) as [b [[]|e]]; done.
Qed.
Lemma replayed_build_finishes : finish ["a"] built = (finished.1, Ok body).
Proof.
  assert (SegmentExample.succeeds finished.2 = true) as Hs by (vm_compute; reflexivity).
  unfold body. change (finish ["a"] built) with finished. by destruct finished as [b [x|e]].
Qed.
Lemma replayed_body_is_typed : body_typed body.
Proof. split; [apply (bool_decide_unpack _)|..|apply (bool_decide_unpack _)]; vm_compute; done. Qed.
Lemma replayed_seg_loads : from_body 1 body = Ok seg.
Proof.
  assert (∃ s, from_body 1 body = Ok s) as [s Hs].
  { eapply from_body_accepts, finished_well_framed;
      [|apply replayed_steps_ok|apply replayed_steps_run|apply replayed_build_finishes|vm_compute; reflexivity..]. done. }
  unfold seg. rewrite Hs. reflexivity.
Qed.
Lemma replayed_build_finished : SegmentContent.finished steps "c" 1 keys body file.
Proof.
  split; [apply replayed_steps_ok|]. exists SegmentExample.id, built, finished.1, ["a"].
  split_and!; [done|apply replayed_steps_run|apply replayed_build_finishes|done].
Qed.
Lemma replayed_items_small : small_items (steps_log steps).
Proof.
  assert (items_within (64 * 1024 * 1024) (steps_log steps) = true) as Hfit by (vm_compute; reflexivity).
  intros x it Hx Hit. pose proof (items_within_spec _ _ _ _ Hfit Hx Hit). lia.
Qed.
Lemma replayed_file_truthful : truthful (file_truth seg file) (reader_open seg file "c" (FrameCache_new 0)).
Proof. apply (SegmentReader.file_truthful (reader_open seg file "c" (FrameCache_new 0))). apply (bool_decide_unpack _). vm_compute. done. Qed.

(** ** The journal *)

Definition segment : JournalFile := {| jf_kind := Segment 1 (Ok seg); jf_data := file |}.
Definition older : JournalFile := {| jf_kind := Numbered 2; jf_data := line 3 ++ [NL] ++ line 4 ++ [NL] |}.
Definition active : JournalFile := {| jf_kind := Active; jf_data := line 5 ++ [NL] |}.
Definition stored (d : bool) (n : N) : ConversationEvent :=
  if n <=? 2 then segment_events steps "c" file seg (say 0) d n else say n.
Definition good : FrameCache → Prop := cache_good (file_truth seg file).
Definition store : ReplayStore :=
  {| rs_has_manifest := true; rs_journal := {| j_files := [segment; older; active]; j_backups := []; j_key_abandoned := false |};
     rs_index := None; rs_cache := FrameCache_new 1000 |}.
Definition no_copies (_ : string) : result AppError (option Value) := Ok None.
Definition same (a b : list JournalFile) : bool := Nat.eqb (length a) (length b).

Lemma inputs_ok : store_inputs no_copies 1000 same.
Proof. split; [by eexists|reflexivity|]. intros l. apply Nat.eqb_refl. Qed.
Lemma seg_readable : readable_segment "c" good seg file stored.
Proof.
  eapply (readable_segment_ext _ _ _ _ (segment_events steps "c" file seg (say 0))).
  - intros d n Hn. unfold stored. assert (s_last seg = 2) as E by (vm_compute; reflexivity). rewrite E in Hn.
    by replace (n <=? 2) with true by lia.
  - eapply built_segment_readable; [apply replayed_build_finished|apply replayed_seg_loads|apply replayed_body_is_typed|apply replayed_items_small|vm_compute; reflexivity|
      apply replayed_file_truthful|].
    intros n Hn. assert (s_first seg = 1 ∧ s_last seg = 2) as [E1 E2] by (split; vm_compute; reflexivity). rewrite E1, E2 in Hn.
    assert (n = 1 ∨ n = 2) as [-> | ->] by lia; eexists _, _.
    + split; [reflexivity|]. split_and!; [discriminate|split; reflexivity || discriminate|vm_compute; reflexivity].
    + split; [reflexivity|]. split_and!; [discriminate|split; reflexivity || discriminate|vm_compute; reflexivity].
Qed.

Lemma plain_lines : flat_map file_lines [older; active] = [line 3; line 4; line 5].
Proof. vm_compute. reflexivity. Qed.
#[local] Instance head_visible_dec l : Decision (head_ok l) :=
  match l with [] => left I | c :: _ => decide (ascii_whitespace c = false) end.
#[local] Instance flush_dec f : Decision (flush_lines f) := Forall_dec _ _.

Lemma segment_kind n n' (s s' : SealedSegment) : Segment n (Ok s) = Segment n' (Ok s') → s = s'.
Proof. by intros [= _ ->]. Qed.
Lemma journal_whole : whole_journal "c" good stored [segment] [older; active] 3.
Proof.
  split.
  - done.
  - exists 1, seg. split; [reflexivity|]. split; [vm_compute; reflexivity|]. split; [vm_compute; discriminate|vm_compute; reflexivity].
  - intros f number s ->%list_elem_of_singleton Hk%(segment_kind 1 number seg s). subst s. split; [vm_compute; reflexivity|apply seg_readable].
  - repeat constructor.
  - apply (bool_decide_unpack _). vm_compute. exact I.
  - vm_compute. reflexivity.
  - unfold last_sequence. rewrite plain_lines. vm_compute. discriminate.
  - rewrite plain_lines. intros [|[|[|i]]] l Hl d; [injection Hl as <-..|discriminate Hl].
    all: split_and!; vm_compute; reflexivity.
Qed.
Lemma store_ready : ready good same [segment] [older; active] 3 store.
Proof.
  split_and!; [reflexivity|reflexivity| |exact I].
  split_and!; [|reflexivity|vm_compute; discriminate]. intros k v. unfold coherent. vm_compute. intros Hin. inversion Hin.
Qed.

(** Forward, from the start, by pages of two records; backward, from the end. *)
Lemma pages_read_everything_witness :
  (∃ s', follow "c" no_copies "backup" 1000 ids same 6 2 FullDetail 0 store = (s', Ok (span (stored false) 1 5))) ∧
  (∃ s', follow_back "c" no_copies "backup" 1000 ids same 6 2 SummaryDetail 5 store = (s', Ok (span (stored true) 1 5))).
Proof.
  assert (last_sequence [older; active] 3 = 5) as E by (unfold last_sequence; rewrite plain_lines; reflexivity).
  split.
  - destruct (pages_read_everything "c" good stored no_copies "backup" 1000 ids same inputs_ok [segment] [older; active] 3 journal_whole
      store 2 FullDetail store_ready) as [Hf _]. specialize (Hf 0). rewrite E in Hf. apply Hf. lia.
  - destruct (pages_read_everything "c" good stored no_copies "backup" 1000 ids same inputs_ok [segment] [older; active] 3 journal_whole
      store 2 SummaryDetail store_ready) as [_ Hb]. specialize (Hb 5). rewrite E in Hb. apply Hb.
Defined.
End ReplayExample.
