(* ===== verification/FollowUps.v ===== *)
(** * Follow-up queue

    Model of src/src/provider/supervisor/follow_ups.rs: the prompts queued
    behind a running turn, for one conversation. The sections the code runs
    under the conversation's request gate are the atomic operations; where the
    code leaves the gate and continues (a drain after an add, a timer), the
    continuation is an operation of its own. The rest of the supervisor and the
    store are represented by their answers ([Env]). *)
From S2P Require Import Prelude Text.
From stdpp Require Import pretty.
From Stdlib Require Import Ascii.
Local Open Scope N_scope.

Definition MAX_FOLLOW_UP_ITEMS : nat := 32.
Definition MAX_FOLLOW_UP_QUEUE_BYTES : N := 32 * 1024 * 1024.
Definition RATE_LIMITED : string := "rate_limited".
Definition USER_PAUSE : string := "user".
Definition SCHEDULED : string := "scheduled".
Definition MAX_SCHEDULE_AHEAD_DAYS : Z := 366.
Definition SCHEDULED_PROMPT_ERROR : string := "conversation is scheduled; queue the prompt instead".
Definition RATE_LIMIT_CONTINUE_PREFIX : string := "rate-limit-continue-".
Definition RATE_LIMIT_CONTINUE_TEXT : string :=
  "The previous request was interrupted by a provider usage limit before it could finish. Continue where it left off and complete the task.".
Definition MAX_RATE_LIMIT_CONTINUATIONS : N := 3.
Definition USER_HELD_PAUSES : list string :=
  [USER_PAUSE; SCHEDULED; "turn_cancelled"; "start_failed"; "daemon_restarted"].
Definition MAX_PROMPT_BYTES : N := 512 * 1024.
Definition u32_MAX : N := 2 ^ 32 - 1.
(** One day, [chrono::Duration::MAX] and [DateTime::<Utc>::MAX_UTC], in
    nanoseconds. *)
Definition DAY : Z := 24 * 3600 * 1000000000.
Definition CHRONO_MAX : Z := (2 ^ 63 - 1) * 1000000.
Definition MAX_UTC : Z := 8210266876799 * 1000000000 + 999999999.

Record ConversationPrompt : Type := {
  permission_mode : option string;
  work_mode : option string;
  client_request_id : option string;
  p_text : string;
  p_model : option string;
  reasoning_effort : option string;
  skills : list string;
  p_content : list string;
  permission_profile : option string;
  sandbox_mode : option string;
  approval_policy : option string;
}.
Definition with_request_id (id : string) (p : ConversationPrompt) : ConversationPrompt :=
  {| permission_mode := permission_mode p; work_mode := work_mode p; client_request_id := Some id;
     p_text := p_text p; p_model := p_model p; reasoning_effort := reasoning_effort p; skills := skills p;
     p_content := p_content p; permission_profile := permission_profile p; sandbox_mode := sandbox_mode p;
     approval_policy := approval_policy p |}.

Record FollowUpItem : Type := { item_id : string; queued_at : Z; request : ConversationPrompt }.

Record FollowUpQueue : Type := {
  q_items : list FollowUpItem;
  paused : bool;
  pause_reason : option string;
  pause_message : option string;
  resume_at : option Z;
  rate_limit_failures : N;
}.
Definition FollowUpQueue_default : FollowUpQueue :=
  {| q_items := []; paused := false; pause_reason := None; pause_message := None; resume_at := None;
     rate_limit_failures := 0 |}.

Inductive FollowUpAddOutcome : Type := Queued | Started (turn_id : string).

(** [text.chars().take(n).collect()] on UTF-8 text: a byte of the form
    [10xxxxxx] continues the character before it. *)
Fixpoint take_chars (n : nat) (text : string) : string :=
  match text with
  | EmptyString => EmptyString
  | String (Ascii.Ascii _ _ _ _ _ _ false true as c) rest => String c (take_chars n rest)
  | String c rest => match n with O => EmptyString | S n => String c (take_chars n rest) end
  end.

(** ** The queue itself *)
Module Queue.
Implicit Types self : FollowUpQueue.

Definition set_items (l : list FollowUpItem) self : FollowUpQueue :=
  {| q_items := l; paused := paused self; pause_reason := pause_reason self;
     pause_message := pause_message self; resume_at := resume_at self;
     rate_limit_failures := rate_limit_failures self |}.
Definition set_resume_at (t : option Z) self : FollowUpQueue :=
  {| q_items := q_items self; paused := paused self; pause_reason := pause_reason self;
     pause_message := pause_message self; resume_at := t;
     rate_limit_failures := rate_limit_failures self |}.
Definition set_failures (n : N) self : FollowUpQueue :=
  {| q_items := q_items self; paused := paused self; pause_reason := pause_reason self;
     pause_message := pause_message self; resume_at := resume_at self; rate_limit_failures := n |}.

Definition pause (reason : string) (message : option string) self : FollowUpQueue :=
  {| q_items := q_items self; paused := true; pause_reason := Some reason;
     pause_message := take_chars 1000 <$> message;
     resume_at := resume_at self; rate_limit_failures := rate_limit_failures self |}.
Definition unpause self : FollowUpQueue :=
  {| q_items := q_items self; paused := false; pause_reason := None; pause_message := None;
     resume_at := None; rate_limit_failures := rate_limit_failures self |}.

Definition reason_is (reason : string) self : bool :=
  match pause_reason self with Some r => String.eqb r reason | None => false end.
Definition rate_limited self : bool := paused self && reason_is RATE_LIMITED self.
Definition scheduled self : bool := paused self && reason_is SCHEDULED self.
Definition holds_items self : bool := match q_items self with [] => false | _ :: _ => true end.
Definition unpause_if_empty self : FollowUpQueue :=
  if negb (holds_items self) && negb (scheduled self) then unpause self else self.
Definition held_by_user self : bool :=
  paused self && match pause_reason self with Some r => one_of USER_HELD_PAUSES r | None => false end.
Definition is_idle self : bool :=
  negb (holds_items self) && negb (paused self) && (rate_limit_failures self =? 0).
End Queue.
Import Queue.

(** The client view ([snapshot]): no attachment content, only its count. *)
Record ItemView : Type := { v_id : string; v_text : string; v_queued_at : Z; v_count : nat; v_skills : list string }.
Record Snapshot : Type := {
  v_items : list ItemView; v_paused : bool; v_reason : option string; v_message : option string;
  v_resume_at : option Z;
}.
Definition snapshot (self : FollowUpQueue) : Snapshot :=
  {| v_items := (λ item, {| v_id := item_id item; v_text := p_text (request item);
                            v_queued_at := queued_at item; v_count := length (p_content (request item));
                            v_skills := skills (request item) |}) <$> q_items self;
     v_paused := paused self; v_reason := pause_reason self; v_message := pause_message self;
     v_resume_at := resume_at self |}.

(** [1u32.checked_shl(failures.saturating_sub(1)).unwrap_or(u32::MAX)], and the
    saturating duration arithmetic: the wait is at most [CHRONO_MAX], the
    result at most [MAX_UTC]. *)
Definition rate_limit_factor (failures : N) : N :=
  if failures - 1 <? 32 then N.shiftl 1 (failures - 1) else u32_MAX.
Definition rate_limit_resume_at (reset now : Z) (failures : N) (floor : Z) : Z :=
  let wait := Z.min (floor * Z.of_N (rate_limit_factor failures)) CHRONO_MAX in
  Z.max reset (Z.min (now + wait) MAX_UTC).

Definition validate_item_id (id : string) : result AppError unit :=
  guard_err (negb (String.eqb id "") && (N.of_nat (String.length id) <=? 200))
    (InvalidRequest "itemId must contain 1 to 200 bytes").

Definition is_continuation (id : string) : bool := String.prefix RATE_LIMIT_CONTINUE_PREFIX id.

Definition empty_prompt : ConversationPrompt :=
  {| permission_mode := None; work_mode := None; client_request_id := None; p_text := ""; p_model := None;
     reasoning_effort := None; skills := []; p_content := []; permission_profile := None;
     sandbox_mode := None; approval_policy := None |}.
Definition continuation_prompt (failed : option ConversationPrompt) (id : string) : ConversationPrompt :=
  let p := default empty_prompt failed in
  {| permission_mode := permission_mode p; work_mode := work_mode p; client_request_id := Some id;
     p_text := RATE_LIMIT_CONTINUE_TEXT; p_model := p_model p; reasoning_effort := reasoning_effort p;
     skills := []; p_content := []; permission_profile := permission_profile p;
     sandbox_mode := sandbox_mode p; approval_policy := approval_policy p |}.

(** ** The conversation *)
Record ConversationSchedule : Type := { at_ : Z; interrupted : bool }.
Definition schedule_is_active (s : ConversationSchedule) : bool := negb (interrupted s).

Inductive Timer : Type := RateLimitTimer (until : Z) | ScheduleTimer (at_ : Z).

Record Conv : Type := {
  queue : FollowUpQueue;                      (* [load_follow_ups] *)
  active : bool;                              (* a turn is running *)
  schedule : option ConversationSchedule;     (* of the manifest *)
  shutting_down : bool;
  started : list ConversationPrompt;          (* prompts turns were started with *)
  published : list Snapshot;                  (* [followups.updated] events *)
  timers : list Timer;                        (* spawned *)
}.
Definition set_queue (q : FollowUpQueue) (s : Conv) : Conv :=
  {| queue := q; active := active s; schedule := schedule s; shutting_down := shutting_down s;
     started := started s; published := published s; timers := timers s |}.
Definition add_timer (t : Timer) (s : Conv) : Conv :=
  {| queue := queue s; active := active s; schedule := schedule s; shutting_down := shutting_down s;
     started := started s; published := published s; timers := timers s ++ [t] |}.

(** What the surroundings of one operation answer. *)
Record Env : Type := {
  now : Z;
  owned : result AppError unit;                       (* [get_owned] *)
  writable : result AppError unit;                    (* [writable_owned] *)
  refuse_private : result AppError unit;
  get_ok : result AppError unit;                      (* [store.get] *)
  queue_bytes : FollowUpQueue → N;                    (* serialized size *)
  emit_ok : result AppError unit;
  set_schedule_ok : result AppError unit;
  delivered : string → result AppError (option string);
  prompt_ok : ConversationPrompt → result AppError string;   (* [prompt_inner] *)
  content_ok : ConversationPrompt → result AppError unit;    (* content and skills *)
  turn_request : string → result AppError (option ConversationPrompt);
  error_text : AppError → string;
  retry_floor : Z;
}.

Abbreviation Op := (M Conv AppError).
Implicit Types (e : Env) (q : FollowUpQueue) (s : Conv).

Definition commit_follow_ups e q : Op unit := λ s,
  if MAX_FOLLOW_UP_QUEUE_BYTES <? queue_bytes e q
  then (s, Err (ResourceExhausted ("the follow-up queue would hold " +:+ pretty (queue_bytes e q) +:+
                  " bytes, above the " +:+ pretty MAX_FOLLOW_UP_QUEUE_BYTES +:+ " byte limit")))
  else
    match get_ok e with
    | Err err => (s, Err err)
    | Ok _ => (set_queue (if is_idle q then FollowUpQueue_default else q) s, Ok tt)
    end.
Definition publish_follow_ups e q : Op unit := λ s,
  match emit_ok e with
  | Err err => (s, Err err)
  | Ok _ => ({| queue := queue s; active := active s; schedule := schedule s;
                shutting_down := shutting_down s; started := started s;
                published := published s ++ [snapshot q]; timers := timers s |}, Ok tt)
  end.
Definition save_follow_ups e q : Op unit := _ ← commit_follow_ups e q; publish_follow_ups e q.

Definition set_schedule e (sched : option ConversationSchedule) : Op unit := λ s,
  match set_schedule_ok e with
  | Err err => (s, Err err)
  | Ok _ => ({| queue := queue s; active := active s; schedule := sched;
                shutting_down := shutting_down s; started := started s; published := published s;
                timers := timers s |}, Ok tt)
  end.

(** [prompt_inner]: on success a turn runs and the journal has the prompt. *)
Definition prompt_inner e (p : ConversationPrompt) : Op string := λ s,
  match prompt_ok e p with
  | Err err => (s, Err err)
  | Ok turn => ({| queue := queue s; active := true; schedule := schedule s;
                   shutting_down := shutting_down s; started := started s ++ [p];
                   published := published s; timers := timers s |}, Ok turn)
  end.

(** ** Starting the head *)
Definition drain_body e : Op unit := λ s,
  match q_items (queue s) with
  | [] => (s, Ok tt)
  | head :: _ =>
      if paused (queue s) then (s, Ok tt)
      else
        match get_ok e with
        | Err err => (s, Err err)
        | Ok _ =>
            let q := queue s in
            match prompt_inner e (request head) s with
            | (s, Ok _) =>
                save_follow_ups e
                  (set_items (filter (λ item, String.eqb (item_id item) (item_id head) = false) (q_items q)) q) s
            | (s, Err err) =>
                save_follow_ups e (pause "start_failed" (Some (error_text e err)) q) s
            end
        end
  end.
Definition drain_follow_ups e s : Conv :=
  if shutting_down s then s else if active s then s else (drain_body e s).1.

(** ** Commands *)

(** Accepted prompts ([prompt.text.trim()], the size and the content). *)
Definition check_prompt e (p : ConversationPrompt) : result AppError unit :=
  let text := trim (p_text p) in
  _ ← guard_err (negb (String.eqb text "" && match skills p with [] => true | _ => false end &&
                       match p_content p with [] => true | _ => false end))
        (InvalidRequest "prompt cannot be empty");
  _ ← guard_err (N.of_nat (String.length text) <=? MAX_PROMPT_BYTES)
        (InvalidRequest ("prompt exceeds " +:+ pretty MAX_PROMPT_BYTES +:+ " bytes"));
  content_ok e p.

(** [queue_add_owned] under the gate, and whether it goes on to drain. *)
Definition queue_add_body e (id : string) (p : ConversationPrompt) (front hold : bool) :
    Op (FollowUpAddOutcome * bool) := λ s,
  let p := with_request_id id p in
  let q := queue s in
  if existsb (λ item, String.eqb (item_id item) id) (q_items q) then (s, Ok (Queued, false))
  else
    match delivered e id with
    | Err err => (s, Err err)
    | Ok (Some turn) => (s, Ok (Started turn, false))
    | Ok None =>
        let busy := active s in
        if negb busy && negb hold && negb (holds_items q) && negb (scheduled q) then
          match prompt_inner e p s with
          | (s, Ok turn) => (s, Ok (Started turn, false))
          | (s, Err err) => (s, Err err)
          end
        else if Nat.leb MAX_FOLLOW_UP_ITEMS (length (q_items q)) then
          (s, Err (ResourceExhausted ("the follow-up queue holds at most " +:+
                     pretty MAX_FOLLOW_UP_ITEMS +:+ " items")))
        else
          match check_prompt e p with
          | Err err => (s, Err err)
          | Ok _ =>
              let item := {| item_id := id; queued_at := now e; request := p |} in
              let q := set_items (if front then item :: q_items q else q_items q ++ [item]) q in
              let q := if hold && negb (held_by_user q) then pause USER_PAUSE None q else q in
              match save_follow_ups e q s with
              | (s, Err err) => (s, Err err)
              | (s, Ok _) => (s, Ok (Queued, negb busy && negb (paused q)))
              end
          end
    end.
Definition queue_add_owned e e' (id : string) (p : ConversationPrompt) (front hold : bool) :
    Op FollowUpAddOutcome := λ s,
  match (_ ← validate_item_id id; writable e) with
  | Err err => (s, Err err)
  | Ok _ =>
      match queue_add_body e id p front hold s with
      | (s, Err err) => (s, Err err)
      | (s, Ok (outcome, drain)) => ((if drain then drain_follow_ups e' s else s), Ok outcome)
      end
  end.

Definition queue_remove_owned e (id : string) : Op Snapshot := λ s,
  match (_ ← validate_item_id id; owned e) with
  | Err err => (s, Err err)
  | Ok _ =>
      let q := queue s in
      let l := filter (λ item, String.eqb (item_id item) id = false) (q_items q) in
      if Nat.eqb (length l) (length (q_items q)) then (s, Err (NotFound ("follow-up " +:+ id)))
      else
        let q := unpause_if_empty (set_items l q) in
        match save_follow_ups e q s with
        | (s, Err err) => (s, Err err)
        | (s, Ok _) => (s, Ok (snapshot q))
        end
  end.

(** The first item named [id], and the list without it. *)
Fixpoint take_item (id : string) (l : list FollowUpItem) : option (FollowUpItem * list FollowUpItem) :=
  match l with
  | [] => None
  | item :: l =>
      if String.eqb (item_id item) id then Some (item, l)
      else match take_item id l with Some (x, l) => Some (x, item :: l) | None => None end
  end.
Definition queue_take_owned e (id : string) : Op (FollowUpItem * Snapshot) := λ s,
  match (_ ← validate_item_id id; owned e) with
  | Err err => (s, Err err)
  | Ok _ =>
      match take_item id (q_items (queue s)) with
      | None => (s, Err (NotFound ("follow-up " +:+ id)))
      | Some (item, l) =>
          let q := unpause_if_empty (set_items l (queue s)) in
          match commit_follow_ups e q s with
          | (s, Err err) => (s, Err err)
          | (s, Ok _) => ((publish_follow_ups e q s).1, Ok (item, snapshot q))
          end
      end
  end.

Definition queue_pause_owned e : Op Snapshot := λ s,
  match owned e with
  | Err err => (s, Err err)
  | Ok _ =>
      let q := queue s in
      if negb (holds_items q) || held_by_user q then (s, Ok (snapshot q))
      else
        let q := pause USER_PAUSE None q in
        match save_follow_ups e q s with
        | (s, Err err) => (s, Err err)
        | (s, Ok _) => (s, Ok (snapshot q))
        end
  end.

Definition queue_clear_owned e : Op Snapshot := λ s,
  match owned e with
  | Err err => (s, Err err)
  | Ok _ =>
      let q := unpause_if_empty (set_items [] (queue s)) in
      match save_follow_ups e q s with
      | (s, Err err) => (s, Err err)
      | (s, Ok _) => (s, Ok (snapshot q))
      end
  end.

(** [queue_resume_owned] under the gate; it drains afterwards when it succeeds. *)
Definition queue_resume_body e : Op Snapshot := λ s,
  match writable e with
  | Err err => (s, Err err)
  | Ok _ =>
      let q := queue s in
      if paused q then
        match (if scheduled q then set_schedule e None else mret tt) s with
        | (s, Err err) => (s, Err err)
        | (s, Ok _) =>
            let q := unpause q in
            match save_follow_ups e q s with
            | (s, Err err) => (s, Err err)
            | (s, Ok _) => (s, Ok (snapshot q))
            end
        end
      else (s, Ok (snapshot q))
  end.
Definition queue_resume_owned e e' : Op Snapshot := λ s,
  match queue_resume_body e s with
  | (s, Err err) => (s, Err err)
  | (s, Ok view) => (drain_follow_ups e' s, Ok view)
  end.

Definition cancel_schedule e : Op Snapshot := λ s,
  match set_schedule e None s with
  | (s, Err err) => (s, Err err)
  | (s, Ok _) =>
      let q := queue s in
      if scheduled q then
        let q := unpause q in
        let q := if holds_items q then pause USER_PAUSE None q else q in
        match save_follow_ups e q s with
        | (s, Err err) => (s, Err err)
        | (s, Ok _) => (s, Ok (snapshot q))
        end
      else (s, Ok (snapshot q))
  end.

Definition schedule_owned e (at_ : option Z) : Op (Snapshot * option ConversationSchedule) := λ s,
  match at_ with
  | None =>
      match owned e with
      | Err err => (s, Err err)
      | Ok _ => match cancel_schedule e s with
                | (s, Err err) => (s, Err err)
                | (s, Ok view) => (s, Ok (view, None))
                end
      end
  | Some t =>
      match (_ ← writable e; refuse_private e) with
      | Err err => (s, Err err)
      | Ok _ =>
          if (t <=? now e)%Z then (s, Err (InvalidRequest "at must be in the future"))
          else if (now e + MAX_SCHEDULE_AHEAD_DAYS * DAY <? t)%Z
          then (s, Err (InvalidRequest "at must be at most 366 days ahead"))
          else if active s then (s, Err (Conflict "a running conversation cannot be scheduled"))
          else
            let sched := {| at_ := t; interrupted := false |} in
            let q := queue s in
            match set_schedule e (Some sched) s with
            | (s, Err err) => (s, Err err)
            | (s, Ok _) =>
                let q := set_resume_at (Some t) (pause SCHEDULED None q) in
                match save_follow_ups e q s with
                | (s, Err err) => (s, Err err)
                | (s, Ok _) => (add_timer (ScheduleTimer t) s, Ok (snapshot q, Some sched))
                end
            end
      end
  end.

Definition ensure_not_scheduled e s : result AppError unit :=
  _ ← get_ok e;
  guard_err (negb match schedule s with Some sched => schedule_is_active sched | None => false end)
    (InvalidRequest SCHEDULED_PROMPT_ERROR).

Definition interrupt_schedule e s : Conv :=
  match get_ok e with
  | Err _ => s
  | Ok _ =>
      match schedule s with
      | Some sched => if schedule_is_active sched
                      then (set_schedule e (Some {| at_ := at_ sched; interrupted := true |}) s).1 else s
      | None => s
      end
  end.

Definition queue_list_owned e s : result AppError Snapshot := _ ← owned e; Ok (snapshot (queue s)).

(** ** After a turn *)
Definition pause_follow_ups e (reason : string) (message : option string) s : Conv :=
  let q := queue s in
  if negb (holds_items q) || paused q then s else (save_follow_ups e (pause reason message q) s).1.

Definition GAVE_UP : string :=
  "The provider usage limit was still reached after 3 automatic continuations, so TodeX stopped continuing on its own. Resume the queue or send a message to try again.".

(** The turn that failed was itself a continuation. *)
Definition was_continuation (failed : option ConversationPrompt) : bool :=
  match failed with
  | Some p => match client_request_id p with Some id => is_continuation id | None => false end
  | None => false
  end.

(** [wait_for_rate_limit_reset] under the gate: when to set a timer. *)
Definition rate_limit_body e (turn_id : string) (until : Z) : Op (option Z) := λ s,
  match turn_request e turn_id with
  | Err err => (s, Err err)
  | Ok failed =>
      let q := queue s in
      let q := set_failures (if was_continuation failed
                             then N.min (rate_limit_failures q + 1) u32_MAX else 0) q in
      let held := held_by_user q in
      if MAX_RATE_LIMIT_CONTINUATIONS <=? rate_limit_failures q then
        let q := if held then q else set_resume_at None (pause "turn_failed" (Some GAVE_UP) q) in
        match save_follow_ups e q s with
        | (s, Err err) => (s, Err err)
        | (s, Ok _) => (s, Ok None)
        end
      else
        let resume := rate_limit_resume_at until (now e) (rate_limit_failures q) (retry_floor e) in
        let q :=
          if existsb (λ item, is_continuation (item_id item)) (q_items q) then q
          else
            let id := RATE_LIMIT_CONTINUE_PREFIX +:+ turn_id in
            set_items ({| item_id := id; queued_at := now e; request := continuation_prompt failed id |}
                         :: q_items q) q in
        let q := if held then q else pause RATE_LIMITED None q in
        let q := set_resume_at (Some resume) q in
        match save_follow_ups e q s with
        | (s, Err err) => (s, Err err)
        | (s, Ok _) => (s, Ok (if held then None else Some resume))
        end
  end.
Definition wait_for_rate_limit_reset e (turn_id : string) (until : Z) s : Conv :=
  match rate_limit_body e turn_id until s with
  | (s, Ok (Some resume)) => add_timer (RateLimitTimer resume) s
  | (s, Ok None) => s
  | (s, Err _) => pause_follow_ups e "turn_failed" None s
  end.

Definition resume_after_rate_limit e e' (until : Z) s : Conv :=
  if shutting_down s then s
  else if negb (rate_limited (queue s)) || negb (bool_decide (resume_at (queue s) = Some until)) then s
  else
    match save_follow_ups e (unpause (queue s)) s with
    | (s, Err _) => s
    | (s, Ok _) => drain_follow_ups e' s
    end.

Definition send_scheduled e e' (t : Z) s : Conv :=
  if shutting_down s then s
  else if negb (scheduled (queue s)) || negb (bool_decide (resume_at (queue s) = Some t)) then s
  else
    let q := queue s in
    match set_schedule e None s with
    | (s, Err _) => s
    | (s, Ok _) =>
        match save_follow_ups e (unpause q) s with
        | (s, Err _) => s
        | (s, Ok _) => drain_follow_ups e' s
        end
    end.

(** The queue [settle_rate_limit_after_completion] saves, when it changed. *)
Definition settled_queue q : option FollowUpQueue :=
  let gave_up := (MAX_RATE_LIMIT_CONTINUATIONS <=? rate_limit_failures q) && paused q &&
                 reason_is "turn_failed" q in
  let lifted := rate_limited q || gave_up in
  let q' := if lifted
            then unpause (set_items (filter (λ item, is_continuation (item_id item) = false) (q_items q)) q)
            else q in
  if lifted || negb (rate_limit_failures q' =? 0) then Some (set_failures 0 q') else None.
Definition settle_rate_limit_after_completion e s : Conv :=
  match settled_queue (queue s) with
  | None => s
  | Some q => (save_follow_ups e q s).1
  end.

(** [after_turn]; [exhausted] is what the quota tracker knows of the turn. *)
Definition after_turn e e' (turn_id : option string) (exhausted : option Z) (terminal : string) s : Conv :=
  if one_of ["turn.completed"; "compaction.finished"] terminal then
    drain_follow_ups e'
      (if String.eqb terminal "turn.completed" then settle_rate_limit_after_completion e s else s)
  else
    match turn_id, exhausted, String.eqb terminal "turn.failed" with
    | Some turn_id, Some until, true => wait_for_rate_limit_reset e turn_id until s
    | _, _, _ =>
        let reason := if String.eqb terminal "turn.cancelled" then "turn_cancelled"
                      else if String.eqb terminal "turn.interrupted" then "turn_interrupted"
                      else "turn_failed" in
        pause_follow_ups e reason None s
    end.

(** [import_legacy_follow_ups]; [file] is the parsed [queue.json], [removed]
    what deleting it answers. *)
Definition import_legacy_follow_ups e (file : result AppError (option FollowUpQueue))
    (removed : result AppError unit) s : Conv :=
  match file with
  | Err _ | Ok None => s
  | Ok (Some q) =>
      if holds_items q then
        let q := set_resume_at None (pause "daemon_restarted" None q) in
        match commit_follow_ups e q s with
        | (s, Err _) => s
        | (s, Ok _) => match removed with Err _ => s | Ok _ => (publish_follow_ups e q s).1 end
        end
      else s
  end.

(** ** Everything that happens to a conversation's queue *)
Inductive FollowUpOp : Type :=
  | Add e e' (id : string) (p : ConversationPrompt) (front hold : bool)
  | Remove e (id : string)
  | Take e (id : string)
  | Pause e
  | Clear e
  | Resume e e'
  | Schedule e (at_ : option Z)
  | AfterTurn e e' (turn_id : option string) (exhausted : option Z) (terminal : string)
  | Drain e
  | RateLimitFired e e' (until : Z)
  | ScheduleFired e e' (t : Z)
  | Import e (file : result AppError (option FollowUpQueue)) (removed : result AppError unit)
  | Prompt e (p : ConversationPrompt)         (* a turn started outside the queue *)
  | Released                                  (* the running turn let go of the conversation *)
  | Shutdown.

Definition set_flags (act down : bool) s : Conv :=
  {| queue := queue s; active := act; schedule := schedule s; shutting_down := down;
     started := started s; published := published s; timers := timers s |}.

Definition run_op (op : FollowUpOp) s : Conv :=
  match op with
  | Add e e' id p front hold => (queue_add_owned e e' id p front hold s).1
  | Remove e id => (queue_remove_owned e id s).1
  | Take e id => (queue_take_owned e id s).1
  | Pause e => (queue_pause_owned e s).1
  | Clear e => (queue_clear_owned e s).1
  | Resume e e' => (queue_resume_owned e e' s).1
  | Schedule e t => (schedule_owned e t s).1
  | AfterTurn e e' turn ex terminal => after_turn e e' turn ex terminal s
  | Drain e => drain_follow_ups e s
  | RateLimitFired e e' until => resume_after_rate_limit e e' until s
  | ScheduleFired e e' t => send_scheduled e e' t s
  | Import e file removed => import_legacy_follow_ups e file removed s
  | Prompt e p => match ensure_not_scheduled e s with Ok _ => (prompt_inner e p s).1 | Err _ => s end
  | Released => set_flags false (shutting_down s) s
  | Shutdown => set_flags (active s) true s
  end.

(** *** Saving *)
Definition stored q : FollowUpQueue := if is_idle q then FollowUpQueue_default else q.

(** A save leaves the queue alone or stores the new one, and touches nothing
    else that matters here. *)
Definition saved q s s' : Prop :=
  (queue s' = queue s ∨ queue s' = stored q) ∧
  active s' = active s ∧ started s' = started s ∧ shutting_down s' = shutting_down s ∧
  schedule s' = schedule s ∧ timers s' = timers s.

Lemma commit_cases e q s s' r :
  commit_follow_ups e q s = (s', r) → saved q s s' ∧ (r = Ok tt → queue s' = stored q).
Proof.
  unfold commit_follow_ups. destruct (_ <? _); [intros [= <- <-]; split; [by split; [left|]|done]|].
  destruct (get_ok e); intros [= <- <-]; (split; [|done]); split_and!; simpl; auto.
Qed.

Lemma publish_same e q s : queue (publish_follow_ups e q s).1 = queue s ∧
  active (publish_follow_ups e q s).1 = active s ∧ started (publish_follow_ups e q s).1 = started s ∧
  shutting_down (publish_follow_ups e q s).1 = shutting_down s ∧
  schedule (publish_follow_ups e q s).1 = schedule s ∧ timers (publish_follow_ups e q s).1 = timers s.
Proof. unfold publish_follow_ups. by destruct (emit_ok e). Qed.

Lemma commit_publish_saved e q s s1 u :
  commit_follow_ups e q s = (s1, Ok u) → saved q s (publish_follow_ups e q s1).1.
Proof.
  intros [(Hq & Ha & Hs & Hd & Hsc & Ht) _]%commit_cases.
  unfold saved. destruct (publish_same e q s1) as (-> & -> & -> & -> & -> & ->). by split_and!.
Qed.

Lemma save_cases e q s s' r : save_follow_ups e q s = (s', r) → saved q s s' ∧ (r = Ok tt → queue s' = stored q).
Proof.
  unfold save_follow_ups, mbind, M_bind. destruct (commit_follow_ups e q s) as [s1 [u|err]] eqn:Hc.
  - intros Hp. pose proof (commit_publish_saved _ _ _ _ _ Hc) as Hsaved.
    apply commit_cases in Hc as [_ Hst]. pose proof (publish_same e q s1) as (Hq & _).
    rewrite Hp in Hsaved, Hq. simpl in *. split; [done|]. intros _. rewrite Hq. apply Hst. by destruct u.
  - intros [= <- <-]. apply commit_cases in Hc as [? _]. by split.
Qed.

(** *** Well-formed queues *)
Record queue_ok q : Prop := {
  ok_ids : NoDup (item_id <$> q_items q);
  ok_requests : Forall (λ item, client_request_id (request item) = Some (item_id item)) (q_items q);
  ok_length : (length (q_items q) ≤ MAX_FOLLOW_UP_ITEMS)%nat ∨
              ((length (q_items q) ≤ S MAX_FOLLOW_UP_ITEMS)%nat ∧
               existsb (λ item, is_continuation (item_id item)) (q_items q) = true);
  ok_unpaused : paused q = false → pause_reason q = None ∧ pause_message q = None ∧ resume_at q = None;
  ok_paused : paused q = true → is_Some (pause_reason q);
}.

Lemma default_ok : queue_ok FollowUpQueue_default.
Proof. split; try done; try constructor. simpl. unfold MAX_FOLLOW_UP_ITEMS. lia. Qed.

Lemma stored_ok q : queue_ok q → queue_ok (stored q).
Proof. unfold stored. destruct (is_idle q); [intros _; apply default_ok|done]. Qed.

Lemma saved_ok q s s' : saved q s s' → queue_ok (queue s) → queue_ok q → queue_ok (queue s').
Proof. intros [[-> | ->] _] ? ?; [done|by apply stored_ok]. Qed.

Lemma pause_ok reason m q : queue_ok q → queue_ok (pause reason m q).
Proof. intros []. by split; simpl. Qed.
Lemma unpause_ok q : queue_ok q → queue_ok (unpause q).
Proof. intros []. by split; simpl. Qed.
Lemma failures_ok n q : queue_ok q → queue_ok (set_failures n q).
Proof. intros []. by split; simpl. Qed.
Lemma resume_at_ok t q : queue_ok q → t = None ∨ paused q = true → queue_ok (set_resume_at t q).
Proof.
  intros [? ? ? Hu ?] Ht. split; simpl; try done. intros Hp. destruct (Hu Hp) as (? & ? & ?).
  destruct Ht as [->|Ht]; [done|congruence].
Qed.

Lemma sublist_full {A} (l k : list A) : l `sublist_of` k → (length k ≤ length l)%nat → l = k.
Proof.
  induction 1 as [|x l k Hs IH|x l k Hs IH]; simpl; intros Hlen; [done| |].
  - f_equal. apply IH. lia.
  - apply sublist_length in Hs. lia.
Qed.

Lemma sublist_ok l q : l `sublist_of` q_items q → queue_ok q → queue_ok (set_items l q).
Proof.
  intros Hsub [Hids Hreq Hlen Hu Hp]. split; simpl; try done.
  - eapply sublist_NoDup; [exact Hids|]. by apply fmap_sublist.
  - apply Forall_forall. intros x Hx. apply (proj1 (Forall_forall _ _) Hreq). by eapply elem_of_sublist.
  - pose proof (sublist_length _ _ Hsub). destruct Hlen as [?|[Hle Hc]]; [left; lia|].
    destruct (decide (length l = length (q_items q))) as [Heq|]; [|left; lia].
    assert (l = q_items q) as -> by (apply sublist_full; [done|lia]). by right.
Qed.

Lemma unpause_if_empty_ok q : queue_ok q → queue_ok (unpause_if_empty q).
Proof. intros ?. unfold unpause_if_empty. destruct (_ && _); [by apply unpause_ok|done]. Qed.
Lemma new_id_not_in q id : existsb (λ item, String.eqb (item_id item) id) (q_items q) = false →
  id ∉ item_id <$> q_items q.
Proof.
  intros Hex (item & -> & Hin)%list_elem_of_fmap. rewrite <-not_true_iff_false, existsb_exists in Hex.
  apply Hex. exists item. rewrite <-list_elem_of_In, String.eqb_eq. done.
Qed.

Lemma insert_ok item l q :
  queue_ok q → l ≡ₚ item :: q_items q → item_id item ∉ item_id <$> q_items q →
  client_request_id (request item) = Some (item_id item) →
  ((length (q_items q) < MAX_FOLLOW_UP_ITEMS)%nat ∨
   (is_continuation (item_id item) = true ∧
    existsb (λ item, is_continuation (item_id item)) (q_items q) = false)) →
  queue_ok (set_items l q).
Proof.
  intros [Hids Hreq Hlen Hu Hp] Hl Hnew Hr Hcap. split; simpl; try done.
  - rewrite Hl, fmap_cons. by constructor.
  - rewrite Hl. by constructor.
  - assert (Hll : length l = S (length (q_items q))) by by rewrite Hl. rewrite Hll.
    destruct Hcap as [?|[Hc Hno]]; [left; lia|]. destruct Hlen as [?|[? Hyes]]; [|congruence].
    right. split; [lia|]. apply existsb_exists. exists item. split; [|done].
    rewrite <-list_elem_of_In, Hl. by left.
Qed.

(** *** What each operation does to the queue *)

(** Nothing starts, and the queue is left alone or replaced by one of [Q]. *)
Definition edits (Q : FollowUpQueue → Prop) s s' : Prop :=
  active s' = active s ∧ started s' = started s ∧
  (queue s' = queue s ∨ ∃ q', Q q' ∧ queue s' = stored q').

Lemma edits_refl Q s : edits Q s s.
Proof. split_and!; auto. Qed.
Lemma saved_edits (Q : FollowUpQueue → Prop) q s s' : saved q s s' → Q q → edits Q s s'.
Proof. intros ([?|?] & ? & ? & _) HQ; split_and!; eauto. Qed.
Lemma save_edits (Q : FollowUpQueue → Prop) e q s s' r :
  save_follow_ups e q s = (s', r) → Q q → edits Q s s'.
Proof. intros [Hs _]%save_cases. by apply saved_edits. Qed.

Lemma set_schedule_same e o s s' r :
  set_schedule e o s = (s', r) → queue s' = queue s ∧ active s' = active s ∧ started s' = started s.
Proof. unfold set_schedule. by destruct (set_schedule_ok e); intros [= <- <-]. Qed.

Lemma remove_edits e id s :
  edits (λ q', q' = unpause_if_empty (set_items
    (filter (λ item, String.eqb (item_id item) id = false) (q_items (queue s))) (queue s)))
    s (queue_remove_owned e id s).1.
Proof.
  unfold queue_remove_owned. destruct (validate_item_id id ≫= _); [|apply edits_refl].
  destruct (Nat.eqb _ _); [apply edits_refl|].
  destruct (save_follow_ups _ _ s) as [s' [u|err]] eqn:Hs; by eapply save_edits; [exact Hs|].
Qed.

Lemma take_edits e id s :
  edits (λ q', ∃ item l, take_item id (q_items (queue s)) = Some (item, l) ∧
           q' = unpause_if_empty (set_items l (queue s))) s (queue_take_owned e id s).1.
Proof.
  unfold queue_take_owned. destruct (validate_item_id id ≫= _); [|apply edits_refl].
  destruct (take_item id (q_items (queue s))) as [[item l]|]; [|apply edits_refl].
  destruct (commit_follow_ups e _ s) as [s' [u|err]] eqn:Hc; simpl.
  - apply commit_publish_saved in Hc. eapply saved_edits; eauto.
  - apply commit_cases in Hc as [Hc _]. eapply saved_edits; eauto.
Qed.

Lemma pause_edits e s :
  edits (λ q', held_by_user (queue s) = false ∧ q' = pause USER_PAUSE None (queue s)) s (queue_pause_owned e s).1.
Proof.
  unfold queue_pause_owned. destruct (owned e); [|apply edits_refl].
  destruct (negb (holds_items (queue s)) || held_by_user (queue s)) eqn:Hb; [apply edits_refl|].
  apply orb_false_iff in Hb as [_ Hb].
  destruct (save_follow_ups _ _ s) as [s' [u|err]] eqn:Hs; by eapply save_edits; [exact Hs|].
Qed.

Lemma clear_edits e s :
  edits (λ q', q' = unpause_if_empty (set_items [] (queue s))) s (queue_clear_owned e s).1.
Proof.
  unfold queue_clear_owned. destruct (owned e); [|apply edits_refl].
  destruct (save_follow_ups _ _ s) as [s' [u|err]] eqn:Hs; by eapply save_edits; [exact Hs|].
Qed.

Lemma edits_from (Q : FollowUpQueue → Prop) s s1 s' :
  queue s1 = queue s ∧ active s1 = active s ∧ started s1 = started s → edits Q s1 s' → edits Q s s'.
Proof. intros (Hq & Ha & Hs) (Ha' & Hs' & Hq'). unfold edits. by rewrite <-Hq, <-Ha, <-Hs. Qed.

Lemma resume_edits e s : edits (λ q', q' = unpause (queue s)) s (queue_resume_body e s).1.
Proof.
  unfold queue_resume_body. destruct (writable e); [|apply edits_refl].
  destruct (paused (queue s)); [|apply edits_refl].
  destruct ((if scheduled (queue s) then set_schedule e None else mret tt) s) as [s1 r] eqn:H1.
  assert (Hsame : queue s1 = queue s ∧ active s1 = active s ∧ started s1 = started s).
  { destruct (scheduled (queue s)); [by eapply set_schedule_same|by injection H1 as <- <-]. }
  destruct r; simpl; [|eapply edits_from; [done|apply edits_refl]].
  destruct (save_follow_ups _ _ s1) as [s' [u|err]] eqn:Hs; simpl;
    (eapply edits_from; [done|by eapply save_edits; [exact Hs|]]).
Qed.

Lemma schedule_edits e t s :
  edits (λ q', (∃ x, t = Some x ∧ q' = set_resume_at t (pause SCHEDULED None (queue s))) ∨
               (t = None ∧ scheduled (queue s) = true ∧
                q' = (if holds_items (queue s) then pause USER_PAUSE None (unpause (queue s))
                      else unpause (queue s))))
    s (schedule_owned e t s).1.
Proof.
  unfold schedule_owned. destruct t as [t|].
  - destruct (writable e ≫= _); [|apply edits_refl]. destruct (t <=? now e)%Z; [apply edits_refl|].
    destruct (_ <? t)%Z; [apply edits_refl|]. destruct (active s); [apply edits_refl|].
    destruct (set_schedule e _ s) as [s1 [u|err]] eqn:H1; apply set_schedule_same in H1;
      (eapply edits_from; [exact H1|]); simpl; [|apply edits_refl].
    destruct (save_follow_ups _ _ s1) as [s' r] eqn:Hs.
    apply (save_edits (λ q', ∃ x, Some t = Some x ∧ q' = set_resume_at (Some t) (pause SCHEDULED None (queue s))))
      in Hs as (? & ? & Hq); [|eauto].
    destruct r; (split_and!; [done..|]); (destruct Hq as [?|(q' & ? & ?)]; [by left|right; eauto]).
  - destruct (owned e); [|apply edits_refl]. unfold cancel_schedule.
    destruct (set_schedule e None s) as [s1 [u|err]] eqn:H1; apply set_schedule_same in H1;
      (eapply edits_from; [exact H1|]); simpl; [|apply edits_refl].
    rewrite (proj1 H1). destruct (scheduled (queue s)) eqn:Hsch; [|apply edits_refl].
    destruct (save_follow_ups _ _ s1) as [s' [v|err]] eqn:Hs; (eapply save_edits; [exact Hs|by right]).
Qed.

Lemma pause_follow_ups_edits e reason m s :
  edits (λ q', paused (queue s) = false ∧ q' = pause reason m (queue s)) s (pause_follow_ups e reason m s).
Proof.
  unfold pause_follow_ups. destruct (_ || _) eqn:Hb; [apply edits_refl|].
  apply orb_false_iff in Hb as [_ Hb].
  destruct (save_follow_ups _ _ s) as [s' r] eqn:Hs. by eapply save_edits; [exact Hs|].
Qed.

Lemma settle_edits e s :
  edits (λ q', settled_queue (queue s) = Some q') s (settle_rate_limit_after_completion e s).
Proof.
  unfold settle_rate_limit_after_completion. destruct (settled_queue (queue s)); [|apply edits_refl].
  destruct (save_follow_ups _ _ s) as [s' r] eqn:Hs. by eapply save_edits; [exact Hs|].
Qed.

Lemma import_edits e file removed s :
  edits (λ q', ∃ q, file = Ok (Some q) ∧ holds_items q = true ∧
           q' = set_resume_at None (pause "daemon_restarted" None q))
    s (import_legacy_follow_ups e file removed s).
Proof.
  unfold import_legacy_follow_ups. destruct file as [[q|]|]; [|apply edits_refl..].
  destruct (holds_items q) eqn:Hh; [|apply edits_refl].
  destruct (commit_follow_ups e _ s) as [s' [u|err]] eqn:Hc.
  - destruct removed.
    + apply commit_publish_saved in Hc. eapply saved_edits; eauto.
    + apply commit_cases in Hc as [Hc _]. eapply saved_edits; eauto.
  - apply commit_cases in Hc as [Hc _]. eapply saved_edits; eauto.
Qed.

(** The queues a rate-limited turn can leave. *)
Definition limited_queue e (turn_id : string) (until : Z) (failed : option ConversationPrompt) q : FollowUpQueue :=
  let q := set_failures (if was_continuation failed then N.min (rate_limit_failures q + 1) u32_MAX else 0) q in
  let held := held_by_user q in
  if MAX_RATE_LIMIT_CONTINUATIONS <=? rate_limit_failures q then
    if held then q else set_resume_at None (pause "turn_failed" (Some GAVE_UP) q)
  else
    let q' := if existsb (λ item, is_continuation (item_id item)) (q_items q) then q
              else set_items ({| item_id := RATE_LIMIT_CONTINUE_PREFIX +:+ turn_id; queued_at := now e;
                                 request := continuation_prompt failed (RATE_LIMIT_CONTINUE_PREFIX +:+ turn_id) |}
                                :: q_items q) q in
    set_resume_at (Some (rate_limit_resume_at until (now e) (rate_limit_failures q) (retry_floor e)))
      (if held then q' else pause RATE_LIMITED None q').

Lemma rate_limit_body_edits e turn until s :
  edits (λ q', ∃ failed, turn_request e turn = Ok failed ∧ q' = limited_queue e turn until failed (queue s))
    s (rate_limit_body e turn until s).1.
Proof.
  unfold rate_limit_body. destruct (turn_request e turn) as [failed|]; [|apply edits_refl].
  cbv zeta. destruct (MAX_RATE_LIMIT_CONTINUATIONS <=? _) eqn:Hm.
  - destruct (save_follow_ups _ _ s) as [s' [u|err]] eqn:Hs; 
      (eapply save_edits; [exact Hs|]); exists failed; (split; [done|]); unfold limited_queue; cbv zeta; by rewrite Hm.
  - destruct (save_follow_ups _ _ s) as [s' [u|err]] eqn:Hs; 
      (eapply save_edits; [exact Hs|]); exists failed; (split; [done|]); unfold limited_queue; cbv zeta; by rewrite Hm.
Qed.

(** Starting the head: only an idle, unpaused conversation does, and it removes
    the head when it started, or keeps it and pauses when it could not. *)
Lemma drain_cases e s :
  let s' := drain_follow_ups e s in
  let q := queue s in
  s' = s ∨ ∃ head rest, q_items q = head :: rest ∧ paused q = false ∧ active s = false ∧ shutting_down s = false ∧
    ((started s' = started s ++ [request head] ∧
      (queue s' = q ∨ queue s' = stored (set_items
         (filter (λ item, String.eqb (item_id item) (item_id head) = false) (q_items q)) q))) ∨
     (started s' = started s ∧ ∃ m, queue s' = q ∨ queue s' = stored (pause "start_failed" m q))).
Proof.
  unfold drain_follow_ups. destruct (shutting_down s) eqn:Hd; [by left|]. destruct (active s) eqn:Ha; [by left|].
  unfold drain_body. destruct (q_items (queue s)) as [|head rest] eqn:Hi; [by left|].
  destruct (paused (queue s)) eqn:Hp; [by left|]. destruct (get_ok e); [|by left].
  right. exists head, rest. split_and!; [done..|].
  unfold prompt_inner. destruct (prompt_ok e (request head)) as [turn|err].
  - left. rewrite <-Hi. destruct (save_follow_ups e _ _) as [s' r] eqn:Hs.
    apply save_cases in Hs as [(Hq & _ & Hst & _) _]. by split.
  - right. destruct (save_follow_ups e _ _) as [s' r] eqn:Hs.
    apply save_cases in Hs as [(Hq & _ & Hst & _) _]. split; [done|]. by eexists.
Qed.

(** The queue with one more item, held when the client asked for it. *)
Definition added_queue e (id : string) (p : ConversationPrompt) (front hold : bool) q : FollowUpQueue :=
  let item := {| item_id := id; queued_at := now e; request := with_request_id id p |} in
  let q := set_items (if front then item :: q_items q else q_items q ++ [item]) q in
  if hold && negb (held_by_user q) then pause USER_PAUSE None q else q.

Lemma add_body_cases e id p front hold s :
  let s' := (queue_add_body e id p front hold s).1 in
  edits (λ q', existsb (λ item, String.eqb (item_id item) id) (q_items (queue s)) = false ∧
            (length (q_items (queue s)) < MAX_FOLLOW_UP_ITEMS)%nat ∧ q' = added_queue e id p front hold (queue s)) s s' ∨
  (holds_items (queue s) = false ∧ queue s' = queue s ∧ started s' = started s ++ [with_request_id id p]).
Proof.
  unfold queue_add_body. cbv zeta.
  destruct (existsb _ (q_items (queue s))) eqn:Hex; [left; apply edits_refl|].
  destruct (delivered e id) as [[turn|]|]; [left; apply edits_refl| |left; apply edits_refl].
  destruct (_ && _ && _ && _) eqn:Hidle.
  - unfold prompt_inner. destruct (prompt_ok e _); [|left; apply edits_refl]. right.
    rewrite !andb_true_iff, !negb_true_iff in Hidle. simpl. by destruct Hidle as [[_ ?] _].
  - left. destruct (Nat.leb_spec MAX_FOLLOW_UP_ITEMS (length (q_items (queue s)))); [apply edits_refl|].
    destruct (check_prompt e _); [|apply edits_refl].
    destruct (save_follow_ups e _ s) as [s' [u|err]] eqn:Hs; (eapply save_edits; [exact Hs|by split_and!]).
Qed.

Lemma edits_ok (Q : FollowUpQueue → Prop) s s' :
  edits Q s s' → (∀ q', Q q' → queue_ok q') → queue_ok (queue s) → queue_ok (queue s').
Proof. intros (_ & _ & [->|(q' & HQ & ->)]) Hall Hok; [done|]. by apply stored_ok, Hall. Qed.

Lemma drain_ok e s : queue_ok (queue s) → queue_ok (queue (drain_follow_ups e s)).
Proof.
  intros Hok. destruct (drain_cases e s) as [->|(head & rest & _ & _ & _ & _ &
    [[_ [->| ->]]|[_ (m & [->| ->])]])]; try done; apply stored_ok.
  - apply sublist_ok; [apply sublist_filter|done].
  - by apply pause_ok.
Qed.

Lemma added_ok e id p front hold q :
  queue_ok q → existsb (λ item, String.eqb (item_id item) id) (q_items q) = false →
  (length (q_items q) < MAX_FOLLOW_UP_ITEMS)%nat → queue_ok (added_queue e id p front hold q).
Proof.
  intros Hok Hex Hlen. unfold added_queue.
  set (item := {| item_id := id; queued_at := now e; request := with_request_id id p |}).
  assert (Hq : queue_ok (set_items (if front then item :: q_items q else q_items q ++ [item]) q)).
  { apply (insert_ok item); [done| |by apply new_id_not_in|done|by left].
    destruct front; [done|]. by rewrite Permutation_app_comm. }
  cbv zeta. destruct (hold && _); [by apply pause_ok|done].
Qed.

Lemma prefix_append a b : String.prefix a (a +:+ b) = true.
Proof.
  induction a as [|c a IH]; [by destruct b|].
  change (String.prefix (String c a) (String c (a +:+ b)) = true). simpl. by destruct (Ascii.ascii_dec c c).
Qed.

Lemma limited_ok e turn until failed q : queue_ok q → queue_ok (limited_queue e turn until failed q).
Proof.
  intros Hok. unfold limited_queue. cbv zeta. set (n := if was_continuation failed then _ else 0).
  apply (failures_ok n) in Hok. set (q1 := set_failures n q) in *.
  destruct (MAX_RATE_LIMIT_CONTINUATIONS <=? _).
  { destruct (held_by_user q1); [done|]. apply resume_at_ok; [by apply pause_ok|by left]. }
  set (q2 := if existsb _ (q_items q1) then q1 else _).
  assert (H2 : queue_ok q2 ∧ paused q2 = paused q1).
  { unfold q2. destruct (existsb _ (q_items q1)) eqn:Hex; [done|]. split; [|done].
    eapply insert_ok; [done|done| |done|right; split; [apply prefix_append|exact Hex]]. simpl.
    intros (item & Heq & Hin)%list_elem_of_fmap. rewrite <-not_true_iff_false, existsb_exists in Hex.
    apply Hex. exists item. rewrite <-list_elem_of_In. split; [done|]. rewrite <-Heq. apply prefix_append. }
  destruct H2 as [H2 Hp]. destruct (held_by_user q1) eqn:Hh.
  - apply resume_at_ok; [done|right]. rewrite Hp. unfold held_by_user in Hh. by destruct (paused q1).
  - apply resume_at_ok; [by apply pause_ok|by right].
Qed.

Lemma settled_ok q q' : queue_ok q → settled_queue q = Some q' → queue_ok q'.
Proof.
  intros Hok. unfold settled_queue. cbv zeta. set (lifted := rate_limited q || _). destruct lifted; simpl.
  - intros [= <-]. apply failures_ok, unpause_ok, sublist_ok; [apply sublist_filter|done].
  - destruct (negb _); [|done]. intros [= <-]. by apply failures_ok.
Qed.

Lemma take_item_sublist id l item l' : take_item id l = Some (item, l') → l' `sublist_of` l ∧ item ∈ l ∧ item_id item = id.
Proof.
  revert l'. induction l as [|x l IH]; intros l'; simpl; [done|].
  destruct (String.eqb_spec (item_id x) id) as [Heq|].
  - intros [= <- <-]. split_and!; [by apply sublist_cons|by left|done].
  - destruct (take_item id l) as [[y l1]|]; [|done]. intros [= <- <-].
    destruct (IH _ eq_refl) as (? & ? & ?). split_and!; [by apply sublist_skip|by right|done].
Qed.

(** A legacy file that an older daemon wrote is well formed. *)
Definition op_ok (op : FollowUpOp) : Prop :=
  match op with Import _ (Ok (Some q)) _ => queue_ok q | _ => True end.

Lemma unpause_edit_ok s s' :
  edits (λ q', q' = unpause (queue s)) s s' → queue_ok (queue s) → queue_ok (queue s').
Proof. intros He Hok. eapply edits_ok; [exact He| |done]. intros q' ->. by apply unpause_ok. Qed.

Lemma pause_follow_ups_ok e reason m s : queue_ok (queue s) → queue_ok (queue (pause_follow_ups e reason m s)).
Proof.
  intros Hok. eapply edits_ok; [apply pause_follow_ups_edits| |done]. intros q' [_ ->]. by apply pause_ok.
Qed.

Lemma wait_ok e turn until s : queue_ok (queue s) → queue_ok (queue (wait_for_rate_limit_reset e turn until s)).
Proof.
  intros Hok. assert (Hok' : queue_ok (queue (rate_limit_body e turn until s).1)).
  { eapply edits_ok; [apply rate_limit_body_edits| |done]. intros q' (failed & _ & ->). by apply limited_ok. }
  unfold wait_for_rate_limit_reset. destruct (rate_limit_body e turn until s) as [s1 [[t|]|err]]; [done..|].
  by apply pause_follow_ups_ok.
Qed.

Lemma settle_ok e s : queue_ok (queue s) → queue_ok (queue (settle_rate_limit_after_completion e s)).
Proof.
  intros Hok. eapply edits_ok; [apply settle_edits| |done]. intros q' Hq. by eapply settled_ok.
Qed.

Lemma resume_after_cases e e' until s :
  let s' := resume_after_rate_limit e e' until s in
  s' = s ∨ ∃ s1, rate_limited (queue s) = true ∧ edits (λ q', q' = unpause (queue s)) s s1 ∧
    (s' = s1 ∨ s' = drain_follow_ups e' s1).
Proof.
  unfold resume_after_rate_limit. destruct (shutting_down s); [by left|].
  destruct (rate_limited (queue s)); simpl; [|by left]. destruct (negb _); [by left|]. right.
  destruct (save_follow_ups e _ s) as [s1 r] eqn:Hs. exists s1. split; [done|].
  split; [by eapply save_edits; [exact Hs|]|]. destruct r; auto.
Qed.

Lemma send_scheduled_cases e e' t s :
  let s' := send_scheduled e e' t s in
  s' = s ∨ ∃ s1, scheduled (queue s) = true ∧ edits (λ q', q' = unpause (queue s)) s s1 ∧
    (s' = s1 ∨ s' = drain_follow_ups e' s1).
Proof.
  unfold send_scheduled. destruct (shutting_down s); [by left|].
  destruct (scheduled (queue s)); simpl; [|by left]. destruct (negb _); [by left|]. right.
  destruct (set_schedule e None s) as [s1 [u|err]] eqn:H1; apply set_schedule_same in H1.
  - destruct (save_follow_ups e _ s1) as [s2 r] eqn:Hs. exists s2. split; [done|].
    split; [eapply edits_from; [exact H1|]; by eapply save_edits; [exact Hs|]|]. destruct r; auto.
  - exists s1. split_and!; [done| |by left]. eapply edits_from; [exact H1|apply edits_refl].
Qed.

Lemma add_cases e e' id p front hold s :
  let s' := (queue_add_owned e e' id p front hold s).1 in
  s' = s ∨ s' = (queue_add_body e id p front hold s).1 ∨
  s' = drain_follow_ups e' (queue_add_body e id p front hold s).1.
Proof.
  unfold queue_add_owned. destruct (validate_item_id id ≫= _); [|by left].
  destruct (queue_add_body e id p front hold s) as [s1 [[o d]|err]]; [|auto]. destruct d; auto.
Qed.

Lemma resume_cases e e' s :
  let s' := (queue_resume_owned e e' s).1 in
  s' = (queue_resume_body e s).1 ∨ s' = drain_follow_ups e' (queue_resume_body e s).1.
Proof. unfold queue_resume_owned. destruct (queue_resume_body e s) as [s1 [v|err]]; auto. Qed.

Lemma add_body_ok e id p front hold s :
  queue_ok (queue s) → queue_ok (queue (queue_add_body e id p front hold s).1).
Proof.
  intros Hok. destruct (add_body_cases e id p front hold s) as [He|(_ & -> & _)]; [|done].
  eapply edits_ok; [exact He| |done]. intros q' (? & ? & ->). by apply added_ok.
Qed.


(** ** Held queues *)

(** The operations by which a client (or the schedule the client set) lifts a
    hold or starts a turn by hand; [Import] only runs at startup. *)
Definition lifts q (op : FollowUpOp) : bool :=
  match op with
  | Remove _ _ | Take _ _ | Clear _ | Resume _ _ | Schedule _ _ | Import _ _ _ | Prompt _ _ => true
  | ScheduleFired _ _ _ => scheduled q
  | _ => false
  end.

(** Still held for the same reason, with every item still waiting, in order. *)
Definition still_held s s' : Prop :=
  started s' = started s ∧ paused (queue s') = paused (queue s) ∧
  pause_reason (queue s') = pause_reason (queue s) ∧
  q_items (queue s) `sublist_of` q_items (queue s').

#[export] Instance still_held_refl : Reflexive still_held.
Proof. by intros s. Qed.
#[export] Instance still_held_trans : Transitive still_held.
Proof. intros s1 s2 s3 (? & ? & ? & ?) (? & ? & ? & ?). split_and!; try congruence. by etrans. Qed.

Lemma stored_held q : paused q = true → stored q = q.
Proof. intros Hp. unfold stored, is_idle. by rewrite Hp, andb_false_r. Qed.

Lemma edits_held (Q : FollowUpQueue → Prop) s s' :
  paused (queue s) = true → edits Q s s' →
  (∀ q', Q q' → paused q' = true ∧ pause_reason q' = pause_reason (queue s) ∧
     q_items (queue s) `sublist_of` q_items q') → still_held s s'.
Proof.
  intros Hp (_ & Hs & Hq) Hall. destruct Hq as [Hq|(q' & HQ & Hq)].
  - unfold still_held. by rewrite Hq.
  - destruct (Hall _ HQ) as (Hp' & Hr & Hsub). rewrite stored_held in Hq by done.
    unfold still_held. by rewrite Hq, Hp, Hp'.
Qed.

Lemma drain_held e s : paused (queue s) = true → drain_follow_ups e s = s.
Proof.
  intros Hp. destruct (drain_cases e s) as [?|(head & rest & _ & Hp' & _)]; [done|congruence].
Qed.

Lemma held_paused q : held_by_user q = true → paused q = true.
Proof. unfold held_by_user. by destruct (paused q). Qed.

Lemma held_failures n q : held_by_user (set_failures n q) = held_by_user q.
Proof. done. Qed.

Lemma limited_held e turn until failed q :
  held_by_user q = true →
  let q' := limited_queue e turn until failed q in
  paused q' = true ∧ pause_reason q' = pause_reason q ∧ q_items q `sublist_of` q_items q'.
Proof.
  intros Hh. apply held_paused in Hh as Hp. unfold limited_queue. cbv zeta. rewrite held_failures, Hh.
  destruct (_ <=? _); [done|]. destruct (existsb _ _); [done|]. simpl. split_and!; [done..|]. by apply sublist_cons.
Qed.

Lemma held_not_limited q : held_by_user q = true → rate_limited q = false ∧ reason_is "turn_failed" q = false.
Proof.
  unfold held_by_user, rate_limited, reason_is. destruct (paused q); [|done]. simpl.
  destruct (pause_reason q) as [r|]; [|done]. intros Hr%one_of_spec.
  repeat (apply elem_of_cons in Hr as [->|Hr]; [done|]). by apply not_elem_of_nil in Hr.
Qed.

Lemma settled_held q q' :
  held_by_user q = true → settled_queue q = Some q' →
  paused q' = true ∧ pause_reason q' = pause_reason q ∧ q_items q `sublist_of` q_items q'.
Proof.
  intros Hh. destruct (held_not_limited _ Hh) as [Hr Ht]. unfold settled_queue. rewrite Hr, Ht, andb_false_r.
  simpl. destruct (negb _); [|done]. intros [= <-]. by apply held_paused in Hh.
Qed.

Lemma op_still_held op s :
  held_by_user (queue s) = true → holds_items (queue s) = true → lifts (queue s) op = false →
  still_held s (run_op op s).
Proof.
  intros Hh Hi Hl. pose proof (held_paused _ Hh) as Hp. destruct op; try done; cbn [run_op].
  - assert (Hb : still_held s (queue_add_body e id p front hold s).1).
    { destruct (add_body_cases e id p front hold s) as [He|(Hno & _)]; [|congruence].
      eapply edits_held; [done|exact He|]. intros q' (_ & _ & ->). unfold added_queue. cbv zeta.
      match goal with |- context [set_items ?l ?q] => change (held_by_user (set_items l q)) with (held_by_user q) end.
      rewrite Hh, andb_false_r. simpl. split_and!; [done..|].
      destruct front; [by apply sublist_cons|by apply sublist_inserts_r]. }
    destruct (add_cases e e' id p front hold s) as [->|[-> | ->]]; [done..|].
    rewrite drain_held; [done|]. destruct Hb as (_ & -> & _). done.
  - eapply edits_held; [done|apply pause_edits|]. intros q' [Hno _]. congruence.
  - unfold after_turn. destruct (one_of _ terminal).
    + assert (Hb : still_held s (if String.eqb terminal "turn.completed"
        then settle_rate_limit_after_completion e s else s)).
      { destruct (String.eqb _ _); [|done]. eapply edits_held; [done|apply settle_edits|].
        intros q' Hq. by apply settled_held. }
      rewrite drain_held; [done|]. destruct Hb as (_ & -> & _). done.
    + assert (Hpause : ∀ s1 reason, still_held s s1 → still_held s (pause_follow_ups e reason None s1)).
      { intros s1 reason Hs1. etrans; [exact Hs1|]. destruct Hs1 as (_ & Hp1 & _). rewrite Hp in Hp1.
        eapply edits_held; [done|apply pause_follow_ups_edits|]. intros q' [? _]. congruence. }
      destruct turn_id as [turn|], exhausted as [until|], (String.eqb terminal "turn.failed"); try by apply Hpause.
      assert (Hb : still_held s (rate_limit_body e turn until s).1).
      { eapply edits_held; [done|apply rate_limit_body_edits|]. intros q' (failed & _ & ->). by apply limited_held. }
      unfold wait_for_rate_limit_reset. destruct (rate_limit_body e turn until s) as [s1 [[t|]|err]]; [done..|].
      by apply Hpause.
  - by rewrite drain_held.
  - destruct (resume_after_cases e e' until s) as [->|(s1 & Hr & _)]; [done|].
    destruct (held_not_limited _ Hh). congruence.
  - destruct (send_scheduled_cases e e' t s) as [->|(s1 & Hr & _)]; [done|]. simpl in Hl. congruence.
Qed.

Lemma still_held_next s s' :
  still_held s s' → held_by_user (queue s) = true → holds_items (queue s) = true →
  held_by_user (queue s') = true ∧ holds_items (queue s') = true ∧ ∀ op, lifts (queue s') op = lifts (queue s) op.
Proof.
  intros (_ & Hp & Hr & Hsub) Hh Hi. unfold held_by_user in *. rewrite Hp, Hr. split_and!; [done| |].
  - unfold holds_items in *. destruct (q_items (queue s)); [done|].
    destruct (q_items (queue s')); [by apply sublist_nil_r in Hsub|done].
  - intros op. destruct op; simpl; try done. unfold scheduled, reason_is. by rewrite Hp, Hr.
Qed.

(** a queue the user holds stays held: while it is paused for a reason
    that waits for the user (paused by hand, scheduled, after a cancel, a
    failed start or a restart) no sequence of ended turns, completed turns,
    rate-limit failures and resets, drains, additions and further pauses starts
    a prompt, drops or reorders a waiting item, or changes the pause; only the
    client's own commands (or the scheduled instant) do. *)
Theorem held_queue_waits_for_user ops s :
  held_by_user (queue s) = true → holds_items (queue s) = true →
  Forall (λ op, lifts (queue s) op = false) ops →
  let s' := foldl (λ s op, run_op op s) s ops in
  started s' = started s ∧ paused (queue s') = true ∧ pause_reason (queue s') = pause_reason (queue s) ∧
  q_items (queue s) `sublist_of` q_items (queue s').
Proof.
  intros Hh Hi Hops s'. assert (Hheld : still_held s s').
  { unfold s'. clear s'. revert s Hh Hi Hops. induction ops as [|op ops IH]; intros s Hh Hi Hops; [done|].
    apply Forall_cons in Hops as [Hop Hops]. pose proof (op_still_held op s Hh Hi Hop) as H1.
    destruct (still_held_next _ _ H1 Hh Hi) as (Hh1 & Hi1 & Hl1). simpl. etrans; [exact H1|].
    apply IH; [done..|]. eapply Forall_impl; [exact Hops|]. intros op'. by rewrite Hl1. }
  destruct Hheld as (? & Hp & ? & ?). rewrite (held_paused _ Hh) in Hp. by split_and!.
Qed.

(** ** Nothing is dropped silently *)

(** The items an operation is meant to drop: those a client removes, takes or
    clears, and the pending continuation once a turn completed ([Import] sets
    up the queue at startup). *)
Definition drops (op : FollowUpOp) (item : FollowUpItem) : Prop :=
  match op with
  | Remove _ id | Take _ id => item_id item = id
  | Clear _ | Import _ _ _ => True
  | AfterTurn _ _ _ _ "turn.completed" => is_continuation (item_id item) = true
  | _ => False
  end.

(** The item still waits, or a turn was started with its request. *)
Definition accounted s s' (item : FollowUpItem) : Prop :=
  item ∈ q_items (queue s') ∨ ∃ l, started s' = started s ++ l ∧ request item ∈ l.

Lemma items_stored q : q_items (stored q) = q_items q.
Proof. unfold stored, is_idle, holds_items. by destruct (q_items q) eqn:E; [destruct (_ && _)|]. Qed.

Lemma edits_keep (Q : FollowUpQueue → Prop) s s' item :
  edits Q s s' → (∀ q', Q q' → item ∈ q_items (queue s) → item ∈ q_items q') →
  item ∈ q_items (queue s) → item ∈ q_items (queue s').
Proof.
  intros (_ & _ & [->|(q' & HQ & ->)]) Hall Hin; [done|]. rewrite items_stored. by apply Hall.
Qed.

Lemma drain_accounts e s item :
  NoDup (item_id <$> q_items (queue s)) → item ∈ q_items (queue s) → accounted s (drain_follow_ups e s) item.
Proof.
  intros Hnd Hin. destruct (drain_cases e s) as [->|(head & rest & Hi & _ & _ & _ & Hd)]; [by left|].
  destruct Hd as [[Hst [Hq|Hq]]|[_ (m & [Hq|Hq])]]; unfold accounted; rewrite Hq, ?items_stored; [by left| |by left..].
  rewrite Hi in Hin, Hnd |- *. simpl in Hnd. apply NoDup_cons in Hnd as [Hno _].
  apply elem_of_cons in Hin as [->|Hin]; [right; exists [request head]; split; [done|by left]|left].
  apply list_elem_of_filter. split; [|by right].
  apply String.eqb_neq. intros Heq. apply Hno. rewrite <-Heq. by apply list_elem_of_fmap_2.
Qed.

(** An edit that keeps the item, then a drain. *)
Lemma drain_after e s s1 item :
  queue_ok (queue s1) → started s1 = started s → item ∈ q_items (queue s1) →
  accounted s (drain_follow_ups e s1) item.
Proof.
  intros Hok Hs Hin. destruct (drain_accounts e s1 item (ok_ids _ Hok) Hin) as [?|(l & Hl & ?)]; [by left|].
  right. exists l. by rewrite <-Hs.
Qed.

Lemma added_items e id p front hold q item : item ∈ q_items q → item ∈ q_items (added_queue e id p front hold q).
Proof.
  intros Hin. unfold added_queue. cbv zeta. destruct (hold && _); simpl;
    (destruct front; [by right|apply elem_of_app; by left]).
Qed.

Lemma limited_items e turn until failed q item :
  item ∈ q_items q → item ∈ q_items (limited_queue e turn until failed q).
Proof.
  intros Hin. unfold limited_queue. cbv zeta. destruct (_ <=? _); [by destruct (held_by_user _)|].
  destruct (existsb _ _), (held_by_user _); simpl; auto; by right.
Qed.

Lemma settled_items q q' item :
  settled_queue q = Some q' → is_continuation (item_id item) = false → item ∈ q_items q → item ∈ q_items q'.
Proof.
  unfold settled_queue. cbv zeta. set (lifted := rate_limited q || _). intros Hs Hc Hin.
  destruct lifted; simpl in Hs; [|destruct (negb _); [|done]]; injection Hs as <-; simpl; [|done].
  apply list_elem_of_filter. by split.
Qed.

Lemma unpause_if_empty_items q : q_items (unpause_if_empty q) = q_items q.
Proof. unfold unpause_if_empty. by destruct (_ && _). Qed.

Lemma take_item_keeps id l item l' x :
  take_item id l = Some (item, l') → item_id x ≠ id → x ∈ l → x ∈ l'.
Proof.
  revert l'. induction l as [|y l IH]; intros l'; simpl; [done|].
  destruct (String.eqb_spec (item_id y) id) as [Heq|].
  - intros [= <- <-] Hne [->|Hin]%elem_of_cons; done.
  - destruct (take_item id l) as [[z l1]|]; [|done]. intros [= <- <-] Hne [->|Hin]%elem_of_cons; [by left|].
    right. by apply (IH l1).
Qed.

Lemma pause_follow_ups_items e reason m s item :
  item ∈ q_items (queue s) → item ∈ q_items (queue (pause_follow_ups e reason m s)).
Proof. apply edits_keep with (1 := pause_follow_ups_edits e reason m s). by intros q' [_ ->]. Qed.

Lemma wait_items e turn until s item :
  item ∈ q_items (queue s) → item ∈ q_items (queue (wait_for_rate_limit_reset e turn until s)).
Proof.
  intros Hin. assert (Hb : item ∈ q_items (queue (rate_limit_body e turn until s).1)).
  { eapply edits_keep; [apply rate_limit_body_edits| |done]. intros q' (failed & _ & ->). apply limited_items. }
  unfold wait_for_rate_limit_reset. destruct (rate_limit_body e turn until s) as [s1 [[t|]|err]]; [done..|].
  by apply pause_follow_ups_items.
Qed.

Lemma resumed_accounts e s s' s1 item :
  queue_ok (queue s) → edits (λ q', q' = unpause (queue s)) s s1 → (s' = s1 ∨ s' = drain_follow_ups e s1) →
  item ∈ q_items (queue s) → accounted s s' item.
Proof.
  intros Hok He Hs' Hin. pose proof (unpause_edit_ok _ _ He Hok) as Hok1.
  assert (Hin1 : item ∈ q_items (queue s1)) by (eapply edits_keep; [exact He|by intros q' ->|done]).
  destruct Hs' as [-> | ->]; [by left|]. apply drain_after; [done|by destruct He as (_ & ? & _)|done].
Qed.


(** ** Concrete runs *)
Module Example.
(** Everything answers yes; the clock reads [t] seconds. *)
Definition env (t : Z) : Env := {|
  now := (t * 1000000000)%Z; owned := Ok tt; writable := Ok tt; refuse_private := Ok tt; get_ok := Ok tt;
  queue_bytes := λ _, 100; emit_ok := Ok tt; set_schedule_ok := Ok tt; delivered := λ _, Ok None;
  prompt_ok := λ _, Ok "turn-2"; content_ok := λ _, Ok tt;
  turn_request := λ _, Ok None; error_text := λ _, "error"; retry_floor := 60 * 1000000000 |}.
Definition prompt (text : string) : ConversationPrompt :=
  {| permission_mode := None; work_mode := None; client_request_id := None; p_text := text; p_model := None;
     reasoning_effort := None; skills := []; p_content := []; permission_profile := None;
     sandbox_mode := None; approval_policy := None |}.
(** A turn is running. *)
Definition busy : Conv :=
  {| queue := FollowUpQueue_default; active := true; schedule := None; shutting_down := false;
     started := []; published := []; timers := [] |}.
Definition seconds (t : Z) : Z := t * 1000000000.
Definition run (ops : list FollowUpOp) : Conv := foldl (λ s op, run_op op s) busy ops.

Definition failed_on_limit : FollowUpOp :=
  AfterTurn (env 11) (env 11) (Some "turn-1") (Some (seconds 500)) "turn.failed".
(** A turn ends; the client schedules the conversation for second 100 and
    queues a prompt. *)
Definition schedule_and_queue : list FollowUpOp :=
  [Released; Schedule (env 10) (Some (seconds 100)); Add (env 10) (env 10) "a" (prompt "go") false false].
Definition due : FollowUpOp := ScheduleFired (env 100) (env 100) (seconds 100).

(** a rate-limited turn can strand a schedule. The turn's end is handled
    after it released the conversation, so the client can schedule it in
    between; the handler then finds the [scheduled] hold, keeps it, but
    replaces its resume time with the rate limit's, and when the scheduled
    instant comes nothing is sent and no timer is left: the queue stays held
    with the schedule still in the manifest. Without the failed turn the same
    schedule sends the prompt. *)
Theorem rate_limit_strands_schedule :
  let sent := run (schedule_and_queue ++ [due]) in
  let stranded := run (schedule_and_queue ++ [failed_on_limit; due]) in
  (p_text <$> started sent) = ["go"] ∧ q_items (queue sent) = [] ∧ schedule sent = None ∧
  started stranded = [] ∧ scheduled (queue stranded) = true ∧
  (item_id <$> q_items (queue stranded)) = ["rate-limit-continue-turn-1"; "a"] ∧
  schedule stranded = Some {| at_ := seconds 100; interrupted := false |} ∧
  timers stranded = [ScheduleTimer (seconds 100)] ∧
  resume_at (queue stranded) = Some (seconds 500) ∧
  run_op (RateLimitFired (env 500) (env 500) (seconds 500)) stranded = stranded.
Proof. vm_compute. by split_and!. Qed.

Definition waiting : Conv := run [Add (env 1) (env 1) "a" (prompt "first") false false;
  Add (env 2) (env 2) "b" (prompt "second") false true].
Lemma waiting_ok : queue_ok (queue waiting).
Proof.
  split; try done.
  - apply (bool_decide_unpack _). by vm_compute.
  - repeat constructor.
  - left. vm_compute. lia.
Qed.


(** The user paused the queue: the turn ending, a drain and a limit do not
    start anything. *)
Lemma held_queue_waits_for_user_witness :
  started (foldl (λ s op, run_op op s) waiting
    [Released; AfterTurn (env 5) (env 5) (Some "turn-1") None "turn.completed"; Drain (env 6); failed_on_limit]) = [].
Proof.
  refine (proj1 (held_queue_waits_for_user
    [Released; AfterTurn (env 5) (env 5) (Some "turn-1") None "turn.completed"; Drain (env 6); failed_on_limit]
    waiting eq_refl eq_refl _)).
  repeat constructor.
Defined.

End Example.
