(* ===== verification/IpPool.v ===== *)
(** * Loopback IP pool

    Model of the configuration part of src/src/ssh/ip_pool.rs (the stored pool,
    its validation, addresses and ports) and of the store operations of
    src/src/ssh/mod.rs that change it. Addresses are [u32] values. What the
    system's open-file limit is, whether the platform supports the pool and
    what saving the store answers are arguments. *)
From S2P Require Import Prelude Text.
From stdpp Require Import pretty.
From Stdlib Require Import Ascii.
Local Open Scope N_scope.

Definition DEFAULT_CIDR : string := "127.77.0.0/24".
Definition DEFAULT_IDLE_MINUTES : N := 15.
Definition MANUAL_PORT_LIMIT : N := 4096.
Definition MAX_TOTAL_LISTENERS : N := 200000.
Definition DESCRIPTOR_RESERVE : N := 4096.
Definition MAX_ALIAS_LEN : N := 64.
Definition UNSUPPORTED_REASON : string := "the loopback IP pool needs a Unix system (Linux or macOS)".
Definition AUTO_PORT_SPECS : list string :=
  ["80"; "443"; "1433"; "3000-3010"; "3306"; "4000"; "4200"; "5000-5010"; "5173"; "5432"; "5601"; "6379";
   "8000-8100"; "8443"; "8888"; "9000-9100"; "9200"; "11434"; "15672"; "27017"].
Definition u32_MAX : N := 2 ^ 32 - 1.
Definition LOCALHOST : N := 0x7f000001.

Inductive PortMode : Type := Auto | Manual.
#[export] Instance PortMode_eq_dec : EqDecision PortMode.
Proof. solve_decision. Defined.

Record PoolConfigInput : Type := { in_enabled : bool; in_cidr : string; in_idle_minutes : Z }.
Record AssignmentInput : Type := {
  in_ip : option string; in_alias : string; in_port_mode : PortMode; in_ports : option (list string);
}.
Record AssignmentUpdate : Type := { up_port_mode : PortMode; up_ports : option (list string) }.
Record StoredAssignment : Type := { ip : N; alias : string; port_mode : PortMode; ports : list string }.
#[export] Instance StoredAssignment_eq_dec : EqDecision StoredAssignment.
Proof. solve_decision. Defined.
Record StoredIpPool : Type := {
  enabled : bool; cidr_text : string; idle_minutes : N; assignments : list StoredAssignment;
}.
#[export] Instance StoredIpPool_eq_dec : EqDecision StoredIpPool.
Proof. solve_decision. Defined.
Definition StoredIpPool_default : StoredIpPool :=
  {| enabled := false; cidr_text := DEFAULT_CIDR; idle_minutes := DEFAULT_IDLE_MINUTES; assignments := [] |}.
Definition set_assignments (l : list StoredAssignment) (pool : StoredIpPool) : StoredIpPool :=
  {| enabled := enabled pool; cidr_text := cidr_text pool; idle_minutes := idle_minutes pool; assignments := l |}.

(** ** Networks *)
Module Cidr.
Record t : Type := { network : N; prefix : N }.

(** [self.network | (u32::MAX >> self.prefix)]. *)
Definition broadcast (self : t) : N := N.lor (network self) (N.shiftr u32_MAX (prefix self)).
Definition contains (self : t) (raw : N) : bool := (network self <=? raw) && (raw <=? broadcast self).
Definition assignable (self : t) (raw : N) : bool :=
  contains self raw && negb (raw =? network self) && negb (raw =? broadcast self).
(** [(self.network + 1 .. self.broadcast())]. *)
Definition hosts (self : t) : list N := range_N (network self + 1) (N.to_nat (broadcast self - network self - 1)).
Definition to_string (self : t) : string := show_ipv4 (network self) +:+ "/" +:+ pretty (prefix self).

Definition parse (text : string) : result string t :=
  let bad := text +:+ " is not a CIDR range like " +:+ DEFAULT_CIDR in
  '(address, prefix) ← ok_or (split_once "/" text) bad;
  address ← ok_or (parse_ipv4 address) bad;
  prefix ← ok_or (match parse_uint 255 prefix with
                  | Some p => if (16 <=? p) && (p <=? 30) then Some p else None
                  | None => None
                  end) "the cidr prefix length must be 16-30";
  let mask := N.land (N.shiftl u32_MAX (32 - prefix)) u32_MAX in
  let cidr := {| network := N.land address mask; prefix := prefix |} in
  if negb (address =? network cidr)
  then Err (text +:+ " has host bits set; did you mean " +:+ to_string cidr +:+ "?")
  else if negb (N.shiftr address 24 =? 127)
  then Err "the cidr must be inside 127.0.0.0/8 (loopback)"
  else if contains cidr LOCALHOST then Err "the cidr must not contain 127.0.0.1"
  else Ok cidr.
End Cidr.

(** ** Ports *)

(** [{text:?}], for text that needs no escapes. *)
Definition debug (text : string) : string := String (ascii_of_N 34) (text +:+ String (ascii_of_N 34) "").
Definition parse_one (text : string) : result string N :=
  ok_or (match parse_uint 65535 text with
         | Some port => if port =? 0 then None else Some port
         | None => None
         end) (debug text +:+ " is not a port (1-65535)").
Definition parse_entry (entry : string) : result string (N * N) :=
  match split_once "-" entry with
  | Some (start, stop) =>
      start ← parse_one (trim start); stop ← parse_one (trim stop); Ok (start, stop)
  | None => port ← parse_one entry; Ok (port, port)
  end.
Definition entry_text (start stop : N) : string :=
  if start =? stop then pretty start else pretty start +:+ "-" +:+ pretty stop.
Definition port_range (start stop : N) : gset N := list_to_set (range_N start (N.to_nat (stop + 1 - start))).

(** The loop body of [parse_ports] on [(normalized, ports)]; [seen] is the set
    of normalized entries. *)
Definition add_entry (acc : list string * gset N) (entry : string) : result string (list string * gset N) :=
  let '(normalized, set) := acc in
  let entry := trim entry in
  '(start, stop) ← parse_entry entry;
  if stop <? start then Err (debug entry +:+ ": the range start is above its end")
  else
    let text := entry_text start stop in
    if one_of normalized text then Ok (normalized, set)
    else
      let set := set ∪ port_range start stop in
      if MANUAL_PORT_LIMIT <? N.of_nat (size set)
      then Err ("at most " +:+ pretty MANUAL_PORT_LIMIT +:+ " ports per address")
      else Ok (normalized ++ [text], set).
Definition parse_ports (entries : list string) : result string (list string * gset N) :=
  if MANUAL_PORT_LIMIT <? N.of_nat (length entries)
  then Err ("at most " +:+ pretty MANUAL_PORT_LIMIT +:+ " port entries")
  else fold_result add_entry ([], ∅) entries.

(** [.expect("valid auto ports")]: the list parses (shown below). *)
Definition ports_of (entries : list string) : gset N :=
  match parse_ports entries with Ok (_, set) => set | Err _ => ∅ end.
Definition auto_ports : gset N := ports_of AUTO_PORT_SPECS.
Definition port_set (a : StoredAssignment) : gset N :=
  match port_mode a with
  | Auto => auto_ports
  | Manual => ports_of (ports a)
  end.
Definition port_count (a : StoredAssignment) : N := N.of_nat (size (port_set a)).

Definition ascii_alphanumeric (c : ascii) : bool :=
  let n := N_of_ascii c in
  ((48 <=? n) && (n <=? 57)) || ((65 <=? n) && (n <=? 90)) || ((97 <=? n) && (n <=? 122)).
Definition valid_alias (a : string) : bool :=
  negb (String.eqb a "") && (N.of_nat (String.length a) <=? MAX_ALIAS_LEN) &&
  negb (String.prefix "-" a) &&
  forallb (λ c, ascii_alphanumeric c || existsb (Ascii.eqb c) ["."; "_"; "-"; "@"; ":"]%char)
    (String.list_ascii_of_string a).

(** ** The stored pool *)
Definition assignment (pool : StoredIpPool) (raw : N) : result AppError StoredAssignment :=
  ok_or (find (λ a, ip a =? raw) (assignments pool)) (NotFound ("ip pool assignment " +:+ show_ipv4 raw)).
Definition sum_ports (l : list StoredAssignment) : N := foldr (λ a n, port_count a + n) 0 l.
Definition listener_count (pool : StoredIpPool) (skip : option N) : N :=
  sum_ports (filter (λ a, Some (ip a) ≠ skip) (assignments pool)).

Definition listener_cap (hard : option N) : N :=
  match hard with
  | Some hard => N.min (hard - DESCRIPTOR_RESERVE) MAX_TOTAL_LISTENERS
  | None => MAX_TOTAL_LISTENERS
  end.
Definition check_listener_cap (hard : option N) (pool : StoredIpPool) (a : StoredAssignment)
    (replacing : option N) : result AppError unit :=
  guard_err (listener_count pool replacing + port_count a <=? listener_cap hard)
    (Conflict ("the IP pool is limited to " +:+ pretty (listener_cap hard) +:+
               " listeners in total on this system")).

(** One assignment of a stored file: dropped, or kept with normalized ports.
    The state is what the closure of [retain_mut] captures. *)
Definition retain_assignment (cidr : Cidr.t) (acc : list StoredAssignment * N) (a : StoredAssignment) :
    list StoredAssignment * N :=
  let '(kept, total) := acc in
  let checked :=
    match port_mode a with
    | Auto => Ok ([], N.of_nat (size auto_ports))
    | Manual => '(normalized, set) ← parse_ports (ports a); Ok (normalized, N.of_nat (size set))
    end in
  match checked with
  | Ok (normalized, count) =>
      if Cidr.assignable cidr (ip a) && valid_alias (alias a) &&
         negb (existsb (λ b, ip b =? ip a) kept) && negb (existsb (λ b, String.eqb (alias b) (alias a)) kept) &&
         (total + count <=? MAX_TOTAL_LISTENERS)
      then (kept ++ [{| ip := ip a; alias := alias a; port_mode := port_mode a; ports := normalized |}],
            total + count)
      else (kept, total)
  | Err _ => (kept, total)
  end.
(** [from_stored]; [value] is the deserialized file, or [None] when it cannot
    be read. The default range parses (shown below). *)
Definition from_stored (value : option StoredIpPool) : StoredIpPool :=
  match value with
  | None => StoredIpPool_default
  | Some pool =>
      match match Cidr.parse (cidr_text pool) with Ok c => Ok c | Err _ => Cidr.parse DEFAULT_CIDR end with
      | Err _ => StoredIpPool_default
      | Ok cidr =>
          {| enabled := enabled pool; cidr_text := Cidr.to_string cidr;
             idle_minutes := N.max 1 (N.min (idle_minutes pool) 1440);
             assignments := (foldl (retain_assignment cidr) ([], 0) (assignments pool)).1 |}
      end
  end.

(** ** Changes *)
Definition apply_config (supported : bool) (current : StoredIpPool) (input : PoolConfigInput) :
    result AppError StoredIpPool :=
  cidr ← map_err InvalidRequest (Cidr.parse (trim (in_cidr input)));
  idle ← ok_or (if (0 <=? in_idle_minutes input)%Z && (in_idle_minutes input <=? Z.of_N u32_MAX)%Z &&
                   (1 <=? in_idle_minutes input)%Z && (in_idle_minutes input <=? 1440)%Z
                then Some (Z.to_N (in_idle_minutes input)) else None)
           (InvalidRequest "idleMinutes must be 1-1440");
  if in_enabled input && negb supported then Err (Unsupported UNSUPPORTED_REASON)
  else
    match find (λ a, negb (Cidr.assignable cidr (ip a))) (assignments current) with
    | Some outside =>
        Err (Conflict (show_ipv4 (ip outside) +:+ " (assigned to " +:+ alias outside +:+
               ") is not an assignable address of " +:+ Cidr.to_string cidr +:+ "; remove the assignment first"))
    | None => Ok {| enabled := in_enabled input; cidr_text := Cidr.to_string cidr; idle_minutes := idle;
                    assignments := assignments current |}
    end.

Definition checked_ports (mode : PortMode) (l : option (list string)) : result AppError (list string) :=
  match mode with
  | Auto => Ok []
  | Manual =>
      match default [] l with
      | [] => Err (InvalidRequest "manual port mode needs at least one port")
      | l => map_err InvalidRequest ('(normalized, _) ← parse_ports l; Ok normalized)
      end
  end.

Definition new_assignment (hard : option N) (pool : StoredIpPool) (input : AssignmentInput) :
    result AppError StoredAssignment :=
  cidr ← map_err InvalidRequest (Cidr.parse (cidr_text pool));
  let name := trim (in_alias input) in
  _ ← guard_err (valid_alias name) (InvalidRequest ("invalid ssh host: " +:+ name));
  checked ← checked_ports (in_port_mode input) (in_ports input);
  match find (λ a, String.eqb (alias a) name) (assignments pool) with
  | Some taken => Err (Conflict (name +:+ " already has the address " +:+ show_ipv4 (ip taken)))
  | None =>
      let used raw := existsb (λ a, ip a =? raw) (assignments pool) in
      raw ← match match trim <$> in_ip input with Some "" => None | o => o end with
            | Some text =>
                raw ← ok_or (parse_ipv4 text) (InvalidRequest (text +:+ " is not an IPv4 address"));
                _ ← guard_err (Cidr.assignable cidr raw)
                      (InvalidRequest (show_ipv4 raw +:+ " is not an assignable address of " +:+ Cidr.to_string cidr));
                _ ← guard_err (negb (used raw)) (Conflict (show_ipv4 raw +:+ " is already assigned"));
                Ok raw
            | None => ok_or (find (λ raw, negb (used raw)) (Cidr.hosts cidr))
                        (Conflict ("no free address left in " +:+ Cidr.to_string cidr))
            end;
      let a := {| ip := raw; alias := name; port_mode := in_port_mode input; ports := checked |} in
      _ ← check_listener_cap hard pool a None;
      Ok a
  end.

Definition update_assignment (hard : option N) (pool : StoredIpPool) (raw : N) (input : AssignmentUpdate) :
    result AppError StoredAssignment :=
  current ← assignment pool raw;
  checked ← checked_ports (up_port_mode input) (up_ports input);
  let updated := {| ip := ip current; alias := alias current; port_mode := up_port_mode input; ports := checked |} in
  _ ← check_listener_cap hard pool updated (Some raw);
  Ok updated.

(** ** The store's commands ([SshManager] in ssh/mod.rs) *)
Fixpoint replace_assignment (raw : N) (updated : StoredAssignment) (l : list StoredAssignment) :
    list StoredAssignment :=
  match l with
  | [] => []
  | a :: l => if ip a =? raw then updated :: l else a :: replace_assignment raw updated l
  end.

Definition save (answer : result AppError unit) (next : StoredIpPool) : M StoredIpPool AppError unit := λ pool,
  match answer with Ok _ => (next, Ok tt) | Err e => (pool, Err e) end.
Definition set_ip_pool (supported : bool) (answer : result AppError unit) (input : PoolConfigInput) :
    M StoredIpPool AppError unit := λ pool,
  match apply_config supported pool input with
  | Err e => (pool, Err e)
  | Ok next => if decide (next = pool) then (pool, Ok tt) else save answer next pool
  end.
Definition create_ip_assignment (hard : option N) (host_known answer : result AppError unit)
    (input : AssignmentInput) : M StoredIpPool AppError N := λ pool,
  match (_ ← host_known; new_assignment hard pool input) with
  | Err e => (pool, Err e)
  | Ok a => match save answer (set_assignments (assignments pool ++ [a]) pool) pool with
            | (pool, Ok _) => (pool, Ok (ip a))
            | (pool, Err e) => (pool, Err e)
            end
  end.
Definition update_ip_assignment (hard : option N) (answer : result AppError unit) (raw : N)
    (input : AssignmentUpdate) : M StoredIpPool AppError unit := λ pool,
  match update_assignment hard pool raw input with
  | Err e => (pool, Err e)
  | Ok updated =>
      let next := set_assignments (replace_assignment raw updated (assignments pool)) pool in
      if decide (next = pool) then (pool, Ok tt) else save answer next pool
  end.
Definition delete_ip_assignment (answer : result AppError unit) (raw : N) : M StoredIpPool AppError unit := λ pool,
  match assignment pool raw with
  | Err e => (pool, Err e)
  | Ok _ => save answer (set_assignments (filter (λ a, ip a ≠ raw) (assignments pool)) pool) pool
  end.

(** ** Networks *)
Section cidr.
Implicit Types c : Cidr.t.

(** A network of [2 ^ k] addresses inside 127.0.0.0/8, without 127.0.0.1. *)
Record cidr_ok c : Prop := {
  cidr_prefix : 16 ≤ Cidr.prefix c ≤ 30;
  cidr_aligned : Cidr.network c mod 2 ^ (32 - Cidr.prefix c) = 0;
  cidr_loopback : 127 * 2 ^ 24 ≤ Cidr.network c < 128 * 2 ^ 24;
  cidr_no_localhost : Cidr.contains c LOCALHOST = false;
}.

Lemma aligned_part a m : m ≠ 0 → a - a mod m = m * (a / m).
Proof. intros Hm. pose proof (N.div_mod a m Hm) as Ha. generalize dependent (m * (a / m)). intros n Hn. lia. Qed.

Lemma land_mask a p :
  p ≤ 32 → a < 2 ^ 32 → N.land a (N.land (N.shiftl u32_MAX (32 - p)) u32_MAX) = a - a mod 2 ^ (32 - p).
Proof.
  intros Hp Ha. set (k := 32 - p).
  assert (Hdm : a - a mod 2 ^ k = N.shiftl (N.shiftr a k) k).
  { rewrite N.shiftl_mul_pow2, N.shiftr_div_pow2, N.mul_comm. by apply aligned_part, N.pow_nonzero. }
  rewrite Hdm. apply N.bits_inj. intros i. rewrite !N.land_spec.
  change u32_MAX with (N.ones 32). destruct (N.le_gt_cases k i) as [Hki|Hki].
  - rewrite !N.shiftl_spec_high', N.shiftr_spec' by lia. replace (i - k + k) with i by lia.
    destruct (N.lt_ge_cases i 32).
    + rewrite (N.ones_spec_low 32 i), N.ones_spec_low by lia. by rewrite !andb_true_r.
    + rewrite (N.ones_spec_high 32 i) by lia. rewrite !andb_false_r.
      symmetry. apply N.bits_above_log2. destruct (decide (a = 0)) as [->|]; [simpl; lia|].
      apply N.log2_lt_pow2; [lia|]. eapply N.lt_le_trans; [exact Ha|]. apply N.pow_le_mono_r; lia.
  - rewrite !N.shiftl_spec_low by lia. simpl. by rewrite andb_false_r.
Qed.

Lemma broadcast_eq c :
  Cidr.prefix c ≤ 32 → Cidr.network c mod 2 ^ (32 - Cidr.prefix c) = 0 →
  Cidr.broadcast c = Cidr.network c + 2 ^ (32 - Cidr.prefix c) - 1.
Proof.
  intros Hp Hal. unfold Cidr.broadcast. set (k := 32 - Cidr.prefix c) in *.
  assert (Hones : N.shiftr u32_MAX (Cidr.prefix c) = N.ones k).
  { change u32_MAX with (N.ones 32). rewrite N.shiftr_div_pow2, N.ones_div_pow2 by lia. done. }
  rewrite Hones, <-N.lor_comm. assert (Hpos : 2 ^ k ≠ 0) by (apply N.pow_nonzero; lia).
  assert (Hdis : N.land (N.ones k) (Cidr.network c) = 0).
  { apply N.bits_inj. intros i. rewrite N.land_spec, N.bits_0. destruct (N.lt_ge_cases i k).
    - pose proof (aligned_part (Cidr.network c) (2 ^ k) Hpos) as Ha. rewrite Hal, N.sub_0_r in Ha.
      rewrite Ha, N.mul_comm, <-N.shiftl_mul_pow2, N.shiftl_spec_low by lia. apply andb_false_r.
    - by rewrite N.ones_spec_high by lia. }
  rewrite <-N.lxor_lor, <-N.add_nocarry_lxor by done. rewrite N.ones_equiv. lia.
Qed.

Lemma parse_octet_lt s n : parse_octet s = Some n → n < 256.
Proof.
  unfold parse_octet. destruct s as [|c s]; [done|]. destruct (_ && _); [done|]. destruct (Nat.leb _ _); [|done].
  destruct (digits_value _ _) as [v|]; [|done]. destruct (N.leb_spec v 255); [|done]. intros [= <-]. lia.
Qed.
Lemma parse_ipv4_lt s a : parse_ipv4 s = Some a → a < 2 ^ 32.
Proof.
  unfold parse_ipv4. intros Hp. repeat case_match; try done. injection Hp as <-.
  repeat match goal with H : parse_octet _ = Some _ |- _ => apply parse_octet_lt in H end.
  change (2 ^ 32) with 4294967296. lia.
Qed.

Lemma parse_cidr_ok text c : Cidr.parse text = Ok c → cidr_ok c.
Proof.
  unfold Cidr.parse. destruct (split_once "/" text) as [[address ptext]|]; [|done].
  cbn [ok_or mbind result_bind]. destruct (parse_ipv4 address) as [addr|] eqn:Hip; [|done].
  cbn [ok_or mbind result_bind]. destruct (parse_uint 255 ptext) as [p|]; [|done].
  destruct ((16 <=? p) && (p <=? 30)) eqn:Hr; [|done]. cbn [ok_or mbind result_bind Cidr.network].
  apply andb_true_iff in Hr as [Hlo%N.leb_le Hhi%N.leb_le]. apply parse_ipv4_lt in Hip.
  rewrite land_mask by lia. destruct (N.eqb_spec addr (addr - addr mod 2 ^ (32 - p))) as [Hbits|]; [|done].
  cbn [negb]. destruct (N.eqb_spec (N.shiftr addr 24) 127) as [Hloop|]; [|done]. cbn [negb]. rewrite <-Hbits.
  destruct (Cidr.contains _ LOCALHOST) eqn:Hloc; [done|]. intros [= <-].
  assert (Hpos : 2 ^ (32 - p) ≠ 0) by (apply N.pow_nonzero; lia).
  split; cbn [Cidr.network Cidr.prefix]; [lia| | |done].
  - pose proof (N.Div0.mod_le addr (2 ^ (32 - p))). lia.
  - rewrite N.shiftr_div_pow2 in Hloop. change (2 ^ 24) with 16777216 in *. clear -Hloop.
    pose proof (N.div_mod addr 16777216 ltac:(lia)) as Hdm. rewrite Hloop in Hdm. clear Hloop.
    pose proof (N.mod_lt addr 16777216 ltac:(lia)) as Hm. generalize dependent (addr mod 16777216). lia.
Qed.

Lemma cidr_text_roundtrip c : cidr_ok c → Cidr.parse (Cidr.to_string c) = Ok c.
Proof.
  intros [Hp Hal Hloop Hloc]. unfold Cidr.parse, Cidr.to_string. destruct c as [net p].
  cbn [Cidr.network Cidr.prefix] in *.
  assert (Hnet : net < 2 ^ 32) by (change (2 ^ 32) with 4294967296; change (2 ^ 24) with 16777216 in *; lia).
  change ("/" +:+ pretty p) with (String "/" (pretty p)).
  rewrite split_once_at by apply show_ipv4_lacks_slash. cbn [ok_or mbind result_bind].
  rewrite parse_show_ipv4 by done. cbn [ok_or mbind result_bind].
  rewrite parse_uint_pretty by lia. rewrite (proj2 (N.leb_le 16 p)), (proj2 (N.leb_le p 30)) by lia.
  cbn [andb ok_or mbind result_bind Cidr.network]. rewrite land_mask, Hal, N.sub_0_r, N.eqb_refl by lia. cbn [negb].
  assert (Hsh : N.shiftr net 24 = 127).
  { rewrite N.shiftr_div_pow2. change (2 ^ 24) with 16777216 in *. symmetry.
    apply (N.div_unique net 16777216 127 (net - 127 * 16777216)); lia. }
  rewrite Hsh, Hloc. done.
Qed.

(** Every address the pool hands out is a loopback address, and not 127.0.0.1. *)
Lemma assignable_bounds c raw :
  cidr_ok c → Cidr.assignable c raw = true →
  Cidr.network c < raw < Cidr.network c + 2 ^ (32 - Cidr.prefix c) - 1 ∧
  127 * 2 ^ 24 < raw < 128 * 2 ^ 24 ∧ raw ≠ LOCALHOST.
Proof.
  intros [Hp Hal Hloop Hloc] Ha. unfold Cidr.assignable, Cidr.contains in Ha.
  rewrite !andb_true_iff, !negb_true_iff, !N.leb_le, !N.eqb_neq, broadcast_eq in Ha by (done || lia).
  destruct Ha as [[[H1 H2] H3] H4]. assert (Hlt : Cidr.network c < raw < Cidr.network c + 2 ^ (32 - Cidr.prefix c) - 1) by lia.
  split; [done|]. split.
  - split; [lia|]. eapply N.lt_le_trans; [apply Hlt|].
    (* the network is a multiple of its size, which divides 128 * 2 ^ 24 *)
    pose proof (aligned_part (Cidr.network c) (2 ^ (32 - Cidr.prefix c)) ltac:(apply N.pow_nonzero; lia)) as Hn.
    rewrite Hal, N.sub_0_r in Hn. set (k := 32 - Cidr.prefix c) in *.
    assert (H24 : 128 * 2 ^ 24 = 2 ^ k * (128 * 2 ^ (24 - k))).
    { rewrite N.mul_assoc, (N.mul_comm (2 ^ k)), <-N.mul_assoc, <-N.pow_add_r. do 2 f_equal. lia. }
    rewrite H24 in *. set (m := Cidr.network c / 2 ^ k) in *. set (w := 128 * 2 ^ (24 - k)) in *.
    assert (Hm : m < w) by (apply (N.mul_lt_mono_pos_l (2 ^ k)); [apply N.neq_0_lt_0, N.pow_nonzero; lia|lia]).
    assert (2 ^ k * (m + 1) ≤ 2 ^ k * w) by (apply N.mul_le_mono_l; lia). lia.
  - intros ->. unfold Cidr.contains in Hloc. rewrite broadcast_eq in Hloc by (done || lia).
    apply andb_false_iff in Hloc as [Hloc%N.leb_gt|Hloc%N.leb_gt]; lia.
Qed.
End cidr.

(** ** Ports *)
Section ports.

Lemma parse_one_Ok text n : parse_one text = Ok n → 1 ≤ n ≤ 65535.
Proof.
  unfold parse_one. intros Hp. res_inv. unfold parse_uint in Hp.
  destruct (match text with String c rest => if Ascii.eqb c "+" then rest else text | EmptyString => text end); [done|].
  destruct (digits_value 0 _) as [v|]; [|done]. destruct (N.leb_spec v 65535); [|done].
  destruct (N.eqb_spec v 0); [done|]. simplify_eq. lia.
Qed.

Lemma parse_entry_Ok entry a b : parse_entry entry = Ok (a, b) → 1 ≤ a ≤ 65535 ∧ 1 ≤ b ≤ 65535.
Proof.
  unfold parse_entry. destruct (split_once "-" entry) as [[x y]|]; intros Hp; res_inv;
    by split; eapply parse_one_Ok.
Qed.

Lemma parse_one_pretty (n : N) : 1 ≤ n ≤ 65535 → parse_one (pretty n) = Ok n.
Proof.
  intros Hn. unfold parse_one. rewrite parse_uint_pretty by lia.
  by rewrite (proj2 (N.eqb_neq n 0)) by lia.
Qed.

Lemma trim_entry_text a b : trim (entry_text a b) = entry_text a b.
Proof.
  unfold entry_text. destruct (a =? b); [apply trim_number, pretty_number|].
  apply trim_printable.
  assert (Hcodes : ∀ x y, codes (x +:+ y) = codes x ++ codes y).
  { intros x y. unfold codes. induction x as [|c x IH]; [done|].
    change (String c x +:+ y) with (String c (x +:+ y)). cbn [String.list_ascii_of_string]. by rewrite !fmap_cons, IH. }
  assert (Hnum : ∀ n : N, ∃ c l z, codes (pretty n) = c :: l ∧ last (c :: l) = Some z ∧ printable c = true ∧ printable z = true).
  { intros n. destruct (pretty_number n) as [Hn _]. unfold is_number in Hn. apply andb_true_iff in Hn as [Hne Hd].
    pose proof (all_digits_last (pretty n)) as Hlast. destruct (pretty n) as [|c s]; [done|].
    change (codes (String c s)) with (N_of_ascii c :: codes s) in *.
    destruct (last (N_of_ascii c :: codes s)) as [z|] eqn:Ez; [|by apply last_None in Ez].
    eexists _, _, z. split_and!; [done|done| |by apply Hlast].
    cbn [all_digits] in Hd. apply andb_true_iff in Hd as [Hc _]. by apply digit_printable. }
  destruct (Hnum a) as (ca & la & za & Ha & _ & Hca & _). destruct (Hnum b) as (cb & lb & zb & Hb & Hzb & _ & Hpb).
  rewrite !Hcodes, Ha, Hb, !last_app, Hzb. cbn [app]. by rewrite Hca, Hpb.
Qed.

Lemma parse_entry_text a b : 1 ≤ a ≤ 65535 → 1 ≤ b ≤ 65535 → parse_entry (entry_text a b) = Ok (a, b).
Proof.
  intros Ha Hb. unfold parse_entry, entry_text.
  assert (Hd : ∀ n : N, lacks "-" (pretty n) = true).
  { intros n. apply lacks_number; [apply pretty_digits|]. right. by left. }
  destruct (N.eqb_spec a b) as [->|Hne].
  - rewrite split_once_None by done. by rewrite parse_one_pretty.
  - change ("-" +:+ pretty b) with (String "-" (pretty b)). rewrite split_once_at by done.
    rewrite !trim_number by apply pretty_number. by rewrite !parse_one_pretty.
Qed.

(** One step of the loop keeps or appends one normalized entry. *)
Lemma add_entry_Ok normalized set entry acc :
  add_entry (normalized, set) entry = Ok acc →
  acc = (normalized, set) ∨
  ∃ text a b, acc = (normalized ++ [text], set ∪ port_range a b) ∧ text ∉ normalized ∧
    (∀ normalized', text ∉ normalized' →
       add_entry (normalized', set) text = Ok (normalized' ++ [text], set ∪ port_range a b)) ∧
    N.of_nat (size (set ∪ port_range a b)) ≤ MANUAL_PORT_LIMIT.
Proof.
  unfold add_entry at 1. destruct (parse_entry (trim entry)) as [[a b]|] eqn:He; [|done]. cbn [mbind result_bind].
  apply parse_entry_Ok in He as [Ha Hb]. destruct (N.ltb_spec b a) as [|Hab]; [done|].
  destruct (one_of normalized (entry_text a b)) eqn:Hone; [intros [= <-]; by left|].
  destruct (N.ltb_spec MANUAL_PORT_LIMIT (N.of_nat (size (set ∪ port_range a b)))) as [|Hsize]; [done|].
  assert (Hnot : ∀ l, one_of l (entry_text a b) = false ↔ entry_text a b ∉ l).
  { intros l. rewrite <-one_of_spec. by destruct (one_of l (entry_text a b)). }
  intros [= <-]. right. exists (entry_text a b), a, b. split_and!; [done|by apply Hnot| |done].
  intros normalized' Hnew. unfold add_entry. rewrite trim_entry_text, parse_entry_text by done. cbn [mbind result_bind].
  rewrite (proj2 (N.ltb_ge b a)) by lia. rewrite (proj2 (Hnot normalized')) by done.
  by rewrite (proj2 (N.ltb_ge MANUAL_PORT_LIMIT _)) by done.
Qed.

Lemma parse_loop_Ok entries normalized set normalized' set' :
  fold_result add_entry (normalized, set) entries = Ok (normalized', set') →
  ∃ extra, normalized' = normalized ++ extra ∧ (length extra ≤ length entries)%nat ∧
    (NoDup normalized → NoDup normalized') ∧
    fold_result add_entry (normalized, set) extra = Ok (normalized', set').
Proof.
  revert normalized set. induction entries as [|entry entries IH]; intros normalized set; cbn [fold_result].
  - intros [= <- <-]. exists []. rewrite app_nil_r. by split_and!.
  - destruct (add_entry (normalized, set) entry) as [acc|] eqn:He; [|done].
    apply add_entry_Ok in He as [->|(text & a & b & -> & Hnew & Hagain & _)]; intros Hloop.
    + destruct (IH _ _ Hloop) as (extra & -> & Hlen & Hnd & Hrun). exists extra. split_and!; [done|simpl; lia|done|done].
    + destruct (IH _ _ Hloop) as (extra & -> & Hlen & Hnd & Hrun). exists (text :: extra).
      split_and!; [by rewrite <-app_assoc|simpl; lia| |].
      * intros Hn. apply Hnd. apply NoDup_app. split_and!; [done| |repeat constructor; by apply not_elem_of_nil].
        intros x Hx [->|Hno]%elem_of_cons; [done|by apply not_elem_of_nil in Hno].
      * cbn [fold_result]. by rewrite Hagain.
Qed.

(** Parsing normalized entries gives the same entries and the same ports. *)
Lemma parse_ports_normal entries normalized set :
  parse_ports entries = Ok (normalized, set) → parse_ports normalized = Ok (normalized, set).
Proof.
  unfold parse_ports. destruct (N.ltb_spec MANUAL_PORT_LIMIT (N.of_nat (length entries))) as [|Hle]; [done|].
  intros (extra & -> & Hlen & _ & Hrun)%parse_loop_Ok. cbn [app] in *.
  by rewrite (proj2 (N.ltb_ge MANUAL_PORT_LIMIT (N.of_nat (length extra)))) by lia.
Qed.
End ports.

(** ** The pool *)
#[local] Opaque auto_ports.
Section pool.
Implicit Types (pool : StoredIpPool) (a : StoredAssignment).

(** The ports an assignment stores are normalized. *)
Definition ports_ok a : Prop :=
  match port_mode a with
  | Auto => ports a = []
  | Manual => ∃ set, parse_ports (ports a) = Ok (ports a, set)
  end.

Definition pool_ok pool : Prop :=
  ∃ c, Cidr.parse (cidr_text pool) = Ok c ∧ 1 ≤ idle_minutes pool ≤ 1440 ∧
    NoDup (ip <$> assignments pool) ∧ NoDup (alias <$> assignments pool) ∧
    Forall (λ a, Cidr.assignable c (ip a) = true ∧ valid_alias (alias a) = true ∧ ports_ok a) (assignments pool) ∧
    listener_count pool None ≤ MAX_TOTAL_LISTENERS.

Lemma default_cidr_ok : ∃ c, Cidr.parse DEFAULT_CIDR = Ok c.
Proof. eexists. vm_compute. reflexivity. Qed.

Lemma listener_count_None pool : listener_count pool None = sum_ports (assignments pool).
Proof. unfold listener_count. by rewrite filter_all by (by apply Forall_forall). Qed.

Lemma sum_ports_app l1 l2 : sum_ports (l1 ++ l2) = sum_ports l1 + sum_ports l2.
Proof. unfold sum_ports. induction l1 as [|a l1 IH]; simpl; [done|]. rewrite IH. lia. Qed.

Lemma sum_ports_filter (P : StoredAssignment → Prop) `{∀ a, Decision (P a)} l : sum_ports (filter P l) ≤ sum_ports l.
Proof.
  induction l as [|a l IH]; [done|]. destruct (decide (P a)).
  - rewrite filter_cons_True by done. simpl. lia.
  - rewrite filter_cons_False by done. simpl. lia.
Qed.

Lemma listener_cap_le hard : listener_cap hard <= MAX_TOTAL_LISTENERS.
Proof. unfold listener_cap. destruct hard; lia. Qed.

(** *** Loading *)
Lemma retain_ok c l kept total :
  let ok kept := NoDup (ip <$> kept) ∧ NoDup (alias <$> kept) ∧
    Forall (λ a, Cidr.assignable c (ip a) = true ∧ valid_alias (alias a) = true ∧ ports_ok a) kept in
  ok kept ∧ total = sum_ports kept ∧ total ≤ MAX_TOTAL_LISTENERS →
  let '(kept', total') := foldl (retain_assignment c) (kept, total) l in
  ok kept' ∧ total' = sum_ports kept' ∧ total' ≤ MAX_TOTAL_LISTENERS.
Proof.
  intros ok. revert kept total. induction l as [|a l IH]; intros kept total Hinv; [done|].
  cbn [foldl]. destruct (retain_assignment c (kept, total) a) as [kept1 total1] eqn:Hr. apply IH. clear IH.
  unfold retain_assignment in Hr.
  destruct (match port_mode a with Auto => _ | Manual => _ end) as [[normalized count]|] eqn:Hp;
    [|by injection Hr as <- <-].
  destruct (_ && _) eqn:Hb; [|by injection Hr as <- <-]. injection Hr as <- <-.
  set (b := {| ip := ip a; alias := alias a; port_mode := port_mode a; ports := normalized |}).
  assert (Hports : ports_ok b ∧ port_count b = count).
  { unfold ports_ok, port_count, port_set. simpl. destruct (port_mode a).
    - revert Hp. generalize (N.of_nat (size auto_ports)). intros n Hp. by injection Hp as <- <-.
    - destruct (parse_ports (ports a)) as [[n set]|] eqn:Hparse; [|done]. injection Hp as <- <-.
      apply parse_ports_normal in Hparse. unfold ports_of. rewrite Hparse. split; [by exists set|done]. }
  rewrite !andb_true_iff, !negb_true_iff in Hb. destruct Hb as [[[[Hass Halias] Hip] Hname] Htotal%N.leb_le].
  destruct Hinv as ((Hips & Haliases & Hall) & -> & _). unfold ok. rewrite !fmap_app, sum_ports_app. cbn [fmap list_fmap].
  split_and!.
  - apply NoDup_app. split_and!; [done| |repeat constructor; by apply not_elem_of_nil].
    intros x (y & -> & Hy)%list_elem_of_fmap [Heq|Hno]%elem_of_cons; [|by apply not_elem_of_nil in Hno].
    rewrite <-not_true_iff_false, existsb_exists in Hip. apply Hip. exists y.
    rewrite <-list_elem_of_In, N.eqb_eq. done.
  - apply NoDup_app. split_and!; [done| |repeat constructor; by apply not_elem_of_nil].
    intros x (y & -> & Hy)%list_elem_of_fmap [Heq|Hno]%elem_of_cons; [|by apply not_elem_of_nil in Hno].
    rewrite <-not_true_iff_false, existsb_exists in Hname. apply Hname. exists y.
    rewrite <-list_elem_of_In, String.eqb_eq. done.
  - apply Forall_app. split; [done|]. constructor; [by destruct Hports|done].
  - destruct Hports as [_ <-]. change (sum_ports [b]) with (port_count b + 0). by rewrite N.add_0_r.
  - done.
Qed.

Lemma from_stored_ok value : pool_ok (from_stored value).
Proof.
  destruct default_cidr_ok as [c0 Hc0].
  assert (Hdefault : pool_ok StoredIpPool_default).
  { exists c0. split_and!; try done; constructor. }
  unfold from_stored. destruct value as [pool|]; [|done].
  destruct (match Cidr.parse (cidr_text pool) with Ok c => Ok c | Err _ => Cidr.parse DEFAULT_CIDR end) as [c|] eqn:Hc; [|done].
  assert (Hok : cidr_ok c).
  { destruct (Cidr.parse (cidr_text pool)) eqn:Hp; [injection Hc as <-|]; by eapply parse_cidr_ok. }
  pose proof (retain_ok c (assignments pool) [] 0) as Hr.
  destruct (foldl (retain_assignment c) ([], 0) (assignments pool)) as [kept total].
  destruct Hr as ((Hips & Haliases & Hall) & -> & Htotal); [split_and!; done || constructor|].
  exists c. cbn [cidr_text idle_minutes assignments fst]. rewrite listener_count_None. cbn [assignments].
  split_and!; try done; [by apply cidr_text_roundtrip|lia|lia].
Qed.

(** *** Commands *)
Inductive PoolOp : Type :=
  | SetPool (supported : bool) (answer : result AppError unit) (input : PoolConfigInput)
  | Create (hard : option N) (host_known answer : result AppError unit) (input : AssignmentInput)
  | Update (hard : option N) (answer : result AppError unit) (raw : N) (input : AssignmentUpdate)
  | Delete (answer : result AppError unit) (raw : N).
Definition run_pool (op : PoolOp) pool : StoredIpPool :=
  match op with
  | SetPool supported answer input => (set_ip_pool supported answer input pool).1
  | Create hard known answer input => (create_ip_assignment hard known answer input pool).1
  | Update hard answer raw input => (update_ip_assignment hard answer raw input pool).1
  | Delete answer raw => (delete_ip_assignment answer raw pool).1
  end.

Lemma save_ok answer next pool : pool_ok pool → pool_ok next → pool_ok (save answer next pool).1.
Proof. unfold save. by destruct answer. Qed.

Lemma apply_config_ok supported pool input next :
  pool_ok pool → apply_config supported pool input = Ok next → pool_ok next.
Proof.
  intros (c0 & _ & _ & Hips & Haliases & Hall & Hcount). unfold apply_config. intros Happ. res_inv.
  destruct (Cidr.parse _) as [c|] eqn:Hc; [|done]. cbn [map_err] in *.
  destruct (_ && _ && _ && _) eqn:Hidle; [|done].
  destruct (in_enabled input && _); [done|]. destruct (find _ (assignments pool)) eqn:Hfind; [done|]. simplify_eq.
  rewrite !andb_true_iff, !Z.leb_le in Hidle. apply parse_cidr_ok in Hc.
  exists x. rewrite listener_count_None in *. cbn [cidr_text idle_minutes assignments].
  split_and!; try done; [by apply cidr_text_roundtrip|lia|lia|].
  apply Forall_forall. intros a Ha. destruct (proj1 (Forall_forall _ _) Hall a Ha) as (_ & ? & ?).
  split_and!; try done. pose proof (find_none _ _ Hfind a) as Hno. rewrite <-list_elem_of_In in Hno.
  by apply negb_false_iff, Hno.
Qed.

Lemma checked_ports_ok mode l checked raw name :
  checked_ports mode l = Ok checked → ports_ok {| ip := raw; alias := name; port_mode := mode; ports := checked |}.
Proof.
  unfold checked_ports, ports_ok. simpl. destruct mode; [by intros [= <-]|].
  destruct (default [] l) as [|x xs]; [done|]. destruct (parse_ports (x :: xs)) as [[n set]|] eqn:Hp; [|done].
  cbn. intros [= <-]. apply parse_ports_normal in Hp. eauto.
Qed.

Lemma not_used l raw : existsb (λ a, ip a =? raw) l = false → raw ∉ ip <$> l.
Proof.
  intros Hex (a & -> & Hin)%list_elem_of_fmap. rewrite <-not_true_iff_false, existsb_exists in Hex.
  apply Hex. exists a. rewrite <-list_elem_of_In, N.eqb_eq. done.
Qed.

Lemma hosts_assignable c raw : cidr_ok c → raw ∈ Cidr.hosts c → Cidr.assignable c raw = true.
Proof.
  intros [Hp Hal _ _] Hin. unfold Cidr.hosts in Hin. apply elem_of_range_N in Hin.
  assert (Hpos : 2 ^ (32 - Cidr.prefix c) ≠ 0) by (apply N.pow_nonzero; lia).
  unfold Cidr.assignable, Cidr.contains. rewrite broadcast_eq in * by (done || lia).
  rewrite !andb_true_iff, !negb_true_iff, !N.leb_le, !N.eqb_neq. lia.
Qed.

(** What a new assignment is: assignable, unused and within the cap. *)
Lemma new_assignment_Ok hard pool input a :
  new_assignment hard pool input = Ok a →
  ∃ c, Cidr.parse (cidr_text pool) = Ok c ∧ Cidr.assignable c (ip a) = true ∧ valid_alias (alias a) = true ∧
    ip a ∉ ip <$> assignments pool ∧ alias a ∉ alias <$> assignments pool ∧ ports_ok a ∧
    sum_ports (assignments pool) + port_count a ≤ listener_cap hard.
Proof.
  unfold new_assignment. intros Hn. res_inv.
  destruct (Cidr.parse (cidr_text pool)) as [c|] eqn:Hc; [|done]. cbn [map_err] in *.
  destruct (find _ (assignments pool)) as [taken|] eqn:Hfind; [done|]. res_inv.
  match goal with H : check_listener_cap _ _ _ _ = Ok _ |- _ => rename H into Hcap end.
  unfold check_listener_cap in Hcap. res_inv. apply N.leb_le in Hcap. rewrite listener_count_None in Hcap.
  eexists. split; [done|]. cbn [ip alias].
  assert (Hraw : Cidr.assignable x x2 = true ∧ existsb (λ a, ip a =? x2) (assignments pool) = false).
  { destruct (match trim <$> in_ip input with Some "" => None | o => o end) as [text|]; res_inv.
    - match goal with H : negb _ = true |- _ => apply negb_true_iff in H end. done.
    - match goal with H : find _ _ = Some _ |- _ => apply find_some in H as [Hin Hno%negb_true_iff] end.
      split; [|done]. apply hosts_assignable; [by eapply parse_cidr_ok|by apply list_elem_of_In]. }
  destruct Hraw as [Hass Hused]. split_and!; [done|done|by apply not_used| |by eapply checked_ports_ok|done].
  intros (b & Heq & Hin)%list_elem_of_fmap. pose proof (find_none _ _ Hfind b) as Hno.
  rewrite <-list_elem_of_In in Hno. specialize (Hno Hin). apply String.eqb_neq in Hno. done.
Qed.

Lemma create_ok hard known answer input pool :
  pool_ok pool → pool_ok (create_ip_assignment hard known answer input pool).1.
Proof.
  intros Hok. unfold create_ip_assignment. destruct known as [u|]; [|done]. cbn [mbind result_bind].
  destruct (new_assignment hard pool input) as [a|] eqn:Hn; [|done].
  assert (Hnext : pool_ok (set_assignments (assignments pool ++ [a]) pool)).
  { apply new_assignment_Ok in Hn as (c & Hc & Hass & Hal & Hip & Hname & Hports & Hcap).
    destruct Hok as (c' & Hc' & [? ?] & Hips & Haliases & Hall & Hcount). rewrite Hc in Hc'. injection Hc' as <-.
    exists c. rewrite listener_count_None. cbn [set_assignments cidr_text idle_minutes assignments].
    rewrite !fmap_app, sum_ports_app. split_and!; try done.
    - apply NoDup_app. split_and!; [done| |repeat constructor; by apply not_elem_of_nil].
      intros x Hx [->|Hno]%elem_of_cons; [done|by apply not_elem_of_nil in Hno].
    - apply NoDup_app. split_and!; [done| |repeat constructor; by apply not_elem_of_nil].
      intros x Hx [->|Hno]%elem_of_cons; [done|by apply not_elem_of_nil in Hno].
    - apply Forall_app. split; [done|]. by repeat constructor.
    - change (sum_ports [a]) with (port_count a + 0). pose proof (listener_cap_le hard). lia. }
  pose proof (save_ok answer _ _ Hok Hnext) as Hs. by destruct (save answer _ pool) as [p [v|e]].
Qed.

Lemma replace_fields raw updated l :
  ip updated = raw → (∀ a, a ∈ l → ip a = raw → alias a = alias updated) →
  ip <$> replace_assignment raw updated l = ip <$> l ∧ alias <$> replace_assignment raw updated l = alias <$> l.
Proof.
  intros Hip. induction l as [|a l IH]; intros Hal; [done|]. simpl. destruct (N.eqb_spec (ip a) raw) as [Heq|Hne].
  - rewrite !fmap_cons. split; f_equal; [congruence|]. symmetry. apply Hal; [by left|done].
  - rewrite !fmap_cons. destruct IH as [-> ->]; [|done]. intros b Hb. apply Hal. by right.
Qed.

Lemma replace_elem raw updated l a : a ∈ replace_assignment raw updated l → a = updated ∨ a ∈ l.
Proof.
  induction l as [|b l IH]; simpl; [by right|]. destruct (ip b =? raw).
  - intros [->|Hin]%elem_of_cons; [by left|right; by right].
  - intros [->|Hin]%elem_of_cons; [right; by left|]. destruct (IH Hin); [by left|right; by right].
Qed.

Lemma replace_sum raw updated l :
  NoDup (ip <$> l) → raw ∈ ip <$> l →
  sum_ports (replace_assignment raw updated l) = sum_ports (filter (λ a, Some (ip a) ≠ Some raw) l) + port_count updated.
Proof.
  intros Hnd Hin. induction l as [|a l IH]; [by apply not_elem_of_nil in Hin|].
  rewrite fmap_cons in Hnd, Hin. apply NoDup_cons in Hnd as [Hno Hnd]. cbn [replace_assignment].
  destruct (N.eqb_spec (ip a) raw) as [Heq|Hne].
  - rewrite filter_cons_False by (rewrite Heq; naive_solver). rewrite filter_all.
    + simpl. lia.
    + apply Forall_forall. intros b Hb [= Hbr]. apply Hno. rewrite Heq, <-Hbr. by apply list_elem_of_fmap_2.
  - rewrite filter_cons_True by congruence. apply elem_of_cons in Hin as [Hr|Hin]; [congruence|].
    simpl. rewrite (IH Hnd Hin). lia.
Qed.

Lemma update_ok hard answer raw input pool :
  pool_ok pool → pool_ok (update_ip_assignment hard answer raw input pool).1.
Proof.
  intros Hok. unfold update_ip_assignment. destruct (update_assignment hard pool raw input) as [updated|] eqn:Hu; [|done].
  cbv zeta. destruct (decide _); [done|]. apply save_ok; [done|].
  unfold update_assignment, assignment, check_listener_cap in Hu. res_inv.
  match goal with H : find _ _ = Some ?a |- _ => apply find_some in H as [Hin Hraw%N.eqb_eq]; rename a into current end.
  match goal with H : (_ <=? _) = true |- _ => apply N.leb_le in H; rename H into Hcap end.
  match goal with H : checked_ports _ _ = Ok _ |- _ => eapply (checked_ports_ok _ _ _ raw (alias current)) in H; rename H into Hports end.
  rewrite <-list_elem_of_In in Hin.
  destruct Hok as (c & Hc & [? ?] & Hips & Haliases & Hall & Hcount). exists c. rewrite listener_count_None.
  cbn [set_assignments cidr_text idle_minutes assignments]. rewrite Hraw in *.
  destruct (replace_fields raw {| ip := raw; alias := alias current; port_mode := up_port_mode input; ports := x0 |}
    (assignments pool)) as [-> ->]; [done| |].
  { intros b Hb Hbr. simpl. f_equal. apply list_elem_of_lookup in Hb as [i Hi], Hin as [j Hj].
    assert (i = j) as ->; [|congruence]. eapply (NoDup_lookup (ip <$> assignments pool)); [done|..];
      rewrite list_lookup_fmap; [by rewrite Hi|rewrite Hj; simpl; congruence]. }
  split_and!; try done.
  - apply Forall_forall. intros b [->|Hb]%replace_elem; [|by apply (proj1 (Forall_forall _ _) Hall)].
    destruct (proj1 (Forall_forall _ _) Hall current Hin) as (? & ? & _). rewrite Hraw in *. done.
  - rewrite replace_sum; [|done|rewrite <-Hraw; by apply list_elem_of_fmap_2].
    unfold listener_count in Hcap. pose proof (listener_cap_le hard). lia.
Qed.

Lemma delete_ok answer raw pool : pool_ok pool → pool_ok (delete_ip_assignment answer raw pool).1.
Proof.
  intros Hok. unfold delete_ip_assignment. destruct (assignment pool raw); [|done]. apply save_ok; [done|].
  destruct Hok as (c & Hc & [? ?] & Hips & Haliases & Hall & Hcount). exists c.
  rewrite listener_count_None in *. cbn [set_assignments cidr_text idle_minutes assignments].
  set (l := filter (λ a, ip a ≠ raw) (assignments pool)).
  assert (Hsub : l `sublist_of` assignments pool) by apply sublist_filter.
  split_and!; try done.
  - eapply sublist_NoDup; [exact Hips|by apply fmap_sublist].
  - eapply sublist_NoDup; [exact Haliases|by apply fmap_sublist].
  - apply Forall_forall. intros b Hb. apply (proj1 (Forall_forall _ _) Hall). by eapply elem_of_sublist.
  - etrans; [apply sum_ports_filter|done].
Qed.

(** the loopback pool stays consistent from any stored file through any
    commands: its range parses, addresses and hosts are assigned once, ports
    are normalized, the listeners stay under the limit, and every assigned
    address is a host address of the range inside 127.0.0.0/8 and not
    127.0.0.1. *)
Theorem pool_stays_consistent value ops :
  let pool := foldl (λ pool op, run_pool op pool) (from_stored value) ops in
  pool_ok pool ∧
  ∀ a, a ∈ assignments pool → 127 * 2 ^ 24 < ip a < 128 * 2 ^ 24 ∧ ip a ≠ LOCALHOST.
Proof.
  cbv zeta. assert (Hok : pool_ok (foldl (λ pool op, run_pool op pool) (from_stored value) ops)).
  { generalize (from_stored_ok value). generalize (from_stored value).
    induction ops as [|op ops IH]; intros pool Hok; [done|]. simpl. apply IH. destruct op; cbn [run_pool].
    - unfold set_ip_pool. destruct (apply_config supported pool input) as [next|] eqn:Ha; [|done].
      destruct (decide (next = pool)); [done|]. apply save_ok; [done|by eapply apply_config_ok].
    - by apply create_ok.
    - by apply update_ok.
    - by apply delete_ok. }
  split; [done|]. destruct Hok as (c & Hc & _ & _ & _ & Hall & _). intros a Ha.
  destruct (proj1 (Forall_forall _ _) Hall a Ha) as [Hass _]. apply parse_cidr_ok in Hc.
  by destruct (assignable_bounds c (ip a) Hc Hass) as (_ & ? & ?).
Qed.
End pool.

(** The first free address of the default range, with normalized ports. *)
Example create_first :
  assignments (run_pool (Create None (Ok tt) (Ok tt)
    {| in_ip := None; in_alias := " db "; in_port_mode := Manual; in_ports := Some [" 8080 "; "7000 - 7001"; "8080"] |})
    (from_stored None)) =
  [{| ip := 0x7f4d0001; alias := "db"; port_mode := Manual; ports := ["8080"; "7000-7001"] |}].
Proof. vm_compute. reflexivity. Qed.
