(* ===== verification/Handshake.v ===== *)
(** * Transport v2 key agreement and the pairing keys

    Model of src/src/transport_crypto/handshake.rs and of the pairing keys in
    src/src/transport_crypto/mod.rs: the transcript and key schedule of a
    WebSocket session and of a tunnel request, the server's side of the key
    agreement, the file the static keys live in and the store that reloads it.
    HKDF and ML-KEM-768 come from third-party crates ([TransportCrypto]);
    X25519, SHA-256 and base64 are those of [PairingCrypto] and [AuthCrypto].
    The client's side follows the protocol's documentation. *)
From S2P Require Import Prelude Bytes Query Channel DeviceAuth Devices Pairing PairingExchange.
From Stdlib Require Import Strings.Byte.
Local Open Scope N_scope.

Definition WS_LABEL : bytes := Eval vm_compute in b "todex.transport.v2/ws".
Definition REST_LABEL : bytes := Eval vm_compute in b "todex.transport.v2/rest".
Definition NONCE_LENGTH : nat := 32.
Definition RESPONSE_NONCE_LENGTH : nat := 32.
Definition KEY_LENGTH : nat := 32.
Definition ML_KEM_768_CIPHERTEXT_LENGTH : nat := N.to_nat 1088.
Definition PAIRING_VERSION : N := 1.
Definition INFO_UP : bytes := Eval vm_compute in b "/up".
Definition INFO_DOWN : bytes := Eval vm_compute in b "/down".

Inductive EncryptionProtocol : Type := EpX25519 | EpMlKem768.
#[export] Instance EncryptionProtocol_eq_dec : EqDecision EncryptionProtocol.
Proof. solve_decision. Defined.

Definition EncryptionProtocol_parse (value : bytes) : option EncryptionProtocol :=
  if decide (value = b "x25519") then Some EpX25519
  else if decide (value = b "ml-kem-768" ∨ value = b "mlkem768") then Some EpMlKem768
  else None.
Definition EncryptionProtocol_as_str (p : EncryptionProtocol) : bytes :=
  match p with EpX25519 => b "x25519" | EpMlKem768 => b "ml-kem-768" end.

(** The fields of [pairing_keys.json]. *)
Record PersistedPairingKeys : Type := {
  pk_version : N; pk_x25519_secret : bytes; pk_ml_kem_public : bytes; pk_ml_kem_secret : bytes;
}.

(** A version of the file: its stamp and its bytes; [None] when it is missing. *)
Abbreviation KeysFile := (option (FileStamp * bytes)).

(** HKDF-SHA256 with a 32-byte output, ML-KEM-768 with its expanded key
    encoding, and the JSON text of the key file. *)
Class TransportCrypto := {
  hkdf_extract : bytes → bytes → bytes;               (* salt, input key material *)
  hkdf_expand : bytes → bytes → bytes;                (* pseudorandom key, info *)
  MlKemSecret : Type;
  from_expanded_bytes : bytes → option MlKemSecret;
  to_expanded_bytes : MlKemSecret → bytes;
  encapsulation_key : MlKemSecret → bytes;
  decapsulate : MlKemSecret → bytes → bytes;
  encapsulate : bytes → bytes → bytes * bytes;        (* public key, randomness; ciphertext, shared *)
  keys_from_json : bytes → option PersistedPairingKeys;
  keys_to_json : PersistedPairingKeys → bytes;
}.

(** Documented behaviour of those crates. *)
Class TransportLaws `{TransportCrypto} : Prop := {
  extract_length salt ikm : length (hkdf_extract salt ikm) = 32%nat;
  expanded_reads s : from_expanded_bytes (to_expanded_bytes s) = Some s;
  encapsulated_length pk r : length (encapsulate pk r).1 = ML_KEM_768_CIPHERTEXT_LENGTH;
  decapsulates s r : decapsulate s (encapsulate (encapsulation_key s) r).1 = (encapsulate (encapsulation_key s) r).2;
  keys_json_reads k : keys_from_json (keys_to_json k) = Some k;
}.

(** ** The key schedule *)
Record KeyScheduleInput : Type := {
  ki_label : bytes;
  ki_protocol : EncryptionProtocol;
  ki_device_id : bytes;
  ki_server_static_public : bytes;
  ki_client_material : bytes;
  ki_client_nonce : bytes;
  ki_server_nonce : bytes;
  ki_shared : bytes;
}.

Section schedule.
Context `{AuthCrypto} `{TransportCrypto}.

(** [update_lp]: the hasher is the bytes it was fed. *)
Definition update_lp (hasher value : bytes) : bytes := hasher ++ length_prefixed value.

(** What [transcript_hash] feeds its hasher. *)
Definition hashed_transcript (input : KeyScheduleInput) : bytes :=
  let h := update_lp [] (ki_label input) in
  let h := update_lp h (EncryptionProtocol_as_str (ki_protocol input)) in
  let h := update_lp h (ki_device_id input) in
  let h := update_lp h (ki_server_static_public input) in
  let h := update_lp h (ki_client_material input) in
  let h := update_lp h (ki_client_nonce input) in
  update_lp h (ki_server_nonce input).
Definition transcript_hash (input : KeyScheduleInput) : bytes := sha256 (hashed_transcript input).

(** [th] and [prk]. *)
Definition extract_prk (input : KeyScheduleInput) : bytes * bytes :=
  let th := transcript_hash input in (th, hkdf_extract th (ki_shared input)).

(** [Hkdf::from_prk] refuses a key shorter than the hash; the infos are
    concatenated, and 32 bytes of output are always available. *)
Definition expand (prk : bytes) (info : list bytes) : result TransportCryptoError bytes :=
  if (length prk <? 32)%nat then Err (TransportCryptoError_new "key derivation")
  else Ok (hkdf_expand prk (concat info)).

Definition derive_keys (input : KeyScheduleInput) : result TransportCryptoError TransportKeys :=
  let '(th, prk) := extract_prk input in
  let label := ki_label input in
  up ← expand prk [label; INFO_UP];
  down ← expand prk [label; INFO_DOWN];
  Ok {| k_up := up; k_down := down; keys_th := th |}.

Record RestKeys : Type := { rk_th : bytes; rk_k_up : bytes; rk_prk : bytes }.

(** [(th, k_down)] of one response. *)
Definition into_k_down (self : RestKeys) (response_nonce : bytes) : result TransportCryptoError (bytes * bytes) :=
  k_down ← expand (rk_prk self) [REST_LABEL; INFO_DOWN; response_nonce];
  Ok (rk_th self, k_down).

Definition derive_rest_keys (input : KeyScheduleInput) : result TransportCryptoError RestKeys :=
  if negb (bool_decide (ki_label input = REST_LABEL)) then Err (TransportCryptoError_new "rest key schedule label")
  else
    let '(th, prk) := extract_prk input in
    up ← expand prk [REST_LABEL; INFO_UP];
    Ok {| rk_th := th; rk_k_up := up; rk_prk := prk |}.
End schedule.

(** ** The server's keys *)
Section server.
Context `{AuthCrypto} `{PairingCrypto} `{TransportCrypto}.

Record PairingKeys : Type := {
  x25519_secret : bytes;
  x25519_static : bytes;      (* the public key *)
  ml_kem_secret : MlKemSecret;
  ml_kem_public : bytes;
}.

(** [PairingKeys::generate] from what the random generators return. *)
Definition PairingKeys_generate (secret : bytes) (ml_kem : MlKemSecret) : PairingKeys :=
  {| x25519_secret := secret; x25519_static := x25519_public secret;
     ml_kem_secret := ml_kem; ml_kem_public := encapsulation_key ml_kem |}.

Definition static_public (self : PairingKeys) (protocol : EncryptionProtocol) : bytes :=
  match protocol with EpX25519 => x25519_static self | EpMlKem768 => ml_kem_public self end.

Definition transport_public_key (self : PairingKeys) (encryption : PairingEncryption) : bytes :=
  match encryption with
  | Plaintext => []
  | X25519 => static_public self EpX25519
  | MlKem768 => static_public self EpMlKem768
  end.

(** A slice of the right length always decapsulates. *)
Definition agree (self : PairingKeys) (protocol : EncryptionProtocol) (client_material : bytes) :
    result TransportCryptoError bytes :=
  match protocol with
  | EpX25519 =>
      if negb (length client_material =? 32)%nat then Err (TransportCryptoError_new "x25519 client key length")
      else
        let shared := diffie_hellman (x25519_secret self) client_material in
        if decide (shared = repeat Byte.x00 32) then Err (TransportCryptoError_new "x25519 shared secret is zero")
        else Ok shared
  | EpMlKem768 =>
      if negb (length client_material =? ML_KEM_768_CIPHERTEXT_LENGTH)%nat
      then Err (TransportCryptoError_new "ml-kem-768 ciphertext length")
      else Ok (decapsulate (ml_kem_secret self) client_material)
  end.

Definition server_schedule {T} (self : PairingKeys) (label : bytes) (protocol : EncryptionProtocol)
    (device_id client_material client_nonce server_nonce : bytes)
    (schedule : KeyScheduleInput → result TransportCryptoError T) : result TransportCryptoError T :=
  if negb (length client_nonce =? NONCE_LENGTH)%nat then Err (TransportCryptoError_new "client nonce length")
  else
    shared ← agree self protocol client_material;
    schedule {| ki_label := label; ki_protocol := protocol; ki_device_id := device_id;
                ki_server_static_public := static_public self protocol; ki_client_material := client_material;
                ki_client_nonce := client_nonce; ki_server_nonce := server_nonce; ki_shared := shared |}.

Definition server_session_keys (self : PairingKeys) (label : bytes) (protocol : EncryptionProtocol)
    (device_id client_material client_nonce server_nonce : bytes) : result TransportCryptoError TransportKeys :=
  server_schedule self label protocol device_id client_material client_nonce server_nonce derive_keys.

Definition server_rest_keys (self : PairingKeys) (protocol : EncryptionProtocol)
    (client_material client_nonce : bytes) : result TransportCryptoError RestKeys :=
  server_schedule self REST_LABEL protocol [] client_material client_nonce [] derive_rest_keys.

Definition decode_b64url (value : bytes) : result TransportCryptoError bytes :=
  ok_or (base64_decode value) (TransportCryptoError_new "invalid base64url").

(** ** The key file *)

Definition decode_b64 (value : bytes) (label : string) : result AppError bytes :=
  ok_or (base64_decode value) (InvalidRequest ("invalid base64 for " +:+ label)).
Definition decode_fixed_32 (value : bytes) (label : string) : result AppError bytes :=
  raw ← decode_b64 value label;
  if (length raw =? 32)%nat then Ok raw else Err (InvalidRequest (label +:+ " must be 32 bytes")).

(** The document [persist] writes. *)
Definition persisted (self : PairingKeys) : PersistedPairingKeys :=
  {| pk_version := PAIRING_VERSION;
     pk_x25519_secret := base64_encode (x25519_secret self);
     pk_ml_kem_public := base64_encode (ml_kem_public self);
     pk_ml_kem_secret := base64_encode (to_expanded_bytes (ml_kem_secret self)) |}.

(** The parser's message and the version number are left out of the errors. *)
Definition from_persisted_json (raw : bytes) : result AppError PairingKeys :=
  p ← ok_or (keys_from_json raw) (InvalidRequest "invalid pairing keys file");
  if negb (pk_version p =? PAIRING_VERSION) then Err (InvalidRequest "pairing keys file version is not supported")
  else
    secret ← decode_fixed_32 (pk_x25519_secret p) "x25519 pairing secret";
    expanded ← decode_b64 (pk_ml_kem_secret p) "ml-kem-768 pairing secret";
    ml_kem ← ok_or (from_expanded_bytes expanded) (InvalidRequest "ml-kem-768 pairing secret is invalid");
    public ← decode_b64 (pk_ml_kem_public p) "ml-kem-768 pairing public key";
    if negb (bool_decide (encapsulation_key ml_kem = public))
    then Err (InvalidRequest "ml-kem-768 pairing public key is invalid")
    else Ok {| x25519_secret := secret; x25519_static := x25519_public secret;
               ml_kem_secret := ml_kem; ml_kem_public := public |}.

Definition missing : AppError := IoError "not found".

(** [FileStamp::read]. *)
Definition stamp_of (file : KeysFile) : result AppError FileStamp := ok_or (fst <$> file) missing.
(** [read_to_string]. *)
Definition read_to_string (file : KeysFile) : result AppError bytes :=
  raw ← ok_or (snd <$> file) missing;
  if utf8_valid raw then Ok raw else Err (IoError "stream did not contain valid UTF-8").

(** The keys a version of the file holds: the reference the store is measured
    against. *)
Definition keys_in (file : KeysFile) : result AppError PairingKeys :=
  raw ← read_to_string file; from_persisted_json raw.

(** ** The reloading store *)
Record KeyStoreState : Type := { ks_keys : PairingKeys; ks_stamp : FileStamp }.

(** [PairingKeys::load_or_generate]: a missing file is generated and written;
    [write] is what writing answers. *)
Definition load_or_generate (file : KeysFile) (generated : PairingKeys) (write : result AppError unit) :
    result AppError PairingKeys :=
  match file with
  | Some _ => keys_in file
  | None => _ ← write; Ok generated
  end.

(** [PairingKeyStore::load]: the file as the read and then the stat see it. *)
Definition PairingKeyStore_load (at_read : KeysFile) (generated : PairingKeys) (write : result AppError unit)
    (at_stat : KeysFile) : result AppError KeyStoreState :=
  keys ← load_or_generate at_read generated write;
  stamp ← stamp_of at_stat;
  Ok {| ks_keys := keys; ks_stamp := stamp |}.

(** [PairingKeyStore::current]: the file as the stat and then the read see it. *)
Definition current (at_stat at_read : KeysFile) : M KeyStoreState AppError PairingKeys := λ state,
  match stamp_of at_stat with
  | Err e => (state, Err e)
  | Ok stamp =>
      if bool_decide (stamp = ks_stamp state) then (state, Ok (ks_keys state))
      else
        match keys_in at_read with
        | Err e => (state, Err e)
        | Ok keys => ({| ks_keys := keys; ks_stamp := stamp |}, Ok keys)
        end
  end.
End server.

(** ** The client *)

(** The client's side of the agreement under the key it pinned at pairing: an
    ephemeral X25519 key, or an encapsulation. The result is what it sends and
    the secret it keeps. *)
Definition client_agree `{PairingCrypto} `{TransportCrypto} (protocol : EncryptionProtocol) (pinned ephemeral : bytes) :
    bytes * bytes :=
  match protocol with
  | EpX25519 => (x25519_public ephemeral, diffie_hellman ephemeral pinned)
  | EpMlKem768 => encapsulate pinned ephemeral
  end.

Definition client_input `{PairingCrypto} `{TransportCrypto} (label : bytes) (protocol : EncryptionProtocol)
    (pinned ephemeral device_id client_nonce server_nonce : bytes) : KeyScheduleInput :=
  let '(material, shared) := client_agree protocol pinned ephemeral in
  {| ki_label := label; ki_protocol := protocol; ki_device_id := device_id; ki_server_static_public := pinned;
     ki_client_material := material; ki_client_nonce := client_nonce; ki_server_nonce := server_nonce;
     ki_shared := shared |}.

(** ** The transcript *)

Lemma as_str_inj p q : EncryptionProtocol_as_str p = EncryptionProtocol_as_str q → p = q.
Proof. by destruct p, q. Qed.
Lemma as_str_short p : N.of_nat (length (EncryptionProtocol_as_str p)) < 2 ^ 32.
Proof. by destruct p. Qed.
Lemma parse_as_str p : EncryptionProtocol_parse (EncryptionProtocol_as_str p) = Some p.
Proof. by destruct p. Qed.

(** Fields whose length fits the 32-bit prefix. *)
Definition transcript_fields_fit (i : KeyScheduleInput) : Prop :=
  Forall (λ f : bytes, N.of_nat (length f) < 2 ^ 32)
    [ki_label i; ki_device_id i; ki_server_static_public i; ki_client_material i; ki_client_nonce i; ki_server_nonce i].

Definition public_fields (i : KeyScheduleInput) :=
  (ki_label i, ki_protocol i, ki_device_id i, ki_server_static_public i, ki_client_material i,
   ki_client_nonce i, ki_server_nonce i).

(** a transcript determines every public field of the handshake. *)
Theorem transcript_binds_handshake x y :
  transcript_fields_fit x → transcript_fields_fit y → hashed_transcript x = hashed_transcript y → public_fields x = public_fields y.
Proof.
  unfold transcript_fields_fit, hashed_transcript, update_lp. rewrite !Forall_cons. cbn [app]. rewrite <-!app_assoc.
  intros (Hx1 & Hx2 & Hx3 & Hx4 & Hx5 & Hx6 & _) (Hy1 & Hy2 & Hy3 & Hy4 & Hy5 & Hy6 & _) E.
  apply length_prefixed_app in E as [E1 E]; [|done..].
  apply length_prefixed_app in E as [E2 E]; [|apply as_str_short..].
  do 4 (apply length_prefixed_app in E as [? E]; [|done..]).
  rewrite <-(app_nil_r (length_prefixed (ki_server_nonce x))), <-(app_nil_r (length_prefixed (ki_server_nonce y))) in E.
  apply length_prefixed_app in E as [? _]; [|done..]. apply as_str_inj in E2. unfold public_fields. congruence.
Qed.

(** ** Agreement *)
Section agreement.
Context `{PairingLaws} `{!TransportCrypto} `{!TransportLaws} `{AeadLaws}.

(** Keys as [generate] and [from_persisted_json] build them. *)
Definition keys_ok (keys : PairingKeys) : Prop :=
  x25519_static keys = x25519_public (x25519_secret keys) ∧
  ml_kem_public keys = encapsulation_key (ml_kem_secret keys).

(** The client's ephemeral key is usable: X25519 public keys have 32 bytes, and
    the agreed secret is not the all-zero one of a small-order point. *)
Definition usable (protocol : EncryptionProtocol) (pinned ephemeral : bytes) : Prop :=
  match protocol with
  | EpX25519 => length (x25519_public ephemeral) = 32%nat ∧ diffie_hellman ephemeral pinned ≠ repeat Byte.x00 32
  | EpMlKem768 => True
  end.

Lemma agree_client keys protocol ephemeral :
  keys_ok keys → usable protocol (static_public keys protocol) ephemeral →
  let '(material, shared) := client_agree protocol (static_public keys protocol) ephemeral in
  agree keys protocol material = Ok shared.
Proof.
  intros [Hx Hm] Hu. destruct protocol; simpl in *.
  - destruct Hu as [-> Hz]. simpl. rewrite (dh_agrees (x25519_secret keys) ephemeral), <-Hx.
    by rewrite decide_False.
  - rewrite Hm. pose proof (decapsulates (ml_kem_secret keys) ephemeral) as Hd.
    pose proof (encapsulated_length (encapsulation_key (ml_kem_secret keys)) ephemeral) as Hl.
    destruct (encapsulate _ ephemeral) as [ct ss]; simpl in *. by rewrite Hl, Nat.eqb_refl, Hd.
Qed.

(** The server's schedule sees the client's input. *)
Lemma server_schedule_client {T} keys label protocol ephemeral device_id cn sn
    (schedule : KeyScheduleInput → result TransportCryptoError T) :
  keys_ok keys → usable protocol (static_public keys protocol) ephemeral → length cn = NONCE_LENGTH →
  server_schedule keys label protocol device_id (client_agree protocol (static_public keys protocol) ephemeral).1 cn sn
    schedule
  = schedule (client_input label protocol (static_public keys protocol) ephemeral device_id cn sn).
Proof.
  intros Hk Hu Hn. unfold server_schedule, client_input. rewrite Hn. cbn [negb Nat.eqb].
  pose proof (agree_client keys protocol ephemeral Hk Hu) as Ha.
  destruct (client_agree _ _ ephemeral) as [material shared]. simpl. by rewrite Ha.
Qed.

Lemma expand_extracted input info : expand (extract_prk input).2 info = Ok (hkdf_expand (extract_prk input).2 (concat info)).
Proof. unfold expand, extract_prk. simpl. by rewrite extract_length. Qed.

Lemma derive_keys_ok input : ∃ keys, derive_keys input = Ok keys ∧ keys_th keys = transcript_hash input.
Proof.
  unfold derive_keys. pose proof (expand_extracted input) as He. destruct (extract_prk input) as [th prk] eqn:E.
  simpl in He. rewrite !He. simpl. eexists. split; [done|]. simpl. by injection E.
Qed.

Lemma derive_rest_keys_ok input :
  ki_label input = REST_LABEL →
  ∃ keys, derive_rest_keys input = Ok keys ∧ rk_th keys = transcript_hash input ∧ length (rk_prk keys) = 32%nat.
Proof.
  intros Hl. unfold derive_rest_keys. rewrite bool_decide_true by done. cbn [negb].
  pose proof (expand_extracted input) as He. destruct (extract_prk input) as [th prk] eqn:E.
  simpl in He. rewrite !He. simpl. eexists. split; [done|]. simpl. injection E as <- <-. split; [done|apply extract_length].
Qed.

Lemma into_k_down_ok keys nonce :
  length (rk_prk keys) = 32%nat →
  into_k_down keys nonce = Ok (rk_th keys, hkdf_expand (rk_prk keys) (REST_LABEL ++ INFO_DOWN ++ nonce)).
Proof. intros Hl. unfold into_k_down, expand. rewrite Hl. simpl. by rewrite app_nil_r. Qed.

(** C8: a client that pinned the server's static key and the server end up
    with the same session: both sides derive, and whatever one side sends the
    other reads, in order and in both directions. *)
Theorem handshake_opens_channel keys protocol ephemeral device_id cn sn up down :
  keys_ok keys → usable protocol (static_public keys protocol) ephemeral → length cn = NONCE_LENGTH →
  let pinned := static_public keys protocol in
  let input := client_input WS_LABEL protocol pinned ephemeral device_id cn sn in
  N.of_nat (length up) ≤ u64_MAX → N.of_nat (length down) ≤ u64_MAX →
  Forall (λ t, N.of_nat (length t) ≤ AEAD_P_MAX ∧ utf8_valid t = true) (up ++ down) →
  ∃ server client, server_session_keys keys WS_LABEL protocol device_id (ki_client_material input) cn sn = Ok server ∧
    derive_keys input = Ok client ∧
    (∃ frames s, seal_texts up (sealer (SecureChannel_client client)) = (s, Ok frames) ∧
       (open_frames frames (opener (SecureChannel_server server))).2 = Ok up) ∧
    (∃ frames s, seal_texts down (sealer (SecureChannel_server server)) = (s, Ok frames) ∧
       (open_frames frames (opener (SecureChannel_client client))).2 = Ok down).
Proof.
  intros Hk Hu Hn pinned input Hup Hdown [Fu Fd]%Forall_app.
  destruct (derive_keys_ok input) as (ks & Hd & _). exists ks, ks.
  assert (ki_client_material input = (client_agree protocol pinned ephemeral).1) as ->.
  { unfold input, client_input. by destruct (client_agree _ _ _). }
  split_and!; [by unfold server_session_keys; rewrite server_schedule_client by done|done|..].
  - destruct (seal_texts_open_frames up (sealer (SecureChannel_client ks))) as (fs & s & Hs & Ho); [simpl; lia|done|].
    exists fs, s. split; [done|]. replace (opener (SecureChannel_server ks)) with (sealer (SecureChannel_client ks)) by done.
    by rewrite Ho.
  - destruct (seal_texts_open_frames down (sealer (SecureChannel_server ks))) as (fs & s & Hs & Ho); [simpl; lia|done|].
    exists fs, s. split; [done|]. replace (opener (SecureChannel_client ks)) with (sealer (SecureChannel_server ks)) by done.
    by rewrite Ho.
Qed.

(** ** The file and the store *)

Lemma keys_in_written keys stamp :
  keys_ok keys → length (x25519_secret keys) = 32%nat → utf8_valid (keys_to_json (persisted keys)) = true →
  keys_in (Some (stamp, keys_to_json (persisted keys))) = Ok keys.
Proof.
  intros [Hx Hm] Hl Hu. unfold keys_in, read_to_string. simpl. rewrite Hu. simpl.
  unfold from_persisted_json, decode_fixed_32, decode_b64. rewrite keys_json_reads. simpl. rewrite !base64_reads. simpl.
  rewrite Hl. simpl. rewrite expanded_reads. simpl. rewrite bool_decide_true by done. simpl.
  rewrite <-Hx. by destruct keys.
Qed.
End agreement.

(** A loaded store's keys are the file's own. *)
Lemma from_persisted_ok `{AuthCrypto} `{PairingCrypto} `{TransportCrypto} raw keys :
  from_persisted_json raw = Ok keys → keys_ok keys.
Proof.
  unfold from_persisted_json. intros (p & _ & E)%bind_Ok_inv. case_in E; [done|].
  apply bind_Ok_inv in E as (secret & _ & (expanded & _ & (ml_kem & _ & (public & _ & E)%bind_Ok_inv)%bind_Ok_inv)%bind_Ok_inv).
  destruct (bool_decide_reflect (encapsulation_key ml_kem = public)) as [Hm|]; [|done].
  by injection E as <-.
Qed.

(** ** The store against a file that other processes replace *)
Section store.
Context `{AuthCrypto} `{PairingCrypto} `{TransportCrypto}.

(** The versions the file goes through, in order: each replacement is one
    atomic rename. *)
Abbreviation History := (list KeysFile).

(** Different versions of the file have different stamps. *)
Definition stamps_differ (h : History) : Prop :=
  ∀ i j si sj ri rj, h !! i = Some (Some (si, ri)) → h !! j = Some (Some (sj, rj)) → i ≠ j → si ≠ sj.

(** The file at a moment of the history. *)
Definition version (h : History) (i : nat) : KeysFile := default None (h !! i).

(** Calls of [current], each with the versions its stat and its read meet. *)
Fixpoint run_calls (h : History) (calls : list (nat * nat)) (state : KeyStoreState) : list (result AppError PairingKeys) :=
  match calls with
  | [] => []
  | (i, j) :: rest =>
      let '(state, answer) := current (version h i) (version h j) state in
      answer :: run_calls h rest state
  end.

(** Time does not run backwards: the accesses of the calls, from [t] on. *)
Fixpoint in_order (t : nat) (calls : list (nat * nat)) : Prop :=
  match calls with
  | [] => True
  | (i, j) :: rest => (t ≤ i)%nat ∧ (i ≤ j)%nat ∧ in_order j rest
  end.

(** The keys come from version [hi], the stamp from the version [lo] not after
    it, and neither is later than [t]. *)
Definition store_from (h : History) (t : nat) (state : KeyStoreState) : Prop :=
  ∃ lo hi, (lo ≤ hi)%nat ∧ (hi ≤ t)%nat ∧
    (∃ raw, h !! lo = Some (Some (ks_stamp state, raw))) ∧ keys_in (version h hi) = Ok (ks_keys state).

Lemma version_present h i stamp raw : version h i = Some (stamp, raw) → h !! i = Some (Some (stamp, raw)).
Proof. unfold version. destruct (h !! i) as [v|]; simpl; [by intros ->|done]. Qed.

Lemma current_reads h t i j state :
  stamps_differ h → store_from h t state → (t ≤ i)%nat → (i ≤ j)%nat →
  let '(state', answer) := current (version h i) (version h j) state in
  store_from h j state' ∧ (answer = keys_in (version h i) ∨ answer = keys_in (version h j)).
Proof.
  intros Hd (lo & hi & Hlo & Hhi & [raw Hs] & Hk) Hti Hij. unfold current.
  assert (Hkeep : store_from h j state) by (exists lo, hi; split_and!; eauto; lia).
  destruct (version h i) as [[stamp raw_i]|] eqn:Hi; simpl; [|by split; [|left]].
  destruct (bool_decide_reflect (stamp = ks_stamp state)) as [->|Hne].
  - split; [done|left]. apply version_present in Hi as Hi'.
    destruct (decide (lo = i)) as [<-|Hn]; [|by destruct (Hd _ _ _ _ _ _ Hs Hi' Hn)].
    assert (hi = lo) as -> by lia. by rewrite <-Hk, Hi.
  - destruct (keys_in (version h j)) as [keys|e] eqn:Hj; [|by split; [|right]].
    split; [|by right]. exists i, j. split_and!; [done..| |done]. apply version_present in Hi. simpl. eauto.
Qed.

Lemma calls_read h t calls state :
  stamps_differ h → store_from h t state → in_order t calls →
  Forall2 (λ '(i, j) answer, answer = keys_in (version h i) ∨ answer = keys_in (version h j)) calls (run_calls h calls state).
Proof.
  intros Hd. revert t state. induction calls as [|[i j] rest IH]; intros t state Hs; simpl; [constructor|].
  intros (Hi & Hj & Ho). pose proof (current_reads h t i j state Hd Hs Hi Hj) as Hc.
  destruct (current _ _ state) as [state' answer]. destruct Hc as [Hs' Ha]. constructor; [done|]. eauto.
Qed.


(** When the file is replaced between the read and the stat of [load], the old
    keys are kept under the new file's stamp: every later call answers them,
    until the file is replaced again. *)
Lemma load_race_keeps_old_keys old new old_keys generated write :
  old ≠ None → keys_in old = Ok old_keys → new ≠ None →
  ∃ state, PairingKeyStore_load old generated write new = Ok state ∧
    ∀ at_read, current new at_read state = (state, Ok old_keys).
Proof.
  intros Ho Hk Hn. destruct new as [[stamp raw]|]; [|done].
  exists {| ks_keys := old_keys; ks_stamp := stamp |}. split.
  - unfold PairingKeyStore_load, load_or_generate. destruct old; [|done]. rewrite Hk. done.
  - intros at_read. unfold current. simpl. by rewrite bool_decide_true.
Qed.
End store.
