(* ===== verification/Peer.v ===== *)
(** * Where a request comes from

    Model of the parts of src/src/listen_addrs.rs, src/src/ipc.rs,
    src/src/device_auth.rs and src/src/server/enforcement.rs that tell a local
    request from a remote one: forwarding headers and trusted proxies, the
    checks of an anonymous deployment, and the rule that a remote peer reaches
    the API only through transport v2. The header map keeps every value in
    order; the URI and authority grammars of the http crate are the class
    [HttpCrate]; [str::parse::<IpAddr>] is written out. *)
From S2P Require Import Prelude Bytes Text Envelope Query DeviceAuth Pairing.
From Stdlib Require Import Strings.Byte.
Local Open Scope N_scope.

(** ** Text *)

Definition ascii_lower_byte (c : byte) : byte := if in_range 0x41 0x5A c then byte_of (byte_val c + 32) else c.
Definition ascii_lowercase (s : bytes) : bytes := ascii_lower_byte <$> s.
Definition eq_ignore_ascii_case (x y : bytes) : bool := bool_decide (ascii_lowercase x = ascii_lowercase y).

(** [str::trim] of a text. *)
Definition trim_text (s : bytes) : bytes := b (trim (String.string_of_list_byte s)).

(** [trim_matches(['[', ']'])]. *)
Definition bracket (c : byte) : bool := Byte.eqb c "[" || Byte.eqb c "]".
Fixpoint trim_start_brackets (s : bytes) : bytes :=
  match s with c :: rest => if bracket c then trim_start_brackets rest else s | [] => [] end.
Definition trim_brackets (s : bytes) : bytes := rev (trim_start_brackets (rev (trim_start_brackets s))).

(** ** Internet addresses: the parser of [core::net]

    A parser reads a prefix; [None] leaves the input where it was. *)
Definition given_char (c : byte) (s : bytes) : option bytes :=
  match s with x :: rest => if Byte.eqb x c then Some rest else None | [] => None end.

Definition to_digit (radix : N) (c : byte) : option N :=
  d ← hex_digit c; if d <? radix then Some d else None.

(** The digit loop of [read_number]: value, number of digits, rest; [None] when
    there are more than [max_digits]. *)
Fixpoint read_digits (radix : N) (max_digits : nat) (acc : N) (count : nat) (s : bytes) : option (N * nat * bytes) :=
  match s with
  | c :: rest =>
      match to_digit radix c with
      | Some d =>
          if (max_digits <? S count)%nat then None
          else read_digits radix max_digits (acc * radix + d) (S count) rest
      | None => Some (acc, count, s)
      end
  | [] => Some (acc, count, [])
  end.

Definition read_number (radix : N) (max_digits : nat) (allow_zero_prefix : bool) (max : N) (s : bytes) :
    option (N * bytes) :=
  '(value, count, rest) ← read_digits radix max_digits 0 0 s;
  let leading_zero := match s with c :: _ => Byte.eqb c "0" | [] => false end in
  if (count =? 0)%nat then None
  else if negb allow_zero_prefix && leading_zero && (1 <? count)%nat then None
  else if max <? value then None
  else Some (value, rest).

(** [read_separator]: the separator comes before every element but the first. *)
Definition read_separator {A} (sep : byte) (index : nat) (inner : bytes → option (A * bytes)) (s : bytes) :
    option (A * bytes) :=
  match index with O => inner s | S _ => rest ← given_char sep s; inner rest end.

Fixpoint read_octets (count index : nat) (acc : N) (s : bytes) : option (N * bytes) :=
  match count with
  | O => Some (acc, s)
  | S count =>
      '(octet, rest) ← read_separator "." index (read_number 10 3 false 255) s;
      read_octets count (S index) (acc * 256 + octet) rest
  end.
Definition read_ipv4_addr (s : bytes) : option (N * bytes) := read_octets 4 0 0 s.

(** [read_groups] over [limit - index] free slots: the groups read, whether an
    embedded IPv4 address ended them, and the rest. *)
Fixpoint read_groups (free index : nat) (s : bytes) : list N * bool * bytes :=
  match free with
  | O => ([], false, s)
  | S free' =>
      match (if (1 <? free)%nat then read_separator ":" index read_ipv4_addr s else None) with
      | Some (v4, rest) => ([v4 / 65536; v4 mod 65536], true, rest)
      | None =>
          match read_separator ":" index (read_number 16 4 true 65535) s with
          | Some (group, rest) =>
              let '(groups, ipv4, rest) := read_groups free' (S index) rest in (group :: groups, ipv4, rest)
          | None => ([], false, s)
          end
      end
  end.

Definition of_groups (groups : list N) : N := foldl (λ acc g, acc * 65536 + g) 0 groups.

Definition read_ipv6_addr (s : bytes) : option (N * bytes) :=
  let '(head, head_ipv4, rest) := read_groups 8 0 s in
  if (length head =? 8)%nat then Some (of_groups head, rest)
  else if head_ipv4 then None
  else
    rest ← given_char ":" rest;
    rest ← given_char ":" rest;
    let '(tail, _, rest) := read_groups (8 - S (length head)) 0 rest in
    Some (of_groups (head ++ repeat 0 (8 - length head - length tail) ++ tail), rest).

(** [str::parse::<IpAddr>]: the whole text. *)
Definition parse_ip (s : bytes) : option IpAddr :=
  let read := match read_ipv4_addr s with
              | Some (bits, rest) => Some (V4 bits, rest)
              | None => (λ r : N * bytes, (V6 r.1, r.2)) <$> read_ipv6_addr s
              end in
  match read with Some (addr, []) => Some addr | _ => None end.

Definition ip_is_loopback (a : IpAddr) : bool :=
  match a with V4 bits => N.shiftr bits 24 =? 127 | V6 bits => bits =? 1 end.

Definition is_loopback_host (host : bytes) : bool :=
  let normalized := trim_brackets (trim_text host) in
  eq_ignore_ascii_case normalized (b "localhost")
  || match parse_ip normalized with Some a => ip_is_loopback a | None => false end.

(** ** Headers and targets *)

(** A header map: names in lower case, all values of a name in order. *)
Abbreviation HeaderList := (list (bytes * bytes)).
Definition get_all (headers : HeaderList) (name : bytes) : list bytes :=
  snd <$> filter (λ p, p.1 = name) headers.
Definition header_get (headers : HeaderList) (name : bytes) : option bytes := head (get_all headers name).
Definition contains_key (headers : HeaderList) (name : bytes) : bool :=
  bool_decide (get_all headers name ≠ []).
Definition header_insert (headers : HeaderList) (name value : bytes) : HeaderList :=
  filter (λ p, p.1 ≠ name) headers ++ [(name, value)].
Definition header_append (headers : HeaderList) (name value : bytes) : HeaderList := headers ++ [(name, value)].
(** The first value of each name, which is what device authentication reads. *)
Definition first_values (headers : HeaderList) : HeaderMap := list_to_map headers.

Definition HOST : bytes := Eval vm_compute in b "host".
Definition ORIGIN : bytes := Eval vm_compute in b "origin".
Definition X_FORWARDED_FOR : bytes := Eval vm_compute in b "x-forwarded-for".
Definition FORWARDING_HEADERS : list bytes :=
  Eval vm_compute in [b "forwarded"; b "x-forwarded-for"; b "x-real-ip"].
Definition DESKTOP_APP_ORIGIN : bytes := Eval vm_compute in b "todex-desktop://app".

(** A parsed target; the authority is its text. *)
Record Uri : Type := {
  uri_scheme : option bytes; uri_authority : option bytes; uri_path : bytes; uri_query : option bytes;
}.

Class HttpCrate := {
  uri_try_from : bytes → option Uri;
  authority_ok : bytes → bool;           (* [parse::<Authority>] succeeds *)
  authority_host : bytes → bytes;        (* [Authority::host] of its text *)
  method_ok : bytes → bool;              (* [Method::from_bytes] succeeds *)
}.

(** What a served connection leaves on a request: the peer, and what the
    server itself marked. *)
Inductive PeerAddr : Type := PeerTcp (ip : IpAddr) (port : N) | PeerLocal.
Record ForwardedFor : Type := { fwd_client : option IpAddr }.
#[export] Instance ForwardedFor_eq_dec : EqDecision ForwardedFor.
Proof. solve_decision. Defined.
Record Extensions : Type := {
  ext_tcp : option (IpAddr * N);          (* [ConnectInfo<SocketAddr>] *)
  ext_local : bool;                       (* [ConnectInfo<LocalPeer>] *)
  ext_forwarded : option ForwardedFor;
  ext_via_v2 : bool;                      (* [ArrivedViaTransportV2] *)
}.

(** [sealed::peer_address]; the test-only mock address is left out. *)
Definition peer_address (e : Extensions) : option PeerAddr :=
  if ext_local e then Some PeerLocal
  else match ext_tcp e with Some (ip, port) => Some (PeerTcp ip port) | None => None end.

Definition peer_is_loopback (p : PeerAddr) : bool :=
  match p with PeerTcp ip _ => ip_is_loopback (to_canonical ip) | PeerLocal => true end.
Definition peer_ip (p : PeerAddr) : option IpAddr :=
  match p with PeerTcp ip _ => Some ip | PeerLocal => None end.

Section peers.
Context `{AuthCrypto} `{HttpCrate}.

(** ** Forwarded requests *)

Definition has_forwarding_headers (headers : HeaderList) : bool := existsb (contains_key headers) FORWARDING_HEADERS.

(** The client a trusted proxy names: the last entry of the last value. *)
Definition named_client (headers : HeaderList) : option IpAddr :=
  value ← last (get_all headers X_FORWARDED_FOR);
  text ← to_str value;
  entry ← last (split "," text);
  parse_ip (trim_brackets (trim_text entry)).

Definition forwarded (headers : HeaderList) (extensions : Extensions) (peer : option IpAddr)
    (trusted_proxies : list IpAddr) : option ForwardedFor :=
  match ext_forwarded extensions with
  | Some f => Some f
  | None =>
      if negb (has_forwarding_headers headers) then None
      else
        let trusted :=
          match peer with
          | Some peer => existsb (λ proxy, bool_decide (to_canonical proxy = to_canonical peer)) trusted_proxies
          | None => false
          end in
        Some {| fwd_client := if trusted then named_client headers else None |}
  end.

Definition client_address (peer : IpAddr) (f : option ForwardedFor) : IpAddr := default peer (f ≫= fwd_client).

(** ** Anonymous deployments *)

Definition has_loopback_host (headers : HeaderList) (uri : Uri) : bool :=
  let authority :=
    match header_get headers HOST with
    | Some value => v ← to_str value; if authority_ok v then Some v else None
    | None => uri_authority uri
    end in
  match authority with
  | Some a => negb (bool_decide ("@"%byte ∈ a)) && is_loopback_host (authority_host a)
  | None => false
  end.

Definition is_local_origin (origin : bytes) : bool :=
  if decide (origin = DESKTOP_APP_ORIGIN) then true
  else
    match uri_try_from origin with
    | Some uri =>
        bool_decide (uri_scheme uri = Some (b "http") ∨ uri_scheme uri = Some (b "https"))
        && match uri_authority uri with Some a => is_loopback_host (authority_host a) | None => false end
    | None => false
    end.

Definition local_origin_value (value : bytes) : bool :=
  match to_str value with Some origin => is_local_origin origin | None => false end.

Definition ensure_local_request (headers : HeaderList) (uri : Uri) : result AppError unit :=
  if has_forwarding_headers headers
  then Err (Unauthorized "anonymous access is not available through a reverse proxy")
  else if negb (has_loopback_host headers uri) then Err (Unauthorized "anonymous access requires a loopback Host")
  else if negb (forallb local_origin_value (get_all headers ORIGIN))
  then Err (Unauthorized "anonymous access is limited to local origins")
  else Ok tt.

(** ** Enforcement *)

(** [transport_crypto::query_value]: the key is compared undecoded, the value
    is decoded as in [device_auth]. *)
Definition raw_query_value (query : option bytes) (key : bytes) : option bytes :=
  q ← query;
  (λ p, form_decode p.2) <$>
    find (λ p, bool_decide (p.1 = key)) ((λ pair, default (pair, []) (split_once "=" pair)) <$> split "&" q).

(** Routes that answer without a device credential. *)
Definition bootstrap_route (path : bytes) : bool :=
  bool_decide (path ∈ [b "/health"; b "/v2/transport-policy"; b "/v2/version"]).
Definition pairing_route (path : bytes) : bool := bool_decide (b "/v2/device-pairing/" `prefix_of` path).

Definition is_direct_route (path : bytes) (query : option bytes) : bool :=
  bootstrap_route path || bool_decide (path = b SEALED_PATH) || pairing_route path
  || (bool_decide (path = b "/v2/ws") && bool_decide (raw_query_value query (b "tv") = Some (b "2"))).

Record HttpRequest : Type := {
  hr_method : bytes; hr_uri : Uri; hr_headers : HeaderList; hr_extensions : Extensions; hr_body : bytes;
}.

Definition arrives_on_loopback (request : HttpRequest) : bool :=
  match peer_address (hr_extensions request) with
  | Some peer =>
      peer_is_loopback peer
      && bool_decide (forwarded (hr_headers request) (hr_extensions request) (peer_ip peer) [] = None)
  | None => false
  end.

(** [enforce_transport_v2]: [Ok] hands the request on. *)
Definition enforce_transport_v2 (request : HttpRequest) : result AppError HttpRequest :=
  if arrives_on_loopback request || ext_via_v2 (hr_extensions request)
     || is_direct_route (uri_path (hr_uri request)) (uri_query (hr_uri request))
  then Ok request
  else Err (ProtocolUpgradeRequired "non-loopback clients must use transport v2 (POST /v2/sealed, /v2/ws?tv=2)").
End peers.

