(* ===== verification/Tunnel.v ===== *)
(** * The sealed REST tunnel

    Model of src/src/server/sealed.rs: one outer request carries a sealed inner
    request, which runs through the router with its response sealed on the way
    back. The handler is a state machine whose phases are the points where it
    waits (for a chunk of the outer body, for a permit, for the inner handler);
    an event is what it is woken with. The permit pools are shared by all
    requests. The router, the JSON text of an error and the JSON codec of the
    inner heads are parameters; times are milliseconds. *)
From stdpp Require Import pretty.
From Stdlib Require Import Strings.Byte Ascii.
From S2P Require Import Prelude Bytes Query Channel Envelope DeviceAuth Devices Pairing Handshake Peer.
Local Open Scope N_scope.

Definition HEADER_TRANSPORT : bytes := Eval vm_compute in b "x-todex-transport".
Definition HEADER_ENCRYPTION : bytes := Eval vm_compute in b "x-todex-encryption".
Definition HEADER_CLIENT_KEY : bytes := Eval vm_compute in b "x-todex-client-key".
Definition HEADER_KEM_CIPHERTEXT : bytes := Eval vm_compute in b "x-todex-kem-ciphertext".
Definition HEADER_REQUEST_NONCE : bytes := Eval vm_compute in b "x-todex-request-nonce".
Definition SEALED_CONTENT_TYPE : bytes := Eval vm_compute in b "application/vnd.todex.sealed".
Definition SEALED_RESPONSE_CONTENT_TYPE : bytes := Eval vm_compute in b "application/vnd.todex.sealed; r=2".
Definition SEALED_REVISION : bytes := Eval vm_compute in b "2".
Definition SEALED_REVISION_HEADER : bytes := Eval vm_compute in b "x-todex-sealed-revision".
Definition CONTENT_TYPE : bytes := Eval vm_compute in b "content-type".
Definition CACHE_CONTROL : bytes := Eval vm_compute in b "cache-control".

(** The second summand is [MAX_HEAD_BYTES]. *)
Definition MAX_INNER_PLAINTEXT : N := 4 + 65536 + MAX_AUTH_BODY.
(** [sealed_stream_length] on binary numbers. *)
Definition stream_length (plaintext : N) : N :=
  let records := if plaintext =? 0 then 1 else (plaintext + 65535) / 65536 in plaintext + records * 20.
Definition MAX_OUTER_BODY : N := stream_length MAX_INNER_PLAINTEXT.
Definition PUBLIC_INNER_BODY_MAX : N := 64 * 1024.
Definition AUTHENTICATED_PERMITS : N := 32.
Definition PUBLIC_PERMITS : N := 4.
Definition usize_MAX : N := 2 ^ 64 - 1.

Record TunnelLimits : Type := {
  head_deadline : N; idle_timeout : N; permit_wait : N; body_deadline : N; per_device_permits : N;
}.
Definition TunnelLimits_default : TunnelLimits :=
  {| head_deadline := 30000; idle_timeout := 30000; permit_wait := 10000; body_deadline := 60000;
     per_device_permits := 8 |}.

Definition FORWARDED_INNER_HEADERS : list bytes :=
  [CONTENT_TYPE; b "accept"; HEADER_DEVICE_ID; HEADER_TIMESTAMP; HEADER_NONCE; HEADER_SIGNATURE;
   HEADER_CONTENT_SHA256].
Definition HOP_BY_HOP : list bytes :=
  [b "connection"; b "keep-alive"; b "proxy-authenticate"; b "proxy-authorization"; b "te"; b "trailer";
   b "transfer-encoding"; b "upgrade"].

(** ** Permits *)

(** Free permits of the two pools, and permits held per claimed device id. *)
Record Pools : Type := { p_authenticated : N; p_public : N; p_devices : gmap bytes N }.
Definition pools_new : Pools :=
  {| p_authenticated := AUTHENTICATED_PERMITS; p_public := PUBLIC_PERMITS; p_devices := ∅ |}.
Definition set_devices (m : gmap bytes N) (p : Pools) : Pools :=
  {| p_authenticated := p_authenticated p; p_public := p_public p; p_devices := m |}.

(** [DevicePermit::try_take]: [entry(..).or_default()] also when it is refused. *)
Definition try_take (device_id : bytes) (limit : N) (m : gmap bytes N) : gmap bytes N * bool :=
  let count := default 0 (m !! device_id) in
  let m := <[device_id := count]> m in
  if limit <=? count then (m, false) else (<[device_id := count + 1]> m, true).

(** [Drop for DevicePermit]. *)
Definition device_drop (device_id : bytes) (m : gmap bytes N) : gmap bytes N :=
  match m !! device_id with
  | Some count => if count - 1 =? 0 then delete device_id m else <[device_id := count - 1]> m
  | None => m
  end.

Definition free_permits (public : bool) (p : Pools) : N := if public then p_public p else p_authenticated p.
Definition take_permit (public : bool) (p : Pools) : Pools :=
  if public then {| p_authenticated := p_authenticated p; p_public := p_public p - 1; p_devices := p_devices p |}
  else {| p_authenticated := p_authenticated p - 1; p_public := p_public p; p_devices := p_devices p |}.
Definition permit_drop (public : bool) (p : Pools) : Pools :=
  if public then {| p_authenticated := p_authenticated p; p_public := p_public p + 1; p_devices := p_devices p |}
  else {| p_authenticated := p_authenticated p + 1; p_public := p_public p; p_devices := p_devices p |}.
Definition drop_device (device : option bytes) (p : Pools) : Pools :=
  match device with Some id => set_devices (device_drop id (p_devices p)) p | None => p end.

(** ** Responses *)

Inductive BodyItem : Type := BodyChunk (chunk : bytes) | BodyFailed.
Record HttpResponse : Type := { hs_status : N; hs_headers : HeaderList; hs_body : list BodyItem }.

(** The status of [AppError::into_response]. *)
Definition error_status (e : AppError) : N :=
  match e with
  | InvalidRequest _ => 400
  | Unauthenticated | AuthTimestampRejected _ => 401
  | Unauthorized _ => 403
  | PayloadTooLarge _ => 413
  | Unsupported _ => 501
  | NotFound _ => 404
  | Conflict _ => 409
  | ResourceExhausted _ | RateLimited _ _ | PairingBusy _ => 429
  | TransportBusy => 503
  | RequestTimeout => 408
  | ProtocolUpgradeRequired _ => 426
  | TransportCryptoFailed => 400
  | HistoryAccessRevoked => 403
  | HistoryKeyRequired | HistoryReadOnly => 409
  | _ => 500
  end.
Definition error_retry_after (e : AppError) : option N :=
  match e with
  | RateLimited _ secs => Some (N.max secs 1)
  | TransportBusy => Some 1
  | _ => None
  end.

(** The response half of a tunnel request. *)
Record ResponseKeys : Type := { down_nonce : bytes; down_cipher : RecordCipher }.

(** The [BTreeMap] of response headers: [entry(name)] joined with a comma. *)
Fixpoint join_header (name value : bytes) (acc : HeaderList) : HeaderList :=
  match acc with
  | [] => [(name, value)]
  | (n, v) :: rest =>
      if decide (n = name) then (n, v ++ b ", " ++ value) :: rest
      else if bool_decide (bytes_le name n) then (name, value) :: acc
      else (n, v) :: join_header name value rest
  end.

Section responses.
Context `{AuthCrypto} `{Aead}.
(** The JSON body of an error, and the JSON codec of a response head. *)
Context (error_json : AppError → bytes).
Context (head_to_vec : InnerResponseHead → option bytes).

Definition error_response (e : AppError) : HttpResponse :=
  {| hs_status := error_status e;
     hs_headers := (CONTENT_TYPE, b "application/json")
                   :: match error_retry_after e with
                      | Some secs => [(b "retry-after", b (pretty secs))]
                      | None => []
                      end;
     hs_body := [BodyChunk (error_json e)] |}.

Definition inner_response_header (acc : HeaderList) (h : bytes * bytes) : HeaderList :=
  if decide (h.1 ∈ HOP_BY_HOP) then acc
  else match to_str h.2 with Some value => join_header h.1 value acc | None => acc end.

Definition response_head (response : HttpResponse) : InnerResponseHead :=
  {| status := hs_status response;
     resp_headers := prod_map String.string_of_list_byte String.string_of_list_byte
                     <$> foldl inner_response_header [] (hs_headers response) |}.

(** The [unfold] over the inner body; an error ends the outer body. *)
Fixpoint seal_items (sealer : RecordStreamSealer) (items : list BodyItem) : list BodyItem :=
  match items with
  | [] => match sealer_finish sealer with Ok out => [BodyChunk out] | Err _ => [BodyFailed] end
  | BodyFailed :: _ => [BodyFailed]
  | BodyChunk chunk :: rest =>
      match sealer_push chunk sealer with
      | (sealer, Ok []) => seal_items sealer rest
      | (sealer, Ok out) => BodyChunk out :: seal_items sealer rest
      | (_, Err _) => [BodyFailed]
      end
  end.

Definition seal_response (response : HttpResponse) (down : ResponseKeys) : result TransportCryptoError HttpResponse :=
  head ← encode_response_head head_to_vec (response_head response);
  let sealer := sealer_new (down_cipher down) head in
  Ok {| hs_status := 200;
        hs_headers := [(CONTENT_TYPE, SEALED_RESPONSE_CONTENT_TYPE); (CACHE_CONTROL, b "no-store")];
        hs_body := BodyChunk (down_nonce down) :: seal_items sealer (hs_body response) |}.
End responses.

(** ** The inner request *)

Record InnerParts : Type := { ip_method : bytes; ip_uri : Uri; ip_headers : HeaderList }.
Record Admission : Type := { ad_body_limit : N; ad_public : bool }.

Definition invalid_inner : TransportCryptoError := TransportCryptoError_new "invalid inner request".

Definition is_public_route (path : bytes) : bool := bootstrap_route path || pairing_route path.

Section requests.
Context `{AuthCrypto} `{HttpCrate}.

(** The loop over the head's headers. The names that pass the filter are valid
    header names. *)
Fixpoint forward_headers (hs : list (string * string)) (acc : HeaderList) : result TransportCryptoError HeaderList :=
  match hs with
  | [] => Ok acc
  | (name, value) :: rest =>
      let name := ascii_lowercase (b name) in
      if decide (name ∈ FORWARDED_INNER_HEADERS)
      then if header_value_ok (b value) then forward_headers rest (header_insert acc name (b value))
           else Err invalid_inner
      else forward_headers rest acc
  end.

Definition copied_headers (outer : HeaderList) : HeaderList :=
  ((λ v, (HOST, v)) <$> get_all outer HOST) ++ ((λ v, (ORIGIN, v)) <$> get_all outer ORIGIN).

Definition inner_target (hd : InnerRequestHead) : result TransportCryptoError bytes :=
  match query hd with
  | Some q =>
      if String.eqb q "" then Ok (b (path hd))
      else if string_contains_any ["#"]%char q then Err (TransportCryptoError_new "inner query")
      else Ok (b (path hd) ++ b "?" ++ b q)
  | None => Ok (b (path hd))
  end.

Definition inner_parts (hd : InnerRequestHead) (outer_headers : HeaderList) : result TransportCryptoError InnerParts :=
  if negb (method_ok (b (method hd))) then Err invalid_inner
  else
    target ← inner_target hd;
    uri ← ok_or (uri_try_from target) invalid_inner;
    if bool_decide (is_Some (uri_scheme uri)) || bool_decide (is_Some (uri_authority uri))
    then Err (TransportCryptoError_new "inner request target")
    else
      hs ← forward_headers (headers hd) [];
      Ok {| ip_method := b (method hd); ip_uri := uri; ip_headers := hs ++ copied_headers outer_headers |}.

Definition inner_request (parts : InnerParts) (body : bytes) (outer_extensions : Extensions)
    (f : option ForwardedFor) : HttpRequest :=
  {| hr_method := ip_method parts; hr_uri := ip_uri parts; hr_headers := ip_headers parts;
     hr_extensions :=
       {| ext_tcp := match peer_address outer_extensions with Some (PeerTcp ip port) => Some (ip, port) | _ => None end;
          ext_local := match peer_address outer_extensions with Some PeerLocal => true | _ => false end;
          ext_forwarded := f;
          ext_via_v2 := true |};
     hr_body := body |}.

(** [registry_get] and [boot_secs] are those of the authenticator; [wall] is
    the clock in seconds. *)
Context (registry_get : bytes → result AppError (option bytes)) (boot_secs : N) (enable_auth : bool).

Definition check_credential_headers (wall : N) (headers : HeaderList) (query : option bytes) : result AppError unit :=
  _ ← check_credential registry_get boot_secs wall (first_values headers) query; Ok tt.

Definition claimed_device_id (headers : HeaderList) (query : option bytes) : option bytes :=
  from_headers (first_values headers) query (b "device_id") HEADER_DEVICE_ID.

Definition admit_inner (wall : N) (parts : InnerParts) (f : option ForwardedFor) : result AppError Admission :=
  if is_public_route (uri_path (ip_uri parts)) then Ok {| ad_body_limit := PUBLIC_INNER_BODY_MAX; ad_public := true |}
  else
    _ ← (if enable_auth then check_credential_headers wall (ip_headers parts) (uri_query (ip_uri parts))
         else if bool_decide (is_Some f)
         then Err (Unauthorized "anonymous access is not available through a reverse proxy")
         else ensure_local_request (ip_headers parts) (ip_uri parts));
    Ok {| ad_body_limit := MAX_AUTH_BODY; ad_public := false |}.
End requests.

(** ** The handler *)

(** The outer request once its keys are derived. *)
Record Outer : Type := {
  o_headers : HeaderList;
  o_extensions : Extensions;
  o_forwarded : option ForwardedFor;
  o_head_deadline : N;
  o_down : ResponseKeys;
}.
Record Reading : Type := { r_received : N; r_decoder : RecordStreamDecoder; r_plaintext : bytes }.
(** An inner head that passed; [a_device] is its share of the device permits. *)
Record AdmittedHead : Type := {
  a_inner : InnerParts; a_head_end : nat; a_body_limit : N; a_public : bool; a_device : option bytes;
}.

Inductive Phase : Type :=
  | HeadPhase (o : Outer) (r : Reading) (deadline : N)
  | PermitPhase (o : Outer) (r : Reading) (a : AdmittedHead) (deadline : N)
  | BodyPhase (o : Outer) (r : Reading) (a : AdmittedHead) (body_deadline deadline : N)
  | HandlerPhase (o : Outer) (a : AdmittedHead) (request : HttpRequest)
  | Replied (response : HttpResponse)
  | Cancelled.

(** What wakes a request. [Dropped]: the outer connection is gone, and with it
    the future that serves it. *)
Inductive Event : Type :=
  | Arrived (chunk : bytes)
  | ReadFailed
  | BodyEnd
  | DeadlinePassed
  | PermitGranted
  | PoolClosed
  | Responded (response : HttpResponse)
  | Dropped.

Section tunnel.
Context `{AuthCrypto} `{PairingCrypto} `{TransportCrypto} `{HttpCrate} `{Aead}.
Context (error_json : AppError → bytes).
Context (head_from_slice : bytes → option InnerRequestHead) (head_to_vec : InnerResponseHead → option bytes).
Context (registry_get : bytes → result AppError (option bytes)) (boot_secs : N) (enable_auth : bool).
Context (pairing_encryption : PairingEncryption) (trusted_proxies : list IpAddr) (limits : TunnelLimits).

Definition header (headers : HeaderList) (name : bytes) : result TransportCryptoError bytes :=
  ok_or (header_get headers name ≫= to_str) (TransportCryptoError_new "missing outer header").

Definition is_sealed_content_type (headers : HeaderList) : bool :=
  match header headers CONTENT_TYPE with
  | Ok value =>
      match split ";" value with
      | media :: _ => eq_ignore_ascii_case (trim_text media) SEALED_CONTENT_TYPE
      | [] => false
      end
  | Err _ => false
  end.

(** The first part of [open_request]: the decoder of the request and the keys
    of the response. [nonce] is the fresh response nonce, [at_stat] and
    [at_read] the key file as the key store meets it. *)
Definition open_keys (nonce : bytes) (at_stat at_read : KeysFile) (headers : HeaderList) :
    M KeyStoreState TransportCryptoError (RecordStreamDecoder * ResponseKeys) := λ store,
  let checked : result TransportCryptoError (EncryptionProtocol * bytes * bytes) :=
    _ ← (if is_sealed_content_type headers
         then transport ← header headers HEADER_TRANSPORT;
              guard_err (bool_decide (transport = b "2")) (TransportCryptoError_new "outer headers")
         else Err (TransportCryptoError_new "outer headers"));
    name ← header headers HEADER_ENCRYPTION;
    protocol ← ok_or (EncryptionProtocol_parse name) (TransportCryptoError_new "outer protocol");
    _ ← guard_err (bool_decide (pairing_encryption = Plaintext
                                ∨ protocol_str pairing_encryption = EncryptionProtocol_as_str protocol))
          (TransportCryptoError_new "protocol is not the required one");
    value ← header headers (match protocol with EpX25519 => HEADER_CLIENT_KEY | EpMlKem768 => HEADER_KEM_CIPHERTEXT end);
    material ← decode_b64url value;
    value ← header headers HEADER_REQUEST_NONCE;
    client_nonce ← decode_b64url value;
    Ok (protocol, material, client_nonce) in
  match checked with
  | Err e => (store, Err e)
  | Ok (protocol, material, client_nonce) =>
      match current at_stat at_read store with
      | (store, Err _) => (store, Err (TransportCryptoError_new "pairing keys unavailable"))
      | (store, Ok pairing_keys) =>
          (store,
           keys ← server_rest_keys pairing_keys protocol material client_nonce;
           let decoder := decoder_new (RecordCipher.new (rk_k_up keys) (rk_th keys) DIRECTION_UP) in
           '(th, k_down) ← into_k_down keys nonce;
           Ok (decoder, {| down_nonce := nonce; down_cipher := RecordCipher.new k_down th DIRECTION_DOWN |}))
      end
  end.

(** A plain outer answer, a failed outer request, and a sealed answer. *)
Definition plain (e : AppError) : Phase := Replied (error_response error_json e).
Definition outer_failed : Phase := plain TransportCryptoFailed.
Definition seal_reply (o : Outer) (response : HttpResponse) : Phase :=
  match seal_response head_to_vec response (o_down o) with
  | Ok response => Replied response
  | Err _ => outer_failed
  end.
Definition reject (o : Outer) (e : AppError) : Phase := seal_reply o (error_response error_json e).

(** The share of the device permits an admitted head takes; [None]: refused. *)
Definition take_device (inner : InnerParts) (admission : Admission) (p : Pools) : Pools * option (option bytes) :=
  if ad_public admission || negb enable_auth then (p, Some None)
  else
    let id := default [] (claimed_device_id (ip_headers inner) (uri_query (ip_uri inner))) in
    let '(m, taken) := try_take id (per_device_permits limits) (p_devices p) in
    (set_devices m p, if taken then Some (Some id) else None).

(** The top of the loop while nothing is admitted. *)
Definition head_step (now wall : N) (o : Outer) (r : Reading) (p : Pools) : Pools * Phase :=
  match parse_inner_head head_from_slice (r_plaintext r) with
  | Err _ => (p, outer_failed)
  | Ok None => (p, HeadPhase o r (N.min (now + idle_timeout limits) (o_head_deadline o)))
  | Ok (Some (hd, head_end)) =>
      match inner_parts hd (o_headers o) with
      | Err _ => (p, outer_failed)
      | Ok inner =>
          match admit_inner registry_get boot_secs enable_auth wall inner (o_forwarded o) with
          | Err e => (p, reject o e)
          | Ok admission =>
              match take_device inner admission p with
              | (p, None) => (p, reject o TransportBusy)
              | (p, Some device) =>
                  (p, PermitPhase o r
                        {| a_inner := inner; a_head_end := head_end; a_body_limit := ad_body_limit admission;
                           a_public := ad_public admission; a_device := device |}
                        (now + permit_wait limits))
              end
          end
      end
  end.

(** Dropping what an admitted request holds. *)
Definition release (a : AdmittedHead) (p : Pools) : Pools := drop_device (a_device a) (permit_drop (a_public a) p).

(** The rest of the loop's top once a head is admitted. *)
Definition body_step (now : N) (o : Outer) (r : Reading) (a : AdmittedHead) (until : N) (p : Pools) : Pools * Phase :=
  if a_body_limit a <? N.of_nat (length (r_plaintext r) - a_head_end a) then (release a p, outer_failed)
  else (p, BodyPhase o r a until (N.min (now + idle_timeout limits) until)).

(** One chunk of the outer body. *)
Definition receive (chunk : bytes) (r : Reading) : result TransportCryptoError Reading :=
  let received := N.min (r_received r + N.of_nat (length chunk)) usize_MAX in
  if MAX_OUTER_BODY <? received then Err (TransportCryptoError_new "outer body too large")
  else
    match decoder_push chunk (r_decoder r, r_plaintext r) with
    | ((decoder, plaintext), Ok _) =>
        Ok {| r_received := received; r_decoder := decoder; r_plaintext := plaintext |}
    | (_, Err e) => Err e
    end.

(** [sealed] up to its first wait; [request] is the outer request's head. *)
Definition sealed_start (now wall : N) (nonce : bytes) (at_stat at_read : KeysFile) (request : HttpRequest)
    (store : KeyStoreState) (p : Pools) : KeyStoreState * Pools * Phase :=
  if negb (bool_decide (header_get (hr_headers request) SEALED_REVISION_HEADER ≫= to_str = Some SEALED_REVISION))
  then (store, p, plain (ProtocolUpgradeRequired "this server speaks sealed revision 2; update the client"))
  else
    match open_keys nonce at_stat at_read (hr_headers request) store with
    | (store, Err _) => (store, p, outer_failed)
    | (store, Ok (decoder, down)) =>
        let o := {| o_headers := hr_headers request; o_extensions := hr_extensions request;
                    o_forwarded := forwarded (hr_headers request) (hr_extensions request)
                                     (peer_address (hr_extensions request) ≫= peer_ip) trusted_proxies;
                    o_head_deadline := now + head_deadline limits; o_down := down |} in
        let '(p, phase) := head_step now wall o {| r_received := 0; r_decoder := decoder; r_plaintext := [] |} p in
        (store, p, phase)
    end.

Definition head_event (now wall : N) (ev : Event) (o : Outer) (r : Reading) (deadline : N) (p : Pools) : Pools * Phase :=
  match ev with
  | Arrived chunk =>
      match receive chunk r with
      | Err _ => (p, outer_failed)
      | Ok r => head_step now wall o r p
      end
  | ReadFailed | BodyEnd => (p, outer_failed)
  | DeadlinePassed => if deadline <=? now then (p, outer_failed) else (p, HeadPhase o r deadline)
  | Dropped => (p, Cancelled)
  | _ => (p, HeadPhase o r deadline)
  end.

Definition permit_event (now : N) (ev : Event) (o : Outer) (r : Reading) (a : AdmittedHead) (deadline : N) (p : Pools) :
    Pools * Phase :=
  match ev with
  | PermitGranted =>
      if free_permits (a_public a) p =? 0 then (p, PermitPhase o r a deadline)
      else body_step now o r a (now + body_deadline limits) (take_permit (a_public a) p)
  | PoolClosed => (drop_device (a_device a) p, outer_failed)
  | DeadlinePassed =>
      if deadline <=? now then (drop_device (a_device a) p, reject o TransportBusy)
      else (p, PermitPhase o r a deadline)
  | Dropped => (drop_device (a_device a) p, Cancelled)
  | _ => (p, PermitPhase o r a deadline)
  end.

Definition body_event (now : N) (ev : Event) (o : Outer) (r : Reading) (a : AdmittedHead) (until deadline : N) (p : Pools) :
    Pools * Phase :=
  match ev with
  | Arrived chunk =>
      match receive chunk r with
      | Err _ => (release a p, outer_failed)
      | Ok r => body_step now o r a until p
      end
  | ReadFailed => (release a p, outer_failed)
  | BodyEnd =>
      match decoder_finish (r_decoder r) with
      | Err _ => (release a p, outer_failed)
      | Ok _ =>
          (p, HandlerPhase o a (inner_request (a_inner a) (drop (a_head_end a) (r_plaintext r)) (o_extensions o)
                                  (o_forwarded o)))
      end
  | DeadlinePassed =>
      if deadline <=? now then (release a p, reject o RequestTimeout) else (p, BodyPhase o r a until deadline)
  | Dropped => (release a p, Cancelled)
  | _ => (p, BodyPhase o r a until deadline)
  end.

Definition tunnel_event (now wall : N) (ev : Event) (phase : Phase) (p : Pools) : Pools * Phase :=
  match phase with
  | HeadPhase o r deadline => head_event now wall ev o r deadline p
  | PermitPhase o r a deadline => permit_event now ev o r a deadline p
  | BodyPhase o r a until deadline => body_event now ev o r a until deadline p
  | HandlerPhase o a request =>
      match ev with
      | Responded response => (release a p, seal_reply o response)
      | Dropped => (release a p, Cancelled)
      | _ => (p, phase)
      end
  | Replied _ | Cancelled => (p, phase)
  end.

(** ** All requests of the daemon *)
Record Tunnel : Type := { t_pools : Pools; t_store : KeyStoreState; t_requests : gmap N Phase }.

Inductive TunnelOp : Type :=
  | Start (id : N) (request : HttpRequest) (nonce : bytes) (at_stat at_read : KeysFile)
  | Wake (id : N) (ev : Event).

Definition tunnel_op (now wall : N) (op : TunnelOp) (t : Tunnel) : Tunnel :=
  match op with
  | Start id request nonce at_stat at_read =>
      match t_requests t !! id with
      | Some _ => t
      | None =>
          let '(store, p, phase) := sealed_start now wall nonce at_stat at_read request (t_store t) (t_pools t) in
          {| t_pools := p; t_store := store; t_requests := <[id := phase]> (t_requests t) |}
      end
  | Wake id ev =>
      match t_requests t !! id with
      | Some phase =>
          let '(p, phase) := tunnel_event now wall ev phase (t_pools t) in
          {| t_pools := p; t_store := t_store t; t_requests := <[id := phase]> (t_requests t) |}
      | None => t
      end
  end.

Fixpoint tunnel_run (ops : list (N * N * TunnelOp)) (t : Tunnel) : Tunnel :=
  match ops with
  | [] => t
  | (now, wall, op) :: rest => tunnel_run rest (tunnel_op now wall op t)
  end.
End tunnel.
