(* ===== verification/TunnelPermits.v ===== *)
(** * Permits of the sealed tunnel

    The permit pools and the per-device shares of [Tunnel] account for exactly
    the requests in flight, whatever way each of them ends: an answer, an
    error, a timeout, a dropped connection. *)
From S2P Require Import Prelude Bytes Channel Envelope DeviceAuth Devices Pairing Handshake Peer Tunnel.
Local Open Scope N_scope.

(** ** Counting requests *)
Definition count_phases (f : Phase → N) (m : gmap N Phase) : N := map_fold (λ _ ph n, f ph + n) 0 m.

Lemma count_fresh f m i ph : m !! i = None → count_phases f (<[i := ph]> m) = f ph + count_phases f m.
Proof. intros Hi. unfold count_phases. rewrite map_fold_insert_L; [done|intros; lia|done]. Qed.

Lemma count_replace f m i ph ph' :
  m !! i = Some ph → count_phases f (<[i := ph']> m) + f ph = f ph' + count_phases f m.
Proof.
  intros Hi. rewrite <-(insert_delete_id m i ph Hi) at 2. rewrite <-insert_delete_eq.
  rewrite !count_fresh by apply lookup_delete_eq. lia.
Qed.

Lemma count_member f m i ph : m !! i = Some ph → f ph ≤ count_phases f m.
Proof.
  intros Hi. rewrite <-(insert_delete_id m i ph Hi), count_fresh by apply lookup_delete_eq. lia.
Qed.

(** ** What a request holds *)
Definition permit_of (ph : Phase) : option AdmittedHead :=
  match ph with BodyPhase _ _ a _ _ | HandlerPhase _ a _ => Some a | _ => None end.
Definition share_of (ph : Phase) : option bytes :=
  match ph with PermitPhase _ _ a _ | BodyPhase _ _ a _ _ | HandlerPhase _ a _ => a_device a | _ => None end.

Definition permits (public : bool) (ph : Phase) : N :=
  match permit_of ph with Some a => if Bool.eqb (a_public a) public then 1 else 0 | None => 0 end.
Definition shares (d : bytes) (ph : Phase) : N := if decide (share_of ph = Some d) then 1 else 0.
Definition device_count (p : Pools) (d : bytes) : N := default 0 (p_devices p !! d).
Definition no_empty_share (p : Pools) : Prop := ∀ d, p_devices p !! d ≠ Some 0.

(** A step moves permits between the pools and the request, and creates or
    loses none. *)
Record accounts (limit : N) (p : Pools) (ph : Phase) (p' : Pools) (ph' : Phase) : Prop := {
  acc_permits public : free_permits public p' + permits public ph' = free_permits public p + permits public ph;
  acc_shares d : device_count p' d + shares d ph = device_count p d + shares d ph';
  acc_limit d : device_count p' d ≤ N.max (device_count p d) limit;
  acc_nonempty : no_empty_share p';
}.

(** ** The device shares *)
Lemma shares_none d ph : share_of ph = None → shares d ph = 0.
Proof. intros E. unfold shares. rewrite E. by rewrite decide_False. Qed.

Lemma try_take_spec id limit p m taken :
  0 < limit → no_empty_share p → try_take id limit (p_devices p) = (m, taken) →
  (∀ d, default 0 (m !! d) = device_count p d + (if decide (taken = true ∧ d = id) then 1 else 0)) ∧
  (∀ d, default 0 (m !! d) ≤ N.max (device_count p d) limit) ∧ (∀ d, m !! d ≠ Some 0).
Proof.
  intros Hl Hz. unfold try_take. set (c := default 0 (p_devices p !! id)).
  destruct (N.leb_spec limit c) as [Hle|Hlt]; intros [= <- <-].
  - assert (p_devices p !! id = Some c) as Hc by (unfold c in *; destruct (p_devices p !! id); simpl in *; [done|lia]).
    rewrite insert_id by done. split_and!; intros d; unfold device_count; [rewrite decide_False by naive_solver|..];
      [lia..|apply Hz].
  - rewrite insert_insert_eq. split_and!; intros d; unfold device_count;
      (destruct (decide (d = id)) as [->|Hd]; [rewrite lookup_insert_eq|rewrite lookup_insert_ne by done]); simpl.
    + rewrite decide_True by done. done.
    + rewrite decide_False by naive_solver. lia.
    + fold c. lia.
    + lia.
    + intros [= ?]. lia.
    + apply Hz.
Qed.

Lemma drop_device_spec device p :
  no_empty_share p → (∀ d, device = Some d → 0 < device_count p d) →
  (∀ public, free_permits public (drop_device device p) = free_permits public p) ∧
  (∀ d, device_count (drop_device device p) d + (if decide (device = Some d) then 1 else 0) = device_count p d) ∧
  no_empty_share (drop_device device p).
Proof.
  intros Hz Hp. destruct device as [id|]; [|split_and!; [done| |done]; intros d; rewrite decide_False by done; simpl; lia].
  simpl. split; [by intros []|]. specialize (Hp id eq_refl). unfold device_count in *. unfold no_empty_share, device_drop. simpl.
  destruct (p_devices p !! id) as [c|] eqn:Hc; simpl in Hp; [|lia].
  destruct (N.eqb_spec (c - 1) 0) as [He|He]; split; intros d; destruct (decide (d = id)) as [->|Hd];
    rewrite ?lookup_delete_eq, ?lookup_delete_ne, ?lookup_insert_eq, ?lookup_insert_ne by done; rewrite ?Hc; simpl;
    repeat case_decide; simplify_eq; try done; try lia; try apply Hz.
  all: intros [= ?]; lia.
Qed.

(** ** Steps *)

Definition at_rest (ph : Phase) : Prop := permit_of ph = None ∧ share_of ph = None.
#[local] Hint Unfold at_rest : core.

Lemma accounts_same limit p ph ph' :
  no_empty_share p → permit_of ph' = permit_of ph → share_of ph' = share_of ph → accounts limit p ph p ph'.
Proof. intros Hz Hp Hs. split; [unfold permits|unfold shares| |done]; intros; rewrite ?Hp, ?Hs; lia. Qed.

Lemma accounts_share_dropped limit p ph ph' :
  no_empty_share p → (∀ d, shares d ph ≤ device_count p d) → permit_of ph = None → at_rest ph' →
  accounts limit p ph (drop_device (share_of ph) p) ph'.
Proof.
  intros Hz Hd Hp [Hp' Hs']. destruct (drop_device_spec (share_of ph) p Hz) as (H1 & H2 & H3).
  { intros d Hs. specialize (Hd d). unfold shares in Hd. rewrite decide_True in Hd by done. lia. }
  split; [|intros d..|done].
  - intros public. unfold permits. rewrite Hp, Hp', H1. done.
  - rewrite (shares_none d ph' Hs'). specialize (H2 d). unfold shares. lia.
  - specialize (H2 d). lia.
Qed.

Lemma accounts_released limit p ph ph' a :
  no_empty_share p → (∀ d, shares d ph ≤ device_count p d) → permit_of ph = Some a → share_of ph = a_device a →
  at_rest ph' → accounts limit p ph (release a p) ph'.
Proof.
  intros Hz Hd Hp Hs [Hp' Hs']. unfold release.
  assert (Hd' : ∀ d, device_count (permit_drop (a_public a) p) d = device_count p d) by (by destruct (a_public a)).
  destruct (drop_device_spec (a_device a) (permit_drop (a_public a) p)) as (H1 & H2 & H3).
  { by destruct (a_public a). }
  { intros d E. rewrite Hd'. specialize (Hd d). unfold shares in Hd. rewrite decide_True in Hd by congruence. lia. }
  split; [|intros d..|done].
  - intros public. unfold permits. rewrite Hp, Hp', H1. destruct (a_public a), public; simpl; lia.
  - rewrite (shares_none d ph' Hs'). specialize (H2 d). rewrite Hd' in H2. unfold shares. rewrite Hs. lia.
  - specialize (H2 d). rewrite Hd' in H2. lia.
Qed.

Section steps.
Context `{AuthCrypto} `{PairingCrypto} `{TransportCrypto} `{HttpCrate} `{Aead}.
Context (error_json : AppError → bytes).
Context (head_from_slice : bytes → option InnerRequestHead) (head_to_vec : InnerResponseHead → option bytes).
Context (registry_get : bytes → result AppError (option bytes)) (boot_secs : N) (enable_auth : bool).
Context (pairing_encryption : PairingEncryption) (trusted_proxies : list IpAddr) (limits : TunnelLimits).
Context (limit_pos : 0 < per_device_permits limits).
Abbreviation limit := (per_device_permits limits).
Abbreviation head_step := (head_step error_json head_from_slice head_to_vec registry_get boot_secs enable_auth limits).
Abbreviation event := (tunnel_event error_json head_from_slice head_to_vec registry_get boot_secs enable_auth limits).
Abbreviation sealed_start := (sealed_start error_json head_from_slice head_to_vec registry_get boot_secs enable_auth
  pairing_encryption trusted_proxies limits).
Abbreviation tunnel_run := (tunnel_run error_json head_from_slice head_to_vec registry_get boot_secs enable_auth
  pairing_encryption trusted_proxies limits).
Abbreviation tunnel_op := (tunnel_op error_json head_from_slice head_to_vec registry_get boot_secs enable_auth
  pairing_encryption trusted_proxies limits).

Lemma failed_rests : at_rest (outer_failed error_json).
Proof. done. Qed.
Lemma sealed_rests o r : at_rest (seal_reply error_json head_to_vec o r).
Proof. unfold seal_reply. by destruct (seal_response _ _ _). Qed.
#[local] Hint Resolve failed_rests sealed_rests : core.

Lemma head_step_accounts now wall o r p ph :
  no_empty_share p → at_rest ph → let '(p', ph') := head_step now wall o r p in accounts limit p ph p' ph'.
Proof.
  intros Hz [Hp Hs]. unfold Tunnel.head_step.
  assert (Hrest : ∀ ph', at_rest ph' → accounts limit p ph p ph').
  { intros ph' [Hp' Hs']. apply accounts_same; congruence. }
  destruct (parse_inner_head _ _) as [[[hd head_end]|]|]; [|by apply Hrest; auto..].
  destruct (inner_parts _ _) as [inner|]; [|by apply Hrest; auto].
  destruct (admit_inner _ _ _ _ _ _) as [admission|]; [|by apply Hrest; apply sealed_rests].
  unfold take_device. destruct (_ || _); [by apply accounts_same|].
  destruct (try_take _ _ _) as [m taken] eqn:Ht. apply try_take_spec in Ht as (Hm1 & Hm2 & Hm3); [|done..].
  destruct taken; split; try done.
  - intros public. unfold permits. by rewrite Hp.
  - intros d. rewrite (shares_none d ph Hs). unfold device_count at 1. simpl. rewrite Hm1. unfold shares. simpl.
    destruct (decide (d = default [] (claimed_device_id (ip_headers inner) (uri_query (ip_uri inner))))) as [->|Hd].
    + rewrite !decide_True by done. lia.
    + rewrite !decide_False by naive_solver. lia.
  - intros public. unfold permits. rewrite Hp.
    destruct (sealed_rests o (error_response error_json TransportBusy)) as [Hr _]. unfold reject. by rewrite Hr.
  - intros d. destruct (sealed_rests o (error_response error_json TransportBusy)) as [_ Hr].
    unfold reject. rewrite (shares_none d ph Hs), (shares_none d _ Hr). unfold device_count at 1. simpl. rewrite Hm1.
    rewrite decide_False by naive_solver. lia.
Qed.

Lemma body_step_accounts now o r a until p ph :
  no_empty_share p → (∀ d, shares d ph ≤ device_count p d) → permit_of ph = Some a → share_of ph = a_device a →
  let '(p', ph') := body_step error_json limits now o r a until p in accounts limit p ph p' ph'.
Proof.
  intros Hz Hd Hp Hs. unfold body_step. destruct (_ <? _); [by apply accounts_released|].
  by apply accounts_same.
Qed.

Lemma granted_accounts now o r a deadline until p :
  no_empty_share p → (∀ d, shares d (PermitPhase o r a deadline) ≤ device_count p d) → free_permits (a_public a) p ≠ 0 →
  let '(p', ph') := body_step error_json limits now o r a until (take_permit (a_public a) p) in
  accounts limit p (PermitPhase o r a deadline) p' ph'.
Proof.
  intros Hz Hd Hf.
  pose proof (body_step_accounts now o r a until (take_permit (a_public a) p) (BodyPhase o r a until 0)) as Hb.
  destruct (body_step _ _ _ _ _ _ _ _) as [p' ph']. destruct Hb as [Ha1 Ha2 Ha3 Ha4]; [by destruct (a_public a)..|].
  assert (Hc : ∀ d, device_count (take_permit (a_public a) p) d = device_count p d) by (by destruct (a_public a)).
  split; [intros public|intros d..|done].
  - specialize (Ha1 public). unfold permits at 2 in Ha1. unfold permits at 2. simpl in *.
    destruct (a_public a), public; simpl in *; lia.
  - specialize (Ha2 d). rewrite Hc in Ha2. unfold shares in *. simpl in *. lia.
  - specialize (Ha3 d). by rewrite Hc in Ha3.
Qed.

Lemma head_event_accounts now wall ev o r dl p :
  no_empty_share p →
  let '(p', ph') := head_event error_json head_from_slice head_to_vec registry_get boot_secs enable_auth limits
                      now wall ev o r dl p in
  accounts limit p (HeadPhase o r dl) p' ph'.
Proof.
  intros Hz. assert (Hs : ∀ ph', at_rest ph' → accounts limit p (HeadPhase o r dl) p ph')
    by (intros ph' [Hp Hs]; by apply accounts_same).
  assert (Hk : at_rest (HeadPhase o r dl)) by done.
  destruct ev; cbn [head_event]; [|exact (Hs _ failed_rests)| | |exact (Hs _ Hk)..|exact (Hs Cancelled (conj eq_refl eq_refl))].
  - destruct (receive _ _) as [r'|]; [exact (head_step_accounts _ _ _ _ _ _ Hz Hk)|exact (Hs _ failed_rests)].
  - exact (Hs _ failed_rests).
  - destruct (_ <=? _); [exact (Hs _ failed_rests)|exact (Hs _ Hk)].
Qed.

Lemma permit_event_accounts now ev o r a dl p :
  no_empty_share p → (∀ d, shares d (PermitPhase o r a dl) ≤ device_count p d) →
  let '(p', ph') := permit_event error_json head_to_vec limits now ev o r a dl p in
  accounts limit p (PermitPhase o r a dl) p' ph'.
Proof.
  intros Hz Hd. assert (Hs : accounts limit p (PermitPhase o r a dl) p (PermitPhase o r a dl)) by (by apply accounts_same).
  assert (Hr : ∀ ph', at_rest ph' → accounts limit p (PermitPhase o r a dl) (drop_device (a_device a) p) ph')
    by (intros ph' Hp; by apply (accounts_share_dropped limit p (PermitPhase o r a dl))).
  destruct ev; cbn [permit_event]; [exact Hs..| | |exact (Hr _ failed_rests)|exact Hs|exact (Hr Cancelled (conj eq_refl eq_refl))].
  - destruct (_ <=? _); [exact (Hr _ (sealed_rests _ _))|exact Hs].
  - destruct (N.eqb_spec (free_permits (a_public a) p) 0); [exact Hs|by apply granted_accounts].
Qed.

Lemma body_event_accounts now ev o r a until dl p :
  no_empty_share p → (∀ d, shares d (BodyPhase o r a until dl) ≤ device_count p d) →
  let '(p', ph') := body_event error_json head_to_vec limits now ev o r a until dl p in
  accounts limit p (BodyPhase o r a until dl) p' ph'.
Proof.
  intros Hz Hd. assert (Hs : accounts limit p (BodyPhase o r a until dl) p (BodyPhase o r a until dl)) by (by apply accounts_same).
  assert (Hr : ∀ ph', at_rest ph' → accounts limit p (BodyPhase o r a until dl) (release a p) ph')
    by (intros ph' Hp; by apply accounts_released).
  destruct ev; cbn [body_event]; [|exact (Hr _ failed_rests)| | |exact Hs..|exact (Hr Cancelled (conj eq_refl eq_refl))].
  - destruct (receive _ _) as [r'|]; [by apply body_step_accounts|exact (Hr _ failed_rests)].
  - destruct (decoder_finish _); [by apply accounts_same|exact (Hr _ failed_rests)].
  - destruct (_ <=? _); [exact (Hr _ (sealed_rests _ _))|exact Hs].
Qed.

Lemma event_accounts now wall ev ph p :
  no_empty_share p → (∀ d, shares d ph ≤ device_count p d) →
  let '(p', ph') := event now wall ev ph p in accounts limit p ph p' ph'.
Proof.
  intros Hz Hd. destruct ph as [o r dl|o r a dl|o r a until dl|o a rq| |]; cbn [Tunnel.tunnel_event].
  - by apply head_event_accounts.
  - by apply permit_event_accounts.
  - by apply body_event_accounts.
  - assert (Hs : accounts limit p (HandlerPhase o a rq) p (HandlerPhase o a rq)) by (by apply accounts_same).
    assert (Hr : ∀ ph', at_rest ph' → accounts limit p (HandlerPhase o a rq) (release a p) ph')
      by (intros ph' Hp; by apply accounts_released).
    destruct ev; [exact Hs..|exact (Hr _ (sealed_rests _ _))|exact (Hr Cancelled (conj eq_refl eq_refl))].
  - by apply accounts_same.
  - by apply accounts_same.
Qed.

Lemma start_accounts now wall nonce at_stat at_read request store p :
  no_empty_share p →
  let '(_, p', ph') := sealed_start now wall nonce at_stat at_read request store p in accounts limit p Cancelled p' ph'.
Proof.
  intros Hz. unfold Tunnel.sealed_start. destruct (negb _); [by apply accounts_same|].
  destruct (open_keys _ _ _ _ _ _) as [store' [[decoder down]|e]]; [|by apply accounts_same].
  match goal with |- context [Tunnel.head_step _ _ _ _ _ _ _ _ _ ?o ?r _] =>
    pose proof (head_step_accounts now wall o r p Cancelled Hz) as Hh;
    destruct (Tunnel.head_step _ _ _ _ _ _ _ _ _ o r p) as [p' ph'] end.
  by apply Hh.
Qed.

(** ** All requests *)

(** What is free and what the requests hold make up the pools, and each
    device's count is the number of its requests, none above its share. *)
Record tunnel_ok (authenticated public : N) (t : Tunnel) : Prop := {
  tk_permits kind : free_permits kind (t_pools t) + count_phases (permits kind) (t_requests t)
                    = if kind then public else authenticated;
  tk_shares d : device_count (t_pools t) d = count_phases (shares d) (t_requests t);
  tk_limit d : device_count (t_pools t) d ≤ limit;
  tk_nonempty : no_empty_share (t_pools t);
}.

Lemma accounts_ok ta tp t id ph p' ph' store :
  tunnel_ok ta tp t → accounts limit (t_pools t) ph p' ph' →
  (t_requests t !! id = Some ph ∨ t_requests t !! id = None ∧ ph = Cancelled) →
  tunnel_ok ta tp {| t_pools := p'; t_store := store; t_requests := <[id := ph']> (t_requests t) |}.
Proof.
  intros [Hk1 Hk2 Hk3 Hk4] [Ha1 Ha2 Ha3 Ha4] Hid.
  assert (Hcount : ∀ f : Phase → N, f Cancelled = 0 →
            count_phases f (<[id := ph']> (t_requests t)) + f ph = f ph' + count_phases f (t_requests t)).
  { intros f Hf. destruct Hid as [Hid|[Hid ->]]; [by apply count_replace|]. rewrite count_fresh by done. lia. }
  split; simpl; [intros kind|intros d..|done].
  - rewrite <-(Hk1 kind). specialize (Ha1 kind). specialize (Hcount (permits kind) eq_refl). lia.
  - specialize (Ha2 d). specialize (Hcount (shares d) (shares_none d Cancelled eq_refl)). rewrite Hk2 in Ha2. lia.
  - specialize (Ha3 d). specialize (Hk3 d). lia.
Qed.

Lemma tunnel_op_ok ta tp now wall op t : tunnel_ok ta tp t → tunnel_ok ta tp (tunnel_op now wall op t).
Proof.
  intros Hk. destruct op as [id request nonce at_stat at_read|id ev]; simpl.
  - destruct (t_requests t !! id) eqn:Hid; [done|].
    pose proof (start_accounts now wall nonce at_stat at_read request (t_store t) (t_pools t) (tk_nonempty _ _ _ Hk)) as Ha.
    destruct (Tunnel.sealed_start _ _ _ _ _ _ _ _ _ _ _ _ _ _ _ _ _) as [[store p'] ph'].
    eapply accounts_ok; eauto.
  - destruct (t_requests t !! id) as [ph|] eqn:Hid; [|done].
    pose proof (event_accounts now wall ev ph (t_pools t) (tk_nonempty _ _ _ Hk)) as Ha.
    destruct (Tunnel.tunnel_event _ _ _ _ _ _ _ _ _ _ _ _) as [p' ph']. eapply accounts_ok; eauto.
    apply Ha. intros d. rewrite (tk_shares _ _ _ Hk). by eapply count_member in Hid.
Qed.

Lemma tunnel_run_ok ta tp ops t : tunnel_ok ta tp t → tunnel_ok ta tp (tunnel_run ops t).
Proof. revert t. induction ops as [|[[now wall] op] ops IH]; intros t Hk; [done|]. simpl. by apply IH, tunnel_op_ok. Qed.

(** C9: the permits account for the requests in flight after any sequence of
    starts and events of any requests: at most 32 credentialed and 4 public
    inner bodies are buffered or handled at once, no claimed device holds more
    than its share, and once no request is waiting, receiving or running every
    permit is free and no device is remembered. *)
Theorem tunnel_permits_conserved ops store :
  let t := tunnel_run ops {| t_pools := pools_new; t_store := store; t_requests := ∅ |} in
  count_phases (permits false) (t_requests t) ≤ AUTHENTICATED_PERMITS ∧
  count_phases (permits true) (t_requests t) ≤ PUBLIC_PERMITS ∧
  (∀ d, count_phases (shares d) (t_requests t) ≤ limit) ∧
  ((∀ id ph, t_requests t !! id = Some ph → at_rest ph) → t_pools t = pools_new).
Proof.
  intros t. assert (Hk : tunnel_ok AUTHENTICATED_PERMITS PUBLIC_PERMITS t).
  { apply tunnel_run_ok. split; simpl; [by intros []|intros d; unfold device_count; simpl; rewrite lookup_empty..|].
    - by unfold count_phases; rewrite map_fold_empty.
    - simpl. lia.
    - intros d. simpl. by rewrite lookup_empty. }
  pose proof (tk_permits _ _ _ Hk false) as Hf. pose proof (tk_permits _ _ _ Hk true) as Ht. simpl in *.
  split_and!; [lia..| |].
  - intros d. rewrite <-(tk_shares _ _ _ Hk). apply (tk_limit _ _ _ Hk).
  - intros Hrest.
    assert (Hzero : ∀ f : Phase → N, (∀ ph, at_rest ph → f ph = 0) → count_phases f (t_requests t) = 0).
    { intros f Hz. clearbody t. clear Hk Hf Ht. unfold count_phases. revert Hrest.
      induction (t_requests t) as [|i ph m Hi IH] using map_ind; intros Hrest; [done|].
      rewrite map_fold_insert_L; [|intros; lia|done]. rewrite IH.
      - rewrite Hz; [done|]. apply (Hrest i). apply lookup_insert_eq.
      - intros j ph' Hj. apply (Hrest j). rewrite lookup_insert_ne; congruence. }
    rewrite Hzero in Hf, Ht by (intros ph [Hp _]; unfold permits; by rewrite Hp).
    assert (p_devices (t_pools t) = ∅) as Hd.
    { apply map_eq. intros d. rewrite lookup_empty. pose proof (tk_shares _ _ _ Hk d) as Hs.
      rewrite Hzero in Hs by (intros ph [_ Hp]; by apply shares_none).
      pose proof (tk_nonempty _ _ _ Hk d) as Hn. unfold device_count in Hs. destruct (p_devices _ !! d); [|done]. simpl in Hs. congruence. }
    destruct (t_pools t); simpl in *. unfold pools_new. f_equal; [lia..|done].
Qed.
End steps.
