(* ===== verification/TunnelSafety.v ===== *)
(** * What the sealed tunnel forwards

    A request the tunnel of [Tunnel] hands to the router is exactly the inner
    request the peer sealed, whole, admitted and within its limits; and a peer
    that stalls is answered within a fixed time. Other requests may change the
    permit pools at any moment: every event meets arbitrary pools. *)
From S2P Require Import Prelude Bytes Query Channel Envelope DeviceAuth Devices Pairing Handshake Peer Tunnel.
From Stdlib Require Import Strings.Byte.
Local Open Scope N_scope.

(** ** Growing plaintexts *)
Section growth.
Context `{Aead}.

Lemma decode_loop_grows fuel st : l_out st `prefix_of` l_out (decode_loop fuel st).1.
Proof.
  revert st. induction fuel as [|fuel IH]; intros st; [done|]. simpl.
  repeat case_match; simpl; try done; try (by eexists).
  etrans; [|apply IH]. simpl. by eexists.
Qed.

Lemma decoder_push_grows chunk d out : out `prefix_of` (decoder_push chunk (d, out)).1.2.
Proof.
  unfold decoder_push. destruct chunk as [|x chunk]; [done|]. destruct (saw_final d); [done|].
  match goal with |- context [decode_loop ?f ?st] => pose proof (decode_loop_grows f st) as Hg; destruct (decode_loop f st) as [st' []] end; done.
Qed.

(** Pushing chunks one after another. *)
Lemma decoder_pushes_snoc cs c s s' s'' :
  decoder_pushes cs s = (s', Ok tt) → decoder_push c s' = (s'', Ok tt) → decoder_pushes (cs ++ [c]) s = (s'', Ok tt).
Proof.
  revert s. induction cs as [|x cs IH]; intros s.
  - intros [= ->] Hc. simpl. unfold mbind, M_bind. by rewrite Hc.
  - simpl. unfold mbind, M_bind. destruct (decoder_push x s) as [s1 [u|e]]; [|done]. apply IH.
Qed.
End growth.

Lemma parse_inner_head_grows head_from_slice pt pt' hd n :
  parse_inner_head head_from_slice pt = Ok (Some (hd, n)) → pt `prefix_of` pt' →
  parse_inner_head head_from_slice pt' = Ok (Some (hd, n)) ∧ (n ≤ length pt)%nat.
Proof.
  intros Hp [more ->]. unfold parse_inner_head in *.
  destruct (Nat.ltb_spec (length pt) 4) as [|H4]; [done|].
  destruct (Nat.ltb_spec (length (pt ++ more)) 4) as [Hlt|_]; [rewrite length_app in Hlt; lia|].
  rewrite (take_app_le pt) by lia.
  destruct (_ <? _); [done|]. set (len := N.to_nat (from_be (take 4 pt))) in *.
  destruct (Nat.ltb_spec (length pt) (4 + len)) as [|Hl]; [done|].
  destruct (Nat.ltb_spec (length (pt ++ more)) (4 + len)) as [Hlt|_]; [rewrite length_app in Hlt; lia|].
  rewrite drop_app_le, take_app_le by (rewrite ?length_drop; lia).
  split; [done|]. destruct (head_from_slice _); [|done]. destruct (validate_inner_path _); [|done].
  injection Hp as _ <-. done.
Qed.

(** ** Copied headers *)

Lemma get_all_app h1 h2 name : get_all (h1 ++ h2) name = get_all h1 name ++ get_all h2 name.
Proof. unfold get_all. by rewrite filter_app, fmap_app. Qed.
Lemma get_all_nil (h : HeaderList) name : (∀ n v, (n, v) ∈ h → n ≠ name) → get_all h name = [].
Proof.
  intros Hn. unfold get_all. destruct (filter _ h) as [|[n v] l] eqn:E; [done|].
  exfalso. assert ((n, v) ∈ filter (λ p, p.1 = name) h) as [Hf Hm]%list_elem_of_filter by (rewrite E; left).
  by apply (Hn n v).
Qed.
Lemma get_all_same name vs : get_all ((λ v, (name, v)) <$> vs) name = vs.
Proof.
  unfold get_all. induction vs as [|v vs IH]; [done|]. csimpl.
  rewrite filter_cons_True by done. csimpl. by rewrite IH.
Qed.

Section forwarding.
Context `{AuthCrypto} `{HttpCrate}.

Lemma forward_headers_names hs acc hs' n v :
  forward_headers hs acc = Ok hs' → (∀ n v, (n, v) ∈ acc → n ∈ FORWARDED_INNER_HEADERS) → (n, v) ∈ hs' →
  n ∈ FORWARDED_INNER_HEADERS.
Proof.
  revert acc. induction hs as [|[name value] rest IH]; intros acc; simpl.
  - intros [= ->] Hacc. apply Hacc.
  - case_decide as Hin; [|apply IH]. case_match; [|done]. intros E Hacc. apply (IH _ E).
    intros n' v'. unfold header_insert. rewrite elem_of_app, list_elem_of_filter, list_elem_of_singleton.
    intros [[_ ?]|[= -> _]]; [by eapply Hacc|done].
Qed.

Lemma host_not_forwarded : HOST ∉ FORWARDED_INNER_HEADERS.
Proof. apply (bool_decide_unpack (HOST ∉ FORWARDED_INNER_HEADERS)). vm_compute. exact I. Qed.
Lemma origin_not_forwarded : ORIGIN ∉ FORWARDED_INNER_HEADERS.
Proof. apply (bool_decide_unpack (ORIGIN ∉ FORWARDED_INNER_HEADERS)). vm_compute. exact I. Qed.

(** The inner request's [Host] and [Origin] are the outer request's, and it has
    no forwarding header. *)
Lemma inner_parts_outer hd outer inner :
  inner_parts hd outer = Ok inner →
  get_all (ip_headers inner) HOST = get_all outer HOST ∧ get_all (ip_headers inner) ORIGIN = get_all outer ORIGIN ∧
  uri_authority (ip_uri inner) = None.
Proof.
  unfold inner_parts. case_match; [done|]. intros (target & _ & (uri & _ & E)%bind_Ok_inv)%bind_Ok_inv.
  destruct (bool_decide _ || bool_decide (is_Some (uri_authority uri))) eqn:Hu in E; [done|].
  apply bind_Ok_inv in E as (hs & Hf & [= <-]). simpl.
  assert (Hout : ∀ name, name ∉ FORWARDED_INNER_HEADERS → get_all hs name = []).
  { intros name Hn. apply get_all_nil. intros n v Hm ->. apply Hn.
    eapply forward_headers_names; [exact Hf| |exact Hm]. by intros ?? ?%not_elem_of_nil. }
  unfold copied_headers. rewrite !get_all_app, !get_all_same, (Hout _ host_not_forwarded), (Hout _ origin_not_forwarded).
  rewrite (get_all_nil ((λ v, (ORIGIN, v)) <$> _)), (get_all_nil ((λ v, (HOST, v)) <$> _)), app_nil_r.
  - split_and!; [done..|]. apply orb_false_iff in Hu as [_ Hu%bool_decide_eq_false]. by apply eq_None_not_Some.
  - intros n v (? & [= -> ->] & _)%list_elem_of_fmap. done.
  - intros n v (? & [= -> ->] & _)%list_elem_of_fmap. done.
Qed.
End forwarding.

(** ** One request *)
Section request.
Context `{AuthCrypto} `{PairingCrypto} `{TransportCrypto} `{HttpCrate} `{Aead}.
Context (error_json : AppError → bytes).
Context (head_from_slice : bytes → option InnerRequestHead) (head_to_vec : InnerResponseHead → option bytes).
Context (registry_get : bytes → result AppError (option bytes)) (boot_secs : N) (enable_auth : bool).
Context (pairing_encryption : PairingEncryption) (trusted_proxies : list IpAddr) (limits : TunnelLimits).
Abbreviation event := (tunnel_event error_json head_from_slice head_to_vec registry_get boot_secs enable_auth limits).
Abbreviation head_step := (head_step error_json head_from_slice head_to_vec registry_get boot_secs enable_auth limits).
Abbreviation body_step := (body_step error_json limits).
Abbreviation sealed_start := (sealed_start error_json head_from_slice head_to_vec registry_get boot_secs enable_auth
  pairing_encryption trusted_proxies limits).
Abbreviation admit_inner := (admit_inner registry_get boot_secs enable_auth).

(** An event, when it comes and the pools it meets. *)
Record Waking : Type := { wk_now : N; wk_wall : N; wk_event : Event; wk_pools : Pools }.
Definition wake (w : Waking) (ph : Phase) : Phase := (event (wk_now w) (wk_wall w) (wk_event w) ph (wk_pools w)).2.
Definition wakes (ws : list Waking) (ph : Phase) : Phase := foldl (λ ph w, wake w ph) ph ws.

(** The chunks of the outer body the request reads: the body is not polled
    while it waits for a permit. *)
Definition read_by (ph : Phase) (ev : Event) : list bytes :=
  match ph, ev with
  | (HeadPhase _ _ _ | BodyPhase _ _ _ _ _), Arrived chunk => [chunk]
  | _, _ => []
  end.
Fixpoint consumed (ws : list Waking) (ph : Phase) : list bytes :=
  match ws with
  | [] => []
  | w :: ws => read_by ph (wk_event w) ++ consumed ws (wake w ph)
  end.

(** ** The invariant of a request *)
Section invariant.
Context (c : RecordCipher) (o : Outer).

Definition read_ok (cs : list bytes) (r : Reading) : Prop :=
  decoder_pushes cs (decoder_new c, []) = ((r_decoder r, r_plaintext r), Ok tt) ∧
  r_received r = N.of_nat (length (concat cs)) ∧ r_received r ≤ MAX_OUTER_BODY.

Definition admitted_ok (a : AdmittedHead) (plaintext : bytes) : Prop :=
  ∃ hd wall, parse_inner_head head_from_slice plaintext = Ok (Some (hd, a_head_end a)) ∧
    inner_parts hd (o_headers o) = Ok (a_inner a) ∧
    admit_inner wall (a_inner a) (o_forwarded o) = Ok {| ad_body_limit := a_body_limit a; ad_public := a_public a |}.

Definition body_fits (a : AdmittedHead) (plaintext : bytes) : Prop :=
  N.of_nat (length plaintext - a_head_end a) ≤ a_body_limit a.

Definition phase_ok (cs : list bytes) (ph : Phase) : Prop :=
  match ph with
  | HeadPhase o' r _ => o' = o ∧ read_ok cs r
  | PermitPhase o' r a _ => o' = o ∧ read_ok cs r ∧ admitted_ok a (r_plaintext r)
  | BodyPhase o' r a _ _ => o' = o ∧ read_ok cs r ∧ admitted_ok a (r_plaintext r) ∧ body_fits a (r_plaintext r)
  | HandlerPhase o' a rq =>
      o' = o ∧ ∃ plaintext, decoder_run c cs = Ok plaintext ∧ N.of_nat (length (concat cs)) ≤ MAX_OUTER_BODY ∧
        admitted_ok a plaintext ∧ body_fits a plaintext ∧
        rq = inner_request (a_inner a) (drop (a_head_end a) plaintext) (o_extensions o) (o_forwarded o)
  | Replied _ | Cancelled => True
  end.

Lemma seal_reply_ok cs o' response : phase_ok cs (seal_reply error_json head_to_vec o' response).
Proof. unfold seal_reply. by destruct (seal_response _ _ _). Qed.

Lemma receive_ok cs chunk r r' :
  read_ok cs r → receive chunk r = Ok r' → read_ok (cs ++ [chunk]) r' ∧ r_plaintext r `prefix_of` r_plaintext r'.
Proof.
  intros (Hp & Hn & _). unfold receive. destruct (N.ltb_spec MAX_OUTER_BODY (N.min (r_received r + N.of_nat (length chunk)) usize_MAX)) as [|Hle]; [done|].
  pose proof (decoder_push_grows chunk (r_decoder r) (r_plaintext r)) as Hg.
  destruct (decoder_push chunk _) as [[d pt] [[]|e]] eqn:E; [|done]. intros [= <-]. simpl in *. split; [|done].
  split; [by eapply decoder_pushes_snoc|]. simpl. split; [|done].
  assert (MAX_OUTER_BODY < usize_MAX) by done. rewrite concat_app, length_app. simpl. rewrite app_nil_r. lia.
Qed.

Lemma head_step_ok now wall r p cs : read_ok cs r → phase_ok cs (head_step now wall o r p).2.
Proof.
  intros Hr. unfold Tunnel.head_step. destruct (parse_inner_head _ _) as [[[hd head_end]|]|] eqn:Hp; [|by split|done].
  destruct (inner_parts _ _) as [inner|] eqn:Hi; [|done].
  destruct (Tunnel.admit_inner _ _ _ _ _ _) as [[l pub]|] eqn:Ha; [|apply seal_reply_ok].
  destruct (take_device _ _ _ _ _) as [p' [device|]]; [|apply seal_reply_ok].
  split_and!; [done..|]. exists hd, wall. done.
Qed.

Lemma body_step_ok now r a until p cs :
  read_ok cs r → admitted_ok a (r_plaintext r) → phase_ok cs (body_step now o r a until p).2.
Proof.
  intros Hr Ha. unfold Tunnel.body_step.
  destruct (N.ltb_spec (a_body_limit a) (N.of_nat (length (r_plaintext r) - a_head_end a))); done.
Qed.

Lemma admitted_grows a pt pt' : admitted_ok a pt → pt `prefix_of` pt' → admitted_ok a pt'.
Proof. intros (hd & wall & Hp & ?) Hpre. exists hd, wall. split; [|done]. by eapply parse_inner_head_grows. Qed.

Lemma wake_ok w ph cs : phase_ok cs ph → phase_ok (cs ++ read_by ph (wk_event w)) (wake w ph).
Proof.
  destruct w as [now wall ev p]. unfold wake. simpl.
  assert (Hnil : ∀ ph', phase_ok cs ph' → phase_ok (cs ++ []) ph') by (intros ph'; by rewrite app_nil_r).
  destruct ph as [o' r dl|o' r a dl|o' r a until dl|o' a rq| |]; cbn [Tunnel.tunnel_event].
  - intros [-> Hr]. destruct ev; cbn [read_by head_event snd]; try (apply Hnil; done).
    + destruct (receive chunk r) as [r'|] eqn:E; [|done]. apply head_step_ok. by eapply receive_ok in E as [? _].
    + apply Hnil. destruct (_ <=? _); done.
  - intros (-> & Hr & Ha). cbn [read_by]. apply Hnil. destruct ev; cbn [permit_event snd]; try done.
    + destruct (_ <=? _); [apply seal_reply_ok|done].
    + destruct (_ =? _); [done|]. by apply body_step_ok.
  - intros (-> & Hr & Ha & Hb). destruct ev; cbn [read_by body_event snd]; try (apply Hnil; done).
    + destruct (receive chunk r) as [r'|] eqn:E; [|done]. eapply receive_ok in E as [? ?]; [|done].
      apply body_step_ok; [done|by eapply admitted_grows].
    + apply Hnil. destruct (decoder_finish (r_decoder r)) as [u|] eqn:E; [|done]. split; [done|].
      exists (r_plaintext r). destruct Hr as (Hp & Hn & Hm). unfold decoder_run. rewrite Hp, E.
      split_and!; [done|lia|done..].
    + apply Hnil. destruct (_ <=? _); [apply seal_reply_ok|done].
  - intros Hh. cbn [read_by]. apply Hnil. destruct ev; try done. apply seal_reply_ok.
  - intros _. by destruct ev.
  - intros _. by destruct ev.
Qed.

Lemma wakes_ok ws ph cs : phase_ok cs ph → phase_ok (cs ++ consumed ws ph) (wakes ws ph).
Proof.
  revert ph cs. induction ws as [|w ws IH]; intros ph cs Hp; simpl; [by rewrite app_nil_r|].
  rewrite app_assoc. apply IH. by apply wake_ok.
Qed.
End invariant.

(** What the outer request's head becomes once its keys are derived. *)
Definition outer_of (now : N) (request : HttpRequest) (down : ResponseKeys) : Outer :=
  {| o_headers := hr_headers request; o_extensions := hr_extensions request;
     o_forwarded := forwarded (hr_headers request) (hr_extensions request)
                      (peer_address (hr_extensions request) ≫= peer_ip) trusted_proxies;
     o_head_deadline := now + head_deadline limits; o_down := down |}.

Lemma sealed_start_cases now wall nonce at_stat at_read request store p store' p' ph :
  sealed_start now wall nonce at_stat at_read request store p = (store', p', ph) →
  (∃ response, ph = Replied response) ∨
  ∃ c down, (open_keys pairing_encryption nonce at_stat at_read (hr_headers request) store).2 = Ok (decoder_new c, down) ∧
    let o := outer_of now request down in
    let r := {| r_received := 0; r_decoder := decoder_new c; r_plaintext := [] |} in
    ph = HeadPhase o r (N.min (now + idle_timeout limits) (o_head_deadline o)) ∧ p' = p.
Proof.
  unfold Tunnel.sealed_start. destruct (negb _); [intros [= <- <- <-]; left; by eexists|].
  destruct (open_keys _ _ _ _ _ _) as [store1 [[decoder down]|e]] eqn:Ho; [|intros [= <- <- <-]; left; by eexists].
  intros E. right. assert (∃ c, decoder = decoder_new c) as [c ->].
  { unfold open_keys in Ho. match type of Ho with context [match ?x with _ => _ end] => destruct x as [[[pr m] cn]|] end; [|done].
    destruct (current _ _ _) as [s [ks|]]; [|done]. injection Ho as _ Ho.
    apply bind_Ok_inv in Ho as (keys & _ & ([th k] & _ & [= <- _])%bind_Ok_inv). by eexists. }
  exists c, down. split; [done|]. injection E as <- <- <-. done.
Qed.


(** ** Stalled peers *)

(** When the timer of a waiting request fires. *)
Definition deadline_of (ph : Phase) : option N :=
  match ph with
  | HeadPhase _ _ d | PermitPhase _ _ _ d | BodyPhase _ _ _ _ d => Some d
  | _ => None
  end.

(** Timers fire on time: nothing wakes a request after its deadline. *)
Fixpoint timely (ws : list Waking) (ph : Phase) : Prop :=
  match ws with
  | [] => True
  | w :: ws => (∀ d, deadline_of ph = Some d → wk_now w ≤ d) ∧ timely ws (wake w ph)
  end.

(** How late each phase can be, for a request that started at [t]. *)
Definition bounded_from (t : N) (ph : Phase) : Prop :=
  match ph with
  | HeadPhase o _ d => d ≤ o_head_deadline o ∧ o_head_deadline o ≤ t + head_deadline limits
  | PermitPhase _ _ _ d => d ≤ t + head_deadline limits + permit_wait limits
  | BodyPhase _ _ _ until d => d ≤ until ∧ until ≤ t + head_deadline limits + permit_wait limits + body_deadline limits
  | _ => True
  end.

Lemma seal_reply_bounded t o response : bounded_from t (seal_reply error_json head_to_vec o response).
Proof. unfold seal_reply. by destruct (seal_response _ _ _). Qed.

Lemma head_step_bounded t now wall o r p :
  now ≤ t + head_deadline limits → o_head_deadline o ≤ t + head_deadline limits →
  bounded_from t (head_step now wall o r p).2.
Proof.
  intros Hn Ho. unfold Tunnel.head_step. destruct (parse_inner_head _ _) as [[[hd head_end]|]|]; [|simpl; lia|done].
  destruct (inner_parts _ _); [|done]. destruct (Tunnel.admit_inner _ _ _ _ _ _); [|apply seal_reply_bounded].
  destruct (take_device _ _ _ _ _) as [p' [device|]]; [simpl; lia|apply seal_reply_bounded].
Qed.

Lemma body_step_bounded t now o r a until p :
  until ≤ t + head_deadline limits + permit_wait limits + body_deadline limits → bounded_from t (body_step now o r a until p).2.
Proof. intros Hu. unfold Tunnel.body_step. destruct (_ <? _); [done|]. simpl. lia. Qed.

Lemma wake_bounded t w ph :
  bounded_from t ph → (∀ d, deadline_of ph = Some d → wk_now w ≤ d) → bounded_from t (wake w ph).
Proof.
  destruct w as [now wall ev p]. unfold wake. simpl. intros Hb Hn.
  destruct ph as [o r dl|o r a dl|o r a until dl|o a rq| |]; cbn [Tunnel.tunnel_event];
    [specialize (Hn dl eq_refl); simpl in Hb..| | |].
  - destruct ev; cbn [head_event snd]; try done.
    + destruct (receive chunk r); [|done]. apply head_step_bounded; lia.
    + by destruct (_ <=? _).
  - destruct ev; cbn [permit_event snd]; try done.
    + destruct (_ <=? _); [apply seal_reply_bounded|done].
    + destruct (_ =? _); [done|]. apply body_step_bounded. lia.
  - destruct ev; cbn [body_event snd]; try done.
    + destruct (receive chunk r); [|done]. apply body_step_bounded. lia.
    + by destruct (decoder_finish _).
    + destruct (_ <=? _); [apply seal_reply_bounded|done].
  - destruct ev; try done. apply seal_reply_bounded.
  - done.
  - done.
Qed.

Lemma wakes_bounded t ws ph : bounded_from t ph → timely ws ph → bounded_from t (wakes ws ph).
Proof.
  revert ph. induction ws as [|w ws IH]; intros ph Hb; [done|]. intros [Hn Ht]. simpl. apply IH; [|done]. by apply wake_bounded.
Qed.

(** C10: a peer cannot keep a tunnel request waiting: whatever it sends and
    however it paces it, while the request waits for the peer or for a permit
    its timer stands at most the three limits (100 s by default) after its
    start, and when that timer fires the request is answered. *)
Theorem stalled_peer_is_answered now wall nonce at_stat at_read request store p store' p' ph ws d :
  sealed_start now wall nonce at_stat at_read request store p = (store', p', ph) → timely ws ph →
  deadline_of (wakes ws ph) = Some d →
  d ≤ now + head_deadline limits + permit_wait limits + body_deadline limits ∧
  ∀ w, wk_event w = DeadlinePassed → d ≤ wk_now w → ∃ response, wake w (wakes ws ph) = Replied response.
Proof.
  intros Hs Ht Hd. assert (Hb : bounded_from now ph).
  { apply sealed_start_cases in Hs as [[response ->]|(c & down & _ & -> & _)]; [done|]. simpl. lia. }
  apply (wakes_bounded _ ws) in Hb; [|done]. split.
  { destruct (wakes ws ph); simplify_eq/=; lia. }
  intros [n wl ev pools] Hev Hn. simpl in *. subst ev. unfold wake. simpl.
  assert (Hr : ∀ o response, ∃ response', seal_reply error_json head_to_vec o response = Replied response').
  { intros o response. unfold seal_reply. destruct (seal_response _ _ _); by eexists. }
  destruct (wakes ws ph); simplify_eq/=; (destruct (N.leb_spec d n); [|lia]); simpl; [by eexists|apply Hr..].
Qed.
End request.
