(* ===== verification/TunnelRoundtrip.v ===== *)
(** * Through the sealed tunnel and back

    A client that pinned the server's key reaches the router through the tunnel
    of [Tunnel] with exactly the request it sealed, and reads exactly the
    response the router gave, however the network cuts both bodies. *)
From S2P Require Import Prelude Bytes Query Channel Envelope DeviceAuth Devices Pairing PairingExchange Handshake Peer Tunnel TunnelSafety.
From Stdlib Require Import Strings.Byte.
Local Open Scope N_scope.

(** ** Lengths *)

Lemma stream_length_nat n : N.of_nat (sealed_stream_length n) = stream_length (N.of_nat n).
Proof.
  unfold sealed_stream_length, stream_length. unfold RECORD_OVERHEAD, TAG_LENGTH, RECORD_PLAINTEXT_MAX.
  destruct (Nat.eqb_spec n 0) as [->|Hn]; [done|]. destruct (N.eqb_spec (N.of_nat n) 0); [lia|].
  rewrite Nat2N.inj_add, Nat2N.inj_mul, Nat2N.inj_div, Nat2N.inj_add, Nat2N.inj_sub, N2Nat.id. done.
Qed.

Lemma stream_length_mono n m : n ≤ m → stream_length n ≤ stream_length m.
Proof.
  intros Hle. unfold stream_length. destruct (N.eqb_spec n 0) as [->|Hn].
  - destruct (N.eqb_spec m 0) as [->|Hm]; [done|].
    assert (1 ≤ (m + 65535) / 65536) by (apply N.div_le_lower_bound; lia). lia.
  - destruct (N.eqb_spec m 0) as [->|Hm]; [lia|].
    assert ((n + 65535) / 65536 ≤ (m + 65535) / 65536) by (apply N.Div0.div_le_mono; lia). lia.
Qed.

(** ** Decoding in pieces *)
Section pieces.
Context `{AeadLaws}.

Lemma decoder_push_split c1 c2 s s' :
  decoder_push (c1 ++ c2) s = (s', Ok tt) →
  ∃ s1, decoder_push c1 s = (s1, Ok tt) ∧ decoder_push c2 s1 = (s', Ok tt).
Proof.
  intros E. destruct (decoder_push_app c1 c2 s) as [_ Hsame]. specialize (Hsame tt). rewrite E in Hsame.
  specialize (Hsame eq_refl). unfold mbind, M_bind in Hsame.
  destruct (decoder_push c1 s) as [s1 [[]|e]]; [|done]. by exists s1.
Qed.

(** One-shot sealing: the advertised length, and one push decodes it. *)
Lemma one_shot_decodes (c : RecordCipher) (plaintext : bytes) :
  counter c + N.of_nat (length plaintext) < u64_MAX →
  ∃ w c2, (seal_record_stream plaintext c).2 = Ok w ∧ length w = sealed_stream_length (length plaintext) ∧
    decoder_push w (decoder_new c, []) = (({| d_cipher := c2; buffer := []; saw_final := true |}, plaintext), Ok tt).
Proof.
  intros Hc. pose proof (data_records_count plaintext true) as [Hn _].
  destruct (records_decode c (data_records plaintext true)) as (w & c1 & c2 & Hs & Hd);
    [apply data_records_size|apply data_records_true|lia|].
  exists w, c2. unfold seal_record_stream. rewrite push_records_records, Hs. split; [done|]. split.
  - apply seal_records_length in Hs. rewrite Hs, data_records_concat. simpl. apply data_records_stream_length.
  - by rewrite data_records_concat in Hd.
Qed.

(** The bytes of a body that did not fail. *)
Fixpoint body_bytes (items : list BodyItem) : option bytes :=
  match items with
  | [] => Some []
  | BodyChunk c :: rest => bs ← body_bytes rest; Some (c ++ bs)
  | BodyFailed :: _ => None
  end.

Lemma seal_items_run cs sealer w :
  sealer_run sealer cs = Ok w → body_bytes (seal_items sealer (BodyChunk <$> cs)) = Some w.
Proof.
  revert sealer w. induction cs as [|c cs IH]; intros sealer w; csimpl.
  - intros ->. simpl. by rewrite app_nil_r.
  - destruct (sealer_push c sealer) as [sealer' [out|e]]; [|done].
    intros (rest & Hr & [= <-])%bind_Ok_inv. destruct out as [|x out]; [by apply IH|].
    cbn [body_bytes]. by rewrite (IH _ _ Hr).
Qed.

(** The response stream: any body decodes to the head followed by it. *)
Lemma response_decodes (c : RecordCipher) (head : bytes) (body : list bytes) :
  counter c + N.of_nat (length head + length (concat body)) < u64_MAX →
  ∃ w, body_bytes (seal_items (sealer_new c head) (BodyChunk <$> body)) = Some w ∧
    ∀ ws, concat ws = w → decoder_run c ws = Ok (head ++ concat body).
Proof.
  intros Hc. destruct (stream_records_spec head true body) as (E1 & E2 & E3 & E4).
  destruct (records_decode c _ E2 E3) as (w & c1 & c2 & Hs & Hd); [lia|].
  exists w. split; [apply seal_items_run; by rewrite sealer_run_records; simpl; rewrite Hs|].
  intros ws Hws. rewrite decoder_run_push, Hws, Hd. cbn. by rewrite E1.
Qed.
End pieces.

(** ** The client *)
Record TunnelClient : Type := {
  tc_protocol : EncryptionProtocol; tc_pinned : bytes; tc_ephemeral : bytes; tc_nonce : bytes;
}.

Definition material_header (p : EncryptionProtocol) : bytes :=
  match p with EpX25519 => HEADER_CLIENT_KEY | EpMlKem768 => HEADER_KEM_CIPHERTEXT end.

Section client.
Context `{AuthCrypto} `{PairingCrypto} `{TransportCrypto}.

Definition client_rest_input (cl : TunnelClient) : KeyScheduleInput :=
  client_input REST_LABEL (tc_protocol cl) (tc_pinned cl) (tc_ephemeral cl) [] (tc_nonce cl) [].

Definition client_headers (cl : TunnelClient) : HeaderList :=
  [(CONTENT_TYPE, SEALED_CONTENT_TYPE); (SEALED_REVISION_HEADER, SEALED_REVISION); (HEADER_TRANSPORT, b "2");
   (HEADER_ENCRYPTION, EncryptionProtocol_as_str (tc_protocol cl));
   (material_header (tc_protocol cl),
    base64_encode (client_agree (tc_protocol cl) (tc_pinned cl) (tc_ephemeral cl)).1);
   (HEADER_REQUEST_NONCE, base64_encode (tc_nonce cl))].

(** The client's keys fit the server's, and its header values are text. *)
Record client_ready (keys : PairingKeys) (cl : TunnelClient) : Prop := {
  cr_keys : keys_ok keys;
  cr_pinned : tc_pinned cl = static_public keys (tc_protocol cl);
  cr_usable : usable (tc_protocol cl) (tc_pinned cl) (tc_ephemeral cl);
  cr_nonce : length (tc_nonce cl) = NONCE_LENGTH;
  cr_texts : Forall (λ h, to_str h.2 = Some h.2) (client_headers cl);
}.
End client.

Lemma get_cons n v (hs : HeaderList) name : header_get ((n, v) :: hs) name = if decide (n = name) then Some v else header_get hs name.
Proof.
  unfold header_get, get_all. case_decide as Hd; [by rewrite filter_cons_True|by rewrite filter_cons_False].
Qed.

Section keys.
Context `{PairingLaws} `{!TransportCrypto} `{!TransportLaws} `{Aead}.
Context (pairing_encryption : PairingEncryption).

Lemma client_header_values keys cl extra :
  client_ready keys cl →
  let hs := client_headers cl ++ extra in
  is_sealed_content_type hs = true ∧ header_get hs SEALED_REVISION_HEADER ≫= to_str = Some SEALED_REVISION ∧
  header hs HEADER_TRANSPORT = Ok (b "2") ∧
  header hs HEADER_ENCRYPTION = Ok (EncryptionProtocol_as_str (tc_protocol cl)) ∧
  header hs (material_header (tc_protocol cl))
    = Ok (base64_encode (client_agree (tc_protocol cl) (tc_pinned cl) (tc_ephemeral cl)).1) ∧
  header hs HEADER_REQUEST_NONCE = Ok (base64_encode (tc_nonce cl)).
Proof.
  intros [_ _ _ _ Ht] hs. unfold client_headers in Ht. rewrite !Forall_cons in Ht.
  destruct Ht as (Ht1 & Ht2 & Ht3 & Ht4 & Ht5 & Ht6 & _). cbn [snd] in *.
  unfold is_sealed_content_type, header, hs, client_headers. cbn [app].
  destruct (tc_protocol cl); cbn [material_header] in *;
    repeat (rewrite get_cons; match goal with |- context [decide (?x = ?y)] =>
      first [rewrite (decide_True (P := x = y)) by reflexivity | rewrite (decide_False (P := x = y)) by discriminate] end).
  all: cbn [mbind option_bind]; rewrite ?Ht1, ?Ht2, ?Ht3, ?Ht4, ?Ht5, ?Ht6.
  all: split_and!; try reflexivity; vm_compute; reflexivity.
Qed.

Lemma open_keys_client keys cl extra nonce at_stat at_read store store' :
  client_ready keys cl → current at_stat at_read store = (store', Ok keys) →
  (pairing_encryption = Plaintext ∨ protocol_str pairing_encryption = EncryptionProtocol_as_str (tc_protocol cl)) →
  ∃ rest th k_down, derive_rest_keys (client_rest_input cl) = Ok rest ∧ into_k_down rest nonce = Ok (th, k_down) ∧
    open_keys pairing_encryption nonce at_stat at_read (client_headers cl ++ extra) store =
      (store', Ok (decoder_new (RecordCipher.new (rk_k_up rest) (rk_th rest) DIRECTION_UP),
                   {| down_nonce := nonce; down_cipher := RecordCipher.new k_down th DIRECTION_DOWN |})).
Proof.
  intros Hr Hcur Hreq. destruct (client_header_values keys cl extra Hr) as (Hct & _ & Htr & Hen & Hm & Hn).
  destruct Hr as [Hk Hp Hu Hnonce _].
  destruct (derive_rest_keys_ok (client_rest_input cl)) as (rest & Hd & _ & Hl).
  { unfold client_rest_input, client_input. by destruct (client_agree _ _ _). }
  exists rest, (rk_th rest), (hkdf_expand (rk_prk rest) (REST_LABEL ++ INFO_DOWN ++ nonce)).
  split; [done|]. split; [by apply into_k_down_ok|].
  unfold open_keys, decode_b64url, guard_err, ok_or, mbind, result_bind.
  rewrite Hct, Htr. rewrite bool_decide_true by done. rewrite Hen, parse_as_str. rewrite bool_decide_true by done.
  unfold material_header in Hm. rewrite Hm, base64_reads, Hn, base64_reads, Hcur. cbn beta iota.
  assert (server_rest_keys keys (tc_protocol cl) (client_agree (tc_protocol cl) (tc_pinned cl) (tc_ephemeral cl)).1 (tc_nonce cl)
          = Ok rest) as ->.
  { unfold server_rest_keys. rewrite Hp in *. rewrite server_schedule_client by done. rewrite <-Hp. exact Hd. }
  cbn beta iota. by rewrite into_k_down_ok.
Qed.
End keys.

(** ** Serving one request *)
Section serving.
Context `{PairingLaws} `{!TransportCrypto} `{!TransportLaws} `{HttpCrate} `{AeadLaws}.
Context (error_json : AppError → bytes).
Context (head_from_slice : bytes → option InnerRequestHead) (head_to_vec : InnerResponseHead → option bytes).
Context (registry_get : bytes → result AppError (option bytes)) (boot_secs : N) (enable_auth : bool).
Context (pairing_encryption : PairingEncryption) (trusted_proxies : list IpAddr) (limits : TunnelLimits).
Context (now wall : N).
Abbreviation event := (tunnel_event error_json head_from_slice head_to_vec registry_get boot_secs enable_auth limits now wall).
Abbreviation sealed_start := (sealed_start error_json head_from_slice head_to_vec registry_get boot_secs enable_auth
  pairing_encryption trusted_proxies limits now wall).
Abbreviation admit_inner := (admit_inner registry_get boot_secs enable_auth wall).
Abbreviation take_device := (take_device enable_auth limits).

(** A request whose permit is granted as soon as it asks for it. *)
Definition settle (s : Pools * Phase) : Pools * Phase :=
  match s with (p, PermitPhase o r a d) => event PermitGranted (PermitPhase o r a d) p | _ => s end.
Fixpoint serve (cs : list bytes) (s : Pools * Phase) : Pools * Phase :=
  match cs with
  | [] => event BodyEnd s.2 s.1
  | c :: cs => serve cs (settle (event (Arrived c) s.2 s.1))
  end.

(** The inner request passes every check, and its permits are free. *)
Record inner_ready (p : Pools) (outer : HeaderList) (f : option ForwardedFor) (json body : bytes) (inner : InnerParts)
    (adm : Admission) : Prop := {
  ir_head : ∃ hd, head_from_slice json = Some hd ∧ validate_inner_path (path hd) = Ok tt ∧
              inner_parts hd outer = Ok inner;
  ir_json : (length json ≤ MAX_HEAD_BYTES)%nat;
  ir_admitted : admit_inner inner f = Ok adm;
  ir_body : N.of_nat (length body) ≤ ad_body_limit adm;
  ir_share : (take_device inner adm p).2 ≠ None;
  ir_permit : free_permits (ad_public adm) p ≠ 0;
}.

Lemma receive_push c r d pt :
  decoder_push c (r_decoder r, r_plaintext r) = ((d, pt), Ok tt) → r_received r + N.of_nat (length c) ≤ MAX_OUTER_BODY →
  receive c r = Ok {| r_received := r_received r + N.of_nat (length c); r_decoder := d; r_plaintext := pt |}.
Proof.
  intros Hp Hl. unfold receive. assert (MAX_OUTER_BODY < usize_MAX) by done.
  rewrite N.min_l by lia. destruct (N.ltb_spec MAX_OUTER_BODY (r_received r + N.of_nat (length c))); [lia|]. by rewrite Hp.
Qed.

(** The decoder still has to turn the rest of the wire into the rest of the
    plaintext. *)
Definition pending (cs : list bytes) (r : Reading) (full : bytes) : Prop :=
  (∃ c, decoder_push (concat cs) (r_decoder r, r_plaintext r)
        = (({| d_cipher := c; buffer := []; saw_final := true |}, full), Ok tt)) ∧
  r_received r + N.of_nat (length (concat cs)) ≤ MAX_OUTER_BODY.

Lemma pending_nil r full :
  pending [] r full → r_plaintext r = full ∧ decoder_finish (r_decoder r) = Ok tt.
Proof. intros [[c [= -> ->]] _]. done. Qed.

Lemma pending_cons x cs r full :
  pending (x :: cs) r full →
  ∃ r', receive x r = Ok r' ∧ pending cs r' full ∧ r_plaintext r' `prefix_of` full.
Proof.
  intros [[c Hd] Hl]. cbn [concat] in Hd, Hl. rewrite length_app in Hl. apply decoder_push_split in Hd as ([d pt] & H1' & H2').
  eexists. split; [apply receive_push; [exact H1'|lia]|]. split.
  - split; [by exists c|]. simpl. lia.
  - simpl. pose proof (decoder_push_grows (concat cs) d pt) as Hg. by rewrite H2' in Hg.
Qed.

Lemma serve_body cs r full o a until dl p :
  pending cs r full → N.of_nat (length full - a_head_end a) ≤ a_body_limit a →
  serve cs (p, BodyPhase o r a until dl)
  = (p, HandlerPhase o a (inner_request (a_inner a) (drop (a_head_end a) full) (o_extensions o) (o_forwarded o))).
Proof.
  revert r dl. induction cs as [|x cs IH]; intros r dl Hp Hl; cbn [serve fst snd Tunnel.tunnel_event body_event].
  - apply pending_nil in Hp as [-> ->]. done.
  - apply pending_cons in Hp as (r' & -> & Hp & Hpre). unfold body_step.
    destruct (N.ltb_spec (a_body_limit a) (N.of_nat (length (r_plaintext r') - a_head_end a))) as [Hlt|_].
    { apply prefix_length in Hpre. lia. }
    cbn [settle]. by apply IH.
Qed.

Lemma take_device_free inner adm p p' device :
  take_device inner adm p = (p', device) → ∀ public, free_permits public p' = free_permits public p.
Proof. unfold Tunnel.take_device. repeat case_match; intros [= <- <-] []; done. Qed.

Lemma admit_limit inner f adm : admit_inner inner f = Ok adm → ad_body_limit adm ≤ MAX_AUTH_BODY.
Proof.
  unfold Tunnel.admit_inner. destruct (is_public_route _); [by intros [= <-]|]. intros (u & _ & [= <-])%bind_Ok_inv. done.
Qed.

(** Serving from the first byte: the head is complete at some chunk. *)
Lemma serve_head cs r o dl p json body inner adm :
  inner_ready p (o_headers o) (o_forwarded o) json body inner adm →
  pending cs r (frame_head json body) → (length (r_plaintext r) < 4 + length json)%nat →
  ∃ p' a, serve cs (p, HeadPhase o r dl)
    = (p', HandlerPhase o a (inner_request inner body (o_extensions o) (o_forwarded o))).
Proof.
  intros [(hd & Hj & Hpath & Hin) Hjson Ha Hb Hs Hf]. set (full := frame_head json body).
  assert (Hdrop : drop (4 + length json) full = body).
  { unfold full, frame_head. assert (length (u32_to_be_bytes (N.of_nat (length json))) = 4%nat) by apply length_to_be.
    rewrite app_assoc, drop_app_length'; [done|]. rewrite length_app. lia. }
  assert (Hfull : length full = (4 + length json + length body)%nat).
  { unfold full, frame_head. rewrite !length_app. unfold u32_to_be_bytes. rewrite length_to_be. lia. }
  revert r dl. induction cs as [|x cs IH]; intros r dl Hp Hlt; cbn [serve fst snd Tunnel.tunnel_event head_event].
  { apply pending_nil in Hp as [Hpt _]. rewrite Hpt, Hfull in Hlt. lia. }
  apply pending_cons in Hp as (r' & -> & Hp & Hpre). unfold head_step.
  destruct (inner_head_incremental head_from_slice json body hd (length (r_plaintext r')) Hjson Hj Hpath) as [Hparse _].
  assert (take (length (r_plaintext r')) (frame_head json body) = r_plaintext r') as Htake.
  { destruct Hpre as [k Hk]. fold full. rewrite Hk. by rewrite take_app_length. }
  rewrite Htake in Hparse. rewrite Hparse. destruct (Nat.ltb_spec (length (r_plaintext r')) (4 + length json)) as [Hsh|Hge].
  { cbn [settle]. by apply IH. }
  rewrite Hin, Ha. destruct (Tunnel.take_device _ _ _ _ _) as [p1 [device|]] eqn:Ht; [|by destruct Hs].
  pose proof (take_device_free _ _ _ _ _ Ht) as Hfree. cbn [settle Tunnel.tunnel_event permit_event].
  cbn [a_public]. destruct (N.eqb_spec (free_permits (ad_public adm) p1) 0) as [E|_]; [by rewrite Hfree in E|].
  unfold body_step. cbn [a_body_limit a_head_end]. apply prefix_length in Hpre. fold full in Hpre.
  destruct (N.ltb_spec (ad_body_limit adm) (N.of_nat (length (r_plaintext r') - (4 + length json)))) as [Hl|_]; [lia|].
  eexists _, _. rewrite (serve_body _ _ full); [|done|cbn [a_head_end a_body_limit]; lia]. cbn [a_inner a_head_end]. by rewrite Hdrop.
Qed.

(** The client reads a reply, its body cut in any way after the response nonce:
    it derives the response key and decodes the record stream. *)
Definition client_reads (rest : RestKeys) (reply : HttpResponse) (plaintext : bytes) : Prop :=
  hs_status reply = 200 ∧ header_get (hs_headers reply) CONTENT_TYPE = Some SEALED_RESPONSE_CONTENT_TYPE ∧
  ∃ wire, body_bytes (hs_body reply) = Some wire ∧
    ∃ th k_down, into_k_down rest (take RESPONSE_NONCE_LENGTH wire) = Ok (th, k_down) ∧
    ∀ ds, concat ds = drop RESPONSE_NONCE_LENGTH wire →
      decoder_run (RecordCipher.new k_down th DIRECTION_DOWN) ds = Ok plaintext.

Lemma seal_reply_reads o rest th k_down response chunks head :
  length (down_nonce (o_down o)) = RESPONSE_NONCE_LENGTH → into_k_down rest (down_nonce (o_down o)) = Ok (th, k_down) →
  down_cipher (o_down o) = RecordCipher.new k_down th DIRECTION_DOWN →
  hs_body response = BodyChunk <$> chunks → encode_response_head head_to_vec (response_head response) = Ok head →
  N.of_nat (length head + length (concat chunks)) < u64_MAX →
  ∃ reply, seal_reply error_json head_to_vec o response = Replied reply ∧ client_reads rest reply (head ++ concat chunks).
Proof.
  intros Hn Hk Hc Hb He Hl. unfold seal_reply, seal_response. rewrite He. cbn [mbind result_bind]. eexists. split; [done|].
  split; [done|]. split; [done|]. destruct (response_decodes (down_cipher (o_down o)) head chunks) as (w & Hw & Hd).
  { rewrite Hc. simpl. lia. }
  exists (down_nonce (o_down o) ++ w). cbn [hs_body body_bytes]. rewrite Hb, Hw. split; [done|].
  exists th, k_down. rewrite take_app_length', drop_app_length' by done. split; [done|].
  intros ds Hds. rewrite <-Hc. by apply Hd.
Qed.

(** C6: an honest exchange through the tunnel is exact in both directions. The
    client seals its inner head and body under the key it pinned; however the
    network cuts the wire, the router is handed that very request; and whatever
    response it gives, the client reads its head and body back, however the
    network cuts the reply. *)
Theorem sealed_tunnel_roundtrip nonce at_stat at_read request cl extra store store' keys p json body inner adm :
  hr_headers request = client_headers cl ++ extra → current at_stat at_read store = (store', Ok keys) →
  client_ready keys cl → length nonce = RESPONSE_NONCE_LENGTH →
  (pairing_encryption = Plaintext ∨ protocol_str pairing_encryption = EncryptionProtocol_as_str (tc_protocol cl)) →
  let f := forwarded (hr_headers request) (hr_extensions request) (peer_address (hr_extensions request) ≫= peer_ip)
             trusted_proxies in
  inner_ready p (hr_headers request) f json body inner adm →
  ∃ rest wire, derive_rest_keys (client_rest_input cl) = Ok rest ∧
    (seal_record_stream (frame_head json body) (RecordCipher.new (rk_k_up rest) (rk_th rest) DIRECTION_UP)).2 = Ok wire ∧
    ∀ cs, concat cs = wire →
    ∃ p0 ph0 p1 o a, sealed_start nonce at_stat at_read request store p = (store', p0, ph0) ∧
      serve cs (p0, ph0) = (p1, HandlerPhase o a (inner_request inner body (hr_extensions request) f)) ∧
      ∀ response chunks head,
        hs_body response = BodyChunk <$> chunks → encode_response_head head_to_vec (response_head response) = Ok head →
        N.of_nat (length head + length (concat chunks)) < u64_MAX →
        ∃ reply, (event (Responded response) (HandlerPhase o a (inner_request inner body (hr_extensions request) f)) p1).2
                 = Replied reply ∧ client_reads rest reply (head ++ concat chunks).
Proof.
  intros Hh Hcur Hcl Hnonce Hreq f Hin.
  destruct (open_keys_client pairing_encryption keys cl extra nonce at_stat at_read store store' Hcl Hcur Hreq)
    as (rest & th & k_down & Hd & Hk & Ho).
  assert (Hlen : length (frame_head json body) = (4 + length json + length body)%nat).
  { unfold frame_head. rewrite !length_app. unfold u32_to_be_bytes. rewrite length_to_be. lia. }
  assert (Hmax : N.of_nat (length (frame_head json body)) ≤ MAX_INNER_PLAINTEXT).
  { rewrite Hlen. destruct Hin as [_ Hj Ha Hb _ _]. apply admit_limit in Ha. unfold MAX_INNER_PLAINTEXT, MAX_HEAD_BYTES in *. lia. }
  destruct (one_shot_decodes (RecordCipher.new (rk_k_up rest) (rk_th rest) DIRECTION_UP) (frame_head json body))
    as (wire & c2 & Hs & Hw & Hdec).
  { simpl counter. unfold MAX_INNER_PLAINTEXT, MAX_AUTH_BODY, u64_MAX in *. lia. }
  exists rest, wire. split; [done|]. split; [done|]. intros cs Hcs.
  destruct (client_header_values keys cl extra Hcl) as (_ & Hrev & _).
  set (o := outer_of trusted_proxies limits now request
              {| down_nonce := nonce; down_cipher := RecordCipher.new k_down th DIRECTION_DOWN |}).
  set (r := {| r_received := 0; r_decoder := decoder_new (RecordCipher.new (rk_k_up rest) (rk_th rest) DIRECTION_UP);
               r_plaintext := [] |}).
  destruct (serve_head cs r o (N.min (now + idle_timeout limits) (o_head_deadline o)) p json body inner adm) as (p1 & a & Hserve).
  { exact Hin. }
  { split; [exists c2; rewrite Hcs; exact Hdec|]. cbn [r r_received]. rewrite Hcs, Hw, stream_length_nat.
    unfold MAX_OUTER_BODY. rewrite N.add_0_l. by apply stream_length_mono. }
  { simpl. lia. }
  exists p, (HeadPhase o r (N.min (now + idle_timeout limits) (o_head_deadline o))), p1, o, a.
  split; [|split; [exact Hserve|]].
  - unfold Tunnel.sealed_start. rewrite Hh, bool_decide_true by done. cbn [negb]. rewrite Ho. cbn -[o r]. unfold o, outer_of. by rewrite Hh.
  - intros response chunks head Hb He Hl. cbn [Tunnel.tunnel_event snd]. by eapply seal_reply_reads.
Qed.
End serving.
