(* ===== verification/TunnelExample.v ===== *)
(** * A phone talks through the tunnel

    Concrete instances of the interfaces of [Handshake], [Peer] and [Tunnel],
    and the properties of those files at a concrete exchange. *)
From S2P Require Import Prelude Bytes Query Channel Envelope DeviceAuth Devices Pairing PairingExchange Handshake Peer Tunnel TunnelPermits TunnelSafety TunnelRoundtrip.
From Stdlib Require Import Strings.Byte.
Local Open Scope N_scope.

Module TunnelExample.
Import Toy PlainAead PairingExample.

Definition put_field (f rest : bytes) : bytes := repeat Byte.x01 (length f) ++ [Byte.x00] ++ f ++ rest.
Fixpoint get_field (n : nat) (s : bytes) : option (bytes * bytes) :=
  match s with
  | Byte.x01 :: s => get_field (S n) s
  | _ :: s => Some (take n s, drop n s)
  | [] => None
  end.
Definition print_keys (k : PersistedPairingKeys) : bytes :=
  put_field (repeat Byte.x01 (N.to_nat (pk_version k)))
    (put_field (pk_x25519_secret k) (put_field (pk_ml_kem_public k) (put_field (pk_ml_kem_secret k) []))).
Definition parse_keys (s : bytes) : option PersistedPairingKeys :=
  '(v, s) ← get_field 0 s; '(x, s) ← get_field 0 s; '(p, s) ← get_field 0 s; '(m, _) ← get_field 0 s;
  Some {| pk_version := N.of_nat (length v); pk_x25519_secret := x; pk_ml_kem_public := p; pk_ml_kem_secret := m |}.

Lemma get_put_go n m f rest :
  (n + m)%nat = length f → get_field n (repeat Byte.x01 m ++ [Byte.x00] ++ f ++ rest) = Some (f, rest).
Proof.
  revert n. induction m as [|m IH]; intros n Hn; [|apply IH; lia]. simpl.
  by rewrite take_app_length', drop_app_length' by lia.
Qed.
Lemma get_put f rest : get_field 0 (put_field f rest) = Some (f, rest).
Proof. by apply get_put_go. Qed.

Definition ciphertext_of (r : bytes) : bytes := take ML_KEM_768_CIPHERTEXT_LENGTH (r ++ repeat Byte.x00 ML_KEM_768_CIPHERTEXT_LENGTH).
Definition shared_of (ct pk : bytes) : bytes := to_32 (take 16 ct ++ pk).

#[export] Instance transport_crypto : TransportCrypto := {|
  hkdf_extract salt ikm := to_32 (ikm ++ salt);
  hkdf_expand prk info := to_32 (drop 20 info ++ prk);
  MlKemSecret := bytes;
  from_expanded_bytes := Some;
  to_expanded_bytes s := s;
  encapsulation_key s := s;
  decapsulate s ct := shared_of ct s;
  encapsulate pk r := (ciphertext_of r, shared_of (ciphertext_of r) pk);
  keys_from_json := parse_keys;
  keys_to_json := print_keys;
|}.

#[export] Instance transport_laws : TransportLaws.
Proof.
  split.
  - intros salt ikm. cbn. unfold to_32. rewrite length_take, length_app, repeat_length. lia.
  - intros; reflexivity.
  - intros pk r. cbn [encapsulate transport_crypto fst]. unfold ciphertext_of. rewrite length_take, length_app, repeat_length. lia.
  - intros; reflexivity.
  - intros [v x p m]. cbn [keys_from_json keys_to_json transport_crypto]. unfold parse_keys, print_keys.
    do 4 (rewrite get_put; cbn [mbind option_bind]). cbn. rewrite repeat_length, N2Nat.id. done.
Qed.

(** Targets are a path and a query, or [http://] and an authority. *)
#[export] Instance http_crate : HttpCrate := {|
  uri_try_from s :=
    if decide (b "http://" `prefix_of` s)
    then Some {| uri_scheme := Some (b "http"); uri_authority := Some (drop 7 s); uri_path := b "/"; uri_query := None |}
    else
      let '(path, query) := match split_once "?" s with Some (p, q) => (p, Some q) | None => (s, None) end in
      Some {| uri_scheme := None; uri_authority := None; uri_path := path; uri_query := query |};
  authority_ok _ := true;
  authority_host a := a;
  method_ok m := bool_decide (m ≠ []);
|}.

Definition server_keys : PairingKeys := PairingKeys_generate (repeat Byte.x09 32) (repeat Byte.x07 4).
Definition keys_file (n : N) (keys : PairingKeys) : FileStamp * bytes :=
  ({| fs_modified := Some n; fs_len := 1; fs_inode := n |}, print_keys (persisted keys)).

Lemma handshake_opens_channel_witness :
  ∃ server client, server_session_keys server_keys WS_LABEL EpX25519 (b "dev") (repeat Byte.x02 32) (repeat Byte.x03 32)
      (repeat Byte.x04 32) = Ok server ∧
    derive_keys (client_input WS_LABEL EpX25519 (repeat Byte.x09 32) (repeat Byte.x02 32) (b "dev") (repeat Byte.x03 32)
      (repeat Byte.x04 32)) = Ok client ∧
    ∃ frames s, seal_texts [b "hi"] (sealer (SecureChannel_client client)) = (s, Ok frames) ∧
      (open_frames frames (opener (SecureChannel_server server))).2 = Ok [b "hi"].
Proof.
  destruct (handshake_opens_channel server_keys EpX25519 (repeat Byte.x02 32) (b "dev") (repeat Byte.x03 32)
    (repeat Byte.x04 32) [b "hi"] []) as (server & client & Hs & Hc & Hup & _).
  - split; reflexivity.
  - split; [reflexivity|vm_compute; discriminate].
  - reflexivity.
  - vm_compute. discriminate.
  - vm_compute. discriminate.
  - repeat constructor; vm_compute; discriminate.
  - exists server, client. exact (conj Hs (conj Hc Hup)).
Defined.

(** The key file is reset once, after the store was loaded. *)
Definition key_history : list (option (FileStamp * bytes)) :=
  [Some (keys_file 1 server_keys); Some (keys_file 2 (PairingKeys_generate (repeat Byte.x0b 32) (repeat Byte.x07 4)))].
Definition loaded : KeyStoreState := {| ks_keys := server_keys; ks_stamp := (keys_file 1 server_keys).1 |}.

Lemma key_history_stamps : stamps_differ key_history.
Proof.
  intros [|[|i]] [|[|j]] si sj ri rj; cbn [key_history lookup list_lookup]; try discriminate; try done.
  all: intros [= <- _] [= <- _] _; discriminate.
Qed.


(** ** The phone's request *)
Definition inner_head : InnerRequestHead :=
  {| method := "POST"; path := "/v2/workspaces"; query := Some "all=1";
     headers := [("Accept", "application/json"); ("Cookie", "dropped"); ("X-Todex-Device-Id", "dev");
                 ("X-Todex-Auth-Ts", "1000"); ("X-Todex-Auth-Nonce", "n1"); ("X-Todex-Auth-Sig", "s...........")] |}.
Definition json : bytes := Eval vm_compute in b "{}".
Definition read_head (s : bytes) : option InnerRequestHead := if decide (s = json) then Some inner_head else None.
Definition write_head (h : InnerResponseHead) : option bytes := Some (u32_to_be_bytes (status h)).
Definition text_of_error (e : AppError) : bytes := b "error".

Definition client : TunnelClient :=
  {| tc_protocol := EpX25519; tc_pinned := repeat Byte.x09 32; tc_ephemeral := repeat Byte.x02 32;
     tc_nonce := repeat Byte.x03 32 |}.
Definition extra : list (bytes * bytes) := Eval vm_compute in [(b "host", b "example.org")].
Definition outer_request : HttpRequest :=
  {| hr_method := b "POST";
     hr_uri := {| uri_scheme := None; uri_authority := None; uri_path := b "/v2/sealed"; uri_query := None |};
     hr_headers := client_headers client ++ extra;
     hr_extensions := {| ext_tcp := Some (V4 0xc6336409, 4000); ext_local := false; ext_forwarded := None; ext_via_v2 := false |};
     hr_body := [] |}.
Definition nonce : bytes := repeat Byte.x0c 32.
Definition file : option (FileStamp * bytes) := Some (keys_file 1 server_keys).
Definition inner : InnerParts :=
  Eval vm_compute in match inner_parts inner_head (hr_headers outer_request) with
                     | Ok i => i
                     | Err _ => {| ip_method := []; ip_uri := hr_uri outer_request; ip_headers := [] |}
                     end.
Definition admission : Admission := {| ad_body_limit := MAX_AUTH_BODY; ad_public := false |}.
Abbreviation Start := (sealed_start text_of_error read_head write_head registry 0 true X25519 [] TunnelLimits_default).
Abbreviation Serve := (TunnelRoundtrip.serve text_of_error read_head write_head registry 0 true TunnelLimits_default 5 1000).

Lemma client_is_ready : client_ready server_keys client.
Proof.
  split; [split; reflexivity|reflexivity|split; [reflexivity|vm_compute; discriminate]|reflexivity|].
  repeat constructor.
Qed.

Lemma inner_is_ready : inner_ready read_head registry 0 true TunnelLimits_default 1000 pools_new
  (client_headers client ++ extra) None json body inner admission.
Proof.
  split.
  - exists inner_head. split; [reflexivity|]. split; vm_compute; reflexivity.
  - unfold MAX_HEAD_BYTES. simpl. lia.
  - vm_compute. reflexivity.
  - vm_compute. discriminate.
  - vm_compute. discriminate.
  - vm_compute. discriminate.
Qed.

Lemma sealed_tunnel_roundtrip_witness :
  ∃ rest wire, derive_rest_keys (client_rest_input client) = Ok rest ∧
    (seal_record_stream (frame_head json body) (RecordCipher.new (rk_k_up rest) (rk_th rest) DIRECTION_UP)).2 = Ok wire ∧
    ∀ cs, concat cs = wire →
    ∃ p0 ph0 p1 o a, Start 5 1000 nonce file file outer_request loaded pools_new = (loaded, p0, ph0) ∧
      Serve cs (p0, ph0) = (p1, HandlerPhase o a (inner_request inner body (hr_extensions outer_request) None)).
Proof.
  destruct (sealed_tunnel_roundtrip text_of_error read_head write_head registry 0 true X25519 [] TunnelLimits_default 5 1000
    nonce file file outer_request client extra loaded loaded server_keys pools_new json body inner admission)
    as (rest & wire & Hr & Hw & Hs).
  - reflexivity.
  - vm_compute. reflexivity.
  - exact client_is_ready.
  - reflexivity.
  - right. reflexivity.
  - exact inner_is_ready.
  - exists rest, wire. split; [exact Hr|]. split; [exact Hw|]. intros cs Hcs.
    destruct (Hs cs Hcs) as (p0 & ph0 & p1 & o & a & H0 & H1 & _). exists p0, ph0, p1, o, a. exact (conj H0 H1).
Defined.

(** ** One run, event by event *)
Definition wire : bytes :=
  Eval vm_compute in
    match derive_rest_keys (client_rest_input client) with
    | Ok rest =>
        match (seal_record_stream (frame_head json body) (RecordCipher.new (rk_k_up rest) (rk_th rest) DIRECTION_UP)).2 with
        | Ok w => w
        | Err _ => []
        end
    | Err _ => []
    end.
Definition started := Eval vm_compute in Start 5 1000 nonce file file outer_request loaded pools_new.
Definition at_time (now : N) (ev : Event) : Waking := {| wk_now := now; wk_wall := 1000; wk_event := ev; wk_pools := pools_new |}.
Definition wakings : list Waking :=
  [at_time 6 (Arrived (take 7 wire)); at_time 7 (Arrived (drop 7 wire)); at_time 8 PermitGranted; at_time 9 BodyEnd].
Abbreviation Wakes := (wakes text_of_error read_head write_head registry 0 true TunnelLimits_default).
Abbreviation Consumed := (consumed text_of_error read_head write_head registry 0 true TunnelLimits_default).
Definition reached : Phase := Eval vm_compute in Wakes wakings started.2.

Lemma read_head_only pt hd rest : split_inner_request read_head pt = Ok (hd, rest) → hd = inner_head.
Proof.
  unfold split_inner_request, parse_inner_head. destruct (_ <? _)%nat; [done|]. destruct (_ <? _)%N; [done|].
  destruct (_ <? _)%nat; [done|]. unfold read_head. case_decide; [|done].
  destruct (validate_inner_path _); [|done]. by intros [= <- _].
Qed.


Lemma stalled_peer_is_answered_witness :
  deadline_of (Wakes (take 3 wakings) started.2) = Some 30008 ∧ 30008 ≤ 5 + 30000 + 10000 + 60000.
Proof.
  split; [vm_compute; reflexivity|].
  apply (stalled_peer_is_answered text_of_error read_head write_head registry 0 true X25519 [] TunnelLimits_default
    5 1000 nonce file file outer_request loaded pools_new started.1.1 started.1.2 started.2 (take 3 wakings)).
  - vm_compute. reflexivity.
  - cbn [take wakings timely]. split; [intros d Hd; vm_compute in Hd; injection Hd as <-; vm_compute; discriminate|].
    split; [intros d Hd; vm_compute in Hd; injection Hd as <-; vm_compute; discriminate|].
    split; [intros d Hd; vm_compute in Hd; injection Hd as <-; vm_compute; discriminate|exact I].
  - vm_compute. reflexivity.
Defined.

Definition three_ops : list (N * N * TunnelOp) :=
  [(5, 1000, Tunnel.Start 1 outer_request nonce file file); (6, 1000, Wake 1 (Arrived wire)); (7, 1000, Wake 1 PermitGranted)].

Lemma tunnel_permits_conserved_witness :
  let t := tunnel_run text_of_error read_head write_head registry 0 true X25519 [] TunnelLimits_default three_ops
             {| t_pools := pools_new; t_store := loaded; t_requests := ∅ |} in
  count_phases (permits false) (t_requests t) ≤ AUTHENTICATED_PERMITS ∧ p_authenticated (t_pools t) = 31.
Proof.
  intros t. split; [|vm_compute; reflexivity].
  exact (proj1 (tunnel_permits_conserved text_of_error read_head write_head registry 0 true X25519 [] TunnelLimits_default
    eq_refl three_ops loaded)).
Defined.
End TunnelExample.
