(* ===== verification/Payload.v ===== *)
(** * Event payloads before they are journalled

    Model of [redact_secrets] (src/src/conversation/model.rs) and of the payload
    preparation of [append_batch_locked] (src/src/conversation/store.rs): secrets
    are replaced, a reserved key is renamed, tool output is cut to its head and
    tail, and an oversized payload is cut to a budget. Text is the bytes of its
    UTF-8 form; serde_json is the interface [Serde], the sizes of what it prints
    are [SerdeSizes]. Byte counts, [usize] in the code, are [N]. *)
From S2P Require Import Prelude Bytes Json JsonObject Model Digest Summary Recipients Keyring Dek HistoryCrypto Record.
From stdpp Require Import pretty.
From Stdlib Require Import Strings.Byte Ascii ZifyBool.
Local Open Scope N_scope.

Definition MAX_EVENT_PAYLOAD_BYTES : N := 1024 * 1024.
Definition TOOL_OUTPUT_CAP_BYTES : N := 256 * 1024.
Definition TOOL_OUTPUT_HEAD_BYTES : N := 192 * 1024.
Definition TOOL_OUTPUT_TAIL_BYTES : N := 32 * 1024.
Definition TOOL_OUTPUT_MIN_LEAF_BYTES : N := 256.
Definition TOOL_OUTPUT_KEYS : list string :=
  ["aggregatedOutput"; "output"; "formattedOutput"; "stdout"; "stderr"; "result"; "partialResult"; "content";
   "contentItems"; "structuredContent"; "rawOutput"].
Definition TOOL_INPUT_KEYS : list string := ["arguments"; "input"; "rawInput"; "block"].
Definition TOOL_BINARY_KEYS : list string := ["data"; "imageUrl"; "image_url"; "blob"].
Definition TOOL_BINARY_TYPES : list string := ["image"; "inputImage"; "input_image"; "audio"; "resource"; "blob"].
Definition EVENT_PAYLOAD_BUDGET_BYTES : N := MAX_EVENT_PAYLOAD_BYTES - 16 * 1024.
Definition BOUND_STRING_MIN_BYTES : N := 512.
Definition BOUND_STRING_KEEP_BYTES : N := 256.
Definition BOUND_PRESERVED_SCALAR_BYTES : N := 4 * 1024.

(** [text.len()]. *)
Definition text_len (s : string) : N := N.of_nat (String.length s).

(** ** Secrets *)

Definition USAGE_COUNTS : list string :=
  ["inputtokens"; "outputtokens"; "totaltokens"; "cachedinputtokens"; "cachewritetokens"; "cachecreationinputtokens";
   "cachereadinputtokens"; "reasoningoutputtokens"; "reasoningtokens"; "cachedtokens"; "tokencount"; "contextwindowtokens";
   "contexttokens"; "prompttokens"; "completiontokens"; "tokensused"; "tokenbudget"].
Definition USAGE_CONTAINERS : list string := ["tokenusage"; "tokenusages"; "inputtokensdetails"; "outputtokensdetails"].
Definition SECRET_WORDS : list string := ["token"; "secret"; "password"; "authorization"; "cookie"; "apikey"].

(** [s.replace(['-', '_'], "")]. *)
Fixpoint strip_marks (s : string) : string :=
  match s with
  | EmptyString => EmptyString
  | String c s => if Ascii.eqb c "-" || Ascii.eqb c "_" then strip_marks s else String c (strip_marks s)
  end.
Definition normalized_key (key : string) : string := strip_marks (to_ascii_lowercase key).
Definition secret_key (key : string) : bool := existsb (λ word, contains word (normalized_key key)) SECRET_WORDS.

Section redaction.
Context `{JsonView}.

Definition is_number (v : Value) : bool := match view v with SNumber _ => true | _ => false end.
Definition is_array (v : Value) : bool := match view v with SArray _ => true | _ => false end.
Definition usage_count (key : string) (v : Value) : bool := is_number v && one_of USAGE_COUNTS (normalized_key key).
Definition usage_container (key : string) (v : Value) : bool :=
  (is_object v || is_array v) && one_of USAGE_CONTAINERS (normalized_key key).
Definition redacted : Value := string_value "[REDACTED]".

(** The depth of the value is enough fuel. *)
Fixpoint redact_go (fuel : nat) (value : Value) : Value :=
  match fuel with
  | O => value
  | S fuel =>
      match view value with
      | SObject map =>
          object_value (map_imap (λ key v, Some
            (if usage_count key v then v
             else if usage_container key v then redact_go fuel v
             else if secret_key key then redacted
             else redact_go fuel v)) map)
      | SArray values => build (SArray (redact_go fuel <$> values))
      | _ => value
      end
  end.
Definition redact_secrets (value : Value) : Value := redact_go (S (depth value)) value.
End redaction.

(** ** Text *)

(** [text.is_char_boundary(i)]: the ends, and before a byte that starts a
    character. *)
Definition is_char_boundary (text : string) (i : nat) : bool :=
  match i with
  | O => true
  | _ => Nat.eqb i (String.length text) || match String.get i text with Some c => negb (continues c) | None => false end
  end.
(** [while !text.is_char_boundary(i) { i -= 1 }]. *)
Fixpoint floor_boundary (text : string) (i : nat) : nat :=
  if is_char_boundary text i then i else match i with O => O | S i => floor_boundary text i end.
(** [while !text.is_char_boundary(i) { i += 1 }]; it stops at the end. *)
Fixpoint ceil_boundary (text : string) (fuel i : nat) : nat :=
  if is_char_boundary text i then i else match fuel with O => i | S fuel => ceil_boundary text fuel (S i) end.
(** [&text[..i]] and [&text[i..]]. *)
Definition text_before (text : string) (i : nat) : string := String.substring 0 i text.
Definition text_from (text : string) (i : nat) : string := String.substring i (String.length text - i) text.

(** What serde_json writes for a byte of a string literal; a character beyond
    ASCII is written as its bytes are. *)
Definition escaped_byte_bytes (c : ascii) : N :=
  let n := N_of_ascii c in
  if (n =? 34) || (n =? 92) || (n =? 10) || (n =? 13) || (n =? 9) || (n =? 8) || (n =? 12) then 2
  else if n <=? 31 then 6 else 1.
Fixpoint escaped_bytes (text : string) : N :=
  match text with EmptyString => 0 | String c text => escaped_byte_bytes c + escaped_bytes text end.
Definition serialized_string_bytes (text : string) : N := 2 + escaped_bytes text.

(** The bytes of the character [text] starts with. *)
Fixpoint continuation_bytes (text : string) : nat :=
  match text with
  | EmptyString => O
  | String c text => if continues c then S (continuation_bytes text) else O
  end.
Definition first_char_bytes (text : string) : nat :=
  match text with EmptyString => O | String _ text => S (continuation_bytes text) end.
(** [serialized_prefix_len]: character by character; the length of the text is
    enough fuel. *)
Fixpoint prefix_len_go (fuel : nat) (text : string) (index : nat) (used limit : N) : nat :=
  match fuel, text with
  | S fuel, String _ _ =>
      let n := first_char_bytes text in
      let used := used + escaped_bytes (text_before text n) in
      if limit <? used then index else prefix_len_go fuel (text_from text n) (index + n)%nat used limit
  | _, _ => (index + String.length text)%nat
  end.
Definition serialized_prefix_len (text : string) (limit : N) : nat :=
  prefix_len_go (String.length text) text 0 0 limit.

(** [key.replace('~', "~0").replace('/', "~1")], in one pass. *)
Fixpoint escape_key (key : string) : string :=
  match key with
  | EmptyString => EmptyString
  | String c key =>
      if Ascii.eqb c "~" then String "~" (String "0" (escape_key key))
      else if Ascii.eqb c "/" then String "~" (String "1" (escape_key key))
      else String c (escape_key key)
  end.

Section bounding.
Context `{JsonView} `{!Serde}.

Definition value_bytes (v : Value) : N := N.of_nat (length (value_to_vec v)).

(** ** Tool output *)

Abbreviation Leaf := (string * N)%type.

(** The strings of the output, in document order; the depth is enough fuel. *)
Fixpoint collect_output_leaves (fuel : nat) (value : Value) (pointer : string) (in_output : bool) : list Leaf :=
  match fuel with
  | O => []
  | S fuel =>
      match view value with
      | SString text =>
          if in_output && (TOOL_OUTPUT_MIN_LEAF_BYTES <=? text_len text) && negb (starts_with "data:" text)
          then [(pointer, text_len text)] else []
      | SArray items =>
          concat (imap (λ index item,
            collect_output_leaves fuel item (pointer +:+ "/" +:+ pretty (N.of_nat index)) in_output) items)
      | SObject map =>
          if in_output && match map !! "type" ≫= as_str with Some kind => one_of TOOL_BINARY_TYPES kind | None => false end
          then []
          else flat_map (λ '(key, item),
            if negb in_output && one_of TOOL_INPUT_KEYS key then []
            else if in_output && one_of TOOL_BINARY_KEYS key then []
            else collect_output_leaves fuel item (pointer +:+ "/" +:+ escape_key key)
                   (in_output || one_of TOOL_OUTPUT_KEYS key)) (btree_iter map)
      | _ => []
      end
  end.

Definition elision_line (elided : N) : string :=
  let nl := String (ascii_of_N 10) "" in
  nl +:+ "…[" +:+ pretty elided +:+ " bytes of tool output truncated]…" +:+ nl.

(** One leaf of the loop: the text with what lies between the head and the
    tail of the whole output left out. *)
Definition cap_text (start tail_start elided : N) (marked : bool) (text : string) : option string :=
  let head := N.min (TOOL_OUTPUT_HEAD_BYTES - start) (text_len text) in
  let tail := N.min (tail_start - start) (text_len text) in
  if tail <=? head then None
  else
    let head := floor_boundary text (N.to_nat head) in
    let tail := ceil_boundary text (String.length text) (N.to_nat tail) in
    Some (text_before text head +:+ (if marked then "" else elision_line elided) +:+ text_from text tail).
Fixpoint cap_leaves (leaves : list Leaf) (offset tail_start elided : N) (marked : bool) (payload : Value) : Value :=
  match leaves with
  | [] => payload
  | (at_, bytes) :: leaves =>
      match pointer payload at_ ≫= as_str with
      | None => cap_leaves leaves (offset + bytes) tail_start elided marked payload
      | Some text =>
          match cap_text offset tail_start elided marked text with
          | None => cap_leaves leaves (offset + bytes) tail_start elided marked payload
          | Some kept => cap_leaves leaves (offset + bytes) tail_start elided true (pointer_set payload at_ (string_value kept))
          end
      end
  end.

(** The key of the bookkeeping member, if one is free. *)
Definition record_key_of (map : gmap string Value) : option string :=
  find (λ key, negb (bool_decide (is_Some (map !! key)))) ["truncated"; "_truncated"].

Definition cap_tool_output (event_type : string) (payload : Value) : Value :=
  if negb (String.eqb event_type "tool.completed") then payload
  else
    let leaves := collect_output_leaves (S (depth payload)) payload "" false in
    let total := foldr (λ l n, l.2 + n) 0 leaves in
    if total <=? TOOL_OUTPUT_CAP_BYTES then payload
    else
      let tail_start := total - TOOL_OUTPUT_TAIL_BYTES in
      let payload := cap_leaves leaves 0 tail_start (tail_start - TOOL_OUTPUT_HEAD_BYTES) false payload in
      match as_object payload with
      | Some map =>
          match record_key_of map with
          | Some key => object_value (<[key := object_value {["originalBytes" := u64_value total]}]> map)
          | None => payload
          end
      | None => payload
      end.

(** ** The budget *)

Fixpoint collect_string_leaves (fuel : nat) (value : Value) (pointer : string) : list Leaf :=
  match fuel with
  | O => []
  | S fuel =>
      match view value with
      | SString text => [(pointer, serialized_string_bytes text)]
      | SArray items =>
          concat (imap (λ index item, collect_string_leaves fuel item (pointer +:+ "/" +:+ pretty (N.of_nat index))) items)
      | SObject map =>
          flat_map (λ '(key, item), collect_string_leaves fuel item (pointer +:+ "/" +:+ escape_key key)) (btree_iter map)
      | _ => []
      end
  end.

(** [sort_by_key], largest first; the sort is stable. *)
Fixpoint insert_leaf (leaf : Leaf) (leaves : list Leaf) : list Leaf :=
  match leaves with
  | [] => [leaf]
  | l :: leaves => if l.2 <=? leaf.2 then leaf :: l :: leaves else l :: insert_leaf leaf leaves
  end.
Definition sort_leaves : list Leaf → list Leaf := foldr insert_leaf [].

Definition cut_text (recorded : bool) (at_ : string) (serialized excess : N) (text : string) : string * N :=
  let overhead := (if recorded then serialized_string_bytes at_ + 24 else 0) + 48 in
  let keep := N.max (serialized - (excess + overhead)) BOUND_STRING_KEEP_BYTES in
  let cut := serialized_prefix_len text (keep - 2) in
  let text' := text_before text cut +:+ "…[truncated " +:+ pretty (text_len text - N.of_nat cut) +:+ " bytes]" in
  (text', serialized - (serialized_string_bytes text' + overhead)).

(** The variables of the loops. *)
Record Bounding : Type := { bo_leaves : list Leaf; bo_payload : Value; bo_records : gmap string Value }.
(** The inner loop: the largest strings, until the excess is freed. *)
Fixpoint cut_leaves (recorded : bool) (leaves : list Leaf) (excess : N) (payload : Value) (records : gmap string Value)
    (progressed : bool) : Bounding * bool :=
  let stop := ({| bo_leaves := leaves; bo_payload := payload; bo_records := records |}, progressed) in
  match leaves with
  | [] => stop
  | (at_, serialized) :: rest =>
      if (excess =? 0) || (serialized <=? BOUND_STRING_MIN_BYTES) then stop
      else
        match pointer payload at_ ≫= as_str with
        | None => cut_leaves recorded rest excess payload records progressed
        | Some text =>
            let '(text', freed) := cut_text recorded at_ serialized excess text in
            cut_leaves recorded rest (excess - freed) (pointer_set payload at_ (string_value text'))
              (<[at_ := u64_value (text_len text)]> records) true
        end
  end.

(** The short scalars of an object, in key order. *)
Definition scalar_bytes (v : Value) : option N :=
  match view v with
  | SString text => Some (serialized_string_bytes text)
  | SNumber _ | SBool _ | SNull => Some 24
  | SArray _ | SObject _ => None
  end.
Definition preserve_scalar (acc : N * gmap string Value) (member : string * Value) : N * gmap string Value :=
  match scalar_bytes member.2 with
  | None => acc
  | Some bytes =>
      let preserved := acc.1 + (bytes + serialized_string_bytes member.1 + 2) in
      (preserved,
       if (BOUND_STRING_KEEP_BYTES <? bytes) || (BOUND_PRESERVED_SCALAR_BYTES <? preserved) then acc.2
       else <[member.1 := member.2]> acc.2)
  end.
Definition replacement_payload (payload : Value) (original_bytes : N) : Value :=
  let replacement :=
    match as_object payload with Some map => (foldl preserve_scalar (0, ∅) (btree_iter map)).2 | None => ∅ end in
  object_value (<["originalBytes" := u64_value original_bytes]> (<["truncated" := bool_value true]> replacement)).

(** The outer loop; every turn of it uses up a leaf or is the last. *)
Fixpoint bound_loop (fuel : nat) (record_key : option string) (original size : N) (b : Bounding) : Value * N :=
  if size <=? EVENT_PAYLOAD_BUDGET_BYTES then (bo_payload b, size)
  else
    match fuel, cut_leaves (bool_decide (is_Some record_key)) (bo_leaves b) (size - EVENT_PAYLOAD_BUDGET_BYTES)
            (bo_payload b) (bo_records b) false with
    | S fuel, (b, true) =>
        let payload :=
          match record_key, as_object (bo_payload b) with
          | Some key, Some map => object_value (<[key := object_value (bo_records b)]> map)
          | _, _ => bo_payload b
          end in
        bound_loop fuel record_key original (value_bytes payload)
          {| bo_leaves := bo_leaves b; bo_payload := payload; bo_records := bo_records b |}
    | _, (b, _) => let payload := replacement_payload (bo_payload b) original in (payload, value_bytes payload)
    end.
Definition bound_event_payload (payload : Value) : Value * N :=
  let original := value_bytes payload in
  if original <=? EVENT_PAYLOAD_BUDGET_BYTES then (payload, original)
  else
    let record_key := as_object payload ≫= record_key_of in
    let leaves := sort_leaves (collect_string_leaves (S (depth payload)) payload "") in
    bound_loop (S (length leaves)) record_key original original
      {| bo_leaves := leaves; bo_payload := payload; bo_records := ∅ |}.

(** ** One entry of a batch *)
Definition prepare_payload (event_type : string) (payload : Value) : result AppError Value :=
  let payload := redact_secrets payload in
  let payload := rename_reserved_encrypted_field payload in
  let payload := cap_tool_output event_type payload in
  let '(payload, bytes) := bound_event_payload payload in
  if MAX_EVENT_PAYLOAD_BYTES <? bytes
  then Err (InvalidRequest ("conversation event payload exceeds " +:+ pretty MAX_EVENT_PAYLOAD_BYTES +:+ " bytes"))
  else Ok payload.
End bounding.

(** ** Redaction *)
Section redaction_proofs.
Context `{JsonViewLaws}.

Definition child (v w : Value) : Prop :=
  match view v with SObject m => ∃ k, m !! k = Some w | SArray l => w ∈ l | _ => False end.
(** The members of the objects inside a value. *)
Inductive member_of : Value → string → Value → Prop :=
  | member_here v m k x : view v = SObject m → m !! k = Some x → member_of v k x
  | member_below v w k x : child v w → member_of w k x → member_of v k x.

Lemma child_depth v w : child v w → (depth w < depth v)%nat.
Proof.
  unfold child. destruct (view v) eqn:E; try done; [by apply depth_array|]. intros [k Hk]. by eapply depth_object.
Qed.

Definition redact_member (k : string) (v : Value) : Value :=
  if usage_count k v then v
  else if usage_container k v then redact_secrets v
  else if secret_key k then redacted
  else redact_secrets v.

Lemma redact_fuel f f' v : (depth v < f)%nat → (depth v < f')%nat → redact_go f v = redact_go f' v.
Proof.
  revert f' v. induction f as [|f IH]; intros [|f'] v Hf Hf'; [lia..|]. cbn [redact_go].
  destruct (view v) as [| | | |l|m] eqn:E; try done.
  - do 2 f_equal. apply list_fmap_ext. intros i x Hx%list_elem_of_lookup_2.
    pose proof (depth_array _ _ _ E Hx). apply IH; lia.
  - f_equal. apply map_eq. intros k. rewrite !map_lookup_imap. destruct (m !! k) as [x|] eqn:Hx; [|done]. simpl.
    pose proof (depth_object _ _ _ _ E Hx).
    rewrite (IH f' x) by lia. done.
Qed.
Lemma redact_eq v :
  redact_secrets v =
    match view v with
    | SObject m => object_value (map_imap (λ k x, Some (redact_member k x)) m)
    | SArray l => build (SArray (redact_secrets <$> l))
    | _ => v
    end.
Proof.
  unfold redact_secrets at 1. cbn [redact_go]. destruct (view v) as [| | | |l|m] eqn:E; try done.
  - do 2 f_equal. apply list_fmap_ext. intros i x Hx%list_elem_of_lookup_2.
    pose proof (depth_array _ _ _ E Hx). apply redact_fuel; lia.
  - f_equal. apply map_eq. intros k. rewrite !map_lookup_imap. destruct (m !! k) as [x|] eqn:Hx; [|done]. simpl.
    pose proof (depth_object _ _ _ _ E Hx).
    unfold redact_member. rewrite (redact_fuel (depth v) (S (depth x)) x) by lia. done.
Qed.
Lemma lookup_redacted m k : map_imap (λ k x, Some (redact_member k x)) m !! k = redact_member k <$> m !! k.
Proof. rewrite map_lookup_imap. by destruct (m !! k). Qed.

(** A member named like a secret: it was redacted, or it is a count of tokens
    or a record of them. *)
Definition allowed (k : string) (x : Value) : Prop :=
  x = redacted ∨ usage_count k x = true ∨ usage_container k x = true.
Definition no_secrets (v : Value) : Prop := ∀ k x, member_of v k x → secret_key k = true → allowed k x.

Lemma redacted_shape v :
  is_number (redact_secrets v) = is_number v ∧ is_object (redact_secrets v) = is_object v ∧
  is_array (redact_secrets v) = is_array v.
Proof.
  rewrite redact_eq. unfold is_number, is_object, is_array, object_value.
  destruct (view v) eqn:E; by rewrite ?view_build, ?E.
Qed.
Lemma redact_member_allowed k v : secret_key k = true → allowed k (redact_member k v).
Proof.
  intros Hk. unfold redact_member, allowed. destruct (usage_count k v) eqn:Hc; [auto|].
  destruct (usage_container k v) eqn:Hu; [|rewrite Hk; auto]. do 2 right. revert Hu. unfold usage_container.
  destruct (redacted_shape v) as (_ & -> & ->). done.
Qed.
Lemma scalar_no_members v k x : member_of v k x → is_object v = false → is_array v = false → False.
Proof.
  unfold is_object, is_array. destruct 1 as [v m k x Hv|v w k x Hc]; [by rewrite Hv|].
  unfold child in Hc. by destruct (view v).
Qed.

Lemma redact_no_secrets v : no_secrets (redact_secrets v).
Proof.
  induction v as [v IH] using (induction_ltof1 _ depth). unfold ltof in IH. intros k x Hm Hk.
  rewrite redact_eq in Hm. destruct (view v) as [| | | |l|m] eqn:E;
    try (exfalso; apply (scalar_no_members v k x Hm); unfold is_object, is_array; by rewrite E).
  - inversion Hm as [? m ? ? Hv|? w ? ? Hc Hw]; subst; [by rewrite view_build in Hv|].
    unfold child in Hc. rewrite view_build in Hc. apply list_elem_of_fmap in Hc as (y & -> & Hy).
    by apply (IH y (depth_array _ _ _ E Hy)).
  - inversion Hm as [? m' ? ? Hv Hx|? w ? ? Hc Hw]; subst; unfold object_value in *.
    + rewrite view_build in Hv. injection Hv as <-. rewrite lookup_redacted in Hx.
      apply fmap_Some in Hx as (y & Hy & ->). by apply redact_member_allowed.
    + unfold child in Hc. rewrite view_build in Hc. destruct Hc as [j Hj]. rewrite lookup_redacted in Hj.
      apply fmap_Some in Hj as (y & Hy & ->). pose proof (depth_object _ _ _ _ E Hy) as Hd.
      unfold redact_member in Hw. destruct (usage_count j y) eqn:Hc.
      { exfalso. apply (scalar_no_members _ _ _ Hw); unfold usage_count, is_number in Hc; unfold is_object, is_array;
          by destruct (view y). }
      destruct (usage_container j y); [by apply (IH y)|]. destruct (secret_key j); [|by apply (IH y)].
      exfalso. apply (scalar_no_members _ _ _ Hw); unfold redacted, is_object, is_array; by rewrite view_string.
Qed.

Lemma redacted_fixed : redact_secrets redacted = redacted.
Proof. rewrite redact_eq. unfold redacted. by rewrite view_string. Qed.
Lemma redact_clean v : no_secrets v → redact_secrets v = v.
Proof.
  induction v as [v IH] using (induction_ltof1 _ depth). unfold ltof in IH. intros Hs.
  assert (Hc : ∀ w, child v w → redact_secrets w = w).
  { intros w Hw. apply IH; [by apply child_depth|]. intros k x Hx. apply Hs. by eapply member_below. }
  rewrite redact_eq. unfold child in Hc. destruct (view v) as [| | | |l|m] eqn:E; try done.
  - rewrite <-(build_view v), E. do 2 f_equal. rewrite <-(list_fmap_id l) at 2. apply list_fmap_ext.
    intros i x Hx%list_elem_of_lookup_2. by apply Hc.
  - rewrite <-(build_view v), E. unfold object_value. do 2 f_equal. apply map_eq. intros k. rewrite lookup_redacted.
    destruct (m !! k) as [x|] eqn:Hx; [|done]. simpl. f_equal. unfold redact_member.
    destruct (usage_count k x) eqn:Hu; [done|]. rewrite (Hc x) by eauto. destruct (usage_container k x) eqn:Hn; [done|].
    destruct (secret_key k) eqn:Hk; [|done].
    destruct (Hs k x (member_here v m k x E Hx) Hk) as [->|[?|?]]; congruence.
Qed.

(** C37: Redaction takes out every secret and nothing else: below the result,
    whatever the nesting, a member whose name contains a word for a secret (case
    and [-], [_] aside) is the text [[REDACTED]], a count of tokens or a record of
    such counts; an object keeps its members, those with other names holding
    their redacted values; a value with nothing to redact is unchanged, so
    redacting twice is redacting once. *)
Theorem redaction_removes_secrets (v : Value) :
  no_secrets (redact_secrets v) ∧
  (∀ m, as_object v = Some m → ∃ m', as_object (redact_secrets v) = Some m' ∧ dom m' = dom m ∧
    ∀ k x, m !! k = Some x → secret_key k = false → m' !! k = Some (redact_secrets x)) ∧
  (no_secrets v → redact_secrets v = v) ∧
  redact_secrets (redact_secrets v) = redact_secrets v.
Proof.
  split_and!; [apply redact_no_secrets| |apply redact_clean|apply redact_clean, redact_no_secrets].
  intros m Hm. unfold as_object in Hm. destruct (view v) as [| | | | |m0] eqn:E; try done. injection Hm as ->.
  eexists. split; [rewrite redact_eq, E; apply as_object_value|]. split.
  - apply set_eq. intros k. rewrite !elem_of_dom, lookup_redacted, fmap_is_Some. done.
  - intros k x Hx Hk. rewrite lookup_redacted, Hx. simpl. f_equal. unfold redact_member. rewrite Hk.
    destruct (usage_count k x) eqn:Hu; [|by destruct (usage_container k x)]. rewrite redact_eq.
    unfold usage_count, is_number in Hu. by destruct (view x).
Qed.
End redaction_proofs.

(** ** The budget *)

(** The sizes of what serde_json prints: text with its quotes and escapes, a
    number in at most 24 characters, an object with a colon in and a comma
    between its members. *)
Class SerdeSizes `{JsonView} `{!Serde} : Prop := {
  string_size s : value_bytes (string_value s) = serialized_string_bytes s;
  number_size n : value_bytes (build (SNumber n)) ≤ 24;
  bool_size b : value_bytes (bool_value b) ≤ 5;
  null_size : value_bytes null_value ≤ 4;
  object_size m : value_bytes (object_value m) ≤
    2 + map_fold (λ k v n, serialized_string_bytes k + value_bytes v + 2 + n) 0 m;
}.

Section budget.
Context `{JsonViewLaws} `{!Serde} `{!SerdeSizes}.
Implicit Types m : gmap string Value.

Definition members_size m : N := map_fold (λ k v n, serialized_string_bytes k + value_bytes v + 2 + n) 0 m.
Lemma members_size_new m k v : m !! k = None →
  members_size (<[k := v]> m) = serialized_string_bytes k + value_bytes v + 2 + members_size m.
Proof. intros Hk. unfold members_size. by rewrite map_fold_insert_L by (done || intros; lia). Qed.
Lemma members_size_insert m k v :
  members_size (<[k := v]> m) ≤ serialized_string_bytes k + value_bytes v + 2 + members_size m.
Proof.
  destruct (m !! k) as [w|] eqn:Hk; [|by rewrite members_size_new]. rewrite <-insert_delete_eq.
  rewrite members_size_new by apply lookup_delete_eq. rewrite <-(insert_delete_id m k w) at 2 by done.
  rewrite members_size_new by apply lookup_delete_eq. lia.
Qed.

Lemma scalar_size v n : scalar_bytes v = Some n → value_bytes v ≤ n.
Proof.
  unfold scalar_bytes. rewrite <-(build_view v). destruct (view v) as [|b|num|s|l|m] eqn:E; rewrite ?view_build; try done; intros [= <-].
  - rewrite <-view_null, build_view. pose proof null_size. lia.
  - pose proof (bool_size b). unfold bool_value in *. lia.
  - apply number_size.
  - by rewrite <-view_string, build_view, string_size.
Qed.
Lemma preserve_scalar_size acc member :
  members_size acc.2 ≤ N.min acc.1 BOUND_PRESERVED_SCALAR_BYTES →
  members_size (preserve_scalar acc member).2 ≤ N.min (preserve_scalar acc member).1 BOUND_PRESERVED_SCALAR_BYTES.
Proof.
  intros Hacc. unfold preserve_scalar. destruct (scalar_bytes member.2) as [bytes|] eqn:Hb; [|done]. cbn [fst snd].
  destruct ((_ <? bytes) || _) eqn:Hc; [lia|]. pose proof (members_size_insert acc.2 member.1 member.2).
  apply scalar_size in Hb. lia.
Qed.
Lemma preserved_size l acc :
  members_size acc.2 ≤ N.min acc.1 BOUND_PRESERVED_SCALAR_BYTES →
  members_size (foldl preserve_scalar acc l).2 ≤ BOUND_PRESERVED_SCALAR_BYTES.
Proof.
  revert acc. induction l as [|x l IH]; intros acc Hacc; [simpl; lia|]. by apply IH, preserve_scalar_size.
Qed.
Lemma replacement_size payload original : value_bytes (replacement_payload payload original) ≤ EVENT_PAYLOAD_BUDGET_BYTES.
Proof.
  unfold replacement_payload. set (kept := match as_object payload with Some map => _ | None => ∅ end).
  assert (members_size kept ≤ BOUND_PRESERVED_SCALAR_BYTES) as Hkept.
  { unfold kept. destruct (as_object payload); [by apply preserved_size|by vm_compute]. }
  etrans; [apply object_size|]. fold (members_size (<["originalBytes" := u64_value original]> (<["truncated" := bool_value true]> kept))).
  pose proof (members_size_insert (<["truncated" := bool_value true]> kept) "originalBytes" (u64_value original)) as H1'.
  pose proof (members_size_insert kept "truncated" (bool_value true)) as H2'.
  pose proof (number_size (num_of_u64 original)) as H3'. pose proof (bool_size true) as H4'. unfold u64_value in *.
  change (serialized_string_bytes "originalBytes") with 15 in *. change (serialized_string_bytes "truncated") with 11 in *.
  unfold EVENT_PAYLOAD_BUDGET_BYTES, MAX_EVENT_PAYLOAD_BYTES, BOUND_PRESERVED_SCALAR_BYTES in *. lia.
Qed.

(** A turn of the outer loop that cut something used up a leaf, so the loop ends
    by itself: more fuel changes nothing. *)
Lemma cut_leaves_shrinks recorded leaves excess payload records progressed :
  let r := cut_leaves recorded leaves excess payload records progressed in
  (length (bo_leaves r.1) ≤ length leaves)%nat ∧
  (progressed = false → r.2 = true → (length (bo_leaves r.1) < length leaves)%nat).
Proof.
  revert excess payload records progressed.
  induction leaves as [|[at_ n] leaves IH]; intros excess payload records progressed; [simpl; split; [done|congruence]|].
  cbn [cut_leaves]. destruct (_ || _); [simpl; split; [done|congruence]|].
  destruct (pointer payload at_ ≫= as_str) as [text|].
  - destruct (cut_text _ _ _ _ _) as [text' freed].
    destruct (IH (excess - freed) (pointer_set payload at_ (string_value text')) (<[at_ := u64_value (text_len text)]> records) true)
      as [Hle _]. simpl. split; [lia|]. intros _ _. lia.
  - destruct (IH excess payload records progressed) as [Hle Hlt]. simpl. split; [lia|]. intros Hp Hr. specialize (Hlt Hp Hr). lia.
Qed.
Lemma bound_loop_fuel f f' key original size b :
  (length (bo_leaves b) < f)%nat → (length (bo_leaves b) < f')%nat →
  bound_loop f key original size b = bound_loop f' key original size b.
Proof.
  revert f' size b. induction f as [|f IH]; intros [|f'] size b Hf Hf'; [lia..|]. cbn [bound_loop].
  destruct (size <=? _); [done|].
  pose proof (cut_leaves_shrinks (bool_decide (is_Some key)) (bo_leaves b) (size - EVENT_PAYLOAD_BUDGET_BYTES)
    (bo_payload b) (bo_records b) false) as [_ Hlt].
  destruct (cut_leaves _ _ _ _ _ _) as [b' [|]]; [|done]. specialize (Hlt eq_refl eq_refl). simpl in Hlt.
  apply IH; simpl; lia.
Qed.
Lemma bound_loop_size f key original size b :
  size = value_bytes (bo_payload b) →
  let r := bound_loop f key original size b in r.2 = value_bytes r.1 ∧ r.2 ≤ EVENT_PAYLOAD_BUDGET_BYTES.
Proof.
  revert size b. induction f as [|f IH]; intros size b Hsize; cbn [bound_loop];
    (destruct (size <=? _) eqn:Hle; [simpl; split; [done|lia]|]);
    destruct (cut_leaves _ _ _ _ _ _) as [b' progressed].
  - simpl. split; [done|apply replacement_size].
  - destruct progressed; [by apply IH|]. simpl. split; [done|apply replacement_size].
Qed.

End budget.

(** ** JSON text for the example values *)
Module JsonText.
Import Jv.

Definition hex_digit (n : N) : ascii := ascii_of_N (if n <? 10 then 48 + n else 87 + n).
Definition escape_char (c : ascii) : list ascii :=
  match escaped_byte_bytes c with
  | 1 => [c]
  | 2 => ["\"%char; if Ascii.eqb c (ascii_of_N 34) || Ascii.eqb c "\" then c else "n"%char]
  | _ => ["\"; "u"; "0"; "0"; hex_digit (N_of_ascii c / 16); hex_digit (N_of_ascii c mod 16)]%char
  end.
Definition quote (s : string) : list ascii :=
  [ascii_of_N 34] ++ flat_map escape_char (String.list_ascii_of_string s) ++ [ascii_of_N 34].
Definition comma (rest : list ascii) : list ascii := match rest with [] => [] | _ => ","%char :: rest end.
Fixpoint print (v : jv) : list ascii :=
  match v with
  | JNull => String.list_ascii_of_string "null"
  | JBool b => String.list_ascii_of_string (if b then "true" else "false")
  | JNum n => take 24 (String.list_ascii_of_string (pretty n))
  | JStr s => quote s
  | JArr l => ["["%char] ++ foldr (λ x rest, print x ++ comma rest) [] l ++ ["]"%char]
  | JObj m => ["{"%char] ++ map_fold (λ k x rest, quote k ++ [":"%char] ++ print x ++ comma rest) [] m ++ ["}"%char]
  end.

#[export] Instance text_serde : Serde := {|
  value_to_vec v := byte_of_ascii <$> print v;
  value_from_slice _ := None;
  value_to_string v := String.string_of_list_ascii (print v);
  record_to_vec _ := []; record_from_slice _ := None; compacted_from_slice _ := None; event_from_slice _ := None;
  time_in_range _ := true;
|}.

Lemma length_quote s : N.of_nat (length (quote s)) = serialized_string_bytes s.
Proof.
  unfold quote, serialized_string_bytes. rewrite !length_app.
  assert (N.of_nat (length (flat_map escape_char (String.list_ascii_of_string s))) = escaped_bytes s) as <-.
  { induction s as [|c s IH]; [done|]. cbn [String.list_ascii_of_string flat_map escaped_bytes]. rewrite length_app.
    rewrite <-IH. assert (N.of_nat (length (escape_char c)) = escaped_byte_bytes c); [|lia].
    unfold escape_char. unfold escaped_byte_bytes. by repeat case_match. }
  simpl. lia.
Qed.
Lemma length_comma l : (length (comma l) ≤ S (length l))%nat.
Proof. destruct l; simpl; lia. Qed.

Definition print_member (k : string) (x : jv) (rest : list ascii) : list ascii :=
  quote k ++ [":"%char] ++ print x ++ comma rest.
Lemma length_members (m : gmap string jv) :
  N.of_nat (length (map_fold print_member [] m)) ≤
  map_fold (λ k v n, serialized_string_bytes k + value_bytes (v : Value) + 2 + n) 0 m.
Proof.
  apply (map_fold_weak_ind (λ r m, N.of_nat (length r) ≤
    map_fold (λ k v n, serialized_string_bytes k + value_bytes (v : Value) + 2 + n) 0 m)); [done|].
  intros k x m' rest Hk IH. rewrite map_fold_insert_L by (done || intros; lia).
  unfold print_member, value_bytes at 1. rewrite !length_app. cbn [value_to_vec text_serde]. rewrite length_fmap.
  pose proof (length_quote k). pose proof (length_comma rest). cbn [length].
  etrans; [|apply N.add_le_mono_l, IH]. lia.
Qed.

#[export] Instance text_sizes : SerdeSizes.
Proof.
  split; unfold value_bytes; cbn [value_to_vec text_serde].
  - intros s. rewrite length_fmap. apply length_quote.
  - intros n. rewrite length_fmap. cbn [build json_view jv_build print]. rewrite length_take. lia.
  - intros []; by vm_compute.
  - by vm_compute.
  - intros m. rewrite length_fmap. cbn [object_value build json_view jv_build print]. rewrite !length_app. cbn [length].
    cbn [length]. etrans; [|apply N.add_le_mono_l, (length_members m)].
    change (map_fold _ [] m) with (map_fold print_member [] m). lia.
Qed.
End JsonText.

Module PayloadExample.
Import Jv JsonText.

Definition request : Value :=
  JObj (list_to_map [("api_key", JStr "hunter2"); ("$enc", JStr "forged"); ("inputTokens", JNum 42);
    ("tokenUsage", JObj {["authToken" := JStr "hunter3"]}); ("text", JStr "hi")]).
Definition prepared : Value :=
  JObj (list_to_map [("api_key", JStr "[REDACTED]"); ("_$enc", JStr "forged"); ("inputTokens", JNum 42);
    ("tokenUsage", JObj {["authToken" := JStr "[REDACTED]"]}); ("text", JStr "hi")]).
Definition usage : Value := JObj {["authToken" := JStr "[REDACTED]"]}.
Lemma request_prepared : prepare_payload "turn.started" request = Ok prepared.
Proof. by vm_compute. Qed.

Lemma redaction_removes_secrets_witness :
  secret_key "authToken" = true ∧ member_of (redact_secrets request) "authToken" redacted ∧
  no_secrets (redact_secrets request) ∧ redact_secrets (redact_secrets request) = redact_secrets request.
Proof.
  destruct (redaction_removes_secrets request) as (Hno & _ & _ & Htwice). split_and!; [by vm_compute| |exact Hno|exact Htwice].
  apply (member_below _ usage); [|by eapply member_here].
  exists "tokenUsage". by vm_compute.
Defined.
End PayloadExample.
