(* ===== verification/Append.v ===== *)
(** * Appending to a conversation's journal

    Model of the write path of src/src/conversation/store.rs for one
    conversation on disk: [append_batch_locked] with the tail it continues
    ([read_last_event_in]), the manifest it follows, the key it seals under, the
    rotation of the active file, the one write that commits the batch and the
    caches that are kept warm; and the writers of the manifest. Every operation
    runs under the conversation's lock, so each is one step. What the disk, the
    clock and the generators answer is an argument ([AppendEnv]): a write can
    fail after any number of bytes, with or without being cut back. The listing
    of the directory is the files on disk in journal order (its cache is checked
    against the active file before use), a file stands for its name, size and
    time, and [manifest.json] for what reading and validating it gives. Private
    conversations (no journal) and live taps are not part of the model. *)
From S2P Require Import Prelude Bytes Text Channel Json JsonObject Model Digest Summary Recipients Keyring Dek HistoryCrypto Record SegmentIndex SegmentBuilder SegmentRun SegmentContent FrameCache SegmentReader SegmentPlan JournalScan JournalRepair Replay Payload.
From stdpp Require Import pretty.
From Stdlib Require Import Strings.Byte.
Local Open Scope N_scope.

Definition MAX_RECORD_LINE_BYTES : N := 3 * MAX_EVENT_PAYLOAD_BYTES + 64 * 1024.
Definition DEFAULT_JOURNAL_SEGMENT_BYTES : N := 16 * 1024 * 1024.

(** The members of the manifest that appends read or write. *)
Record ConversationManifest : Type := {
  m_provider : ProviderKind;
  m_owner_id : string;
  m_status : ConversationStatus;
  m_last_sequence : N;
  m_updated_at : Z;
  m_legacy_plaintext : bool;
}.
Record CachedManifest : Type := { cm_manifest : ConversationManifest; cm_dirty : bool; cm_flush_scheduled : bool }.

(** ** What the disk answers *)

Inductive CloseOutcome : Type :=
  | NewlineWritten
  | NewlineFailed (kept : bool) (error : AppError).     (* [kept]: the newline is in the file all the same *)
Inductive RotateOutcome : Type :=
  | RotateFailed (error : AppError)                     (* before or at the rename *)
  | RotatedFresh
  | RotatedAlone (kept : bool).                         (* no usable fresh file; [kept]: an empty one exists *)
(** A failure after the file was created and before the write is a write of
    nothing that is cut back. *)
Inductive WriteOutcome : Type :=
  | Written
  | OpenFailed (error : AppError)
  | WriteFailed (stored : nat) (cut : bool) (error : AppError).
Inductive SaveOutcome : Type :=
  | Saved
  | SaveFailed (written : bool) (error : AppError).     (* [written]: [manifest.json] was replaced, the snapshot not *)

(** ** Files *)

Definition is_active (f : JournalFile) : bool := match jf_kind f with Active => true | _ => false end.
Definition file_number (f : JournalFile) : option N :=
  match jf_kind f with Segment n _ | Numbered n => Some n | Active => None end.
Definition file_len (f : JournalFile) : N := N.of_nat (length (jf_data f)).
Definition empty_active : JournalFile := {| jf_kind := Active; jf_data := [] |}.
(** [files.last().filter(|file| file.name == EVENTS_FILE)]. *)
Definition active_file (files : list JournalFile) : option JournalFile :=
  f ← last files; if is_active f then Some f else None.
Definition sealed_files (files : list JournalFile) : list JournalFile :=
  match active_file files with Some _ => removelast files | None => files end.
(** [files.iter().rev().find(|file| file.bytes > 0)]. *)
Definition last_filled (files : list JournalFile) : option (nat * JournalFile) :=
  last (filter (λ p : nat * JournalFile, jf_data p.2 ≠ []) (enumerate files)).
Definition next_number (files : list JournalFile) : N := foldr N.max 0 (omap file_number files) + 1.

(** [terminate_journal]. *)
Definition terminate_journal (o : CloseOutcome) (f : JournalFile) : JournalFile * result AppError unit :=
  let closed := with_data (jf_data f ++ [Byte.x0a]) f in
  match o with
  | NewlineWritten => (closed, Ok tt)
  | NewlineFailed kept error => (if kept then closed else f, Err error)
  end.

(** [append_journal_line]: the active file is created when it is missing. *)
Definition append_journal_line (o : WriteOutcome) (line : bytes) (disk : list JournalFile) :
    list JournalFile * result AppError JournalFile :=
  let data := match active_file disk with Some f => jf_data f | None => [] end in
  let put data := {| jf_kind := Active; jf_data := data |} in
  match o with
  | Written => (sealed_files disk ++ [put (data ++ line)], Ok (put (data ++ line)))
  | OpenFailed error => (disk, Err error)
  | WriteFailed stored cut error =>
      (sealed_files disk ++ [put (data ++ if cut then [] else take stored line)], Err error)
  end.

(** The records one after the other from [start], and the range of each. *)
Fixpoint layout {E} (sequence : E → N) (start : nat) (stored : list (E * bytes)) : bytes * list (N * (nat * nat)) :=
  match stored with
  | [] => ([], [])
  | (event, record) :: stored =>
      let '(line, ranges) := layout sequence (start + length record + 1) stored in
      (record ++ Byte.x0a :: line, (sequence event, (start, start + length record)%nat) :: ranges)
  end.

(** [raw.drain(..=first_newline)]. *)
Fixpoint after_newline (raw : bytes) : option bytes :=
  match raw with
  | [] => None
  | c :: raw => if bool_decide (c = Byte.x0a) then Some raw else after_newline raw
  end.
(** The last line that is not blank, trimmed. *)
Definition last_line (raw : bytes) : option bytes :=
  last (filter (λ line, line ≠ []) ((λ r, trim_ascii (slice raw r)) <$> line_ranges raw)).

Section append.
Context `{JsonView} `{!Serde} `{HistoryPrimitives} `{Aead} `{FrameCodec} `{!RawValues} `{Lru}.
Context `{HistoryIds} `{SegmentKeys} `{!RecipientSource W}.
Context (cid : string).
(** The key material of a segment key; whether two listings are of the same
    files, by their names, sizes and times; the size at which the active file is
    sealed ([DEFAULT_JOURNAL_SEGMENT_BYTES], less in debug builds) and
    [history_seal_min_bytes]. *)
Context (content_key : SegmentKey → ContentKey).
Context (same_files : list JournalFile → list JournalFile → bool).
Context (journal_segment_bytes : N) (proactive_seal_min_bytes : option N).

Record JournalTail : Type := { jt_file : JournalFile; jt_event : ConversationEvent }.
Record CachedDigest : Type := { cd_files : list JournalFile; cd_digest : JournalDigest }.

(** [as_written] records what was handed to the disk: the key and the sequence
    of every record of every write that was tried. *)
Record AppendStore : Type := {
  as_files : list JournalFile;
  as_saved : result AppError ConversationManifest;
  as_cached : option CachedManifest;
  as_index : option JournalIndex;
  as_digest : option CachedDigest;
  as_tail : option JournalTail;
  as_frames : FrameCache;
  as_deks : DekManager W;
  as_published : list ConversationEvent;
  as_written : list (string * N);
}.
Abbreviation A := (M AppendStore AppError).

Definition put_files (files : list JournalFile) (s : AppendStore) : AppendStore :=
  {| as_files := files; as_saved := as_saved s; as_cached := as_cached s; as_index := as_index s; as_digest := as_digest s;
     as_tail := as_tail s; as_frames := as_frames s; as_deks := as_deks s; as_published := as_published s;
     as_written := as_written s |}.
Definition put_manifest (saved : result AppError ConversationManifest) (cached : option CachedManifest) (s : AppendStore) :
    AppendStore :=
  {| as_files := as_files s; as_saved := saved; as_cached := cached; as_index := as_index s; as_digest := as_digest s;
     as_tail := as_tail s; as_frames := as_frames s; as_deks := as_deks s; as_published := as_published s;
     as_written := as_written s |}.
Definition put_caches (index : option JournalIndex) (digest : option CachedDigest) (tail : option JournalTail)
    (s : AppendStore) : AppendStore :=
  {| as_files := as_files s; as_saved := as_saved s; as_cached := as_cached s; as_index := index; as_digest := digest;
     as_tail := tail; as_frames := as_frames s; as_deks := as_deks s; as_published := as_published s;
     as_written := as_written s |}.
Definition put_frames (frames : FrameCache) (s : AppendStore) : AppendStore :=
  {| as_files := as_files s; as_saved := as_saved s; as_cached := as_cached s; as_index := as_index s; as_digest := as_digest s;
     as_tail := as_tail s; as_frames := frames; as_deks := as_deks s; as_published := as_published s;
     as_written := as_written s |}.
Definition put_deks (deks : DekManager W) (s : AppendStore) : AppendStore :=
  {| as_files := as_files s; as_saved := as_saved s; as_cached := as_cached s; as_index := as_index s; as_digest := as_digest s;
     as_tail := as_tail s; as_frames := as_frames s; as_deks := deks; as_published := as_published s;
     as_written := as_written s |}.
Definition publish (events : list ConversationEvent) (s : AppendStore) : AppendStore :=
  {| as_files := as_files s; as_saved := as_saved s; as_cached := as_cached s; as_index := as_index s; as_digest := as_digest s;
     as_tail := as_tail s; as_frames := as_frames s; as_deks := as_deks s; as_published := as_published s ++ events;
     as_written := as_written s |}.
Definition note_written (records : list (string * N)) (s : AppendStore) : AppendStore :=
  {| as_files := as_files s; as_saved := as_saved s; as_cached := as_cached s; as_index := as_index s; as_digest := as_digest s;
     as_tail := as_tail s; as_frames := as_frames s; as_deks := as_deks s; as_published := as_published s;
     as_written := as_written s ++ records |}.

(** ** The manifest *)

Definition get_unlocked : A ConversationManifest := λ s,
  match as_cached s with
  | Some cached => (s, Ok (cm_manifest cached))
  | None =>
      match as_saved s with
      | Ok manifest =>
          (put_manifest (as_saved s) (Some {| cm_manifest := manifest; cm_dirty := false; cm_flush_scheduled := false |}) s,
           Ok manifest)
      | Err error => (s, Err error)
      end
  end.

(** The timer itself is the step [flush_timer]. *)
Definition mark_manifest_dirty_locked (manifest : ConversationManifest) (s : AppendStore) : AppendStore :=
  put_manifest (as_saved s) (Some {| cm_manifest := manifest; cm_dirty := true; cm_flush_scheduled := true |}) s.

Definition persist_manifest_locked (o : SaveOutcome) (manifest : ConversationManifest) : A unit := λ s,
  match o with
  | SaveFailed written error =>
      (mark_manifest_dirty_locked manifest (put_manifest (if written then Ok manifest else as_saved s) (as_cached s) s), Err error)
  | Saved =>
      let scheduled := match as_cached s with Some cached => cm_flush_scheduled cached | None => false end in
      (put_manifest (Ok manifest) (Some {| cm_manifest := manifest; cm_dirty := false; cm_flush_scheduled := scheduled |}) s, Ok tt)
  end.

Definition flush_manifest_locked (answer : result AppError unit) : A unit := λ s,
  match as_cached s with
  | Some cached =>
      if cm_dirty cached then
        match answer with
        | Err error => (s, Err error)
        | Ok _ =>
            (put_manifest (Ok (cm_manifest cached))
               (Some {| cm_manifest := cm_manifest cached; cm_dirty := false; cm_flush_scheduled := cm_flush_scheduled cached |}) s,
             Ok tt)
        end
      else (s, Ok tt)
  | None => (s, Ok tt)
  end.
Definition flush_timer (answer : result AppError unit) (s : AppendStore) : AppendStore :=
  let s := match as_cached s with
           | Some cached => put_manifest (as_saved s)
               (Some {| cm_manifest := cm_manifest cached; cm_dirty := cm_dirty cached; cm_flush_scheduled := false |}) s
           | None => s
           end in
  (flush_manifest_locked answer s).1.

Definition with_status (status : ConversationStatus) (updated_at : Z) (m : ConversationManifest) : ConversationManifest :=
  {| m_provider := m_provider m; m_owner_id := m_owner_id m; m_status := status; m_last_sequence := m_last_sequence m;
     m_updated_at := updated_at; m_legacy_plaintext := m_legacy_plaintext m |}.
Definition with_last_sequence (n : N) (m : ConversationManifest) : ConversationManifest :=
  {| m_provider := m_provider m; m_owner_id := m_owner_id m; m_status := m_status m; m_last_sequence := n;
     m_updated_at := m_updated_at m; m_legacy_plaintext := m_legacy_plaintext m |}.

Definition set_status (o : SaveOutcome) (now : Z) (status : ConversationStatus) : A ConversationManifest :=
  manifest ← get_unlocked;
  if bool_decide (m_status manifest = status) then mret manifest
  else
    let manifest := with_status status now manifest in
    _ ← persist_manifest_locked o manifest;
    mret manifest.

(** ** Keys *)

Record KeyEnv : Type := { ke_call : CallEnv W; ke_fingerprint : result AppError (string → string) }.
Abbreviation RecordKey := (string * SegmentKey * (string → string))%type.

Definition abandon_key (s : AppendStore) : AppendStore := put_deks (abandon cid (as_deks s)) s.

Definition record_key (k : KeyEnv) : A RecordKey := λ s,
  let owner := m_owner_id ∘ cm_manifest <$> as_cached s in
  let '(deks, answer) := current_key_for (ke_call k) cid owner (as_deks s) in
  let found :=
    match answer with
    | Ok current => Ok current
    | Err error => ok_or (fallback_key deks cid) error
    end in
  (put_deks deks s,
   '(kid, key) ← found;
   mac ← ke_fingerprint k;
   Ok (kid, key, mac)).

(** ** The newest record *)

Definition read_plain_tail (data : bytes) : result AppError (option ConversationEvent * bool) :=
  let window := N.to_nat (N.min MAX_RECORD_LINE_BYTES (N.of_nat (length data))) in
  let raw := drop (length data - window) data in
  let terminated := ends_with_newline raw in
  raw ← (if (window <? length data)%nat
         then ok_or (after_newline raw) (InvalidRequest "conversation journal event exceeds the payload limit")
         else Ok raw);
  match last_line raw with
  | None => Ok (None, terminated)
  | Some line =>
      match decode_journal_record line cid with
      | Err error => Err (InvalidRequest ("conversation " +:+ cid +:+ " journal tail is invalid: " +:+ error))
      | Ok event =>
          if negb (schema_version event =? CONVERSATION_SCHEMA_VERSION) || negb (String.eqb (conversation_id event) cid)
          then Err (InvalidRequest ("conversation " +:+ cid +:+ " journal tail does not match its manifest"))
          else Ok (Some event, terminated)
      end
  end.

Definition read_segment_tail (number : N) (segment : SealedSegment) (f : JournalFile) : A ConversationEvent := λ s,
  match SegmentReader.event (s_last segment) (reader_open segment (jf_data f) cid (as_frames s)) with
  | None => (s, Err (Anyhow "task panicked"))
  | Some (reader, Err error) => (put_frames (rd_cache reader) s, Err (segment_error cid number error))
  | Some (reader, Ok (event, _)) =>
      (put_caches (as_index s) (as_digest s) (Some {| jt_file := f; jt_event := event |}) (put_frames (rd_cache reader) s), Ok event)
  end.

Definition read_last_event_in (files : list JournalFile) : A (option ConversationEvent * bool) := λ s,
  match last_filled files with
  | None => (s, Ok (None, true))
  | Some (_, f) =>
      match (tail ← as_tail s; if same_files [jt_file tail] [f] then Some (jt_event tail) else None) with
      | Some event => (s, Ok (Some event, true))
      | None =>
          match jf_kind f with
          | Segment number (Ok segment) => (event ← read_segment_tail number segment f; mret (Some event, true)) s
          | Segment number (Err error) => (s, Err (segment_error cid number error))
          | Numbered _ | Active => (s, read_plain_tail (jf_data f))
          end
      end
  end.

(** [follow_repaired_journal_locked], after a repair changed the journal. *)
Definition follow_repaired_journal_locked : A unit :=
  files ← asks as_files;
  '(last_event, _) ← read_last_event_in files;
  manifest ← get_unlocked;
  let journal_sequence := match last_event with Some event => sequence event | None => 0 end in
  if journal_sequence <? m_last_sequence manifest
  then updates (mark_manifest_dirty_locked (with_last_sequence journal_sequence manifest))
  else mret tt.

(** ** The append *)

Record AppendEnv : Type := {
  ae_ids : nat → string;
  ae_clock : nat → Z;
  ae_now : Z;
  ae_key : KeyEnv;
  ae_next_key : KeyEnv;          (* after a rotation *)
  ae_close : CloseOutcome;
  ae_rotate : RotateOutcome;
  ae_write : WriteOutcome;
  ae_save : SaveOutcome;
}.

(** The journal is the commit point: the manifest follows it both ways. *)
Definition follow_journal (manifest : ConversationManifest) (last_event : option ConversationEvent) : A ConversationManifest := λ s,
  let journal_sequence := match last_event with Some event => sequence event | None => 0 end in
  if m_last_sequence manifest =? journal_sequence then (s, Ok manifest)
  else
    let manifest' :=
      match last_event with
      | Some event =>
          if m_last_sequence manifest <? journal_sequence
          then with_status (status_after_conversation_event (m_status manifest) event) (time event) manifest
          else manifest
      | None => manifest
      end in
    (if journal_sequence <? m_last_sequence manifest then abandon_key s else s,
     Ok (with_last_sequence journal_sequence manifest')).

Definition truncate_to_micros (t : Z) : Z := default t (from_timestamp_micros (t / 1000)%Z).
Definition new_event (e : AppendEnv) (manifest : ConversationManifest) (i : nat) (entry : string * Value) : ConversationEvent :=
  let event := ConversationEvent_new (ae_ids e i) (ae_clock e i) cid
    (N.min (m_last_sequence manifest + N.of_nat (S i)) U64_MAX) entry.1 entry.2 in
  {| schema_version := schema_version event; sequence := sequence event; event_id := event_id event;
     conversation_id := conversation_id event; time := truncate_to_micros (time event); event_type := event_type event;
     normalized_type := normalized_type event; raw_type := raw_type event; provider := Some (m_provider manifest);
     payload := payload event |}.

(** A torn record at the end of a sealed plaintext file is closed in place; one
    of the active file gets a separator with the new line. *)
Definition close_torn (e : AppendEnv) (files : list JournalFile) (terminated : bool) : A (list JournalFile * bool) := λ s,
  if terminated then (s, Ok (files, true))
  else
    match last_filled files with
    | None => (s, Ok (files, true))
    | Some (i, f) =>
        if is_active f || is_sealed_segment f then (s, Ok (files, false))
        else
          let '(f, r) := terminate_journal (ae_close e) f in
          let s := put_files (<[i := f]> (as_files s)) s in
          (s, _ ← r; Ok (as_files s, true))
    end.

Definition key_expiring (e : AppendEnv) (files : list JournalFile) (s : AppendStore) : bool :=
  match proactive_seal_min_bytes, active_file files with
  | Some min_bytes, Some f => (min_bytes <=? file_len f) && active_key_expired (as_deks s) cid (ae_now e)
  | _, _ => false
  end.

Definition rotate_journal (e : AppendEnv) (terminated : bool) : A (JournalFile * option JournalFile) := λ s,
  match last (as_files s) with
  | None => (s, Err (IoError "No such file or directory"))
  | Some active =>
      let before := removelast (as_files s) in
      let '(active, closed) := if terminated then (active, Ok tt) else terminate_journal (ae_close e) active in
      let s := put_files (before ++ [active]) s in
      match closed with
      | Err error => (s, Err error)
      | Ok _ =>
          let sealed := {| jf_kind := Numbered (next_number (as_files s)); jf_data := jf_data active |} in
          match ae_rotate e with
          | RotateFailed error => (s, Err error)
          | RotatedFresh => (put_files (before ++ [sealed; empty_active]) s, Ok (sealed, Some empty_active))
          | RotatedAlone kept => (put_files (before ++ [sealed] ++ if kept then [empty_active] else []) s, Ok (sealed, None))
          end
      end
  end.

(** [if cached.files == previous { cached.files = files }]. *)
Definition retag (previous files : list JournalFile) (s : AppendStore) : AppendStore :=
  put_caches
    ((λ index, if same_files (ji_files index) previous
               then {| ji_files := files; ji_parts := ji_parts index; fully_validated := fully_validated index |} else index)
     <$> as_index s)
    ((λ cached, if same_files (cd_files cached) previous
                then {| cd_files := files; cd_digest := cd_digest cached |} else cached) <$> as_digest s)
    (as_tail s) s.

(** The rotation of the active file; a failed one is left for the next append. *)
Definition rotate_if_due (e : AppendEnv) (expiring : bool) (files : list JournalFile) (terminated : bool) (key : RecordKey) :
    A (list JournalFile * bool * RecordKey) := λ s,
  if expiring || match active_file files with Some f => journal_segment_bytes <=? file_len f | None => false end then
    match rotate_journal e terminated s with
    | (s, Ok (sealed, fresh)) =>
        let files' := removelast files ++ [sealed] ++ option_list fresh in
        let s := retag files files' s in
        if expiring then (s, Ok (files', true, key))
        else (key ← record_key (ae_next_key e); mret (files', true, key)) (put_deks (Dek.rotate cid (as_deks s)) s)
    | (s, Err _) =>
        if terminated then (s, Ok (files, true, key))
        else ('(_, terminated) ← read_last_event_in (as_files s); mret (as_files s, terminated, key)) s
    end
  else (s, Ok (files, terminated, key)).

(** The caches after a committed write. *)
Definition push_ranges (file : nat) (ranges : list (N * (nat * nat))) (index : JournalIndex) : JournalIndex :=
  foldl (λ index r, push_active file r.1 r.2.1 r.2.2 index) index ranges.
Definition warm_index (before after : list JournalFile) (file : nat) (ranges : list (N * (nat * nat))) (index : JournalIndex) :
    JournalIndex :=
  if same_files (ji_files index) before then
    let index := push_ranges file ranges index in
    {| ji_files := after; ji_parts := ji_parts index; fully_validated := fully_validated index |}
  else index.
Definition warm_digest (before after : list JournalFile) (events : list ConversationEvent) (cached : CachedDigest) :
    option CachedDigest :=
  if same_files (cd_files cached) before
  then Some {| cd_files := after; cd_digest := foldl Digest.apply (cd_digest cached) events |}
  else None.

Definition abandon_failed_append (s : AppendStore) : AppendStore := put_caches None None None (abandon_key s).

(** The write that commits the batch. *)
Definition write_records (e : AppendEnv) (files : list JournalFile) (terminated : bool) (kid : string)
    (stored : list (ConversationEvent * bytes)) : A unit := λ s,
  let files := match active_file files with Some _ => files | None => files ++ [empty_active] end in
  let active_index := pred (length files) in
  let active_bytes := match last files with Some f => length (jf_data f) | None => O end in
  let separator := negb terminated && (0 <? active_bytes)%nat in
  let '(records, ranges) := layout sequence (active_bytes + if separator then 1 else 0) stored in
  let line := (if separator then [Byte.x0a] else []) ++ records in
  let s := note_written ((λ x, (kid, sequence x.1)) <$> stored) s in
  match append_journal_line (ae_write e) line (as_files s) with
  | (disk, Err error) => (abandon_failed_append (put_files disk s), Err error)
  | (disk, Ok f) =>
      let files' := removelast files ++ [f] in
      let s := put_files disk s in
      let tail := match last stored with
                  | Some (event, _) => Some {| jt_file := f; jt_event := event |}
                  | None => as_tail s
                  end in
      (put_caches (warm_index files files' active_index ranges <$> as_index s)
         (as_digest s ≫= warm_digest files files' stored.*1) tail s,
       Ok tt)
  end.

(** The manifest mirrors the commit: a status change is written now. *)
Definition mirror_manifest (e : AppendEnv) (persisted_status : ConversationStatus) (manifest : ConversationManifest)
    (events : list ConversationEvent) : A unit := λ s,
  match last events with
  | None => (s, Ok tt)
  | Some last_event =>
      let status := foldl status_after_conversation_event (m_status manifest) events in
      let manifest := with_last_sequence (sequence last_event) (with_status status (time last_event) manifest) in
      if bool_decide (status = persisted_status) then (mark_manifest_dirty_locked manifest s, Ok tt)
      else persist_manifest_locked (ae_save e) manifest s
  end.

Definition prepare_entry (entry : string * Value) : result AppError (string * Value) :=
  payload ← prepare_payload entry.1 entry.2; Ok (entry.1, payload).

Definition append_batch_locked (e : AppendEnv) (entries : list (string * Value)) (hub : bool) : A (list ConversationEvent) :=
  prepared ← lift_result (map_result prepare_entry entries);
  _ ← lift_result (path cid);
  loaded ← get_unlocked;
  if m_legacy_plaintext loaded then throw HistoryReadOnly
  else
    files ← asks as_files;
    '(last_event, terminated) ← read_last_event_in files;
    manifest ← follow_journal loaded last_event;
    let events := imap (new_event e manifest) prepared in
    '(files, terminated) ← close_torn e files terminated;
    expiring ← asks (key_expiring e files);
    key ← record_key (ae_key e);
    '(files, terminated, (kid, key, mac)) ← rotate_if_due e expiring files terminated key;
    stored ← lift_result (map_result (λ event, stored_record event (Some (kid, content_key key, mac))) events);
    _ ← write_records e files terminated kid stored;
    _ ← mirror_manifest e (m_status loaded) manifest stored.*1;
    _ ← updates (if hub then publish stored.*1 else id);
    mret stored.*1.

Definition append_locked (e : AppendEnv) (event_type : string) (payload : Value) (hub : bool) : A ConversationEvent :=
  events ← append_batch_locked e [(event_type, payload)] hub;
  lift_result (ok_or (last events) (Anyhow "one event was appended")).
End append.
