(* ===== verification/AppendNonce.v ===== *)
(** * Appends never reuse a nonce

    The nonce of a sealed record is its sequence, so a key must never seal two
    records with the same sequence. A failed write, a recovery that cuts the
    journal's tail and an append to a journal that lost records all make the
    store write a sequence again: each of them retires the key first. (A repair
    that finds the journal shorter without cutting it does not:
    [AppendExample.repair_reuses_nonce].) *)
From S2P Require Import Prelude Bytes Text Channel Json JsonObject Model Digest Summary Recipients Keyring Dek HistoryCrypto Record SegmentIndex SegmentBuilder SegmentRun SegmentContent FrameCache SegmentReader SegmentPlan JournalScan JournalRepair Replay Payload Append.
From Stdlib Require Import Strings.Byte ZifyBool.
Local Open Scope N_scope.

Section nonces.
Context `{JsonView} `{!Serde} `{HistoryPrimitives} `{Aead} `{FrameCodec} `{!RawValues} `{Lru}.
Context `{HistoryIds} `{SegmentKeys} `{!RecipientSource W}.
Context (cid : string) (content_key : SegmentKey → ContentKey).
Context (same_files : list JournalFile → list JournalFile → bool).
Context (journal_segment_bytes : N) (proactive_seal_min_bytes : option N).
Abbreviation Store := (AppendStore (W := W)).
Abbreviation append_batch := (append_batch_locked cid content_key same_files journal_segment_bytes proactive_seal_min_bytes).
Implicit Types (s : Store) (d : DekManager W).

(** The daemon starts with nothing in memory. *)
Definition restarted s : Store :=
  put_deks {| source := source (as_deks s); keyrings := keyrings (as_deks s); conversations := ∅ |}
    (put_caches None None None (put_manifest (as_saved s) None s)).

Definition cached_bound s : option N := m_last_sequence ∘ cm_manifest <$> as_cached s.

(** What happens to a conversation: appends with whatever the disk answers; the
    journal and the saved manifest changing under the daemon; a repair, after
    which the manifest follows the journal: one that cuts a corrupt tail retires
    the key, and any other is assumed not to find the journal shorter than the
    manifest says; readers filling the caches; the manifest's flushes and forced
    status; the key manager's other work; a restart. *)
Inductive store_step s : Store → Prop :=
  | do_append e entries hub s' r : append_batch e entries hub s = (s', r) → store_step s s'
  | do_damage files : store_step s (put_files files s)
  | do_lose_manifest saved : store_step s (put_manifest saved (as_cached s) s)
  | do_repair (cut : bool) files s' r :
      follow_repaired_journal_locked cid same_files
        (put_files files (put_caches None None None (if cut then abandon_key cid s else s))) = (s', r) →
      (cut = false → ∀ bound, cached_bound s = Some bound → cached_bound s' = Some bound) →
      store_step s s'
  | do_read index digest tail frames : store_step s (put_caches index digest tail (put_frames frames s))
  | do_flush answer : store_step s (flush_timer answer s)
  | do_set_status o now status s' r : set_status o now status s = (s', r) → store_step s s'
  | do_keys d : Dek.step (as_deks s) d → store_step s (put_deks d s)
  | do_restart : store_step s (restarted s).

(** ** The invariant *)

(** A key that was used is on record, and it is spent or its sequences are at
    most [bound]. *)
Definition covered (bound : N) d (written : list (string * N)) : Prop :=
  ∀ x n, (x, n) ∈ written → recorded (keyrings d) cid x ∧ (spent d cid x ∨ n ≤ bound).
Definition all_spent d (written : list (string * N)) : Prop := ∀ x n, (x, n) ∈ written → spent d cid x.

Record nonce_inv s : Prop := {
  ni_slots : slots_ok (as_deks s);
  ni_once : NoDup (as_written s);
  ni_covered : match cached_bound s with
               | Some bound => covered bound (as_deks s) (as_written s)
               | None => all_spent (as_deks s) (as_written s)
               end;
}.

(** What the phases of an append before its write leave alone. *)
Record keeps s s' : Prop := {
  k_written : as_written s' = as_written s;
  k_cached : as_cached s' = as_cached s;
  k_deks : rtc Dek.step (as_deks s) (as_deks s');
}.
#[local] Instance keeps_refl : Reflexive keeps.
Proof. intros s. by split. Qed.
#[local] Instance keeps_trans : Transitive keeps.
Proof. intros s1 s2 s3 [??] [??]. split; [congruence..|by etrans]. Qed.

Lemma steps_spent d d' x : rtc Dek.step d d' → spent d cid x → spent d' cid x.
Proof. induction 1 as [|d1 d2 d3 Hs _ IH]; [done|]. intros Hx. by eapply IH, step_spent. Qed.
Lemma steps_recorded d d' x : rtc Dek.step d d' → recorded (keyrings d) cid x → recorded (keyrings d') cid x.
Proof.
  induction 1 as [|d1 d2 d3 Hs _ IH]; [done|]. intros Hx. apply IH.
  apply step_moves in Hs as [Hle _]. by eapply recorded_le.
Qed.
Lemma steps_slots d d' : rtc Dek.step d d' → slots_ok d → slots_ok d'.
Proof. induction 1 as [|d1 d2 d3 Hs _ IH]; [done|]. intros Hx. by eapply IH, step_slots_ok. Qed.

Lemma covered_steps bound d d' l : rtc Dek.step d d' → covered bound d l → covered bound d' l.
Proof.
  intros Hs Hc x n Hin. destruct (Hc x n Hin) as [Hr Hx]. split; [by eapply steps_recorded|].
  destruct Hx as [Hx|?]; [left; by eapply steps_spent|by right].
Qed.
Lemma covered_le bound bound' d l : bound ≤ bound' → covered bound d l → covered bound' d l.
Proof. intros Hle Hc x n Hin. destruct (Hc x n Hin) as [? [?|?]]; split; auto. right. lia. Qed.
Lemma all_spent_covered bound d l : all_spent d l → covered bound d l.
Proof. intros Hs x n Hin. pose proof (Hs x n Hin) as Hx. split; [apply Hx|by left]. Qed.
Lemma all_spent_steps d d' l : rtc Dek.step d d' → all_spent d l → all_spent d' l.
Proof. intros Hs Ha x n Hin. eapply steps_spent; [done|by eapply Ha]. Qed.
Lemma abandoned_spent d x : recorded (keyrings d) cid x → spent (abandon cid d) cid x.
Proof.
  intros Hr. unfold spent, abandon, with_slot, slot. destruct (conversations d !! cid) as [k|] eqn:Ek.
  - simpl. rewrite lookup_insert_eq. simpl. by rewrite active_retire.
  - by rewrite Ek.
Qed.
Lemma abandon_all bound d l : covered bound d l → all_spent (abandon cid d) l.
Proof. intros Hc x n Hin. by apply abandoned_spent, (Hc x n). Qed.

Lemma inv_covered s : nonce_inv s → covered (default 0 (cached_bound s)) (as_deks s) (as_written s).
Proof. intros [_ _ Hc]. destruct (cached_bound s); [done|]. by apply all_spent_covered. Qed.
Lemma keeps_inv s s' : keeps s s' → nonce_inv s → nonce_inv s'.
Proof.
  intros [Hw Hm Hd] [Hs Hn Hc]. split; [by eapply steps_slots|by rewrite Hw|].
  unfold cached_bound in *. rewrite Hw, Hm. destruct (_ <$> as_cached s); [by eapply covered_steps|by eapply all_spent_steps].
Qed.
(** A retired key makes any bound good. *)
Lemma spent_inv s : slots_ok (as_deks s) → NoDup (as_written s) → all_spent (as_deks s) (as_written s) → nonce_inv s.
Proof. intros Hs Hn Ha. split; [done..|]. destruct (cached_bound s); [by apply all_spent_covered|done]. Qed.
Lemma abandon_inv s : nonce_inv s → nonce_inv (abandon_key cid s) ∧ all_spent (as_deks (abandon_key cid s)) (as_written s).
Proof.
  intros Hi. assert (all_spent (as_deks (abandon_key cid s)) (as_written s)) as Ha by (eapply abandon_all, inv_covered, Hi).
  split; [|done]. apply spent_inv; [|apply Hi|done]. eapply step_slots_ok; [apply st_abandon|apply Hi].
Qed.
Lemma set_bound_inv s saved cached :
  slots_ok (as_deks s) → NoDup (as_written s) → covered (m_last_sequence (cm_manifest cached)) (as_deks s) (as_written s) →
  nonce_inv (put_manifest saved (Some cached) s).
Proof. by split. Qed.

(** ** The phases *)

Lemma get_unlocked_inv s s' r :
  get_unlocked s = (s', r) → nonce_inv s →
  nonce_inv s' ∧ as_written s' = as_written s ∧ as_deks s' = as_deks s ∧
  ∀ m, r = Ok m → cached_bound s' = Some (m_last_sequence m).
Proof.
  unfold get_unlocked, cached_bound. intros Hg Hi. destruct (as_cached s) as [c|] eqn:Hc.
  { injection Hg as <- <-. split_and!; [done..|]. intros m [= <-]. by rewrite Hc. }
  destruct (as_saved s) as [m|error]; injection Hg as <- <-; [|done]. split_and!; [|done..|by intros m' [= <-]].
  destruct Hi as [Hs Hn Ha]. unfold cached_bound in Ha. rewrite Hc in Ha. apply set_bound_inv; [done..|]. by apply all_spent_covered.
Qed.

Lemma read_last_keeps files s s' r : read_last_event_in cid same_files files s = (s', r) → keeps s s'.
Proof.
  unfold read_last_event_in. destruct (last_filled files) as [[i f]|]; [|by intros [= <- _]].
  destruct (as_tail s ≫= _); [by intros [= <- _]|].
  destruct (jf_kind f) as [number [seg|error]| |]; [|by intros [= <- _]..].
  unfold read_segment_tail, mbind, M_bind. destruct (SegmentReader.event _ _) as [[reader [[event n]|error]]|];
    intros [= <- _]; by split.
Qed.

Lemma follow_journal_inv s s' manifest last_event r :
  follow_journal cid manifest last_event s = (s', r) → nonce_inv s → cached_bound s = Some (m_last_sequence manifest) →
  nonce_inv s' ∧ keeps s s' ∧ ∃ m', r = Ok m' ∧ covered (m_last_sequence m') (as_deks s') (as_written s').
Proof.
  unfold follow_journal. intros Hf Hi Hb. pose proof Hi as [_ _ Hc]. rewrite Hb in Hc.
  destruct (m_last_sequence manifest =? _) eqn:He; [injection Hf as <- <-; split_and!; [done|done|by eauto]|]. injection Hf as <- <-.
  set (n := match last_event with Some event => sequence event | None => 0 end) in *.
  destruct (n <? m_last_sequence manifest) eqn:Hlt.
  - destruct (abandon_inv s Hi) as [Hi' Ha]. split_and!; [done|split; [done..|by apply rtc_once, st_abandon]|].
    eexists. split; [done|]. by apply all_spent_covered.
  - split_and!; [done..|]. eexists. split; [done|]. eapply covered_le; [|exact Hc]. simpl. lia.
Qed.

Lemma close_torn_keeps e files terminated s s' r : close_torn e files terminated s = (s', r) → keeps s s'.
Proof.
  unfold close_torn. destruct terminated; [by intros [= <- _]|].
  destruct (last_filled files) as [[i f]|]; [|by intros [= <- _]].
  destruct (_ || _); [by intros [= <- _]|]. destruct (terminate_journal _ _). intros [= <- _]. by split.
Qed.

(** A key that can seal: on record and not spent. *)
Definition live s (x : string) : Prop := recorded (keyrings (as_deks s)) cid x ∧ ¬ spent (as_deks s) cid x.

Lemma current_live e o d d' x key :
  current_key_for e cid o d = (d', Ok (x, key)) → slots_ok d → recorded (keyrings d') cid x ∧ ¬ spent d' cid x.
Proof.
  intros Hrun Hs. pose proof (step_slots_ok _ _ (st_current _ _ _ _ _ _ Hrun) Hs) as Hs'.
  assert (∃ a, active_key (slot d' cid) = Some a ∧ a_kid a = x) as (a & Ha & Hx).
  { apply current_key_cases in Hrun as [[_ [? ?]]|(w & ra & _ & _ & Hcases)]; [done|].
    destruct Hcases as [(_ & _ & [? ?])|[(ep & ks & a & _ & Hact & _ & Hconv & [= -> ->] & _)|
      [(_ & _ & [? ?])|(ep & ks & ws & _ & _ & Hadd & [= -> ->] & Hconv)]]]; [done| |done|];
      unfold slot; rewrite Hconv, lookup_insert_eq; simpl; eauto. }
  split.
  - apply (Hs' cid). unfold in_memory. rewrite Ha, Hx, lookup_insert_eq. by eexists.
  - intros (_ & _ & Hsp). by eapply Hsp.
Qed.
Lemma record_key_live k s s' r :
  record_key cid k s = (s', r) → nonce_inv s → keeps s s' ∧ ∀ x key mac, r = Ok (x, key, mac) → live s' x.
Proof.
  unfold record_key. intros Hk Hi. destruct (current_key_for _ _ _ _) as [d a] eqn:Hc. injection Hk as <- <-.
  pose proof (st_current _ _ _ _ _ _ Hc) as Hstep. split; [split; [done..|by apply rtc_once]|].
  intros x key mac Hr. destruct a as [[x' key']|error].
  - simpl in Hr. destruct (ke_fingerprint k); [|done]. injection Hr as <- <- <-. unfold live. simpl.
    eapply current_live; [done|apply Hi].
  - destruct (fallback_key d cid) as [[x' key']|] eqn:Hf; [|done]. simpl in Hr. destruct (ke_fingerprint k); [|done].
    injection Hr as <- <- <-. apply fallback_key_iff in Hf as [Hnew Hkey]. unfold live. simpl. split.
    + pose proof (step_slots_ok _ _ Hstep (ni_slots _ Hi) cid) as Hok. apply Hok. rewrite snapshot_slot in Hkey. by eexists.
    + by intros (_ & ? & _).
Qed.

Lemma rotate_journal_keeps e terminated s s' r :
  rotate_journal e terminated s = (s', r) → keeps s s' ∧ as_deks s' = as_deks s.
Proof.
  unfold rotate_journal. destruct (last (as_files s)) as [f|]; [|by intros [= <- _]].
  destruct (if terminated then _ else _) as [f' [[]|error]]; [|by intros [= <- _]].
  destruct (ae_rotate e); by intros [= <- _].
Qed.
Lemma live_same s s' x : as_deks s' = as_deks s → live s x → live s' x.
Proof. unfold live. by intros ->. Qed.
Lemma read_last_deks files s s' r : read_last_event_in cid same_files files s = (s', r) → as_deks s' = as_deks s.
Proof.
  unfold read_last_event_in. destruct (last_filled files) as [[i f]|]; [|by intros [= <- _]].
  destruct (as_tail s ≫= _); [by intros [= <- _]|].
  destruct (jf_kind f) as [number [seg|error]| |]; [|by intros [= <- _]..].
  unfold read_segment_tail, mbind, M_bind. destruct (SegmentReader.event _ _) as [[reader [[event n]|error]]|];
    by intros [= <- _].
Qed.

Lemma rotate_if_due_live e expiring files terminated key s s' r :
  rotate_if_due cid same_files journal_segment_bytes e expiring files terminated key s = (s', r) →
  nonce_inv s → live s key.1.1 →
  keeps s s' ∧ ∀ files' t key', r = Ok (files', t, key') → live s' key'.1.1.
Proof.
  unfold rotate_if_due. intros Hr Hi Hl. destruct (_ || _).
  2: { injection Hr as <- <-. split; [done|]. by intros ? ? ? [= _ _ <-]. }
  destruct (rotate_journal e terminated s) as [s1 [[sealed fresh]|error]] eqn:Hj;
    apply rotate_journal_keeps in Hj as [Hk1 Hd1].
  - set (files' := removelast files ++ _) in Hr. destruct expiring.
    { injection Hr as <- <-. split; [etrans; [exact Hk1|by split]|]. intros ? ? ? [= _ _ <-]. by eapply (live_same s). }
    unfold mbind, M_bind in Hr. set (s2 := put_deks _ _) in Hr.
    assert (keeps s s2) as Hk2.
    { etrans; [exact Hk1|]. split; [done..|]. apply rtc_once. apply (st_rotate _ cid). }
    destruct (record_key cid (ae_next_key e) s2) as [s3 [[[x key'] mac]|error]] eqn:Hrk;
      destruct (record_key_live _ _ _ _ Hrk (keeps_inv _ _ Hk2 Hi)) as [Hk3 Hl3]; injection Hr as <- <-;
      (split; [by etrans|]); [|done]. intros ? ? ? [= _ _ <-]. by eapply Hl3.
  - destruct terminated; [injection Hr as <- <-; split; [done|]; intros ? ? ? [= _ _ <-]; by eapply (live_same s)|].
    unfold mbind, M_bind in Hr. destruct (read_last_event_in cid same_files (as_files s1) s1) as [s2 [[ev t]|error']] eqn:Hrd;
      pose proof (read_last_deks _ _ _ _ Hrd) as Hd2; apply read_last_keeps in Hrd as Hk2; injection Hr as <- <-;
      (split; [by etrans|]); [|done]. intros ? ? ? [= _ _ <-]. eapply (live_same s); [by rewrite Hd2|done].
Qed.

(** ** The write *)

Lemma layout_written {A B} (x : A) (f : B → N) (l : list B) m :
  (∀ i y, l !! i = Some y → f y = m + N.of_nat (S i)) →
  NoDup ((λ y, (x, f y)) <$> l) ∧ ∀ n, (x, n) ∈ (λ y, (x, f y)) <$> l → m < n ∧ n ≤ m + N.of_nat (length l).
Proof.
  intros Hf. split.
  - apply NoDup_alt. intros i j p Hi Hj. rewrite list_lookup_fmap in Hi, Hj. apply fmap_Some in Hi as (y & Hy & ->).
    apply fmap_Some in Hj as (z & Hz & [= E]). rewrite (Hf i y Hy), (Hf j z Hz) in E. lia.
  - intros n Hin. apply list_elem_of_fmap in Hin as (y & [= ->] & [i Hi]%list_elem_of_lookup).
    rewrite (Hf i y Hi). apply lookup_lt_Some in Hi. lia.
Qed.

Lemma stored_record_sequence event key stored : stored_record event (Some key) = Ok stored → sequence stored.1 = sequence event.
Proof.
  unfold stored_record. destruct key as [[kid key] mac]. intros Hs. res_inv. unfold seal_event in *. res_inv. done.
Qed.

(** The events of a batch are numbered after the manifest's last. *)
Lemma batch_sequences e manifest prepared key stored :
  map_result (λ event, stored_record event (Some key)) (imap (new_event cid e manifest) prepared) = Ok stored →
  ∀ i y, stored !! i = Some y → sequence y.1 = N.min (m_last_sequence manifest + N.of_nat (S i)) U64_MAX.
Proof.
  intros Hs i y Hy. apply map_result_Forall2 in Hs. destruct (Forall2_lookup_r _ _ _ _ _ Hs Hy) as (event & He & Hst).
  rewrite list_lookup_imap in He. apply fmap_Some in He as (entry & _ & ->). by apply stored_record_sequence in Hst as ->.
Qed.

Lemma write_inv e files terminated kid stored m s s' r :
  write_records cid same_files e files terminated kid stored s = (s', r) →
  nonce_inv s → live s kid → covered m (as_deks s) (as_written s) →
  (∀ i y, stored !! i = Some y → sequence y.1 = m + N.of_nat (S i)) →
  as_written s' = as_written s ++ ((λ y, (kid, sequence y.1)) <$> stored) ∧ as_cached s' = as_cached s ∧
  slots_ok (as_deks s') ∧ NoDup (as_written s') ∧
  match r with
  | Ok _ => as_deks s' = as_deks s ∧ covered (m + N.of_nat (length stored)) (as_deks s') (as_written s')
  | Err _ => all_spent (as_deks s') (as_written s')
  end.
Proof.
  intros Hw Hi [Hrec Hlive] Hc Hseq. destruct (layout_written kid (λ y, sequence y.1) stored m Hseq) as [Hnd Hnew].
  set (new := (λ y, (kid, sequence y.1)) <$> stored) in *.
  assert (NoDup (as_written s ++ new)) as Hall.
  { apply NoDup_app. split_and!; [apply Hi| |done]. intros [x n] Hin Hin'.
    assert (x = kid) as -> by (apply list_elem_of_fmap in Hin' as (? & [= ->] & _); done).
    destruct (Hc _ _ Hin) as [_ [Hs|Hle]]; [done|]. apply Hnew in Hin'. lia. }
  assert (covered (m + N.of_nat (length stored)) (as_deks s) (as_written s ++ new)) as Hcov.
  { intros x n [Hin|Hin]%elem_of_app.
    - eapply covered_le; [|exact Hc|done]. lia.
    - assert (x = kid) as -> by (apply list_elem_of_fmap in Hin as (? & [= ->] & _); done). split; [done|]. right. by apply Hnew. }
  unfold write_records in Hw. destruct (layout _ _ _) as [records ranges].
  destruct (append_journal_line _ _ _) as [disk [f|error]]; injection Hw as <- <-; (split; [done|]); (split; [done|]).
  - split_and!; [apply Hi|done|done|done].
  - split_and!; [|done|by eapply abandon_all]. simpl. eapply step_slots_ok; [apply st_abandon|apply Hi].
Qed.

Lemma persist_inv o manifest s s' r :
  persist_manifest_locked o manifest s = (s', r) →
  slots_ok (as_deks s) → NoDup (as_written s) → covered (m_last_sequence manifest) (as_deks s) (as_written s) → nonce_inv s'.
Proof.
  unfold persist_manifest_locked, mark_manifest_dirty_locked. intros Hp Hs Hn Hc.
  destruct o as [|written error]; injection Hp as <- <-; by apply set_bound_inv.
Qed.
Lemma publish_inv (hub : bool) events s : nonce_inv s → nonce_inv ((if hub then publish events else id) s).
Proof. intros [? ? ?]. by destruct hub. Qed.
Lemma mirror_inv e status manifest events s s' r :
  mirror_manifest e status manifest events s = (s', r) → events ≠ [] → slots_ok (as_deks s) → NoDup (as_written s) →
  (∀ event, last events = Some event → covered (sequence event) (as_deks s) (as_written s)) → nonce_inv s'.
Proof.
  unfold mirror_manifest. intros Hm Hne Hs Hn Hc. destruct (last events) as [event|] eqn:Hl; [|by apply last_None in Hl].
  specialize (Hc event eq_refl). destruct (bool_decide _); [injection Hm as <- <-|by eapply persist_inv]. by apply set_bound_inv.
Qed.

Lemma write_written e files terminated kid stored s s' r :
  write_records cid same_files e files terminated kid stored s = (s', r) →
  as_written s' = as_written s ++ ((λ y, (kid, sequence y.1)) <$> stored).
Proof.
  unfold write_records. destruct (layout _ _ _). by destruct (append_journal_line _ _ _) as [disk [f|error]]; intros [= <- _].
Qed.
Lemma mirror_written e status manifest events s s' r : mirror_manifest e status manifest events s = (s', r) → as_written s' = as_written s.
Proof.
  unfold mirror_manifest, persist_manifest_locked. destruct (last events); [|by intros [= <- _]].
  destruct (bool_decide _); [by intros [= <- _]|]. by destruct (ae_save e); intros [= <- _].
Qed.

(** The write and what follows it. *)
Lemma commit_inv e files terminated kid stored status manifest (hub : bool) s s' r :
  (_ ← write_records cid same_files e files terminated kid stored;
   _ ← mirror_manifest e status manifest stored.*1;
   _ ← updates (if hub then publish stored.*1 else id);
   mret stored.*1) s = (s', r) →
  nonce_inv s → live s kid → covered (m_last_sequence manifest) (as_deks s) (as_written s) →
  (∀ i y, stored !! i = Some y → sequence y.1 = N.min (m_last_sequence manifest + N.of_nat (S i)) U64_MAX) →
  Forall (λ y, y.2 < U64_MAX) (as_written s') → nonce_inv s'.
Proof.
  unfold updates, mret, M_ret, mbind, M_bind. intros Ha Hi Hl Hc Hseq Hmax.
  destruct (write_records cid same_files e files terminated kid stored s) as [s1 rw] eqn:Hw.
  assert (∀ i y, stored !! i = Some y → sequence y.1 = m_last_sequence manifest + N.of_nat (S i)) as Hseq'.
  { intros i y Hy. rewrite (Hseq i y Hy). assert (as_written s' = as_written s1) as Hw1.
    { destruct rw as [[]|]; [|by injection Ha as <- <-].
      destruct (mirror_manifest _ _ _ _ s1) as [s2 [[]|]] eqn:Hm; apply mirror_written in Hm; injection Ha as <- <-; by destruct hub. }
    rewrite Hw1, (write_written _ _ _ _ _ _ _ _ Hw), Forall_app, Forall_fmap in Hmax.
    destruct Hmax as [_ Hmax]. pose proof (Forall_lookup_1 _ _ _ _ Hmax Hy) as Hlt. simpl in Hlt. rewrite (Hseq i y Hy) in Hlt. lia. }
  destruct (write_inv _ _ _ _ _ _ _ _ _ Hw Hi Hl Hc Hseq') as (Hwr & Hca & Hslots & Hnd & Hout).
  destruct rw as [[]|error]; [|injection Ha as <- <-; by apply spent_inv]. destruct Hout as [Hd1 Hc1].
  destruct (decide (stored = [])) as [->|Hne].
  { injection Ha as <- <-. apply publish_inv, (keeps_inv s); [|done]. split; [by rewrite Hwr, app_nil_r|done|by rewrite Hd1]. }
  destruct (mirror_manifest _ _ _ _ s1) as [s2 rm] eqn:Hm. assert (nonce_inv s2) as Hi2.
  { eapply (mirror_inv _ _ _ _ _ _ _ Hm); [by destruct stored|done|done|]. intros ev Hlast.
    rewrite fmap_last in Hlast. apply fmap_Some in Hlast as (y & Hlast & ->). rewrite last_lookup in Hlast. rewrite (Hseq' _ _ Hlast).
    apply lookup_lt_Some in Hlast. by replace (m_last_sequence manifest + N.of_nat (S (pred (length stored)))) with
      (m_last_sequence manifest + N.of_nat (length stored)) by lia. }
  destruct rm as [[]|]; injection Ha as <- <-; [by apply publish_inv|done].
Qed.

Lemma append_inv e entries hub s s' r :
  append_batch e entries hub s = (s', r) → nonce_inv s → Forall (λ y, y.2 < U64_MAX) (as_written s') → nonce_inv s'.
Proof.
  unfold append_batch_locked, lift_result, asks, throw, mbind at 1 2 3 4 5 6 7 8 9 10, M_bind at 1 2 3 4 5 6 7 8 9 10. intros Ha Hi Hmax.
  destruct (map_result prepare_entry entries) as [prepared|]; [|by injection Ha as <- <-].
  destruct (path cid) as [[]|]; [|by injection Ha as <- <-].
  destruct (get_unlocked s) as [s1 [loaded|]] eqn:Hg; apply get_unlocked_inv in Hg as (Hi1 & _ & _ & Hb); [|done|by injection Ha as <- <-|done].
  specialize (Hb loaded eq_refl). destruct (m_legacy_plaintext loaded); [by injection Ha as <- <-|].
  destruct (read_last_event_in cid same_files (as_files s1) s1) as [s2 [[last_event terminated]|]] eqn:Hr;
    apply read_last_keeps in Hr as Hk2; pose proof (keeps_inv _ _ Hk2 Hi1) as Hi2; [|by injection Ha as <- <-].
  assert (cached_bound s2 = Some (m_last_sequence loaded)) as Hb2 by (unfold cached_bound in *; by rewrite (k_cached _ _ Hk2)).
  destruct (follow_journal cid loaded last_event s2) as [s3 rf] eqn:Hf.
  destruct (follow_journal_inv _ _ _ _ _ Hf Hi2 Hb2) as (Hi3 & _ & manifest & -> & Hc3).
  destruct (close_torn e (as_files s1) terminated s3) as [s4 [[files t]|]] eqn:Hct;
    apply close_torn_keeps in Hct as Hk4; pose proof (keeps_inv _ _ Hk4 Hi3) as Hi4; [|by injection Ha as <- <-].
  destruct (record_key cid (ae_key e) s4) as [s5 [[[x0 key0] mac0]|]] eqn:Hrk;
    destruct (record_key_live _ _ _ _ Hrk Hi4) as [Hk5 Hl5]; pose proof (keeps_inv _ _ Hk5 Hi4) as Hi5; [|by injection Ha as <- <-].
  specialize (Hl5 _ _ _ eq_refl).
  destruct (rotate_if_due _ _ _ _ _ _ _ _ s5) as [s6 [[[files6 t6] [[kid key] mac]]|]] eqn:Hrot;
    destruct (rotate_if_due_live _ _ _ _ (x0, key0, mac0) _ _ _ Hrot Hi5 Hl5) as [Hk6 Hl6]; pose proof (keeps_inv _ _ Hk6 Hi5) as Hi6;
    [|by injection Ha as <- <-].
  specialize (Hl6 _ _ _ eq_refl). destruct (map_result _ _) as [stored|] eqn:Hst; [|by injection Ha as <- <-].
  assert (keeps s3 s6) as Hk36 by (do 2 (etrans; [eassumption|]); done).
  eapply (commit_inv _ _ _ _ _ _ manifest _ s6); [exact Ha|done|exact Hl6| |by eapply batch_sequences|done].
  rewrite (k_written _ _ Hk36). eapply covered_steps; [apply Hk36|done].
Qed.

(** ** Every step *)

Lemma follow_repaired_inv s s' r :
  follow_repaired_journal_locked cid same_files s = (s', r) → nonce_inv s → all_spent (as_deks s) (as_written s) → nonce_inv s'.
Proof.
  unfold follow_repaired_journal_locked, asks, updates, mret, M_ret, mbind, M_bind. intros Hf Hi Ha.
  destruct (read_last_event_in _ _ _ s) as [s1 [[last_event t]|]] eqn:Hr; apply read_last_keeps in Hr as Hk;
    pose proof (keeps_inv _ _ Hk Hi) as Hi1; [|by injection Hf as <- <-].
  assert (all_spent (as_deks s1) (as_written s1)) as Ha1 by (rewrite (k_written _ _ Hk); eapply all_spent_steps; [apply Hk|done]).
  destruct (get_unlocked s1) as [s2 [manifest|]] eqn:Hg; apply get_unlocked_inv in Hg as (Hi2 & Hw2 & Hd2 & _); [|done|by injection Hf as <- <-|done].
  destruct (_ <? _); injection Hf as <- <-; [|done].
  apply set_bound_inv; [apply Hi2|apply Hi2|]. rewrite Hw2, Hd2. by apply all_spent_covered.
Qed.
(** A repair that cuts nothing leaves the keys alone. *)
Lemma follow_repaired_deks s s' r :
  follow_repaired_journal_locked cid same_files s = (s', r) → as_written s' = as_written s ∧ as_deks s' = as_deks s.
Proof.
  unfold follow_repaired_journal_locked, asks, updates, mret, M_ret, mbind, M_bind. intros Hf.
  destruct (read_last_event_in _ _ _ s) as [s1 [[last_event t]|]] eqn:Hr; apply read_last_deks in Hr as Hd;
    apply read_last_keeps in Hr as [Hw _ _]; [|by injection Hf as <- <-].
  rewrite <-Hw, <-Hd. unfold get_unlocked in Hf. clear Hw Hd.
  destruct (as_cached s1); [|destruct (as_saved s1)]; cbn in Hf; try destruct (_ <? _); by injection Hf as <- <-.
Qed.
Lemma uncut_repair_inv s s' r files :
  follow_repaired_journal_locked cid same_files (put_files files (put_caches None None None s)) = (s', r) → nonce_inv s →
  (∀ bound, cached_bound s = Some bound → cached_bound s' = Some bound) → nonce_inv s'.
Proof.
  intros Hf [Hs Hn Hc] Hb. apply follow_repaired_deks in Hf as [Hw Hd]. cbn in Hw, Hd.
  destruct (cached_bound s) as [bound|] eqn:E; [|apply spent_inv; by rewrite ?Hw, ?Hd].
  split; [by rewrite Hd|by rewrite Hw|]. by rewrite (Hb bound eq_refl), Hw, Hd.
Qed.
Lemma flush_timer_inv answer s : nonce_inv s → nonce_inv (flush_timer answer s).
Proof.
  intros [Hs Hn Hc]. unfold flush_timer, flush_manifest_locked, cached_bound in *.
  destruct (as_cached s) as [c|] eqn:Hca; simpl in *; [|rewrite Hca; simpl; split; [done..|]; unfold cached_bound; by rewrite Hca].
  destruct (cm_dirty c); [destruct answer|]; by apply set_bound_inv.
Qed.
Lemma set_status_inv o now status s s' r : set_status o now status s = (s', r) → nonce_inv s → nonce_inv s'.
Proof.
  unfold set_status, mret, M_ret, mbind, M_bind. intros Hst Hi.
  destruct (get_unlocked s) as [s1 [manifest|]] eqn:Hg; apply get_unlocked_inv in Hg as (Hi1 & _ & _ & Hb); [|done|by injection Hst as <- <-|done].
  specialize (Hb manifest eq_refl). destruct (bool_decide _); [by injection Hst as <- <-|].
  destruct (persist_manifest_locked _ _ s1) as [s2 rp] eqn:Hp. assert (nonce_inv s2) as Hi2.
  { destruct Hi1 as [Hs Hn Hc]. rewrite Hb in Hc. by eapply persist_inv. }
  destruct rp; by injection Hst as <- <-.
Qed.
Lemma restarted_inv s : nonce_inv s → nonce_inv (restarted s).
Proof.
  intros Hi. apply spent_inv; [|apply Hi|].
  - intros id. apply keys_ok_default.
  - intros x n Hin. destruct (inv_covered s Hi x n Hin) as [Hr _]. by split.
Qed.

Lemma store_step_inv s s' : store_step s s' → nonce_inv s → Forall (λ y, y.2 < U64_MAX) (as_written s') → nonce_inv s'.
Proof.
  intros Hstep Hi Hmax. destruct Hstep as [e entries hub s' r Ha|files|saved|cut files s' r Hf Hcut|index digest tail frames|answer|o now status s' r Hs|d Hd|].
  - by eapply append_inv.
  - by apply (keeps_inv s).
  - by apply (keeps_inv s).
  - destruct cut; [|by eapply uncut_repair_inv; [exact Hf|done|apply Hcut]].
    destruct (abandon_inv s Hi) as [Hi' Ha]. eapply follow_repaired_inv; [exact Hf| |done]. by apply (keeps_inv (abandon_key cid s)).
  - by apply (keeps_inv s).
  - by apply flush_timer_inv.
  - by eapply set_status_inv.
  - apply (keeps_inv s); [|done]. split; [done..|by apply rtc_once].
  - by apply restarted_inv.
Qed.

(** The sequence has not run out: no record written so far has the last one. *)
Definition run_step s s' : Prop := store_step s s' ∧ Forall (λ y, y.2 < U64_MAX) (as_written s').

End nonces.
