(* ===== verification/AppendJournal.v ===== *)
(** * Appends extend the journal

    The journal is a log: an append adds its records at the end, whatever the
    store does on the way (rotating the active file, creating it, failing), and
    the caches it keeps warm are what a fresh scan of the files would give. *)
From S2P Require Import Prelude Bytes Text Channel Json JsonObject Model Digest Summary Recipients Keyring Dek HistoryCrypto Record SegmentIndex SegmentBuilder SegmentRun SegmentContent FrameCache SegmentReader SegmentPlan JournalScan JournalRepair JournalLines JournalRecover JournalConverge JournalValidate JournalFast Replay ReplayPages ReplayComplete ReplaySegments Payload Append.
From Stdlib Require Import Strings.Byte ZifyBool.
Local Open Scope N_scope.

(** ** Lines *)

Lemma journal_of_lines_app l1 l2 : journal_of_lines (l1 ++ l2) = journal_of_lines l1 ++ journal_of_lines l2.
Proof. unfold journal_of_lines. by rewrite fmap_app, concat_app. Qed.
Lemma journal_of_lines_cons l ls : journal_of_lines (l :: ls) = l ++ NL :: journal_of_lines ls.
Proof. unfold journal_of_lines. cbn. by rewrite <-app_assoc. Qed.
Lemma lines_terminated ls : terminated (journal_of_lines ls).
Proof.
  destruct ls as [|l ls] using rev_ind; [by left|]. right. rewrite journal_of_lines_app, journal_of_lines_cons.
  exists (journal_of_lines ls ++ l). by rewrite <-app_assoc.
Qed.
Lemma terminated_app a b : terminated a → terminated b → terminated (a ++ b).
Proof. intros Ha [->|[c ->]]; [by rewrite app_nil_r|]. right. exists (a ++ c). by rewrite app_assoc. Qed.
Lemma terminated_ends raw : raw ≠ [] → terminated raw → ends_with_newline raw = true.
Proof. intros Hne [->|[before ->]]; [done|]. unfold ends_with_newline. by rewrite last_snoc, bool_decide_true. Qed.

(** Where the records of a layout are. *)
Lemma layout_items {E} (seq : E → N) start stored :
  Forall (λ x : E * bytes, clean_line x.2) stored →
  layout seq start stored =
    (journal_of_lines stored.*2,
     zip (seq ∘ fst <$> stored) (shift start <$> (items (journal_of_lines stored.*2)).*1)).
Proof.
  intros Hc. revert start. induction Hc as [|[event record] stored (Hn & Hne & Ht) _ IH]; intros start; [done|].
  cbn [layout]. rewrite IH. rewrite !fmap_cons, journal_of_lines_cons. cbn [snd] in *. rewrite items_cons, Ht by done.
  destruct record as [|c record']; [done|]. set (record := c :: record') in *. cbn [app]. rewrite !fmap_cons. cbn [zip zip_with fst snd compose].
  cbn [fst snd]. rewrite Nat.add_0_r. do 2 f_equal. f_equal. rewrite <-!list_fmap_compose.
  apply list_fmap_ext. intros _ [[a b] line] _. simpl. f_equal; lia.
Qed.

Lemma last_line_items raw : last_line raw = last (items raw).*2.
Proof.
  unfold last_line, items. f_equal. induction (line_ranges raw) as [|r rs IH]; [done|]. rewrite !fmap_cons, !filter_cons. cbn [snd].
  destruct (decide (trim_ascii (slice raw r) ≠ [])); rewrite IH; done.
Qed.
Lemma last_line_snoc pre line : terminated pre → clean_line line → last_line (pre ++ line ++ [NL]) = Some line.
Proof.
  intros Hp (Hn & Hne & Ht). rewrite last_line_items, items_app by done. rewrite items_cons, Ht by done.
  destruct line as [|c line']; [done|]. rewrite fmap_app, fmap_app. simpl. by rewrite last_snoc.
Qed.

Lemma after_newline_suffix raw : NL ∈ raw → ∃ before rest, raw = before ++ NL :: rest ∧ no_newline before ∧ after_newline raw = Some rest.
Proof.
  induction raw as [|c raw IH]; [by intros ?%elem_of_nil|]. cbn [after_newline]. destruct (decide (c = NL)) as [->|Hne].
  - intros _. rewrite bool_decide_true by done. exists [], raw. split_and!; [done| |done]. apply not_elem_of_nil.
  - rewrite bool_decide_false by done. intros [E|Hin]%elem_of_cons; [congruence|]. destruct (IH Hin) as (before & rest & -> & Hb & ->).
    exists (c :: before), rest. split_and!; [done| |done]. by apply not_elem_of_cons.
Qed.

(** A file that ends with a record short enough to be found from its end. *)
Definition short_tail (data : bytes) : Prop :=
  ∃ pre line, data = pre ++ line ++ [NL] ∧ terminated pre ∧ clean_line line ∧ N.of_nat (length line) + 2 ≤ MAX_RECORD_LINE_BYTES.

Section tails.
Context `{JsonView} `{!Serde}.
Context (cid : string).

Lemma read_plain_tail_ok data line event :
  short_tail data → last (items data).*2 = Some line → record_at cid (sequence event) line event →
  read_plain_tail cid data = Ok (Some event, true).
Proof.
  intros (pre & line' & -> & Hpre & Hc & Hfit) Hlast (Hd & _ & Hv).
  rewrite <-last_line_items, last_line_snoc in Hlast by done. injection Hlast as ->. unfold read_plain_tail.
  set (data := pre ++ line ++ [NL]). set (window := N.to_nat (N.min _ _)).
  assert (Hend : ∀ k, (k ≤ length pre)%nat → ends_with_newline (drop k data) = true).
  { intros k Hk. unfold data. rewrite drop_app_le by done. unfold ends_with_newline. by rewrite !app_assoc, last_snoc, bool_decide_true. }
  assert (length data = length pre + length line + 1)%nat as Hlen by (unfold data; rewrite !length_app; simpl; lia).
  assert (Hw : (length data - window ≤ length pre)%nat) by (unfold window; lia). rewrite (Hend _ Hw).
  assert (∃ raw, (if (window <? length data)%nat then ok_or (after_newline (drop (length data - window) data))
      (InvalidRequest "conversation journal event exceeds the payload limit") else Ok (drop (length data - window) data)) = Ok raw ∧
      last_line raw = Some line) as (raw & -> & Hraw).
  { destruct (window <? length data)%nat eqn:Hlt.
    - unfold data at 2. rewrite drop_app_le by done.
      assert (∃ tail, drop (length data - window) pre = tail ++ [NL]) as [tail Htail].
      { destruct Hpre as [->|[before ->]]; [simpl in *; unfold window in *; lia|].
        exists (drop (length data - window) before). rewrite drop_app_le; [done|]. rewrite length_app in *. simpl in *. unfold window in *. lia. }
      rewrite Htail. destruct (after_newline_suffix (tail ++ [NL])) as (before & rest & E & Hb & _); [set_solver|].
      assert (after_newline ((tail ++ [NL]) ++ line ++ [NL]) = Some (rest ++ line ++ [NL])) as ->.
      { rewrite E, <-app_assoc. cbn [app]. clear -Hb. induction before as [|c before IH]; cbn [app after_newline]; [by rewrite bool_decide_true|].
        apply not_elem_of_cons in Hb as [? ?]. rewrite bool_decide_false by done. by apply IH. }
      eexists. split; [done|]. apply last_line_snoc; [|done]. destruct (decide (rest = [])) as [->|Hne]; [by left|]. right.
      destruct (exists_last Hne) as (r' & c & ->). exists r'. rewrite app_comm_cons, app_assoc in E. apply app_inj_tail in E as [_ <-]. done.
    - assert (window = length data) as -> by (unfold window in *; lia). rewrite Nat.sub_diag, drop_0. eexists. split; [done|].
      by apply last_line_snoc. }
  simpl. rewrite Hraw, Hd. unfold validate_event in Hv. destruct (negb _ || negb _) eqn:E; [|done].
  cbn [orb] in Hv. discriminate Hv.
Qed.

(** A last record that fills the window is not found: the newline that ends it
    is taken for the one before it, and the journal reads as empty. *)
Lemma oversized_tail_is_lost pre line :
  no_newline line → pre ≠ [] → MAX_RECORD_LINE_BYTES ≤ N.of_nat (length line) + 1 →
  read_plain_tail cid (pre ++ line ++ [NL]) = Ok (None, true).
Proof.
  intros Hn Hpre Hlong. unfold read_plain_tail. set (data := pre ++ line ++ [NL]).
  assert (length data = length pre + length line + 1)%nat as Hlen by (unfold data; rewrite !length_app; simpl; lia).
  assert (0 < length pre)%nat by (destruct pre; simpl; [done|lia]).
  replace (N.min MAX_RECORD_LINE_BYTES (N.of_nat (length data))) with MAX_RECORD_LINE_BYTES by lia.
  set (window := N.to_nat MAX_RECORD_LINE_BYTES).
  assert (0 < window)%nat as Hw0 by (unfold window; assert (0 < MAX_RECORD_LINE_BYTES) by done; lia).
  assert (length data - window = length pre + (length line + 1 - window))%nat as -> by (unfold window; lia).
  unfold data. rewrite drop_app_add'; [|done]. rewrite drop_app_le by (unfold window; lia).
  set (rest := drop _ line). assert (no_newline rest) as Hr.
  { intros Hin. apply Hn. unfold rest in Hin. rewrite <-(take_drop (length line + 1 - window) line). set_solver. }
  assert (ends_with_newline (rest ++ [NL]) = true) as -> by (unfold ends_with_newline; by rewrite last_snoc, bool_decide_true).
  fold data. replace (window <? length data)%nat with true by (unfold window; lia).
  assert (after_newline (rest ++ [NL]) = Some []) as ->; [|done].
  clear -Hr. induction rest as [|c rest IH]; cbn [app after_newline]; [by rewrite bool_decide_true|].
  apply not_elem_of_cons in Hr as [? ?]. rewrite bool_decide_false by done. by apply IH.
Qed.
End tails.

(** ** Files *)

Lemma clean_head line : clean_line line → head_ok line.
Proof. intros (_ & _ & <-). destruct (trim_spec line) as (_ & _ & _ & ? & _). done. Qed.
Lemma flush_of_lines ls : Forall clean_line ls → Forall (λ r, head_ok (slice (journal_of_lines ls) r)) (line_ranges (journal_of_lines ls)).
Proof.
  induction 1 as [|l ls Hl _ IH]; [done|]. rewrite journal_of_lines_cons. pose proof Hl as (Hn & _). rewrite line_ranges_cons by done.
  constructor; [rewrite slice_app_l, slice_whole by (simpl; lia); by apply clean_head|]. apply Forall_fmap. eapply Forall_impl; [exact IH|].
  intros r Hr. cbn [compose]. replace (l ++ NL :: journal_of_lines ls) with ((l ++ [NL]) ++ journal_of_lines ls) by by rewrite <-app_assoc.
  replace (S (length l)) with (length (l ++ [NL])) by (rewrite length_app; simpl; lia). by rewrite slice_shift.
Qed.
Lemma flush_app a b :
  terminated a → Forall (λ r, head_ok (slice a r)) (line_ranges a) → Forall (λ r, head_ok (slice b r)) (line_ranges b) →
  Forall (λ r, head_ok (slice (a ++ b) r)) (line_ranges (a ++ b)).
Proof.
  intros Ht Ha Hb. rewrite line_ranges_app by done. apply Forall_app. split.
  - apply Forall_forall. intros r Hr. rewrite slice_app_l by by apply line_ranges_bounds. rewrite Forall_forall in Ha. by apply Ha.
  - apply Forall_fmap. eapply Forall_impl; [exact Hb|]. intros r Hr. cbn [compose]. by rewrite slice_shift.
Qed.

(** A plaintext file as the daemon leaves it: whole lines, and no file of blank
    lines only. *)
Record plain_ok (f : JournalFile) : Prop := {
  po_plain : is_plain f = true;
  po_terminated : terminated (jf_data f);
  po_flush : flush_lines f;
  po_filled : items (jf_data f) = [] → jf_data f = [];
}.
Definition active_data (files : list JournalFile) : bytes := match active_file files with Some f => jf_data f | None => [] end.
Definition extended (new : list bytes) (files : list JournalFile) : list JournalFile :=
  sealed_files files ++ [{| jf_kind := Active; jf_data := active_data files ++ journal_of_lines new |}].

Lemma active_file_Some files f : active_file files = Some f → files = removelast files ++ [f] ∧ is_active f = true.
Proof.
  unfold active_file. destruct (last files) as [g|] eqn:Hl; [|done]. simpl. destruct (is_active g) eqn:Ha; [|done]. intros [= ->].
  apply last_Some in Hl as [before ->]. by rewrite removelast_last.
Qed.
Lemma plain_ok_kind k f : plain_ok f → (∀ n i, k ≠ Segment n i) → plain_ok {| jf_kind := k; jf_data := jf_data f |}.
Proof. intros [? ? ? ?] Hk. split; try done. unfold is_plain, is_sealed_segment. simpl. by destruct k; [destruct (Hk number index)|..]. Qed.
Lemma plain_ok_empty : plain_ok empty_active.
Proof. split; [done|by left|constructor|done]. Qed.
Lemma plain_ok_extended data new :
  Forall clean_line new → plain_ok {| jf_kind := Active; jf_data := data |} →
  plain_ok {| jf_kind := Active; jf_data := data ++ journal_of_lines new |} ∧
  file_lines {| jf_kind := Active; jf_data := data ++ journal_of_lines new |} = (items data).*2 ++ new.
Proof.
  intros Hc [_ Ht Hf He]. cbn [jf_data] in *.
  assert ((items (data ++ journal_of_lines new)).*2 = (items data).*2 ++ new) as Hlines.
  { rewrite items_app, fmap_app by done. f_equal. rewrite <-list_fmap_compose. by rewrite <-(items_of_lines new Hc) at 2. }
  split; [|done]. split; [done| | |].
  - apply terminated_app; [done|apply lines_terminated].
  - apply flush_app; [done|done|by apply flush_of_lines].
  - cbn [jf_data]. intros Hnil. rewrite Hnil in Hlines. symmetry in Hlines. apply app_eq_nil in Hlines as [Hd ->].
    rewrite He; [done|]. by apply fmap_nil_inv in Hd.
Qed.
Lemma active_plain_ok files : Forall plain_ok files → plain_ok {| jf_kind := Active; jf_data := active_data files |}.
Proof.
  intros Hp. unfold active_data. destruct (active_file files) as [f|] eqn:Ha; [|apply plain_ok_empty].
  apply active_file_Some in Ha as [E _]. rewrite E, Forall_app, Forall_singleton in Hp. destruct Hp as [_ Hp]. apply (plain_ok_kind _ f Hp). done.
Qed.
Lemma sealed_files_ok {P : JournalFile → Prop} files : Forall P files → Forall P (sealed_files files).
Proof.
  intros Hp. unfold sealed_files. destruct (active_file files) as [f|] eqn:Ha; [|done].
  apply active_file_Some in Ha as [E _]. rewrite E, Forall_app in Hp. tauto.
Qed.
Lemma sealed_lines files : flat_map file_lines files = flat_map file_lines (sealed_files files) ++ (items (active_data files)).*2.
Proof.
  unfold sealed_files, active_data. destruct (active_file files) as [f|] eqn:Ha; [|by rewrite app_nil_r].
  apply active_file_Some in Ha as [E _]. rewrite E at 1. rewrite flat_map_app. simpl. by rewrite app_nil_r.
Qed.
Lemma extended_lines new files : Forall clean_line new → Forall plain_ok files →
  flat_map file_lines (extended new files) = flat_map file_lines files ++ new ∧ Forall plain_ok (extended new files).
Proof.
  intros Hc Hp. destruct (plain_ok_extended (active_data files) new Hc (active_plain_ok files Hp)) as [Hok Hl].
  unfold extended. rewrite flat_map_app, (sealed_lines files). cbn [flat_map]. rewrite Hl, app_nil_r, app_assoc. split; [done|].
  apply Forall_app. split; [by apply sealed_files_ok|by constructor].
Qed.

(** Sealed segments are never the active file. *)
Lemma chain_kinds n segs m : sealed_chain n segs m → Forall (λ f, is_sealed_segment f = true) segs.
Proof.
  revert n. induction segs as [|f segs IH]; intros n; [constructor|]. intros (number & s & Hk & _ & _ & Hc). constructor; [|by eapply IH].
  unfold is_sealed_segment. by rewrite Hk.
Qed.
Lemma active_file_app segs plains :
  Forall (λ f, is_sealed_segment f = true) segs → active_file (segs ++ plains) = active_file plains.
Proof.
  intros Hs. destruct plains as [|f plains _] using rev_ind; [|by unfold active_file; rewrite app_assoc, !last_snoc].
  rewrite app_nil_r. unfold active_file. destruct (last segs) as [f|] eqn:Hl; [|done]. apply last_Some in Hl as [before ->].
  apply Forall_app in Hs as [_ Hf]. apply Forall_cons_1 in Hf as [Hf _]. cbn. unfold is_active, is_sealed_segment in *. by destruct (jf_kind f).
Qed.
Lemma removelast_app_ne {A} (l1 l2 : list A) : l2 ≠ [] → removelast (l1 ++ l2) = l1 ++ removelast l2.
Proof. apply removelast_app. Qed.
Lemma sealed_files_app segs plains :
  Forall (λ f, is_sealed_segment f = true) segs → sealed_files (segs ++ plains) = segs ++ sealed_files plains.
Proof.
  intros Hs. unfold sealed_files. rewrite active_file_app by done. destruct (active_file plains) as [f|] eqn:Ha; [|done].
  apply removelast_app_ne. by intros ->.
Qed.
Lemma extended_app new segs plains :
  Forall (λ f, is_sealed_segment f = true) segs → extended new (segs ++ plains) = segs ++ extended new plains.
Proof. intros Hs. unfold extended, active_data. by rewrite sealed_files_app, active_file_app, app_assoc by done. Qed.

(** ** The log the files hold *)
Section rep.
Context `{JsonViewLaws} `{!Serde} `{!SerdeLaws} `{!JournalLaws} `{!TrailingSpace}.
Context `{HistoryPrimitives} `{Aead} `{FrameCodec} `{!RawValues} `{Lru}.
Context (cid : string) (good : FrameCache → Prop).
Implicit Types (files segs plains : list JournalFile) (stored : bool → N → ConversationEvent).

(** Files holding the records 1 to [n]: readable sealed segments up to before
    [m], then plaintext files, of which only the last can be the active one. *)
Record journal_rep files stored segs plains (m n : N) : Prop := {
  jr_files : files = segs ++ plains;
  jr_segs : sealed_chain 1 segs m;
  jr_filled : Forall (λ f, jf_data f ≠ []) segs;
  jr_readable f number s : f ∈ segs → jf_kind f = Segment number (Ok s) →
    segment_file segs (s_number s) = Some f ∧ readable_segment cid good s (jf_data f) stored;
  jr_plain : Forall plain_ok plains;
  jr_last : n + 1 = m + N.of_nat (length (flat_map file_lines plains));
  jr_max : n ≤ U64_MAX;
  jr_records i line : flat_map file_lines plains !! i = Some line →
    ∀ d, record_at cid (m + N.of_nat i) line (stored d (m + N.of_nat i));
}.

(** The log with [events] after its first [n] records. *)
Definition logged stored (n : N) (events : list ConversationEvent) (d : bool) (i : N) : ConversationEvent :=
  if i <=? n then stored d i else default (stored d i) (events !! N.to_nat (i - n - 1)).
Lemma logged_old stored n events d i : i ≤ n → logged stored n events d i = stored d i.
Proof. intros Hi. unfold logged. by replace (i <=? n) with true by lia. Qed.
Lemma logged_new stored n events d i event : events !! i = Some event → logged stored n events d (n + 1 + N.of_nat i) = event.
Proof.
  intros Hi. unfold logged. replace (n + 1 + N.of_nat i <=? n) with false by lia.
  replace (N.to_nat (n + 1 + N.of_nat i - n - 1)) with i by lia. by rewrite Hi.
Qed.
Lemma logged_span stored n events d : span (logged stored n events d) (n + 1) (length events) = events.
Proof.
  apply list_eq. intros i. unfold span. rewrite list_lookup_fmap. destruct (decide (i < length events)%nat) as [Hi|Hi].
  - rewrite lookup_seq_lt by done. destruct (lookup_lt_is_Some_2 events i Hi) as [event He]. rewrite He. simpl. f_equal.
    by apply logged_new.
  - rewrite lookup_seq_ge, lookup_ge_None_2 by lia. done.
Qed.

Lemma chain_last_lt n segs m f number s : sealed_chain n segs m → f ∈ segs → jf_kind f = Segment number (Ok s) → s_last s < m.
Proof.
  revert n. induction segs as [|g segs IH]; intros n Hc Hin Hk; [by apply elem_of_nil in Hin|].
  destruct Hc as (number' & s' & Hk' & Hf & Hle & Hc). apply elem_of_cons in Hin as [->|Hin]; [|by eapply IH].
  rewrite Hk in Hk'. injection Hk' as -> ->. apply sealed_m_pos in Hc. lia.
Qed.

(** Files with the same segments whose lines are those of the log and some more. *)
Lemma rep_lines files stored segs plains m n plains' new events :
  journal_rep files stored segs plains m n → Forall plain_ok plains' →
  flat_map file_lines plains' = flat_map file_lines plains ++ new → length new = length events →
  n + N.of_nat (length new) ≤ U64_MAX →
  (∀ i line event, new !! i = Some line → events !! i = Some event → record_at cid (n + 1 + N.of_nat i) line event) →
  journal_rep (segs ++ plains') (logged stored n events) segs plains' m (n + N.of_nat (length new)).
Proof.
  intros Hr Hp Hl Hlen Hmax Hnew. pose proof (jr_last _ _ _ _ _ _ Hr) as Hn.
  split; [done|apply Hr|apply Hr| |done|rewrite Hl, length_app; lia|done|].
  - intros f number s Hf Hk. destruct (jr_readable _ _ _ _ _ _ Hr f number s Hf Hk) as [Hfile Hread]. split; [done|].
    eapply readable_segment_ext; [|exact Hread]. intros d i Hi. symmetry. apply logged_old.
    pose proof (chain_last_lt _ _ _ _ _ _ (jr_segs _ _ _ _ _ _ Hr) Hf Hk). lia.
  - intros i line Hi d. rewrite Hl in Hi. apply lookup_app_Some in Hi as [Hi|[Hge Hi]].
    + rewrite logged_old by (apply lookup_lt_Some in Hi; lia). by apply Hr.
    + destruct (lookup_lt_is_Some_2 events (i - length (flat_map file_lines plains))) as [event He];
        [apply lookup_lt_Some in Hi; lia|].
      replace (m + N.of_nat i) with (n + 1 + N.of_nat (i - length (flat_map file_lines plains))) by lia.
      rewrite (logged_new _ _ _ _ _ _ He). by apply Hnew.
Qed.
Lemma rep_extend files stored segs plains m n new events :
  journal_rep files stored segs plains m n → Forall clean_line new → length new = length events →
  n + N.of_nat (length new) ≤ U64_MAX →
  (∀ i line event, new !! i = Some line → events !! i = Some event → record_at cid (n + 1 + N.of_nat i) line event) →
  journal_rep (extended new files) (logged stored n events) segs (extended new plains) m (n + N.of_nat (length new)).
Proof.
  intros Hr Hc Hlen Hmax Hnew. destruct (extended_lines new plains Hc (jr_plain _ _ _ _ _ _ Hr)) as [Hl Hp].
  rewrite (jr_files _ _ _ _ _ _ Hr), extended_app by (eapply chain_kinds, Hr). by eapply rep_lines.
Qed.
(** Files with the same segments and lines hold the same log. *)
Lemma rep_same files stored segs plains m n plains' :
  journal_rep files stored segs plains m n → Forall plain_ok plains' → flat_map file_lines plains' = flat_map file_lines plains →
  journal_rep (segs ++ plains') stored segs plains' m n.
Proof.
  intros Hr Hp Hl. split; [done|apply Hr|apply Hr|apply Hr|done|rewrite Hl; apply Hr|apply Hr|].
  intros i line. rewrite Hl. apply Hr.
Qed.

(** The files as the readers of pages ask for them. *)
Lemma rep_whole files stored segs plains m n : journal_rep files stored segs plains m n → files ≠ [] →
  whole_journal cid good stored segs plains m ∧ last_sequence plains m = n.
Proof.
  intros Hr Hne. pose proof (jr_last _ _ _ _ _ _ Hr) as Hn. assert (last_sequence plains m = n) as Hlast by (unfold last_sequence; lia).
  split; [|done]. pose proof (jr_plain _ _ _ _ _ _ Hr) as Hp. split.
  - by rewrite <-(jr_files _ _ _ _ _ _ Hr).
  - apply Hr.
  - intros f number s Hf Hk. destruct (jr_readable _ _ _ _ _ _ Hr f number s Hf Hk) as [Hfile Hread]. split; [|done].
    clear -Hfile. unfold segment_file in *. induction segs as [|g segs IH]; [done|]. cbn [find app] in *.
    destruct (match jf_kind g with Segment n0 _ => _ | _ => _ end); [done|by apply IH].
  - eapply Forall_impl; [exact Hp|]. by intros f [? _ _ _].
  - eapply Forall_impl; [exact Hp|]. by intros f [_ _ ? _].
  - generalize (length segs). clear -Hp. induction Hp as [|f plains [_ Ht _ _] _ IH]; intros base; [done|].
    rewrite indexed_from_cons. unfold run_unterminated. cbn [foldl snd]. destruct (jf_data f) eqn:E; [apply IH|].
    rewrite (terminated_ends (b :: l)) by done. apply IH.
  - rewrite Hlast. apply Hr.
  - apply Hr.
Qed.
End rep.
