(* ===== verification/AppendCaches.v ===== *)
(** * The caches an append keeps warm

    The replay index, the digest and the newest record of a journal are cached
    with the files they describe. What an append makes of them is what a scan of
    the new files gives. *)
From S2P Require Import Prelude Bytes Text Channel Json JsonObject Model Digest Summary Recipients Keyring Dek HistoryCrypto Record SegmentIndex SegmentBuilder SegmentRun SegmentContent FrameCache SegmentReader SegmentPlan JournalScan JournalRepair JournalLines JournalRecover JournalConverge JournalValidate JournalFast Replay ReplayPages ReplayComplete ReplaySegments Payload Append AppendJournal.
From Stdlib Require Import Strings.Byte ZifyBool.
Local Open Scope N_scope.

(** ** The index *)

(** The index of the files it names. *)
Definition index_true (index : JournalIndex) : Prop :=
  ∃ segs plains m, ji_files index = segs ++ plains ∧ sealed_chain 1 segs m ∧ Forall (λ f, is_plain f = true) plains ∧
    ji_parts index = clean_parts segs plains m.

Lemma chain_fun n segs m m' : sealed_chain n segs m → sealed_chain n segs m' → m = m'.
Proof.
  revert n. induction segs as [|f segs IH]; intros n; simpl; [congruence|].
  intros (number & s & Hk & _ & _ & Hc) (number' & s' & Hk' & _ & _ & Hc'). rewrite Hk in Hk'. injection Hk' as -> ->. by eapply IH.
Qed.
Lemma split_kinds segs plains segs' plains' :
  segs ++ plains = segs' ++ plains' →
  Forall (λ f, is_sealed_segment f = true) segs → Forall (λ f, is_sealed_segment f = true) segs' →
  Forall (λ f, is_plain f = true) plains → Forall (λ f, is_plain f = true) plains' → segs = segs' ∧ plains = plains'.
Proof.
  revert segs'. induction segs as [|f segs IH]; intros [|f' segs'] E Hs Hs' Hp Hp'; cbn [app] in E.
  - done.
  - subst plains. apply Forall_cons_1 in Hs' as [Hf _], Hp as [Hf' _]. unfold is_plain in Hf'. by rewrite Hf in Hf'.
  - subst plains'. apply Forall_cons_1 in Hs as [Hf _], Hp' as [Hf' _]. unfold is_plain in Hf'. by rewrite Hf in Hf'.
  - injection E as -> E. apply Forall_cons_1 in Hs as [_ Hs], Hs' as [_ Hs']. by destruct (IH segs' E Hs Hs' Hp Hp') as [-> ->].
Qed.
Lemma index_true_parts index segs plains m :
  index_true index → ji_files index = segs ++ plains → sealed_chain 1 segs m → Forall (λ f, is_plain f = true) plains →
  ji_parts index = clean_parts segs plains m.
Proof.
  intros (segs' & plains' & m' & Hf & Hc' & Hp' & ->) Hf' Hc Hp. rewrite Hf in Hf'.
  destruct (split_kinds _ _ _ _ Hf') as [-> ->]; [by eapply chain_kinds|by eapply chain_kinds|done|done|]. by rewrite (chain_fun _ _ _ _ Hc Hc').
Qed.

(** The part of one file. *)
Definition file_part (i : nat) (n : N) (data : bytes) : list IndexPart :=
  match items data with [] => [] | its => [PlainPart i n its.*1] end.
Lemma run_parts_snoc base n plains f :
  run_parts base n (plains ++ [f]) =
  run_parts base n plains ++ file_part (base + length plains) (n + N.of_nat (length (flat_map file_lines plains))) (jf_data f).
Proof.
  revert base n. induction plains as [|g plains IH]; intros base n; cbn [app run_parts flat_map length].
  - rewrite app_nil_r, Nat.add_0_r, N.add_0_r. done.
  - rewrite IH, <-app_assoc. unfold file_lines at 2. rewrite length_app, length_fmap, Nat2N.inj_add, N.add_assoc.
    by replace (S base + length plains)%nat with (base + S (length plains))%nat by lia.
Qed.
Lemma run_parts_files base n plains file first offsets :
  PlainPart file first offsets ∈ run_parts base n plains → (file < base + length plains)%nat.
Proof.
  revert base n. induction plains as [|f plains IH]; intros base n; cbn [run_parts length]; [by intros ?%elem_of_nil|].
  intros [Hin|Hin%IH]%elem_of_app; [|lia]. destruct (items (jf_data f)); [by apply elem_of_nil in Hin|].
  apply list_elem_of_singleton in Hin as [= -> _ _]. lia.
Qed.
Lemma sealed_parts_sealed segs p : p ∈ sealed_parts segs → ∃ s, p = SealedPart s.
Proof.
  unfold sealed_parts. rewrite list_elem_of_In, in_flat_map. intros (f & _ & Hin). rewrite <-list_elem_of_In in Hin.
  destruct (jf_kind f) as [number [s|]| |]; [|by apply elem_of_nil in Hin..]. apply list_elem_of_singleton in Hin. eauto.
Qed.

(** Pushing the records of one file. *)
Lemma push_ranges_open file ranges index parts first offsets :
  ji_parts index = parts ++ [PlainPart file first offsets] →
  ji_parts (push_ranges file ranges index) = parts ++ [PlainPart file first (offsets ++ ranges.*2)].
Proof.
  revert index offsets. induction ranges as [|[sequence [a b]] ranges IH]; intros index offsets Hp; [by rewrite app_nil_r|].
  unfold push_ranges. cbn [foldl fst snd]. fold (push_ranges file ranges (push_active file sequence a b index)).
  rewrite (IH _ (offsets ++ [(a, b)])); [by rewrite <-app_assoc|].
  unfold push_active. cbn [ji_parts]. by rewrite Hp, last_snoc, Nat.eqb_refl, removelast_last.
Qed.
Lemma push_ranges_fresh file ranges index :
  (∀ first offsets, last (ji_parts index) ≠ Some (PlainPart file first offsets)) →
  ji_parts (push_ranges file ranges index) =
    ji_parts index ++ match ranges with [] => [] | (sequence, _) :: _ => [PlainPart file sequence ranges.*2] end.
Proof.
  intros Hl. destruct ranges as [|[sequence [a b]] ranges]; [by rewrite app_nil_r|].
  unfold push_ranges. cbn [foldl fst snd]. fold (push_ranges file ranges (push_active file sequence a b index)).
  rewrite (push_ranges_open _ _ _ (ji_parts index) sequence [(a, b)]); [done|]. unfold push_active. cbn [ji_parts].
  destruct (last (ji_parts index)) as [[s|file' first offsets]|] eqn:E; [done| |done].
  destruct (Nat.eqb_spec file' file) as [->|]; [|done]. by destruct (Hl first offsets).
Qed.

(** The index of the files before the write, with the records of the write
    pushed, is the index of the files after it. *)
Lemma warm_parts {E} (seq : E → N) index segs plains a m (stored : list (E * bytes)) :
  ji_parts index = clean_parts segs (plains ++ [a]) m → terminated (jf_data a) →
  Forall (λ x, clean_line x.2) stored →
  (∀ x, stored !! 0%nat = Some x →
    seq x.1 = m + N.of_nat (length (flat_map file_lines (plains ++ [a])))) →
  ji_parts (push_ranges (length segs + length plains) (layout seq (length (jf_data a)) stored).2 index) =
  clean_parts segs (plains ++ [{| jf_kind := jf_kind a; jf_data := jf_data a ++ journal_of_lines stored.*2 |}]) m.
Proof.
  intros Hp Ht Hc Hfirst. rewrite layout_items by done. cbn [snd]. unfold clean_parts in *. rewrite !run_parts_snoc in *. cbn [jf_data].
  set (new := journal_of_lines stored.*2). set (before := sealed_parts segs ++ run_parts (length segs) m plains).
  rewrite !app_assoc in *. fold before in Hp |- *. set (i := (length segs + length plains)%nat) in *.
  set (first := m + N.of_nat (length (flat_map file_lines plains))) in *.
  assert ((items (jf_data a ++ new)).*1 = (items (jf_data a)).*1 ++ (shift (length (jf_data a)) <$> (items new).*1)) as Hits.
  { rewrite items_app, fmap_app by done. f_equal. by rewrite <-!list_fmap_compose. }
  set (seqs := seq ∘ fst <$> stored). set (offs := shift (length (jf_data a)) <$> (items new).*1) in *.
  assert (length seqs = length offs) as Hlen.
  { unfold seqs, offs. rewrite !length_fmap. rewrite <-(length_fmap snd (items new)). unfold new. rewrite items_of_lines; [by rewrite length_fmap|].
    by apply Forall_fmap. }
  assert ((zip seqs offs).*2 = offs) as Hzip by (apply snd_zip; lia).
  destruct (items (jf_data a)) as [|it its] eqn:Ha.
  - unfold file_part in Hp |- *. rewrite Ha, app_nil_r in Hp. rewrite fmap_nil in Hits. cbn [app] in Hits.
    rewrite push_ranges_fresh, Hp.
    2: { intros first' offsets El. rewrite Hp in El. apply last_Some in El as [before' El].
      assert (PlainPart i first' offsets ∈ before) as Hin by (rewrite El; set_solver).
      apply elem_of_app in Hin as [Hin|Hin]; [by apply sealed_parts_sealed in Hin as [? ?]|]. apply run_parts_files in Hin. unfold i in Hin. lia. }
    f_equal. destruct stored as [|x stored].
    { by rewrite app_nil_r, Ha. }
    specialize (Hfirst x eq_refl). rewrite flat_map_app, length_app in Hfirst. cbn [flat_map] in Hfirst. unfold file_lines at 2 in Hfirst.
    rewrite Ha in Hfirst. cbn in Hfirst. rewrite Hzip. unfold seqs. rewrite fmap_cons.
    destruct (items (jf_data a ++ new)) as [|it' its'] eqn:Hn.
    { rewrite fmap_nil in Hits. unfold seqs in Hlen. rewrite <-Hits in Hlen. done. }
    rewrite <-Hits. cbn [zip zip_with]. rewrite fmap_cons. cbn [compose]. rewrite Hfirst. unfold first. by rewrite Nat.add_0_r.
  - unfold file_part in Hp |- *. rewrite Ha in Hp. rewrite (push_ranges_open _ _ _ _ _ _ Hp), Hzip.
    destruct (items (jf_data a ++ new)) as [|it' its'] eqn:Hn; [done|]. by rewrite Hits.
Qed.

(** ** The digest *)
Section digests.
Context `{JsonView} `{!Serde}.
Context (cid : string).
(** The digest a sealed segment keeps in its index file. *)
Context (segment_digest : JournalFile → JournalDigest).

Definition line_events (lines : list bytes) : list ConversationEvent := omap (λ line, ok (decode_journal_record line cid)) lines.
Definition file_digest (digest : JournalDigest) (f : JournalFile) : JournalDigest :=
  match jf_kind f with
  | Segment _ _ => Digest.merge digest (segment_digest f)
  | _ => foldl Digest.apply digest (line_events (file_lines f))
  end.
(** The digest of the files, as a query without a cached one builds it. *)
Definition journal_digest (files : list JournalFile) : JournalDigest := foldl file_digest digest_default files.

Lemma file_digest_plain digest f :
  is_plain f = true → file_digest digest f = foldl Digest.apply digest (line_events (file_lines f)).
Proof. unfold is_plain, is_sealed_segment, file_digest. by destruct (jf_kind f). Qed.
Lemma digest_active files :
  journal_digest files = foldl Digest.apply (journal_digest (sealed_files files)) (line_events (items (active_data files)).*2).
Proof.
  unfold sealed_files, active_data. destruct (active_file files) as [f|] eqn:Ha; [|done].
  apply active_file_Some in Ha as [E Hf]. rewrite E at 1. unfold journal_digest. rewrite foldl_app. cbn [foldl].
  rewrite file_digest_plain; [done|]. unfold is_plain, is_sealed_segment, is_active in *. by destruct (jf_kind f).
Qed.
Lemma line_events_app l1 l2 : line_events (l1 ++ l2) = line_events l1 ++ line_events l2.
Proof. apply omap_app. Qed.
Lemma line_events_of (lines : list bytes) events :
  Forall2 (λ line event, decode_journal_record line cid = Ok event) lines events → line_events lines = events.
Proof. induction 1 as [|line event lines events Hd _ IH]; [done|]. unfold line_events in *. cbn. rewrite Hd. simpl. by rewrite IH. Qed.
Lemma digest_extended files new events :
  terminated (active_data files) → Forall clean_line new →
  Forall2 (λ line event, decode_journal_record line cid = Ok event) new events →
  journal_digest (extended new files) = foldl Digest.apply (journal_digest files) events.
Proof.
  intros Ht Hc Hd. rewrite (digest_active files). unfold extended, journal_digest. rewrite foldl_app. cbn [foldl].
  rewrite file_digest_plain by done. unfold file_lines. cbn [jf_data]. rewrite items_app, fmap_app by done.
  rewrite line_events_app, foldl_app. f_equal. rewrite <-list_fmap_compose.
  etrans; [|by apply line_events_of]. f_equal. exact (items_of_lines new Hc).
Qed.
Lemma digest_renamed files f k rest :
  active_file files = Some f → (∀ n i, k ≠ Segment n i) → Forall (λ g, g = empty_active) rest →
  journal_digest (removelast files ++ [{| jf_kind := k; jf_data := jf_data f |}] ++ rest) = journal_digest files.
Proof.
  intros Ha Hk Hr. apply active_file_Some in Ha as [E Hf]. rewrite E at 2. unfold journal_digest. rewrite !foldl_app. cbn [foldl].
  set (d := foldl _ _ (removelast files)). rewrite (file_digest_plain _ f).
  2: { unfold is_plain, is_sealed_segment, is_active in *. by destruct (jf_kind f). }
  rewrite file_digest_plain; [|unfold is_plain, is_sealed_segment; cbn; destruct k as [n i| |]; [by destruct (Hk n i)|done..]].
  change (file_lines {| jf_kind := k; jf_data := jf_data f |}) with (file_lines f). generalize (foldl Digest.apply d (line_events (file_lines f))).
  clear -Hr. induction Hr as [|g rest -> _ IH]; intros d; [done|]. cbn [foldl]. by rewrite IH.
Qed.
End digests.

(** ** The newest record *)

Lemma last_filled_spec files :
  match last_filled files with
  | Some (i, f) => files !! i = Some f ∧ jf_data f ≠ [] ∧ ∀ j g, (i < j)%nat → files !! j = Some g → jf_data g = []
  | None => Forall (λ f, jf_data f = []) files
  end.
Proof.
  unfold last_filled. induction files as [|f files IH] using rev_ind; [constructor|].
  unfold enumerate in *. rewrite imap_app, filter_app. cbn [imap]. rewrite filter_cons. cbn [snd compose]. rewrite Nat.add_0_r.
  destruct (decide (jf_data f ≠ [])) as [Hf|Hf].
  - rewrite last_app. cbn [last filter]. split_and!; [by apply list_lookup_middle|done|].
    intros j g Hj Hg. apply lookup_lt_Some in Hg. rewrite length_app in Hg. simpl in Hg. lia.
  - rewrite app_nil_r. assert (jf_data f = []) as Hnil by (destruct (jf_data f); [done|by destruct Hf]).
    destruct (last _) as [[i g]|].
    + destruct IH as (Hi & Hg & Hlater). split_and!; [by apply lookup_app_l_Some|done|]. intros j g' Hj Hg'.
      apply lookup_app_Some in Hg' as [Hg'|[_ Hg']]; [by eapply Hlater|]. destruct (j - length files)%nat; [|done]. injection Hg' as <-. done.
    + apply Forall_app. split; [done|by constructor].
Qed.
Lemma sealed_chain_snoc n segs f m : sealed_chain n (segs ++ [f]) m →
  ∃ number s, jf_kind f = Segment number (Ok s) ∧ s_first s ≤ s_last s ∧ m = s_last s + 1.
Proof.
  revert n. induction segs as [|g segs IH]; intros n; cbn [app sealed_chain].
  - intros (number & s & Hk & _ & Hle & <-). eauto.
  - intros (number & s & _ & _ & _ & Hc). by eapply IH.
Qed.
Lemma no_lines plains : Forall (λ f, jf_data f = []) plains → flat_map file_lines plains = [].
Proof. induction 1 as [|f plains Hf _ IH]; [done|]. cbn [flat_map]. rewrite IH. unfold file_lines. by rewrite Hf. Qed.
