(* ===== verification/AppendRefine.v ===== *)
(** * The store is a log

    What a conversation's store holds is a log of records: an append adds its
    events at the end or adds nothing, and a client that replays from the old
    end reads exactly the events the append returned. *)
From S2P Require Import Prelude Bytes Text Channel Json JsonObject Model Digest Summary Recipients Keyring Dek HistoryCrypto Record SegmentIndex SegmentBuilder SegmentRun SegmentContent FrameCache SegmentReader SegmentPlan JournalScan JournalRepair JournalLines JournalRecover JournalConverge JournalValidate JournalFast Replay ReplayPages ReplayComplete ReplaySegments Payload Append AppendJournal AppendCaches.
From Stdlib Require Import Strings.Byte ZifyBool.
Local Open Scope N_scope.

Section refine.
Context `{JsonViewLaws} `{!Serde} `{!SerdeLaws} `{!JournalLaws} `{!TrailingSpace}.
Context `{HistoryPrimitives} `{Aead} `{FrameCodec} `{!RawValues} `{Lru}.
Context `{HistoryIds} `{SegmentKeys} `{!RecipientSource W}.
Context (cid : string) (good : FrameCache → Prop) (segment_digest : JournalFile → JournalDigest).
Context (content_key : SegmentKey → ContentKey).
Context (same_files : list JournalFile → list JournalFile → bool).
Context (journal_segment_bytes : N) (proactive_seal_min_bytes : option N).
(** The listing is the journal's identity: files with the same names, sizes and
    times are the same files. *)
Hypothesis same_identifies : ∀ a b, same_files a b = true ↔ a = b.
Abbreviation Store := (AppendStore (W := W)).
Abbreviation append_batch := (append_batch_locked cid content_key same_files journal_segment_bytes proactive_seal_min_bytes).
Implicit Types (s : Store) (stored : bool → N → ConversationEvent).

(** ** Caches *)

Definition tail_true (t : JournalTail) : Prop :=
  match jf_kind (jt_file t) with
  | Segment _ (Ok segment) => ∀ stored, readable_segment cid good segment (jf_data (jt_file t)) stored →
      s_first segment ≤ s_last segment → jt_event t = stored false (s_last segment)
  | Segment _ (Err _) => False
  | Numbered _ | Active => ∃ line, last (file_lines (jt_file t)) = Some line ∧ decode_journal_record line cid = Ok (jt_event t)
  end.
Record caches_true s : Prop := {
  ct_index index : as_index s = Some index → index_true index;
  ct_digest cached : as_digest s = Some cached → cd_digest cached = journal_digest cid segment_digest (cd_files cached);
  ct_tail t : as_tail s = Some t → tail_true t;
  ct_frames : good (as_frames s);
}.
(** The newest record is cached, or it can be read. *)
Definition tail_readable s : Prop :=
  match last_filled (as_files s) with
  | None => True
  | Some (_, f) =>
      (∃ t, as_tail s = Some t ∧ same_files [jt_file t] [f] = true) ∨ is_sealed_segment f = true ∨ short_tail (jf_data f)
  end.

(** The store holds the records 1 to [n] of the log. *)
Definition store_holds s stored (n : N) : Prop :=
  (∃ segs plains m, journal_rep cid good (as_files s) stored segs plains m n) ∧ caches_true s.

(** ** Reading the newest record *)

(** Reads change only what is cached of the newest record. *)
Record reads_only s s' : Prop := {
  ro_files : as_files s' = as_files s;
  ro_index : as_index s' = as_index s;
  ro_digest : as_digest s' = as_digest s;
}.

Lemma rep_plain_tail files stored segs plains m n k f :
  journal_rep cid good files stored segs plains m n → plains !! k = Some f → jf_data f ≠ [] →
  (∀ j g, (k < j)%nat → plains !! j = Some g → jf_data g = []) →
  ∃ line, last (file_lines f) = Some line ∧ 0 < n ∧ ∀ d, record_at cid n line (stored d n).
Proof.
  intros Hr Hk Hf Hlater. assert (plain_ok f) as [_ _ _ He].
  { eapply Forall_lookup_1; [apply (jr_plain _ _ _ _ _ _ _ _ Hr)|done]. }
  destruct (last (file_lines f)) as [line|] eqn:Hl.
  2: { apply last_None in Hl. unfold file_lines in Hl. apply fmap_nil_inv in Hl. by rewrite He in Hf. }
  exists line. split; [done|].
  assert (flat_map file_lines plains = flat_map file_lines (take k plains) ++ file_lines f) as Hlines.
  { rewrite <-(take_drop_middle plains k f Hk) at 1. rewrite flat_map_app. cbn [flat_map]. f_equal.
    rewrite no_lines; [apply app_nil_r|]. apply Forall_lookup. intros j g Hg. rewrite lookup_drop in Hg. eapply Hlater; [|exact Hg]. lia. }
  pose proof (jr_last _ _ _ _ _ _ _ _ Hr) as Hn. rewrite Hlines, length_app in Hn. rewrite last_lookup in Hl.
  pose proof (lookup_lt_Some _ _ _ Hl) as Hlt. pose proof (sealed_m_pos _ _ _ (jr_segs _ _ _ _ _ _ _ _ Hr)) as Hm.
  split; [lia|]. intros d.
  replace n with (m + N.of_nat (length (flat_map file_lines (take k plains)) + pred (length (file_lines f)))) by lia.
  apply Hr. rewrite Hlines, lookup_app_r by lia. rewrite <-Hl. f_equal. lia.
Qed.

Lemma read_segment_ok s f number segment stored :
  caches_true s → jf_kind f = Segment number (Ok segment) → readable_segment cid good segment (jf_data f) stored →
  s_first segment ≤ s_last segment →
  ∃ s', read_segment_tail cid number segment f s = (s', Ok (stored false (s_last segment))) ∧ caches_true s' ∧ reads_only s s' ∧
    sequence (stored false (s_last segment)) = s_last segment.
Proof.
  intros Hc Hk Hread Hle. pose proof Hread as (inv & Hopen & Hgood & Hrec).
  destruct (Hrec _ (s_last segment) false (Hopen _ (ct_frames _ Hc)) (conj Hle (N.le_refl _))) as (self' & r & Hr & Hinv & He & Hs & _).
  unfold read_segment_tail, SegmentReader.event. cbv beta iota delta [mbind R_bind mret R_ret]. rewrite Hr. cbv beta iota zeta. rewrite He.
  eexists. split; [done|]. split; [|split; [by split|by rewrite <-He]]. split; [apply Hc|apply Hc| |by apply Hgood].
  intros t [= <-]. unfold tail_true. cbn [jt_file jt_event]. rewrite Hk. intros stored' (inv' & Hopen' & _ & Hrec') _.
  destruct (Hrec' _ (s_last segment) false (Hopen' _ (ct_frames _ Hc)) (conj Hle (N.le_refl _))) as (? & r' & Hr' & _ & He' & _).
  rewrite Hr in Hr'. injection Hr' as <- <-. by rewrite <-He, <-He'.
Qed.

(** The file that ends the log: the last segment, or a plaintext file. *)
Lemma last_is_segment files stored segs plains m n i f :
  journal_rep cid good files stored segs plains m n → segs !! i = Some f →
  (∀ j g, (i < j)%nat → (segs ++ plains) !! j = Some g → jf_data g = []) →
  ∃ number segment, jf_kind f = Segment number (Ok segment) ∧ s_first segment ≤ s_last segment ∧ n = s_last segment ∧
    readable_segment cid good segment (jf_data f) stored.
Proof.
  intros Hr Hi Hlater. pose proof (jr_filled _ _ _ _ _ _ _ _ Hr) as Hfl. rewrite Forall_lookup in Hfl.
  pose proof (jr_last _ _ _ _ _ _ _ _ Hr) as Hn. assert (segs = removelast segs ++ [f]) as Hseg.
  { destruct (decide (S i = length segs)) as [Hl|Hl].
    - destruct segs as [|g segs' _] using rev_ind; [done|]. rewrite removelast_last. rewrite length_app in Hl. cbn in Hl.
      rewrite list_lookup_middle in Hi by lia. congruence.
    - apply lookup_lt_Some in Hi as Hlt. destruct (lookup_lt_is_Some_2 segs (S i)) as [g Hg]; [lia|].
      destruct (Hfl _ _ Hg). eapply (Hlater (S i)); [lia|by apply lookup_app_l_Some]. }
  rewrite no_lines in Hn.
  2: { apply Forall_lookup. intros j g Hg. apply (Hlater (length segs + j)%nat); [apply lookup_lt_Some in Hi; lia|].
    by rewrite lookup_app_r, Nat.add_comm, Nat.add_sub by lia. }
  pose proof (jr_segs _ _ _ _ _ _ _ _ Hr) as Hchain. rewrite Hseg in Hchain. apply sealed_chain_snoc in Hchain as (number & segment & Hk & Hle & Hm).
  exists number, segment. split_and!; [done|done|cbn in Hn; lia|].
  eapply (jr_readable _ _ _ _ _ _ _ _ Hr); [|exact Hk]. by eapply list_elem_of_lookup_2.
Qed.

(** What a cached tail of this file says. *)
Lemma cached_tail s f event : caches_true s →
  (t ← as_tail s; if same_files [jt_file t] [f] then Some (jt_event t) else None) = Some event →
  tail_true {| jt_file := f; jt_event := event |}.
Proof.
  intros Hc Ht. apply bind_Some in Ht as (t & Ht & Hs). destruct (same_files _ _) eqn:Es; [|done]. injection Hs as <-.
  apply same_identifies in Es. injection Es as <-. pose proof (ct_tail _ Hc t Ht) as Htrue. by destruct t.
Qed.

Lemma read_last_ok s stored segs plains m n :
  journal_rep cid good (as_files s) stored segs plains m n → caches_true s → tail_readable s →
  ∃ s' last_event, read_last_event_in cid same_files (as_files s) s = (s', Ok (last_event, true)) ∧ caches_true s' ∧ reads_only s s' ∧
    match last_event with Some event => sequence event | None => 0 end = n.
Proof.
  intros Hr Hc Ht. unfold tail_readable in Ht. unfold read_last_event_in. pose proof (last_filled_spec (as_files s)) as Hspec.
  pose proof (jr_files _ _ _ _ _ _ _ _ Hr) as Hfiles.
  destruct (last_filled (as_files s)) as [[i f]|].
  2: { eexists _, _. split; [done|]. split_and!; [done|by split|]. rewrite Hfiles in Hspec. apply Forall_app in Hspec as [Hs Hp].
    pose proof (jr_last _ _ _ _ _ _ _ _ Hr) as Hn. rewrite no_lines in Hn by done.
    pose proof (jr_segs _ _ _ _ _ _ _ _ Hr) as Hm. pose proof (jr_filled _ _ _ _ _ _ _ _ Hr) as Hfl.
    destruct segs as [|g segs]; [simpl in *; lia|]. apply Forall_cons_1 in Hs as [Hs _], Hfl as [Hfl _]. done. }
  destruct Hspec as (Hi & Hne & Hlater). rewrite Hfiles in Hi, Hlater.
  destruct (as_tail s ≫= _) as [event|] eqn:Htail; [pose proof (cached_tail _ _ _ Hc Htail) as Htrue; unfold tail_true in Htrue; cbn [jt_file jt_event] in Htrue|];
    apply lookup_app_Some in Hi as [Hi|[Hge Hi]].
  1, 3: destruct (last_is_segment _ _ _ _ _ _ _ _ Hr Hi Hlater) as (number & segment & Hk & Hle & -> & Hread);
    destruct (read_segment_ok s f number segment stored Hc Hk Hread Hle) as (s' & Hrd & Hc' & Hro & Hs); rewrite Hk in *.
  3, 4: destruct (rep_plain_tail _ _ _ _ _ _ _ _ Hr Hi Hne) as (line & Hl & Hpos & Hrec);
    [intros j g Hj Hg; apply (Hlater (length segs + j)%nat); [lia|]; by rewrite lookup_app_r, Nat.add_comm, Nat.add_sub by lia|];
    specialize (Hrec false); assert (is_plain f = true) as Hp
      by (apply po_plain; eapply Forall_lookup_1; [apply (jr_plain _ _ _ _ _ _ _ _ Hr)|done]).
  - rewrite (Htrue stored Hread Hle). eexists _, _. split; [done|]. split_and!; [done|by split|exact Hs].
  - unfold mbind, M_bind. rewrite Hrd. eexists _, _. by split.
  - assert (decode_journal_record line cid = Ok event) as Hd.
    { unfold is_plain, is_sealed_segment in Hp. destruct (jf_kind f); [done|..]; destruct Htrue as (l' & Hl' & Hd); congruence. }
    destruct Hrec as (Hd' & Hs & _). rewrite Hd in Hd'. injection Hd' as ->. eexists _, _. split; [done|]. split_and!; [done|by split|done].
  - assert (short_tail (jf_data f)) as Hshort.
    { destruct Ht as [(t & Ht' & Hsame)|[Hsealed|?]]; [|unfold is_plain in Hp; by rewrite Hsealed in Hp|done].
      rewrite Ht' in Htail. cbn in Htail. by rewrite Hsame in Htail. }
    assert (read_plain_tail cid (jf_data f) = Ok (Some (stored false n), true)) as Htl.
    { eapply read_plain_tail_ok; [done|exact Hl|]. destruct Hrec as (? & Hs & ?). by rewrite Hs. }
    unfold is_plain, is_sealed_segment in Hp. destruct (jf_kind f); [done|..]; rewrite Htl; eexists _, _; (split; [done|]);
      (split_and!; [done|by split|apply Hrec]).
Qed.

(** ** The records of a batch *)

Lemma normalized_visible t : t ≠ "" → normalized_event_type t ≠ "".
Proof. intros Ht. unfold normalized_event_type. by repeat (case_match; [done|]). Qed.
Lemma new_event_storable e manifest i entry :
  validate_event_type entry.1 = Ok tt → time_in_range (ae_clock e i) = true → storable (new_event cid e manifest i entry).
Proof.
  intros Hv Ht. split; [done| |].
  - cbn. unfold truncate_to_micros, from_timestamp_micros. pose proof (time_truncates _ Ht) as E. by rewrite E.
  - cbn. intros [= E]. apply (normalized_visible entry.1); [|done]. intros E'. rewrite E' in Hv. done.
Qed.
Lemma seal_event_form event kid key sealed : seal_event event kid key = Ok sealed →
  ∃ x, sealed = with_payload event (object_value (<[ENCRYPTED_FIELD := object_value x]> (envelope_fields (event_type event) (payload event)))).
Proof. unfold seal_event. intros Hs. res_inv. by eexists. Qed.
Lemma stored_record_at event key record :
  storable event → conversation_id event = cid → validate_event_type (event_type event) = Ok tt →
  stored_record event (Some key) = Ok record →
  record.2 = encode_record record.1 ∧ event_type record.1 = event_type event ∧ record_at cid (sequence event) record.2 record.1.
Proof.
  intros Hs Hcid Hv Hr. unfold stored_record in Hr. destruct key as [[kid key] mac].
  destruct (seal_event _ kid key) as [sealed|] eqn:Hseal; [|done]. cbn in Hr. injection Hr as <-. apply seal_event_form in Hseal as [x ->].
  split; [done|]. split; [done|]. split_and!; [|done|].
  - rewrite <-Hcid. set (clear := with_payload event _). apply (line_decodes (with_payload clear _)); [by destruct Hs|]. right. by eexists _, _.
  - unfold validate_event. destruct Hs as [Hschema _ _]. cbn [fst with_payload schema_version conversation_id sequence event_type].
    rewrite Hschema, Hcid, N.eqb_refl, String.eqb_refl, N.eqb_refl. cbn [negb orb]. destruct (one_of _ _); done.
Qed.

(** A batch that can be journalled: known types, a clock in range. *)
Definition batch_ok (e : AppendEnv (W := W)) (entries : list (string * Value)) : Prop :=
  Forall (λ entry, validate_event_type entry.1 = Ok tt) entries ∧ ∀ i, time_in_range (ae_clock e i) = true.

Lemma prepared_types entries prepared : map_result prepare_entry entries = Ok prepared →
  length prepared = length entries ∧ prepared.*1 = entries.*1.
Proof.
  intros Hp%map_result_Forall2. split; [symmetry; by eapply Forall2_length|].
  induction Hp as [|entry p entries prepared Hp _ IH]; [done|]. rewrite !fmap_cons, IH. f_equal. unfold prepare_entry in Hp. res_inv. done.
Qed.
(** The records a write adds to a log of [n]. *)
Definition new_records (n : N) (records : list (ConversationEvent * bytes)) : Prop :=
  Forall (λ x, clean_line x.2) records ∧ n + N.of_nat (length records) ≤ U64_MAX ∧
  ∀ i x, records !! i = Some x → sequence x.1 = n + 1 + N.of_nat i ∧ record_at cid (n + 1 + N.of_nat i) x.2 x.1.

Lemma batch_records e entries prepared manifest key stored_records n :
  batch_ok e entries → map_result prepare_entry entries = Ok prepared → m_last_sequence manifest = n →
  n + N.of_nat (length entries) ≤ U64_MAX →
  map_result (λ event, stored_record event (Some key)) (imap (new_event cid e manifest) prepared) = Ok stored_records →
  new_records n stored_records ∧ event_type <$> stored_records.*1 = entries.*1.
Proof.
  intros [Ht Hclock] Hp Hm Hmax Hs. destruct (prepared_types _ _ Hp) as [Hlen Htypes]. apply map_result_Forall2 in Hs.
  pose proof (Forall2_length _ _ _ Hs) as Hlen'. rewrite length_imap in Hlen'.
  assert (∀ i x, stored_records !! i = Some x → x.2 = encode_record x.1 ∧ entries.*1 !! i = Some (event_type x.1) ∧
    sequence x.1 = n + 1 + N.of_nat i ∧ record_at cid (n + 1 + N.of_nat i) x.2 x.1) as Hrec.
  { intros i x Hx. destruct (Forall2_lookup_r _ _ _ _ _ Hs Hx) as (event & He & Hst). rewrite list_lookup_imap in He.
    apply fmap_Some in He as (p & Hpi & ->). pose proof (lookup_lt_Some _ _ _ Hpi) as Hlt.
    assert (entries.*1 !! i = Some p.1) as Hi by (rewrite <-Htypes, list_lookup_fmap, Hpi; done).
    assert (validate_event_type p.1 = Ok tt) as Hv.
    { apply list_lookup_fmap_Some in Hi as (entry & E & Hi). rewrite E. apply (Forall_lookup_1 _ _ _ _ Ht Hi). }
    apply stored_record_at in Hst as (Hline & Htype & Hat); [|by apply new_event_storable|done|done].
    assert (sequence (new_event cid e manifest i p) = n + 1 + N.of_nat i) as Hseq by (cbn; lia). rewrite Hseq in Hat.
    split_and!; [done|by rewrite Htype|apply Hat|done]. }
  split; [split_and!|].
  - apply Forall_lookup. intros i x Hx. destruct (Hrec i x Hx) as (-> & _). apply encoded_clean.
  - lia.
  - intros i x Hx. by destruct (Hrec i x Hx) as (_ & _ & ? & ?).
  - apply list_eq_same_length with (n := length entries); [by rewrite length_fmap|rewrite !length_fmap; lia|].
    intros i x y _ Hx Hy. apply list_lookup_fmap_Some in Hx as (ev & -> & Hx), Hy as (entry & -> & Hy).
    apply list_lookup_fmap_Some in Hx as (rec & -> & Hx). destruct (Hrec i rec Hx) as (_ & Hi & _).
    rewrite list_lookup_fmap, Hy in Hi. by injection Hi as ->.
Qed.

(** ** Rotation *)

Lemma plains_of_rep files stored segs plains m n : journal_rep cid good files stored segs plains m n → Forall (λ f, is_plain f = true) plains.
Proof. intros Hr. eapply Forall_impl; [apply (jr_plain _ _ _ _ _ _ _ _ Hr)|]. by intros f [? _ _ _]. Qed.

(** The same lines under other names, and files that are still empty. *)
Lemma renamed_parts base n plains a g rest :
  jf_data g = jf_data a → Forall (λ f, f = empty_active) rest →
  run_parts base n (plains ++ [g] ++ rest) = run_parts base n (plains ++ [a]).
Proof.
  intros Hd Hr. revert base n. induction plains as [|f plains IH]; intros base n; cbn [app run_parts]; [|by rewrite IH].
  rewrite Hd. f_equal. rewrite ?app_nil_r. generalize (S base), (n + N.of_nat (length (items (jf_data a)))).
  induction Hr as [|h rest -> _ IH]; intros b k; [done|]. cbn [run_parts]. apply IH.
Qed.
Lemma renamed_lines plains a g rest :
  jf_data g = jf_data a → Forall (λ f, f = empty_active) rest → flat_map file_lines (plains ++ [g] ++ rest) = flat_map file_lines (plains ++ [a]).
Proof.
  intros Hd Hr. rewrite !flat_map_app, (no_lines rest); [|eapply Forall_impl; [exact Hr|by intros f ->]].
  cbn [flat_map]. unfold file_lines. by rewrite Hd, app_nil_r.
Qed.

(** Renaming the active file keeps the log and every true cache true. *)
Lemma rep_rotate s stored segs plains m n a number rest :
  journal_rep cid good (as_files s) stored segs plains m n → active_file (as_files s) = Some a → Forall (λ f, f = empty_active) rest →
  let sealed := {| jf_kind := Numbered number; jf_data := jf_data a |} in
  ∃ before, plains = before ++ [a] ∧ removelast (as_files s) = segs ++ before ∧
    journal_rep cid good (removelast (as_files s) ++ [sealed] ++ rest) stored segs (before ++ [sealed] ++ rest) m n.
Proof.
  intros Hr Ha Hrest sealed. pose proof (jr_files _ _ _ _ _ _ _ _ Hr) as Hf. pose proof (chain_kinds _ _ _ (jr_segs _ _ _ _ _ _ _ _ Hr)) as Hk.
  rewrite Hf, active_file_app in Ha by done. apply active_file_Some in Ha as [Hp _]. set (before := removelast plains) in *.
  exists before. assert (removelast (as_files s) = segs ++ before) as Hrem by (rewrite Hf, Hp, app_assoc; apply removelast_last).
  split_and!; [done|done|]. rewrite Hrem, <-app_assoc. pose proof (jr_plain _ _ _ _ _ _ _ _ Hr) as Hpl. rewrite Hp in Hpl.
  apply Forall_app in Hpl as [Hb Hpa]. apply Forall_cons_1 in Hpa as [Hpa _].
  eapply rep_same; [done| |rewrite Hp; by apply renamed_lines].
  apply Forall_app. split; [done|]. apply Forall_app. split.
  - constructor; [|constructor]. by apply plain_ok_kind.
  - eapply Forall_impl; [exact Hrest|]. intros f ->. apply plain_ok_empty.
Qed.
Lemma retag_true s stored segs plains m n a number rest :
  journal_rep cid good (as_files s) stored segs plains m n → active_file (as_files s) = Some a → Forall (λ f, f = empty_active) rest →
  let sealed := {| jf_kind := Numbered number; jf_data := jf_data a |} in
  ∀ disk, caches_true s → caches_true (retag same_files (as_files s) (removelast (as_files s) ++ [sealed] ++ rest) (put_files disk s)).
Proof.
  intros Hr Ha Hrest sealed disk Hc. destruct (rep_rotate s _ _ _ _ _ a number rest Hr Ha Hrest) as (before & Hp & Hrem & Hr'). fold sealed in Hr'.
  split; cbn; [| |apply Hc|apply Hc].
  - intros index Hi. destruct (as_index s) as [index0|] eqn:Hidx; [|done]. injection Hi as <-. pose proof (ct_index _ Hc _ Hidx) as Htrue.
    destruct (same_files (ji_files index0) (as_files s)) eqn:Es; [|done]. apply same_identifies in Es.
    exists segs, (before ++ [sealed] ++ rest), m. split_and!; [apply Hr'|apply Hr|by eapply plains_of_rep|]. cbn [ji_parts].
    rewrite (index_true_parts index0 segs plains m Htrue); [|by rewrite Es; apply Hr|apply Hr|by eapply plains_of_rep].
    unfold clean_parts. f_equal. rewrite Hp. symmetry. by apply renamed_parts.
  - intros cached Hd. destruct (as_digest s) as [cached0|] eqn:Hdig; [|done]. injection Hd as <-. pose proof (ct_digest _ Hc _ Hdig) as Htrue.
    destruct (same_files (cd_files cached0) (as_files s)) eqn:Es; [|done]. apply same_identifies in Es. cbn. rewrite Htrue, Es. symmetry.
    by apply digest_renamed.
Qed.

(** The listing [files] leads to the same write as the files on disk. *)
Definition listed files s : Prop := sealed_files files = sealed_files (as_files s) ∧ active_data files = active_data (as_files s).

Lemma caches_same s s' :
  as_index s' = as_index s → as_digest s' = as_digest s → as_tail s' = as_tail s → as_frames s' = as_frames s → caches_true s → caches_true s'.
Proof. intros Hi Hd Ht Hf Hc. split; rewrite ?Hi, ?Hd, ?Ht, ?Hf; apply Hc. Qed.

Lemma record_key_same k s s' r : record_key cid k s = (s', r) → as_files s' = as_files s ∧ (caches_true s → caches_true s').
Proof.
  unfold record_key. destruct (current_key_for _ _ _ _) as [deks answer]. intros [= <- _]. split; [done|]. by apply caches_same.
Qed.

Lemma rotated_listed before number data (kept fresh : bool) : (fresh = true → kept = true) →
  let sealed := {| jf_kind := Numbered number; jf_data := data |} in
  let files := before ++ [sealed] ++ if fresh then [empty_active] else [] in
  let disk := before ++ [sealed] ++ if kept then [empty_active] else [] in
  sealed_files files = sealed_files disk ∧ active_data files = active_data disk.
Proof.
  intros Hk sealed files disk. assert (∀ b : bool, sealed_files (before ++ [sealed] ++ if b then [empty_active] else []) = before ++ [sealed] ∧
      active_data (before ++ [sealed] ++ if b then [empty_active] else []) = []) as Hb.
  { intros b. unfold active_data, sealed_files, active_file. rewrite app_assoc. destruct b; [|by rewrite app_nil_r, last_snoc].
    rewrite last_snoc. cbn. by rewrite removelast_last. }
  unfold files, disk. by destruct (Hb fresh) as [-> ->], (Hb kept) as [-> ->].
Qed.

(** The files, the log and the caches after the active file was renamed. *)
Lemma rotated_ok e (expiring kept fresh : bool) key s s' r stored segs plains m n a number :
  journal_rep cid good (as_files s) stored segs plains m n → caches_true s → active_file (as_files s) = Some a → (fresh = true → kept = true) →
  let sealed := {| jf_kind := Numbered number; jf_data := jf_data a |} in
  let disk := removelast (as_files s) ++ [sealed] ++ if kept then [empty_active] else [] in
  let files := removelast (as_files s) ++ [sealed] ++ if fresh then [empty_active] else [] in
  let s1 := retag same_files (as_files s) files (put_files disk s) in
  (if expiring then (s1, Ok (files, true, key))
   else (key ← record_key cid (ae_next_key e); mret (files, true, key)) (put_deks (Dek.rotate cid (as_deks s1)) s1)) = (s', r) →
  (∃ plains', journal_rep cid good (as_files s') stored segs plains' m n) ∧ caches_true s' ∧
  ∀ files t key', r = Ok (files, t, key') → t = true ∧ listed files s'.
Proof.
  intros Hr Hc Ha Hkf sealed disk files s1 Hrun.
  assert (∀ b : bool, Forall (λ f, f = empty_active) (if b then [empty_active] else [])) as Hrest by (intros []; repeat constructor).
  destruct (rep_rotate s _ _ _ _ _ a number _ Hr Ha (Hrest kept)) as (before & _ & _ & Hr').
  pose proof (retag_true s _ _ _ _ _ a number _ Hr Ha (Hrest fresh) disk Hc) as Hc'.
  destruct (rotated_listed (removelast (as_files s)) number (jf_data a) kept fresh Hkf) as [Hl1 Hl2]. destruct expiring.
  - injection Hrun as <- <-. split_and!; [by eexists|exact Hc'|]. intros ? ? ? [= <- <- _]. by split.
  - unfold mbind, M_bind in Hrun. destruct (record_key cid (ae_next_key e) _) as [s2 rk] eqn:Hrk.
    apply record_key_same in Hrk as [Hf2 Hc2]. assert (as_files s2 = disk) as Hd by done.
    assert (caches_true s2) as Hc3 by (apply Hc2; by apply (caches_same s1)).
    destruct rk as [key2|]; injection Hrun as <- <-; rewrite Hd; (split_and!; [by eexists|done|]); [|done].
    intros ? ? ? [= <- <- _]. split; [done|]. unfold listed. by rewrite Hd.
Qed.
(** What the rotation of a whole file leaves: the log, and a listing that leads
    to the same write as the disk. *)
Lemma rotate_ok e expiring key s s' r stored segs plains m n :
  journal_rep cid good (as_files s) stored segs plains m n → caches_true s → (expiring = true → active_file (as_files s) ≠ None) →
  rotate_if_due cid same_files journal_segment_bytes e expiring (as_files s) true key s = (s', r) →
  (∃ plains', journal_rep cid good (as_files s') stored segs plains' m n) ∧ caches_true s' ∧
  ∀ files t key', r = Ok (files, t, key') → t = true ∧ listed files s'.
Proof.
  intros Hr Hc Hexp Hrot. unfold rotate_if_due in Hrot.
  assert (∀ files t key', Ok (E := AppError) (as_files s, true, key) = Ok (files, t, key') → t = true ∧ listed files s) as Hsame.
  { by intros files t key' [= <- <- _]. }
  destruct (expiring || _) eqn:Hdue; [|injection Hrot as <- <-; split_and!; [by eexists|done|exact Hsame]].
  assert (∃ a, active_file (as_files s) = Some a) as [a Ha].
  { destruct (active_file (as_files s)) as [a|]; [by eexists|]. destruct expiring; [by destruct Hexp|done]. }
  apply active_file_Some in Ha as Ha'. destruct Ha' as [Hfiles _].
  unfold rotate_journal in Hrot. rewrite Hfiles, last_snoc, removelast_last, <-Hfiles in Hrot.
  assert (put_files (as_files s) s = s) as Hput by by destruct s. rewrite Hput in Hrot. cbn [jf_data] in Hrot.
  destruct (ae_rotate e) as [error| |kept].
  - injection Hrot as <- <-. split_and!; [by eexists|done|exact Hsame].
  - by eapply (rotated_ok e expiring true true).
  - by eapply (rotated_ok e expiring kept false).
Qed.

(** ** The write *)

Lemma extended_sealed new files : sealed_files (extended new files) = sealed_files files.
Proof. unfold extended, sealed_files at 1, active_file. rewrite last_snoc. cbn. by rewrite removelast_last. Qed.
Lemma extended_active new files : active_data (extended new files) = active_data files ++ journal_of_lines new.
Proof. unfold extended, active_data at 1, active_file. by rewrite last_snoc. Qed.
Lemma extended_twice new files : extended new (extended [] files) = extended new files.
Proof. unfold extended at 1. rewrite extended_sealed, extended_active. unfold journal_of_lines at 1. by rewrite app_nil_r. Qed.
(** The listing with its active file, as a write of nothing would leave it. *)
Lemma listing_extended files s : listed files s →
  match active_file files with Some _ => files | None => files ++ [empty_active] end = extended [] (as_files s).
Proof.
  intros [Hs Hd]. unfold extended. rewrite <-Hs, <-Hd. unfold sealed_files, active_data. destruct (active_file files) as [f|] eqn:Ha; [|done].
  apply active_file_Some in Ha as [E Hf]. rewrite E at 1. do 2 f_equal. unfold journal_of_lines. cbn. rewrite app_nil_r.
  unfold is_active in Hf. destruct f as [k data]. cbn in *. by destruct k.
Qed.

Lemma rep_active files stored segs plains m n : journal_rep cid good files stored segs plains m n → terminated (active_data files).
Proof.
  intros Hr. rewrite (jr_files _ _ _ _ _ _ _ _ Hr). unfold active_data. rewrite active_file_app by (eapply chain_kinds, Hr).
  apply (po_terminated _ (active_plain_ok plains (jr_plain _ _ _ _ _ _ _ _ Hr))).
Qed.
Lemma warmed_index index files stored segs plains m n records :
  journal_rep cid good files stored segs plains m n → new_records n records → index_true index →
  index_true (warm_index same_files (extended [] files) (extended records.*2 files) (pred (length (extended [] files)))
    (layout sequence (length (active_data files)) records).2 index).
Proof.
  intros Hr (Hc & Hmax & Hrec) Ht. unfold warm_index. destruct (same_files _ _) eqn:Es; [|done]. apply same_identifies in Es.
  pose proof (chain_kinds _ _ _ (jr_segs _ _ _ _ _ _ _ _ Hr)) as Hk. pose proof (jr_files _ _ _ _ _ _ _ _ Hr) as Hf.
  pose proof (jr_plain _ _ _ _ _ _ _ _ Hr) as Hpl. pose proof (jr_last _ _ _ _ _ _ _ _ Hr) as Hn.
  assert (active_data files = active_data plains) as Hd by (unfold active_data; by rewrite Hf, active_file_app).
  rewrite Hf, !extended_app in * by done. rewrite <-Hf in *.
  assert (∀ new, Forall clean_line new → Forall (λ f, is_plain f = true) (extended new plains)) as Hp.
  { intros new Hnew. eapply Forall_impl; [apply (extended_lines new plains Hnew Hpl)|]. by intros f [? _ _ _]. }
  pose proof (index_true_parts _ _ _ _ Ht Es (jr_segs _ _ _ _ _ _ _ _ Hr) (Hp [] ltac:(constructor))) as Hparts.
  assert (Forall clean_line records.*2) as Hc2 by by apply Forall_fmap.
  exists segs, (extended records.*2 plains), m. split_and!; [done|apply Hr|by apply Hp|]. cbn [ji_parts].
  assert (pred (length (segs ++ extended [] plains)) = length segs + length (sealed_files plains))%nat as ->
    by (unfold extended; rewrite !length_app; simpl; lia).
  unfold extended at 1 in Hparts. unfold journal_of_lines at 1 in Hparts. cbn in Hparts. rewrite app_nil_r in Hparts. rewrite Hd.
  apply (warm_parts sequence index segs (sealed_files plains) {| jf_kind := Active; jf_data := active_data plains |} m records Hparts); [|done|].
  - rewrite <-Hd. by eapply rep_active.
  - intros x Hx. destruct (Hrec _ _ Hx) as [-> _]. rewrite flat_map_app. cbn [flat_map].
    rewrite (sealed_lines plains), length_app in Hn. unfold file_lines at 2. cbn [jf_data]. rewrite app_nil_r, length_app. lia.
Qed.
Lemma new_records_decode n records : new_records n records →
  Forall2 (λ line event, decode_journal_record line cid = Ok event) records.*2 records.*1.
Proof.
  intros (_ & _ & Hrec). apply Forall2_fmap, Forall2_same_length_lookup_2; [done|]. intros i x y Hx Hy. rewrite Hx in Hy. injection Hy as <-.
  by destruct (Hrec i x Hx) as [_ [? _]].
Qed.
Lemma warmed_digest cached cached' files stored segs plains m n records :
  journal_rep cid good files stored segs plains m n → new_records n records →
  cd_digest cached = journal_digest cid segment_digest (cd_files cached) →
  warm_digest same_files (extended [] files) (extended records.*2 files) records.*1 cached = Some cached' →
  cd_digest cached' = journal_digest cid segment_digest (cd_files cached').
Proof.
  intros Hr Hnew Hc Hw. unfold warm_digest in Hw. destruct (same_files _ _) eqn:Es; [|done]. injection Hw as <-. apply same_identifies in Es.
  cbn. rewrite Hc, Es. symmetry. rewrite <-extended_twice. apply digest_extended; [|by apply Forall_fmap, Hnew|by eapply new_records_decode].
  rewrite extended_active. unfold journal_of_lines. cbn. rewrite app_nil_r. by eapply rep_active.
Qed.
Lemma written_tail files stored segs plains m n records event line :
  journal_rep cid good files stored segs plains m n → new_records n records → last records = Some (event, line) →
  tail_true {| jt_file := {| jf_kind := Active; jf_data := active_data files ++ journal_of_lines records.*2 |}; jt_event := event |}.
Proof.
  intros Hr Hnew Hl. exists line. pose proof Hnew as (Hc & _ & Hrec). split.
  - unfold file_lines. cbn [jt_file jf_data]. rewrite items_app, fmap_app by by eapply rep_active. rewrite <-list_fmap_compose.
    change (snd ∘ _) with (@snd (nat * nat) bytes). rewrite items_of_lines by by apply Forall_fmap. by rewrite last_app, fmap_last, Hl.
  - rewrite last_lookup in Hl. by destruct (Hrec _ _ Hl) as [_ [? _]].
Qed.

Lemma rep_logged files stored segs plains m n : journal_rep cid good files stored segs plains m n →
  journal_rep cid good files (logged stored n []) segs plains m n.
Proof.
  intros Hr. pose proof (rep_lines cid good files stored segs plains m n plains [] [] Hr (jr_plain _ _ _ _ _ _ _ _ Hr)) as Hl.
  rewrite app_nil_r, N.add_0_r, <-(jr_files _ _ _ _ _ _ _ _ Hr) in Hl. apply Hl; [done..|apply Hr|]. by intros i line event ?.
Qed.
Lemma rep_written files stored segs plains m n records :
  journal_rep cid good files stored segs plains m n → new_records n records →
  journal_rep cid good (extended records.*2 files) (logged stored n records.*1) segs (extended records.*2 plains) m
    (n + N.of_nat (length records)).
Proof.
  intros Hr (Hc & Hmax & Hrec). rewrite <-(length_fmap snd records). apply rep_extend; [done|by apply Forall_fmap|by rewrite !length_fmap|
    by rewrite length_fmap|].
  intros i line event Hl He. apply list_lookup_fmap_Some in Hl as (x & -> & Hx), He as (y & -> & Hy).
  rewrite Hx in Hy. injection Hy as <-. by apply Hrec.
Qed.

Lemma last_filled_snoc files f : jf_data f ≠ [] → last_filled (files ++ [f]) = Some (length files, f).
Proof.
  intros Hf. unfold last_filled, enumerate. rewrite imap_app, filter_app, last_app. cbn [imap]. rewrite filter_cons_True by done.
  cbn. by rewrite Nat.add_0_r.
Qed.

(** A write that fails leaves nothing of the batch. *)
Definition cut_back (o : WriteOutcome) : Prop := ∀ k error, o ≠ WriteFailed k false error.

Lemma write_ok e files kid records s s' r stored segs plains m n :
  journal_rep cid good (as_files s) stored segs plains m n → caches_true s → listed files s → new_records n records → cut_back (ae_write e) →
  write_records cid same_files e files true kid records s = (s', r) →
  match r with
  | Ok _ => store_holds s' (logged stored n records.*1) (n + N.of_nat (length records)) ∧ (records ≠ [] → tail_readable s')
  | Err _ => store_holds s' (logged stored n []) n
  end.
Proof.
  intros Hr Hc Hl Hnew Hcut Hw. unfold write_records in Hw. rewrite (listing_extended _ _ Hl) in Hw. cbn [negb andb] in Hw.
  set (disk := as_files s) in *. rewrite Nat.add_0_r in Hw. cbn [app] in Hw.
  assert (last (extended [] disk) = Some {| jf_kind := Active; jf_data := active_data disk ++ [] |}) as Hlast by apply last_snoc.
  rewrite Hlast in Hw. cbn [jf_data] in Hw. rewrite app_nil_r in Hw.
  destruct (layout _ _ _) as [line ranges] eqn:Hlay. assert (line = journal_of_lines records.*2) as Hline.
  { rewrite layout_items in Hlay by apply Hnew. by injection Hlay. }
  unfold append_journal_line in Hw. cbn [as_files note_written] in Hw. fold disk in Hw.
  assert (removelast (extended [] disk) = sealed_files disk) as Hrem by apply removelast_last.
  destruct (ae_write e) as [|error|k cut error] eqn:Ho.
  - injection Hw as <- <-. rewrite Hline. fold (active_data disk). rewrite Hrem. fold (extended records.*2 disk). split.
    + split; [exists segs, (extended records.*2 plains), m; by apply rep_written|].
      split; cbn [put_caches put_files note_written as_index as_digest as_tail as_frames]; [| | |apply Hc].
      * intros index' Hi. apply fmap_Some in Hi as (index & Hi & ->). pose proof (warmed_index index _ _ _ _ _ _ _ Hr Hnew (ct_index _ Hc _ Hi)) as Hw.
        by rewrite Hlay in Hw.
      * intros cached' Hd. apply bind_Some in Hd as (cached & Hd & Hwarm). eapply warmed_digest; [done|exact Hnew|by apply Hc|exact Hwarm].
      * intros t Ht. destruct (last records) as [[event l]|] eqn:El; [|by apply Hc]. injection Ht as <-. by eapply written_tail.
    + intros Hne. unfold tail_readable. cbn [put_caches put_files note_written as_tail as_files].
      unfold extended. rewrite last_filled_snoc by (destruct records as [|x records]; [done|]; rewrite fmap_cons, journal_of_lines_cons;
        cbn; by destruct (active_data disk), x.2).
      left. destruct (last records) as [[event l]|] eqn:El; [|by apply last_None in El].
      eexists. split; [done|]. by apply same_identifies.
  - injection Hw as <- <-. split; [|by split; [..|apply Hc]]. exists segs, plains, m. by apply rep_logged.
  - injection Hw as <- <-. destruct cut; [|by destruct (Hcut k error)]. split; [|by split; [..|apply Hc]].
    fold (active_data disk). exists segs, (extended [] plains), m. pose proof (rep_written disk _ _ _ _ _ [] Hr) as Hrep.
    rewrite N.add_0_r in Hrep. apply Hrep. split_and!; [constructor|rewrite N.add_0_r; apply Hr|by intros i x ?].
Qed.

(** ** The append *)

(** Steps that leave the journal and its caches alone. *)
Record same_journal s s' : Prop := {
  sj_files : as_files s' = as_files s;
  sj_index : as_index s' = as_index s;
  sj_digest : as_digest s' = as_digest s;
  sj_tail : as_tail s' = as_tail s;
  sj_frames : as_frames s' = as_frames s;
}.
Lemma same_caches s s' : same_journal s s' → caches_true s → caches_true s'.
Proof. intros [_ ? ? ? ?]. by apply caches_same. Qed.
Lemma same_holds s s' stored n : same_journal s s' → store_holds s stored n → store_holds s' stored n.
Proof. intros Hs [Hr Hc]. split; [by rewrite (sj_files _ _ Hs)|by eapply same_caches]. Qed.
Lemma same_readable s s' : same_journal s s' → tail_readable s → tail_readable s'.
Proof. intros [Hf _ _ Ht _]. unfold tail_readable. by rewrite Hf, Ht. Qed.

Lemma get_unlocked_same s s' r : get_unlocked s = (s', r) → same_journal s s'.
Proof. unfold get_unlocked. destruct (as_cached s); [|destruct (as_saved s)]; by intros [= <- _]. Qed.
Lemma follow_journal_same s s' manifest last_event r : follow_journal cid manifest last_event s = (s', r) →
  same_journal s s' ∧ ∃ m', r = Ok m' ∧ m_last_sequence m' = match last_event with Some event => sequence event | None => 0 end.
Proof.
  unfold follow_journal. destruct (N.eqb_spec (m_last_sequence manifest) (match last_event with Some event => sequence event | None => 0 end)) as [E|E].
  - intros [= <- <-]. split; [done|]. by eexists.
  - intros [= <- <-]. split; [by destruct (_ <? _)|]. by eexists.
Qed.
Lemma mirror_same e status manifest events s s' r : mirror_manifest e status manifest events s = (s', r) → same_journal s s'.
Proof.
  unfold mirror_manifest, persist_manifest_locked. destruct (last events); [|by intros [= <- _]].
  destruct (bool_decide _); [by intros [= <- _]|]. by destruct (ae_save e); intros [= <- _].
Qed.
Lemma publish_journal (hub : bool) events s : same_journal s ((if hub then publish events else id) s).
Proof. by destruct hub. Qed.
Lemma key_expiring_active e files s : key_expiring cid proactive_seal_min_bytes e files s = true → active_file files ≠ None.
Proof. unfold key_expiring. by destruct proactive_seal_min_bytes, (active_file files). Qed.

(** The log after an append that ended with [r]. *)
Definition appended (stored : bool → N → ConversationEvent) (n : N) (entries : list (string * Value)) s
    (r : result AppError (list ConversationEvent)) : Prop :=
  ∃ events, store_holds s (logged stored n events) (n + N.of_nat (length events)) ∧
    (events = [] ∨ event_type <$> events = entries.*1) ∧
    ∀ new, r = Ok new → new = events ∧ event_type <$> events = entries.*1 ∧ (entries ≠ [] → tail_readable s).
Lemma appended_nothing stored n entries s error : store_holds s stored n → appended stored n entries s (Err error).
Proof.
  intros [(segs & plains & m & Hr) Hc]. exists []. split_and!; [|by left|done]. rewrite N.add_0_r. split; [|done].
  exists segs, plains, m. by apply rep_logged.
Qed.

Lemma commit_ok e files kid records status manifest (hub : bool) entries s s' r stored segs plains m n :
  journal_rep cid good (as_files s) stored segs plains m n → caches_true s → listed files s → new_records n records → cut_back (ae_write e) →
  event_type <$> records.*1 = entries.*1 →
  (_ ← write_records cid same_files e files true kid records;
   _ ← mirror_manifest e status manifest records.*1;
   _ ← updates (if hub then publish records.*1 else id);
   mret records.*1) s = (s', r) →
  appended stored n entries s' r.
Proof.
  unfold updates, mret, M_ret, mbind, M_bind. intros Hr Hc Hl Hnew Hcut Htypes Hrun.
  destruct (write_records cid same_files e files true kid records s) as [s1 rw] eqn:Hw.
  pose proof (write_ok _ _ _ _ _ _ _ _ _ _ _ _ Hr Hc Hl Hnew Hcut Hw) as Hout.
  destruct rw as [[]|error].
  - destruct Hout as [Hholds Htail]. rewrite <-(length_fmap fst records) in Hholds.
    assert (entries ≠ [] → tail_readable s1) as Htail'.
    { intros Hne. apply Htail. intros ->. by destruct entries. }
    destruct (mirror_manifest _ _ _ _ s1) as [s2 rm] eqn:Hm. apply mirror_same in Hm.
    destruct rm as [[]|error]; injection Hrun as <- <-; exists records.*1.
    + pose proof (publish_journal hub records.*1 s2) as Hp. split_and!; [by do 2 (eapply same_holds; [eassumption|])|by right|].
      intros new [= <-]. split_and!; [done|done|]. intros Hne. do 2 (eapply same_readable; [eassumption|]). by apply Htail'.
    + split_and!; [by eapply same_holds|by right|done].
  - injection Hrun as <- <-. exists []. rewrite N.add_0_r. split_and!; [done|by left|done].
Qed.

(** The append up to its key. *)
Lemma append_appended e entries hub s s' r stored n :
  store_holds s stored n → tail_readable s → batch_ok e entries → n + N.of_nat (length entries) ≤ U64_MAX → cut_back (ae_write e) →
  append_batch e entries hub s = (s', r) → appended stored n entries s' r.
Proof.
  intros Hh Ht Hb Hmax Hcut Ha. unfold append_batch_locked, lift_result, asks, throw, mbind at 1 2 3 4 5 6 7 8 9 10, M_bind at 1 2 3 4 5 6 7 8 9 10 in Ha.
  assert (∀ s2 error, (s2, Err error) = (s', r) → store_holds s2 stored n → appended stored n entries s' r) as Hstop.
  { intros s2 error [= <- <-]. apply appended_nothing. }
  destruct (map_result prepare_entry entries) as [prepared|] eqn:Hp; [|by eapply Hstop].
  destruct (path cid) as [[]|]; [|by eapply Hstop].
  destruct (get_unlocked s) as [s1 rg] eqn:Hg; apply get_unlocked_same in Hg as Hs1.
  pose proof (same_holds _ _ _ _ Hs1 Hh) as Hh1. pose proof (same_readable _ _ Hs1 Ht) as Ht1.
  destruct rg as [loaded|]; [|by eapply Hstop]. destruct (m_legacy_plaintext loaded); [by eapply Hstop|].
  destruct Hh1 as [(segs & plains & m & Hr) Hc1].
  destruct (read_last_ok _ _ _ _ _ _ Hr Hc1 Ht1) as (s2 & last_event & Hrl & Hc2 & [Hf2 _ _] & Hn). rewrite Hrl in Ha. rewrite <-Hf2 in Hr.
  destruct (follow_journal cid loaded last_event s2) as [s3 rf] eqn:Hf.
  apply follow_journal_same in Hf as (Hs3 & manifest & -> & Hm). rewrite Hn in Hm.
  cbn [close_torn] in Ha. rewrite <-Hf2, <-(sj_files _ _ Hs3) in Ha. rewrite <-(sj_files _ _ Hs3) in Hr.
  pose proof (same_caches _ _ Hs3 Hc2) as Hc3. set (expiring := key_expiring _ _ _ _ s3) in Ha.
  pose proof (key_expiring_active e (as_files s3) s3) as Hexp. fold expiring in Hexp.
  destruct (record_key cid (ae_key e) s3) as [s4 rk] eqn:Hrk; apply record_key_same in Hrk as [Hf4 Hc4]. specialize (Hc4 Hc3).
  rewrite <-Hf4 in Ha, Hr, Hexp.
  assert (∀ st pl s5, journal_rep cid good (as_files s5) st segs pl m n → caches_true s5 → store_holds s5 st n) as Hholds.
  { intros st pl s5 Hr5 Hc5. split; [by eexists _, _, _|done]. }
  destruct rk as [key0|]; [|eapply Hstop; [exact Ha|by eapply Hholds]].
  destruct (rotate_if_due _ _ _ _ _ _ _ _ s4) as [s5 rr] eqn:Hrot.
  destruct (rotate_ok _ _ _ _ _ _ _ _ _ _ _ Hr Hc4 Hexp Hrot) as ((plains5 & Hr5) & Hc5 & Hok).
  destruct rr as [[[files t] [[kid key] mac]]|]; [|eapply Hstop; [exact Ha|by eapply Hholds]].
  destruct (Hok _ _ _ eq_refl) as [-> Hl].
  destruct (map_result _ (imap _ _)) as [records|] eqn:Hst; [|eapply Hstop; [exact Ha|by eapply Hholds]].
  destruct (batch_records _ _ _ _ _ _ _ Hb Hp Hm Hmax Hst) as [Hnew Htypes]. by eapply commit_ok.
Qed.


(** ** Reading what was appended *)

Section replayed.
Context (copied_file : string → result AppError (option Value)) (backup_name : string) (now : Z) (fresh_id : N → string).
Hypothesis copied_readable : ∀ id, ∃ o, copied_file id = Ok o.
Hypothesis clock_ok : time_in_range (now / 1000 * 1000)%Z = true.

(** The store as a reader of pages finds it. *)
Definition reader_store s : ReplayStore :=
  {| rs_has_manifest := true; rs_journal := {| j_files := as_files s; j_backups := []; j_key_abandoned := false |};
     rs_index := as_index s; rs_cache := as_frames s |}.

(** C5: Appended events are replayed. After an append that returned [new], a client
    that follows the pages from the old end of the log, in either detail and
    with any limit, reads exactly [new], and needs no more pages than events,
    plus one; the index that the append kept warm is used as it is. *)
Theorem appended_events_replay e entries hub s s' new stored n limit detail :
  store_holds s stored n → tail_readable s → batch_ok e entries → n + N.of_nat (length entries) ≤ U64_MAX → cut_back (ae_write e) →
  append_batch e entries hub s = (s', Ok new) → entries ≠ [] →
  ∃ rs', follow cid copied_file backup_name now fresh_id same_files (S (length entries)) limit detail n (reader_store s') = (rs', Ok new).
Proof.
  intros Hh Ht Hb Hmax Hcut Ha Hne. destruct (append_appended _ _ _ _ _ _ _ _ Hh Ht Hb Hmax Hcut Ha) as (events & [Hrep Hc] & _ & Hnew).
  destruct (Hnew _ eq_refl) as (-> & Htypes & _). destruct Hrep as (segs & plains & m & Hr).
  assert (length events = length entries) as Hlen by (apply (f_equal length) in Htypes; by rewrite !length_fmap in Htypes).
  assert (as_files s' ≠ []) as Hfiles.
  { intros E. pose proof (jr_files _ _ _ _ _ _ _ _ Hr) as Hf. rewrite E in Hf. symmetry in Hf. apply app_eq_nil in Hf as [-> ->].
    pose proof (jr_last _ _ _ _ _ _ _ _ Hr) as Hn. pose proof (jr_segs _ _ _ _ _ _ _ _ Hr) as Hm. simpl in Hn, Hm.
    destruct entries; simpl in *; [done|lia]. }
  destruct (rep_whole _ _ _ _ _ _ _ _ Hr Hfiles) as [Hw Hlast].
  assert (store_inputs copied_file now same_files) as Hin.
  { split; [done|done|]. intros files. by apply same_identifies. }
  assert (ready good same_files segs plains m (reader_store s')) as Hready.
  { split_and!; [done|apply Hr|apply Hc|]. cbn. destruct (as_index s') as [index|] eqn:Hi; [|done]. intros Es. apply same_identifies in Es.
    apply (index_true_parts index); [by apply Hc|done|apply Hr|by eapply plains_of_rep]. }
  destruct (follow_reads cid good (logged stored n events) copied_file backup_name now fresh_id same_files Hin segs plains m Hw
    (S (length entries)) limit detail n (reader_store s') Hready) as (rs' & Hf & _); [rewrite Hlast; lia..|].
  exists rs'. rewrite Hf, Hlast. do 3 f_equal. replace (N.to_nat (n + N.of_nat (length events) - n)) with (length events) by lia.
  apply logged_span.
Qed.
End replayed.
End refine.
