(* ===== verification/AppendExample.v ===== *)
(** * Appends at work

    The journal of [ReplayExample], appended to: the active file is rotated, the
    batch goes to a fresh one, and a reader gets it back. *)
From S2P Require Import Prelude Bytes Text Channel Json JsonObject Model Digest Summary Recipients Keyring Dek HistoryCrypto Record SegmentIndex SegmentBuilder SegmentRun SegmentContent FrameCache SegmentReader SegmentPlan JournalScan JournalRepair JournalLines JournalRecover JournalConverge JournalValidate JournalFast JournalExample Replay ReplayPages ReplayComplete ReplaySegments ReplayExample Payload Append AppendNonce AppendJournal AppendCaches AppendRefine.
From Stdlib Require Import Strings.Byte ZifyBool.
Local Open Scope N_scope.

Module AppendExample.
Import Jv PlainSerde PlainAead CommaJson ListLru JournalExample ReplayExample.
#[local] Existing Instance HistoryCrypto.Example.toy.
#[local] Existing Instance HistoryCrypto.Example.toy_laws.
#[local] Existing Instance SegmentExample.stored_codec.
#[local] Existing Instance SegmentExample.stored_codec_laws.
#[local] Existing Instance Dek.Example.ids.
#[local] Existing Instance Dek.Example.segment_keys.
#[local] Existing Instance head_visible_dec.
#[local] Existing Instance flush_dec.

#[local] Instance SegmentError_eq_dec : EqDecision SegmentError.
Proof. solve_decision. Defined.
#[local] Instance SealedSegment_eq_dec : EqDecision SealedSegment.
Proof. solve_decision. Defined.
#[local] Instance FileKind_eq_dec : EqDecision FileKind.
Proof. solve_decision. Defined.
#[local] Instance JournalFile_eq_dec : EqDecision JournalFile.
Proof. solve_decision. Defined.
Definition same_files (a b : list JournalFile) : bool := bool_decide (a = b).
Lemma same_identifies a b : same_files a b = true ↔ a = b.
Proof. apply bool_decide_eq_true. Qed.

Definition manifest : ConversationManifest :=
  {| m_provider := Codex; m_owner_id := "owner"; m_status := Idle; m_last_sequence := 5; m_updated_at := 0; m_legacy_plaintext := false |}.
Definition before : AppendStore (W := Registry.World) :=
  {| as_files := [segment; older; active]; as_saved := Ok manifest; as_cached := None; as_index := None; as_digest := None;
     as_tail := None; as_frames := FrameCache_new 1000; as_deks := Dek.Example.start; as_published := []; as_written := [] |}.
Definition key_env (key : string) : KeyEnv (W := Registry.World) := {| ke_call := Dek.Example.call 0 key; ke_fingerprint := Ok id |}.
Definition env (o : WriteOutcome) (key : string) : AppendEnv (W := Registry.World) :=
  {| ae_ids _ := "evt"; ae_clock _ := 1759670000123456%Z; ae_now := 0; ae_key := key_env key; ae_next_key := key_env "N";
     ae_close := NewlineWritten; ae_rotate := RotatedFresh; ae_write := o; ae_save := Saved |}.
Definition entries : list (string * Value) :=
  [("message.created", JObj {["content" := JStr "hello"]}); ("turn.started", JObj {["turnId" := JStr "t"]})].
Definition append_at (segment_bytes : N) (o : WriteOutcome) (key : string) :=
  append_batch_locked "c" (λ _, HistoryCrypto.Example.key) same_files segment_bytes None (env o key) entries true.

(** ** The log *)

Definition no_digest (_ : JournalFile) : JournalDigest := digest_default.
Lemma frames_good : good (FrameCache_new 1000).
Proof. split_and!; [|reflexivity|vm_compute; discriminate]. intros k v. unfold coherent. vm_compute. intros Hin. inversion Hin. Qed.
Lemma line_clean n : clean_line (line n).
Proof. apply encoded_clean. Qed.
Lemma older_ok : plain_ok older.
Proof.
  split; [reflexivity| |apply (bool_decide_unpack _); vm_compute; exact I|vm_compute; discriminate].
  right. exists (line 3 ++ [NL] ++ line 4). unfold older. cbn [jf_data]. by rewrite <-!app_assoc.
Qed.
Lemma active_ok : plain_ok active.
Proof.
  split; [reflexivity| |apply (bool_decide_unpack _); vm_compute; exact I|vm_compute; discriminate].
  right. by exists (line 5).
Qed.
Lemma before_rep : journal_rep "c" good (as_files before) stored [segment] [older; active] 3 5.
Proof.
  pose proof journal_whole as [_ Hs Hr _ _ _ _ Hrec]. split; [done|exact Hs| | | | |vm_compute; discriminate|exact Hrec].
  - apply Forall_cons_2; [vm_compute; discriminate|apply Forall_nil_2].
  - intros f number s Hf Hk. destruct (Hr f number s Hf Hk) as [_ Hread]. split; [|exact Hread].
    apply list_elem_of_singleton in Hf as ->. apply (segment_kind 1 number seg s) in Hk. subst s. vm_compute. reflexivity.
  - apply Forall_cons_2; [apply older_ok|]. apply Forall_cons_2; [apply active_ok|apply Forall_nil_2].
  - rewrite plain_lines. reflexivity.
Qed.
Lemma before_holds : store_holds "c" good no_digest before stored 5.
Proof. split; [eexists _, _, _; apply before_rep|]. split; [done..|apply frames_good]. Qed.
Lemma before_readable : tail_readable same_files before.
Proof.
  assert (last_filled (as_files before) = Some (2%nat, active)) as E by (vm_compute; reflexivity). unfold tail_readable. rewrite E.
  right. right. exists [], (line 5). split_and!; [done|by left|apply line_clean|]. vm_compute. discriminate.
Qed.
Lemma entries_ok o key : batch_ok (env o key) entries.
Proof. split; [|done]. repeat constructor. Qed.
Lemma written_cuts_back key : cut_back (ae_write (env Written key)).
Proof. done. Qed.

Lemma copies_readable i : ∃ o, no_copies i = Ok o.
Proof. by eexists. Qed.
Lemma clock_in_range : time_in_range (1000 / 1000 * 1000)%Z = true.
Proof. reflexivity. Qed.

(** The active file is sealed, and the batch goes to a fresh one. *)
Definition outcome := append_at 1 Written "A" before.
Definition after : AppendStore (W := Registry.World) := outcome.1.
Definition new : list ConversationEvent := match outcome.2 with Ok new => new | Err _ => [] end.
Lemma append_returns : append_at 1 Written "A" before = (after, Ok new).
Proof.
  assert (SegmentExample.succeeds outcome.2 = true) as Hs by (vm_compute; reflexivity).
  unfold after, new. change (append_at 1 Written "A" before) with outcome. by destruct outcome as [s [x|e]].
Qed.

Lemma appended_events_replay_witness :
  length new = 2%nat ∧
  ∃ rs', follow "c" no_copies "backup" 1000 JournalExample.ids same_files 3 1 FullDetail 5 (reader_store after) = (rs', Ok new).
Proof.
  split; [vm_compute; reflexivity|].
  apply (appended_events_replay "c" good no_digest (λ _, HistoryCrypto.Example.key) same_files 1 None same_identifies no_copies "backup" 1000
    JournalExample.ids copies_readable clock_in_range (env Written "A") entries true before after new stored 5 1 FullDetail
    before_holds before_readable (entries_ok Written "A")).
  - vm_compute. discriminate.
  - apply written_cuts_back.
  - apply append_returns.
  - done.
Defined.

(** ** Nonces *)

(** A write that is cut back, then the same batch again: the sequences are used
    again, the key is not. *)
Definition failed := (append_at 100000 (WriteFailed 3 true (IoError "disk full")) "A" before).1.
Definition retried := (append_at 100000 Written "B" failed).1.
Lemma tried : as_written retried = [("A", 6); ("A", 7); ("B", 6); ("B", 7)].
Proof. vm_compute. reflexivity. Qed.
Lemma failed_runs : rtc (run_step "c" (λ _, HistoryCrypto.Example.key) same_files 100000 None) before retried.
Proof.
  eapply rtc_l; [|apply rtc_once]; split.
  - eapply (do_append _ _ _ _ _ _ (env (WriteFailed 3 true (IoError "disk full")) "A") entries true failed). apply surjective_pairing.
  - apply (bool_decide_unpack _). vm_compute. exact I.
  - eapply (do_append _ _ _ _ _ _ (env Written "B") entries true retried). apply surjective_pairing.
  - apply (bool_decide_unpack _). vm_compute. exact I.
Qed.

(** ** A repair that does not retire the key *)

(** While the daemon runs, the files are replaced by an older copy, without the
    batch and without the newline of record 5. *)
Definition committed := (append_at 100000 Written "A" before).1.
Definition torn : JournalFile := {| jf_kind := Active; jf_data := line 5 |}.
Definition rolled_back : Journal := {| j_files := [segment; older; torn]; j_backups := []; j_key_abandoned := false |}.
(** The validation adds the newline; the manifest follows the journal. *)
Definition repair := validate_journal "backup" 1000 JournalExample.ids "c" rolled_back.
Definition followed :=
  (follow_repaired_journal_locked "c" same_files (put_files (j_files repair.1) (put_caches None None None committed))).1.
Definition again := (append_at 100000 Written "B" followed).1.

(** A repair that cuts nothing lowers the manifest and keeps the key: the next
    append seals records 6 and 7 again under the key of the first two, which the
    copies of the journal still hold. *)
Lemma repair_reuses_nonce :
  j_files repair.1 = [segment; older; active] ∧ j_key_abandoned repair.1 = false ∧
  as_written again = [("A", 6); ("A", 7); ("A", 6); ("A", 7)].
Proof. split_and!; vm_compute; reflexivity. Qed.
(** Without a repair in between, the append finds the journal shorter and
    retires the key. *)
Lemma append_retires_key :
  as_written (append_at 100000 Written "B" (put_files (as_files before) committed)).1 = [("A", 6); ("A", 7); ("B", 6); ("B", 7)].
Proof. vm_compute. reflexivity. Qed.
End AppendExample.
