(* ===== verification/Base64.v ===== *)
(** * base64url without padding

    An executable [URL_SAFE_NO_PAD] of the base64 crate, with the laws the
    components ask of it: a value for their parameters in the examples. *)
From S2P Require Import Prelude Bytes Text.
From Stdlib Require Import Strings.Byte Ascii ZifyBool ZArith.
Local Open Scope N_scope.
#[local] Ltac Zify.zify_post_hook ::= Z.to_euclidean_division_equations.

Definition sextet_char (n : N) : ascii :=
  ascii_of_N (if n <? 26 then 65 + n else if n <? 52 then 71 + n else if n <? 62 then n - 4 else if n =? 62 then 45 else 95).
Definition char_sextet (c : ascii) : option N :=
  let n := N_of_ascii c in
  if (65 <=? n) && (n <=? 90) then Some (n - 65)
  else if (97 <=? n) && (n <=? 122) then Some (n - 71)
  else if (48 <=? n) && (n <=? 57) then Some (n + 4)
  else if n =? 45 then Some 62 else if n =? 95 then Some 63 else None.
(** A byte of a number below 256. *)
Definition byte_of (n : N) : byte := default Byte.x00 (Byte.of_N n).

Fixpoint b64url_sextets (l : bytes) : list N :=
  match l with
  | [] => []
  | [a] => let n := Byte.to_N a in [n / 4; n mod 4 * 16]
  | [a; b] => let n := Byte.to_N a * 256 + Byte.to_N b in [n / 1024; n / 16 mod 64; n mod 16 * 4]
  | a :: b :: c :: l =>
      let n := Byte.to_N a * 65536 + Byte.to_N b * 256 + Byte.to_N c in
      n / 262144 :: n / 4096 mod 64 :: n / 64 mod 64 :: n mod 64 :: b64url_sextets l
  end.
Fixpoint b64url_bytes (l : list N) : option bytes :=
  match l with
  | [] => Some []
  | [_] => None
  | [s; t] => if t mod 16 =? 0 then Some [byte_of (s * 4 + t / 16)] else None
  | [s; t; u] =>
      let n := s * 1024 + t * 16 + u / 4 in
      if u mod 4 =? 0 then Some [byte_of (n / 256); byte_of (n mod 256)] else None
  | s :: t :: u :: v :: l =>
      let n := s * 262144 + t * 4096 + u * 64 + v in
      rest ← b64url_bytes l; Some (byte_of (n / 65536) :: byte_of (n / 256 mod 256) :: byte_of (n mod 256) :: rest)
  end.
Definition b64url_encode (l : bytes) : string := String.string_of_list_ascii (sextet_char <$> b64url_sextets l).
Definition b64url_decode (s : string) : option bytes := mapM char_sextet (String.list_ascii_of_string s) ≫= b64url_bytes.

Lemma bytes_ind_3 (P : bytes → Prop) :
  P [] → (∀ a, P [a]) → (∀ a b, P [a; b]) → (∀ a b c l, P l → P (a :: b :: c :: l)) → ∀ l, P l.
Proof. intros Hnil H1 H2 H3. fix rec 1. intros [|a [|b [|c l]]]; [done|apply H1|apply H2|apply H3, rec]. Qed.

Lemma byte_of_to b n : n = Byte.to_N b → byte_of n = b.
Proof. intros ->. unfold byte_of. by rewrite Byte.of_to_N. Qed.
Lemma sextets_small l : Forall (λ n, n < 64) (b64url_sextets l).
Proof.
  induction l as [|a|a b|a b c l IH] using bytes_ind_3; cbn [b64url_sextets]; cbv zeta;
    repeat match goal with |- context [Byte.to_N ?x] => pose proof (Byte.to_N_bounded x); generalize dependent (Byte.to_N x); intros end;
    repeat apply Forall_cons_2; try done; try apply Forall_nil_2; lia.
Qed.
Lemma sextets_bytes l : b64url_bytes (b64url_sextets l) = Some l.
Proof.
  induction l as [|a|a b|a b c l IH] using bytes_ind_3; cbn [b64url_sextets]; cbv zeta; [done|..];
    repeat match goal with x : byte |- _ => lazymatch goal with _ : Byte.to_N x <= _ |- _ => fail | _ => pose proof (Byte.to_N_bounded x) end end;
    cbn [b64url_bytes]; cbv zeta; repeat (case_match; [|lia]).
  - do 2 f_equal. apply byte_of_to. lia.
  - do 2 f_equal; [|f_equal]; apply byte_of_to; lia.
  - rewrite IH. cbn. do 2 f_equal; [|f_equal; [|f_equal]]; apply byte_of_to; lia.
Qed.
Lemma char_sextet_char n : n < 64 → char_sextet (sextet_char n) = Some n ∧ printable (N_of_ascii (sextet_char n)) = true.
Proof.
  intros Hn. assert (Forall (λ n, char_sextet (sextet_char (N.of_nat n)) = Some (N.of_nat n) ∧ printable (N_of_ascii (sextet_char (N.of_nat n))) = true) (seq 0 64)) as Hall.
  { apply (bool_decide_unpack _). by vm_compute. }
  rewrite Forall_forall in Hall. specialize (Hall (N.to_nat n)). rewrite N2Nat.id in Hall. apply Hall, elem_of_seq. lia.
Qed.

Lemma b64url_decode_encode l : b64url_decode (b64url_encode l) = Some l.
Proof.
  unfold b64url_decode, b64url_encode. rewrite String.list_ascii_of_string_of_list_ascii.
  assert (mapM char_sextet (sextet_char <$> b64url_sextets l) = Some (b64url_sextets l)) as ->; [|apply sextets_bytes].
  apply mapM_Some. rewrite Forall2_fmap_l. apply Forall2_same_length_lookup_2; [done|].
  intros i x y Hx Hy. assert (x = y) as <- by congruence. apply char_sextet_char. by eapply (Forall_lookup_1 (λ n, n < 64)); [apply sextets_small|].
Qed.
Lemma b64url_printable l : Forall (λ n, printable n = true) (codes (b64url_encode l)).
Proof.
  unfold codes, b64url_encode. rewrite String.list_ascii_of_string_of_list_ascii, !Forall_fmap.
  eapply Forall_impl; [apply sextets_small|]. intros n Hn. by apply char_sextet_char.
Qed.
Lemma b64url_length l : (String.length (b64url_encode l) = (8 * length l + 5) / 6)%nat.
Proof.
  assert (length (b64url_sextets l) = (8 * length l + 5) / 6)%nat as Hl.
  { induction l as [|a|a b|a b c l IH] using bytes_ind_3; [done..|]. cbn [b64url_sextets length]. rewrite IH.
    replace (8 * S (S (S (length l))) + 5)%nat with (8 * length l + 5 + 4 * 6)%nat by lia. rewrite Nat.div_add by done. cbn [length]. lia. }
  rewrite <-Hl. unfold b64url_encode. generalize (b64url_sextets l). intros k. induction k as [|n k IH]; [done|]. cbn. by f_equal.
Qed.
