(* ===== verification/ApiKeys.v ===== *)
(** * API keys

    Model of src/src/api_keys.rs and of the authentication of the external API
    (src/src/server/api/auth.rs): the key file [api-keys.json], which the daemon,
    the command line and the terminal interface all write, each with a copy of
    it and the stamp of the version it was read from. A read-modify-write holds
    the cross-process lock, so each call is one step of the process that makes
    it ([View]) and of the world ([KeyWorld]). As in [Devices] the JSON text is
    the parsed file and its length ([keys_file_bytes]), and clocks and the
    answers of the operating system are arguments ([ApiEnv]). The mutex of a
    process is never poisoned. *)
From S2P Require Import Prelude Bytes Text Channel Query DeviceAuth Devices Json JsonObject Model Digest Summary Recipients Keyring Dek HistoryCrypto Record SegmentIndex.
From stdpp Require Import pretty.
From Stdlib Require Import Strings.Byte Ascii ZifyBool.
Local Open Scope N_scope.

Definition KEYS_MAX_FILE_BYTES : N := 1024 * 1024.
Definition MAX_ACTIVE_KEYS : N := 256.
Definition KEYS_MAX_RECORDS : N := 1024.
Definition KEY_PREFIX : string := "tdx_".
Definition ID_HEX_LEN : nat := 16.
Definition SECRET_LEN : nat := 32.
Definition SECRET_TEXT_LEN : nat := 43.
Definition MAX_NAME_CHARS : nat := 100.
Definition MAX_SCOPE_WORKSPACES : nat := 64.
Definition OWNER_PREFIX : string := "apikey:".
Definition AUTH_HASH_LABEL : bytes := ascii_bytes "todex-apikey-v1/auth" ++ [Byte.x00].
(** Milliseconds. *)
Definition USE_FLUSH_INTERVAL : N := 60000.

Inductive ApprovalPolicy : Type := Ask | AutoApprove | Reject.

(** ** Scopes *)

#[export] Instance Provider_eq_dec : EqDecision ProviderKind.
Proof. solve_decision. Defined.
Record ApiKeyScopes : Type := { sc_agents : option (list ProviderKind); sc_workspaces : option (list string) }.

(** [Path::is_absolute], and the components [Path::starts_with] compares: a dot
    is one only at the start of a relative path. *)
Definition path_is_absolute (path : string) : bool := starts_with "/" path.
Definition path_components (path : string) : list string :=
  let names := filter (λ c, c ≠ "" ∧ c ≠ ".") in
  match split_char "/" path with
  | "." :: l => "." :: names l
  | l => names l
  end.
Fixpoint is_prefix_of (l1 l2 : list string) : bool :=
  match l1, l2 with
  | [], _ => true
  | x :: l1, y :: l2 => String.eqb x y && is_prefix_of l1 l2
  | _ :: _, [] => false
  end.
Definition path_starts_with (path base : string) : bool :=
  Bool.eqb (path_is_absolute path) (path_is_absolute base) && is_prefix_of (path_components base) (path_components path).

Definition allows_agent (self : ApiKeyScopes) (agent : ProviderKind) : bool :=
  match sc_agents self with None => true | Some agents => bool_decide (agent ∈ agents) end.
(** [canonicalize] is [fs::canonicalize], when it succeeds. *)
Definition allows_workspace (canonicalize : string → option string) (self : ApiKeyScopes) (workspace : string) : bool :=
  match sc_workspaces self with
  | None => true
  | Some scopes => existsb (λ scope, path_starts_with workspace (default scope (canonicalize scope))) scopes
  end.
Definition scopes_validate (self : ApiKeyScopes) : result AppError unit :=
  _ ← guard_err (match sc_agents self with Some [] => false | _ => true end)
        (InvalidRequest "scopes.agents must name at least one agent");
  match sc_workspaces self with
  | None => Ok tt
  | Some workspaces =>
      _ ← guard_err (negb (bool_decide (workspaces = [])) && (length workspaces <=? MAX_SCOPE_WORKSPACES)%nat)
            (InvalidRequest ("scopes.workspaces must list 1 to " +:+ pretty MAX_SCOPE_WORKSPACES +:+ " paths"));
      guard_err (forallb path_is_absolute workspaces) (InvalidRequest "scopes.workspaces must be absolute paths")
  end.

(** ** Records *)

Record ApiKeyRecord : Type := {
  ak_id : string;
  ak_name : string;
  ak_secret_hash : string;
  ak_history_public_key : string;
  ak_scopes : ApiKeyScopes;
  ak_approval : ApprovalPolicy;
  ak_created_at : N;
  ak_expires_at : option N;
  ak_last_used_at : option N;
  ak_revoked_at : option N;
}.
Definition owner_id (self : ApiKeyRecord) : string := OWNER_PREFIX +:+ ak_id self.
Definition key_prefix (self : ApiKeyRecord) : string := KEY_PREFIX +:+ ak_id self.
Definition key_is_active (now : N) (self : ApiKeyRecord) : bool :=
  match ak_revoked_at self with
  | Some _ => false
  | None => match ak_expires_at self with Some expires => now <? expires | None => true end
  end.
Definition key_status (now : N) (self : ApiKeyRecord) : string :=
  match ak_revoked_at self with
  | Some _ => "revoked"
  | None => if key_is_active now self then "active" else "expired"
  end.

Record NewApiKey : Type := {
  nk_name : string; nk_scopes : ApiKeyScopes; nk_approval : ApprovalPolicy; nk_expires_at : option N;
}.
(** [Some None] clears the expiry. *)
Record ApiKeyUpdate : Type := {
  up_name : option string; up_scopes : option ApiKeyScopes; up_approval : option ApprovalPolicy;
  up_expires_at : option (option N);
}.
Record AuthenticatedKey : Type := { au_record : ApiKeyRecord; au_seed : bytes }.

Definition mark_used (now : N) (r : ApiKeyRecord) : ApiKeyRecord :=
  {| ak_id := ak_id r; ak_name := ak_name r; ak_secret_hash := ak_secret_hash r;
     ak_history_public_key := ak_history_public_key r; ak_scopes := ak_scopes r; ak_approval := ak_approval r;
     ak_created_at := ak_created_at r; ak_expires_at := ak_expires_at r; ak_last_used_at := Some now;
     ak_revoked_at := ak_revoked_at r |}.
Definition mark_key_revoked (now : N) (r : ApiKeyRecord) : ApiKeyRecord :=
  {| ak_id := ak_id r; ak_name := ak_name r; ak_secret_hash := ak_secret_hash r;
     ak_history_public_key := ak_history_public_key r; ak_scopes := ak_scopes r; ak_approval := ak_approval r;
     ak_created_at := ak_created_at r; ak_expires_at := ak_expires_at r; ak_last_used_at := ak_last_used_at r;
     ak_revoked_at := Some now |}.

(** ** The file and a process's copy *)

Record KeysFile : Type := { kf_version : N; kf_keys : gmap string ApiKeyRecord }.
Record KeysDiskFile : Type := { kd_regular : bool; kd_owner_only : bool; kd_stamp : FileStamp; kd_json : option KeysFile }.
Abbreviation KeysDisk := (option KeysDiskFile).
Definition keys_stamp (d : KeysDisk) : option FileStamp := kd_stamp <$> d.
Record KeysInner : Type := {
  ki_keys : gmap string ApiKeyRecord;
  ki_stamp : option FileStamp;
  ki_dirty : bool;
  ki_last_flush : N;
}.
Record View : Type := { v_disk : KeysDisk; v_inner : KeysInner }.
Definition put_inner (f : KeysInner → KeysInner) (v : View) : View := {| v_disk := v_disk v; v_inner := f (v_inner v) |}.
Definition put_keys (keys : gmap string ApiKeyRecord) (i : KeysInner) : KeysInner :=
  {| ki_keys := keys; ki_stamp := ki_stamp i; ki_dirty := ki_dirty i; ki_last_flush := ki_last_flush i |}.

Record ApiEnv : Type := {
  x_unix_ms : N;
  x_now : N;
  x_locked : bool;
  x_io : option AppError;
  x_modified : option N;
  x_inode : N;
}.

(** ** Texts *)

Definition hex_char (n : N) : ascii := ascii_of_N (if n <? 10 then 48 + n else 87 + n).
Fixpoint id_hex (l : bytes) : string :=
  match l with
  | [] => ""
  | c :: l => let n := Byte.to_N c in String (hex_char (n / 16)) (String (hex_char (n mod 16)) (id_hex l))
  end.
(** [byte.is_ascii_hexdigit() && !byte.is_ascii_uppercase()]. *)
Definition lower_hex_char (c : ascii) : bool :=
  let n := N_of_ascii c in ((48 <=? n) && (n <=? 57)) || ((97 <=? n) && (n <=? 102)).
(** [char::is_control] of some character: U+0000 to U+001F, U+007F to U+009F. *)
Fixpoint has_control (l : list N) : bool :=
  match l with
  | [] => false
  | c :: l =>
      (c <? 32) || (c =? 127) || ((c =? 194) && match l with d :: _ => (128 <=? d) && (d <=? 159) | [] => false end) ||
      has_control l
  end.
Definition validate_key_name (name : string) : result AppError string :=
  let name := trim name in
  if String.eqb name "" || (MAX_NAME_CHARS <? char_count name)%nat || has_control (codes name)
  then Err (InvalidRequest ("API key name must be 1 to " +:+ pretty MAX_NAME_CHARS +:+ " printable characters"))
  else Ok name.

Section store.
Context `{HistoryPrimitives}.
(** The length of [serde_json::to_vec(file)]. *)
Context (keys_file_bytes : KeysFile → N).
Abbreviation K := (M View AppError).

Definition secret_hash (secret : bytes) : string := b64_encode (sha256 (AUTH_HASH_LABEL ++ secret)).

(** A split inside a character leaves no separator after it. *)
Definition parse_token (token : string) : option (string * bytes) :=
  rest ← SegmentIndex.strip_prefix KEY_PREFIX (trim token);
  if (String.length rest <? ID_HEX_LEN)%nat then None
  else
    let id := String.substring 0 ID_HEX_LEN rest in
    secret ← SegmentIndex.strip_prefix "_" (String.substring ID_HEX_LEN (String.length rest - ID_HEX_LEN) rest);
    if negb (forallb lower_hex_char (String.list_ascii_of_string id)) || negb (Nat.eqb (String.length secret) SECRET_TEXT_LEN)
    then None
    else
      secret ← b64_decode secret;
      if Nat.eqb (length secret) SECRET_LEN then Some (id, secret) else None.

(** One round of the loop over the records of a file. *)
Definition valid_key (id : string) (record : ApiKeyRecord) : bool :=
  String.eqb (ak_id record) id && Nat.eqb (String.length id) ID_HEX_LEN &&
  match key_from_base64url (ak_history_public_key record) with Ok _ => true | Err _ => false end.

Definition read_key_records (d : KeysDisk) : result AppError (option (gmap string ApiKeyRecord * option FileStamp)) :=
  match d with
  | None => Ok None
  | Some f =>
      _ ← guard_err (kd_regular f && (fs_len (kd_stamp f) <=? KEYS_MAX_FILE_BYTES)) (InvalidRequest "invalid API key file");
      _ ← guard_err (kd_owner_only f) (InvalidRequest "API key file is not private");
      file ← ok_or (kd_json f) (InvalidRequest "API key file is unreadable");
      _ ← guard_err ((kf_version file =? 1) && (N.of_nat (size (kf_keys file)) <=? KEYS_MAX_RECORDS))
            (InvalidRequest "unsupported API key file");
      _ ← guard_err (bool_decide (map_Forall (λ id r, valid_key id r = true) (kf_keys file)))
            (InvalidRequest "API key file contains an invalid record");
      Ok (Some (kf_keys file, Some (kd_stamp f)))
  end.
(** [read_records(path)?.unwrap_or_default()]. *)
Definition read_keys (d : KeysDisk) : result AppError (gmap string ApiKeyRecord * option FileStamp) :=
  r ← read_key_records d; Ok (default (∅, None) r).

Definition write_key_records (e : ApiEnv) (file : KeysFile) : K FileStamp := λ v,
  match x_io e with
  | Some error => (v, Err error)
  | None =>
      if KEYS_MAX_FILE_BYTES <? keys_file_bytes file then (v, Err (InvalidRequest "API key file is too large"))
      else
        let stamp := {| fs_modified := x_modified e; fs_len := keys_file_bytes file; fs_inode := x_inode e |} in
        ({| v_disk := Some {| kd_regular := true; kd_owner_only := true; kd_stamp := stamp; kd_json := Some file |};
            v_inner := v_inner v |}, Ok stamp)
  end.

Definition ApiKeyStore_load (now : N) (d : KeysDisk) : result AppError KeysInner :=
  r ← read_keys d;
  Ok {| ki_keys := r.1; ki_stamp := r.2; ki_dirty := false; ki_last_flush := now |}.

Definition lock_keys (e : ApiEnv) : K unit :=
  lift_result (guard_err (x_locked e) (InvalidRequest "API key file is locked")).

Definition keys_reload_if_changed : K bool := λ v,
  if bool_decide (keys_stamp (v_disk v) = ki_stamp (v_inner v)) then (v, Ok false)
  else
    match read_keys (v_disk v) with
    | Err e => (v, Err e)
    | Ok (keys, stamp) =>
        (put_inner (λ i, {| ki_keys := keys; ki_stamp := stamp; ki_dirty := false; ki_last_flush := ki_last_flush i |}) v, Ok true)
    end.

Definition keys_write (e : ApiEnv) : K unit := λ v,
  match write_key_records e {| kf_version := 1; kf_keys := ki_keys (v_inner v) |} v with
  | (v, Err error) => (v, Err error)
  | (v, Ok stamp) =>
      (put_inner (λ i, {| ki_keys := ki_keys i; ki_stamp := Some stamp; ki_dirty := false; ki_last_flush := x_now e |}) v, Ok tt)
  end.

(** The write of a flush, under the lock: an external change wins. *)
Definition keys_reload_or_write (e : ApiEnv) : K unit :=
  _ ← lock_keys e;
  changed ← keys_reload_if_changed;
  if (changed : bool) then mret tt else keys_write e.
Definition keys_flush_if_due (e : ApiEnv) (v : View) : View :=
  if negb (ki_dirty (v_inner v)) || (x_now e - ki_last_flush (v_inner v) <? USE_FLUSH_INTERVAL) then v
  else
    match keys_reload_or_write e v with
    | (v, Ok _) => v
    | (v, Err _) =>
        put_inner (λ i, {| ki_keys := ki_keys i; ki_stamp := ki_stamp i; ki_dirty := ki_dirty i; ki_last_flush := x_now e |}) v
    end.

(** [min_by_key(|key| key.revoked_at)]: the first of the least. *)
Definition older_revoked (best : option ApiKeyRecord) (r : ApiKeyRecord) : option ApiKeyRecord :=
  match ak_revoked_at r, best with
  | None, _ => best
  | Some at_, Some b => if default 0 (ak_revoked_at b) <=? at_ then best else Some r
  | Some _, None => Some r
  end.
Definition oldest_revoked (keys : gmap string ApiKeyRecord) : option string :=
  ak_id <$> foldl older_revoked None (btree_iter keys).*2.
(** The number of records is enough fuel. *)
Fixpoint prune_go (fuel : nat) (keys : gmap string ApiKeyRecord) : gmap string ApiKeyRecord :=
  if N.of_nat (size keys) <=? KEYS_MAX_RECORDS then keys
  else
    match fuel, oldest_revoked keys with
    | S fuel, Some oldest => prune_go fuel (delete oldest keys)
    | _, _ => keys
    end.
Definition prune_revoked (keys : gmap string ApiKeyRecord) : gmap string ApiKeyRecord := prune_go (size keys) keys.

(** ** The calls *)

Definition new_key_record (e : ApiEnv) (id : string) (name : string) (secret : bytes) (recipient : RecipientPublicKey)
    (new : NewApiKey) : ApiKeyRecord :=
  {| ak_id := id; ak_name := name; ak_secret_hash := secret_hash secret;
     ak_history_public_key := b64_encode (to_bytes recipient); ak_scopes := nk_scopes new; ak_approval := nk_approval new;
     ak_created_at := x_unix_ms e; ak_expires_at := nk_expires_at new; ak_last_used_at := None; ak_revoked_at := None |}.
Definition insert_key (now : N) (record : ApiKeyRecord) : K unit := λ v,
  let keys := ki_keys (v_inner v) in
  if MAX_ACTIVE_KEYS <=? N.of_nat (length (filter (λ r, key_is_active now r = true) (map_to_list keys).*2))
  then (v, Err (ResourceExhausted "too many active API keys; revoke one first"))
  else (put_inner (put_keys (prune_revoked (<[ak_id record := record]> keys))) v, Ok tt).

(** [id_bytes] and [secret] are drawn from the generator. *)
Definition ApiKeyStore_create (e : ApiEnv) (id_bytes secret : bytes) (new : NewApiKey) : K (ApiKeyRecord * string) :=
  name ← lift_result (validate_key_name (nk_name new));
  _ ← lift_result (scopes_validate (nk_scopes new));
  recipient ← lift_result (recipient_from_seed (api_key_recipient_seed secret));
  _ ← lift_result (guard_err (match nk_expires_at new with Some expires => x_unix_ms e <? expires | None => true end)
        (InvalidRequest "expiresAt must be in the future"));
  let record := new_key_record e (id_hex id_bytes) name secret recipient new in
  _ ← lock_keys e;
  _ ← keys_reload_if_changed;
  _ ← insert_key (x_unix_ms e) record;
  _ ← keys_write e;
  mret (record, KEY_PREFIX +:+ id_hex id_bytes +:+ "_" +:+ b64_encode secret).

(** [sort_by_key], stable. *)
Fixpoint insert_created (r : ApiKeyRecord) (l : list ApiKeyRecord) : list ApiKeyRecord :=
  match l with
  | [] => [r]
  | x :: l => if ak_created_at r <=? ak_created_at x then r :: x :: l else x :: insert_created r l
  end.
Definition ApiKeyStore_list (e : ApiEnv) : K (list ApiKeyRecord) :=
  _ ← keys_reload_if_changed;
  _ ← updates (keys_flush_if_due e);
  keys ← asks (λ v, ki_keys (v_inner v));
  mret (foldr insert_created [] (btree_iter keys).*2).
Definition ApiKeyStore_get (e : ApiEnv) (id : string) : K (option ApiKeyRecord) :=
  _ ← keys_reload_if_changed;
  _ ← updates (keys_flush_if_due e);
  asks (λ v, ki_keys (v_inner v) !! id).

Definition apply_update (update : ApiKeyUpdate) (r : ApiKeyRecord) : result AppError ApiKeyRecord :=
  name ← match up_name update with Some name => validate_key_name name | None => Ok (ak_name r) end;
  scopes ← match up_scopes update with
           | Some scopes => _ ← scopes_validate scopes; Ok scopes
           | None => Ok (ak_scopes r)
           end;
  Ok {| ak_id := ak_id r; ak_name := name; ak_secret_hash := ak_secret_hash r;
        ak_history_public_key := ak_history_public_key r; ak_scopes := scopes;
        ak_approval := default (ak_approval r) (up_approval update); ak_created_at := ak_created_at r;
        ak_expires_at := default (ak_expires_at r) (up_expires_at update); ak_last_used_at := ak_last_used_at r;
        ak_revoked_at := ak_revoked_at r |}.
Definition replace_key (id : string) (r : ApiKeyRecord) : K unit :=
  updates (put_inner (λ i, put_keys (<[id := r]> (ki_keys i)) i)).
Definition ApiKeyStore_update (e : ApiEnv) (id : string) (update : ApiKeyUpdate) : K ApiKeyRecord :=
  _ ← lock_keys e;
  _ ← keys_reload_if_changed;
  keys ← asks (λ v, ki_keys (v_inner v));
  record ← lift_result (ok_or (keys !! id) (NotFound "api key"));
  _ ← lift_result (guard_err (match ak_revoked_at record with Some _ => false | None => true end)
        (Conflict "the API key is revoked"));
  next ← lift_result (apply_update update record);
  _ ← replace_key id next;
  _ ← keys_write e;
  mret next.

Definition ApiKeyStore_revoke (e : ApiEnv) (id : string) : K bool :=
  _ ← lock_keys e;
  _ ← keys_reload_if_changed;
  keys ← asks (λ v, ki_keys (v_inner v));
  match keys !! id with
  | None => mret false
  | Some record =>
      match ak_revoked_at record with
      | Some _ => mret false
      | None =>
          _ ← replace_key id (mark_key_revoked (x_unix_ms e) record);
          _ ← keys_write e;
          mret true
      end
  end.

Definition ApiKeyStore_authenticate (e : ApiEnv) (token : string) : K AuthenticatedKey :=
  '(id, secret) ← lift_result (ok_or (parse_token token) Unauthenticated);
  _ ← keys_reload_if_changed;
  keys ← asks (λ v, ki_keys (v_inner v));
  record ← lift_result (ok_or (keys !! id) Unauthenticated);
  expected ← lift_result (ok_or (b64_decode (ak_secret_hash record)) Unauthenticated);
  if negb (bool_decide (sha256 (AUTH_HASH_LABEL ++ secret) = expected)) || negb (key_is_active (x_unix_ms e) record)
  then throw Unauthenticated
  else
    let record := mark_used (x_unix_ms e) record in
    _ ← updates (put_inner (λ i, {| ki_keys := <[id := record]> (ki_keys i); ki_stamp := ki_stamp i; ki_dirty := true;
                                    ki_last_flush := ki_last_flush i |}));
    _ ← updates (keys_flush_if_due e);
    mret {| au_record := record; au_seed := api_key_recipient_seed secret |}.

(** [OwnerRecipients]; a store that cannot be read names no recipient. *)
Definition recipient_for_owner (e : ApiEnv) (owner : string) : K (option RecipientPublicKey) := λ v,
  match SegmentIndex.strip_prefix OWNER_PREFIX owner with
  | None => (v, Ok None)
  | Some id =>
      let '(v, r) := ApiKeyStore_get e id v in
      (v, Ok (record ← match r with Ok o => o | Err _ => None end;
              if key_is_active (x_unix_ms e) record then ok (key_from_base64url (ak_history_public_key record)) else None))
  end.
End store.

(** ** Requests of the external API *)

Definition MAX_FAILURES : N := 30.
(** Milliseconds. *)
Definition FAILURE_WINDOW : N := 60000.
Definition MAX_TRACKED_ADDRESSES : N := 4096.

Section requests.
Context {Address : Type} `{Countable Address} `{HistoryPrimitives}.
Context (keys_file_bytes : KeysFile → N).

(** Per address, when its window began and how often it failed since. *)
Abbreviation AuthFailures := (gmap Address (N * N)).

Definition failures_check (now : N) (address : option Address) (self : AuthFailures) : result AppError unit :=
  match address ≫= λ a, self !! a with
  | Some (start, count) =>
      if (MAX_FAILURES <=? count) && (now - start <? FAILURE_WINDOW)
      then Err (RateLimited "too many failed API key attempts" (N.max ((FAILURE_WINDOW - (now - start)) / 1000) 1))
      else Ok tt
  | None => Ok tt
  end.
Definition make_address_room (now : N) (a : Address) (self : AuthFailures) : AuthFailures :=
  if (MAX_TRACKED_ADDRESSES <=? N.of_nat (size self)) && negb (bool_decide (is_Some (self !! a))) then
    let recent : AuthFailures := filter (λ f : Address * (N * N), (now - f.2.1 <? FAILURE_WINDOW) = true) self in
    if MAX_TRACKED_ADDRESSES <=? N.of_nat (size recent) then ∅ else recent
  else self.
Definition failures_record (now : N) (address : option Address) (self : AuthFailures) : AuthFailures :=
  match address with
  | None => self
  | Some a =>
      let self := make_address_room now a self in
      let entry := default (now, 0) (self !! a) in
      let entry := if FAILURE_WINDOW <=? now - entry.1 then (now, 0) else entry in
      <[a := (entry.1, entry.2 + 1)]> self
  end.

(** The two headers, when their values are text. *)
Definition presented_key (authorization x_api_key : option string) : option string :=
  match authorization with
  | Some value =>
      '(scheme, token) ← Text.split_once " " (trim value);
      if String.eqb (to_ascii_lowercase scheme) "bearer" then Some (trim token) else None
  | None => trim <$> x_api_key
  end.

(** [require_api_key], up to the handler; every failure to authenticate is
    counted and reported alike. *)
Definition require_api_key (e : ApiEnv) (address : option Address) (authorization x_api_key : option string) :
    M (AuthFailures * View) AppError AuthenticatedKey := λ '(failures, v),
  match failures_check (x_now e) address failures with
  | Err error => ((failures, v), Err error)
  | Ok _ =>
      let '(v, r) := match presented_key authorization x_api_key with
                     | None => (v, Err Unauthenticated)
                     | Some token => ApiKeyStore_authenticate keys_file_bytes e token v
                     end in
      match r with
      | Ok key => ((failures, v), Ok key)
      | Err _ => ((failures_record (x_now e) address failures, v), Err Unauthenticated)
      end
  end.
End requests.

(** ** Several processes *)

Record KeyWorld : Type := { kw_disk : KeysDisk; kw_procs : gmap N KeysInner }.

Inductive KeyCall : Type :=
  | CCreate (id_bytes secret : bytes) (new : NewApiKey)
  | CList
  | CGet (id : string)
  | CUpdate (id : string) (update : ApiKeyUpdate)
  | CRevoke (id : string)
  | CAuthenticate (token : string)
  | COwner (owner : string).

Section processes.
Context `{HistoryPrimitives} (keys_file_bytes : KeysFile → N).

(** The call of a process: its copy and the file. *)
Definition run_at {A} (p : N) (m : M View AppError A) (w : KeyWorld) : KeyWorld * option (result AppError A) :=
  match kw_procs w !! p with
  | None => (w, None)
  | Some inner =>
      let '(v, r) := m {| v_disk := kw_disk w; v_inner := inner |} in
      ({| kw_disk := v_disk v; kw_procs := <[p := v_inner v]> (kw_procs w) |}, Some r)
  end.
Definition key_call (e : ApiEnv) (c : KeyCall) (v : View) : View :=
  match c with
  | CCreate id_bytes secret new => (ApiKeyStore_create keys_file_bytes e id_bytes secret new v).1
  | CList => (ApiKeyStore_list keys_file_bytes e v).1
  | CGet id => (ApiKeyStore_get keys_file_bytes e id v).1
  | CUpdate id update => (ApiKeyStore_update keys_file_bytes e id update v).1
  | CRevoke id => (ApiKeyStore_revoke keys_file_bytes e id v).1
  | CAuthenticate token => (ApiKeyStore_authenticate keys_file_bytes e token v).1
  | COwner owner => (recipient_for_owner keys_file_bytes e owner v).1
  end.

(** A version that [p] wrote has a stamp that no other process holds. *)
Definition new_version (p : N) (w w' : KeyWorld) : Prop :=
  ∀ q inner, q ≠ p → kw_procs w !! q = Some inner → keys_stamp (kw_disk w') ≠ ki_stamp inner.
Definition noticed_by_others (p : N) (w w' : KeyWorld) : Prop := kw_disk w' = kw_disk w ∨ new_version p w w'.

(** A process starts (or starts again), ends, or makes one of the calls in
    [calls]. *)
Inductive key_step (calls : KeyCall → Prop) (w : KeyWorld) : KeyWorld → Prop :=
  | ks_load p now inner : ApiKeyStore_load now (kw_disk w) = Ok inner →
      key_step calls w {| kw_disk := kw_disk w; kw_procs := <[p := inner]> (kw_procs w) |}
  | ks_exit p : key_step calls w {| kw_disk := kw_disk w; kw_procs := delete p (kw_procs w) |}
  | ks_call p e c inner : calls c → kw_procs w !! p = Some inner →
      let v := key_call e c {| v_disk := kw_disk w; v_inner := inner |} in
      let w' := {| kw_disk := v_disk v; kw_procs := <[p := v_inner v]> (kw_procs w) |} in
      noticed_by_others p w w' → key_step calls w w'.
End processes.
