(* ===== verification/ApiKeysInvariant.v ===== *)
(** * API keys: what every process keeps

    A property of the keys that every call preserves holds of the file and of
    the copy of every process that has the version of the file, over any
    interleaving of calls. [KeysInvariant] states what such a property has to
    satisfy; [ApiKeysSafety] and [ApiKeysRoundtrip] each give one. *)
From S2P Require Import Prelude Bytes Text Channel Query DeviceAuth Devices Json JsonObject Model Digest Summary Recipients Keyring Dek HistoryCrypto Record SegmentIndex ApiKeys.
From stdpp Require Import pretty.
From Stdlib Require Import Strings.Byte Ascii ZifyBool.
Local Open Scope N_scope.

Abbreviation KeyMap := (gmap string ApiKeyRecord).

(** The file [keys_write] leaves. *)
Definition written_keys (stamp : FileStamp) (keys : KeyMap) : KeysDisk :=
  Some {| kd_regular := true; kd_owner_only := true; kd_stamp := stamp; kd_json := Some {| kf_version := 1; kf_keys := keys |} |}.

Section invariant.
Context `{HistoryPrimitives} (keys_file_bytes : KeysFile → N).
Implicit Types (v : View) (w : KeyWorld) (keys : KeyMap) (r : ApiKeyRecord).

(** [P] of the keys of the file; whether the file may be unreadable. *)
Definition file_kept (P : KeyMap → Prop) (unreadable : Prop) (d : KeysDisk) : Prop :=
  match read_keys d with Ok (keys, _) => P keys | Err _ => unreadable end.

(** The calls in [calls] keep [P], and files written with it can be read back
    (unless [unreadable] allows otherwise). *)
Class KeysInvariant (P : KeyMap → Prop) (unreadable : Prop) (calls : KeyCall → Prop) : Prop := {
  inv_used keys id r now : P keys → keys !! id = Some r → P (<[id := mark_used now r]> keys);
  inv_revoked keys id r now : calls (CRevoke id) → P keys → keys !! id = Some r → ak_revoked_at r = None →
    P (<[id := mark_key_revoked now r]> keys);
  inv_updated keys id r u next : calls (CUpdate id u) → P keys → keys !! id = Some r → ak_revoked_at r = None →
    apply_update u r = Ok next → P (<[id := next]> keys);
  inv_created keys e id_bytes secret new name recipient : calls (CCreate id_bytes secret new) → P keys →
    recipient_from_seed (api_key_recipient_seed secret) = Ok recipient →
    P (prune_revoked (<[id_hex id_bytes := new_key_record e (id_hex id_bytes) name secret recipient new]> keys));
  inv_written keys stamp : P keys → fs_len stamp = keys_file_bytes {| kf_version := 1; kf_keys := keys |} →
    fs_len stamp ≤ KEYS_MAX_FILE_BYTES → file_kept P unreadable (written_keys stamp keys);
}.

Context (P : KeyMap → Prop) (unreadable : Prop) (calls : KeyCall → Prop).
Context {Hinv : KeysInvariant P unreadable calls}.

Definition kept v : Prop :=
  file_kept P unreadable (v_disk v) ∧ (keys_stamp (v_disk v) = ki_stamp (v_inner v) → P (ki_keys (v_inner v))).
(** The process has the version on disk. *)
Definition settled v : Prop :=
  file_kept P unreadable (v_disk v) ∧ keys_stamp (v_disk v) = ki_stamp (v_inner v) ∧ P (ki_keys (v_inner v)).

Lemma settled_kept v : settled v → kept v.
Proof. intros (? & ? & ?). by split. Qed.
Lemma keys_read_stamp d keys stamp : read_keys d = Ok (keys, stamp) → stamp = keys_stamp d.
Proof. unfold read_keys, read_key_records. destruct d as [f|]; intros Hr; res_inv; by simplify_eq/=. Qed.

(** From [R], [m] ends in [Q], or fails where the property is still kept. *)
Abbreviation keeps R m Q := (hoare R m (λ _, Q) (λ _, kept)).

Lemma stays_weaken {A} (m : M View AppError A) R Q : keeps R m Q → (∀ v, Q v → kept v) → ∀ v, R v → kept (m v).1.
Proof. intros Hm Hq v Hv. specialize (Hm v Hv). destruct (m v) as [v' [x|error]]; [by apply Hq|done]. Qed.
Lemma stays_lock e R : (∀ v, R v → kept v) → keeps R (lock_keys e) R.
Proof. intros Hr v Hv. unfold lock_keys, lift_result, guard_err. destruct (x_locked e); [done|by apply Hr]. Qed.
Lemma stays_lift {A} (x : result AppError A) R : (∀ v, R v → kept v) → keeps R (lift_result x) (λ v, R v).
Proof. intros Hp. apply hoare_lift; [done|]. intros e _ v. apply Hp. Qed.
Lemma stays_reload : keeps kept keys_reload_if_changed settled.
Proof.
  intros v [Hf Hm]. unfold keys_reload_if_changed. case_bool_decide as Hs; [by split; [|split; auto]|].
  pose proof Hf as Hf'. unfold file_kept in Hf. destruct (read_keys (v_disk v)) as [[keys stamp]|e] eqn:Hr; [|by split].
  split; [done|]. simpl. split; [symmetry; by eapply keys_read_stamp|done].
Qed.
(** Reading never fails when the file may not be unreadable. *)
Lemma reload_succeeds v : ¬ unreadable → kept v → ∃ v1 changed, keys_reload_if_changed v = (v1, Ok changed) ∧ settled v1.
Proof.
  intros Hu Hv. pose proof (stays_reload v Hv) as Hr. unfold keys_reload_if_changed in *. destruct Hv as [Hf _]. unfold file_kept in Hf.
  case_bool_decide; [by eauto|]. destruct (read_keys (v_disk v)) as [[keys stamp]|]; [by eauto|done].
Qed.
Lemma stays_write e : keeps settled (keys_write keys_file_bytes e) settled.
Proof.
  intros v Hv. unfold keys_write, write_key_records. destruct (x_io e); [by apply settled_kept|].
  destruct (_ <? _) eqn:Hl; [by apply settled_kept|]. apply N.ltb_ge in Hl. destruct Hv as (_ & _ & Hm). split; [|by split].
  cbn. by apply inv_written.
Qed.
Lemma settled_flush e v : settled v → settled (keys_flush_if_due keys_file_bytes e v).
Proof.
  intros Hv. unfold keys_flush_if_due. destruct (_ || _); [done|].
  unfold keys_reload_or_write, lock_keys, lift_result, guard_err, mbind, M_bind. destruct (x_locked e); [|done].
  unfold keys_reload_if_changed. pose proof Hv as (_ & Hs & Hm). rewrite bool_decide_eq_true_2 by done.
  pose proof (stays_write e v Hv) as Hw. unfold keys_write, write_key_records in *. destruct (x_io e); [done|]. by destruct (_ <? _).
Qed.

Lemma stays_create e id_bytes secret new : calls (CCreate id_bytes secret new) →
  keeps kept (ApiKeyStore_create keys_file_bytes e id_bytes secret new) settled.
Proof.
  intros Hc. unfold ApiKeyStore_create.
  eapply hoare_bind; [by apply stays_lift|intros name]. eapply hoare_bind; [by apply stays_lift|intros ?].
  eapply (hoare_bind _ (λ recipient v, kept v ∧ recipient_from_seed (api_key_recipient_seed secret) = Ok recipient)).
  { intros v Hv. unfold lift_result. by destruct (recipient_from_seed _) as [pk|]. }
  intros recipient. eapply hoare_bind; [by apply stays_lift; intros ? []|intros ?]. cbv zeta.
  eapply hoare_bind; [by apply stays_lock; intros ? []|intros ?].
  intros v [Hv Hpk]. revert v Hv. apply (hoare_bind _ (λ _, settled)); [apply stays_reload|intros ?].
  eapply (hoare_bind _ (λ _, settled)); [|intros ?].
  - intros v Hv. unfold insert_key. destruct (_ <=? _); [by apply settled_kept|]. destruct Hv as (Hf & Hs & Hm).
    split; [done|]. split; [done|]. cbn. by eapply inv_created.
  - eapply hoare_bind; [apply stays_write|intros ?]. by intros v Hv.
Qed.
Lemma stays_update e id update : calls (CUpdate id update) → keeps kept (ApiKeyStore_update keys_file_bytes e id update) settled.
Proof.
  intros Hc. unfold ApiKeyStore_update. eapply hoare_bind; [by apply stays_lock|intros ?]. eapply hoare_bind; [apply stays_reload|intros ?].
  intros v Hv. unfold asks, mbind, M_bind, lift_result. destruct (ki_keys (v_inner v) !! id) as [r|] eqn:Hr; cbn; [|by apply settled_kept].
  destruct (ak_revoked_at r) eqn:Hrev; cbn; [by apply settled_kept|].
  destruct (apply_update update r) as [next|] eqn:Hn; cbn; [|by apply settled_kept].
  set (v1 := put_inner _ v). assert (settled v1) as Hv1.
  { destruct Hv as (Hf & Hs & Hm). split; [done|]. split; [done|]. cbn. by eapply inv_updated. }
  pose proof (stays_write e v1 Hv1) as Hw. by destruct (keys_write keys_file_bytes e v1) as [v2 [[]|]].
Qed.
Lemma stays_revoke e id : calls (CRevoke id) → keeps kept (ApiKeyStore_revoke keys_file_bytes e id) settled.
Proof.
  intros Hc. unfold ApiKeyStore_revoke. eapply hoare_bind; [by apply stays_lock|intros ?]. eapply hoare_bind; [apply stays_reload|intros ?].
  intros v Hv. unfold asks, mbind, M_bind, mret, M_ret. destruct (ki_keys (v_inner v) !! id) as [r|] eqn:Hr; [|done].
  destruct (ak_revoked_at r) eqn:Hrev; [done|]. cbn.
  set (v1 := put_inner _ v). assert (settled v1) as Hv1.
  { destruct Hv as (Hf & Hs & Hm). split; [done|]. split; [done|]. cbn. by eapply inv_revoked. }
  pose proof (stays_write e v1 Hv1) as Hw. by destruct (keys_write keys_file_bytes e v1) as [v2 [[]|]].
Qed.
Lemma stays_authenticate e token : keeps kept (ApiKeyStore_authenticate keys_file_bytes e token) settled.
Proof.
  intros v Hv. unfold ApiKeyStore_authenticate, asks, throw, updates, mret, M_ret, mbind, M_bind, lift_result.
  destruct (parse_token token) as [[id secret]|]; cbn; [|done]. pose proof (stays_reload v Hv) as Hr.
  destruct (keys_reload_if_changed v) as [v1 [changed|]]; [|done]. destruct (ki_keys (v_inner v1) !! id) as [r|] eqn:Hl; cbn; [|by apply settled_kept].
  destruct (b64_decode _) as [expected|]; cbn; [|by apply settled_kept].
  destruct (negb _ || negb _); cbn; [by apply settled_kept|]. apply settled_flush. destruct Hr as (Hf & Hs & Hm).
  split; [done|]. split; [done|]. cbn. by apply inv_used.
Qed.
Lemma stays_read {A} e (f : View → A) : keeps kept (_ ← keys_reload_if_changed; _ ← updates (keys_flush_if_due keys_file_bytes e); asks f) settled.
Proof.
  eapply hoare_bind; [apply stays_reload|intros ?]. intros v Hv. unfold updates, asks, mbind, M_bind. by apply settled_flush.
Qed.
Lemma stays_owner e owner : keeps kept (recipient_for_owner keys_file_bytes e owner) kept.
Proof.
  intros v Hv. unfold recipient_for_owner. destruct (SegmentIndex.strip_prefix OWNER_PREFIX owner) as [id|]; [|done].
  pose proof (stays_weaken (ApiKeyStore_get keys_file_bytes e id) kept settled (stays_read e _) settled_kept v Hv) as Hg.
  by destruct (ApiKeyStore_get keys_file_bytes e id v).
Qed.

Lemma key_call_kept e c v : calls c → kept v → kept (key_call keys_file_bytes e c v).
Proof.
  intros Hc Hv. destruct c as [id_bytes secret new| |id|id update|id|token|owner]; cbn [key_call].
  - by apply (stays_weaken _ kept settled); [apply stays_create|apply settled_kept|].
  - by apply (stays_weaken (ApiKeyStore_list keys_file_bytes e) kept settled); [apply (stays_read e _)|apply settled_kept|].
  - by apply (stays_weaken (ApiKeyStore_get keys_file_bytes e id) kept settled); [apply (stays_read e _)|apply settled_kept|].
  - by apply (stays_weaken _ kept settled); [apply stays_update|apply settled_kept|].
  - by apply (stays_weaken _ kept settled); [apply stays_revoke|apply settled_kept|].
  - by apply (stays_weaken _ kept settled); [apply stays_authenticate|apply settled_kept|].
  - by apply (stays_weaken _ kept kept); [apply stays_owner|auto|].
Qed.

(** ** Every process *)

Definition world_kept w : Prop :=
  file_kept P unreadable (kw_disk w) ∧ ∀ p inner, kw_procs w !! p = Some inner → kept {| v_disk := kw_disk w; v_inner := inner |}.

(** What one process did is noticed by the others. *)
Lemma kept_others p w v : (∀ q inner, kw_procs w !! q = Some inner → kept {| v_disk := kw_disk w; v_inner := inner |}) → kept v →
  noticed_by_others p w {| kw_disk := v_disk v; kw_procs := <[p := v_inner v]> (kw_procs w) |} →
  world_kept {| kw_disk := v_disk v; kw_procs := <[p := v_inner v]> (kw_procs w) |}.
Proof.
  intros Hw Hv Hn. split; [apply Hv|]. cbn. intros q inner Hq. apply lookup_insert_Some in Hq as [[<- <-]|[Hne Hq]]; [by destruct v|].
  destruct (Hw q inner Hq) as [Hf Hm]. destruct Hn as [Hn|Hn]; cbn in Hn.
  - rewrite Hn. by split.
  - split; [apply Hv|]. cbn. intros Hs. by destruct (Hn q inner).
Qed.
Lemma key_step_kept w w' : key_step keys_file_bytes calls w w' → world_kept w → world_kept w'.
Proof.
  intros Hs Hw. destruct Hs as [p now inner Hl|p|p e c inner Hc Hp v w' Hn].
  - destruct Hw as [Hf Hw]. split; [done|]. cbn. intros q inner' Hq. apply lookup_insert_Some in Hq as [[<- <-]|[_ Hq]]; [|by apply (Hw q)].
    unfold ApiKeyStore_load in Hl. pose proof Hf as Hf'. unfold file_kept in Hf.
    destruct (read_keys (kw_disk w)) as [[keys stamp]|] eqn:Hr; [|done]. injection Hl as <-. by split.
  - destruct Hw as [Hf Hw]. split; [done|]. cbn. intros q inner' Hq. apply lookup_delete_Some in Hq as [_ Hq]. by apply (Hw q).
  - apply kept_others; [apply Hw| |done]. apply key_call_kept; [done|]. by apply (proj2 Hw p).
Qed.
Lemma key_steps_kept w w' : rtc (key_step keys_file_bytes calls) w w' → world_kept w → world_kept w'.
Proof. induction 1 as [|w1 w2 w3 Hs _ IH]; [done|]. intros Hw. by apply IH, (key_step_kept w1). Qed.
(** The version with which the property begins. *)
Lemma settled_world p w v : settled v →
  new_version p w {| kw_disk := v_disk v; kw_procs := <[p := v_inner v]> (kw_procs w) |} →
  world_kept {| kw_disk := v_disk v; kw_procs := <[p := v_inner v]> (kw_procs w) |}.
Proof.
  intros Hv Hn. split; [apply Hv|]. cbn. intros q inner Hq. apply lookup_insert_Some in Hq as [[<- <-]|[Hne Hq]]; [destruct v; by apply settled_kept|].
  split; [apply Hv|]. cbn. intros Hs. by destruct (Hn q inner).
Qed.
End invariant.
