(* ===== verification/ApiKeysSafety.v ===== *)
(** * API keys: a revoked key stays revoked

    Over any interleaving of calls of any number of processes that share the
    key file, a key that one of them revoked authenticates nobody; and what
    becomes of revocations that could not be written. *)
From S2P Require Import Prelude Bytes Text Channel Query DeviceAuth Devices Json JsonObject Model Digest Summary Recipients Keyring Dek HistoryCrypto Record SegmentIndex ApiKeys ApiKeysInvariant.
From stdpp Require Import pretty.
From Stdlib Require Import Strings.Byte Ascii ZifyBool.
Local Open Scope N_scope.

Section revoked.
Context `{HistoryPrimitives} (keys_file_bytes : KeysFile → N) (id : string).
Implicit Types (keys : KeyMap) (v : View) (w : KeyWorld).

(** No record, or a revoked one. *)
Definition dead keys : Prop := ∀ r, keys !! id = Some r → ak_revoked_at r ≠ None.
(** Calls that do not create a key with this id. *)
Definition other_key (c : KeyCall) : Prop := match c with CCreate id_bytes _ _ => id_hex id_bytes ≠ id | _ => True end.

Lemma dead_insert keys id' r : dead keys → id' ≠ id ∨ ak_revoked_at r ≠ None → dead (<[id' := r]> keys).
Proof. intros Hd Hr r' Hl. apply lookup_insert_Some in Hl as [[-> ->]|[_ Hl]]; [by destruct Hr|by apply Hd]. Qed.
Lemma dead_prune keys : dead keys → dead (prune_revoked keys).
Proof.
  unfold prune_revoked. generalize (size keys) as fuel. intros fuel. revert keys.
  induction fuel as [|fuel IH]; intros keys Hd; cbn [prune_go]; destruct (_ <=? _); [done..|].
  destruct (oldest_revoked keys); [|done]. apply IH. intros r Hl. apply lookup_delete_Some in Hl as [_ Hl]. by apply Hd.
Qed.
Lemma dead_inactive keys now r : dead keys → keys !! id = Some r → key_is_active now r = false.
Proof. intros Hd Hl. apply Hd in Hl. unfold key_is_active. by destruct (ak_revoked_at r). Qed.
Lemma dead_written stamp keys : dead keys → file_kept dead True (written_keys stamp keys).
Proof.
  intros Hd. unfold file_kept. destruct (read_keys _) as [[keys' stamp']|] eqn:Hr; [|done].
  unfold read_keys, read_key_records in Hr. simpl in Hr. res_inv. by simplify_eq/=.
Qed.
#[local] Instance dead_invariant : KeysInvariant keys_file_bytes dead True other_key.
Proof.
  split.
  - intros keys id' r now Hd Hl. apply dead_insert; [done|]. destruct (decide (id' = id)) as [->|]; [|by left]. right. by apply (Hd r).
  - intros keys id' r now _ Hd _ _. apply dead_insert; [done|by right].
  - intros keys id' r u next _ Hd Hl Hr _. apply dead_insert; [done|]. left. intros ->. by apply (Hd r).
  - intros keys e id_bytes secret new name recipient Hc Hd _. apply dead_prune, dead_insert; [done|by left].
  - intros keys stamp Hd _ _. by apply dead_written.
Qed.

Lemma dead_authenticate e token v : kept dead True v →
  ∀ key, (ApiKeyStore_authenticate keys_file_bytes e token v).2 = Ok key → ∃ id' secret, parse_token token = Some (id', secret) ∧ id' ≠ id.
Proof.
  intros Hv key. unfold ApiKeyStore_authenticate, asks, throw, updates, mret, M_ret, mbind, M_bind, lift_result.
  destruct (parse_token token) as [[id' secret]|]; cbn; [|done]. pose proof (stays_reload dead True v Hv) as Hr.
  destruct (keys_reload_if_changed v) as [v1 [changed|]]; [|done]. destruct (ki_keys (v_inner v1) !! id') as [r|] eqn:Hl; cbn; [|done].
  destruct (b64_decode _) as [expected|]; cbn; [|done].
  destruct (negb _ || negb _) eqn:Ha; cbn; [done|]. apply orb_false_iff in Ha as [_ Ha%negb_false_iff].
  intros _. exists id', secret. split; [done|]. intros ->. destruct Hr as (_ & _ & Hm). by rewrite (dead_inactive _ _ _ Hm Hl) in Ha.
Qed.
Lemma dead_owner e v : kept dead True v → (recipient_for_owner keys_file_bytes e (OWNER_PREFIX +:+ id) v).2 = Ok None.
Proof.
  intros Hv. unfold recipient_for_owner. rewrite strip_prefix_app. unfold ApiKeyStore_get, asks, updates, mbind, M_bind.
  pose proof (stays_reload dead True v Hv) as Hr. destruct (keys_reload_if_changed v) as [v1 [changed|]]; [|done]. cbn.
  apply (settled_flush keys_file_bytes dead True other_key e) in Hr as (_ & _ & Hm).
  destruct (ki_keys _ !! id) as [r|] eqn:Hl; cbn; [|done]. by rewrite (dead_inactive _ _ _ Hm Hl).
Qed.
Lemma revoke_settles e v v' : ApiKeyStore_revoke keys_file_bytes e id v = (v', Ok true) → settled dead True v'.
Proof.
  unfold ApiKeyStore_revoke, lock_keys, lift_result, guard_err, asks, replace_key, updates, mret, M_ret, mbind, M_bind.
  destruct (x_locked e); [|done]. destruct (keys_reload_if_changed v) as [v1 [changed|]]; [|done].
  destruct (ki_keys (v_inner v1) !! id) as [r|] eqn:Hr; [|done]. destruct (ak_revoked_at r); [done|].
  unfold keys_write, write_key_records. destruct (x_io e); [done|]. destruct (_ <? _); [done|]. intros [= <-].
  assert (dead (<[id := mark_key_revoked (x_unix_ms e) r]> (ki_keys (v_inner v1)))) as Hd.
  { intros r' Hl. rewrite lookup_insert_eq in Hl. by injection Hl as <-. }
  split; [by apply dead_written|]. by split.
Qed.

(** C26: A revoked key authenticates nobody. Once a process revoked a key, then
    over any interleaving of the calls of any number of processes that share the
    file (starting, ending, failing to write or to take the lock), no process
    accepts a token that names the key, and none wraps history for its owner. *)
Theorem revoked_api_key_is_refused p e w0 w1 w2 :
  run_at p (ApiKeyStore_revoke keys_file_bytes e id) w0 = (w1, Some (Ok true)) → new_version p w0 w1 →
  rtc (key_step keys_file_bytes other_key) w1 w2 →
  ∀ q e', (∀ token key, (run_at q (ApiKeyStore_authenticate keys_file_bytes e' token) w2).2 = Some (Ok key) →
             ∃ id' secret, parse_token token = Some (id', secret) ∧ id' ≠ id) ∧
          (∀ pk, (run_at q (recipient_for_owner keys_file_bytes e' (OWNER_PREFIX +:+ id)) w2).2 ≠ Some (Ok (Some pk))).
Proof.
  unfold run_at at 1. destruct (kw_procs w0 !! p) as [inner0|]; [|done].
  destruct (ApiKeyStore_revoke keys_file_bytes e id _) as [v r] eqn:Hr. intros [= <- ->] Hn Hrun q e'.
  apply revoke_settles in Hr. apply (settled_world dead True) in Hn; [|done].
  apply (key_steps_kept keys_file_bytes dead True other_key) in Hrun as [_ Hb]; [|done].
  unfold run_at. destruct (kw_procs w2 !! q) as [inner|] eqn:Hq; [|done]. specialize (Hb q inner Hq). split.
  - intros token key. pose proof (dead_authenticate e' token _ Hb) as Ha.
    destruct (ApiKeyStore_authenticate keys_file_bytes e' token _) as [v' [key'|]]; [|done]. intros _. by apply (Ha key').
  - intros pk. pose proof (dead_owner e' _ Hb) as Ho. destruct (recipient_for_owner keys_file_bytes e' _ _) as [v' r]. cbn in *. by rewrite Ho.
Qed.
End revoked.

(** ** Revocations that are not written *)
Section unwritten.
Context `{HistoryPrimitives} (keys_file_bytes : KeysFile → N).
Implicit Types (v : View).

(** The copy of the process is the file. *)
Definition in_step v : Prop := read_keys (v_disk v) = Ok (ki_keys (v_inner v), ki_stamp (v_inner v)).

(** C28: A revocation whose write fails is marked in memory all the same: trying it
    again writes nothing and answers that the key was revoked already, while
    the file still holds the key, and so does every process that starts from
    it. *)
Theorem failed_revocation_is_lost e id r error v :
  in_step v → ki_keys (v_inner v) !! id = Some r → ak_revoked_at r = None → x_locked e = true → x_io e = Some error →
  let '(v1, answer) := ApiKeyStore_revoke keys_file_bytes e id v in
  answer = Err error ∧
  (∀ e2, x_locked e2 = true → ApiKeyStore_revoke keys_file_bytes e2 id v1 = (v1, Ok false)) ∧
  (∀ now inner, ApiKeyStore_load now (v_disk v1) = Ok inner → ki_keys inner !! id = Some r).
Proof.
  intros Hread Hr Hrev Hlock Hio. unfold in_step in Hread. pose proof (keys_read_stamp _ _ _ Hread) as Hs.
  unfold ApiKeyStore_revoke, lock_keys, lift_result, guard_err, asks, replace_key, updates, mret, M_ret, mbind, M_bind. rewrite Hlock.
  unfold keys_reload_if_changed. rewrite bool_decide_eq_true_2 by done. rewrite Hr, Hrev. unfold keys_write, write_key_records. rewrite Hio.
  split; [done|]. split.
  - intros e2 ->. cbn. rewrite bool_decide_eq_true_2 by done. cbn. by rewrite lookup_insert_eq.
  - intros now inner Hl. unfold ApiKeyStore_load in Hl. cbn in Hl. rewrite Hread in Hl. cbn in Hl. by injection Hl as <-.
Qed.

(** A revoked record is not shorter. *)
Hypothesis revoked_member : ∀ keys id r now, keys !! id = Some r → ak_revoked_at r = None →
  keys_file_bytes {| kf_version := 1; kf_keys := keys |} ≤ keys_file_bytes {| kf_version := 1; kf_keys := <[id := mark_key_revoked now r]> keys |}.

(** The copy of the process no longer fits in the file. *)
Definition too_large v : Prop :=
  keys_stamp (v_disk v) = ki_stamp (v_inner v) ∧
  KEYS_MAX_FILE_BYTES < keys_file_bytes {| kf_version := 1; kf_keys := ki_keys (v_inner v) |}.

Lemma too_large_revoke e id v : too_large v →
  let '(v1, answer) := ApiKeyStore_revoke keys_file_bytes e id v in too_large v1 ∧ v_disk v1 = v_disk v ∧ answer ≠ Ok true.
Proof.
  intros [Hs Hl]. unfold ApiKeyStore_revoke, lock_keys, lift_result, guard_err, asks, replace_key, updates, mret, M_ret, mbind, M_bind.
  destruct (x_locked e); [|done]. unfold keys_reload_if_changed. rewrite bool_decide_eq_true_2 by done.
  destruct (ki_keys (v_inner v) !! id) as [r|] eqn:Hr; [|done]. destruct (ak_revoked_at r) eqn:Hrev; [done|].
  pose proof (revoked_member _ _ _ (x_unix_ms e) Hr Hrev) as Hgrow. unfold keys_write, write_key_records. cbn [v_inner put_inner ki_keys put_keys].
  assert (too_large (put_inner (λ i, put_keys (<[id := mark_key_revoked (x_unix_ms e) r]> (ki_keys i)) i) v)) as Hlarge by (split; [done|]; cbn; lia).
  destruct (x_io e); [done|]. rewrite (proj2 (N.ltb_lt _ _)) by lia. done.
Qed.

(** A key that was refused for the size of the file stays in the copy of the
    process, and from then on the process cannot revoke any key: no attempt
    succeeds or changes the file. *)
Lemma refused_create_blocks_revocation e id_bytes secret new v v1 attempts :
  keys_stamp (v_disk v) = ki_stamp (v_inner v) → x_io e = None →
  ApiKeyStore_create keys_file_bytes e id_bytes secret new v = (v1, Err (InvalidRequest "API key file is too large")) →
  let v2 := foldl (λ v a, (ApiKeyStore_revoke keys_file_bytes a.1 a.2 v).1) v1 attempts in
  v_disk v2 = v_disk v ∧ ∀ e2 id, (ApiKeyStore_revoke keys_file_bytes e2 id v2).2 ≠ Ok true.
Proof.
  intros Hs Hio Hc v2. assert (too_large v1 ∧ v_disk v1 = v_disk v) as [Hl Hd].
  { unfold ApiKeyStore_create, lock_keys, lift_result, mret, M_ret, mbind, M_bind in Hc.
    destruct (validate_key_name (nk_name new)) as [name|err] eqn:Hname.
    2: { unfold validate_key_name in Hname. destruct (_ || _) in Hname; [injection Hname as <-|done]. vm_compute in Hc. discriminate Hc. }
    destruct (scopes_validate (nk_scopes new)) as [[]|err] eqn:Hscopes.
    2: { assert (err ≠ InvalidRequest "API key file is too large") as Hne; [|by injection Hc as _ ->].
         clear -Hscopes. intros ->. unfold scopes_validate, guard_err in Hscopes.
         destruct (sc_agents (nk_scopes new)) as [[|]|], (sc_workspaces (nk_scopes new)); cbn in Hscopes;
           repeat case_match; vm_compute in Hscopes; discriminate Hscopes. }
    destruct (recipient_from_seed _) as [pk|err] eqn:Hpk.
    2: { unfold recipient_from_seed, from_bytes in Hpk. repeat case_match; simplify_eq; discriminate Hc. }
    unfold guard_err in Hc. destruct (match nk_expires_at new with Some _ => _ | None => _ end); [|discriminate Hc].
    destruct (x_locked e); [|discriminate Hc]. unfold keys_reload_if_changed in Hc. rewrite bool_decide_eq_true_2 in Hc by done.
    unfold insert_key in Hc. destruct (_ <=? _); [discriminate Hc|]. unfold keys_write, write_key_records in Hc. rewrite Hio in Hc.
    destruct (_ <? _) eqn:Hlt; [|discriminate Hc]. injection Hc as <-. split; [|done]. split; [done|]. by apply N.ltb_lt. }
  assert (too_large v2 ∧ v_disk v2 = v_disk v) as [Hl2 Hd2].
  { unfold v2. clear v2. rewrite <-Hd. clear Hd Hc Hs v. revert v1 Hl. induction attempts as [|[e2 id] attempts IH]; intros v1 Hl; [done|].
    cbn [foldl]. pose proof (too_large_revoke e2 id v1 Hl) as Hr. cbn. destruct (ApiKeyStore_revoke keys_file_bytes e2 id v1) as [v2 answer].
    destruct Hr as (Hl2 & Hd2 & _). rewrite <-Hd2. by apply IH. }
  split; [done|]. intros e2 id. pose proof (too_large_revoke e2 id v2 Hl2) as Hr.
  destruct (ApiKeyStore_revoke keys_file_bytes e2 id v2) as [v3 answer]. apply Hr.
Qed.
End unwritten.
