(* ===== verification/ApiKeysRoundtrip.v ===== *)
(** * API keys: a created key authenticates

    From the moment a key is created and until it expires, every process that
    shares the key file accepts its text, whatever they do to other keys, and
    derives from it the private seed of the recipient in the key's record. *)
From S2P Require Import Prelude Bytes Text Channel Query DeviceAuth Devices Json JsonObject Model Digest Summary Recipients Keyring Dek HistoryCrypto Record SegmentIndex ApiKeys ApiKeysInvariant.
From stdpp Require Import pretty.
From Stdlib Require Import Strings.Byte Ascii ZifyBool.
Local Open Scope N_scope.

(** The text of a secret in base64url. *)
Class Base64Text `{HistoryPrimitives} : Prop := {
  b64_text_length m : String.length (b64_encode m) = ((8 * length m + 5) / 6)%nat;
  b64_text_printable m : Forall (λ n, printable n = true) (codes (b64_encode m));
}.

Section roundtrip.
Context `{HistoryPrimitivesLaws} `{!Base64Text}.
Context (keys_file_bytes : KeysFile → N).
Implicit Types (keys : KeyMap) (v : View) (w : KeyWorld) (r : ApiKeyRecord).

(** ** Texts *)

Lemma hex_char_lower n : n < 16 → lower_hex_char (hex_char n) = true.
Proof.
  intros Hn. assert (Forall (λ n, lower_hex_char (hex_char (N.of_nat n)) = true) (seq 0 16)) as Hall by (apply (bool_decide_unpack _); by vm_compute).
  rewrite Forall_forall in Hall. specialize (Hall (N.to_nat n)). rewrite N2Nat.id in Hall. apply Hall, elem_of_seq. lia.
Qed.
Lemma hex_lower l : forallb lower_hex_char (String.list_ascii_of_string (id_hex l)) = true.
Proof.
  induction l as [|c l IH]; [done|]. cbn. pose proof (Byte.to_N_bounded c) as Hc. rewrite IH, !hex_char_lower; [done|..].
  - by apply N.mod_lt.
  - apply N.Div0.div_lt_upper_bound. lia.
Qed.
Lemma hex_length l : String.length (id_hex l) = (2 * length l)%nat.
Proof. induction l as [|c l IH]; [done|]. cbn. rewrite IH. lia. Qed.
Lemma substring_prefix s t : String.substring 0 (String.length s) (s +:+ t) = s.
Proof. induction s as [|c s IH]; [by destruct t|]. change (String c s +:+ t) with (String c (s +:+ t)). cbn. by rewrite IH. Qed.
Lemma substring_all t : String.substring 0 (String.length t) t = t.
Proof. induction t as [|c t IH]; [done|]. cbn. by rewrite IH. Qed.
Lemma substring_suffix s t : String.substring (String.length s) (String.length t) (s +:+ t) = t.
Proof. induction s as [|c s IH]; [apply substring_all|]. by change (String c s +:+ t) with (String c (s +:+ t)). Qed.
Lemma codes_app s t : codes (s +:+ t) = codes s ++ codes t.
Proof. unfold codes. induction s as [|c s IH]; [done|]. change (String c s +:+ t) with (String c (s +:+ t)). cbn. by rewrite IH. Qed.

Definition api_key_text (id_bytes secret : bytes) : string := KEY_PREFIX +:+ id_hex id_bytes +:+ "_" +:+ b64_encode secret.
Lemma api_key_text_trim id_bytes secret : secret ≠ [] → trim (api_key_text id_bytes secret) = api_key_text id_bytes secret.
Proof.
  intros Hne. apply trim_printable. unfold api_key_text, KEY_PREFIX. rewrite !codes_app.
  assert (∃ z l, codes (b64_encode secret) = l ++ [z]) as (z & l & Hl).
  { destruct (@exists_last _ (codes (b64_encode secret))) as (l & z & ->); [|by eauto]. intros Hnil.
    assert (length (codes (b64_encode secret)) = String.length (b64_encode secret)) as Hlen.
    { unfold codes. rewrite length_fmap. generalize (b64_encode secret). intros s. induction s; [done|]. cbn. by f_equal. }
    rewrite Hnil, b64_text_length in Hlen. destruct secret; [done|]. cbn [length] in Hlen.
    assert (6 ≤ 8 * S (length secret) + 5)%nat as Hle by lia. apply (Nat.Div0.div_le_mono _ _ 6) in Hle. cbn in *. lia. }
  pose proof (b64_text_printable secret) as Hp. rewrite Hl in Hp |- *. apply Forall_app in Hp as [_ Hz%Forall_cons_1]. destruct Hz as [Hz _].
  rewrite !app_assoc, last_snoc. change (codes "tdx_") with [116; 100; 120; 95]. by rewrite Hz.
Qed.
(** The text of a key is well formed: it is read as its id and its secret. *)
Lemma parse_api_key_text id_bytes secret : length id_bytes = 8%nat → length secret = SECRET_LEN →
  parse_token (api_key_text id_bytes secret) = Some (id_hex id_bytes, secret).
Proof.
  intros Hid Hs. unfold parse_token. rewrite api_key_text_trim by (intros ->; done). unfold api_key_text. rewrite strip_prefix_app. cbn [mbind option_bind].
  assert (String.length (id_hex id_bytes) = ID_HEX_LEN) as Hl by (rewrite hex_length, Hid; done).
  rewrite <-Hl. set (rest := "_" +:+ b64_encode secret).
  assert (String.length (id_hex id_bytes +:+ rest) = String.length (id_hex id_bytes) + String.length rest)%nat as Hlen by apply string_length_app.
  rewrite Hlen, (proj2 (Nat.ltb_ge _ _)) by lia. rewrite substring_prefix.
  replace (String.length (id_hex id_bytes) + String.length rest - String.length (id_hex id_bytes))%nat with (String.length rest) by lia.
  rewrite substring_suffix. unfold rest. rewrite strip_prefix_app. cbn [mbind option_bind]. rewrite hex_lower, b64_text_length, Hs.
  change ((8 * SECRET_LEN + 5) / 6)%nat with SECRET_TEXT_LEN. rewrite Nat.eqb_refl. cbn [negb orb].
  rewrite b64_decode_encode. cbn [mbind option_bind]. by rewrite Hs.
Qed.

(** ** Records stay valid *)

Definition valid_keys keys : Prop := map_Forall (λ id r, valid_key id r = true) keys.
(** A key is drawn from eight bytes. *)
Definition drawn (c : KeyCall) : Prop := match c with CCreate id_bytes _ _ => length id_bytes = 8%nat | _ => True end.

Lemma oldest_is_revoked keys oldest : valid_keys keys → oldest_revoked keys = Some oldest →
  ∃ r, keys !! oldest = Some r ∧ ak_revoked_at r ≠ None.
Proof.
  intros Hv Ho. unfold oldest_revoked in Ho. apply fmap_Some in Ho as (r & Hr & ->).
  assert (∀ l best, (∀ r, best = Some r → ak_revoked_at r ≠ None ∧ r ∈ (btree_iter keys).*2) → l ⊆ (btree_iter keys).*2 →
    ∀ r, foldl older_revoked best l = Some r → ak_revoked_at r ≠ None ∧ r ∈ (btree_iter keys).*2) as Hgo.
  { induction l as [|x l IH]; intros best Hb Hl; [done|]. cbn [foldl]. apply IH; [|set_solver].
    intros r'. unfold older_revoked. destruct (ak_revoked_at x) eqn:Hx; [|by apply Hb]. destruct best as [b|].
    - destruct (_ <=? _); [by apply Hb|]. intros [= <-]. by split; [rewrite Hx|set_solver].
    - intros [= <-]. by split; [rewrite Hx|set_solver]. }
  apply Hgo in Hr as [Hrev Hin]; [|done|done]. exists r. split; [|done].
  apply list_elem_of_fmap in Hin as ([id r'] & -> & Hin). apply elem_of_btree_iter in Hin. cbn. specialize (Hv _ _ Hin). cbn in Hv.
  unfold valid_key in Hv. apply andb_true_iff in Hv as [[Hv _]%andb_true_iff _]. apply String.eqb_eq in Hv. by rewrite Hv.
Qed.
(** Pruning removes revoked records only. *)
Lemma prune_keeps keys : valid_keys keys →
  valid_keys (prune_revoked keys) ∧ ∀ id r, keys !! id = Some r → ak_revoked_at r = None → prune_revoked keys !! id = Some r.
Proof.
  unfold prune_revoked. generalize (size keys) as fuel. intros fuel. revert keys.
  induction fuel as [|fuel IH]; intros keys Hv; cbn [prune_go]; destruct (_ <=? _); [done..|].
  destruct (oldest_revoked keys) as [oldest|] eqn:Ho; [|done]. apply oldest_is_revoked in Ho as (r0 & Hr0 & Hrev); [|done].
  destruct (IH (delete oldest keys)) as [Hv' Hk]; [by apply map_Forall_delete|]. split; [done|]. intros id r Hl Hn. apply Hk; [|done].
  apply lookup_delete_Some. split; [|done]. intros ->. by simplify_eq.
Qed.

Lemma new_key_valid e id_bytes name secret recipient new : length id_bytes = 8%nat →
  recipient_from_seed (api_key_recipient_seed secret) = Ok recipient →
  valid_key (id_hex id_bytes) (new_key_record e (id_hex id_bytes) name secret recipient new) = true.
Proof.
  intros Hid. rewrite recipient_from_seed_Ok. intros [= <-]. unfold valid_key, key_from_base64url. cbn.
  rewrite String.eqb_refl, hex_length, Hid, b64_decode_encode. unfold from_bytes, to_bytes. cbn [rp_key].
  by rewrite ek_bytes_length, Nat.eqb_refl, ek_try_from_bytes.
Qed.
Lemma apply_update_valid id u r next : apply_update u r = Ok next → valid_key id r = true → valid_key id next = true.
Proof. unfold apply_update. intros Hu. res_inv. by simplify_eq/=. Qed.
Lemma valid_keys_insert keys id r : valid_keys keys → valid_key id r = true → valid_keys (<[id := r]> keys).
Proof. intros Hk Hr. by apply map_Forall_insert_2. Qed.
#[local] Instance valid_invariant : KeysInvariant keys_file_bytes valid_keys True drawn.
Proof.
  split.
  - intros keys id r now Hv Hl. apply valid_keys_insert; [done|]. by apply (Hv id r).
  - intros keys id r now _ Hv Hl _. apply valid_keys_insert; [done|]. by apply (Hv id r).
  - intros keys id r u next _ Hv Hl _ Hu. apply valid_keys_insert; [done|]. eapply apply_update_valid; [done|]. by apply (Hv id r).
  - intros keys e id_bytes secret new name recipient Hc Hv Hr. apply prune_keeps, valid_keys_insert; [done|]. by apply new_key_valid.
  - intros keys stamp Hv _ _. unfold file_kept. destruct (read_keys _) as [[keys' stamp']|] eqn:Hr; [|done].
    unfold read_keys, read_key_records in Hr. simpl in Hr. res_inv. by simplify_eq/=.
Qed.
Lemma start_valid_keys d : world_kept valid_keys True {| kw_disk := d; kw_procs := ∅ |}.
Proof.
  split; [|done]. cbn. unfold file_kept. destruct (read_keys d) as [[keys stamp]|] eqn:Hr; [|done].
  unfold read_keys, read_key_records in Hr. destruct d as [f|]; simpl in Hr; res_inv; simplify_eq/=; [|done].
  unfold guard_err in *. by case_bool_decide.
Qed.

(** ** The key stays *)

(** A record holds its public key in base64url, so it is longer than 1216
    bytes. *)
Hypothesis record_bytes : ∀ keys, valid_keys keys → 1024 * N.of_nat (size keys) ≤ keys_file_bytes {| kf_version := 1; kf_keys := keys |}.

Lemma written_readable stamp keys : valid_keys keys → fs_len stamp = keys_file_bytes {| kf_version := 1; kf_keys := keys |} →
  fs_len stamp ≤ KEYS_MAX_FILE_BYTES → read_keys (written_keys stamp keys) = Ok (keys, Some stamp).
Proof.
  intros Hv Hl Hs. pose proof (record_bytes keys Hv) as Hb. assert (N.of_nat (size keys) ≤ KEYS_MAX_RECORDS) as Hn.
  { unfold KEYS_MAX_RECORDS, KEYS_MAX_FILE_BYTES in *. lia. }
  unfold read_keys, read_key_records, written_keys, guard_err. cbn. rewrite (proj2 (N.leb_le _ _) Hs). cbn.
  rewrite (proj2 (N.leb_le _ _) Hn). cbn. by rewrite bool_decide_eq_true_2.
Qed.

Section live.
Context (created : ApiKeyRecord).

(** What authenticating depends on. *)
Definition same_key r : Prop :=
  ak_id r = ak_id created ∧ ak_secret_hash r = ak_secret_hash created ∧
  ak_history_public_key r = ak_history_public_key created ∧ ak_expires_at r = ak_expires_at created ∧ ak_revoked_at r = None.
Definition live keys : Prop := valid_keys keys ∧ ∃ r, keys !! ak_id created = Some r ∧ same_key r.
(** Calls that do not revoke the key, change its expiry or draw its id again. *)
Definition leaves_key (c : KeyCall) : Prop :=
  match c with
  | CCreate id_bytes _ _ => length id_bytes = 8%nat ∧ id_hex id_bytes ≠ ak_id created
  | CRevoke id => id ≠ ak_id created
  | CUpdate id u => id = ak_id created → up_expires_at u = None
  | _ => True
  end.

Lemma live_insert keys id r : live keys → valid_key id r = true → (id = ak_id created → same_key r) → live (<[id := r]> keys).
Proof.
  intros [Hv (r0 & Hl & Hr0)] Hr Hsame. split; [by apply valid_keys_insert|]. destruct (decide (id = ak_id created)) as [->|Hne].
  - exists r. rewrite lookup_insert_eq. auto.
  - exists r0. by rewrite lookup_insert_ne.
Qed.
Lemma live_at keys r : live keys → keys !! ak_id created = Some r → same_key r.
Proof. intros [_ (r0 & Hl & Hr0)] Hr. by simplify_eq. Qed.
Lemma apply_update_same u r next : up_expires_at u = None → apply_update u r = Ok next → same_key r → same_key next.
Proof. unfold apply_update. intros He Hu Hs. res_inv. unfold same_key in *. simplify_eq/=. by rewrite He. Qed.
#[local] Instance live_invariant : KeysInvariant keys_file_bytes live False leaves_key.
Proof.
  split.
  - intros keys id r now Hv Hl. apply live_insert; [done|by apply (proj1 Hv id r)|]. intros ->. exact (live_at keys r Hv Hl).
  - intros keys id r now Hc Hv Hl _. apply live_insert; [done|by apply (proj1 Hv id r)|]. intros ->. by destruct Hc.
  - intros keys id r u next Hc Hv Hl _ Hu. apply live_insert; [done| |].
    + eapply apply_update_valid; [done|]. by apply (proj1 Hv id r).
    + intros ->. by eapply apply_update_same; [apply Hc|exact Hu|apply (live_at keys)].
  - intros keys e id_bytes secret new name recipient [Hid Hne] Hv Hr.
    apply (live_insert keys (id_hex id_bytes) (new_key_record e (id_hex id_bytes) name secret recipient new)) in Hv as [Hv (r & Hl & Hs)];
      [|by apply new_key_valid|done].
    apply prune_keeps in Hv as [Hv Hk]. split; [done|]. exists r. split; [|done]. apply Hk; [done|apply Hs].
  - intros keys stamp Hv Hlen Hmax. unfold file_kept. rewrite written_readable; [done|apply Hv|done..].
Qed.

(** The secret of the key is accepted until it expires. *)
Lemma live_authenticate e token secret v : kept live False v → parse_token token = Some (ak_id created, secret) →
  ak_secret_hash created = secret_hash secret → match ak_expires_at created with Some expires => x_unix_ms e < expires | None => True end →
  ∃ v' key, ApiKeyStore_authenticate keys_file_bytes e token v = (v', Ok key) ∧ same_key (au_record key) ∧
    au_seed key = api_key_recipient_seed secret.
Proof.
  intros Hv Hp Hh Hexp. destruct (reload_succeeds live False v) as (v1 & changed & Hreload & _ & _ & Hlive); [by intros []|done|].
  pose proof Hlive as [_ (r & Hl & Hs)]. pose proof Hs as (_ & Hrh & _ & Hre & Hrr).
  unfold ApiKeyStore_authenticate, asks, throw, updates, mret, M_ret, mbind, M_bind, lift_result. rewrite Hp. cbn. rewrite Hreload, Hl. cbn.
  rewrite Hrh, Hh. unfold secret_hash. rewrite b64_decode_encode. cbn. rewrite bool_decide_eq_true_2 by done.
  unfold key_is_active. rewrite Hrr, Hre.
  assert (match ak_expires_at created with Some expires => x_unix_ms e <? expires | None => true end = true) as ->.
  { destruct (ak_expires_at created); [by apply N.ltb_lt|done]. }
  cbn. do 2 eexists. by split.
Qed.
End live.
#[local] Existing Instance live_invariant.

Lemma create_settles e id_bytes secret new v v' record text : length id_bytes = 8%nat → kept valid_keys True v →
  ApiKeyStore_create keys_file_bytes e id_bytes secret new v = (v', Ok (record, text)) →
  settled (live record) False v' ∧ text = api_key_text id_bytes secret ∧
  ∃ name recipient, recipient_from_seed (api_key_recipient_seed secret) = Ok recipient ∧
    record = new_key_record e (id_hex id_bytes) name secret recipient new.
Proof.
  intros Hid Hv. unfold ApiKeyStore_create, lock_keys, lift_result, mret, M_ret, mbind, M_bind.
  destruct (validate_key_name _) as [name|]; [|done]. destruct (scopes_validate _) as [[]|]; [|done].
  destruct (recipient_from_seed _) as [pk|] eqn:Hpk; [|done]. destruct (guard_err _ _) as [[]|]; [|done].
  destruct (guard_err _ _) as [[]|]; [|done]. pose proof (stays_reload valid_keys True v Hv) as Hr.
  destruct (keys_reload_if_changed v) as [v1 [changed|]]; [|done]. destruct Hr as (_ & _ & Hvalid).
  unfold insert_key. destruct (_ <=? _); [done|]. unfold keys_write, write_key_records. destruct (x_io e); [done|].
  destruct (_ <? _) eqn:Hmax; [done|]. apply N.ltb_ge in Hmax. set (r := new_key_record _ _ _ _ _ _) in *. intros [= <- <- <-]. cbn in Hmax |- *.
  assert (live r (prune_revoked (<[id_hex id_bytes := r]> (ki_keys (v_inner v1))))) as Hlive.
  { pose proof (valid_keys_insert _ _ r Hvalid (new_key_valid e id_bytes name secret pk new Hid Hpk)) as Hins.
    apply prune_keeps in Hins as [Hins Hk]. split; [done|]. exists r. split; [|done]. apply Hk; [|done]. apply lookup_insert_eq. }
  split; [|by eauto]. split; [|by split]. cbn. unfold file_kept.
  match goal with |- context [Some {| kd_regular := true; kd_owner_only := true; kd_stamp := ?s; kd_json := _ |}] => pose proof (written_readable s) as Hread end.
  unfold written_keys in Hread. by rewrite Hread; [|apply Hlive|..].
Qed.

(** C27: A created key authenticates. In any world the processes can reach, once a
    process created a key then, whatever any of them does short of revoking it,
    changing its expiry or drawing its id again, every process accepts the
    returned text until the key expires, as the key of that id, and derives
    from it the seed of the recipient in its record. *)
Theorem created_key_authenticates d p e id_bytes secret new w0 w1 w2 record text :
  length id_bytes = 8%nat → length secret = SECRET_LEN →
  rtc (key_step keys_file_bytes drawn) {| kw_disk := d; kw_procs := ∅ |} w0 →
  run_at p (ApiKeyStore_create keys_file_bytes e id_bytes secret new) w0 = (w1, Some (Ok (record, text))) → new_version p w0 w1 →
  rtc (key_step keys_file_bytes (leaves_key record)) w1 w2 →
  ∀ q e', is_Some (kw_procs w2 !! q) → match nk_expires_at new with Some expires => x_unix_ms e' < expires | None => True end →
  ∃ w3 key, run_at q (ApiKeyStore_authenticate keys_file_bytes e' text) w2 = (w3, Some (Ok key)) ∧
    ak_id (au_record key) = id_hex id_bytes ∧
    key_from_base64url (ak_history_public_key (au_record key)) = recipient_from_seed (au_seed key).
Proof.
  intros Hid Hs Hreach. unfold run_at at 1. destruct (kw_procs w0 !! p) as [inner0|] eqn:Hp; [|done].
  apply (key_steps_kept keys_file_bytes valid_keys True drawn) in Hreach as [_ Hvalid]; [|apply start_valid_keys]. specialize (Hvalid p inner0 Hp).
  destruct (ApiKeyStore_create _ _ _ _ _ _) as [v r] eqn:Hc. intros [= <- ->] Hn Hrun q e' [inner Hq] Hexp.
  apply create_settles in Hc as (Hset & -> & name & recipient & Hpk & Hrec); [|done..]. apply (settled_world (live record) False) in Hn; [|done].
  apply (key_steps_kept keys_file_bytes (live record) False (leaves_key record)) in Hrun as [_ Hkept]; [|done]. specialize (Hkept q inner Hq).
  destruct (live_authenticate record e' (api_key_text id_bytes secret) secret _ Hkept) as (v' & key & Ha & Hsame & Hseed);
    [rewrite Hrec; by apply parse_api_key_text|by rewrite Hrec|by rewrite Hrec|].
  unfold run_at. rewrite Hq, Ha. do 2 eexists. split; [done|]. destruct Hsame as (-> & _ & -> & _). rewrite Hseed, Hpk, Hrec. split; [done|].
  cbn. rewrite recipient_from_seed_Ok in Hpk. injection Hpk as <-. unfold key_from_base64url, to_bytes. rewrite b64_decode_encode. cbn.
  apply recipient_from_seed_Ok.
Qed.
End roundtrip.
