(* ===== verification/ApiKeysLimit.v ===== *)
(** * API keys: guessing is limited

    How often an address can have a key checked and refused in a minute
    (src/src/server/api/auth.rs). *)
From S2P Require Import Prelude Bytes Text Channel Query DeviceAuth Devices Json JsonObject Model Digest Summary Recipients Keyring Dek HistoryCrypto Record SegmentIndex ApiKeys.
From stdpp Require Import pretty.
From Stdlib Require Import Strings.Byte Ascii ZifyBool.
Local Open Scope N_scope.

Section limit.
Context {Address : Type} `{Countable Address} `{HistoryPrimitives}.
Context (keys_file_bytes : KeysFile → N).
Abbreviation AuthFailures := (gmap Address (N * N)).
Implicit Types (failures : AuthFailures) (a : Address).

Record ApiRequest : Type := {
  rq_env : ApiEnv; rq_address : option Address; rq_authorization : option string; rq_x_api_key : option string;
}.
Definition serve_api (rq : ApiRequest) : M (AuthFailures * View) AppError AuthenticatedKey :=
  require_api_key keys_file_bytes (rq_env rq) (rq_address rq) (rq_authorization rq) (rq_x_api_key rq).
(** A request of [a] whose key was looked up and refused. *)
Definition key_refused a (rq : ApiRequest) (r : result AppError AuthenticatedKey) : bool :=
  bool_decide (rq_address rq = Some a) && match r with Err Unauthenticated => true | _ => false end.
Fixpoint refusals a (rqs : list ApiRequest) (s : AuthFailures * View) : N :=
  match rqs with
  | [] => 0
  | rq :: rqs => let '(s, r) := serve_api rq s in (if key_refused a rq r then 1 else 0) + refusals a rqs s
  end.

(** How often [a] may still be refused before [t + FAILURE_WINDOW]. *)
Definition budget t a failures : N :=
  match failures !! a with
  | None => MAX_FAILURES
  | Some (start, count) => (if start <? t then MAX_FAILURES else 0) + (MAX_FAILURES - count)
  end.

Lemma check_Ok now a failures start count : failures_check now (Some a) failures = Ok tt → failures !! a = Some (start, count) →
  count < MAX_FAILURES ∨ FAILURE_WINDOW ≤ now - start.
Proof.
  intros Hc Hl. unfold failures_check in Hc. cbn [mbind option_bind] in Hc. rewrite Hl in Hc. destruct (_ && _) eqn:Hb; [done|].
  apply andb_false_iff in Hb as [Hb|Hb]; lia.
Qed.
Lemma room_left now a failures : N.of_nat (size failures) < MAX_TRACKED_ADDRESSES → make_address_room now a failures = failures.
Proof. intros Hs. unfold make_address_room. by rewrite (proj2 (N.leb_gt MAX_TRACKED_ADDRESSES _) Hs). Qed.
Lemma record_budget t now a failures : N.of_nat (size failures) < MAX_TRACKED_ADDRESSES → t ≤ now < t + FAILURE_WINDOW →
  failures_check now (Some a) failures = Ok tt → budget t a (failures_record now (Some a) failures) + 1 ≤ budget t a failures.
Proof.
  intros Hs Hw Hc. unfold failures_record. rewrite room_left by done. cbv zeta.
  unfold budget. rewrite lookup_insert_eq. destruct (failures !! a) as [[start count]|] eqn:Hl; cbn [from_option id fst snd].
  - pose proof (check_Ok _ _ _ _ _ Hc Hl) as Hd. unfold MAX_FAILURES, FAILURE_WINDOW in *.
    destruct (_ <=? now - start) eqn:Ho; cbn [fst snd]; [|destruct (start <? t); lia]. rewrite (proj2 (N.ltb_ge now t)) by lia. destruct (start <? t) eqn:Hb; lia.
  - unfold MAX_FAILURES, FAILURE_WINDOW in *. destruct (_ <=? now - now) eqn:Ho; cbn [fst snd]; rewrite (proj2 (N.ltb_ge now t)) by lia; lia.
Qed.
Lemma record_other t now a b failures : N.of_nat (size failures) < MAX_TRACKED_ADDRESSES → b ≠ Some a →
  budget t a (failures_record now b failures) = budget t a failures.
Proof.
  intros Hs Hb. destruct b as [b|]; [|done]. unfold failures_record. rewrite room_left by done. cbv zeta.
  unfold budget. by rewrite lookup_insert_ne by congruence.
Qed.
Lemma record_size now b failures : N.of_nat (size failures) < MAX_TRACKED_ADDRESSES →
  (size (failures_record now b failures) ≤ S (size failures))%nat.
Proof.
  intros Hs. destruct b as [b|]; [|by cbn; lia]. unfold failures_record. rewrite room_left by done. cbv zeta.
  destruct (failures !! b) as [x|] eqn:Hl.
  - rewrite map_size_insert_Some; [lia|by rewrite Hl].
  - rewrite map_size_insert_None; [lia|done].
Qed.
Lemma serve_budget t a rq failures v : N.of_nat (size failures) < MAX_TRACKED_ADDRESSES → t ≤ x_now (rq_env rq) < t + FAILURE_WINDOW →
  let '((failures', _), r) := serve_api rq (failures, v) in
  (size failures' ≤ S (size failures))%nat ∧ (if key_refused a rq r then 1 else 0) + budget t a failures' ≤ budget t a failures.
Proof.
  intros Hs Hw. unfold serve_api, require_api_key, key_refused. destruct (failures_check _ _ _) as [[]|err] eqn:Hc.
  2: { split; [lia|]. destruct err; try (rewrite andb_false_r; lia).
       unfold failures_check in Hc. destruct (rq_address rq) as [b|]; [|done]. cbn [mbind option_bind] in Hc. destruct (failures !! b) as [[]|]; [|done]. by destruct (_ && _). }
  destruct (match presented_key _ _ with Some _ => _ | None => _ end) as [v' [key|err]]; [split; [lia|]; rewrite andb_false_r; lia|].
  split; [by apply record_size|]. rewrite andb_true_r. case_bool_decide as Ha.
  - rewrite Ha in *. pose proof (record_budget t _ a failures Hs Hw Hc). lia.
  - rewrite record_other by done. lia.
Qed.

(** Guessing is limited. Within a minute an address has at most 30 keys
    refused, or 60 when failures of an earlier minute were still counted, as
    long as the table of addresses does not fill up: every further request is
    turned away before its key is looked up. *)
Theorem guessing_is_limited t a rqs failures v :
  Forall (λ rq, t ≤ x_now (rq_env rq) < t + FAILURE_WINDOW) rqs →
  N.of_nat (size failures + length rqs) < MAX_TRACKED_ADDRESSES →
  refusals a rqs (failures, v) ≤ match failures !! a with None => 30 | Some _ => 60 end.
Proof.
  intros Hw Hs. assert (refusals a rqs (failures, v) ≤ budget t a failures) as Hb.
  { revert failures v Hs. induction Hw as [|rq rqs Hrq _ IH]; intros failures v Hs; [by cbn; lia|]. cbn [refusals length] in *.
    pose proof (serve_budget t a rq failures v ltac:(lia) Hrq) as Hv. destruct (serve_api rq (failures, v)) as [[failures' v'] r].
    destruct Hv as [Hsize Hb]. specialize (IH failures' v' ltac:(lia)). lia. }
  unfold budget, MAX_FAILURES in Hb. destruct (failures !! a) as [[start count]|]; [|done]. destruct (start <? t); lia.
Qed.
End limit.
