(* ===== verification/ApiKeysExample.v ===== *)
(** * API keys: examples

    Two processes that share a key file, with base64url and toy primitives. *)
From S2P Require Import Prelude Bytes Text Channel Query DeviceAuth Devices Json JsonObject Model Digest Summary Recipients Keyring Dek HistoryCrypto Record SegmentIndex Base64 ApiKeys ApiKeysInvariant ApiKeysSafety ApiKeysRoundtrip ApiKeysLimit.
From stdpp Require Import pretty.
From Stdlib Require Import Strings.Byte Ascii ZifyBool.
Local Open Scope N_scope.

Definition first_byte (l : bytes) : byte := match l with b :: _ => b | [] => Byte.x00 end.
#[local] Instance small : HistoryPrimitives := {|
  sha256 m := take 32 (rev m ++ replicate 32 Byte.x00);
  hkdf salt input info := input;
  EncapsulationKey := byte;
  ek_try_from m := Some (first_byte m);
  ek_bytes ek := replicate PUBLIC_KEY_LEN ek;
  encapsulate ek r := (replicate KEM_CIPHERTEXT_LEN (first_byte r), [first_byte r]);
  encapsulation_key seed := first_byte seed;
  decapsulate seed ct := [first_byte ct];
  b64_encode := b64url_encode;
  b64_decode := b64url_decode;
|}.
#[local] Instance small_laws : HistoryPrimitivesLaws.
Proof.
  split; intros; cbn [sha256 ek_bytes ek_try_from encapsulate encapsulation_key decapsulate b64_encode b64_decode small fst].
  - rewrite length_take, length_app, length_replicate. lia.
  - apply length_replicate.
  - done.
  - apply length_replicate.
  - done.
  - apply b64url_decode_encode.
Qed.
#[local] Instance small_text : Base64Text.
Proof. split; intros m; [apply b64url_length|apply b64url_printable]. Qed.

(** 2000 bytes a record. *)
Definition file_bytes (f : KeysFile) : N := 2000 * N.of_nat (size (kf_keys f)).
Lemma file_bytes_bound keys : valid_keys keys → 1024 * N.of_nat (size keys) ≤ file_bytes {| kf_version := 1; kf_keys := keys |}.
Proof. intros _. unfold file_bytes. cbn [kf_keys]. lia. Qed.

(** At time [t], the inode of the next version. *)
Definition at_time (t inode : N) : ApiEnv :=
  {| x_unix_ms := t; x_now := t; x_locked := true; x_io := None; x_modified := Some t; x_inode := inode |}.
Definition ci : NewApiKey :=
  {| nk_name := " ci "; nk_scopes := {| sc_agents := None; sc_workspaces := Some ["/srv/app"] |}; nk_approval := Reject; nk_expires_at := Some 9000 |}.
Definition ci_id : bytes := replicate 8 Byte.x1f.
Definition ci_secret : bytes := replicate 32 Byte.xa7.
Definition started : KeysInner := {| ki_keys := ∅; ki_stamp := None; ki_dirty := false; ki_last_flush := 0 |}.
Definition two_processes : KeyWorld := {| kw_disk := None; kw_procs := {[ 1 := started; 2 := started ]} |}.
Definition create_ci := run_at 1 (ApiKeyStore_create file_bytes (at_time 100 7) ci_id ci_secret ci).
(** Process 1 created the key; 2 has not looked yet. *)
Definition with_key : KeyWorld := Eval vm_compute in (create_ci two_processes).1.
Definition ci_record : ApiKeyRecord := Eval vm_compute in
  match (create_ci two_processes).2 with
  | Some (Ok (record, _)) => record
  | _ => new_key_record (at_time 0 0) "" "" [] {| rp_key := Byte.x00 : EncapsulationKey; rp_rid := [] |} ci
  end.
Definition ci_text : string := "tdx_1f1f1f1f1f1f1f1f_p6enp6enp6enp6enp6enp6enp6enp6enp6enp6enp6c".

Example created_text : create_ci two_processes = (with_key, Some (Ok (ci_record, ci_text))).
Proof. vm_compute. reflexivity. Qed.
Example scopes_of_key : (allows_workspace Some (ak_scopes ci_record) "/srv/app/web", allows_workspace Some (ak_scopes ci_record) "/srv/application",
  key_status 9000 ci_record) = (true, false, "expired").
Proof. vm_compute. reflexivity. Qed.

(** [new_version], checked for every process. *)
Lemma new_version_dec p w w' :
  bool_decide (map_Forall (λ q inner, q = p ∨ keys_stamp (kw_disk w') ≠ ki_stamp inner) (kw_procs w)) = true → new_version p w w'.
Proof. intros Hb%bool_decide_eq_true q inner Hne Hq. by destruct (Hb q inner Hq). Qed.

(** Process 2 accepts the text of the key that process 1 created. *)
Lemma created_key_authenticates_witness :
  ∃ w3 key, run_at 2 (ApiKeyStore_authenticate file_bytes (at_time 200 8) ci_text) with_key = (w3, Some (Ok key)) ∧
    ak_id (au_record key) = id_hex ci_id ∧
    key_from_base64url (ak_history_public_key (au_record key)) = recipient_from_seed (au_seed key).
Proof.
  apply (created_key_authenticates file_bytes file_bytes_bound None 1 (at_time 100 7) ci_id ci_secret ci two_processes with_key with_key ci_record).
  - reflexivity.
  - reflexivity.
  - eapply rtc_l; [by apply (ks_load _ _ _ 2 0 started)|]. eapply rtc_l; [by apply (ks_load _ _ _ 1 0 started)|]. apply rtc_refl.
  - apply created_text.
  - apply new_version_dec. vm_compute. reflexivity.
  - apply rtc_refl.
  - vm_compute. by eexists.
  - vm_compute. reflexivity.
Defined.

Definition revoke_ci := run_at 2 (ApiKeyStore_revoke file_bytes (at_time 300 9) (ak_id ci_record)).
(** Process 1 still has the key, and another process starts. *)
Definition without_key : KeyWorld := Eval vm_compute in (revoke_ci with_key).1.
Definition restarted : KeysInner := Eval vm_compute in
  match ApiKeyStore_load 400 (kw_disk without_key) with Ok inner => inner | Err _ => started end.

Lemma revoked_api_key_is_refused_witness :
  ¬ ∃ key, (run_at 1 (ApiKeyStore_authenticate file_bytes (at_time 500 10) ci_text)
    {| kw_disk := kw_disk without_key; kw_procs := <[3 := restarted]> (kw_procs without_key) |}).2 = Some (Ok key).
Proof.
  intros [key Ha]. destruct (revoked_api_key_is_refused file_bytes (ak_id ci_record) 2 (at_time 300 9) with_key without_key
    {| kw_disk := kw_disk without_key; kw_procs := <[3 := restarted]> (kw_procs without_key) |}) with (q := 1) (e' := at_time 500 10) as [Hr _].
  - vm_compute. reflexivity.
  - apply new_version_dec. vm_compute. reflexivity.
  - apply rtc_once, (ks_load _ _ _ 3 400 restarted). vm_compute. reflexivity.
  - apply Hr in Ha as (id' & secret & Hp & Hne). vm_compute in Hp. injection Hp as <- _. by apply Hne.
Defined.

(** The disk is full. *)
Definition full (t : N) : ApiEnv :=
  {| x_unix_ms := t; x_now := t; x_locked := true; x_io := Some (IoError "no space left on device"); x_modified := None; x_inode := 0 |}.
Definition view_1 : View := {| v_disk := kw_disk with_key; v_inner := default started (kw_procs with_key !! 1) |}.

Lemma failed_revocation_is_lost_witness :
  let '(v1, answer) := ApiKeyStore_revoke file_bytes (full 300) (ak_id ci_record) view_1 in
  answer = Err (IoError "no space left on device") ∧
  (∀ e2, x_locked e2 = true → ApiKeyStore_revoke file_bytes e2 (ak_id ci_record) v1 = (v1, Ok false)) ∧
  (∀ now inner, ApiKeyStore_load now (v_disk v1) = Ok inner → ki_keys inner !! ak_id ci_record = Some ci_record).
Proof. apply (failed_revocation_is_lost file_bytes (full 300) (ak_id ci_record) ci_record); vm_compute; reflexivity. Defined.

(** Forty wrong keys from one address. *)
Definition guess : @ApiRequest N :=
  {| rq_env := at_time 1000 11; rq_address := Some 10; rq_authorization := Some "Bearer  tdx_abc "; rq_x_api_key := None |}.
Lemma guessing_is_limited_witness : refusals file_bytes 10 (replicate 40 guess) (∅, view_1) ≤ 30.
Proof.
  assert (Forall (λ rq, 1000 ≤ x_now (rq_env rq) < 1000 + FAILURE_WINDOW) (replicate 40 guess)) as Hw by by apply Forall_replicate.
  pose proof (guessing_is_limited file_bytes 1000 10 (replicate 40 guess) ∅ view_1 Hw eq_refl) as Hl.
  rewrite lookup_empty in Hl. exact Hl.
Defined.
Example exactly_thirty : refusals file_bytes 10 (replicate 40 guess) (∅, view_1) = 30.
Proof. vm_compute. reflexivity. Qed.
