(* ===== verification/AgentEvents.v ===== *)
(** * Events of called agents

    Model of src/src/agent_calls/events.rs: how the end and the text of a turn
    are recognized, what a tap keeps of an event ([tap_projection]), and the
    stream an API key reads a conversation from ([EventPump]), which combines
    the journal with the live hub. Each round of the loop of [next_batch] is one
    step with the answers of the store and of the hub as arguments; it changes
    the pump after its last [await], so a dropped call is a round that did not
    happen. *)
From S2P Require Import Prelude Json JsonObject Model Digest.
From Stdlib Require Import ZifyBool.
Local Open Scope N_scope.

Section events.
Context `{JsonView}.

Definition ends_turn (event : ConversationEvent) (turn_id : option string) : bool :=
  one_of CONVERSATION_TERMINAL_EVENTS (event_type event) ||
  one_of TURN_TERMINAL_EVENTS (event_type event) &&
  match turn_id with None => true | Some _ => bool_decide (text (payload event) "turnId" = turn_id) end.

Definition assistant_text (event : ConversationEvent) : option string :=
  let payload := payload event in
  let at_ p := pointer payload p ≫= as_str in
  if negb (one_of ["message.delta"] (event_type event)) then None
  else if match get payload "subagentId" with Some id => negb (is_null id) | None => false end then None
  else
    match text payload "delta" with
    | Some text => Some text
    | None =>
        if bool_decide (at_ "/delta/type" = Some "text_delta") then
          match pointer payload "/delta/text" with Some v => as_str v | None => at_ "/delta/delta" end
        else if bool_decide (at_ "/content/type" = Some "text") then at_ "/content/text"
        else None
    end.

Definition ERROR_FIELDS : list string := ["turnId"; "code"; "message"; "error"].
Definition PERMISSION_FIELDS : list string := ["turnId"; "permissionId"].
Definition PERMISSION_EVENTS : list string := ["permission.requested"; "permission.resolved"].
(** [keep]: the named members the payload has. *)
Definition keep_fields (event : ConversationEvent) (fields : list string) : gmap string Value :=
  foldr (λ field m, match get (payload event) field with Some v => <[field := v]> m | None => m end) ∅ fields.
Definition tap_payload (event : ConversationEvent) : option Value :=
  match assistant_text event with
  | Some text => Some (object_value (<["delta" := string_value text]> (keep_fields event ["turnId"])))
  | None =>
      if ends_turn event None then Some (object_value (keep_fields event ERROR_FIELDS))
      else if one_of PERMISSION_EVENTS (event_type event) then Some (object_value (keep_fields event PERMISSION_FIELDS))
      else None
  end.
(** [id] is the id of the new event. *)
Definition tap_projection (id : string) (event : ConversationEvent) : option ConversationEvent :=
  payload ← tap_payload event;
  Some (ConversationEvent_new id (time event) (conversation_id event) (sequence event) (event_type event) payload).
End events.

(** ** The stream of an API key *)
Section pump.
Context `{JsonView} {Reader Frames : Type}.
(** [HistoryReader::present], and no frames. *)
Context (present : ConversationEvent → Frames → Reader → Reader * ConversationEvent) (no_frames : Frames).

Record EventPump : Type := {
  pm_reader : Reader;
  pm_cursor : N;
  pm_catching_up : bool;
  pm_pending : option ConversationEvent;
}.
Definition EventPump_new (reader : Reader) (after : N) : EventPump :=
  {| pm_reader := reader; pm_cursor := after; pm_catching_up := true; pm_pending := None |}.

(** What [replay_owned] answers, and [subscription.recv]. *)
Record ReplayAnswer : Type := { ra_events : list ConversationEvent; ra_frames : Frames; ra_has_more : bool }.
Inductive Recv : Type := Received (event : ConversationEvent) | Lagged | Closed.
Record PumpEnv : Type := { pe_replay : result AppError ReplayAnswer; pe_recv : Recv }.

(** [AppError], with its [StreamClosed]. *)
Inductive PumpError : Type := ReplayFailed (error : AppError) | StreamClosed.
(** A round of the loop: again, or what [next_batch] returns. *)
Inductive Round : Type := Again | Returned (r : result PumpError (list ConversationEvent)).

Fixpoint present_all (events : list ConversationEvent) (frames : Frames) (reader : Reader) : Reader * list ConversationEvent :=
  match events with
  | [] => (reader, [])
  | event :: events =>
      let '(reader, event) := present event frames reader in
      let '(reader, events) := present_all events frames reader in (reader, event :: events)
  end.
Definition set_catching_up (b : bool) (self : EventPump) : EventPump :=
  {| pm_reader := pm_reader self; pm_cursor := pm_cursor self; pm_catching_up := b; pm_pending := pm_pending self |}.
Definition next_round (e : PumpEnv) (self : EventPump) : EventPump * Round :=
  match pm_pending self with
  | Some event =>
      let '(reader, presented) := present event no_frames (pm_reader self) in
      ({| pm_reader := reader; pm_cursor := sequence event; pm_catching_up := pm_catching_up self; pm_pending := None |},
       Returned (Ok [presented]))
  | None =>
      if pm_catching_up self then
        match pe_replay e with
        | Err error => (self, Returned (Err (ReplayFailed error)))
        | Ok replay =>
            let caught_up := negb (ra_has_more replay) || bool_decide (ra_events replay = []) in
            let cursor := foldl N.max (pm_cursor self) (sequence <$> ra_events replay) in
            let '(reader, events) := present_all (ra_events replay) (ra_frames replay) (pm_reader self) in
            ({| pm_reader := reader; pm_cursor := cursor; pm_catching_up := negb caught_up; pm_pending := None |},
             if bool_decide (ra_events replay = []) then Again else Returned (Ok events))
        end
      else
        match pe_recv e with
        | Received event =>
            if sequence event <=? pm_cursor self then (self, Again)
            else if pm_cursor self + 1 <? sequence event then (set_catching_up true self, Again)
            else ({| pm_reader := pm_reader self; pm_cursor := pm_cursor self; pm_catching_up := pm_catching_up self;
                     pm_pending := Some event |}, Again)
        | Lagged => (set_catching_up true self, Again)
        | Closed => (self, Returned (Err StreamClosed))
        end
  end.
(** The rounds of any number of calls, and all they return. *)
Fixpoint pump_run (es : list PumpEnv) (self : EventPump) : EventPump * list ConversationEvent :=
  match es with
  | [] => (self, [])
  | e :: es =>
      let '(self, round) := next_round e self in
      let '(self, rest) := pump_run es self in
      (self, match round with Returned (Ok events) => events ++ rest | _ => rest end)
  end.

(** ** What it delivers *)
Section delivery.
Context (log : list ConversationEvent).
(** The journal: dense sequences from 1. *)
Hypothesis log_dense : ∀ i e, log !! i = Some e → sequence e = N.of_nat i + 1.

(** What was committed meanwhile is in the journal: a page holds the records
    after the cursor, and the hub publishes records of the journal. *)
Definition answers_from_log (cursor : N) (e : PumpEnv) : Prop :=
  (∀ replay, pe_replay e = Ok replay → ra_events replay `prefix_of` drop (N.to_nat cursor) log) ∧
  (∀ event, pe_recv e = Received event → event ∈ log).
Fixpoint run_from_log (es : list PumpEnv) (self : EventPump) : Prop :=
  match es with
  | [] => True
  | e :: es => answers_from_log (pm_cursor self) e ∧ run_from_log es (next_round e self).1
  end.
(** [out] is [event] as it was presented. *)
Definition presents (event out : ConversationEvent) : Prop := ∃ frames reader, out = (present event frames reader).2.
Definition pump_ok (self : EventPump) : Prop :=
  pm_cursor self ≤ N.of_nat (length log) ∧
  ∀ event, pm_pending self = Some event → log !! N.to_nat (pm_cursor self) = Some event.

Lemma max_of_run (l : list ConversationEvent) c : l `prefix_of` drop (N.to_nat c) log →
  foldl N.max c (sequence <$> l) = c + N.of_nat (length l).
Proof.
  revert c. induction l as [|e l IH]; intros c Hp; [cbn; lia|]. destruct Hp as [rest Hp].
  assert (log !! N.to_nat c = Some e) as Hc.
  { rewrite <-(Nat.add_0_r (N.to_nat c)), <-lookup_drop, Hp. done. }
  pose proof (log_dense _ _ Hc) as Hs. cbn [fmap list_fmap foldl]. rewrite Hs, N2Nat.id.
  replace (c `max` (c + 1)) with (c + 1) by lia. rewrite IH; [cbn [length]; lia|]. exists rest.
  replace (N.to_nat (c + 1)) with (1 + N.to_nat c)%nat by lia. rewrite Nat.add_comm, <-drop_drop, Hp. done.
Qed.
Lemma present_all_presents l frames reader : Forall2 presents l (present_all l frames reader).2.
Proof.
  revert reader. induction l as [|e l IH]; intros reader; [constructor|]. cbn.
  destruct (present e frames reader) as [reader1 out] eqn:Ho. specialize (IH reader1). destruct (present_all l frames reader1) as [reader2 outs].
  constructor; [|done]. exists frames, reader. by rewrite Ho.
Qed.
(** One round delivers the records right after the cursor, or none. *)
Lemma round_delivers e self : pump_ok self → answers_from_log (pm_cursor self) e →
  let '(self', round) := next_round e self in
  pump_ok self' ∧
  ∃ l, l `prefix_of` drop (N.to_nat (pm_cursor self)) log ∧ pm_cursor self' = pm_cursor self + N.of_nat (length l) ∧
    Forall2 presents l (match round with Returned (Ok events) => events | _ => [] end).
Proof.
  intros [Hlen Hpend] [Hpage Hrecv]. unfold next_round. destruct (pm_pending self) as [event|] eqn:Hp.
  - specialize (Hpend event eq_refl). pose proof (log_dense _ _ Hpend) as Hs. rewrite N2Nat.id in Hs.
    destruct (present event no_frames (pm_reader self)) as [reader out] eqn:Ho. apply lookup_lt_Some in Hpend as Hlt.
    split; [split; [cbn; lia|done]|]. exists [event]. split_and!; [|cbn; lia|].
    + rewrite (drop_S _ event) by done. by apply prefix_cons, prefix_nil.
    + constructor; [|done]. exists no_frames, (pm_reader self). by rewrite Ho.
  - assert (∃ l, l `prefix_of` drop (N.to_nat (pm_cursor self)) log ∧ pm_cursor self = pm_cursor self + N.of_nat (length l) ∧
      Forall2 presents l []) as Hnone by (exists []; split_and!; [apply prefix_nil|cbn; lia|done]).
    destruct (pm_catching_up self).
    + destruct (pe_replay e) as [replay|error] eqn:Hr; [|split; [by split; [|rewrite Hp]|exact Hnone]].
      specialize (Hpage replay eq_refl). pose proof (present_all_presents (ra_events replay) (ra_frames replay) (pm_reader self)) as Hout.
      destruct (present_all _ _ _) as [reader outs]. cbn [snd] in Hout. rewrite (max_of_run _ _ Hpage).
      apply prefix_length in Hpage as Hl. rewrite length_drop in Hl. split; [split; [cbn; lia|done]|]. exists (ra_events replay).
      split_and!; [done|done|]. case_bool_decide as Hnil; [|done]. by rewrite Hnil.
    + assert (∀ b, pump_ok (set_catching_up b self)) as Hok by (intros b; split; [done|]; cbn; by rewrite Hp).
      destruct (pe_recv e) as [event| |]; [|by split|by split; [split; [done|rewrite Hp]|]].
      destruct (_ <=? _) eqn:H1; [by split; [split; [done|rewrite Hp]|]|]. destruct (_ <? _) eqn:H2; [by split|]. split; [|done].
      split; [done|]. cbn. intros ? [= <-]. specialize (Hrecv event eq_refl). apply list_elem_of_lookup in Hrecv as [i Hi].
      pose proof (log_dense _ _ Hi). replace (N.to_nat (pm_cursor self)) with i by lia. done.
Qed.

Lemma rounds_deliver es self : pump_ok self → run_from_log es self →
  let '(self', delivered) := pump_run es self in
  Forall2 presents (take (N.to_nat (pm_cursor self') - N.to_nat (pm_cursor self)) (drop (N.to_nat (pm_cursor self)) log)) delivered ∧
  pm_cursor self' = pm_cursor self + N.of_nat (length delivered).
Proof.
  revert self. induction es as [|e es IH]; intros self Hok Hrun; cbn [pump_run].
  { rewrite Nat.sub_diag, take_0. split; [done|]. cbn. lia. }
  destruct Hrun as [Ha Hrun]. pose proof (round_delivers e self Hok Ha) as Hr. destruct (next_round e self) as [self1 round].
  destruct Hr as (Hok1 & l & Hl & Hc & Hp). specialize (IH self1 Hok1 Hrun). destruct (pump_run es self1) as [self2 rest].
  destruct IH as [Hrest Hc2]. set (got := match round with Returned (Ok events) => events | _ => [] end) in *.
  replace (match round with Returned (Ok events) => events ++ rest | _ => rest end) with (got ++ rest) by (unfold got; by destruct round as [|[]]).
  pose proof (Forall2_length _ _ _ Hp) as Hlen. rewrite length_app. split; [|lia].
  destruct Hl as [tail Htail]. rewrite Htail.
  replace (N.to_nat (pm_cursor self2) - N.to_nat (pm_cursor self))%nat with (length l + length rest)%nat by lia.
  rewrite take_app_add. apply Forall2_app; [done|].
  replace (N.to_nat (pm_cursor self2) - N.to_nat (pm_cursor self1))%nat with (length rest) in Hrest by lia.
  replace (N.to_nat (pm_cursor self1)) with (N.to_nat (pm_cursor self) + length l)%nat in Hrest by lia.
  rewrite <-drop_drop, Htail, drop_app_length in Hrest. done.
Qed.
(** C33: The stream of an API key loses and repeats nothing. Whatever pages the
    journal answers and whatever the hub publishes, drops or repeats, the
    events delivered are the records after the starting point, in order, each
    once, up to the cursor. *)
Theorem pump_delivers_the_journal es reader after :
  after ≤ N.of_nat (length log) → run_from_log es (EventPump_new reader after) →
  let '(self, delivered) := pump_run es (EventPump_new reader after) in
  Forall2 presents (take (N.to_nat (pm_cursor self) - N.to_nat after) (drop (N.to_nat after) log)) delivered ∧
  pm_cursor self = after + N.of_nat (length delivered).
Proof. intros Hlen Hrun. by apply (rounds_deliver es (EventPump_new reader after)). Qed.
End delivery.
End pump.
