(* ===== verification/AgentCalls.v ===== *)
(** * Agent calls

    Model of src/src/agent_calls/calls.rs: the calls by which an agent (the
    parent conversation) runs turns of other agents (its children), from the
    reservation that is taken before a child is prompted to the monitor that
    follows the turn to its end, the hooks by which a stopped or removed parent
    reaches its children, and the list of running calls a restart reports. The
    turns that the table, the monitors and the waiters share are a store of
    their own ([in_turns]). What the supervisor answers is an argument; what a
    call asks of it is a list of [CallEffect]s. A journalled event is the record
    of its fields, the list of running calls is the parsed file. *)
From S2P Require Import Prelude Json JsonObject Model Digest SegmentIndex Payload AgentEvents.
From Stdlib Require Import Ascii ZifyBool.
Local Open Scope N_scope.

(** [LIMITS.max_concurrent_calls]. *)
Definition MAX_CONCURRENT_CALLS : N := 4.
Definition MAX_OUTPUT_BYTES : N := 256 * 1024.
Definition MAX_EVENT_OUTPUT_BYTES : N := 64 * 1024.
Definition MAX_EVENT_TEXT_BYTES : N := 16 * 1024.
Definition TRUNCATED_NOTE : string := String "010"%char "[output truncated]".
Definition TURN_END_UNOBSERVED : string := "TURN_END_UNOBSERVED".

(** [prefix] and [bounded]. *)
Definition text_prefix (text : string) (bytes : N) : string :=
  if text_len text <=? bytes then text else text_before text (floor_boundary text (N.to_nat bytes)).
Definition bounded (text : string) (bytes : N) : string :=
  if text_len text <=? bytes then text else text_prefix text bytes +:+ TRUNCATED_NOTE.

(** ** The state of a turn *)

Inductive CallStatus : Type := CallRunning | CallWaitingPermission | CallCompleted | CallFailed | CallCancelled | CallInterrupted.
#[export] Instance CallStatus_eq_dec : EqDecision CallStatus.
Proof. solve_decision. Defined.
Definition call_as_str (self : CallStatus) : string :=
  match self with
  | CallRunning => "running" | CallWaitingPermission => "waiting_permission" | CallCompleted => "completed"
  | CallFailed => "failed" | CallCancelled => "cancelled" | CallInterrupted => "interrupted"
  end.
Definition call_is_running (self : CallStatus) : bool :=
  match self with CallRunning | CallWaitingPermission => true | _ => false end.
Definition call_from_terminal (event_type : string) : CallStatus :=
  let status := match SegmentIndex.strip_prefix "turn." event_type with
                | Some s => s
                | None => default event_type (SegmentIndex.strip_prefix "conversation." event_type)
                end in
  if one_of ["completed"] status then CallCompleted
  else if one_of ["cancelled"] status then CallCancelled
  else if one_of ["interrupted"] status then CallInterrupted
  else CallFailed.
(** The status a tool result reports. *)
Definition call_reported (self : CallStatus) : string :=
  match self with CallWaitingPermission => call_as_str CallRunning | other => call_as_str other end.

Record CallError : Type := { ce_code : option string; ce_message : string }.
Section errors.
Context `{JsonView}.
Definition CallError_from_terminal (payload : Value) : CallError :=
  let error := get payload "error" in
  let code := match get payload "code" with Some v => Some v | None => error ≫= λ error, get error "code" end ≫= as_str in
  let message :=
    match text payload "message" with
    | Some m => Some m
    | None => match error ≫= as_str with Some m => Some m | None => error ≫= λ error, text error "message" end
    end in
  {| ce_code := code; ce_message := default "the agent call did not complete" message |}.
End errors.

Record TurnState : Type := { ts_status : CallStatus; ts_output : string; ts_truncated : bool; ts_error : option CallError }.
Definition TurnState_new : TurnState := {| ts_status := CallRunning; ts_output := ""; ts_truncated := false; ts_error := None |}.
Definition push_output (text : string) (self : TurnState) : TurnState :=
  if ts_truncated self then self
  else
    let room := MAX_OUTPUT_BYTES - text_len (ts_output self) in
    if text_len text <=? room
    then {| ts_status := ts_status self; ts_output := ts_output self +:+ text; ts_truncated := false; ts_error := ts_error self |}
    else {| ts_status := ts_status self; ts_output := ts_output self +:+ text_prefix text room +:+ TRUNCATED_NOTE;
            ts_truncated := true; ts_error := ts_error self |}.
(** Moves a running turn to [status], and whether that changed it. *)
Definition set_running_status (status : CallStatus) (self : TurnState) : TurnState * bool :=
  if call_is_running (ts_status self) && negb (bool_decide (ts_status self = status))
  then ({| ts_status := status; ts_output := ts_output self; ts_truncated := ts_truncated self; ts_error := ts_error self |}, true)
  else (self, false).

(** ** The table *)

Record CallTurn : Type := { ct_turn_id : string; ct_state : TurnState; ct_started : N }.
(** [cc_turn] is a shared turn. *)
Record ChildCall : Type := { cc_parent_id : string; cc_owner_id : string; cc_turn : option N }.
Record Starting : Type := {
  st_parent_id : string; st_child_id : option string; st_parent_turn : option string; st_stopped : bool;
}.
Record CallState : Type := { cs_children : gmap string ChildCall; cs_starting : gmap N Starting; cs_next_start : N }.
Inductive StartRefusal : Type := Limit | Busy (turn : option string).
Record RunningCall : Type := {
  rc_parent : string; rc_child : string; rc_turn : string; rc_agent : ProviderKind; rc_started_at : Z;
}.
Record CallsInner : Type := {
  in_state : CallState;
  in_turns : gmap N CallTurn;
  in_next_turn : N;
  in_persisted : gmap string RunningCall;
  in_parents : gset string;
  in_file : option (list RunningCall);
}.
Definition put_state (state : CallState) (s : CallsInner) : CallsInner :=
  {| in_state := state; in_turns := in_turns s; in_next_turn := in_next_turn s; in_persisted := in_persisted s;
     in_parents := in_parents s; in_file := in_file s |}.
Definition put_turn (ref : N) (turn : CallTurn) (s : CallsInner) : CallsInner :=
  {| in_state := in_state s; in_turns := <[ref := turn]> (in_turns s); in_next_turn := in_next_turn s;
     in_persisted := in_persisted s; in_parents := in_parents s; in_file := in_file s |}.
Definition put_persisted (persisted : gmap string RunningCall) (file : option (list RunningCall)) (s : CallsInner) : CallsInner :=
  {| in_state := in_state s; in_turns := in_turns s; in_next_turn := in_next_turn s; in_persisted := persisted;
     in_parents := in_parents s; in_file := file |}.

(** What [agent.call.started] says of a call. *)
Record CallDetails : Type := {
  cd_agent : ProviderKind; cd_text : string; cd_started_at : Z;
  cd_model : option string; cd_reasoning_effort : option string; cd_title : option string;
}.
(** [agent.call.*] in the journal of the parent. *)
Record CallEvent : Type := {
  ev_type : string; ev_child : string; ev_turn : string; ev_status : CallStatus;
  ev_details : option CallDetails; ev_output : option string; ev_error : option CallError; ev_duration_ms : option N;
}.
Inductive CallEffect : Type :=
  | RecordEvent (parent : string) (event : CallEvent)
  | CancelOwned (owner child : string) (turn : option string)
  | DeleteChildren (parent : string).

Section calls.
Context (active_turn_id : string → option string) (is_shutting_down : bool).
Implicit Types (s : CallsInner).

Definition turn_running s (ref : N) : bool :=
  match in_turns s !! ref with Some turn => call_is_running (ts_status (ct_state turn)) | None => false end.
Definition child_running s (child : ChildCall) : bool := match cc_turn child with Some ref => turn_running s ref | None => false end.
(** [State::running]. *)
Definition running_children s (parent_id : string) : gmap string ChildCall :=
  filter (λ p : string * ChildCall, cc_parent_id p.2 = parent_id ∧ child_running s p.2 = true) (cs_children (in_state s)).
Definition starting_calls s (parent_id : string) : gmap N Starting :=
  filter (λ p : N * Starting, st_parent_id p.2 = parent_id) (cs_starting (in_state s)).
Definition running s (parent_id : string) : N := N.of_nat (size (running_children s parent_id) + size (starting_calls s parent_id)).
Definition running_turn s (child_id : string) : option string :=
  child ← cs_children (in_state s) !! child_id;
  ref ← cc_turn child;
  turn ← in_turns s !! ref;
  if call_is_running (ts_status (ct_state turn)) then Some (ct_turn_id turn) else None.
Definition is_starting s (child_id : string) : bool :=
  bool_decide (map_Exists (λ _ starting, st_child_id starting = Some child_id) (cs_starting (in_state s))).

Definition reserve (parent_id : string) (child_id : option string) : M CallsInner StartRefusal N := λ s,
  let refusal :=
    match child_id with
    | None => None
    | Some child_id =>
        if is_starting s child_id then Some (Busy None)
        else
          match match running_turn s child_id with Some t => Some t | None => active_turn_id child_id end with
          | Some turn_id => Some (Busy (Some turn_id))
          | None => None
          end
    end in
  match refusal with
  | Some refusal => (s, Err refusal)
  | None =>
      if MAX_CONCURRENT_CALLS <=? running s parent_id then (s, Err Limit)
      else
        let id := cs_next_start (in_state s) in
        let starting := {| st_parent_id := parent_id; st_child_id := child_id; st_parent_turn := active_turn_id parent_id;
                           st_stopped := false |} in
        (put_state {| cs_children := cs_children (in_state s); cs_starting := <[id := starting]> (cs_starting (in_state s));
                      cs_next_start := id + 1 |} s, Ok id)
  end.
(** [Reservation::drop]. *)
Definition drop_reservation (id : N) s : CallsInner :=
  put_state {| cs_children := cs_children (in_state s); cs_starting := delete id (cs_starting (in_state s));
               cs_next_start := cs_next_start (in_state s) |} s.

(** ** The list of running calls *)

(** [sort_by_key(|call| call.started_at)]. *)
Fixpoint insert_call (c : RunningCall) (l : list RunningCall) : list RunningCall :=
  match l with
  | [] => [c]
  | x :: l => if (rc_started_at c <=? rc_started_at x)%Z then c :: x :: l else x :: insert_call c l
  end.
Definition sorted_calls (persisted : gmap string RunningCall) : list RunningCall :=
  foldr insert_call [] (map_to_list persisted).*2.
(** An empty list removes the file; [written] is whether the disk took it. *)
Definition write_persisted (written : bool) s : CallsInner :=
  if written
  then put_persisted (in_persisted s) (match sorted_calls (in_persisted s) with [] => None | calls => Some calls end) s
  else s.
Definition persist_running (written : bool) (call : RunningCall) s : CallsInner :=
  write_persisted written (put_persisted (<[rc_turn call := call]> (in_persisted s)) (in_file s) s).
Definition forget_running (written : bool) (turn_id : string) s : CallsInner :=
  match in_persisted s !! turn_id with
  | None => s
  | Some _ => write_persisted written (put_persisted (delete turn_id (in_persisted s)) (in_file s) s)
  end.

(** ** A started turn *)

Record StartedCall : Type := {
  sc_parent : string; sc_parent_ephemeral : bool;
  sc_child : string; sc_owner : string; sc_child_ephemeral : bool; sc_agent : ProviderKind;
  sc_turn_id : string; sc_text : string;
  sc_model : option string; sc_reasoning_effort : option string; sc_title : option string;
}.
Record TrackEnv : Type := { te_now : N; te_started_at : Z; te_written : bool }.

(** What [track] does under the lock: the reservation becomes a running turn,
    and whether the turn that made the call was stopped meanwhile. *)
Definition track_locked (e : TrackEnv) (id : N) (c : StartedCall) s : CallsInner * N * bool :=
  let starting := cs_starting (in_state s) !! id in
  let ref := in_next_turn s in
  let child := {| cc_parent_id := sc_parent c; cc_owner_id := sc_owner c; cc_turn := Some ref |} in
  let stopped :=
    match starting with
    | None => false
    | Some starting =>
        st_stopped starting ||
        match st_parent_turn starting with
        | None => false
        | Some parent_turn => negb (bool_decide (active_turn_id (sc_parent c) = Some parent_turn))
        end
    end in
  ({| in_state := {| cs_children := <[sc_child c := child]> (cs_children (in_state s));
                     cs_starting := delete id (cs_starting (in_state s)); cs_next_start := cs_next_start (in_state s) |};
      in_turns := <[ref := {| ct_turn_id := sc_turn_id c; ct_state := TurnState_new; ct_started := te_now e |}]> (in_turns s);
      in_next_turn := ref + 1; in_persisted := in_persisted s; in_parents := in_parents s; in_file := in_file s |}, ref, stopped).
Definition call_started (e : TrackEnv) (c : StartedCall) : CallEvent :=
  {| ev_type := "agent.call.started"; ev_child := sc_child c; ev_turn := sc_turn_id c; ev_status := CallRunning;
     ev_details := Some {| cd_agent := sc_agent c; cd_text := bounded (sc_text c) MAX_EVENT_TEXT_BYTES;
       cd_started_at := te_started_at e; cd_model := sc_model c; cd_reasoning_effort := sc_reasoning_effort c; cd_title := sc_title c |};
     ev_output := None; ev_error := None; ev_duration_ms := None |}.
Definition track (e : TrackEnv) (id : N) (c : StartedCall) s : CallsInner * N * bool * list CallEffect :=
  let '(s, ref, stopped) := track_locked e id c s in
  let s := if negb (sc_parent_ephemeral c) && negb (sc_child_ephemeral c) then
             persist_running (te_written e) {| rc_parent := sc_parent c; rc_child := sc_child c; rc_turn := sc_turn_id c;
               rc_agent := sc_agent c; rc_started_at := te_started_at e |} s
           else s in
  (s, ref, stopped,
   RecordEvent (sc_parent c) (call_started e c) :: (if stopped then [CancelOwned (sc_owner c) (sc_child c) (Some (sc_turn_id c))] else [])).

Record CallResult : Type := {
  cr_conversation_id : string; cr_turn_id : string; cr_status : CallStatus; cr_output : string; cr_error : option CallError;
}.
(** [wait], once its turn ended or the time passed. *)
Definition call_wait (child_id : string) (turn_id : option string) s : result AppError CallResult :=
  let turn := child ← cs_children (in_state s) !! child_id; ref ← cc_turn child; in_turns s !! ref in
  match turn with
  | Some turn =>
      if match turn_id with None => true | Some id => String.eqb id (ct_turn_id turn) end
      then Ok {| cr_conversation_id := child_id; cr_turn_id := ct_turn_id turn; cr_status := ts_status (ct_state turn);
                 cr_output := ts_output (ct_state turn); cr_error := ts_error (ct_state turn) |}
      else Err (NotFound ("turn " +:+ default "" turn_id +:+ " is not a known agent call turn"))
  | None =>
      Err (NotFound match turn_id with
                    | Some turn_id => "turn " +:+ turn_id +:+ " is not a known agent call turn"
                    | None => "this conversation has no agent call turn to wait for"
                    end)
  end.

(** ** Stopped and removed parents *)

Definition cancel_children (parent_id : string) s : CallsInner * list CallEffect :=
  let mark (starting : Starting) :=
    if String.eqb (st_parent_id starting) parent_id
    then {| st_parent_id := st_parent_id starting; st_child_id := st_child_id starting;
            st_parent_turn := st_parent_turn starting; st_stopped := true |}
    else starting in
  let cancel (p : string * ChildCall) :=
    ref ← cc_turn p.2;
    turn ← in_turns s !! ref;
    if call_is_running (ts_status (ct_state turn)) then Some (CancelOwned (cc_owner_id p.2) p.1 (Some (ct_turn_id turn))) else None in
  (put_state {| cs_children := cs_children (in_state s); cs_starting := mark <$> cs_starting (in_state s);
                cs_next_start := cs_next_start (in_state s) |} s,
   omap cancel (filter (λ p : string * ChildCall, cc_parent_id p.2 = parent_id) (map_to_list (cs_children (in_state s))))).

Definition STOPPED_TERMINALS : list string := ["turn.cancelled"; "turn.interrupted"; "conversation.interrupted"].
Definition turn_ended (conversation_id terminal : string) s : CallsInner * list CallEffect :=
  if one_of STOPPED_TERMINALS terminal && negb is_shutting_down then cancel_children conversation_id s else (s, []).
Definition note_parent (parent_id : string) s : CallsInner :=
  {| in_state := in_state s; in_turns := in_turns s; in_next_turn := in_next_turn s; in_persisted := in_persisted s;
     in_parents := {[ parent_id ]} ∪ in_parents s; in_file := in_file s |}.
Definition conversation_removed (id : string) (parent : option string) s : CallsInner * list CallEffect :=
  match parent with
  | Some _ =>
      (put_state {| cs_children := delete id (cs_children (in_state s)); cs_starting := cs_starting (in_state s);
                    cs_next_start := cs_next_start (in_state s) |} s, [])
  | None =>
      if bool_decide (id ∈ in_parents s) then
        ({| in_state := in_state s; in_turns := in_turns s; in_next_turn := in_next_turn s; in_persisted := in_persisted s;
            in_parents := in_parents s ∖ {[ id ]}; in_file := in_file s |}, [DeleteChildren id])
      else (s, [])
  end.
End calls.

(** ** Following a turn *)
Section monitor.
Context `{JsonView}.
Implicit Types (s : CallsInner) (turn : CallTurn) (pending : gset string).

Definition put_turn_state (state : TurnState) turn : CallTurn :=
  {| ct_turn_id := ct_turn_id turn; ct_state := state; ct_started := ct_started turn |}.

(** [observe]: the turn, the open permission requests, the new status when it
    is reported ([agent.call.updated]), and whether the turn ended. *)
Definition observe (event : ConversationEvent) turn pending : CallTurn * gset string * option CallStatus * bool :=
  let ended := ends_turn event (Some (ct_turn_id turn)) in
  if bool_decide (text (payload event) "turnId" = Some (ct_turn_id turn)) then
    let state := match assistant_text event with Some text => push_output text (ct_state turn) | None => ct_state turn end in
    let '(state, pending, changed) :=
      match text (payload event) "permissionId" with
      | None => (state, pending, false)
      | Some id =>
          if one_of ["permission.requested"] (event_type event) then
            let '(state, changed) := set_running_status CallWaitingPermission state in (state, {[ id ]} ∪ pending, changed)
          else if one_of ["permission.resolved"] (event_type event) then
            let pending := pending ∖ {[ id ]} in
            if bool_decide (pending = ∅) then let '(state, changed) := set_running_status CallRunning state in (state, pending, changed)
            else (state, pending, false)
          else (state, pending, false)
      end in
    (put_turn_state state turn, pending, if (changed : bool) then Some (ts_status state) else None, ended)
  else (turn, pending, None, ended).

Inductive Ended : Type := Terminal (event : ConversationEvent) | TapClosed | Unobserved.
(** The loop over the events of the tap, up to the one that ends the turn. *)
Fixpoint follow_tap (events : list ConversationEvent) turn pending : CallTurn * gset string * list CallStatus * option Ended :=
  match events with
  | [] => (turn, pending, [], None)
  | event :: events =>
      let '(turn, pending, updated, ended) := observe event turn pending in
      let updates := match updated with Some status => [status] | None => [] end in
      if (ended : bool) then (turn, pending, updates, Some (Terminal event))
      else let '(turn, pending, more, ended) := follow_tap events turn pending in (turn, pending, updates ++ more, ended)
  end.

(** [unobserved_end]: what the journal of the child holds for the turn, else
    the status of the child. *)
Definition unobserved_end (terminal : option string) (status : option ConversationStatus) : CallStatus * option CallError :=
  let status :=
    match terminal with
    | Some terminal => call_from_terminal terminal
    | None => if bool_decide (status = Some Interrupted) then CallInterrupted else CallFailed
    end in
  (status,
   if bool_decide (status = CallCompleted) then None
   else Some {| ce_code := Some TURN_END_UNOBSERVED;
                ce_message := "the called agent's turn ended, but how was not observed; open its conversation for details" |}).
Record SettleEnv : Type := {
  se_terminal : option string; se_status : option ConversationStatus; se_now : N; se_shutting_down : bool; se_written : bool;
}.
Definition end_of (e : SettleEnv) (ended : Ended) : CallStatus * option CallError :=
  match ended with
  | Terminal event =>
      let status := call_from_terminal (event_type event) in
      (status, if bool_decide (status = CallCompleted) then None else Some (CallError_from_terminal (payload event)))
  | TapClosed => (CallFailed, Some {| ce_code := Some "EVENT_STREAM_CLOSED"; ce_message := "the called agent's conversation went away" |})
  | Unobserved => unobserved_end (se_terminal e) (se_status e)
  end.
Definition end_event (e : SettleEnv) (child_id : string) turn (status : CallStatus) (error : option CallError) (output : string) : CallEvent :=
  {| ev_type := match status with
                | CallCompleted => "agent.call.completed" | CallCancelled => "agent.call.cancelled" | _ => "agent.call.failed" end;
     ev_child := child_id; ev_turn := ct_turn_id turn; ev_status := status; ev_details := None;
     ev_output := if bool_decide (status = CallCompleted) || negb (String.eqb output "") then Some output else None;
     ev_error := match status with CallFailed | CallInterrupted => error | _ => None end;
     ev_duration_ms := Some (se_now e - ct_started turn) |}.
(** A call that a shutdown cut off stays listed. *)
Definition cut_off (ended : Ended) (status : CallStatus) : bool :=
  match ended with Terminal _ => false | _ => true end || bool_decide (status = CallCancelled) || bool_decide (status = CallInterrupted).
(** [monitor], from the end of the turn on. *)
Definition settle_call (e : SettleEnv) (parent_id child_id : string) (ref : N) (ended : Ended) s : CallsInner * list CallEffect :=
  match in_turns s !! ref with
  | None => (s, [])
  | Some turn =>
      let '(status, error) := end_of e ended in
      let output := bounded (ts_output (ct_state turn)) MAX_EVENT_OUTPUT_BYTES in
      let state := {| ts_status := status; ts_output := ts_output (ct_state turn); ts_truncated := ts_truncated (ct_state turn);
                      ts_error := error |} in
      let s := put_turn ref (put_turn_state state turn) s in
      if cut_off ended status && se_shutting_down e then (s, [])
      else (forget_running (se_written e) (ct_turn_id turn) s,
            [RecordEvent parent_id (end_event e child_id turn status error output)])
  end.
(** [drop_output_after], when the time passed. *)
Definition drop_output (ref : N) s : CallsInner :=
  match in_turns s !! ref with
  | None => s
  | Some turn =>
      put_turn ref (put_turn_state {| ts_status := ts_status (ct_state turn); ts_output := ""; ts_truncated := ts_truncated (ct_state turn);
                                      ts_error := ts_error (ct_state turn) |} turn) s
  end.

(** ** After a restart *)

Inductive LeftoverFile : Type := Listed (calls : list RunningCall) | Unparsable | NoFile | ReadError.
Definition cut_off_event (c : RunningCall) : CallEvent :=
  {| ev_type := "agent.call.failed"; ev_child := rc_child c; ev_turn := rc_turn c; ev_status := CallFailed; ev_details := None;
     ev_output := None;
     ev_error := Some {| ce_code := Some "DAEMON_RESTARTED"; ce_message := "TodeX restarted while this agent call was running" |};
     ev_duration_ms := None |}.
(** What is reported, and whether the file is removed then. *)
Definition recover_leftovers (file : LeftoverFile) : list CallEffect * bool :=
  match file with
  | Listed calls => ((λ c, RecordEvent (rc_parent c) (cut_off_event c)) <$> calls, true)
  | Unparsable => ([], true)
  | NoFile | ReadError => ([], false)
  end.
End monitor.
