(* ===== verification/AgentCallsTap.v ===== *)
(** * Agent calls: what a tap is enough for

    A monitor reads projections of the events of a child, not the events: it
    learns the same. And what of the text of a child a call keeps. *)
From S2P Require Import Prelude Json JsonObject Model Digest SegmentIndex Payload AgentEvents AgentCalls.
From Stdlib Require Import Ascii ZifyBool.
Local Open Scope N_scope.

Section tap.
Context `{JsonViewLaws}.
Implicit Types (event : ConversationEvent) (turn : CallTurn) (pending : gset string).

Lemma keep_fields_lookup event fields k :
  keep_fields event fields !! k = if decide (k ∈ fields) then get (payload event) k else None.
Proof.
  unfold keep_fields. induction fields as [|f fields IH]; cbn [foldr]; [by rewrite decide_False by apply not_elem_of_nil|].
  destruct (decide (k = f)) as [->|Hne].
  - rewrite (decide_True _ _ (list_elem_of_here f fields)). destruct (get (payload event) f); [by rewrite lookup_insert_eq|].
    rewrite IH. by destruct (decide _).
  - assert (k ∈ f :: fields ↔ k ∈ fields) as Hiff by set_solver. rewrite (decide_ext _ _ _ _ Hiff), <-IH.
    destruct (get (payload event) f); [by rewrite lookup_insert_ne|done].
Qed.
#[local] Arguments keep_fields : simpl never.
Lemma one_of_eq x s : one_of [x] s = true → s = x.
Proof. unfold one_of. cbn. rewrite orb_false_r. by intros <-%String.eqb_eq. Qed.

(** What the observer reads of an event. *)
Record EventReading : Type := {
  rd_turn : option string; rd_text : option string; rd_permission : option string; rd_type : string; rd_error : option CallError;
}.
(** A reading matters by its parts that the type of the event lets matter. *)
Definition reading event : EventReading :=
  {| rd_turn := text (payload event) "turnId";
     rd_text := assistant_text event;
     rd_permission := if one_of PERMISSION_EVENTS (event_type event) then text (payload event) "permissionId" else None;
     rd_type := event_type event;
     rd_error := if ends_turn event None then Some (CallError_from_terminal (payload event)) else None |}.

Lemma text_type event t : assistant_text event = Some t → event_type event = "message.delta".
Proof.
  unfold assistant_text. destruct (one_of ["message.delta"] (event_type event)) eqn:Ht; [|done]. intros _. by apply one_of_eq.
Qed.
Lemma no_text event : event_type event ≠ "message.delta" → assistant_text event = None.
Proof.
  intros Hne. unfold assistant_text. destruct (one_of ["message.delta"] (event_type event)) eqn:Ht; [|done]. by apply one_of_eq in Ht.
Qed.
Lemma text_kept event fields k m : m = keep_fields event fields → k ∈ fields → text (object_value m) k = text (payload event) k.
Proof. intros -> Hk. unfold text. by rewrite get_object, keep_fields_lookup, decide_True. Qed.
Lemma get_kept event fields k : k ∈ fields → get (object_value (keep_fields event fields)) k = get (payload event) k.
Proof. intros Hk. by rewrite get_object, keep_fields_lookup, decide_True. Qed.
Lemma error_kept event : CallError_from_terminal (object_value (keep_fields event ERROR_FIELDS)) = CallError_from_terminal (payload event).
Proof.
  unfold CallError_from_terminal. rewrite (text_kept event ERROR_FIELDS "message" _ eq_refl) by set_solver.
  by rewrite !get_kept by (unfold ERROR_FIELDS; set_solver).
Qed.
Lemma terminal_types event : ends_turn event None = true →
  event_type event ≠ "message.delta" ∧ one_of PERMISSION_EVENTS (event_type event) = false.
Proof.
  unfold ends_turn. rewrite andb_true_r, orb_true_iff, !one_of_spec. intros Ht.
  assert (event_type event ∈ CONVERSATION_TERMINAL_EVENTS ++ TURN_TERMINAL_EVENTS) as Hin by (apply elem_of_app; tauto).
  revert Hin. unfold CONVERSATION_TERMINAL_EVENTS, TURN_TERMINAL_EVENTS. cbn [app]. rewrite !elem_of_cons, elem_of_nil.
  intros [->|[->|[->|[->|[->|[->|[]]]]]]]; done.
Qed.

(** A projection reads as the event. *)
Lemma projection_reading id event event' : tap_projection id event = Some event' → reading event' = reading event.
Proof.
  unfold tap_projection, tap_payload. destruct (assistant_text event) as [t|] eqn:Htext; cbn [mbind option_bind].
  - intros [= <-]. apply text_type in Htext as Htype. unfold reading. cbn [payload event_type ConversationEvent_new]. rewrite Htext, Htype.
    assert (text (object_value (<["delta" := string_value t]> (keep_fields event ["turnId"]))) "turnId" = text (payload event) "turnId") as ->.
    { unfold text. rewrite get_object, lookup_insert_ne by done. by rewrite keep_fields_lookup, decide_True by set_solver. }
    f_equal; [|unfold ends_turn; cbn [event_type ConversationEvent_new]; by rewrite ?Htype].
    unfold assistant_text. cbn [payload event_type ConversationEvent_new]. rewrite ?Htype. cbn [negb one_of existsb].
    rewrite get_object, lookup_insert_ne, keep_fields_lookup, decide_False by (done || set_solver). unfold text.
    rewrite get_object, lookup_insert_eq. cbn [mbind option_bind]. by rewrite as_str_view, view_string.
  - destruct (ends_turn event None) eqn:Hend.
    + cbn [mbind option_bind]. intros [= <-]. destruct (terminal_types _ Hend) as [Hne Hperm]. unfold reading.
      assert (ends_turn (ConversationEvent_new id (time event) (conversation_id event) (sequence event) (event_type event)
        (object_value (keep_fields event ERROR_FIELDS))) None = true) as ->.
      { revert Hend. unfold ends_turn. by rewrite !andb_true_r. }
      rewrite Hend, Htext, no_text by done. cbn [payload event_type ConversationEvent_new]. rewrite Hperm, error_kept.
      by rewrite (text_kept event ERROR_FIELDS "turnId" _ eq_refl) by set_solver.
    + destruct (one_of PERMISSION_EVENTS (event_type event)) eqn:Hperm; cbn [mbind option_bind]; [|done]. intros [= <-]. unfold reading.
      assert (ends_turn (ConversationEvent_new id (time event) (conversation_id event) (sequence event) (event_type event)
        (object_value (keep_fields event PERMISSION_FIELDS))) None = false) as ->.
      { revert Hend. unfold ends_turn. by rewrite !andb_true_r. }
      assert (event_type event ≠ "message.delta") as Hne by (intros Ht; rewrite Ht in Hperm; done).
      rewrite Hend, Htext, no_text by done. cbn [payload event_type ConversationEvent_new]. rewrite Hperm.
      by rewrite !(text_kept event PERMISSION_FIELDS _ _ eq_refl) by (unfold PERMISSION_FIELDS; set_solver).
Qed.
(** The observer goes by the reading. *)
Lemma ends_turn_reading event event' turn_id : reading event = reading event' → ends_turn event turn_id = ends_turn event' turn_id.
Proof. intros [= Hturn _ _ Htype _]. unfold ends_turn. by rewrite Htype, Hturn. Qed.
Lemma observe_reading event event' turn pending : reading event = reading event' → observe event turn pending = observe event' turn pending.
Proof.
  intros Hr. pose proof (ends_turn_reading _ _ (Some (ct_turn_id turn)) Hr) as Hend. injection Hr as Hturn Htext Hperm Htype _.
  unfold observe. rewrite Hend, Hturn, Htext, Htype in *. case_bool_decide; [|done].
  destruct (one_of PERMISSION_EVENTS (event_type event')) eqn:Hp; [by rewrite Hperm|].
  assert (one_of ["permission.requested"] (event_type event') = false ∧ one_of ["permission.resolved"] (event_type event') = false) as [-> ->].
  { revert Hp. unfold PERMISSION_EVENTS, one_of. cbn. rewrite !orb_false_r. apply orb_false_iff. }
  by destruct (text (payload event) "permissionId"), (text (payload event') "permissionId").
Qed.
Lemma end_of_reading e event event' : reading event = reading event' → ends_turn event None = true → end_of e (Terminal event) = end_of e (Terminal event').
Proof.
  intros Hr Hend. pose proof (ends_turn_reading _ _ None Hr) as Hend'. pose proof (f_equal rd_error Hr) as Herr.
  pose proof (f_equal rd_type Hr) as Htype. cbn [rd_error rd_type reading] in Herr, Htype. rewrite <-Hend', Hend in Herr.
  apply (inj Some) in Herr. unfold end_of. by rewrite Htype, Herr.
Qed.
Lemma ends_any event turn_id : ends_turn event turn_id = true → ends_turn event None = true.
Proof. unfold ends_turn. destruct (one_of CONVERSATION_TERMINAL_EVENTS _); [done|]. by destruct (one_of TURN_TERMINAL_EVENTS _). Qed.
Lemma observe_dropped id event turn pending : tap_projection id event = None → observe event turn pending = (turn, pending, None, false).
Proof.
  unfold tap_projection, tap_payload. destruct (assistant_text event) eqn:Htext; [done|]. destruct (ends_turn event None) eqn:Hend; [done|].
  destruct (one_of PERMISSION_EVENTS (event_type event)) eqn:Hp; [done|]. intros _. unfold observe. rewrite Htext.
  destruct (ends_turn event (Some _)) eqn:He; [by rewrite (ends_any _ _ He) in Hend|].
  assert (one_of ["permission.requested"] (event_type event) = false ∧ one_of ["permission.resolved"] (event_type event) = false) as [-> ->].
  { revert Hp. unfold PERMISSION_EVENTS, one_of. cbn. rewrite !orb_false_r. apply orb_false_iff. }
  case_bool_decide; [|done]. destruct (text (payload event) "permissionId"); by destruct turn.
Qed.

(** C32: A tap is enough. Following the projections of the events of a child, of
    which most are dropped, a monitor ends with the same turn, open requests
    and reports, and settles the call in the same way, as if it had followed
    the events themselves. *)
Theorem tap_is_enough (ids : N → string) e events turn pending :
  let '(turn1, pending1, updates1, ended1) := follow_tap events turn pending in
  let '(turn2, pending2, updates2, ended2) := follow_tap (omap (λ event, tap_projection (ids (sequence event)) event) events) turn pending in
  turn1 = turn2 ∧ pending1 = pending2 ∧ updates1 = updates2 ∧ end_of e <$> ended1 = end_of e <$> ended2.
Proof.
  revert turn pending. induction events as [|event events IH]; intros turn pending; [done|]. cbn [follow_tap omap list_omap].
  destruct (tap_projection (ids (sequence event)) event) as [event'|] eqn:Hp.
  - apply projection_reading in Hp. cbn [follow_tap]. rewrite (observe_reading event' event turn pending Hp).
    destruct (observe event turn pending) as [[[turn1 pending1] updated] ended] eqn:Ho. destruct ended.
    + split_and!; [done..|]. cbn. f_equal. symmetry. apply (end_of_reading e); [done|].
      assert (ends_turn event (Some (ct_turn_id turn)) = true) as He.
      { revert Ho. unfold observe. case_bool_decide; [|by intros [= _ _ _ ->]]. destruct (match text _ _ with Some _ => _ | None => _ end) as [[? ?] ?].
        by intros [= _ _ _ ->]. }
      rewrite (ends_turn_reading _ _ _ Hp). exact (ends_any _ _ He).
    + specialize (IH turn1 pending1). destruct (follow_tap events turn1 pending1) as [[[turn2 pending2] updates2] ended2].
      destruct (follow_tap (omap _ events) turn1 pending1) as [[[turn3 pending3] updates3] ended3]. destruct IH as (-> & -> & -> & ?). done.
  - rewrite (observe_dropped _ _ _ _ Hp). specialize (IH turn pending).
    destruct (follow_tap events turn pending) as [[[turn2 pending2] updates2] ended2]. done.
Qed.
End tap.

(** ** The text a call keeps *)

Lemma floor_boundary_le text i : (floor_boundary text i ≤ i)%nat.
Proof. induction i as [|i IH]; cbn [floor_boundary]; destruct (is_char_boundary _ _); lia. Qed.
Lemma text_len_app a b : text_len (a +:+ b) = text_len a + text_len b.
Proof. unfold text_len. rewrite string_length_app. lia. Qed.
Lemma text_before_app a b k : text_before (a +:+ b) (String.length a + k) = a +:+ text_before b k.
Proof.
  unfold text_before. induction a as [|c a IH]; [done|]. change (String c a +:+ b) with (String c (a +:+ b)).
  change (String c a +:+ String.substring 0 k b) with (String c (a +:+ String.substring 0 k b)). cbn. by rewrite IH.
Qed.
Lemma text_before_more a b k : (k ≤ String.length a)%nat → text_before (a +:+ b) k = text_before a k.
Proof.
  unfold text_before. revert k. induction a as [|c a IH]; intros k Hk.
  - cbn in Hk. assert (k = O) as -> by lia. by destruct b.
  - change (String c a +:+ b) with (String c (a +:+ b)). destruct k as [|k]; [done|]. cbn in *. rewrite IH by lia. done.
Qed.
Lemma text_app_assoc (a b c : string) : (a +:+ b) +:+ c = a +:+ (b +:+ c).
Proof. induction a as [|x a IH]; [done|]. 
  change (String x ((a +:+ b) +:+ c) = String x (a +:+ (b +:+ c))). by rewrite IH. Qed.

(** The output is [said], or its beginning and a note. *)
Definition keeps_output (said : string) (state : TurnState) : Prop :=
  (ts_truncated state = false ∧ text_len said ≤ MAX_OUTPUT_BYTES ∧ ts_output state = said) ∨
  (ts_truncated state = true ∧ MAX_OUTPUT_BYTES < text_len said ∧
   ∃ k, N.of_nat k ≤ MAX_OUTPUT_BYTES ∧ ts_output state = text_before said k +:+ TRUNCATED_NOTE).

Lemma push_keeps said text state : keeps_output said state → keeps_output (said +:+ text) (push_output text state).
Proof.
  intros [(Ht & Hl & Ho)|(Ht & Hl & k & Hk & Ho)]; unfold push_output, keeps_output; rewrite Ht.
  - rewrite Ho, text_len_app. destruct (_ <=? _) eqn:Hroom; [left; split_and!; [done|lia|done]|]. right. cbn [ts_truncated ts_output].
    split_and!; [done|lia|]. unfold text_prefix. rewrite Hroom. set (j := floor_boundary text _).
    exists (String.length said + j)%nat. pose proof (floor_boundary_le text (N.to_nat (MAX_OUTPUT_BYTES - text_len said))) as Hj. fold j in Hj.
    unfold text_len in *. split; [lia|]. by rewrite text_before_app, text_app_assoc.
  - right. rewrite text_len_app. split_and!; [done|lia|]. exists k. split; [done|]. rewrite text_before_more; [done|]. unfold text_len in *. lia.
Qed.
(** A call keeps the beginning of what its child says. However the text
    arrives, the output is all of it while it fits, and after that at most the
    limit of it with a note. *)
Theorem call_keeps_what_was_said texts :
  keeps_output (foldl String.append "" texts) (foldl (λ state text, push_output text state) TurnState_new texts).
Proof.
  assert (keeps_output "" TurnState_new) as Hk by (left; split_and!; [done|done|done]). revert Hk. generalize TurnState_new, "".
  induction texts as [|text texts IH]; intros state said Hk; [done|]. cbn [foldl]. by apply IH, push_keeps.
Qed.
