(* ===== verification/AgentCallsSafety.v ===== *)
(** * Agent calls: limits and stopped parents

    Over any interleaving of the calls of agents, of turns that begin and end,
    of monitors and of the hooks of the supervisor (which run some time after a
    turn was released): no parent has more calls than the limit, no child two
    turns at once, no call outlives the turn that made it when that turn was
    stopped, and a restart reports exactly the calls without an end. *)
From S2P Require Import Prelude Json JsonObject Model Digest SegmentIndex Payload AgentEvents AgentCalls.
From Stdlib Require Import Ascii ZifyBool.
Local Open Scope N_scope.

(** ** The world

    Beside the calls: the running turn of each conversation ([active] of the
    supervisor) and every turn id given out; the hooks that still have to run;
    the turns whose hook ran because they were stopped; for each shared turn the
    turn that made the call, and its monitor; the cancellations asked for. *)
Record CallWorld : Type := {
  cw_calls : CallsInner;
  cw_active : gmap string string;
  cw_used : gset string;
  cw_hooks : list (string * string * string);
  cw_stopped : gset (string * string);
  cw_maker : gmap N (string * option string);
  cw_monitors : gmap N (string * string * gset string);
  cw_cancelled : gset (string * string);
  cw_open : gset string;
}.

(** The child turns that effects cancel. *)
Definition cancels (effects : list CallEffect) : gset (string * string) :=
  list_to_set (omap (λ e, match e with CancelOwned _ child (Some turn) => Some (child, turn) | _ => None end) effects).
(** The turns whose end effects report. *)
Definition reported_ends (effects : list CallEffect) : gset string :=
  list_to_set (omap (λ e, match e with RecordEvent _ ev => Some (ev_turn ev) | _ => None end) effects).

Section steps.
Context `{JsonView}.

Definition active_of (w : CallWorld) (c : string) : option string := cw_active w !! c.
Definition with_calls (s : CallsInner) (w : CallWorld) : CallWorld :=
  {| cw_calls := s; cw_active := cw_active w; cw_used := cw_used w; cw_hooks := cw_hooks w; cw_stopped := cw_stopped w;
     cw_maker := cw_maker w; cw_monitors := cw_monitors w; cw_cancelled := cw_cancelled w; cw_open := cw_open w |}.

(** A turn begins under a new id. *)
Definition begin_turn (c t : string) (w : CallWorld) : CallWorld :=
  {| cw_calls := cw_calls w; cw_active := <[c := t]> (cw_active w); cw_used := {[ t ]} ∪ cw_used w; cw_hooks := cw_hooks w;
     cw_stopped := cw_stopped w; cw_maker := cw_maker w; cw_monitors := cw_monitors w; cw_cancelled := cw_cancelled w; cw_open := cw_open w |}.
(** A turn ends and releases its conversation; the hook is a task of its own. *)
Definition release_turn (c t terminal : string) (w : CallWorld) : CallWorld :=
  {| cw_calls := cw_calls w; cw_active := delete c (cw_active w); cw_used := cw_used w; cw_hooks := (c, t, terminal) :: cw_hooks w;
     cw_stopped := cw_stopped w; cw_maker := cw_maker w; cw_monitors := cw_monitors w; cw_cancelled := cw_cancelled w; cw_open := cw_open w |}.
Definition run_hook (shutting_down : bool) (c t terminal : string) (hooks : list (string * string * string)) (w : CallWorld) : CallWorld :=
  let '(s, effects) := turn_ended shutting_down c terminal (cw_calls w) in
  {| cw_calls := s; cw_active := cw_active w; cw_used := cw_used w; cw_hooks := hooks;
     cw_stopped := (if one_of STOPPED_TERMINALS terminal && negb shutting_down then {[ (c, t) ]} else ∅) ∪ cw_stopped w;
     cw_maker := cw_maker w; cw_monitors := cw_monitors w; cw_cancelled := cancels effects ∪ cw_cancelled w; cw_open := cw_open w |}.
Definition run_track (e : TrackEnv) (id : N) (starting : Starting) (c : StartedCall) (w : CallWorld) : CallWorld :=
  let '(s, ref, stopped, effects) := track (active_of w) e id c (cw_calls w) in
  {| cw_calls := s; cw_active := cw_active w; cw_used := cw_used w; cw_hooks := cw_hooks w; cw_stopped := cw_stopped w;
     cw_maker := <[ref := (sc_parent c, st_parent_turn starting)]> (cw_maker w);
     cw_monitors := <[ref := (sc_parent c, sc_child c, ∅)]> (cw_monitors w);
     cw_cancelled := cancels effects ∪ cw_cancelled w;
     cw_open := (if negb (sc_parent_ephemeral c) && negb (sc_child_ephemeral c) then {[ sc_turn_id c ]} else ∅) ∪ cw_open w |}.
Definition run_observe (ref : N) (parent child : string) (event : ConversationEvent) (turn : CallTurn) (pending : gset string)
    (w : CallWorld) : CallWorld :=
  let '(turn, pending, _, _) := observe event turn pending in
  {| cw_calls := put_turn ref turn (cw_calls w); cw_active := cw_active w; cw_used := cw_used w; cw_hooks := cw_hooks w;
     cw_stopped := cw_stopped w; cw_maker := cw_maker w; cw_monitors := <[ref := (parent, child, pending)]> (cw_monitors w);
     cw_cancelled := cw_cancelled w; cw_open := cw_open w |}.
Definition run_settle (e : SettleEnv) (ref : N) (parent child : string) (ended : Ended) (w : CallWorld) : CallWorld :=
  let '(s, effects) := settle_call e parent child ref ended (cw_calls w) in
  {| cw_calls := s; cw_active := cw_active w; cw_used := cw_used w; cw_hooks := cw_hooks w; cw_stopped := cw_stopped w;
     cw_maker := cw_maker w; cw_monitors := delete ref (cw_monitors w); cw_cancelled := cw_cancelled w;
     cw_open := cw_open w ∖ reported_ends effects |}.

(** A started call takes the child it reserved, or a new conversation. *)
Definition fits_reservation (w : CallWorld) (starting : Starting) (c : StartedCall) : Prop :=
  sc_parent c = st_parent_id starting ∧
  match st_child_id starting with
  | Some child => sc_child c = child
  | None => cs_children (in_state (cw_calls w)) !! sc_child c = None ∧ is_starting (cw_calls w) (sc_child c) = false
  end.

(** The list of running calls is written whenever it changes ([te_written],
    [se_written]). *)
Inductive call_step (w : CallWorld) : CallWorld → Prop :=
  | cs_begin c t : cw_active w !! c = None → t ∉ cw_used w → call_step w (begin_turn c t w)
  | cs_release c t terminal : cw_active w !! c = Some t → call_step w (release_turn c t terminal w)
  | cs_hook shutting_down c t terminal before after : cw_hooks w = before ++ (c, t, terminal) :: after →
      call_step w (run_hook shutting_down c t terminal (before ++ after) w)
  | cs_reserve parent child : call_step w (with_calls (reserve (active_of w) parent child (cw_calls w)).1 w)
  | cs_drop id : call_step w (with_calls (drop_reservation id (cw_calls w)) w)
  | cs_track e id starting c : cs_starting (in_state (cw_calls w)) !! id = Some starting → fits_reservation w starting c →
      te_written e = true → call_step w (run_track e id starting c w)
  | cs_observe ref parent child pending event turn : cw_monitors w !! ref = Some (parent, child, pending) →
      in_turns (cw_calls w) !! ref = Some turn → call_step w (run_observe ref parent child event turn pending w)
  | cs_settle e ref parent child pending ended : cw_monitors w !! ref = Some (parent, child, pending) → se_written e = true →
      call_step w (run_settle e ref parent child ended w)
  | cs_expire ref : call_step w (with_calls (drop_output ref (cw_calls w)) w)
  | cs_note parent : call_step w (with_calls (note_parent parent (cw_calls w)) w)
  | cs_removed id parent : call_step w (with_calls (conversation_removed id parent (cw_calls w)).1 w).
End steps.

(** ** The table *)
Section table.
Implicit Types (s : CallsInner) (p c : string) (ch : ChildCall) (a : Starting).

Record table_ok s : Prop := {
  tk_limit p : running s p ≤ MAX_CONCURRENT_CALLS;
  tk_claim i j a b c : cs_starting (in_state s) !! i = Some a → cs_starting (in_state s) !! j = Some b →
    st_child_id a = Some c → st_child_id b = Some c → i = j;
  tk_free i a c ch : cs_starting (in_state s) !! i = Some a → st_child_id a = Some c →
    cs_children (in_state s) !! c = Some ch → child_running s ch = false;
  tk_next i a : cs_starting (in_state s) !! i = Some a → i < cs_next_start (in_state s);
  tk_refs c ch ref : cs_children (in_state s) !! c = Some ch → cc_turn ch = Some ref → ref < in_next_turn s;
}.

(** Fewer calls count. *)
Lemma running_le s s' p : running_children s' p ⊆ running_children s p → starting_calls s' p ⊆ starting_calls s p → running s' p ≤ running s p.
Proof. intros Hc Hs. apply map_subseteq_size in Hc, Hs. unfold running. lia. Qed.
Lemma running_children_spec s p c ch :
  running_children s p !! c = Some ch ↔ cs_children (in_state s) !! c = Some ch ∧ cc_parent_id ch = p ∧ child_running s ch = true.
Proof. unfold running_children. rewrite map_lookup_filter_Some. done. Qed.
Lemma starting_calls_spec s p i a : starting_calls s p !! i = Some a ↔ cs_starting (in_state s) !! i = Some a ∧ st_parent_id a = p.
Proof. unfold starting_calls. rewrite map_lookup_filter_Some. done. Qed.

(** [s'] has the table of [s] with some reservations and children gone, and
    turns that run in it ran in [s]. *)
Definition calmer s s' : Prop :=
  cs_starting (in_state s') ⊆ cs_starting (in_state s) ∧ cs_children (in_state s') ⊆ cs_children (in_state s) ∧
  cs_next_start (in_state s) ≤ cs_next_start (in_state s') ∧ in_next_turn s ≤ in_next_turn s' ∧
  ∀ ref, turn_running s' ref = true → turn_running s ref = true.
Lemma calmer_child s s' ch : calmer s s' → child_running s' ch = true → child_running s ch = true.
Proof. intros (_ & _ & _ & _ & Hr). unfold child_running. destruct (cc_turn ch); [apply Hr|done]. Qed.
Lemma calmer_ok s s' : calmer s s' → table_ok s → table_ok s'.
Proof.
  intros Hcalm [Hlim Hclaim Hfree Hnext Hrefs]. pose proof (λ ch, calmer_child s s' ch Hcalm) as Hch. destruct Hcalm as (Hs & Hc & Hn & Hr & _).
  assert (∀ i a, cs_starting (in_state s') !! i = Some a → cs_starting (in_state s) !! i = Some a) as Ws by (by apply map_subseteq_spec).
  assert (∀ c ch, cs_children (in_state s') !! c = Some ch → cs_children (in_state s) !! c = Some ch) as Wc by (by apply map_subseteq_spec).
  split.
  - intros p. etrans; [|apply (Hlim p)]. apply running_le; apply map_subseteq_spec.
    + intros c ch. rewrite !running_children_spec. intros (Hl & Hp & Hrn). auto.
    + intros i a. rewrite !starting_calls_spec. intros [Hl Hp]. auto.
  - intros i j a b c Ha Hb. eapply Hclaim; eauto.
  - intros i a c ch Ha Hcid Hl. apply not_true_is_false. intros Hrn%Hch. by rewrite (Hfree i a c ch) in Hrn; auto.
  - intros i a Ha%Ws%Hnext. lia.
  - intros c ch ref Hl%Wc Ht. pose proof (Hrefs c ch ref Hl Ht). lia.
Qed.
Lemma drop_calmer id s : calmer s (drop_reservation id s).
Proof. split_and!; [apply delete_subseteq|done..]. Qed.
Lemma removed_calmer id parent s : calmer s (conversation_removed id parent s).1.
Proof.
  unfold conversation_removed. destruct parent; [split_and!; [done|apply delete_subseteq|done..]|]. by destruct (bool_decide _).
Qed.
(** A turn that goes on or ends. *)
Lemma put_turn_calmer ref turn turn' s : in_turns s !! ref = Some turn →
  (call_is_running (ts_status (ct_state turn')) = true → call_is_running (ts_status (ct_state turn)) = true) → calmer s (put_turn ref turn' s).
Proof.
  intros Hl Hr. split_and!; [done..|]. intros ref'. unfold turn_running. cbn. destruct (decide (ref' = ref)) as [->|Hne].
  - rewrite lookup_insert_eq, Hl. done.
  - by rewrite lookup_insert_ne.
Qed.
Lemma forget_running_table w turn s : in_state (forget_running w turn s) = in_state s ∧ in_turns (forget_running w turn s) = in_turns s ∧
  in_next_turn (forget_running w turn s) = in_next_turn s.
Proof. unfold forget_running, write_persisted. destruct (in_persisted s !! turn); [|done]. by destruct w. Qed.

Lemma reserve_ok active parent child s s' id : reserve active parent child s = (s', Ok id) → table_ok s → table_ok s'.
Proof.
  unfold reserve. set (refusal := match child with Some _ => _ | None => _ end). destruct refusal eqn:Href; [done|].
  destruct (MAX_CONCURRENT_CALLS <=? running s parent) eqn:Hlim; [done|]. apply N.leb_gt in Hlim. intros [= <- <-] [Hl Hclaim Hfree Hnext Hrefs].
  set (id := cs_next_start (in_state s)). set (a0 := {| st_parent_id := parent |}).
  assert (cs_starting (in_state s) !! id = None) as Hnew by (apply eq_None_not_Some; intros [a Ha]; apply Hnext in Ha; unfold id in Ha; lia).
  assert (∀ c, child = Some c → is_starting s c = false ∧ running_turn s c = None) as Hchild.
  { intros c ->. revert Href. unfold refusal. destruct (is_starting s c); [done|]. by destruct (running_turn s c). }
  split; cbn [in_state put_state cs_children cs_starting cs_next_start in_next_turn].
  - intros p. unfold running. destruct (decide (p = parent)) as [->|Hne].
    + assert (starting_calls (put_state {| cs_children := cs_children (in_state s); cs_starting := <[id:=a0]> (cs_starting (in_state s));
        cs_next_start := id + 1 |} s) parent ⊆ <[id := a0]> (starting_calls s parent)) as Hsub.
      { apply map_subseteq_spec. intros i a. rewrite starting_calls_spec. cbn. rewrite !lookup_insert_Some. rewrite starting_calls_spec. naive_solver. }
      apply map_subseteq_size in Hsub. rewrite map_size_insert_None in Hsub.
      2: { apply eq_None_not_Some. intros [a [Ha _]%starting_calls_spec]. congruence. }
      unfold running in Hlim. change (running_children (put_state _ s) parent) with (running_children s parent). lia.
    + etrans; [|apply (Hl p)]. apply running_le; [done|]. apply map_subseteq_spec. intros i a. rewrite !starting_calls_spec. cbn.
      rewrite lookup_insert_Some. intros [[[<- <-]|[_ Ha]] Hp]; [done|done].
  - intros i j a b c Ha Hb Hac Hbc. apply lookup_insert_Some in Ha as [[<- <-]|[Hi Ha]], Hb as [[<- <-]|[Hj Hb]]; [done| | |by eapply Hclaim].
    + destruct (Hchild c Hac) as [Hst _]. apply bool_decide_eq_false in Hst. destruct Hst. by exists j, b.
    + destruct (Hchild c Hbc) as [Hst _]. apply bool_decide_eq_false in Hst. destruct Hst. by exists i, a.
  - intros i a c ch Ha Hac Hl'. apply lookup_insert_Some in Ha as [[<- <-]|[Hi Ha]]; [|by eapply Hfree].
    destruct (Hchild c Hac) as [_ Hrt]. unfold running_turn in Hrt. rewrite Hl' in Hrt. cbn in Hrt. unfold child_running, turn_running. cbn.
    destruct (cc_turn ch) as [ref|]; [|done]. cbn in Hrt. destruct (in_turns s !! ref); [|done]. cbn in Hrt. by destruct (call_is_running _).
  - intros i a Ha. apply lookup_insert_Some in Ha as [[<- _]|[_ Ha]]; [lia|]. apply Hnext in Ha. unfold id. lia.
  - intros c ch ref Hl' Ht. by eapply Hrefs.
Qed.
Lemma reserve_refused active parent child s s' r : reserve active parent child s = (s', Err r) → s' = s.
Proof. unfold reserve. repeat case_match; by intros [= <-]. Qed.

Lemma cancel_children_ok parent s : table_ok s → table_ok (cancel_children parent s).1.
Proof.
  intros [Hlim Hclaim Hfree Hnext Hrefs]. unfold cancel_children. set (mark := λ starting : Starting, if String.eqb _ _ then _ else _).
  assert (∀ a, st_parent_id (mark a) = st_parent_id a ∧ st_child_id (mark a) = st_child_id a) as Hmark.
  { intros a. unfold mark. by destruct (String.eqb _ _). }
  split; cbn [in_state put_state cs_children cs_starting cs_next_start in_next_turn fst].
  - intros p. etrans; [|apply (Hlim p)]. unfold running. change (running_children (put_state _ s) p) with (running_children s p).
    unfold starting_calls at 1. cbn [in_state put_state cs_starting]. rewrite map_filter_fmap, map_size_fmap.
    match goal with |- N.of_nat (_ + size ?m) ≤ _ => assert (m ⊆ starting_calls s p) as Hsub end.
    { apply map_subseteq_spec. intros j a. rewrite map_lookup_filter_Some, starting_calls_spec. cbn. by destruct (Hmark a) as [-> _]. }
    apply map_subseteq_size in Hsub. lia.
  - intros j k a b c. rewrite !lookup_fmap. intros (a' & Ha & ->)%fmap_Some (b' & Hb & ->)%fmap_Some.
    rewrite (proj2 (Hmark a')), (proj2 (Hmark b')). by eapply Hclaim.
  - intros j a c ch. rewrite lookup_fmap. intros (a' & Ha & ->)%fmap_Some. rewrite (proj2 (Hmark a')). by eapply Hfree.
  - intros j a. rewrite lookup_fmap. intros (a' & Ha & ->)%fmap_Some. by eapply Hnext.
  - intros c ch ref. by apply Hrefs.
Qed.
Lemma persist_running_table w call s : in_state (persist_running w call s) = in_state s ∧ in_turns (persist_running w call s) = in_turns s ∧
  in_next_turn (persist_running w call s) = in_next_turn s.
Proof. unfold persist_running, write_persisted. by destruct w. Qed.
(** The table is that of [in_state], [in_turns] and [in_next_turn]. *)
Lemma same_table s s' : in_state s' = in_state s → in_turns s' = in_turns s → in_next_turn s' = in_next_turn s → table_ok s → table_ok s'.
Proof.
  intros Hs Ht Hn. apply calmer_ok. split_and!; [by rewrite Hs..|by rewrite Hn|]. intros ref. unfold turn_running. by rewrite Ht.
Qed.
Lemma track_locked_ok active e id (c : StartedCall) s starting : cs_starting (in_state s) !! id = Some starting → sc_parent c = st_parent_id starting →
  match st_child_id starting with
  | Some child => sc_child c = child
  | None => cs_children (in_state s) !! sc_child c = None ∧ is_starting s (sc_child c) = false
  end → table_ok s → table_ok (track_locked active e id c s).1.1.
Proof.
  intros Hid Hpar Hfit [Hlim Hclaim Hfree Hnext Hrefs]. unfold track_locked. cbn [fst]. set (ref := in_next_turn s).
  set (ch0 := {| cc_parent_id := sc_parent c |}). set (s' := {| in_next_turn := ref + 1 |}).
  assert (∀ x, x ≠ ref → turn_running s' x = turn_running s x) as Hold by (intros x Hx; unfold turn_running; cbn; by rewrite lookup_insert_ne).
  assert (∀ d ch, cs_children (in_state s) !! d = Some ch → child_running s' ch = child_running s ch) as Hch.
  { intros d ch Hl. unfold child_running. destruct (cc_turn ch) as [x|] eqn:Hx; [|done]. apply Hold. pose proof (Hrefs d ch x Hl Hx). unfold ref. lia. }
  assert (∀ d ch, d ≠ sc_child c → cs_children (in_state s') !! d = Some ch → cs_children (in_state s) !! d = Some ch) as Hkeep.
  { intros d ch Hne. cbn. by rewrite lookup_insert_ne. }
  split; cbn [in_state cs_children cs_starting cs_next_start in_next_turn s'].
  - intros p. destruct (decide (p = sc_parent c)) as [->|Hne].
    + assert (running_children s' (sc_parent c) ⊆ <[sc_child c := ch0]> (running_children s (sc_parent c))) as Hsub.
      { apply map_subseteq_spec. intros d ch. rewrite running_children_spec. cbn [in_state cs_children s']. rewrite !lookup_insert_Some.
        intros [[[<- <-]|[Hd Hl]] [Hp Hr]]; [by left|]. right. split; [done|]. apply running_children_spec. split_and!; [done..|]. by rewrite <-(Hch d). }
      apply map_subseteq_size in Hsub. rewrite map_size_insert in Hsub.
      assert (starting_calls s' (sc_parent c) ⊆ delete id (starting_calls s (sc_parent c))) as Hsub2.
      { apply map_subseteq_spec. intros i a. rewrite starting_calls_spec. cbn [in_state cs_starting s']. rewrite !lookup_delete_Some.
        intros [[Hi Ha] Hp]. split; [done|]. by apply starting_calls_spec. }
      apply map_subseteq_size in Hsub2. rewrite map_size_delete_Some in Hsub2.
      2: { exists starting. by apply starting_calls_spec. }
      assert (size (starting_calls s (sc_parent c)) ≠ 0)%nat as Hpos.
      { intros Hz%map_size_empty_iff. assert (starting_calls s (sc_parent c) !! id = Some starting) as Hin by (by apply starting_calls_spec).
        by rewrite Hz, lookup_empty in Hin. }
      pose proof (Hlim (sc_parent c)) as Hl. unfold running in *. destruct (running_children s (sc_parent c) !! sc_child c); cbn in Hsub; lia.
    + etrans; [|apply (Hlim p)]. apply running_le; apply map_subseteq_spec.
      * intros d ch. rewrite !running_children_spec. intros (Hl & Hp & Hr). destruct (decide (d = sc_child c)) as [->|Hd].
        { cbn in Hl. rewrite lookup_insert_eq in Hl. injection Hl as <-. done. }
        apply (Hkeep d) in Hl; [|done]. split_and!; [done..|]. by rewrite <-(Hch d).
      * intros i a. rewrite !starting_calls_spec. cbn. rewrite lookup_delete_Some. by intros [[_ Ha] Hp].
  - intros i j a b d Ha Hb. apply lookup_delete_Some in Ha as [_ Ha], Hb as [_ Hb]. by eapply Hclaim.
  - intros i a d ch Ha Had. apply lookup_delete_Some in Ha as [Hi Ha]. rewrite lookup_insert_Some. intros [[<- <-]|[Hd Hl]].
    + exfalso. destruct (st_child_id starting) as [child|] eqn:Hsc.
      * subst child. apply Hi. by eapply Hclaim.
      * destruct Hfit as [_ Hst]. apply bool_decide_eq_false in Hst. apply Hst. by exists i, a.
    + rewrite (Hch d) by done. by eapply Hfree.
  - intros i a Ha. apply lookup_delete_Some in Ha as [_ Ha]. by eapply Hnext.
  - intros d ch x. rewrite lookup_insert_Some. intros [[<- <-]|[Hd Hl]]; [intros [= <-]; lia|]. intros Hx. pose proof (Hrefs d ch x Hl Hx). unfold ref. lia.
Qed.
End table.

(** ** Stopped turns *)
Section stops.
Implicit Types (s : CallsInner) (w : CallWorld) (p c t : string) (ch : ChildCall) (a : Starting) (turn : CallTurn).

Record stops_ok w : Prop := {
  so_used c t : cw_active w !! c = Some t → t ∈ cw_used w;
  so_hooks c t terminal : (c, t, terminal) ∈ cw_hooks w → t ∈ cw_used w ∧ cw_active w !! c ≠ Some t;
  so_stopped p t : (p, t) ∈ cw_stopped w → t ∈ cw_used w ∧ cw_active w !! p ≠ Some t;
  so_starting p t i a : (p, t) ∈ cw_stopped w → cs_starting (in_state (cw_calls w)) !! i = Some a →
    st_parent_id a = p → st_parent_turn a = Some t → st_stopped a = true;
  so_children p t c ch ref turn : (p, t) ∈ cw_stopped w → cs_children (in_state (cw_calls w)) !! c = Some ch → cc_turn ch = Some ref →
    cw_maker w !! ref = Some (p, Some t) → in_turns (cw_calls w) !! ref = Some turn → call_is_running (ts_status (ct_state turn)) = true →
    (c, ct_turn_id turn) ∈ cw_cancelled w;
  so_maker c ch ref : cs_children (in_state (cw_calls w)) !! c = Some ch → cc_turn ch = Some ref →
    ∃ maker, cw_maker w !! ref = Some (cc_parent_id ch, maker);
}.

(** Turns that run in [s'] ran in [s], under the same id. *)
Definition same_turns s s' : Prop :=
  ∀ ref turn', in_turns s' !! ref = Some turn' → call_is_running (ts_status (ct_state turn')) = true →
  ∃ turn, in_turns s !! ref = Some turn ∧ ct_turn_id turn = ct_turn_id turn' ∧ call_is_running (ts_status (ct_state turn)) = true.
Lemma same_turns_calmer s s' : cs_starting (in_state s') ⊆ cs_starting (in_state s) → cs_children (in_state s') ⊆ cs_children (in_state s) →
  cs_next_start (in_state s) ≤ cs_next_start (in_state s') → in_next_turn s ≤ in_next_turn s' → same_turns s s' → calmer s s'.
Proof.
  intros ???? Ht. split_and!; [done..|]. intros ref. unfold turn_running. destruct (in_turns s' !! ref) as [turn'|] eqn:Hl; [|done].
  intros Hr. by destruct (Ht ref turn' Hl Hr) as (turn & -> & _ & ->).
Qed.
Lemma stops_calmer w w' : cs_starting (in_state (cw_calls w')) ⊆ cs_starting (in_state (cw_calls w)) →
  cs_children (in_state (cw_calls w')) ⊆ cs_children (in_state (cw_calls w)) → same_turns (cw_calls w) (cw_calls w') →
  cw_active w' = cw_active w → cw_used w' = cw_used w → cw_hooks w' = cw_hooks w → cw_stopped w' = cw_stopped w →
  cw_maker w' = cw_maker w → cw_cancelled w' = cw_cancelled w → stops_ok w → stops_ok w'.
Proof.
  intros Hs Hc Ht Ea Eu Eh Es Em Ek [H1 H2 H3 H4 H5 H6]. 
  assert (∀ i a, cs_starting (in_state (cw_calls w')) !! i = Some a → cs_starting (in_state (cw_calls w)) !! i = Some a) as Ws by (by apply map_subseteq_spec).
  assert (∀ c ch, cs_children (in_state (cw_calls w')) !! c = Some ch → cs_children (in_state (cw_calls w)) !! c = Some ch) as Wc by (by apply map_subseteq_spec).
  split; rewrite ?Ea, ?Eu, ?Eh, ?Es, ?Em, ?Ek; eauto.
  intros p t c ch ref turn' Hst Hl Hr Hm Hl' Hrun. destruct (Ht ref turn' Hl' Hrun) as (turn & Hl0 & <- & Hrun0). by eapply H5; eauto.
Qed.

Lemma begin_stops c t w : cw_active w !! c = None → t ∉ cw_used w → stops_ok w → stops_ok (begin_turn c t w).
Proof.
  intros Hn Hu [H1 H2 H3 H4 H5 H6]. split; cbn; [| | |done..].
  - intros c' t'. rewrite lookup_insert_Some. intros [[<- <-]|[_ Ha]]; [set_solver|]. apply H1 in Ha. set_solver.
  - intros c' t' terminal [Hin Ha]%H2. split; [set_solver|]. rewrite lookup_insert_Some. intros [[_ ->]|[_ ?]]; done.
  - intros c' t' [Hin Ha]%H3. split; [set_solver|]. rewrite lookup_insert_Some. intros [[_ ->]|[_ ?]]; done.
Qed.
Lemma release_stops c t terminal w : cw_active w !! c = Some t → stops_ok w → stops_ok (release_turn c t terminal w).
Proof.
  intros Ha [H1 H2 H3 H4 H5 H6]. split; cbn; [| | |done..].
  - intros c' t' [_ Hl]%lookup_delete_Some. by eapply H1.
  - intros c' t' terminal'. rewrite elem_of_cons. intros [[= -> -> ->]|Hin].
    + split; [by eapply H1|]. by rewrite lookup_delete_eq.
    + apply H2 in Hin as [? Hne]. split; [done|]. by intros [_ ?]%lookup_delete_Some.
  - intros c' t' [? Hne]%H3. split; [done|]. by intros [_ ?]%lookup_delete_Some.
Qed.
Lemma cancels_children p s c ch ref turn : cs_children (in_state s) !! c = Some ch → cc_parent_id ch = p → cc_turn ch = Some ref →
  in_turns s !! ref = Some turn → call_is_running (ts_status (ct_state turn)) = true → (c, ct_turn_id turn) ∈ cancels (cancel_children p s).2.
Proof.
  intros Hl Hp Hr Ht Hrun. unfold cancels, cancel_children. cbn [snd]. rewrite elem_of_list_to_set. apply list_elem_of_omap.
  exists (CancelOwned (cc_owner_id ch) c (Some (ct_turn_id turn))). split; [|done]. apply list_elem_of_omap. exists (c, ch).
  split; [|cbn; by rewrite Hr; cbn; rewrite Ht; cbn; rewrite Hrun]. apply list_elem_of_filter. split; [done|]. by apply elem_of_map_to_list.
Qed.
Lemma hook_stops shutting_down c t terminal before after w : cw_hooks w = before ++ (c, t, terminal) :: after →
  stops_ok w → stops_ok (run_hook shutting_down c t terminal (before ++ after) w).
Proof.
  intros Hh [H1 H2 H3 H4 H5 H6]. unfold run_hook, turn_ended.
  assert (∀ c' t' x, (c', t', x) ∈ before ++ after → (c', t', x) ∈ cw_hooks w) as Hsub by (rewrite Hh; set_solver).
  destruct (one_of STOPPED_TERMINALS terminal && negb shutting_down).
  2: { split; cbn; [done|eauto|..]; rewrite ?union_empty_l_L; eauto. }
  destruct (H2 c t terminal) as [Hu Ha]; [rewrite Hh; set_solver|].
  rewrite (surjective_pairing (cancel_children c (cw_calls w))). set (effects := (cancel_children c (cw_calls w)).2).
  unfold cancel_children. cbn [fst]. split; cbn [cw_calls cw_active cw_used cw_hooks cw_stopped cw_maker cw_cancelled in_state put_state
    cs_starting cs_children in_turns]; [done|eauto| | | |done].
  - intros p t'. rewrite elem_of_union, elem_of_singleton. intros [[= -> ->]|Hin]; [done|by apply H3].
  - intros p t' i a. rewrite elem_of_union, elem_of_singleton, lookup_fmap. intros Hst (a' & Ha' & ->)%fmap_Some.
    destruct (String.eqb (st_parent_id a') c) eqn:Hpar; [done|]. intros Hp Ht. apply String.eqb_neq in Hpar.
    destruct Hst as [[= -> ->]|Hin]; [by rewrite Hp in Hpar|]. by eapply H4.
  - intros p t' d ch ref turn. rewrite elem_of_union, elem_of_singleton. intros Hst Hl Hr Hm Ht Hrun. apply elem_of_union.
    destruct Hst as [[= -> ->]|Hin]; [|right; by eapply H5]. left. destruct (H6 d ch ref Hl Hr) as [maker Hmk].
    eapply cancels_children; [done| |done|done|done]. rewrite Hm in Hmk. by injection Hmk as ->.
Qed.
Lemma reserve_stops parent child w : table_ok (cw_calls w) → stops_ok w → stops_ok (with_calls (reserve (active_of w) parent child (cw_calls w)).1 w).
Proof.
  intros Hok Hst. destruct (reserve (active_of w) parent child (cw_calls w)) as [s' [id|r]] eqn:Hr.
  2: { apply reserve_refused in Hr as ->. by destruct w. }
  unfold reserve in Hr. set (refusal := match child with Some _ => _ | None => _ end) in Hr. destruct refusal; [done|].
  destruct (_ <=? _); [done|]. injection Hr as <- <-. destruct Hst as [H1 H2 H3 H4 H5 H6]. split; cbn; [done..| |done|done].
  intros p t i a Hin. rewrite lookup_insert_Some. intros [[<- <-]|[_ Hl]]; [|by eapply H4]. cbn. intros <- Ha. by apply H3 in Hin as [_ Hne].
Qed.
Lemma track_stops e id starting (c : StartedCall) w : cs_starting (in_state (cw_calls w)) !! id = Some starting → sc_parent c = st_parent_id starting →
  table_ok (cw_calls w) → stops_ok w → stops_ok (run_track e id starting c w).
Proof.
  intros Hid Hpar [_ _ _ _ Hrefs] [H1 H2 H3 H4 H5 H6]. unfold run_track, track. destruct (track_locked (active_of w) e id c (cw_calls w)) as [[s1 ref] stopped] eqn:Hl.
  set (s2 := if _ && _ then _ else _). assert (in_state s2 = in_state s1 ∧ in_turns s2 = in_turns s1) as [Es Et].
  { unfold s2. destruct (_ && _); [|done]. split; apply persist_running_table. }
  unfold track_locked in Hl. rewrite Hid in Hl. injection Hl as <- <- Hstop. set (new := in_next_turn (cw_calls w)) in *.
  assert (∀ d ch x, cs_children (in_state (cw_calls w)) !! d = Some ch → cc_turn ch = Some x → x ≠ new) as Hold.
  { intros d ch x Hd Hx. pose proof (Hrefs d ch x Hd Hx). unfold new. lia. }
  split; cbn [cw_calls cw_active cw_used cw_hooks cw_stopped cw_maker cw_cancelled]; rewrite ?Es, ?Et; cbn [in_state in_turns cs_starting cs_children]; [done..| | |].
  - intros p t i a Hin [_ Ha]%lookup_delete_Some. by eapply H4.
  - intros p t d ch x turn Hin. rewrite lookup_insert_Some. intros [[<- <-]|[Hne Hd]].
    + cbn. intros [= <-]. rewrite !lookup_insert_eq. intros [= <- Hpt] [= <-] _. apply elem_of_union_l.
      assert (st_stopped starting = true) as Hss by (by eapply H4). rewrite Hss in Hstop. cbn in Hstop. rewrite <-Hstop. cbn. set_solver.
    + intros Hx. pose proof (Hold d ch x Hd Hx). rewrite !lookup_insert_ne by done. intros Hm Ht Hrun. apply elem_of_union_r. by eapply H5.
  - intros d ch x. rewrite lookup_insert_Some. intros [[<- <-]|[Hne Hd]].
    + cbn. intros [= <-]. rewrite lookup_insert_eq. by eexists.
    + intros Hx. pose proof (Hold d ch x Hd Hx). rewrite lookup_insert_ne by done. by apply (H6 d).
Qed.
End stops.

(** ** Every step *)
Section invariant.
Context `{JsonView}.
Implicit Types (s : CallsInner) (w : CallWorld) (turn : CallTurn).

(** The file lists the open calls. *)
Definition file_of (persisted : gmap string RunningCall) : option (list RunningCall) :=
  match sorted_calls persisted with [] => None | calls => Some calls end.
Definition list_ok w : Prop :=
  in_file (cw_calls w) = file_of (in_persisted (cw_calls w)) ∧ dom (in_persisted (cw_calls w)) = cw_open w ∧
  ∀ t call, in_persisted (cw_calls w) !! t = Some call → rc_turn call = t.
Definition calls_ok w : Prop := table_ok (cw_calls w) ∧ stops_ok w ∧ list_ok w.

Lemma set_running_running status state : call_is_running (ts_status (set_running_status status state).1) = true →
  call_is_running (ts_status state) = true.
Proof. unfold set_running_status. destruct (call_is_running (ts_status state)) eqn:Hr; [done|]. cbn. by rewrite Hr. Qed.
Lemma observe_turn event turn pending : let '(turn', _, _, _) := observe event turn pending in
  ct_turn_id turn' = ct_turn_id turn ∧ (call_is_running (ts_status (ct_state turn')) = true → call_is_running (ts_status (ct_state turn)) = true).
Proof.
  unfold observe. case_bool_decide; [|done]. set (state := match assistant_text event with Some _ => _ | None => _ end).
  assert (ts_status state = ts_status (ct_state turn)) as <-.
  { unfold state, push_output. destruct (assistant_text event); [|done]. destruct (ts_truncated _); [done|]. by destruct (_ <=? _). }
  destruct (text (payload event) "permissionId") as [id|]; [|done].
  destruct (one_of ["permission.requested"] _).
  { pose proof (set_running_running CallWaitingPermission state). by destruct (set_running_status CallWaitingPermission state). }
  destruct (one_of ["permission.resolved"] _); [|done]. case_bool_decide; [|done].
  pose proof (set_running_running CallRunning state). by destruct (set_running_status CallRunning state).
Qed.
Lemma put_turn_same ref turn turn' s : in_turns s !! ref = Some turn → ct_turn_id turn' = ct_turn_id turn →
  (call_is_running (ts_status (ct_state turn')) = true → call_is_running (ts_status (ct_state turn)) = true) → same_turns s (put_turn ref turn' s).
Proof.
  intros Hl Hid Hr x t'. cbn. rewrite lookup_insert_Some. intros [[<- <-]|[_ Ht]] Hrun; [|by eauto]. exists turn. by auto.
Qed.
Lemma end_of_ended e ended : call_is_running (end_of e ended).1 = false.
Proof.
  assert (∀ t, call_is_running (call_from_terminal t) = false) as Ht.
  { intros t. unfold call_from_terminal. by repeat destruct (one_of _ _). }
  destruct ended; cbn; [apply Ht|done|]. destruct (se_terminal e); [apply Ht|]. by destruct (bool_decide _).
Qed.
Lemma settle_table e parent child ref ended s : let s' := (settle_call e parent child ref ended s).1 in
  in_state s' = in_state s ∧ in_next_turn s' = in_next_turn s ∧ same_turns s s'.
Proof.
  unfold settle_call. destruct (in_turns s !! ref) as [turn|] eqn:Hl; [|split_and!; [done..|]; intros x t; eauto].
  pose proof (end_of_ended e ended) as Hend. destruct (end_of e ended) as [status error]. cbn in Hend. cbv zeta.
  set (turn' := put_turn_state _ turn). assert (same_turns s (put_turn ref turn' s)) as Hsame.
  { eapply put_turn_same; [done|done|]. cbn. by rewrite Hend. }
  destruct (_ && _); [done|]. cbn [fst]. pose proof (forget_running_table (se_written e) (ct_turn_id turn) (put_turn ref turn' s)) as (Es & Et & En).
  split_and!; [done..|]. intros x t. rewrite Et. apply Hsame.
Qed.
Lemma dom_insert_open (m : gmap string RunningCall) (open : gset string) t call : dom m = open → dom (<[t := call]> m) = {[ t ]} ∪ open.
Proof. intros <-. by rewrite dom_insert_L. Qed.
Lemma track_list e id starting c w : te_written e = true → list_ok w → list_ok (run_track e id starting c w).
Proof.
  intros Hw (Hf & Hd & Hk). unfold run_track, track. destruct (track_locked _ e id c (cw_calls w)) as [[s1 ref] stopped] eqn:Hl.
  assert (in_persisted s1 = in_persisted (cw_calls w) ∧ in_file s1 = in_file (cw_calls w)) as [Ep Ef] by (unfold track_locked in Hl; by injection Hl as <- _ _).
  unfold list_ok. cbn [cw_calls cw_open]. destruct (negb _ && negb _); [|rewrite Ep, Ef, union_empty_l_L; done].
  unfold persist_running, write_persisted. rewrite Hw. cbn. rewrite Ep. split_and!; [done|by apply dom_insert_open|].
  intros t call. rewrite lookup_insert_Some. intros [[<- <-]|[_ Hl']]; [done|by apply Hk].
Qed.
Lemma settle_list e ref parent child ended w : se_written e = true → list_ok w → list_ok (run_settle e ref parent child ended w).
Proof.
  intros Hw (Hf & Hd & Hk). unfold run_settle, settle_call. destruct (in_turns (cw_calls w) !! ref) as [turn|].
  2: { unfold list_ok. cbn. rewrite difference_empty_L. done. }
  destruct (end_of e ended) as [status error]. cbv zeta. destruct (_ && _); [unfold list_ok; cbn; rewrite difference_empty_L; done|].
  unfold list_ok, forget_running. cbn [cw_calls cw_open in_persisted put_turn].
  assert (∀ ev, reported_ends [RecordEvent parent ev] = {[ ev_turn ev ]}) as Hrep by (intros ev; unfold reported_ends; cbn; set_solver).
  rewrite Hrep. cbn [ev_turn end_event]. destruct (in_persisted (cw_calls w) !! ct_turn_id turn) as [call|] eqn:Hp.
  - unfold write_persisted. rewrite Hw. cbn. split_and!; [done|rewrite dom_delete_L, Hd; done|].
    intros t c' [_ Hl]%lookup_delete_Some. by apply Hk.
  - cbn. split_and!; [done| |done]. rewrite <-Hd. apply not_elem_of_dom in Hp. set_solver.
Qed.

Lemma call_step_ok w w' : call_step w w' → calls_ok w → calls_ok w'.
Proof.
  intros Hstep (Ht & Hs & Hl). destruct Hstep as [c t Hn Hu|c t terminal Ha|sd c t terminal before after Hh|parent child|id|e id starting c Hid [Hpar Hfit] Hw
    |ref parent child pending event turn Hm Hturn|e ref parent child pending ended Hm Hw|ref|parent|id parent].
  - split_and!; [done|by apply begin_stops|done].
  - split_and!; [done|by apply release_stops|done].
  - split; [|split; [by apply hook_stops|]].
    + unfold run_hook, turn_ended. destruct (_ && _); [|done]. rewrite (surjective_pairing (cancel_children c (cw_calls w))).
      by apply cancel_children_ok.
    + unfold run_hook, turn_ended, list_ok. destruct (_ && _); [|done]. done.
  - split_and!; [|by apply reserve_stops|].
    + cbn. destruct (reserve (active_of w) parent child (cw_calls w)) as [s' [id|r]] eqn:Hr; [by eapply reserve_ok|]. by apply reserve_refused in Hr as ->.
    + unfold list_ok, with_calls. cbn. unfold reserve. repeat case_match; done.
  - split_and!; [by eapply calmer_ok; [apply drop_calmer|]| |done].
    eapply stops_calmer; [..|exact Hs]; [apply delete_subseteq|done|intros x t; eauto|done..].
  - split_and!; [|by apply track_stops|by apply track_list]. unfold run_track, track.
    pose proof (track_locked_ok (active_of w) e id c (cw_calls w) starting Hid Hpar Hfit Ht) as Hok.
    destruct (track_locked _ e id c (cw_calls w)) as [[s1 ref] stopped]. cbn in *. destruct (negb _ && negb _); [|done].
    eapply same_table; [apply persist_running_table..|done].
  - unfold run_observe. pose proof (observe_turn event turn pending) as Ho. destruct (observe event turn pending) as [[[turn' pending'] x] y]. destruct Ho as [Hid Hr].
    pose proof (put_turn_same ref turn turn' (cw_calls w) Hturn Hid Hr) as Hsame. split_and!; [|by eapply stops_calmer; [..|exact Hs]|done].
    apply (calmer_ok (cw_calls w)); [by apply same_turns_calmer|done].
  - pose proof (settle_table e parent child ref ended (cw_calls w)) as Hst. split_and!; [| |by apply settle_list].
    + unfold run_settle. destruct (settle_call e parent child ref ended (cw_calls w)) as [s' effects]. cbn in *. destruct Hst as (Es & En & Hsame).
      apply (calmer_ok (cw_calls w)); [apply same_turns_calmer; cbn; by rewrite ?Es, ?En|done].
    + unfold run_settle. destruct (settle_call e parent child ref ended (cw_calls w)) as [s' effects]. cbn in *. destruct Hst as (Es & En & Hsame).
      eapply stops_calmer; [..|exact Hs]; cbn; by rewrite ?Es.
  - assert (in_state (drop_output ref (cw_calls w)) = in_state (cw_calls w) ∧ in_next_turn (drop_output ref (cw_calls w)) = in_next_turn (cw_calls w) ∧
      same_turns (cw_calls w) (drop_output ref (cw_calls w)) ∧ in_file (drop_output ref (cw_calls w)) = in_file (cw_calls w) ∧
      in_persisted (drop_output ref (cw_calls w)) = in_persisted (cw_calls w)) as (Es & En & Hsame & Ef & Ep).
    { unfold drop_output. destruct (in_turns (cw_calls w) !! ref) as [turn|] eqn:Hturn; [|split_and!; [done..|intros x t; eauto|done|done]].
      split_and!; [done..| |done|done]. by eapply put_turn_same. }
    split_and!; [apply (calmer_ok (cw_calls w)); [apply same_turns_calmer; cbn; by rewrite ?Es, ?En|done]|eapply stops_calmer; [..|exact Hs]; cbn; by rewrite ?Es|].
    unfold list_ok, with_calls. cbn. by rewrite Ef, Ep.
  - split_and!; [by eapply same_table; [..|exact Ht]|by eapply stops_calmer; [..|exact Hs]; try done; intros x t; eauto|done].
  - split_and!; [by eapply calmer_ok; [apply removed_calmer|]| |].
    + destruct (removed_calmer id parent (cw_calls w)) as (? & ? & _). eapply stops_calmer; [..|exact Hs]; try done.
      intros x t. unfold with_calls, conversation_removed. cbn. destruct parent; [eauto|]. destruct (bool_decide _); eauto.
    + unfold list_ok, with_calls, conversation_removed. cbn. destruct parent; [done|]. by destruct (bool_decide _).
Qed.

(** A daemon that starts without calls. *)
Definition no_calls : CallsInner :=
  {| in_state := {| cs_children := ∅; cs_starting := ∅; cs_next_start := 0 |}; in_turns := ∅; in_next_turn := 0; in_persisted := ∅;
     in_parents := ∅; in_file := None |}.
Definition started_world : CallWorld :=
  {| cw_calls := no_calls; cw_active := ∅; cw_used := ∅; cw_hooks := []; cw_stopped := ∅; cw_maker := ∅; cw_monitors := ∅; cw_cancelled := ∅;
     cw_open := ∅ |}.
Lemma started_ok : calls_ok started_world.
Proof.
  split_and!; [split; cbn; try done|split; cbn; try done; set_solver|].
  split_and!; [done|done|]. by intros t call.
Qed.
Lemma call_steps_ok w : rtc call_step started_world w → calls_ok w.
Proof.
  generalize started_ok. generalize started_world. intros w0 Hok Hrun. induction Hrun as [|w1 w2 w3 Hs _ IH]; [done|]. by apply IH, (call_step_ok w1).
Qed.

(** C30: No parent has more than four calls running or starting, no two calls start
    a turn of one child, and none starts one while a call of the child runs. *)
Theorem agent_calls_are_limited w : rtc call_step started_world w →
  (∀ p, running (cw_calls w) p ≤ 4) ∧
  ∀ i a child, cs_starting (in_state (cw_calls w)) !! i = Some a → st_child_id a = Some child →
    running_turn (cw_calls w) child = None ∧
    ∀ j b, cs_starting (in_state (cw_calls w)) !! j = Some b → st_child_id b = Some child → j = i.
Proof.
  intros Hw%call_steps_ok. destruct Hw as ([Hlim Hclaim Hfree _ _] & _ & _). split; [exact Hlim|]. intros i a child Ha Hc. split.
  - unfold running_turn. destruct (cs_children _ !! child) as [ch|] eqn:Hl; [|done]. cbn. specialize (Hfree i a child ch Ha Hc Hl).
    unfold child_running, turn_running in Hfree. destruct (cc_turn ch) as [ref|]; [|done]. cbn. destruct (in_turns _ !! ref); [|done]. cbn. by rewrite Hfree.
  - intros j b Hb Hbc. by eapply Hclaim.
Qed.

(** C29: A stopped turn stops its calls. Once the hook of a cancelled or
    interrupted turn ran, every running child turn that the turn's calls
    started is cancelled, whenever it was tracked; and from the moment the turn
    released its conversation, every call it is still starting is cancelled as
    soon as its child turn is tracked. *)
Theorem stopped_turn_stops_its_calls w p t : rtc call_step started_world w →
  ((p, t) ∈ cw_stopped w → ∀ c ch ref turn, cs_children (in_state (cw_calls w)) !! c = Some ch → cc_turn ch = Some ref →
     cw_maker w !! ref = Some (p, Some t) → in_turns (cw_calls w) !! ref = Some turn → call_is_running (ts_status (ct_state turn)) = true →
     (c, ct_turn_id turn) ∈ cw_cancelled w) ∧
  ((p, t) ∈ cw_stopped w ∨ (∃ terminal, (p, t, terminal) ∈ cw_hooks w) → ∀ e id a c, cs_starting (in_state (cw_calls w)) !! id = Some a →
     st_parent_id a = p → st_parent_turn a = Some t → sc_parent c = p →
     let '(_, _, stopped, effects) := track (active_of w) e id c (cw_calls w) in
     stopped = true ∧ (sc_child c, sc_turn_id c) ∈ cancels effects).
Proof.
  intros Hw%call_steps_ok. destruct Hw as (_ & [_ Hhooks Hst _ Hch _] & _). split; [intros Hin c ch ref turn; by apply Hch|].
  intros Hended e id a c Ha Hp Ht Hpc. assert (active_of w p ≠ Some t) as Hne.
  { destruct Hended as [Hin|[terminal Hin]]; [by apply Hst in Hin as [_ ?]|by apply Hhooks in Hin as [_ ?]]. }
  unfold track, track_locked. rewrite Ha, Ht, Hpc. rewrite bool_decide_eq_false_2 by done. cbn [negb]. rewrite orb_true_r. split; [done|].
  unfold cancels. cbn. set_solver.
Qed.

Lemma elem_of_insert_call x c l : x ∈ insert_call c l ↔ x = c ∨ x ∈ l.
Proof.
  induction l as [|y l IH]; cbn; [by rewrite list_elem_of_singleton, elem_of_nil; naive_solver|].
  destruct (_ <=? _)%Z; rewrite ?elem_of_cons, ?IH; naive_solver.
Qed.
Lemma elem_of_sorted_calls m c : c ∈ sorted_calls m ↔ ∃ t, m !! t = Some c.
Proof.
  unfold sorted_calls. trans (c ∈ (map_to_list m).*2).
  - generalize (map_to_list m).*2. intros l. induction l as [|y l IH]; cbn; [done|]. rewrite elem_of_insert_call, elem_of_cons, IH. done.
  - rewrite list_elem_of_fmap. split.
    + intros ([t c'] & -> & Hin%elem_of_map_to_list). by exists t.
    + intros [t Hl]. exists (t, c). split; [done|]. by apply elem_of_map_to_list.
Qed.
(** What a start reads of the file. *)
Definition leftovers w : LeftoverFile := match in_file (cw_calls w) with Some calls => Listed calls | None => NoFile end.
(** A restart reports the calls it cut off. At any moment, a daemon that starts
    from the file reports to their parents exactly the calls, other than those
    of private conversations, whose end was not reported. *)
Theorem restart_reports_open_calls w : rtc call_step started_world w →
  ∀ t, t ∈ reported_ends (recover_leftovers (leftovers w)).1 ↔ t ∈ cw_open w.
Proof.
  intros Hw%call_steps_ok t. destruct Hw as (_ & _ & Hf & <- & Hk). unfold leftovers. rewrite Hf. unfold file_of.
  assert (t ∈ dom (in_persisted (cw_calls w)) ↔ ∃ c, c ∈ sorted_calls (in_persisted (cw_calls w)) ∧ rc_turn c = t) as ->.
  { rewrite elem_of_dom. split.
    - intros [c Hl]. exists c. split; [apply elem_of_sorted_calls; by exists t|by apply Hk].
    - intros (c & [t' Hl]%elem_of_sorted_calls & <-). rewrite (Hk t' c Hl). by exists c. }
  assert (∀ l, t ∈ reported_ends ((λ c, RecordEvent (rc_parent c) (cut_off_event c)) <$> l) ↔ ∃ c, c ∈ l ∧ rc_turn c = t) as Hrep.
  { intros l. unfold reported_ends. rewrite elem_of_list_to_set, list_elem_of_omap. split.
    - intros (x & (c & -> & Hc)%list_elem_of_fmap & [= <-]). by exists c.
    - intros (c & Hc & <-). exists (RecordEvent (rc_parent c) (cut_off_event c)). split; [|done]. apply list_elem_of_fmap. by exists c. }
  destruct (sorted_calls _) as [|c l] eqn:Hl; cbn [recover_leftovers fst]; [|apply Hrep]. unfold reported_ends. cbn. set_solver.
Qed.
End invariant.
