(* ===== verification/AgentCallsExample.v ===== *)
(** * Agent calls: examples

    A parent calls an agent and is cancelled, a monitor reads a tap, and an API
    key follows a conversation whose hub skips and repeats. *)
From S2P Require Import Prelude Json JsonObject Model Digest SegmentIndex Payload AgentEvents AgentCalls AgentCallsTap AgentCallsSafety.
From Stdlib Require Import Ascii ZifyBool.
Import Jv.
Local Open Scope N_scope.

(** ** A cancelled parent *)

Definition call : StartedCall :=
  {| sc_parent := "p"; sc_parent_ephemeral := false; sc_child := "c"; sc_owner := "o"; sc_child_ephemeral := false; sc_agent := Codex;
     sc_turn_id := "t2"; sc_text := "look"; sc_model := None; sc_reasoning_effort := None; sc_title := None |}.
Definition tracked_at : TrackEnv := {| te_now := 5; te_started_at := 5; te_written := true |}.
Definition prompted : Starting := {| st_parent_id := "p"; st_child_id := None; st_parent_turn := Some "t1"; st_stopped := false |}.

Definition world_1 : CallWorld := begin_turn "p" "t1" started_world.
Definition world_2 : CallWorld := with_calls (reserve (active_of world_1) "p" None (cw_calls world_1)).1 world_1.
Definition world_3 : CallWorld := begin_turn "c" "t2" world_2.
Definition world_4 : CallWorld := run_track tracked_at 0 prompted call world_3.
Definition world_5 : CallWorld := release_turn "p" "t1" "turn.cancelled" world_4.
Definition world_6 : CallWorld := run_hook false "p" "t1" "turn.cancelled" ([] ++ []) world_5.

Lemma reach_2 : rtc call_step started_world world_2.
Proof. eapply rtc_l; [by apply (cs_begin _ "p" "t1")|]. apply rtc_once, cs_reserve. Qed.
Lemma reach_4 : rtc call_step started_world world_4.
Proof.
  etrans; [exact reach_2|]. eapply rtc_l; [by apply (cs_begin _ "c" "t2"); [|vm_compute; set_solver]|].
  apply rtc_once, (cs_track _ tracked_at 0 prompted call); [done| |done]. split; [done|]. by split; vm_compute.
Qed.
Lemma reach_6 : rtc call_step started_world world_6.
Proof. etrans; [exact reach_4|]. eapply rtc_l; [by apply (cs_release _ "p" "t1" "turn.cancelled")|]. by apply rtc_once, (cs_hook _ false "p" "t1" "turn.cancelled" [] []). Qed.

Lemma agent_calls_are_limited_witness : running (cw_calls world_2) "p" = 1 ∧ running (cw_calls world_2) "p" ≤ 4.
Proof. split; [vm_compute; reflexivity|]. apply (agent_calls_are_limited world_2 reach_2). Defined.

Lemma stopped_turn_stops_its_calls_witness : ("c", "t2") ∈ cw_cancelled world_6.
Proof.
  destruct (stopped_turn_stops_its_calls world_6 "p" "t1" reach_6) as [Hstop _].
  apply (Hstop ltac:(vm_compute; set_solver) "c" {| cc_parent_id := "p"; cc_owner_id := "o"; cc_turn := Some 0 |} 0
    {| ct_turn_id := "t2"; ct_state := TurnState_new; ct_started := 5 |}); vm_compute; reflexivity.
Defined.

Lemma restart_reports_open_calls_witness : "t2" ∈ reported_ends (recover_leftovers (leftovers world_6)).1.
Proof. apply (restart_reports_open_calls world_6 reach_6). vm_compute. set_solver. Defined.
(** At the limit, and of a child that runs. *)
Example refused_calls :
  (reserve (active_of world_4) "p" (Some "c") (cw_calls world_4)).2 = Err (Busy (Some "t2")) ∧
  (reserve (active_of world_4) "p" None (foldr (λ _ s, (reserve (active_of world_4) "p" None s).1) (cw_calls world_4) [(); (); ()])).2 = Err Limit.
Proof. split; vm_compute; reflexivity. Qed.

(** ** A tap *)

Definition child_event (sequence : N) (kind : string) (payload : jv) : ConversationEvent :=
  ConversationEvent_new "e" 0 "c" sequence kind payload.
Definition child_events : list ConversationEvent :=
  [child_event 1 "message.delta" (JObj {[ "turnId" := JStr "t2"; "delta" := JStr "I " ]});
   child_event 2 "tool.output" (JObj {[ "turnId" := JStr "t2"; "output" := JStr "secret" ]});
   child_event 3 "permission.requested" (JObj {[ "turnId" := JStr "t2"; "permissionId" := JStr "q"; "command" := JStr "rm" ]});
   child_event 4 "permission.resolved" (JObj {[ "turnId" := JStr "t2"; "permissionId" := JStr "q" ]});
   child_event 5 "message.delta" (JObj {[ "turnId" := JStr "t2"; "delta" := JStr "see" ]});
   child_event 6 "turn.failed" (JObj {[ "turnId" := JStr "t2"; "message" := JStr "boom"; "stopReason" := JStr "s" ]})].
Definition child_turn : CallTurn := {| ct_turn_id := "t2"; ct_state := TurnState_new; ct_started := 5 |}.
Definition at_rest : SettleEnv := {| se_terminal := None; se_status := None; se_now := 9; se_shutting_down := false; se_written := true |}.
Definition tapped : list ConversationEvent := omap (λ event, tap_projection "e" event) child_events.

Lemma tap_is_enough_witness :
  let '(turn1, pending1, updates1, ended1) := follow_tap child_events child_turn ∅ in
  let '(turn2, pending2, updates2, ended2) := follow_tap tapped child_turn ∅ in
  turn1 = turn2 ∧ pending1 = pending2 ∧ updates1 = updates2 ∧ end_of at_rest <$> ended1 = end_of at_rest <$> ended2.
Proof. apply (tap_is_enough (λ _, "e") at_rest child_events child_turn ∅). Defined.
Example tapped_end : length tapped = 5%nat ∧
  let '(turn, _, updates, ended) := follow_tap tapped child_turn ∅ in
  ts_output (ct_state turn) = "I see" ∧ updates = [CallWaitingPermission; CallRunning] ∧
  end_of at_rest <$> ended = Some (CallFailed, Some {| ce_code := None; ce_message := "boom" |}).
Proof. vm_compute. done. Qed.

(** ** A stream *)

Definition plain_present (event : ConversationEvent) (_ _ : unit) : unit * ConversationEvent := (tt, event).
Definition replay_page (events : list ConversationEvent) : PumpEnv (Frames := unit) :=
  {| pe_replay := Ok {| ra_events := events; ra_frames := tt; ra_has_more := false |}; pe_recv := Closed |}.
Definition live_event (n : nat) : PumpEnv (Frames := unit) :=
  {| pe_replay := Err (NotFound ""); pe_recv := match child_events !! n with Some event => Received event | None => Lagged end |}.
(** The first page; a repeated event, the next (received and presented), one
    too far ahead, and the page that fills the gap. *)
Definition rounds : list (PumpEnv (Frames := unit)) :=
  [replay_page (take 2 child_events); live_event 1; live_event 2; live_event 2; live_event 4; replay_page (drop 3 child_events)].

Lemma child_events_dense i e : child_events !! i = Some e → sequence e = N.of_nat i + 1.
Proof. do 6 (destruct i as [|i]; [by intros [= <-]|]). done. Qed.
Lemma pump_delivers_the_journal_witness :
  let '(self, delivered) := pump_run plain_present tt rounds (EventPump_new tt 0) in
  Forall2 (presents plain_present) (take (N.to_nat (pm_cursor self) - N.to_nat 0) (drop (N.to_nat 0) child_events)) delivered ∧
  pm_cursor self = 0 + N.of_nat (length delivered).
Proof.
  apply (pump_delivers_the_journal plain_present tt child_events child_events_dense rounds tt 0).
  - vm_compute. discriminate.
  - refine (conj _ (conj _ (conj _ (conj _ (conj _ (conj _ I)))))); split; intros x Hx; try discriminate Hx; injection Hx as <-.
    + by exists (drop 2 child_events).
    + by apply list_elem_of_lookup_2 with 1%nat.
    + by apply list_elem_of_lookup_2 with 2%nat.
    + by apply list_elem_of_lookup_2 with 2%nat.
    + by apply list_elem_of_lookup_2 with 4%nat.
    + by exists [].
Defined.
Example delivered_all : (pump_run plain_present tt rounds (EventPump_new tt 0)).2 = child_events.
Proof. vm_compute. reflexivity. Qed.
