(* ===== verification/AgentScope.v ===== *)
(** * What agent calls may do

    Model of src/src/agent_calls/settings.rs (the scope of agent calling and its
    settings, less the state of the API listener), policy.rs (standing answers
    to permission requests), caller.rs and mod.rs (whose calls are checked how,
    and the prompt a call sends). Paths are those the file system resolved; the
    catalog of a provider is an argument. *)
From S2P Require Import Prelude Bytes Text Channel Query DeviceAuth Devices Json JsonObject Model Digest Summary Recipients Keyring Dek HistoryCrypto Record SegmentIndex FollowUps ApiKeys.
From stdpp Require Import pretty.
From Stdlib Require Import Ascii ZifyBool.
Local Open Scope N_scope.

Definition MAX_MODELS_PER_AGENT : nat := 256.
Definition MAX_MODEL_ID_CHARS : nat := 200.

Definition provider_as_str (self : ProviderKind) : string :=
  match self with
  | Acp => "acp" | Codex => "codex" | Pi => "pi" | ClaudeCode => "claude-code" | GrokBuild => "grok-build" | Devin => "devin"
  | Opencode => "opencode" | Antigravity => "antigravity" | DeepseekHarness => "deepseek-harness" | Omp => "omp"
  end.
Definition provider_all : list ProviderKind :=
  [Acp; Codex; Pi; ClaudeCode; GrokBuild; Devin; Opencode; Antigravity; DeepseekHarness; Omp].
(** [stored_agent]: an agent id as the file spells it. *)
Definition stored_agent (id : string) : option ProviderKind := find (λ a, String.eqb (provider_as_str a) id) provider_all.
Lemma stored_provider a : stored_agent (provider_as_str a) = Some a.
Proof. by destruct a. Qed.
#[export] Instance ProviderKind_countable : Countable ProviderKind := inj_countable provider_as_str stored_agent stored_provider.

(** ** The scope *)

Record AgentScope : Type := { as_agents : option (list ProviderKind); as_models : gmap ProviderKind (list string) }.
Definition scope_allows_agent (self : AgentScope) (agent : ProviderKind) : bool :=
  match as_agents self with None => true | Some agents => bool_decide (agent ∈ agents) end.
Definition allowed_models (self : AgentScope) (agent : ProviderKind) : option (list string) := as_models self !! agent.
Definition allows_model (self : AgentScope) (agent : ProviderKind) (model : string) : bool :=
  match allowed_models self agent with None => true | Some models => bool_decide (model ∈ models) end.
Definition any_agent_allowed (self : AgentScope) : bool :=
  match as_agents self with None => true | Some agents => negb (bool_decide (agents = [])) end.

Record ModelDescriptor : Type := { md_id : string; md_is_default : bool; md_efforts : list string }.

Definition resolve_model (self : AgentScope) (agent : ProviderKind) (requested : option string)
    (catalog : option (list ModelDescriptor)) : result AppError (option string) :=
  match requested with
  | Some model =>
      if allows_model self agent model then Ok (Some model)
      else Err (Unauthorized ("model " +:+ model +:+ " of " +:+ provider_as_str agent +:+ " is not allowed for agent calling"))
  | None =>
      match allowed_models self agent with
      | None => Ok None
      | Some allowed =>
          let default := models ← catalog; d ← find md_is_default models;
                         if bool_decide (md_id d ∈ allowed) then Some (md_id d) else None in
          Ok (match default with Some id => Some id | None => head allowed end)
      end
  end.

Definition valid_models (models : list string) : bool :=
  negb (bool_decide (models = [])) && (length models <=? MAX_MODELS_PER_AGENT)%nat &&
  forallb (λ m, negb (String.eqb (trim m) "") && String.eqb (trim m) m && (char_count m <=? MAX_MODEL_ID_CHARS)%nat) models.
(** [validate]; which agent and rule the message names is left out. *)
Definition scope_validate (self : AgentScope) : result AppError unit :=
  guard_err (bool_decide (map_Forall (λ _ models, valid_models models = true) (as_models self))) (InvalidRequest "scope.models").
(** [sort] and [dedup]: the agents listed, in the order of the enumeration. *)
Definition sorted_agents (agents : list ProviderKind) : list ProviderKind := filter (λ a, a ∈ agents) provider_all.
(** [retain] with a set of the models seen. *)
Fixpoint retain_new (seen : gset string) (models : list string) : list string :=
  match models with
  | [] => []
  | m :: models => if bool_decide (m ∈ seen) then retain_new seen models else m :: retain_new ({[ m ]} ∪ seen) models
  end.
Definition normalized (self : AgentScope) : AgentScope :=
  {| as_agents := sorted_agents <$> as_agents self; as_models := retain_new ∅ <$> as_models self |}.

(** ** The settings *)

Record McpSettings : Type := { mcp_enabled : bool; mcp_approval : ApprovalPolicy }.
Record AgentCallingSettings : Type := { ac_scope : AgentScope; ac_mcp : McpSettings }.
Definition AgentCallingSettings_default : AgentCallingSettings :=
  {| ac_scope := {| as_agents := None; as_models := ∅ |}; ac_mcp := {| mcp_enabled := false; mcp_approval := Ask |} |}.
Definition mcp_injected (self : AgentCallingSettings) : bool := mcp_enabled (ac_mcp self) && any_agent_allowed (ac_scope self).
Record McpUpdate : Type := { mu_enabled : option bool; mu_approval : option ApprovalPolicy }.
Record AgentCallingUpdate : Type := { au_scope : option AgentScope; au_mcp : option McpUpdate }.
(** The file as it is parsed; unknown agents and approvals are texts. *)
Record StoredSettings : Type := {
  ss_agents : option (list string); ss_models : gmap string (list string); ss_enabled : bool; ss_approval : option string;
}.
Definition approval_of (text : string) : option ApprovalPolicy :=
  if String.eqb text "ask" then Some Ask else if String.eqb text "auto-approve" then Some AutoApprove
  else if String.eqb text "reject" then Some Reject else None.
(** [collect] into a map: the later of two texts for one agent wins; each agent
    has one. *)
Definition stored_models (models : gmap string (list string)) : gmap ProviderKind (list string) :=
  list_to_map (omap (λ p : string * list string, agent ← stored_agent p.1; Some (agent, p.2)) (map_to_list models)).
Definition StoredSettings_parse (stored : StoredSettings) : result AppError AgentCallingSettings :=
  let approval := match ss_approval stored with None => Ask | Some text => default Ask (approval_of text) end in
  let scope : AgentScope :=
    {| as_agents := match ss_agents stored with None => None | Some agents => Some (omap stored_agent agents) end;
       as_models := stored_models (ss_models stored) |} in
  _ ← scope_validate scope;
  Ok {| ac_scope := normalized scope; ac_mcp := {| mcp_enabled := ss_enabled stored; mcp_approval := approval |} |}.
(** What [read_settings] meets; [load] then takes the defaults for a file it
    cannot use. *)
Inductive SettingsFile : Type := SettingsMissing | SettingsUnreadable | SettingsTooLarge | SettingsMalformed | SettingsStored (stored : StoredSettings).
Definition load_settings (file : SettingsFile) : AgentCallingSettings :=
  match file with
  | SettingsStored stored => match StoredSettings_parse stored with Ok settings => settings | Err _ => AgentCallingSettings_default end
  | _ => AgentCallingSettings_default
  end.
(** [update], with what the disk answers. *)
Definition settings_update (io : option AppError) (update : AgentCallingUpdate) : M AgentCallingSettings AppError AgentCallingSettings := λ self,
  match match au_scope update with
        | None => Ok (ac_scope self)
        | Some scope => _ ← scope_validate scope; Ok (normalized scope)
        end with
  | Err e => (self, Err e)
  | Ok scope =>
      let mcp := match au_mcp update with
                 | None => ac_mcp self
                 | Some mcp => {| mcp_enabled := default (mcp_enabled (ac_mcp self)) (mu_enabled mcp);
                                  mcp_approval := default (mcp_approval (ac_mcp self)) (mu_approval mcp) |}
                 end in
      let next := {| ac_scope := scope; ac_mcp := mcp |} in
      match io with Some error => (self, Err error) | None => (next, Ok next) end
  end.

(** ** Callers *)

(** An API key, or the conversation of an agent that calls agents. *)
Inductive Caller : Type := ApiKeyCaller (record : ApiKeyRecord) | AgentToolCaller (parent owner workspace : string).
Definition caller_owner (self : Caller) : string :=
  match self with ApiKeyCaller record => owner_id record | AgentToolCaller _ owner _ => owner end.
Definition check_agent (self : Caller) (agent : ProviderKind) : result AppError unit :=
  match self with
  | ApiKeyCaller record =>
      guard_err (allows_agent (ak_scopes record) agent) (Unauthorized ("agent " +:+ provider_as_str agent +:+ " is outside this API key's scope"))
  | AgentToolCaller _ _ _ => Ok tt
  end.
Definition ensure_agent (settings : AgentCallingSettings) (caller : Caller) (agent : ProviderKind) : result AppError unit :=
  _ ← guard_err (scope_allows_agent (ac_scope settings) agent)
        (Unauthorized ("agent " +:+ provider_as_str agent +:+ " is not enabled for agent calling"));
  check_agent caller agent.
Section workspaces.
(** [fs::canonicalize], and [validate_workspace_directory] with the roots of
    the caller: the canonical path, if it is inside one. *)
Context (canonicalize : string → option string) (validate : string → result AppError string).

Definition check_workspace (self : Caller) (workspace : string) : result AppError unit :=
  match self with
  | ApiKeyCaller record => guard_err (allows_workspace canonicalize (ak_scopes record) workspace) (Unauthorized "workspace is outside this API key's scope")
  | AgentToolCaller _ _ _ => Ok tt
  end.
Definition authorize_workspace (self : Caller) (requested : option string) : result AppError string :=
  match self with
  | ApiKeyCaller record =>
      requested ← ok_or requested (InvalidRequest "workspace is required");
      workspace ← validate requested;
      _ ← check_workspace self workspace;
      Ok workspace
  | AgentToolCaller _ _ parent_workspace =>
      workspace ← validate parent_workspace;
      match requested with
      | None => Ok workspace
      | Some requested =>
          requested ← validate requested;
          _ ← guard_err (String.eqb requested workspace) (Unauthorized "agent calls run in the calling conversation's workspace");
          Ok workspace
      end
  end.

(** ** The prompt of a call *)

Record TurnInput : Type := {
  ti_text : string; ti_model : option string; ti_reasoning_effort : option string; ti_skills : list string;
  ti_client_request_id : option string; ti_permission_mode : option string; ti_work_mode : option string;
}.
Definition input_validate (self : TurnInput) : result AppError unit :=
  guard_err (negb (String.eqb (trim (ti_text self)) "")) (InvalidRequest "text is required").
(** [models_live] is the catalog, when it can be read. *)
Definition effort_supported (catalog : list ModelDescriptor) (model : option string) (effort : string) : result AppError unit :=
  let descriptor := match model with
                    | Some id => find (λ d, String.eqb (md_id d) id) catalog
                    | None => find md_is_default catalog
                    end in
  match descriptor with
  | None => Ok tt
  | Some d =>
      guard_err (bool_decide (md_efforts d = []) || bool_decide (effort ∈ md_efforts d))
        (Unauthorized ("reasoning effort " +:+ effort +:+ " is not supported by model " +:+ md_id d))
  end.
Definition prepare_prompt (settings : AgentCallingSettings) (models_live : option (list ModelDescriptor)) (agent : ProviderKind)
    (input : TurnInput) : result AppError ConversationPrompt :=
  _ ← input_validate input;
  let scope := ac_scope settings in
  let needs_catalog := bool_decide (is_Some (ti_reasoning_effort input)) ||
                       (bool_decide (ti_model input = None) && bool_decide (is_Some (allowed_models scope agent))) in
  let catalog := if needs_catalog then models_live else None in
  model ← resolve_model scope agent (ti_model input) catalog;
  _ ← match ti_reasoning_effort input, catalog with
      | Some effort, Some catalog => effort_supported catalog model effort
      | _, _ => Ok tt
      end;
  Ok {| permission_mode := ti_permission_mode input; work_mode := ti_work_mode input; client_request_id := ti_client_request_id input;
        p_text := ti_text input; p_model := model; reasoning_effort := ti_reasoning_effort input; skills := ti_skills input;
        p_content := []; permission_profile := None; sandbox_mode := None; approval_policy := None |}.
(** What [start_turn] checks before it prompts an existing conversation, and
    [run] before it creates one. *)
Definition admit_turn (settings : AgentCallingSettings) (models_live : option (list ModelDescriptor)) (caller : Caller)
    (agent : ProviderKind) (workspace : string) (input : TurnInput) : result AppError ConversationPrompt :=
  _ ← input_validate input;
  _ ← ensure_agent settings caller agent;
  _ ← check_workspace caller workspace;
  prepare_prompt settings models_live agent input.
Definition admit_run (settings : AgentCallingSettings) (models_live : option (list ModelDescriptor)) (caller : Caller)
    (agent : ProviderKind) (requested : option string) (input : TurnInput) : result AppError (string * ConversationPrompt) :=
  _ ← input_validate input;
  _ ← ensure_agent settings caller agent;
  workspace ← authorize_workspace caller requested;
  prompt ← prepare_prompt settings models_live agent input;
  Ok (workspace, prompt).
End workspaces.

(** ** Standing answers *)

Inductive PermissionOutcome : Type := AllowOnce | AllowAlways | RejectOnce | RejectAlways | AbortTurn | Answer.
Definition outcome_as_str (self : PermissionOutcome) : string :=
  match self with
  | AllowOnce => "allow_once" | AllowAlways => "allow_always" | RejectOnce => "reject_once" | RejectAlways => "reject_always"
  | AbortTurn => "abort_turn" | Answer => "answer"
  end.
Record PermissionDecision : Type := { pd_outcome : PermissionOutcome; pd_option_id : option string }.

Section policy.
Context `{JsonView}.

Definition wanted (approval : ApprovalPolicy) (device_bound : bool) : option (list PermissionOutcome) :=
  match approval, device_bound with
  | Ask, _ => None
  | AutoApprove, false => Some [AllowOnce]
  | AutoApprove, true | Reject, _ => Some [RejectOnce; RejectAlways; AbortTurn]
  end.
Fixpoint pick_option (options : list Value) (wanted : list PermissionOutcome) : option PermissionDecision :=
  match wanted with
  | [] => None
  | outcome :: wanted =>
      match find (λ o, bool_decide (text o "kind" = Some (outcome_as_str outcome))) options with
      | Some o => Some {| pd_outcome := outcome; pd_option_id := text o "optionId" |}
      | None => pick_option options wanted
      end
  end.
Definition standing_decision (approval : ApprovalPolicy) (options : Value) (device_bound : bool) : option PermissionDecision :=
  wanted ← wanted approval device_bound;
  options ← as_array options;
  pick_option options wanted.

(** What the store answers of a conversation: its owner and its parent. *)
Record PolicyManifest : Type := { po_owner : string; po_parent : option string }.
(** [get] is [ApiKeyStore::get], when it succeeds. *)
Definition api_key_decide (manifest : option PolicyManifest) (get : string → option ApiKeyRecord) (options : Value) (device_bound : bool) :
    option (PermissionDecision * string) :=
  manifest ← manifest;
  id ← SegmentIndex.strip_prefix OWNER_PREFIX (po_owner manifest);
  record ← get id;
  decision ← standing_decision (ak_approval record) options device_bound;
  Some (decision, "apikey-policy:" +:+ id).
Definition is_agent_call_child (manifest : PolicyManifest) : bool := bool_decide (is_Some (po_parent manifest)).
Definition agent_call_decide (manifest : option PolicyManifest) (settings : AgentCallingSettings) (options : Value) (device_bound : bool) :
    option (PermissionDecision * string) :=
  manifest ← manifest;
  if negb (is_agent_call_child manifest) then None
  else decision ← standing_decision (mcp_approval (ac_mcp settings)) options device_bound; Some (decision, "agent-call-policy").
(** [CompositePermissionPolicy::for_daemon]. *)
Definition daemon_decide (manifest : option PolicyManifest) (get : string → option ApiKeyRecord) (settings : AgentCallingSettings)
    (options : Value) (device_bound : bool) : option (PermissionDecision * string) :=
  match api_key_decide manifest get options device_bound with
  | Some decision => Some decision
  | None => agent_call_decide manifest settings options device_bound
  end.
End policy.
