(* ===== verification/AgentScopeSafety.v ===== *)
(** * What agent calls may do: the scope holds

    Every prompt a call sends is inside the scope of the settings and of its
    caller, and nothing is approved on standing that was not consented to. *)
From S2P Require Import Prelude Bytes Text Channel Query DeviceAuth Devices Json JsonObject Model Digest Summary Recipients Keyring Dek HistoryCrypto Record SegmentIndex FollowUps ApiKeys AgentScope.
From stdpp Require Import pretty.
From Stdlib Require Import Ascii ZifyBool.
Local Open Scope N_scope.

(** ** Settings *)

Definition scope_ok (scope : AgentScope) : Prop := map_Forall (λ _ (models : list string), models ≠ []) (as_models scope).

Lemma retain_new_nonempty models : models ≠ [] → retain_new ∅ models ≠ [].
Proof. destruct models as [|m models]; [done|]. intros _. cbn. by rewrite bool_decide_eq_false_2 by set_solver. Qed.
Lemma normalized_ok scope : scope_validate scope = Ok tt → scope_ok (normalized scope).
Proof.
  unfold scope_validate, guard_err. case_bool_decide as Hv; [|done]. intros _ agent models. cbn. rewrite lookup_fmap.
  intros (models' & Hl & ->)%fmap_Some. apply retain_new_nonempty. specialize (Hv agent models' Hl). cbn in Hv. unfold valid_models in Hv.
  apply andb_true_iff in Hv as [[Hv _]%andb_true_iff _]. by apply negb_true_iff, bool_decide_eq_false in Hv.
Qed.
Lemma load_settings_ok file : scope_ok (ac_scope (load_settings file)).
Proof.
  assert (scope_ok (ac_scope AgentCallingSettings_default)) as Hd by (by intros agent models).
  destruct file as [| | | |stored]; [done..|]. cbn. destruct (StoredSettings_parse stored) as [settings|] eqn:Hp; [|done].
  unfold StoredSettings_parse in Hp. cbv zeta in Hp. destruct (scope_validate _) as [[]|] eqn:Hv; [|done]. injection Hp as <-. by apply normalized_ok.
Qed.
Lemma settings_update_ok io update s : scope_ok (ac_scope s) → scope_ok (ac_scope (settings_update io update s).1).
Proof.
  intros Hs. unfold settings_update. destruct (au_scope update) as [scope|].
  - destruct (scope_validate scope) as [[]|] eqn:Hv; [|done]. cbn. destruct io; [done|]. by apply normalized_ok.
  - by destruct io.
Qed.
(** The settings after a start and updates. *)
Definition settings_after (file : SettingsFile) (updates : list (option AppError * AgentCallingUpdate)) : AgentCallingSettings :=
  foldl (λ s u, (settings_update u.1 u.2 s).1) (load_settings file) updates.
Lemma settings_after_ok file updates : scope_ok (ac_scope (settings_after file updates)).
Proof.
  unfold settings_after. generalize (load_settings_ok file). generalize (load_settings file).
  induction updates as [|u updates IH]; intros s Hs; [done|]. cbn. by apply IH, settings_update_ok.
Qed.

(** ** Prompts *)

(** [model] is one the scope allows, and the provider's own choice only where
    all of its models are. *)
Definition model_in_scope (scope : AgentScope) (agent : ProviderKind) (model : option string) : Prop :=
  match model with Some m => allows_model scope agent m = true | None => allowed_models scope agent = None end.
Lemma resolve_in_scope scope agent requested catalog model : scope_ok scope →
  resolve_model scope agent requested catalog = Ok model → model_in_scope scope agent model.
Proof.
  intros Hok. unfold resolve_model. destruct requested as [m|].
  { destruct (allows_model scope agent m) eqn:Ha; [|done]. by intros [= <-]. }
  destruct (allowed_models scope agent) as [allowed|] eqn:Hl; [|by intros [= <-]]. pose proof (Hok agent allowed Hl) as Hne. cbn in Hne.
  intros [= <-]. assert (∀ m, m ∈ allowed → model_in_scope scope agent (Some m)) as Hin.
  { intros m Hm. cbn. unfold allows_model. rewrite Hl. by apply bool_decide_eq_true. }
  destruct (models ← catalog; _) as [id|] eqn:Hd.
  - apply Hin. destruct catalog as [models|]; [|done]. cbn in Hd. destruct (find md_is_default models) as [d|]; [|done]. cbn in Hd.
    case_bool_decide; [|done]. by injection Hd as <-.
  - destruct allowed as [|m allowed]; [done|]. apply Hin. set_solver.
Qed.
(** What a caller may do with [agent] in [workspace]. *)
Definition caller_allows (canonicalize : string → option string) (validate : string → result AppError string) (caller : Caller)
    (agent : ProviderKind) (workspace : string) : Prop :=
  match caller with
  | ApiKeyCaller record => allows_agent (ak_scopes record) agent = true ∧ allows_workspace canonicalize (ak_scopes record) workspace = true
  | AgentToolCaller _ _ parent_workspace => validate parent_workspace = Ok workspace
  end.
(** Calls stay in scope. Whatever the settings file held and was changed to,
    a call that is admitted runs an agent the settings and the caller allow, in
    a workspace the caller may use, on a model the settings allow, with a text,
    and leaves permissions, sandbox and approval to the policies. *)
Theorem agent_calls_stay_in_scope canonicalize validate file updates models_live caller agent requested input workspace prompt :
  let settings := settings_after file updates in
  admit_run canonicalize validate settings models_live caller agent requested input = Ok (workspace, prompt) →
  scope_allows_agent (ac_scope settings) agent = true ∧ caller_allows canonicalize validate caller agent workspace ∧
  model_in_scope (ac_scope settings) agent (p_model prompt) ∧ trim (p_text prompt) ≠ "" ∧
  (permission_profile prompt, sandbox_mode prompt, approval_policy prompt) = (None, None, None).
Proof.
  intros settings Hrun. pose proof (settings_after_ok file updates) as Hok. fold settings in Hok. unfold admit_run, prepare_prompt, ensure_agent in Hrun.
  cbv zeta in Hrun. res_inv. cbn [p_model p_text permission_profile sandbox_mode approval_policy].
  match goal with He : resolve_model _ _ _ _ = Ok _ |- _ => apply resolve_in_scope in He as Hm; [|done] end.
  match goal with He : input_validate input = Ok _ |- _ => unfold input_validate in He; res_inv end.
  split_and!; [done| |done| |done].
  - destruct caller as [record|parent owner parent_workspace]; cbn in *; res_inv; [done|]. destruct requested; res_inv; done.
  - match goal with He : negb (String.eqb (trim (ti_text input)) "") = true |- _ => by apply negb_true_iff, String.eqb_neq in He end.
Qed.

(** ** Standing answers *)
Section policy.
Context `{JsonView}.
Implicit Types (options : Value).

Lemma pick_option_spec (options : list Value) outcomes d : pick_option options outcomes = Some d →
  pd_outcome d ∈ outcomes ∧ ∃ o, o ∈ options ∧ text o "kind" = Some (outcome_as_str (pd_outcome d)) ∧ pd_option_id d = text o "optionId".
Proof.
  induction outcomes as [|outcome outcomes IH]; [done|]. cbn. destruct (find _ options) as [o|] eqn:Hf.
  - intros [= <-]. apply find_some in Hf as [Hin Hk]. apply bool_decide_eq_true in Hk. cbn. split; [set_solver|]. exists o.
    split; [by apply list_elem_of_In|done].
  - intros Hd%IH. set_solver.
Qed.
Definition approves (outcome : PermissionOutcome) : bool := match outcome with AllowOnce | AllowAlways => true | _ => false end.
Lemma standing_approves approval options device_bound d : standing_decision approval options device_bound = Some d → approves (pd_outcome d) = true →
  approval = AutoApprove ∧ device_bound = false ∧
  ∃ l o, as_array options = Some l ∧ o ∈ l ∧ text o "kind" = Some "allow_once" ∧ pd_option_id d = text o "optionId".
Proof.
  unfold standing_decision. destruct (wanted approval device_bound) as [outcomes|] eqn:Hw; [|done]. cbn.
  destruct (as_array options) as [l|]; [|done]. cbn. intros (Hin & o & Ho & Hk & Hid)%pick_option_spec Hap.
  destruct approval, device_bound; cbn in Hw; try done; injection Hw as <-; rewrite ?elem_of_cons, elem_of_nil in Hin.
  - destruct Hin as [Hd|[Hd|[Hd|[]]]]; by rewrite Hd in Hap.
  - destruct Hin as [Hd|[]]. rewrite Hd in Hk. split_and!; [done..|]. by exists l, o.
  - destruct Hin as [Hd|[Hd|[Hd|[]]]]; by rewrite Hd in Hap.
  - destruct Hin as [Hd|[Hd|[Hd|[]]]]; by rewrite Hd in Hap.
Qed.
(** What stands behind an approval: the key that owns the conversation, or the
    setting for conversations agents started, says to approve. *)
Definition consented (manifest : PolicyManifest) (get : string → option ApiKeyRecord) (settings : AgentCallingSettings) : Prop :=
  (∃ id r, po_owner manifest = OWNER_PREFIX +:+ id ∧ get id = Some r ∧ ak_approval r = AutoApprove) ∨
  (is_Some (po_parent manifest) ∧ mcp_approval (ac_mcp settings) = AutoApprove).
Definition rightly_approved (manifest : option PolicyManifest) (get : string → option ApiKeyRecord) (settings : AgentCallingSettings) options
    (device_bound : bool) (d : PermissionDecision) : Prop :=
  device_bound = false ∧ (∃ m, manifest = Some m ∧ consented m get settings) ∧
  ∃ l o, as_array options = Some l ∧ o ∈ l ∧ text o "kind" = Some "allow_once" ∧ pd_option_id d = text o "optionId".
Lemma strip_prefix_inv p s r : SegmentIndex.strip_prefix p s = Some r → s = p +:+ r.
Proof.
  revert s. induction p as [|x p IH]; intros s; cbn; [by intros [= <-]|]. destruct s as [|y s]; [done|].
  destruct (Ascii.eqb x y) eqn:Hx; [|done]. apply Ascii.eqb_eq in Hx as ->. intros ->%IH. done.
Qed.
Lemma api_key_approves manifest get settings options device_bound d principal :
  api_key_decide manifest get options device_bound = Some (d, principal) → approves (pd_outcome d) = true →
  rightly_approved manifest get settings options device_bound d.
Proof.
  unfold api_key_decide. destruct manifest as [m|]; [|done]. cbn [mbind option_bind]. destruct (SegmentIndex.strip_prefix _ _) as [id|] eqn:Hid; [|done]. cbn.
  destruct (get id) as [r|] eqn:Hr; [|done]. cbn. destruct (standing_decision _ _ _) as [d'|] eqn:Hd; [|done]. cbn. intros [= -> _] Hap.
  destruct (standing_approves _ _ _ _ Hd Hap) as (Ha & Hb & Ho). split_and!; [done| |done]. exists m. split; [done|]. left. exists id, r.
  split_and!; [by apply strip_prefix_inv|done..].
Qed.
Lemma agent_call_approves manifest get settings options device_bound d principal :
  agent_call_decide manifest settings options device_bound = Some (d, principal) → approves (pd_outcome d) = true →
  rightly_approved manifest get settings options device_bound d.
Proof.
  unfold agent_call_decide. destruct manifest as [m|]; [|done]. cbn. unfold is_agent_call_child. case_bool_decide as Hc; [|done]. cbn.
  destruct (standing_decision _ _ _) as [d'|] eqn:Hd; [|done]. cbn. intros [= -> _] Hap.
  destruct (standing_approves _ _ _ _ Hd Hap) as (Ha & Hb & Ho). split_and!; [done| |done]. exists m. split; [done|]. by right.
Qed.
(** C31: Standing approvals need consent. A request is approved without a person
    only by an option that allows it once, only where the owner or the settings
    say so, and never when it is bound to devices. *)
Theorem standing_approval_needs_consent manifest get settings options device_bound d principal :
  daemon_decide manifest get settings options device_bound = Some (d, principal) → approves (pd_outcome d) = true →
  rightly_approved manifest get settings options device_bound d.
Proof.
  unfold daemon_decide. destruct (api_key_decide manifest get options device_bound) as [[d' principal']|] eqn:Hk.
  - intros [= -> ->] Hap. by eapply api_key_approves.
  - apply agent_call_approves.
Qed.
End policy.

(** ** Examples *)
Module ScopeExample.
Import Jv.

(** Only Codex, and of it two models. *)
Definition stored : StoredSettings :=
  {| ss_agents := Some ["codex"; "someday"; "codex"]; ss_models := {[ "codex" := ["m1"; "m2"; "m1"] ]}; ss_enabled := true;
     ss_approval := Some "auto-approve" |}.
Definition auto : AgentCallingSettings := settings_after (SettingsStored stored) [].
Example settings_read : auto =
  {| ac_scope := {| as_agents := Some [Codex]; as_models := {[ Codex := ["m1"; "m2"] ]} |};
     ac_mcp := {| mcp_enabled := true; mcp_approval := AutoApprove |} |}.
Proof. vm_compute. reflexivity. Qed.
Definition ask_for (model : option string) : TurnInput :=
  {| ti_text := "look"; ti_model := model; ti_reasoning_effort := None; ti_skills := []; ti_client_request_id := None;
     ti_permission_mode := None; ti_work_mode := None |}.
Definition sent : ConversationPrompt :=
  {| permission_mode := None; work_mode := None; client_request_id := None; p_text := "look"; p_model := Some "m1"; reasoning_effort := None;
     skills := []; p_content := []; permission_profile := None; sandbox_mode := None; approval_policy := None |}.
Definition agent_caller : Caller := AgentToolCaller "p" "o" "/srv/app".

Lemma agent_calls_stay_in_scope_witness :
  scope_allows_agent (ac_scope auto) Codex = true ∧ caller_allows Some Ok agent_caller Codex "/srv/app" ∧
  model_in_scope (ac_scope auto) Codex (p_model sent) ∧ trim (p_text sent) ≠ "" ∧
  (permission_profile sent, sandbox_mode sent, approval_policy sent) = (None, None, None).
Proof.
  apply (agent_calls_stay_in_scope Some Ok (SettingsStored stored) [] None agent_caller Codex None (ask_for None)). vm_compute. reflexivity.
Defined.
Example refused_models :
  (admit_run Some Ok auto None agent_caller Codex None (ask_for (Some "m3")), admit_run Some Ok auto None agent_caller Pi None (ask_for None)) =
  (Err (Unauthorized "model m3 of codex is not allowed for agent calling"), Err (Unauthorized "agent pi is not enabled for agent calling")).
Proof. vm_compute. reflexivity. Qed.

Definition allow_only : @Value Jv.json := JArr [JObj {[ "optionId" := JStr "yes"; "kind" := JStr "allow_once" ]}].
Definition key_with (approval : ApprovalPolicy) (id : string) : option ApiKeyRecord :=
  Some {| ak_id := id; ak_name := "ci"; ak_secret_hash := ""; ak_history_public_key := ""; ak_scopes := {| sc_agents := None; sc_workspaces := None |};
          ak_approval := approval; ak_created_at := 0; ak_expires_at := None; ak_last_used_at := None; ak_revoked_at := None |}.
Definition child_of_key : PolicyManifest := {| po_owner := "apikey:k"; po_parent := Some "p" |}.
Definition yes : PermissionDecision := {| pd_outcome := AllowOnce; pd_option_id := Some "yes" |}.

Lemma standing_approval_needs_consent_witness : rightly_approved (Some child_of_key) (key_with AutoApprove) auto allow_only false yes.
Proof.
  apply (standing_approval_needs_consent (Some child_of_key) (key_with AutoApprove) auto allow_only false yes "apikey-policy:k"); vm_compute; reflexivity.
Defined.
(** A key that rejects does not decide a request without an option to reject;
    where an agent of the key called another, the setting for agent calls then
    approves it. *)
Example rejecting_key_is_overruled :
  daemon_decide (Some child_of_key) (key_with Reject) auto allow_only false = Some (yes, "agent-call-policy").
Proof. vm_compute. reflexivity. Qed.
End ScopeExample.
